(* ===== verification/_CoqProject ===== *)
-Q . S2P
Prelude.v
Errors.v
Extern.v
BodyChannel.v
Handles.v
HandlesFacts.v
HandlesProps.v
Net.v
Lookup.v
ServeOptions.v
Admission.v
ServeRuntime.v
ServeRuntimeFacts.v
ServeRuntimeProps.v
Pool.v
PoolProps.v
Client.v
Text.v
Dispatcher.v
DispatcherProps.v
Pumps.v
Addr.v
Fetch.v
ServeCycle.v
ServeCycleProps.v
PathWatch.v
Threads.v
DnsSd.v
PeerPolicy.v
PeerPolicyProps.v
BrowseEngine.v
BrowseEngineProps.v
AdvertEngine.v
MdnsAdvert.v
PeerBrowse.v
PeerBrowseProps.v
AdvertRefresh.v
DiscoveryStart.v
Ownership.v
OwnershipProps.v
OwnershipFence.v
OwnershipOrder.v
Sessions.v
SessionsProps.v
HostAdapter.v
HostAdapterProps.v
DenoServe.v
DenoWake.v
DenoProps.v
TauriState.v
MobileActor.v
MobileAdvert.v
Stack.v
DenoCall.v
DenoCallProps.v
DenoBodyProps.v
DiscoveryRegistry.v
DiscoveryRegistryProps.v
DenoDispatch.v
DenoDispatchProps.v
TauriDiscovery.v
TauriDiscoveryProps.v
IpText.v
DnsConfig.v
DnsProxy.v
EndpointBind.v
EndpointCreate.v
EndpointProps.v
PathRx.v
PathRxProps.v
PeerStats.v
NodeHandles.v
HostCalls.v
HostCallsProps.v
HostArgs.v
MobileArgs.v
MobileDiscovery.v
MobileDiscoveryFacts.v
MobileDiscoverySteps.v
MobileDiscoveryProps.v
