(* ===== verification/Prelude.v ===== *)
(** * iroh-http: a verification development

    iroh-http carries HTTP/1.1 over the QUIC streams of iroh endpoints and
    offers it to JavaScript hosts through an FFI of integer handles.  This
    library models the core crate, [src/crates/iroh-http-core/src], the host
    adapter, the discovery crate and the stateful parts of the Tauri, Deno and
    Node packages by shallow embedding and proves what they promise.  Paths below are
    relative to the core crate unless another one is named.

    ** The program and the files that model it

    - The handle store ([ffi/handles.rs]) owns every resource a host can name:
      body readers and writers, response heads, sessions, fetch tokens and
      pending readers, with capacity limits, an undo guard for multi-handle
      allocations and a TTL sweep.  [BodyChannel] models the channels behind
      readers and writers, [Handles] the registries and all methods,
      [HandlesFacts] and [HandlesProps] prove them correct.  Values shared
      through [Arc] live in an explicit heap with reference counts; every method
      is a function on [World], the store with its heap.
    - Request dispatch and [respond] ([ffi/dispatcher.rs]) turn an incoming
      request into handles and a callback and await the response head:
      [Dispatcher], [DispatcherProps], on the operations of [Handles].
    - The body pumps ([ffi/pumps.rs]) move bytes between hyper or QUIC and body
      channels: [Pumps].
    - The FFI fetch ([ffi/fetch.rs]) checks its arguments, runs the exchange
      under cancellation and timeout and packages the response: [Fetch].  The
      exchange is [fetch_request] of [http/client.rs], modelled by [Client], which
      uses the connection pool ([http/transport/pool.rs]): [Pool], [PoolProps].
    - The server side: option resolution and validation ([ServeOptions], from
      [http/server/options.rs], [connection.rs], [mod.rs], [stack.rs]);
      connection admission and its RAII trackers ([Admission], from
      [http/server/lifecycle.rs]); the connection runtime of
      [http/server/connection.rs] with its accept loop, request tasks and
      graceful shutdown ([ServeRuntime], [ServeRuntimeFacts],
      [ServeRuntimeProps]); the serve cycles of an endpoint with [ServeHandle],
      the whole-endpoint accept loop and both closes ([ServeCycle],
      [ServeCycleProps], from [http/server/handle.rs], [accept.rs], [mod.rs] and
      [endpoint/lifecycle.rs], [session_runtime.rs], [mod.rs]); the layers of the
      serve stack that are the crate's own ([Stack], from [http/server/stack.rs]
      and [error_layer.rs]).
    - Addresses: the source-scoped lookup of discovered addresses
      ([endpoint/source_scoped_lookup.rs]) in [Lookup]; node ids, tickets and
      direct addresses ([addr.rs], [encoding.rs], [endpoint/observe.rs],
      [endpoint/bind.rs]) in [Addr]; the statistics of an endpoint and of its
      peers ([endpoint/stats.rs], [observe.rs]) in [PeerStats].
    - Binding: the options of an endpoint and what [IrohEndpoint::bind] makes of
      them ([endpoint/config.rs], [bind.rs]) in [EndpointBind]; how the three
      bindings build those options from what a host passes in [EndpointCreate];
      [EndpointProps] has the properties of both.
    - DNS ([endpoint/dns_nameservers.rs], [scoped_dns_compat.rs]): reading configured
      name servers in [DnsConfig], on the address parsers of [IpText], and the
      forwarding proxy with its bound on queries in flight in [DnsProxy].
    - Path subscriptions and their watcher tasks ([endpoint/observe.rs]) in
      [PathWatch]; the receivers that the three bindings keep for them in
      [PathRx] and [PathRxProps].
    - Sessions and the endpoint registry ([ffi/session.rs], [ffi/registry.rs]):
      [Sessions], [SessionsProps], on the session and body handles of [Handles].
    - The host adapter ([src/crates/iroh-http-adapter/src/lib.rs]) validates what
      a host passes in and delivers requests to it: [HostAdapter],
      [HostAdapterProps].
    - Discovery ([src/crates/iroh-http-discovery/src]).  [DnsSd] has the records,
      events and daemon commands ([engine/types.rs], [dns_sd.rs]), [PeerPolicy]
      and [PeerPolicyProps] what an endpoint publishes and what a browser reads
      from it ([lib.rs]).  The sessions of [engine/session.rs] are the machines
      [BrowseEngine] and [AdvertEngine] over interleaved calls ([Threads] has
      their threads), with [BrowseEngineProps]; [MdnsAdvert] is the desktop handle below an advertisement, [PeerBrowse]
      and [PeerBrowseProps] the peer browse above a browse session, which
      updates the lookup of [Lookup], [AdvertRefresh] the worker that keeps an
      advertisement current, and [DiscoveryStart] how all of them are started.
    - The Tauri plugin ([src/packages/iroh-http-tauri/src]): the ownership of
      discovery sessions by endpoints and WebViews ([discovery_ownership.rs]) in
      [Ownership], [OwnershipProps] and [OwnershipFence]; the endpoint owners and
      handle maps ([state.rs], [discovery_handles.rs]) in [TauriState]; the
      actors of a mobile browse and of a mobile advertisement
      ([mobile_discovery_transport.rs]) in [MobileActor] and [MobileAdvert]; the desktop discovery commands with their slabs
      ([commands.rs]) in [TauriDiscovery] and [TauriDiscoveryProps], on the
      operations of [Ownership]; the mobile ones with their detached native
      starts, refresh tasks and retirements in [MobileDiscovery],
      [MobileDiscoveryFacts], [MobileDiscoverySteps] and [MobileDiscoveryProps],
      which use the order of an owner's sessions proved in [OwnershipOrder]; what
      they hand to the native side in [MobileArgs].
    - The Deno serve bridge ([src/packages/iroh-http-deno/src]: [serve_registry.rs],
      [dispatch.rs], [lib.rs] and the request loop of [adapter.ts]): the queues in
      [DenoServe], the loop with its wake-ups in [DenoWake], [DenoProps].
    - The Deno FFI symbols ([lib.rs] of the Deno package): caller buffers, the
      overflow cache of large answers, split fetches, chunk and stream-error
      symbols and responses in [DenoCall], with [DenoCallProps] and
      [DenoBodyProps]; the JSON handlers of [dispatch.rs]
      that work on the handle store, with their rows of the dispatch table, in
      [DenoDispatch] and [DenoDispatchProps].
    - The browse and advertise sessions that the Deno and Node bindings keep
      ([dispatch.rs], [iroh-http-node/src/lib.rs]): [DiscoveryRegistry],
      [DiscoveryRegistryProps].
    - The endpoint handles of the Node package ([iroh-http-node/src/lib.rs]):
      [NodeHandles].
    - The calls of the three bindings on an endpoint's handle store, which are
      the same operations three times: [HostCalls], [HostCallsProps]; their
      serve, service and key arguments: [HostArgs].
    - [Errors] has the error type of the FFI ([error.rs]); this file the shared
      notions; [Text] the string methods the code uses.

    ** How code is modelled

    Pure code is a function.  Fallible code returns [Result].  Machine integers
    are [Z] with saturation, wrap-around and bounds written out.  Code that
    suspends is a poll function, or a machine whose steps are the sections
    between two suspension points or lock releases; what other tasks and the
    environment do in between is either a list of actions given to the function
    ([BodyChannel], [Pumps]), an answer given to each step ([Client], [Fetch]),
    or a step relation over all tasks of the component, so that theorems hold for
    every interleaving ([Pool], [Lookup], [ServeRuntime], [ServeCycle], [PathWatch],
    [BrowseEngine], [AdvertEngine], [MdnsAdvert], [PeerBrowse], [Ownership],
    [DenoWake], [TauriState], [MobileActor], [MobileAdvert], [DenoCall],
    [DiscoveryRegistry], [TauriDiscovery], [PathRx], [DnsProxy], [NodeHandles],
    [MobileDiscovery]).

    Third-party code is a parameter: [Extern] has a class per structure used
    ([slotmap::SlotMap], tokio's [mpsc] and [Notify], moka's [Cache]) with the
    documented effect of each operation as laws over an abstract view, and an
    executable instance that satisfies them; [Net] and [Addr] do the same for
    iroh's ids, addresses and text forms.  Other calls into the [http] crate,
    hyper and serde are function parameters of the sections that use them.

    ** What the theorems show

    - Handles: in every reachable state the registries are within their limit and
      point at live objects; an uncommitted guard undoes everything; chunks come
      out as they went in; end of body releases the handle and reports the
      terminal error once; a released handle is never reissued unless a sweep
      compacts the registry, and then it is; the sweep removes exactly what is
      expired; a cancel that falls between lookup and registration is lost.
    - Dispatch and fetch: the peer identity a handler sees is the authenticated
      one; allocation is all or nothing; the first valid [respond] completes
      exactly its dispatch; a fetch token is removed by every ending of a running
      fetch (and by no refusal); cancellation ends a fetch at its next poll; body
      handles are zero exactly for bodiless statuses; which part of a URL becomes
      the request target.
    - Pumps: for every ending, what the reader received and which error it will
      find; an overflow is always signalled and drained, and a body is given up
      silently only at a full queue; the two endings that misreport.
    - Client and pool: the effects of a fetch refine a specification of traces
      (one attempt, at most one retry of a replay-safe request on a reused
      connection, evictions scoped to the connection that failed); connections
      handed out are to the right peer, were live and have an identity of their
      own among all the process has made; one dial per key, whose ending every
      waiting caller shares, on the documented behaviour of moka's
      [try_get_with].
    - Server: connection, peer, request and delivery counters are exact, beside
      other serve cycles that use the shared ones, and the limits hold; a recorded
      drain cuts no response; close and drain wake-ups are not lost; past its
      deadline shutdown returns within eight sections of its own, whatever runs in
      between; connection events balance, and how they can be inverted; the other
      cycle that blocks a shutdown; a serve loop that was replaced, stopped or
      closed is stopping or about to be stopped without a wait, and then takes no
      connection beyond the one in its handshake; [stop_serve] is final; a request body times out exactly when it was idle for the timeout;
      what is not compressed.
    - Addresses: [resolve] serves exactly the union of the live contributions
      under every interleaving; retirement is final; snapshots are exact; tickets
      round trip.
    - Binding and DNS: an endpoint has exactly the relay mode, address lookups,
      protocols, timeouts and sockets its options name; whatever a host passes, the endpoint it gets is
      within its limits; the DNS proxy forwards every answer to the client that
      asked and never has more queries in flight than its bound.
    - Paths: a peer has subscriptions exactly while its one watcher runs; a poll
      for a path change is not stranded by an unsubscribe or a close.
    - Sessions: how a session ends; streams are allocated whole or not at all; a
      connection of another protocol is turned away; a session in use is swept.
    - Adapter: options are accepted exactly within their limits and come out as
      they went in; a request that cannot be delivered is answered and ended.
    - Discovery: published entries fit their bound and read back; no address of a
      departed interface stays published; a browse loses no event to a cancelled
      call; the answer of an update is what is published, until a close has it
      withdrawn; closes are final and
      leave nothing behind; the peer events are the lookup's own account; a start
      that fails leaves nothing.
    - Ownership: a retirement takes exactly its sessions and its owners never
      track again; a start runs only after every earlier cleanup of its WebView
      succeeded.  One live endpoint per node id; handles are not reused.  A
      mobile browse reports every event once and stops the native side once; a
      mobile advertisement tells its callers what the native side acknowledged.
      On desktop no session outlives the page or endpoint it belongs to, and none
      is lost between its start and its tracking.  On mobile a native
      registration of a page or endpoint starts only when those of the generation
      before it are over, and every registration has one call or record that is
      responsible for it.
    - Deno: every request is in exactly one place; the loop never sleeps while
      requests wait, and exactly which of them it hands over; how requests are
      lost to a small buffer and to a stop, and how two large ones end the loop.  An answer that did not fit its buffer
      comes back once and unchanged; a fetch result is handed out once; a body
      read through the symbols is complete if the buffer holds its chunks, and
      how it is not otherwise; the synchronous read agrees with the waiting one.
      The JSON handlers on a store touch only the endpoint they name; a discovery session of a binding is published or closed, handles
      are not reused, and the retirement of an endpoint is final.
    - Bindings: a Node handle names the endpoint of the call that returned it
      until it is closed, and never again; a call on a handle store has the same
      effect and the same answer whichever binding it comes through, and where
      they differ: a failed [rawRespond] of Node, a port of zero in Tauri.

    ** Bounds and fuel

    [send_pieces] runs on the length of the chunk, which suffices because every
    round advances by at least one byte ([send_pieces_spec] proves it returns);
    [fetch_request], the pumps and the step machines recurse on the list of
    answers or actions they are given, and the theorems prove that they return
    once those end the exchange.  [str_trim] strips at most one white-space
    character per round and runs on the length of the string.  The retries of
    daemon commands run on their counter, and the drain loop of a Deno stop on
    the capacity of its queue plus one, which empties it ([drain_queue_all]).
    The eviction of the Deno overflow cache runs on the size of the cache, since
    every round removes an entry.  Serve, overflow and fetch tokens are 64-bit:
    theorems about them assume fewer than 2^64 cycles ([fits]) or steps, and the
    identity of a pooled connection at most 2^64 increments of [DIAL_SEQ] in the
    process ([seqs_left]).  Node
    handles are 32-bit and theorems assume that they have not run out
    ([handles_left]).
    Limits are assumed below [usize::MAX] where counts saturate.

    ** What is not modelled

    The composition of the tower layers (the options and the crate's own layers
    are modelled), the boxing of hyper bodies, the enumeration of network
    interfaces (the platform inventories are arguments), the reads of the bindings
    that return one field, their transport-event channels, the registration of
    the Tauri plugin with the runtime and its one-call wrappers of native methods,
    and the delegation of stream I/O to QUIC halves.  hyper, tower-http, tokio's scheduler, iroh's transport,
    moka's policies, the mdns_sd daemon and the native mobile services are
    environments. *)

From stdpp Require Import base numbers list strings gmap fin_maps pretty relations.
From Stdlib Require Import ZArith Lia.
From Stdlib Require Import Strings.Byte.

(** ** Notations *)

Declare Scope iroh_scope.
Delimit Scope iroh_scope with iroh.
Open Scope iroh_scope.

(** ** Results and polls *)

(** Rust's [Result<T, E>]. *)
Inductive Result (T E : Type) : Type :=
| Ok (v : T)
| Err (e : E).
Arguments Ok {T E} v.
Arguments Err {T E} e.

(** Rust's [Poll<T>]. *)
Inductive Poll (T : Type) : Type :=
| Ready (v : T)
| Pending.
Arguments Ready {T} v.
Arguments Pending {T}.

(** The [?] operator on a [Result]. *)
Notation "'let?' x ':=' e 'in' k" :=
  (match e with Ok x => k | Err er => Err er end)
  (at level 10, x pattern, e at level 100, k at level 200) : iroh_scope.

(** Unwrapping one step of a chain of checks. *)
Lemma let_ok {A B E} (r : Result A E) (k : A -> Result B E) (v : B) :
  (let? a := r in k a) = Ok v <-> exists a, r = Ok a /\ k a = Ok v.
Proof. destruct r; naive_solver. Qed.

#[global] Instance result_eq_dec `{EqDecision T, EqDecision E} : EqDecision (Result T E).
Proof. solve_decision. Defined.
#[global] Instance poll_eq_dec `{EqDecision T} : EqDecision (Poll T).
Proof. solve_decision. Defined.

Definition is_ok {T E} (r : Result T E) : bool :=
  match r with Ok _ => true | Err _ => false end.

Definition map_err {T E F} (f : E -> F) (r : Result T E) : Result T F :=
  match r with Ok v => Ok v | Err e => Err (f e) end.

Definition ok_or {T E} (o : option T) (e : E) : Result T E :=
  match o with Some v => Ok v | None => Err e end.

Lemma is_ok_true {T E} (r : Result T E) : is_ok r = true <-> exists v, r = Ok v.
Proof. split; [destruct r; [eauto|done] | intros [v ->]; done]. Qed.

(** ** Machine integers

    A [u64]/[usize] value is a [Z] in [0, 2^64); the arithmetic the sources
    use is written out with its width. *)

Definition U16_MAX : Z := 65535.
Definition U64_MAX : Z := 18446744073709551615.
Definition USIZE_MAX : Z := U64_MAX.

Definition is_u64 (n : Z) : Prop := (0 <= n <= U64_MAX)%Z.

(** [usize::saturating_add]. *)
Definition sat_add (a b : Z) : Z := Z.min (a + b) USIZE_MAX.
(** [usize::saturating_sub]. *)
Definition sat_sub (a b : Z) : Z := Z.max (a - b) 0.
(** [u64::checked_add]. *)
Definition checked_add (a b : Z) : option Z :=
  if (a + b <=? U64_MAX)%Z then Some (a + b)%Z else None.
(** [u64::wrapping_add] (and [AtomicU64::fetch_add]). *)
Definition wrapping_add (a b : Z) : Z := (a + b) mod (U64_MAX + 1).
(** [AtomicUsize::fetch_sub], which wraps. *)
Definition wrapping_sub (a b : Z) : Z := (a - b) mod (USIZE_MAX + 1).

Lemma sat_add_exact a b : (a + b <= USIZE_MAX)%Z -> sat_add a b = (a + b)%Z.
Proof. unfold sat_add. lia. Qed.

Lemma sat_add_le a b : (sat_add a b <= USIZE_MAX)%Z.
Proof. unfold sat_add. lia. Qed.

Lemma sat_add_nonneg a b : (0 <= a)%Z -> (0 <= b)%Z -> (0 <= sat_add a b)%Z.
Proof. unfold sat_add, USIZE_MAX, U64_MAX. lia. Qed.

Lemma sat_add_ge_l a b : (0 <= b)%Z -> (a <= USIZE_MAX)%Z -> (a <= sat_add a b)%Z.
Proof. unfold sat_add. lia. Qed.

Lemma wrapping_sub_exact a b :
  (0 <= b <= a)%Z -> (a <= USIZE_MAX)%Z -> wrapping_sub a b = (a - b)%Z.
Proof. unfold wrapping_sub. intros. apply Z.mod_small. lia. Qed.

Lemma wrapping_add_exact a b :
  (0 <= a)%Z -> (0 <= b)%Z -> (a + b <= U64_MAX)%Z -> wrapping_add a b = (a + b)%Z.
Proof. unfold wrapping_add. intros. apply Z.mod_small. lia. Qed.

(** ** Byte strings *)

Definition Bytes := list Byte.byte.

(** [slice(offset..end)] with [end = offset + n]. *)
Definition slice {A} (offset n : nat) (l : list A) : list A := take n (drop offset l).

Definition len {A} (l : list A) : Z := Z.of_nat (length l).

Lemma len_nonneg {A} (l : list A) : (0 <= len l)%Z.
Proof. unfold len. lia. Qed.

Lemma len_nil {A} : len (@nil A) = 0%Z.
Proof. done. Qed.

Lemma len_app {A} (l k : list A) : len (l ++ k) = (len l + len k)%Z.
Proof. unfold len. rewrite length_app. lia. Qed.

Lemma take_slice_drop {A} (l : list A) offset n :
  drop offset l = slice offset n l ++ drop (offset + n) l.
Proof. unfold slice. rewrite <- drop_drop. symmetry. apply take_drop. Qed.

(** ** Sums over lists *)

Fixpoint zsum {A} (f : A -> Z) (l : list A) : Z :=
  match l with [] => 0 | x :: l => f x + zsum f l end%Z.

Lemma zsum_app {A} (f : A -> Z) l k : zsum f (l ++ k) = (zsum f l + zsum f k)%Z.
Proof. induction l; simpl; lia. Qed.

Lemma zsum_insert {A} (f : A -> Z) l i x y :
  l !! i = Some x -> zsum f (<[i := y]> l) = (zsum f l - f x + f y)%Z.
Proof.
  revert i. induction l as [|z l IH]; intros [|i] Hi; simpl in *; try done.
  - injection Hi as ->. lia.
  - rewrite (IH i) by done. lia.
Qed.

Lemma zsum_nonneg {A} (f : A -> Z) l : (forall x, 0 <= f x)%Z -> (0 <= zsum f l)%Z.
Proof. intros Hf. induction l as [|x l IH]; simpl; [lia|]. specialize (Hf x). lia. Qed.

Lemma zsum_lookup {A} (f : A -> Z) l i x :
  (forall x, 0 <= f x)%Z -> l !! i = Some x -> (f x <= zsum f l)%Z.
Proof.
  intros Hf. revert i. induction l as [|z l IH]; intros [|i] Hi; simpl in *; try done.
  - injection Hi as ->. pose proof (zsum_nonneg f l Hf). lia.
  - specialize (Hf z). specialize (IH i Hi). lia.
Qed.

Lemma zsum_ext {A} (f g : A -> Z) l : (forall x, x ∈ l -> f x = g x) -> zsum f l = zsum g l.
Proof.
  induction l as [|x l IH]; intros Hfg; [done|]. simpl.
  rewrite (Hfg x) by left. rewrite IH; [done|]. intros y Hy. apply Hfg. by right.
Qed.

Lemma zsum_zero {A} (f : A -> Z) l : (forall x, 0 <= f x)%Z -> zsum f l = 0%Z ->
  forall i x, l !! i = Some x -> f x = 0%Z.
Proof. intros Hf Hz i x Hi. pose proof (zsum_lookup f l i x Hf Hi). specialize (Hf x). lia. Qed.

(** ** Reachability *)

(** An invariant of every step holds along every sequence of steps. *)
Lemma rtc_invariant {A} (R : relation A) (P : A -> Prop) x y :
  (forall a b, R a b -> P a -> P b) -> rtc R x y -> P x -> P y.
Proof. intros Hs Hr. induction Hr; eauto. Qed.

(** The same for a property that depends on the number of steps, which has a bound. *)
Lemma nsteps_invariant {A} (R : relation A) (P : nat -> A -> Prop) (bound : nat) n x y :
  (forall n a b, S n <= bound -> R a b -> P n a -> P (S n) b) ->
  nsteps R n x y -> n <= bound -> P 0 x -> P n y.
Proof.
  intros Hs. revert y. induction n as [|n IH]; intros y Hn Hb Hx.
  - inversion Hn; by subst.
  - apply nsteps_inv_r in Hn as (z & Hn & Hz). apply (Hs n z y Hb Hz), IH; [done|lia|done].
Qed.

(** ** Tactics *)

(** Split every [match]/[if] on a boolean or a constructor that the goal or a
    hypothesis scrutinises, keeping the equation. *)
Ltac case_match_goal :=
  match goal with
  | |- context [match ?x with _ => _ end] =>
      lazymatch x with
      | context [match _ with _ => _ end] => fail
      | _ => destruct x eqn:?
      end
  end.

Ltac case_match_hyp H :=
  match type of H with
  | context [match ?x with _ => _ end] =>
      lazymatch x with
      | context [match _ with _ => _ end] => fail
      | _ => destruct x eqn:?
      end
  end.

(** Boolean comparisons on [Z] to propositions, then [lia]. *)
Ltac bool_to_prop :=
  repeat match goal with
  | H : (_ =? _)%Z = true |- _ => apply Z.eqb_eq in H
  | H : (_ =? _)%Z = false |- _ => apply Z.eqb_neq in H
  | H : (_ <? _)%Z = true |- _ => apply Z.ltb_lt in H
  | H : (_ <? _)%Z = false |- _ => apply Z.ltb_ge in H
  | H : (_ <=? _)%Z = true |- _ => apply Z.leb_le in H
  | H : (_ <=? _)%Z = false |- _ => apply Z.leb_gt in H
  | H : andb _ _ = true |- _ => apply andb_prop in H; destruct H
  | H : negb _ = true |- _ => apply negb_true_iff in H
  | H : negb _ = false |- _ => apply negb_false_iff in H
  end.
Ltac zify_bool := bool_to_prop; lia.

(** ** Hints *)

Create HintDb iroh.
Create Rewrite HintDb iroh.
#[export] Hint Resolve len_nonneg sat_add_le sat_add_nonneg : iroh.
#[export] Hint Rewrite @len_nil @len_app : iroh.
