(* ===== verification/Errors.v ===== *)
(** * Structured errors (iroh-http-core/src/error.rs)

    [ErrorCode], [CoreError] and its constructors. *)

From stdpp Require Import base strings pretty.
From Stdlib Require Import ZArith.
From S2P Require Import Prelude.

Open Scope string_scope.
Open Scope list_scope.

Inductive ErrorCode :=
| InvalidInput
| ConnectionFailed
| Timeout
| BodyTooLarge
| HeaderTooLarge
| PeerRejected
| Cancelled
| Internal.

Record CoreError := mkCoreError { code : ErrorCode; message : string }.

#[global] Instance ErrorCode_eq_dec : EqDecision ErrorCode.
Proof. solve_decision. Defined.
#[global] Instance CoreError_eq_dec : EqDecision CoreError.
Proof. solve_decision. Defined.

Definition invalid_input (detail : string) : CoreError := mkCoreError InvalidInput detail.
Definition connection_failed (detail : string) : CoreError := mkCoreError ConnectionFailed detail.
Definition timeout (detail : string) : CoreError := mkCoreError Timeout detail.
Definition body_too_large (detail : string) : CoreError := mkCoreError BodyTooLarge detail.
Definition header_too_large (detail : string) : CoreError := mkCoreError HeaderTooLarge detail.
Definition peer_rejected (detail : string) : CoreError := mkCoreError PeerRejected detail.
Definition internal (detail : string) : CoreError := mkCoreError Internal detail.
Definition invalid_handle (handle : Z) : CoreError :=
  mkCoreError InvalidInput ("unknown handle: " +:+ pretty handle).
Definition cancelled : CoreError := mkCoreError Cancelled "aborted".
