(* ===== verification/Extern.v ===== *)
(** * Interfaces of the third-party code the crate is built on

    [slotmap::SlotMap] and [tokio::sync::mpsc] are not part of the repository;
    they are parameters of the model.  Each is a class of operations with a
    [view] to an abstract value and laws that state the documented effect of
    every operation on that view.  An executable instance of each class, used
    by the concrete examples, shows the laws are satisfiable. *)

From stdpp Require Import base numbers list gmap fin_maps.
From Stdlib Require Import ZArith Lia.
From S2P Require Import Prelude.

(** ** [slotmap::SlotMap] *)

(** [sm_stale k m]: key [k] was handed out by [m] and removed since.
    [sm_room m]: no slot of [m] has used up its generation counter (the crate
    documents that a key may only be reissued after 2^31 reuses of one slot).
    [as_ffi] / [from_ffi] are those of [KeyData]. *)
Class SlotMap (K : Type) (M : Type -> Type) := {
  sm_with_key : forall {V}, M V;
  sm_insert : forall {V}, V -> M V -> K * M V;
  sm_get : forall {V}, K -> M V -> option V;
  sm_modify : forall {V}, (V -> V) -> K -> M V -> M V;
  sm_remove : forall {V}, K -> M V -> option V * M V;
  sm_len : forall {V}, M V -> nat;
  sm_capacity : forall {V}, M V -> nat;
  sm_keys : forall {V}, M V -> list K;
  as_ffi : K -> Z;
  from_ffi : Z -> K;
  sm_stale : forall {V}, K -> M V -> Prop;
  sm_room : forall {V}, M V -> Prop
}.

Class SlotMapLaws (K : Type) (M : Type -> Type) `{SlotMap K M} `{Countable K} := {
  sm_view : forall {V}, M V -> gmap K V;
  from_as_ffi : forall k, from_ffi (as_ffi k) = k;
  as_ffi_nonzero : forall k, as_ffi k <> 0%Z;
  sm_view_with_key : forall V, sm_view (sm_with_key : M V) = ∅;
  sm_view_get : forall V k (m : M V), sm_get k m = sm_view m !! k;
  sm_view_insert_fresh : forall V (v : V) m, sm_view m !! (sm_insert v m).1 = None;
  sm_view_insert : forall V (v : V) m,
    sm_view (sm_insert v m).2 = <[(sm_insert v m).1 := v]> (sm_view m);
  sm_view_modify : forall V f k (m : M V), sm_view (sm_modify f k m) = alter f k (sm_view m);
  sm_view_remove_val : forall V k (m : M V), (sm_remove k m).1 = sm_view m !! k;
  sm_view_remove : forall V k (m : M V), sm_view (sm_remove k m).2 = delete k (sm_view m);
  sm_view_len : forall V (m : M V), sm_len m = size (sm_view m);
  sm_keys_nodup : forall V (m : M V), NoDup (sm_keys m);
  sm_keys_elem : forall V k (m : M V), k ∈ sm_keys m <-> is_Some (sm_view m !! k);
  sm_stale_absent : forall V k (m : M V), sm_stale k m -> sm_view m !! k = None;
  sm_stale_remove : forall V k (m : M V),
    is_Some (sm_view m !! k) -> sm_stale k (sm_remove k m).2;
  sm_stale_remove_other : forall V k k' (m : M V),
    sm_stale k m -> sm_stale k (sm_remove k' m).2;
  sm_stale_modify : forall V f k k' (m : M V), sm_stale k m -> sm_stale k (sm_modify f k' m);
  sm_stale_insert : forall V (v : V) k m,
    sm_room m -> sm_stale k m -> (sm_insert v m).1 <> k /\ sm_stale k (sm_insert v m).2
}.

(** ** [tokio::sync::mpsc] (bounded) *)

(** What the channel holds: the queued messages, the capacity, the number of
    live senders and whether the receiver is alive. *)
Record ChanView (A : Type) := mkChan {
  cv_buf : list A;
  cv_cap : nat;
  cv_senders : nat;
  cv_rx : bool
}.
Arguments mkChan {A} _ _ _ _.
Arguments cv_buf {A} _.
Arguments cv_cap {A} _.
Arguments cv_senders {A} _.
Arguments cv_rx {A} _.

Inductive TrySend := Sent | SendFull | SendClosed.
Inductive TryRecv (A : Type) := Received (a : A) | RecvEmpty | RecvDisconnected.
Arguments Received {A} a.
Arguments RecvEmpty {A}.
Arguments RecvDisconnected {A}.

(** The documented effect of each operation on the view. *)
Definition cv_try_send {A} (x : A) (c : ChanView A) : TrySend * ChanView A :=
  if negb (cv_rx c) then (SendClosed, c)
  else if decide (length (cv_buf c) < cv_cap c)
  then (Sent, mkChan (cv_buf c ++ [x]) (cv_cap c) (cv_senders c) (cv_rx c))
  else (SendFull, c).

Definition cv_try_recv {A} (c : ChanView A) : TryRecv A * ChanView A :=
  match cv_buf c with
  | x :: rest => (Received x, mkChan rest (cv_cap c) (cv_senders c) (cv_rx c))
  | [] => if decide (cv_senders c = 0) then (RecvDisconnected, c) else (RecvEmpty, c)
  end.

Definition cv_clone_tx {A} (c : ChanView A) : ChanView A :=
  mkChan (cv_buf c) (cv_cap c) (S (cv_senders c)) (cv_rx c).
Definition cv_drop_tx {A} (c : ChanView A) : ChanView A :=
  mkChan (cv_buf c) (cv_cap c) (pred (cv_senders c)) (cv_rx c).
(** Dropping the receiver closes the channel and drops the queued messages. *)
Definition cv_drop_rx {A} (c : ChanView A) : ChanView A :=
  mkChan [] (cv_cap c) (cv_senders c) false.

Class Mpsc (C : Type -> Type) := {
  mpsc_channel : forall {A}, nat -> C A;
  try_send : forall {A}, A -> C A -> TrySend * C A;
  try_recv : forall {A}, C A -> TryRecv A * C A;
  clone_tx : forall {A}, C A -> C A;
  drop_tx : forall {A}, C A -> C A;
  drop_rx : forall {A}, C A -> C A
}.

Class MpscLaws (C : Type -> Type) `{Mpsc C} := {
  chan_view : forall {A}, C A -> ChanView A;
  chan_view_new : forall A n, chan_view (mpsc_channel n : C A) = mkChan [] n 1 true;
  chan_view_try_send : forall A (x : A) c,
    (try_send x c).1 = (cv_try_send x (chan_view c)).1 /\
    chan_view (try_send x c).2 = (cv_try_send x (chan_view c)).2;
  chan_view_try_recv : forall A (c : C A),
    (try_recv c).1 = (cv_try_recv (chan_view c)).1 /\
    chan_view (try_recv c).2 = (cv_try_recv (chan_view c)).2;
  chan_view_clone_tx : forall A (c : C A), chan_view (clone_tx c) = cv_clone_tx (chan_view c);
  chan_view_drop_tx : forall A (c : C A), chan_view (drop_tx c) = cv_drop_tx (chan_view c);
  chan_view_drop_rx : forall A (c : C A), chan_view (drop_rx c) = cv_drop_rx (chan_view c)
}.

(** ** [tokio::sync::Notify], used with [notify_waiters] *)

(** [nt_notified] creates the future of [notified()]; [nt_fires f n]: polling it
    completes.  [nt_made f n]: [f] was created from [n] at this or an earlier
    state.  The documentation guarantees that a [notified()] future receives
    every [notify_waiters] issued after its creation, and that
    [notify_waiters] stores no permit for later ones. *)
Class Notify (N F : Type) := {
  nt_new : N;
  nt_notified : N -> F;
  nt_notify_waiters : N -> N;
  nt_fires : F -> N -> bool
}.

Class NotifyLaws (N F : Type) `{Notify N F} := {
  nt_made : F -> N -> Prop;
  nt_made_now : forall n, nt_made (nt_notified n) n;
  nt_made_later : forall f n, nt_made f n -> nt_made f (nt_notify_waiters n);
  nt_fires_after : forall f n, nt_made f n -> nt_fires f (nt_notify_waiters n) = true;
  nt_no_permit : forall n, nt_fires (nt_notified n) n = false
}.

(** ** [moka::future::Cache] *)

(** [ca_compute k f] is [entry(k).and_compute_with]: [f] decides, under the
    entry's lock, whether the entry is removed; the removed value is returned.
    [ca_try_get_with k] is the entry of [try_get_with]: the cached value, or the
    caller is to evaluate its initialiser, or it waits for the one in flight;
    [ca_init_end k] ends an initialiser, with the value it produced if it did.
    [ca_evict] is the cache's own eviction of an entry. *)
Inductive TryGet (V : Type) := TgHit (v : V) | TgInit | TgJoin.
Arguments TgHit {V} v.
Arguments TgInit {V}.
Arguments TgJoin {V}.

Class Cache (K V M : Type) := {
  ca_new : M;
  ca_get : K -> M -> option V;
  ca_compute : K -> (option V -> bool) -> M -> option V * M;
  ca_try_get_with : K -> M -> TryGet V * M;
  ca_init_end : K -> option V -> M -> M;
  ca_evict : K -> M -> M
}.

(** [ca_flight]: the keys whose initialiser is being evaluated.  Concurrent calls
    of [try_get_with] for an absent key are coalesced into one evaluation. *)
Class CacheLaws (K V M : Type) `{Cache K V M} `{Countable K} := {
  ca_view : M -> gmap K V;
  ca_flight : M -> gset K;
  ca_view_new : ca_view ca_new = ∅;
  ca_flight_new : ca_flight ca_new = ∅;
  ca_view_get : forall k m, ca_get k m = ca_view m !! k;
  ca_view_compute : forall k f m,
    (ca_compute k f m).1 = (if f (ca_view m !! k) then ca_view m !! k else None) /\
    ca_view (ca_compute k f m).2 = (if f (ca_view m !! k) then delete k (ca_view m) else ca_view m) /\
    ca_flight (ca_compute k f m).2 = ca_flight m;
  ca_view_try_get_with : forall k m,
    (ca_try_get_with k m).1 =
      match ca_view m !! k with
      | Some v => TgHit v
      | None => if decide (k ∈ ca_flight m) then TgJoin else TgInit
      end /\
    ca_view (ca_try_get_with k m).2 = ca_view m /\
    ca_flight (ca_try_get_with k m).2 =
      match ca_view m !! k with Some _ => ca_flight m | None => {[k]} ∪ ca_flight m end;
  ca_view_init_end : forall k o m,
    ca_view (ca_init_end k o m) = (match o with Some v => <[k := v]> (ca_view m) | None => ca_view m end) /\
    ca_flight (ca_init_end k o m) = ca_flight m ∖ {[k]};
  ca_view_evict : forall k m, ca_view (ca_evict k m) = delete k (ca_view m) /\ ca_flight (ca_evict k m) = ca_flight m
}.

(** ** Executable instances *)

(** A slot map that never reuses a slot: slot [k] is the [k]-th insertion, and
    a removed slot stays vacant. *)
Record VecMap (V : Type) := mkVecMap { vm_slots : list (option V) }.
Arguments mkVecMap {V} _.
Arguments vm_slots {V} _.

Definition vm_get {V} (k : nat) (m : VecMap V) : option V := mjoin (vm_slots m !! k).
Definition vm_occupied {V} (m : VecMap V) : list nat :=
  List.filter (fun k => match vm_get k m with Some _ => true | None => false end)
    (seq 0 (length (vm_slots m))).

#[global] Instance VecMap_SlotMap : SlotMap nat VecMap := {|
  sm_with_key := fun V => mkVecMap [];
  sm_insert := fun V v m => (length (vm_slots m), mkVecMap (vm_slots m ++ [Some v]));
  sm_get := fun V k m => vm_get k m;
  sm_modify := fun V f k m => mkVecMap (alter (fmap f) k (vm_slots m));
  sm_remove := fun V k m => (vm_get k m, mkVecMap (<[k := None]> (vm_slots m)));
  sm_len := fun V m => length (vm_occupied m);
  sm_capacity := fun V m => length (vm_slots m);
  sm_keys := fun V m => vm_occupied m;
  as_ffi := fun k => (4294967297 + Z.of_nat k)%Z;
  from_ffi := fun h => Z.to_nat (h - 4294967297);
  sm_stale := fun V k m => vm_slots m !! k = Some None;
  sm_room := fun V m => True
|}.

Definition vm_view {V} (m : VecMap V) : gmap nat V := omap id (map_seq 0 (vm_slots m)).

Lemma lookup_vm_view {V} (m : VecMap V) k : vm_view m !! k = vm_get k m.
Proof.
  unfold vm_view, vm_get. rewrite lookup_omap, lookup_map_seq_0.
  by destruct (vm_slots m !! k) as [[]|].
Qed.

Lemma vm_occupied_elem {V} (m : VecMap V) k : k ∈ vm_occupied m <-> is_Some (vm_get k m).
Proof.
  unfold vm_occupied. rewrite list_elem_of_In, filter_In, in_seq. split.
  - intros [_ H]. destruct (vm_get k m); [eauto|done].
  - intros [v H]. rewrite H. split; [|done]. unfold vm_get in H.
    destruct (vm_slots m !! k) eqn:E; [|done]. apply lookup_lt_Some in E. lia.
Qed.

Lemma vm_occupied_nodup {V} (m : VecMap V) : NoDup (vm_occupied m).
Proof. apply NoDup_ListNoDup, List.NoDup_filter, seq_NoDup. Qed.

Lemma vm_occupied_dom {V} (m : VecMap V) : length (vm_occupied m) = size (vm_view m).
Proof.
  rewrite <- size_dom.
  assert (dom (vm_view m) = list_to_set (vm_occupied m)) as ->.
  { apply set_eq. intros k.
    by rewrite elem_of_dom, elem_of_list_to_set, vm_occupied_elem, lookup_vm_view. }
  by rewrite size_list_to_set by apply vm_occupied_nodup.
Qed.

#[global] Instance VecMap_SlotMapLaws : SlotMapLaws nat VecMap.
Proof.
  refine {| sm_view := fun V m => vm_view m |}; intros; simpl in *.
  - lia.
  - lia.
  - done.
  - by rewrite lookup_vm_view.
  - rewrite lookup_vm_view. unfold vm_get. by rewrite lookup_ge_None_2.
  - apply map_eq; intros k. rewrite lookup_insert, !lookup_vm_view. unfold vm_get; simpl.
    case_decide; subst.
    + by rewrite list_lookup_middle.
    + destruct (decide (k < length (vm_slots m))).
      * by rewrite lookup_app_l.
      * rewrite (lookup_ge_None_2 (_ ++ _)), (lookup_ge_None_2 (vm_slots m)); [done|lia|].
        rewrite length_app; simpl; lia.
  - apply map_eq; intros j. rewrite lookup_alter, !lookup_vm_view. unfold vm_get; simpl.
    rewrite list_lookup_alter. case_decide; subst; [|done].
    by destruct (vm_slots m !! j) as [[]|].
  - by rewrite lookup_vm_view.
  - apply map_eq; intros j. rewrite lookup_delete, !lookup_vm_view. unfold vm_get; simpl.
    rewrite list_lookup_insert. case_decide; repeat case_decide; subst; try done; try tauto.
    all: try (destruct (vm_slots m !! j) eqn:E; [apply lookup_lt_Some in E; lia|done]).
  - apply vm_occupied_dom.
  - apply vm_occupied_nodup.
  - by rewrite vm_occupied_elem, lookup_vm_view.
  - rewrite lookup_vm_view. unfold vm_get. by rewrite H.
  - destruct H as [v Hv]. rewrite lookup_vm_view in Hv. unfold vm_get in Hv.
    apply list_lookup_insert_eq.
    destruct (vm_slots m !! k) eqn:E; [by eapply lookup_lt_Some|done].
  - rewrite list_lookup_insert. case_decide; [done|]. done.
  - rewrite list_lookup_alter. case_decide; subst; [|done]. by rewrite H.
  - split.
    + intros <-. by rewrite lookup_ge_None_2 in H0.
    + apply lookup_app_l_Some. done.
Defined.

(** The channel that is its own view. *)
#[global] Instance ChanView_Mpsc : Mpsc ChanView := {|
  mpsc_channel := fun A n => mkChan [] n 1 true;
  try_send := fun A => cv_try_send;
  try_recv := fun A => cv_try_recv;
  clone_tx := fun A => cv_clone_tx;
  drop_tx := fun A => cv_drop_tx;
  drop_rx := fun A => cv_drop_rx
|}.

#[global] Instance ChanView_MpscLaws : MpscLaws ChanView.
Proof. by refine {| chan_view := fun A c => c |}. Defined.

(** A counter of [notify_waiters] calls; a future is the count at its creation. *)
#[global] Instance nat_Notify : Notify nat nat := {|
  nt_new := 0;
  nt_notified := fun n => n;
  nt_notify_waiters := S;
  nt_fires := fun f n => f <? n
|}.

#[global] Instance nat_NotifyLaws : NotifyLaws nat nat.
Proof.
  refine {| nt_made := fun f n => f <= n |}; simpl; intros; try lia.
  - apply Nat.ltb_lt. lia.
  - apply Nat.ltb_irrefl.
Defined.

(** A cache that is its own view: the entries and the keys with an initialiser in flight. *)
Record MokaCache (K V : Type) `{Countable K} := mkMoka { mo_map : gmap K V; mo_flight : gset K }.
Arguments mkMoka {K V _ _} _ _.
Arguments mo_map {K V _ _} _.
Arguments mo_flight {K V _ _} _.

#[global] Instance MokaCache_Cache `{Countable K} {V} : Cache K V (MokaCache K V) := {|
  ca_new := mkMoka ∅ ∅;
  ca_get := fun k m => mo_map m !! k;
  ca_compute := fun k f m =>
    if f (mo_map m !! k) then (mo_map m !! k, mkMoka (delete k (mo_map m)) (mo_flight m)) else (None, m);
  ca_try_get_with := fun k m =>
    match mo_map m !! k with
    | Some v => (TgHit v, m)
    | None => if decide (k ∈ mo_flight m) then (TgJoin, m) else (TgInit, mkMoka (mo_map m) ({[k]} ∪ mo_flight m))
    end;
  ca_init_end := fun k o m =>
    mkMoka (match o with Some v => <[k := v]> (mo_map m) | None => mo_map m end) (mo_flight m ∖ {[k]});
  ca_evict := fun k m => mkMoka (delete k (mo_map m)) (mo_flight m)
|}.

#[global] Instance MokaCache_CacheLaws `{Countable K} {V} : CacheLaws K V (MokaCache K V).
Proof.
  refine {| ca_view := mo_map; ca_flight := mo_flight |}; simpl; try done.
  - intros k f m. by destruct (f (mo_map m !! k)).
  - intros k m. destruct (mo_map m !! k); [done|]. destruct (decide _); [|done]. split_and!; [done|done|set_solver].
Defined.
