(* ===== verification/BodyChannel.v ===== *)
(** * Body channels (iroh-http-core/src/ffi/handles.rs, first half)

    A body channel is one bounded [mpsc] channel of chunks plus the two shared
    cells next to it: the terminal error and the cancellation [Notify].  The
    [BodyReader] and [BodyWriter] values of the source are references to such
    an object.  An [await] is a poll function; what other tasks do while a
    future is pending is an explicit sequence of reader actions. *)

From stdpp Require Import base numbers list gmap strings.
From Stdlib Require Import ZArith Lia.
From S2P Require Import Prelude Errors Extern.

Open Scope string_scope.
Open Scope list_scope.

(** ** Constants *)

Definition DEFAULT_CHANNEL_CAPACITY : Z := 32.
Definition DEFAULT_MAX_CHUNK_SIZE : Z := 64 * 1024.
Definition DEFAULT_DRAIN_TIMEOUT_MS : Z := 30000.
Definition DEFAULT_SLAB_TTL_MS : Z := 300000.
Definition DEFAULT_SWEEP_INTERVAL_MS : Z := 60000.
Definition DEFAULT_MAX_HANDLES : Z := 65536.

(** [BodyReader]: the index of the shared object its three [Arc]s point into. *)
Record BodyReader := mkReader { rd_chan : nat }.
(** [BodyWriter]: the sender and the terminal-error cell of a shared object,
    with the drain timeout (milliseconds) baked in. *)
Record BodyWriter := mkWriter { wr_chan : nat; drain_timeout : Z }.

Section body_channel.
Context {C : Type -> Type} `{Mpsc C}.

(** The shared object: the channel, [terminal_error], the number of
    [notify_waiters] calls made on [cancel], the strong count of the [rx] [Arc]
    and whether the [tokio::sync::Mutex] around the receiver is held. *)
Record BodyChan := mkBodyChan {
  bc_mpsc : C Bytes;
  bc_terminal : option CoreError;
  bc_cancels : nat;
  bc_rx_refs : nat;
  bc_locked : bool
}.

Definition set_mpsc (c : C Bytes) (b : BodyChan) : BodyChan :=
  mkBodyChan c (bc_terminal b) (bc_cancels b) (bc_rx_refs b) (bc_locked b).
Definition set_terminal (e : option CoreError) (b : BodyChan) : BodyChan :=
  mkBodyChan (bc_mpsc b) e (bc_cancels b) (bc_rx_refs b) (bc_locked b).
Definition set_locked (l : bool) (b : BodyChan) : BodyChan :=
  mkBodyChan (bc_mpsc b) (bc_terminal b) (bc_cancels b) (bc_rx_refs b) l.

(** [make_body_channel_with]: the object both returned halves point to. *)
Definition make_body_channel_with (capacity : Z) : BodyChan :=
  mkBodyChan (mpsc_channel (Z.to_nat capacity)) None 0 1 false.

(** Cloning and dropping the [Arc] around the receiver; the last drop drops
    the receiver itself. *)
Definition clone_rx_arc (b : BodyChan) : BodyChan :=
  mkBodyChan (bc_mpsc b) (bc_terminal b) (bc_cancels b) (S (bc_rx_refs b)) (bc_locked b).
Definition drop_rx_arc (b : BodyChan) : BodyChan :=
  match bc_rx_refs b with
  | S (S n) => mkBodyChan (bc_mpsc b) (bc_terminal b) (bc_cancels b) (S n) (bc_locked b)
  | _ => mkBodyChan (drop_rx (bc_mpsc b)) (bc_terminal b) (bc_cancels b) 0 (bc_locked b)
  end.

(** [Notify::notify_waiters] on [cancel]. *)
Definition notify_waiters (b : BodyChan) : BodyChan :=
  mkBodyChan (bc_mpsc b) (bc_terminal b) (S (bc_cancels b)) (bc_rx_refs b) (bc_locked b).

(** ** Cancellable receive *)

(** The future [recv_with_cancel] returns: the [notify_waiters] count its
    [notified()] was created at and whether it holds the receiver lock. *)
Record RecvFut := mkRecvFut { rf_seen : nat; rf_holds : bool }.

Definition recv_with_cancel (b : BodyChan) : RecvFut := mkRecvFut (bc_cancels b) false.

(** One poll: the [biased] [select!] looks at the cancellation first, then
    takes the lock (unless another future holds it) and receives. *)
Definition recv_poll (f : RecvFut) (b : BodyChan) : Poll (option Bytes) * RecvFut * BodyChan :=
  if bool_decide (rf_seen f < bc_cancels b) then
    (Ready None, mkRecvFut (rf_seen f) false,
     if rf_holds f then set_locked false b else b)
  else if negb (rf_holds f) && bc_locked b then (Pending, f, b)
  else match try_recv (bc_mpsc b) with
       | (Received x, c) =>
           (Ready (Some x), mkRecvFut (rf_seen f) false, set_locked false (set_mpsc c b))
       | (RecvDisconnected, c) =>
           (Ready None, mkRecvFut (rf_seen f) false, set_locked false (set_mpsc c b))
       | (RecvEmpty, c) =>
           (Pending, mkRecvFut (rf_seen f) true, set_locked true (set_mpsc c b))
       end.

(** [<BodyReader as http_body::Body>::poll_frame]; [pending] is the field. *)
Definition poll_frame (pending : option RecvFut) (b : BodyChan)
  : Poll (option Bytes) * option RecvFut * BodyChan :=
  let slow (f : RecvFut) (b : BodyChan) :=
    match recv_poll f b with
    | (Pending, f', b') => (Pending, Some f', b')
    | (Ready opt, _, b') => (Ready opt, None, b')
    end in
  match pending with
  | Some f => slow f b
  | None =>
      if bc_locked b then slow (recv_with_cancel b) b
      else match try_recv (bc_mpsc b) with
           | (Received x, c) => (Ready (Some x), None, set_mpsc c b)
           | (RecvDisconnected, c) => (Ready None, None, set_mpsc c b)
           | (RecvEmpty, c) => let b := set_mpsc c b in slow (recv_with_cancel b) b
           end
  end.

(** ** Sending *)

(** What the reading side does while a sender waits. *)
Inductive EnvAct := EnvRecv | EnvDropRx.

Definition env_act (a : EnvAct) (b : BodyChan) : list Bytes * BodyChan :=
  match a with
  | EnvRecv => match try_recv (bc_mpsc b) with
               | (Received x, c) => ([x], set_mpsc c b)
               | (_, c) => ([], set_mpsc c b)
               end
  | EnvDropRx => ([], set_mpsc (drop_rx (bc_mpsc b)) b)
  end.

Fixpoint env_run (acts : list EnvAct) (b : BodyChan) : list Bytes * BodyChan :=
  match acts with
  | [] => ([], b)
  | a :: rest =>
      let '(g1, b1) := env_act a b in
      let '(g2, b2) := env_run rest b1 in
      (g1 ++ g2, b2)
  end.

(** How a send ended, before the error is rendered for the caller. *)
Inductive SendEnd := SendDone | SendDropped | SendElapsed.

(** [try_send], then on a full channel [timeout(drain_timeout, tx.send(chunk))]:
    the wait ends with the reader actions [env] done and either room, a dropped
    receiver, or the deadline. Returns also what the reader took meanwhile. *)
Definition send_fast_then_wait (env : list EnvAct) (chunk : Bytes) (b : BodyChan)
  : SendEnd * list Bytes * BodyChan :=
  match try_send chunk (bc_mpsc b) with
  | (Sent, c) => (SendDone, [], set_mpsc c b)
  | (SendClosed, c) => (SendDropped, [], set_mpsc c b)
  | (SendFull, c) =>
      let '(got, b1) := env_run env (set_mpsc c b) in
      match try_send chunk (bc_mpsc b1) with
      | (Sent, c1) => (SendDone, got, set_mpsc c1 b1)
      | (SendClosed, c1) => (SendDropped, got, set_mpsc c1 b1)
      | (SendFull, c1) => (SendElapsed, got, set_mpsc c1 b1)
      end
  end.

(** [BodyWriter::send_chunk]. *)
Definition writer_send_chunk (env : list EnvAct) (chunk : Bytes) (b : BodyChan)
  : Result unit string * list Bytes * BodyChan :=
  let '(r, got, b') := send_fast_then_wait env chunk b in
  (match r with
   | SendDone => Ok tt
   | SendDropped => Err "body reader dropped"
   | SendElapsed => Err "drain timeout: body reader is too slow"
   end, got, b').

(** [send_chunk_with_fast_path]. *)
Definition send_chunk_with_fast_path (env : list EnvAct) (chunk : Bytes) (b : BodyChan)
  : Result unit CoreError * list Bytes * BodyChan :=
  let '(r, got, b') := send_fast_then_wait env chunk b in
  (match r with
   | SendDone => Ok tt
   | SendDropped => Err (internal "body reader dropped")
   | SendElapsed => Err (timeout "drain timeout: body reader is too slow")
   end, got, b').

(** [BodyWriter::abort]. *)
Definition abort (error : CoreError) (b : BodyChan) : BodyChan := set_terminal (Some error) b.

(** ** [Sink<Bytes> for BodyWriter]

    [sending] is the in-flight send future, the item it still has to send;
    [elapsed] says whether its drain timer has fired at this poll. *)
Definition sink_poll_ready (elapsed : bool) (sending : option Bytes) (b : BodyChan)
  : Poll (Result unit string) * option Bytes * BodyChan :=
  match sending with
  | None => (Ready (Ok tt), None, b)
  | Some item =>
      match try_send item (bc_mpsc b) with
      | (Sent, c) => (Ready (Ok tt), None, set_mpsc (drop_tx c) b)
      | (SendClosed, c) => (Ready (Err "body reader dropped"), None, set_mpsc (drop_tx c) b)
      | (SendFull, c) =>
          if elapsed
          then (Ready (Err "drain timeout: body reader is too slow"), None, set_mpsc (drop_tx c) b)
          else (Pending, Some item, set_mpsc c b)
      end
  end.

Definition sink_start_send (item : Bytes) (sending : option Bytes) (b : BodyChan)
  : option Bytes * BodyChan :=
  (Some item, set_mpsc (clone_tx (bc_mpsc b)) b).

Definition sink_poll_flush := sink_poll_ready.
Definition sink_poll_close := sink_poll_flush.

(** ** Splitting a chunk ([HandleStore::send_chunk] after the lookup)

    [envs] gives, for each piece, the reader actions before it is sent and
    while it waits.  The [while] loop runs on fuel; [None] is out of fuel. *)
Fixpoint send_pieces (fuel : nat) (max : Z) (chunk : Bytes) (offset : Z)
  (envs : list (list EnvAct * list EnvAct)) (b : BodyChan)
  : option (Result unit CoreError * list Bytes * BodyChan) :=
  if (offset <? len chunk)%Z then
    match fuel with
    | O => None
    | S fuel =>
        let stop := Z.min (sat_add offset max) (len chunk) in
        let piece := slice (Z.to_nat offset) (Z.to_nat (stop - offset)) chunk in
        let '(before, during) := default ([], []) (head envs) in
        let '(g0, b0) := env_run before b in
        match send_chunk_with_fast_path during piece b0 with
        | (Err e, g1, b1) => Some (Err e, g0 ++ g1, b1)
        | (Ok _, g1, b1) =>
            match send_pieces fuel max chunk stop (tail envs) b1 with
            | None => None
            | Some (r, g2, b2) => Some (r, g0 ++ g1 ++ g2, b2)
            end
        end
    end
  else Some (Ok tt, [], b).

Definition send_split (max : Z) (chunk : Bytes) (envs : list (list EnvAct * list EnvAct))
  (b : BodyChan) : option (Result unit CoreError * list Bytes * BodyChan) :=
  if (len chunk <=? max)%Z then
    let '(before, during) := default ([], []) (head envs) in
    let '(g0, b0) := env_run before b in
    let '(r, g1, b1) := send_chunk_with_fast_path during chunk b0 in
    Some (r, g0 ++ g1, b1)
  else send_pieces (length chunk) max chunk 0 envs b.

(** The pieces a chunk is cut into. *)
Fixpoint pieces_from (fuel : nat) (max : Z) (chunk : Bytes) (offset : Z) : list Bytes :=
  if (offset <? len chunk)%Z then
    match fuel with
    | O => []
    | S fuel =>
        let stop := Z.min (sat_add offset max) (len chunk) in
        slice (Z.to_nat offset) (Z.to_nat (stop - offset)) chunk
          :: pieces_from fuel max chunk stop
    end
  else [].

Definition chunk_pieces (max : Z) (chunk : Bytes) : list Bytes :=
  if (len chunk <=? max)%Z then [chunk] else pieces_from (length chunk) max chunk 0.

End body_channel.
Arguments BodyChan C : clear implicits.

(** ** Lemmas *)

Section body_channel_laws.
Context {C : Type -> Type} `{HC : Mpsc C} `{HL : !MpscLaws C}.

(** What the channel of a body holds. *)
Definition bview (b : BodyChan C) : ChanView Bytes := chan_view (bc_mpsc b).

Lemma bview_set_mpsc c (b : BodyChan C) : bview (set_mpsc c b) = chan_view c.
Proof. done. Qed.

Lemma try_recv_view (b : BodyChan C) r c :
  try_recv (bc_mpsc b) = (r, c) -> cv_try_recv (bview b) = (r, chan_view c).
Proof.
  intros E. destruct (chan_view_try_recv _ (bc_mpsc b)) as [H1 H2].
  rewrite E in H1, H2; simpl in *. unfold bview.
  by destruct (cv_try_recv _); simpl in *; subst.
Qed.

Lemma try_send_view (b : BodyChan C) x r c :
  try_send x (bc_mpsc b) = (r, c) -> cv_try_send x (bview b) = (r, chan_view c).
Proof.
  intros E. destruct (chan_view_try_send _ x (bc_mpsc b)) as [H1 H2].
  rewrite E in H1, H2; simpl in *. unfold bview.
  by destruct (cv_try_send _ _); simpl in *; subst.
Qed.

Lemma cv_try_recv_cases (v v' : ChanView Bytes) r :
  cv_try_recv v = (r, v') ->
  (exists x rest, r = Received x /\ cv_buf v = x :: rest /\
     v' = mkChan rest (cv_cap v) (cv_senders v) (cv_rx v)) \/
  (v' = v /\ cv_buf v = [] /\ (r = RecvEmpty \/ r = RecvDisconnected)).
Proof. unfold cv_try_recv. intros. repeat case_match; simplify_eq; naive_solver. Qed.

(** The queue never exceeds the channel capacity. *)
Definition chan_bounded (b : BodyChan C) : Prop :=
  length (cv_buf (bview b)) <= cv_cap (bview b).

(** [b'] is reached from [b] with the receiver still alive, [got] taken by the
    reader and [sent] appended by senders: nothing is lost, duplicated or
    reordered, and the capacity bound is kept. *)
Definition conserves (b : BodyChan C) (got sent : list Bytes) (b' : BodyChan C) : Prop :=
  cv_rx (bview b) = true /\ got ++ cv_buf (bview b') = cv_buf (bview b) ++ sent /\
  cv_cap (bview b') = cv_cap (bview b) /\ (chan_bounded b -> chan_bounded b').

Lemma conserves_refl b : cv_rx (bview b) = true -> conserves b [] [] b.
Proof. unfold conserves. rewrite app_nil_r. done. Qed.

Lemma conserves_trans b g1 s1 b1 g2 s2 b2 :
  conserves b g1 s1 b1 -> conserves b1 g2 s2 b2 -> conserves b (g1 ++ g2) (s1 ++ s2) b2.
Proof.
  intros (Hr & E1 & C1 & L1) (_ & E2 & C2 & L2). split_and!; [done| |congruence|auto].
  rewrite <- app_assoc, E2, !app_assoc, E1. done.
Qed.

Lemma env_act_conserves a b got b' :
  env_act a b = (got, b') -> cv_rx (bview b') = true -> conserves b got [] b'.
Proof.
  unfold env_act. intros E Hrx. destruct a.
  - destruct (try_recv (bc_mpsc b)) as [r c] eqn:ER.
    apply try_recv_view, cv_try_recv_cases in ER.
    unfold conserves, chan_bounded. destruct ER as [(x & rest & -> & EB & Ev)|(Ev & EB & Hr)].
    + simplify_eq. rewrite bview_set_mpsc, Ev in *. simpl in *. rewrite EB, app_nil_r.
      simpl. split_and!; auto; lia.
    + assert (got = [] /\ b' = set_mpsc c b) as [-> ->] by (destruct Hr; by simplify_eq).
      rewrite bview_set_mpsc, Ev, app_nil_r in *. done.
  - simplify_eq. rewrite bview_set_mpsc, chan_view_drop_rx in Hrx. done.
Qed.

Lemma env_run_conserves acts b got b' :
  env_run acts b = (got, b') -> cv_rx (bview b') = true -> conserves b got [] b'.
Proof.
  revert b got b'. induction acts as [|a acts IH]; simpl; intros b got b' E Hrx.
  - simplify_eq. by apply conserves_refl.
  - destruct (env_act a b) as [g1 b1] eqn:E1. destruct (env_run acts b1) as [g2 b2] eqn:E2.
    simplify_eq. pose proof (IH _ _ _ E2 Hrx) as H2.
    apply (conserves_trans _ _ [] b1 _ []); [|done].
    apply (env_act_conserves a); [done|apply H2].
Qed.

Lemma try_send_conserves x b c :
  try_send x (bc_mpsc b) = (Sent, c) -> conserves b [] [x] (set_mpsc c b).
Proof.
  intros E%try_send_view. unfold cv_try_send in E.
  unfold conserves, chan_bounded. rewrite bview_set_mpsc.
  destruct (cv_rx (bview b)) eqn:ER; simpl in E; [|done].
  case_decide; [|done]. injection E as <-. simpl. rewrite length_app; simpl.
  split_and!; auto; lia.
Qed.

Lemma try_send_full x b c :
  try_send x (bc_mpsc b) = (SendFull, c) ->
  cv_rx (bview b) = true /\ chan_view c = bview b.
Proof.
  intros E%try_send_view. unfold cv_try_send in E.
  destruct (cv_rx (bview b)) eqn:ER; simpl in E; [|done].
  case_decide; by simplify_eq.
Qed.

(** One send that returns [SendDone] appended the chunk; one that timed out
    appended nothing. *)
Lemma send_fast_then_wait_conserves env x b r got b' :
  send_fast_then_wait env x b = (r, got, b') -> r <> SendDropped ->
  conserves b got (match r with SendDone => [x] | _ => [] end) b'.
Proof.
  unfold send_fast_then_wait. intros E Hr.
  destruct (try_send x (bc_mpsc b)) as [[] c] eqn:E1; simplify_eq; try done.
  - by apply try_send_conserves.
  - destruct (try_send_full _ _ _ E1) as [Hrx Hv].
    assert (conserves b [] [] (set_mpsc c b)) as H0.
    { unfold conserves, chan_bounded. rewrite bview_set_mpsc, Hv, app_nil_r. done. }
    destruct (env_run env _) as [g b1] eqn:E2.
    destruct (try_send x (bc_mpsc b1)) as [[] c1] eqn:E3; simplify_eq; try done.
    + pose proof (try_send_conserves _ _ _ E3) as H3.
      pose proof (env_run_conserves _ _ _ _ E2 (proj1 H3)) as H2.
      rewrite <- (app_nil_r got), <- (app_nil_l [x]).
      eapply (conserves_trans _ [] []); [exact H0|].
      eapply (conserves_trans _ _ []); done.
    + destruct (try_send_full _ _ _ E3) as [Hrx1 Hv1].
      pose proof (env_run_conserves _ _ _ _ E2 Hrx1) as H2.
      eapply (conserves_trans _ [] []); [exact H0|].
      destruct H2 as (?&?&?&?).
      unfold conserves, chan_bounded in *. rewrite !bview_set_mpsc, Hv1. auto.
Qed.

Lemma send_chunk_with_fast_path_ok env x b u got b' :
  send_chunk_with_fast_path env x b = (Ok u, got, b') -> conserves b got [x] b'.
Proof.
  unfold send_chunk_with_fast_path.
  destruct (send_fast_then_wait env x b) as [[r g] b1] eqn:E.
  intros. destruct r; simplify_eq.
  by apply (send_fast_then_wait_conserves _ _ _ _ _ _ E).
Qed.

Lemma send_chunk_with_fast_path_timeout env x b e got b' :
  send_chunk_with_fast_path env x b = (Err e, got, b') -> code e = Timeout ->
  conserves b got [] b'.
Proof.
  unfold send_chunk_with_fast_path.
  destruct (send_fast_then_wait env x b) as [[r g] b1] eqn:E.
  intros. destruct r; simplify_eq; try done.
  by apply (send_fast_then_wait_conserves _ _ _ _ _ _ E).
Qed.

(** *** The pieces *)

Lemma pieces_from_spec max chunk fuel offset :
  (1 <= max)%Z -> (len chunk <= USIZE_MAX)%Z -> (0 <= offset)%Z ->
  (len chunk - offset <= Z.of_nat fuel)%Z ->
  concat (pieces_from fuel max chunk offset) = drop (Z.to_nat offset) chunk /\
  Forall (fun p => 0 < len p <= max)%Z (pieces_from fuel max chunk offset).
Proof.
  intros Hmax Hlen. revert offset. induction fuel as [|fuel IH]; intros offset H0 Hf; simpl;
    destruct (offset <? len chunk)%Z eqn:E; bool_to_prop.
  - exfalso. lia.
  - rewrite drop_ge; [done|unfold len in *; lia].
  - set (stop := Z.min (sat_add offset max) (len chunk)).
    assert (offset + 1 <= stop <= len chunk /\ stop <= offset + max)%Z as [? ?].
    { unfold stop, sat_add. lia. }
    destruct (IH stop) as [IHc IHf]; [lia|lia|]. split.
    + simpl. rewrite IHc, (take_slice_drop chunk (Z.to_nat offset) (Z.to_nat (stop - offset))).
      do 2 f_equal. lia.
    + constructor; [|done]. unfold slice, len in *.
      rewrite length_take, length_drop. lia.
  - rewrite drop_ge; [done|unfold len in *; lia].
Qed.

Lemma chunk_pieces_spec max chunk :
  (1 <= max)%Z -> (len chunk <= USIZE_MAX)%Z ->
  concat (chunk_pieces max chunk) = chunk /\ Forall (fun p => len p <= max)%Z (chunk_pieces max chunk).
Proof.
  intros Hmax Hlen. unfold chunk_pieces. destruct (len chunk <=? max)%Z eqn:E; bool_to_prop.
  - simpl. rewrite app_nil_r. auto.
  - destruct (pieces_from_spec max chunk (length chunk) 0) as [-> Hf]; try done; [unfold len; lia|].
    split; [done|]. eapply Forall_impl; [exact Hf|]. simpl. lia.
Qed.

(** The loop returns, a success sent every piece, a drain timeout a prefix. *)
Definition sent_pieces (r : Result unit CoreError) (b : BodyChan C) (got : list Bytes)
  (pieces : list Bytes) (b' : BodyChan C) : Prop :=
  match r with
  | Ok _ => got ++ cv_buf (bview b') = cv_buf (bview b) ++ pieces
  | Err e => code e = Timeout ->
      exists n, got ++ cv_buf (bview b') = cv_buf (bview b) ++ take n pieces
  end.

Lemma send_pieces_spec max chunk fuel offset envs b :
  (1 <= max)%Z -> (len chunk <= USIZE_MAX)%Z -> (0 <= offset)%Z ->
  (len chunk - offset <= Z.of_nat fuel)%Z ->
  exists r got b', send_pieces fuel max chunk offset envs b = Some (r, got, b') /\
    sent_pieces r b got (pieces_from fuel max chunk offset) b'.
Proof.
  intros Hmax Hlen. revert offset envs b.
  induction fuel as [|fuel IH]; intros offset envs b H0 Hf; simpl;
    destruct (offset <? len chunk)%Z eqn:E; bool_to_prop; try lia.
  - eexists _, _, _. split; [done|]. simpl. by rewrite app_nil_r.
  - set (stop := Z.min (sat_add offset max) (len chunk)).
    set (piece := slice _ _ _).
    destruct (default _ _) as [before during].
    destruct (env_run before b) as [g0 b0] eqn:E0.
    destruct (send_chunk_with_fast_path during piece b0) as [[[u|e] g1] b1] eqn:E1.
    + apply send_chunk_with_fast_path_ok in E1.
      pose proof (env_run_conserves _ _ _ _ E0 (proj1 E1)) as H0'.
      pose proof (conserves_trans _ _ _ _ _ _ _ H0' E1) as (_ & Hc & _). simpl in Hc.
      destruct (IH stop (tail envs) b1) as (r & g2 & b2 & -> & HS);
        [unfold stop, sat_add, USIZE_MAX, U64_MAX; lia|unfold stop, sat_add; lia|].
      eexists _, _, _. split; [done|]. destruct r; simpl in *.
      * rewrite app_assoc, <- app_assoc, HS, app_assoc, Hc, <- app_assoc. done.
      * intros He. destruct (HS He) as [n Hn]. exists (S n).
        rewrite app_assoc, <- app_assoc, Hn, app_assoc, Hc, <- app_assoc. done.
    + eexists _, _, _. split; [done|]. simpl. intros He.
      pose proof (send_chunk_with_fast_path_timeout _ _ _ _ _ _ E1 He) as H1.
      pose proof (env_run_conserves _ _ _ _ E0 (proj1 H1)) as H0'.
      pose proof (conserves_trans _ _ _ _ _ _ _ H0' H1) as (_ & Hc & _). simpl in Hc.
      exists 0. by rewrite take_0.
  - eexists _, _, _. split; [done|]. simpl. by rewrite app_nil_r.
Qed.

Lemma send_split_spec max chunk envs b :
  (1 <= max)%Z -> (len chunk <= USIZE_MAX)%Z ->
  exists r got b', send_split max chunk envs b = Some (r, got, b') /\
    sent_pieces r b got (chunk_pieces max chunk) b'.
Proof.
  intros Hmax Hlen. unfold send_split, chunk_pieces.
  destruct (len chunk <=? max)%Z eqn:E.
  - destruct (default _ _) as [before during].
    destruct (env_run before b) as [g0 b0] eqn:E0.
    destruct (send_chunk_with_fast_path during chunk b0) as [[[u|e] g1] b1] eqn:E1;
      eexists _, _, _; (split; [done|]); simpl.
    + apply send_chunk_with_fast_path_ok in E1.
      pose proof (env_run_conserves _ _ _ _ E0 (proj1 E1)) as H0'.
      by pose proof (conserves_trans _ _ _ _ _ _ _ H0' E1) as (_ & Hc & _).
    + intros He. exists 0. rewrite take_0.
      pose proof (send_chunk_with_fast_path_timeout _ _ _ _ _ _ E1 He) as H1.
      pose proof (env_run_conserves _ _ _ _ E0 (proj1 H1)) as H0'.
      by pose proof (conserves_trans _ _ _ _ _ _ _ H0' H1) as (_ & Hc & _).
  - apply send_pieces_spec; try done. unfold len; lia.
Qed.

(** *** What sending leaves alone *)

(** Sending and the reader actions change only the queue (and, on a drop, the
    receiver). *)
Definition frame (b b' : BodyChan C) : Prop :=
  bc_terminal b' = bc_terminal b /\ bc_cancels b' = bc_cancels b /\
  bc_rx_refs b' = bc_rx_refs b /\ bc_locked b' = bc_locked b /\
  cv_senders (bview b') = cv_senders (bview b).

Lemma frame_refl b : frame b b.
Proof. done. Qed.
Lemma frame_trans b b1 b2 : frame b b1 -> frame b1 b2 -> frame b b2.
Proof. unfold frame. intuition congruence. Qed.

Lemma env_act_frame a b got b' : env_act a b = (got, b') -> frame b b'.
Proof.
  unfold env_act. intros E. destruct a.
  - destruct (try_recv (bc_mpsc b)) as [r c] eqn:ER.
    apply try_recv_view, cv_try_recv_cases in ER.
    assert (b' = set_mpsc c b) as -> by (destruct r; by simplify_eq).
    unfold frame. rewrite bview_set_mpsc.
    destruct ER as [(x & rest & _ & _ & ->)|(-> & _)]; done.
  - simplify_eq. unfold frame. rewrite bview_set_mpsc, chan_view_drop_rx. done.
Qed.

Lemma env_run_frame acts b got b' : env_run acts b = (got, b') -> frame b b'.
Proof.
  revert b got b'. induction acts as [|a acts IH]; simpl; intros b got b' E; simplify_eq; [done|].
  destruct (env_act a b) as [g1 b1] eqn:E1. destruct (env_run acts b1) as [g2 b2] eqn:E2.
  simplify_eq. eauto using frame_trans, env_act_frame.
Qed.

Lemma try_send_frame x b r c : try_send x (bc_mpsc b) = (r, c) -> frame b (set_mpsc c b).
Proof.
  intros E%try_send_view. unfold frame. rewrite bview_set_mpsc. unfold cv_try_send in E.
  destruct (negb _); [|destruct (decide _)]; by injection E as _ <-.
Qed.

Lemma send_chunk_with_fast_path_frame env x b r got b' :
  send_chunk_with_fast_path env x b = (r, got, b') -> frame b b'.
Proof.
  unfold send_chunk_with_fast_path, send_fast_then_wait.
  destruct (try_send x (bc_mpsc b)) as [[] c] eqn:E1; intros E; simplify_eq;
    eauto using try_send_frame.
  destruct (env_run env _) as [g b1] eqn:E2.
  destruct (try_send x (bc_mpsc b1)) as [[] c1] eqn:E3; simplify_eq;
    (apply (frame_trans _ (set_mpsc c b)); [by eapply try_send_frame|]);
    (apply (frame_trans _ b1); [by eapply env_run_frame|by eapply try_send_frame]).
Qed.

Lemma send_pieces_frame fuel max chunk offset envs b r got b' :
  send_pieces fuel max chunk offset envs b = Some (r, got, b') -> frame b b'.
Proof.
  revert offset envs b r got b'. induction fuel as [|fuel IH]; intros offset envs b r got b'; simpl;
    (destruct (offset <? len chunk)%Z; [|intros; by simplify_eq]); [done|].
  destruct (default _ _) as [before during].
  destruct (env_run before b) as [g0 b0] eqn:E0.
  destruct (send_chunk_with_fast_path during _ b0) as [[[u|e] g1] b1] eqn:E1.
  - destruct (send_pieces fuel _ _ _ _ _) as [[[r2 g2] b2]|] eqn:E2; [|done].
    intros; simplify_eq. eauto 6 using frame_trans, env_run_frame, send_chunk_with_fast_path_frame.
  - intros; simplify_eq. eauto 6 using frame_trans, env_run_frame, send_chunk_with_fast_path_frame.
Qed.

Lemma send_split_frame max chunk envs b r got b' :
  send_split max chunk envs b = Some (r, got, b') -> frame b b'.
Proof.
  unfold send_split. destruct (len chunk <=? max)%Z; [|apply send_pieces_frame].
  destruct (default _ _) as [before during].
  destruct (env_run before b) as [g0 b0] eqn:E0.
  destruct (send_chunk_with_fast_path during chunk b0) as [[r1 g1] b1] eqn:E1.
  intros; simplify_eq. eauto 6 using frame_trans, env_run_frame, send_chunk_with_fast_path_frame.
Qed.

(** *** Receiving *)

Lemma recv_poll_cancelled f (b : BodyChan C) :
  rf_seen f < bc_cancels b -> (recv_poll f b).1.1 = Ready None.
Proof. intros Hlt. unfold recv_poll. by rewrite bool_decide_eq_true_2. Qed.

(** A fresh receive future polled on an unlocked channel is [try_recv]. *)
Lemma recv_poll_fresh (b : BodyChan C) :
  bc_locked b = false ->
  recv_poll (recv_with_cancel b) b =
  match try_recv (bc_mpsc b) with
  | (Received x, c) => (Ready (Some x), recv_with_cancel b, set_locked false (set_mpsc c b))
  | (RecvDisconnected, c) => (Ready None, recv_with_cancel b, set_locked false (set_mpsc c b))
  | (RecvEmpty, c) => (Pending, mkRecvFut (bc_cancels b) true, set_locked true (set_mpsc c b))
  end.
Proof.
  intros Hl. unfold recv_poll, recv_with_cancel; simpl.
  rewrite bool_decide_eq_false_2 by lia. rewrite Hl. by destruct (try_recv _) as [[] c].
Qed.

(** Two body channels that no observer tells apart. *)
Definition same_chan (b b' : BodyChan C) : Prop :=
  bview b = bview b' /\ bc_terminal b = bc_terminal b' /\ bc_cancels b = bc_cancels b' /\
  bc_rx_refs b = bc_rx_refs b' /\ bc_locked b = bc_locked b'.

#[global] Instance same_chan_equivalence : Equivalence same_chan.
Proof.
  unfold same_chan. split; [done| |].
  - intros b b'. intuition.
  - intros b b1 b2. intuition congruence.
Qed.

(** The fast path of [poll_frame] is unobservable: with no receive
    outstanding it returns what polling a fresh [recv_with_cancel] returns,
    leaves the same channel behind and records a pending receive exactly when
    that poll is pending. *)
Theorem poll_frame_fast_path (b : BodyChan C) :
  (poll_frame None b).1.1 = (recv_poll (recv_with_cancel b) b).1.1 /\
  same_chan (poll_frame None b).2 (recv_poll (recv_with_cancel b) b).2 /\
  (is_Some (poll_frame None b).1.2 <-> (poll_frame None b).1.1 = Pending).
Proof.
  destruct b as [q t n k []]; unfold poll_frame; simpl.
  - unfold recv_poll; simpl. rewrite bool_decide_eq_false_2 by lia. simpl.
    split_and!; try done; eauto.
  - rewrite recv_poll_fresh by done. simpl.
    pose proof (chan_view_try_recv _ q) as [H1 H2].
    destruct (try_recv q) as [r q1] eqn:E; simpl in *.
    unfold cv_try_recv in H1, H2. unfold same_chan, bview.
    destruct r; simpl; [split_and!; try done; by intros []| |split_and!; try done; by intros []].
    destruct (cv_buf (chan_view q)) eqn:EB; [|done].
    destruct (decide (cv_senders (chan_view q) = 0)); simpl in *; [done|].
    pose proof (chan_view_try_recv _ q1) as [H3 H4].
    unfold cv_try_recv in H3, H4. rewrite H2, EB in H3, H4.
    destruct (decide (cv_senders (chan_view q) = 0)); [done|]; simpl in *.
    rewrite recv_poll_fresh by done; simpl. destruct (try_recv q1) as [r' q2]; simpl in *; subst r'.
    simpl. rewrite H4, H2. split_and!; try done; eauto.
Qed.

End body_channel_laws.

Lemma poll_frame_fast_path_witness :
  (poll_frame None (mkBodyChan (mkChan [[Byte.x61]] 2 1 true) None 0 1 false)).1.1 =
  Ready (Some [Byte.x61]).
Proof.
  destruct (poll_frame_fast_path
    (mkBodyChan (mkChan [[Byte.x61]] 2 1 true) None 0 1 false : BodyChan ChanView)) as [-> _].
  reflexivity.
Defined.
