(* ===== verification/Handles.v ===== *)
(** * The per-endpoint handle store (iroh-http-core/src/ffi/handles.rs)

    [HandleStore] holds five slot-map registries and the pending readers.  The
    values they own live in a heap of shared objects (body channels, response
    head rendezvous, fetch cancel tokens), because the source shares them
    through [Arc]s with tasks outside the store.  Every method is a function on
    a [World], the store with that heap; dropping a value is explicit.  Time is
    an argument, in milliseconds. *)

From stdpp Require Import base numbers list gmap fin_maps strings.
From Stdlib Require Import ZArith Lia.
From S2P Require Import Prelude Errors Extern BodyChannel.

Open Scope string_scope.
Open Scope list_scope.

(** [SessionEntry]: the connection it owns, by identity. *)
Record SessionEntry := mkSession { conn : nat }.
Record ResponseHeadEntry := mkHead { status : Z; headers : list (string * string) }.

(** ** [StoreConfig] *)

Record StoreConfig := mkConfig {
  channel_capacity : Z;
  max_chunk_size : Z;
  cfg_drain_timeout : Z;
  max_handles : Z;
  ttl : Z
}.

Definition StoreConfig_default : StoreConfig :=
  mkConfig DEFAULT_CHANNEL_CAPACITY DEFAULT_MAX_CHUNK_SIZE DEFAULT_DRAIN_TIMEOUT_MS
    DEFAULT_MAX_HANDLES DEFAULT_SLAB_TTL_MS.

(** ** [Timed] *)

Record Timed (T : Type) := mkTimed { value : T; last_accessed : Z }.
Arguments mkTimed {T} _ _.
Arguments value {T} _.
Arguments last_accessed {T} _.

Definition timed_new {T} (now : Z) (v : T) : Timed T := mkTimed v now.
Definition touch {T} (now : Z) (t : Timed T) : Timed T := mkTimed (value t) now.
(** [Instant::elapsed] saturates at zero. *)
Definition elapsed (now since : Z) : Z := Z.max 0 (now - since).
Definition is_expired {T} (now ttl : Z) (t : Timed T) : bool :=
  (ttl <? elapsed now (last_accessed t))%Z.

Record PendingReaderEntry := mkPending { pr_reader : BodyReader; created : Z }.

(** ** Shared objects *)

(** The oneshot channel of a response head: the value sent, if any, and which
    ends are alive. *)
Record Oneshot := mkOneshot { os_value : option ResponseHeadEntry; os_tx : bool; os_rx : bool }.

(** [TrackedHandle]: what an [InsertGuard] rolls back. *)
Inductive TrackedHandle :=
| Reader (h : Z)
| Writer (h : Z)
| ReqHead (h : Z).

Section handle_store.
Context {K : Type} {M : Type -> Type} `{SlotMap K M} {C : Type -> Type} `{Mpsc C}.

(** [hp_tokens]: the stored [notify_one] permit of each fetch token. *)
Record Heap := mkHeap {
  hp_chans : gmap nat (BodyChan C);
  hp_heads : gmap nat Oneshot;
  hp_tokens : gmap nat bool;
  hp_next : nat
}.

Record HandleStore := mkStore {
  readers : M (Timed BodyReader);
  writers : M (Timed BodyWriter);
  sessions : M (Timed SessionEntry);
  request_heads : M (Timed nat);
  fetch_cancels : M (Timed nat);
  pending_readers : gmap Z PendingReaderEntry;
  config : StoreConfig
}.

Record World := mkWorld { store : HandleStore; heap : Heap }.

Definition set_readers r (s : HandleStore) :=
  mkStore r (writers s) (sessions s) (request_heads s) (fetch_cancels s) (pending_readers s) (config s).
Definition set_writers r (s : HandleStore) :=
  mkStore (readers s) r (sessions s) (request_heads s) (fetch_cancels s) (pending_readers s) (config s).
Definition set_sessions r (s : HandleStore) :=
  mkStore (readers s) (writers s) r (request_heads s) (fetch_cancels s) (pending_readers s) (config s).
Definition set_request_heads r (s : HandleStore) :=
  mkStore (readers s) (writers s) (sessions s) r (fetch_cancels s) (pending_readers s) (config s).
Definition set_fetch_cancels r (s : HandleStore) :=
  mkStore (readers s) (writers s) (sessions s) (request_heads s) r (pending_readers s) (config s).
Definition set_pending_readers r (s : HandleStore) :=
  mkStore (readers s) (writers s) (sessions s) (request_heads s) (fetch_cancels s) r (config s).

Definition upd_store (f : HandleStore -> HandleStore) (w : World) : World := mkWorld (f (store w)) (heap w).
Definition upd_chan (f : BodyChan C -> BodyChan C) (c : nat) (w : World) : World :=
  let h := heap w in
  mkWorld (store w) (mkHeap (alter f c (hp_chans h)) (hp_heads h) (hp_tokens h) (hp_next h)).
Definition upd_head (f : Oneshot -> Oneshot) (c : nat) (w : World) : World :=
  let h := heap w in
  mkWorld (store w) (mkHeap (hp_chans h) (alter f c (hp_heads h)) (hp_tokens h) (hp_next h)).
Definition upd_token (f : bool -> bool) (c : nat) (w : World) : World :=
  let h := heap w in
  mkWorld (store w) (mkHeap (hp_chans h) (hp_heads h) (alter f c (hp_tokens h)) (hp_next h)).

(** Dropping the owned values. *)
Definition drop_reader (r : BodyReader) : World -> World := upd_chan drop_rx_arc (rd_chan r).
Definition drop_writer (x : BodyWriter) : World -> World :=
  upd_chan (fun b => set_mpsc (drop_tx (bc_mpsc b)) b) (wr_chan x).
Definition drop_sender (c : nat) : World -> World :=
  upd_head (fun o => mkOneshot (os_value o) false (os_rx o)) c.

(** [HandleStore::new]. *)
Definition store_new (cfg : StoreConfig) : HandleStore :=
  mkStore sm_with_key sm_with_key sm_with_key sm_with_key sm_with_key ∅ cfg.
Definition world_new (cfg : StoreConfig) : World :=
  mkWorld (store_new cfg) (mkHeap ∅ ∅ ∅ 0).

(** ** Handle encode / decode *)

Definition key_to_handle (k : K) : Z := as_ffi k.
Definition handle_to_key (h : Z) : K := from_ffi h.

(** ** Counts *)

Definition count_handles (s : HandleStore) : Z * Z * Z * Z :=
  let r := Z.of_nat (sm_len (readers s)) in
  let wr := Z.of_nat (sm_len (writers s)) in
  let se := Z.of_nat (sm_len (sessions s)) in
  let total :=
    sat_add (sat_add (sat_add (sat_add r wr) se) (Z.of_nat (sm_len (request_heads s))))
      (Z.of_nat (sm_len (fetch_cancels s))) in
  (r, wr, se, total).

(** ** Body channels *)

(** [HandleStore::make_body_channel]. *)
Definition make_body_channel (w : World) : BodyWriter * BodyReader * World :=
  let h := heap w in
  let c := hp_next h in
  let cfg := config (store w) in
  (mkWriter c (cfg_drain_timeout cfg), mkReader c,
   mkWorld (store w)
     (mkHeap (<[c := make_body_channel_with (channel_capacity cfg)]> (hp_chans h))
        (hp_heads h) (hp_tokens h) (S c))).

(** A fresh oneshot channel ([tokio::sync::oneshot::channel]). *)
Definition oneshot_channel (w : World) : nat * World :=
  let h := heap w in
  let c := hp_next h in
  (c, mkWorld (store w)
        (mkHeap (hp_chans h) (<[c := mkOneshot None true true]> (hp_heads h)) (hp_tokens h) (S c))).

(** ** Capacity-checked insert *)

Definition insert_checked {T} (now : Z) (registry : M (Timed T)) (v : T) (max : Z)
  : Result Z CoreError * M (Timed T) :=
  if (max <=? Z.of_nat (sm_len registry))%Z
  then (Err (internal "handle registry at capacity"), registry)
  else let '(key, reg) := sm_insert (timed_new now v) registry in
       (Ok (key_to_handle key), reg).

(** A value that is not inserted is dropped. *)
Definition insert_reader (now : Z) (r : BodyReader) (w : World) : Result Z CoreError * World :=
  match insert_checked now (readers (store w)) r (max_handles (config (store w))) with
  | (Ok h, reg) => (Ok h, upd_store (set_readers reg) w)
  | (Err e, _) => (Err e, drop_reader r w)
  end.

Definition insert_writer (now : Z) (x : BodyWriter) (w : World) : Result Z CoreError * World :=
  match insert_checked now (writers (store w)) x (max_handles (config (store w))) with
  | (Ok h, reg) => (Ok h, upd_store (set_writers reg) w)
  | (Err e, _) => (Err e, drop_writer x w)
  end.

(** [alloc_body_writer]: on failure the reader half is dropped too. *)
Definition alloc_body_writer (now : Z) (w : World) : Result (Z * BodyReader) CoreError * World :=
  let '(x, r, w) := make_body_channel w in
  match insert_writer now x w with
  | (Ok h, w) => (Ok (h, r), w)
  | (Err e, w) => (Err e, drop_reader r w)
  end.

Definition store_pending_reader (now : Z) (writer_handle : Z) (r : BodyReader) (w : World) : World :=
  let p := pending_readers (store w) in
  let w1 := upd_store (set_pending_readers (<[writer_handle := mkPending r now]> p)) w in
  match p !! writer_handle with
  | Some old => drop_reader (pr_reader old) w1
  | None => w1
  end.

Definition claim_pending_reader (writer_handle : Z) (w : World) : option BodyReader * World :=
  let p := pending_readers (store w) in
  (pr_reader <$> p !! writer_handle, upd_store (set_pending_readers (delete writer_handle p)) w).

(** ** Removal helpers shared by the bridge methods *)

Definition remove_reader (h : Z) (w : World) : option (Timed BodyReader) * World :=
  let '(e, reg) := sm_remove (handle_to_key h) (readers (store w)) in
  (e, upd_store (set_readers reg) w).

(** [terminal_error.lock().take()] on the shared cell. *)
Definition take_terminal (c : nat) (w : World) : option CoreError * World :=
  (hp_chans (heap w) !! c ≫= bc_terminal, upd_chan (set_terminal None) c w).

(** ** [next_chunk] *)

(** The suspended call: its handle, the channel it cloned the [Arc]s of and
    the receive future. *)
Record NextChunk := mkNext { nc_handle : Z; nc_chan : nat; nc_recv : RecvFut }.

(** The registry section: look up, touch, clone the [Arc]s. *)
Definition next_chunk_lookup (now : Z) (h : Z) (w : World) : Result nat CoreError * World :=
  match sm_get (handle_to_key h) (readers (store w)) with
  | None => (Err (invalid_handle h), w)
  | Some e =>
      let c := rd_chan (value e) in
      let w1 := upd_store (fun s => set_readers (sm_modify (touch now) (handle_to_key h) (readers s)) s) w in
      (Ok c, upd_chan clone_rx_arc c w1)
  end.

(** Creating the receive future; a missing object cannot be notified. *)
Definition next_chunk_start (h : Z) (c : nat) (w : World) : NextChunk :=
  mkNext h c (match hp_chans (heap w) !! c with
              | Some b => recv_with_cancel b
              | None => mkRecvFut 0 false
              end).

(** After the receive: at EOF release the slot and surface the terminal error. *)
Definition next_chunk_finish (h : Z) (c : nat) (chunk : option Bytes) (w : World)
  : Result (option Bytes) CoreError * World :=
  let w := upd_chan drop_rx_arc c w in
  match chunk with
  | Some x => (Ok (Some x), w)
  | None =>
      let '(e, w) := remove_reader h w in
      let w := match e with Some t => drop_reader (value t) w | None => w end in
      match take_terminal c w with
      | (Some err, w) => (Err err, w)
      | (None, w) => (Ok None, w)
      end
  end.

(** One poll of the suspended call. *)
Definition next_chunk_poll (n : NextChunk) (w : World)
  : Poll (Result (option Bytes) CoreError) * NextChunk * World :=
  match hp_chans (heap w) !! nc_chan n with
  | None => (Pending, n, w)
  | Some b =>
      match recv_poll (nc_recv n) b with
      | (Pending, f, b') => (Pending, mkNext (nc_handle n) (nc_chan n) f, upd_chan (fun _ => b') (nc_chan n) w)
      | (Ready chunk, f, b') =>
          let '(r, w') := next_chunk_finish (nc_handle n) (nc_chan n) chunk
                            (upd_chan (fun _ => b') (nc_chan n) w) in
          (Ready r, mkNext (nc_handle n) (nc_chan n) f, w')
      end
  end.

(** The whole call up to its first suspension. *)
Definition next_chunk (now : Z) (h : Z) (w : World)
  : Poll (Result (option Bytes) CoreError) * option NextChunk * World :=
  match next_chunk_lookup now h w with
  | (Err e, w) => (Ready (Err e), None, w)
  | (Ok c, w) =>
      match next_chunk_poll (next_chunk_start h c w) w with
      | (Pending, n, w) => (Pending, Some n, w)
      | (Ready r, _, w) => (Ready r, None, w)
      end
  end.

(** [try_next_chunk]. *)
Definition try_next_chunk (now : Z) (h : Z) (w : World) : Result (option Bytes) CoreError * World :=
  match next_chunk_lookup now h w with
  | (Err e, w) => (Err e, w)
  | (Ok c, w) =>
      match hp_chans (heap w) !! c with
      | None => (Err (internal "try_next_chunk: channel empty"), w)
      | Some b =>
          if bc_locked b
          then (Err (internal "try_next_chunk: lock contended"), upd_chan drop_rx_arc c w)
          else match try_recv (bc_mpsc b) with
               | (Received x, q) =>
                   (Ok (Some x), upd_chan drop_rx_arc c (upd_chan (fun b => set_mpsc q b) c w))
               | (RecvEmpty, q) =>
                   (Err (internal "try_next_chunk: channel empty"),
                    upd_chan drop_rx_arc c (upd_chan (fun b => set_mpsc q b) c w))
               | (RecvDisconnected, q) =>
                   next_chunk_finish h c None (upd_chan (fun b => set_mpsc q b) c w)
               end
      end
  end.

(** ** [send_chunk] *)

(** [None]: the split loop ran out of fuel. Returns also what the reading side
    took while the call was suspended. *)
Definition send_chunk (now : Z) (h : Z) (chunk : Bytes) (envs : list (list EnvAct * list EnvAct))
  (w : World) : option (Result unit CoreError * list Bytes * World) :=
  match sm_get (handle_to_key h) (writers (store w)) with
  | None => Some (Err (invalid_handle h), [], w)
  | Some e =>
      let c := wr_chan (value e) in
      let w := upd_store (fun s => set_writers (sm_modify (touch now) (handle_to_key h) (writers s)) s) w in
      match hp_chans (heap w) !! c with
      | None => Some (Err (internal "body reader dropped"), [], w)
      | Some b =>
          match send_split (max_chunk_size (config (store w))) chunk envs
                  (set_mpsc (clone_tx (bc_mpsc b)) b) with
          | None => None
          | Some (r, got, b') =>
              Some (r, got, upd_chan (fun _ => set_mpsc (drop_tx (bc_mpsc b')) b') c w)
          end
      end
  end.

(** [finish_body]. *)
Definition finish_body (h : Z) (w : World) : Result unit CoreError * World :=
  let '(e, reg) := sm_remove (handle_to_key h) (writers (store w)) in
  let w := upd_store (set_writers reg) w in
  match e with
  | Some t => (Ok tt, drop_writer (value t) w)
  | None => (Err (invalid_handle h), w)
  end.

(** [cancel_reader]. *)
Definition cancel_reader (h : Z) (w : World) : World :=
  let '(e, w) := remove_reader h w in
  match e with
  | Some t => drop_reader (value t) (upd_chan notify_waiters (rd_chan (value t)) w)
  | None => w
  end.

(** ** Sessions *)

Definition insert_session (now : Z) (e : SessionEntry) (w : World) : Result Z CoreError * World :=
  match insert_checked now (sessions (store w)) e (max_handles (config (store w))) with
  | (Ok h, reg) => (Ok h, upd_store (set_sessions reg) w)
  | (Err er, _) => (Err er, w)
  end.

Definition lookup_session (h : Z) (w : World) : option SessionEntry :=
  value <$> sm_get (handle_to_key h) (sessions (store w)).

Definition remove_session (h : Z) (w : World) : option SessionEntry * World :=
  let '(e, reg) := sm_remove (handle_to_key h) (sessions (store w)) in
  (value <$> e, upd_store (set_sessions reg) w).

(** ** Request heads *)

Definition allocate_req_handle (now : Z) (sender : nat) (w : World) : Result Z CoreError * World :=
  match insert_checked now (request_heads (store w)) sender (max_handles (config (store w))) with
  | (Ok h, reg) => (Ok h, upd_store (set_request_heads reg) w)
  | (Err e, _) => (Err e, drop_sender sender w)
  end.

Definition take_req_sender (h : Z) (w : World) : option nat * World :=
  let '(e, reg) := sm_remove (handle_to_key h) (request_heads (store w)) in
  (value <$> e, upd_store (set_request_heads reg) w).

(** ** Fetch cancellation *)

Definition alloc_fetch_token (now : Z) (w : World) : Result Z CoreError * World :=
  let h := heap w in
  let c := hp_next h in
  let w := mkWorld (store w)
             (mkHeap (hp_chans h) (hp_heads h) (<[c := false]> (hp_tokens h)) (S c)) in
  match insert_checked now (fetch_cancels (store w)) c (max_handles (config (store w))) with
  | (Ok t, reg) => (Ok t, upd_store (set_fetch_cancels reg) w)
  | (Err e, _) => (Err e, w)
  end.

(** [notify_one] stores a permit that the next waiter consumes. *)
Definition cancel_in_flight (token : Z) (w : World) : World :=
  match sm_get (handle_to_key token) (fetch_cancels (store w)) with
  | Some e => upd_token (fun _ => true) (value e) w
  | None => w
  end.

Definition get_fetch_cancel_notify (token : Z) (w : World) : option nat :=
  value <$> sm_get (handle_to_key token) (fetch_cancels (store w)).

Definition remove_fetch_token (token : Z) (w : World) : World :=
  upd_store (fun s => set_fetch_cancels (sm_remove (handle_to_key token) (fetch_cancels s)).2 s) w.

(** ** [InsertGuard] *)

Record InsertGuard := mkGuard { tracked : list TrackedHandle; committed : bool }.

Definition insert_guard : InsertGuard := mkGuard [] false.
Definition track (t : TrackedHandle) (g : InsertGuard) : InsertGuard :=
  mkGuard (tracked g ++ [t]) (committed g).

Definition guard_insert_reader (now : Z) (r : BodyReader) (g : InsertGuard) (w : World)
  : Result Z CoreError * InsertGuard * World :=
  match insert_reader now r w with
  | (Ok h, w) => (Ok h, track (Reader h) g, w)
  | (Err e, w) => (Err e, g, w)
  end.

Definition guard_insert_writer (now : Z) (x : BodyWriter) (g : InsertGuard) (w : World)
  : Result Z CoreError * InsertGuard * World :=
  match insert_writer now x w with
  | (Ok h, w) => (Ok h, track (Writer h) g, w)
  | (Err e, w) => (Err e, g, w)
  end.

Definition guard_allocate_req_handle (now : Z) (sender : nat) (g : InsertGuard) (w : World)
  : Result Z CoreError * InsertGuard * World :=
  match allocate_req_handle now sender w with
  | (Ok h, w) => (Ok h, track (ReqHead h) g, w)
  | (Err e, w) => (Err e, g, w)
  end.

Definition commit (g : InsertGuard) : InsertGuard := mkGuard (tracked g) true.

(** One rollback arm of [Drop for InsertGuard]. *)
Definition rollback (w : World) (t : TrackedHandle) : World :=
  match t with
  | Reader h => cancel_reader h w
  | Writer h => (finish_body h w).2
  | ReqHead h =>
      match take_req_sender h w with
      | (Some c, w) => drop_sender c w
      | (None, w) => w
      end
  end.

Definition guard_drop (g : InsertGuard) (w : World) : World :=
  if committed g then w else fold_left rollback (tracked g) w.

(** ** TTL sweep *)

Definition expired_keys {T} (now ttl : Z) (reg : M (Timed T)) : list K :=
  List.filter (fun k => match sm_get k reg with
                        | Some e => is_expired now ttl e
                        | None => false
                        end) (sm_keys reg).

Fixpoint remove_all {T} (ks : list K) (reg : M (Timed T)) : list (Timed T) * M (Timed T) :=
  match ks with
  | [] => ([], reg)
  | k :: rest =>
      let '(e, reg1) := sm_remove k reg in
      let '(es, reg2) := remove_all rest reg1 in
      (option_list e ++ es, reg2)
  end.

(** The registry part common to [sweep_readers] and [sweep_registry]: the
    removed entries and the registry, compacted when it is left empty. *)
Definition sweep_registry {T} (now ttl : Z) (reg : M (Timed T)) : list (Timed T) * M (Timed T) :=
  let expired := expired_keys now ttl reg in
  match expired with
  | [] => ([], reg)
  | _ =>
      let '(es, reg) := remove_all expired reg in
      (es, if bool_decide (sm_len reg = 0) && bool_decide (128 < sm_capacity reg)
           then sm_with_key else reg)
  end.

Definition sweep_readers (now ttl : Z) (w : World) : World :=
  let '(es, reg) := sweep_registry now ttl (readers (store w)) in
  fold_left (fun w e => drop_reader (value e) (upd_chan notify_waiters (rd_chan (value e)) w)) es
    (upd_store (set_readers reg) w).

Definition sweep_pending_readers (now ttl : Z) (w : World) : World :=
  let p := pending_readers (store w) in
  let stays (e : PendingReaderEntry) := (elapsed now (created e) <? ttl)%Z in
  let kept := filter (fun kv => stays kv.2 = true) p in
  let gone := filter (fun kv => stays kv.2 = false) p in
  map_fold (fun _ e w => drop_reader (pr_reader e) w) (upd_store (set_pending_readers kept) w) gone.

(** [HandleStore::sweep]. *)
Definition sweep (now ttl : Z) (w : World) : World :=
  let w := sweep_readers now ttl w in
  let '(es, reg) := sweep_registry now ttl (writers (store w)) in
  let w := fold_left (fun w e => drop_writer (value e) w) es (upd_store (set_writers reg) w) in
  let '(es, reg) := sweep_registry now ttl (request_heads (store w)) in
  let w := fold_left (fun w e => drop_sender (value e) w) es (upd_store (set_request_heads reg) w) in
  let w := upd_store (fun s => set_sessions (sweep_registry now ttl (sessions s)).2 s) w in
  let w := upd_store (fun s => set_fetch_cancels (sweep_registry now ttl (fetch_cancels s)).2 s) w in
  sweep_pending_readers now ttl w.

(** [IrohEndpoint::sweep_now]: a zero [ttl] disables sweeping. *)
Definition sweep_now (now : Z) (w : World) : World :=
  let t := ttl (config (store w)) in
  if (t =? 0)%Z then w else sweep now t w.

End handle_store.
Arguments World M C : clear implicits.
Arguments HandleStore M : clear implicits.
Arguments Heap C : clear implicits.
#[global] Arguments next_chunk_finish : simpl never.
#[global] Arguments next_chunk_lookup : simpl never.
#[global] Arguments next_chunk_poll : simpl never.
#[global] Arguments sweep_registry : simpl never.
#[global] Arguments insert_checked : simpl never.
