(* ===== verification/HandlesFacts.v ===== *)
(** * Facts about the handle store

    The store invariant and its preservation by every operation, rollback of
    multi-handle allocations, stale handles, the sweep, and the body transfer
    through handles. *)

From stdpp Require Import base numbers list gmap fin_maps fin_map_dom strings relations.
From Stdlib Require Import ZArith Lia.
From S2P Require Import Prelude Errors Extern BodyChannel Handles.

Open Scope string_scope.
Open Scope list_scope.

Create HintDb store_inv.

Section facts.
Context {K : Type} {M : Type -> Type} `{HSM : SlotMap K M} `{Countable K} `{HSL : !SlotMapLaws K M}.
Context {C : Type -> Type} `{HMP : Mpsc C} `{HML : !MpscLaws C}.
#[local] Abbreviation world := (World M C).

(** ** Registries *)

(** A registry is within its limit and every value satisfies [Q]. *)
Definition reg_ok {T} (max : Z) (Q : T -> Prop) (reg : M (Timed T)) : Prop :=
  (Z.of_nat (size (sm_view reg)) <= max)%Z /\
  map_Forall (fun _ e => Q (value e)) (sm_view reg).

Lemma reg_ok_impl {T} max (Q Q' : T -> Prop) reg :
  (forall v, Q v -> Q' v) -> reg_ok max Q reg -> reg_ok max Q' reg.
Proof. intros HQ [Hs Hf]. split; [done|]. eapply map_Forall_impl; [exact Hf|]. auto. Qed.

Lemma reg_ok_new {T} max (Q : T -> Prop) : (0 <= max)%Z -> reg_ok max Q sm_with_key.
Proof.
  intros. unfold reg_ok. rewrite sm_view_with_key, map_size_empty.
  split; [lia|apply map_Forall_empty].
Qed.

Lemma insert_checked_view {T} now (reg : M (Timed T)) v max h reg' :
  insert_checked now reg v max = (Ok h, reg') ->
  (Z.of_nat (size (sm_view reg)) < max)%Z /\
  exists k, h = as_ffi k /\ sm_view reg !! k = None /\
    sm_view reg' = <[k := timed_new now v]> (sm_view reg).
Proof.
  unfold insert_checked, key_to_handle. rewrite sm_view_len.
  destruct (max <=? _)%Z eqn:E; bool_to_prop; [done|].
  pose proof (sm_view_insert_fresh _ (timed_new now v) reg) as Hf.
  pose proof (sm_view_insert _ (timed_new now v) reg) as Hi.
  destruct (sm_insert _ reg) as [k r]; simpl in *. intros [= <- <-]. eauto.
Qed.

Lemma insert_checked_full {T} now (reg : M (Timed T)) v max :
  (max <= Z.of_nat (size (sm_view reg)))%Z <->
  insert_checked now reg v max = (Err (internal "handle registry at capacity"), reg).
Proof.
  unfold insert_checked. rewrite sm_view_len.
  destruct (max <=? _)%Z eqn:E; bool_to_prop; [done|].
  destruct (sm_insert _ reg) as [k r]; simpl. split; [lia|done].
Qed.

Lemma reg_ok_insert {T} now max Q (reg : M (Timed T)) v h reg' :
  reg_ok max Q reg -> Q v -> insert_checked now reg v max = (Ok h, reg') -> reg_ok max Q reg'.
Proof.
  intros [Hs Hf] HQ (Hlt & k & -> & Hk & Hv)%insert_checked_view.
  unfold reg_ok. rewrite Hv, map_size_insert_None by done. split; [lia|].
  by apply map_Forall_insert_2.
Qed.

Lemma reg_ok_remove {T} max (Q : T -> Prop) k reg : reg_ok max Q reg -> reg_ok max Q (sm_remove k reg).2.
Proof.
  intros [Hs Hf]. unfold reg_ok. rewrite sm_view_remove. split.
  - pose proof (map_subseteq_size _ _ (delete_subseteq (sm_view reg) k)). lia.
  - by apply map_Forall_delete.
Qed.

Lemma reg_ok_touch {T} now max (Q : T -> Prop) k reg :
  reg_ok max Q reg -> reg_ok max Q (sm_modify (touch now) k reg).
Proof.
  intros [Hs Hf]. unfold reg_ok. rewrite sm_view_modify. split.
  - rewrite <- size_dom, dom_alter_L, size_dom. done.
  - intros j e He. rewrite lookup_alter_Some in He.
    destruct He as [(-> & e' & He & ->)|[_ He]]; simpl; eauto.
Qed.

(** Deleting a list of keys. *)
Definition dels {V} (ks : list K) (m : gmap K V) : gmap K V := fold_left (fun m k => delete k m) ks m.

Lemma lookup_dels {V} ks (m : gmap K V) j :
  dels ks m !! j = if decide (j ∈ ks) then None else m !! j.
Proof.
  revert m. induction ks as [|k ks IH]; intros m; unfold dels in *; cbn [fold_left].
  - by destruct (decide (j ∈ [])) as [E%elem_of_nil|].
  - rewrite IH, lookup_delete.
    destruct (decide (j ∈ ks)), (decide (j ∈ k :: ks)), (decide (k = j)); subst; try done;
      set_solver.
Qed.

Lemma dels_subseteq {V} ks (m : gmap K V) : dels ks m ⊆ m.
Proof.
  apply map_subseteq_spec. intros j x. rewrite lookup_dels. by case_decide.
Qed.

Lemma remove_all_view {T} ks (reg : M (Timed T)) :
  sm_view (remove_all ks reg).2 = dels ks (sm_view reg).
Proof.
  revert reg. induction ks as [|k ks IH]; intros reg; simpl; [done|].
  pose proof (sm_view_remove _ k reg) as Hr.
  destruct (sm_remove k reg) as [e r]; simpl in *.
  specialize (IH r). destruct (remove_all ks r) as [es r']; simpl in *. by rewrite IH, Hr.
Qed.

Lemma expired_keys_elem {T} now ttl (reg : M (Timed T)) k :
  k ∈ expired_keys now ttl reg <->
  exists e, sm_view reg !! k = Some e /\ is_expired now ttl e = true.
Proof.
  unfold expired_keys. rewrite list_elem_of_In, filter_In, <- list_elem_of_In, sm_keys_elem, sm_view_get.
  split.
  - intros [[e He] Hx]. rewrite He in Hx. eauto.
  - intros (e & He & Hx). rewrite He. eauto.
Qed.

(** A sweep keeps exactly the entries that are not expired. *)
Lemma sweep_registry_view {T} now ttl (reg : M (Timed T)) k :
  sm_view (sweep_registry now ttl reg).2 !! k =
  e ← sm_view reg !! k; if is_expired now ttl e then None else Some e.
Proof.
  assert (sm_view (sweep_registry now ttl reg).2 = dels (expired_keys now ttl reg) (sm_view reg)) as ->.
  { unfold sweep_registry. destruct (expired_keys now ttl reg) eqn:E; [done|].
    rewrite <- E. pose proof (remove_all_view (expired_keys now ttl reg) reg) as Hv.
    destruct (remove_all _ reg) as [es r]; simpl in *. rewrite <- Hv.
    destruct (bool_decide (sm_len r = 0) && _) eqn:EB; [|done].
    apply andb_prop in EB as [EB%bool_decide_eq_true _].
    rewrite sm_view_len in EB. apply map_size_empty_inv in EB.
    by rewrite EB, sm_view_with_key. }
  rewrite lookup_dels. case_decide as Hd.
  - apply expired_keys_elem in Hd as (e & -> & Hx). simpl. by rewrite Hx.
  - destruct (sm_view reg !! k) as [e|] eqn:E; simpl; [|done].
    destruct (is_expired now ttl e) eqn:Hx; [|done]. destruct Hd. apply expired_keys_elem. eauto.
Qed.

Lemma reg_ok_sweep {T} now ttl max (Q : T -> Prop) reg :
  reg_ok max Q reg -> reg_ok max Q (sweep_registry now ttl reg).2.
Proof.
  intros [Hs Hf].
  assert (sm_view (sweep_registry now ttl reg).2 ⊆ sm_view reg) as Hsub.
  { apply map_subseteq_spec. intros k e. rewrite sweep_registry_view.
    destruct (sm_view reg !! k); simpl; [|done]. by destruct (is_expired _ _ _). }
  split; [apply map_subseteq_size in Hsub; lia|].
  intros k e He. apply (Hf k). by eapply lookup_weaken.
Qed.

(** ** The store invariant *)

Variable cfg : StoreConfig.

(** Every registry is within [max_handles], every stored reference points to
    an allocated object, fresh objects have fresh names and the configuration
    is the one the store was created with. *)
Record store_inv (w : world) : Prop := mkStoreInv {
  si_config : config (store w) = cfg;
  si_readers : reg_ok (max_handles (config (store w))) (fun r => rd_chan r ∈ dom (hp_chans (heap w)))
                 (readers (store w));
  si_writers : reg_ok (max_handles (config (store w))) (fun x => wr_chan x ∈ dom (hp_chans (heap w)))
                 (writers (store w));
  si_sessions : reg_ok (max_handles (config (store w))) (fun _ => True) (sessions (store w));
  si_heads : reg_ok (max_handles (config (store w))) (fun c => c ∈ dom (hp_heads (heap w)))
               (request_heads (store w));
  si_tokens : reg_ok (max_handles (config (store w))) (fun c => c ∈ dom (hp_tokens (heap w)))
                (fetch_cancels (store w));
  si_pending : map_Forall (fun _ e => rd_chan (pr_reader e) ∈ dom (hp_chans (heap w)))
                 (pending_readers (store w));
  si_fresh : forall c, c ∈ dom (hp_chans (heap w)) ∪ dom (hp_heads (heap w)) ∪ dom (hp_tokens (heap w)) ->
               c < hp_next (heap w)
}.

Lemma inv_upd_chan f c (w : world) : store_inv w -> store_inv (upd_chan f c w).
Proof. intros []. split; simpl; rewrite ?dom_alter_L; auto. Qed.
Lemma inv_upd_head f c (w : world) : store_inv w -> store_inv (upd_head f c w).
Proof. intros []. split; simpl; rewrite ?dom_alter_L; auto. Qed.
Lemma inv_upd_token f c (w : world) : store_inv w -> store_inv (upd_token f c w).
Proof. intros []. split; simpl; rewrite ?dom_alter_L; auto. Qed.

Lemma inv_drop_reader r (w : world) : store_inv w -> store_inv (drop_reader r w).
Proof. apply inv_upd_chan. Qed.
Lemma inv_drop_writer x (w : world) : store_inv w -> store_inv (drop_writer x w).
Proof. apply inv_upd_chan. Qed.
Lemma inv_drop_sender c (w : world) : store_inv w -> store_inv (drop_sender c w).
Proof. apply inv_upd_head. Qed.

Lemma inv_set_readers reg (w : world) :
  store_inv w ->
  reg_ok (max_handles (config (store w))) (fun r => rd_chan r ∈ dom (hp_chans (heap w))) reg ->
  store_inv (upd_store (set_readers reg) w).
Proof. intros []. by split. Qed.
Lemma inv_set_writers reg (w : world) :
  store_inv w ->
  reg_ok (max_handles (config (store w))) (fun x => wr_chan x ∈ dom (hp_chans (heap w))) reg ->
  store_inv (upd_store (set_writers reg) w).
Proof. intros []. by split. Qed.
Lemma inv_set_sessions reg (w : world) :
  store_inv w -> reg_ok (max_handles (config (store w))) (fun _ => True) reg ->
  store_inv (upd_store (set_sessions reg) w).
Proof. intros []. by split. Qed.
Lemma inv_set_heads reg (w : world) :
  store_inv w ->
  reg_ok (max_handles (config (store w))) (fun c => c ∈ dom (hp_heads (heap w))) reg ->
  store_inv (upd_store (set_request_heads reg) w).
Proof. intros []. by split. Qed.
Lemma inv_set_tokens reg (w : world) :
  store_inv w ->
  reg_ok (max_handles (config (store w))) (fun c => c ∈ dom (hp_tokens (heap w))) reg ->
  store_inv (upd_store (set_fetch_cancels reg) w).
Proof. intros []. by split. Qed.
Lemma inv_set_pending p (w : world) :
  store_inv w ->
  map_Forall (fun _ e => rd_chan (pr_reader e) ∈ dom (hp_chans (heap w))) p ->
  store_inv (upd_store (set_pending_readers p) w).
Proof. intros []. by split. Qed.

Hint Resolve inv_upd_chan inv_upd_head inv_upd_token inv_drop_reader inv_drop_writer inv_drop_sender
  inv_set_readers inv_set_writers inv_set_sessions inv_set_heads inv_set_tokens inv_set_pending
  reg_ok_remove reg_ok_touch reg_ok_sweep reg_ok_insert
  si_readers si_writers si_sessions si_heads si_tokens si_pending : store_inv.


(** ** Preservation, operation by operation *)

Lemma inv_new : (0 <= max_handles cfg)%Z -> store_inv (world_new cfg).
Proof.
  intros. split; simpl; try by apply reg_ok_new.
  - done.
  - apply map_Forall_empty.
  - set_solver.
Qed.

Lemma inv_make_body_channel (w : world) :
  store_inv w ->
  store_inv (make_body_channel w).2 /\
  rd_chan (make_body_channel w).1.2 ∈ dom (hp_chans (heap (make_body_channel w).2)) /\
  wr_chan (make_body_channel w).1.1 ∈ dom (hp_chans (heap (make_body_channel w).2)).
Proof.
  intros [? ? ? ? ? ? ? Hf]. simpl. rewrite dom_insert_L. split; [|set_solver].
  split; simpl; try done; rewrite ?dom_insert_L.
  - eapply reg_ok_impl; [|done]. set_solver.
  - eapply reg_ok_impl; [|done]. set_solver.
  - eapply map_Forall_impl; [done|]. set_solver.
  - intros c Hc. destruct (decide (c = hp_next (heap w))); [lia|].
    assert (c < hp_next (heap w)); [apply Hf; set_solver|lia].
Qed.

Lemma inv_oneshot_channel (w : world) :
  store_inv w ->
  store_inv (oneshot_channel w).2 /\
  (oneshot_channel w).1 ∈ dom (hp_heads (heap (oneshot_channel w).2)).
Proof.
  intros [? ? ? ? ? ? ? Hf]. simpl. rewrite dom_insert_L. split; [|set_solver].
  split; simpl; try done; rewrite ?dom_insert_L.
  - eapply reg_ok_impl; [|done]. set_solver.
  - intros c Hc. destruct (decide (c = hp_next (heap w))); [lia|].
    assert (c < hp_next (heap w)); [apply Hf; set_solver|lia].
Qed.

Lemma inv_insert_reader now r (w : world) :
  store_inv w -> rd_chan r ∈ dom (hp_chans (heap w)) -> store_inv (insert_reader now r w).2.
Proof.
  intros. unfold insert_reader.
  destruct (insert_checked _ _ _ _) as [[h|e] reg] eqn:E; simpl; eauto with store_inv.
Qed.

Lemma inv_insert_writer now x (w : world) :
  store_inv w -> wr_chan x ∈ dom (hp_chans (heap w)) -> store_inv (insert_writer now x w).2.
Proof.
  intros. unfold insert_writer.
  destruct (insert_checked _ _ _ _) as [[h|e] reg] eqn:E; simpl; eauto with store_inv.
Qed.

Lemma inv_alloc_body_writer now (w : world) : store_inv w -> store_inv (alloc_body_writer now w).2.
Proof.
  intros Hw. unfold alloc_body_writer.
  destruct (inv_make_body_channel w Hw) as (H1 & _ & H2).
  destruct (make_body_channel w) as [[x r] w1]; simpl in *.
  pose proof (inv_insert_writer now x w1 H1 H2).
  destruct (insert_writer now x w1) as [[h|e] w2]; simpl in *; eauto with store_inv.
Qed.

Lemma inv_store_pending_reader now h r (w : world) :
  store_inv w -> rd_chan r ∈ dom (hp_chans (heap w)) -> store_inv (store_pending_reader now h r w).
Proof.
  intros Hw Hr. unfold store_pending_reader.
  assert (store_inv (upd_store (set_pending_readers
            (<[h:=mkPending r now]> (pending_readers (store w)))) w)).
  { apply inv_set_pending; [done|]. apply map_Forall_insert_2; [done|]. apply Hw. }
  destruct (_ !! h); eauto with store_inv.
Qed.

Lemma inv_claim_pending_reader h (w : world) : store_inv w -> store_inv (claim_pending_reader h w).2.
Proof. intros Hw. apply inv_set_pending; [done|]. apply map_Forall_delete, Hw. Qed.

Lemma inv_remove_reader h (w : world) : store_inv w -> store_inv (remove_reader h w).2.
Proof.
  intros Hw. unfold remove_reader.
  pose proof (reg_ok_remove _ _ (handle_to_key h) _ (si_readers _ Hw)).
  destruct (sm_remove _ _); simpl in *; eauto with store_inv.
Qed.

Lemma inv_next_chunk_lookup now h (w : world) : store_inv w -> store_inv (next_chunk_lookup now h w).2.
Proof.
  intros Hw. unfold next_chunk_lookup. destruct (sm_get _ _); simpl; [|done].
  apply inv_upd_chan, inv_set_readers; eauto with store_inv.
Qed.

Lemma inv_next_chunk_finish h c chunk (w : world) :
  store_inv w -> store_inv (next_chunk_finish h c chunk w).2.
Proof.
  intros Hw. unfold next_chunk_finish. destruct chunk; simpl; [by apply inv_upd_chan|].
  pose proof (inv_remove_reader h _ (inv_upd_chan drop_rx_arc c _ Hw)) as Hr.
  destruct (remove_reader h _) as [[e|] w1]; simpl in *; unfold take_terminal;
    destruct (_ ≫= _); simpl; eauto with store_inv.
Qed.

Lemma inv_next_chunk_poll n (w : world) : store_inv w -> store_inv (next_chunk_poll n w).2.
Proof.
  intros Hw. unfold next_chunk_poll. destruct (_ !! _) as [b|]; simpl; [|done].
  destruct (recv_poll _ b) as [[[chunk|] f] b']; simpl; [|by apply inv_upd_chan].
  pose proof (inv_next_chunk_finish (nc_handle n) (nc_chan n) chunk _
                (inv_upd_chan (fun _ => b') (nc_chan n) _ Hw)).
  by destruct (next_chunk_finish _ _ _ _).
Qed.

Lemma inv_try_next_chunk now h (w : world) : store_inv w -> store_inv (try_next_chunk now h w).2.
Proof.
  intros Hw. unfold try_next_chunk. pose proof (inv_next_chunk_lookup now h w Hw) as H1.
  destruct (next_chunk_lookup now h w) as [[c|e] w1]; simpl in *; [|done].
  destruct (_ !! c) as [b|]; simpl; [|done].
  destruct (bc_locked b); simpl; [eauto with store_inv|].
  destruct (try_recv _) as [[] q]; cbn [snd];
    [apply inv_upd_chan|apply inv_upd_chan|apply inv_next_chunk_finish]; by apply inv_upd_chan.
Qed.

Lemma inv_send_chunk now h chunk envs (w : world) r got w' :
  store_inv w -> send_chunk now h chunk envs w = Some (r, got, w') -> store_inv w'.
Proof.
  intros Hw. unfold send_chunk. destruct (sm_get _ _) as [e|]; [|intros; by simplify_eq].
  assert (store_inv (upd_store (fun s => set_writers (sm_modify (touch now) (handle_to_key h)
            (writers s)) s) w)) as H1.
  { apply (inv_set_writers (sm_modify (touch now) (handle_to_key h) (writers (store w))));
      eauto with store_inv. }
  destruct (_ !! _) as [b|]; [|intros; by simplify_eq].
  destruct (send_split _ _ _ _) as [[[r' g] b']|]; [|done].
  intros; simplify_eq. by apply inv_upd_chan.
Qed.

Lemma inv_finish_body h (w : world) : store_inv w -> store_inv (finish_body h w).2.
Proof.
  intros Hw. unfold finish_body.
  pose proof (reg_ok_remove _ _ (handle_to_key h) _ (si_writers _ Hw)).
  destruct (sm_remove _ _) as [[e|] reg]; simpl in *; eauto with store_inv.
Qed.

Lemma inv_cancel_reader h (w : world) : store_inv w -> store_inv (cancel_reader h w).
Proof.
  intros Hw. unfold cancel_reader. pose proof (inv_remove_reader h w Hw).
  destruct (remove_reader h w) as [[e|] w1]; simpl in *; eauto with store_inv.
Qed.

Lemma inv_insert_session now e (w : world) : store_inv w -> store_inv (insert_session now e w).2.
Proof.
  intros. unfold insert_session.
  destruct (insert_checked _ _ _ _) as [[h|er] reg] eqn:E; simpl; eauto with store_inv.
Qed.

Lemma inv_remove_session h (w : world) : store_inv w -> store_inv (remove_session h w).2.
Proof.
  intros Hw. unfold remove_session.
  pose proof (reg_ok_remove _ _ (handle_to_key h) _ (si_sessions _ Hw)).
  destruct (sm_remove _ _); simpl in *; eauto with store_inv.
Qed.

Lemma inv_allocate_req_handle now c (w : world) :
  store_inv w -> c ∈ dom (hp_heads (heap w)) -> store_inv (allocate_req_handle now c w).2.
Proof.
  intros. unfold allocate_req_handle.
  destruct (insert_checked _ _ _ _) as [[h|e] reg] eqn:E; simpl; eauto with store_inv.
Qed.

Lemma inv_take_req_sender h (w : world) : store_inv w -> store_inv (take_req_sender h w).2.
Proof.
  intros Hw. unfold take_req_sender.
  pose proof (reg_ok_remove _ _ (handle_to_key h) _ (si_heads _ Hw)).
  destruct (sm_remove _ _); simpl in *; eauto with store_inv.
Qed.

Lemma inv_alloc_fetch_token now (w : world) : store_inv w -> store_inv (alloc_fetch_token now w).2.
Proof.
  intros [? ? ? ? ? Ht ? Hf]. unfold alloc_fetch_token; simpl.
  set (w1 := mkWorld _ _).
  assert (store_inv w1) as H1.
  { split; simpl; try done; rewrite ?dom_insert_L.
    - eapply reg_ok_impl; [|done]. set_solver.
    - intros c Hc. destruct (decide (c = hp_next (heap w))); [lia|].
      assert (c < hp_next (heap w)); [apply Hf; set_solver|lia]. }
  destruct (insert_checked _ _ _ _) as [[h|e] reg] eqn:E; simpl; [|done].
  apply inv_set_tokens; [done|]. eapply reg_ok_insert; [apply H1| |exact E].
  simpl. rewrite dom_insert_L. set_solver.
Qed.

Lemma inv_cancel_in_flight t (w : world) : store_inv w -> store_inv (cancel_in_flight t w).
Proof. intros. unfold cancel_in_flight. destruct (sm_get _ _); eauto with store_inv. Qed.

Lemma inv_remove_fetch_token t (w : world) : store_inv w -> store_inv (remove_fetch_token t w).
Proof.
  intros Hw.
  apply (inv_set_tokens (sm_remove (handle_to_key t) (fetch_cancels (store w))).2);
    eauto with store_inv.
Qed.

Lemma inv_rollback t (w : world) : store_inv w -> store_inv (rollback w t).
Proof.
  intros Hw. destruct t; simpl; eauto using inv_cancel_reader, inv_finish_body.
  pose proof (inv_take_req_sender h w Hw). destruct (take_req_sender h w) as [[c|] w1];
    simpl in *; eauto with store_inv.
Qed.

Lemma inv_fold {A} (f : world -> A -> world) l w :
  (forall w a, store_inv w -> store_inv (f w a)) -> store_inv w -> store_inv (fold_left f l w).
Proof. intros Hf. revert w. induction l; simpl; auto. Qed.

Lemma inv_guard_drop g (w : world) : store_inv w -> store_inv (guard_drop g w).
Proof.
  intros. unfold guard_drop. destruct (committed g); [done|].
  apply inv_fold; auto using inv_rollback.
Qed.

Lemma inv_sweep_readers now t (w : world) : store_inv w -> store_inv (sweep_readers now t w).
Proof.
  intros Hw. unfold sweep_readers.
  pose proof (reg_ok_sweep now t _ _ _ (si_readers _ Hw)).
  destruct (sweep_registry _ _ _); simpl in *.
  apply inv_fold; eauto 6 with store_inv.
Qed.

Lemma inv_sweep_pending now t (w : world) : store_inv w -> store_inv (sweep_pending_readers now t w).
Proof.
  intros Hw. unfold sweep_pending_readers.
  apply (map_fold_weak_ind (fun w _ => store_inv w)); [|intros; by apply inv_drop_reader].
  apply inv_set_pending; [done|].
  intros k e [He _]%map_lookup_filter_Some. by apply (si_pending _ Hw k).
Qed.

Lemma inv_sweep now t (w : world) : store_inv w -> store_inv (sweep now t w).
Proof.
  intros Hw. unfold sweep. apply (inv_sweep_readers now t) in Hw.
  set (w1 := sweep_readers now t w) in *. clearbody w1.
  pose proof (reg_ok_sweep now t _ _ _ (si_writers _ Hw)) as H1.
  destruct (sweep_registry now t (writers (store w1))) as [es1 reg1]; simpl in H1.
  assert (store_inv (fold_left (fun w e => drop_writer (value e) w) es1
            (upd_store (set_writers reg1) w1))) as Hw2.
  { apply inv_fold; eauto with store_inv. }
  revert Hw2. generalize (fold_left (fun w e => drop_writer (value e) w) es1
            (upd_store (set_writers reg1) w1)). intros w2 Hw2.
  pose proof (reg_ok_sweep now t _ _ _ (si_heads _ Hw2)) as H2.
  destruct (sweep_registry now t (request_heads (store w2))) as [es2 reg2]; simpl in H2.
  apply inv_sweep_pending.
  assert (store_inv (fold_left (fun w e => drop_sender (value e) w) es2
            (upd_store (set_request_heads reg2) w2))) as Hw3.
  { apply inv_fold; eauto with store_inv. }
  revert Hw3. generalize (fold_left (fun w e => drop_sender (value e) w) es2
            (upd_store (set_request_heads reg2) w2)). intros w3 Hw3.
  apply (inv_set_tokens (sweep_registry now t (fetch_cancels (store w3))).2
           (upd_store (set_sessions (sweep_registry now t (sessions (store w3))).2) w3)).
  - apply inv_set_sessions; eauto with store_inv.
  - apply (reg_ok_sweep now t _ _ _ (si_tokens _ Hw3)).
Qed.

(** ** Reachable stores *)

(** One call of the handle-store API, with the arguments its callers pass: a
    reader, writer or sender handed in belongs to an allocated channel. *)
Inductive store_step (w : world) : world -> Prop :=
| step_make_body_channel : store_step w (make_body_channel w).2
| step_oneshot_channel : store_step w (oneshot_channel w).2
| step_insert_reader now r :
    rd_chan r ∈ dom (hp_chans (heap w)) -> store_step w (insert_reader now r w).2
| step_insert_writer now x :
    wr_chan x ∈ dom (hp_chans (heap w)) -> store_step w (insert_writer now x w).2
| step_alloc_body_writer now : store_step w (alloc_body_writer now w).2
| step_store_pending_reader now h r :
    rd_chan r ∈ dom (hp_chans (heap w)) -> store_step w (store_pending_reader now h r w)
| step_claim_pending_reader h : store_step w (claim_pending_reader h w).2
| step_next_chunk_lookup now h : store_step w (next_chunk_lookup now h w).2
| step_next_chunk_poll n : store_step w (next_chunk_poll n w).2
| step_try_next_chunk now h : store_step w (try_next_chunk now h w).2
| step_send_chunk now h chunk envs r got w' :
    send_chunk now h chunk envs w = Some (r, got, w') -> store_step w w'
| step_finish_body h : store_step w (finish_body h w).2
| step_cancel_reader h : store_step w (cancel_reader h w)
| step_insert_session now e : store_step w (insert_session now e w).2
| step_remove_session h : store_step w (remove_session h w).2
| step_allocate_req_handle now c :
    c ∈ dom (hp_heads (heap w)) -> store_step w (allocate_req_handle now c w).2
| step_take_req_sender h : store_step w (take_req_sender h w).2
| step_alloc_fetch_token now : store_step w (alloc_fetch_token now w).2
| step_cancel_in_flight t : store_step w (cancel_in_flight t w)
| step_remove_fetch_token t : store_step w (remove_fetch_token t w)
| step_guard_drop g : store_step w (guard_drop g w)
| step_sweep now t : store_step w (sweep now t w).

Lemma store_step_inv w w' : store_step w w' -> store_inv w -> store_inv w'.
Proof.
  intros [] Hw; eauto using inv_insert_reader, inv_insert_writer, inv_alloc_body_writer,
    inv_store_pending_reader, inv_claim_pending_reader, inv_next_chunk_lookup, inv_next_chunk_poll,
    inv_try_next_chunk, inv_send_chunk, inv_finish_body, inv_cancel_reader, inv_insert_session,
    inv_remove_session, inv_allocate_req_handle, inv_take_req_sender, inv_alloc_fetch_token,
    inv_cancel_in_flight, inv_remove_fetch_token, inv_guard_drop, inv_sweep.
  - by apply inv_make_body_channel.
  - by apply inv_oneshot_channel.
Qed.

Lemma reachable_inv w :
  (0 <= max_handles cfg)%Z -> rtc store_step (world_new cfg) w -> store_inv w.
Proof. intros Hc Hr. eapply rtc_invariant; eauto using inv_new, store_step_inv. Qed.

End facts.

(** ** Multi-handle allocation *)

Section guards.
Context {K : Type} {M : Type -> Type} `{HSM : SlotMap K M} `{Countable K} `{HSL : !SlotMapLaws K M}.
Context {C : Type -> Type} `{HMP : Mpsc C} `{HML : !MpscLaws C}.
#[local] Abbreviation world := (World M C).

(** One allocation through an [InsertGuard]. *)
Inductive GuardAct :=
| GReader (now : Z) (r : BodyReader)
| GWriter (now : Z) (x : BodyWriter)
| GReqHead (now : Z) (c : nat).

Definition guard_act (a : GuardAct) (gw : InsertGuard * world) : InsertGuard * world :=
  match a with
  | GReader now r => let '(_, g, w) := guard_insert_reader now r gw.1 gw.2 in (g, w)
  | GWriter now x => let '(_, g, w) := guard_insert_writer now x gw.1 gw.2 in (g, w)
  | GReqHead now c => let '(_, g, w) := guard_allocate_req_handle now c gw.1 gw.2 in (g, w)
  end.

Definition guard_run (acts : list GuardAct) (w : world) : InsertGuard * world :=
  fold_left (fun gw a => guard_act a gw) acts (insert_guard, w).

(** What a handle of each kind can resolve to. *)
Definition handle_views (w : world) :=
  (sm_view (readers (store w)), sm_view (writers (store w)), sm_view (request_heads (store w)),
   sm_view (sessions (store w)), sm_view (fetch_cancels (store w)), pending_readers (store w)).

Lemma cancel_reader_views h (w : world) :
  handle_views (cancel_reader h w) =
  (delete (handle_to_key h) (sm_view (readers (store w))), sm_view (writers (store w)),
   sm_view (request_heads (store w)), sm_view (sessions (store w)),
   sm_view (fetch_cancels (store w)), pending_readers (store w)).
Proof.
  unfold cancel_reader, remove_reader.
  pose proof (sm_view_remove _ (handle_to_key h) (readers (store w))) as Hv.
  destruct (sm_remove _ _) as [[e|] reg]; simpl in *; unfold handle_views; simpl; by rewrite Hv.
Qed.

Lemma finish_body_views h (w : world) :
  handle_views (finish_body h w).2 =
  (sm_view (readers (store w)), delete (handle_to_key h) (sm_view (writers (store w))),
   sm_view (request_heads (store w)), sm_view (sessions (store w)),
   sm_view (fetch_cancels (store w)), pending_readers (store w)).
Proof.
  unfold finish_body.
  pose proof (sm_view_remove _ (handle_to_key h) (writers (store w))) as Hv.
  destruct (sm_remove _ _) as [[e|] reg]; simpl in *; unfold handle_views; simpl; by rewrite Hv.
Qed.

Lemma rollback_head_views h (w : world) :
  handle_views (rollback w (ReqHead h)) =
  (sm_view (readers (store w)), sm_view (writers (store w)),
   delete (handle_to_key h) (sm_view (request_heads (store w))), sm_view (sessions (store w)),
   sm_view (fetch_cancels (store w)), pending_readers (store w)).
Proof.
  unfold rollback, take_req_sender.
  pose proof (sm_view_remove _ (handle_to_key h) (request_heads (store w))) as Hv.
  destruct (sm_remove _ _) as [[e|] reg]; simpl in *; unfold handle_views; simpl; by rewrite Hv.
Qed.

(** The effect of one rollback on the three tracked registries. *)
Definition undo (t : TrackedHandle) :
  gmap K (Timed BodyReader) * gmap K (Timed BodyWriter) * gmap K (Timed nat) *
  gmap K (Timed SessionEntry) * gmap K (Timed nat) * gmap Z PendingReaderEntry ->
  gmap K (Timed BodyReader) * gmap K (Timed BodyWriter) * gmap K (Timed nat) *
  gmap K (Timed SessionEntry) * gmap K (Timed nat) * gmap Z PendingReaderEntry :=
  fun '(r, wr, q, s, f, p) =>
  match t with
  | Reader h => (delete (handle_to_key h) r, wr, q, s, f, p)
  | Writer h => (r, delete (handle_to_key h) wr, q, s, f, p)
  | ReqHead h => (r, wr, delete (handle_to_key h) q, s, f, p)
  end.

Lemma rollback_views t (w : world) : handle_views (rollback w t) = undo t (handle_views w).
Proof.
  destruct t; [apply cancel_reader_views|apply finish_body_views|apply rollback_head_views].
Qed.

Lemma fold_rollback_views ts (w : world) :
  handle_views (fold_left rollback ts w) = fold_left (fun v t => undo t v) ts (handle_views w).
Proof. revert w. induction ts; intros w; simpl; [done|]. by rewrite IHts, rollback_views. Qed.

Lemma undo_comm a b v : undo a (undo b v) = undo b (undo a v).
Proof.
  destruct v as [[[[[r wr] q] s] f] p]. destruct a, b; simpl; try done;
    by rewrite delete_delete.
Qed.

Lemma fold_undo_last ts t v :
  fold_left (fun v t => undo t v) ts (undo t v) = undo t (fold_left (fun v t => undo t v) ts v).
Proof. revert v. induction ts; intros v; simpl; [done|]. by rewrite undo_comm, IHts. Qed.

(** Tracking what was just inserted undoes the insertion. *)
Lemma guard_act_undo a g (w : world) g' w' :
  guard_act a (g, w) = (g', w') ->
  committed g' = committed g /\
  fold_left (fun v t => undo t v) (tracked g') (handle_views w') =
  fold_left (fun v t => undo t v) (tracked g) (handle_views w).
Proof.
  destruct a as [now r|now x|now c]; simpl; unfold guard_insert_reader, guard_insert_writer,
    guard_allocate_req_handle, insert_reader, insert_writer, allocate_req_handle;
    destruct (insert_checked _ _ _ _) as [[h|e] reg] eqn:E; intros; simplify_eq; try done;
    apply insert_checked_view in E as (_ & k & -> & Hk & Hv);
    simpl; rewrite fold_left_app; simpl; rewrite <- fold_undo_last; (split; [done|]); f_equal;
    unfold handle_views, handle_to_key; simpl; rewrite from_as_ffi, Hv, delete_insert_id; done.
Qed.

Lemma guard_run_undo acts g (w : world) g' w' :
  fold_left (fun gw a => guard_act a gw) acts (g, w) = (g', w') ->
  committed g' = committed g /\
  fold_left (fun v t => undo t v) (tracked g') (handle_views w') =
  fold_left (fun v t => undo t v) (tracked g) (handle_views w).
Proof.
  revert g w. induction acts as [|a acts IH]; intros g w; cbn [fold_left]; [by intros [= -> ->]|].
  destruct (guard_act a (g, w)) as [g1 w1] eqn:E. intros E2.
  apply guard_act_undo in E as [<- <-]. by apply IH.
Qed.

Lemma guard_drop_views g (w : world) :
  committed g = false ->
  handle_views (guard_drop g w) = fold_left (fun v t => undo t v) (tracked g) (handle_views w).
Proof. intros Hc. unfold guard_drop. rewrite Hc. apply fold_rollback_views. Qed.

(** Dropping an uncommitted guard undoes whatever went through it. *)
Lemma guard_run_rollback acts (w : world) g w' :
  guard_run acts w = (g, w') -> committed g = false /\ handle_views (guard_drop g w') = handle_views w.
Proof.
  intros E. destruct (guard_run_undo _ _ _ _ _ E) as [Hc Hu]. split; [done|].
  by rewrite guard_drop_views.
Qed.
End guards.
