(* ===== verification/HandlesProps.v ===== *)
(** * Properties of the handle store

    What callers of the store rely on: bounded registries, all-or-nothing
    multi-handle allocation, lossless chunk transfer, end of stream and its
    terminal error, stale handles, the TTL sweep and cancellation. *)

From stdpp Require Import base numbers list gmap fin_maps fin_map_dom strings relations.
From Stdlib Require Import ZArith Lia.
From S2P Require Import Prelude Errors Extern BodyChannel Handles HandlesFacts.

Open Scope string_scope.
Open Scope list_scope.

Section props.
Context {K : Type} {M : Type -> Type} `{HSM : SlotMap K M} `{Countable K} `{HSL : !SlotMapLaws K M}.
Context {C : Type -> Type} `{HMP : Mpsc C} `{HML : !MpscLaws C}.
#[local] Abbreviation world := (World M C).

(** ** Definitions the statements use *)

(** Read a body to its end with [next_chunk]. *)
Fixpoint read_to_end (fuel : nat) (now h : Z) (w : world) : option (Result (list Bytes) CoreError * world) :=
  match fuel with
  | O => None
  | S fuel =>
      match next_chunk now h w with
      | (Pending, _, _) => None
      | (Ready (Err e), _, w) => Some (Err e, w)
      | (Ready (Ok None), _, w) => Some (Ok [], w)
      | (Ready (Ok (Some x)), _, w) =>
          match read_to_end fuel now h w with
          | Some (Ok l, w) => Some (Ok (x :: l), w)
          | other => other
          end
      end
  end.

(** A change to a registry that is not a compaction. *)
Inductive reg_step {T} (reg : M (Timed T)) : M (Timed T) -> Prop :=
| reg_insert now v max : sm_room reg -> reg_step reg (insert_checked now reg v max).2
| reg_remove k : reg_step reg (sm_remove k reg).2
| reg_touch now k : reg_step reg (sm_modify (touch now) k reg)
| reg_sweep now t :
    sm_len (remove_all (expired_keys now t reg) reg).2 <> 0 \/
    sm_capacity (remove_all (expired_keys now t reg) reg).2 <= 128 ->
    reg_step reg (sweep_registry now t reg).2.

(** ** Helper lemmas *)

Lemma store_fold {A} (f : world -> A -> world) l w :
  (forall w a, store (f w a) = store w) -> store (fold_left f l w) = store w.
Proof. intros Hf. revert w. induction l; simpl; intros w; [done|]. by rewrite IHl. Qed.

Lemma upd_chan_lookup f c (w : world) b :
  hp_chans (heap w) !! c = Some b -> hp_chans (heap (upd_chan f c w)) !! c = Some (f b).
Proof. intros Hb. simpl. by rewrite lookup_alter_eq, Hb. Qed.

Lemma bview_clone_tx (b : BodyChan C) :
  bview (set_mpsc (clone_tx (bc_mpsc b)) b) = cv_clone_tx (bview b).
Proof. rewrite bview_set_mpsc. apply chan_view_clone_tx. Qed.

Lemma bview_drop_tx (b : BodyChan C) :
  bview (set_mpsc (drop_tx (bc_mpsc b)) b) = cv_drop_tx (bview b).
Proof. rewrite bview_set_mpsc. apply chan_view_drop_tx. Qed.

(** [send_chunk] on a live handle is the split send on its channel. *)
Lemma send_chunk_live now h chunk envs (w : world) e b :
  sm_view (writers (store w)) !! handle_to_key h = Some e ->
  hp_chans (heap w) !! wr_chan (value e) = Some b ->
  send_chunk now h chunk envs w =
  (x ← send_split (max_chunk_size (config (store w))) chunk envs (set_mpsc (clone_tx (bc_mpsc b)) b);
   let '(r, got, b') := x in
   Some (r, got, upd_chan (fun _ => set_mpsc (drop_tx (bc_mpsc b')) b') (wr_chan (value e))
           (upd_store (fun s => set_writers (sm_modify (touch now) (handle_to_key h) (writers s)) s) w))).
Proof.
  intros He Hb. unfold send_chunk. rewrite sm_view_get, He. simpl. rewrite Hb.
  by destruct (send_split _ _ _ _) as [[[? ?] ?]|].
Qed.

Lemma remove_all_stale {T} ks (reg : M (Timed T)) k :
  sm_stale k reg -> sm_stale k (remove_all ks reg).2.
Proof.
  revert reg. induction ks as [|k' ks IH]; intros reg Hk; simpl; [done|].
  pose proof (sm_stale_remove_other _ k k' reg Hk) as Hk'.
  destruct (sm_remove k' reg) as [e r]; simpl in *. specialize (IH r Hk').
  by destruct (remove_all ks r).
Qed.

Lemma reg_step_stale {T} (reg reg' : M (Timed T)) k :
  reg_step reg reg' -> sm_stale k reg -> sm_stale k reg'.
Proof.
  intros Hs Hk. destruct Hs as [now v max Hr|k'|now k'|now t Hnc].
  - unfold insert_checked. destruct (_ <=? _)%Z; [done|].
    pose proof (sm_stale_insert _ (timed_new now v) k reg Hr Hk) as [_ Hst].
    by destruct (sm_insert _ reg).
  - by apply sm_stale_remove_other.
  - by apply sm_stale_modify.
  - unfold sweep_registry. destruct (expired_keys now t reg) as [|k0 ks] eqn:E; [done|].
    rewrite <- E in *. clear E k0 ks.
    pose proof (remove_all_stale (expired_keys now t reg) reg k Hk) as Hrem.
    destruct (remove_all _ reg) as [es r]; simpl in *.
    case_match eqn:EB; [|done]. apply andb_prop in EB as [E1%bool_decide_eq_true E2%bool_decide_eq_true].
    lia.
Qed.

(** *** Reading through a handle *)

(** Handle [h] names reader entry [e] whose channel is [b]; nobody is waiting
    on it and the entry holds the receiver. *)
Definition open_body (w : world) (h : Z) (e : Timed BodyReader) (b : BodyChan C) : Prop :=
  sm_view (readers (store w)) !! handle_to_key h = Some e /\
  hp_chans (heap w) !! rd_chan (value e) = Some b /\
  bc_locked b = false /\ 0 < bc_rx_refs b.

Lemma drop_clone_rx_arc (b : BodyChan C) :
  0 < bc_rx_refs b -> drop_rx_arc (clone_rx_arc b) = b.
Proof.
  destruct b as [q t n [|k] l]; simpl; [lia|done].
Qed.

Lemma bc_terminal_drop_rx_arc (b : BodyChan C) : bc_terminal (drop_rx_arc b) = bc_terminal b.
Proof. unfold drop_rx_arc. by destruct (bc_rx_refs b) as [|[]]. Qed.

Lemma next_chunk_live now h (w : world) e b :
  open_body w h e b ->
  next_chunk now h w =
  (let c := rd_chan (value e) in
   let w1 := upd_chan clone_rx_arc c
     (upd_store (fun s => set_readers (sm_modify (touch now) (handle_to_key h) (readers s)) s) w) in
   let n f := mkNext h c f in
   match try_recv (bc_mpsc b) with
   | (Received x, q) =>
       let '(r, w2) := next_chunk_finish h c (Some x)
          (upd_chan (fun _ => set_locked false (set_mpsc q (clone_rx_arc b))) c w1) in
       (Ready r, None, w2)
   | (RecvDisconnected, q) =>
       let '(r, w2) := next_chunk_finish h c None
          (upd_chan (fun _ => set_locked false (set_mpsc q (clone_rx_arc b))) c w1) in
       (Ready r, None, w2)
   | (RecvEmpty, q) =>
       (Pending, Some (n (mkRecvFut (bc_cancels b) true)),
        upd_chan (fun _ => set_locked true (set_mpsc q (clone_rx_arc b))) c w1)
   end).
Proof.
  intros (He & Hb & Hl & _). unfold next_chunk, next_chunk_lookup.
  rewrite sm_view_get, He. unfold next_chunk_start, next_chunk_poll; simpl.
  rewrite lookup_alter_eq, Hb; simpl.
  rewrite recv_poll_fresh by done.
  change (bc_mpsc (clone_rx_arc b)) with (bc_mpsc b).
  destruct (try_recv (bc_mpsc b)) as [[] q]; cbn zeta beta iota; try done;
    by destruct (next_chunk_finish _ _ _ _).
Qed.

Lemma try_recv_of_view (b : BodyChan C) :
  exists q, try_recv (bc_mpsc b) = ((cv_try_recv (bview b)).1, q) /\
            chan_view q = (cv_try_recv (bview b)).2.
Proof.
  destruct (try_recv (bc_mpsc b)) as [r q] eqn:E. apply try_recv_view in E.
  rewrite E. simpl. eauto.
Qed.

(** Data is queued: the first chunk is returned and the handle stays open on
    the rest. *)
Lemma next_chunk_data now h (w : world) e b x rest :
  open_body w h e b -> cv_buf (bview b) = x :: rest ->
  exists w' e' b',
    next_chunk now h w = (Ready (Ok (Some x)), None, w') /\
    open_body w' h e' b' /\ rd_chan (value e') = rd_chan (value e) /\
    bview b' = mkChan rest (cv_cap (bview b)) (cv_senders (bview b)) (cv_rx (bview b)) /\
    bc_terminal b' = bc_terminal b.
Proof.
  intros Ho Hbuf. pose proof Ho as (He & Hb & Hl & Hr).
  rewrite (next_chunk_live now h w e b Ho).
  destruct (try_recv_of_view b) as (q & -> & Hq). unfold cv_try_recv in *. rewrite Hbuf in *.
  simpl in *. unfold next_chunk_finish. eexists _, (touch now e), (set_locked false (set_mpsc q b)).
  split; [done|]. unfold open_body; simpl. split_and!; try done.
  - rewrite sm_view_modify, lookup_alter_eq, He. done.
  - rewrite !lookup_alter_eq, Hb. simpl. f_equal.
    destruct b as [q0 t n [|k] l]; simpl in *; [lia|]. done.
Qed.

(** The queue is drained and every sender is gone: the slot is released and
    the terminal error, if any, is taken. *)
Lemma next_chunk_eof now h (w : world) e b :
  open_body w h e b -> cv_buf (bview b) = [] -> cv_senders (bview b) = 0 ->
  exists w' b',
    next_chunk now h w =
      (Ready (match bc_terminal b with Some err => Err err | None => Ok None end), None, w') /\
    sm_view (readers (store w')) = delete (handle_to_key h) (sm_view (readers (store w))) /\
    hp_chans (heap w') !! rd_chan (value e) = Some b' /\ bc_terminal b' = None.
Proof.
  intros Ho Hbuf Hs. pose proof Ho as (He & Hb & Hl & Hr).
  rewrite (next_chunk_live now h w e b Ho).
  destruct (try_recv_of_view b) as (q & -> & Hq). unfold cv_try_recv in *. rewrite Hbuf in *.
  rewrite decide_True in * by done. simpl in *.
  unfold next_chunk_finish, remove_reader. simpl.
  pose proof (sm_view_remove_val _ (handle_to_key h)
                (sm_modify (touch now) (handle_to_key h) (readers (store w)))) as Hv.
  pose proof (sm_view_remove _ (handle_to_key h)
                (sm_modify (touch now) (handle_to_key h) (readers (store w)))) as Hd.
  rewrite sm_view_modify, lookup_alter_eq, He in Hv. simpl in Hv.
  destruct (sm_remove _ _) as [o reg]; simpl in *. subst o. simpl.
  rewrite sm_view_modify, delete_alter_eq in Hd.
  rewrite !lookup_alter_eq, Hb; simpl.
  rewrite !bc_terminal_drop_rx_arc. simpl.
  destruct (bc_terminal b) as [err|]; simpl; eexists _, _; (split; [done|]); simpl;
    rewrite !lookup_alter_eq, Hb; (split_and!; [exact Hd|reflexivity|reflexivity]).
Qed.

(** ** Properties *)

(** C1. In every state the handle-store API can reach from a fresh store, each
    of the five registries holds at most [max_handles] entries, every reader
    and writer entry refers to an allocated body channel, every request head
    and fetch token to an allocated object, and the configuration is the
    initial one. *)
Theorem reachable_store_bounded cfg (w : world) :
  (0 <= max_handles cfg)%Z -> rtc store_step (world_new cfg) w ->
  config (store w) = cfg /\
  (Z.of_nat (sm_len (readers (store w))) <= max_handles cfg)%Z /\
  (Z.of_nat (sm_len (writers (store w))) <= max_handles cfg)%Z /\
  (Z.of_nat (sm_len (sessions (store w))) <= max_handles cfg)%Z /\
  (Z.of_nat (sm_len (request_heads (store w))) <= max_handles cfg)%Z /\
  (Z.of_nat (sm_len (fetch_cancels (store w))) <= max_handles cfg)%Z /\
  (forall k e, sm_get k (readers (store w)) = Some e -> is_Some (hp_chans (heap w) !! rd_chan (value e))) /\
  (forall k e, sm_get k (writers (store w)) = Some e -> is_Some (hp_chans (heap w) !! wr_chan (value e))) /\
  (forall k e, sm_get k (request_heads (store w)) = Some e -> is_Some (hp_heads (heap w) !! value e)) /\
  (forall k e, sm_get k (fetch_cancels (store w)) = Some e -> is_Some (hp_tokens (heap w) !! value e)).
Proof.
  intros Hc Hr. destruct (reachable_inv _ _ Hc Hr) as [<- [? Hrd] [? Hwr] [? _] [? Hhd] [? Htk] _ _].
  rewrite !sm_view_len. split_and!; try done; intros k e; rewrite sm_view_get; intros He;
    apply elem_of_dom; [by apply (Hrd k)|by apply (Hwr k)|by apply (Hhd k)|by apply (Htk k)].
Qed.

(** C14. Multi-handle allocation is all or nothing: whatever sequence of inserts
    went through an [InsertGuard], and whichever of them failed, dropping the
    guard without [commit] leaves every handle resolving exactly as before the
    guard was opened; dropping it after [commit] changes nothing. *)
Theorem insert_guard_all_or_nothing acts (w : world) :
  let '(g, w') := guard_run acts w in
  handle_views (guard_drop g w') = handle_views w /\ guard_drop (commit g) w' = w'.
Proof.
  destruct (guard_run acts w) as [g w'] eqn:E. split; [|done]. by apply guard_run_rollback in E as [_ E].
Qed.

(** C16. [send_chunk] on a live writer handle terminates for every chunk
    whatever the reader does meanwhile (the chunk size limit is at least 1); a
    success means the chunk, cut into pieces of at most [max_chunk_size]
    bytes, was appended to what the reader had taken and what is queued, in
    order, with no byte lost or duplicated; a drain timeout means a prefix of
    those pieces was. *)
Theorem send_chunk_lossless now h chunk envs (w : world) e b :
  sm_view (writers (store w)) !! handle_to_key h = Some e ->
  hp_chans (heap w) !! wr_chan (value e) = Some b ->
  (1 <= max_chunk_size (config (store w)))%Z -> (len chunk <= USIZE_MAX)%Z ->
  let pieces := chunk_pieces (max_chunk_size (config (store w))) chunk in
  concat pieces = chunk /\ Forall (fun p => len p <= max_chunk_size (config (store w)))%Z pieces /\
  exists r got w' b', send_chunk now h chunk envs w = Some (r, got, w') /\
    hp_chans (heap w') !! wr_chan (value e) = Some b' /\
    match r with
    | Ok _ => got ++ cv_buf (bview b') = cv_buf (bview b) ++ pieces
    | Err er => code er = Timeout ->
        exists n, got ++ cv_buf (bview b') = cv_buf (bview b) ++ take n pieces
    end.
Proof.
  intros He Hb Hmax Hlen pieces. destruct (chunk_pieces_spec _ _ Hmax Hlen) as [Hc Hf].
  split_and!; [done|done|].
  destruct (send_split_spec _ chunk envs (set_mpsc (clone_tx (bc_mpsc b)) b) Hmax Hlen)
    as (r & got & b' & Hs & Hr).
  rewrite (send_chunk_live now h chunk envs w e b He Hb), Hs. simpl.
  eexists r, got, _, _. split; [done|]. split; [by apply (upd_chan_lookup _ _ _ b)|].
  rewrite bview_drop_tx. unfold sent_pieces in Hr. rewrite bview_clone_tx in Hr. done.
Qed.

(** When a body has ended (the queue is empty and every writer is gone) a
    [next_chunk] returns the terminal error if one was recorded and [None]
    otherwise, takes that error out of the shared cell and releases the handle,
    leaving every other reader as it was: the next call on the handle is an
    invalid-handle error. *)
Theorem next_chunk_at_eof now h (w : world) e b :
  open_body w h e b -> cv_buf (bview b) = [] -> cv_senders (bview b) = 0 ->
  exists w' b',
    next_chunk now h w =
      (Ready (match bc_terminal b with Some err => Err err | None => Ok None end), None, w') /\
    hp_chans (heap w') !! rd_chan (value e) = Some b' /\ bc_terminal b' = None /\
    (forall k, k <> handle_to_key h -> sm_get k (readers (store w')) = sm_get k (readers (store w))) /\
    next_chunk now h w' = (Ready (Err (invalid_handle h)), None, w').
Proof.
  intros Ho Hbuf Hs. destruct (next_chunk_eof now h w e b Ho Hbuf Hs) as (w' & b' & Hn & Hv & Hb' & Ht).
  exists w', b'. split_and!; try done.
  - intros k Hk. by rewrite !sm_view_get, Hv, lookup_delete_ne.
  - unfold next_chunk, next_chunk_lookup. by rewrite sm_view_get, Hv, lookup_delete_eq.
Qed.

Lemma read_to_end_drains now h (w : world) e b buf :
  open_body w h e b -> cv_buf (bview b) = buf -> cv_senders (bview b) = 0 -> bc_terminal b = None ->
  exists w', read_to_end (S (length buf)) now h w = Some (Ok buf, w') /\
    sm_view (readers (store w')) !! handle_to_key h = None.
Proof.
  revert w e b. induction buf as [|x rest IH]; intros w e b Ho Hbuf Hs Ht.
  - destruct (next_chunk_eof now h w e b Ho Hbuf Hs) as (w' & b' & Hn & Hv & _ & _).
    exists w'. simpl. rewrite Hn, Ht, Hv, lookup_delete_eq. done.
  - destruct (next_chunk_data now h w e b x rest Ho Hbuf) as (w1 & e1 & b1 & Hn & Ho1 & _ & Hv1 & Ht1).
    destruct (IH w1 e1 b1 Ho1) as (w' & Hr & Hd); [by rewrite Hv1|by rewrite Hv1|congruence|].
    exists w'. cbn [length]. remember (S (length rest)) as f. simpl. rewrite Hn. by rewrite Hr.
Qed.

(** C17. Body round trip through handles: a chunk sent with [send_chunk], ended
    with [finish_body] and read to the end with [next_chunk] comes out intact
    and in order behind what was already queued, counting what the reader took
    while the sender waited; both handles are released. *)
Theorem body_roundtrip now hw hr chunk envs (w : world) ew er b got w1 :
  sm_view (writers (store w)) !! handle_to_key hw = Some ew ->
  open_body w hr er b -> wr_chan (value ew) = rd_chan (value er) ->
  cv_senders (bview b) = 1 -> bc_terminal b = None ->
  (1 <= max_chunk_size (config (store w)))%Z -> (len chunk <= USIZE_MAX)%Z ->
  send_chunk now hw chunk envs w = Some (Ok tt, got, w1) ->
  exists w2 rest w3 fuel,
    finish_body hw w1 = (Ok tt, w2) /\
    read_to_end fuel now hr w2 = Some (Ok rest, w3) /\
    concat (got ++ rest) = concat (cv_buf (bview b)) ++ chunk /\
    sm_get (handle_to_key hw) (writers (store w2)) = None /\
    sm_get (handle_to_key hr) (readers (store w3)) = None.
Proof.
  intros Hw Ho Hc Hs Ht Hmax Hlen Hsend. pose proof Ho as (Hr & Hb & Hl & Href).
  rewrite <- Hc in Hb.
  rewrite (send_chunk_live now hw chunk envs w ew b Hw Hb) in Hsend.
  destruct (send_split_spec _ chunk envs (set_mpsc (clone_tx (bc_mpsc b)) b) Hmax Hlen)
    as (r & got' & b' & Hsp & Hp).
  pose proof (send_split_frame _ _ _ _ _ _ _ Hsp) as (Ft & _ & Fr & Fl & Fs).
  rewrite Hsp in Hsend. simpl in Hsend. simplify_eq. unfold sent_pieces in Hp.
  rewrite bview_clone_tx in Hp, Fs. simpl in *.
  unfold finish_body; simpl.
  pose proof (sm_view_remove_val _ (handle_to_key hw)
                (sm_modify (touch now) (handle_to_key hw) (writers (store w)))) as Hv.
  pose proof (sm_view_remove _ (handle_to_key hw)
                (sm_modify (touch now) (handle_to_key hw) (writers (store w)))) as Hd.
  rewrite sm_view_modify, lookup_alter_eq, Hw in Hv. simpl in Hv.
  destruct (sm_remove _ _) as [o reg]; simpl in *. subst o.
  set (w2 := drop_writer _ _).
  set (b2 := set_mpsc (drop_tx (drop_tx (bc_mpsc b'))) b').
  assert (open_body w2 hr er b2) as Ho2.
  { unfold open_body; simpl. split_and!; [done| |by rewrite Fl|by rewrite Fr].
    rewrite <- Hc, !lookup_alter_eq, Hb. done. }
  assert (bview b2 = cv_drop_tx (cv_drop_tx (bview b'))) as Hv2.
  { unfold b2. rewrite bview_set_mpsc, !chan_view_drop_tx. done. }
  destruct (read_to_end_drains now hr w2 er b2 (cv_buf (bview b')) Ho2) as (w3 & Hread & Hgone);
    [by rewrite Hv2|rewrite Hv2; simpl; lia|simpl; congruence|].
  exists w2, (cv_buf (bview b')), w3, (S (length (cv_buf (bview b')))).
  split_and!; try done.
  - rewrite Hp, concat_app. f_equal. by apply chunk_pieces_spec.
  - rewrite sm_view_get. simpl. by rewrite Hd, lookup_delete_eq.
  - by rewrite sm_view_get.
Qed.

(** A handle that was released stays dead: through any sequence of
    inserts, removals, accesses and sweeps of its registry that does not
    compact it, the handle resolves to nothing and no insert hands it out
    again (as long as the slots have generations left). *)
Theorem stale_handle_stays_dead {T} (reg0 reg : M (Timed T)) k now v max :
  is_Some (sm_get k reg0) -> rtc reg_step (sm_remove k reg0).2 reg ->
  sm_room reg ->
  sm_get k reg = None /\ (insert_checked now reg v max).1 <> Ok (key_to_handle k).
Proof.
  intros Hs Hr Hroom. rewrite sm_view_get in Hs.
  assert (sm_stale k reg) as Hk.
  { eapply (rtc_invariant reg_step (sm_stale k)); [|exact Hr|by apply sm_stale_remove].
    intros a a'. apply reg_step_stale. }
  split; [rewrite sm_view_get; by apply sm_stale_absent|].
  unfold insert_checked, key_to_handle. destruct (_ <=? _)%Z; [done|].
  destruct (sm_stale_insert _ (timed_new now v) k reg Hroom Hk) as [Hne _].
  destruct (sm_insert _ reg) as [k' r]; simpl in *. intros [= Heq].
  apply Hne. by rewrite <- (from_as_ffi k), <- (from_as_ffi k'), Heq.
Qed.

(** A compacting sweep forgets the generations: when every entry of a
    registry has expired and its backing store exceeds 128 slots, the handle
    the next insert returns is the very first handle a fresh registry hands
    out, so a holder of that old handle now names the new resource. *)
Theorem compaction_reissues_first_handle {T} (reg : M (Timed T)) now t now' v max :
  expired_keys now t reg <> [] ->
  sm_len (remove_all (expired_keys now t reg) reg).2 = 0 ->
  128 < sm_capacity (remove_all (expired_keys now t reg) reg).2 ->
  insert_checked now' (sweep_registry now t reg).2 v max = insert_checked now' sm_with_key v max.
Proof.
  intros Hne Hlen Hcap. f_equal. unfold sweep_registry.
  destruct (expired_keys now t reg) eqn:E; [done|]. rewrite <- E in *. clear E.
  destruct (remove_all _ reg) as [es r]; simpl in *.
  by rewrite bool_decide_eq_true_2, bool_decide_eq_true_2.
Qed.

(** *** The sweep and cancellation *)

Lemma store_sweep_pending now t (w : world) :
  store (sweep_pending_readers now t w) =
  set_pending_readers (filter (fun kv => (elapsed now (created kv.2) <? t)%Z = true)
                         (pending_readers (store w))) (store w).
Proof.
  unfold sweep_pending_readers.
  apply (map_fold_weak_ind (fun w' _ => store w' = set_pending_readers _ (store w))); [done|].
  intros k e m w' _ IH. exact IH.
Qed.

Lemma store_sweep now t (w : world) :
  store (sweep now t w) =
  mkStore (sweep_registry now t (readers (store w))).2 (sweep_registry now t (writers (store w))).2
    (sweep_registry now t (sessions (store w))).2 (sweep_registry now t (request_heads (store w))).2
    (sweep_registry now t (fetch_cancels (store w))).2
    (filter (fun kv => (elapsed now (created kv.2) <? t)%Z = true) (pending_readers (store w)))
    (config (store w)).
Proof.
  unfold sweep.
  assert (store (sweep_readers now t w) =
          set_readers (sweep_registry now t (readers (store w))).2 (store w)) as Hr.
  { unfold sweep_readers. destruct (sweep_registry _ _ _). by rewrite store_fold. }
  generalize dependent (sweep_readers now t w). intros w1 Hr. rewrite Hr.
  change (writers (set_readers _ (store w))) with (writers (store w)).
  destruct (sweep_registry now t (writers (store w))) as [es1 reg1]; cbn [fst snd].
  set (w2 := fold_left _ es1 _).
  assert (store w2 = set_writers reg1 (store w1)) as H2 by (unfold w2; by rewrite store_fold).
  clearbody w2. rewrite H2, Hr.
  change (request_heads (set_writers _ (set_readers _ (store w)))) with (request_heads (store w)).
  destruct (sweep_registry now t (request_heads (store w))) as [es2 reg2]; cbn [fst snd].
  set (w3 := fold_left _ es2 _).
  assert (store w3 = set_request_heads reg2 (store w2)) as H3 by (unfold w3; by rewrite store_fold).
  clearbody w3. rewrite store_sweep_pending; simpl. by rewrite H3, H2, Hr.
Qed.

(** What a sweep leaves in a registry. *)
Lemma sweep_registry_get {T} now t (reg : M (Timed T)) k e :
  sm_get k (sweep_registry now t reg).2 = Some e <->
  sm_get k reg = Some e /\ (elapsed now (last_accessed e) <= t)%Z.
Proof.
  rewrite !sm_view_get, sweep_registry_view.
  destruct (sm_view reg !! k) as [e'|]; simpl; [|by split; [|intros []]].
  unfold is_expired. destruct (t <? _)%Z eqn:E; bool_to_prop; split.
  - done.
  - intros [[= ->] ?]. lia.
  - intros [= ->]. split; [done|lia].
  - by intros [[= ->] _].
Qed.

(** A sweep at [now] removes exactly the entries last used more than [ttl]
    ago from all five registries, so a handle used within the TTL is never
    swept mid-transfer, and exactly the pending readers stored [ttl] ago or
    earlier. *)
Theorem sweep_removes_exactly_expired now t (w : world) :
  let live {T} (e : Timed T) := (elapsed now (last_accessed e) <= t)%Z in
  let s := store w in let s' := store (sweep now t w) in
  (forall k e, sm_get k (readers s') = Some e <-> sm_get k (readers s) = Some e /\ live e) /\
  (forall k e, sm_get k (writers s') = Some e <-> sm_get k (writers s) = Some e /\ live e) /\
  (forall k e, sm_get k (sessions s') = Some e <-> sm_get k (sessions s) = Some e /\ live e) /\
  (forall k e, sm_get k (request_heads s') = Some e <-> sm_get k (request_heads s) = Some e /\ live e) /\
  (forall k e, sm_get k (fetch_cancels s') = Some e <-> sm_get k (fetch_cancels s) = Some e /\ live e) /\
  (forall h e, pending_readers s' !! h = Some e <->
     pending_readers s !! h = Some e /\ (elapsed now (created e) < t)%Z).
Proof.
  cbn zeta. rewrite store_sweep. simpl.
  split_and!; try apply sweep_registry_get.
  intros h e. rewrite map_lookup_filter_Some. simpl. by rewrite Z.ltb_lt.
Qed.

Lemma pending_read now h (w : world) e b :
  open_body w h e b -> cv_buf (bview b) = [] -> 0 < cv_senders (bview b) ->
  exists q, chan_view q = bview b /\
  next_chunk now h w =
    (Pending, Some (mkNext h (rd_chan (value e)) (mkRecvFut (bc_cancels b) true)),
     upd_chan (fun _ => set_locked true (set_mpsc q (clone_rx_arc b))) (rd_chan (value e))
       (upd_chan clone_rx_arc (rd_chan (value e))
         (upd_store (fun s => set_readers (sm_modify (touch now) (handle_to_key h) (readers s)) s) w))).
Proof.
  intros Ho Hbuf Hs. rewrite (next_chunk_live now h w e b Ho).
  destruct (try_recv_of_view b) as (q & -> & Hq). unfold cv_try_recv in *. rewrite Hbuf in *.
  rewrite decide_False in * by lia. simpl in *. eauto.
Qed.

Lemma remove_touched now h (reg : M (Timed BodyReader)) e :
  sm_view reg !! handle_to_key h = Some e ->
  exists reg', sm_remove (handle_to_key h) (sm_modify (touch now) (handle_to_key h) reg) =
    (Some (touch now e), reg') /\ sm_view reg' = delete (handle_to_key h) (sm_view reg).
Proof.
  intros He.
  pose proof (sm_view_remove_val _ (handle_to_key h) (sm_modify (touch now) (handle_to_key h) reg)) as Hv.
  pose proof (sm_view_remove _ (handle_to_key h) (sm_modify (touch now) (handle_to_key h) reg)) as Hd.
  rewrite sm_view_modify, lookup_alter_eq, He in Hv. rewrite sm_view_modify, delete_alter_eq in Hd.
  destruct (sm_remove _ _) as [o r]; simpl in *. subst o. eauto.
Qed.

(** Cancelling a reader wakes the [next_chunk] that is waiting on it: the
    suspended call's next poll is ready, with the terminal error if one was
    recorded and end of stream otherwise. *)
Theorem cancel_wakes_pending_read now h (w : world) e b :
  open_body w h e b -> cv_buf (bview b) = [] -> 0 < cv_senders (bview b) ->
  exists n w1,
    next_chunk now h w = (Pending, Some n, w1) /\
    (next_chunk_poll n (cancel_reader h w1)).1.1 =
      Ready (match bc_terminal b with Some err => Err err | None => Ok None end).
Proof.
  intros Ho Hbuf Hs. pose proof Ho as (He & Hb & _ & Hr).
  destruct (pending_read now h w e b Ho Hbuf Hs) as (q & Hq & ->). eexists _, _. split; [done|].
  unfold cancel_reader, remove_reader; simpl.
  destruct (remove_touched now h _ e He) as (reg & -> & Hd). simpl.
  unfold next_chunk_poll; simpl. rewrite !lookup_alter_eq, Hb; simpl.
  destruct b as [q0 trm n [|k] l]; simpl in *; [lia|].
  unfold recv_poll; simpl. rewrite bool_decide_eq_true_2 by lia.
  unfold next_chunk_finish, remove_reader; simpl.
  pose proof (sm_view_remove_val _ (handle_to_key h) reg) as Hv.
  rewrite Hd, lookup_delete_eq in Hv. destruct (sm_remove _ reg) as [o reg1]; simpl in *. subst o.
  unfold take_terminal; simpl. rewrite !lookup_alter_eq, Hb; simpl.
  rewrite bc_terminal_drop_rx_arc; simpl. rewrite ?bc_terminal_drop_rx_arc. by destruct trm.
Qed.

(** The wakeup has a window: a [cancel_reader] that runs after
    [next_chunk] released the registry lock but before it created its receive
    future is not seen by that future. The poll stays pending on the open
    channel, and since the handle is gone no later [cancel_reader] on it can
    end the wait either. *)
Theorem cancel_before_registration_is_lost now h (w : world) e b :
  open_body w h e b -> cv_buf (bview b) = [] -> 0 < cv_senders (bview b) ->
  exists c w1,
    next_chunk_lookup now h w = (Ok c, w1) /\
    let w2 := cancel_reader h w1 in
    let n := next_chunk_start h c w2 in
    (next_chunk_poll n w2).1.1 = Pending /\
    (next_chunk_poll n (cancel_reader h w2)).1.1 = Pending.
Proof.
  intros Ho Hbuf Hs. pose proof Ho as (He & Hb & Hl & Hr).
  unfold next_chunk_lookup. rewrite sm_view_get, He. eexists _, _. split; [done|]. cbn zeta.
  set (w1 := upd_chan _ _ _).
  assert (exists reg, cancel_reader h w1 =
    drop_reader (value (touch now e)) (upd_chan notify_waiters (rd_chan (value e))
      (upd_store (set_readers reg) w1)) /\ sm_view reg !! handle_to_key h = None) as (reg & -> & Hreg).
  { unfold cancel_reader, remove_reader, w1; simpl.
    destruct (remove_touched now h _ e He) as (reg & -> & Hd). simpl. exists reg.
    by rewrite Hd, lookup_delete_eq. }
  set (b2 := drop_rx_arc (notify_waiters (clone_rx_arc b))).
  set (w2 := drop_reader _ _).
  assert (hp_chans (heap w2) !! rd_chan (value e) = Some b2) as H2.
  { simpl. by rewrite !lookup_alter_eq, Hb. }
  assert (bc_locked b2 = false /\ bview b2 = bview b) as [Hl2 Hv2].
  { unfold b2. by destruct b as [? ? ? [|?] ?]; simpl in *; [lia|]. }
  unfold next_chunk_start. rewrite H2.
  assert (forall w3 : world, heap w3 = heap w2 ->
    (next_chunk_poll (mkNext h (rd_chan (value e)) (recv_with_cancel b2)) w3).1.1 = Pending) as Hp.
  { intros w3 Hw3. unfold next_chunk_poll; cbn [nc_chan nc_recv]. rewrite Hw3, H2.
    rewrite recv_poll_fresh by done. destruct (try_recv_of_view b2) as (q & -> & Hq).
    unfold cv_try_recv. rewrite Hv2, Hbuf, decide_False by lia. done. }
  split; apply Hp; [done|].
  unfold cancel_reader, remove_reader.
  change (readers (store w2)) with reg.
  pose proof (sm_view_remove_val _ (handle_to_key h) reg) as Hv. rewrite Hreg in Hv.
  destruct (sm_remove _ reg) as [o reg1]; simpl in *. by subst o.
Qed.


End props.

(** ** Concrete instances *)

Section witnesses.
#[local] Abbreviation vworld := (World VecMap ChanView).

Definition demo_cfg : StoreConfig := mkConfig 4 3 1000 2 5000.

(** A store with one body channel whose writer and reader are registered. *)
Definition demo_open : Z * Z * vworld :=
  let '(x, r, w) := make_body_channel (world_new demo_cfg) in
  match insert_writer 0 x w with
  | (Ok hw, w) => match insert_reader 0 r w with
                  | (Ok hr, w) => (hw, hr, w)
                  | (Err _, w) => (0, 0, w)
                  end
  | (Err _, w) => (0, 0, w)
  end%Z.
Definition demo_hw : Z := demo_open.1.1.
Definition demo_hr : Z := demo_open.1.2.
Definition demo_w : vworld := demo_open.2.
Definition demo_er : Timed BodyReader := mkTimed (mkReader 0) 0.
Definition demo_ew : Timed BodyWriter := mkTimed (mkWriter 0 1000) 0.
Definition demo_chan : BodyChan ChanView := mkBodyChan (mkChan [] 4 1 true) None 0 1 false.
Definition demo_chunk : Bytes := [Byte.x61; Byte.x62; Byte.x63; Byte.x64].

Lemma demo_w_open : open_body demo_w demo_hr demo_er demo_chan.
Proof. split_and!; [vm_compute; reflexivity..|simpl; lia]. Qed.

Lemma reachable_store_bounded_witness :
  (Z.of_nat (sm_len (readers (store (alloc_body_writer 7 (world_new demo_cfg : vworld)).2)))
     <= max_handles demo_cfg)%Z.
Proof.
  apply (reachable_store_bounded demo_cfg (alloc_body_writer 7 (world_new demo_cfg : vworld)).2);
    [vm_compute; discriminate|]. apply rtc_once. constructor.
Defined.

Lemma insert_guard_all_or_nothing_witness :
  let acts := [GReader 1 (mkReader 0); GReader 1 (mkReader 0); GWriter 1 (mkWriter 0 5)] in
  let '(g, w') := guard_run acts demo_w in
  handle_views (guard_drop g w') = handle_views demo_w /\ guard_drop (commit g) w' = w'.
Proof.
  exact (insert_guard_all_or_nothing
    [GReader 1 (mkReader 0); GReader 1 (mkReader 0); GWriter 1 (mkWriter 0 5)] demo_w).
Defined.

Lemma send_chunk_lossless_witness :
  exists r got w' b', send_chunk 9 demo_hw demo_chunk [] demo_w = Some (r, got, w') /\
    hp_chans (heap w') !! 0 = Some b' /\
    match r with
    | Ok _ => got ++ cv_buf (bview b') = cv_buf (bview demo_chan) ++ chunk_pieces 3 demo_chunk
    | Err er => code er = Timeout ->
        exists n, got ++ cv_buf (bview b') = cv_buf (bview demo_chan) ++ take n (chunk_pieces 3 demo_chunk)
    end.
Proof.
  apply (send_chunk_lossless 9 demo_hw demo_chunk [] demo_w demo_ew demo_chan);
    vm_compute; try reflexivity; try discriminate.
Defined.

Lemma next_chunk_at_eof_witness :
  exists w' b',
    next_chunk 3 demo_hr (finish_body demo_hw demo_w).2 = (Ready (Ok None), None, w') /\
    hp_chans (heap w') !! 0 = Some b' /\ bc_terminal b' = None /\
    (forall k, k <> handle_to_key demo_hr ->
       sm_get k (readers (store w')) = sm_get k (readers (store (finish_body demo_hw demo_w).2))) /\
    next_chunk 3 demo_hr w' = (Ready (Err (invalid_handle demo_hr)), None, w').
Proof.
  apply (next_chunk_at_eof 3 demo_hr (finish_body demo_hw demo_w).2 demo_er
           (mkBodyChan (mkChan [] 4 0 true) None 0 1 false)); [|reflexivity|reflexivity].
  split_and!; [vm_compute; reflexivity..|simpl; lia].
Defined.

Definition demo_sent : vworld :=
  match send_chunk 9 demo_hw demo_chunk [] demo_w with
  | Some (_, _, w) => w
  | None => demo_w
  end.

Lemma body_roundtrip_witness :
  exists w1 w2 rest w3 fuel,
    send_chunk 9 demo_hw demo_chunk [] demo_w = Some (Ok tt, [], w1) /\
    finish_body demo_hw w1 = (Ok tt, w2) /\
    read_to_end fuel 9 demo_hr w2 = Some (Ok rest, w3) /\
    concat ([] ++ rest) = concat (cv_buf (bview demo_chan)) ++ demo_chunk /\
    sm_get (handle_to_key demo_hw) (writers (store w2)) = None /\
    sm_get (handle_to_key demo_hr) (readers (store w3)) = None.
Proof.
  assert (send_chunk 9 demo_hw demo_chunk [] demo_w = Some (Ok tt, [], demo_sent)) as Hs
    by (vm_compute; reflexivity).
  assert (sm_view (writers (store demo_w)) !! handle_to_key demo_hw = Some demo_ew) as Hw
    by (vm_compute; reflexivity).
  assert (1 <= max_chunk_size (config (store demo_w)))%Z as Hm by (vm_compute; discriminate).
  assert (len demo_chunk <= USIZE_MAX)%Z as Hl by (vm_compute; discriminate).
  assert (cv_senders (bview demo_chan) = 1) as Hn by (vm_compute; reflexivity).
  exists demo_sent.
  destruct (body_roundtrip 9 demo_hw demo_hr demo_chunk [] demo_w demo_ew demo_er demo_chan []
    demo_sent Hw demo_w_open eq_refl Hn eq_refl Hm Hl Hs) as (w2 & rest & w3 & fuel & Hr).
  exists w2, rest, w3, fuel. split; [exact Hs|exact Hr].
Defined.

(** A registry in which handle [4294967297] was issued and released. *)
Definition demo_reg0 : VecMap (Timed BodyReader) :=
  (insert_checked 0 (sm_with_key : VecMap (Timed BodyReader)) (mkReader 0) 9).2.
Definition demo_reg1 : VecMap (Timed BodyReader) :=
  (insert_checked 5 (sm_remove 0 demo_reg0).2 (mkReader 1) 9).2.

Lemma stale_handle_stays_dead_witness :
  sm_get 0 demo_reg1 = None /\
  (insert_checked 6 demo_reg1 (mkReader 2) 9).1 <> Ok (key_to_handle 0).
Proof.
  apply (stale_handle_stays_dead demo_reg0 demo_reg1 0 6 (mkReader 2) 9).
  - vm_compute. eauto.
  - apply rtc_once. apply reg_insert. exact I.
  - exact I.
Defined.

(** 129 readers registered at time 0, all expired at time 9000. *)
Definition demo_burst : VecMap (Timed BodyReader) :=
  fold_left (fun reg n => (insert_checked 0 reg (mkReader n) 65536).2) (seq 0 129) sm_with_key.

Lemma compaction_reissues_first_handle_witness :
  (insert_checked 0 (sm_with_key : VecMap (Timed BodyReader)) (mkReader 0) 65536).1 =
    (insert_checked 9001 (sweep_registry 9000 5000 demo_burst).2 (mkReader 777) 65536).1.
Proof.
  rewrite (compaction_reissues_first_handle demo_burst 9000 5000 9001 (mkReader 777) 65536);
    [reflexivity|vm_compute; discriminate|vm_compute; reflexivity|].
  vm_compute. lia.
Defined.

Lemma cancel_wakes_pending_read_witness :
  exists n w1,
    next_chunk 3 demo_hr demo_w = (Pending, Some n, w1) /\
    (next_chunk_poll n (cancel_reader demo_hr w1)).1.1 = Ready (Ok None).
Proof.
  apply (cancel_wakes_pending_read 3 demo_hr demo_w demo_er demo_chan);
    [apply demo_w_open|reflexivity|vm_compute; lia].
Defined.

Lemma cancel_before_registration_is_lost_witness :
  exists c w1,
    next_chunk_lookup 3 demo_hr demo_w = (Ok c, w1) /\
    let w2 := cancel_reader demo_hr w1 in
    let n := next_chunk_start demo_hr c w2 in
    (next_chunk_poll n w2).1.1 = Pending /\
    (next_chunk_poll n (cancel_reader demo_hr w2)).1.1 = Pending.
Proof.
  apply (cancel_before_registration_is_lost 3 demo_hr demo_w demo_er demo_chan);
    [apply demo_w_open|reflexivity|vm_compute; lia].
Defined.

Lemma sweep_removes_exactly_expired_witness :
  sm_get 0 (readers (store (sweep 5000 5000 demo_w))) = Some demo_er <->
  sm_get 0 (readers (store demo_w)) = Some demo_er /\ (elapsed 5000 (last_accessed demo_er) <= 5000)%Z.
Proof. apply (sweep_removes_exactly_expired 5000 5000 demo_w). Defined.

End witnesses.
