(* ===== verification/Net.v ===== *)
(** * Network identities, addresses and their text forms

    What the components use of [iroh] (endpoint ids, relay URLs,
    [EndpointData]) and of [base32], as classes of operations with the laws
    the code relies on, together with the standard library's [SocketAddr] and
    [str::trim]. *)

From stdpp Require Import base numbers list strings gmap.
From Stdlib Require Import ZArith Lia Strings.Ascii.
From S2P Require Import Prelude.

Open Scope string_scope.
Open Scope list_scope.

(** ** [std::net] *)

(** Addresses are the numeric value of their octets. *)
Inductive IpAddr :=
| V4 (bits : Z)
| V6 (bits : Z).

Inductive SocketAddr :=
| SockV4 (bits port : Z)
| SockV6 (bits port flowinfo scope_id : Z).

Definition sock_ip (a : SocketAddr) : IpAddr :=
  match a with SockV4 b _ => V4 b | SockV6 b _ _ _ => V6 b end.
Definition sock_port (a : SocketAddr) : Z :=
  match a with SockV4 _ p => p | SockV6 _ p _ _ => p end.
Definition sock_set_port (p : Z) (a : SocketAddr) : SocketAddr :=
  match a with SockV4 b _ => SockV4 b p | SockV6 b _ f s => SockV6 b p f s end.
(** [SocketAddr::new]. *)
Definition sock_new (ip : IpAddr) (p : Z) : SocketAddr :=
  match ip with V4 b => SockV4 b p | V6 b => SockV6 b p 0 0 end.

#[global] Instance IpAddr_eq_dec : EqDecision IpAddr.
Proof. solve_decision. Defined.
#[global] Instance SocketAddr_eq_dec : EqDecision SocketAddr.
Proof. solve_decision. Defined.

(** ** [str::trim] *)

(** The UTF-8 encodings of the [White_Space] code points. *)
Definition white_space : list (list nat) :=
  [[9]; [10]; [11]; [12]; [13]; [32]; [194; 133]; [194; 160]; [225; 154; 128];
   [226; 128; 128]; [226; 128; 129]; [226; 128; 130]; [226; 128; 131]; [226; 128; 132];
   [226; 128; 133]; [226; 128; 134]; [226; 128; 135]; [226; 128; 136]; [226; 128; 137];
   [226; 128; 138]; [226; 128; 168]; [226; 128; 169]; [226; 128; 175]; [226; 129; 159];
   [227; 128; 128]].

Fixpoint bytes_of_string (s : string) : list nat :=
  match s with
  | EmptyString => []
  | String a s => Ascii.nat_of_ascii a :: bytes_of_string s
  end.
Fixpoint string_of_bytes (l : list nat) : string :=
  match l with
  | [] => EmptyString
  | n :: l => String (Ascii.ascii_of_nat n) (string_of_bytes l)
  end.

(** [strip_one ws l]: what follows the first member of [ws] that [l] starts with. *)
Fixpoint strip_one (ws : list (list nat)) (l : list nat) : option (list nat) :=
  match ws with
  | [] => None
  | w :: ws => if bool_decide (take (length w) l = w) then Some (drop (length w) l) else strip_one ws l
  end.
Fixpoint strip_start (fuel : nat) (ws : list (list nat)) (l : list nat) : list nat :=
  match fuel with
  | O => l
  | S f => match strip_one ws l with Some l' => strip_start f ws l' | None => l end
  end.

(** Every member of [white_space] is non-empty, so [length l] rounds suffice. *)
Definition str_trim (s : string) : string :=
  let l := bytes_of_string s in
  let l := strip_start (length l) white_space l in
  let r := strip_start (length l) (map reverse white_space) (reverse l) in
  string_of_bytes (reverse r).

(** ** Identities and text forms *)

(** [parse_endpoint_id]: [EndpointId::from_str], with the error's text;
    [relay_parse]: [RelayUrl::from_str]; [sock_parse]: [SocketAddr::from_str];
    [b32_encode]/[b32_decode]: the [base32] crate on the lowercase, unpadded
    alphabet. *)
Class IrohNet (Id Relay : Type) := {
  parse_endpoint_id : string -> Result Id string;
  id_as_bytes : Id -> Bytes;
  id_from_bytes : Bytes -> Result Id string;
  relay_parse : string -> option Relay;
  relay_to_string : Relay -> string;
  sock_parse : string -> option SocketAddr;
  sock_to_string : SocketAddr -> string;
  b32_encode : Bytes -> string;
  b32_decode : string -> option Bytes
}.

(** [TransportAddr]; the enum is non-exhaustive. *)
Inductive TransportAddr (Relay : Type) :=
| TaIp (a : SocketAddr)
| TaRelay (r : Relay)
| TaOther (n : nat).
Arguments TaIp {Relay} a.
Arguments TaRelay {Relay} r.
Arguments TaOther {Relay} n.

#[global] Instance TransportAddr_eq_dec `{EqDecision Relay} : EqDecision (TransportAddr Relay).
Proof. solve_decision. Defined.

(** [EndpointData]: a set of transport addresses. *)
Class EndpointData (Relay D : Type) := {
  ed_default : D;
  ed_from_iter : list (TransportAddr Relay) -> D;
  ed_add_addrs : list (TransportAddr Relay) -> D -> D;
  ed_add_relay_url : Relay -> D -> D;
  ed_addrs : D -> list (TransportAddr Relay);
  ed_has_addrs : D -> bool
}.

Class EndpointDataLaws (Relay D : Type) `{EndpointData Relay D} := {
  ed_default_addrs : ed_addrs ed_default = [];
  ed_from_iter_elem : forall a l, a ∈ ed_addrs (ed_from_iter l) <-> a ∈ l;
  ed_add_addrs_elem : forall a l d, a ∈ ed_addrs (ed_add_addrs l d) <-> a ∈ l \/ a ∈ ed_addrs d;
  ed_add_relay_elem : forall a r d,
    a ∈ ed_addrs (ed_add_relay_url r d) <-> a = TaRelay r \/ a ∈ ed_addrs d;
  ed_has_addrs_spec : forall d, ed_has_addrs d = false <-> ed_addrs d = []
}.

(** ** Executable instances *)

(** A set of addresses as a duplicate-free list. *)
#[global] Instance list_EndpointData `{EqDecision Relay}
  : EndpointData Relay (list (TransportAddr Relay)) := {|
  ed_default := [];
  ed_from_iter := fun l => remove_dups l;
  ed_add_addrs := fun l d => remove_dups (l ++ d);
  ed_add_relay_url := fun r d => remove_dups (TaRelay r :: d);
  ed_addrs := fun d => d;
  ed_has_addrs := fun d => match d with [] => false | _ => true end
|}.

#[global] Instance list_EndpointDataLaws `{EqDecision Relay}
  : EndpointDataLaws Relay (list (TransportAddr Relay)).
Proof.
  constructor; intros; cbn [ed_addrs ed_default ed_from_iter ed_add_addrs ed_add_relay_url
    ed_has_addrs list_EndpointData].
  - done.
  - apply elem_of_remove_dups.
  - by rewrite elem_of_remove_dups, elem_of_app.
  - by rewrite elem_of_remove_dups, elem_of_cons.
  - by destruct d.
Qed.

(** Ids are one-letter names, relays start with [https://] and the socket
    address [":p"] is loopback at the port whose code is the letter [p]. *)
Definition starts_with (p s : string) : bool :=
  bool_decide (String.substring 0 (String.length p) s = p).

#[global] Instance demo_IrohNet : IrohNet nat string := {|
  parse_endpoint_id := fun s =>
    match s with
    | String a EmptyString => Ok (Ascii.nat_of_ascii a)
    | _ => Err "not an endpoint id"
    end;
  id_as_bytes := fun n => match Byte.of_nat n with Some b => [b] | None => [] end;
  id_from_bytes := fun l =>
    match l with [b] => Ok (Byte.to_nat b) | _ => Err "not an endpoint id" end;
  relay_parse := fun s => if starts_with "https://" s then Some s else None;
  relay_to_string := fun s => s;
  sock_parse := fun s =>
    match s with
    | String ":"%char (String a EmptyString) => Some (SockV4 2130706433 (Z.of_nat (Ascii.nat_of_ascii a)))
    | _ => None
    end;
  sock_to_string := fun a => String ":"%char (String (Ascii.ascii_of_nat (Z.to_nat (sock_port a))) "");
  b32_encode := fun l => string_of_bytes (map Byte.to_nat l);
  b32_decode := fun s => mapM Byte.of_nat (bytes_of_string s)
|}.
