(* ===== verification/Lookup.v ===== *)
(** * Source-scoped address lookup (endpoint/source_scoped_lookup.rs)

    Every browse session owns a source; a source contributes one record per
    DNS-SD service instance.  [effective] caches, per endpoint id, the union of
    the live contributions and is what [resolve] serves. *)

From stdpp Require Import base numbers list strings gmap fin_maps relations.
From Stdlib Require Import ZArith Lia Strings.Ascii.
From S2P Require Import Prelude Net.

Open Scope string_scope.
Open Scope list_scope.

Section lookup.
Context {Id Relay D : Type} `{Countable Id}.
Context `{NET : IrohNet Id Relay} `{ED : EndpointData Relay D}.
(** [{:?}] of a string. *)
Context (debug_str : string -> string).

Record Contribution := mkContribution { c_endpoint_id : Id; c_node_id : string; c_data : D }.

(** [State]; a key is a source id and an instance name. *)
Record State := mkState {
  next_source_id : Z;
  contributions : gmap (Z * string) Contribution;
  effective : gmap Id D
}.

(** The [retired] flag of a [SourceLease]: it is set before the lock is taken
    to drop the contributions, so a lease can be seen between the two. *)
Inductive LeaseState := Live | Retiring | Retired.

#[local] Instance LeaseState_eq_dec : EqDecision LeaseState.
Proof. solve_decision. Defined.

(** The shared lookup with the lease of every source created so far. *)
Record Lookup := mkLookup { state : State; leases : gmap Z LeaseState }.

Record AddressLookupRemoval := mkRemoval {
  rm_node_id : string;
  has_remaining_contributions : bool;
  remaining_addrs : list string
}.
Record AddressLookupUpsert := mkUpsert {
  up_node_id : string;
  effective_addrs : list string;
  replaced : option AddressLookupRemoval
}.
Record AddressLookupUpsertError := mkUpsertError {
  ue_message : string;
  ue_removal : option AddressLookupRemoval
}.

Definition base32_encode (b : Bytes) : string := b32_encode b.

Definition lookup_new : Lookup := mkLookup (mkState 1 ∅ ∅) ∅.

(** [new_source]; [None] is the panic of an exhausted id space. *)
Definition new_source (l : Lookup) : option Z * Lookup :=
  let st := state l in
  let source_id := next_source_id st in
  match checked_add source_id 1 with
  | None => (None, l)
  | Some n =>
      (Some source_id,
       mkLookup (mkState n (contributions st) (effective st)) (<[source_id := Live]> (leases l)))
  end.

(** The addresses contributed for one endpoint, by the sources [keep] selects. *)
Definition contributed_addrs (keep : Z -> bool) (st : State) (endpoint_id : Id)
  : list (TransportAddr Relay) :=
  flat_map (fun kc => ed_addrs (c_data kc.2))
    (List.filter (fun kc => keep kc.1.1 && bool_decide (c_endpoint_id kc.2 = endpoint_id))
       (map_to_list (contributions st))).

Definition recompute_endpoint (st : State) (endpoint_id : Id) : State :=
  let data := ed_from_iter (contributed_addrs (fun _ => true) st endpoint_id) in
  mkState (next_source_id st) (contributions st)
    (if ed_has_addrs data then <[endpoint_id := data]> (effective st)
     else delete endpoint_id (effective st)).

Definition addr_text (a : TransportAddr Relay) : option string :=
  match a with
  | TaIp s => Some (sock_to_string s)
  | TaRelay r => Some (relay_to_string r)
  | TaOther _ => None
  end.

Definition source_effective_addrs (st : State) (source_id : Z) (endpoint_id : Id) : list string :=
  let data := ed_from_iter (contributed_addrs (Z.eqb source_id) st endpoint_id) in
  omap addr_text (ed_addrs data).

Definition removal_snapshot (st : State) (source_id : Z) (endpoint_id : Id)
  (advertised_node_id : string) : AddressLookupRemoval :=
  mkRemoval advertised_node_id
    (existsb (fun kc => (kc.1.1 =? source_id)%Z && bool_decide (c_endpoint_id kc.2 = endpoint_id))
       (map_to_list (contributions st)))
    (source_effective_addrs st source_id endpoint_id).

Definition remove_contribution (st : State) (key : Z * string)
  : option AddressLookupRemoval * State :=
  match contributions st !! key with
  | None => (None, st)
  | Some c =>
      let st := mkState (next_source_id st) (delete key (contributions st)) (effective st) in
      let st := recompute_endpoint st (c_endpoint_id c) in
      (Some (removal_snapshot st key.1 (c_endpoint_id c) (c_node_id c)), st)
  end.

(** Socket addresses with port 0 or 1 are skipped; text that is neither a
    socket address nor a relay URL is ignored. *)
Fixpoint endpoint_data_from (data : D) (addrs : list string) : D :=
  match addrs with
  | [] => data
  | addr :: rest =>
      let addr := str_trim addr in
      let data :=
        match sock_parse addr with
        | Some a => if (sock_port a <=? 1)%Z then data else ed_add_addrs [TaIp a] data
        | None =>
            match relay_parse addr with
            | Some r => ed_add_relay_url r data
            | None => data
            end
        end in
      endpoint_data_from data rest
  end.
Definition endpoint_data (addrs : list string) : D := endpoint_data_from ed_default addrs.

(** [self.lease.retired.load()]. *)
Definition lease_retired (source_id : Z) (l : Lookup) : bool :=
  bool_decide (leases l !! source_id <> Some Live).

(** [AddressLookupSource::upsert]. *)
Definition upsert (source_id : Z) (instance_name node_id : string) (addrs : list string) (l : Lookup)
  : Result AddressLookupUpsert AddressLookupUpsertError * Lookup :=
  let key := (source_id, instance_name) in
  let st := state l in
  if lease_retired source_id l
  then (Err (mkUpsertError "address-lookup source has been retired" None), l)
  else
    match parse_endpoint_id node_id with
    | Err error =>
        let '(removal, st) := remove_contribution st key in
        (Err (mkUpsertError ("invalid node id " +:+ debug_str node_id +:+ ": " +:+ error) removal),
         mkLookup st (leases l))
    | Ok endpoint_id =>
        let c := mkContribution endpoint_id (base32_encode (id_as_bytes endpoint_id))
                   (endpoint_data addrs) in
        let old := contributions st !! key in
        let st := mkState (next_source_id st) (<[key := c]> (contributions st)) (effective st) in
        let st :=
          match old with
          | Some o => if bool_decide (c_endpoint_id o <> endpoint_id)
                      then recompute_endpoint st (c_endpoint_id o) else st
          | None => st
          end in
        let st := recompute_endpoint st endpoint_id in
        let replaced :=
          match old with
          | Some o => if bool_decide (c_endpoint_id o <> endpoint_id)
                      then Some (removal_snapshot st source_id (c_endpoint_id o) (c_node_id o))
                      else None
          | None => None
          end in
        (Ok (mkUpsert (base32_encode (id_as_bytes endpoint_id))
               (source_effective_addrs st source_id endpoint_id) replaced),
         mkLookup st (leases l))
    end.

Definition remove_with_snapshot (source_id : Z) (instance_name : string) (l : Lookup)
  : option AddressLookupRemoval * Lookup :=
  if lease_retired source_id l then (None, l)
  else
    let '(removal, st) := remove_contribution (state l) (source_id, instance_name) in
    (removal, mkLookup st (leases l)).

Definition remove (source_id : Z) (instance_name : string) (l : Lookup) : option string * Lookup :=
  let '(removal, l) := remove_with_snapshot source_id instance_name l in
  (rm_node_id <$> removal, l).

(** [SourceLease::retire], first the flag ... *)
Definition retire_swap (source_id : Z) (l : Lookup) : bool * Lookup :=
  if lease_retired source_id l then (true, l)
  else (false, mkLookup (state l) (<[source_id := Retiring]> (leases l))).

(** ... then the section under the lock. *)
Definition retire_sweep (source_id : Z) (l : Lookup) : Lookup :=
  let st := state l in
  let affected :=
    remove_dups (map (fun kc => c_endpoint_id kc.2)
      (List.filter (fun kc => (kc.1.1 =? source_id)%Z) (map_to_list (contributions st)))) in
  let kept := filter (fun kc => kc.1.1 <> source_id) (contributions st) in
  mkLookup
    (fold_left recompute_endpoint affected (mkState (next_source_id st) kept (effective st)))
    (<[source_id := Retired]> (leases l)).

Definition retire (source_id : Z) (l : Lookup) : Lookup :=
  match retire_swap source_id l with
  | (true, l) => l
  | (false, l) => retire_sweep source_id l
  end.

(** [AddressLookup::resolve]: the data of the single item of the stream. *)
Definition resolve (l : Lookup) (endpoint_id : Id) : option D := effective (state l) !! endpoint_id.

(** ** Steps *)

Inductive lookup_step : Lookup -> Lookup -> Prop :=
| step_new_source l : lookup_step l (new_source l).2
| step_upsert l s i n a : lookup_step l (upsert s i n a l).2
| step_remove l s i : lookup_step l (remove s i l).2
| step_retire_swap l s : is_Some (leases l !! s) -> lookup_step l (retire_swap s l).2
| step_retire_sweep l s : leases l !! s = Some Retiring -> lookup_step l (retire_sweep s l).

(** ** Specification *)

(** Address [a] of endpoint [e] is contributed by a live instance. *)
Definition contributed (st : State) (e : Id) (a : TransportAddr Relay) : Prop :=
  exists k c, contributions st !! k = Some c /\ c_endpoint_id c = e /\ a ∈ ed_addrs (c_data c).

(** ... of source [s]. *)
Definition contributed_by (s : Z) (st : State) (e : Id) (a : TransportAddr Relay) : Prop :=
  exists i c, contributions st !! (s, i) = Some c /\ c_endpoint_id c = e /\ a ∈ ed_addrs (c_data c).

(** The cache entry of [e] is the union of its contributions. *)
Definition eff_at (st : State) (e : Id) : Prop :=
  match effective st !! e with
  | Some d => ed_addrs d <> [] /\ forall a, a ∈ ed_addrs d <-> contributed st e a
  | None => forall a, ~ contributed st e a
  end.

Record lookup_inv (l : Lookup) : Prop := {
  inv_eff : forall e, eff_at (state l) e;
  inv_owner : forall k c, contributions (state l) !! k = Some c ->
    leases l !! k.1 = Some Live \/ leases l !! k.1 = Some Retiring;
  inv_ids : forall s x, leases l !! s = Some x -> (1 <= s < next_source_id (state l))%Z;
  inv_next : (1 <= next_source_id (state l) <= U64_MAX)%Z
}.

(** ** Lemmas *)

Context `{!EndpointDataLaws Relay D}.

Lemma elem_of_contributed_addrs keep st e a :
  a ∈ contributed_addrs keep st e <->
  exists k c, contributions st !! k = Some c /\ keep k.1 = true /\ c_endpoint_id c = e /\
    a ∈ ed_addrs (c_data c).
Proof.
  unfold contributed_addrs. rewrite list_elem_of_In, in_flat_map. split.
  - intros [[k c] [Hf Ha]]. apply filter_In in Hf as [Hin Hk]. simpl in *.
    apply list_elem_of_In, elem_of_map_to_list in Hin. apply andb_prop in Hk as [Hk He].
    apply bool_decide_eq_true in He. exists k, c. by rewrite list_elem_of_In.
  - intros (k & c & Hl & Hk & He & Ha). exists (k, c). simpl. split.
    + apply filter_In. split; [by apply list_elem_of_In, elem_of_map_to_list|].
      simpl. by rewrite Hk, bool_decide_eq_true_2.
    + by apply list_elem_of_In.
Qed.

Lemma contributed_addrs_all st e a :
  a ∈ contributed_addrs (fun _ => true) st e <-> contributed st e a.
Proof. rewrite elem_of_contributed_addrs. unfold contributed. naive_solver. Qed.

Lemma contributed_addrs_source s st e a :
  a ∈ contributed_addrs (Z.eqb s) st e <-> contributed_by s st e a.
Proof.
  rewrite elem_of_contributed_addrs. unfold contributed_by. split.
  - intros ([s' i] & c & Hl & Hk & He & Ha). apply Z.eqb_eq in Hk. simpl in Hk. subst s'.
    by exists i, c.
  - intros (i & c & Hl & He & Ha). exists (s, i), c. simpl. by rewrite Z.eqb_refl.
Qed.

Lemma has_addrs_true d : ed_has_addrs d = true <-> ed_addrs d <> [].
Proof.
  rewrite <- not_false_iff_true. split; intros Hn Hc; apply Hn; by apply ed_has_addrs_spec.
Qed.

Lemma recompute_contributions st e : contributions (recompute_endpoint st e) = contributions st.
Proof. done. Qed.

Lemma contributed_ext st st' e a :
  contributions st = contributions st' -> contributed st e a <-> contributed st' e a.
Proof. unfold contributed. by intros ->. Qed.

(** Recomputing an endpoint makes its entry right ... *)
Lemma recompute_eff_at st e : eff_at (recompute_endpoint st e) e.
Proof.
  unfold eff_at. destruct (ed_has_addrs (ed_from_iter (contributed_addrs (fun _ => true) st e))) eqn:E.
  - unfold recompute_endpoint; simpl. rewrite E, lookup_insert_eq. split.
    + by apply has_addrs_true.
    + intros a. rewrite ed_from_iter_elem, contributed_addrs_all. done.
  - unfold recompute_endpoint; simpl. rewrite E, lookup_delete_eq. intros a Ha.
    apply ed_has_addrs_spec in E.
    assert (a ∈ ed_addrs (ed_from_iter (contributed_addrs (fun _ => true) st e))) as Hin
      by (rewrite ed_from_iter_elem, contributed_addrs_all; done).
    rewrite E in Hin. by apply not_elem_of_nil in Hin.
Qed.

(** ... and leaves the others as they are. *)
Lemma recompute_eff_other st e e' : e' <> e -> eff_at (recompute_endpoint st e) e' <-> eff_at st e'.
Proof.
  intros Hne. unfold eff_at.
  assert (effective (recompute_endpoint st e) !! e' = effective st !! e') as ->.
  { unfold recompute_endpoint; simpl. case_match.
    - by rewrite lookup_insert_ne.
    - by rewrite lookup_delete_ne. }
  done.
Qed.

Lemma recompute_eff st e e' : eff_at st e' -> eff_at (recompute_endpoint st e) e'.
Proof.
  intros He. destruct (decide (e' = e)) as [->|Hn].
  - apply recompute_eff_at.
  - by apply recompute_eff_other.
Qed.

Lemma fold_recompute_contributions es st :
  contributions (fold_left recompute_endpoint es st) = contributions st /\
  next_source_id (fold_left recompute_endpoint es st) = next_source_id st.
Proof.
  revert st. induction es as [|e es IH]; intros st; [done|]. simpl.
  destruct (IH (recompute_endpoint st e)) as [-> ->]. done.
Qed.

Lemma fold_recompute_eff es st e :
  eff_at st e \/ e ∈ es -> eff_at (fold_left recompute_endpoint es st) e.
Proof.
  revert st. induction es as [|x es IH]; intros st Hor; simpl.
  - destruct Hor as [?|Hin]; [done|]. by apply not_elem_of_nil in Hin.
  - apply IH. destruct Hor as [He|Hin].
    + left. by apply recompute_eff.
    + apply elem_of_cons in Hin as [->|Hin]; [left; apply recompute_eff_at|by right].
Qed.

(** A change of the contributions that involves only the endpoints in [es]
    keeps the entries of the others right. *)
Lemma eff_at_contributions st st' e :
  effective st' = effective st ->
  (forall a, contributed st' e a <-> contributed st e a) -> eff_at st e -> eff_at st' e.
Proof. unfold eff_at. intros -> Hc. case_match; setoid_rewrite Hc; done. Qed.

Lemma contributed_insert st n k c e a :
  c_endpoint_id c <> e ->
  (forall o, contributions st !! k = Some o -> c_endpoint_id o <> e) ->
  contributed (mkState n (<[k := c]> (contributions st)) (effective st)) e a <-> contributed st e a.
Proof.
  intros Hc Ho. unfold contributed; simpl. split; intros (k' & c' & Hl & He & Ha).
  - apply lookup_insert_Some in Hl as [[-> ->]|[Hne Hl]]; [done|]. by exists k', c'.
  - exists k', c'. split; [|done]. rewrite lookup_insert_ne; [done|].
    intros ->. by eapply Ho.
Qed.

Lemma contributed_delete st n k e a :
  (forall o, contributions st !! k = Some o -> c_endpoint_id o <> e) ->
  contributed (mkState n (delete k (contributions st)) (effective st)) e a <-> contributed st e a.
Proof.
  intros Ho. unfold contributed; simpl. split; intros (k' & c' & Hl & He & Ha).
  - apply lookup_delete_Some in Hl as [Hne Hl]. by exists k', c'.
  - exists k', c'. split; [|done]. rewrite lookup_delete_ne; [done|].
    intros ->. by eapply Ho.
Qed.

Lemma remove_contribution_contributions st k :
  contributions (remove_contribution st k).2 = delete k (contributions st) /\
  next_source_id (remove_contribution st k).2 = next_source_id st.
Proof.
  unfold remove_contribution. destruct (contributions st !! k) eqn:E; [done|]. simpl.
  by rewrite delete_id.
Qed.

Lemma remove_contribution_eff st k e :
  (forall x, eff_at st x) -> eff_at (remove_contribution st k).2 e.
Proof.
  intros Hall. unfold remove_contribution. destruct (contributions st !! k) as [c|] eqn:E; [|done].
  simpl. destruct (decide (e = c_endpoint_id c)) as [->|Hn]; [apply recompute_eff_at|].
  apply recompute_eff. apply eff_at_contributions with st; [done| |done].
  intros a. apply contributed_delete. rewrite E. intros o [= <-]. done.
Qed.

(** The state [upsert] leaves when the node id parses. *)
Definition upsert_state (key : Z * string) (c : Contribution) (st : State) : State :=
  let st' := mkState (next_source_id st) (<[key := c]> (contributions st)) (effective st) in
  recompute_endpoint
    (match contributions st !! key with
     | Some o => if bool_decide (c_endpoint_id o <> c_endpoint_id c)
                 then recompute_endpoint st' (c_endpoint_id o) else st'
     | None => st'
     end) (c_endpoint_id c).

Lemma upsert_state_contributions key c st :
  contributions (upsert_state key c st) = <[key := c]> (contributions st) /\
  next_source_id (upsert_state key c st) = next_source_id st.
Proof.
  unfold upsert_state. destruct (contributions st !! key) as [o|]; [|done]. by case_bool_decide.
Qed.

Lemma upsert_state_eff key c st e : (forall x, eff_at st x) -> eff_at (upsert_state key c st) e.
Proof.
  intros Hall. unfold upsert_state.
  destruct (decide (e = c_endpoint_id c)) as [->|Hn]; [apply recompute_eff_at|].
  apply recompute_eff.
  destruct (contributions st !! key) as [o|] eqn:E.
  - case_bool_decide as Ho.
    + destruct (decide (e = c_endpoint_id o)) as [->|Hn']; [apply recompute_eff_at|].
      apply recompute_eff. apply eff_at_contributions with st; [done| |done].
      intros a. apply contributed_insert; [done|]. rewrite E. by intros o' [= <-].
    + apply eff_at_contributions with st; [done| |done].
      intros a. apply contributed_insert; [done|]. rewrite E. intros o' [= <-].
      destruct (decide (c_endpoint_id o = c_endpoint_id c)); naive_solver.
  - apply eff_at_contributions with st; [done| |done].
    intros a. apply contributed_insert; [done|]. by rewrite E.
Qed.

Lemma upsert_live_ok s i n addrs l id :
  lease_retired s l = false -> parse_endpoint_id n = Ok id ->
  let c := mkContribution id (base32_encode (id_as_bytes id)) (endpoint_data addrs) in
  let st := upsert_state (s, i) c (state l) in
  upsert s i n addrs l =
  (Ok (mkUpsert (base32_encode (id_as_bytes id)) (source_effective_addrs st s id)
         (match contributions (state l) !! (s, i) with
          | Some o => if bool_decide (c_endpoint_id o <> id)
                      then Some (removal_snapshot st s (c_endpoint_id o) (c_node_id o)) else None
          | None => None
          end)), mkLookup st (leases l)).
Proof. intros Hl Hp. unfold upsert. rewrite Hl, Hp. done. Qed.

Lemma lease_live s l : lease_retired s l = false <-> leases l !! s = Some Live.
Proof.
  unfold lease_retired. rewrite bool_decide_eq_false.
  destruct (leases l !! s) as [[]|]; naive_solver.
Qed.

Lemma retire_sweep_contributions s l k :
  contributions (state (retire_sweep s l)) !! k =
  if decide (k.1 = s) then None else contributions (state l) !! k.
Proof.
  unfold retire_sweep; simpl. rewrite (proj1 (fold_recompute_contributions _ _)). simpl.
  destruct (decide (k.1 = s)) as [Heq|Hn].
  - apply map_lookup_filter_None. right. intros x _ Hx. by apply Hx.
  - destruct (contributions (state l) !! k) as [c|] eqn:E.
    + by apply map_lookup_filter_Some.
    + apply map_lookup_filter_None. by left.
Qed.

Lemma retire_sweep_eff s l e :
  (forall x, eff_at (state l) x) -> eff_at (state (retire_sweep s l)) e.
Proof.
  intros Hall. unfold retire_sweep; simpl. apply fold_recompute_eff.
  set (affected := remove_dups _). destruct (decide (e ∈ affected)) as [Hin|Hin]; [by right|left].
  apply eff_at_contributions with (state l); [done| |done].
  intros a. unfold contributed; simpl. split; intros (k & c & Hl & He & Ha); exists k, c.
  - apply map_lookup_filter_Some in Hl as [Hl _]. done.
  - split; [|done]. apply map_lookup_filter_Some. split; [done|]. simpl. intros Hk. apply Hin.
    unfold affected. apply elem_of_remove_dups, list_elem_of_In, in_map_iff.
    exists (k, c). split; [done|]. apply filter_In. split.
    + by apply list_elem_of_In, elem_of_map_to_list.
    + simpl. by apply Z.eqb_eq.
Qed.

Lemma lookup_inv_new : lookup_inv lookup_new.
Proof.
  split; simpl.
  - intros e. unfold eff_at; simpl. rewrite lookup_empty.
    intros a (k & c & Hl & _). simpl in Hl. by rewrite lookup_empty in Hl.
  - intros k c Hl. by rewrite lookup_empty in Hl.
  - intros s x Hl. by rewrite lookup_empty in Hl.
  - unfold U64_MAX. lia.
Qed.

(** A step that keeps the leases keeps the invariant when it keeps the cache
    right and adds contributions of live sources only. *)
Lemma lookup_inv_state l st :
  lookup_inv l -> next_source_id st = next_source_id (state l) -> (forall e, eff_at st e) ->
  (forall k c, contributions st !! k = Some c ->
     is_Some (contributions (state l) !! k) \/ leases l !! k.1 = Some Live) ->
  lookup_inv (mkLookup st (leases l)).
Proof.
  intros [He Ho Hi Hn] Hnx Heff Hk. split; simpl; rewrite ?Hnx; eauto.
  intros k c Hc. destruct (Hk k c Hc) as [[c' Hc']|Hl]; eauto.
Qed.

Lemma remove_contribution_inv l k :
  lookup_inv l -> lookup_inv (mkLookup (remove_contribution (state l) k).2 (leases l)).
Proof.
  intros Hinv. apply lookup_inv_state; [done|apply remove_contribution_contributions| |].
  - intros e. apply remove_contribution_eff, Hinv.
  - intros k' c. rewrite (proj1 (remove_contribution_contributions _ _)).
    intros [_ Hc]%lookup_delete_Some. eauto.
Qed.

Lemma upsert_inv s i n a l : lookup_inv l -> lookup_inv (upsert s i n a l).2.
Proof.
  intros Hinv. destruct (lease_retired s l) eqn:El; [unfold upsert; by rewrite El|].
  destruct (parse_endpoint_id n) as [id|err] eqn:Ep.
  - rewrite (upsert_live_ok _ _ _ _ _ id) by done. simpl.
    set (c := mkContribution _ _ _). apply lookup_inv_state; [done|apply upsert_state_contributions| |].
    + intros e. apply upsert_state_eff, Hinv.
    + intros k c'. rewrite (proj1 (upsert_state_contributions _ _ _)).
      intros [[<- _]|[_ Hc]]%lookup_insert_Some; [right; by apply lease_live|eauto].
  - pose proof (remove_contribution_inv l (s, i) Hinv) as Hr. unfold upsert. rewrite El, Ep.
    by destruct (remove_contribution (state l) (s, i)).
Qed.

Lemma remove_inv s i l : lookup_inv l -> lookup_inv (remove s i l).2.
Proof.
  intros Hinv. pose proof (remove_contribution_inv l (s, i) Hinv) as Hr.
  unfold remove, remove_with_snapshot. destruct (lease_retired s l); [done|].
  by destruct (remove_contribution (state l) (s, i)).
Qed.

Lemma new_source_inv l : lookup_inv l -> lookup_inv (new_source l).2.
Proof.
  intros [He Ho Hi Hn]. unfold new_source, checked_add.
  destruct (next_source_id (state l) + 1 <=? U64_MAX)%Z eqn:E; [|done]. bool_to_prop. simpl.
  split; simpl; [done| | |lia].
  - intros k c Hk. destruct (Ho k c Hk) as [Hl|Hl]; rewrite lookup_insert_ne; auto;
      apply Hi in Hl; lia.
  - intros s x [[<- _]|[_ Hx]]%lookup_insert_Some; [lia|]. apply Hi in Hx. lia.
Qed.

Lemma retire_swap_inv s l : is_Some (leases l !! s) -> lookup_inv l -> lookup_inv (retire_swap s l).2.
Proof.
  intros [x Hx] [He Ho Hi Hn]. unfold retire_swap. destruct (lease_retired s l); [done|]. simpl.
  split; simpl; [done| | |done].
  - intros k c Hk. destruct (decide (s = k.1)) as [->|Hne].
    + rewrite lookup_insert_eq. by right.
    + rewrite lookup_insert_ne by done. eauto.
  - intros s' y [[<- _]|[_ Hy]]%lookup_insert_Some; eauto.
Qed.

Lemma retire_sweep_inv s l : is_Some (leases l !! s) -> lookup_inv l -> lookup_inv (retire_sweep s l).
Proof.
  intros [x Hx] [He Ho Hi Hn].
  assert (next_source_id (state (retire_sweep s l)) = next_source_id (state l)) as Hnx.
  { unfold retire_sweep; simpl. by rewrite (proj2 (fold_recompute_contributions _ _)). }
  split; rewrite ?Hnx; [|intros k c| |done].
  - intros e. by apply retire_sweep_eff.
  - rewrite retire_sweep_contributions. destruct (decide (k.1 = s)) as [|Hne]; [done|]. intros Hk.
    simpl. rewrite lookup_insert_ne by done. eauto.
  - intros s' y. simpl. intros [[<- _]|[_ Hy]]%lookup_insert_Some; eauto.
Qed.

Lemma lookup_step_inv l l' : lookup_step l l' -> lookup_inv l -> lookup_inv l'.
Proof.
  intros [] Hinv; eauto using new_source_inv, upsert_inv, remove_inv, retire_swap_inv, retire_sweep_inv.
Qed.

Lemma lookup_reachable_inv l : rtc lookup_step lookup_new l -> lookup_inv l.
Proof. intros Hr. eapply rtc_invariant; [apply lookup_step_inv|done|apply lookup_inv_new]. Qed.

(** A retired lease stays retired. *)
Lemma lookup_step_retired s l l' :
  lookup_inv l -> lookup_step l l' -> leases l !! s = Some Retired -> leases l' !! s = Some Retired.
Proof.
  intros Hinv Hs Hl. destruct Hs as [l|l s' i n a|l s' i|l s' Hl'|l s' Hl'].
  - unfold new_source. destruct (checked_add _ _); [|done]. simpl.
    rewrite lookup_insert_ne; [done|]. apply Hinv in Hl. lia.
  - unfold upsert. repeat (case_match; simplify_eq/=; try done).
  - unfold remove, remove_with_snapshot. repeat (case_match; simplify_eq/=; try done).
  - unfold retire_swap. destruct (lease_retired s' l) eqn:E; [done|]. simpl.
    apply lease_live in E. rewrite lookup_insert_ne; [done|]. intros ->. congruence.
  - simpl. destruct (decide (s' = s)) as [->|Hn]; [by rewrite lookup_insert_eq|].
    by rewrite lookup_insert_ne.
Qed.

Lemma lookup_steps_retired s l l' :
  lookup_inv l -> rtc lookup_step l l' -> leases l !! s = Some Retired -> leases l' !! s = Some Retired.
Proof.
  intros Hinv Hr. revert Hinv. induction Hr as [|x y z Hxy Hyz IH]; [done|].
  intros Hinv Hx. apply IH; [by eapply lookup_step_inv|by eapply lookup_step_retired].
Qed.

(** What [source_effective_addrs] lists. *)
Lemma elem_of_source_effective st s e t :
  t ∈ source_effective_addrs st s e <-> exists a, contributed_by s st e a /\ addr_text a = Some t.
Proof.
  unfold source_effective_addrs. rewrite list_elem_of_omap.
  setoid_rewrite ed_from_iter_elem. setoid_rewrite contributed_addrs_source. done.
Qed.

Lemma has_remaining_spec st s e n :
  has_remaining_contributions (removal_snapshot st s e n) = true <->
  exists i c, contributions st !! (s, i) = Some c /\ c_endpoint_id c = e.
Proof.
  simpl. rewrite existsb_exists. split.
  - intros [[[s' i] c] [Hin Hb]]. simpl in Hb. bool_to_prop. subst s'.
    apply list_elem_of_In, elem_of_map_to_list in Hin. apply bool_decide_eq_true in H1. eauto.
  - intros (i & c & Hl & He). exists ((s, i), c). simpl. rewrite Z.eqb_refl, bool_decide_eq_true_2 by done.
    split; [by apply list_elem_of_In, elem_of_map_to_list|done].
Qed.

(** ** Theorems *)

(** C3. In every reachable state of the lookup, whatever the interleaving of
    source creation, upserts, removals and the two halves of retirement,
    [resolve] returns nothing for an endpoint exactly when no live instance
    contributes an address for it, and otherwise the union of the addresses its
    live instances contribute. *)
Theorem resolve_is_union_of_contributions (l : Lookup) (e : Id) :
  rtc lookup_step lookup_new l ->
  (resolve l e = None <-> forall a, ~ contributed (state l) e a) /\
  (forall d, resolve l e = Some d -> forall a, a ∈ ed_addrs d <-> contributed (state l) e a).
Proof.
  intros Hr. pose proof (inv_eff l (lookup_reachable_inv l Hr) e) as He.
  unfold resolve, eff_at in *. destruct (effective (state l) !! e) as [d|]; [|naive_solver].
  destruct He as [Hne He]. split; [|by intros ? [= <-]]. split; [done|]. intros Hno. exfalso.
  destruct (ed_addrs d) as [|a ad] eqn:Ea; [done|]. apply (Hno a), He, list_elem_of_here.
Qed.

(** Retiring a live source removes all of its contributions and only those
    and is final: in every later state no contribution of that source exists,
    and its upserts and removals are refused without changing the lookup. *)
Theorem retire_is_final (l l' : Lookup) (s : Z) :
  rtc lookup_step lookup_new l -> leases l !! s = Some Live ->
  rtc lookup_step (retire s l) l' ->
  (forall k, contributions (state (retire s l)) !! k =
     if decide (k.1 = s) then None else contributions (state l) !! k) /\
  (forall i, contributions (state l') !! (s, i) = None) /\
  (forall i n a, upsert s i n a l' =
     (Err (mkUpsertError "address-lookup source has been retired" None), l')) /\
  (forall i, remove s i l' = (None, l')).
Proof.
  intros Hr Hl Hr'. apply lookup_reachable_inv in Hr.
  pose proof (proj2 (lease_live s l) Hl) as Hlr.
  set (l1 := mkLookup (state l) (<[s := Retiring]> (leases l))).
  assert (retire s l = retire_sweep s l1) as Hret by (unfold retire, retire_swap; by rewrite Hlr).
  assert (lookup_inv (retire s l)) as Hinv.
  { rewrite Hret. apply retire_sweep_inv; [simpl; rewrite lookup_insert_eq; eauto|].
    pose proof (retire_swap_inv s l) as Hs. unfold retire_swap in Hs. rewrite Hlr in Hs. eauto. }
  assert (leases l' !! s = Some Retired) as Hret'.
  { eapply lookup_steps_retired; [exact Hinv|done|]. rewrite Hret. simpl. apply lookup_insert_eq. }
  assert (lease_retired s l' = true) as Hlr'.
  { destruct (lease_retired s l') eqn:E; [done|]. apply lease_live in E. congruence. }
  split_and!.
  - intros k. rewrite Hret. by rewrite retire_sweep_contributions.
  - intros i. destruct (contributions (state l') !! (s, i)) as [c|] eqn:E; [|done].
    assert (lookup_inv l') as Hinv' by (eapply rtc_invariant; eauto using lookup_step_inv).
    apply (inv_owner _ Hinv') in E. simpl in E. rewrite Hret' in E. by destruct E.
  - intros. unfold upsert. by rewrite Hlr'.
  - intros. unfold remove, remove_with_snapshot. by rewrite Hlr'.
Qed.

(** An upsert on a live source whose node id parses records exactly that
    instance, reports the source's own address union for the node, and reports
    the previous node as replaced exactly when the instance changed identity,
    with whether the source still advertises that node and its remaining
    addresses. *)
Theorem upsert_snapshot_correct (l : Lookup) (s : Z) (i n : string) (addrs : list string) (id : Id) :
  leases l !! s = Some Live -> parse_endpoint_id n = Ok id ->
  exists u l', upsert s i n addrs l = (Ok u, l') /\
    contributions (state l') =
      <[(s, i) := mkContribution id (base32_encode (id_as_bytes id)) (endpoint_data addrs)]>
        (contributions (state l)) /\
    (forall t, t ∈ effective_addrs u <->
       exists a, contributed_by s (state l') id a /\ addr_text a = Some t) /\
    match replaced u with
    | Some r => exists o, contributions (state l) !! (s, i) = Some o /\ c_endpoint_id o <> id /\
        rm_node_id r = c_node_id o /\
        (has_remaining_contributions r = true <->
         exists i' c, contributions (state l') !! (s, i') = Some c /\ c_endpoint_id c = c_endpoint_id o) /\
        (forall t, t ∈ remaining_addrs r <->
         exists a, contributed_by s (state l') (c_endpoint_id o) a /\ addr_text a = Some t)
    | None => forall o, contributions (state l) !! (s, i) = Some o -> c_endpoint_id o = id
    end.
Proof.
  intros Hl Hp. rewrite (upsert_live_ok _ _ _ _ _ id) by (by try apply lease_live).
  set (c := mkContribution _ _ _). set (st := upsert_state _ _ _).
  eexists _, _. split; [done|]. split; [apply upsert_state_contributions|].
  cbn [replaced effective_addrs state].
  split; [intros t; apply elem_of_source_effective|].
  destruct (contributions (state l) !! (s, i)) as [o|] eqn:E; [|done].
  case_bool_decide as Ho.
  - exists o. split_and!; [done|done|done|apply (has_remaining_spec st)|]. intros t. apply elem_of_source_effective.
  - intros ? [= <-]. destruct (decide (c_endpoint_id o = id)); naive_solver.
Qed.

(** An upsert whose node id does not parse is an error that retracts what
    the same instance had contributed, and nothing else; the removal it carries
    is present exactly when there was such a contribution, under its node id. *)
Theorem malformed_upsert_retracts (l : Lookup) (s : Z) (i n : string) (addrs : list string)
  (err : string) :
  leases l !! s = Some Live -> parse_endpoint_id n = Err err ->
  exists e l', upsert s i n addrs l = (Err e, l') /\
    contributions (state l') = delete (s, i) (contributions (state l)) /\
    rm_node_id <$> ue_removal e = c_node_id <$> contributions (state l) !! (s, i).
Proof.
  intros Hl Hp. unfold upsert. rewrite (proj2 (lease_live s l) Hl), Hp.
  pose proof (proj1 (remove_contribution_contributions (state l) (s, i))) as Hc.
  unfold remove_contribution in *. destruct (contributions (state l) !! (s, i)) as [o|] eqn:E;
    by eexists _, _; split_and!.
Qed.
End lookup.
Arguments Lookup Id D {_ _}.
Arguments State Id D {_ _}.

(** ** Examples *)

Definition demo_debug (s : string) : string := s.
Definition DemoLookup := Lookup nat (list (TransportAddr string)).
(** Two sources advertise endpoint [a]; the first also has a second instance. *)
Definition demo_l0 : DemoLookup := lookup_new.
Definition demo_l1 : DemoLookup := (new_source demo_l0).2.
Definition demo_l2 : DemoLookup := (new_source demo_l1).2.
Definition demo_l3 : DemoLookup := (upsert demo_debug 1 "x" "a" [":p"; " https://r "] demo_l2).2.
Definition demo_l4 : DemoLookup := (upsert demo_debug 2 "x" "a" [":q"] demo_l3).2.

Lemma demo_l4_reachable : rtc (lookup_step demo_debug) lookup_new demo_l4.
Proof.
  do 2 (eapply rtc_l; [apply step_new_source|]).
  do 2 (eapply rtc_l; [apply step_upsert|]). apply rtc_refl.
Qed.

(** Both sources contribute to what is resolved. *)
Lemma resolve_is_union_witness :
  exists d, resolve demo_l4 97 = Some d /\
    contributed (state demo_l4) 97 (TaIp (SockV4 2130706433 113)).
Proof.
  destruct (resolve_is_union_of_contributions demo_debug demo_l4 97 demo_l4_reachable) as [_ Hu].
  eexists. split; [vm_compute; reflexivity|].
  eapply Hu; [vm_compute; reflexivity|].
  apply (bool_decide_unpack (TaIp (SockV4 2130706433 113) ∈ _)). vm_compute. exact I.
Defined.

Lemma retire_is_final_witness :
  contributions (state (retire 1 demo_l4)) !! (2%Z, "x") = contributions (state demo_l4) !! (2%Z, "x") /\
  contributions (state (retire 1 demo_l4)) !! (1%Z, "x") = None.
Proof.
  destruct (retire_is_final demo_debug demo_l4 (retire 1 demo_l4) 1 demo_l4_reachable) as (Hk & Hn & _).
  - vm_compute. reflexivity.
  - apply rtc_refl.
  - split; [exact (Hk (2%Z, "x"))|exact (Hn "x")].
Defined.

(** The instance moves to endpoint [b]. *)
Lemma upsert_snapshot_witness :
  exists u l', upsert demo_debug 1 "x" "b" [":p"] demo_l4 = (Ok u, l') /\
    (rm_node_id <$> replaced u) = Some "a" /\ effective_addrs u = [":p"].
Proof.
  destruct (upsert_snapshot_correct demo_debug demo_l4 1 "x" "b" [":p"] 98) as (u & l' & E & _ & _ & _).
  - vm_compute. reflexivity.
  - reflexivity.
  - exists u, l'. split; [exact E|].
    assert (Ok u = (upsert demo_debug 1 "x" "b" [":p"] demo_l4).1) as Eu by (by rewrite E).
    vm_compute in Eu. injection Eu as ->. split; reflexivity.
Defined.

Lemma malformed_upsert_witness :
  exists e l', upsert demo_debug 1 "x" "not an id" [] demo_l4 = (Err e, l') /\
    contributions (state l') = delete (1%Z, "x") (contributions (state demo_l4)).
Proof.
  destruct (malformed_upsert_retracts demo_debug demo_l4 1 "x" "not an id" [] "not an endpoint id")
    as (e & l' & E & Hc & _).
  - vm_compute. reflexivity.
  - reflexivity.
  - exists e, l'. split; [exact E|exact Hc].
Defined.
