(* ===== verification/ServeOptions.v ===== *)
(** * Serve options (http/server/options.rs, mod.rs, connection.rs, stack.rs)

    The options of an endpoint serve loop, the resolved per-connection options,
    their defaults, the resolution that [serve_with_events] performs and the
    validation a runtime performs.  Durations are in milliseconds; a [usize] or
    [u64] is a [Z]. *)

From stdpp Require Import base numbers list strings.
From Stdlib Require Import ZArith Lia.
From S2P Require Import Prelude.

Open Scope string_scope.
Open Scope list_scope.

Record CompressionOptions := mkCompression { min_body_bytes : Z; level : option Z }.

Definition DEFAULT_MIN_BODY_BYTES : Z := 1024.
Definition CompressionOptions_default : CompressionOptions :=
  mkCompression DEFAULT_MIN_BODY_BYTES None.

(** [ServeOptions]: every field optional. *)
Record ServeOptions := mkServeOptions {
  so_max_concurrency : option Z;
  so_request_timeout_ms : option Z;
  so_request_head_timeout_ms : option Z;
  so_body_idle_timeout_ms : option Z;
  so_connection_idle_timeout_ms : option Z;
  so_max_connections_per_peer : option Z;
  so_max_request_body_wire_bytes : option Z;
  so_max_request_body_decoded_bytes : option Z;
  so_drain_timeout_ms : option Z;
  so_max_total_connections : option Z;
  so_load_shed : option bool;
  so_decompression : option bool
}.

Definition ServeOptions_default : ServeOptions :=
  mkServeOptions None None None None None None None None None None None None.

Definition DEFAULT_CONCURRENCY : Z := 1024.
Definition DEFAULT_REQUEST_HEAD_TIMEOUT_MS : Z := 15000.
Definition DEFAULT_BODY_IDLE_TIMEOUT_MS : Z := 30000.
Definition DEFAULT_CONNECTION_IDLE_TIMEOUT_MS : Z := 60000.
Definition DEFAULT_MAX_CONNECTIONS_PER_PEER : Z := 8.
Definition DEFAULT_MAX_TOTAL_CONNECTIONS : Z := 1024.
Definition DEFAULT_DRAIN_TIMEOUT_MS : Z := 30000.
Definition DEFAULT_MAX_REQUEST_BODY_BYTES : Z := 16 * 1024 * 1024.
Definition DEFAULT_MAX_RESPONSE_BODY_BYTES : Z := 256 * 1024 * 1024.

(** [ConnectionServeOptions]. *)
Record ConnectionServeOptions := mkConnOptions {
  max_connections_per_peer : Z;
  max_total_connections : Z;
  connection_idle_timeout : Z;
  max_concurrency : Z;
  request_timeout : option Z;
  request_head_timeout : option Z;
  body_idle_timeout : option Z;
  max_request_body_wire_bytes : option Z;
  max_request_body_decoded_bytes : option Z;
  drain_timeout : Z;
  load_shed : bool;
  max_header_size : Z;
  compression : option CompressionOptions;
  decompression : bool
}.

Definition ConnectionServeOptions_default : ConnectionServeOptions := {|
  max_connections_per_peer := DEFAULT_MAX_CONNECTIONS_PER_PEER;
  max_total_connections := DEFAULT_MAX_TOTAL_CONNECTIONS;
  connection_idle_timeout := DEFAULT_CONNECTION_IDLE_TIMEOUT_MS;
  max_concurrency := DEFAULT_CONCURRENCY;
  request_timeout := None;
  request_head_timeout := Some DEFAULT_REQUEST_HEAD_TIMEOUT_MS;
  body_idle_timeout := Some DEFAULT_BODY_IDLE_TIMEOUT_MS;
  max_request_body_wire_bytes := None;
  max_request_body_decoded_bytes := None;
  drain_timeout := DEFAULT_DRAIN_TIMEOUT_MS;
  load_shed := true;
  max_header_size := 64 * 1024;
  compression := None;
  decompression := true
|}.

(** [ConnectionServeError]. *)
Inductive ConnectionServeError :=
| InvalidOptions (option reason : string)
| UnexpectedAlpn (actual : string)
| TotalConnectionLimitReached (maximum : Z)
| PeerConnectionLimitReached (maximum : Z).

#[global] Instance ConnectionServeError_eq_dec : EqDecision ConnectionServeError.
Proof. solve_decision. Defined.

(** The three optional timeouts, checked in the order of the source's array. *)
Fixpoint validate_timeouts (l : list (string * option Z)) : Result unit ConnectionServeError :=
  match l with
  | [] => Ok tt
  | (option, timeout) :: rest =>
      match timeout with
      | Some 0%Z => Err (InvalidOptions option "must be greater than zero when enabled")
      | _ => validate_timeouts rest
      end
  end.

Section validate.
(** [tokio::sync::Semaphore::MAX_PERMITS]. *)
Context (MAX_PERMITS : Z).

(** [ConnectionServeOptions::validate]. *)
Definition validate (o : ConnectionServeOptions) : Result unit ConnectionServeError :=
  if (max_connections_per_peer o =? 0)%Z
  then Err (InvalidOptions "max_connections_per_peer" "must be greater than zero")
  else if (max_total_connections o =? 0)%Z
  then Err (InvalidOptions "max_total_connections" "must be greater than zero")
  else if (MAX_PERMITS <? max_connections_per_peer o)%Z
  then Err (InvalidOptions "max_connections_per_peer" "exceeds Tokio's supported admission limit")
  else if (MAX_PERMITS <? max_total_connections o)%Z
  then Err (InvalidOptions "max_total_connections" "exceeds Tokio's supported admission limit")
  else if (connection_idle_timeout o =? 0)%Z
  then Err (InvalidOptions "connection_idle_timeout" "must be greater than zero")
  else
    let? _ := validate_timeouts
                [("request_timeout", request_timeout o);
                 ("request_head_timeout", request_head_timeout o);
                 ("body_idle_timeout", body_idle_timeout o)] in
    if (max_concurrency o =? 0)%Z
    then Err (InvalidOptions "max_concurrency" "must be greater than zero")
    else if (MAX_PERMITS <? max_concurrency o)%Z
    then Err (InvalidOptions "max_concurrency" "exceeds Tokio's semaphore permit limit")
    else if negb (max_header_size o =? 0)%Z && (max_header_size o <? 8192)%Z
    then Err (InvalidOptions "max_header_size" "must be zero or at least Hyper's 8192-byte floor")
    else Ok tt.

(** What a runtime relies on. *)
Definition valid_options (o : ConnectionServeOptions) : Prop :=
  (0 < max_connections_per_peer o <= MAX_PERMITS)%Z /\
  (0 < max_total_connections o <= MAX_PERMITS)%Z /\
  (0 < connection_idle_timeout o)%Z /\
  (forall t, request_timeout o = Some t -> (0 < t)%Z) /\
  (forall t, request_head_timeout o = Some t -> (0 < t)%Z) /\
  (forall t, body_idle_timeout o = Some t -> (0 < t)%Z) /\
  (0 < max_concurrency o <= MAX_PERMITS)%Z /\
  (max_header_size o = 0 \/ 8192 <= max_header_size o)%Z.
End validate.

(** Every numeric field is an unsigned machine value. *)
Definition unsigned_options (o : ConnectionServeOptions) : Prop :=
  (0 <= max_connections_per_peer o)%Z /\ (0 <= max_total_connections o)%Z /\
  (0 <= connection_idle_timeout o)%Z /\ (0 <= max_concurrency o)%Z /\
  (0 <= max_header_size o)%Z /\ (0 <= drain_timeout o)%Z /\
  (forall t, request_timeout o = Some t \/ request_head_timeout o = Some t \/
     body_idle_timeout o = Some t -> (0 <= t)%Z).

(** The endpoint's zero-means-disabled convention. *)
Definition resolve_timeout (o : option Z) (default : option Z) : option Z :=
  match o with
  | Some 0%Z => None
  | Some ms => Some ms
  | None => default
  end.

(** The [ConnectionServeOptions] that [serve_with_events] builds; the header
    limit and the compression come from the endpoint. *)
Definition serve_config (o : ServeOptions) (endpoint_max_header_size : Z)
  (endpoint_compression : option CompressionOptions) : ConnectionServeOptions := {|
  max_connections_per_peer := default DEFAULT_MAX_CONNECTIONS_PER_PEER (so_max_connections_per_peer o);
  max_total_connections := default DEFAULT_MAX_TOTAL_CONNECTIONS (so_max_total_connections o);
  connection_idle_timeout := default DEFAULT_CONNECTION_IDLE_TIMEOUT_MS (so_connection_idle_timeout_ms o);
  max_concurrency := default DEFAULT_CONCURRENCY (so_max_concurrency o);
  request_timeout := resolve_timeout (so_request_timeout_ms o) None;
  request_head_timeout :=
    resolve_timeout (so_request_head_timeout_ms o) (Some DEFAULT_REQUEST_HEAD_TIMEOUT_MS);
  body_idle_timeout := resolve_timeout (so_body_idle_timeout_ms o) (Some DEFAULT_BODY_IDLE_TIMEOUT_MS);
  max_request_body_wire_bytes := so_max_request_body_wire_bytes o;
  max_request_body_decoded_bytes := so_max_request_body_decoded_bytes o;
  drain_timeout := default DEFAULT_DRAIN_TIMEOUT_MS (so_drain_timeout_ms o);
  load_shed := default true (so_load_shed o);
  max_header_size := Z.max endpoint_max_header_size 8192;
  compression := endpoint_compression;
  decompression := default true (so_decompression o)
|}.

(** ** Lemmas *)

Lemma is_ok_guard {T E} (b : bool) (e : E) (k : Result T E) :
  is_ok (if b then Err e else k) = true <-> b = false /\ is_ok k = true.
Proof. destruct b; naive_solver. Qed.

Lemma is_ok_bind {T U E} (r : Result T E) (k : Result U E) :
  is_ok (let? _ := r in k) = true <-> is_ok r = true /\ is_ok k = true.
Proof. destruct r; naive_solver. Qed.

(** An optional timeout passes when it is not zero. *)
Definition timeout_set (o : option Z) : Prop := forall t, o = Some t -> t <> 0%Z.

Lemma validate_timeouts_cons n o l :
  is_ok (validate_timeouts ((n, o) :: l)) = true <->
  timeout_set o /\ is_ok (validate_timeouts l) = true.
Proof. unfold timeout_set. destruct o as [[]|]; naive_solver. Qed.

Lemma timeout_set_pos o : (forall t, o = Some t -> (0 <= t)%Z) ->
  timeout_set o <-> forall t, o = Some t -> (0 < t)%Z.
Proof.
  intros Hu. unfold timeout_set. split; intros Hs t E; pose proof (Hu t E); pose proof (Hs t E); lia.
Qed.

Lemma validate_valid MP o :
  unsigned_options o -> is_ok (validate MP o) = true <-> valid_options MP o.
Proof.
  intros (Hpp & Hmt & Hci & Hmc & Hhs & _ & Ht). unfold validate, valid_options.
  rewrite !is_ok_guard, is_ok_bind, !is_ok_guard, !validate_timeouts_cons.
  rewrite !timeout_set_pos by eauto.
  rewrite !Z.eqb_neq, !Z.ltb_ge, andb_false_iff, negb_false_iff, Z.eqb_eq, Z.ltb_ge. simpl.
  split; intros; destruct_and?; split_and?; try done; lia.
Qed.

(** ** Theorems *)

(** [P] holds of an option's value, if any. *)
Definition if_set (P : Z -> Prop) (o : option Z) : Prop := forall n, o = Some n -> P n.

Lemma if_set_default P d o : P d -> P (default d o) <-> if_set P o.
Proof. unfold if_set. destruct o; simpl; naive_solver. Qed.

(** The numeric fields of [ServeOptions] are unsigned. *)
Definition unsigned_serve_options (o : ServeOptions) : Prop :=
  Forall (if_set (Z.le 0))
    [so_max_concurrency o; so_request_timeout_ms o; so_request_head_timeout_ms o;
     so_body_idle_timeout_ms o; so_connection_idle_timeout_ms o; so_max_connections_per_peer o;
     so_drain_timeout_ms o; so_max_total_connections o].

Lemma resolve_timeout_pos o d :
  if_set (Z.le 0) o -> if_set (Z.lt 0) d -> if_set (Z.lt 0) (resolve_timeout o d).
Proof.
  unfold resolve_timeout. destruct o as [n|]; [|done].
  intros Hn _. specialize (Hn n eq_refl). destruct n; intros ? [= <-]; lia.
Qed.

Lemma if_set_const (P : Z -> Prop) n : P n -> if_set P (Some n).
Proof. by intros HP ? [= <-]. Qed.

Lemma if_set_none P : if_set P None.
Proof. done. Qed.

Lemma serve_config_timeouts o hs c :
  unsigned_serve_options o ->
  if_set (Z.lt 0) (request_timeout (serve_config o hs c)) /\
  if_set (Z.lt 0) (request_head_timeout (serve_config o hs c)) /\
  if_set (Z.lt 0) (body_idle_timeout (serve_config o hs c)).
Proof.
  intros Hu. unfold unsigned_serve_options in Hu. rewrite !Forall_cons in Hu. destruct_and! Hu.
  split_and!; apply resolve_timeout_pos; auto using if_set_none; by apply if_set_const.
Qed.

Lemma serve_config_unsigned o hs c :
  unsigned_serve_options o -> (0 <= hs)%Z -> unsigned_options (serve_config o hs c).
Proof.
  intros Hu Hhs. destruct (serve_config_timeouts o hs c Hu) as (Ht1 & Ht2 & Ht3).
  unfold unsigned_serve_options in Hu. rewrite !Forall_cons in Hu. destruct_and! Hu.
  unfold unsigned_options. split_and!; try (by apply (if_set_default (Z.le 0))); simpl; [lia|].
  intros t [E|[E|E]]; [apply Ht1 in E|apply Ht2 in E|apply Ht3 in E]; lia.
Qed.

(** The configuration the endpoint's serve entry derives from its options
    passes the runtime's validation exactly when every explicit concurrency or
    connection limit is positive and within the semaphore bound and an explicit
    connection idle timeout is positive; explicit zero request, head and body
    timeouts and small endpoint header limits never make it fail. *)
Theorem serve_config_accepted (MP : Z) (o : ServeOptions) (hs : Z) (c : option CompressionOptions) :
  (1024 <= MP)%Z -> unsigned_serve_options o -> (0 <= hs)%Z ->
  is_ok (validate MP (serve_config o hs c)) = true <->
  Forall (if_set (fun n => 0 < n <= MP)%Z)
    [so_max_concurrency o; so_max_connections_per_peer o; so_max_total_connections o] /\
  if_set (Z.lt 0) (so_connection_idle_timeout_ms o).
Proof.
  intros HMP Hu Hhs. rewrite validate_valid by (by apply serve_config_unsigned).
  destruct (serve_config_timeouts o hs c Hu) as (Ht1 & Ht2 & Ht3).
  rewrite !Forall_cons, Forall_nil. unfold valid_options.
  cbn [max_connections_per_peer max_total_connections connection_idle_timeout max_concurrency
    max_header_size serve_config].
  rewrite (if_set_default (fun n => 0 < n <= MP)%Z), (if_set_default (fun n => 0 < n <= MP)%Z),
    (if_set_default (Z.lt 0)), (if_set_default (fun n => 0 < n <= MP)%Z)
    by (unfold DEFAULT_MAX_CONNECTIONS_PER_PEER, DEFAULT_MAX_TOTAL_CONNECTIONS,
          DEFAULT_CONNECTION_IDLE_TIMEOUT_MS, DEFAULT_CONCURRENCY; lia).
  split; intros Hv; destruct_and! Hv; split_and!; try done. right. lia.
Qed.

Lemma serve_config_accepted_witness :
  is_ok (validate 2305843009213693951 (serve_config ServeOptions_default 100 None)) = true.
Proof.
  apply serve_config_accepted.
  - lia.
  - repeat apply Forall_cons_2; try apply Forall_nil_2; apply if_set_none.
  - lia.
  - split; [repeat apply Forall_cons_2; try apply Forall_nil_2; apply if_set_none|apply if_set_none].
Defined.
