(* ===== verification/Admission.v ===== *)
(** * Connection admission and RAII trackers (http/server/lifecycle.rs)

    [ConnectionAdmission] with its locked sections, the callback and the
    wake-up as separate operations (other tasks run between them), and their
    sequential compositions [acquire] and [tracker_drop]. *)

From stdpp Require Import base numbers list strings gmap fin_maps.
From Stdlib Require Import ZArith Lia.
From S2P Require Import Prelude Extern.

Open Scope string_scope.
Open Scope list_scope.

Record ConnectionEvent := mkConnEvent { ev_peer_id : string; ev_connected : bool }.

Inductive ConnectionAdmissionError := AdmTotal | AdmPeer.

Section admission.
Context {Key N F : Type} `{Countable Key} `{Notify N F}.

(** [on_event]: a callback is installed; [fired] logs its calls. *)
Record ConnectionAdmission := mkAdmission {
  counts : gmap Key Z;
  total : Z;
  max_per_peer : Z;
  max_total : Z;
  on_event : bool;
  released : N;
  fired : list ConnectionEvent
}.

Record ConnectionTracker := mkTracker { tr_peer : Key; tr_peer_id : string }.

Definition admission_new (max_per_peer max_total total : Z) (on_event : bool) : ConnectionAdmission :=
  mkAdmission ∅ total max_per_peer max_total on_event nt_new [].

Definition set_counts c t (a : ConnectionAdmission) : ConnectionAdmission :=
  mkAdmission c t (max_per_peer a) (max_total a) (on_event a) (released a) (fired a).
Definition set_released n (a : ConnectionAdmission) : ConnectionAdmission :=
  mkAdmission (counts a) (total a) (max_per_peer a) (max_total a) (on_event a) n (fired a).

(** The section of [acquire] under the lock: whether the count was zero. *)
Definition acquire_locked (peer : Key) (a : ConnectionAdmission)
  : Result bool ConnectionAdmissionError * ConnectionAdmission :=
  if (max_total a <=? total a)%Z then (Err AdmTotal, a)
  else
    let count := default 0%Z (counts a !! peer) in
    if (max_per_peer a <=? count)%Z
    then (Err AdmPeer, set_counts (<[peer := count]> (counts a)) (total a) a)
    else (Ok (count =? 0)%Z,
          set_counts (<[peer := sat_add count 1]> (counts a)) (total a + 1) a).

(** Calling the callback, if there is one. *)
Definition fire (peer_id : string) (connected : bool) (a : ConnectionAdmission) : ConnectionAdmission :=
  if on_event a
  then mkAdmission (counts a) (total a) (max_per_peer a) (max_total a) (on_event a) (released a)
         (fired a ++ [mkConnEvent peer_id connected])
  else a.

(** [ConnectionAdmission::acquire]. *)
Definition acquire (peer : Key) (peer_id_str : string) (a : ConnectionAdmission)
  : Result ConnectionTracker ConnectionAdmissionError * ConnectionAdmission :=
  match acquire_locked peer a with
  | (Err e, a) => (Err e, a)
  | (Ok was_zero, a) =>
      (Ok (mkTracker peer peer_id_str), if was_zero then fire peer_id_str true a else a)
  end.

(** The section of [ConnectionTracker::drop] under the lock: whether this was
    the peer's last connection. *)
Definition release_locked (peer : Key) (a : ConnectionAdmission) : bool * ConnectionAdmission :=
  match counts a !! peer with
  | Some c =>
      let c := sat_sub c 1 in
      if (c =? 0)%Z
      then (true, set_counts (delete peer (counts a)) (total a - 1) a)
      else (false, set_counts (<[peer := c]> (counts a)) (total a - 1) a)
  | None => (false, set_counts (counts a) (total a - 1) a)
  end.

Definition release_notify (a : ConnectionAdmission) : ConnectionAdmission :=
  set_released (nt_notify_waiters (released a)) a.

(** [Drop for ConnectionTracker]. *)
Definition tracker_drop (t : ConnectionTracker) (a : ConnectionAdmission) : ConnectionAdmission :=
  let '(disconnected, a) := release_locked (tr_peer t) a in
  let a := release_notify a in
  if disconnected then fire (tr_peer_id t) false a else a.

(** ** Request and delivery trackers *)

(** [Drop for RequestTracker]: the counter after [fetch_sub]. *)
Definition request_tracker_drop (counter : Z) : Z := (counter - 1)%Z.

(** [Drop for DeliveryTracker]: the counter after [fetch_sub], and whether the
    drain notification follows. *)
Definition delivery_tracker_drop (in_flight : Z) : bool * Z := ((in_flight =? 1)%Z, (in_flight - 1)%Z).

(** ** Lemmas *)

Lemma acquire_locked_static p a :
  max_per_peer (acquire_locked p a).2 = max_per_peer a /\
  max_total (acquire_locked p a).2 = max_total a /\
  on_event (acquire_locked p a).2 = on_event a /\
  released (acquire_locked p a).2 = released a /\ fired (acquire_locked p a).2 = fired a.
Proof. unfold acquire_locked. by repeat case_match. Qed.

Lemma release_locked_static p a :
  max_per_peer (release_locked p a).2 = max_per_peer a /\
  max_total (release_locked p a).2 = max_total a /\
  on_event (release_locked p a).2 = on_event a /\
  released (release_locked p a).2 = released a /\ fired (release_locked p a).2 = fired a /\
  total (release_locked p a).2 = (total a - 1)%Z.
Proof. unfold release_locked. by repeat case_match. Qed.

Lemma fire_static s b a :
  counts (fire s b a) = counts a /\ total (fire s b a) = total a /\
  max_per_peer (fire s b a) = max_per_peer a /\ max_total (fire s b a) = max_total a /\
  on_event (fire s b a) = on_event a /\ released (fire s b a) = released a.
Proof. unfold fire. by case_match. Qed.
End admission.
Arguments ConnectionAdmission Key N {_ _}.
Arguments ConnectionTracker Key : clear implicits.
