(* ===== verification/ServeRuntime.v ===== *)
(** * The connection serve runtime (http/server/connection.rs)

    The shared state of a [ConnectionServeRuntime] with the tasks that run on
    it: one per served connection ([serve_validated]), one per request stream
    (the future spawned for it), and the body of [shutdown], which a
    [OnceCell] runs once.  [step] performs one atomic section of one task; a
    run is any interleaving.  What the transport, the timers and hyper do is
    the argument of the step.

    A counter is the number of live tasks holding one of its slots, so it
    never reaches the word size and is kept as a plain integer. *)

From stdpp Require Import base numbers list strings gmap fin_maps relations.
From Stdlib Require Import ZArith Lia.
From S2P Require Import Prelude Extern ServeOptions Admission.

Open Scope string_scope.
Open Scope list_scope.

Inductive ConnectionServeEnd := PeerClosed | IdleTimeout | Shutdown.
Record ConnectionServeResult := mkServeResult { end_ : ConnectionServeEnd; res_drained : bool }.

#[global] Instance ConnectionServeEnd_eq_dec : EqDecision ConnectionServeEnd.
Proof. solve_decision. Defined.
#[global] Instance ConnectionServeResult_eq_dec : EqDecision ConnectionServeResult.
Proof. solve_decision. Defined.

(** The wait of [shutdown] that is running: for the deliveries, then (with
    what the first returned) for the connections. *)
Inductive WaitPhase := WaitDeliveries | WaitConnections (drained : bool).

(** What the environment of a connection task decides at its next step. *)
Inductive ConnEnv :=
| EnvRun              (* run the next section that needs no outside event *)
| EnvJoin (r : nat)   (* request task [r] of the join set has finished *)
| EnvStream           (* [accept_bi] yields a stream *)
| EnvAcceptErr        (* [accept_bi] fails *)
| EnvIdle             (* the idle timer fires *)
| EnvCancel.          (* the caller drops the future *)

(** What happens to a request task. *)
Inductive ReqEnv :=
| ReqServed           (* [serve_bistream] returns *)
| ReqAcked            (* [response_stopped] resolves *)
| ReqAbort            (* an abort requested earlier takes effect *)
| ReqRun.             (* the notification after the last delivery *)

Section runtime.
Context {Key N F : Type} `{Countable Key} `{Notify N F}.
(** [base32_encode] of the endpoint id, and the protocol's ALPN. *)
Context (node_id : Key -> string) (ALPN : string).
(** The largest [Instant]. *)
Context (INSTANT_MAX : Z).

Inductive ConnPc :=
| CFireConnect (was_zero : bool)       (* admitted; the callback comes next *)
| CTop                                 (* head of the loop *)
| CRegistered (f : F)                  (* registered for close *)
| CNotClosed (f : F)                   (* [close_flag] was false *)
| CAwaitClose (f : F)                  (* admission stopped: waits for close *)
| CSelect (f : F) (idle_at : Z)        (* in the [select!] *)
| CAccepted                            (* has a stream, not yet admitted *)
| CBroken                              (* left the loop *)
| CJoining                             (* joins the remaining requests *)
| CReturning (r : option ConnectionServeResult)   (* locals are dropped next; [None]: cancelled *)
| CReleased (disconnected : bool) (r : option ConnectionServeResult)
| CFireDisconnect (disconnected : bool) (r : option ConnectionServeResult)
| CDone (r : option ConnectionServeResult)
| CRejected (e : ConnectionServeError).

(** [ct_close]: the reason the connection was closed with, if it was;
    [ct_requests]: the [JoinSet]. *)
Record ConnTask := mkConn {
  ct_peer : Key;
  ct_close : option string;
  ct_end : ConnectionServeEnd;
  ct_requests : list nat;
  ct_pc : ConnPc
}.

Inductive ReqPc :=
| RqServing      (* holds both trackers *)
| RqAcking       (* holds the delivery tracker *)
| RqNotify       (* was the last delivery: notifies next *)
| RqDone.

Record ReqTask := mkReq { rq_aborted : bool; rq_pc : ReqPc }.

Inductive ShutdownPc :=
| SdIdle
| SdLoop (p : WaitPhase) (deadline : Z)             (* head of [wait_for_zero_until] *)
| SdCheck (p : WaitPhase) (deadline : Z) (f : F)    (* registered, counter not yet read *)
| SdSleep (p : WaitPhase) (deadline : Z) (f : F)    (* in the [select!] *)
| SdDrained (b : bool) (deadline : Z)               (* first wait returned *)
| SdStored (b : bool) (deadline : Z)                (* [drained] stored *)
| SdFlagged (b : bool) (deadline : Z)               (* [close_flag] stored *)
| SdDone (b : bool).

(** [force_pending]: callers of [ServeHandle::shutdown_and_close] that have set
    [close_flag] and not yet notified.  [foreign], [foreign_requests]: how much
    of the connection and request counters, which all serve cycles of an endpoint
    share, belongs to the other cycles. *)
Record Runtime := mkRuntime {
  options : ConnectionServeOptions;
  admission : ConnectionAdmission Key N;
  requests : Z;
  deliveries : Z;
  drain_notify : N;
  close_connections : N;
  stopped : bool;
  close_flag : bool;
  drained : bool;
  shutdown_pc : ShutdownPc;
  force_pending : nat;
  foreign : Z;
  foreign_requests : Z;
  now : Z;
  conns : list ConnTask;
  reqs : list ReqTask
}.

Definition set_admission a r := mkRuntime (options r) a (requests r) (deliveries r) (drain_notify r) (close_connections r) (stopped r) (close_flag r) (drained r) (shutdown_pc r) (force_pending r) (foreign r) (foreign_requests r) (now r) (conns r) (reqs r).
Definition set_counters q d r := mkRuntime (options r) (admission r) q d (drain_notify r) (close_connections r) (stopped r) (close_flag r) (drained r) (shutdown_pc r) (force_pending r) (foreign r) (foreign_requests r) (now r) (conns r) (reqs r).
Definition set_drain_notify n r := mkRuntime (options r) (admission r) (requests r) (deliveries r) n (close_connections r) (stopped r) (close_flag r) (drained r) (shutdown_pc r) (force_pending r) (foreign r) (foreign_requests r) (now r) (conns r) (reqs r).
Definition set_close_connections n r := mkRuntime (options r) (admission r) (requests r) (deliveries r) (drain_notify r) n (stopped r) (close_flag r) (drained r) (shutdown_pc r) (force_pending r) (foreign r) (foreign_requests r) (now r) (conns r) (reqs r).
Definition set_flags s c d r := mkRuntime (options r) (admission r) (requests r) (deliveries r) (drain_notify r) (close_connections r) s c d (shutdown_pc r) (force_pending r) (foreign r) (foreign_requests r) (now r) (conns r) (reqs r).
Definition set_shutdown_pc p r := mkRuntime (options r) (admission r) (requests r) (deliveries r) (drain_notify r) (close_connections r) (stopped r) (close_flag r) (drained r) p (force_pending r) (foreign r) (foreign_requests r) (now r) (conns r) (reqs r).
Definition set_force_pending n r := mkRuntime (options r) (admission r) (requests r) (deliveries r) (drain_notify r) (close_connections r) (stopped r) (close_flag r) (drained r) (shutdown_pc r) n (foreign r) (foreign_requests r) (now r) (conns r) (reqs r).
Definition set_foreign n q r := mkRuntime (options r) (admission r) (requests r) (deliveries r) (drain_notify r) (close_connections r) (stopped r) (close_flag r) (drained r) (shutdown_pc r) (force_pending r) n q (now r) (conns r) (reqs r).
Definition set_now n r := mkRuntime (options r) (admission r) (requests r) (deliveries r) (drain_notify r) (close_connections r) (stopped r) (close_flag r) (drained r) (shutdown_pc r) (force_pending r) (foreign r) (foreign_requests r) n (conns r) (reqs r).
Definition set_conns c r := mkRuntime (options r) (admission r) (requests r) (deliveries r) (drain_notify r) (close_connections r) (stopped r) (close_flag r) (drained r) (shutdown_pc r) (force_pending r) (foreign r) (foreign_requests r) (now r) c (reqs r).
Definition set_reqs q r := mkRuntime (options r) (admission r) (requests r) (deliveries r) (drain_notify r) (close_connections r) (stopped r) (close_flag r) (drained r) (shutdown_pc r) (force_pending r) (foreign r) (foreign_requests r) (now r) (conns r) q.

Definition set_pc pc (t : ConnTask) := mkConn (ct_peer t) (ct_close t) (ct_end t) (ct_requests t) pc.
(** [connection.close]: the first reason stands. *)
Definition close_conn reason (t : ConnTask) :=
  mkConn (ct_peer t) (match ct_close t with Some r => Some r | None => Some reason end)
    (ct_end t) (ct_requests t) (ct_pc t).
Definition set_end e (t : ConnTask) := mkConn (ct_peer t) (ct_close t) e (ct_requests t) (ct_pc t).
Definition set_requests q (t : ConnTask) := mkConn (ct_peer t) (ct_close t) (ct_end t) q (ct_pc t).

(** ** Construction *)

(** [with_runtime_state]; the counters may be shared with earlier cycles. *)
Definition with_runtime_state (MAX_PERMITS : Z) (o : ConnectionServeOptions)
  (requests0 connections0 : Z) (callback : bool) : Result Runtime ConnectionServeError :=
  let? _ := validate MAX_PERMITS o in
  Ok (mkRuntime o
        (admission_new (max_connections_per_peer o) (max_total_connections o) connections0 callback)
        requests0 0 nt_new nt_new false false false SdIdle 0 connections0 requests0 0 [] []).

(** ** Connections *)

(** [validate_http_connection]: the identity, or the error with the reason the
    connection is closed with. *)
Definition validate_http_connection (alpn : string) (remote_id : Key)
  : Result (Key * string) (ConnectionServeError * string) :=
  if bool_decide (alpn <> ALPN) then Err (UnexpectedAlpn alpn, "unexpected ALPN")
  else Ok (remote_id, node_id remote_id).

(** The entry of [serve_validated]: admission, or rejection and close. *)
Definition serve_validated_entry (peer : Key) (r : Runtime) : Runtime :=
  match acquire_locked peer (admission r) with
  | (Ok was_zero, a) =>
      set_conns (conns r ++ [mkConn peer None PeerClosed [] (CFireConnect was_zero)]) (set_admission a r)
  | (Err AdmTotal, a) =>
      set_conns (conns r ++ [mkConn peer (Some "server at capacity") PeerClosed []
        (CRejected (TotalConnectionLimitReached (max_total_connections (options r))))]) (set_admission a r)
  | (Err AdmPeer, a) =>
      set_conns (conns r ++ [mkConn peer (Some "too many peer connections") PeerClosed []
        (CRejected (PeerConnectionLimitReached (max_connections_per_peer (options r))))]) (set_admission a r)
  end.

(** [serve_connection]: a connection of the wrong protocol is closed before any
    counter or event is touched. *)
Definition serve_connection (alpn : string) (remote_id : Key) (r : Runtime) : Runtime :=
  match validate_http_connection alpn remote_id with
  | Err (e, reason) =>
      set_conns (conns r ++ [mkConn remote_id (Some reason) PeerClosed [] (CRejected e)]) r
  | Ok (endpoint_id, _) => serve_validated_entry endpoint_id r
  end.

(** [StreamAdmissionBarrier::try_admit], under its gate. *)
Definition try_admit (r : Runtime) : option Runtime :=
  if stopped r then None else Some (set_counters (requests r + 1) (deliveries r + 1) r).

(** [StreamAdmissionBarrier::stop]. *)
Definition stop (r : Runtime) : Runtime := set_flags true (close_flag r) (drained r) r.

Definition req_finished (rs : list ReqTask) (q : nat) : bool :=
  match rs !! q with
  | Some t => match rq_pc t with RqDone => true | _ => false end
  | None => true
  end.

(** [JoinSet::abort_all]. *)
Definition abort_all (qs : list nat) (rs : list ReqTask) : list ReqTask :=
  imap (fun i t => if bool_decide (i ∈ qs) then mkReq true (rq_pc t) else t) rs.

(** The result computed when the join set is empty. *)
Definition serve_result (t : ConnTask) (r : Runtime) : ConnectionServeResult :=
  mkServeResult (if close_flag r then Shutdown else ct_end t) (negb (close_flag r) || drained r).

Definition put_conn (i : nat) (t : ConnTask) (r : Runtime) : Runtime := set_conns (<[i := t]> (conns r)) r.

(** One section of connection task [i]. *)
Definition conn_step (i : nat) (env : ConnEnv) (r : Runtime) : option Runtime :=
  match conns r !! i with
  | None => None
  | Some t =>
      match ct_pc t, env with
      | CFireConnect was_zero, EnvRun =>
          Some (put_conn i (set_pc CTop t)
            (if was_zero then set_admission (fire (node_id (ct_peer t)) true (admission r)) r else r))
      | CTop, EnvRun => Some (put_conn i (set_pc (CRegistered (nt_notified (close_connections r))) t) r)
      | CRegistered f, EnvRun =>
          if close_flag r
          then Some (put_conn i (set_pc CBroken (close_conn "HTTP serve runtime stopped" t)) r)
          else Some (put_conn i (set_pc (CNotClosed f) t) r)
      | CNotClosed f, EnvRun =>
          if stopped r then Some (put_conn i (set_pc (CAwaitClose f) t) r)
          else Some (put_conn i (set_pc (CSelect f (now r + connection_idle_timeout (options r))) t) r)
      | CAwaitClose f, EnvRun =>
          if nt_fires f (close_connections r) then Some (put_conn i (set_pc CTop t) r) else None
      (* the select! is biased: close, then finished requests, then streams, then idle *)
      | CSelect f _, EnvRun =>
          if nt_fires f (close_connections r) then Some (put_conn i (set_pc CTop t) r) else None
      | CSelect f _, EnvJoin q =>
          if negb (nt_fires f (close_connections r)) && bool_decide (q ∈ ct_requests t) && req_finished (reqs r) q
          then Some (put_conn i (set_pc CTop (set_requests (filter (fun x => x <> q) (ct_requests t)) t)) r)
          else None
      | CSelect f _, EnvStream =>
          if negb (nt_fires f (close_connections r)) && negb (existsb (req_finished (reqs r)) (ct_requests t))
          then Some (put_conn i (set_pc CAccepted t) r) else None
      | CSelect f _, EnvAcceptErr =>
          if negb (nt_fires f (close_connections r)) && negb (existsb (req_finished (reqs r)) (ct_requests t))
          then Some (put_conn i (set_pc CBroken t) r) else None
      | CSelect f idle_at, EnvIdle =>
          if negb (nt_fires f (close_connections r)) && bool_decide (ct_requests t = []) && (idle_at <=? now r)%Z
          then Some (put_conn i (set_pc CBroken (close_conn "HTTP connection idle timeout" (set_end IdleTimeout t))) r)
          else None
      | CAccepted, EnvRun =>
          match try_admit r with
          | None => Some (put_conn i (set_pc CTop t) r)     (* the stream is dropped *)
          | Some r' =>
              let q := length (reqs r') in
              Some (put_conn i (set_pc CTop (set_requests (ct_requests t ++ [q]) t))
                      (set_reqs (reqs r' ++ [mkReq false RqServing]) r'))
          end
      | CBroken, EnvRun =>
          let r := if close_flag r && negb (drained r)
                   then set_reqs (abort_all (ct_requests t) (reqs r)) r else r in
          Some (put_conn i (set_pc CJoining t) r)
      | CJoining, EnvJoin q =>
          if bool_decide (q ∈ ct_requests t) && req_finished (reqs r) q
          then Some (put_conn i (set_requests (filter (fun x => x <> q) (ct_requests t)) t) r)
          else None
      | CJoining, EnvRun =>
          if bool_decide (ct_requests t = [])
          then Some (put_conn i (set_pc (CReturning (Some (serve_result t r))) t) r)
          else None
      (* dropping the future at an await: the join set aborts its tasks *)
      | (CAwaitClose _ | CSelect _ _ | CJoining), EnvCancel =>
          Some (put_conn i (set_pc (CReturning None) (set_requests [] t))
                  (set_reqs (abort_all (ct_requests t) (reqs r)) r))
      (* [Drop for ConnectionTracker] *)
      | CReturning res, EnvRun =>
          let '(disconnected, a) := release_locked (ct_peer t) (admission r) in
          Some (put_conn i (set_pc (CReleased disconnected res) t) (set_admission a r))
      | CReleased d res, EnvRun =>
          Some (put_conn i (set_pc (CFireDisconnect d res) t)
                  (set_admission (release_notify (admission r)) r))
      | CFireDisconnect d res, EnvRun =>
          Some (put_conn i (set_pc (CDone res) t)
            (if d then set_admission (fire (node_id (ct_peer t)) false (admission r)) r else r))
      | _, _ => None
      end
  end.

(** ** Requests *)

Definition put_req (q : nat) (t : ReqTask) (r : Runtime) : Runtime := set_reqs (<[q := t]> (reqs r)) r.

(** One section of request task [q]; an aborted task drops its guards. *)
Definition req_step (q : nat) (env : ReqEnv) (r : Runtime) : option Runtime :=
  match reqs r !! q with
  | None => None
  | Some t =>
      match rq_pc t, env with
      | RqServing, (ReqServed | ReqAbort) =>
          if match env with ReqAbort => rq_aborted t | _ => true end
          then Some (put_req q (mkReq (rq_aborted t) RqAcking)
                       (set_counters (request_tracker_drop (requests r)) (deliveries r) r))
          else None
      | RqAcking, (ReqAcked | ReqAbort) =>
          if match env with ReqAbort => rq_aborted t | _ => true end
          then let '(last, d) := delivery_tracker_drop (deliveries r) in
               Some (put_req q (mkReq (rq_aborted t) (if last then RqNotify else RqDone))
                       (set_counters (requests r) d r))
          else None
      | RqNotify, ReqRun =>
          Some (put_req q (mkReq (rq_aborted t) RqDone)
                  (set_drain_notify (nt_notify_waiters (drain_notify r)) r))
      | _, _ => None
      end
  end.

(** ** Shutdown *)

(** [now.checked_add(timeout).unwrap_or(now)]. *)
Definition drain_deadline (now timeout : Z) : Z :=
  if (now + timeout <=? INSTANT_MAX)%Z then (now + timeout)%Z else now.

(** The counter and the notification a wait watches. *)
Definition wait_count (p : WaitPhase) (r : Runtime) : Z :=
  match p with WaitDeliveries => deliveries r | WaitConnections _ => total (admission r) end.
Definition wait_notify (p : WaitPhase) (r : Runtime) : N :=
  match p with WaitDeliveries => drain_notify r | WaitConnections _ => released (admission r) end.

(** Where [shutdown] goes on when a wait returns [b]. *)
Definition wait_return (p : WaitPhase) (deadline : Z) (b : bool) : ShutdownPc :=
  match p with
  | WaitDeliveries => SdDrained b deadline
  | WaitConnections drained => SdDone (drained && b)
  end.

(** One section of [wait_for_zero_until]. *)
Definition wait_for_zero_until (p : WaitPhase) (deadline : Z) (pc : ShutdownPc) (r : Runtime)
  : option ShutdownPc :=
  match pc with
  | SdLoop _ _ => Some (SdCheck p deadline (nt_notified (wait_notify p r)))
  | SdCheck _ _ f =>
      if (wait_count p r =? 0)%Z then Some (wait_return p deadline true)
      else if (sat_sub deadline (now r) =? 0)%Z then Some (wait_return p deadline false)
      else Some (SdSleep p deadline f)
  | SdSleep _ _ f =>
      if nt_fires f (wait_notify p r) || (deadline <=? now r)%Z
      then Some (SdLoop p deadline) else None
  | _ => None
  end.

(** One section of [shutdown]. *)
Definition shutdown (r : Runtime) : option Runtime :=
  match shutdown_pc r with
  | SdIdle =>
      Some (set_shutdown_pc (SdLoop WaitDeliveries (drain_deadline (now r) (drain_timeout (options r)))) (stop r))
  | (SdLoop p dl | SdCheck p dl _ | SdSleep p dl _) as pc =>
      match wait_for_zero_until p dl pc r with
      | Some pc => Some (set_shutdown_pc pc r)
      | None => None
      end
  | SdDrained b dl => Some (set_shutdown_pc (SdStored b dl) (set_flags (stopped r) (close_flag r) b r))
  | SdStored b dl => Some (set_shutdown_pc (SdFlagged b dl) (set_flags (stopped r) true (drained r) r))
  | SdFlagged b dl =>
      Some (set_shutdown_pc (SdLoop (WaitConnections b) dl)
              (set_close_connections (nt_notify_waiters (close_connections r)) r))
  | SdDone _ => None
  end.

(** ** Steps *)

Inductive Act :=
| AConnection (alpn : string) (remote_id : Key)    (* a new connection is handed to the runtime *)
| AConn (i : nat) (env : ConnEnv)
| AReq (q : nat) (env : ReqEnv)
| AShutdown
| AForceFlag                                       (* [shutdown_and_close]: the flag ... *)
| AForceNotify                                     (* ... and the wake-up *)
| AForeignUp                                       (* another cycle of the endpoint admits *)
| AForeignDown                                     (* ... or releases a connection *)
| AForeignRequestUp                                (* another cycle admits a request *)
| AForeignRequestDown                              (* ... or drops its tracker *)
| ATick (d : Z).

Definition foreign_add (d : Z) (r : Runtime) : Runtime :=
  set_foreign (foreign r + d) (foreign_requests r)
    (set_admission (set_counts (counts (admission r)) (total (admission r) + d) (admission r)) r).

Definition foreign_request_add (d : Z) (r : Runtime) : Runtime :=
  set_foreign (foreign r) (foreign_requests r + d) (set_counters (requests r + d) (deliveries r) r).

Definition step (a : Act) (r : Runtime) : option Runtime :=
  match a with
  | AConnection alpn id => Some (serve_connection alpn id r)
  | AConn i env => conn_step i env r
  | AReq q env => req_step q env r
  | AShutdown => shutdown r
  | AForceFlag => Some (set_force_pending (S (force_pending r)) (set_flags (stopped r) true (drained r) r))
  | AForceNotify =>
      match force_pending r with
      | O => None
      | S n => Some (set_force_pending n
                       (set_close_connections (nt_notify_waiters (close_connections r)) r))
      end
  | AForeignUp => Some (foreign_add 1 r)
  | AForeignDown => if (0 <? foreign r)%Z then Some (foreign_add (-1) r) else None
  | AForeignRequestUp => Some (foreign_request_add 1 r)
  | AForeignRequestDown => if (0 <? foreign_requests r)%Z then Some (foreign_request_add (-1) r) else None
  | ATick d => if (0 <=? d)%Z then Some (set_now (now r + d) r) else None
  end.

Definition rt_step (r r' : Runtime) : Prop := exists a, step a r = Some r'.

(** Running a list of actions. *)
Fixpoint run (l : list Act) (r : Runtime) : option Runtime :=
  match l with
  | [] => Some r
  | a :: l => match step a r with Some r' => run l r' | None => None end
  end.

Lemma run_rtc l r r' : run l r = Some r' -> rtc rt_step r r'.
Proof.
  revert r. induction l as [|a l IH]; simpl; intros r Hr.
  - injection Hr as ->. apply rtc_refl.
  - destruct (step a r) as [r1|] eqn:E; [|done]. eapply rtc_l; [by exists a|]. by apply IH.
Qed.
End runtime.
Arguments Runtime Key N F {_ _}.
Arguments ConnTask Key F : clear implicits.
Arguments ConnPc F : clear implicits.
Arguments ShutdownPc F : clear implicits.
