(* ===== verification/ServeRuntimeFacts.v ===== *)
(** * Invariants of the serve runtime

    What every interleaving of the tasks of [ServeRuntime] preserves: the
    counters are the number of live trackers, the connection events balance,
    admission stops, and no wake-up is lost. *)

From stdpp Require Import base numbers list strings gmap fin_maps relations.
From Stdlib Require Import ZArith Lia.
From S2P Require Import Prelude Extern ServeOptions Admission ServeRuntime.

Open Scope string_scope.
Open Scope list_scope.

Section facts.
Context {Key N F : Type} `{Countable Key} `{Notify N F} `{!NotifyLaws N F}.
Context (node_id : Key -> string) (ALPN : string) (INSTANT_MAX : Z) `{!Inj (=) (=) node_id}.

Abbreviation Runtime := (Runtime Key N F).
Abbreviation ConnTask := (ConnTask Key F).
Abbreviation step := (step node_id ALPN INSTANT_MAX).
Abbreviation rt_step := (rt_step node_id ALPN INSTANT_MAX).
Abbreviation conn_step := (conn_step node_id).
Abbreviation serve_connection := (serve_connection node_id ALPN).

(** ** Who holds what *)

Definition holds (t : ConnTask) : Z :=
  match ct_pc t with
  | CReleased _ _ | CFireDisconnect _ _ | CDone _ | CRejected _ => 0
  | _ => 1
  end.
Definition holds_for (p : Key) (t : ConnTask) : Z := if decide (ct_peer t = p) then holds t else 0.

(** A callback that is due: connected counts 1, disconnected -1. *)
Definition due (p : Key) (t : ConnTask) : Z :=
  if decide (ct_peer t = p) then
    match ct_pc t with
    | CFireConnect true => 1
    | CReleased true _ | CFireDisconnect true _ => -1
    | _ => 0
    end
  else 0.
Definition event_value (p : Key) (e : ConnectionEvent) : Z :=
  if decide (ev_peer_id e = node_id p) then if ev_connected e then 1 else -1 else 0.

Definition req_holds (t : ReqTask) : Z := match rq_pc t with RqServing => 1 | _ => 0 end.
Definition del_holds (t : ReqTask) : Z := match rq_pc t with RqServing | RqAcking => 1 | _ => 0 end.

Definition conns_of (p : Key) (r : Runtime) : Z := zsum (holds_for p) (conns r).
Definition conns_total (r : Runtime) : Z := zsum holds (conns r).

Lemma holds_nonneg t : (0 <= holds t)%Z.
Proof. unfold holds. by case_match. Qed.
Lemma holds_for_nonneg p t : (0 <= holds_for p t)%Z.
Proof. unfold holds_for. case_decide; [apply holds_nonneg|done]. Qed.
Lemma del_holds_nonneg t : (0 <= del_holds t)%Z.
Proof. unfold del_holds. by case_match. Qed.

(** ** How a connection task acts on the admission *)

Inductive conn_effect (r r' : Runtime) (i : nat) (t t' : ConnTask) : Prop :=
| eff_quiet :
    admission r' = admission r -> holds t' = holds t -> (forall p, due p t' = due p t) ->
    conn_effect r r' i t t'
| eff_fire (b : bool) :
    admission r' = fire (node_id (ct_peer t)) b (admission r) -> holds t' = holds t ->
    (forall p, due p t' = (due p t - event_value p (mkConnEvent (node_id (ct_peer t)) b))%Z) ->
    conn_effect r r' i t t'
| eff_release (d : bool) :
    release_locked (ct_peer t) (admission r) = (d, admission r') -> holds t = 1%Z -> holds t' = 0%Z ->
    (forall p, due p t = 0%Z) ->
    (forall p, due p t' = if decide (ct_peer t = p) then if d then (-1)%Z else 0%Z else 0%Z) ->
    conn_effect r r' i t t'
| eff_notify :
    admission r' = release_notify (admission r) -> holds t' = holds t -> (forall p, due p t' = due p t) ->
    conn_effect r r' i t t'.

Lemma due_fire (p q : Key) (b : bool) :
  (if decide (q = p) then (if b then 1 else -1) else 0)%Z = event_value p (mkConnEvent (node_id q) b).
Proof.
  unfold event_value; simpl. destruct (decide (q = p)) as [->|Hn].
  - by rewrite decide_True.
  - rewrite decide_False; [done|]. by intros ?%(inj node_id).
Qed.

(** Solve a case of a step that leaves the admission and the trackers alone. *)
Ltac frame_eq := first [reflexivity | simpl; congruence].
Ltac quiet Epc :=
  eexists; do 13 (split; [frame_eq|]);
  apply eff_quiet; [frame_eq|unfold holds; simpl; rewrite Epc; reflexivity
    |intros p; unfold due; simpl; rewrite Epc; repeat case_match; reflexivity].

Lemma conn_step_effect i env (r r' : Runtime) :
  conn_step i env r = Some r' ->
  exists t t', conns r !! i = Some t /\ conns r' = <[i := t']> (conns r) /\ ct_peer t' = ct_peer t /\
    options r' = options r /\ foreign r' = foreign r /\ shutdown_pc r' = shutdown_pc r /\
    force_pending r' = force_pending r /\ drain_notify r' = drain_notify r /\
    close_connections r' = close_connections r /\ stopped r' = stopped r /\
    close_flag r' = close_flag r /\ drained r' = drained r /\ now r' = now r /\
    conn_effect r r' i t t'.
Proof.
  intros Hs. unfold ServeRuntime.conn_step in Hs. destruct (conns r !! i) as [t|] eqn:Ei; [|done].
  exists t. destruct (ct_pc t) eqn:Epc; destruct env; try discriminate Hs.
  all: unfold try_admit in Hs; try (repeat case_match_hyp Hs; try discriminate Hs; injection Hs as <-; quiet Epc).
  - (* connect callback *)
    injection Hs as <-. destruct was_zero; [|quiet Epc]. eexists; do 13 (split; [frame_eq|]).
    apply (eff_fire _ _ _ _ _ true); [done|unfold holds; simpl; by rewrite Epc|].
    intros p. unfold due; simpl. rewrite Epc, <- due_fire. by case_decide.
  - (* release *)
    destruct (release_locked (ct_peer t) (admission r)) as [d a] eqn:Er. injection Hs as <-.
    eexists; do 13 (split; [frame_eq|]).
    apply (eff_release _ _ _ _ _ d); [by rewrite Er|unfold holds; by rewrite Epc|done| |];
      intros p; unfold due; simpl; rewrite ?Epc; by repeat case_match.
  - (* wake-up *)
    injection Hs as <-. eexists; do 13 (split; [frame_eq|]).
    apply eff_notify; [done|unfold holds; simpl; by rewrite Epc|].
    intros p. unfold due; simpl. rewrite Epc. by repeat case_match.
  - (* disconnect callback *)
    injection Hs as <-. destruct disconnected; [|quiet Epc]. eexists; do 13 (split; [frame_eq|]).
    apply (eff_fire _ _ _ _ _ false); [done|unfold holds; simpl; by rewrite Epc|].
    intros p. unfold due; simpl. rewrite Epc, <- due_fire. by case_decide.
Qed.

(** ** Admission counters and events *)

(** The registered count of [n] live connections. *)
Definition count_entry (n : Z) : option Z := if (n =? 0)%Z then None else Some n.

Record adm_inv (r : Runtime) : Prop := {
  ai_foreign : (0 <= foreign r)%Z;
  ai_total : total (admission r) = (foreign r + conns_total r)%Z;
  ai_counts : forall p, counts (admission r) !! p = count_entry (conns_of p r);
  ai_peer : forall p, (conns_of p r <= max_per_peer (admission r))%Z;
  ai_max : (conns_total r <= max_total (admission r))%Z;
  ai_pos : (0 < max_per_peer (admission r) < USIZE_MAX)%Z;
  ai_events : on_event (admission r) = true -> forall p,
    (zsum (event_value p) (fired (admission r)) + zsum (due p) (conns r))%Z =
    if (conns_of p r =? 0)%Z then 0%Z else 1%Z
}.

Lemma conns_of_nonneg p (r : Runtime) : (0 <= conns_of p r)%Z.
Proof. apply zsum_nonneg, holds_for_nonneg. Qed.

Lemma acquire_locked_spec (p : Key) (a : ConnectionAdmission Key N) n :
  counts a !! p = count_entry n -> (0 <= n < USIZE_MAX)%Z -> (0 < max_per_peer a)%Z ->
  match acquire_locked p a with
  | (Ok was_zero, a') =>
      (total a < max_total a)%Z /\ (n < max_per_peer a)%Z /\ was_zero = (n =? 0)%Z /\
      total a' = (total a + 1)%Z /\ counts a' = <[p := (n + 1)%Z]> (counts a)
  | (Err AdmTotal, a') => a' = a /\ (max_total a <= total a)%Z
  | (Err AdmPeer, a') => a' = a /\ (total a < max_total a)%Z /\ (max_per_peer a <= n)%Z
  end.
Proof.
  intros Hc Hn Hp. unfold acquire_locked.
  assert (default 0%Z (counts a !! p) = n) as ->.
  { rewrite Hc. unfold count_entry. destruct (n =? 0)%Z eqn:E; simpl; zify_bool. }
  destruct (max_total a <=? total a)%Z eqn:Et; [bool_to_prop; done|].
  destruct (max_per_peer a <=? n)%Z eqn:Em; bool_to_prop.
  - split; [|lia]. rewrite insert_id; [by destruct a|]. rewrite Hc. unfold count_entry.
    destruct (n =? 0)%Z eqn:E; [zify_bool|done].
  - simpl. rewrite sat_add_exact by lia. split_and!; [lia|lia|done|done|done].
Qed.

Lemma release_locked_spec (p : Key) (a a' : ConnectionAdmission Key N) n d :
  counts a !! p = count_entry n -> (1 <= n)%Z -> release_locked p a = (d, a') ->
  d = (n =? 1)%Z /\ total a' = (total a - 1)%Z /\
  forall q, counts a' !! q = if decide (p = q) then count_entry (n - 1) else counts a !! q.
Proof.
  intros Hc Hn. unfold release_locked. rewrite Hc. unfold count_entry at 1.
  destruct (n =? 0)%Z eqn:E0; [zify_bool|].
  assert (sat_sub n 1 = n - 1)%Z as -> by (unfold sat_sub; lia).
  destruct (n - 1 =? 0)%Z eqn:E1; intros [= <- <-]; bool_to_prop; simpl.
  - assert (n = 1)%Z as -> by lia. split_and!; [done|done|]. intros q.
    rewrite lookup_delete. by case_decide.
  - split_and!; [symmetry; apply Z.eqb_neq; lia|done|]. intros q. rewrite lookup_insert.
    case_decide; [|done]. unfold count_entry. destruct (n - 1 =? 0)%Z eqn:E; [zify_bool|done].
Qed.

Lemma event_value_self (p : Key) b : event_value p (mkConnEvent (node_id p) b) = if b then 1%Z else (-1)%Z.
Proof. rewrite <- due_fire. by rewrite decide_True. Qed.

Lemma fired_fire (p : Key) s b (a : ConnectionAdmission Key N) :
  zsum (event_value p) (fired (fire s b a)) =
  (zsum (event_value p) (fired a) + if on_event a then event_value p (mkConnEvent s b) else 0)%Z.
Proof. unfold fire. destruct (on_event a); simpl; [rewrite zsum_app; simpl|]; lia. Qed.

Lemma conn_step_adm i env (r r' : Runtime) : conn_step i env r = Some r' -> adm_inv r -> adm_inv r'.
Proof.
  intros Hs [Hf Ht Hc Hp Hm Hpos He].
  destruct (conn_step_effect _ _ _ _ Hs) as
    (t & t' & Hi & Hconns & Hpeer & Hopt & Hfor & _ & _ & _ & _ & _ & _ & _ & _ & Heff).
  assert (forall p, conns_of p r' = (conns_of p r - holds_for p t + holds_for p t')%Z) as Hof.
  { intros p. unfold conns_of. by rewrite Hconns, (zsum_insert _ _ _ _ _ Hi). }
  assert (conns_total r' = (conns_total r - holds t + holds t')%Z) as Htot.
  { unfold conns_total. by rewrite Hconns, (zsum_insert _ _ _ _ _ Hi). }
  assert (forall p, zsum (due p) (conns r') = (zsum (due p) (conns r) - due p t + due p t')%Z) as Hdue.
  { intros p. by rewrite Hconns, (zsum_insert _ _ _ _ _ Hi). }
  destruct Heff as [Ha Hh Hd|b Ha Hh Hd|d Ha Hh Hh' Hd Hd'|Ha Hh Hd].
  - assert (forall p, conns_of p r' = conns_of p r) as Hof'.
    { intros p. rewrite Hof. unfold holds_for. rewrite Hpeer, Hh. lia. }
    split; rewrite ?Ha, ?Hfor, ?Htot; try done; try lia; intros; rewrite ?Hof'; auto.
    rewrite Hdue, Hd, <- He by done. lia.
  - assert (forall p, conns_of p r' = conns_of p r) as Hof'.
    { intros p. rewrite Hof. unfold holds_for. rewrite Hpeer, Hh. lia. }
    destruct (fire_static (node_id (ct_peer t)) b (admission r)) as (E1 & E2 & E3 & E4 & E5 & _).
    split; rewrite ?Ha, ?E1, ?E2, ?E3, ?E4, ?E5, ?Hfor, ?Htot; try done; try lia; intros; rewrite ?Hof'; auto.
    rewrite fired_fire, Hdue, Hd, <- He by done.
    match goal with Hon : on_event _ = true |- _ => rewrite Hon end. lia.
  - destruct (release_locked_static (ct_peer t) (admission r)) as (E3 & E4 & E5 & _ & E7 & _).
    rewrite Ha in *. simpl in *.
    assert (holds_for (ct_peer t) t = 1)%Z as H1 by (unfold holds_for; by rewrite decide_True).
    assert (1 <= conns_of (ct_peer t) r)%Z as Hge.
    { rewrite <- H1. apply zsum_lookup with i; [apply holds_for_nonneg|done]. }
    destruct (release_locked_spec _ _ _ _ _ (Hc (ct_peer t)) Hge Ha) as (-> & Et & Ec).
    assert (forall p, conns_of p r' = if decide (ct_peer t = p) then (conns_of p r - 1)%Z else conns_of p r) as Hof'.
    { intros p. rewrite Hof. unfold holds_for. rewrite Hpeer, Hh, Hh'. case_decide; lia. }
    split; rewrite ?E3, ?E4, ?E5, ?E7, ?Hfor, ?Htot, ?Et; try done; try lia.
    + intros p. rewrite Ec, Hof'. case_decide; subst; auto.
    + intros p. rewrite Hof'. specialize (Hp p). case_decide; lia.
    + intros Hon p. rewrite Hdue, Hd, Hd', Hof'. specialize (He Hon p).
      case_decide; subst; [|lia].
      destruct (conns_of (ct_peer t) r =? 1)%Z eqn:E; destruct (conns_of (ct_peer t) r =? 0)%Z eqn:E0;
        destruct (conns_of (ct_peer t) r - 1 =? 0)%Z eqn:E10; zify_bool.
  - assert (forall p, conns_of p r' = conns_of p r) as Hof'.
    { intros p. rewrite Hof. unfold holds_for. rewrite Hpeer, Hh. lia. }
    split; rewrite ?Ha, ?Hfor, ?Htot; simpl; try done; try lia; intros; rewrite ?Hof'; auto.
    rewrite Hdue, Hd, <- He by done. lia.
Qed.

(** A change that keeps the admission, the connections and [foreign]. *)
Lemma adm_inv_frame (r r' : Runtime) :
  admission r' = admission r -> conns r' = conns r -> foreign r' = foreign r -> adm_inv r -> adm_inv r'.
Proof.
  intros Ha Hc Hf [? ? ? ? ? ? ?]. unfold conns_of, conns_total in *.
  split; unfold conns_of, conns_total; rewrite ?Ha, ?Hc, ?Hf; done.
Qed.

(** A rejected connection holds nothing. *)
Lemma adm_inv_rejected r p c e x :
  adm_inv r -> adm_inv (set_conns (conns r ++ [mkConn p c e [] (CRejected x)]) r).
Proof.
  intros [Hf Ht Hc Hp Hm Hpos He].
  assert (forall f, f (mkConn p c e [] (CRejected x)) = 0%Z ->
    zsum f (conns r ++ [mkConn p c e [] (CRejected x)]) = zsum f (conns r)) as Hz.
  { intros f Hf0. rewrite zsum_app. simpl. lia. }
  split; unfold conns_of, conns_total in *; simpl; intros; rewrite ?Hz; auto;
    unfold holds_for, due; simpl; by case_decide.
Qed.

Lemma serve_entry_adm p (r : Runtime) : adm_inv r -> adm_inv (serve_validated_entry p r).
Proof.
  intros Hinv. pose proof Hinv as [Hf Ht Hc Hp Hm Hpos He]. unfold serve_validated_entry.
  pose proof (conns_of_nonneg p r) as H0p. pose proof (Hp p) as Hpp.
  pose proof (acquire_locked_spec p (admission r) (conns_of p r) (Hc p) ltac:(lia) ltac:(lia)) as Hs.
  destruct (acquire_locked_static p (admission r)) as (E3 & E4 & E5 & _ & E7).
  destruct (acquire_locked p (admission r)) as [[wz|[]] a]; simpl in *.
  - destruct Hs as (Hlt & Hlp & -> & Et & Ec).
    set (t := mkConn p None PeerClosed [] (CFireConnect (conns_of p r =? 0)%Z)).
    assert (forall q, conns_of q (set_conns (conns r ++ [t]) (set_admission a r)) =
      if decide (p = q) then (conns_of q r + 1)%Z else conns_of q r) as Hof.
    { intros q. unfold conns_of; simpl. rewrite zsum_app; simpl. unfold holds_for at 2; simpl.
      case_decide; unfold holds; simpl; lia. }
    assert (conns_total (set_conns (conns r ++ [t]) (set_admission a r)) = (conns_total r + 1)%Z) as Htot.
    { unfold conns_total; simpl. rewrite zsum_app. done. }
    split; rewrite ?Hof, ?Htot; simpl; rewrite ?E3, ?E4, ?E5, ?E7, ?Et; try done; try lia.
    + intros q. rewrite Ec, Hof, lookup_insert. case_decide; [subst q|apply Hc].
      unfold count_entry. destruct (conns_of p r + 1 =? 0)%Z eqn:E; [zify_bool|done].
    + intros q. rewrite Hof. specialize (Hp q). case_decide; [subst q|]; lia.
    + intros Hon q. rewrite Hof, zsum_app. simpl. specialize (He Hon q).
      unfold due at 2; simpl. case_decide; [subst q|lia].
      destruct (conns_of p r =? 0)%Z eqn:E; destruct (conns_of p r + 1 =? 0)%Z eqn:E1; zify_bool.
  - destruct Hs as [-> _]. apply (adm_inv_rejected (set_admission (admission r) r)).
    by eapply adm_inv_frame; [..|exact Hinv].
  - destruct Hs as [-> _]. apply (adm_inv_rejected (set_admission (admission r) r)).
    by eapply adm_inv_frame; [..|exact Hinv].
Qed.

Lemma adm_inv_foreign d (r : Runtime) : (0 <= foreign r + d)%Z -> adm_inv r -> adm_inv (foreign_add d r).
Proof.
  intros Hd [? Ht ? ? ? ? ?]. unfold conns_of, conns_total in *.
  split; unfold conns_of, conns_total; simpl; auto; lia.
Qed.

Lemma req_step_frame q env (r r' : Runtime) :
  req_step q env r = Some r' ->
  admission r' = admission r /\ conns r' = conns r /\ foreign r' = foreign r /\
  options r' = options r /\ close_connections r' = close_connections r /\
  shutdown_pc r' = shutdown_pc r /\ force_pending r' = force_pending r /\ stopped r' = stopped r /\
  close_flag r' = close_flag r /\ drained r' = drained r /\ now r' = now r /\
  length (reqs r') = length (reqs r) /\ foreign_requests r' = foreign_requests r.
Proof.
  unfold req_step, delivery_tracker_drop. intros Hs.
  repeat case_match_hyp Hs; try discriminate Hs; injection Hs as <-; simpl; by rewrite ?length_insert.
Qed.

Lemma shutdown_frame (r r' : Runtime) :
  shutdown INSTANT_MAX r = Some r' ->
  admission r' = admission r /\ conns r' = conns r /\ foreign r' = foreign r /\
  options r' = options r /\ reqs r' = reqs r /\ requests r' = requests r /\
  deliveries r' = deliveries r /\ drain_notify r' = drain_notify r /\
  force_pending r' = force_pending r /\ now r' = now r /\ foreign_requests r' = foreign_requests r.
Proof.
  unfold shutdown. intros Hs.
  repeat case_match_hyp Hs; try discriminate Hs; injection Hs as <-; done.
Qed.

Lemma step_adm a (r r' : Runtime) : step a r = Some r' -> adm_inv r -> adm_inv r'.
Proof.
  intros Hs Hinv. destruct a; simpl in Hs.
  - injection Hs as <-. unfold ServeRuntime.serve_connection, validate_http_connection.
    case_bool_decide; [by apply adm_inv_rejected|by apply serve_entry_adm].
  - by eapply conn_step_adm.
  - apply req_step_frame in Hs as (Ha & Hc & Hf & _). by eapply adm_inv_frame; [..|exact Hinv].
  - apply shutdown_frame in Hs as (Ha & Hc & Hf & _). by eapply adm_inv_frame; [..|exact Hinv].
  - injection Hs as <-. by eapply adm_inv_frame; [..|exact Hinv].
  - case_match; [done|]. injection Hs as <-. by eapply adm_inv_frame; [..|exact Hinv].
  - injection Hs as <-. apply adm_inv_foreign; [|done]. destruct Hinv. lia.
  - case_match; [|done]. injection Hs as <-. bool_to_prop. apply adm_inv_foreign; [lia|done].
  - injection Hs as <-. by eapply adm_inv_frame; [..|exact Hinv].
  - case_match; [|done]. injection Hs as <-. by eapply adm_inv_frame; [..|exact Hinv].
  - case_match; [|done]. injection Hs as <-. by eapply adm_inv_frame; [..|exact Hinv].
Qed.

(** ** Request and delivery counters *)

Record req_inv (r : Runtime) : Prop := {
  ri_requests : requests r = (foreign_requests r + zsum req_holds (reqs r))%Z;
  ri_deliveries : deliveries r = zsum del_holds (reqs r)
}.

Lemma zsum_imap_same (f : ReqTask -> Z) g l :
  (forall i x, f (g i x) = f x) -> zsum f (imap g l) = zsum f l.
Proof.
  revert g. induction l as [|x l IH]; intros g Hg; [done|]. simpl. rewrite Hg. f_equal.
  apply IH. intros i y. apply Hg.
Qed.

Lemma zsum_abort (f : ReqTask -> Z) qs l :
  (forall b pc, f (mkReq b pc) = f (mkReq false pc)) -> zsum f (abort_all qs l) = zsum f l.
Proof.
  intros Hf. apply zsum_imap_same. intros i [b pc]. case_bool_decide; [|done].
  simpl. by rewrite (Hf true), (Hf b).
Qed.

(** What a connection step does to the requests: nothing, admit one while
    admission is open, or abort some. *)
Lemma conn_step_reqs i env (r r' : Runtime) :
  conn_step i env r = Some r' ->
  foreign_requests r' = foreign_requests r /\
  ((reqs r' = reqs r /\ requests r' = requests r /\ deliveries r' = deliveries r) \/
  (stopped r = false /\ reqs r' = reqs r ++ [mkReq false RqServing] /\
   requests r' = (requests r + 1)%Z /\ deliveries r' = (deliveries r + 1)%Z) \/
  (exists qs, reqs r' = abort_all qs (reqs r) /\ requests r' = requests r /\ deliveries r' = deliveries r)).
Proof.
  intros Hs. unfold ServeRuntime.conn_step in Hs. destruct (conns r !! i) as [t|] eqn:Ei; [|done].
  destruct (ct_pc t) eqn:Epc; destruct env; try discriminate Hs; unfold try_admit in Hs;
    repeat case_match_hyp Hs; try discriminate Hs; injection Hs as <-; (split; [done|]); simpl;
    try (by left); try (by right; left); try (right; right; by eexists).
Qed.

Lemma conn_step_req i env (r r' : Runtime) : conn_step i env r = Some r' -> req_inv r -> req_inv r'.
Proof.
  intros Hs [Hr Hd]. destruct (conn_step_reqs _ _ _ _ Hs) as [E0 [(E1&E2&E3)|[(_&E1&E2&E3)|(qs&E1&E2&E3)]]];
    split; rewrite ?E0, ?E1, ?E2, ?E3, ?zsum_app, ?zsum_abort by done; cbn; lia.
Qed.

Lemma req_step_req q env (r r' : Runtime) : req_step q env r = Some r' -> req_inv r -> req_inv r'.
Proof.
  intros Hs [Hr Hd]. unfold req_step, delivery_tracker_drop, request_tracker_drop in Hs.
  destruct (reqs r !! q) as [t|] eqn:Eq; [|done].
  destruct (rq_pc t) eqn:Epc; destruct env; try discriminate Hs;
    repeat case_match_hyp Hs; try discriminate Hs; injection Hs as <-; split; simpl;
    rewrite ?(zsum_insert _ _ _ _ _ Eq), ?Hr, ?Hd;
    change (req_holds t) with (match rq_pc t with RqServing => 1 | _ => 0 end)%Z;
    change (del_holds t) with (match rq_pc t with RqServing | RqAcking => 1 | _ => 0 end)%Z;
    rewrite Epc; cbn; lia.
Qed.

Lemma req_inv_frame (r r' : Runtime) :
  reqs r' = reqs r -> requests r' = requests r -> deliveries r' = deliveries r ->
  foreign_requests r' = foreign_requests r -> req_inv r -> req_inv r'.
Proof. intros E1 E2 E3 E4 [? ?]. split; by rewrite ?E1, ?E2, ?E3, ?E4. Qed.

Lemma req_inv_foreign d (r : Runtime) : req_inv r -> req_inv (foreign_request_add d r).
Proof. intros [Hr Hd]. split; simpl; lia. Qed.

Lemma serve_connection_frame alpn p (r : Runtime) :
  reqs (serve_connection alpn p r) = reqs r /\ requests (serve_connection alpn p r) = requests r /\
  deliveries (serve_connection alpn p r) = deliveries r /\
  close_connections (serve_connection alpn p r) = close_connections r /\
  drain_notify (serve_connection alpn p r) = drain_notify r /\
  released (admission (serve_connection alpn p r)) = released (admission r) /\
  shutdown_pc (serve_connection alpn p r) = shutdown_pc r /\
  force_pending (serve_connection alpn p r) = force_pending r /\
  stopped (serve_connection alpn p r) = stopped r /\
  close_flag (serve_connection alpn p r) = close_flag r /\
  drained (serve_connection alpn p r) = drained r /\
  options (serve_connection alpn p r) = options r /\
  foreign_requests (serve_connection alpn p r) = foreign_requests r.
Proof.
  unfold ServeRuntime.serve_connection, validate_http_connection. case_bool_decide; [done|].
  unfold serve_validated_entry. destruct (acquire_locked_static p (admission r)) as (_ & _ & _ & E & _).
  destruct (acquire_locked p (admission r)) as [[|[]] a]; simpl in *; done.
Qed.

Lemma step_req a (r r' : Runtime) : step a r = Some r' -> req_inv r -> req_inv r'.
Proof.
  intros Hs Hinv. destruct a; simpl in Hs.
  - injection Hs as <-. destruct (serve_connection_frame alpn remote_id r) as (E1 & E2 & E3 & _ & _ & _ & _ & _ & _ & _ & _ & _ & E4).
    by eapply req_inv_frame; [..|exact Hinv].
  - by eapply conn_step_req.
  - by eapply req_step_req.
  - apply shutdown_frame in Hs as (_ & _ & _ & _ & E1 & E2 & E3 & _ & _ & _ & E4). by eapply req_inv_frame; [..|exact Hinv].
  - injection Hs as <-. by eapply req_inv_frame; [..|exact Hinv].
  - case_match; [done|]. injection Hs as <-. by eapply req_inv_frame; [..|exact Hinv].
  - injection Hs as <-. by eapply req_inv_frame; [..|exact Hinv].
  - case_match; [|done]. injection Hs as <-. by eapply req_inv_frame; [..|exact Hinv].
  - injection Hs as <-. by apply req_inv_foreign.
  - case_match; [|done]. injection Hs as <-. by apply req_inv_foreign.
  - case_match; [|done]. injection Hs as <-. by eapply req_inv_frame; [..|exact Hinv].
Qed.

(** ** Draining *)

Definition drained_pc (pc : ShutdownPc F) : bool :=
  match pc with
  | SdDrained b _ | SdStored b _ | SdFlagged b _ | SdLoop (WaitConnections b) _
  | SdCheck (WaitConnections b) _ _ | SdSleep (WaitConnections b) _ _ | SdDone b => b
  | _ => false
  end.

Definition flagged_pc (pc : ShutdownPc F) : bool :=
  match pc with
  | SdFlagged _ _ | SdLoop (WaitConnections _) _
  | SdCheck (WaitConnections _) _ _ | SdSleep (WaitConnections _) _ _ | SdDone _ => true
  | _ => false
  end.

Record drain_inv (r : Runtime) : Prop := {
  di_stopped : shutdown_pc r <> SdIdle -> stopped r = true;
  di_drained : drained r = true -> deliveries r = 0%Z;
  di_pc : drained_pc (shutdown_pc r) = true -> deliveries r = 0%Z;
  di_started : drained r = true -> shutdown_pc r <> SdIdle;
  di_flag : flagged_pc (shutdown_pc r) = true -> close_flag r = true
}.

(** Once admission has stopped no request is admitted any more. *)
Lemma stopped_step a (r r' : Runtime) :
  req_inv r -> step a r = Some r' -> stopped r = true ->
  stopped r' = true /\ length (reqs r') = length (reqs r) /\ (0 <= deliveries r' <= deliveries r)%Z.
Proof.
  intros Hri Hs Hst. pose proof (step_req _ _ _ Hs Hri) as Hri'.
  assert (0 <= deliveries r')%Z as H0'.
  { rewrite (ri_deliveries _ Hri'). apply zsum_nonneg, del_holds_nonneg. }
  assert (0 <= deliveries r)%Z as H0r.
  { rewrite (ri_deliveries _ Hri). apply zsum_nonneg, del_holds_nonneg. }
  destruct a; simpl in Hs.
  - injection Hs as <-. destruct (serve_connection_frame alpn remote_id r) as
      (E1 & _ & E3 & _ & _ & _ & _ & _ & E4 & _). rewrite E1, E3, E4. by split_and!.
  - destruct (conn_step_effect _ _ _ _ Hs) as (t & t' & _ & _ & _ & _ & _ & _ & _ & _ & _ & E4 & _).
    rewrite E4. destruct (conn_step_reqs _ _ _ _ Hs) as [E0 [(E1&E2&E3)|[(Hn&_)|(qs&E1&E2&E3)]]];
      [|congruence|]; rewrite E1, E3; unfold abort_all; rewrite ?length_imap; by split_and!.
  - pose proof (req_step_frame _ _ _ _ Hs) as (_&_&_&_&_&_&_&Es&_&_&_&El&_). rewrite Es, El.
    split_and!; try done. unfold req_step, delivery_tracker_drop in Hs.
    repeat case_match_hyp Hs; try discriminate Hs; injection Hs as <-; simpl; lia.
  - pose proof (shutdown_frame _ _ Hs) as (_&_&_&_&E1&_&E3&_). rewrite E1, E3. split_and!; try done.
    unfold shutdown in Hs. repeat case_match_hyp Hs; try discriminate Hs; injection Hs as <-; done.
  - injection Hs as <-. by split_and!.
  - case_match; [done|]. injection Hs as <-. by split_and!.
  - injection Hs as <-. by split_and!.
  - case_match; [|done]. injection Hs as <-. by split_and!.
  - injection Hs as <-. by split_and!.
  - case_match; [|done]. injection Hs as <-. by split_and!.
  - case_match; [|done]. injection Hs as <-. by split_and!.
Qed.

(** A step that leaves the flags and the shutdown task alone and does not add a
    delivery after the stop keeps the drain invariant. *)
Lemma drain_inv_frame (r r' : Runtime) :
  shutdown_pc r' = shutdown_pc r -> (stopped r = true -> stopped r' = true) ->
  (close_flag r = true -> close_flag r' = true) -> drained r' = drained r ->
  (stopped r = true -> deliveries r = 0%Z -> deliveries r' = 0%Z) -> drain_inv r -> drain_inv r'.
Proof.
  intros Ep Es Ec Ed Hd [H1 H2 H2' H3 H4]. split; rewrite ?Ep, ?Ed; auto.
  intros Hpc. apply Hd; [|by apply H2']. apply H1. intros E. by rewrite E in Hpc.
Qed.

Lemma shutdown_drain_inv (r r' : Runtime) :
  shutdown INSTANT_MAX r = Some r' -> drain_inv r -> drain_inv r'.
Proof.
  intros Hs [H1 H2 H2' H3 H4]. unfold shutdown, wait_for_zero_until, wait_return, stop in Hs.
  destruct (shutdown_pc r) as [|p dl|p dl f|p dl f|b dl|b dl|b dl|b] eqn:Ep; [| | | | | | |done];
    try destruct p; repeat case_match_hyp Hs; try discriminate Hs; injection Hs as <-;
    split; simpl; rewrite ?Ep in *; simpl in *; bool_to_prop; try done; auto.
  all: intros; bool_to_prop; auto.
Qed.

Lemma step_drain_inv a (r r' : Runtime) :
  req_inv r -> step a r = Some r' -> drain_inv r -> drain_inv r'.
Proof.
  intros Hri Hs Hinv. destruct a; try (by eapply shutdown_drain_inv).
  all: assert (Hfr : shutdown_pc r' = shutdown_pc r /\ (stopped r = true -> stopped r' = true) /\
         (close_flag r = true -> close_flag r' = true) /\ drained r' = drained r).
  all: try (eapply drain_inv_frame; [apply Hfr|apply Hfr|apply Hfr|apply Hfr| |exact Hinv];
            intros Hst H0d; pose proof (stopped_step _ _ _ Hri Hs Hst); lia).
  all: simpl in Hs.
  - injection Hs as <-. destruct (serve_connection_frame alpn remote_id r) as
      (_ & _ & _ & _ & _ & _ & -> & _ & -> & -> & -> & _). done.
  - destruct (conn_step_effect _ _ _ _ Hs) as
      (t & t' & _ & _ & _ & _ & _ & -> & _ & _ & _ & -> & -> & -> & _). done.
  - apply req_step_frame in Hs as (_ & _ & _ & _ & _ & -> & _ & -> & -> & -> & _). done.
  - by injection Hs as <-.
  - case_match; [done|]. by injection Hs as <-.
  - by injection Hs as <-.
  - case_match; [|done]. by injection Hs as <-.
  - by injection Hs as <-.
  - case_match; [|done]. by injection Hs as <-.
  - case_match; [|done]. by injection Hs as <-.
Qed.

(** ** No lost wake-up of the connection tasks *)

(** Somebody has set [close_flag] and will notify. *)
Definition close_due (r : Runtime) : Prop :=
  0 < force_pending r \/ exists b dl, shutdown_pc r = SdFlagged b dl.

(** A task that registered before it saw [close_flag] unset. *)
Definition close_ok (r : Runtime) (t : ConnTask) : Prop :=
  match ct_pc t with
  | CRegistered f => nt_made f (close_connections r)
  | CNotClosed f | CAwaitClose f | CSelect f _ =>
      nt_made f (close_connections r) /\
      (close_flag r = true -> nt_fires f (close_connections r) = true \/ close_due r)
  | _ => True
  end.

Definition close_inv (r : Runtime) : Prop := Forall (close_ok r) (conns r).

Lemma close_ok_frame (r r' : Runtime) t :
  close_connections r' = close_connections r -> (close_flag r' = true -> close_flag r = true) ->
  (close_due r -> close_due r') -> close_ok r t -> close_ok r' t.
Proof.
  intros Ec Ef Hd. unfold close_ok. rewrite Ec. case_match; try done.
  all: intros [Hm Hw]; split; [done|]; intros E; destruct (Hw (Ef E)); auto.
Qed.

(** A notification makes every registered future fire. *)
Lemma close_ok_notified (r r' : Runtime) t :
  close_connections r' = nt_notify_waiters (close_connections r) -> close_ok r t -> close_ok r' t.
Proof.
  intros Ec. unfold close_ok. rewrite Ec. case_match; try done.
  - apply nt_made_later.
  - intros [Hm _]. split; [by apply nt_made_later|]. left. by apply nt_fires_after.
  - intros [Hm _]. split; [by apply nt_made_later|]. left. by apply nt_fires_after.
  - intros [Hm _]. split; [by apply nt_made_later|]. left. by apply nt_fires_after.
Qed.

(** Setting the flag is fine when a notification is due. *)
Lemma close_ok_due (r r' : Runtime) t :
  close_connections r' = close_connections r -> close_due r' -> close_ok r t -> close_ok r' t.
Proof. intros Ec Hd. unfold close_ok. rewrite Ec. case_match; try done; intros [Hm _]; auto. Qed.

(** The task that moved. *)
Lemma conn_step_close_ok i env (r r' : Runtime) :
  conn_step i env r = Some r' -> close_inv r -> exists t', conns r' !! i = Some t' /\ close_ok r' t'.
Proof.
  intros Hs Hinv. unfold ServeRuntime.conn_step in Hs.
  destruct (conns r !! i) as [t|] eqn:Ei; [|done].
  pose proof (proj1 (Forall_lookup _ _) Hinv i t Ei) as Ht. unfold close_ok in Ht.
  assert (i < length (conns r)) as Hlt by (by eapply lookup_lt_Some).
  destruct (ct_pc t) eqn:Epc; destruct env; try discriminate Hs; unfold try_admit in Hs;
    repeat case_match_hyp Hs; try discriminate Hs; injection Hs as <-; simpl;
    (eexists; split; [by apply list_lookup_insert_eq|]); unfold close_ok; simpl; rewrite ?Epc;
    try done; try apply nt_made_now; split; try done; congruence.
Qed.

Lemma conn_step_close i env (r r' : Runtime) : conn_step i env r = Some r' -> close_inv r -> close_inv r'.
Proof.
  intros Hs Hinv. destruct (conn_step_close_ok _ _ _ _ Hs Hinv) as (u & Hu & Hok).
  destruct (conn_step_effect _ _ _ _ Hs) as
    (t & t' & Hi & Hc & _ & _ & _ & Ep & Ef & _ & Ecc & _ & Ecf & _).
  apply Forall_lookup. intros j x. rewrite Hc in *. intros Hx.
  destruct (decide (j = i)) as [->|Hn]; [congruence|].
  rewrite list_lookup_insert_ne in Hx by done.
  apply close_ok_frame with r; [done|congruence| |by eapply (proj1 (Forall_lookup _ _) Hinv)].
  unfold close_due. by rewrite Ep, Ef.
Qed.

Lemma close_inv_frame (r r' : Runtime) :
  conns r' = conns r -> (forall t, close_ok r t -> close_ok r' t) -> close_inv r -> close_inv r'.
Proof. intros Ec Hok Hinv. unfold close_inv. rewrite Ec. eapply Forall_impl; [exact Hinv|done]. Qed.

Lemma shutdown_close (r r' : Runtime) : shutdown INSTANT_MAX r = Some r' -> close_inv r -> close_inv r'.
Proof.
  intros Hs Hinv. pose proof (shutdown_frame _ _ Hs) as (_ & Ec & _ & _ & _ & _ & _ & _ & Ef & _).
  eapply close_inv_frame; [exact Ec| |exact Hinv]. intros t Ht.
  unfold shutdown, stop in Hs. destruct (shutdown_pc r) as [|p dl|p dl f|p dl f|b dl|b dl|b dl|b] eqn:Ep;
    repeat case_match_hyp Hs; try discriminate Hs; injection Hs as <-.
  all: try (eapply close_ok_frame; [..|exact Ht]; try done; unfold close_due; simpl; rewrite Ep;
            intros [?|(?&?&?)]; [by left|done]).
  - eapply close_ok_due; [..|exact Ht]; [done|]. right. simpl. eauto.
  - eapply close_ok_notified; [..|exact Ht]. done.
Qed.

Lemma step_close a (r r' : Runtime) : step a r = Some r' -> close_inv r -> close_inv r'.
Proof.
  intros Hs Hinv. destruct a; simpl in Hs.
  - injection Hs as <-. destruct (serve_connection_frame alpn remote_id r) as
      (_ & _ & _ & Ecc & _ & _ & Ep & Ef & _ & Ecf & _).
    assert (exists t, conns (serve_connection alpn remote_id r) = conns r ++ [t] /\
      close_ok (serve_connection alpn remote_id r) t) as (t & Ec & Ht).
    { unfold ServeRuntime.serve_connection, validate_http_connection, serve_validated_entry.
      repeat case_match; (eexists; split; [reflexivity|done]). }
    unfold close_inv. rewrite Ec. apply Forall_app. split; [|by apply Forall_singleton].
    eapply Forall_impl; [exact Hinv|]. intros x Hx. eapply close_ok_frame; [..|exact Hx]; [done|congruence|].
    unfold close_due. by rewrite Ep, Ef.
  - by eapply conn_step_close.
  - apply req_step_frame in Hs as (_ & Ec & _ & _ & Ecc & Ep & Ef & _ & Ecf & _).
    eapply close_inv_frame; [exact Ec| |exact Hinv]. intros t. apply close_ok_frame; [done|congruence|].
    unfold close_due. by rewrite Ep, Ef.
  - by eapply shutdown_close.
  - injection Hs as <-. apply (close_inv_frame r); [done| |exact Hinv]. intros t.
    apply close_ok_due; [done|]. left. simpl. lia.
  - case_match; [done|]. injection Hs as <-. apply (close_inv_frame r); [done| |exact Hinv].
    intros t. by apply close_ok_notified.
  - injection Hs as <-. apply (close_inv_frame r); [done| |exact Hinv]. intros t. by apply close_ok_frame.
  - case_match; [|done]. injection Hs as <-. apply (close_inv_frame r); [done| |exact Hinv].
    intros t. by apply close_ok_frame.
  - injection Hs as <-. apply (close_inv_frame r); [done| |exact Hinv]. intros t. by apply close_ok_frame.
  - case_match; [|done]. injection Hs as <-. apply (close_inv_frame r); [done| |exact Hinv].
    intros t. by apply close_ok_frame.
  - case_match; [|done]. injection Hs as <-. apply (close_inv_frame r); [done| |exact Hinv].
    intros t. by apply close_ok_frame.
Qed.

(** ** No lost wake-up of [shutdown] *)

(** The task that dropped the last delivery has yet to notify. *)
Definition drain_due (r : Runtime) : Prop := exists q t, reqs r !! q = Some t /\ rq_pc t = RqNotify.

Definition drain_wait_inv (r : Runtime) : Prop :=
  match shutdown_pc r with
  | SdCheck WaitDeliveries _ f => nt_made f (drain_notify r)
  | SdSleep WaitDeliveries _ f =>
      nt_made f (drain_notify r) /\
      (deliveries r = 0%Z -> nt_fires f (drain_notify r) = true \/ drain_due r)
  | _ => True
  end.

Lemma drain_wait_frame (r r' : Runtime) :
  shutdown_pc r' = shutdown_pc r -> drain_notify r' = drain_notify r ->
  (deliveries r' = 0%Z -> deliveries r = 0%Z \/ drain_due r') -> (drain_due r -> drain_due r') ->
  drain_wait_inv r -> drain_wait_inv r'.
Proof.
  intros Ep En Hd Hdue. unfold drain_wait_inv. rewrite Ep, En.
  destruct (shutdown_pc r) as [| |[] ? f|[] ? f| | | |]; try done.
  intros [Hm Hw]. split; [done|]. intros E. destruct (Hd E) as [E0|]; [|by right]. destruct (Hw E0); auto.
Qed.

Lemma drain_due_app (r r' : Runtime) l : reqs r' = reqs r ++ l -> drain_due r -> drain_due r'.
Proof. intros E (q & t & Hq & Ht). exists q, t. rewrite E. split; [by apply lookup_app_l_Some|done]. Qed.

Lemma drain_due_abort (r r' : Runtime) qs : reqs r' = abort_all qs (reqs r) -> drain_due r -> drain_due r'.
Proof.
  intros E (q & t & Hq & Ht). unfold drain_due. rewrite E. unfold abort_all.
  eexists q, _. rewrite list_lookup_imap, Hq. simpl. split; [done|]. by case_bool_decide.
Qed.

Lemma req_step_drain_wait q env (r r' : Runtime) :
  req_step q env r = Some r' -> drain_wait_inv r -> drain_wait_inv r'.
Proof.
  intros Hs Hinv. pose proof (req_step_frame _ _ _ _ Hs) as (_ & _ & _ & _ & _ & Ep & _).
  unfold req_step, delivery_tracker_drop in Hs. destruct (reqs r !! q) as [t|] eqn:Eq; [|done].
  assert (forall x, rq_pc t <> RqNotify -> reqs r' = <[q := x]> (reqs r) -> drain_due r -> drain_due r') as Hdue.
  { intros x Hn E (q' & t' & Hq' & Ht'). exists q', t'. rewrite E, list_lookup_insert_ne; [done|congruence]. }
  assert (q < length (reqs r)) as Hlt by (by eapply lookup_lt_Some).
  destruct (rq_pc t) eqn:Epc; destruct env; try discriminate Hs; repeat case_match_hyp Hs;
    try discriminate Hs; injection Hs as <-.
  all: try (apply drain_wait_frame with r; [done|done| |by eapply Hdue|done]; simpl; bool_to_prop; auto; lia).
  - apply drain_wait_frame with r; [done|done| |by eapply Hdue|done]. intros _. right.
    exists q. eexists. simpl. split; [by apply list_lookup_insert_eq|done].
  - apply drain_wait_frame with r; [done|done| |by eapply Hdue|done]. intros _. right.
    exists q. eexists. simpl. split; [by apply list_lookup_insert_eq|done].
  - unfold drain_wait_inv in *; simpl in *. destruct (shutdown_pc r) as [| |[] ? f|[] ? f| | | |]; try done.
    + by apply nt_made_later.
    + destruct Hinv as [Hm _]. split; [by apply nt_made_later|]. left. by apply nt_fires_after.
Qed.

Lemma shutdown_drain_wait (r r' : Runtime) :
  shutdown INSTANT_MAX r = Some r' -> drain_wait_inv r -> drain_wait_inv r'.
Proof.
  intros Hs Hinv. unfold drain_wait_inv in Hinv. unfold shutdown, wait_for_zero_until, wait_return, stop in Hs.
  destruct (shutdown_pc r) as [|[] dl|[] dl f|[] dl f|b dl|b dl|b dl|b] eqn:Ep; try discriminate Hs;
    repeat case_match_hyp Hs; try discriminate Hs; injection Hs as <-; unfold drain_wait_inv; simpl;
    try done; [apply nt_made_now|]. split; [done|]. intros E. simpl in *. bool_to_prop. done.
Qed.

Lemma step_drain_wait a (r r' : Runtime) :
  req_inv r -> step a r = Some r' -> drain_wait_inv r -> drain_wait_inv r'.
Proof.
  intros Hri Hs Hinv. destruct a; simpl in Hs.
  - injection Hs as <-. destruct (serve_connection_frame alpn remote_id r) as
      (E1 & _ & E3 & _ & En & _ & Ep & _).
    apply drain_wait_frame with r; try done; [rewrite E3; by left|].
    apply drain_due_app with []. by rewrite E1, app_nil_r.
  - destruct (conn_step_effect _ _ _ _ Hs) as (t & t' & _ & _ & _ & _ & _ & Ep & _ & En & _).
    assert (0 <= deliveries r)%Z as H0d.
    { rewrite (ri_deliveries _ Hri). apply zsum_nonneg, del_holds_nonneg. }
    destruct (conn_step_reqs _ _ _ _ Hs) as [E0 [(E1&_&E3)|[(_&E1&_&E3)|(qs&E1&_&E3)]]];
      apply drain_wait_frame with r; try done; try (intros; left; lia).
    + apply drain_due_app with []. by rewrite E1, app_nil_r.
    + by eapply drain_due_app.
    + by eapply drain_due_abort.
  - by eapply req_step_drain_wait.
  - by eapply shutdown_drain_wait.
  - injection Hs as <-. apply drain_wait_frame with r; auto.
  - case_match; [done|]. injection Hs as <-. apply drain_wait_frame with r; auto.
  - injection Hs as <-. apply drain_wait_frame with r; auto.
  - case_match; [|done]. injection Hs as <-. apply drain_wait_frame with r; auto.
  - injection Hs as <-. apply drain_wait_frame with r; auto.
  - case_match; [|done]. injection Hs as <-. apply drain_wait_frame with r; auto.
  - case_match; [|done]. injection Hs as <-. apply drain_wait_frame with r; auto.
Qed.

(** The same for the wait on the connections.  It holds as long as no other
    cycle of the endpoint releases a connection. *)
Definition release_due (r : Runtime) : Prop :=
  exists i t d x, conns r !! i = Some t /\ ct_pc t = CReleased d x.

Definition conn_wait_inv (r : Runtime) : Prop :=
  match shutdown_pc r with
  | SdCheck (WaitConnections _) _ f => nt_made f (released (admission r))
  | SdSleep (WaitConnections _) _ f =>
      nt_made f (released (admission r)) /\
      (total (admission r) = 0%Z -> nt_fires f (released (admission r)) = true \/ release_due r)
  | _ => True
  end.

Lemma conn_wait_frame (r r' : Runtime) :
  shutdown_pc r' = shutdown_pc r -> released (admission r') = released (admission r) ->
  (total (admission r') = 0%Z -> total (admission r) = 0%Z \/ release_due r') ->
  (release_due r -> release_due r') -> conn_wait_inv r -> conn_wait_inv r'.
Proof.
  intros Ep En Hd Hdue. unfold conn_wait_inv. rewrite Ep, En.
  destruct (shutdown_pc r) as [| |[] ? f|[] ? f| | | |]; try done.
  intros [Hm Hw]. split; [done|]. intros E. destruct (Hd E) as [E0|]; [|by right]. destruct (Hw E0); auto.
Qed.

Lemma release_due_insert i (t t' : ConnTask) (r r' : Runtime) :
  conns r !! i = Some t -> (forall d x, ct_pc t <> CReleased d x) ->
  conns r' = <[i := t']> (conns r) -> release_due r -> release_due r'.
Proof.
  intros Hi Hn E (j & u & d & x & Hj & Hu). exists j, u, d, x. rewrite E, list_lookup_insert_ne; [done|].
  intros ->. rewrite Hi in Hj. injection Hj as ->. by eapply Hn.
Qed.

Lemma conn_step_conn_wait i env (r r' : Runtime) :
  conn_step i env r = Some r' -> conn_wait_inv r -> conn_wait_inv r'.
Proof.
  intros Hs Hinv.
  destruct (conn_step_effect _ _ _ _ Hs) as (t & t' & Hi & Hc & _ & _ & _ & Ep & _).
  assert (i < length (conns r)) as Hlt by (by eapply lookup_lt_Some).
  unfold ServeRuntime.conn_step in Hs. rewrite Hi in Hs.
  destruct (ct_pc t) eqn:Epc; destruct env; try discriminate Hs; unfold try_admit in Hs;
    repeat case_match_hyp Hs; try discriminate Hs; injection Hs as <-.
  all: try (apply conn_wait_frame with r; [done| | | |done]; [| |by eapply release_due_insert; [done|congruence|]];
            simpl; rewrite ?(proj2 (proj2 (proj2 (proj2 (proj2 (fire_static _ _ _)))))),
              ?(proj1 (proj2 (fire_static _ _ _))); auto; fail).
  - (* release *)
    match goal with E : release_locked _ _ = _ |- _ =>
      pose proof (release_locked_static (ct_peer t) (admission r)) as (_ & _ & _ & Er & _); rewrite E in Er end.
    apply conn_wait_frame with r; [done|done| |by eapply release_due_insert; [done|congruence|]|done].
    intros _. right. eexists i, _, _, _. simpl. split; [by apply list_lookup_insert_eq|done].
  - (* wake-up *)
    unfold conn_wait_inv in *; simpl in *. destruct (shutdown_pc r) as [| |[] ? f|[] ? f| | | |]; try done.
    + by apply nt_made_later.
    + destruct Hinv as [Hm _]. split; [by apply nt_made_later|]. left. by apply nt_fires_after.
Qed.

Lemma shutdown_conn_wait (r r' : Runtime) :
  shutdown INSTANT_MAX r = Some r' -> conn_wait_inv r -> conn_wait_inv r'.
Proof.
  intros Hs Hinv. unfold conn_wait_inv in Hinv. unfold shutdown, wait_for_zero_until, wait_return, stop in Hs.
  destruct (shutdown_pc r) as [|[] dl|[] dl f|[] dl f|b dl|b dl|b dl|b] eqn:Ep; try discriminate Hs;
    repeat case_match_hyp Hs; try discriminate Hs; injection Hs as <-; unfold conn_wait_inv; simpl;
    try done; [apply nt_made_now|]. split; [done|]. intros E. simpl in *. bool_to_prop. done.
Qed.

Lemma serve_connection_total alpn p (r : Runtime) :
  (total (admission r) <= total (admission (serve_connection alpn p r)))%Z /\
  exists t, conns (serve_connection alpn p r) = conns r ++ [t].
Proof.
  unfold ServeRuntime.serve_connection, validate_http_connection, serve_validated_entry, acquire_locked.
  repeat case_match; simplify_eq/=; (split; [lia|eauto]).
Qed.

Lemma step_conn_wait a (r r' : Runtime) :
  adm_inv r -> a <> AForeignDown -> step a r = Some r' -> conn_wait_inv r -> conn_wait_inv r'.
Proof.
  intros Hadm Hown Hs Hinv.
  assert (0 <= total (admission r))%Z as H0t.
  { rewrite (ai_total _ Hadm). pose proof (ai_foreign _ Hadm).
    pose proof (zsum_nonneg holds (conns r) holds_nonneg). unfold conns_total. lia. }
  destruct a; simpl in Hs; try done.
  - injection Hs as <-. destruct (serve_connection_frame alpn remote_id r) as
      (_ & _ & _ & _ & _ & En & Ep & _).
    destruct (serve_connection_total alpn remote_id r) as [Ht [t Hc]].
    apply conn_wait_frame with r; try done; [left; lia|].
    intros (i & u & d & x & Hi & Hu). exists i, u, d, x. rewrite Hc. split; [by apply lookup_app_l_Some|done].
  - by eapply conn_step_conn_wait.
  - apply req_step_frame in Hs as (Ea & Ec & _ & _ & _ & Ep & _).
    apply conn_wait_frame with r; rewrite ?Ea; auto. unfold release_due. by rewrite Ec.
  - by eapply shutdown_conn_wait.
  - injection Hs as <-. apply conn_wait_frame with r; auto.
  - case_match; [done|]. injection Hs as <-. apply conn_wait_frame with r; auto.
  - injection Hs as <-. apply conn_wait_frame with r; auto. simpl. left. lia.
  - injection Hs as <-. apply conn_wait_frame with r; auto.
  - case_match; [|done]. injection Hs as <-. apply conn_wait_frame with r; auto.
  - case_match; [|done]. injection Hs as <-. apply conn_wait_frame with r; auto.
Qed.

(** ** Reachable states *)

Record rt_inv (r : Runtime) : Prop := {
  rt_adm : adm_inv r;
  rt_req : req_inv r;
  rt_drain : drain_inv r;
  rt_close : close_inv r;
  rt_drain_wait : drain_wait_inv r
}.

Lemma step_inv a (r r' : Runtime) : step a r = Some r' -> rt_inv r -> rt_inv r'.
Proof.
  intros Hs []. split; eauto using step_adm, step_req, step_drain_inv, step_close, step_drain_wait.
Qed.

Lemma fresh_inv MP o rq tot cb (r : Runtime) :
  (MP < USIZE_MAX)%Z -> unsigned_options o -> (0 <= tot)%Z ->
  with_runtime_state MP o rq tot cb = Ok r -> rt_inv r.
Proof.
  intros HMP Hu Ht Hr. unfold with_runtime_state in Hr.
  pose proof (validate_valid MP o Hu) as Hv. destruct (validate MP o); [|done].
  destruct (proj1 Hv eq_refl) as (Hpp & Hmt & _). injection Hr as <-. split.
  - split; unfold conns_of, conns_total, count_entry; simpl; try done; try lia.
  - split; simpl; lia.
  - by split.
  - apply Forall_nil_2.
  - done.
Qed.

(** What other cycles hold is never negative. *)
Lemma step_foreign_requests a (r r' : Runtime) : step a r = Some r' -> (0 <= foreign_requests r -> 0 <= foreign_requests r')%Z.
Proof.
  intros Hs. destruct a; simpl in Hs; try (by injection Hs as <-).
  - injection Hs as <-. by destruct (serve_connection_frame alpn remote_id r) as (_ & _ & _ & _ & _ & _ & _ & _ & _ & _ & _ & _ & ->).
  - by destruct (conn_step_reqs _ _ _ _ Hs) as [-> _].
  - by destruct (req_step_frame _ _ _ _ Hs) as (_ & _ & _ & _ & _ & _ & _ & _ & _ & _ & _ & _ & ->).
  - by destruct (shutdown_frame _ _ Hs) as (_ & _ & _ & _ & _ & _ & _ & _ & _ & _ & ->).
  - case_match; [done|]. by injection Hs as <-.
  - case_match; [|done]. by injection Hs as <-.
  - injection Hs as <-. simpl. lia.
  - case_match; [|done]. injection Hs as <-. bool_to_prop. simpl. lia.
  - case_match; [|done]. by injection Hs as <-.
Qed.

Lemma reachable_rt_inv (r0 r : Runtime) : rt_inv r0 -> rtc rt_step r0 r -> rt_inv r.
Proof. intros H0' Hr. eapply rtc_invariant; [|done|done]. intros x y [a Ha]. by apply step_inv with a. Qed.
End facts.
