(* ===== verification/ServeRuntimeProps.v ===== *)
(** * Properties of the serve runtime

    The theorems about [ServeRuntime] and concrete runs that meet their
    hypotheses. *)

From stdpp Require Import base numbers list strings gmap fin_maps relations pretty.
From Stdlib Require Import ZArith Lia.
From S2P Require Import Prelude Extern ServeOptions Admission ServeRuntime ServeRuntimeFacts.

Open Scope string_scope.
Open Scope list_scope.

Section props.
Context {Key N F : Type} `{Countable Key} `{Notify N F} `{!NotifyLaws N F}.
Context (node_id : Key -> string) (ALPN : string) (INSTANT_MAX : Z) `{!Inj (=) (=) node_id}.

Abbreviation Runtime := (Runtime Key N F).
Abbreviation step := (step node_id ALPN INSTANT_MAX).
Abbreviation rt_step := (rt_step node_id ALPN INSTANT_MAX).
Abbreviation run := (run node_id ALPN INSTANT_MAX).

(** ** The limits never change *)

Definition limits (r : Runtime) : ConnectionServeOptions * Z * Z * bool :=
  (options r, max_per_peer (admission r), max_total (admission r), on_event (admission r)).

Lemma limits_acquire p (r : Runtime) : limits (serve_validated_entry p r) = limits r.
Proof.
  unfold serve_validated_entry. destruct (acquire_locked_static p (admission r)) as (E1 & E2 & E3 & _).
  destruct (acquire_locked p (admission r)) as [[|[]] a]; unfold limits; simpl in *; congruence.
Qed.

Lemma step_limits a (r r' : Runtime) : step a r = Some r' -> limits r' = limits r.
Proof.
  intros Hs. destruct a; simpl in Hs.
  - injection Hs as <-. unfold serve_connection, validate_http_connection.
    case_bool_decide; [done|apply limits_acquire].
  - destruct (conn_step_effect _ _ _ _ _ Hs) as (t & t' & _ & _ & _ & Eo & _ & _ & _ & _ & _ & _ & _ & _ & _ & Hf).
    unfold limits. rewrite Eo. destruct Hf as [Ea _ _|b Ea _ _|d Ea _ _ _ _|Ea _ _].
    + by rewrite Ea.
    + destruct (fire_static (node_id (ct_peer t)) b (admission r)) as (_ & _ & E3 & E4 & E5 & _).
      rewrite Ea. congruence.
    + destruct (release_locked_static (ct_peer t) (admission r)) as (E3 & E4 & E5 & _).
      rewrite Ea in *. simpl in *. congruence.
    + by rewrite Ea.
  - apply req_step_frame in Hs as (Ea & _ & _ & Eo & _). unfold limits. by rewrite Ea, Eo.
  - apply shutdown_frame in Hs as (Ea & _ & _ & Eo & _). unfold limits. by rewrite Ea, Eo.
  - by injection Hs as <-.
  - case_match; [done|]. by injection Hs as <-.
  - by injection Hs as <-.
  - case_match; [|done]. by injection Hs as <-.
  - by injection Hs as <-.
  - case_match; [|done]. by injection Hs as <-.
  - case_match; [|done]. by injection Hs as <-.
Qed.

Lemma reachable_limits (r r' : Runtime) : rtc rt_step r r' -> limits r' = limits r.
Proof.
  intros Hr. induction Hr as [|x y z [a Ha] _ IH]; [done|]. rewrite IH. by eapply step_limits.
Qed.

Lemma fresh_limits MP o rq tot cb (r : Runtime) :
  with_runtime_state MP o rq tot cb = Ok r ->
  limits r = (o, max_connections_per_peer o, max_total_connections o, cb).
Proof. unfold with_runtime_state. destruct (validate MP o); [|done]. by intros [= <-]. Qed.

Lemma fresh_reachable MP o rq tot cb (r0 r : Runtime) :
  (MP < USIZE_MAX)%Z -> unsigned_options o -> (0 <= tot)%Z ->
  with_runtime_state MP o rq tot cb = Ok r0 -> rtc rt_step r0 r -> rt_inv node_id r.
Proof.
  intros HMP Hu Ht Hr0 Hr. apply (reachable_rt_inv node_id ALPN INSTANT_MAX r0 r); [|done].
  by apply (fresh_inv node_id MP o rq tot cb).
Qed.

(** ** Theorems *)





(** Connection events balance: in every reachable state of a runtime with a
    callback, the connect events of a peer minus its disconnect events, the
    calls that are due included, is one while the peer has a live connection and
    zero otherwise. *)
Theorem connection_events_balance MP o rq tot (r0 r : Runtime) p :
  (MP < USIZE_MAX)%Z -> unsigned_options o -> (0 <= tot)%Z ->
  with_runtime_state MP o rq tot true = Ok r0 -> rtc rt_step r0 r ->
  (zsum (event_value node_id p) (fired (admission r)) + zsum (due p) (conns r))%Z =
  if (conns_of p r =? 0)%Z then 0%Z else 1%Z.
Proof.
  intros HMP Hu Ht Hr0 Hr. pose proof (reachable_limits _ _ Hr) as Hl.
  rewrite (fresh_limits _ _ _ _ _ _ Hr0) in Hl. injection Hl as _ _ _ Hon.
  destruct (fresh_reachable _ _ _ _ _ _ _ HMP Hu Ht Hr0 Hr) as [[] _ _ _ _]. auto.
Qed.

Lemma steps_stopped (r r' : Runtime) :
  rt_inv node_id r -> rtc rt_step r r' -> stopped r = true ->
  stopped r' = true /\ length (reqs r') = length (reqs r) /\ (0 <= deliveries r' <= deliveries r)%Z.
Proof.
  intros Hinv Hr Hst. revert Hinv Hst. induction Hr as [r|x y z [a Ha] _ IH]; intros Hinv Hst.
  - split_and!; try done. rewrite (ri_deliveries _ (rt_req _ _ Hinv)). apply zsum_nonneg, del_holds_nonneg.
  - pose proof (stopped_step _ _ _ _ _ _ (rt_req _ _ Hinv) Ha Hst) as (S1 & S2 & S3).
    destruct (IH (step_inv _ _ _ _ _ _ Ha Hinv) S1) as (T1 & T2 & T3). split_and!; [done|congruence|lia|lia].
Qed.

(** C8. Graceful shutdown cuts no response: once the runtime has recorded that
    it drained, then and in every later state no request is admitted any more,
    the delivery counter is zero and every request task ever admitted has given
    up its delivery slot. *)
Theorem drained_shutdown_cuts_no_response MP o rq tot cb (r0 r r' : Runtime) :
  (MP < USIZE_MAX)%Z -> unsigned_options o -> (0 <= tot)%Z ->
  with_runtime_state MP o rq tot cb = Ok r0 -> rtc rt_step r0 r -> drained r = true ->
  rtc rt_step r r' ->
  length (reqs r') = length (reqs r) /\ deliveries r' = 0%Z /\
  forall q t, reqs r' !! q = Some t -> rq_pc t = RqNotify \/ rq_pc t = RqDone.
Proof.
  intros HMP Hu Ht Hr0 Hr Hd Hr'.
  pose proof (fresh_reachable _ _ _ _ _ _ _ HMP Hu Ht Hr0 Hr) as Hinv.
  pose proof (reachable_rt_inv _ _ _ _ _ Hinv Hr') as Hinv'.
  pose proof (rt_drain _ _ Hinv) as [D1 D2 _ D3 _].
  destruct (steps_stopped _ _ Hinv Hr' (D1 (D3 Hd))) as (_ & Hl & Hd').
  assert (deliveries r' = 0)%Z as H0d by (specialize (D2 Hd); lia).
  split_and!; [done|done|]. intros q t Hq.
  pose proof (zsum_zero del_holds (reqs r') del_holds_nonneg) as Hz.
  rewrite <- (ri_deliveries _ (rt_req _ _ Hinv')) in Hz. specialize (Hz H0d q t Hq).
  unfold del_holds in Hz. destruct (rq_pc t); auto; lia.
Qed.

(** The close signal is never lost: in every reachable state where
    [close_flag] is set and whoever set it has notified, each connection task
    parked in its select or waiting for the close is runnable, and within three
    of its own sections leaves the accept loop with its connection closed. *)
Theorem close_signal_not_lost MP o rq tot cb (r0 r : Runtime) i t :
  (MP < USIZE_MAX)%Z -> unsigned_options o -> (0 <= tot)%Z ->
  with_runtime_state MP o rq tot cb = Ok r0 -> rtc rt_step r0 r ->
  close_flag r = true -> ~ close_due r -> conns r !! i = Some t ->
  (exists f idle_at, ct_pc t = CAwaitClose f \/ ct_pc t = CSelect f idle_at) ->
  exists r' t', run [AConn i EnvRun; AConn i EnvRun; AConn i EnvRun] r = Some r' /\
    conns r' !! i = Some t' /\ ct_pc t' = CBroken /\ is_Some (ct_close t').
Proof.
  intros HMP Hu Ht Hr0 Hr Hcf Hnd Hi (f & idle & Hpc).
  pose proof (fresh_reachable _ _ _ _ _ _ _ HMP Hu Ht Hr0 Hr) as Hinv.
  pose proof (proj1 (Forall_lookup _ _) (rt_close _ _ Hinv) i t Hi) as Hok. unfold close_ok in Hok.
  assert (nt_fires f (close_connections r) = true) as Hf.
  { destruct Hpc as [E|E]; rewrite E in Hok; destruct Hok as [_ Hw]; by destruct (Hw Hcf). }
  assert (i < length (conns r)) as Hlt by (by eapply lookup_lt_Some).
  assert (conn_step node_id i EnvRun r = Some (put_conn i (set_pc CTop t) r)) as H1.
  { unfold conn_step. rewrite Hi. destruct Hpc as [E|E]; rewrite E, Hf; done. }
  cbn [ServeRuntime.run ServeRuntime.step]. rewrite H1. unfold conn_step at 1. simpl.
  rewrite list_lookup_insert_eq by done. simpl. unfold conn_step; simpl.
  rewrite list_lookup_insert_eq by (by rewrite length_insert). simpl. rewrite Hcf.
  eexists _, _. split; [done|]. simpl. rewrite list_lookup_insert_eq by (by rewrite !length_insert).
  split_and!; [done|done|]. simpl. destruct (ct_close t); eauto.
Qed.

(** The deadline of a running shutdown. *)
Definition pc_deadline (pc : ShutdownPc F) : option Z :=
  match pc with
  | SdLoop _ dl | SdCheck _ dl _ | SdSleep _ dl _ | SdDrained _ dl | SdStored _ dl | SdFlagged _ dl => Some dl
  | SdIdle | SdDone _ => None
  end.

(** How many of its sections are left to a shutdown whose deadline has passed. *)
Definition sections_left (pc : ShutdownPc F) : nat :=
  match pc with
  | SdSleep WaitDeliveries _ _ => 8
  | SdLoop WaitDeliveries _ => 7
  | SdCheck WaitDeliveries _ _ => 6
  | SdDrained _ _ => 5
  | SdStored _ _ => 4
  | SdFlagged _ _ | SdSleep (WaitConnections _) _ _ => 3
  | SdLoop (WaitConnections _) _ => 2
  | SdCheck (WaitConnections _) _ _ => 1
  | SdIdle | SdDone _ => 0
  end.

(** The sections of [shutdown] in a run. *)
Fixpoint shutdown_sections (l : list (Act (Key := Key))) : nat :=
  match l with
  | [] => 0
  | AShutdown :: l => S (shutdown_sections l)
  | _ :: l => shutdown_sections l
  end.

(** Its deadline has passed, or it has returned. *)
Definition overdue (r : Runtime) : Prop :=
  (exists b, shutdown_pc r = SdDone b) \/ exists dl, pc_deadline (shutdown_pc r) = Some dl /\ (dl <= now r)%Z.

Lemma overdue_section dl (r : Runtime) :
  pc_deadline (shutdown_pc r) = Some dl -> (dl <= now r)%Z ->
  exists r', step AShutdown r = Some r' /\ overdue r' /\ S (sections_left (shutdown_pc r')) = sections_left (shutdown_pc r).
Proof.
  intros Hdl Hnow. assert (sat_sub dl (now r) = 0)%Z as Hs0 by (unfold sat_sub; lia).
  unfold overdue. simpl. unfold shutdown.
  destruct (shutdown_pc r) as [|[] d|[] d f|[] d f|b d|b d|b d|b] eqn:E; try done; injection Hdl as ->; simpl;
    try (eexists; split_and!; [reflexivity|right; exists dl; by split_and!|reflexivity]).
  1, 2: rewrite Hs0; destruct (_ =? 0)%Z; simpl; eexists; (split_and!; [reflexivity| |reflexivity]);
    first [by left; eexists|right; exists dl; by split_and!].
  all: rewrite (proj2 (Z.leb_le dl (now r)) Hnow), orb_true_r; eexists; (split_and!; [reflexivity| |reflexivity]);
    right; exists dl; by split_and!.
Qed.

(** The sections of other tasks leave it where it is. *)
Lemma other_section a (r r' : Runtime) :
  step a r = Some r' -> a <> AShutdown -> shutdown_pc r' = shutdown_pc r /\ (now r <= now r')%Z.
Proof.
  intros Hs Ha. destruct a; simpl in Hs; try done; try (by injection Hs as <-; simpl; split; [|lia]);
    try (case_match; try done; injection Hs as <-; bool_to_prop; simpl; split; [done|lia]).
  - injection Hs as <-. unfold serve_connection, validate_http_connection, serve_validated_entry.
    repeat case_match; simpl; split; (done || lia).
  - unfold conn_step, try_admit in Hs. repeat case_match_hyp Hs; try discriminate Hs; injection Hs as <-; simpl; split; (done || lia).
  - apply req_step_frame in Hs as (_ & _ & _ & _ & _ & -> & _ & _ & _ & _ & -> & _). split; [done|lia].
Qed.

Lemma overdue_step a (r r' : Runtime) :
  overdue r -> step a r = Some r' ->
  overdue r' /\ shutdown_sections [a] + sections_left (shutdown_pc r') = sections_left (shutdown_pc r).
Proof.
  intros Ho Hs. assert (a = AShutdown \/ a <> AShutdown) as [->|Ha] by (destruct a; (by left) || by right).
  - destruct Ho as [[b E]|(dl & Hdl & Hnow)]; [simpl in Hs; unfold shutdown in Hs; by rewrite E in Hs|].
    destruct (overdue_section dl r Hdl Hnow) as (r1 & E & Ho & Hm). rewrite E in Hs. by injection Hs as ->.
  - destruct (other_section _ _ _ Hs Ha) as [E Hn]. split.
    + destruct Ho as [[b Eb]|(dl & Hdl & Hnow)]; [left; exists b; congruence|]. right. exists dl. rewrite E. split; [done|lia].
    + rewrite E. by destruct a.
Qed.

Lemma overdue_run l (r r' : Runtime) :
  overdue r -> run l r = Some r' ->
  overdue r' /\ shutdown_sections l + sections_left (shutdown_pc r') = sections_left (shutdown_pc r).
Proof.
  revert r. induction l as [|a l IH]; simpl; intros r Ho Hr; [by injection Hr as ->|].
  destruct (step a r) as [r1|] eqn:E; [|done]. destruct (overdue_step _ _ _ Ho E) as [Ho1 E1].
  destruct (IH _ Ho1 Hr) as [? E2]. split; [done|]. destruct a; simpl in E1; lia.
Qed.

Lemma overdue_finishes (r : Runtime) : overdue r ->
  exists b r', run (replicate (sections_left (shutdown_pc r)) AShutdown) r = Some r' /\ shutdown_pc r' = SdDone b.
Proof.
  remember (sections_left (shutdown_pc r)) as n eqn:En. revert r En. induction n as [|n IH]; intros r En Ho.
  - destruct Ho as [[b E]|(dl & Hdl & _)]; [by exists b, r|]. by destruct (shutdown_pc r) as [|[]|[]|[]| | | |].
  - destruct Ho as [[b E]|(dl & Hdl & Hnow)]; [by rewrite E in En|].
    destruct (overdue_section dl r Hdl Hnow) as (r1 & E & Ho & Hm).
    destruct (IH r1) as (b & r' & Hr & Hb); [lia|done|]. exists b, r'. cbn [replicate ServeRuntime.run]. by rewrite E.
Qed.

(** C40. [shutdown] terminates: once its deadline has passed it returns after at
    most eight of its own sections, however the sections of all other tasks are
    interleaved with them, and never waits for one of those.  After every run
    [l] of the runtime it has either returned or can take its next section, it
    has taken at most eight, and what is left of the eight is enough to return. *)
Theorem shutdown_returns_by_deadline (r r' : Runtime) dl l :
  pc_deadline (shutdown_pc r) = Some dl -> (dl <= now r)%Z -> run l r = Some r' ->
  ((exists b, shutdown_pc r' = SdDone b) \/ is_Some (step AShutdown r')) /\
  exists n b r'', shutdown_sections l + n <= 8 /\ run (replicate n AShutdown) r' = Some r'' /\ shutdown_pc r'' = SdDone b.
Proof.
  intros Hdl Hnow Hr. destruct (overdue_run l r r') as [Ho Hm]; [right; eauto|done|]. split.
  - destruct Ho as [|(dl' & Hdl' & Hnow')]; [by left|]. destruct (overdue_section dl' r' Hdl' Hnow') as (? & -> & _). right. eauto.
  - destruct (overdue_finishes r' Ho) as (b & r'' & Hr' & Hb). exists (sections_left (shutdown_pc r')), b, r''.
    split; [|done]. rewrite Hm. destruct (shutdown_pc r) as [|[]|[]|[]| | | |]; simpl; lia.
Qed.

(** [shutdown] does not sleep through the end of the drain: in every
    reachable state where no delivery is outstanding and the task that dropped
    the last one has notified, a shutdown waiting for deliveries can go on
    before its deadline. *)
Theorem drain_wakeup_not_lost MP o rq tot cb (r0 r : Runtime) :
  (MP < USIZE_MAX)%Z -> unsigned_options o -> (0 <= tot)%Z ->
  with_runtime_state MP o rq tot cb = Ok r0 -> rtc rt_step r0 r ->
  deliveries r = 0%Z -> ~ drain_due r ->
  (exists dl f, shutdown_pc r = SdSleep WaitDeliveries dl f) ->
  is_Some (step AShutdown r).
Proof.
  intros HMP Hu Ht Hr0 Hr Hd Hn (dl & f & E).
  pose proof (fresh_reachable _ _ _ _ _ _ _ HMP Hu Ht Hr0 Hr) as Hinv.
  pose proof (rt_drain_wait _ _ Hinv) as Hw. unfold drain_wait_inv in Hw. rewrite E in Hw.
  destruct Hw as [_ Hw]. destruct (Hw Hd) as [Hf|]; [|done].
  simpl. unfold shutdown. rewrite E. simpl. rewrite Hf. eauto.
Qed.

(** A connection that belongs to another serve cycle of the endpoint keeps
    this cycle's shutdown from succeeding: as long as one exists, the second
    wait of [shutdown] sleeps until the deadline and the result is [false], even
    when every connection this runtime admitted has ended. *)
Theorem other_cycle_blocks_shutdown MP o rq tot cb (r0 r : Runtime) b dl f :
  (MP < USIZE_MAX)%Z -> unsigned_options o -> (0 <= tot)%Z ->
  with_runtime_state MP o rq tot cb = Ok r0 -> rtc rt_step r0 r ->
  (0 < foreign r)%Z -> shutdown_pc r = SdCheck (WaitConnections b) dl f ->
  exists r', step AShutdown r = Some r' /\
    shutdown_pc r' = if (dl <=? now r)%Z then SdDone false else SdSleep (WaitConnections b) dl f.
Proof.
  intros HMP Hu Ht Hr0 Hr Hf E.
  destruct (fresh_reachable _ _ _ _ _ _ _ HMP Hu Ht Hr0 Hr) as [[] _ _ _ _].
  assert (0 <= conns_total r)%Z by (apply zsum_nonneg, holds_nonneg).
  simpl. unfold shutdown. rewrite E. simpl.
  destruct (total (admission r) =? 0)%Z eqn:E0; [zify_bool|].
  unfold sat_sub. destruct (dl <=? now r)%Z eqn:E1; destruct (Z.max (dl - now r) 0 =? 0)%Z eqn:E2;
    try zify_bool; eexists; (split; [reflexivity|]); simpl; [|done]. by rewrite andb_false_r.
Qed.
End props.

(** ** Concrete runs *)

Definition demo_id (n : nat) : string := pretty n.
Definition demo_max_permits : Z := 2305843009213693951.
Abbreviation DemoRuntime := (Runtime nat nat nat).
Abbreviation demo_run := (run demo_id "h" 1000000).

Definition demo_fresh (tot : Z) : Result DemoRuntime ConnectionServeError :=
  with_runtime_state demo_max_permits ConnectionServeOptions_default 0 tot true.
Definition demo_get {E} (d : DemoRuntime) (x : Result DemoRuntime E) : DemoRuntime :=
  match x with Ok r => r | Err _ => d end.
Definition demo_blank : DemoRuntime :=
  mkRuntime ConnectionServeOptions_default (admission_new 1 1 0 true) 0 0 0 0 false false false SdIdle 0 0 0 0 [] [].
Definition demo_r0 (tot : Z) : DemoRuntime := demo_get demo_blank (demo_fresh tot).
Definition demo_at (tot : Z) (l : list Act) : DemoRuntime := default demo_blank (demo_run l (demo_r0 tot)).

Lemma default_unsigned : unsigned_options ConnectionServeOptions_default.
Proof.
  unfold unsigned_options. split_and!; try (vm_compute; congruence).
  intros t [E|[E|E]]; vm_compute in E; try discriminate E; injection E as <-; lia.
Qed.

(** Peer 7 connects and parks in the select; *)
Definition demo_connect : list (Act (Key := nat)) :=
  [AConnection "h" 7; AConn 0 EnvRun; AConn 0 EnvRun; AConn 0 EnvRun; AConn 0 EnvRun].
(** it opens a stream, which is served and acknowledged; *)
Definition demo_request : list (Act (Key := nat)) := demo_connect ++
  [AConn 0 EnvStream; AConn 0 EnvRun; AConn 0 EnvRun; AConn 0 EnvRun; AConn 0 EnvRun].
(** shutdown starts and sleeps on the delivery; *)
Definition demo_sleeping : list (Act (Key := nat)) := demo_request ++ [AShutdown; AShutdown; AShutdown].
(** the delivery completes; *)
Definition demo_delivered : list (Act (Key := nat)) :=
  demo_sleeping ++ [AReq 0 ReqServed; AReq 0 ReqAcked; AReq 0 ReqRun].
(** shutdown sets the flag and notifies. *)
Definition demo_closing : list (Act (Key := nat)) :=
  demo_delivered ++ [AShutdown; AShutdown; AShutdown; AShutdown; AShutdown; AShutdown].

Lemma demo_reachable tot l :
  match demo_run l (demo_r0 tot) with Some _ => true | None => false end = true ->
  rtc (rt_step demo_id "h" 1000000) (demo_r0 tot) (demo_at tot l).
Proof.
  unfold demo_at. destruct (demo_run l (demo_r0 tot)) as [r|] eqn:E; [|done]. intros _.
  by apply (run_rtc _ _ _ l).
Qed.

#[local] Instance demo_id_inj : Inj (=) (=) demo_id.
Proof. unfold demo_id. apply _. Qed.


Lemma connection_events_balance_witness :
  zsum (event_value demo_id 7) (fired (admission (demo_at 0 demo_request))) = 1%Z.
Proof.
  pose proof (connection_events_balance demo_id "h" 1000000 demo_max_permits ConnectionServeOptions_default
    0 0 (demo_r0 0) (demo_at 0 demo_request) 7) as Hb.
  assert (zsum (due 7) (conns (demo_at 0 demo_request)) = 0%Z) as Hz by (vm_compute; reflexivity).
  rewrite Hz, Z.add_0_r in Hb. rewrite Hb.
  - vm_compute. reflexivity.
  - reflexivity.
  - apply default_unsigned.
  - lia.
  - vm_compute. reflexivity.
  - apply demo_reachable. vm_compute. reflexivity.
Defined.

Lemma drained_shutdown_witness : deliveries (demo_at 0 demo_closing) = 0%Z.
Proof.
  destruct (drained_shutdown_cuts_no_response demo_id "h" 1000000 demo_max_permits
    ConnectionServeOptions_default 0 0 true (demo_r0 0) (demo_at 0 demo_closing) (demo_at 0 demo_closing))
    as (_ & Hd & _).
  - reflexivity.
  - apply default_unsigned.
  - lia.
  - vm_compute. reflexivity.
  - apply demo_reachable. vm_compute. reflexivity.
  - vm_compute. reflexivity.
  - apply rtc_refl.
  - exact Hd.
Defined.

Lemma close_signal_witness :
  exists r' t', demo_run [AConn 0 EnvRun; AConn 0 EnvRun; AConn 0 EnvRun] (demo_at 0 demo_closing) = Some r' /\
    conns r' !! 0 = Some t' /\ ct_pc t' = CBroken /\ is_Some (ct_close t').
Proof.
  eapply (close_signal_not_lost demo_id "h" 1000000 demo_max_permits ConnectionServeOptions_default 0 0 true
    (demo_r0 0) (demo_at 0 demo_closing)).
  - reflexivity.
  - apply default_unsigned.
  - lia.
  - vm_compute. reflexivity.
  - apply demo_reachable. vm_compute. reflexivity.
  - vm_compute. reflexivity.
  - intros [Hf|(b & dl & Hs)].
    + vm_compute in Hf. inversion Hf.
    + vm_compute in Hs. discriminate Hs.
  - vm_compute. reflexivity.
  - vm_compute. eexists _, _. right. reflexivity.
Defined.

(** The deadline passes while the delivery is outstanding; a section of the
    request falls between those of the shutdown. *)
Lemma shutdown_returns_witness :
  exists n b r'', 2 + n <= 8 /\
    demo_run (replicate n AShutdown) (demo_at 0 (demo_sleeping ++ [ATick 30000; AShutdown; AReq 0 ReqServed; AShutdown])) = Some r'' /\
    shutdown_pc r'' = SdDone b.
Proof.
  apply (shutdown_returns_by_deadline demo_id "h" 1000000 (demo_at 0 (demo_sleeping ++ [ATick 30000])) _ 30000
    [AShutdown; AReq 0 ReqServed; AShutdown]).
  - vm_compute. reflexivity.
  - vm_compute. discriminate.
  - vm_compute. reflexivity.
Defined.

Lemma drain_wakeup_witness :
  is_Some (step demo_id "h" 1000000 AShutdown (demo_at 0 demo_delivered)).
Proof.
  apply (drain_wakeup_not_lost demo_id "h" 1000000 demo_max_permits ConnectionServeOptions_default 0 0 true
    (demo_r0 0) (demo_at 0 demo_delivered)).
  - reflexivity.
  - apply default_unsigned.
  - lia.
  - vm_compute. reflexivity.
  - apply demo_reachable. vm_compute. reflexivity.
  - vm_compute. reflexivity.
  - intros (q & t & Hq & Ht). vm_compute in Hq. destruct q; [|discriminate Hq]. injection Hq as <-.
    discriminate Ht.
  - vm_compute. eexists _, _. reflexivity.
Defined.

(** No connection of its own, one of another cycle: the second wait sleeps. *)
Lemma other_cycle_blocks_witness :
  exists r', step demo_id "h" 1000000 AShutdown (demo_at 1 (replicate 7 AShutdown)) = Some r' /\
    shutdown_pc r' = SdSleep (WaitConnections true) 30000 0.
Proof.
  apply (other_cycle_blocks_shutdown demo_id "h" 1000000 demo_max_permits ConnectionServeOptions_default
    0 1 true (demo_r0 1) (demo_at 1 (replicate 7 AShutdown)) true 30000 0).
  - reflexivity.
  - apply default_unsigned.
  - lia.
  - vm_compute. reflexivity.
  - apply demo_reachable. vm_compute. reflexivity.
  - vm_compute. reflexivity.
  - vm_compute. reflexivity.
Defined.

(** The first connection of peer 7 ends; before its disconnect callback runs,
    a second one is admitted and its connect callback runs. *)
Definition demo_overtake : list (Act (Key := nat)) := demo_connect ++
  [AConn 0 EnvAcceptErr; AConn 0 EnvRun; AConn 0 EnvRun; AConn 0 EnvRun;
   AConnection "h" 7; AConn 1 EnvRun; AConn 0 EnvRun; AConn 0 EnvRun].

(** The callbacks run outside the admission lock, so their order is not the
    order of the transitions: there is a run that ends with a live connection of
    the peer, no callback due, and a disconnect as the last event the consumer
    was given. *)
Theorem disconnect_can_be_last_while_connected :
  exists r, rtc (rt_step demo_id "h" 1000000) (demo_r0 0) r /\
    conns_of 7 r = 1%Z /\ zsum (due 7) (conns r) = 0%Z /\
    fired (admission r) =
      [mkConnEvent "7" true; mkConnEvent "7" true; mkConnEvent "7" false].
Proof.
  exists (demo_at 0 demo_overtake). split.
  - apply demo_reachable. vm_compute. reflexivity.
  - vm_compute. done.
Qed.
