(* ===== verification/Pool.v ===== *)
(** * The connection pool (http/transport/pool.rs)

    The pool's cache with the connections it hands out and the callers of
    [get_or_connect], one task each; a step runs one section between two points
    where other tasks can act.  Dials, closes by peers, evictions by the cache
    and the two eviction entry points are steps of their own.  [moka]'s
    [try_get_with] decides which caller evaluates its initialiser and which wait;
    what it promises is in the laws of [Extern.Cache]. *)

From stdpp Require Import base numbers list strings gmap fin_maps relations.
From Stdlib Require Import ZArith Lia.
From S2P Require Import Prelude Extern.

Open Scope string_scope.
Open Scope list_scope.

Inductive TransportEvent :=
| PoolHit (peer_id : string) (timestamp : Z)
| PoolMiss (peer_id : string) (timestamp : Z)
| PoolEvict (peer_id : string) (timestamp : Z).

(** [pc_conn]: the connection, by identity. *)
Record PooledConnection := mkPooled { pc_conn : nat; remote_id_str : string; dial_seq : Z }.

#[global] Instance PooledConnection_eq_dec : EqDecision PooledConnection.
Proof. solve_decision. Defined.

(** [PoolKey]: node id and ALPN. *)
Abbreviation PoolKey Id := (Id * string)%type.

Section pool.
Context {Id : Type} `{Countable Id} {M : Type} {C : Type -> Type} `{Mpsc C}.
Context `{CA : Cache (PoolKey Id) PooledConnection M}.
(** [base32_encode(id.as_bytes())]. *)
Context (id_str : Id -> string).

(** A connection: its remote id, the reason it was closed with, if any, and which
    increment of [DIAL_SEQ] its pooled record got. *)
Record ConnInfo := mkConnInfo { ci_remote : Id; ci_close : option string; ci_seq : Z }.

Inductive GocPc :=
| GTop                                    (* head of the phase-1 loop *)
| GGot (p : PooledConnection)             (* cached value, liveness not yet read *)
| GStale (p : PooledConnection)           (* it was closed *)
| GMiss                                   (* phase 2 *)
| GTry                                    (* before [try_get_with] *)
| GInit                                   (* evaluates its own [connect_fn] *)
| GJoin                                   (* waits for another caller's *)
| GOpened (p : PooledConnection)          (* [try_get_with] returned *)
| GEarly (p : PooledConnection)           (* ... a connection already closed *)
| GReget                                  (* another caller replaced it *)
| GReplaced (p : PooledConnection)
| GDone (r : Result (PooledConnection * bool) string)
| GDropped.

Record GocTask := mkGoc { g_key : (PoolKey Id); g_pc : GocPc }.

(** [DIAL_SEQ] is a counter of the process, shared with other pools: here how
    often it was incremented; its value is that modulo 2^64. *)
Record Pool := mkPool {
  cache : M;
  event_tx : option (C TransportEvent);
  conn_table : list ConnInfo;
  DIAL_SEQ : Z;
  tasks : list GocTask;
  clock : Z
}.

Definition set_cache m p := mkPool m (event_tx p) (conn_table p) (DIAL_SEQ p) (tasks p) (clock p).
Definition set_event_tx e p := mkPool (cache p) e (conn_table p) (DIAL_SEQ p) (tasks p) (clock p).
Definition set_conn_table c p := mkPool (cache p) (event_tx p) c (DIAL_SEQ p) (tasks p) (clock p).
Definition set_dial_seq d p := mkPool (cache p) (event_tx p) (conn_table p) d (tasks p) (clock p).
Definition set_tasks t p := mkPool (cache p) (event_tx p) (conn_table p) (DIAL_SEQ p) t (clock p).

(** [dials]: how many pooled connections the process has made before. *)
Definition pool_new (event_tx : option (C TransportEvent)) (dials : nat) : Pool :=
  mkPool ca_new event_tx [] (Z.of_nat dials) [] 0.

(** [close_reason().is_none()]. *)
Definition is_live (c : nat) (p : Pool) : bool :=
  match conn_table p !! c with
  | Some ci => match ci_close ci with None => true | Some _ => false end
  | None => false
  end.

(** [conn.close]: the first reason stands. *)
Definition close_conn (reason : string) (ci : ConnInfo) : ConnInfo :=
  mkConnInfo (ci_remote ci) (match ci_close ci with Some r => Some r | None => Some reason end) (ci_seq ci).

(** [emit]: a full channel drops the event. *)
Definition emit (e : Z -> TransportEvent) (p : Pool) : Pool :=
  match event_tx p with
  | Some tx => set_event_tx (Some (try_send (e (clock p)) tx).2) p
  | None => p
  end.

(** [DIAL_SEQ.fetch_add(1)]: the value before. *)
Definition fetch_add_dial_seq (p : Pool) : Z * Pool :=
  ((DIAL_SEQ p mod (U64_MAX + 1))%Z, set_dial_seq (DIAL_SEQ p + 1) p).

(** [PooledConnection::new] on connection [c]. *)
Definition pooled_new (c : nat) (remote : Id) (p : Pool) : PooledConnection * Pool :=
  let '(seq, p) := fetch_add_dial_seq p in (mkPooled c (id_str remote) seq, p).

Definition compare_and_remove (key : (PoolKey Id)) (expected_dial_seq : Z) (p : Pool)
  : option PooledConnection * Pool :=
  let '(removed, m) :=
    ca_compute key (fun e => match e with
                             | Some v => (dial_seq v =? expected_dial_seq)%Z
                             | None => false
                             end) (cache p) in
  (removed, set_cache m p).

Definition evict_and_close (node_id : Id) (alpn reason : string) (expected_dial_seq : option Z) (p : Pool)
  : Pool :=
  match expected_dial_seq with
  | None => p
  | Some seq =>
      match compare_and_remove (node_id, alpn) seq p with
      | (Some pooled, p) =>
          let p := emit (PoolEvict (remote_id_str pooled)) p in
          set_conn_table (alter (close_conn reason) (pc_conn pooled) (conn_table p)) p
      | (None, p) => p
      end
  end.

Definition evict_only (node_id : Id) (alpn : string) (expected_dial_seq : option Z) (p : Pool) : Pool :=
  match expected_dial_seq with
  | None => p
  | Some seq =>
      match compare_and_remove (node_id, alpn) seq p with
      | (Some pooled, p) => emit (PoolEvict (remote_id_str pooled)) p
      | (None, p) => p
      end
  end.

Definition get_existing (node_id : Id) (alpn : string) (p : Pool) : option PooledConnection :=
  match ca_get (node_id, alpn) (cache p) with
  | Some pooled => if is_live (pc_conn pooled) p then Some pooled else None
  | None => None
  end.

Definition put_task (i : nat) (pc : GocPc) (p : Pool) : Pool :=
  set_tasks (alter (fun t => mkGoc (g_key t) pc) i (tasks p)) p.

Definition early_close_error : string := "pooled connection closed immediately after connect".

(** One section of caller [i] of [get_or_connect]. *)
Definition goc_step (i : nat) (p : Pool) : option Pool :=
  match tasks p !! i with
  | None => None
  | Some t =>
      let key := g_key t in
      match g_pc t with
      | GTop =>
          match ca_get key (cache p) with
          | None => Some (put_task i GMiss p)
          | Some pooled => Some (put_task i (GGot pooled) p)
          end
      | GGot pooled =>
          if is_live (pc_conn pooled) p
          then Some (put_task i (GDone (Ok (pooled, true))) (emit (PoolHit (remote_id_str pooled)) p))
          else Some (put_task i (GStale pooled) p)
      | GStale pooled =>
          match compare_and_remove key (dial_seq pooled) p with
          | (Some removed, p) => Some (put_task i GMiss (emit (PoolEvict (remote_id_str removed)) p))
          | (None, p) => Some (put_task i GTop p)
          end
      | GMiss => Some (put_task i GTry (emit (PoolMiss (id_str key.1)) p))
      | GTry =>
          let '(r, m) := ca_try_get_with key (cache p) in
          let p := set_cache m p in
          Some (put_task i (match r with TgHit pooled => GOpened pooled | TgInit => GInit | TgJoin => GJoin end) p)
      | GInit | GJoin => None
      | GOpened pooled =>
          if is_live (pc_conn pooled) p
          then Some (put_task i (GDone (Ok (pooled, false))) p)
          else Some (put_task i (GEarly pooled) p)
      | GEarly pooled =>
          match compare_and_remove key (dial_seq pooled) p with
          | (Some _, p) => Some (put_task i (GDone (Err early_close_error)) p)
          | (None, p) => Some (put_task i GReget p)
          end
      | GReget =>
          match ca_get key (cache p) with
          | Some replacement => Some (put_task i (GReplaced replacement) p)
          | None => Some (put_task i (GDone (Err early_close_error)) p)
          end
      | GReplaced pooled =>
          if is_live (pc_conn pooled) p
          then Some (put_task i (GDone (Ok (pooled, true))) (emit (PoolHit (remote_id_str pooled)) p))
          else Some (put_task i (GDone (Err early_close_error)) p)
      | GDone _ | GDropped => None
      end
  end.

(** What becomes of the callers of [key] that wait: [joined], and [own] of the one
    whose initialiser it is. *)
Definition wake (key : (PoolKey Id)) (own joined : GocPc) (t : GocTask) : GocTask :=
  if decide (g_key t = key)
  then match g_pc t with GInit => mkGoc key own | GJoin => mkGoc key joined | _ => t end
  else t.

(** The [connect_fn] of caller [i] completes and with it the initialiser of its
    key: a successful dial yields a fresh connection to the node, which gets its
    pooled record and is cached, and every waiter has the result. *)
Definition dial_done (i : nat) (result : Result unit string) (p : Pool) : option Pool :=
  match tasks p !! i with
  | Some (mkGoc key GInit) =>
      match result with
      | Ok _ =>
          let c := length (conn_table p) in
          let ci := mkConnInfo key.1 None (DIAL_SEQ p) in
          let '(pooled, p) := pooled_new c key.1 p in
          Some (mkPool (ca_init_end key (Some pooled) (cache p)) (event_tx p) (conn_table p ++ [ci]) (DIAL_SEQ p)
                  (map (wake key (GOpened pooled) (GOpened pooled)) (tasks p)) (clock p))
      | Err e =>
          Some (set_cache (ca_init_end key None (cache p))
                  (set_tasks (map (wake key (GDone (Err e)) (GDone (Err e))) (tasks p)) p))
      end
  | _ => None
  end.

(** The caller drops its future.  If it was evaluating the initialiser, the
    callers that waited for it try again, and one of them evaluates its own. *)
Definition goc_drop (i : nat) (p : Pool) : option Pool :=
  match tasks p !! i with
  | None | Some (mkGoc _ (GDone _ | GDropped)) => None
  | Some (mkGoc key GInit) =>
      Some (set_cache (ca_init_end key None (cache p)) (set_tasks (map (wake key GDropped GTry) (tasks p)) p))
  | Some _ => Some (put_task i GDropped p)
  end.

Inductive PoolAct :=
| PCall (key : (PoolKey Id))                               (* a new call of [get_or_connect] *)
| PRun (i : nat)
| PDrop (i : nat)
| PDial (i : nat) (result : Result unit string)
| PForeignDial                                           (* another pool of the process *)
| PPeerClose (c : nat) (reason : string)
| PCacheEvict (key : (PoolKey Id))
| PEvictAndClose (node_id : Id) (alpn reason : string) (seq : option Z)
| PEvictOnly (node_id : Id) (alpn : string) (seq : option Z)
| PTick (d : Z).

Definition pool_step (a : PoolAct) (p : Pool) : option Pool :=
  match a with
  | PCall key => Some (set_tasks (tasks p ++ [mkGoc key GTop]) p)
  | PRun i => goc_step i p
  | PDrop i => goc_drop i p
  | PDial i r => dial_done i r p
  | PForeignDial => Some (set_dial_seq (DIAL_SEQ p + 1) p)
  | PPeerClose c reason => Some (set_conn_table (alter (close_conn reason) c (conn_table p)) p)
  | PCacheEvict key => Some (set_cache (ca_evict key (cache p)) p)
  | PEvictAndClose n a r s => Some (evict_and_close n a r s p)
  | PEvictOnly n a s => Some (evict_only n a s p)
  | PTick d => Some (mkPool (cache p) (event_tx p) (conn_table p) (DIAL_SEQ p) (tasks p) (clock p + d))
  end.

Definition pstep (p p' : Pool) : Prop := exists a, pool_step a p = Some p'.

Fixpoint pool_run (l : list PoolAct) (p : Pool) : option Pool :=
  match l with
  | [] => Some p
  | a :: l => match pool_step a p with Some p' => pool_run l p' | None => None end
  end.

Lemma pool_run_rtc l p p' : pool_run l p = Some p' -> rtc pstep p p'.
Proof.
  revert p. induction l as [|a l IH]; simpl; intros p Hr; [injection Hr as ->; apply rtc_refl|].
  destruct (pool_step a p) as [p1|] eqn:E; [|done]. eapply rtc_l; [by exists a|]. by apply IH.
Qed.
End pool.
Arguments Pool Id M C : clear implicits.
