(* ===== verification/PoolProps.v ===== *)
(** * Properties of the connection pool

    The invariant of the pool under every interleaving of its callers, and the
    theorems about results, eviction and single flight. *)

From stdpp Require Import base numbers list strings gmap fin_maps relations pretty.
From Stdlib Require Import ZArith Lia.
From S2P Require Import Prelude Extern Pool.

Open Scope string_scope.
Open Scope list_scope.

Section props.
Context {Id : Type} `{Countable Id} {M : Type} {C : Type -> Type} `{Mpsc C}.
Context `{CA : Cache (PoolKey Id) PooledConnection M} `{!CacheLaws (PoolKey Id) PooledConnection M}.
Context (id_str : Id -> string).

Abbreviation Pool := (Pool Id M C).
Abbreviation GocTask := (GocTask (Id := Id)).
Abbreviation pool_step := (pool_step id_str).
Abbreviation pstep := (pstep id_str).
Abbreviation pool_run := (pool_run id_str).
Abbreviation view p := (ca_view (cache p)).
Abbreviation flight p := (ca_flight (cache p)).

(** ** Invariant *)

(** The value of [DIAL_SEQ] after [n] increments. *)
Definition seq_of (n : Z) : Z := (n mod (U64_MAX + 1))%Z.

(** [v] is the pooled record of a connection to the node of [key]. *)
Definition pooled_ok (p : Pool) (key : PoolKey Id) (v : PooledConnection) : Prop :=
  exists ci, conn_table p !! pc_conn v = Some ci /\ ci_remote ci = key.1 /\
    remote_id_str v = id_str key.1 /\ dial_seq v = seq_of (ci_seq ci).

Definition pc_pooled (pc : GocPc) : option PooledConnection :=
  match pc with
  | GGot v | GStale v | GOpened v | GEarly v | GReplaced v | GDone (Ok (v, _)) => Some v
  | _ => None
  end.

(** The sequence numbers of the connections were handed out, each once. *)
Record seq_inv (p : Pool) : Prop := {
  si_below : forall c ci, conn_table p !! c = Some ci -> (0 <= ci_seq ci < DIAL_SEQ p)%Z;
  si_counter : (0 <= DIAL_SEQ p)%Z;
  si_inj : forall c d ci di, conn_table p !! c = Some ci -> conn_table p !! d = Some di -> ci_seq ci = ci_seq di -> c = d
}.

(** The initialisers the cache has in flight are those of the callers that
    evaluate one; no key has two; who waits, waits for one. *)
Record flight_inv (p : Pool) : Prop := {
  fi_flight : forall key, key ∈ flight p <-> exists i t, tasks p !! i = Some t /\ g_pc t = GInit /\ g_key t = key;
  fi_one : forall i j t u, tasks p !! i = Some t -> tasks p !! j = Some u -> g_pc t = GInit -> g_pc u = GInit ->
    g_key t = g_key u -> i = j;
  fi_join : forall i t, tasks p !! i = Some t -> g_pc t = GJoin -> g_key t ∈ flight p;
  fi_absent : forall key, key ∈ flight p -> view p !! key = None
}.

Record pool_inv (p : Pool) : Prop := {
  pi_cache : forall key v, view p !! key = Some v -> pooled_ok p key v;
  pi_tasks : forall i t v, tasks p !! i = Some t -> pc_pooled (g_pc t) = Some v -> pooled_ok p (g_key t) v;
  pi_seq : seq_inv p;
  pi_flight : flight_inv p
}.

(** The table only grows and keeps the remote ids and sequence numbers. *)
Definition table_le (p p' : Pool) : Prop :=
  forall c ci, conn_table p !! c = Some ci ->
    exists ci', conn_table p' !! c = Some ci' /\ ci_remote ci' = ci_remote ci /\ ci_seq ci' = ci_seq ci.

Lemma table_le_same (p p' : Pool) : conn_table p' = conn_table p -> table_le p p'.
Proof. intros E c ci Hc. rewrite E. eauto. Qed.

Lemma table_le_close (p p' : Pool) reason c :
  conn_table p' = alter (close_conn reason) c (conn_table p) -> table_le p p'.
Proof.
  intros E d ci Hd. rewrite E, list_lookup_alter. case_decide; [subst|eauto].
  rewrite Hd. simpl. eexists. split; [done|]. done.
Qed.

Lemma pooled_ok_le (p p' : Pool) key v : table_le p p' -> pooled_ok p key v -> pooled_ok p' key v.
Proof.
  intros Hle (ci & Hc & Hr & Ht & Hs). destruct (Hle _ _ Hc) as (ci' & Hc' & Hr' & Hs').
  exists ci'. split_and!; congruence.
Qed.

(** The same connections, perhaps closed, and more increments of the counter. *)
Definition table_eq (p p' : Pool) : Prop :=
  table_le p p' /\ length (conn_table p') = length (conn_table p) /\ (DIAL_SEQ p <= DIAL_SEQ p')%Z.

Lemma table_eq_same (p p' : Pool) : conn_table p' = conn_table p -> (DIAL_SEQ p <= DIAL_SEQ p')%Z -> table_eq p p'.
Proof. intros E Hd. split_and!; [by apply table_le_same|by rewrite E|done]. Qed.
Lemma table_eq_close (p p' : Pool) reason c :
  conn_table p' = alter (close_conn reason) c (conn_table p) -> DIAL_SEQ p' = DIAL_SEQ p -> table_eq p p'.
Proof. intros E Hd. split_and!; [by eapply table_le_close|by rewrite E, length_alter|lia]. Qed.

Lemma seq_inv_eq (p p' : Pool) : table_eq p p' -> seq_inv p -> seq_inv p'.
Proof.
  intros (Hle & Hlen & Hd) [H1 H0' H2].
  assert (forall c ci', conn_table p' !! c = Some ci' -> exists ci, conn_table p !! c = Some ci /\ ci_seq ci' = ci_seq ci) as Hb.
  { intros c ci' Hc. destruct (lookup_lt_is_Some_2 (conn_table p) c) as [ci Hci]; [apply lookup_lt_Some in Hc; lia|].
    destruct (Hle _ _ Hci) as (x & Hx & _ & Hs). exists ci. split; [done|]. congruence. }
  split.
  - intros c ci (x & Hx & ->)%Hb. specialize (H1 _ _ Hx). lia.
  - lia.
  - intros c d ci di (x & Hx & ->)%Hb (y & Hy & ->)%Hb. by apply H2.
Qed.

Lemma compare_and_remove_view key seq (p p' : Pool) r :
  compare_and_remove key seq p = (r, p') ->
  conn_table p' = conn_table p /\ tasks p' = tasks p /\ DIAL_SEQ p' = DIAL_SEQ p /\ flight p' = flight p /\
  match r with
  | Some v => view p !! key = Some v /\ dial_seq v = seq /\ view p' = delete key (view p)
  | None => view p' = view p /\ forall v, view p !! key = Some v -> dial_seq v <> seq
  end.
Proof.
  unfold compare_and_remove. set (f := fun e => _).
  destruct (ca_view_compute key f (cache p)) as (E1 & E2 & E3).
  destruct (ca_compute key f (cache p)) as [x m]. intros [= <- <-]. simpl in *. split_and!; try done.
  rewrite E1, E2. unfold f. destruct (view p !! key) as [v|] eqn:E; [|done].
  destruct (dial_seq v =? seq)%Z eqn:Es; bool_to_prop; [done|]. split; [done|]. by intros ? [= <-].
Qed.

Lemma emit_frame e (p : Pool) :
  cache (emit e p) = cache p /\ conn_table (emit e p) = conn_table p /\ tasks (emit e p) = tasks p /\
  DIAL_SEQ (emit e p) = DIAL_SEQ p.
Proof. unfold emit. by destruct (event_tx p). Qed.

(** ** Preservation *)

(** A change that only shrinks the cache and closes connections. *)
Lemma pool_inv_shrink (p p' : Pool) :
  table_eq p p' -> (forall key v, view p' !! key = Some v -> view p !! key = Some v) ->
  tasks p' = tasks p -> flight p' = flight p -> pool_inv p -> pool_inv p'.
Proof.
  intros Hle Hv Ht Hd [H1 H2 H3 [F1 F2 F3 F4]]. pose proof Hle as (Hle' & _). split; rewrite ?Ht; try done.
  - intros key v Hk. eapply pooled_ok_le; eauto.
  - intros i t v Hi Hp. eapply pooled_ok_le; eauto.
  - by eapply seq_inv_eq.
  - split; rewrite ?Ht, ?Hd; try done. intros key Hk. destruct (view p' !! key) as [v|] eqn:E; [|done].
    apply Hv in E. rewrite F4 in E; done.
Qed.

Definition waits (pc : GocPc) : bool := match pc with GInit | GJoin => true | _ => false end.

(** The tasks after one has moved. *)
Lemma lookup_moved i pc (l : list GocTask) (t : GocTask) j u :
  l !! i = Some t -> alter (fun t => mkGoc (g_key t) pc) i l !! j = Some u ->
  (j = i /\ u = mkGoc (g_key t) pc) \/ (j <> i /\ l !! j = Some u).
Proof.
  intros Hi. rewrite list_lookup_alter. case_decide; subst; [|auto]. rewrite Hi. simpl. intros [= <-]. by left.
Qed.

(** Moving one task that does not evaluate an initialiser and will not wait. *)
Lemma pool_inv_move i t pc (p p' : Pool) :
  tasks p !! i = Some t -> tasks p' = alter (fun t => mkGoc (g_key t) pc) i (tasks p) ->
  g_pc t <> GInit -> waits pc = false ->
  conn_table p' = conn_table p -> DIAL_SEQ p' = DIAL_SEQ p -> flight p' = flight p ->
  (forall key v, view p' !! key = Some v -> view p !! key = Some v) ->
  (forall v, pc_pooled pc = Some v -> pooled_ok p (g_key t) v) -> pool_inv p -> pool_inv p'.
Proof.
  intros Hi Et Hnw Hpc Ec Ed Ef Hv Hok [H1 H2 H3 [F1 F2 F3 F4]].
  assert (table_eq p p') as Hte by (apply table_eq_same; [done|lia]). pose proof Hte as (Hle & _).
  assert (forall j u, tasks p' !! j = Some u -> waits (g_pc u) = true -> tasks p !! j = Some u) as Hw.
  { intros j u Hj Hwu. rewrite Et in Hj. destruct (lookup_moved _ _ _ _ _ _ Hi Hj) as [[-> ->]|[_ ?]]; [|done].
    simpl in Hwu. congruence. }
  split.
  - intros key v Hk. eapply pooled_ok_le; eauto.
  - intros j u v Hj Hp. eapply pooled_ok_le; [done|]. rewrite Et in Hj.
    destruct (lookup_moved _ _ _ _ _ _ Hi Hj) as [[-> ->]|[_ Hj']]; eauto.
  - by eapply seq_inv_eq.
  - split; rewrite ?Ef.
    + intros key. rewrite F1. split.
      * intros (j & u & Hj & Hp & Hk). exists j, u. split; [|done]. rewrite Et, list_lookup_alter_ne; [done|]. intros ->. congruence.
      * intros (j & u & Hj & Hp & Hk). exists j, u. split; [|done]. apply Hw; [done|by rewrite Hp].
    + intros j k u x Hj Hk Hu Hx. apply F2; [apply Hw; [done|by rewrite Hu]|apply Hw; [done|by rewrite Hx]|done|done].
    + intros j u Hj Hp. apply (F3 j); [apply Hw; [done|by rewrite Hp]|done].
    + intros key Hk. destruct (view p' !! key) as [v|] eqn:E; [|done]. apply Hv in E. rewrite F4 in E; done.
Qed.

(** [try_get_with] finds nothing cached: the caller evaluates its initialiser if
    none is in flight, and waits otherwise. *)
Lemma pool_inv_try i t m (p : Pool) :
  tasks p !! i = Some t -> g_pc t <> GInit -> view p !! g_key t = None ->
  ca_view m = view p -> ca_flight m = {[g_key t]} ∪ flight p -> pool_inv p ->
  pool_inv (put_task i (if decide (g_key t ∈ flight p) then GJoin else GInit) (set_cache m p)).
Proof.
  intros Hi Hnw Ev Em Ef [H1 H2 H3 [F1 F2 F3 F4]]. set (pc := if decide _ then GJoin else GInit).
  assert (pc_pooled pc = None) as Hpp by (unfold pc; by case_decide).
  assert (forall j u, tasks (put_task i pc (set_cache m p)) !! j = Some u ->
    (j = i /\ u = mkGoc (g_key t) pc) \/ (j <> i /\ tasks p !! j = Some u)) as Hl.
  { intros j u Hj. by eapply lookup_moved. }
  split.
  - intros key v. simpl. rewrite Em. apply H1.
  - intros j u v Hj Hp. destruct (Hl j u Hj) as [[-> ->]|[_ Hj']]; [simpl in Hp; congruence|by apply (H2 j u v)].
  - apply (seq_inv_eq p); [apply table_eq_same; [done|simpl; lia]|done].
  - assert (tasks (put_task i pc (set_cache m p)) !! i = Some (mkGoc (g_key t) pc)) as Hii.
    { simpl. by rewrite list_lookup_alter_eq, Hi. }
    split; simpl; rewrite ?Ef, ?Em.
    + intros key. rewrite elem_of_union, elem_of_singleton. split.
      * intros [->|Hk].
        -- destruct (decide (g_key t ∈ flight p)) as [Hk|Hk].
           ++ apply F1 in Hk as (j & u & Hj & Hp & Hk). exists j, u. split; [|done].
              rewrite list_lookup_alter_ne; [done|]. intros ->. congruence.
           ++ exists i, (mkGoc (g_key t) pc). split; [done|]. split; [|done]. simpl. unfold pc. by try destruct (decide _).
        -- apply F1 in Hk as (j & u & Hj & Hp & Hk). exists j, u. split; [|done].
           rewrite list_lookup_alter_ne; [done|]. intros ->. congruence.
      * intros (j & u & Hj & Hp & Hk). destruct (Hl j u Hj) as [[-> ->]|[_ Hj']]; [by left|]. right. apply F1. eauto.
    + intros j k u x Hj Hk Hu Hx Hkey. destruct (Hl j u Hj) as [[-> ->]|[Hnj Hj']], (Hl k x Hk) as [[-> ->]|[Hnk Hk']]; try done.
      * exfalso. simpl in Hu, Hkey. unfold pc in Hu. case_decide as Hin; [done|]. apply Hin. apply F1. eauto.
      * exfalso. simpl in Hx, Hkey. unfold pc in Hx. case_decide as Hin; [done|]. apply Hin. apply F1. eauto.
      * by eapply F2.
    + intros j u Hj Hp. rewrite elem_of_union. destruct (Hl j u Hj) as [[-> ->]|[_ Hj']]; [left; by apply elem_of_singleton|right; eauto].
    + intros key [->%elem_of_singleton|Hk]%elem_of_union; [done|by apply F4].
Qed.

(** The shape of every section of a caller. *)
Lemma goc_step_move i (p p' : Pool) t :
  tasks p !! i = Some t -> goc_step id_str i p = Some p' -> pool_inv p ->
  (view p !! g_key t = None /\ g_pc t = GTry /\ exists m, ca_view m = view p /\ ca_flight m = {[g_key t]} ∪ flight p /\
   p' = put_task i (if decide (g_key t ∈ flight p) then GJoin else GInit) (set_cache m p)) \/
  exists pc, tasks p' = alter (fun t => mkGoc (g_key t) pc) i (tasks p) /\ waits pc = false /\
    conn_table p' = conn_table p /\ DIAL_SEQ p' = DIAL_SEQ p /\ flight p' = flight p /\
    (forall key v, view p' !! key = Some v -> view p !! key = Some v) /\
    (forall v, pc_pooled pc = Some v -> pooled_ok p (g_key t) v) /\
    (forall v b, pc = GDone (Ok (v, b)) -> is_live (pc_conn v) p' = true).
Proof.
  intros Hi Hs Hinv. unfold goc_step in Hs. rewrite Hi in Hs. pose proof (pi_tasks _ Hinv i t) as Ht.
  pose proof (pi_cache _ Hinv (g_key t)) as Hc.
  destruct (g_pc t) as [|v|v| | | | |v|v| |v|r|] eqn:Epc; try discriminate Hs.
  5: { destruct (ca_view_try_get_with (g_key t) (cache p)) as (Er & Em & Ef).
       destruct (ca_try_get_with (g_key t) (cache p)) as [r m]. cbn [fst snd] in *. injection Hs as <-.
       destruct (view p !! g_key t) as [w|] eqn:Ev.
       - right. subst r. exists (GOpened w). split_and!; simpl; try done; first [by rewrite Em|by intros ? [= <-]; auto].
       - left. split_and!; try done. exists m. split_and!; try done. subst r. by case_decide. }
  all: repeat match type of Hs with
    | context [ca_get] => rewrite ca_view_get in Hs; destruct (view p !! g_key t) as [w|] eqn:Ev
    | context [compare_and_remove ?k ?s ?q] =>
        let r := fresh "r" in let q' := fresh "q" in let Ecr := fresh "Ecr" in
        destruct (compare_and_remove k s q) as [r q'] eqn:Ecr;
        apply compare_and_remove_view in Ecr as (E2 & E3 & E4 & E5 & Ew); destruct r as [w|]
    | context [if is_live ?c ?q then _ else _] => destruct (is_live c q) eqn:El
    | context [emit ?e ?q] =>
        lazymatch goal with F : cache (emit e q) = _ |- _ => fail
        | _ => destruct (emit_frame e q) as (F1 & F2 & F3 & F4) end
    end;
    injection Hs as <-; right; eexists; (split; [simpl; rewrite ?F3, ?E3; reflexivity|]);
    (split_and!; [done|simpl; rewrite ?F2, ?E2; reflexivity|simpl; rewrite ?F4, ?E4; reflexivity
                 |simpl; rewrite ?F1, ?E5; reflexivity| | |]);
    simpl; rewrite ?F1; try done;
    try (intros ? [= <-]; auto; fail);
    try (intros ? ? [= <- <-]; unfold is_live in *; simpl; rewrite ?F2; done).
  all: try (destruct Ew as (_ & _ & ->); intros key x [_ Hx]%lookup_delete_Some; done).
  all: try (destruct Ew as [-> _]; done).
Qed.

Lemma goc_step_inv i (p p' : Pool) : goc_step id_str i p = Some p' -> pool_inv p -> pool_inv p'.
Proof.
  intros Hs Hinv. destruct (tasks p !! i) as [t|] eqn:Hi; [|unfold goc_step in Hs; by rewrite Hi in Hs].
  destruct (goc_step_move i p p' t Hi Hs Hinv) as [(Ev & Epc & m & Em & Ef & ->)|(pc & E1 & E2 & E3 & E4 & E5 & E6 & E7 & _)].
  - apply pool_inv_try; [done|congruence|done..].
  - eapply pool_inv_move; eauto. intros Ew. unfold goc_step in Hs. by rewrite Hi, Ew in Hs.
Qed.

(** What a caller of [key] becomes when the initialiser ends, and that nobody
    else moves. *)
Lemma wake_cases (key : PoolKey Id) own joined (t : GocTask) :
  (g_key t = key /\ g_pc t = GInit /\ wake key own joined t = mkGoc key own) \/
  (g_key t = key /\ g_pc t = GJoin /\ wake key own joined t = mkGoc key joined) \/
  (wake key own joined t = t /\ (waits (g_pc t) = true -> g_key t <> key)).
Proof.
  unfold wake. destruct (decide (g_key t = key)) as [Hk|Hk]; [|right; right; by split].
  destruct (g_pc t) eqn:E; simpl; auto.
Qed.

Lemma lookup_wake key own joined (l : list GocTask) i u :
  map (wake key own joined) l !! i = Some u -> exists t, l !! i = Some t /\ u = wake key own joined t.
Proof. intros Hl. apply list_lookup_fmap_Some in Hl. naive_solver. Qed.

(** The initialiser of [key] is gone: nobody evaluates or awaits one any more. *)
Lemma flight_inv_end key own joined (p p' : Pool) :
  flight_inv p -> waits own = false -> waits joined = false ->
  tasks p' = map (wake key own joined) (tasks p) -> flight p' = flight p ∖ {[key]} ->
  (forall k, k <> key -> view p' !! k = view p !! k) -> flight_inv p'.
Proof.
  intros [F1 F2 F3 F4] Ho Hj Et Ef Hv.
  assert (forall i u, tasks p' !! i = Some u -> waits (g_pc u) = true -> tasks p !! i = Some u /\ g_key u <> key) as Hl.
  { intros i u Hi Hw. rewrite Et in Hi. apply lookup_wake in Hi as (t & Hi & ->).
    destruct (wake_cases key own joined t) as [(_ & _ & E)|[(_ & _ & E)|[E Hne]]]; rewrite E in *; simpl in *; [congruence..|auto]. }
  split; rewrite ?Ef.
  - intros k. rewrite elem_of_difference, elem_of_singleton, F1. split.
    + intros [(i & t & Hi & Hp & Hk) Hne]. exists i, t. split; [|done]. rewrite Et, list_lookup_fmap, Hi. simpl. f_equal.
      destruct (wake_cases key own joined t) as [(E & _)|[(E & _)|[E _]]]; [congruence..|done].
    + intros (i & t & Hi & Hp & Hk). apply Hl in Hi as [Hi Hne]; [|by rewrite Hp]. split; [eauto|congruence].
  - intros i j t u Hi Hj' Hp Hu. apply Hl in Hi as [Hi _]; [|by rewrite Hp]. apply Hl in Hj' as [Hj' _]; [|by rewrite Hu]. by eapply F2.
  - intros i t Hi Hp. apply Hl in Hi as [Hi Hne]; [|by rewrite Hp]. apply elem_of_difference. rewrite elem_of_singleton. eauto.
  - intros k [Hk Hne]%elem_of_difference. rewrite elem_of_singleton in Hne. rewrite Hv by done. by apply F4.
Qed.

(** An initialiser that ends without a value. *)
Lemma pool_inv_end key own joined m (p : Pool) :
  pool_inv p -> waits own = false -> waits joined = false -> pc_pooled own = None -> pc_pooled joined = None ->
  ca_view m = view p -> ca_flight m = flight p ∖ {[key]} ->
  pool_inv (set_cache m (set_tasks (map (wake key own joined) (tasks p)) p)).
Proof.
  intros [H1 H2 H3 H4] Ho Hj Hpo Hpj Em Ef. split.
  - intros k v. simpl. rewrite Em. apply H1.
  - intros i u v Hi Hp. apply lookup_wake in Hi as (t & Hi & ->).
    destruct (wake_cases key own joined t) as [(_ & _ & E)|[(_ & _ & E)|[E _]]]; rewrite E in *; simpl in *; [congruence..|by eapply H2].
  - apply (seq_inv_eq p); [by apply table_eq_same|done].
  - eapply (flight_inv_end key own joined p); try done. simpl. by rewrite Em.
Qed.

(** A dial that succeeds. *)
Lemma pool_inv_dialed key m (p : Pool) :
  let v := mkPooled (length (conn_table p)) (id_str key.1) (seq_of (DIAL_SEQ p)) in
  let p' := mkPool m (event_tx p) (conn_table p ++ [mkConnInfo key.1 None (DIAL_SEQ p)]) (DIAL_SEQ p + 1)
              (map (wake key (GOpened v) (GOpened v)) (tasks p)) (clock p) in
  ca_view m = <[key := v]> (view p) -> ca_flight m = flight p ∖ {[key]} -> pool_inv p -> pool_inv p'.
Proof.
  intros v p' Em Ef [H1 H2 [S1 S0 S2] H4].
  assert (table_le p p') as Hle by (intros c ci Hc; exists ci; split; [by apply lookup_app_l_Some|done]).
  assert (pooled_ok p' key v) as Hv.
  { exists (mkConnInfo key.1 None (DIAL_SEQ p)). split_and!; try done. simpl. by apply list_lookup_middle. }
  assert (forall c ci, conn_table p' !! c = Some ci ->
    (conn_table p !! c = Some ci) \/ (c = length (conn_table p) /\ ci_seq ci = DIAL_SEQ p)) as Hl.
  { intros c ci [Hc|[Hlen Hc]]%lookup_app_Some; [by left|]. right.
    apply list_lookup_singleton_Some in Hc as [Hz <-]. split; [lia|done]. }
  split.
  - intros k w. simpl. rewrite Em. intros [[<- <-]|[_ Hk]]%lookup_insert_Some; [done|]. eapply pooled_ok_le; eauto.
  - intros i u w Hi Hp. apply lookup_wake in Hi as (t & Hi & ->).
    destruct (wake_cases key (GOpened v) (GOpened v) t) as [(_ & _ & E)|[(_ & _ & E)|[E _]]]; rewrite E in *; simpl in *;
      [by injection Hp as <-..|]. eapply pooled_ok_le; eauto.
  - split.
    + intros c ci [Hc|[_ ->]]%Hl; simpl; [specialize (S1 _ _ Hc)|]; lia.
    + simpl. lia.
    + intros c d ci di [Hc|[-> Ec]]%Hl [Hd|[-> Ed]]%Hl Hs; [by eapply S2| | |done];
        [specialize (S1 _ _ Hc)|specialize (S1 _ _ Hd)]; lia.
  - eapply (flight_inv_end key (GOpened v) (GOpened v) p); try done. intros k Hk. simpl. by rewrite Em, lookup_insert_ne.
Qed.

Lemma dial_done_inv i r (p p' : Pool) : dial_done id_str i r p = Some p' -> pool_inv p -> pool_inv p'.
Proof.
  unfold dial_done. destruct (tasks p !! i) as [[key []]|]; try done. destruct r as [[]|e]; intros [= <-] Hi.
  - destruct (ca_view_init_end key (Some (mkPooled (length (conn_table p)) (id_str key.1) (seq_of (DIAL_SEQ p)))) (cache p)) as [Ev Ef].
    by apply pool_inv_dialed.
  - destruct (ca_view_init_end key None (cache p)) as [Ev Ef]. by apply pool_inv_end.
Qed.

Lemma goc_drop_inv i (p p' : Pool) : goc_drop i p = Some p' -> pool_inv p -> pool_inv p'.
Proof.
  unfold goc_drop. destruct (tasks p !! i) as [[key pc]|] eqn:Hi; [|done]. intros Hs Hinv.
  assert (forall p', Some (put_task i GDropped p) = Some p' -> pc <> GInit -> pool_inv p') as Hdrop.
  { intros q [= <-] Hn. eapply (pool_inv_move i _ GDropped p); [exact Hi|done..]. }
  destruct pc; try discriminate Hs; try (by apply Hdrop). injection Hs as <-.
  destruct (ca_view_init_end key None (cache p)) as [Ev Ef]. by apply pool_inv_end.
Qed.

Lemma evict_and_close_frame n a reason s (p : Pool) :
  let p' := evict_and_close n a reason s p in
  tasks p' = tasks p /\ flight p' = flight p /\ table_eq p p' /\
  (forall key v, view p' !! key = Some v -> view p !! key = Some v).
Proof.
  unfold evict_and_close. destruct s as [seq|]; [|split_and!; try done; by apply table_eq_same].
  destruct (compare_and_remove (n, a) seq p) as [[w|] q] eqn:Ecr;
    apply compare_and_remove_view in Ecr as (E2 & E3 & E4 & E5 & Ew).
  - destruct (emit_frame (PoolEvict (remote_id_str w)) q) as (F1 & F2 & F3 & F4).
    split_and!; simpl; try congruence.
    + eapply table_eq_close; [simpl; by rewrite F2, E2|simpl; congruence].
    + rewrite F1. destruct Ew as (_ & _ & ->). intros key x [_ Hx]%lookup_delete_Some. done.
  - destruct Ew as [-> _]. split_and!; try done. apply table_eq_same; [done|lia].
Qed.

Lemma evict_only_frame n a s (p : Pool) :
  let p' := evict_only n a s p in
  tasks p' = tasks p /\ flight p' = flight p /\ table_eq p p' /\
  (forall key v, view p' !! key = Some v -> view p !! key = Some v).
Proof.
  unfold evict_only. destruct s as [seq|]; [|split_and!; try done; by apply table_eq_same].
  destruct (compare_and_remove (n, a) seq p) as [[w|] q] eqn:Ecr;
    apply compare_and_remove_view in Ecr as (E2 & E3 & E4 & E5 & Ew).
  - destruct (emit_frame (PoolEvict (remote_id_str w)) q) as (F1 & F2 & F3 & F4).
    split_and!; simpl; try congruence; [apply table_eq_same; [congruence|lia]|]. rewrite F1. destruct Ew as (_ & _ & ->).
    intros key x [_ Hx]%lookup_delete_Some. done.
  - destruct Ew as [-> _]. split_and!; try done. apply table_eq_same; [done|lia].
Qed.

Lemma pool_step_inv a (p p' : Pool) : pool_step a p = Some p' -> pool_inv p -> pool_inv p'.
Proof.
  intros Hs Hinv. destruct a; simpl in Hs.
  - injection Hs as <-. destruct Hinv as [H1 H2 H3 [F1 F2 F3 F4]].
    assert (forall i t, (tasks p ++ [mkGoc key GTop]) !! i = Some t -> tasks p !! i = Some t \/ t = mkGoc key GTop) as Hl.
    { intros i t [Hi|[_ Hi]]%lookup_app_Some; [by left|]. apply list_lookup_singleton_Some in Hi as [_ <-]. by right. }
    split; simpl.
    + done.
    + intros i t v [Hi| ->]%Hl Hp; [by eapply H2|done].
    + by apply (seq_inv_eq p); [apply table_eq_same|].
    + split; simpl; try done.
      * intros k. rewrite F1. split; intros (j & u & Hj & Hpj & Hkj).
        -- exists j, u. split; [by apply lookup_app_l_Some|done].
        -- apply Hl in Hj as [Hj| ->]; [by exists j, u|done].
      * intros i j t u [Hi| ->]%Hl [Hj| ->]%Hl; try done. by eapply F2.
      * intros i t [Hi| ->]%Hl; [by eapply F3|done].
  - by eapply goc_step_inv.
  - by eapply goc_drop_inv.
  - by eapply dial_done_inv.
  - injection Hs as <-. apply (pool_inv_shrink p); try done. apply table_eq_same; [done|simpl; lia].
  - injection Hs as <-. apply (pool_inv_shrink p); [by eapply table_eq_close|done|done|done|done].
  - injection Hs as <-. destruct (ca_view_evict key (cache p)) as [Ev Ef].
    apply (pool_inv_shrink p); [by apply table_eq_same| |done|done|done].
    simpl. intros k v. rewrite Ev. by intros [_ ?]%lookup_delete_Some.
  - injection Hs as <-. destruct (evict_and_close_frame node_id alpn reason seq p) as (E1 & E2 & E3 & E4).
    by apply (pool_inv_shrink p).
  - injection Hs as <-. destruct (evict_only_frame node_id alpn seq p) as (E1 & E2 & E3 & E4).
    by apply (pool_inv_shrink p).
  - injection Hs as <-. by apply (pool_inv_shrink p); [by apply table_eq_same|..].
Qed.

Lemma pool_inv_new tx dials : pool_inv (pool_new tx dials).
Proof.
  split; simpl; try done.
  - intros key v. rewrite ca_view_new. by rewrite lookup_empty.
  - split; simpl; try done. lia.
  - split; simpl; try done; rewrite ?ca_flight_new; [|set_solver]. intros key. split; [set_solver|]. by intros (i & t & Hi & _).
Qed.

Lemma pool_reachable_inv tx dials (p : Pool) : rtc pstep (pool_new tx dials) p -> pool_inv p.
Proof.
  intros Hr. eapply rtc_invariant; [|exact Hr|apply pool_inv_new]. intros x y [a Ha]. by eapply pool_step_inv.
Qed.

(** A record of a connection to [key], in the cache or with a caller. *)
Definition pool_knows (p : Pool) (v : PooledConnection) : Prop :=
  (exists key, view p !! key = Some v) \/ (exists i t, tasks p !! i = Some t /\ pc_pooled (g_pc t) = Some v).

(** The counter has not wrapped. *)
Definition seqs_left (p : Pool) : Prop := (DIAL_SEQ p <= U64_MAX + 1)%Z.

(** A sequence number identifies the connection. *)
Lemma seq_of_inj m n : (0 <= m <= U64_MAX)%Z -> (0 <= n <= U64_MAX)%Z -> seq_of m = seq_of n -> m = n.
Proof. intros Hm Hn. unfold seq_of. rewrite !Z.mod_small by lia. done. Qed.

Lemma pooled_ok_unique (p : Pool) key k v w :
  seq_inv p -> seqs_left p -> pooled_ok p key v -> pooled_ok p k w -> dial_seq v = dial_seq w -> pc_conn v = pc_conn w /\ key.1 = k.1.
Proof.
  intros [S1 _ S2] Hl (ci & Hc & Hr & _ & Hs) (di & Hd & Hr' & _ & Hs') E. unfold seqs_left in Hl.
  pose proof (S1 _ _ Hc). pose proof (S1 _ _ Hd).
  assert (ci_seq ci = ci_seq di) as Hq by (apply seq_of_inj; [lia|lia|congruence]).
  pose proof (S2 _ _ _ _ Hc Hd Hq) as Hcd. split; [done|]. rewrite Hcd in Hc. congruence.
Qed.

Lemma pool_knows_ok (p : Pool) v : pool_inv p -> pool_knows p v -> exists key, pooled_ok p key v.
Proof. intros [H1 H2 _ _] [(key & Hk)|(i & t & Hi & Hp)]; eauto. Qed.

(** ** Theorems *)

(** C25. Every connection [get_or_connect] returns was live when it was returned
    and leads to the node the caller asked for, and the pooled record carries that
    node's text id.  Its sequence number is its identity: as long as the process
    has made at most 2^64 pooled connections, in whatever pools, no other record
    that this pool has cached or handed to a caller has the same number. *)
Theorem get_or_connect_result_live tx dials (p p' : Pool) i t t' v reused :
  rtc pstep (pool_new tx dials) p -> tasks p !! i = Some t -> goc_step id_str i p = Some p' ->
  tasks p' !! i = Some t' -> g_pc t' = GDone (Ok (v, reused)) ->
  is_live (pc_conn v) p' = true /\ remote_id_str v = id_str (g_key t).1 /\
  (exists ci, conn_table p' !! pc_conn v = Some ci /\ ci_remote ci = (g_key t).1) /\
  (seqs_left p' -> forall w, pool_knows p' w -> dial_seq w = dial_seq v -> w = v).
Proof.
  intros Hr Hi Hs Hi' Epc'. apply pool_reachable_inv in Hr.
  pose proof (goc_step_inv i p p' Hs Hr) as Hinv'.
  assert (pooled_ok p' (g_key t) v /\ is_live (pc_conn v) p' = true) as [Hv Hlive].
  { destruct (goc_step_move i p p' t Hi Hs Hr) as [(_ & _ & m & _ & _ & ->)|(pc & E1 & _ & E3 & _ & _ & _ & E6 & E7)].
    - simpl in Hi'. rewrite list_lookup_alter_eq, Hi in Hi'. injection Hi' as <-. simpl in Epc'. by case_decide.
    - rewrite E1, list_lookup_alter_eq, Hi in Hi'. injection Hi' as <-. simpl in Epc'. subst pc.
      split; [|by eapply E7]. eapply pooled_ok_le; [by apply table_le_same|by apply E6]. }
  destruct Hv as (ci & Hc & Hrm & Ht & Hsq). split_and!; [done|done|eauto|].
  intros Hl w Hw E. destruct (pool_knows_ok _ _ Hinv' Hw) as (k & Hk).
  assert (pooled_ok p' (g_key t) v) as Hv by (exists ci; done).
  destruct (pooled_ok_unique p' k (g_key t) w v (pi_seq _ Hinv') Hl Hk Hv E) as [Ec Ek].
  destruct Hk as (di & _ & _ & Htw & _). destruct w, v. simpl in *. congruence.
Qed.

(** Eviction after a failed request is scoped to the connection that failed:
    no other connection is closed and no other cache entry is touched, even when
    a concurrent caller has already replaced the connection under the same key;
    when the key still holds it, it is closed and no longer cached. *)
Theorem eviction_is_connection_scoped tx dials (p : Pool) key reason c ci :
  rtc pstep (pool_new tx dials) p -> seqs_left p -> conn_table p !! c = Some ci ->
  let p' := evict_and_close key.1 key.2 reason (Some (seq_of (ci_seq ci))) p in
  (forall d, d <> c -> conn_table p' !! d = conn_table p !! d) /\
  (forall k v, k <> key \/ pc_conn v <> c -> view p' !! k = Some v <-> view p !! k = Some v) /\
  (forall v, view p !! key = Some v -> pc_conn v = c ->
     view p' !! key = None /\ is_live c p' = false).
Proof.
  intros Hr Hlen Hc. apply pool_reachable_inv in Hr. simpl. unfold evict_and_close.
  destruct key as [n a]; simpl.
  destruct (compare_and_remove (n, a) _ p) as [[w|] q] eqn:Ecr;
    apply compare_and_remove_view in Ecr as (E2 & E3 & E4 & _ & Ew).
  - destruct Ew as (Ew & Es & Eview). destruct (pi_cache _ Hr _ _ Ew) as (di & Hdi & _ & _ & Hsq).
    assert (pc_conn w = c) as Hwc.
    { destruct (pi_seq _ Hr) as [S1 _ S2]. pose proof (S1 _ _ Hc). pose proof (S1 _ _ Hdi). unfold seqs_left in Hlen.
      apply (S2 _ _ _ _ Hdi Hc). apply seq_of_inj; [lia|lia|congruence]. }
    destruct (emit_frame (PoolEvict (remote_id_str w)) q) as (F1 & F2 & F3 & F4).
    split_and!.
    + intros d Hd. simpl. rewrite F2, E2, list_lookup_alter_ne; [done|congruence].
    + intros k v Hkv. simpl. rewrite F1, Eview. destruct (decide (k = (n, a))) as [->|Hk].
      * rewrite lookup_delete_eq. split; [done|]. intros Ev. destruct Hkv as [?|Hv]; [done|].
        rewrite Ew in Ev. injection Ev as <-. done.
      * by rewrite lookup_delete_ne.
    + intros v Ev Hvc. simpl. rewrite F1, Eview. split; [apply lookup_delete_eq|].
      unfold is_live; simpl. rewrite F2, E2, Hwc, list_lookup_alter_eq, Hc. simpl. by destruct (ci_close ci).
  - destruct Ew as [Eview Hne]. split_and!.
    + intros d _. by rewrite E2.
    + intros k v _. by rewrite Eview.
    + intros v Ev Hvc. exfalso. apply (Hne v Ev). destruct (pi_cache _ Hr _ _ Ev) as (di & Hdi & _ & _ & Hsq).
      rewrite Hsq. congruence.
Qed.




Lemma pool_run_app l1 l2 (p p1 p2 : Pool) :
  pool_run l1 p = Some p1 -> pool_run l2 p1 = Some p2 -> pool_run (l1 ++ l2) p = Some p2.
Proof.
  revert p. induction l1 as [|a l1 IH]; simpl; intros p Hr; [by injection Hr as ->|].
  destruct (pool_step a p); [by apply IH|done].
Qed.

(** Reading the task a section has just moved. *)
Lemma lookup_put_task i pc (p : Pool) t :
  tasks p !! i = Some t -> tasks (put_task i pc p) !! i = Some (mkGoc (g_key t) pc).
Proof. intros Hi. simpl. by rewrite list_lookup_alter_eq, Hi. Qed.

(** From phase 2 on, two sections. *)
Lemma miss_progress (p : Pool) i key :
  tasks p !! i = Some (mkGoc key GMiss) -> view p !! key = None ->
  exists p' pc, pool_run (replicate 2 (PRun i)) p = Some p' /\ tasks p' !! i = Some (mkGoc key pc) /\ waits pc = true.
Proof.
  intros Hi Hv. destruct (emit_frame (PoolMiss (id_str key.1)) p) as (E1 & E2 & E3 & E4).
  destruct (ca_view_try_get_with key (cache p)) as (Er & _ & _). rewrite Hv in Er.
  destruct (ca_try_get_with key (cache p)) as [r m] eqn:Et. cbn [fst] in Er.
  eexists _, _. cbn [replicate Pool.pool_run Pool.pool_step]. unfold goc_step at 1. rewrite Hi. simpl.
  unfold goc_step. simpl. rewrite E3, list_lookup_alter_eq, Hi. simpl. rewrite E1, Et. split; [done|].
  simpl. rewrite E3, !list_lookup_alter_eq, Hi. split; [done|]. subst r. by case_decide.
Qed.

(** [get_or_connect] cannot spin on its own: a caller at the head of its
    loop that is not interfered with returns, or waits for a dial, within five of
    its sections. *)
Theorem get_or_connect_progress (p : Pool) i key :
  tasks p !! i = Some (mkGoc key GTop) ->
  exists n p' t', n <= 5 /\ pool_run (replicate n (PRun i)) p = Some p' /\ tasks p' !! i = Some t' /\
    (waits (g_pc t') = true \/ exists r, g_pc t' = GDone r).
Proof.
  intros Hi. destruct (view p !! key) as [v|] eqn:Ev.
  - destruct (is_live (pc_conn v) p) eqn:El.
    + exists 2. eexists _, _. split; [lia|]. cbn [replicate Pool.pool_run Pool.pool_step].
      unfold goc_step at 1. rewrite Hi. simpl. rewrite ca_view_get, Ev. unfold goc_step.
      rewrite (lookup_put_task _ _ _ _ Hi). simpl.
      replace (is_live (pc_conn v) (put_task i (GGot v) p)) with true by (by rewrite <- El). split; [done|].
      destruct (emit_frame (PoolHit (remote_id_str v)) (put_task i (GGot v) p)) as (_ & _ & E3 & _).
      split; [simpl; rewrite E3; simpl; by rewrite !list_lookup_alter_eq, Hi|right; eexists; reflexivity].
    + set (p1 := put_task i (GGot v) p). set (p2 := put_task i (GStale v) p1).
      destruct (compare_and_remove key (dial_seq v) p2) as [r q] eqn:Ecr.
      pose proof (compare_and_remove_view _ _ _ _ _ Ecr) as (_ & Et & _ & _ & Ew).
      destruct r as [w|]; [|destruct Ew as [_ Ew]; by destruct (Ew v Ev)].
      set (p3 := put_task i GMiss (emit (PoolEvict (remote_id_str w)) q)).
      destruct (emit_frame (PoolEvict (remote_id_str w)) q) as (F1 & _ & F3 & _).
      assert (tasks p1 !! i = Some (mkGoc key (GGot v))) as Hp1 by (by apply (lookup_put_task _ _ _ _ Hi)).
      assert (tasks p2 !! i = Some (mkGoc key (GStale v))) as Hp2 by (by apply (lookup_put_task _ _ _ _ Hp1)).
      assert (tasks p3 !! i = Some (mkGoc key GMiss)) as Hp3.
      { simpl. rewrite F3, Et, list_lookup_alter_eq, Hp2. done. }
      assert (pool_run (replicate 3 (PRun i)) p = Some p3) as Hrun.
      { cbn [replicate Pool.pool_run Pool.pool_step]. unfold goc_step at 1. rewrite Hi. cbn [g_pc g_key].
        rewrite ca_view_get, Ev. fold p1. unfold goc_step at 1. rewrite Hp1. cbn [g_pc g_key].
        replace (is_live (pc_conn v) p1) with false by (by rewrite <- El). fold p2.
        unfold goc_step. rewrite Hp2. cbn [g_pc g_key]. by rewrite Ecr. }
      destruct (miss_progress p3 i key Hp3) as (p' & pc & Hrun2 & Hp' & Hw).
      { simpl. rewrite F1. destruct Ew as (_ & _ & ->). apply lookup_delete_eq. }
      exists 5, p', (mkGoc key pc). split; [lia|]. split; [|by auto].
      by apply (pool_run_app (replicate 3 (PRun i)) (replicate 2 (PRun i)) p p3 p').
  - set (p1 := put_task i GMiss p).
    destruct (miss_progress p1 i key) as (p' & pc & Hrun & Hp' & Hw); [by apply (lookup_put_task _ _ _ _ Hi)|done|].
    exists 3, p', (mkGoc key pc). split; [lia|]. split; [|by auto].
    change (replicate 3 (PRun i)) with (@PRun Id i :: replicate 2 (PRun i)).
    cbn [Pool.pool_run Pool.pool_step]. unfold goc_step at 1. rewrite Hi. cbn [g_pc g_key]. rewrite ca_view_get, Ev. done.
Qed.
End props.

(** ** Concrete runs *)

Abbreviation DemoPool := (Pool nat (MokaCache (nat * string) PooledConnection) ChanView).
Abbreviation demo_pool_run := (pool_run (M := MokaCache (nat * string) PooledConnection) (C := ChanView) pretty).

Definition demo_pool_new : DemoPool := pool_new (Some (mpsc_channel 8)) 5.
Definition demo_pool (l : list PoolAct) : DemoPool := default demo_pool_new (demo_pool_run l demo_pool_new).

Lemma demo_pool_reachable l :
  match demo_pool_run l demo_pool_new with Some _ => true | None => false end = true ->
  rtc (pstep pretty) (pool_new (Some (mpsc_channel 8)) 5) (demo_pool l).
Proof.
  unfold demo_pool. destruct (demo_pool_run l demo_pool_new) as [p|] eqn:E; [|done]. intros _.
  by apply (pool_run_rtc _ l).
Qed.

(** Two callers ask for node 7: the first dials, the second waits for it. *)
Definition demo_two_waiters : list (PoolAct (Id := nat)) :=
  [PCall (7, "h"); PCall (7, "h"); PRun 0; PRun 0; PRun 0; PRun 1; PRun 1; PRun 1].
Definition demo_dialed : list (PoolAct (Id := nat)) := demo_two_waiters ++ [PDial 0 (Ok tt)].

Lemma get_or_connect_live_witness : is_live 0 (demo_pool (demo_dialed ++ [PRun 0])) = true.
Proof.
  destruct (get_or_connect_result_live pretty (Some (mpsc_channel 8)) 5 (demo_pool demo_dialed)
    (demo_pool (demo_dialed ++ [PRun 0])) 0 (mkGoc (7, "h") (GOpened (mkPooled 0 "7" 5)))
    (mkGoc (7, "h") (GDone (Ok (mkPooled 0 "7" 5, false)))) (mkPooled 0 "7" 5) false) as [Hl _].
  - apply demo_pool_reachable. vm_compute. reflexivity.
  - vm_compute. reflexivity.
  - vm_compute. reflexivity.
  - vm_compute. reflexivity.
  - reflexivity.
  - exact Hl.
Defined.

(** The pooled connection is replaced; evicting the old one leaves the new one. *)
Definition demo_replaced : list (PoolAct (Id := nat)) :=
  demo_dialed ++ [PRun 0; PRun 1; PCacheEvict (7, "h"); PForeignDial; PCall (7, "h"); PRun 2; PRun 2; PRun 2;
                  PDial 2 (Ok tt)].

Lemma eviction_scoped_witness :
  conn_table (evict_and_close 7 "h" "r" (Some 5%Z) (demo_pool demo_replaced)) !! 1 =
  conn_table (demo_pool demo_replaced) !! 1.
Proof.
  destruct (eviction_is_connection_scoped pretty (Some (mpsc_channel 8)) 5 (demo_pool demo_replaced) (7, "h") "r" 0
    (mkConnInfo 7 None 5)) as (Hd & _ & _).
  - apply demo_pool_reachable. vm_compute. reflexivity.
  - vm_compute. discriminate.
  - vm_compute. reflexivity.
  - apply Hd. discriminate.
Defined.


Lemma get_or_connect_progress_witness :
  exists n p' t', n <= 5 /\ demo_pool_run (replicate n (PRun 0)) (demo_pool [PCall (7, "h")]) = Some p' /\
    tasks p' !! 0 = Some t' /\ (waits (g_pc t') = true \/ exists r, g_pc t' = GDone r).
Proof. apply (get_or_connect_progress pretty _ 0 (7, "h")). vm_compute. reflexivity. Defined.
