(* ===== verification/Client.v ===== *)
(** * Outgoing requests (http/client.rs)

    [fetch_request] as a machine whose steps are its awaits: two attempts at
    most, each connecting, opening a stream, performing hyper's handshake and
    sending, with the evictions between.  What the pool, the transport and hyper
    answer is the argument of a step; [f_trace] records every effect with its
    outcome.  The timeout of the configuration can strike before any step. *)

From stdpp Require Import base numbers list strings.
From Stdlib Require Import ZArith Lia.
From S2P Require Import Prelude Pool.

Open Scope string_scope.
Open Scope list_scope.

(** ** Errors *)

(** An error with its source chain, outermost first.  [CallerBody]: the private
    [CallerRequestBodyError] marker, with the text of its source. *)
Inductive ErrNode := CallerBody (source : string) | OtherErr (text : string).
Record HyperError := mkHyperError { he_text : string; he_chain : list ErrNode }.

Inductive FetchError :=
| ConnectionFailed (detail : string) (source : option HyperError)
| RequestBodyFailed (detail : string) (source : HyperError)
| HeaderTooLarge (detail : string)
| BodyTooLarge
| Timeout
| Cancelled
| Internal (msg : string).

(** [Display for FetchError]. *)
Definition fetch_error_display (e : FetchError) : string :=
  match e with
  | ConnectionFailed detail _ => "connection failed: " +:+ detail
  | RequestBodyFailed detail _ => "request body failed: " +:+ detail
  | HeaderTooLarge detail => "response header too large: " +:+ detail
  | BodyTooLarge => "response body too large"
  | Timeout => "request timed out"
  | Cancelled => "request cancelled"
  | Internal msg => "internal error: " +:+ msg
  end.

(** [Error::source] of a [FetchError]. *)
Definition fetch_error_source (e : FetchError) : option HyperError :=
  match e with
  | ConnectionFailed _ (Some s) => Some s
  | RequestBodyFailed _ s => Some s
  | _ => None
  end.

Fixpoint caller_detail (chain : list ErrNode) : option string :=
  match chain with
  | [] => None
  | CallerBody source :: _ => Some source
  | OtherErr _ :: rest => caller_detail rest
  end.
Definition caller_request_body_error_detail (e : HyperError) : option string := caller_detail (he_chain e).

(** ** Request bodies *)

(** A frame a body yields. *)
Inductive Frame := DataFrame (b : Bytes) | TrailersFrame (t : list (string * string)).

(** A body: the frames it will still yield, its exact size hint and whether it
    reports its end. *)
Record Body := mkBody {
  bd_frames : list (Result Frame ErrNode);
  bd_exact : option Z;
  bd_end_stream : bool
}.

Definition body_empty : Body := mkBody [] (Some 0%Z) true.

(** The text of an error node ([to_string]). *)
Definition node_text (n : ErrNode) : string :=
  match n with CallerBody s => "caller request body failed: " +:+ s | OtherErr t => t end.

(** [MarkCallerRequestBody]: its frames are the inner ones with every error
    marked, and an exact-zero hint of a body that is not at its end is masked. *)
Definition mark_poll_frame (f : Result Frame ErrNode) : Result Frame ErrNode :=
  match f with
  | Err source => Err (CallerBody (node_text source))
  | Ok frame => Ok frame
  end.

Definition mark_size_hint (mask_zero_data_hint : bool) (inner : option Z) : option Z :=
  if mask_zero_data_hint then None else inner.

Definition mark_caller_request_body (mask_zero_data_hint : bool) (b : Body) : Body :=
  mkBody (map mark_poll_frame (bd_frames b)) (mark_size_hint mask_zero_data_hint (bd_exact b))
    (bd_end_stream b).

(** ** Requests *)

Section client.
Context {Method Uri Version Headers Ext Response : Type}.
(** [Method::is_idempotent], and the extensions of a fresh request builder. *)
Context (is_idempotent : Method -> bool) (no_extensions : Ext).

Record Request := mkRequest {
  rq_method : Method;
  rq_uri : Uri;
  rq_version : Version;
  rq_headers : Headers;
  rq_extensions : Ext;
  rq_body : Body
}.

(** [body_resendable]. *)
Definition body_resendable (b : Body) : bool := bd_end_stream b && bool_decide (bd_exact b = Some 0%Z).

Definition retry_safe (req : Request) : bool := body_resendable (rq_body req) && is_idempotent (rq_method req).

(** The body of the first attempt. *)
Definition first_body (b : Body) : Body :=
  if bd_end_stream b then b
  else mark_caller_request_body (bool_decide (bd_exact b = Some 0%Z)) b.

Definition first_req (req : Request) : Request :=
  mkRequest (rq_method req) (rq_uri req) (rq_version req) (rq_headers req) (rq_extensions req)
    (first_body (rq_body req)).

(** [build_retry(Body::empty())]: the extensions are not carried over. *)
Definition build_retry (req : Request) : Request :=
  mkRequest (rq_method req) (rq_uri req) (rq_version req) (rq_headers req) no_extensions body_empty.

(** ** The machine *)

Inductive Attempt := First | Retry.

Inductive FetchPc :=
| FConnect (a : Attempt)                                          (* [get_or_connect] *)
| FOpen (a : Attempt) (p : PooledConnection) (reused : bool)      (* [open_bi] *)
| FHandshake (a : Attempt) (p : PooledConnection) (reused : bool)
| FSend (a : Attempt) (p : PooledConnection) (reused : bool)      (* [oneshot] *)
| FEvict (a : Attempt) (e : FetchError) (reused : bool)           (* [evict_and_close] *)
| FDone (r : Result Response FetchError).

(** The effects, with what they returned. *)
Inductive Effect :=
| EConnect (a : Attempt) (r : Result (PooledConnection * bool) string)
| ESend (a : Attempt) (req : Request) (p : PooledConnection) (r : Result Response HyperError)
| EEvictAndClose (reason : string) (seq : option Z)
| EEvictOnly (seq : option Z).

(** The answers of the environment. *)
Inductive FetchEnv :=
| AnsConnect (r : Result (PooledConnection * bool) string)
| AnsOpen (r : Result unit string)
| AnsHandshake (r : Result unit HyperError)
| AnsSend (r : Result Response HyperError)
| AnsEvicted.

Record FetchState := mkFetch {
  f_pc : FetchPc;
  last_dial_seq : option Z;
  f_trace : list Effect
}.

Definition fetch_start : FetchState := mkFetch (FConnect First) None [].

(** The request of an attempt. *)
Definition attempt_req (req : Request) (a : Attempt) : Request :=
  match a with First => first_req req | Retry => build_retry req end.

Definition evict_reason (a : Attempt) : string :=
  match a with First => "iroh-http fetch failed" | Retry => "iroh-http fetch retry failed" end.

(** What follows a failed attempt: a connection failure evicts first, any other
    failure is the result. *)
Definition attempt_failed (a : Attempt) (e : FetchError) (reused : bool) : FetchPc :=
  match e with
  | ConnectionFailed _ _ => FEvict a e reused
  | _ => FDone (Err e)
  end.

(** The classification of a send error. *)
Definition send_error (e : HyperError) : FetchError :=
  match caller_request_body_error_detail e with
  | Some detail => RequestBodyFailed detail e
  | None => ConnectionFailed ("send_request: " +:+ he_text e) (Some e)
  end.

Definition fetch_step (req : Request) (env : FetchEnv) (s : FetchState) : option FetchState :=
  match f_pc s, env with
  | FConnect a, AnsConnect r =>
      let tr := f_trace s ++ [EConnect a r] in
      match r with
      | Ok (pooled, reused) => Some (mkFetch (FOpen a pooled reused) (Some (dial_seq pooled)) tr)
      | Err e => Some (mkFetch (attempt_failed a (ConnectionFailed e None) false) None tr)
      end
  | FOpen a p reused, AnsOpen r =>
      match r with
      | Ok _ => Some (mkFetch (FHandshake a p reused) (last_dial_seq s) (f_trace s))
      | Err e => Some (mkFetch (attempt_failed a (ConnectionFailed ("open_bi: " +:+ e) None) reused)
                         (last_dial_seq s) (f_trace s))
      end
  | FHandshake a p reused, AnsHandshake r =>
      match r with
      | Ok _ => Some (mkFetch (FSend a p reused) (last_dial_seq s) (f_trace s))
      | Err e => Some (mkFetch (attempt_failed a
                                 (ConnectionFailed ("hyper handshake: " +:+ he_text e) (Some e)) reused)
                         (last_dial_seq s) (f_trace s))
      end
  | FSend a p reused, AnsSend r =>
      let tr := f_trace s ++ [ESend a (attempt_req req a) p r] in
      match r with
      | Ok resp => Some (mkFetch (FDone (Ok resp)) (last_dial_seq s) tr)
      | Err e => Some (mkFetch (attempt_failed a (send_error e) reused) (last_dial_seq s) tr)
      end
  | FEvict a e reused, AnsEvicted =>
      let tr := f_trace s ++ [EEvictAndClose (evict_reason a) (last_dial_seq s)] in
      match a with
      | First =>
          if reused && retry_safe req
          then Some (mkFetch (FConnect Retry) (last_dial_seq s) tr)
          else Some (mkFetch (FDone (Err e)) (last_dial_seq s) tr)
      | Retry => Some (mkFetch (FDone (Err e)) (last_dial_seq s) tr)
      end
  | _, _ => None
  end.

(** [cfg.timeout] strikes: the future is dropped, the pool entry invalidated. *)
Definition fetch_timeout (s : FetchState) : FetchState :=
  mkFetch (FDone (Err Timeout)) (last_dial_seq s) (f_trace s ++ [EEvictOnly (last_dial_seq s)]).

(** [fetch_request] against a list of answers; [strike]: the timeout strikes when
    the answers run out.  [None]: the machine is still waiting. *)
Fixpoint fetch_request (req : Request) (strike : bool) (envs : list FetchEnv) (s : FetchState)
  : option FetchState :=
  match f_pc s with
  | FDone _ => Some s
  | _ =>
      match envs with
      | [] => if strike then Some (fetch_timeout s) else None
      | env :: envs =>
          match fetch_step req env s with
          | Some s' => fetch_request req strike envs s'
          | None => None
          end
      end
  end.

(** ** Specification *)

(** What one attempt leaves in the trace before its eviction: the connection
    (with whether it was reused), and the send if it got that far. *)
Inductive attempt_trace (req : Request) (a : Attempt) : option (PooledConnection * bool) -> list Effect -> Prop :=
| at_no_conn e : attempt_trace req a None [EConnect a (Err e)]
| at_conn p b : attempt_trace req a (Some (p, b)) [EConnect a (Ok (p, b))]
| at_sent p b r :
    attempt_trace req a (Some (p, b)) [EConnect a (Ok (p, b)); ESend a (attempt_req req a) p r].

(** The connection failed rather than the request's own body. *)
Definition transport_failed (tr : list Effect) : Prop :=
  forall a rq p e, ESend a rq p (Err e) ∈ tr -> caller_request_body_error_detail e = None.
Definition no_response (tr : list Effect) : Prop :=
  forall a rq p x, ESend a rq p (Ok x) ∉ tr.

Definition used_seq (c : option (PooledConnection * bool)) : option Z := dial_seq ∘ fst <$> c.

(** The traces of a fetch before its timeout. *)
Inductive fetch_trace (req : Request) : list Effect -> Prop :=
| ft_nil : fetch_trace req []
| ft_first c tr : attempt_trace req First c tr -> fetch_trace req tr
| ft_evicted c tr :
    attempt_trace req First c tr -> transport_failed tr -> no_response tr ->
    fetch_trace req (tr ++ [EEvictAndClose (evict_reason First) (used_seq c)])
| ft_retry p tr c2 tr2 :
    attempt_trace req First (Some (p, true)) tr -> transport_failed tr -> no_response tr ->
    retry_safe req = true -> attempt_trace req Retry c2 tr2 ->
    fetch_trace req (tr ++ [EEvictAndClose (evict_reason First) (Some (dial_seq p))] ++ tr2)
| ft_retry_evicted p tr c2 tr2 :
    attempt_trace req First (Some (p, true)) tr -> transport_failed tr -> no_response tr ->
    retry_safe req = true -> attempt_trace req Retry c2 tr2 -> transport_failed tr2 -> no_response tr2 ->
    fetch_trace req (tr ++ [EEvictAndClose (evict_reason First) (Some (dial_seq p))] ++ tr2 ++
                     [EEvictAndClose (evict_reason Retry) (used_seq c2)]).
End client.

(** * Properties of outgoing requests

    Every run of [fetch_request] performs one of a few sequences of effects;
    what is retried, closed and evicted follows from them. *)

Section props.
Context {Method Uri Version Headers Ext Response : Type}.
Context (is_idempotent : Method -> bool) (no_extensions : Ext).

Abbreviation Request := (Request (Method := Method) (Uri := Uri) (Version := Version) (Headers := Headers) (Ext := Ext)).
Abbreviation FetchState := (FetchState (Method := Method) (Uri := Uri) (Version := Version)
  (Headers := Headers) (Ext := Ext) (Response := Response)).
Abbreviation fetch_step := (fetch_step (Response := Response) is_idempotent no_extensions).
Abbreviation fetch_request := (fetch_request (Response := Response) is_idempotent no_extensions).
Abbreviation fetch_trace := (fetch_trace (Response := Response) is_idempotent no_extensions).
Abbreviation attempt_trace := (attempt_trace (Response := Response) no_extensions).
Abbreviation fetch_start := (fetch_start (Method := Method) (Uri := Uri) (Version := Version)
  (Headers := Headers) (Ext := Ext) (Response := Response)).

(** ** The invariant of the machine *)

(** What precedes an attempt in the trace. *)
Inductive before (req : Request) : Attempt -> list Effect -> Prop :=
| before_first : before req First []
| before_retry p tr :
    attempt_trace req First (Some (p, true)) tr -> transport_failed tr -> no_response tr ->
    retry_safe is_idempotent req = true ->
    before req Retry (tr ++ [EEvictAndClose (evict_reason First) (Some (dial_seq p))]).

Lemma before_attempt req a pre c tr :
  before req a pre -> attempt_trace req a c tr -> fetch_trace req (pre ++ tr).
Proof.
  intros [|p tr1 H1 H2 H3 H4] Ha; [by eapply ft_first|]. rewrite <- app_assoc. by eapply ft_retry.
Qed.

Lemma before_evicted req a pre c tr :
  before req a pre -> attempt_trace req a c tr -> transport_failed tr -> no_response tr ->
  fetch_trace req (pre ++ tr ++ [EEvictAndClose (evict_reason a) (used_seq c)]).
Proof.
  intros [|p tr1 H1 H2 H3 H4] Ha Hf Hn; [by eapply ft_evicted|]. rewrite <- app_assoc.
  by eapply ft_retry_evicted.
Qed.

Lemma before_trace req a pre : before req a pre -> fetch_trace req pre.
Proof.
  intros [|p tr1 H1 H2 H3 H4]; [apply ft_nil|]. by apply (ft_evicted _ _ req (Some (p, true))).
Qed.

Definition fetch_inv (req : Request) (s : FetchState) : Prop :=
  match f_pc s with
  | FConnect a => before req a (f_trace s)
  | FOpen a p b | FHandshake a p b | FSend a p b =>
      exists pre, before req a pre /\ f_trace s = pre ++ [EConnect a (Ok (p, b))] /\
        last_dial_seq s = Some (dial_seq p)
  | FEvict a e b =>
      exists pre c tr, before req a pre /\ attempt_trace req a c tr /\ transport_failed tr /\ no_response tr /\
        f_trace s = pre ++ tr /\ last_dial_seq s = used_seq c /\ (b = true -> exists p, c = Some (p, true)) /\
        exists d src, e = ConnectionFailed d src
  | FDone _ => fetch_trace req (f_trace s)
  end.

Lemma no_send_ok (tr : list (Effect (Response := Response))) :
  (forall a rq p r, ESend (Method := Method) (Uri := Uri) (Version := Version) (Headers := Headers) (Ext := Ext) a rq p r ∉ tr) ->
  transport_failed tr /\ no_response tr.
Proof. intros Hn. split; intros a rq p x; [intros Hx; by destruct (Hn _ _ _ _ Hx)|apply Hn]. Qed.

Lemma connect_trace_ok a (r : Result (PooledConnection * bool) string) :
  transport_failed [EConnect (Method := Method) (Uri := Uri) (Version := Version) (Headers := Headers)
    (Ext := Ext) (Response := Response) a r] /\ no_response [EConnect (Method := Method) (Uri := Uri)
    (Version := Version) (Headers := Headers) (Ext := Ext) (Response := Response) a r].
Proof. apply no_send_ok. intros. by rewrite list_elem_of_singleton. Qed.

(** A connection failure after [c] was used. *)
Lemma evict_inv req a pre c tr d src b :
  before req a pre -> attempt_trace req a c tr -> transport_failed tr -> no_response tr ->
  (b = true -> exists p, c = Some (p, true)) ->
  fetch_inv req (mkFetch (FEvict a (ConnectionFailed d src) b) (used_seq c) (pre ++ tr)).
Proof. intros Hb Ha Hf Hn Hr. exists pre, c, tr. split_and!; eauto. Qed.

Lemma fetch_step_inv req env (s s' : FetchState) :
  fetch_step req env s = Some s' -> fetch_inv req s -> fetch_inv req s'.
Proof.
  intros Hs Hinv. unfold Client.fetch_step in Hs. unfold fetch_inv in Hinv.
  destruct (f_pc s) as [a|a p b|a p b|a p b|a e b|r] eqn:Epc; destruct env; try discriminate Hs.
  - destruct r as [[p b]|e]; injection Hs as <-.
    + exists (f_trace s). done.
    + destruct (connect_trace_ok a (Err e)). apply (evict_inv req a _ None); [exact Hinv|apply at_no_conn|done|done|done].
  - destruct Hinv as (pre & Hb & Ht & Hl). destruct r as [[]|e]; injection Hs as <-; [by exists pre|].
    destruct (connect_trace_ok a (Ok (p, b))).
    cbn [attempt_failed]. rewrite Hl, Ht.
    apply (evict_inv req a pre (Some (p, b))); [exact Hb|apply at_conn|done|done|].
    intros ->. eauto.
  - destruct Hinv as (pre & Hb & Ht & Hl). destruct r as [[]|e]; injection Hs as <-; [by exists pre|].
    destruct (connect_trace_ok a (Ok (p, b))).
    cbn [attempt_failed]. rewrite Hl, Ht.
    apply (evict_inv req a pre (Some (p, b))); [exact Hb|apply at_conn|done|done|].
    intros ->. eauto.
  - destruct Hinv as (pre & Hb & Ht & Hl). rewrite Ht, <- app_assoc in Hs. simpl in Hs.
    destruct r as [x|e]; [injection Hs as <-; eapply before_attempt; [exact Hb|apply at_sent]|].
    unfold send_error in Hs. destruct (caller_request_body_error_detail e) as [d|] eqn:Ed; injection Hs as <-.
    + eapply before_attempt; [exact Hb|apply at_sent].
    + rewrite Hl. apply (evict_inv req a pre (Some (p, b))); [exact Hb|apply at_sent| | |].
      * intros a' rq p' e'. rewrite !elem_of_cons, elem_of_nil. naive_solver.
      * intros a' rq p' x. rewrite !elem_of_cons, elem_of_nil. naive_solver.
      * intros ->. eauto.
  - destruct Hinv as (pre & c & tr & Hb & Ha & Hf & Hn & Ht & Hl & Hr & _).
    rewrite Ht, Hl, <- app_assoc in Hs.
    pose proof (before_evicted _ _ _ _ _ Hb Ha Hf Hn) as Hev.
    destruct a; [|injection Hs as <-; exact Hev].
    destruct (b && retry_safe is_idempotent req) eqn:Eb; injection Hs as <-; [|exact Hev].
    apply andb_prop in Eb as [-> Hsafe]. destruct (Hr eq_refl) as [p ->]. inversion Hb; subst. by apply before_retry.
Qed.

Lemma fetch_inv_trace req (s : FetchState) : fetch_inv req s -> fetch_trace req (f_trace s).
Proof.
  unfold fetch_inv. destruct (f_pc s).
  - apply before_trace.
  - intros (pre & Hb & -> & _). eapply before_attempt; [exact Hb|apply at_conn].
  - intros (pre & Hb & -> & _). eapply before_attempt; [exact Hb|apply at_conn].
  - intros (pre & Hb & -> & _). eapply before_attempt; [exact Hb|apply at_conn].
  - intros (pre & c & tr & Hb & Ha & _ & _ & -> & _). by eapply before_attempt.
  - done.
Qed.

(** A run ends in a step of the machine or in the timeout. *)
Lemma fetch_request_inv req strike envs (s s' : FetchState) :
  fetch_request req strike envs s = Some s' -> fetch_inv req s ->
  (fetch_inv req s' /\ exists r, f_pc s' = FDone r) \/
  (strike = true /\ exists s1, fetch_inv req s1 /\ s' = fetch_timeout s1).
Proof.
  revert s. induction envs as [|env envs IH]; intros s Hr Hinv; simpl in Hr.
  - destruct (f_pc s) eqn:Epc; try (destruct strike; [|discriminate Hr]; injection Hr as <-; right; eauto).
    injection Hr as <-. left. eauto.
  - destruct (f_pc s) eqn:Epc;
      try (destruct (fetch_step req env s) as [s1|] eqn:E; [|discriminate Hr];
           apply (IH s1); [done|by eapply fetch_step_inv]).
    injection Hr as <-. left. eauto.
Qed.

Lemma fetch_start_inv req : fetch_inv req fetch_start.
Proof. apply before_first. Qed.

(** ** Theorems *)

(** C7. Every completed [fetch_request] performed one of these sequences of
    effects: one attempt; one attempt whose transport failed before any response,
    followed by closing exactly the connection it used; or, when that connection
    was reused and the request may be replayed, one more attempt with the rebuilt
    request, again followed by closing exactly its own connection when its
    transport failed.  A timeout strikes only when one is configured, adds a
    single eviction that closes nothing, and yields the timeout error. *)
Theorem fetch_effects req strike envs (s : FetchState) :
  fetch_request req strike envs fetch_start = Some s ->
  (fetch_trace req (f_trace s) /\ exists r, f_pc s = FDone r) \/
  (strike = true /\ f_pc s = FDone (Err Timeout) /\
   exists tr seq, f_trace s = tr ++ [EEvictOnly seq] /\ fetch_trace req tr).
Proof.
  intros Hr. destruct (fetch_request_inv _ _ _ _ _ Hr (fetch_start_inv req)) as [[Hi Hd]|(Hs & s1 & Hi & ->)].
  - left. split; [by apply fetch_inv_trace|done].
  - right. split_and!; [done|done|]. simpl. exists (f_trace s1), (last_dial_seq s1). split; [done|].
    by apply fetch_inv_trace.
Qed.

Definition is_send (e : Effect (Method := Method) (Uri := Uri) (Version := Version) (Headers := Headers)
  (Ext := Ext) (Response := Response)) : bool := match e with ESend _ _ _ _ => true | _ => false end.
Definition sends l : nat := length (List.filter is_send l).

Lemma sends_app l k : sends (l ++ k) = sends l + sends k.
Proof. unfold sends. by rewrite List.filter_app, length_app. Qed.

Lemma attempt_sends req a c tr : attempt_trace req a c tr -> sends tr <= 1.
Proof. intros []; unfold sends; simpl; lia. Qed.

Lemma fetch_trace_sends req tr : fetch_trace req tr -> sends tr <= if retry_safe is_idempotent req then 2 else 1.
Proof.
  assert (forall r q, sends [EEvictAndClose r q] = 0) as He by done.
  assert (forall x : nat, x <= 1 -> x <= if retry_safe is_idempotent req then 2 else 1) as Hle
    by (intros; case_match; lia).
  intros [|c t Ha|c t Ha _ _|p t c2 t2 Ha _ _ Hs Ha2|p t c2 t2 Ha _ _ Hs Ha2 _ _];
    try (pose proof (attempt_sends _ _ _ _ Ha)); try (pose proof (attempt_sends _ _ _ _ Ha2));
    rewrite ?sends_app, ?He; try rewrite Hs; try apply Hle; try lia.
  unfold sends. simpl. lia.
Qed.

(** A request that is not idempotent, or whose body is not known to be
    empty and at its end, is sent at most once, and any request at most twice. *)
Theorem unsafe_request_sent_once req strike envs (s : FetchState) :
  fetch_request req strike envs fetch_start = Some s ->
  sends (f_trace s) <= 2 /\
  (is_idempotent (rq_method req) = false \/ bd_end_stream (rq_body req) = false \/
   bd_exact (rq_body req) <> Some 0%Z -> sends (f_trace s) <= 1).
Proof.
  intros Hr.
  assert (sends (f_trace s) <= if retry_safe is_idempotent req then 2 else 1) as Hs.
  { destruct (fetch_request_inv _ _ _ _ _ Hr (fetch_start_inv req)) as [[Hi Hd]|(_ & s1 & Hi & ->)].
    - by apply fetch_trace_sends, fetch_inv_trace.
    - simpl. rewrite sends_app. unfold sends at 2; simpl. rewrite Nat.add_0_r.
      by apply fetch_trace_sends, fetch_inv_trace. }
  unfold retry_safe, body_resendable in Hs. split; [case_match; lia|].
  intros Hu. destruct (is_idempotent (rq_method req)); destruct (bd_end_stream (rq_body req));
    rewrite ?andb_false_r in Hs; simpl in Hs; try done.
  case_bool_decide; [|done]. naive_solver.
Qed.

(** Answers to every question of the machine. *)
Record Oracle := mkOracle {
  o_connect : Attempt -> Result (PooledConnection * bool) string;
  o_open : Attempt -> Result unit string;
  o_handshake : Attempt -> Result unit HyperError;
  o_send : Attempt -> Result Response HyperError
}.
Definition answer (o : Oracle) (s : FetchState) : FetchEnv :=
  match f_pc s with
  | FConnect a => AnsConnect (o_connect o a)
  | FOpen a _ _ => AnsOpen (o_open o a)
  | FHandshake a _ _ => AnsHandshake (o_handshake o a)
  | FSend a _ _ => AnsSend (o_send o a)
  | FEvict _ _ _ | FDone _ => AnsEvicted
  end.
Fixpoint fetch_run (req : Request) (o : Oracle) (fuel : nat) (s : FetchState) : FetchState :=
  match fuel with
  | O => s
  | S n => match fetch_step req (answer o s) s with Some s' => fetch_run req o n s' | None => s end
  end.

(** Steps left. *)
Definition rank (s : FetchState) : nat :=
  match f_pc s with
  | FConnect First => 10 | FOpen First _ _ => 9 | FHandshake First _ _ => 8 | FSend First _ _ => 7
  | FEvict First _ _ => 6 | FConnect Retry => 5 | FOpen Retry _ _ => 4 | FHandshake Retry _ _ => 3
  | FSend Retry _ _ => 2 | FEvict Retry _ _ => 1 | FDone _ => 0
  end.

Lemma answer_step req o (s : FetchState) :
  rank s <> 0 -> exists s', fetch_step req (answer o s) s = Some s' /\ rank s' < rank s.
Proof.
  unfold rank, answer, Client.fetch_step. intros Hr.
  destruct (f_pc s) as [[]|[] p b|[] p b|[] p b|[] e b|r]; try done;
    repeat case_match; simplify_eq/=; eexists; (split; [reflexivity|]); simpl;
    unfold send_error; repeat case_match; simplify_eq/=; lia.
Qed.

(** A fetch terminates: whatever the pool, the transport and hyper answer, it
    returns after at most ten of them. *)
Theorem fetch_terminates req o :
  exists r, f_pc (fetch_run req o 10 fetch_start) = FDone r.
Proof.
  assert (forall n s, rank s <= n -> exists r, f_pc (fetch_run req o n s) = FDone r) as Hn.
  { induction n as [|n IH]; intros s Hr; simpl.
    - unfold rank in Hr. destruct (f_pc s) as [[]|[]|[]|[]|[]|r]; try lia. eauto.
    - destruct (decide (rank s = 0)) as [E|E].
      + unfold rank in E. destruct (f_pc s) as [[]|[]|[]|[]|[]|r] eqn:Epc; try lia. exists r.
        unfold Client.fetch_step, answer. rewrite Epc. by rewrite Epc.
      + destruct (answer_step req o s E) as (s' & -> & Hlt). apply IH. lia. }
  apply Hn. done.
Qed.
End props.

(** ** Concrete fetches *)

(** Methods are their names. *)
Definition demo_idempotent (m : string) : bool := bool_decide (m ∈ ["GET"; "HEAD"; "PUT"; "DELETE"; "OPTIONS"; "TRACE"]).
Definition demo_req (m : string) (b : Body) : Request := mkRequest m "/" tt [("a", "b")] tt b.
(** A reused connection whose send fails, then a fresh one that answers. *)
Definition demo_answers : list (FetchEnv (Response := nat)) :=
  [AnsConnect (Ok (mkPooled 0 "7" 0, true)); AnsOpen (Ok tt); AnsHandshake (Ok tt);
   AnsSend (Err (mkHyperError "gone" [OtherErr "gone"])); AnsEvicted;
   AnsConnect (Ok (mkPooled 1 "7" 1, false)); AnsOpen (Ok tt); AnsHandshake (Ok tt); AnsSend (Ok 200)].
Definition demo_fetch (m : string) (strike : bool) (envs : list (FetchEnv (Response := nat))) :=
  fetch_request demo_idempotent tt (demo_req m body_empty) strike envs fetch_start.

Lemma fetch_effects_witness :
  exists s, demo_fetch "GET" false demo_answers = Some s /\ f_pc s = FDone (Ok 200) /\
    fetch_trace demo_idempotent tt (demo_req "GET" body_empty) (f_trace s).
Proof.
  eexists. split; [vm_compute; reflexivity|]. split; [reflexivity|].
  destruct (fetch_effects (Response := nat) demo_idempotent tt (demo_req "GET" body_empty) false demo_answers
    (default fetch_start (demo_fetch "GET" false demo_answers))) as [[Ht _]|(Hf & _)].
  - vm_compute. reflexivity.
  - exact Ht.
  - discriminate Hf.
Defined.

Lemma unsafe_request_witness :
  exists s, demo_fetch "POST" false demo_answers = Some s /\ sends (f_trace s) <= 1.
Proof.
  eexists. split; [vm_compute; reflexivity|].
  refine (proj2 (unsafe_request_sent_once (Response := nat) demo_idempotent tt (demo_req "POST" body_empty) false
    demo_answers _ _) _).
  - vm_compute. reflexivity.
  - left. vm_compute. reflexivity.
Defined.
