(* ===== verification/Text.v ===== *)
(** * String operations of the standard library

    The [str] methods the components use, on byte strings. *)

From stdpp Require Import base numbers list strings sets.
From Stdlib Require Import ZArith Lia Strings.Ascii.
From S2P Require Import Prelude.

Open Scope string_scope.
Open Scope list_scope.

Fixpoint chars (s : string) : list ascii :=
  match s with EmptyString => [] | String a s => a :: chars s end.
Fixpoint text (l : list ascii) : string :=
  match l with [] => EmptyString | a :: l => String a (text l) end.

Lemma text_chars s : text (chars s) = s.
Proof. induction s; simpl; congruence. Qed.
Lemma chars_text l : chars (text l) = l.
Proof. induction l; simpl; congruence. Qed.
Lemma chars_app s t : chars (s +:+ t) = chars s ++ chars t.
Proof. induction s as [|a s IH]; [done|]. cbn. by rewrite <- IH. Qed.
Lemma text_app l k : text (l ++ k) = text l +:+ text k.
Proof. induction l as [|a l IH]; [done|]. cbn. by rewrite IH. Qed.

(** [str::len]. *)
Definition str_len (s : string) : Z := Z.of_nat (String.length s).

(** [u8::to_ascii_lowercase]. *)
Definition lower_char (a : ascii) : ascii :=
  let n := nat_of_ascii a in
  if ((65 <=? n) && (n <=? 90))%nat then ascii_of_nat (n + 32) else a.
Fixpoint to_ascii_lowercase (s : string) : string :=
  match s with EmptyString => "" | String a s => String (lower_char a) (to_ascii_lowercase s) end.

Definition eq_ignore_ascii_case (s t : string) : bool :=
  bool_decide (to_ascii_lowercase s = to_ascii_lowercase t).

(** [str::strip_prefix]. *)
Fixpoint strip_prefix (p s : string) : option string :=
  match p, s with
  | EmptyString, _ => Some s
  | String a p, String b s => if decide (a = b) then strip_prefix p s else None
  | String _ _, EmptyString => None
  end.
Definition starts_with (p s : string) : bool :=
  match strip_prefix p s with Some _ => true | None => false end.

(** What precedes the first [c], and what starts with it, if it occurs. *)
Fixpoint split_at_char (c : ascii) (s : string) : string * option string :=
  match s with
  | EmptyString => ("", None)
  | String a s' =>
      if decide (a = c) then ("", Some s)
      else let '(pre, rest) := split_at_char c s' in (String a pre, rest)
  end.

(** [str::find] of a string: the byte offset of its first occurrence. *)
Fixpoint find_str (p s : string) : option nat :=
  if starts_with p s then Some 0
  else match s with
       | EmptyString => None
       | String _ s => S <$> find_str p s
       end.
Definition contains (p s : string) : bool :=
  match find_str p s with Some _ => true | None => false end.

(** [str::parse::<u64>]: an optional plus sign and at least one digit. *)
Definition digit (a : ascii) : option Z :=
  let n := nat_of_ascii a in
  if ((48 <=? n) && (n <=? 57))%nat then Some (Z.of_nat n - 48)%Z else None.
Fixpoint parse_digits (acc : Z) (s : string) : option Z :=
  match s with
  | EmptyString => Some acc
  | String a s =>
      match digit a with
      | Some d => let n := (acc * 10 + d)%Z in if (n <=? U64_MAX)%Z then parse_digits n s else None
      | None => None
      end
  end.
Definition parse_u64 (s : string) : option Z :=
  let s := match s with String "+" rest => rest | _ => s end in
  match s with EmptyString => None | _ => parse_digits 0 s end.

(** ** Lemmas *)

Lemma strip_prefix_Some p s r : strip_prefix p s = Some r <-> s = p +:+ r.
Proof.
  revert s. induction p as [|a p IH]; intros s; simpl; [naive_solver|].
  destruct s as [|b s]; [naive_solver|]. case_decide as Hab; [subst|].
  - rewrite IH. split; [by intros ->|by intros [= ->]].
  - split; [done|]. intros [= ? _]. congruence.
Qed.

Lemma split_at_char_spec c s :
  match split_at_char c s with
  | (pre, Some rest) => s = pre +:+ rest /\ exists r, rest = String c r
  | (pre, None) => s = pre
  end /\ c ∉ chars (split_at_char c s).1.
Proof.
  induction s as [|a s IH]; simpl; [split; [done|set_solver]|].
  case_decide as Ha; [subst; simpl; split; [eauto|set_solver]|].
  destruct (split_at_char c s) as [pre [rest|]]; simpl in *; destruct IH as [IH Hn];
    (split; [|rewrite not_elem_of_cons; auto]).
  - destruct IH as [-> Hr]. done.
  - by rewrite IH.
Qed.

(** ** Concatenation *)

Definition no_char (c : ascii) (s : string) : Prop := c ∉ chars s.

Lemma append_nil (s : string) : "" +:+ s = s.
Proof. done. Qed.
Lemma append_cons a (s t : string) : String a s +:+ t = String a (s +:+ t).
Proof. done. Qed.

Lemma no_char_app c s t : no_char c (s +:+ t) <-> no_char c s /\ no_char c t.
Proof. unfold no_char. rewrite chars_app, elem_of_app. tauto. Qed.

Lemma no_char_cons c a s : no_char c (String a s) <-> c <> a /\ no_char c s.
Proof. unfold no_char. cbn. rewrite not_elem_of_cons. done. Qed.

Lemma append_assoc (s t u : string) : s +:+ (t +:+ u) = (s +:+ t) +:+ u.
Proof. induction s as [|a s IH]; [done|]. rewrite ?append_cons. f_equal. exact IH. Qed.

Lemma str_len_app s t : str_len (s +:+ t) = (str_len s + str_len t)%Z.
Proof.
  unfold str_len. rewrite <- Nat2Z.inj_add. f_equal.
  induction s as [|a s IH]; [done|]. rewrite append_cons. simpl. by rewrite IH.
Qed.

Lemma str_len_nonneg s : (0 <= str_len s)%Z.
Proof. unfold str_len. lia. Qed.

Lemma str_len_0 s : str_len s = 0%Z -> s = "".
Proof. destruct s; [done|]. unfold str_len. simpl. lia. Qed.
