(* ===== verification/Dispatcher.v ===== *)
(** * Request dispatch and respond (ffi/dispatcher.rs)

    [FfiDispatcher::dispatch] turns an incoming request into handles and a
    callback payload and then awaits the response head; [respond] is its
    partner.  The call up to the await is [dispatch_start], a poll of the await
    [dispatch_poll], and dropping the suspended call [dispatch_drop].  Header
    values are raw bytes; their text form and the validity of status codes,
    header names and values are the [http] crate's. *)

From stdpp Require Import base numbers list strings gmap fin_maps pretty.
From Stdlib Require Import ZArith Lia.
From S2P Require Import Prelude Text Errors Extern BodyChannel Handles.

Open Scope string_scope.
Open Scope list_scope.

(** The parts of a [hyper::Request] that dispatch reads; header names are in the
    lower-case form the [HeaderMap] keeps them in. *)
Record HttpRequest := mkHttpRequest {
  hq_method : string;
  hq_path_and_query : option string;
  hq_uri : string;
  hq_headers : list (string * Bytes)
}.

Inductive RespBody := BodyEmpty | BodyFull (s : string) | BodyReading (r : BodyReader).
Record HttpResponse := mkResponse {
  rs_status : Z;
  rs_headers : list (string * string);
  rs_body : RespBody
}.

Record RequestPayload := mkPayload {
  req_handle : Z;
  req_body_handle : Z;
  res_body_handle : Z;
  pl_method : string;
  pl_url : string;
  pl_headers : list (string * string);
  pl_remote_node_id : string;
  is_bidi : bool
}.

(** [FfiDispatcher], without the callback. *)
Record FfiDispatcher := mkDispatcher {
  own_node_id : string;
  d_max_header_size : option Z;
  d_max_request_body_wire_bytes : option Z
}.

Definition internal_error (detail : string) : HttpResponse := mkResponse 500 [] (BodyFull detail).
Definition service_unavailable (detail : string) : HttpResponse := mkResponse 503 [] (BodyFull detail).

(** [ffi_serve_with_callback]: the dispatcher it builds; zero disables the
    header budget. *)
Definition ffi_dispatcher (endpoint_node_id : string) (endpoint_max_header_size : Z)
  (max_request_body_wire_bytes : option Z) : FfiDispatcher :=
  mkDispatcher endpoint_node_id
    (if (endpoint_max_header_size =? 0)%Z then None else Some endpoint_max_header_size)
    max_request_body_wire_bytes.

Definition is_peer_id (name : string) : bool := eq_ignore_ascii_case name "peer-id".

(** The size of a header line: ": " and the line end. *)
Definition header_line (h : string * Bytes) : Z := sat_add (sat_add (str_len h.1) (len h.2)) 4.

Definition request_header_bytes (req : HttpRequest) (remote_node_id : string) : Z :=
  let lines := List.filter (fun h => negb (is_peer_id h.1)) (hq_headers req) in
  let n := fold_left (fun acc h => sat_add acc (header_line h)) lines 0%Z in
  let n := sat_add n (str_len "peer-id") in
  let n := sat_add n (str_len remote_node_id) in
  let n := sat_add n 4 in
  let n := sat_add n (str_len (hq_uri req)) in
  let n := sat_add n (str_len (hq_method req)) in
  sat_add n 12.

Section dispatcher.
Context {K : Type} {M : Type -> Type} `{SlotMap K M} {C : Type -> Type} `{Mpsc C}.
(** [HeaderValue::to_str]; [StatusCode::from_u16], [HeaderName::from_bytes] and
    [HeaderValue::from_str] succeed; [{:?}] of a string. *)
Context (hv_to_str : Bytes -> option string).
Context (status_ok : Z -> bool) (header_name_ok header_value_ok : string -> bool).
Context (debug_str : string -> string).

#[local] Abbreviation world := (World M C).

(** ** [respond] *)

Fixpoint check_headers (headers : list (string * string)) : Result unit CoreError :=
  match headers with
  | [] => Ok tt
  | (name, value) :: rest =>
      if negb (header_name_ok name)
      then Err (invalid_input ("invalid response header name " +:+ debug_str name))
      else if negb (header_value_ok value)
      then Err (invalid_input ("invalid response header value for " +:+ debug_str name))
      else check_headers rest
  end.

(** [oneshot::Sender::send]: fails when the receiver is gone. *)
Definition oneshot_send (c : nat) (v : ResponseHeadEntry) (w : world) : bool * world :=
  match hp_heads (heap w) !! c with
  | Some o =>
      if os_rx o then (true, upd_head (fun o => mkOneshot (Some v) false (os_rx o)) c w)
      else (false, drop_sender c w)
  | None => (false, w)
  end.

Definition respond (req_handle status : Z) (headers : list (string * string)) (w : world)
  : Result unit CoreError * world :=
  if negb (status_ok status)
  then (Err (invalid_input ("invalid HTTP status code: " +:+ pretty status)), w)
  else
    match check_headers headers with
    | Err e => (Err e, w)
    | Ok _ =>
        match take_req_sender req_handle w with
        | (None, w) => (Err (invalid_handle req_handle), w)
        | (Some sender, w) =>
            match oneshot_send sender (mkHead status headers) w with
            | (true, w) => (Ok tt, w)
            | (false, w) => (Err (internal "serve task dropped before respond"), w)
            end
        end
    end.

(** ** [dispatch] *)

(** The header list handed to the callback: [None] for a value that is not text. *)
Fixpoint convert_headers (headers : list (string * Bytes)) : option (list (string * string)) :=
  match headers with
  | [] => Some []
  | (k, v) :: rest =>
      if is_peer_id k then convert_headers rest
      else match hv_to_str v with
           | Some s => match convert_headers rest with Some l => Some ((k, s) :: l) | None => None end
           | None => None
           end
  end.

(** [headers().get(CONTENT_LENGTH)]. *)
Fixpoint header_get (name : string) (headers : list (string * Bytes)) : option Bytes :=
  match headers with
  | [] => None
  | (k, v) :: rest => if decide (k = name) then Some v else header_get name rest
  end.

Definition content_length_over (limit : Z) (req : HttpRequest) : bool :=
  match header_get "content-length" (hq_headers req) with
  | Some v =>
      match hv_to_str v with
      | Some s => match parse_u64 s with Some len => (limit <? len)%Z | None => false end
      | None => false
      end
  | None => false
  end.

(** The checks before anything is allocated: a response, or the headers. *)
Definition dispatch_checks (d : FfiDispatcher) (req : HttpRequest) (remote_node_id : string)
  : HttpResponse + list (string * string) :=
  if match d_max_header_size d with
     | Some limit => (limit <? request_header_bytes req remote_node_id)%Z
     | None => false
     end
  then inl (mkResponse 431 [] BodyEmpty)
  else
    match convert_headers (hq_headers req) with
    | None => inl (mkResponse 400 [] (BodyFull "non-UTF8 header value"))
    | Some l =>
        if match d_max_request_body_wire_bytes d with
           | Some limit => content_length_over limit req
           | None => false
           end
        then inl (mkResponse 413 [] BodyEmpty)
        else inr (l ++ [("peer-id", remote_node_id)])
    end.

(** The suspended call: its [ReqHeadGuard], the receiver it awaits and the
    reading half of the response body. *)
Record PendingDispatch := mkPendingDispatch {
  pd_req_handle : Z;
  pd_head : nat;
  pd_res_reader : BodyReader
}.

Definition drop_head_rx (c : nat) : world -> world :=
  upd_head (fun o => mkOneshot (os_value o) (os_tx o) false) c.

Definition table_full : HttpResponse := service_unavailable "server handle table full".

(** The allocation section: the three handles, the request-body writer that the
    pump takes and the suspended call, or a 503 with everything undone. *)
Definition dispatch_alloc (now : Z) (w : world)
  : (HttpResponse + (Z * Z * BodyWriter * PendingDispatch)) * world :=
  let g := insert_guard in
  let '(req_writer, req_reader, w) := make_body_channel w in
  match guard_insert_reader now req_reader g w with
  | (Err _, g, w) => (inl table_full, guard_drop g (drop_writer req_writer w))
  | (Ok req_body_handle, g, w) =>
      let '(res_writer, res_reader, w) := make_body_channel w in
      match guard_insert_writer now res_writer g w with
      | (Err _, g, w) =>
          (inl table_full, guard_drop g (drop_writer req_writer (drop_reader res_reader w)))
      | (Ok res_body_handle, g, w) =>
          let '(head, w) := oneshot_channel w in
          match guard_allocate_req_handle now head g w with
          | (Err _, g, w) =>
              (inl table_full,
               guard_drop g (drop_writer req_writer (drop_reader res_reader (drop_head_rx head w))))
          | (Ok req_handle, g, w) =>
              (inr (req_body_handle, res_body_handle, req_writer,
                    mkPendingDispatch req_handle head res_reader),
               guard_drop (commit g) w)
          end
      end
  end.

(** [dispatch] up to the await: a response, or the payload of the callback with
    the writer the pump was spawned on and the suspended call. *)
Definition dispatch_start (now : Z) (d : FfiDispatcher) (req : HttpRequest) (remote_node_id : string)
  (w : world) : (HttpResponse + (RequestPayload * BodyWriter * PendingDispatch)) * world :=
  match dispatch_checks d req remote_node_id with
  | inl resp => (inl resp, w)
  | inr headers =>
      let url := "httpi://" +:+ own_node_id d +:+ default "/" (hq_path_and_query req) in
      match dispatch_alloc now w with
      | (inl resp, w) => (inl resp, w)
      | (inr (req_body, res_body, pump, pd), w) =>
          (inr (mkPayload (pd_req_handle pd) req_body res_body (hq_method req) url headers
                  remote_node_id false, pump, pd), w)
      end
  end.

(** [Drop for ReqHeadGuard]. *)
Definition req_head_guard_drop (h : Z) (w : world) : world :=
  match take_req_sender h w with
  | (Some c, w) => drop_sender c w
  | (None, w) => w
  end.

Definition headers_ok (l : list (string * string)) : bool :=
  forallb (fun h => header_name_ok h.1 && header_value_ok h.2) l.

(** A poll of [head_rx] and, when it is ready, the rest of the call. *)
Definition dispatch_poll (pd : PendingDispatch) (w : world) : Poll HttpResponse * world :=
  match hp_heads (heap w) !! pd_head pd with
  | None => (Pending, w)
  | Some o =>
      match os_value o with
      | Some head =>
          let w := drop_head_rx (pd_head pd) w in
          if status_ok (status head) && headers_ok (headers head)
          then (Ready (mkResponse (status head) (headers head) (BodyReading (pd_res_reader pd))),
                req_head_guard_drop (pd_req_handle pd) w)
          else (Ready (internal_error "failed to build response head from JS"),
                req_head_guard_drop (pd_req_handle pd) (drop_reader (pd_res_reader pd) w))
      | None =>
          if os_tx o then (Pending, w)
          else (Ready (internal_error "JS handler dropped without responding"),
                req_head_guard_drop (pd_req_handle pd)
                  (drop_reader (pd_res_reader pd) (drop_head_rx (pd_head pd) w)))
      end
  end.

(** The suspended call is dropped (a timeout, an abort). *)
Definition dispatch_drop (pd : PendingDispatch) (w : world) : world :=
  req_head_guard_drop (pd_req_handle pd) (drop_reader (pd_res_reader pd) (drop_head_rx (pd_head pd) w)).

(** [IrohHttpService::call]: the peer id comes from the request extension. *)
Definition service_call (now : Z) (d : FfiDispatcher) (req : HttpRequest) (extension : option string) (w : world) :=
  dispatch_start now d req (default "" extension) w.
End dispatcher.
