(* ===== verification/DispatcherProps.v ===== *)
(** * Properties of request dispatch

    The identity the callback sees, the size checks, all-or-nothing allocation
    and the rendezvous with [respond]. *)

From stdpp Require Import base numbers list strings gmap fin_maps pretty.
From Stdlib Require Import ZArith Lia.
From S2P Require Import Prelude Text Errors Extern BodyChannel Handles HandlesFacts Dispatcher.

Open Scope string_scope.
Open Scope list_scope.

(** ** Header accounting *)

(** The size without saturation. *)
Definition exact_header_bytes (req : HttpRequest) (remote_node_id : string) : Z :=
  (zsum (fun h => str_len h.1 + len h.2 + 4)%Z
     (List.filter (fun h => negb (is_peer_id h.1)) (hq_headers req)) +
   7 + str_len remote_node_id + 4 + str_len (hq_uri req) + str_len (hq_method req) + 12)%Z.

Lemma sat_add_min a b : (0 <= b)%Z -> sat_add (Z.min a USIZE_MAX) b = Z.min (a + b) USIZE_MAX.
Proof. unfold sat_add. lia. Qed.

Lemma header_line_min h : header_line h = Z.min (str_len h.1 + len h.2 + 4) USIZE_MAX.
Proof. unfold header_line. unfold sat_add at 2. by rewrite sat_add_min. Qed.

Lemma fold_header_lines l acc :
  (0 <= acc)%Z ->
  fold_left (fun acc h => sat_add acc (header_line h)) l (Z.min acc USIZE_MAX) =
  Z.min (acc + zsum (fun h => str_len h.1 + len h.2 + 4)%Z l) USIZE_MAX.
Proof.
  revert acc. induction l as [|h l IH]; intros acc Ha; cbn [fold_left zsum]; [by rewrite Z.add_0_r|].
  pose proof (str_len_nonneg h.1). pose proof (len_nonneg h.2).
  assert (sat_add (Z.min acc USIZE_MAX) (header_line h) =
    Z.min (acc + (str_len h.1 + len h.2 + 4)) USIZE_MAX) as ->.
  { rewrite header_line_min. unfold sat_add, USIZE_MAX, U64_MAX. lia. }
  rewrite IH by lia. by rewrite <- Z.add_assoc.
Qed.

Lemma request_header_bytes_min req remote :
  request_header_bytes req remote = Z.min (exact_header_bytes req remote) USIZE_MAX.
Proof.
  unfold request_header_bytes, exact_header_bytes.
  change (fold_left (fun acc h => sat_add acc (header_line h)) ?l 0%Z) with
    (fold_left (fun acc h => sat_add acc (header_line h)) l (Z.min 0 USIZE_MAX)).
  rewrite fold_header_lines by lia.
  rewrite !sat_add_min by (try apply str_len_nonneg; lia).
  change (str_len "peer-id") with 7%Z. f_equal.
Qed.

Section props.
Context {K : Type} {M : Type -> Type} `{HSM : SlotMap K M} `{Countable K} `{HSL : !SlotMapLaws K M}.
Context {C : Type -> Type} `{HMP : Mpsc C} `{HML : !MpscLaws C}.
Context (hv_to_str : Bytes -> option string).
Context (status_ok : Z -> bool) (header_name_ok header_value_ok : string -> bool).
Context (debug_str : string -> string).
#[local] Abbreviation world := (World M C).
#[local] Abbreviation dispatch_start := (dispatch_start (C := C) hv_to_str).
#[local] Abbreviation dispatch_checks := (dispatch_checks hv_to_str).
#[local] Abbreviation dispatch_poll := (dispatch_poll (C := C) status_ok header_name_ok header_value_ok).
#[local] Abbreviation respond := (respond (C := C) status_ok header_name_ok header_value_ok debug_str).

(** ** Lemmas *)

Lemma convert_headers_spec hs l :
  convert_headers hv_to_str hs = Some l ->
  Forall (fun h => is_peer_id h.1 = false) l /\
  Forall2 (fun h h' => h.1 = h'.1 /\ hv_to_str h.2 = Some h'.2)
    (List.filter (fun h => negb (is_peer_id h.1)) hs) l.
Proof.
  revert l. induction hs as [|[k v] hs IH]; intros l; simpl.
  - intros [= <-]. split; constructor.
  - destruct (is_peer_id k) eqn:Ek; simpl; [apply IH|].
    destruct (hv_to_str v) as [s|] eqn:Ev; [|done].
    destruct (convert_headers hv_to_str hs) as [l'|]; [|done]. intros [= <-].
    destruct (IH l' eq_refl) as [H1 H2]. split; by constructor.
Qed.

Lemma views_make_body_channel (w : world) : handle_views (make_body_channel w).2 = handle_views w.
Proof. done. Qed.
Lemma views_oneshot (w : world) : handle_views (oneshot_channel w).2 = handle_views w.
Proof. done. Qed.
Lemma views_drop_writer x (w : world) : handle_views (drop_writer x w) = handle_views w.
Proof. done. Qed.
Lemma views_drop_reader x (w : world) : handle_views (drop_reader x w) = handle_views w.
Proof. done. Qed.
Lemma views_drop_head_rx c (w : world) : handle_views (drop_head_rx c w) = handle_views w.
Proof. done. Qed.

(** The three inserts of an allocation that succeeds, or what is left of one
    that does not. *)
Lemma dispatch_alloc_spec now (w : world) :
  match dispatch_alloc now w with
  | (inl resp, w') => resp = table_full /\ handle_views w' = handle_views w
  | (inr (req_body, res_body, pump, pd), w') =>
      exists k1 k2 k3 c1 c2 c3,
        req_body = key_to_handle k1 /\ res_body = key_to_handle k2 /\ pd_req_handle pd = key_to_handle k3 /\
        pump = mkWriter c1 (cfg_drain_timeout (config (store w))) /\
        pd_res_reader pd = mkReader c2 /\ pd_head pd = c3 /\
        sm_view (readers (store w)) !! k1 = None /\ sm_view (writers (store w)) !! k2 = None /\
        sm_view (request_heads (store w)) !! k3 = None /\
        sm_view (readers (store w')) = <[k1 := timed_new now (mkReader c1)]> (sm_view (readers (store w))) /\
        sm_view (writers (store w')) =
          <[k2 := timed_new now (mkWriter c2 (cfg_drain_timeout (config (store w))))]>
            (sm_view (writers (store w))) /\
        sm_view (request_heads (store w')) = <[k3 := timed_new now c3]> (sm_view (request_heads (store w))) /\
        sessions (store w') = sessions (store w) /\ fetch_cancels (store w') = fetch_cancels (store w) /\
        pending_readers (store w') = pending_readers (store w) /\
        hp_heads (heap w') !! c3 = Some (mkOneshot None true true)
  end.
Proof.
  unfold dispatch_alloc. simpl. unfold guard_insert_reader, insert_reader. simpl.
  destruct (insert_checked now (readers (store w)) _ _) as [[h1|e1] r1] eqn:E1; simpl; [|done].
  apply insert_checked_view in E1 as (_ & k1 & -> & Hk1 & Hv1).
  unfold guard_insert_writer, insert_writer. simpl.
  destruct (insert_checked now (writers (store w)) _ _) as [[h2|e2] r2] eqn:E2; simpl.
  2: { split; [done|]. rewrite guard_drop_views by done. unfold handle_views, handle_to_key; simpl.
       unfold handle_to_key. by rewrite from_as_ffi, Hv1, delete_insert_id. }
  apply insert_checked_view in E2 as (_ & k2 & -> & Hk2 & Hv2).
  unfold guard_allocate_req_handle, allocate_req_handle. simpl.
  destruct (insert_checked now (request_heads (store w)) _ _) as [[h3|e3] r3] eqn:E3; simpl.
  - apply insert_checked_view in E3 as (_ & k3 & -> & Hk3 & Hv3).
    eexists k1, k2, k3, _, _, _. split_and!; try done. simpl. by rewrite lookup_insert_eq.
  - split; [done|].
    rewrite guard_drop_views by done. unfold handle_views; simpl. unfold handle_to_key.
    by rewrite !from_as_ffi, Hv1, Hv2, !delete_insert_id.
Qed.

(** What a checked request becomes. *)
Lemma dispatch_start_inr now d req remote (w w' : world) pl pump pd :
  dispatch_start now d req remote w = (inr (pl, pump, pd), w') ->
  exists hs req_body res_body,
    dispatch_checks d req remote = inr hs /\
    dispatch_alloc now w = (inr (req_body, res_body, pump, pd), w') /\
    pl = mkPayload (pd_req_handle pd) req_body res_body (hq_method req)
           ("httpi://" +:+ own_node_id d +:+ default "/" (hq_path_and_query req)) hs remote false.
Proof.
  unfold Dispatcher.dispatch_start. destruct (dispatch_checks d req remote) as [resp|hs] eqn:Ec; [intros; simplify_eq|].
  destruct (dispatch_alloc now w) as [[resp|[[[rb sb] pu] p]] w1] eqn:Ea; [intros; simplify_eq|].
  intros [= <- <- <- <-]. eauto 10.
Qed.

Lemma dispatch_checks_inr d req remote hs :
  dispatch_checks d req remote = inr hs ->
  exists l, convert_headers hv_to_str (hq_headers req) = Some l /\ hs = l ++ [("peer-id", remote)].
Proof.
  unfold Dispatcher.dispatch_checks. intros Hc. case_match; [done|].
  destruct (convert_headers _ _) as [l|]; [|done]. case_match; [done|]. injection Hc as <-. eauto.
Qed.

Lemma check_headers_ok hs :
  headers_ok header_name_ok header_value_ok hs = true ->
  check_headers header_name_ok header_value_ok debug_str hs = Ok tt.
Proof.
  induction hs as [|[n v] hs IH]; simpl; [done|]. intros Hh. bool_to_prop. by rewrite H0, H2, IH.
Qed.

Lemma take_req_sender_view h (w : world) :
  (take_req_sender h w).1 = value <$> sm_view (request_heads (store w)) !! handle_to_key h /\
  sm_view (request_heads (store (take_req_sender h w).2)) =
    delete (handle_to_key h) (sm_view (request_heads (store w))) /\
  heap (take_req_sender h w).2 = heap w.
Proof.
  unfold take_req_sender. pose proof (sm_view_remove_val _ (handle_to_key h) (request_heads (store w))) as Hv.
  pose proof (sm_view_remove _ (handle_to_key h) (request_heads (store w))) as Hd.
  destruct (sm_remove _ _) as [e reg]; simpl in *. by rewrite Hv.
Qed.

(** A head entry that is gone. *)
Lemma respond_gone h st hs (w : world) :
  sm_view (request_heads (store w)) !! handle_to_key h = None -> status_ok st = true ->
  headers_ok header_name_ok header_value_ok hs = true ->
  (respond h st hs w).1 = Err (invalid_handle h).
Proof.
  intros Hn Hst Hhs. unfold Dispatcher.respond. rewrite Hst, check_headers_ok by done. simpl.
  destruct (take_req_sender_view h w) as (Et & _ & _). rewrite Hn in Et.
  destruct (take_req_sender h w) as [o w']; simpl in *. by subst o.
Qed.

(** A head entry whose dispatch is waiting. *)
Lemma respond_waiting h st hs (w : world) t o :
  sm_view (request_heads (store w)) !! handle_to_key h = Some t ->
  hp_heads (heap w) !! value t = Some o -> os_rx o = true ->
  status_ok st = true -> headers_ok header_name_ok header_value_ok hs = true ->
  exists w', respond h st hs w = (Ok tt, w') /\
    sm_view (request_heads (store w')) = delete (handle_to_key h) (sm_view (request_heads (store w))) /\
    hp_heads (heap w') !! value t = Some (mkOneshot (Some (mkHead st hs)) false true).
Proof.
  intros Hh Ho Hrx Hst Hhs. unfold Dispatcher.respond. rewrite Hst, check_headers_ok by done. simpl.
  destruct (take_req_sender_view h w) as (Et & Ev & Ehp). rewrite Hh in Et.
  destruct (take_req_sender h w) as [c w']; simpl in *. subst c. simpl.
  unfold oneshot_send. rewrite Ehp, Ho, Hrx. eexists. split; [done|]. simpl. split; [done|].
  rewrite lookup_alter_eq, Ehp, Ho. simpl. by rewrite Hrx.
Qed.

Lemma req_head_guard_drop_view h (w : world) :
  sm_view (request_heads (store (req_head_guard_drop h w))) =
  delete (handle_to_key h) (sm_view (request_heads (store w))).
Proof.
  unfold req_head_guard_drop. destruct (take_req_sender_view h w) as (_ & Ev & _).
  destruct (take_req_sender h w) as [[c|] w']; exact Ev.
Qed.

(** ** Theorems *)

(** C9. The identity the callback sees cannot be spoofed: whatever peer-id
    headers the request carried, in any letter case, the payload has exactly one,
    its last header, with the authenticated id; the other headers are passed on
    unchanged and in order. *)
Theorem dispatch_identity_authentic now d req remote (w w' : world) pl pump pd :
  dispatch_start now d req remote w = (inr (pl, pump, pd), w') ->
  pl_remote_node_id pl = remote /\
  exists l, pl_headers pl = l ++ [("peer-id", remote)] /\
    Forall (fun h => is_peer_id h.1 = false) l /\
    Forall2 (fun h h' => h.1 = h'.1 /\ hv_to_str h.2 = Some h'.2)
      (List.filter (fun h => negb (is_peer_id h.1)) (hq_headers req)) l.
Proof.
  intros Hd. apply dispatch_start_inr in Hd as (hs & rb & sb & Hc & _ & ->).
  apply dispatch_checks_inr in Hc as (l & Hl & ->). split; [done|]. exists l. split; [done|].
  by apply convert_headers_spec.
Qed.

(** Dispatch allocates all or nothing: when it answers by itself every
    handle resolves as before, and when it calls back it has added exactly one
    fresh reader, writer and response-head entry, whose non-zero handles are the
    ones in the payload. *)
Theorem dispatch_all_or_nothing now d req remote (w : world) :
  match dispatch_start now d req remote w with
  | (inl _, w') => handle_views w' = handle_views w
  | (inr (pl, _, pd), w') =>
      req_handle pl <> 0%Z /\ req_body_handle pl <> 0%Z /\ res_body_handle pl <> 0%Z /\
      exists k1 k2 k3 e1 e2 e3,
        req_body_handle pl = key_to_handle k1 /\ res_body_handle pl = key_to_handle k2 /\
        req_handle pl = key_to_handle k3 /\
        handle_views w' =
          (<[k1 := e1]> (sm_view (readers (store w))), <[k2 := e2]> (sm_view (writers (store w))),
           <[k3 := e3]> (sm_view (request_heads (store w))), sm_view (sessions (store w)),
           sm_view (fetch_cancels (store w)), pending_readers (store w)) /\
        sm_view (readers (store w)) !! k1 = None /\ sm_view (writers (store w)) !! k2 = None /\
        sm_view (request_heads (store w)) !! k3 = None
  end.
Proof.
  destruct (dispatch_start now d req remote w) as [[resp|[[pl pump] pd]] w'] eqn:E.
  - unfold Dispatcher.dispatch_start in E. destruct (dispatch_checks d req remote); [by simplify_eq|].
    pose proof (dispatch_alloc_spec now w) as Hs.
    destruct (dispatch_alloc now w) as [[r|[[[rb sb] pu] p]] w1]; [|done]. simplify_eq. apply Hs.
  - apply dispatch_start_inr in E as (hs & rb & sb & _ & Ea & ->).
    pose proof (dispatch_alloc_spec now w) as Hs. rewrite Ea in Hs.
    destruct Hs as (k1 & k2 & k3 & c1 & c2 & c3 & -> & -> & E3 & -> & _ & _ & N1 & N2 & N3 & V1 & V2 & V3 & S & T & P & _).
    simpl. rewrite E3. unfold key_to_handle. split_and!; try apply as_ffi_nonzero.
    eexists k1, k2, k3, _, _, _. split_and!; try done. unfold handle_views. by rewrite V1, V2, V3, S, T, P.
Qed.

(** The request checks: with a budget below the word size, a request is
    refused with 431 exactly when its unsaturated header size exceeds the budget,
    and every refusal leaves the store untouched. *)
Theorem dispatch_header_budget now d req remote (w : world) limit :
  d_max_header_size d = Some limit -> (limit < USIZE_MAX)%Z ->
  (dispatch_checks d req remote = inl (mkResponse 431 [] BodyEmpty) <->
   (limit < exact_header_bytes req remote)%Z) /\
  (forall resp, dispatch_checks d req remote = inl resp ->
     dispatch_start now d req remote w = (inl resp, w)).
Proof.
  intros Hd Hl. split; [|intros resp Hc; unfold Dispatcher.dispatch_start; by rewrite Hc].
  unfold Dispatcher.dispatch_checks. rewrite Hd, request_header_bytes_min.
  destruct (limit <? Z.min (exact_header_bytes req remote) USIZE_MAX)%Z eqn:E; bool_to_prop.
  - split; [lia|done].
  - split; [|lia]. intros Hc. repeat case_match; simplify_eq.
Qed.

(** C29. [respond] completes exactly one dispatch: after a callback, the first
    valid [respond] on its request handle succeeds, the suspended dispatch then
    resolves to that status, those headers and the response body, its head entry
    is gone, and any further [respond] on the handle is an invalid-handle
    error. *)
Theorem respond_completes_dispatch now d req remote (w w1 : world) pl pump pd st hs :
  dispatch_start now d req remote w = (inr (pl, pump, pd), w1) ->
  status_ok st = true -> headers_ok header_name_ok header_value_ok hs = true ->
  exists w2 w3, respond (req_handle pl) st hs w1 = (Ok tt, w2) /\
    dispatch_poll pd w2 = (Ready (mkResponse st hs (BodyReading (pd_res_reader pd))), w3) /\
    sm_view (request_heads (store w3)) = sm_view (request_heads (store w)) /\
    forall st' hs', status_ok st' = true -> headers_ok header_name_ok header_value_ok hs' = true ->
      (respond (req_handle pl) st' hs' w3).1 = Err (invalid_handle (req_handle pl)).
Proof.
  intros Hd Hst Hhs. apply dispatch_start_inr in Hd as (l & rb & sb & _ & Ea & ->).
  pose proof (dispatch_alloc_spec now w) as Hs. rewrite Ea in Hs.
  destruct Hs as (k1 & k2 & k3 & c1 & c2 & c3 & _ & _ & E3 & _ & _ & Ehd & _ & _ & N3 & _ & _ & V3 & _ & _ & _ & Ho).
  cbn [req_handle]. assert (handle_to_key (pd_req_handle pd) = k3) as Hk
    by (rewrite E3; apply from_as_ffi).
  destruct (respond_waiting (pd_req_handle pd) st hs w1 (timed_new now c3) (mkOneshot None true true))
    as (w2 & Er & Ev2 & Eo2); try done; [by rewrite Hk, V3, lookup_insert_eq|].
  rewrite Hk, V3, delete_insert_id in Ev2 by done. simpl in Eo2.
  exists w2. eexists. split; [exact Er|].
  unfold Dispatcher.dispatch_poll. rewrite Ehd, Eo2. simpl. rewrite Hst, Hhs. simpl. split; [done|].
  assert (sm_view (request_heads (store (req_head_guard_drop (pd_req_handle pd) (drop_head_rx c3 w2)))) =
    sm_view (request_heads (store w))) as Ev3.
  { rewrite req_head_guard_drop_view, Hk. simpl. by rewrite Ev2, delete_id. }
  split; [done|]. intros st' hs' Hst' Hhs'. apply respond_gone; try done. by rewrite Ev3, Hk.
Qed.
End props.

(** ** Witnesses *)

#[local] Abbreviation vworld := (World VecMap ChanView).

Definition demo_world : vworld := world_new (mkConfig 4 3 1000 2 5000).
Definition demo_text (b : Bytes) : option string := Some "text".
Definition demo_req : HttpRequest :=
  mkHttpRequest "GET" (Some "/a?b") "/a?b"
    [("peer-id", []); ("accept", [])].
Definition demo_dispatcher : FfiDispatcher := ffi_dispatcher "self" 100 (Some 10%Z).
Definition demo_out := dispatch_start demo_text 5 demo_dispatcher demo_req "alice" demo_world.
Definition demo_payload : RequestPayload :=
  mkPayload 4294967297 4294967297 4294967297 "GET" "httpi://self/a?b"
    [("accept", "text"); ("peer-id", "alice")] "alice" false.
Definition demo_pump : BodyWriter := match demo_out.1 with inr (_, p, _) => p | _ => mkWriter 0 0 end.
Definition demo_pd : PendingDispatch :=
  match demo_out.1 with inr (_, _, p) => p | _ => mkPendingDispatch 0 0 (mkReader 0) end.

Lemma demo_dispatched : demo_out = (inr (demo_payload, demo_pump, demo_pd), demo_out.2).
Proof. vm_compute. reflexivity. Qed.

Lemma dispatch_identity_witness :
  exists l, pl_headers demo_payload = l ++ [("peer-id", "alice")] /\
    Forall (fun h => is_peer_id h.1 = false) l.
Proof.
  destruct (dispatch_identity_authentic demo_text 5 demo_dispatcher demo_req "alice" demo_world
    demo_out.2 demo_payload demo_pump demo_pd demo_dispatched) as (_ & l & E & F & _).
  exists l. by split.
Defined.

Lemma dispatch_all_or_nothing_witness :
  exists k, req_handle demo_payload = key_to_handle k /\ req_handle demo_payload <> 0%Z.
Proof.
  pose proof (dispatch_all_or_nothing demo_text 5 demo_dispatcher demo_req "alice" demo_world) as H.
  fold demo_out in H. rewrite demo_dispatched in H.
  destruct H as (Hn & _ & _ & k1 & k2 & k3 & _ & _ & _ & _ & _ & E & _). by exists k3.
Defined.

Lemma dispatch_header_budget_witness :
  dispatch_checks demo_text (ffi_dispatcher "self" 40 None) demo_req "alice" =
    inl (mkResponse 431 [] BodyEmpty).
Proof.
  apply (dispatch_header_budget demo_text 5 (ffi_dispatcher "self" 40 None) demo_req "alice"
    demo_world 40); [reflexivity|vm_compute; reflexivity|vm_compute; reflexivity].
Defined.

Lemma respond_completes_witness :
  exists w2, respond (fun _ => true) (fun _ => true) (fun _ => true) (fun s => s)
    (req_handle demo_payload) 200 [("x", "y")] demo_out.2 = (Ok tt, w2).
Proof.
  destruct (respond_completes_dispatch demo_text (fun _ => true) (fun _ => true) (fun _ => true)
    (fun s => s) 5 demo_dispatcher demo_req "alice" demo_world demo_out.2 demo_payload demo_pump
    demo_pd 200 [("x", "y")] demo_dispatched eq_refl eq_refl) as (w2 & w3 & E & _).
  by exists w2.
Defined.
