(* ===== verification/Pumps.v ===== *)
(** * Body pumps (ffi/pumps.rs)

    The tasks that move bytes between hyper bodies or QUIC streams and body
    channels.  What the body or stream answers to each read, and what the
    reading side of the channel does meanwhile, is an argument; a pump is a
    fixpoint on the list of answers, [None] while the next answer is awaited. *)

From stdpp Require Import base numbers list strings pretty.
From Stdlib Require Import ZArith Lia.
From S2P Require Import Prelude Errors Extern BodyChannel.

Open Scope string_scope.
Open Scope list_scope.

Definition PUMP_READ_BUF : Z := 64 * 1024.

(** A body error: its text and its source chain, itself first; the classes that
    matter are [LengthLimitError] and the rest. *)
Inductive ErrClass := LengthLimit | OtherClass.
Record BodyError := mkBodyError { be_text : string; be_chain : list ErrClass }.

Fixpoint chain_has_limit (chain : list ErrClass) : bool :=
  match chain with
  | [] => false
  | LengthLimit :: _ => true
  | OtherClass :: rest => chain_has_limit rest
  end.
Definition is_length_limit_error (e : BodyError) : bool := chain_has_limit (be_chain e).

(** The answer to [timeout(frame_timeout, body.frame())]. *)
Inductive FrameAns :=
| FrameElapsed
| FrameEnd
| FrameErr (e : BodyError)
| FrameData (data : Bytes)
| FrameTrailers.

(** One turn of the loop: what the reader does before the frame is there, the
    frame, and what the reader does while the send waits for room. *)
Record PumpTurn := mkTurn { pt_before : list EnvAct; pt_frame : FrameAns; pt_during : list EnvAct }.

Definition frame_timed_out : CoreError := timeout "body frame read timed out".
Definition frame_error (e : BodyError) : CoreError :=
  if is_length_limit_error e then body_too_large "body exceeded configured size limit"
  else internal ("body stream error: " +:+ be_text e).
Definition limit_error (limit : Z) : CoreError :=
  body_too_large ("body exceeded configured size limit of " +:+ pretty limit +:+ " bytes").

Definition over_limit (max_bytes : option Z) (total : Z) : option Z :=
  match max_bytes with
  | Some limit => if (limit <? total)%Z then Some limit else None
  | None => None
  end.

Section pumps.
Context {C : Type -> Type} `{Mpsc C}.

(** Dropping the writer. *)
Definition pump_drop_writer (b : BodyChan C) : BodyChan C := set_mpsc (drop_tx (bc_mpsc b)) b.

(** The loop with the writer dropped at its end; [total], [overflowed] and
    [overflow_tx] (whether the signal was sent) are its variables.  Returns also
    what the reader took meanwhile. *)
Fixpoint pump_loop (max_bytes : option Z) (turns : list PumpTurn) (total : Z)
  (overflowed overflow_sent : bool) (b : BodyChan C) : option (list Bytes * bool * BodyChan C) :=
  match turns with
  | [] => None
  | t :: rest =>
      let '(g0, b) := env_run (pt_before t) b in
      let prepend (r : option (list Bytes * bool * BodyChan C)) g :=
        match r with Some (g', s, b) => Some (g ++ g', s, b) | None => None end in
      match pt_frame t with
      | FrameElapsed => Some (g0, overflow_sent, pump_drop_writer (abort frame_timed_out b))
      | FrameEnd => Some (g0, overflow_sent, pump_drop_writer b)
      | FrameErr e =>
          if overflowed then Some (g0, overflow_sent, pump_drop_writer b)
          else Some (g0, overflow_sent, pump_drop_writer (abort (frame_error e) b))
      | FrameTrailers => prepend (pump_loop max_bytes rest total overflowed overflow_sent b) g0
      | FrameData data =>
          if overflowed then prepend (pump_loop max_bytes rest total overflowed overflow_sent b) g0
          else
            let total := sat_add total (len data) in
            match over_limit max_bytes total with
            | Some limit =>
                prepend (pump_loop max_bytes rest total true true (abort (limit_error limit) b)) g0
            | None =>
                match writer_send_chunk (pt_during t) data b with
                | (Err _, g1, b) => Some (g0 ++ g1, overflow_sent, pump_drop_writer b)
                | (Ok _, g1, b) =>
                    prepend (pump_loop max_bytes rest total overflowed overflow_sent b) (g0 ++ g1)
                end
            end
      end
  end.

Definition pump_hyper_body_to_channel_limited (max_bytes : option Z) (turns : list PumpTurn)
  (b : BodyChan C) : option (list Bytes * bool * BodyChan C) :=
  pump_loop max_bytes turns 0 false false b.

Definition pump_hyper_body_to_channel := pump_hyper_body_to_channel_limited None.

(** The answers of [recv.read_chunk(PUMP_READ_BUF)]: a chunk, the end or an error. *)
Record ReadTurn := mkRead {
  rt_before : list EnvAct;
  rt_chunk : Result (option Bytes) unit;
  rt_during : list EnvAct
}.

Fixpoint pump_quic_recv_to_body (turns : list ReadTurn) (b : BodyChan C)
  : option (list Bytes * BodyChan C) :=
  match turns with
  | [] => None
  | t :: rest =>
      let '(g0, b) := env_run (rt_before t) b in
      match rt_chunk t with
      | Ok (Some chunk) =>
          match writer_send_chunk (rt_during t) chunk b with
          | (Err _, g1, b) => Some (g0 ++ g1, pump_drop_writer b)
          | (Ok _, g1, b) =>
              match pump_quic_recv_to_body rest b with
              | Some (g2, b) => Some (g0 ++ g1 ++ g2, b)
              | None => None
              end
          end
      | _ => Some (g0, pump_drop_writer b)
      end
  end.

(** [pump_body_to_quic_send]: it awaits a chunk, writes it, and finishes the
    stream, dropping its reader; [wire] is what was written. *)
Inductive SendPumpPc := SpRecv (f : RecvFut) | SpWrite (data : Bytes) | SpFinished.
Record SendPump := mkSendPump { sp_pc : SendPumpPc; wire : list Bytes }.

Definition send_pump_start (b : BodyChan C) : SendPump := mkSendPump (SpRecv (recv_with_cancel b)) [].

(** One poll; [written]: the answer of [write_all] when the pump is writing. *)
Definition pump_body_to_quic_send (written : Result unit unit) (s : SendPump) (b : BodyChan C)
  : SendPump * BodyChan C :=
  match sp_pc s with
  | SpRecv f =>
      match recv_poll f b with
      | (Pending, f, b) => (mkSendPump (SpRecv f) (wire s), b)
      | (Ready None, _, b) => (mkSendPump SpFinished (wire s), drop_rx_arc b)
      | (Ready (Some data), _, b) => (mkSendPump (SpWrite data) (wire s), b)
      end
  | SpWrite data =>
      match written with
      | Ok _ => (mkSendPump (SpRecv (recv_with_cancel b)) (wire s ++ [data]), b)
      | Err _ => (mkSendPump SpFinished (wire s), drop_rx_arc b)
      end
  | SpFinished => (s, b)
  end.
End pumps.

(** * Properties of the body pumps

    What the reading side of a pumped body gets to see: the bytes, the limit and
    the terminal error, for every way a pump can end. *)

(** The data frames a body yields before it ends, and how it ends. *)
Fixpoint body_data (turns : list PumpTurn) : list Bytes :=
  match turns with
  | [] => []
  | t :: rest =>
      match pt_frame t with
      | FrameData d => d :: body_data rest
      | FrameTrailers => body_data rest
      | _ => []
      end
  end.
Fixpoint body_ending (turns : list PumpTurn) : option FrameAns :=
  match turns with
  | [] => None
  | t :: rest =>
      match pt_frame t with
      | FrameData _ | FrameTrailers => body_ending rest
      | f => Some f
      end
  end.
Definition bytes_of (l : list Bytes) : Z := zsum len l.

Section props.
Context {C : Type -> Type} `{HC : Mpsc C} `{HL : !MpscLaws C}.

(** ** One send *)

Lemma writer_send_chunk_eq env x (b : BodyChan C) r got b' :
  writer_send_chunk env x b = (r, got, b') ->
  frame b b' /\
  exists e, send_fast_then_wait env x b = (e, got, b') /\ (r = Ok tt <-> e = SendDone).
Proof.
  intros E. split.
  - destruct (send_chunk_with_fast_path env x b) as [[r' g'] b''] eqn:E'.
    apply (send_chunk_with_fast_path_frame env x b r' got).
    unfold writer_send_chunk in E. unfold send_chunk_with_fast_path in *.
    destruct (send_fast_then_wait env x b) as [[e g] b1]. by simplify_eq.
  - unfold writer_send_chunk in E. destruct (send_fast_then_wait env x b) as [[e g] b1].
    simplify_eq. exists e. split; [done|]. by destruct e.
Qed.

Lemma send_fast_then_wait_dropped env x (b : BodyChan C) got b' :
  send_fast_then_wait env x b = (SendDropped, got, b') -> cv_rx (bview b') = false.
Proof.
  assert (forall (b : BodyChan C) c, try_send x (bc_mpsc b) = (SendClosed, c) ->
    cv_rx (bview (set_mpsc c b)) = false) as Hclosed.
  { intros b0 c E%try_send_view. rewrite bview_set_mpsc. unfold cv_try_send in E.
    destruct (cv_rx (bview b0)) eqn:Er; simpl in E; [case_decide; by simplify_eq|].
    by injection E as <-. }
  unfold send_fast_then_wait. intros E.
  destruct (try_send x (bc_mpsc b)) as [[] c] eqn:E1; simplify_eq; [|by apply (Hclosed b)].
  destruct (env_run env _) as [g b1]. destruct (try_send x (bc_mpsc b1)) as [[] c1] eqn:E2; simplify_eq.
  by apply (Hclosed b1).
Qed.

(** With the reader alive afterwards a send appended the chunk or nothing. *)
Lemma writer_send_chunk_conserves env x (b : BodyChan C) r got b' :
  writer_send_chunk env x b = (r, got, b') -> cv_rx (bview b') = true ->
  conserves b got (match r with Ok _ => [x] | Err _ => [] end) b'.
Proof.
  intros E Hrx. apply writer_send_chunk_eq in E as (_ & e & E & Hre).
  assert (e <> SendDropped) as Hd.
  { intros ->. apply send_fast_then_wait_dropped in E. congruence. }
  pose proof (send_fast_then_wait_conserves _ _ _ _ _ _ E Hd) as Hc.
  destruct r as [[]|m], e; try done; exfalso; naive_solver.
Qed.

Lemma conserves_rx b got sent (b' : BodyChan C) : conserves b got sent b' -> cv_rx (bview b) = true.
Proof. by intros (? & _). Qed.

Lemma bview_drop_writer (b : BodyChan C) :
  cv_buf (bview (pump_drop_writer b)) = cv_buf (bview b) /\
  cv_rx (bview (pump_drop_writer b)) = cv_rx (bview b) /\
  bc_terminal (pump_drop_writer b) = bc_terminal b.
Proof. unfold pump_drop_writer. by rewrite bview_set_mpsc, chan_view_drop_tx. Qed.

(** ** The loop *)

(** Stopping keeps what was queued. *)
Lemma stop_conserves acts (b b0 b1 : BodyChan C) g0 :
  env_run acts b = (g0, b0) -> bc_mpsc b1 = bc_mpsc b0 ->
  cv_rx (bview (pump_drop_writer b1)) = true -> conserves b g0 [] (pump_drop_writer b1).
Proof.
  intros E0 Em Hrx. destruct (bview_drop_writer b1) as (Eb & Er & _). rewrite Er in Hrx.
  assert (bview b1 = bview b0) as Ev by (unfold bview; by rewrite Em).
  assert (conserves b g0 [] b0) as (? & ? & Hcap & Hbd)
    by (apply (env_run_conserves acts); [done|congruence]).
  unfold conserves, chan_bounded in *. rewrite Eb, Ev. unfold pump_drop_writer.
  rewrite bview_set_mpsc, chan_view_drop_tx. simpl. fold (bview b1). by rewrite Ev.
Qed.

Lemma env_then_conserves acts (b b0 b' : BodyChan C) g0 g' sent :
  env_run acts b = (g0, b0) -> conserves b0 g' sent b' -> conserves b (g0 ++ g') sent b'.
Proof.
  intros E0 Hc. apply (conserves_trans b g0 [] b0 g' sent b'); [|done].
  apply (env_run_conserves acts); [done|by apply (conserves_rx _ _ _ _ Hc)].
Qed.

(** While draining after an overflow nothing is appended, and only a stalled
    body changes the terminal error. *)
Lemma pump_loop_draining max turns total sent (b : BodyChan C) got s b' :
  pump_loop max turns total true sent b = Some (got, s, b') -> cv_rx (bview b') = true ->
  conserves b got [] b' /\ s = sent /\
  exists f, body_ending turns = Some f /\
    bc_terminal b' = match f with FrameElapsed => Some frame_timed_out | _ => bc_terminal b end.
Proof.
  revert total b got. induction turns as [|t rest IH]; intros total b got E Hrx; [done|].
  cbn [pump_loop body_ending] in *. destruct (env_run (pt_before t) b) as [g0 b0] eqn:E0.
  pose proof (env_run_frame _ _ _ _ E0) as (Ht0 & _).
  destruct (pt_frame t) eqn:Ef; try (simplify_eq; split_and!; [by eapply stop_conserves|done|];
    eexists; split; [done|]; simpl; congruence).
  all: destruct (pump_loop max rest total true sent b0) as [[[g' s'] b1]|] eqn:E1; [|done];
    simplify_eq; destruct (IH _ _ _ E1 Hrx) as (Hc & -> & f & Hf & Ht);
    split_and!; [by eapply env_then_conserves|done|];
    exists f; split; [done|]; rewrite Ht, Ht0; by destruct f.
Qed.

(** How a pump that had counted [total] bytes ends after delivering [n] more data
    frames: whether the overflow was signalled, and the terminal error it left,
    if any.  [full]: the queue it leaves is full.  It gives up silently only on a
    frame within the limit for which the full queue had no room. *)
Inductive pump_ends (full : Prop) (max : option Z) (turns : list PumpTurn) (total : Z) (n : nat)
  : bool -> option CoreError -> Prop :=
| pe_complete :
    body_ending turns = Some FrameEnd -> n = length (body_data turns) ->
    pump_ends full max turns total n false None
| pe_stalled :
    body_ending turns = Some FrameElapsed -> n = length (body_data turns) ->
    pump_ends full max turns total n false (Some frame_timed_out)
| pe_error e :
    body_ending turns = Some (FrameErr e) -> n = length (body_data turns) ->
    pump_ends full max turns total n false (Some (frame_error e))
| pe_overflow limit f :
    max = Some limit -> n < length (body_data turns) -> body_ending turns = Some f ->
    (limit < total + bytes_of (take (S n) (body_data turns)))%Z ->
    pump_ends full max turns total n true
      (Some (match f with FrameElapsed => frame_timed_out | _ => limit_error limit end))
| pe_abandoned :
    n < length (body_data turns) -> full ->
    (forall limit, max = Some limit -> total + bytes_of (take (S n) (body_data turns)) <= limit)%Z ->
    pump_ends full max turns total n false None.

(** Prepending a turn that delivers nothing, or one that delivers a frame. *)
Lemma pump_ends_skip full max t rest total n s e :
  pt_frame t = FrameTrailers -> pump_ends full max rest total n s e -> pump_ends full max (t :: rest) total n s e.
Proof.
  intros Ht He. assert (body_data (t :: rest) = body_data rest) as Ed by (simpl; by rewrite Ht).
  assert (body_ending (t :: rest) = body_ending rest) as En by (simpl; by rewrite Ht).
  destruct He; econstructor; rewrite ?Ed, ?En; done.
Qed.

Lemma pump_ends_deliver full max t rest d total total' n s e :
  pt_frame t = FrameData d -> (is_Some max -> total' = total + len d)%Z ->
  pump_ends full max rest total' n s e -> pump_ends full max (t :: rest) total (S n) s e.
Proof.
  intros Ht Htot He. assert (body_data (t :: rest) = d :: body_data rest) as Ed by (simpl; by rewrite Ht).
  assert (body_ending (t :: rest) = body_ending rest) as En by (simpl; by rewrite Ht).
  destruct He as [| | | |Hlt Hfull Hlim]; try (econstructor; rewrite ?Ed, ?En; simpl; try done; solve [by f_equal|lia]).
  - apply pe_overflow; rewrite ?Ed, ?En; try done; [simpl; lia|].
    unfold bytes_of in *. rewrite Htot in * by eauto. cbn [take zsum] in *. lia.
  - apply pe_abandoned; rewrite ?Ed; [simpl; lia|done|]. intros limit El. specialize (Hlim limit El).
    unfold bytes_of in *. rewrite Htot in * by eauto. cbn [take zsum] in *. lia.
Qed.

(** The reader has left no room. *)
Definition queue_full (b : BodyChan C) : Prop := cv_cap (bview b) <= length (cv_buf (bview b)).

Lemma queue_full_drop_writer (b : BodyChan C) : queue_full b -> queue_full (pump_drop_writer b).
Proof. unfold queue_full, pump_drop_writer. by rewrite bview_set_mpsc, chan_view_drop_tx. Qed.

(** A send that fails although the reader is there has found the queue full. *)
Lemma writer_send_chunk_full env x (b : BodyChan C) m got b' :
  writer_send_chunk env x b = (Err m, got, b') -> cv_rx (bview b') = true -> queue_full b'.
Proof.
  intros E Hrx. apply writer_send_chunk_eq in E as (_ & e & E & Hre).
  assert (e <> SendDropped) as Hd by (intros ->; apply send_fast_then_wait_dropped in E; congruence).
  assert (e <> SendDone) as Hn by (intros ->; discriminate (proj2 Hre eq_refl)).
  unfold send_fast_then_wait in E. destruct (try_send x (bc_mpsc b)) as [[] c] eqn:E1; simplify_eq.
  destruct (env_run env _) as [g b1]. destruct (try_send x (bc_mpsc b1)) as [[] c1] eqn:E2; simplify_eq.
  apply try_send_view in E2. unfold cv_try_send in E2. destruct (cv_rx (bview b1)); simpl in E2; [|done].
  case_decide as Hlen; [done|]. injection E2 as Ec. unfold queue_full. rewrite bview_set_mpsc, <- Ec. lia.
Qed.

Definition within (max : option Z) (n : Z) : Prop := forall limit, max = Some limit -> (n <= limit)%Z.

Lemma over_limit_Some max n limit : over_limit max n = Some limit -> max = Some limit /\ (limit < n)%Z.
Proof.
  unfold over_limit. destruct max as [l|]; [|done]. destruct (l <? n)%Z eqn:E; [|done].
  intros [= ->]. bool_to_prop. split; [done|lia].
Qed.

(** Within the limit the saturating count is exact. *)
Lemma over_limit_None max total n :
  (forall limit, max = Some limit -> limit < USIZE_MAX)%Z ->
  over_limit max (sat_add total n) = None ->
  within max (total + n) /\ (is_Some max -> sat_add total n = total + n)%Z.
Proof.
  intros Hmax. unfold over_limit, within. destruct max as [l|]; [|split; [done|by intros []]].
  pose proof (Hmax l eq_refl). destruct (l <? sat_add total n)%Z eqn:E; [done|]. intros _.
  bool_to_prop. unfold sat_add in *. split; [intros l' [= <-]; lia|intros _; lia].
Qed.

(** What a run from [b] to [b'] that returned [got] and [s] amounts to. *)
Definition pump_did (max : option Z) (turns : list PumpTurn) (total : Z) (b : BodyChan C)
  (got : list Bytes) (s : bool) (b' : BodyChan C) : Prop :=
  exists n e, conserves b got (take n (body_data turns)) b' /\
    within max (total + bytes_of (take n (body_data turns))) /\
    bc_terminal b' = match e with Some e => Some e | None => bc_terminal b end /\
    pump_ends (queue_full b') max turns total n s e.

Section turn.
Context (max : option Z) (t : PumpTurn) (rest : list PumpTurn) (total : Z) (b b0 : BodyChan C).
Context (g0 : list Bytes).
Hypothesis Hmax : (forall limit, max = Some limit -> limit < USIZE_MAX)%Z.
Hypothesis Hw : within max total.
Hypothesis E0 : env_run (pt_before t) b = (g0, b0).

Lemma within_nothing : within max (total + bytes_of (take 0 (body_data (t :: rest)))).
Proof. unfold bytes_of. by rewrite take_0, Z.add_0_r. Qed.

Lemma env_terminal : bc_terminal b0 = bc_terminal b.
Proof. by destruct (env_run_frame _ _ _ _ E0). Qed.

Lemma did_overflow d limit got s b' :
  pt_frame t = FrameData d -> over_limit max (sat_add total (len d)) = Some limit ->
  pump_loop max rest (sat_add total (len d)) true true (abort (limit_error limit) b0) = Some (got, s, b') ->
  cv_rx (bview b') = true -> pump_did max (t :: rest) total b (g0 ++ got) s b'.
Proof.
  intros Ef [Em Hlt]%over_limit_Some E1 Hrx.
  destruct (pump_loop_draining _ _ _ _ _ _ _ _ E1 Hrx) as (Hc & -> & f & Hf & Ht).
  exists 0, (Some (match f with FrameElapsed => frame_timed_out | _ => limit_error limit end)).
  split_and!; [eapply env_then_conserves; [done|by apply Hc]|by apply within_nothing| |].
  - rewrite Ht. by destruct f.
  - apply pe_overflow; [done|simpl; rewrite Ef; simpl; lia|simpl; by rewrite Ef|].
    simpl. rewrite Ef. unfold bytes_of. simpl.
    pose proof (Hmax _ Em). unfold sat_add in Hlt. lia.
Qed.

Lemma did_deliver d g1 b1 got s b' :
  pt_frame t = FrameData d -> over_limit max (sat_add total (len d)) = None ->
  writer_send_chunk (pt_during t) d b0 = (Ok tt, g1, b1) ->
  pump_did max rest (sat_add total (len d)) b1 got s b' ->
  pump_did max (t :: rest) total b ((g0 ++ g1) ++ got) s b'.
Proof.
  intros Ef Eo E1 (n & e & Hc & Hb & Ht & He).
  destruct (writer_send_chunk_eq _ _ _ _ _ _ E1) as ((Ht1 & _) & _).
  apply over_limit_None in Eo as [Hw1 Hsat]; [|done]. exists (S n), e.
  assert (body_data (t :: rest) = d :: body_data rest) as Ed by (simpl; by rewrite Ef). rewrite Ed.
  split_and!; [| |rewrite Ht, Ht1, env_terminal; by destruct e|by eapply pump_ends_deliver].
  - rewrite <- app_assoc. eapply env_then_conserves; [done|].
    change (take (S n) (d :: body_data rest)) with ([d] ++ take n (body_data rest)).
    eapply conserves_trans; [|exact Hc].
    apply (writer_send_chunk_conserves _ _ _ _ _ _ E1). by apply (conserves_rx _ _ _ _ Hc).
  - intros l El. specialize (Hb l El). rewrite Hsat in Hb by eauto.
    unfold bytes_of in *. cbn [take zsum]. lia.
Qed.

Lemma did_abandon d m g1 b1 :
  pt_frame t = FrameData d -> over_limit max (sat_add total (len d)) = None ->
  writer_send_chunk (pt_during t) d b0 = (Err m, g1, b1) ->
  cv_rx (bview (pump_drop_writer b1)) = true ->
  pump_did max (t :: rest) total b (g0 ++ g1) false (pump_drop_writer b1).
Proof.
  intros Ef Eo E1 Hrx. destruct (writer_send_chunk_eq _ _ _ _ _ _ E1) as ((Ht1 & _) & _).
  apply over_limit_None in Eo as [Hw1 _]; [|done].
  destruct (bview_drop_writer b1) as (Eb & Er & Et). rewrite Er in Hrx.
  exists 0, None.
  split_and!; [|by apply within_nothing|by rewrite Et, Ht1, env_terminal|]; cycle 1.
  { apply pe_abandoned; [simpl; rewrite Ef; simpl; lia|by eapply queue_full_drop_writer, writer_send_chunk_full|].
    intros l El. specialize (Hw1 l El). simpl. rewrite Ef. unfold bytes_of. simpl. lia. }
  pose proof (writer_send_chunk_conserves _ _ _ _ _ _ E1 Hrx) as (Hr0 & Hq & Hcap & Hbd). rewrite take_0.
  eapply env_then_conserves; [done|]. unfold conserves, chan_bounded in *. rewrite Eb.
  split_and!; try done; unfold pump_drop_writer; rewrite bview_set_mpsc, chan_view_drop_tx; done.
Qed.

Lemma did_skip got s b' :
  pt_frame t = FrameTrailers -> pump_did max rest total b0 got s b' ->
  pump_did max (t :: rest) total b (g0 ++ got) s b'.
Proof.
  intros Ef (n & e & Hc & Hb & Ht & He). exists n, e.
  assert (body_data (t :: rest) = body_data rest) as Ed by (simpl; by rewrite Ef). rewrite Ed.
  split_and!; [by eapply env_then_conserves|done|rewrite Ht, env_terminal; by destruct e|by apply pump_ends_skip].
Qed.
End turn.

Lemma pump_loop_did max turns total (b : BodyChan C) got s b' :
  (forall limit, max = Some limit -> limit < USIZE_MAX)%Z -> within max total ->
  pump_loop max turns total false false b = Some (got, s, b') -> cv_rx (bview b') = true ->
  pump_did max turns total b got s b'.
Proof.
  intros Hmax. revert total b got. induction turns as [|t rest IH]; intros total b got Hw E Hrx; [done|].
  cbn [pump_loop] in E. destruct (env_run (pt_before t) b) as [g0 b0] eqn:E0.
  pose proof (env_terminal t b b0 g0 E0) as Ht0.
  pose proof (within_nothing max t rest total Hw) as Hw0.
  destruct (pt_frame t) eqn:Ef.
  - simplify_eq. exists 0, (Some frame_timed_out). split_and!; [by eapply stop_conserves|done|done|].
    apply pe_stalled; simpl; by rewrite Ef.
  - simplify_eq. exists 0, None. split_and!; [by eapply stop_conserves|done|simpl; congruence|].
    apply pe_complete; simpl; by rewrite Ef.
  - simplify_eq. exists 0, (Some (frame_error e)). split_and!; [by eapply stop_conserves|done|done|].
    apply pe_error; simpl; by rewrite Ef.
  - destruct (over_limit max (sat_add total (len data))) as [limit|] eqn:Eo.
    + destruct (pump_loop _ _ _ true true _) as [[[g' s'] b1]|] eqn:E1; [|done]. simplify_eq.
      by eapply did_overflow.
    + destruct (writer_send_chunk (pt_during t) data b0) as [[[[]|m] g1] b1] eqn:E1;
        [|simplify_eq; by eapply did_abandon].
      destruct (pump_loop _ _ _ false false b1) as [[[g' s'] b2]|] eqn:E2; [|done]. simplify_eq.
      eapply did_deliver; try done. apply IH; try done.
      apply over_limit_None in Eo as [Hw1 Hsat]; [|done].
      intros l El. rewrite Hsat by eauto. by apply Hw1.
  - destruct (pump_loop _ _ _ false false b0) as [[[g' s'] b2]|] eqn:E2; [|done]. simplify_eq.
    apply (did_skip max t rest total b b0 g0); try done. by apply IH.
Qed.

(** A pump returns once its body has ended, whatever the reader does. *)
Lemma pump_loop_returns max turns total ov sent (b : BodyChan C) :
  is_Some (body_ending turns) -> is_Some (pump_loop max turns total ov sent b).
Proof.
  revert total ov sent b. induction turns as [|t rest IH]; intros total ov sent b He; [by destruct He|].
  cbn [pump_loop body_ending] in *. destruct (env_run (pt_before t) b) as [g0 b0].
  assert (forall total ov sent (b : BodyChan C) g, is_Some (body_ending rest) ->
    is_Some match pump_loop max rest total ov sent b with
            | Some (g', s, b) => Some (g ++ g', s, b) | None => None end) as Hp.
  { intros total' ov' sent' b' g Hr.
    destruct (IH total' ov' sent' b' Hr) as [[[? ?] ?] ->]. eauto. }
  destruct (pt_frame t); eauto; destruct ov; eauto.
  destruct (over_limit _ _); [eauto|].
  destruct (writer_send_chunk _ _ _) as [[[]?] ?]; eauto.
Qed.

(** ** Theorems *)

(** C15. Every ending of a pump, with a limit below the word size: once the body
    ends the pump returns; if the reader is still there it has been given, in
    order and without loss, the first [n] data frames, which never exceed the
    limit; and the terminal error it will find is exactly the one of
    [pump_ends]: none after a complete body, the stall or stream error of a
    broken one, the size error after an overflow, which is also signalled and
    after which the rest of the body is drained (a stall in it is reported
    instead), and none when a frame that is within the limit was abandoned
    because the reader was too slow, which leaves the queue full. *)
Theorem pump_outcome max turns (b : BodyChan C) :
  (forall limit, max = Some limit -> 0 <= limit < USIZE_MAX)%Z -> is_Some (body_ending turns) ->
  exists got s b', pump_hyper_body_to_channel_limited max turns b = Some (got, s, b') /\
    (cv_rx (bview b') = true ->
     exists n e, got ++ cv_buf (bview b') = cv_buf (bview b) ++ take n (body_data turns) /\
       within max (bytes_of (take n (body_data turns))) /\
       bc_terminal b' = match e with Some e => Some e | None => bc_terminal b end /\
       pump_ends (queue_full b') max turns 0 n s e).
Proof.
  intros Hmax He. destruct (pump_loop_returns max turns 0 false false b He) as [[[got s] b'] E].
  exists got, s, b'. split; [exact E|]. intros Hrx.
  assert (pump_did max turns 0 b got s b') as (n & e & (_ & Hq & _) & Hr).
  { apply pump_loop_did; try done; [intros l El; by apply Hmax|]. intros l El. by apply Hmax. }
  by exists n, e.
Qed.

(** A slow reader sees a truncated body end cleanly: when the queue is full
    and the reader takes nothing for the drain timeout, the pump gives up on the
    frame and on the rest of the body, leaves no terminal error and drops its
    writer, so that the reader will find what was queued and then a clean end. *)
Theorem pump_slow_reader_truncates max (d : Bytes) rest (b : BodyChan C) :
  cv_rx (bview b) = true -> cv_cap (bview b) <= length (cv_buf (bview b)) ->
  over_limit max (len d) = None -> (0 <= len d <= USIZE_MAX)%Z -> bc_terminal b = None ->
  exists b', pump_hyper_body_to_channel_limited max (mkTurn [] (FrameData d) [] :: rest) b =
      Some ([], false, b') /\
    bc_terminal b' = None /\ cv_buf (bview b') = cv_buf (bview b) /\
    cv_rx (bview b') = true /\ cv_senders (bview b') = pred (cv_senders (bview b)).
Proof.
  intros Hrx Hfull Hlim Hd Ht.
  assert (forall b1 : BodyChan C, bview b1 = bview b ->
    exists c, try_send d (bc_mpsc b1) = (SendFull, c) /\ chan_view c = bview b) as Hsend.
  { intros b1 Ev. destruct (try_send d (bc_mpsc b1)) as [r c] eqn:E.
    apply try_send_view in E. unfold cv_try_send in E. rewrite Ev, Hrx in E. simpl in E.
    rewrite decide_False in E by lia. injection E as <- Ec. exists c. split; [done|symmetry; exact Ec]. }
  destruct (Hsend b eq_refl) as (c & E1 & Ec).
  destruct (Hsend (set_mpsc c b) Ec) as (c1 & E2 & Ec1).
  eexists. unfold pump_hyper_body_to_channel_limited. cbn [pump_loop env_run pt_before pt_frame pt_during].
  replace (sat_add 0 (len d)) with (len d) by (unfold sat_add; lia). rewrite Hlim.
  unfold writer_send_chunk, send_fast_then_wait. rewrite E1. cbn [env_run]. rewrite E2. cbn.
  split; [reflexivity|]. unfold pump_drop_writer. cbn.
  rewrite bview_set_mpsc. cbn. rewrite chan_view_drop_tx, Ec1. done.
Qed.

(** A stall hides an overflow: whenever the limit was exceeded and the body
    then stalls, the reader finds the read timeout as terminal error, not the
    size error the overflow had set. *)
Theorem pump_stall_hides_overflow max turns (b : BodyChan C) got b' :
  (forall limit, max = Some limit -> 0 <= limit < USIZE_MAX)%Z ->
  pump_hyper_body_to_channel_limited max turns b = Some (got, true, b') ->
  cv_rx (bview b') = true -> body_ending turns = Some FrameElapsed ->
  bc_terminal b' = Some frame_timed_out /\
  exists limit n, max = Some limit /\ (limit < bytes_of (take (S n) (body_data turns)))%Z.
Proof.
  intros Hmax E Hrx Hf.
  assert (pump_did max turns 0 b got true b') as (n & e & _ & _ & Ht & He).
  { apply pump_loop_did; try done; [intros l El; by apply Hmax|]. intros l El. by apply Hmax. }
  inversion He as [| | |limit f Em Hn Ef Hlt|]; subst.
  rewrite Hf in Ef. injection Ef as <-. split; [done|]. by exists limit, n.
Qed.
End props.

(** ** Concrete instances *)

Definition demo_pipe (cap : nat) (queued : list Bytes) : BodyChan ChanView :=
  mkBodyChan (mkChan queued cap 1 true) None 0 1 false.
Definition demo_data : Bytes := [Byte.x61; Byte.x62].
Definition demo_turn (f : FrameAns) : PumpTurn := mkTurn [] f [].

Lemma pump_outcome_witness :
  exists got s b', pump_hyper_body_to_channel_limited (Some 3%Z)
      [demo_turn (FrameData demo_data); demo_turn (FrameData demo_data); demo_turn FrameEnd]
      (demo_pipe 4 []) = Some (got, s, b').
Proof.
  destruct (pump_outcome (Some 3%Z)
    [demo_turn (FrameData demo_data); demo_turn (FrameData demo_data); demo_turn FrameEnd]
    (demo_pipe 4 [])) as (got & s & b' & E & _).
  - intros limit [= <-]. vm_compute. split; [discriminate|reflexivity].
  - eexists. reflexivity.
  - by exists got, s, b'.
Defined.

Lemma pump_slow_reader_witness :
  exists b', pump_hyper_body_to_channel_limited None
      [demo_turn (FrameData demo_data); demo_turn FrameEnd] (demo_pipe 1 [[Byte.x00]]) =
      Some ([], false, b') /\ bc_terminal b' = None.
Proof.
  destruct (pump_slow_reader_truncates None demo_data [demo_turn FrameEnd] (demo_pipe 1 [[Byte.x00]]))
    as (b' & E & Ht & _); [reflexivity|apply le_n|reflexivity|vm_compute; split; discriminate|reflexivity|].
  by exists b'.
Defined.

Definition demo_stalled : list PumpTurn := [demo_turn (FrameData demo_data); demo_turn FrameElapsed].
Definition demo_stalled_pipe : BodyChan ChanView :=
  match pump_hyper_body_to_channel_limited (Some 1%Z) demo_stalled (demo_pipe 4 []) with
  | Some (_, _, b) => b
  | None => demo_pipe 4 []
  end.
Lemma pump_stall_witness : bc_terminal demo_stalled_pipe = Some frame_timed_out.
Proof.
  apply (pump_stall_hides_overflow (Some 1%Z) demo_stalled (demo_pipe 4 []) [] demo_stalled_pipe);
    try reflexivity.
  intros limit [= <-]. vm_compute. split; [discriminate|reflexivity].
Defined.
