(* ===== verification/Addr.v ===== *)
(** * Node addresses (addr.rs, encoding.rs, endpoint/observe.rs, endpoint/bind.rs)

    Parsing and printing node addresses, the reconciliation of direct-address
    ports with the bound sockets, and the selection of dialable addresses.  The
    JSON text form is [serde_json]'s, the text forms of ids, relays and socket
    addresses those of [Net]. *)

From stdpp Require Import base numbers list strings countable.
From Stdlib Require Import ZArith Lia Strings.Ascii.
From S2P Require Import Prelude Text Errors Net.

Open Scope string_scope.
Open Scope list_scope.

Record NodeAddrInfo := mkNodeAddrInfo { na_id : string; na_addrs : list string }.

(** ** Ports and addresses *)

Definition is_placeholder_port (port : Z) : bool := (port =? 0)%Z || (port =? 1)%Z.

Definition sock_is_ipv6 (a : SocketAddr) : bool :=
  match a with SockV4 _ _ => false | SockV6 _ _ _ _ => true end.

Definition borrow_port (bound_sockets : list SocketAddr) (ipv6 : bool) : option Z :=
  sock_port <$> List.find (fun s => Bool.eqb (sock_is_ipv6 s) ipv6 && negb (is_placeholder_port (sock_port s)))
                  bound_sockets.

Fixpoint reconcile_direct_addr_ports (candidates bound_sockets : list SocketAddr) : list SocketAddr :=
  match candidates with
  | [] => []
  | addr :: rest =>
      if negb (is_placeholder_port (sock_port addr))
      then addr :: reconcile_direct_addr_ports rest bound_sockets
      else match borrow_port bound_sockets (sock_is_ipv6 addr) with
           | Some port => sock_set_port port addr :: reconcile_direct_addr_ports rest bound_sockets
           | None => reconcile_direct_addr_ports rest bound_sockets
           end
  end.

(** [IpAddr::is_loopback], [is_unspecified], [Ipv4Addr::is_link_local] and the
    hand-written [fe80::/10] test. *)
Definition is_loopback (ip : IpAddr) : bool :=
  match ip with V4 b => (Z.shiftr b 24 =? 127)%Z | V6 b => (b =? 1)%Z end.
Definition is_unspecified (ip : IpAddr) : bool :=
  match ip with V4 b => (b =? 0)%Z | V6 b => (b =? 0)%Z end.
Definition is_routable_ip (ip : IpAddr) : bool :=
  if is_loopback ip || is_unspecified ip then false
  else match ip with
       | V4 b => negb (Z.shiftr b 16 =? 0xa9fe)%Z
       | V6 b => negb (Z.land (Z.shiftr b 112) 0xffc0 =? 0xfe80)%Z
       end.

Definition is_dialable (a : SocketAddr) : bool :=
  is_routable_ip (sock_ip a) && negb (is_placeholder_port (sock_port a)).

Section addr.
Context {Id Relay : Type} `{IrohNet Id Relay}.
(** [serde_json] on [NodeAddrInfo]; [{:?}] of a string and the text of an
    [AddrParseError]. *)
Context (json_print : NodeAddrInfo -> Result string string) (json_parse : string -> option NodeAddrInfo).
Context (debug_str : string -> string) (addr_parse_error : string -> string).

Record ParsedNodeAddr := mkParsed {
  pn_node_id : Id;
  pn_relay_urls : list Relay;
  pn_direct_addrs : list SocketAddr
}.

(** ** encoding.rs *)

Definition base32_decode (s : string) : Result Bytes string :=
  match b32_decode s with
  | Some b => Ok b
  | None => Err ("invalid base32 string: " +:+ s)
  end.

Definition parse_node_id (s : string) : Result Id CoreError :=
  match base32_decode s with
  | Err e => Err (invalid_input e)
  | Ok bytes =>
      if negb (len bytes =? 32)%Z then Err (invalid_input "node-id must be 32 bytes")
      else match id_from_bytes bytes with
           | Ok id => Ok id
           | Err e => Err (invalid_input e)
           end
  end.

(** ** addr.rs *)

(** The loop over [info.addrs]. *)
Fixpoint parse_addrs (addrs : list string) : Result (list Relay * list SocketAddr) CoreError :=
  match addrs with
  | [] => Ok ([], [])
  | addr_str :: rest =>
      if contains "://" addr_str then
        match relay_parse addr_str with
        | None => Err (invalid_input ("malformed relay URL: " +:+ addr_str))
        | Some url =>
            let? (relays, directs) := parse_addrs rest in Ok (url :: relays, directs)
        end
      else
        match sock_parse addr_str with
        | None => Err (invalid_input ("malformed address: " +:+ addr_str))
        | Some addr =>
            if (sock_port addr =? 0)%Z
            then Err (invalid_input ("direct address " +:+ addr_str +:+ " has no port (port 0)"))
            else let? (relays, directs) := parse_addrs rest in Ok (relays, addr :: directs)
        end
  end.

Definition parse_node_addr (s : string) : Result ParsedNodeAddr CoreError :=
  match json_parse s with
  | Some info =>
      let? node_id := parse_node_id (na_id info) in
      let? (relay_urls, direct_addrs) := parse_addrs (na_addrs info) in
      Ok (mkParsed node_id relay_urls direct_addrs)
  | None =>
      let? node_id := parse_node_id s in Ok (mkParsed node_id [] [])
  end.

(** ** endpoint/observe.rs, endpoint/bind.rs *)

(** What the methods read of the endpoint: the id, [ep.addr()] as its relay URLs
    and candidate sockets, and the bound sockets. *)
Record EndpointView := mkEndpointView {
  ev_id : Id;
  ev_relay_urls : list Relay;
  ev_ip_addrs : list SocketAddr;
  ev_bound_sockets : list SocketAddr;
  ev_closed : bool
}.

Definition node_id_str (ep : EndpointView) : string := b32_encode (id_as_bytes (ev_id ep)).

Definition transport_alive (ep : EndpointView) : bool :=
  negb (ev_closed ep) && match ev_bound_sockets ep with [] => false | _ => true end.

Definition direct_socket_addrs (ep : EndpointView) : list SocketAddr :=
  reconcile_direct_addr_ports (ev_ip_addrs ep) (ev_bound_sockets ep).

Definition node_addr (ep : EndpointView) : NodeAddrInfo :=
  mkNodeAddrInfo (node_id_str ep)
    (map relay_to_string (ev_relay_urls ep) ++ map sock_to_string (direct_socket_addrs ep)).

Definition home_relay (ep : EndpointView) : option string := relay_to_string <$> head (ev_relay_urls ep).

Definition node_ticket (ep : EndpointView) : Result string CoreError :=
  match json_print (node_addr ep) with
  | Ok s => Ok s
  | Err e => Err (internal ("failed to serialize node ticket: " +:+ e))
  end.

Definition select_dialable_direct (addrs : list SocketAddr) : option string :=
  sock_to_string <$> List.find is_dialable addrs.

Definition select_dialable_directs (addrs : list SocketAddr) : list string :=
  fold_left (fun out a =>
    if is_dialable a then
      let s := sock_to_string a in
      if bool_decide (s ∈ out) then out else out ++ [s]
    else out) addrs [].

Definition dialable_direct_address (ep : EndpointView) : option string :=
  select_dialable_direct (direct_socket_addrs ep).
Definition dialable_direct_addresses (ep : EndpointView) : list string :=
  select_dialable_directs (direct_socket_addrs ep).

Fixpoint parse_direct_list (v : list string) : Result (list SocketAddr) string :=
  match v with
  | [] => Ok []
  | s :: rest =>
      match sock_parse s with
      | None => Err ("invalid direct address " +:+ debug_str s +:+ ": " +:+ addr_parse_error s)
      | Some addr =>
          if (sock_port addr =? 0)%Z
          then Err ("invalid direct address " +:+ debug_str s +:+
                    ": refusing to dial address with no port (port 0)")
          else let? out := parse_direct_list rest in Ok (addr :: out)
      end
  end.
Definition parse_direct_addrs (addrs : option (list string)) : Result (option (list SocketAddr)) string :=
  match addrs with
  | None => Ok None
  | Some v => let? out := parse_direct_list v in Ok (Some out)
  end.
End addr.

(** ** Reconciled ports *)

(** How one candidate is reconciled. *)
Definition reconciled (bound : list SocketAddr) (a a' : SocketAddr) : Prop :=
  if is_placeholder_port (sock_port a)
  then exists s, s ∈ bound /\ sock_is_ipv6 s = sock_is_ipv6 a /\
         is_placeholder_port (sock_port s) = false /\ a' = sock_set_port (sock_port s) a
  else a' = a.

Lemma borrow_port_Some bound v6 p :
  borrow_port bound v6 = Some p ->
  exists s, s ∈ bound /\ sock_is_ipv6 s = v6 /\ is_placeholder_port (sock_port s) = false /\ p = sock_port s.
Proof.
  unfold borrow_port. intros (s & [Hin Hb]%List.find_some & ->)%fmap_Some.
  apply andb_true_iff in Hb as [H1 H2%negb_true_iff]. apply Bool.eqb_prop in H1.
  exists s. split; [by apply list_elem_of_In|done].
Qed.

Lemma reconcile_sound candidates bound a' :
  a' ∈ reconcile_direct_addr_ports candidates bound ->
  exists a, a ∈ candidates /\ reconciled bound a a'.
Proof.
  induction candidates as [|a l IH]; simpl; [by intros ?%not_elem_of_nil|].
  intros Hin. assert (reconciled bound a a' \/ a' ∈ reconcile_direct_addr_ports l bound) as [Hr|Hl];
    [|exists a; split; [by left|done]|destruct (IH Hl) as (b & ? & ?); exists b; split; [by right|done]].
  unfold reconciled.
  destruct (is_placeholder_port (sock_port a)) eqn:Ep; simpl in Hin.
  - destruct (borrow_port bound (sock_is_ipv6 a)) as [p|] eqn:Eb; [|by right].
    apply borrow_port_Some in Eb as (s & Hs & H6 & Hp & ->).
    apply elem_of_cons in Hin as [->|Hin]; [left; by exists s|by right].
  - apply elem_of_cons in Hin as [->|Hin]; [by left|by right].
Qed.

Lemma reconciled_dialable bound a a' :
  reconciled bound a a' -> is_placeholder_port (sock_port a') = false.
Proof.
  unfold reconciled. destruct (is_placeholder_port (sock_port a)) eqn:E; [|by intros ->].
  intros (s & _ & _ & Hs & ->). by destruct a.
Qed.

(** ** Ticket round trip *)

(** A socket address without its flow label, which has no text form. *)
Definition without_flowinfo (a : SocketAddr) : SocketAddr :=
  match a with SockV4 b p => SockV4 b p | SockV6 b p _ s => SockV6 b p 0 s end.

(** The documented behaviour of the text forms. *)
Class NetText (Id Relay : Type) `{IrohNet Id Relay}
  (json_print : NodeAddrInfo -> Result string string) (json_parse : string -> option NodeAddrInfo) := {
  nt_b32 : forall b, b32_decode (b32_encode b) = Some b;
  nt_id_len : forall i : Id, len (id_as_bytes i) = 32%Z;
  nt_id : forall i : Id, id_from_bytes (id_as_bytes i) = Ok i;
  nt_relay : forall r : Relay, relay_parse (relay_to_string r) = Some r;
  nt_relay_scheme : forall r : Relay, contains "://" (relay_to_string r) = true;
  nt_sock : forall a, sock_parse (sock_to_string a) = Some (without_flowinfo a);
  nt_sock_scheme : forall a, contains "://" (sock_to_string a) = false;
  nt_json : forall i s, json_print i = Ok s -> json_parse s = Some i
}.

Section roundtrip.
Context {Id Relay : Type} `{HN : IrohNet Id Relay}.
Context (json_print : NodeAddrInfo -> Result string string) (json_parse : string -> option NodeAddrInfo).
Context `{HT : !NetText Id Relay json_print json_parse}.

Lemma parse_node_id_print (i : Id) : parse_node_id (b32_encode (id_as_bytes i)) = Ok i.
Proof. unfold parse_node_id, base32_decode. by rewrite nt_b32, nt_id_len, nt_id. Qed.

Lemma parse_addrs_socks (l : list SocketAddr) :
  Forall (fun a => is_placeholder_port (sock_port a) = false) l ->
  parse_addrs (map sock_to_string l) = Ok ([] : list Relay, map without_flowinfo l).
Proof.
  induction 1 as [|a l Ha _ IH]; [done|]. simpl. rewrite nt_sock_scheme, nt_sock, IH. simpl.
  assert (sock_port (without_flowinfo a) = sock_port a) as -> by (by destruct a).
  apply orb_false_iff in Ha as [-> _]. done.
Qed.

Lemma parse_addrs_relays (rs : list Relay) rest r l :
  parse_addrs rest = Ok (r, l) ->
  parse_addrs (map relay_to_string rs ++ rest) = Ok (rs ++ r, l).
Proof.
  intros E. induction rs as [|x rs IH]; [done|]. simpl.
  rewrite nt_relay_scheme, nt_relay, IH. done.
Qed.

(** Tickets round trip: what [node_ticket] prints, [parse_node_addr] reads
    back as the endpoint's id, its relays in order and exactly its reconciled
    direct addresses, each of which comes from a candidate, has a port a peer
    accepts, and differs from the candidate only when that had a placeholder
    port, which is then the port of a bound socket of the same family. *)
Theorem ticket_roundtrip (ep : EndpointView) (t : string) :
  node_ticket json_print ep = Ok t ->
  parse_node_addr json_parse t =
    Ok (mkParsed (ev_id ep) (ev_relay_urls ep) (map without_flowinfo (direct_socket_addrs ep))) /\
  Forall (fun a' => is_placeholder_port (sock_port a') = false /\
            exists a, a ∈ ev_ip_addrs ep /\ reconciled (ev_bound_sockets ep) a a')
    (direct_socket_addrs ep).
Proof.
  intros Ht.
  assert (Forall (fun a' => is_placeholder_port (sock_port a') = false /\
            exists a, a ∈ ev_ip_addrs ep /\ reconciled (ev_bound_sockets ep) a a')
    (direct_socket_addrs ep)) as Hd.
  { apply Forall_forall. intros a' (a & Ha & Hr)%list_elem_of_In%reconcile_sound.
    split; [by apply (reconciled_dialable _ a) in Hr|eauto]. }
  split; [|done]. unfold node_ticket in Ht.
  destruct (json_print (node_addr ep)) as [s|e] eqn:Ej; [|done]. injection Ht as ->.
  unfold parse_node_addr. rewrite (nt_json _ _ Ej). simpl. unfold node_id_str. rewrite parse_node_id_print. simpl.
  rewrite (parse_addrs_relays (ev_relay_urls ep) _ [] (map without_flowinfo (direct_socket_addrs ep))).
  - simpl. by rewrite app_nil_r.
  - apply parse_addrs_socks. eapply Forall_impl; [|exact Hd]. by intros a [? _].
Qed.
End roundtrip.

(** ** A concrete text form *)

(** Binary digits of the numbers stdpp's [encode] gives. *)
Fixpoint pos_text (p : positive) : string :=
  match p with xH => "1" | xO p => String "0"%char (pos_text p) | xI p => String "i"%char (pos_text p) end.
Fixpoint text_pos (s : string) : option positive :=
  match s with
  | String "1"%char EmptyString => Some xH
  | String "0"%char s => xO <$> text_pos s
  | String "i"%char s => xI <$> text_pos s
  | _ => None
  end.

Lemma text_pos_text p : text_pos (pos_text p) = Some p.
Proof. induction p as [p IH|p IH|]; simpl; [by rewrite IH..|done]. Qed.

Lemma pos_text_scheme p : contains "://" (pos_text p) = false.
Proof.
  unfold contains. assert (find_str "://" (pos_text p) = None) as ->; [|done].
  induction p as [p IH|p IH|]; simpl; [by rewrite IH..|done].
Qed.

#[global] Instance SocketAddr_countable : Countable SocketAddr.
Proof.
  apply (inj_countable'
    (fun a => match a with SockV4 b p => inl (b, p) | SockV6 b p f s => inr (b, p, f, s) end)
    (fun x => match x with inl (b, p) => SockV4 b p | inr (b, p, f, s) => SockV6 b p f s end)).
  by intros [].
Defined.

(** Ids are 32 equal bytes and relays all the same URL. *)
#[global] Instance text_IrohNet : IrohNet Byte.byte unit := {|
  parse_endpoint_id := fun s => Err "unused";
  id_as_bytes := fun b => replicate 32 b;
  id_from_bytes := fun l => match l with b :: _ => Ok b | [] => Err "empty" end;
  relay_parse := fun s => if bool_decide (s = "https://r") then Some tt else None;
  relay_to_string := fun _ => "https://r";
  sock_parse := fun s => text_pos s ≫= decode;
  sock_to_string := fun a => pos_text (encode (without_flowinfo a));
  b32_encode := fun l => string_of_bytes (map Byte.to_nat l);
  b32_decode := fun s => mapM Byte.of_nat (bytes_of_string s)
|}.

Definition text_json_print (i : NodeAddrInfo) : Result string string :=
  Ok (pos_text (encode (na_id i, na_addrs i))).
Definition text_json_parse (s : string) : option NodeAddrInfo :=
  match text_pos s ≫= decode with Some (i, l) => Some (mkNodeAddrInfo i l) | None => None end.

Lemma byte_text_roundtrip (l : Bytes) :
  mapM Byte.of_nat (bytes_of_string (string_of_bytes (map Byte.to_nat l))) = Some l.
Proof.
  induction l as [|b l IH]; [done|]. cbn [map string_of_bytes bytes_of_string].
  rewrite Ascii.nat_ascii_embedding by (pose proof (Byte.to_nat_bounded b); lia).
  cbn [mapM]. rewrite Byte.of_to_nat, IH. done.
Qed.

#[global] Instance text_NetText : NetText Byte.byte unit text_json_print text_json_parse.
Proof.
  constructor.
  - apply byte_text_roundtrip.
  - intros i. unfold len. simpl. done.
  - done.
  - by intros [].
  - by intros [].
  - intros a. cbn. rewrite text_pos_text. cbn. apply decode_encode.
  - intros a. apply pos_text_scheme.
  - intros [i l] s [= <-]. unfold text_json_parse. rewrite text_pos_text. cbn.
    by rewrite decode_encode.
Qed.

Definition demo_endpoint : EndpointView (Id := Byte.byte) (Relay := unit) :=
  mkEndpointView Byte.x07 [tt] [SockV4 3232235777 0; SockV4 3232235778 5000]
    [SockV4 0 4433] false.

Lemma ticket_roundtrip_witness :
  exists t, node_ticket text_json_print demo_endpoint = Ok t /\
    parse_node_addr text_json_parse t =
    Ok (mkParsed Byte.x07 [tt] [SockV4 3232235777 4433; SockV4 3232235778 5000]).
Proof.
  eexists. split; [reflexivity|].
  apply (ticket_roundtrip text_json_print text_json_parse demo_endpoint). reflexivity.
Defined.
