(* ===== verification/Fetch.v ===== *)
(** * The FFI fetch (ffi/fetch.rs)

    [fetch] checks its flat arguments and builds a request ([fetch_prepare]);
    then the exchange, over the wire or in-process, is driven by
    [run_with_cancel_and_timeout], and the response head is packaged with a body
    handle.  A call is a value of [FetchCall]; what the exchange answers when it
    is polled, whether the deadline has passed and which branch of the unbiased
    [select!] is polled first are arguments of the poll. *)

From stdpp Require Import base numbers list strings gmap fin_maps pretty.
From Stdlib Require Import ZArith Lia Strings.Ascii.
From S2P Require Import Prelude Text Errors Extern BodyChannel Handles HandlesFacts Net Addr.
From S2P Require Client.

Open Scope string_scope.
Open Scope list_scope.

(** ** Paths and errors *)

Definition quote : string := String (Ascii.ascii_of_nat 34) "".

(** The check of the web schemes. *)
Definition check_scheme (url : string) : Result unit CoreError :=
  let lower := to_ascii_lowercase url in
  if Text.starts_with "https://" lower || Text.starts_with "http://" lower then
    let scheme_end := match find_str "://" lower with
                      | Some i => (i + 3)%nat
                      | None => String.length lower
                      end in
    Err (invalid_input ("iroh-http URLs must use the " +:+ quote +:+ "httpi://" +:+ quote +:+
      " scheme, not " +:+ quote +:+ String.substring 0 scheme_end url +:+ quote +:+
      ". Example: httpi://nodeId/path"))
  else Ok tt.

Definition extract_path (url : string) : string :=
  let url := (split_at_char "#" url).1 in
  match strip_prefix "httpi://" url with
  | Some rest =>
      match (split_at_char "/" rest).2 with
      | Some path => path
      | None => "/"
      end
  | None => if Text.starts_with "/" url then url else "/" +:+ url
  end.

Definition fetch_error_to_core (e : Client.FetchError) : CoreError :=
  match e with
  | Client.ConnectionFailed detail _ => connection_failed detail
  | Client.RequestBodyFailed detail _ => internal ("request body failed: " +:+ detail)
  | Client.HeaderTooLarge detail => header_too_large detail
  | Client.BodyTooLarge => body_too_large "response body too large"
  | Client.Timeout => timeout "request timed out"
  | Client.Cancelled => cancelled
  | Client.Internal msg => internal msg
  end.

(** ** The request *)

(** The built request: header lines in the order they are appended. *)
Record FetchReq := mkFetchReq {
  fq_method : string;
  fq_uri : string;
  fq_headers : list (string * string);
  fq_body : option BodyReader
}.

Record FfiResponse := mkFfiResponse {
  fr_status : Z;
  fr_headers : list (string * string);
  fr_body_handle : Z;
  fr_url : string
}.

(** A response head as the exchange yields it. *)
Record RespHead := mkRespHead { rh_status : Z; rh_headers : list (string * Bytes) }.

Definition has_header (name : string) (headers : list (string * string)) : bool :=
  existsb (fun h => eq_ignore_ascii_case h.1 name) headers.

Definition request_headers (remote_str : string) (headers : list (string * string))
  : list (string * string) :=
  ("host", remote_str) ::
  (if negb (has_header "accept-encoding" headers) then [("accept-encoding", "zstd")] else []) ++
  headers.

Definition response_header_bytes (headers : list (string * Bytes)) : Z :=
  fold_left (fun acc h => sat_add acc (sat_add (sat_add (str_len h.1) (len h.2)) 4)) headers 16%Z.

Definition null_body_status (status : Z) : bool :=
  ((status =? 204) || (status =? 205) || (status =? 304))%Z.

Section fetch.
Context {K : Type} {M : Type -> Type} `{SlotMap K M} {C : Type -> Type} `{Mpsc C}.
Context {Id Relay : Type} `{IrohNet Id Relay}.
(** [Method::from_bytes], [HeaderName::from_bytes], [HeaderValue::from_str] succeed;
    the error of [builder.body] for a target that is no [Uri]; [{:?}] of a
    string; [HeaderValue::to_str]; [serde_json] on node addresses. *)
Context (method_ok header_name_ok header_value_ok : string -> bool).
Context (uri_error : string -> option string) (debug_str : string -> string).
Context (hv_to_str : Bytes -> option string) (json_parse : string -> option NodeAddrInfo).

#[local] Abbreviation world := (World M C).

Fixpoint check_request_headers (headers : list (string * string)) : Result unit CoreError :=
  match headers with
  | [] => Ok tt
  | (name, value) :: rest =>
      if negb (header_name_ok name)
      then Err (invalid_input ("invalid header name " +:+ debug_str name))
      else if negb (header_value_ok value)
      then Err (invalid_input ("invalid header value for " +:+ debug_str name))
      else check_request_headers rest
  end.

(** The addresses handed to the dialer: those of the parsed address, then the
    caller's. *)
Definition dial_addrs (parsed : ParsedNodeAddr) (direct_addrs : option (list SocketAddr))
  : Id * list Relay * list SocketAddr :=
  (pn_node_id parsed, pn_relay_urls parsed, pn_direct_addrs parsed ++ default [] direct_addrs).

(** Everything before the exchange: the dial address, the peer's id, the path
    and the request. *)
Definition fetch_prepare (remote_node_id url method : string) (headers : list (string * string))
  (req_body_reader : option BodyReader) (direct_addrs : option (list SocketAddr))
  : Result ((Id * list Relay * list SocketAddr) * string * string * FetchReq) CoreError :=
  let? _ := check_scheme url in
  if negb (method_ok method) then Err (invalid_input ("invalid HTTP method " +:+ debug_str method))
  else
    let? _ := check_request_headers headers in
    let? parsed := parse_node_addr json_parse remote_node_id in
    let remote_str := b32_encode (id_as_bytes (pn_node_id parsed)) in
    let path := extract_path url in
    match uri_error path with
    | Some e => Err (internal ("build request: " +:+ e))
    | None =>
        Ok (dial_addrs parsed direct_addrs, remote_str, path,
            mkFetchReq method path (request_headers remote_str headers) req_body_reader)
    end.

(** ** [run_with_cancel_and_timeout] *)

(** The token and the [Notify] found for it. *)
Record RunState := mkRun { run_token : option Z; run_notify : option nat }.

Definition run_start (fetch_token : option Z) (w : world) : RunState :=
  mkRun fetch_token (match fetch_token with Some t => get_fetch_cancel_notify t w | None => None end).

(** [timeout(t, fut)]: the future is polled before the deadline is looked at. *)
Definition timed_poll {T} (has_timeout elapsed : bool) (inner : Poll (Result T CoreError))
  : Poll (Result T CoreError) :=
  match inner with
  | Ready r => Ready r
  | Pending => if has_timeout && elapsed then Ready (Err (timeout "request timed out")) else Pending
  end.

(** The stored permit of a [Notify], which a ready [notified()] consumes. *)
Definition take_permit (n : nat) (w : world) : bool * world :=
  match hp_tokens (heap w) !! n with
  | Some true => (true, upd_token (fun _ => false) n w)
  | _ => (false, w)
  end.

Definition release_token (token : option Z) (w : world) : world :=
  match token with Some t => remove_fetch_token t w | None => w end.

(** One poll; [cancel_first]: the random branch order of the [select!]. *)
Definition run_poll {T} (cancel_first has_timeout elapsed : bool) (inner : Poll (Result T CoreError))
  (s : RunState) (w : world) : Poll (Result T CoreError) * world :=
  let timed := timed_poll has_timeout elapsed inner in
  let finish (r : Result T CoreError) (w : world) := (Ready r, release_token (run_token s) w) in
  match run_notify s with
  | None => match timed with Ready r => finish r w | Pending => (Pending, w) end
  | Some n =>
      if cancel_first then
        match take_permit n w with
        | (true, w) => finish (Err cancelled) w
        | (false, w) => match timed with Ready r => finish r w | Pending => (Pending, w) end
        end
      else
        match timed with
        | Ready r => finish r w
        | Pending =>
            match take_permit n w with
            | (true, w) => finish (Err cancelled) w
            | (false, w) => (Pending, w)
            end
        end
  end.

(** ** [package_response] *)

Fixpoint convert_response_headers (headers : list (string * Bytes)) : Result (list (string * string)) CoreError :=
  match headers with
  | [] => Ok []
  | (k, v) :: rest =>
      match hv_to_str v with
      | Some s => let? l := convert_response_headers rest in Ok ((k, s) :: l)
      | None => Err (invalid_input ("non-UTF8 response header value for '" +:+ k +:+ "'"))
      end
  end.

(** The response, and the pump spawned on the body: its writer and limit. *)
Definition package_response (now ep_max_header_size ep_max_response_body_bytes : Z)
  (resp : RespHead) (remote_str path : string) (max_response_body_bytes : option Z) (w : world)
  : Result FfiResponse CoreError * option (BodyWriter * Z) * world :=
  let limit := default ep_max_response_body_bytes max_response_body_bytes in
  let header_bytes := response_header_bytes (rh_headers resp) in
  if (ep_max_header_size <? header_bytes)%Z then
    (Err (header_too_large ("response header size " +:+ pretty header_bytes +:+ " exceeds limit " +:+
       pretty ep_max_header_size)), None, w)
  else
    match convert_response_headers (rh_headers resp) with
    | Err e => (Err e, None, w)
    | Ok resp_headers =>
        let response_url := "httpi://" +:+ remote_str +:+ path in
        if null_body_status (rh_status resp)
        then (Ok (mkFfiResponse (rh_status resp) resp_headers 0 response_url), None, w)
        else
          let g := insert_guard in
          let '(res_writer, res_reader, w) := make_body_channel w in
          match guard_insert_reader now res_reader g w with
          | (Err e, g, w) => (Err e, Some (res_writer, limit), guard_drop g w)
          | (Ok body_handle, g, w) =>
              (Ok (mkFfiResponse (rh_status resp) resp_headers body_handle response_url),
               Some (res_writer, limit), guard_drop (commit g) w)
          end
    end.

(** ** The call *)

(** The endpoint's own id, limits and whether its serve service is alive. *)
Record FetchEndpoint := mkFetchEndpoint {
  fe_node_id : string;
  fe_max_header_size : Z;
  fe_max_response_body_bytes : Z;
  fe_local_service : bool
}.

Definition no_server : CoreError :=
  connection_failed ("self-request: this node has no active server to handle a request to its " +:+
    "own node id. Call serve() before fetching httpi://<your-own-node-id>/…").

(** The exchange a running call drives; the in-process one is bounded here, the
    wire one by [fetch_request]. *)
Inductive Exchange :=
| Wire (addr : Id * list Relay * list SocketAddr) (timeout : option Z) (decompress : bool) (req : FetchReq)
| Loopback (peer : string) (timeout : option Z) (req : FetchReq).

Inductive FetchCall :=
| CallRunning (x : Exchange) (remote_str path : string) (run : RunState) (max_body : option Z)
| CallDone (r : Result FfiResponse CoreError) (pump : option (BodyWriter * Z)).

(** The call up to its first suspension; a refused call drops the body reader. *)
Definition fetch_start (ep : FetchEndpoint) (remote_node_id url method : string)
  (headers : list (string * string)) (req_body_reader : option BodyReader) (fetch_token : option Z)
  (direct_addrs : option (list SocketAddr)) (tmo : option Z) (decompress : bool)
  (max_response_body_bytes : option Z) (w : world) : FetchCall * world :=
  let drop_body (w : world) := match req_body_reader with Some r => drop_reader r w | None => w end in
  match fetch_prepare remote_node_id url method headers req_body_reader direct_addrs with
  | Err e => (CallDone (Err e) None, drop_body w)
  | Ok (addr, remote_str, path, req) =>
      if bool_decide (remote_str = fe_node_id ep) then
        if fe_local_service ep
        then (CallRunning (Loopback remote_str tmo req) remote_str path (run_start fetch_token w)
                max_response_body_bytes, w)
        else (CallDone (Err no_server) None, drop_body w)
      else (CallRunning (Wire addr tmo decompress req) remote_str path (run_start fetch_token w)
              max_response_body_bytes, w)
  end.

(** What the exchange answers to a poll: the wire one can fail, and the deadline
    of [run_with_cancel_and_timeout] applies only in-process. *)
Definition exchange_poll (x : Exchange) (ans : Poll (Result RespHead Client.FetchError))
  : bool * Poll (Result RespHead CoreError) :=
  match x with
  | Wire _ _ _ _ =>
      (false, match ans with
              | Pending => Pending
              | Ready (Ok h) => Ready (Ok h)
              | Ready (Err e) => Ready (Err (fetch_error_to_core e))
              end)
  | Loopback _ tmo _ =>
      (match tmo with Some _ => true | None => false end,
       match ans with Ready (Ok h) => Ready (Ok h) | _ => Pending end)
  end.

Definition fetch_poll (now : Z) (ep : FetchEndpoint) (cancel_first elapsed : bool)
  (ans : Poll (Result RespHead Client.FetchError)) (c : FetchCall) (w : world) : FetchCall * world :=
  match c with
  | CallDone _ _ => (c, w)
  | CallRunning x remote_str path run max_body =>
      let '(has_timeout, inner) := exchange_poll x ans in
      match run_poll cancel_first has_timeout elapsed inner run w with
      | (Pending, w) => (c, w)
      | (Ready (Err e), w) => (CallDone (Err e) None, w)
      | (Ready (Ok resp), w) =>
          let '(r, pump, w) := package_response now (fe_max_header_size ep)
            (fe_max_response_body_bytes ep) resp remote_str path max_body w in
          (CallDone r pump, w)
      end
  end.
End fetch.

(** * Properties of the FFI fetch

    The request target, the life of the cancel token, prompt cancellation and
    the packaging of the response. *)

(** ** The request target *)

Lemma split_at_char_app c s r :
  no_char c s -> split_at_char c (s +:+ String c r) = (s, Some (String c r)).
Proof.
  unfold no_char. induction s as [|a s IH]; rewrite ?append_nil, ?append_cons; cbn [split_at_char chars].
  - intros _. by rewrite decide_True.
  - intros Hn%not_elem_of_cons. destruct Hn as [Ha Hs]. rewrite decide_False by done.
    by rewrite IH.
Qed.

Lemma split_at_char_none c s : no_char c s -> split_at_char c s = (s, None).
Proof.
  unfold no_char. induction s as [|a s IH]; cbn [split_at_char chars]; [done|].
  intros Hn%not_elem_of_cons. destruct Hn as [Ha Hs]. rewrite decide_False by done. by rewrite IH.
Qed.

(** A fragment: empty, or from its hash sign on. *)
Definition is_fragment (f : string) : Prop := f = "" \/ exists r, f = String "#" r.

Lemma strip_fragment s f : no_char "#" s -> is_fragment f -> (split_at_char "#" (s +:+ f)).1 = s.
Proof.
  intros Hs [->|[r ->]]; [|by rewrite split_at_char_app].
  assert (s +:+ "" = s) as ->; [|by rewrite split_at_char_none].
  clear Hs. induction s as [|a s IH]; [done|]. rewrite ?append_cons. f_equal. exact IH.
Qed.

Lemma extract_path_httpi rest f :
  no_char "#" rest -> is_fragment f ->
  extract_path ("httpi://" +:+ rest +:+ f) =
  match (split_at_char "/" rest).2 with Some path => path | None => "/" end.
Proof.
  intros Hr Hf. unfold extract_path. rewrite append_assoc, strip_fragment; [|apply no_char_app; split; [by vm_compute; set_solver|done]|done].
  assert (strip_prefix "httpi://" ("httpi://" +:+ rest) = Some rest) as ->; [|done].
  by apply strip_prefix_Some.
Qed.

(** The request target of a URL [httpi://host...]: a path with its query is
    the target unchanged and the fragment is dropped, but a query that follows
    the host directly never reaches the peer: without a slash in it the target is
    "/", and with one it is what follows that slash, taken as the path. *)
Theorem extract_path_target host rest f :
  no_char "/" host -> no_char "#" host -> no_char "#" rest -> is_fragment f ->
  extract_path ("httpi://" +:+ host +:+ (String "/" rest) +:+ f) = String "/" rest /\
  (no_char "/" rest -> extract_path ("httpi://" +:+ host +:+ (String "?" rest) +:+ f) = "/") /\
  (forall q p, no_char "/" q -> rest = q +:+ String "/" p ->
     extract_path ("httpi://" +:+ host +:+ (String "?" rest) +:+ f) = String "/" p).
Proof.
  intros Hh1 Hh2 Hr Hf.
  assert (forall c, c <> "#"%char -> no_char "#" (host +:+ String c rest)) as Hn.
  { intros c Hc. apply no_char_app. split; [done|]. by apply no_char_cons. }
  rewrite !(append_assoc host). split_and!.
  - rewrite extract_path_httpi by (done || by apply Hn). by rewrite split_at_char_app.
  - intros Hs. rewrite extract_path_httpi by (done || by apply Hn).
    rewrite split_at_char_none; [done|]. apply no_char_app. split; [done|]. by apply no_char_cons.
  - intros q p Hq ->. rewrite extract_path_httpi by (done || by apply Hn).
    change (String "?" (q +:+ String "/" p)) with ("?" +:+ (q +:+ String "/" p)).
    rewrite (append_assoc "?"), (append_assoc host), split_at_char_app; [done|].
    apply no_char_app. split; [done|]. by apply no_char_cons.
Qed.

Section props.
Context {K : Type} {M : Type -> Type} `{HSM : SlotMap K M} `{Countable K} `{HSL : !SlotMapLaws K M}.
Context {C : Type -> Type} `{HMP : Mpsc C} `{HML : !MpscLaws C}.
Context {Id Relay : Type} `{HN : IrohNet Id Relay}.
Context (method_ok header_name_ok header_value_ok : string -> bool).
Context (uri_error : string -> option string) (debug_str : string -> string).
Context (hv_to_str : Bytes -> option string) (json_parse : string -> option NodeAddrInfo).

#[local] Abbreviation world := (World M C).
#[local] Abbreviation fetch_start := (Fetch.fetch_start (M := M) (C := C) (Id := Id) (Relay := Relay)
  method_ok header_name_ok header_value_ok uri_error debug_str json_parse).
#[local] Abbreviation fetch_poll := (Fetch.fetch_poll (M := M) (C := C) (Id := Id) (Relay := Relay) hv_to_str).
#[local] Abbreviation package_response := (Fetch.package_response (M := M) (C := C) hv_to_str).

(** ** Packaging *)

Lemma package_response_spec now mh mb resp remote path max (w : world) :
  match package_response now mh mb resp remote path max w with
  | (Ok r, pump, w') =>
      fr_status r = rh_status resp /\ fr_url r = "httpi://" +:+ remote +:+ path /\
      if null_body_status (rh_status resp) then fr_body_handle r = 0%Z /\ pump = None /\ w' = w
      else exists k c, fr_body_handle r = key_to_handle k /\
        pump = Some (mkWriter c (cfg_drain_timeout (config (store w))), default mb max) /\
        hp_chans (heap w') !! c = Some (make_body_channel_with (channel_capacity (config (store w)))) /\
        sm_view (readers (store w)) !! k = None /\
        sm_view (readers (store w')) = <[k := timed_new now (mkReader c)]> (sm_view (readers (store w))) /\
        writers (store w') = writers (store w) /\ sessions (store w') = sessions (store w) /\
        request_heads (store w') = request_heads (store w) /\
        fetch_cancels (store w') = fetch_cancels (store w) /\
        pending_readers (store w') = pending_readers (store w)
  | (Err _, pump, w') => handle_views w' = handle_views w
  end.
Proof.
  unfold Fetch.package_response. destruct (mh <? response_header_bytes (rh_headers resp))%Z; [done|].
  destruct (convert_response_headers _ _) as [hs|e]; [|done].
  destruct (null_body_status (rh_status resp)) eqn:En; [done|].
  simpl. unfold guard_insert_reader, insert_reader. simpl.
  destruct (insert_checked now (readers (store w)) _ _) as [[h1|e1] r1] eqn:E1; simpl.
  - apply insert_checked_view in E1 as (_ & k1 & -> & Hk1 & Hv1). split_and!; try done.
    eexists k1, _. split_and!; try done. simpl. by rewrite lookup_insert_eq.
  - done.
Qed.

(** The body handle of a fetched response is zero exactly for the statuses
    without a body, which allocate nothing; any other response has one fresh
    handle, which resolves to the reader of the very channel its pump writes,
    bounded by the per-call limit or else the endpoint's.  A response that is
    refused leaves every handle as it was. *)
Theorem fetch_response_body now mh mb resp remote path max (w : world) :
  match package_response now mh mb resp remote path max w with
  | (Ok r, pump, w') =>
      (fr_body_handle r = 0%Z <-> null_body_status (rh_status resp) = true) /\
      (fr_body_handle r = 0%Z -> pump = None /\ w' = w) /\
      (fr_body_handle r <> 0%Z ->
       exists c, pump = Some (mkWriter c (cfg_drain_timeout (config (store w))), default mb max) /\
         sm_view (readers (store w)) !! handle_to_key (fr_body_handle r) = None /\
         handle_views w' =
           (<[handle_to_key (fr_body_handle r) := timed_new now (mkReader c)]> (sm_view (readers (store w))),
            sm_view (writers (store w)), sm_view (request_heads (store w)), sm_view (sessions (store w)),
            sm_view (fetch_cancels (store w)), pending_readers (store w)))
  | (Err _, pump, w') => handle_views w' = handle_views w
  end.
Proof.
  pose proof (package_response_spec now mh mb resp remote path max w) as Hs.
  destruct (package_response now mh mb resp remote path max w) as [[[r|e] pump] w']; [|done].
  destruct Hs as (_ & _ & Hs). destruct (null_body_status (rh_status resp)).
  - destruct Hs as (-> & -> & ->). split_and!; done.
  - destruct Hs as (k & c & -> & -> & _ & Hk & Hv & E1 & E2 & E3 & E4 & E5).
    pose proof (as_ffi_nonzero k). unfold key_to_handle, handle_to_key. rewrite from_as_ffi.
    split_and!; [split; done|done|]. intros _. exists c. split_and!; try done.
    unfold handle_views. by rewrite Hv, E1, E2, E3, E4, E5.
Qed.

(** ** Tokens *)

Lemma release_token_view t (w : world) :
  sm_view (fetch_cancels (store (release_token (Some t) w))) =
  delete (handle_to_key t) (sm_view (fetch_cancels (store w))).
Proof. simpl. apply sm_view_remove. Qed.

Lemma take_permit_store n (w : world) : store (take_permit n w).2 = store w.
Proof. unfold take_permit. destruct (_ !! n) as [[]|]; done. Qed.

Lemma run_poll_store {T} first ht el (inner : Poll (Result T CoreError)) (s : RunState) (w : world) :
  match run_poll first ht el inner s w with
  | (Ready _, w') => exists w1, store w1 = store w /\ w' = release_token (run_token s) w1
  | (Pending, w') => store w' = store w
  end.
Proof.
  unfold run_poll. destruct (run_notify s) as [n|].
  - pose proof (take_permit_store n w). destruct (take_permit n w) as [b w1]; simpl in *.
    destruct first, b, (timed_poll ht el inner) as [r|]; eauto.
  - destruct (timed_poll ht el inner) as [r|]; eauto.
Qed.

Lemma package_response_tokens now mh mb resp remote path max (w w' : world) r pump :
  package_response now mh mb resp remote path max w = (r, pump, w') ->
  sm_view (fetch_cancels (store w')) = sm_view (fetch_cancels (store w)).
Proof.
  intros E. pose proof (package_response_spec now mh mb resp remote path max w) as Hs. rewrite E in Hs.
  destruct r as [r|e].
  - destruct Hs as (_ & _ & Hs). destruct (null_body_status _); [by destruct Hs as (_ & _ & ->)|].
    destruct Hs as (k & c & _ & _ & _ & _ & _ & _ & _ & _ & -> & _). done.
  - unfold handle_views in Hs. congruence.
Qed.

(** The life of a cancel token: once the exchange of a fetch runs, the token
    stays registered while it is pending and is removed by whatever poll ends
    the call, on success, error, timeout and cancellation alike; but a call that
    is refused before the exchange returns an error and leaves the token in the
    registry. *)
Theorem fetch_token_lifecycle ep rid url method hs body token da tmo dec mb (w w' : world) c :
  fetch_start ep rid url method hs body (Some token) da tmo dec mb w = (c, w') ->
  match c with
  | CallDone r _ => (exists e, r = Err e) /\ fetch_cancels (store w') = fetch_cancels (store w)
  | CallRunning _ _ _ run _ =>
      run = mkRun (Some token) (get_fetch_cancel_notify token w) /\
      forall now first elapsed ans (w1 : world),
        match fetch_poll now ep first elapsed ans c w1 with
        | (CallDone _ _, w2) =>
            sm_view (fetch_cancels (store w2)) =
            delete (handle_to_key token) (sm_view (fetch_cancels (store w1)))
        | (c', w2) => c' = c /\ store w2 = store w1
        end
  end.
Proof.
  assert (forall x remote path run max now first elapsed ans (w1 : world), run_token run = Some token ->
    match fetch_poll now ep first elapsed ans (CallRunning x remote path run max) w1 with
    | (CallDone _ _, w2) =>
        sm_view (fetch_cancels (store w2)) =
        delete (handle_to_key token) (sm_view (fetch_cancels (store w1)))
    | (c', w2) => c' = CallRunning x remote path run max /\ store w2 = store w1
    end) as Hpoll.
  { intros x remote path run max now first elapsed ans w1 Ht. unfold Fetch.fetch_poll.
    destruct (exchange_poll x ans) as [ht inner].
    pose proof (run_poll_store first ht elapsed inner run w1) as Hr.
    destruct (run_poll first ht elapsed inner run w1) as [[[resp|e]|] w2]; [| |done].
    - destruct (package_response _ _ _ _ _ _ _ w2) as [[r pump] w3] eqn:Ep.
      destruct Hr as (w0 & E0 & ->). apply package_response_tokens in Ep. rewrite Ep.
      by rewrite Ht, release_token_view, E0.
    - destruct Hr as (w0 & E0 & ->). by rewrite Ht, release_token_view, E0. }
  unfold Fetch.fetch_start. destruct (fetch_prepare _ _ _ _ _ _ _ _ _ _ _ _) as [[[[addr remote] path] req]|e].
  - case_bool_decide; [destruct (fe_local_service ep)|]; intros [= <- <-].
    + split; [done|]. intros. by apply Hpoll.
    + split; [eauto|]. by destruct body.
    + split; [done|]. intros. by apply Hpoll.
  - intros [= <- <-]. split; [eauto|]. by destruct body.
Qed.

(** Cancellation is prompt and is not lost: for a running fetch whose token is
    registered, after [cancel_in_flight] the very next poll ends the call, with
    the cancellation unless the exchange is ready at that poll and its branch is
    looked at first. *)
Theorem fetch_cancel_prompt x remote path t mb (w0 w : world) e p now ep first elapsed ans :
  sm_view (fetch_cancels (store w0)) !! handle_to_key t = Some e ->
  sm_view (fetch_cancels (store w)) !! handle_to_key t = Some e ->
  hp_tokens (heap w) !! value e = Some p ->
  exists r pump w',
    fetch_poll now ep first elapsed ans (CallRunning x remote path (run_start (Some t) w0) mb)
      (cancel_in_flight t w) = (CallDone r pump, w') /\
    (first = true \/ (ans = Pending /\ elapsed = false) -> r = Err cancelled).
Proof.
  intros H0 H1 Hp. unfold run_start, get_fetch_cancel_notify. rewrite sm_view_get, H0. simpl.
  assert (take_permit (value e) (cancel_in_flight t w) =
    (true, upd_token (fun _ => false) (value e) (cancel_in_flight t w))) as Ht.
  { unfold take_permit, cancel_in_flight. rewrite sm_view_get, H1. simpl.
    by rewrite lookup_alter_eq, Hp. }
  unfold run_poll; simpl. rewrite Ht. destruct (exchange_poll x ans) as [ht inner] eqn:Ex.
  destruct first; [eauto 10|]. destruct (timed_poll ht elapsed inner) as [[resp|err]|] eqn:Ed.
  - destruct (package_response _ _ _ _ _ _ _ _) as [[r pump] w3]. eexists _, _, _. split; [done|].
    intros [|[-> ->]]; [done|].
    destruct x; simplify_eq/=; by rewrite ?andb_false_r in Ed.
  - eexists _, _, _. split; [done|]. intros [|[-> ->]]; [done|].
    destruct x; simplify_eq/=; by rewrite ?andb_false_r in Ed.
  - eauto 10.
Qed.
End props.

(** ** Concrete instances *)

#[local] Abbreviation vworld := (World VecMap ChanView).

Lemma extract_path_witness :
  extract_path "httpi://node/a?b=1#secret" = "/a?b=1" /\
  extract_path "httpi://node?next=/home" = "/home".
Proof.
  split.
  - apply (extract_path_target "node" "a?b=1" "#secret"); [vm_compute; set_solver..|].
    right. by exists "secret".
  - assert (is_fragment "") as Hf by (by left).
    destruct (extract_path_target "node" "next=/home" "") as (_ & _ & H); [vm_compute; set_solver..|done|].
    apply (H "next=" "home"); [vm_compute; set_solver|reflexivity].
Defined.

(** A store with one token, registered under the handle [demo_token]. *)
Definition demo_tokens : Result Z CoreError * vworld := alloc_fetch_token 0 (world_new (mkConfig 4 3 1000 2 5000)).
Definition demo_world : vworld := demo_tokens.2.
Definition demo_token : Z := 4294967297.
Definition demo_ep : FetchEndpoint := mkFetchEndpoint "self" 100 1000 false.
Definition demo_head : RespHead := mkRespHead 200 [("x", [Byte.x61])].
Definition demo_text (b : Bytes) : option string := Some "text".
Definition yes (s : string) : bool := true.

(** The id of 32 zero bytes, as its text form. *)
Definition demo_remote : string := b32_encode (IrohNet := text_IrohNet) (replicate 32 Byte.x00).

Lemma fetch_response_body_witness :
  (package_response demo_text 7 100 1000 demo_head "self" "/" None demo_world).1.1 =
  Ok (mkFfiResponse 200 [("x", "text")] 4294967297 "httpi://self/") /\
  null_body_status (rh_status demo_head) = false.
Proof.
  pose proof (fetch_response_body demo_text 7 100 1000 demo_head "self" "/" None demo_world) as H.
  split; [reflexivity|].
  destruct (package_response _ _ _ _ _ _ _ _ _) as [[[r|e] pump] w] eqn:E; [|vm_compute in E; discriminate].
  destruct H as (H & _). destruct (null_body_status (rh_status demo_head)); [|reflexivity].
  vm_compute in E. injection E as <- _ _. destruct H as [_ H]. discriminate (H eq_refl).
Defined.

Definition demo_start (url : string) :=
  fetch_start (Id := Byte.byte) (Relay := unit) yes yes yes (fun _ => None) (fun s => s) (fun _ => None)
    demo_ep demo_remote url "GET" [] None (Some demo_token) None None true None demo_world.

Lemma fetch_token_lifecycle_witness :
  (exists e, (demo_start "http://x").1 = CallDone (Err e) None) /\
  fetch_cancels (store (demo_start "http://x").2) = fetch_cancels (store demo_world).
Proof.
  pose proof (fetch_token_lifecycle yes yes yes (fun _ => None) (fun s => s) demo_text (fun _ => None)
    demo_ep demo_remote "http://x" "GET" [] None demo_token None None true None demo_world
    (demo_start "http://x").2 (demo_start "http://x").1) as H.
  split; [eexists; vm_compute; reflexivity|]. apply H. vm_compute. reflexivity.
Defined.

Lemma fetch_cancel_prompt_witness :
  exists r pump w',
    fetch_poll demo_text 9 demo_ep true false Pending (demo_start "httpi://peer/").1
      (cancel_in_flight demo_token demo_world) = (CallDone r pump, w') /\ r = Err cancelled.
Proof.
  destruct (fetch_cancel_prompt demo_text
    (Wire (Byte.x00, ([] : list unit), []) None true
       (mkFetchReq "GET" "/" [("host", demo_remote); ("accept-encoding", "zstd")] None))
    demo_remote "/" demo_token None demo_world demo_world (mkTimed 0 0) false 9 demo_ep true false Pending)
    as (r & pump & w' & E & Hr); [reflexivity..|].
  exists r, pump, w'. split; [exact E|]. apply Hr. by left.
Defined.
