(* ===== verification/ServeCycle.v ===== *)
(** * Serve cycles of an endpoint (http/server/handle.rs, http/server/accept.rs,
      http/server/mod.rs, endpoint/lifecycle.rs, endpoint/session_runtime.rs)

    An endpoint runs one serve cycle after another; a cycle is a [ServeHandle]
    with its accept loop.  The serve calls, [stop_serve], the closes, the methods
    of handles and the accept loops run concurrently: each is a machine whose
    steps are its sections between suspension points and lock releases.  The
    connections of a cycle are the business of [ServeRuntime]; here the loop only
    hands them over. *)

From stdpp Require Import base numbers list.
From Stdlib Require Import ZArith Lia.
From S2P Require Import Prelude.

Open Scope list_scope.

(** ** State *)

(** Where a serve call is: the cycle is minted but not registered, registered,
    its task spawned, its join handle attached, and (for the FFI entry) the local
    service installed. *)
Inductive ServePc := SvRegister | SvSpawn | SvAttach | SvInstall | SvReturned.

(** Where the accept loop is. *)
Inductive TaskPc :=
| TNone          (* not spawned *)
| TStart         (* before its first poll *)
| TSelect        (* at the [select!] *)
| THandshake     (* awaits an incoming connection *)
| TDraining      (* in [runtime.shutdown()] *)
| TExited        (* returned, having sent [done] *)
| TAborted.      (* cancelled: the [done] sender is dropped *)

(** A cycle: the shared state behind its [ServeHandle], its serve call and its
    task.  [cy_permit] is the permit [notify_one] stores in [shutdown_notify];
    [cy_cancelled]: [JoinHandle::abort] was called; [cy_handed]: how many
    connections its loop has handed over. *)
Record Cycle := mkCycle {
  cy_token : Z;
  cy_ffi : bool;
  cy_cfg_ok : bool;
  cy_pc : ServePc;
  cy_join : bool;
  cy_abort_requested : bool;
  cy_shutdown_requested : bool;
  cy_permit : bool;
  cy_close_flag : bool;
  cy_close_notified : nat;
  cy_cancelled : bool;
  cy_task : TaskPc;
  cy_done : bool;
  cy_handed : nat
}.

(** A close of the endpoint, or a [drain] or [abort] of a handle ([ct_close] is
    false), by the next section to run. *)
Inductive ClosePc :=
| CTake (force : bool)
| CDrain (c : nat)
| CTakeJoin (c : nat)
| CAwaitJoin (c : nat)
| CAwaitDone (c : nat)
| CAbortFlag (c : nat)
| CAbortJoin (c : nat)
| CClear
| CTransport
| CSend
| CEnd.
Record CloseTask := mkClose { ct_close : bool; ct_pc : ClosePc }.

Record Endpoint := mkEndpoint {
  serve_handle : option nat;
  serve_started_gen : Z;
  serve_stopped_gen : Z;
  serve_done_rx : option nat;
  local_service : option nat;
  transport_closed : bool;
  closed : bool;
  cycles : list Cycle;
  closes : list CloseTask
}.

Definition endpoint_new : Endpoint := mkEndpoint None 0 0 None None false false [] [].

(** ** [ServeHandle] *)

Definition pending (token : Z) (ffi cfg_ok : bool) : Cycle :=
  mkCycle token ffi cfg_ok SvRegister false false false false false 0 false TNone false 0.

Definition set_pc pc (c : Cycle) : Cycle :=
  mkCycle (cy_token c) (cy_ffi c) (cy_cfg_ok c) pc (cy_join c) (cy_abort_requested c)
    (cy_shutdown_requested c) (cy_permit c) (cy_close_flag c) (cy_close_notified c) (cy_cancelled c)
    (cy_task c) (cy_done c) (cy_handed c).
Definition set_join j (c : Cycle) : Cycle :=
  mkCycle (cy_token c) (cy_ffi c) (cy_cfg_ok c) (cy_pc c) j (cy_abort_requested c)
    (cy_shutdown_requested c) (cy_permit c) (cy_close_flag c) (cy_close_notified c) (cy_cancelled c)
    (cy_task c) (cy_done c) (cy_handed c).
Definition set_abort_requested (c : Cycle) : Cycle :=
  mkCycle (cy_token c) (cy_ffi c) (cy_cfg_ok c) (cy_pc c) (cy_join c) true
    (cy_shutdown_requested c) (cy_permit c) (cy_close_flag c) (cy_close_notified c) (cy_cancelled c)
    (cy_task c) (cy_done c) (cy_handed c).
Definition set_cancelled (c : Cycle) : Cycle :=
  mkCycle (cy_token c) (cy_ffi c) (cy_cfg_ok c) (cy_pc c) (cy_join c) (cy_abort_requested c)
    (cy_shutdown_requested c) (cy_permit c) (cy_close_flag c) (cy_close_notified c) true
    (cy_task c) (cy_done c) (cy_handed c).
Definition set_task t (c : Cycle) : Cycle :=
  mkCycle (cy_token c) (cy_ffi c) (cy_cfg_ok c) (cy_pc c) (cy_join c) (cy_abort_requested c)
    (cy_shutdown_requested c) (cy_permit c) (cy_close_flag c) (cy_close_notified c) (cy_cancelled c)
    t (cy_done c) (cy_handed c).
Definition set_done (c : Cycle) : Cycle :=
  mkCycle (cy_token c) (cy_ffi c) (cy_cfg_ok c) (cy_pc c) (cy_join c) (cy_abort_requested c)
    (cy_shutdown_requested c) (cy_permit c) (cy_close_flag c) (cy_close_notified c) (cy_cancelled c)
    (cy_task c) true (cy_handed c).
Definition take_permit (c : Cycle) : Cycle :=
  mkCycle (cy_token c) (cy_ffi c) (cy_cfg_ok c) (cy_pc c) (cy_join c) (cy_abort_requested c)
    (cy_shutdown_requested c) false (cy_close_flag c) (cy_close_notified c) (cy_cancelled c)
    (cy_task c) (cy_done c) (cy_handed c).
Definition hand_over (c : Cycle) : Cycle :=
  mkCycle (cy_token c) (cy_ffi c) (cy_cfg_ok c) (cy_pc c) (cy_join c) (cy_abort_requested c)
    (cy_shutdown_requested c) (cy_permit c) (cy_close_flag c) (cy_close_notified c) (cy_cancelled c)
    (cy_task c) (cy_done c) (S (cy_handed c)).

(** [shutdown]: the flag, then [notify_one]. *)
Definition shutdown (c : Cycle) : Cycle :=
  mkCycle (cy_token c) (cy_ffi c) (cy_cfg_ok c) (cy_pc c) (cy_join c) (cy_abort_requested c)
    true true (cy_close_flag c) (cy_close_notified c) (cy_cancelled c)
    (cy_task c) (cy_done c) (cy_handed c).

Definition shutdown_and_close (c : Cycle) : Cycle :=
  mkCycle (cy_token c) (cy_ffi c) (cy_cfg_ok c) (cy_pc c) (cy_join c) (cy_abort_requested c)
    true true true (S (cy_close_notified c)) (cy_cancelled c)
    (cy_task c) (cy_done c) (cy_handed c).

Definition attach_join (c : Cycle) : Cycle :=
  if cy_abort_requested c then set_cancelled c else set_join true c.

(** The second section of [abort]. *)
Definition abort_join (c : Cycle) : Cycle := if cy_join c then set_cancelled c else c.

(** ** The endpoint *)

Definition set_cycles cs (e : Endpoint) : Endpoint :=
  mkEndpoint (serve_handle e) (serve_started_gen e) (serve_stopped_gen e) (serve_done_rx e)
    (local_service e) (transport_closed e) (closed e) cs (closes e).
Definition upd_cycle (f : Cycle -> Cycle) (i : nat) (e : Endpoint) : Endpoint :=
  set_cycles (alter f i (cycles e)) e.
Definition set_closes l (e : Endpoint) : Endpoint :=
  mkEndpoint (serve_handle e) (serve_started_gen e) (serve_stopped_gen e) (serve_done_rx e)
    (local_service e) (transport_closed e) (closed e) (cycles e) l.
Definition set_serve_slot h (e : Endpoint) : Endpoint :=
  mkEndpoint h (serve_started_gen e) (serve_stopped_gen e) (serve_done_rx e)
    (local_service e) (transport_closed e) (closed e) (cycles e) (closes e).
Definition set_done_rx d (e : Endpoint) : Endpoint :=
  mkEndpoint (serve_handle e) (serve_started_gen e) (serve_stopped_gen e) d
    (local_service e) (transport_closed e) (closed e) (cycles e) (closes e).
Definition set_local l (e : Endpoint) : Endpoint :=
  mkEndpoint (serve_handle e) (serve_started_gen e) (serve_stopped_gen e) (serve_done_rx e)
    l (transport_closed e) (closed e) (cycles e) (closes e).
Definition clear_local_service : Endpoint -> Endpoint := set_local None.
Definition set_transport_closed (e : Endpoint) : Endpoint :=
  mkEndpoint (serve_handle e) (serve_started_gen e) (serve_stopped_gen e) (serve_done_rx e)
    (local_service e) true (closed e) (cycles e) (closes e).
Definition set_closed (e : Endpoint) : Endpoint :=
  mkEndpoint (serve_handle e) (serve_started_gen e) (serve_stopped_gen e) (serve_done_rx e)
    (local_service e) (transport_closed e) true (cycles e) (closes e).

(** [next_serve_token], and the new cycle. *)
Definition next_serve_token (ffi cfg_ok : bool) (e : Endpoint) : Endpoint :=
  let token := ((serve_started_gen e + 1) mod (U64_MAX + 1))%Z in
  mkEndpoint (serve_handle e) token (serve_stopped_gen e) (serve_done_rx e)
    (local_service e) (transport_closed e) (closed e) (cycles e ++ [pending token ffi cfg_ok]) (closes e).

Definition record_stopped_token (t : Z) (e : Endpoint) : Endpoint :=
  mkEndpoint (serve_handle e) (serve_started_gen e) t (serve_done_rx e)
    (local_service e) (transport_closed e) (closed e) (cycles e) (closes e).

(** [is_same_cycle]: equality of the tokens. *)
Definition token_of (e : Endpoint) (i : nat) : option Z := cy_token <$> cycles e !! i.
Definition is_same_cycle (e : Endpoint) (i j : nat) : bool := bool_decide (token_of e i = token_of e j).
Definition is_current (e : Endpoint) (i : nat) : bool :=
  match serve_handle e with Some cur => is_same_cycle e cur i | None => false end.

Definition register_serve_handle (i : nat) (e : Endpoint) : Endpoint :=
  if is_current e i then e
  else
    let e := match serve_handle e with
             | Some prev => set_serve_slot None (upd_cycle shutdown_and_close prev e)
             | None => e
             end in
    let e := clear_local_service e in
    set_serve_slot (Some i) (set_done_rx (Some i) e).

Definition set_serve_handle (i : nat) (e : Endpoint) : Endpoint :=
  if is_current e i then e else upd_cycle shutdown_and_close i e.

Definition stop_serve (e : Endpoint) : Endpoint :=
  let e := clear_local_service e in
  match serve_handle e with
  | Some h => upd_cycle shutdown h (record_stopped_token (default 0%Z (token_of e h)) e)
  | None => e
  end.

Definition set_local_service_for (i : nat) (e : Endpoint) : Endpoint :=
  match cycles e !! i with
  | Some c => if is_current e i && negb (cy_shutdown_requested c) then set_local (Some i) e else e
  | None => e
  end.

(** ** Steps *)

(** The next section of the serve call of cycle [i]. *)
Definition serve_step (i : nat) (e : Endpoint) : option Endpoint :=
  match cycles e !! i with
  | None => None
  | Some c =>
      match cy_pc c with
      | SvRegister => Some (upd_cycle (set_pc SvSpawn) i (register_serve_handle i e))
      | SvSpawn => Some (upd_cycle (set_task TStart) i (upd_cycle (set_pc SvAttach) i e))
      | SvAttach => Some (upd_cycle (set_pc SvInstall) i (upd_cycle attach_join i e))
      | SvInstall =>
          Some (upd_cycle (set_pc SvReturned) i (if cy_ffi c then set_local_service_for i e else e))
      | SvReturned => None
      end
  end.

(** What the accept loop finds when it is polled. *)
Inductive LoopEv := EvNothing | EvIncoming | EvHandshake (ok : bool) | EvDrained.

Definition task_ended (t : TaskPc) : bool := match t with TExited | TAborted => true | _ => false end.

(** One poll of the accept loop of cycle [i]; a cancelled task ends instead. *)
Definition task_poll (i : nat) (ev : LoopEv) (e : Endpoint) : option Endpoint :=
  match cycles e !! i with
  | None => None
  | Some c =>
      let put f := Some (upd_cycle f i e) in
      match cy_task c with
      | TNone | TExited | TAborted => None
      | t =>
          if cy_cancelled c then put (set_task TAborted)
          else match t with
               | TStart =>
                   if cy_cfg_ok c then put (set_task TSelect) else put (fun c => set_task TExited (set_done c))
               | TSelect =>
                   if cy_permit c then put (fun c => set_task TDraining (take_permit c))
                   else if transport_closed e then Some (set_closed (upd_cycle (set_task TDraining) i e))
                   else match ev with EvIncoming => put (set_task THandshake) | _ => Some e end
               | THandshake =>
                   match ev with
                   | EvHandshake true => put (fun c => set_task TSelect (hand_over c))
                   | EvHandshake false => put (set_task TSelect)
                   | _ => Some e
                   end
               | TDraining =>
                   match ev with EvDrained => put (fun c => set_task TExited (set_done c)) | _ => Some e end
               | _ => None
               end
      end
  end.

(** What follows a handle's own drain or abort, and a close's. *)
Definition after_handle (t : CloseTask) : ClosePc := if ct_close t then CClear else CEnd.

Definition put_close (k : nat) (pc : ClosePc) (e : Endpoint) : Endpoint :=
  set_closes (alter (fun t => mkClose (ct_close t) pc) k (closes e)) e.

(** The next section of close [k]; the awaits are enabled when the task has
    ended ([done] was sent, or its sender dropped). *)
Definition close_step (k : nat) (e : Endpoint) : option Endpoint :=
  match closes e !! k with
  | None => None
  | Some t =>
      match ct_pc t with
      | CTake force =>
          match serve_handle e with
          | Some h => Some (put_close k (if force then CAbortFlag h else CDrain h) (set_serve_slot None e))
          | None => Some (put_close k CClear e)
          end
      | CDrain h => Some (put_close k (CTakeJoin h) (upd_cycle shutdown h e))
      | CTakeJoin h =>
          match cycles e !! h with
          | None => None
          | Some c =>
              Some (put_close k (if cy_join c then CAwaitJoin h else CAwaitDone h) (upd_cycle (set_join false) h e))
          end
      | CAwaitJoin h | CAwaitDone h =>
          match cycles e !! h with
          | Some c => if task_ended (cy_task c) then Some (put_close k (after_handle t) e) else None
          | None => None
          end
      | CAbortFlag h => Some (put_close k (CAbortJoin h) (upd_cycle set_abort_requested h e))
      | CAbortJoin h => Some (put_close k (after_handle t) (upd_cycle abort_join h e))
      | CClear => Some (put_close k CTransport (clear_local_service e))
      | CTransport => Some (put_close k CSend (set_transport_closed e))
      | CSend => Some (put_close k CEnd (set_closed e))
      | CEnd => None
      end
  end.

(** What the tasks and callers can do; the methods of a handle need the handle
    the serve call returned. *)
Inductive Act :=
| AServe (ffi cfg_ok : bool)
| AServeStep (i : nat)
| ATask (i : nat) (ev : LoopEv)
| AStop
| AConfirm (i : nat)
| AShutdown (i : nat)
| AShutdownAndClose (i : nat)
| AClose (force : bool)
| ADrain (i : nat)
| AAbort (i : nat)
| ACloseStep (k : nat).

Definition returned (e : Endpoint) (i : nat) : bool :=
  match cycles e !! i with
  | Some c => match cy_pc c with SvReturned => true | _ => false end
  | None => false
  end.

Definition start_close (t : CloseTask) (e : Endpoint) : Endpoint := set_closes (closes e ++ [t]) e.

Definition endpoint_step (a : Act) (e : Endpoint) : option Endpoint :=
  match a with
  | AServe ffi cfg_ok => Some (next_serve_token ffi cfg_ok e)
  | AServeStep i => serve_step i e
  | ATask i ev => task_poll i ev e
  | AStop => Some (stop_serve e)
  | AConfirm i => if returned e i then Some (set_serve_handle i e) else None
  | AShutdown i => if returned e i then Some (upd_cycle shutdown i e) else None
  | AShutdownAndClose i => if returned e i then Some (upd_cycle shutdown_and_close i e) else None
  | AClose force => Some (start_close (mkClose true (CTake force)) e)
  | ADrain i => if returned e i then Some (start_close (mkClose false (CDrain i)) e) else None
  | AAbort i => if returned e i then Some (start_close (mkClose false (CAbortFlag i)) e) else None
  | ACloseStep k => close_step k e
  end.

Definition estep (e e' : Endpoint) : Prop := exists a, endpoint_step a e = Some e'.

Fixpoint endpoint_run (l : list Act) (e : Endpoint) : option Endpoint :=
  match l with
  | [] => Some e
  | a :: l => match endpoint_step a e with Some e' => endpoint_run l e' | None => None end
  end.

(** [wait_serve_stop] returns. *)
Definition serve_stopped (e : Endpoint) : bool :=
  match serve_done_rx e with
  | Some h => match cycles e !! h with Some c => task_ended (cy_task c) | None => true end
  | None => true
  end.
