(* ===== verification/ServeCycleProps.v ===== *)
(** * Properties of serve cycles

    An invariant of every interleaving, by induction on the steps: cycles that
    left the endpoint's slot have been told to stop, and what was told to stop
    does. *)

From stdpp Require Import base numbers list relations.
From Stdlib Require Import ZArith Lia.
From S2P Require Import Prelude ServeCycle.

Open Scope list_scope.

(** ** The invariant *)

Definition leaving (t : TaskPc) : Prop := t = TDraining \/ t = TExited \/ t = TAborted.
Definition registered (c : Cycle) : Prop := cy_pc c <> SvRegister.
Definition attached (c : Cycle) : Prop := cy_pc c = SvInstall \/ cy_pc c = SvReturned.

(** A close has taken cycle [i] and not yet told it to stop; one is in the middle
    of aborting it. *)
Definition held (e : Endpoint) (i : nat) : Prop :=
  exists k t, closes e !! k = Some t /\ (ct_pc t = CDrain i \/ ct_pc t = CAbortFlag i).
Definition aborting (e : Endpoint) (i : nat) : Prop :=
  exists k t, closes e !! k = Some t /\ ct_pc t = CAbortJoin i.

Record cycle_ok (current is_held is_aborting : Prop) (c : Cycle) : Prop := {
  co_stop : registered c -> ~ current ->
    cy_shutdown_requested c = true \/ cy_abort_requested c = true \/ is_held;
  co_shutdown : cy_shutdown_requested c = true -> cy_permit c = true \/ leaving (cy_task c);
  co_abort : cy_abort_requested c = true -> attached c ->
    cy_cancelled c = true \/ cy_shutdown_requested c = true \/ is_aborting;
  co_join : attached c -> cy_join c = true \/ cy_shutdown_requested c = true \/ cy_cancelled c = true;
  co_task : cy_pc c = SvRegister \/ cy_pc c = SvSpawn -> cy_task c = TNone
}.

Record good (e : Endpoint) : Prop := {
  g_tokens : forall i c, cycles e !! i = Some c -> cy_token c = (Z.of_nat i + 1)%Z;
  g_started : serve_started_gen e = Z.of_nat (length (cycles e));
  g_slot : forall h, serve_handle e = Some h -> exists c, cycles e !! h = Some c /\ registered c;
  g_cycles : forall i c, cycles e !! i = Some c ->
    cycle_ok (serve_handle e = Some i) (held e i) (aborting e i) c;
  g_take_join : forall k t h c, closes e !! k = Some t -> ct_pc t = CTakeJoin h ->
    cycles e !! h = Some c -> cy_shutdown_requested c = true;
  g_range : forall k t h, closes e !! k = Some t -> ct_pc t = CDrain h \/ ct_pc t = CTakeJoin h ->
    h < length (cycles e)
}.

(** Tokens do not wrap below this many cycles. *)
Definition fits (e : Endpoint) : Prop := (Z.of_nat (length (cycles e)) <= U64_MAX)%Z.

(** ** Changing one cycle *)

(** [f] keeps what the rest of the invariant relies on. *)
Record tame (f : Cycle -> Cycle) : Prop := {
  tm_token : forall c, cy_token (f c) = cy_token c;
  tm_registered : forall c, registered c -> registered (f c);
  tm_shutdown : forall c, cy_shutdown_requested c = true -> cy_shutdown_requested (f c) = true
}.

Lemma good_upd f i (e : Endpoint) :
  tame f -> good e ->
  (forall c, cycles e !! i = Some c ->
     cycle_ok (serve_handle e = Some i) (held e i) (aborting e i) c ->
     cycle_ok (serve_handle e = Some i) (held e i) (aborting e i) (f c)) ->
  good (upd_cycle f i e).
Proof.
  intros [Ht Hr Hs] [G1 G2 G3 G4 G5 G6] Hf.
  assert (forall j c', alter f i (cycles e) !! j = Some c' ->
    exists c, cycles e !! j = Some c /\ ((j = i /\ c' = f c) \/ (j <> i /\ c' = c))) as Hl.
  { intros j c'. destruct (decide (j = i)) as [->|Hne].
    - rewrite list_lookup_alter_eq. intros (c & -> & ->)%fmap_Some. exists c. eauto.
    - rewrite list_lookup_alter_ne by done. intros ->. exists c'. eauto. }
  constructor; cbn [upd_cycle set_cycles cycles serve_started_gen serve_handle closes].
  - intros j c' (c & Ej & [[-> ->]|[_ ->]])%Hl; [rewrite Ht|]; by apply G1.
  - by rewrite length_alter.
  - intros h (c & Eh & Hc)%G3. destruct (decide (h = i)) as [->|Hne].
    + exists (f c). rewrite list_lookup_alter_eq, Eh. split; [done|by apply Hr].
    + exists c. by rewrite list_lookup_alter_ne.
  - intros j c' (c & Ej & [[-> ->]|[_ ->]])%Hl; [apply Hf; [done|]|]; by apply G4.
  - intros k t h c' Hk Hp (c & Ej & [[-> ->]|[_ ->]])%Hl; [apply Hs|]; by eapply G5.
  - intros k t h Hk Hp. rewrite length_alter. by eapply G6.
Qed.

Ltac tame := constructor; intros c; try by (destruct c; cbn in *).
Lemma tame_shutdown : tame shutdown. Proof. tame. Qed.
Lemma tame_shutdown_and_close : tame shutdown_and_close. Proof. tame. Qed.
Lemma tame_set_task t : tame (set_task t). Proof. tame. Qed.
Lemma tame_set_pc pc : pc <> SvRegister -> tame (set_pc pc). Proof. intros; tame. Qed.
Lemma tame_set_join j : tame (set_join j). Proof. tame. Qed.
Lemma tame_set_abort : tame set_abort_requested. Proof. tame. Qed.
Lemma tame_attach_join : tame attach_join.
Proof. unfold attach_join. constructor; intros c; destruct (cy_abort_requested c); by destruct c. Qed.
Lemma tame_abort_join : tame abort_join.
Proof. unfold abort_join. constructor; intros c; destruct (cy_join c) eqn:?; by destruct c. Qed.

(** Telling a cycle to stop is always fine. *)
Lemma ok_shutdown (P Q R : Prop) c : cycle_ok P Q R c -> cycle_ok P Q R (shutdown c).
Proof. intros [H1 H2 H3 H4 H5]. constructor; destruct c; cbn in *; unfold registered, attached, leaving in *; cbn in *; tauto. Qed.
Lemma ok_shutdown_and_close (P Q R : Prop) c : cycle_ok P Q R c -> cycle_ok P Q R (shutdown_and_close c).
Proof. intros [H1 H2 H3 H4 H5]. constructor; destruct c; cbn in *; unfold registered, attached, leaving in *; cbn in *; tauto. Qed.

Lemma good_shutdown i e : good e -> good (upd_cycle shutdown i e).
Proof. intros G. apply good_upd; [apply tame_shutdown|done|]. intros c _. apply ok_shutdown. Qed.
Lemma good_shutdown_and_close i e : good e -> good (upd_cycle shutdown_and_close i e).
Proof. intros G. apply good_upd; [apply tame_shutdown_and_close|done|]. intros c _. apply ok_shutdown_and_close. Qed.

(** ** The other fields *)

Lemma good_ext (e e' : Endpoint) :
  serve_handle e' = serve_handle e -> serve_started_gen e' = serve_started_gen e ->
  cycles e' = cycles e -> closes e' = closes e -> good e -> good e'.
Proof.
  intros E1 E2 E3 E4 [G1 G2 G3 G4 G5 G6]. unfold held, aborting in *.
  constructor; unfold held, aborting; rewrite ?E1, ?E2, ?E3, ?E4; done.
Qed.

Lemma is_current_slot e i c :
  good e -> cycles e !! i = Some c -> is_current e i = true <-> serve_handle e = Some i.
Proof.
  intros G Hi. unfold is_current. destruct (serve_handle e) as [h|] eqn:Eh; [|done].
  destruct (g_slot e G h Eh) as (ch & Hh & _).
  unfold is_same_cycle. rewrite bool_decide_eq_true. unfold token_of. rewrite Hh, Hi. simpl.
  rewrite (g_tokens e G _ _ Hh), (g_tokens e G _ _ Hi). split; [intros [= ?]; f_equal; lia|by intros [= ->]].
Qed.

(** ** Closes *)

(** Moving close [k] on releases only the cycle it was holding. *)
Lemma held_put_close k pc e t j :
  closes e !! k = Some t -> held e j ->
  held (put_close k pc e) j \/ ct_pc t = CDrain j \/ ct_pc t = CAbortFlag j.
Proof.
  intros Hk (k' & t' & Hk' & Hp). destruct (decide (k' = k)) as [->|Hne].
  - rewrite Hk in Hk'. injection Hk' as <-. tauto.
  - left. exists k', t'. cbn. by rewrite list_lookup_alter_ne.
Qed.
Lemma aborting_put_close k pc e t j :
  closes e !! k = Some t -> aborting e j ->
  aborting (put_close k pc e) j \/ ct_pc t = CAbortJoin j.
Proof.
  intros Hk (k' & t' & Hk' & Hp). destruct (decide (k' = k)) as [->|Hne].
  - rewrite Hk in Hk'. injection Hk' as <-. tauto.
  - left. exists k', t'. cbn. by rewrite list_lookup_alter_ne.
Qed.

Lemma cycle_ok_weaken (P P' Q Q' R R' : Prop) c :
  (~ P' -> ~ P) -> (Q -> Q' \/ cy_shutdown_requested c = true \/ cy_abort_requested c = true) ->
  (R -> R' \/ cy_cancelled c = true \/ cy_shutdown_requested c = true) ->
  cycle_ok P Q R c -> cycle_ok P' Q' R' c.
Proof. intros HP HQ HR [H1 H2 H3 H4 H5]. constructor; tauto. Qed.

(** A close moves on after what it held was told to stop. *)
Lemma good_put_close k pc e t :
  good e -> closes e !! k = Some t ->
  (forall j c, cycles e !! j = Some c -> ct_pc t = CDrain j \/ ct_pc t = CAbortFlag j ->
     cy_shutdown_requested c = true \/ cy_abort_requested c = true) ->
  (forall j c, cycles e !! j = Some c -> ct_pc t = CAbortJoin j -> attached c -> cy_abort_requested c = true ->
     cy_cancelled c = true \/ cy_shutdown_requested c = true) ->
  (forall h c, pc = CTakeJoin h -> cycles e !! h = Some c -> cy_shutdown_requested c = true) ->
  (forall h, pc = CDrain h \/ pc = CTakeJoin h -> h < length (cycles e)) ->
  good (put_close k pc e).
Proof.
  intros [G1 G2 G3 G4 G5 G6] Hk Hstop Habort Hjoin Hrange. constructor; try done.
  - intros j c Hj. change (cycles (put_close k pc e)) with (cycles e) in Hj.
    change (serve_handle (put_close k pc e)) with (serve_handle e).
    destruct (G4 j c Hj) as [H1 H2 H3 H4 H5]. constructor; try done.
    + intros Hr Hc. destruct (H1 Hr Hc) as [|[|Hh]]; [by left|by right; left|].
      destruct (held_put_close k pc e t j Hk Hh) as [|Hp]; [by right; right|].
      destruct (Hstop j c Hj Hp); tauto.
    + intros Ha Hat. destruct (H3 Ha Hat) as [|[|Hab]]; [by left|by right; left|].
      destruct (aborting_put_close k pc e t j Hk Hab) as [|Hp]; [by right; right|].
      destruct (Habort j c Hj Hp Hat Ha); tauto.
  - intros k' t' h c Hk' Hp Hh. cbn in Hk', Hh. destruct (decide (k' = k)) as [->|Hne].
    + rewrite list_lookup_alter_eq, Hk in Hk'. injection Hk' as <-. by eapply Hjoin.
    + rewrite list_lookup_alter_ne in Hk' by done. by eapply G5.
  - intros k' t' h Hk' Hp. cbn in Hk' |- *. destruct (decide (k' = k)) as [->|Hne].
    + rewrite list_lookup_alter_eq, Hk in Hk'. injection Hk' as <-. by apply Hrange.
    + rewrite list_lookup_alter_ne in Hk' by done. by eapply G6.
Qed.

(** The slot is emptied into a close. *)
Lemma good_take k (force : bool) h e t :
  good e -> closes e !! k = Some t -> ct_pc t = CTake force -> serve_handle e = Some h ->
  good (put_close k (if force then CAbortFlag h else CDrain h) (set_serve_slot None e)).
Proof.
  intros [G1 G2 G3 G4 G5 G6] Hk Hp Hs. set (pc := if force then _ else _).
  assert (forall j, held e j -> held (put_close k pc (set_serve_slot None e)) j) as Hheld.
  { intros j Hj. destruct (held_put_close k pc (set_serve_slot None e) t j Hk Hj) as [|[]]; congruence. }
  assert (forall j, aborting e j -> aborting (put_close k pc (set_serve_slot None e)) j) as Hab.
  { intros j Hj. destruct (aborting_put_close k pc (set_serve_slot None e) t j Hk Hj); congruence. }
  assert (held (put_close k pc (set_serve_slot None e)) h) as Hh.
  { exists k, (mkClose (ct_close t) pc). cbn. rewrite list_lookup_alter_eq, Hk. split; [done|].
    unfold pc. destruct force; simpl; tauto. }
  constructor; try done.
  - intros j c Hj. cbn in Hj. destruct (G4 j c Hj) as [H1 H2 H3 H4 H5]. constructor; try done.
    + intros Hr _. destruct (decide (j = h)) as [->|Hne]; [by right; right|].
      destruct (H1 Hr) as [|[|]]; [congruence|by left|by right; left|right; right; by apply Hheld].
    + intros Ha Hat. destruct (H3 Ha Hat) as [|[|]]; [by left|by right; left|right; right; by apply Hab].
  - intros k' t' h' c Hk' Hp' Hc. cbn in Hk', Hc. destruct (decide (k' = k)) as [->|Hne].
    + rewrite list_lookup_alter_eq, Hk in Hk'. injection Hk' as <-. unfold pc in Hp'. by destruct force.
    + rewrite list_lookup_alter_ne in Hk' by done. by eapply G5.
  - intros k' t' h' Hk' Hp'. cbn in Hk' |- *. destruct (decide (k' = k)) as [->|Hne].
    + rewrite list_lookup_alter_eq, Hk in Hk'. injection Hk' as <-. destruct (G3 h Hs) as (c & Hc & _).
      apply lookup_lt_Some in Hc. unfold pc in Hp'. simpl in Hp'. destruct force, Hp'; naive_solver.
    + rewrite list_lookup_alter_ne in Hk' by done. by eapply G6.
Qed.

(** A new close holds no cycle yet, or one whose owner asked for it. *)
Lemma good_start_close t e :
  good e -> (forall h, ct_pc t <> CTakeJoin h) -> (forall h, ct_pc t = CDrain h -> h < length (cycles e)) ->
  good (start_close t e).
Proof.
  intros [G1 G2 G3 G4 G5 G6] Ht Hr.
  assert (forall k t', closes e !! k = Some t' -> closes (start_close t e) !! k = Some t') as Hl.
  { intros k t' Hk. cbn. apply lookup_app_l_Some. done. }
  constructor; try done.
  - intros j c Hj. eapply cycle_ok_weaken; [| | |by apply (G4 j c)]; [done| |].
    + intros (k & t' & Hk & Hp). left. exists k, t'. eauto.
    + intros (k & t' & Hk & Hp). left. exists k, t'. eauto.
  - intros k t' h c Hk Hp Hc. cbn in Hk. apply lookup_app_Some in Hk as [Hk|[_ Hk]]; [by eapply G5|].
    apply list_lookup_singleton_Some in Hk as [_ <-]. by destruct (Ht h).
  - intros k t' h Hk Hp. cbn in Hk |- *. apply lookup_app_Some in Hk as [Hk|[_ Hk]]; [by eapply G6|].
    apply list_lookup_singleton_Some in Hk as [_ <-]. destruct Hp as [Hp|Hp]; [by apply Hr|by destruct (Ht h)].
Qed.

(** ** Serve calls *)

Lemma ok_set_pc (P Q R : Prop) pc c :
  cycle_ok P Q R c -> registered c -> pc <> SvRegister -> pc <> SvSpawn ->
  (attached (set_pc pc c) -> attached c) -> cycle_ok P Q R (set_pc pc c).
Proof.
  intros [H1 H2 H3 H4 H5] Hr Hp Hp' Ha. constructor; try done.
  - intros _. by apply H1.
  - intros Hb Hat. apply H3; [done|by apply Ha].
  - intros Hat. apply H4. by apply Ha.
  - cbn. by intros [|].
Qed.

Lemma good_register i c e :
  good e -> cycles e !! i = Some c -> cy_pc c = SvRegister ->
  (forall h ch, serve_handle e = Some h -> cycles e !! h = Some ch -> cy_shutdown_requested ch = true) ->
  good (upd_cycle (set_pc SvSpawn) i (set_serve_slot (Some i) e)).
Proof.
  intros [G1 G2 G3 G4 G5 G6] Hi Hpc Hprev.
  assert (forall j c', alter (set_pc SvSpawn) i (cycles e) !! j = Some c' ->
    (j = i /\ c' = set_pc SvSpawn c) \/ (j <> i /\ cycles e !! j = Some c')) as Hl.
  { intros j c'. destruct (decide (j = i)) as [->|Hne].
    - rewrite list_lookup_alter_eq, Hi. intros [= <-]. by left.
    - rewrite list_lookup_alter_ne by done. by right. }
  constructor; cbn [upd_cycle set_cycles set_serve_slot cycles serve_started_gen serve_handle closes].
  - intros j c' [[-> ->]|[_ Hj]]%Hl; [by apply (G1 i c)|by apply G1].
  - by rewrite length_alter.
  - intros h [= <-]. exists (set_pc SvSpawn c). by rewrite list_lookup_alter_eq, Hi.
  - intros j c' [[-> ->]|[Hne Hj]]%Hl.
    + destruct (G4 i c Hi) as [H1 H2 H3 H4 H5]. constructor; cbn;
        [by intros _ []|done|by intros _ [|]|by intros [|]|intros _; apply H5; by left].
    + destruct (G4 j c' Hj) as [H1 H2 H3 H4 H5]. constructor; try done. intros Hr _.
      destruct (decide (serve_handle e = Some j)) as [Hs|Hs]; [left; by eapply Hprev|by apply H1].
  - intros k t h c' Hk Hp [[-> ->]|[_ Hj]]%Hl; [exact (G5 k t i c Hk Hp Hi)|exact (G5 k t h c' Hk Hp Hj)].
  - intros k t h Hk Hp. rewrite length_alter. by eapply G6.
Qed.

Lemma good_serve_step i e e' : good e -> serve_step i e = Some e' -> good e'.
Proof.
  intros G. unfold serve_step. destruct (cycles e !! i) as [c|] eqn:Hi; [|done].
  destruct (cy_pc c) eqn:Hpc; intros [= <-].
  - unfold register_serve_handle.
    destruct (is_current e i) eqn:Ecur.
    { apply (is_current_slot e i c G Hi) in Ecur. destruct (g_slot e G _ Ecur) as (c' & Hc & Hr).
      rewrite Hi in Hc. injection Hc as <-. by destruct Hr. }
    destruct (serve_handle e) as [prev|] eqn:Es.
    + pose proof (good_shutdown_and_close prev e G) as G'.
      assert (prev <> i) as Hne.
      { intros ->. rewrite (proj2 (is_current_slot e i c G Hi)) in Ecur; done. }
      eapply good_ext; [..|apply (good_register i c (upd_cycle shutdown_and_close prev e) G')]; try done.
      * cbn. by rewrite list_lookup_alter_ne.
      * intros h ch Hh. cbn in Hh |- *. rewrite Es in Hh. injection Hh as <-.
        rewrite list_lookup_alter_eq. intros (c0 & _ & ->)%fmap_Some. done.
    + eapply good_ext; [..|apply (good_register i c e G Hi Hpc)]; try done. congruence.
  - apply good_upd; [apply tame_set_task| |].
    + apply good_upd; [by apply tame_set_pc|done|]. intros c' Hc' Hok. rewrite Hi in Hc'. injection Hc' as <-.
      apply ok_set_pc; try done; [unfold registered; congruence|by intros [|]].
    + cbn. intros c'. rewrite list_lookup_alter_eq, Hi. intros [= <-] [H1 H2 H3 H4 H5].
      assert (cy_task c = TNone) as Ht.
      { destruct (g_cycles e G i c Hi) as [_ _ _ _ H6]. apply H6. by right. }
      constructor; cbn in *; try done; [|by intros [|]].
      intros Hs. destruct (H2 Hs) as [|[|[|]]]; [by left|congruence..].
  - (* attach, then past the attached point *)
    set (e1 := upd_cycle attach_join i e).
    assert (upd_cycle (set_pc SvInstall) i e1 = upd_cycle (fun c => set_pc SvInstall (attach_join c)) i e) as ->.
    { unfold e1, upd_cycle, set_cycles. cbn. by rewrite list_alter_alter_eq. }
    apply good_upd; [|done|].
    + destruct tame_attach_join as [T1 T2 T3]. constructor; [done| |done]. by intros c' Hc'.
    + intros c' Hc' [H1 H2 H3 H4 H5]. rewrite Hi in Hc'. injection Hc' as <-.
      assert (registered c) as Hr by (unfold registered; congruence).
      unfold attach_join. destruct (cy_abort_requested c) eqn:Ha; constructor; cbn.
      1-5: [> by right; left|done|by left|by right; right|by intros [|]].
      all: [> intros _; rewrite Ha; by apply H1|done|congruence|by left|by intros [|]].
  - set (e1 := if cy_ffi c then _ else e).
    assert (good e1 /\ cycles e1 = cycles e) as [G1 Ec].
    { unfold e1, set_local_service_for. destruct (cy_ffi c); [|done]. rewrite Hi.
      destruct (is_current e i && _); [|done]. split; [|done]. by eapply good_ext; [..|exact G]. }
    apply good_upd; [by apply tame_set_pc|done|]. rewrite Ec. intros c' Hc' Hok.
    rewrite Hi in Hc'. injection Hc' as <-.
    apply ok_set_pc; try done; [unfold registered; congruence|]. intros _. by left.
Qed.

(** ** Accept loops *)

(** Moving the loop on keeps the invariant when a loop told to stop keeps its
    permit or is on its way out. *)
Lemma good_task f i e c :
  good e -> cycles e !! i = Some c -> cy_task c <> TNone ->
  (forall c, cy_token (f c) = cy_token c /\ cy_pc (f c) = cy_pc c /\ cy_join (f c) = cy_join c /\
     cy_shutdown_requested (f c) = cy_shutdown_requested c /\
     cy_abort_requested (f c) = cy_abort_requested c /\ cy_cancelled (f c) = cy_cancelled c) ->
  (cy_permit c = true \/ leaving (cy_task c) -> cy_permit (f c) = true \/ leaving (cy_task (f c))) ->
  good (upd_cycle f i e).
Proof.
  intros G Hi Hn Hf Hp. apply good_upd; [|done|].
  - constructor; intros c0; unfold registered; destruct (Hf c0) as (E1 & E2 & E3 & E4 & E5 & E6); congruence.
  - intros c' Hc' [H1 H2 H3 H4 H5]. rewrite Hi in Hc'. injection Hc' as <-.
    destruct (Hf c) as (E1 & E2 & E3 & E4 & E5 & E6).
    constructor; unfold registered, attached in *; rewrite ?E2, ?E3, ?E4, ?E5, ?E6; try done.
    + intros Hs. auto.
    + intros Hpc. by destruct Hn; apply H5.
Qed.

Lemma good_task_poll i ev e e' : good e -> task_poll i ev e = Some e' -> good e'.
Proof.
  intros G. unfold task_poll. destruct (cycles e !! i) as [c|] eqn:Hi; [|done].
  destruct (cy_task c) eqn:Et; try done.
  all: destruct (cy_cancelled c); [intros [= <-]; eapply good_task; try done; [congruence|]; intros _;
    right; unfold leaving; cbn; tauto|].
  - destruct (cy_cfg_ok c); intros [= <-]; eapply good_task; try done; try congruence; cbn; unfold leaving; rewrite ?Et;
      [intros [|[|[|]]]; by auto|tauto].
  - destruct (cy_permit c) eqn:Ep.
    { intros [= <-]. eapply good_task; try done; [congruence|]. intros _. right. unfold leaving. cbn. tauto. }
    destruct (transport_closed e).
    { intros [= <-]. eapply good_ext; [..|eapply (good_task (set_task TDraining) i e c)]; try done; [congruence|].
      intros _. right. unfold leaving. cbn. tauto. }
    destruct ev; intros [= <-]; try done. eapply good_task; try done; [congruence|].
    rewrite Ep. unfold leaving. rewrite Et. by intros [|[|[|]]].
  - destruct ev as [| |[]|]; intros [= <-]; try done;
      (eapply good_task; try done; [congruence|]); cbn; unfold leaving; rewrite Et; intros [|[|[|]]]; by auto.
  - destruct ev; intros [= <-]; try done.
    eapply good_task; try done; [congruence|]. intros _. right. unfold leaving. cbn. tauto.
Qed.

(** ** Closes *)

(** The flag makes the cycle stopped, and the close its aborter. *)
Lemma good_abort_flag k h e t :
  good e -> closes e !! k = Some t -> ct_pc t = CAbortFlag h ->
  good (put_close k (CAbortJoin h) (upd_cycle set_abort_requested h e)).
Proof.
  intros [G1 G2 G3 G4 G5 G6] Hk Hp. set (e' := put_close _ _ _).
  assert (aborting e' h) as Hab.
  { exists k, (mkClose (ct_close t) (CAbortJoin h)). cbn. by rewrite list_lookup_alter_eq, Hk. }
  assert (forall j c', cycles e' !! j = Some c' -> exists c, cycles e !! j = Some c /\
    ((j = h /\ c' = set_abort_requested c) \/ (j <> h /\ c' = c))) as Hl.
  { intros j c'. cbn. destruct (decide (j = h)) as [->|Hne].
    - rewrite list_lookup_alter_eq. intros (c & -> & ->)%fmap_Some. exists c. eauto.
    - rewrite list_lookup_alter_ne by done. intros ->. exists c'. eauto. }
  constructor.
  - intros j c' (c & Ej & [[-> ->]|[_ ->]])%Hl; [exact (G1 h c Ej)|exact (G1 j c Ej)].
  - cbn. by rewrite length_alter.
  - intros j (c & Ej & Hc)%G3. cbn. destruct (decide (j = h)) as [->|Hne].
    + exists (set_abort_requested c). by rewrite list_lookup_alter_eq, Ej.
    + exists c. by rewrite list_lookup_alter_ne.
  - intros j c' (c & Ej & [[-> ->]|[Hne ->]])%Hl; destruct (G4 _ _ Ej) as [H1 H2 H3 H4 H5].
    + constructor; try done; cbn; [intros _ _; by right; left|intros _ _; by right; right].
    + constructor; try done.
      * intros Hr Hc. destruct (H1 Hr Hc) as [|[|Hh]]; [by left|by right; left|].
        destruct (held_put_close k (CAbortJoin h) (upd_cycle set_abort_requested h e) t j Hk Hh) as [|[]];
          [by right; right|congruence..].
      * intros Ha Hat. destruct (H3 Ha Hat) as [|[|Hb]]; [by left|by right; left|].
        destruct (aborting_put_close k (CAbortJoin h) (upd_cycle set_abort_requested h e) t j Hk Hb);
          [by right; right|congruence].
  - intros k' t' j c' Hk' Hp' (c & Ej & Hc)%Hl. cbn in Hk'.
    assert (cy_shutdown_requested c = true) as Hs.
    { destruct (decide (k' = k)) as [->|Hne].
      - rewrite list_lookup_alter_eq, Hk in Hk'. by injection Hk' as <-.
      - rewrite list_lookup_alter_ne in Hk' by done. by eapply G5. }
    by destruct Hc as [[_ ->]|[_ ->]].
  - intros k' t' j Hk' Hp'. cbn in Hk' |- *. rewrite length_alter. destruct (decide (k' = k)) as [->|Hne].
    + rewrite list_lookup_alter_eq, Hk in Hk'. injection Hk' as <-. by destruct Hp'.
    + rewrite list_lookup_alter_ne in Hk' by done. by eapply G6.
Qed.

Lemma good_close_step k e e' : good e -> close_step k e = Some e' -> good e'.
Proof.
  intros G. unfold close_step. destruct (closes e !! k) as [t|] eqn:Hk; [|done].
  destruct (ct_pc t) as [force|h|h|h|h|h|h| | | |] eqn:Hp.
  - destruct (serve_handle e) as [h|] eqn:Es; intros [= <-]; [by eapply good_take|].
    eapply good_put_close; try done; rewrite ?Hp; naive_solver.
  - intros [= <-]. eapply good_put_close; [by apply good_shutdown|done|..].
    + intros j c Hj. rewrite Hp. intros [[= ->]|]; [|done]. left. cbn in Hj.
      rewrite list_lookup_alter_eq in Hj. by apply fmap_Some in Hj as (c0 & _ & ->).
    + rewrite Hp. naive_solver.
    + intros h' c [= <-] Hc. cbn in Hc. rewrite list_lookup_alter_eq in Hc.
      by apply fmap_Some in Hc as (c0 & _ & ->).
    + intros h' [|[= <-]]; [done|]. cbn. rewrite length_alter. apply (g_range e G k t h Hk). by left.
  - destruct (cycles e !! h) as [c|] eqn:Hh; [|done]. intros [= <-].
    pose proof (g_take_join e G k t h c Hk Hp Hh) as Hs.
    eapply good_put_close; [|done|rewrite Hp; naive_solver|rewrite Hp; naive_solver|by destruct (cy_join c)|by destruct (cy_join c); intros ? [|]].
    apply good_upd; [apply tame_set_join|done|]. intros c' Hc' [H1 H2 H3 H4 H5].
    rewrite Hh in Hc'. injection Hc' as <-. constructor; try done. intros _. by right; left.
  - destruct (cycles e !! h) as [c|]; [|done]. destruct (task_ended _); [|done]. intros [= <-].
    eapply good_put_close; try done; rewrite ?Hp; try naive_solver; unfold after_handle; [intros ? ?|intros ? [|]]; by destruct (ct_close t).
  - destruct (cycles e !! h) as [c|]; [|done]. destruct (task_ended _); [|done]. intros [= <-].
    eapply good_put_close; try done; rewrite ?Hp; try naive_solver; unfold after_handle; [intros ? ?|intros ? [|]]; by destruct (ct_close t).
  - intros [= <-].
    by eapply good_abort_flag.
  - intros [= <-]. eapply good_put_close; [|done|rewrite Hp; naive_solver| | |].
    + apply good_upd; [apply tame_abort_join|done|]. intros c Hc Hok.
      unfold abort_join. destruct (cy_join c) eqn:Ej; [|done]. destruct Hok as [H1 H2 H3 H4 H5].
      constructor; cbn; try done; intros; [by left|by right; right].
    + intros j c Hj. rewrite Hp. intros [= ->] Hat Ha. cbn in Hj. rewrite list_lookup_alter_eq in Hj.
      apply fmap_Some in Hj as (c0 & Hc0 & ->). destruct (g_cycles e G j c0 Hc0) as [_ _ _ H4 _].
      unfold abort_join in *. destruct (cy_join c0) eqn:Ej; [by left|].
      destruct (H4 Hat) as [|[|]]; [congruence|by right|by left].
    + unfold after_handle. intros ? ?. by destruct (ct_close t).
    + unfold after_handle. intros ? [|]; by destruct (ct_close t).
  - intros [= <-]. eapply good_put_close; try done; rewrite ?Hp; try naive_solver. by eapply good_ext; [..|exact G].
  - intros [= <-]. eapply good_put_close; try done; rewrite ?Hp; try naive_solver. by eapply good_ext; [..|exact G].
  - intros [= <-]. eapply good_put_close; try done; rewrite ?Hp; try naive_solver. by eapply good_ext; [..|exact G].
  - done.
Qed.


(** ** Every step *)

Lemma good_next_serve_token ffi ok e : fits (next_serve_token ffi ok e) -> good e -> good (next_serve_token ffi ok e).
Proof.
  unfold fits. intros Hf [G1 G2 G3 G4 G5 G6]. cbn in Hf. rewrite length_app in Hf. simpl in Hf.
  assert ((serve_started_gen e + 1) mod (U64_MAX + 1) = Z.of_nat (length (cycles e)) + 1)%Z as Et.
  { rewrite G2. apply Z.mod_small. lia. }
  unfold next_serve_token. rewrite Et. constructor; cbn.
  - intros i c [Hi|[Hi Hc]]%lookup_app_Some; [by apply G1|].
    apply list_lookup_singleton_Some in Hc as [Hc <-]. simpl. lia.
  - rewrite length_app. simpl. lia.
  - intros h (c & Hh & Hc)%G3. exists c. split; [by apply lookup_app_l_Some|done].
  - intros i c [Hi|[Hi Hc]]%lookup_app_Some; [by apply G4|].
    apply list_lookup_singleton_Some in Hc as [_ <-]. constructor; cbn; try done; unfold attached; cbn; naive_solver.
  - intros k t h c Hk Hp [Hh|[Hlen Hc]]%lookup_app_Some; [by eapply G5|].
    apply list_lookup_singleton_Some in Hc as [Hh <-]. exfalso.
    assert (h < length (cycles e)) by (eapply G6; eauto). lia.
  - intros k t h Hk Hp. rewrite length_app. simpl. assert (h < length (cycles e)) by (eapply G6; eauto). lia.
Qed.

Lemma returned_lt e i : returned e i = true -> i < length (cycles e).
Proof. unfold returned. destruct (cycles e !! i) eqn:E; [|done]. intros _. by eapply lookup_lt_Some. Qed.

Lemma good_step a e e' : fits e' -> good e -> endpoint_step a e = Some e' -> good e'.
Proof.
  intros Hf G. destruct a as [ffi ok|i|i ev| |i|i|i|force|i|i|k]; cbn [endpoint_step].
  - intros [= <-]. by apply good_next_serve_token.
  - by apply good_serve_step.
  - by apply good_task_poll.
  - intros [= <-]. unfold stop_serve. cbn. destruct (serve_handle e) as [h|]; [apply good_shutdown|];
      by eapply good_ext; [..|exact G].
  - destruct (returned e i); intros [= <-]. unfold set_serve_handle.
    destruct (is_current e i); [done|by apply good_shutdown_and_close].
  - destruct (returned e i); intros [= <-]. by apply good_shutdown.
  - destruct (returned e i); intros [= <-]. by apply good_shutdown_and_close.
  - intros [= <-]. by apply good_start_close.
  - destruct (returned e i) eqn:Er; intros [= <-]. apply good_start_close; [done|done|].
    intros h [= <-]. by apply returned_lt.
  - destruct (returned e i); intros [= <-]. by apply good_start_close.
  - by apply good_close_step.
Qed.

Lemma good_new : good endpoint_new.
Proof. constructor; cbn; try done; intros; by simplify_eq. Qed.

(** ** What only grows *)

(** [e'] has the cycles of [e], those told to stop still so. *)
Definition later (e e' : Endpoint) : Prop :=
  forall h c, cycles e !! h = Some c ->
    exists c', cycles e' !! h = Some c' /\ (cy_shutdown_requested c = true -> cy_shutdown_requested c' = true).

#[global] Instance later_refl : Reflexive later.
Proof. intros e h c Hc. exists c. by split. Qed.
#[global] Instance later_trans : Transitive later.
Proof.
  intros e1 e2 e3 H12 H23 h c Hc. destruct (H12 h c Hc) as (c2 & Hc2 & H2).
  destruct (H23 h c2 Hc2) as (c3 & Hc3 & H3). exists c3. auto.
Qed.

Lemma later_upd f i e : tame f -> later e (upd_cycle f i e).
Proof.
  intros [_ _ Hs] h c Hc. cbn. destruct (decide (h = i)) as [->|Hne].
  - exists (f c). rewrite list_lookup_alter_eq, Hc. auto.
  - exists c. rewrite list_lookup_alter_ne by done. auto.
Qed.
Lemma later_eq e e' : cycles e' = cycles e -> later e e'.
Proof. intros E h c Hc. exists c. by rewrite E. Qed.
Lemma later_then f i e e1 : tame f -> later e e1 -> later e (upd_cycle f i e1).
Proof. intros Hf H1. etrans; [exact H1|by apply later_upd]. Qed.

Ltac tame_now := constructor; intros []; cbn; unfold registered; cbn; naive_solver.

Lemma later_step a e e' : endpoint_step a e = Some e' -> later e e'.
Proof.
  destruct a as [ffi ok|i|i ev| |i|i|i|force|i|i|k]; cbn [endpoint_step].
  - intros [= <-] h c Hc. exists c. split; [by apply lookup_app_l_Some|done].
  - unfold serve_step. destruct (cycles e !! i) as [c|] eqn:Hi; [|done].
    destruct (cy_pc c); intros [= <-]; repeat (apply later_then; [try tame_now|]); try done.
    + unfold register_serve_handle. destruct (is_current e i); [done|].
      destruct (serve_handle e); [|by apply later_eq]. etrans; [|by apply later_eq].
      apply (later_upd shutdown_and_close n e), tame_shutdown_and_close.
    + apply tame_attach_join.
    + unfold set_local_service_for. rewrite Hi. destruct (cy_ffi c), (is_current e i && negb (cy_shutdown_requested c)); by try apply later_eq.
  - unfold task_poll. destruct (cycles e !! i) as [c|]; [|done]. intros Ht.
    repeat case_match; simplify_eq; try done; try (apply later_upd; tame_now).
  - intros [= <-]. unfold stop_serve. cbn. destruct (serve_handle e) as [h|]; [|by apply later_eq].
    apply later_then; [apply tame_shutdown|by apply later_eq].
  - destruct (returned e i); intros [= <-]. unfold set_serve_handle.
    destruct (is_current e i); [done|apply later_upd; tame_now].
  - destruct (returned e i); intros [= <-]. apply later_upd; tame_now.
  - destruct (returned e i); intros [= <-]. apply later_upd; tame_now.
  - intros [= <-]. by apply later_eq.
  - destruct (returned e i); intros [= <-]. by apply later_eq.
  - destruct (returned e i); intros [= <-]. by apply later_eq.
  - unfold close_step. destruct (closes e !! k) as [t|]; [|done].
    destruct (ct_pc t) as [force|h|h|h|h|h|h| | | |]; repeat case_match; intros; simplify_eq; try by apply later_eq.
    all: match goal with |- later _ (put_close _ _ (upd_cycle ?f ?i ?e)) =>
      etrans; [apply (later_upd f i e)|by apply later_eq] end; try tame_now. apply tame_abort_join.
Qed.

Lemma later_fits e e' : later e e' -> fits e' -> fits e.
Proof.
  unfold fits. intros Hl Hf. enough (length (cycles e) <= length (cycles e')) by lia.
  destruct (decide (length (cycles e) = 0)) as [|Hn]; [lia|].
  destruct (lookup_lt_is_Some_2 (cycles e) (pred (length (cycles e)))) as [c Hc]; [lia|].
  destruct (Hl _ _ Hc) as (c' & Hc' & _). apply lookup_lt_Some in Hc'. lia.
Qed.

Lemma later_reach e e' : rtc estep e e' -> later e e'.
Proof. induction 1 as [e|e e1 e2 [a Ha] _ IH]; [done|]. etrans; [by eapply later_step|done]. Qed.

Lemma good_reach e e' : rtc estep e e' -> good e -> fits e' -> good e'.
Proof.
  induction 1 as [e|e e1 e2 [a Ha] Hr IH]; [done|]. intros G Hf. apply IH; [|done].
  apply (good_step a e); [|done|done]. by apply (later_fits e1 e2); [apply later_reach|].
Qed.

Lemma local_step a e e' :
  endpoint_step a e = Some e' ->
  local_service e' = local_service e \/ local_service e' = None \/
  exists i c, cycles e !! i = Some c /\ cy_shutdown_requested c = false /\ local_service e' = Some i.
Proof.
  destruct a as [ffi ok|i|i ev| |i|i|i|force|i|i|k]; cbn [endpoint_step]; try (intros; simplify_eq/=; by left).
  - unfold serve_step. destruct (cycles e !! i) as [c|] eqn:Hi; [|done].
    destruct (cy_pc c); intros [= <-]; cbn; try by left.
    + unfold register_serve_handle. destruct (is_current e i); [by left|]. right. left. by destruct (serve_handle e).
    + destruct (cy_ffi c); [|by left]. unfold set_local_service_for. rewrite Hi.
      destruct (is_current e i); [|by left]. destruct (cy_shutdown_requested c) eqn:Es; [by left|].
      right. right. by exists i, c.
  - unfold task_poll. intros. repeat case_match; simplify_eq; by left.
  - intros [= <-]. right. left. unfold stop_serve. cbn. by destruct (serve_handle e).
  - intros. case_match; simplify_eq. left. unfold set_serve_handle. by destruct (is_current e i).
  - intros. case_match; simplify_eq. by left.
  - intros. case_match; simplify_eq. by left.
  - intros. case_match; simplify_eq. by left.
  - intros. case_match; simplify_eq. by left.
  - unfold close_step. intros. repeat case_match; simplify_eq; cbn; tauto.
Qed.

(** Cycle [h] was told to stop and does not serve the endpoint itself. *)
Definition retired (h : nat) (e : Endpoint) : Prop :=
  (exists c, cycles e !! h = Some c /\ cy_shutdown_requested c = true) /\ local_service e <> Some h.

Lemma retired_reach h e e' : rtc estep e e' -> retired h e -> retired h e'.
Proof.
  induction 1 as [e|e e1 e2 [a Ha] _ IH]; [done|]. intros [(c & Hc & Hs) Hl]. apply IH.
  destruct (later_step a e e1 Ha h c Hc) as (c1 & Hc1 & Hs1). split; [exists c1; auto|].
  destruct (local_step a e e1 Ha) as [->|[->|(i & ci & Hi & Hsi & ->)]]; [done|done|].
  intros [= ->]. rewrite Hc in Hi. injection Hi as <-. congruence.
Qed.

(** ** Loops that are stopping *)

(** The stop is pending, the task is cancelled, or it is leaving. *)
Definition stopping (c : Cycle) : Prop := cy_permit c = true \/ cy_cancelled c = true \/ leaving (cy_task c).

(** The connections it has handed over, with the one whose handshake it awaits. *)
Definition may_hand (c : Cycle) : nat := cy_handed c + match cy_task c with THandshake => 1 | _ => 0 end.

Definition winding (c c' : Cycle) : Prop := stopping c -> stopping c' /\ may_hand c' <= may_hand c.
#[global] Instance winding_refl : Reflexive winding.
Proof. by intros c Hc. Qed.
#[global] Instance winding_trans : Transitive winding.
Proof. intros c1 c2 c3 H12 H23 Hc. destruct (H12 Hc) as [H2 ?]. destruct (H23 H2). split; [done|lia]. Qed.

Definition winds (e e' : Endpoint) : Prop :=
  forall h c, cycles e !! h = Some c -> exists c', cycles e' !! h = Some c' /\ winding c c'.
#[global] Instance winds_refl : Reflexive winds.
Proof. intros e h c Hc. by exists c. Qed.
#[global] Instance winds_trans : Transitive winds.
Proof.
  intros e1 e2 e3 H12 H23 h c Hc. destruct (H12 h c Hc) as (c2 & Hc2 & H2).
  destruct (H23 h c2 Hc2) as (c3 & Hc3 & H3). exists c3. split; [done|by etrans].
Qed.

Lemma winds_upd f i e : (forall c, cycles e !! i = Some c -> winding c (f c)) -> winds e (upd_cycle f i e).
Proof.
  intros Hf h c Hc. cbn. destruct (decide (h = i)) as [->|Hne].
  - exists (f c). rewrite list_lookup_alter_eq, Hc. auto.
  - exists c. by rewrite list_lookup_alter_ne.
Qed.
Lemma winds_eq e e' : cycles e' = cycles e -> winds e e'.
Proof. intros E h c Hc. exists c. by rewrite E. Qed.
Lemma winds_then f i e e1 : winds e e1 -> (forall c, winding c (f c)) -> winds e (upd_cycle f i e1).
Proof. intros H1 Hf. etrans; [exact H1|]. apply winds_upd. auto. Qed.

Ltac winding_now := intros []; unfold winding, stopping, may_hand, leaving; cbn; naive_solver lia.
Lemma winding_shutdown c : winding c (shutdown c). Proof. revert c. winding_now. Qed.
Lemma winding_shutdown_and_close c : winding c (shutdown_and_close c). Proof. revert c. winding_now. Qed.
Lemma winding_set_pc pc c : winding c (set_pc pc c). Proof. revert c. winding_now. Qed.
Lemma winding_set_join j c : winding c (set_join j c). Proof. revert c. winding_now. Qed.
Lemma winding_set_abort c : winding c (set_abort_requested c). Proof. revert c. winding_now. Qed.
Lemma winding_set_cancelled c : winding c (set_cancelled c). Proof. revert c. winding_now. Qed.
Lemma winding_attach_join c : winding c (attach_join c).
Proof. unfold attach_join. destruct (cy_abort_requested c); [apply winding_set_cancelled|apply winding_set_join]. Qed.
Lemma winding_abort_join c : winding c (abort_join c).
Proof. unfold abort_join. destruct (cy_join c); [apply winding_set_cancelled|done]. Qed.
#[local] Hint Resolve winding_shutdown winding_shutdown_and_close winding_set_pc winding_set_join winding_set_abort
  winding_attach_join winding_abort_join : core.

(** A loop that leaves, and one that has not been spawned. *)
Lemma winding_leave t c : leaving t -> winding c (set_task t c).
Proof. intros Ht _. split; [by right; right|]. unfold may_hand. cbn. destruct Ht as [->|[->| ->]]; lia. Qed.
Lemma winding_spawn c : cy_task c = TNone -> winding c (set_task TStart c).
Proof. intros Ht Hc. unfold stopping, may_hand, leaving in *. cbn. rewrite Ht in *. naive_solver lia. Qed.

Lemma winds_task_poll i ev e e' : task_poll i ev e = Some e' -> winds e e'.
Proof.
  unfold task_poll. destruct (cycles e !! i) as [c|] eqn:Hi; [|done].
  assert (forall f, winding c (f c) -> winds e (upd_cycle f i e)) as Hw.
  { intros f Hf. apply winds_upd. intros c'. rewrite Hi. by intros [= <-]. }
  destruct (cy_task c) eqn:Et; try done; (destruct (cy_cancelled c) eqn:Ec;
    [intros [= <-]; apply Hw, winding_leave; unfold leaving; tauto|]).
  - destruct (cy_cfg_ok c); intros [= <-]; apply Hw; intros Hs; unfold stopping, may_hand, leaving in *; cbn; rewrite Et in *; naive_solver lia.
  - destruct (cy_permit c) eqn:Ep; [|destruct (transport_closed e)].
    + intros [= <-]. apply Hw. intros _. unfold stopping, may_hand, leaving. cbn. split; [tauto|lia].
    + intros [= <-]. etrans; [apply (Hw (set_task TDraining)), winding_leave; unfold leaving; tauto|by apply winds_eq].
    + destruct ev; intros [= <-]; try done. apply Hw. intros Hs. unfold stopping, leaving in Hs. rewrite Et, Ep, Ec in Hs. naive_solver.
  - destruct ev as [| |[]|]; intros [= <-]; try done; apply Hw; intros Hs; unfold stopping, may_hand, leaving in *; cbn; rewrite Et in *; naive_solver lia.
  - destruct ev; intros [= <-]; try done. apply Hw. intros Hs. unfold stopping, may_hand, leaving. cbn. split; [tauto|lia].
Qed.

Lemma winds_step a e e' : good e -> endpoint_step a e = Some e' -> winds e e'.
Proof.
  intros G. destruct a as [ffi ok|i|i ev| |i|i|i|force|i|i|k]; cbn [endpoint_step].
  - intros [= <-] h c Hc. exists c. split; [by apply lookup_app_l_Some|done].
  - unfold serve_step. destruct (cycles e !! i) as [c|] eqn:Hi; [|done].
    destruct (cy_pc c) eqn:Hpc; intros [= <-].
    + apply winds_then; [|auto]. unfold register_serve_handle. destruct (is_current e i); [done|].
      destruct (serve_handle e); [|by apply winds_eq]. etrans; [|by apply winds_eq].
      by apply (winds_upd shutdown_and_close n e).
    + etrans; [by apply (winds_upd (set_pc SvAttach) i)|]. apply winds_upd. cbn. rewrite list_lookup_alter_eq, Hi.
      intros ? [= <-]. apply winding_spawn. apply (g_cycles e G i c Hi). by right.
    + by repeat (apply winds_then; [|by auto]).
    + apply winds_then; [|auto]. unfold set_local_service_for. rewrite Hi.
      destruct (cy_ffi c), (is_current e i && negb (cy_shutdown_requested c)); by try apply winds_eq.
  - by apply winds_task_poll.
  - intros [= <-]. unfold stop_serve. cbn. destruct (serve_handle e) as [h|]; [|by apply winds_eq].
    apply winds_then; [by apply winds_eq|auto].
  - destruct (returned e i); intros [= <-]. unfold set_serve_handle. destruct (is_current e i); [done|by apply winds_upd].
  - destruct (returned e i); intros [= <-]. by apply winds_upd.
  - destruct (returned e i); intros [= <-]. by apply winds_upd.
  - intros [= <-]. by apply winds_eq.
  - destruct (returned e i); intros [= <-]. by apply winds_eq.
  - destruct (returned e i); intros [= <-]. by apply winds_eq.
  - unfold close_step. destruct (closes e !! k) as [t|]; [|done].
    destruct (ct_pc t) as [force|h|h|h|h|h|h| | | |]; repeat case_match; intros; simplify_eq; try by apply winds_eq.
    all: match goal with |- winds _ (put_close _ _ (upd_cycle ?f ?i ?e)) =>
      etrans; [by apply (winds_upd f i e)|by apply winds_eq] end.
Qed.

Lemma winds_reach e e' : rtc estep e e' -> good e -> fits e' -> winds e e'.
Proof.
  induction 1 as [e|e e1 e2 [a Ha] Hr IH]; [done|]. intros G Hf.
  assert (fits e1) as Hf1 by (by apply (later_fits e1 e2); [apply later_reach|]).
  etrans; [by eapply winds_step|]. apply IH; [by eapply good_step|done].
Qed.

(** ** Cycles that are about to be stopped *)

#[global] Instance ServePc_eq_dec : EqDecision ServePc.
Proof. solve_decision. Defined.

(** The next sections of closes and of the serve call of cycle [i]. *)
Definition stopper (i : nat) (a : Act) : Prop := a = AServeStep i \/ exists k, a = ACloseStep k.

(** [l] are such sections, and they leave cycle [i] stopping. *)
Definition stops_with (l : list Act) (e : Endpoint) (i : nat) : Prop :=
  Forall (stopper i) l /\ exists e' c', endpoint_run l e = Some e' /\ cycles e' !! i = Some c' /\ stopping c'.

(** An abort that was asked for before the task was attached takes effect when
    it is. *)
Lemma unattached_abort_stops e i c :
  cycles e !! i = Some c -> registered c -> ~ attached c -> cy_abort_requested c = true ->
  exists l, length l <= 2 /\ stops_with l e i.
Proof.
  intros Hi Hr Hn Ha. unfold registered, attached in *.
  assert (forall e c, cycles e !! i = Some c -> cy_pc c = SvAttach -> cy_abort_requested c = true ->
    exists e' c', endpoint_run [AServeStep i] e = Some e' /\ cycles e' !! i = Some c' /\ stopping c') as Hatt.
  { clear. intros e c Hi Hp Ha. cbn. unfold serve_step. rewrite Hi, Hp. eexists _, _. split; [done|]. cbn.
    rewrite !list_lookup_alter_eq, Hi. cbn. split; [done|]. unfold attach_join. rewrite Ha. by right; left. }
  destruct (cy_pc c) eqn:Hp; try naive_solver.
  - exists [AServeStep i; AServeStep i]. split; [done|]. split; [by repeat constructor|].
    cbn [endpoint_run]. replace (endpoint_step (AServeStep i) e) with
      (Some (upd_cycle (set_task TStart) i (upd_cycle (set_pc SvAttach) i e))) by (cbn; unfold serve_step; by rewrite Hi, Hp).
    apply (Hatt _ (set_task TStart (set_pc SvAttach c))); [cbn; by rewrite !list_lookup_alter_eq, Hi|done|done].
  - exists [AServeStep i]. split; [cbn; lia|]. split; [by repeat constructor|]. by apply (Hatt _ c).
Qed.

(** The last section of an abort. *)
Lemma abort_join_stops e i c k t :
  good e -> closes e !! k = Some t -> ct_pc t = CAbortJoin i -> cycles e !! i = Some c -> attached c ->
  stops_with [ACloseStep k] e i.
Proof.
  intros G Hk Hp Hi Hat. split; [apply Forall_singleton; right; eauto|]. cbn. unfold close_step. rewrite Hk, Hp.
  eexists _, _. split; [done|]. cbn. rewrite list_lookup_alter_eq, Hi. split; [done|].
  destruct (g_cycles e G i c Hi) as [_ H2 _ H4 _]. unfold abort_join, stopping.
  destruct (cy_join c) eqn:Ej; [by right; left|]. destruct (H4 Hat) as [|[Hs|]]; [congruence| |tauto]. destruct (H2 Hs); tauto.
Qed.

(** A section, and what stops the cycle after it. *)
Lemma stops_after a l e e1 i : stopper i a -> endpoint_step a e = Some e1 -> stops_with l e1 i -> stops_with (a :: l) e i.
Proof. intros Ha He [Hl Hr]. split; [by constructor|]. cbn. by rewrite He. Qed.

Lemma held_stops e i c :
  good e -> cycles e !! i = Some c -> registered c -> held e i -> exists l, length l <= 3 /\ stops_with l e i.
Proof.
  intros G Hi Hr (k & t & Hk & [Hp|Hp]).
  - exists [ACloseStep k]. split; [cbn; lia|]. split; [apply Forall_singleton; right; eauto|]. cbn. unfold close_step. rewrite Hk, Hp.
    eexists _, _. split; [done|]. cbn. rewrite list_lookup_alter_eq, Hi. split; [done|]. by left.
  - set (e1 := put_close k (CAbortJoin i) (upd_cycle set_abort_requested i e)).
    assert (endpoint_step (ACloseStep k) e = Some e1) as Hs by (cbn; unfold close_step; by rewrite Hk, Hp).
    assert (cycles e1 !! i = Some (set_abort_requested c)) as Hi1 by (cbn; by rewrite list_lookup_alter_eq, Hi).
    assert (stopper i (ACloseStep k)) as Hst by (right; eauto).
    destruct (decide (cy_pc c = SvInstall \/ cy_pc c = SvReturned)) as [Hat|Hat].
    + exists [ACloseStep k; ACloseStep k]. split; [cbn; lia|]. eapply stops_after; [done|exact Hs|].
      eapply (abort_join_stops e1 i (set_abort_requested c) k (mkClose (ct_close t) (CAbortJoin i))); try done.
      * by eapply good_close_step.
      * cbn. by rewrite list_lookup_alter_eq, Hk.
    + destruct (unattached_abort_stops e1 i (set_abort_requested c)) as (l & Hl & Hst'); try done.
      exists (ACloseStep k :: l). split; [cbn; lia|]. by eapply stops_after.
Qed.

Lemma out_of_slot_stops e i c :
  good e -> cycles e !! i = Some c -> registered c -> serve_handle e <> Some i ->
  exists l, length l <= 3 /\ stops_with l e i.
Proof.
  intros G Hi Hr Hs. destruct (g_cycles e G i c Hi) as [H1 H2 H3 _ _].
  assert (stopping c -> exists l, length l <= 3 /\ stops_with l e i) as Hnow.
  { intros Hc. exists []. split; [cbn; lia|]. split; [done|]. by exists e, c. }
  destruct (H1 Hr Hs) as [Hsd|[Ha|Hh]]; [apply Hnow; unfold stopping; destruct (H2 Hsd); tauto| |by eapply held_stops].
  destruct (decide (cy_pc c = SvInstall \/ cy_pc c = SvReturned)) as [Hat|Hat].
  - destruct (H3 Ha Hat) as [|[Hsd|(k & t & Hk & Hp)]]; [apply Hnow; unfold stopping; tauto|apply Hnow; unfold stopping; destruct (H2 Hsd); tauto|].
    exists [ACloseStep k]. split; [cbn; lia|]. by eapply abort_join_stops.
  - destruct (unattached_abort_stops e i c Hi Hr Hat Ha) as (l & Hl & Hst). exists l. split; [lia|done].
Qed.

(** ** Theorems *)

(** C4. No serve loop is left behind.  In every reachable state, whatever serve
    calls, stops, closes and handle methods interleaved, take a cycle that was
    registered and is not in the endpoint's slot.  Either its loop is stopping
    (the stop is pending, the task is cancelled, or it is leaving), or the close
    that has taken it and its serve call, which has not attached the task yet,
    are about to stop it: at most three of their sections do, and none of them
    has to wait.  Once it is stopping it is so in every later state, the
    connection whose handshake it awaits is the only one it may still hand over,
    and polled at its [select!] it leaves. *)
Theorem no_orphan_serve_loop e i c :
  rtc estep endpoint_new e -> fits e -> cycles e !! i = Some c -> registered c -> serve_handle e <> Some i ->
  (exists l, length l <= 3 /\ stops_with l e i) /\
  (stopping c ->
    (forall e', rtc estep e e' -> fits e' ->
       exists c', cycles e' !! i = Some c' /\ stopping c' /\
         cy_handed c' <= cy_handed c + match cy_task c with THandshake => 1 | _ => 0 end) /\
    (cy_task c = TSelect -> forall ev, exists e' c',
       task_poll i ev e = Some e' /\ cycles e' !! i = Some c' /\ leaving (cy_task c'))).
Proof.
  intros Hr Hf Hi Hreg Hs. pose proof (good_reach _ _ Hr good_new Hf) as G.
  split; [by eapply out_of_slot_stops|]. intros Hstop. split.
  - intros e' Hr' Hf'. destruct (winds_reach e e' Hr' G Hf' i c Hi) as (c' & Hc' & Hw). exists c'.
    destruct (Hw Hstop) as [Hst Hm]. split_and!; [done|done|]. unfold may_hand in Hm. lia.
  - intros Ht ev. unfold task_poll. rewrite Hi, Ht.
    assert (forall f, cycles (upd_cycle f i e) !! i = Some (f c)) as Hl.
    { intros f. cbn. by rewrite list_lookup_alter_eq, Hi. }
    unfold stopping, leaving in *. destruct (cy_cancelled c) eqn:Ec.
    { eexists _, _. split; [done|]. split; [apply Hl|]. cbn. tauto. }
    destruct Hstop as [->|[|[|[|]]]]; try congruence.
    eexists _, _. split; [done|]. split; [apply Hl|]. cbn. tauto.
Qed.

(** [stop_serve] is final for the cycle it stops: in every later state the
    endpoint never again routes its own requests to that cycle, even if the serve
    call that started it has not yet installed its service, and the stop is
    pending or the loop is leaving. *)
Theorem stop_serve_final e h e' :
  rtc estep endpoint_new e -> serve_handle e = Some h -> rtc estep (stop_serve e) e' -> fits e' ->
  local_service e' <> Some h /\
  exists c, cycles e' !! h = Some c /\ cy_shutdown_requested c = true /\
    (cy_permit c = true \/ leaving (cy_task c)).
Proof.
  intros Hr Hh Hr' Hf.
  assert (estep e (stop_serve e)) as Hstep by (by exists AStop).
  assert (rtc estep endpoint_new e') as Hall by (etrans; [exact Hr|]; by eapply rtc_l).
  assert (fits e) as Hfe.
  { apply (later_fits e e'); [|done]. apply later_reach. by eapply rtc_l. }
  assert (retired h (stop_serve e)) as Hret.
  { destruct (g_slot e (good_reach _ _ Hr good_new Hfe) h Hh) as (c & Hc & _).
    unfold stop_serve. cbn. rewrite Hh. split; [|done]. exists (shutdown c). cbn.
    by rewrite list_lookup_alter_eq, Hc. }
  destruct (retired_reach h _ _ Hr' Hret) as [(c & Hc & Hs) Hl]. split; [done|].
  exists c. split_and!; [done|done|].
  by apply (g_cycles e' (good_reach _ _ Hall good_new Hf) h c Hc).
Qed.

(** ** Concrete instances *)

(** Two serve calls, the second replacing the first before its service is
    installed. *)
Definition demo_acts : list Act :=
  [AServe true true; AServeStep 0; AServeStep 0; AServeStep 0; ATask 0 EvNothing;
   AServe true true; AServeStep 1].
Definition demo_endpoint : Endpoint := default endpoint_new (endpoint_run demo_acts endpoint_new).

Lemma endpoint_run_rtc l e e' : endpoint_run l e = Some e' -> rtc estep e e'.
Proof.
  revert e. induction l as [|a l IH]; intros e; cbn; [by intros [= ->]|].
  destruct (endpoint_step a e) as [e1|] eqn:E; [|done]. intros H. eapply rtc_l; [by exists a|by apply IH].
Qed.

Lemma demo_cycles_reachable : rtc estep endpoint_new demo_endpoint.
Proof. apply (endpoint_run_rtc demo_acts). vm_compute. reflexivity. Qed.

Lemma no_orphan_witness :
  exists e' c', task_poll 0 EvIncoming demo_endpoint = Some e' /\ cycles e' !! 0 = Some c' /\
    leaving (cy_task c').
Proof.
  eapply (no_orphan_serve_loop demo_endpoint 0).
  - exact demo_cycles_reachable.
  - vm_compute. discriminate.
  - vm_compute. reflexivity.
  - vm_compute. discriminate.
  - vm_compute. discriminate.
  - by left.
  - reflexivity.
Defined.

(** The second cycle is stopped before its service is installed. *)
Definition demo_stopped : Endpoint :=
  default endpoint_new (endpoint_run [AServeStep 1; AServeStep 1; AServeStep 1] (stop_serve demo_endpoint)).

Lemma stop_serve_final_witness : local_service demo_stopped <> Some 1.
Proof.
  apply (stop_serve_final demo_endpoint 1 demo_stopped).
  - exact demo_cycles_reachable.
  - reflexivity.
  - apply (endpoint_run_rtc [AServeStep 1; AServeStep 1; AServeStep 1]). vm_compute. reflexivity.
  - vm_compute. discriminate.
Defined.
