(* ===== verification/PathWatch.v ===== *)
(** * Path subscriptions (endpoint/observe.rs, endpoint/session_runtime.rs)

    A subscription to the path changes of a peer shares one watcher task per
    peer.  The first subscription creates the shared [PathSubscriptions] object
    and its watcher, so object and watcher have one index; [ptr_eq] is equality
    of indices.  Subscribers, the closing of the endpoint and the watchers
    interleave at the locked sections and awaits; what [peer_stats] finds is an
    argument of the step. *)

From stdpp Require Import base numbers list gmap strings fin_maps relations.
From Stdlib Require Import ZArith Lia.
From S2P Require Import Prelude.

Open Scope string_scope.
Open Scope list_scope.

Record PathInfo := mkPath { pi_relay : bool; pi_addr : string; pi_active : bool }.

(** An unbounded sender: whether its receiver is alive, and what it was sent. *)
Record PathSender := mkSender { sd_open : bool; sd_sent : list PathInfo }.

Inductive WatchPc :=
| WSpawn                      (* the subscribe call has yet to spawn it *)
| WTop                        (* head of the loop *)
| WCheck                      (* the endpoint was open: check the subscriptions *)
| WStats                      (* awaits [peer_stats] *)
| WSend (active : PathInfo)   (* the active path changed *)
| WSleep
| WEnd                        (* left the loop *)
| WDone.

Record Watch := mkWatch {
  w_peer : string;
  w_senders : gmap Z PathSender;
  w_last : option string;
  w_pc : WatchPc
}.

Record Paths := mkPaths {
  path_subs : gmap string nat;
  watches : list Watch;
  active_path_watchers : Z;
  ep_closed : bool;
  path_events : list (string * string * bool)
}.

Definition paths_new : Paths := mkPaths ∅ [] 0 false [].

Definition set_watch_pc pc (w : Watch) : Watch := mkWatch (w_peer w) (w_senders w) (w_last w) pc.
Definition set_senders s (w : Watch) : Watch := mkWatch (w_peer w) s (w_last w) (w_pc w).
Definition set_last k (w : Watch) : Watch := mkWatch (w_peer w) (w_senders w) k (w_pc w).
Definition upd_watch (f : Watch -> Watch) (i : nat) (p : Paths) : Paths :=
  mkPaths (path_subs p) (alter f i (watches p)) (active_path_watchers p) (ep_closed p) (path_events p).
Definition set_path_subs s (p : Paths) : Paths :=
  mkPaths s (watches p) (active_path_watchers p) (ep_closed p) (path_events p).
Definition add_watchers d (p : Paths) : Paths :=
  mkPaths (path_subs p) (watches p) (active_path_watchers p + d) (ep_closed p) (path_events p).

(** [subscribe_path_changes], the section under the lock; an earlier sender of
    the same id is replaced. *)
Definition subscribe_path_changes (nid : string) (sid : Z) (p : Paths) : Paths :=
  match path_subs p !! nid with
  | Some i => upd_watch (fun w => set_senders (<[sid := mkSender true []]> (w_senders w)) w) i p
  | None =>
      mkPaths (<[nid := length (watches p)]> (path_subs p))
        (watches p ++ [mkWatch nid {[sid := mkSender true []]} None WSpawn])
        (active_path_watchers p) (ep_closed p) (path_events p)
  end.

Definition unsubscribe_path_changes (nid : string) (sid : Z) (p : Paths) : Paths :=
  match path_subs p !! nid with
  | Some i => upd_watch (fun w => set_senders (delete sid (w_senders w)) w) i p
  | None => p
  end.

(** [subscriptions.get(&nid).is_some_and(ptr_eq)], and removing the entry then. *)
Definition is_current (p : Paths) (i : nat) (nid : string) : bool := bool_decide (path_subs p !! nid = Some i).
Definition remove_own (i : nat) (nid : string) (p : Paths) : Paths :=
  if is_current p i nid then set_path_subs (delete nid (path_subs p)) p else p.

Definition path_key (a : PathInfo) : string :=
  (if pi_relay a then "true" else "false") +:+ ":" +:+ pi_addr a.

Definition send_path (a : PathInfo) (s : PathSender) : PathSender :=
  if sd_open s then mkSender true (sd_sent s ++ [a]) else s.

(** What ends a watcher's wait: [peer_stats] with the paths it found, the timer
    or the close of the endpoint. *)
Inductive WatchEv := EvStats (paths : option (list PathInfo)) | EvTimer | EvClosed.

(** The next section of watcher [i]. *)
Definition watch_step (i : nat) (ev : WatchEv) (p : Paths) : option Paths :=
  match watches p !! i with
  | None => None
  | Some w =>
      let nid := w_peer w in
      let goto pc p := Some (upd_watch (set_watch_pc pc) i p) in
      match w_pc w with
      | WSpawn => goto WTop (add_watchers 1 p)
      | WTop => if ep_closed p then goto WEnd (remove_own i nid p) else goto WCheck p
      | WCheck =>
          if is_current p i nid then
            let open := filter (fun kv => sd_open kv.2 = true) (w_senders w) in
            let p := upd_watch (set_senders open) i p in
            if decide (open = ∅) then goto WEnd (set_path_subs (delete nid (path_subs p)) p)
            else goto WStats p
          else goto WEnd p
      | WStats =>
          match ev with
          | EvStats paths =>
              match paths ≫= List.find pi_active with
              | Some active =>
                  if decide (w_last w = Some (path_key active)) then goto WSleep p
                  else goto (WSend active) (upd_watch (set_last (Some (path_key active))) i p)
              | None => goto WSleep p
              end
          | _ => None
          end
      | WSend active =>
          let p := if is_current p i nid
                   then upd_watch (fun w => set_senders (send_path active <$> w_senders w) w) i p
                   else p in
          goto WSleep (mkPaths (path_subs p) (watches p) (active_path_watchers p) (ep_closed p)
                         (path_events p ++ [(nid, pi_addr active, pi_relay active)]))
      | WSleep =>
          match ev with
          | EvTimer => goto WTop p
          | EvClosed => if ep_closed p then goto WEnd (remove_own i nid p) else None
          | EvStats _ => None
          end
      | WEnd => goto WDone (add_watchers (-1) p)
      | WDone => None
      end
  end.

Inductive PathAct :=
| PSubscribe (nid : string) (sid : Z)
| PUnsubscribe (nid : string) (sid : Z)
| PDropRx (i : nat) (sid : Z)
| PClose
| PWatch (i : nat) (ev : WatchEv).

Definition close_rx (s : PathSender) : PathSender := mkSender false (sd_sent s).

Definition paths_step (a : PathAct) (p : Paths) : option Paths :=
  match a with
  | PSubscribe nid sid => Some (subscribe_path_changes nid sid p)
  | PUnsubscribe nid sid => Some (unsubscribe_path_changes nid sid p)
  | PDropRx i sid => Some (upd_watch (fun w => set_senders (alter close_rx sid (w_senders w)) w) i p)
  | PClose => Some (mkPaths (path_subs p) (watches p) (active_path_watchers p) true (path_events p))
  | PWatch i ev => watch_step i ev p
  end.

Definition wstep (p p' : Paths) : Prop := exists a, paths_step a p = Some p'.

Fixpoint paths_run (l : list PathAct) (p : Paths) : option Paths :=
  match l with
  | [] => Some p
  | a :: l => match paths_step a p with Some p' => paths_run l p' | None => None end
  end.

(** ** The invariant *)

(** Still in its loop or about to enter it; counted by [active_path_watchers]. *)
Definition watching (pc : WatchPc) : Prop := pc <> WEnd /\ pc <> WDone.
Definition counted (w : Watch) : Z := match w_pc w with WSpawn | WDone => 0 | _ => 1 end.

Record paths_inv (p : Paths) : Prop := {
  pv_subs : forall nid i, path_subs p !! nid = Some i <->
    exists w, watches p !! i = Some w /\ w_peer w = nid /\ watching (w_pc w);
  pv_count : active_path_watchers p = zsum counted (watches p)
}.

Lemma alter_as_insert {A} (f : A -> A) i (l : list A) x :
  l !! i = Some x -> alter f i l = <[i := f x]> l.
Proof.
  intros Hi. rewrite list_insert_alter. apply list_eq. intros j. destruct (decide (j = i)) as [->|Hne].
  - by rewrite !list_lookup_alter_eq, Hi.
  - by rewrite !list_lookup_alter_ne.
Qed.

(** Watcher [i] moves from [w] to [w']: it stays registered, or leaves with its
    entry. *)
Lemma inv_move (p p' : Paths) i w w' :
  paths_inv p -> watches p !! i = Some w -> w_peer w' = w_peer w ->
  watches p' = <[i := w']> (watches p) ->
  active_path_watchers p' = (active_path_watchers p - counted w + counted w')%Z ->
  ((watching (w_pc w') <-> watching (w_pc w)) /\ path_subs p' = path_subs p) \/
  (watching (w_pc w) /\ ~ watching (w_pc w') /\ path_subs p' = delete (w_peer w) (path_subs p)) ->
  paths_inv p'.
Proof.
  intros [Hs Hc] Hi Hp Ew Ea Hcase. pose proof (lookup_lt_Some _ _ _ Hi) as Hlt.
  constructor; [|by rewrite Ew, (zsum_insert _ _ _ w), Ea, Hc by done].
  assert (forall j v, watches p' !! j = Some v <->
    (j = i /\ v = w') \/ (j <> i /\ watches p !! j = Some v)) as Hl.
  { intros j v. rewrite Ew. destruct (decide (j = i)) as [->|Hne].
    - rewrite list_lookup_insert_eq by done. naive_solver.
    - rewrite list_lookup_insert_ne by done. naive_solver. }
  intros nid j. destruct Hcase as [[Hw ->]|(Hw & Hn & ->)].
  - rewrite Hs. split.
    + intros (v & Hv & Hpv & Hwv). destruct (decide (j = i)) as [->|Hne].
      * exists w'. rewrite Hl. rewrite Hi in Hv. injection Hv as <-. rewrite Hp, Hw. auto.
      * exists v. rewrite Hl. auto.
    + intros (v & Hv & Hpv & Hwv). apply Hl in Hv as [[-> ->]|[Hne Hv]]; [|by exists v].
      exists w. rewrite <- Hp, <- Hw. auto.
  - assert (path_subs p !! w_peer w = Some i) as Hmine by (apply Hs; eauto).
    rewrite lookup_delete_Some, Hs. split.
    + intros [Hd (v & Hv & Hpv & Hwv)]. exists v. rewrite Hl. split; [|done]. right. split; [|done].
      intros ->. rewrite Hi in Hv. injection Hv as <-. congruence.
    + intros (v & Hv & Hpv & Hwv). apply Hl in Hv as [[-> ->]|[Hne Hv]]; [done|]. split; [|by exists v].
      intros Hd. assert (path_subs p !! nid = Some j) as Hj by (apply Hs; eauto).
      rewrite <- Hd, Hmine in Hj. congruence.
Qed.

(** Changing the senders only. *)
Lemma inv_senders f i (p : Paths) : paths_inv p -> paths_inv (upd_watch (fun w => set_senders (f w) w) i p).
Proof.
  intros Hp. destruct (watches p !! i) as [w|] eqn:Hi.
  - eapply (inv_move p _ i w (set_senders (f w) w)); try done; [|cbn; unfold counted; cbn; lia|by left].
    exact (alter_as_insert (fun w => set_senders (f w) w) i (watches p) w Hi).
  - destruct Hp as [Hs Hc]. assert (alter (fun w => set_senders (f w) w) i (watches p) = watches p) as E.
    { apply list_eq. intros j. destruct (decide (j = i)) as [->|Hne];
        [by rewrite list_lookup_alter_eq, Hi|by rewrite list_lookup_alter_ne]. }
    constructor; cbn; rewrite E; done.
Qed.

Lemma inv_subscribe nid sid p : paths_inv p -> paths_inv (subscribe_path_changes nid sid p).
Proof.
  intros Hp. unfold subscribe_path_changes. destruct (path_subs p !! nid) as [i|] eqn:Hn.
  { apply (inv_senders (fun w => <[sid := mkSender true []]> (w_senders w))). done. }
  destruct Hp as [Hs Hc]. constructor; cbn; [|rewrite zsum_app, Hc; cbn; lia].
  intros n j. destruct (decide (n = nid)) as [->|Hne].
  - rewrite lookup_insert_eq. split.
    + intros [= <-]. eexists. rewrite lookup_app_r, Nat.sub_diag by done. by split_and!.
    + intros (w & Hw & Hpw & Hww). apply lookup_app_Some in Hw as [Hw|[Hlen Hw]].
      * assert (path_subs p !! nid = Some j) by (apply Hs; eauto). congruence.
      * apply list_lookup_singleton_Some in Hw as [Hj _]. f_equal. lia.
  - rewrite lookup_insert_ne, Hs by done. split.
    + intros (w & Hw & Hr). exists w. split; [by apply lookup_app_l_Some|done].
    + intros (w & Hw & Hpw & Hww). apply lookup_app_Some in Hw as [Hw|[_ Hw]]; [by exists w|].
      apply list_lookup_singleton_Some in Hw as [_ <-]. cbn in Hpw. congruence.
Qed.

(** Watcher [i] goes to [pc], having possibly changed its senders or its key. *)
Lemma inv_goto (p q : Paths) i w pc g :
  paths_inv p -> watches p !! i = Some w ->
  (watches q = watches p /\ g = id \/ watches q = alter g i (watches p)) -> w_peer (g w) = w_peer w ->
  (active_path_watchers q = active_path_watchers p - counted w + counted (set_watch_pc pc w))%Z ->
  ((watching pc <-> watching (w_pc w)) /\ path_subs q = path_subs p) \/
  (watching (w_pc w) /\ ~ watching pc /\ path_subs q = delete (w_peer w) (path_subs p)) ->
  paths_inv (upd_watch (set_watch_pc pc) i q).
Proof.
  intros Hp Hi Hq Hg Ha Hs. apply (inv_move p _ i w (set_watch_pc pc (g w)) Hp Hi); try done.
  cbn. destruct Hq as [[-> ->]| ->].
  - by apply (alter_as_insert (set_watch_pc pc)).
  - rewrite list_alter_alter_eq. by apply (alter_as_insert (set_watch_pc pc ∘ g)).
Qed.

Lemma watch_step_inv i ev p p' : paths_inv p -> watch_step i ev p = Some p' -> paths_inv p'.
Proof.
  intros Hp. unfold watch_step. destruct (watches p !! i) as [w|] eqn:Hi; [|done].
  assert (watching (w_pc w) -> is_current p i (w_peer w) = true) as Hcur.
  { intros Hw. apply bool_decide_eq_true. apply (pv_subs p Hp). eauto. }
  assert (forall pc, ~ watching pc -> watching (w_pc w) -> counted w = 1%Z ->
    counted (set_watch_pc pc w) = 1%Z ->
    paths_inv (upd_watch (set_watch_pc pc) i (remove_own i (w_peer w) p))) as Hleave.
  { intros pc Hn Hw H1 H2. unfold remove_own. rewrite Hcur by done.
    eapply (inv_goto p _ i w pc id); try done; [by left|cbn; lia|by right]. }
  unfold watching in *. destruct (w_pc w) as [| | | |active| | |] eqn:Epc.
  - intros [= <-]. eapply (inv_goto p _ i w _ id); try done; [by left|cbn; unfold counted; cbn; rewrite Epc; lia|].
    left. rewrite Epc. by unfold watching.
  - destruct (ep_closed p); intros [= <-].
    + apply Hleave; try done; unfold counted; cbn; try rewrite Epc; naive_solver.
    + eapply (inv_goto p _ i w _ id); try done; [by left|cbn; unfold counted; cbn; rewrite Epc; lia|].
      left. rewrite Epc. by unfold watching.
  - rewrite Hcur by done. set (open := filter _ _). destruct (decide (open = ∅)); intros [= <-].
    + eapply (inv_goto p _ i w _ (set_senders open)); try done; [by right|cbn; unfold counted; cbn; rewrite Epc; lia|].
      right. rewrite Epc. unfold watching. naive_solver.
    + eapply (inv_goto p _ i w _ (set_senders open)); try done; [by right|cbn; unfold counted; cbn; rewrite Epc; lia|].
      left. rewrite Epc. by unfold watching.
  - destruct ev as [paths| |]; [|done..].
    assert (forall pc q g, (watches q = watches p /\ g = id \/ watches q = alter g i (watches p)) ->
      w_peer (g w) = w_peer w -> active_path_watchers q = active_path_watchers p -> path_subs q = path_subs p ->
      pc <> WSpawn -> pc <> WEnd -> pc <> WDone -> paths_inv (upd_watch (set_watch_pc pc) i q)) as Hstay.
    { intros pc q g Hq Hg Ha Hs H1 H2 H3. eapply (inv_goto p q i w pc g); try done.
      - rewrite Ha. unfold counted. cbn. rewrite Epc. destruct pc; try done; lia.
      - left. rewrite Epc. by unfold watching. }
    destruct (paths ≫= List.find pi_active) as [a|]; [destruct (decide _)|]; intros [= <-].
    + apply (Hstay WSleep p id); try done. by left.
    + apply (Hstay (WSend a) _ (set_last (Some (path_key a)))); try done. by right.
    + apply (Hstay WSleep p id); try done. by left.
  - rewrite Hcur by done. intros [= <-].
    eapply (inv_goto p _ i w WSleep (fun w => set_senders (send_path active <$> w_senders w) w)); try done;
      [by right|cbn; unfold counted; cbn; rewrite Epc; lia|].
    left. rewrite Epc. by unfold watching.
  - destruct ev; [done| |].
    + intros [= <-]. eapply (inv_goto p _ i w _ id); try done; [by left|cbn; unfold counted; cbn; rewrite Epc; lia|].
      left. rewrite Epc. by unfold watching.
    + destruct (ep_closed p); intros [= <-].
      apply Hleave; try done; unfold counted; cbn; try rewrite Epc; naive_solver.
  - intros [= <-]. eapply (inv_goto p _ i w _ id); try done; [by left|cbn; unfold counted; cbn; rewrite Epc; lia|].
    left. rewrite Epc. unfold watching. naive_solver.
  - done.
Qed.

Lemma paths_step_inv a p p' : paths_inv p -> paths_step a p = Some p' -> paths_inv p'.
Proof.
  intros Hp. destruct a as [nid sid|nid sid|i sid| |i ev]; cbn [paths_step].
  - intros [= <-]. by apply inv_subscribe.
  - intros [= <-]. unfold unsubscribe_path_changes. destruct (path_subs p !! nid); [|done].
    by apply (inv_senders (fun w => delete sid (w_senders w))).
  - intros [= <-]. by apply (inv_senders (fun w => alter close_rx sid (w_senders w))).
  - intros [= <-]. destruct Hp as [Hs Hc]. by constructor.
  - by apply watch_step_inv.
Qed.

Lemma paths_reachable_inv p : rtc wstep paths_new p -> paths_inv p.
Proof.
  intros Hr. remember paths_new as p0 eqn:E.
  assert (paths_inv p0) as H0.
  { subst p0. constructor; [|done]. intros nid i. cbn. rewrite lookup_empty.
    split; [done|intros (w & Hw & _); by rewrite lookup_nil in Hw]. }
  clear E. induction Hr as [p|p p1 p2 [a Ha] _ IH]; [done|]. by apply IH, (paths_step_inv a p).
Qed.

(** C31. Subscriptions and watchers stay matched under every interleaving of
    subscribing, unsubscribing, dropping receivers, closing and watching: a peer
    has subscriptions registered exactly while one watcher for it is in its loop
    (or about to enter it), no peer has two, the watcher count equals the number
    of watchers that have not returned, and a watcher that saw the path change
    hands it to every open subscription, those added since it looked included. *)
Theorem one_watcher_per_peer p :
  rtc wstep paths_new p ->
  (forall nid i, path_subs p !! nid = Some i <->
     exists w, watches p !! i = Some w /\ w_peer w = nid /\ watching (w_pc w)) /\
  (forall i j w v, watches p !! i = Some w -> watches p !! j = Some v ->
     watching (w_pc w) -> watching (w_pc v) -> w_peer w = w_peer v -> i = j) /\
  active_path_watchers p = zsum counted (watches p) /\
  (forall i w a ev, watches p !! i = Some w -> w_pc w = WSend a ->
     exists p' w', watch_step i ev p = Some p' /\ watches p' !! i = Some w' /\
       forall sid s, w_senders w !! sid = Some s -> sd_open s = true ->
         w_senders w' !! sid = Some (mkSender true (sd_sent s ++ [a]))).
Proof.
  intros [Hs Hc]%paths_reachable_inv. split_and!; [done| |done|].
  - intros i j w v Hi Hj Hw Hv E.
    assert (path_subs p !! w_peer w = Some i) as H1 by (apply Hs; eauto).
    assert (path_subs p !! w_peer w = Some j) as H2 by (apply Hs; rewrite E; eauto). congruence.
  - intros i w a ev Hi Hpc.
    assert (is_current p i (w_peer w) = true) as Hcur.
    { apply bool_decide_eq_true, Hs. exists w. rewrite Hpc. by unfold watching. }
    unfold watch_step. rewrite Hi, Hpc, Hcur. eexists _, _. split; [done|]. cbn.
    rewrite !list_lookup_alter_eq, Hi. split; [done|]. intros sid s Hsid Ho. cbn.
    rewrite lookup_fmap, Hsid. cbn. unfold send_path. by rewrite Ho.
Qed.

Lemma paths_run_rtc l p p' : paths_run l p = Some p' -> rtc wstep p p'.
Proof.
  revert p. induction l as [|a l IH]; intros p; cbn; [by intros [= ->]|].
  destruct (paths_step a p) as [p1|] eqn:E; [|done]. intros H. eapply rtc_l; [by exists a|by apply IH].
Qed.

(** A watcher that found a path, with a second subscription added meanwhile. *)
Definition demo_path : PathInfo := mkPath false "1.2.3.4:5" true.
Definition demo_path_acts : list PathAct :=
  [PSubscribe "peer" 1; PWatch 0 EvTimer; PWatch 0 EvTimer; PWatch 0 EvTimer;
   PWatch 0 (EvStats (Some [demo_path])); PSubscribe "peer" 2].
Definition demo_paths : Paths := default paths_new (paths_run demo_path_acts paths_new).

Lemma one_watcher_witness : active_path_watchers demo_paths = zsum counted (watches demo_paths).
Proof.
  apply (one_watcher_per_peer demo_paths). apply (paths_run_rtc demo_path_acts).
  vm_compute. reflexivity.
Defined.
