(* ===== verification/Threads.v ===== *)
(** * Threads and locks

    Machines of interleaved calls keep a program counter per thread; a lock is
    the thread that holds it.  What follows relates the two: the holder of a
    lock is the one thread at a program counter of its critical section. *)

From stdpp Require Import base numbers list gmap fin_maps.
From S2P Require Import Prelude.

(** [own] is the one thread in [thr] at a program counter of [P]. *)
Definition owns {Pc} (P : Pc -> bool) (own : option nat) (thr : gmap nat Pc) : Prop :=
  forall t, own = Some t <-> exists pc, thr !! t = Some pc /\ P pc = true.

(** How an action of [t] may change the owner. *)
Definition owner_step {Pc} (P : Pc -> bool) (t : nat) (pc pc' : Pc) (own own' : option nat) : Prop :=
  own' = own /\ P pc' = P pc \/
  own = None /\ own' = Some t /\ P pc' = true \/
  own' = None /\ P pc = true /\ P pc' = false.

Lemma owns_step {Pc} (P : Pc -> bool) own own' thr t pc pc' :
  owns P own thr -> thr !! t = Some pc -> owner_step P t pc pc' own own' -> owns P own' (<[t := pc']> thr).
Proof.
  unfold owns. intros Ho Ht Hs t'. destruct (decide (t' = t)) as [->|Hne].
  - rewrite lookup_insert_eq. specialize (Ho t). rewrite Ht in Ho.
    destruct Hs as [[-> Hp]|[(-> & -> & Hp)|(-> & Hp & Hp')]]; rewrite ?Ho; naive_solver congruence.
  - rewrite lookup_insert_ne by done. rewrite <- Ho.
    destruct Hs as [[-> Hp]|[(-> & -> & Hp)|(-> & Hp & Hp')]]; [done|naive_solver|].
    assert (own = Some t) as -> by (apply Ho; eauto). naive_solver.
Qed.

Lemma owns_call {Pc} (P : Pc -> bool) own thr t pc :
  owns P own thr -> thr !! t = None -> P pc = false -> owns P own (<[t := pc]> thr).
Proof.
  unfold owns. intros Ho Ht Hp t'. rewrite Ho. destruct (decide (t' = t)) as [->|Hne].
  - rewrite lookup_insert_eq, Ht. naive_solver congruence.
  - by rewrite lookup_insert_ne.
Qed.

Lemma owns_unique {Pc} (P : Pc -> bool) own thr t t' pc pc' :
  owns P own thr -> thr !! t = Some pc -> P pc = true -> thr !! t' = Some pc' -> P pc' = true -> t = t'.
Proof.
  intros Ho Ht Hp Ht' Hp'. assert (own = Some t) by (apply Ho; eauto).
  assert (own = Some t') by (apply Ho; eauto). congruence.
Qed.
