(* ===== verification/DnsSd.v ===== *)
(** * DNS-SD records and the mDNS daemon (iroh-http-discovery: engine/types.rs,
    engine/transport.rs, dns_sd.rs)

    The canonical records and events of the discovery engine, the validation of
    service names, the conversion of what the [mdns_sd] daemon reports, and the
    bounded retries of the commands sent to it.  The daemon is a parameter: its
    commands are functions of a daemon state. *)

From stdpp Require Import base numbers list strings.
From Stdlib Require Import ZArith Lia Strings.Ascii.
From S2P Require Import Prelude Text Net.

Open Scope string_scope.
Open Scope list_scope.

(** ** engine/types.rs *)

Inductive Protocol := Udp | Tcp.

#[global] Instance Protocol_eq_dec : EqDecision Protocol.
Proof. solve_decision. Defined.

Record ServiceConfig := mkServiceConfig {
  service_name : string;
  instance_name : string;
  port : Z;
  addrs : list IpAddr;
  txt : list (string * string);
  protocol : Protocol
}.

Record BrowseConfig := mkBrowseConfig {
  browse_service_name : string;
  browse_protocol : Protocol
}.

(** [BrowseConfig::udp]. *)
Definition BrowseConfig_udp (service_name : string) : BrowseConfig := mkBrowseConfig service_name Udp.

(** [Protocol::label]. *)
Definition label (p : Protocol) : string :=
  match p with Udp => "_udp" | Tcp => "_tcp" end.

(** engine/transport.rs: an error is its message. *)
Definition TransportError := string.

Record AdvertisementUpdate := mkAdvertisementUpdate {
  up_port : Z;
  up_addrs : list IpAddr;
  up_txt : list (string * string)
}.

#[global] Instance AdvertisementUpdate_eq_dec : EqDecision AdvertisementUpdate.
Proof. solve_decision. Defined.

(** [char::is_ascii_alphanumeric]. *)
Definition is_ascii_alphanumeric (a : ascii) : bool :=
  let n := nat_of_ascii a in
  ((48 <=? n) && (n <=? 57) || (65 <=? n) && (n <=? 90) || (97 <=? n) && (n <=? 122))%nat.

Definition service_char (a : ascii) : bool := is_ascii_alphanumeric a || bool_decide (a = "-"%char).

(** [service_type]; [debug_str] is [{:?}] of a string. *)
Definition service_type (debug_str : string -> string) (service_name : string) (p : Protocol)
  : Result string TransportError :=
  if bool_decide (service_name = "") then Err "service name must not be empty"
  else if negb (forallb service_char (chars service_name))
  then Err (debug_str service_name +:+ " must contain only ASCII letters, digits, and '-'")
  else Ok ("_" +:+ service_name +:+ "." +:+ label p +:+ ".local.").

Record ServiceRecord := mkServiceRecord {
  is_active : bool;
  sr_service_type : string;
  sr_instance_name : string;
  host : option string;
  sr_port : Z;
  sr_addrs : list SocketAddr;
  sr_txt : list (string * string)
}.

Inductive RawEvent :=
| Upsert (record : ServiceRecord)
| Remove (service_type instance_name : string).

(** [RawEvent::identity]. *)
Definition identity (e : RawEvent) : string * string :=
  match e with
  | Upsert record => (sr_service_type record, sr_instance_name record)
  | Remove service_type instance_name => (service_type, instance_name)
  end.

(** [From<RawEvent> for ServiceRecord]. *)
Definition record_of_event (e : RawEvent) : ServiceRecord :=
  match e with
  | Upsert r => mkServiceRecord true (sr_service_type r) (sr_instance_name r) (host r)
                  (sr_port r) (sr_addrs r) (sr_txt r)
  | Remove service_type instance_name =>
      mkServiceRecord false service_type instance_name None 0 [] []
  end.

(** ** dns_sd.rs: what the daemon reports *)

(** [str::strip_suffix]. *)
Fixpoint strip_suffix (suffix s : string) : option string :=
  if bool_decide (s = suffix) then Some ""
  else match s with
       | EmptyString => None
       | String a s => String a <$> strip_suffix suffix s
       end.

Definition instance_from_fullname (fullname ty_domain : string) : option string :=
  match strip_suffix ("." +:+ ty_domain) fullname with
  | Some instance => if bool_decide (instance = "") then None else Some instance
  | None => None
  end.

Definition socket_addr_with_scope (ip : IpAddr) (port scope_id : Z) : SocketAddr :=
  match ip with
  | V4 b => sock_new (V4 b) port
  | V6 b => SockV6 b port 0 scope_id
  end.

(** [fe80::/10]. *)
Definition v6_link_local (bits : Z) : bool := (Z.land (Z.shiftr bits 112) 0xffc0 =? 0xfe80)%Z.

Definition applicable_ipv6_scope (bits discovered_scope : Z) : Z :=
  if v6_link_local bits then discovered_scope else 0%Z.

(** [mdns_sd::ScopedIp]: an IPv6 address carries the index of an interface. *)
Inductive ScopedIp :=
| ScopedV4 (bits : Z)
| ScopedV6 (bits scope : Z).
Definition to_ip_addr (ip : ScopedIp) : IpAddr :=
  match ip with ScopedV4 b => V4 b | ScopedV6 b _ => V6 b end.

Definition socket_addr_from_scoped (ip : ScopedIp) (port : Z) : SocketAddr :=
  let scope_id := match ip with ScopedV6 b s => applicable_ipv6_scope b s | _ => 0%Z end in
  socket_addr_with_scope (to_ip_addr ip) port scope_id.

(** [mdns_sd::ResolvedService]. *)
Record ResolvedService := mkResolved {
  rs_ty_domain : string;
  rs_fullname : string;
  rs_host : string;
  rs_port : Z;
  rs_addresses : list ScopedIp;
  rs_txt_properties : list (string * string)
}.

Definition record_from_resolved (rs : ResolvedService) : option ServiceRecord :=
  match instance_from_fullname (rs_fullname rs) (rs_ty_domain rs) with
  | None => None
  | Some instance_name =>
      Some (mkServiceRecord true (rs_ty_domain rs) instance_name (Some (rs_host rs)) (rs_port rs)
              (map (fun scoped => socket_addr_from_scoped scoped (rs_port rs)) (rs_addresses rs))
              (rs_txt_properties rs))
  end.

Definition raw_event_from_removed (service_type fullname : string) : option RawEvent :=
  match instance_from_fullname fullname service_type with
  | None => None
  | Some instance_name => Some (Remove service_type instance_name)
  end.

(** [mdns_sd::ServiceEvent]; the events that carry nothing for the engine are
    one constructor. *)
Inductive ServiceEvent :=
| ServiceResolved (resolved : ResolvedService)
| ServiceRemoved (service_type fullname : string)
| OtherEvent.

(** The conversion inside [MdnsBrowse::next]. *)
Definition event_from_service (e : ServiceEvent) : option RawEvent :=
  match e with
  | ServiceResolved resolved => Upsert <$> record_from_resolved resolved
  | ServiceRemoved service_type fullname => raw_event_from_removed service_type fullname
  | OtherEvent => None
  end.

(** [MdnsBrowse::next] on the events [queue] the daemon has sent, each with the
    [closed] flag as it is when that event is received; [disconnected] says the
    daemon has dropped its sender.  [None] is the pending future; the result
    comes with the events that are still queued. *)
Fixpoint mdns_next_loop (queue : list (ServiceEvent * bool)) (disconnected : bool)
  : option (Result (option RawEvent) TransportError * list (ServiceEvent * bool)) :=
  match queue with
  | [] => if disconnected then Some (Ok None, []) else None
  | (event, closed) :: rest =>
      if closed then Some (Ok None, rest)
      else match event_from_service event with
           | Some e => Some (Ok (Some e), rest)
           | None => mdns_next_loop rest disconnected
           end
  end.
Definition mdns_next (closed : bool) (queue : list (ServiceEvent * bool)) (disconnected : bool)
  : option (Result (option RawEvent) TransportError * list (ServiceEvent * bool)) :=
  if closed then Some (Ok None, queue) else mdns_next_loop queue disconnected.

(** ** dns_sd.rs: advertisement data *)

Definition advertisement_update (config : ServiceConfig) : AdvertisementUpdate :=
  mkAdvertisementUpdate (port config) (addrs config) (txt config).

(** ** dns_sd.rs: commands of the daemon *)

(** [mdns_sd::Error]: the two the code distinguishes, and the others. *)
Inductive MdnsError := Again | DaemonShutdown | OtherError (message : string).

#[global] Instance MdnsError_eq_dec : EqDecision MdnsError.
Proof. solve_decision. Defined.

Definition DAEMON_COMMAND_RETRIES : nat := 100.

Section daemon.
(** The daemon's state, and commands as functions of it. *)
Context {S : Type}.

Definition Command (T : Type) := S -> Result T MdnsError * S.

(** The loop of [retry_daemon_command]: [retries] bounds it. *)
Fixpoint retry_loop {T} (retries : nat) (command : Command T) (s : S) : Result T MdnsError * S :=
  match command s with
  | (Err Again, s) =>
      match retries with
      | O => (Err Again, s)
      | Datatypes.S r => retry_loop r command s
      end
  | (result, s) => (result, s)
  end.
Definition retry_daemon_command {T} (command : Command T) : Command T :=
  retry_loop DAEMON_COMMAND_RETRIES command.

Definition stop_after_unregister {U T} (unregister : Command U) (shutdown : Command T) : Command unit :=
  fun s =>
  let '(unregistered, s) := retry_daemon_command unregister s in
  let '(stopped, s) :=
    match unregistered with
    | Err DaemonShutdown => (Ok tt, s)
    | _ =>
        match retry_daemon_command shutdown s with
        | (Ok _, s) => (Ok tt, s)
        | (Err error, s) => (if bool_decide (error = DaemonShutdown) then Ok tt else Err error, s)
        end
    end in
  match unregistered with
  | Ok _ | Err DaemonShutdown => (stopped, s)
  | Err error => (Err error, s)
  end.
End daemon.

(** ** Instance names *)

Lemma strip_suffix_Some suffix s r : strip_suffix suffix s = Some r <-> s = r +:+ suffix.
Proof.
  revert r. induction s as [|a s IH]; intros r; simpl; case_bool_decide as Hs.
  - subst. split; [by intros [= <-]|]. destruct r; [done|]. rewrite append_cons. done.
  - split; [done|]. destruct r; rewrite ?append_nil, ?append_cons; [by intros <-|done].
  - subst suffix. split; [by intros [= <-]|]. destruct r as [|b r]; [done|].
    intros Hl%(f_equal str_len). rewrite str_len_app in Hl. unfold str_len in Hl. simpl in Hl. lia.
  - rewrite fmap_Some. setoid_rewrite IH. split.
    + intros (x & -> & ->). done.
    + destruct r as [|b r]; rewrite ?append_nil, ?append_cons; [by intros <-|].
      intros [= -> ->]. eauto.
Qed.

Lemma instance_from_fullname_Some fullname ty i :
  instance_from_fullname fullname ty = Some i <-> i <> "" /\ fullname = i +:+ "." +:+ ty.
Proof.
  unfold instance_from_fullname.
  destruct (strip_suffix ("." +:+ ty) fullname) as [x|] eqn:E.
  - apply strip_suffix_Some in E as ->. case_bool_decide as Hx.
    + split; [done|]. subst. intros [Hi He]. exfalso. apply Hi.
      apply (f_equal str_len) in He. rewrite !str_len_app in He. apply str_len_0.
      change (str_len "") with 0%Z in He. lia.
    + split; [intros [= <-]; done|]. intros [_ He]. f_equal.
      apply (f_equal (strip_suffix ("." +:+ ty))) in He.
      rewrite (proj2 (strip_suffix_Some _ _ x) eq_refl), (proj2 (strip_suffix_Some _ _ i) eq_refl) in He.
      congruence.
  - split; [done|]. intros [_ He]. apply strip_suffix_Some in He. congruence.
Qed.

(** What the daemon reports about one service always has one identity.
    The service that was registered under a non-empty instance label is
    reported under exactly that label, whatever characters it contains (dots
    and underscores included), and the removal of a resolved service carries
    the identity of its upsert, so that it retracts that entry and no other. *)
Theorem reported_identity (instance ty : string) :
  instance <> "" ->
  instance_from_fullname (instance +:+ "." +:+ ty) ty = Some instance /\
  (forall host port addresses properties,
     let rs := mkResolved ty (instance +:+ "." +:+ ty) host port addresses properties in
     exists up down, event_from_service (ServiceResolved rs) = Some up /\
       event_from_service (ServiceRemoved ty (instance +:+ "." +:+ ty)) = Some down /\
       identity up = identity down /\ identity up = (ty, instance)) /\
  (forall i, instance_from_fullname (i +:+ "." +:+ ty) ty = Some instance -> i = instance).
Proof.
  intros Hi. assert (instance_from_fullname (instance +:+ "." +:+ ty) ty = Some instance) as E
    by (by apply instance_from_fullname_Some).
  split; [done|]. split.
  - intros host port addresses properties rs. cbn [event_from_service].
    unfold record_from_resolved, raw_event_from_removed, rs. cbn [rs_fullname rs_ty_domain].
    rewrite E. cbn. eexists _, _. done.
  - intros i Hs. apply instance_from_fullname_Some in Hs as [_ He].
    apply (f_equal (strip_suffix ("." +:+ ty))) in He.
    rewrite (proj2 (strip_suffix_Some _ _ i) eq_refl), (proj2 (strip_suffix_Some _ _ instance) eq_refl) in He.
    congruence.
Qed.

Lemma reported_identity_witness :
  instance_from_fullname "a._b._app._udp.local." "_app._udp.local." = Some "a._b".
Proof. apply (reported_identity "a._b" "_app._udp.local."). done. Defined.

(** ** Commands *)

Section daemon_props.
Context {S : Type}.

(** The outcome of attempt number [n], when the earlier ones answered [Again]. *)
Fixpoint attempt {T} (command : Command (S := S) T) (n : nat) (s : S) : Result T MdnsError * S :=
  match n with
  | O => command s
  | Datatypes.S n => attempt command n (command s).2
  end.

Lemma retry_loop_spec {T} (command : Command (S := S) T) retries s :
  exists n, n <= retries /\ retry_loop retries command s = attempt command n s /\
    (forall k, k < n -> (attempt command k s).1 = Err Again) /\
    ((attempt command n s).1 = Err Again -> n = retries).
Proof.
  revert s. induction retries as [|r IH]; intros s; simpl.
  - exists 0. simpl. split_and!; [lia| |lia|done]. by destruct (command s) as [[|[]] ?].
  - destruct (command s) as [res s'] eqn:E.
    assert (res = Err Again \/ res <> Err Again) as [->|Hne] by (destruct res as [|[]]; auto).
    + destruct (IH s') as (n & Hn & Heq & Hbefore & Hlast). exists (Datatypes.S n). simpl. rewrite E. simpl.
      split_and!; [lia|done| |by intros ?%Hlast; lia].
      intros [|k] Hk; simpl; rewrite E; [done|]. apply Hbefore. lia.
    + exists 0. simpl. rewrite E. split_and!; [lia| |lia|done]. by destruct res as [|[]].
Qed.

(** A daemon command is retried at most a hundred times, and only for
    [Again]: the result is that of the first attempt that answers anything
    else, and [Again] is reported only after all 101 attempts answered it. *)
Theorem retry_daemon_command_bounded {T} (command : Command (S := S) T) (s : S) :
  exists n, n <= DAEMON_COMMAND_RETRIES /\
    retry_daemon_command command s = attempt command n s /\
    (forall k, k < n -> (attempt command k s).1 = Err Again) /\
    ((retry_daemon_command command s).1 = Err Again -> n = DAEMON_COMMAND_RETRIES).
Proof.
  destruct (retry_loop_spec command DAEMON_COMMAND_RETRIES s) as (n & Hn & Heq & Hb & Hl).
  exists n. unfold retry_daemon_command. rewrite Heq. done.
Qed.

(** Stopping an advertisement.  Unless the daemon is already gone when the
    service is unregistered, its shutdown is requested, also after a failed
    unregister; a daemon that is gone counts as stopped; and the failure of the
    unregister is the one reported. *)
Theorem stop_after_unregister_outcome {U T} (unregister : Command (S := S) U) (shutdown : Command (S := S) T) (s : S) :
  let '(unregistered, s1) := retry_daemon_command unregister s in
  let '(stopped, s2) := retry_daemon_command shutdown s1 in
  stop_after_unregister unregister shutdown s =
  match unregistered, stopped with
  | Err DaemonShutdown, _ => (Ok tt, s1)
  | Err error, _ => (Err error, s2)
  | Ok _, Ok _ | Ok _, Err DaemonShutdown => (Ok tt, s2)
  | Ok _, Err error => (Err error, s2)
  end.
Proof.
  unfold stop_after_unregister.
  destruct (retry_daemon_command unregister s) as [[u|[]] s1];
    destruct (retry_daemon_command shutdown s1) as [[x|[]] s2]; try done;
    rewrite ?bool_decide_eq_true_2, ?bool_decide_eq_false_2 by done; done.
Qed.
End daemon_props.
