(* ===== verification/PeerPolicy.v ===== *)
(** * Peer advertisement policy (iroh-http-discovery: lib.rs)

    Which addresses, ports and TXT entries an endpoint publishes over DNS-SD,
    and how a browser turns a resolved record back into a peer event. *)

From stdpp Require Import base numbers list strings.
From Stdlib Require Import ZArith Lia Strings.Ascii.
From S2P Require Import Prelude Text Net Addr DnsSd.

Open Scope string_scope.
Open Scope list_scope.

Inductive DiscoveryError :=
| Setup (msg : string)
| InvalidServiceName (msg : string).

Record PeerDiscoveryEvent := mkPeerEvent {
  pe_is_active : bool;
  pe_node_id : string;
  pe_addrs : list string
}.

Definition TXT_PK : string := "pk".
Definition TXT_RELAY : string := "relay".
Definition TXT_ADDRESS : string := "address".
Definition DNS_SD_TXT_ENTRY_MAX_BYTES : Z := 255.

(** ** TXT entries *)

(** The loop of [fit_txt_values]: [None] is an early return of a [checked_add]. *)
Fixpoint fit_loop (value_budget : Z) (joined : string) (values : list string) : option string :=
  match values with
  | [] => Some joined
  | value :: rest =>
      let separator_len := if bool_decide (joined = "") then 0%Z else 1%Z in
      match checked_add (str_len joined) separator_len with
      | None => None
      | Some n =>
          match checked_add n (str_len value) with
          | None => None
          | Some candidate_len =>
              if (value_budget <? candidate_len)%Z then fit_loop value_budget joined rest
              else fit_loop value_budget
                     ((if (separator_len =? 0)%Z then joined else joined +:+ ",") +:+ value) rest
          end
      end
  end.

Definition fit_txt_values (key : string) (values : list string) : option string :=
  match checked_add (str_len key) 1 with
  | None => None
  | Some prefix_len =>
      if (DNS_SD_TXT_ENTRY_MAX_BYTES <? prefix_len)%Z then None
      else
        match fit_loop (DNS_SD_TXT_ENTRY_MAX_BYTES - prefix_len) ""
                (List.filter (fun value => negb (bool_decide (value = ""))) values) with
        | Some joined => if bool_decide (joined = "") then None else Some joined
        | None => None
        end
  end.

(** ** Reading a record *)

(** [str::split] on one character. *)
Fixpoint split_char (c : ascii) (s : string) : list string :=
  match s with
  | EmptyString => [""]
  | String a s =>
      if decide (a = c) then "" :: split_char c s
      else match split_char c s with
           | [] => [String a ""]
           | w :: ws => String a w :: ws
           end
  end.

(** [iter().find(|(k, _)| k == key)], the value. *)
Definition txt_find (key : string) (txt : list (string * string)) : option string :=
  snd <$> List.find (fun kv => bool_decide (kv.1 = key)) txt.

(** [if !l.contains(&x) { l.push(x) }]. *)
Definition push_new {A} `{EqDecision A} (l : list A) (x : A) : list A :=
  if bool_decide (x ∈ l) then l else l ++ [x].

(** The same host; link-local IPv6 addresses are the same on one interface only. *)
Definition same_scoped_host (left right : SocketAddr) : bool :=
  match left, right with
  | SockV4 l _, SockV4 r _ => (l =? r)%Z
  | SockV6 l _ _ ls, SockV6 r _ _ rs => (l =? r)%Z && (negb (v6_link_local l) || (ls =? rs)%Z)
  | _, _ => false
  end.

Section policy.
Context {Id Relay : Type} `{IrohNet Id Relay}.
Context (debug_str : string -> string).

Definition node_id_label (id : Id) : string := b32_encode (id_as_bytes id).

(** One member of the [address] TXT value. *)
Definition txt_candidate (member : string) : option SocketAddr :=
  match sock_parse (str_trim member) with
  | None => None
  | Some address =>
      if (sock_port address <=? 1)%Z then None
      else match address with
           | SockV6 b _ _ scope_id =>
               if v6_link_local b && (scope_id =? 0)%Z then None else Some address
           | _ => Some address
           end
  end.

Definition txt_addresses (txt : list (string * string)) : list SocketAddr :=
  match txt_find TXT_ADDRESS txt with
  | Some addresses =>
      fold_left (fun l member => match txt_candidate member with
                                 | Some address => push_new l address
                                 | None => l
                                 end) (split_char "," addresses) []
  | None => []
  end.

Definition record_node_id (rec : ServiceRecord) : option string :=
  match txt_find TXT_PK (sr_txt rec) with
  | Some v => if bool_decide (v = "")
              then if bool_decide (sr_instance_name rec = "") then None else Some (sr_instance_name rec)
              else Some v
  | None => if bool_decide (sr_instance_name rec = "") then None else Some (sr_instance_name rec)
  end.

Definition srv_kept (txt_addrs : list SocketAddr) (srv : SocketAddr) : bool :=
  negb (existsb (fun authoritative =>
    same_scoped_host authoritative srv && negb (sock_port authoritative =? sock_port srv)%Z) txt_addrs).

Definition peer_event_from_record (rec : ServiceRecord) : option PeerDiscoveryEvent :=
  match record_node_id rec with
  | None => None
  | Some node_id =>
      if negb (is_active rec) then Some (mkPeerEvent false node_id [])
      else
        let txt_addrs := txt_addresses (sr_txt rec) in
        let addrs :=
          map sock_to_string
            (List.filter (srv_kept txt_addrs)
               (List.filter (fun srv => (1 <? sock_port srv)%Z) (sr_addrs rec))) in
        let addrs := fold_left (fun l address => push_new l (sock_to_string address)) txt_addrs addrs in
        let addrs :=
          match txt_find TXT_RELAY (sr_txt rec) with
          | Some relay => addrs ++ [relay]
          | None => addrs
          end in
        Some (mkPeerEvent true node_id addrs)
  end.

(** ** Selecting what to publish *)

Definition is_placeholder_port (port : Z) : bool := (port =? 0)%Z || (port =? 1)%Z.

Definition is_routable_ip (ip : IpAddr) : bool :=
  if is_loopback ip || is_unspecified ip then false
  else match ip with
       | V4 b => negb (Z.shiftr b 16 =? 0xa9fe)%Z
       | V6 b => negb (Z.land (Z.shiftr b 112) 0xffc0 =? 0xfe80)%Z
       end.

Definition ip_is_ipv6 (ip : IpAddr) : bool := match ip with V4 _ => false | V6 _ => true end.

(** The bound socket listens on [ip]. *)
Definition listens_on (bound : SocketAddr) (ip : IpAddr) : bool :=
  is_unspecified (sock_ip bound) || bool_decide (sock_ip bound = ip).

Definition compatible_bound (bound_sockets : list SocketAddr) (ip : IpAddr) : option SocketAddr :=
  List.find (fun bound =>
    Bool.eqb (sock_is_ipv6 bound) (ip_is_ipv6 ip)
    && negb (is_placeholder_port (sock_port bound))
    && listens_on bound ip) bound_sockets.

(** The address an endpoint candidate is published as, if it is. *)
Definition endpoint_candidate (bound_sockets : list SocketAddr) (addr : SocketAddr) : option SocketAddr :=
  if is_placeholder_port (sock_port addr)
  then match compatible_bound bound_sockets (sock_ip addr) with
       | Some bound => Some (sock_new (sock_ip addr) (sock_port bound))
       | None => None
       end
  else Some addr.

Definition interface_candidate (bound_sockets : list SocketAddr) (ip : IpAddr) : option SocketAddr :=
  match compatible_bound bound_sockets ip with
  | Some bound => Some (sock_new ip (sock_port bound))
  | None => None
  end.

(** A loop that pushes what is not yet selected. *)
Definition select_new {A} (f : A -> option SocketAddr) (selected : list SocketAddr) (l : list A)
  : list SocketAddr :=
  fold_left (fun selected x => match f x with Some a => push_new selected a | None => selected end)
    l selected.

Definition peer_direct_addresses (ip_addrs bound_sockets : list SocketAddr) (interface_ips : list IpAddr)
  : list SocketAddr :=
  let selected :=
    select_new (endpoint_candidate bound_sockets) []
      (List.filter (fun addr => is_routable_ip (sock_ip addr)) ip_addrs) in
  select_new (interface_candidate bound_sockets) selected (List.filter is_routable_ip interface_ips).

Definition mdns_interface_is_usable (name : string) (is_oper_up is_p2p : bool) : bool :=
  is_oper_up && negb is_p2p && negb (Text.starts_with "awdl" name) && negb (Text.starts_with "llw" name).

Definition operational_interface_ips (interfaces : list (IpAddr * bool)) : list IpAddr :=
  omap (fun '(ip, is_oper_up) => if is_oper_up : bool then Some ip else None) interfaces.

(** [if_addrs]' interfaces: the address, the name, and the two flags. *)
Definition desktop_interface_ips (get_if_addrs : Result (list (IpAddr * string * bool * bool)) string)
  : Result (list IpAddr) DiscoveryError :=
  match get_if_addrs with
  | Err error => Err (Setup ("cannot enumerate network interfaces: " +:+ error))
  | Ok interfaces =>
      Ok (operational_interface_ips
            (map (fun '(ip, name, is_oper_up, is_p2p) =>
                    (ip, mdns_interface_is_usable name is_oper_up is_p2p)) interfaces))
  end.

(** [iroh::EndpointAddr]: its socket addresses and relay URLs in order. *)
Record EndpointAddr := mkEndpointAddr { ea_ip_addrs : list SocketAddr; ea_relay_urls : list Relay }.

Definition interface_is_eligible (direct_sockets : list SocketAddr) (ip : IpAddr) (bound : SocketAddr) : bool :=
  is_routable_ip ip
  && Bool.eqb (sock_is_ipv6 bound) (ip_is_ipv6 ip)
  && listens_on bound ip
  && negb (existsb (fun candidate =>
       bool_decide (sock_ip candidate = ip) && negb (sock_port candidate =? sock_port bound)%Z) direct_sockets).

(** The bound socket serves the candidate: its port, its family, its address. *)
Definition bound_serves (candidate bound : SocketAddr) : bool :=
  (sock_port candidate =? sock_port bound)%Z
  && Bool.eqb (sock_is_ipv6 candidate) (sock_is_ipv6 bound)
  && listens_on bound (sock_ip candidate).

(** The SRV port: of the first bound socket with an eligible interface, else of
    the first with a direct candidate, else of the first with a real port. *)
Definition srv_port (bound_sockets direct_sockets : list SocketAddr) (interface_ips : list IpAddr) : option Z :=
  let dialable := List.filter (fun bound => negb (is_placeholder_port (sock_port bound))) bound_sockets in
  match List.find (fun bound => existsb (fun ip => interface_is_eligible direct_sockets ip bound) interface_ips)
          dialable with
  | Some bound => Some (sock_port bound)
  | None =>
      match List.find (fun bound => existsb (fun candidate => bound_serves candidate bound) direct_sockets)
              dialable with
      | Some bound => Some (sock_port bound)
      | None => sock_port <$> List.find (fun bound => negb (is_placeholder_port (sock_port bound))) bound_sockets
      end
  end.

(** The A/AAAA addresses. *)
Definition host_addrs (bound_sockets direct_sockets : list SocketAddr) (interface_ips : list IpAddr) (port : Z)
  : list IpAddr :=
  let addrs :=
    fold_left push_new
      (List.filter (fun ip =>
         existsb (fun bound => (sock_port bound =? port)%Z && interface_is_eligible direct_sockets ip bound)
           bound_sockets) interface_ips) [] in
  if bool_decide (addrs = []) then
    fold_left (fun addrs address => push_new addrs (sock_ip address))
      (List.filter (fun address =>
         (sock_port address =? port)%Z && existsb (fun bound => bound_serves address bound) bound_sockets)
         direct_sockets) addrs
  else addrs.

(** Endpoint candidates that are not known to have left the interfaces. *)
Definition live_candidates (ip_addrs : list SocketAddr) (interface_ips known_local_ips : list IpAddr)
  : list SocketAddr :=
  List.filter (fun address =>
    let ip := sock_ip address in
    negb (bool_decide (ip ∈ known_local_ips)) || bool_decide (ip ∈ interface_ips)) ip_addrs.

Definition peer_txt (instance_name : string) (node_addr : EndpointAddr) (direct : list string)
  : list (string * string) :=
  let txt := [(TXT_PK, instance_name)] in
  let txt := match head (ea_relay_urls node_addr) with
             | Some relay => txt ++ [(TXT_RELAY, relay_to_string relay)]
             | None => txt
             end in
  match fit_txt_values TXT_ADDRESS direct with
  | Some direct => txt ++ [(TXT_ADDRESS, direct)]
  | None => txt
  end.

Definition peer_service_config_from_reconciled_snapshot (service_name instance_name : string)
  (bound_sockets : list SocketAddr) (node_addr : EndpointAddr) (interface_ips known_local_ips : list IpAddr)
  : Result ServiceConfig DiscoveryError :=
  let socket_addrs := live_candidates (ea_ip_addrs node_addr) interface_ips known_local_ips in
  let direct_sockets := peer_direct_addresses socket_addrs bound_sockets interface_ips in
  let direct := map sock_to_string direct_sockets in
  match srv_port bound_sockets direct_sockets interface_ips with
  | None => Err (Setup "endpoint has no dialable bound socket")
  | Some port =>
      let addrs := host_addrs bound_sockets direct_sockets interface_ips port in
      Ok (mkServiceConfig service_name instance_name port addrs
            (peer_txt instance_name node_addr direct) Udp)
  end.

Definition peer_service_config_from_snapshot (service_name instance_name : string)
  (bound_sockets : list SocketAddr) (node_addr : EndpointAddr) (interface_ips : list IpAddr)
  : Result ServiceConfig DiscoveryError :=
  peer_service_config_from_reconciled_snapshot service_name instance_name bound_sockets node_addr
    interface_ips interface_ips.

(** [peer_service_config_with_ips] on what the endpoint reports. *)
Definition peer_service_config_with_ips (is_closed : bool) (id : Id) (bound_sockets : list SocketAddr)
  (node_addr : EndpointAddr) (service_name : string) (interface_ips : list IpAddr)
  : Result ServiceConfig DiscoveryError :=
  match service_type debug_str service_name Udp with
  | Err error => Err (InvalidServiceName error)
  | Ok _ =>
      if is_closed then Err (Setup "endpoint is closed")
      else peer_service_config_from_snapshot service_name (node_id_label id) bound_sockets node_addr
             interface_ips
  end.
End policy.
