(* ===== verification/PeerPolicyProps.v ===== *)
(** * Properties of the peer advertisement policy

    The size of TXT entries, the addresses an endpoint publishes, and what a
    browser reads back from a published record. *)

From stdpp Require Import base numbers countable list strings sets.
From Stdlib Require Import ZArith Lia Strings.Ascii.
From S2P Require Import Prelude Text Net Addr DnsSd PeerPolicy.

Open Scope string_scope.
Open Scope list_scope.

(** [isize::MAX], the largest size of an allocation. *)
Definition ISIZE_MAX : Z := 9223372036854775807.

(** ** Lists without duplicates *)

Lemma elem_of_push_new {A} `{EqDecision A} (l : list A) x y : y ∈ push_new l x <-> y ∈ l \/ y = x.
Proof. unfold push_new. case_bool_decide; [naive_solver|]. rewrite elem_of_app. set_solver. Qed.

Lemma NoDup_push_new {A} `{EqDecision A} (l : list A) x : NoDup l -> NoDup (push_new l x).
Proof.
  intros Hl. unfold push_new. case_bool_decide; [done|].
  apply NoDup_app. split; [done|]. split; [set_solver|]. apply NoDup_singleton.
Qed.

(** A loop that pushes new images of a list. *)
Lemma elem_of_fold_push {A B} `{EqDecision B} (f : A -> option B) (l : list A) acc y :
  y ∈ fold_left (fun acc x => match f x with Some b => push_new acc b | None => acc end) l acc <->
  y ∈ acc \/ exists x, x ∈ l /\ f x = Some y.
Proof.
  revert acc. induction l as [|x l IH]; intros acc; simpl; [set_solver|].
  rewrite IH. destruct (f x) as [b|] eqn:E; [rewrite elem_of_push_new|]; set_solver.
Qed.

Lemma NoDup_fold_push {A B} `{EqDecision B} (f : A -> option B) (l : list A) acc :
  NoDup acc ->
  NoDup (fold_left (fun acc x => match f x with Some b => push_new acc b | None => acc end) l acc).
Proof.
  revert acc. induction l as [|x l IH]; intros acc Hd; simpl; [done|].
  apply IH. destruct (f x); [by apply NoDup_push_new|done].
Qed.

Lemma elem_of_fold_push_map {A B} `{EqDecision B} (f : A -> B) (l : list A) acc y :
  y ∈ fold_left (fun acc x => push_new acc (f x)) l acc <-> y ∈ acc \/ exists x, x ∈ l /\ y = f x.
Proof.
  revert acc. induction l as [|x l IH]; intros acc; simpl; [set_solver|].
  rewrite IH, elem_of_push_new. set_solver.
Qed.

Lemma elem_of_List_filter {A} (p : A -> bool) l x : x ∈ List.filter p l <-> x ∈ l /\ p x = true.
Proof. rewrite !list_elem_of_In. apply filter_In. Qed.

Lemma existsb_elem {A} (p : A -> bool) l : existsb p l = true <-> exists x, x ∈ l /\ p x = true.
Proof. rewrite existsb_exists. by setoid_rewrite list_elem_of_In. Qed.

Lemma find_elem {A} (p : A -> bool) l x : List.find p l = Some x -> x ∈ l /\ p x = true.
Proof. intros [? ?]%List.find_some. by rewrite list_elem_of_In. Qed.

Lemma find_none_elem {A} (p : A -> bool) l x : List.find p l = None -> x ∈ l -> p x = false.
Proof. intros H ?%list_elem_of_In. by apply (List.find_none _ _ H). Qed.

Lemma find_is_some {A} (p : A -> bool) l x :
  x ∈ l -> p x = true -> exists y, List.find p l = Some y.
Proof.
  intros Hx Hp. destruct (List.find p l) eqn:E; [eauto|].
  apply (find_none_elem _ _ x E) in Hx. congruence.
Qed.

(** ** TXT entries *)

Fixpoint join (l : list string) : string :=
  match l with [] => "" | [v] => v | v :: l => v +:+ "," +:+ join l end.

Lemma join_snoc l v : l <> [] -> join (l ++ [v]) = join l +:+ "," +:+ v.
Proof.
  induction l as [|x l IH]; [done|]. intros _. destruct l as [|y l]; [done|].
  change ((x :: y :: l) ++ [v]) with (x :: ((y :: l) ++ [v])).
  assert (forall w, join (x :: (y :: l) ++ w) = x +:+ "," +:+ join ((y :: l) ++ w)) as Hj by done.
  rewrite Hj, IH by done. change (join (x :: y :: l)) with (x +:+ "," +:+ join (y :: l)).
  by rewrite !append_assoc.
Qed.

Lemma join_nonempty l : l <> [] -> Forall (fun v => v <> "") l -> join l <> "".
Proof.
  intros Hl Hf Hj. destruct l as [|v l]; [done|]. apply Forall_cons in Hf as [Hv _]. apply Hv.
  apply str_len_0. pose proof (str_len_nonneg v). apply (f_equal str_len) in Hj.
  destruct l as [|w l]; [exact Hj|]. change (join (v :: w :: l)) with (v +:+ "," +:+ join (w :: l)) in Hj.
  rewrite !str_len_app in Hj. pose proof (str_len_nonneg (join (w :: l))).
  assert (str_len "" = 0)%Z by done. assert (str_len "," = 1)%Z by done. lia.
Qed.

(** [v] cannot be added to what is joined. *)
Definition overflows (budget : Z) (joined v : string) : Prop :=
  (budget < str_len joined + 1 + str_len v)%Z.

Lemma fit_loop_spec budget values acc :
  (0 <= budget <= 255)%Z ->
  Forall (fun v => v <> "" /\ str_len v <= ISIZE_MAX)%Z values ->
  Forall (fun v => v <> "") acc -> (str_len (join acc) <= budget)%Z ->
  exists sel, fit_loop budget (join acc) values = Some (join (acc ++ sel)) /\
    sel `sublist_of` values /\ (str_len (join (acc ++ sel)) <= budget)%Z /\
    (forall v, v ∈ values -> v ∈ sel \/ overflows budget (join (acc ++ sel)) v) /\
    (acc ++ sel = [] -> forall v, v ∈ values -> (budget < str_len v)%Z).
Proof.
  intros Hb. revert acc. induction values as [|v values IH]; intros acc Hv Ha Hl.
  { exists []. rewrite app_nil_r. simpl. split_and!; [done|constructor|done|set_solver|set_solver]. }
  apply Forall_cons in Hv as [[Hne Hsz] Hv]. unfold ISIZE_MAX in Hsz. simpl.
  pose proof (str_len_nonneg v). pose proof (str_len_nonneg (join acc)).
  assert (str_len "," = 1)%Z by done.
  set (sep := if bool_decide (join acc = "") then 0%Z else 1%Z).
  assert (0 <= sep <= 1)%Z by (unfold sep; case_bool_decide; lia).
  unfold checked_add. unfold U64_MAX.
  rewrite (proj2 (Z.leb_le (str_len (join acc) + sep) _)) by lia.
  rewrite (proj2 (Z.leb_le (str_len (join acc) + sep + str_len v) _)) by lia.
  assert (acc = [] <-> join acc = "") as Hacc.
  { split; [by intros ->|]. destruct acc; [done|]. intros Hj. by apply join_nonempty in Hj. }
  destruct (budget <? str_len (join acc) + sep + str_len v)%Z eqn:Eb.
  - apply Z.ltb_lt in Eb.
    destruct (IH acc Hv Ha Hl) as (sel & -> & Hs & Hle & Hall & Hnil).
    exists sel. split; [done|]. split; [by apply sublist_cons|]. split; [done|].
    assert (str_len (join acc) <= str_len (join (acc ++ sel)))%Z.
    { clear -Ha. destruct (decide (acc = [])) as [->|Hn].
      { unfold str_len. simpl. lia. }
      induction sel as [|x sel IHs] using rev_ind; [by rewrite app_nil_r|].
      rewrite app_assoc, join_snoc by (by destruct acc). rewrite !str_len_app.
      pose proof (str_len_nonneg x). pose proof (str_len_nonneg ","). lia. }
    split.
    + intros w [->|Hw]%elem_of_cons; [|by apply Hall]. right. unfold overflows. lia.
    + intros Hn w [->|Hw]%elem_of_cons; [|by apply Hnil].
      apply app_eq_nil in Hn as [-> ->]. unfold sep in Eb. rewrite bool_decide_eq_true_2 in Eb by done.
      simpl in Eb. unfold str_len in Eb at 1. simpl in Eb. lia.
  - apply Z.ltb_ge in Eb.
    assert ((if (sep =? 0)%Z then join acc else join acc +:+ ",") +:+ v = join (acc ++ [v])) as ->.
    { unfold sep. case_bool_decide as Hj; simpl.
      - apply Hacc in Hj as ->. done.
      - rewrite join_snoc by (intros Hc; apply Hj, Hacc, Hc). by rewrite append_assoc. }
    destruct (IH (acc ++ [v])) as (sel & -> & Hs & Hle & Hall & Hnil).
    + done.
    + apply Forall_app; split; [done|by apply Forall_singleton].
    + unfold sep in Eb. case_bool_decide as Hj.
      * apply Hacc in Hj as ->. simpl in *. unfold str_len in Eb at 1. simpl in Eb. lia.
      * rewrite join_snoc by (intros Hc; apply Hj, Hacc, Hc). rewrite !str_len_app. lia.
    + rewrite <- app_assoc in *. simpl in *. exists (v :: sel). split; [done|].
      split; [by apply sublist_skip|]. split; [done|]. split.
      * intros w [->|Hw]%elem_of_cons; [left; by left|]. destruct (Hall w Hw); [left; by right|by right].
      * intros Hc. by destruct acc.
Qed.

Lemma fit_txt_values_fits (key : string) (values : list string) :
  Forall (fun v => str_len v <= ISIZE_MAX)%Z (key :: values) ->
  match fit_txt_values key values with
  | Some joined =>
      (str_len key + 1 + str_len joined <= DNS_SD_TXT_ENTRY_MAX_BYTES)%Z /\
      exists sel, sel `sublist_of` values /\ sel <> [] /\ Forall (fun v => v <> "") sel /\
        joined = join sel /\
        forall v, v ∈ values -> v <> "" ->
          v ∈ sel \/ (DNS_SD_TXT_ENTRY_MAX_BYTES < str_len key + 1 + str_len joined + 1 + str_len v)%Z
  | None =>
      forall v, v ∈ values -> v <> "" ->
        (DNS_SD_TXT_ENTRY_MAX_BYTES < str_len key + 1 + str_len v)%Z
  end.
Proof.
  intros [Hk Hv]%Forall_cons. unfold fit_txt_values, checked_add, DNS_SD_TXT_ENTRY_MAX_BYTES in *.
  unfold ISIZE_MAX in Hk. pose proof (str_len_nonneg key).
  rewrite (proj2 (Z.leb_le (str_len key + 1) U64_MAX)) by (unfold U64_MAX; lia).
  destruct (255 <? str_len key + 1)%Z eqn:Eb.
  { apply Z.ltb_lt in Eb. intros v _ Hne. pose proof (str_len_nonneg v).
    destruct (decide (str_len v = 0%Z)) as [Hz|]; [by apply str_len_0 in Hz|lia]. }
  apply Z.ltb_ge in Eb.
  set (vs := List.filter _ values).
  assert (forall v, v ∈ vs <-> v ∈ values /\ v <> "") as Hvs.
  { intros v. unfold vs. rewrite elem_of_List_filter, negb_true_iff, bool_decide_eq_false. done. }
  destruct (fit_loop_spec (255 - (str_len key + 1)) vs []) as (sel & Hfit & Hsub & Hle & Hall & Hnil).
  - lia.
  - apply Forall_forall. intros v Hin. apply Hvs in Hin as [Hin Hne]. split; [done|].
    rewrite Forall_forall in Hv. by apply Hv.
  - done.
  - change (str_len (join [])) with 0%Z. lia.
  - simpl in *. rewrite Hfit. case_bool_decide as Hj.
    + assert (sel = []) as ->.
      { destruct sel as [|s sel]; [done|]. exfalso. apply (join_nonempty (s :: sel)); [done| |done].
        apply Forall_forall. intros v Hin.
        assert (v ∈ vs) as Hin' by (eapply sublist_subseteq; eauto).
        by apply Hvs in Hin' as [_ ?]. }
      intros v Hin Hne. assert (v ∈ vs) as Hin' by (by apply Hvs). specialize (Hnil eq_refl v Hin'). lia.
    + split; [lia|]. exists sel. split_and!.
      * transitivity vs; [done|]. unfold vs. clear. induction values as [|x l IH]; [done|]. simpl.
        case_match; [by apply sublist_skip|by apply sublist_cons].
      * intros ->. done.
      * apply Forall_forall. intros v Hin.
        assert (v ∈ vs) as Hin' by (eapply sublist_subseteq; eauto). by apply Hvs in Hin' as [_ ?].
      * done.
      * intros v Hin Hne. destruct (Hall v) as [?|Ho]; [by apply Hvs|by left|right].
        unfold overflows in Ho. lia.
Qed.

(** C33. A TXT entry that is published fits the one-byte length prefix of
    RFC 6763: [key=value] has at most 255 bytes.  The value is made of whole
    inputs, in their order and without the empty ones, joined by commas; an
    input is left out only when it does not fit, and there is no entry exactly
    when no non-empty input fits on its own. *)
Theorem fit_txt_values_spec (key : string) (values : list string) :
  Forall (fun v => str_len v <= ISIZE_MAX)%Z (key :: values) ->
  match fit_txt_values key values with
  | Some joined =>
      (str_len key + 1 + str_len joined <= DNS_SD_TXT_ENTRY_MAX_BYTES)%Z /\
      exists sel, sel `sublist_of` values /\ sel <> [] /\ Forall (fun v => v <> "") sel /\
        joined = join sel /\
        forall v, v ∈ values -> v <> "" ->
          v ∈ sel \/ (DNS_SD_TXT_ENTRY_MAX_BYTES < str_len key + 1 + str_len joined + 1 + str_len v)%Z
  | None =>
      forall v, v ∈ values -> v <> "" ->
        (DNS_SD_TXT_ENTRY_MAX_BYTES < str_len key + 1 + str_len v)%Z
  end.
Proof. apply fit_txt_values_fits. Qed.

Lemma fit_txt_values_spec_witness :
  fit_txt_values "address" ["1.2.3.4:5"; ""; "6.7.8.9:10"] = Some "1.2.3.4:5,6.7.8.9:10" /\
  exists sel, sel `sublist_of` ["1.2.3.4:5"; ""; "6.7.8.9:10"] /\ join sel = "1.2.3.4:5,6.7.8.9:10".
Proof.
  split; [by vm_compute|].
  pose proof (fit_txt_values_spec "address" ["1.2.3.4:5"; ""; "6.7.8.9:10"]
    ltac:(repeat constructor; vm_compute; discriminate)) as Hs.
  assert (fit_txt_values "address" ["1.2.3.4:5"; ""; "6.7.8.9:10"] = Some "1.2.3.4:5,6.7.8.9:10")
    as E by (by vm_compute).
  rewrite E in Hs. destruct Hs as (_ & sel & Hsub & _ & _ & Hj & _). exists sel. by rewrite Hj.
Defined.

(** ** Direct addresses *)

Lemma compatible_bound_spec bound ip b :
  compatible_bound bound ip = Some b ->
  b ∈ bound /\ sock_is_ipv6 b = ip_is_ipv6 ip /\ is_placeholder_port (sock_port b) = false /\
  listens_on b ip = true.
Proof.
  intros [Hin Hp]%find_elem. apply andb_true_iff in Hp as [[H6 Hq]%andb_true_iff Hl].
  apply Bool.eqb_prop in H6. apply negb_true_iff in Hq. done.
Qed.

Lemma compatible_bound_exists bound ip b :
  b ∈ bound -> sock_is_ipv6 b = ip_is_ipv6 ip -> is_placeholder_port (sock_port b) = false ->
  listens_on b ip = true -> exists b', compatible_bound bound ip = Some b'.
Proof.
  intros Hin H6 Hp Hl. apply (find_is_some _ _ b); [done|]. by rewrite H6, Hp, Hl, Bool.eqb_reflx.
Qed.

Lemma sock_new_ip ip p : sock_ip (sock_new ip p) = ip.
Proof. by destruct ip. Qed.
Lemma sock_new_port ip p : sock_port (sock_new ip p) = p.
Proof. by destruct ip. Qed.
Lemma sock_ip_ipv6 a : ip_is_ipv6 (sock_ip a) = sock_is_ipv6 a.
Proof. by destruct a. Qed.

Lemma elem_of_peer_direct ip_addrs bound ifs a :
  a ∈ peer_direct_addresses ip_addrs bound ifs <->
  (exists c, c ∈ ip_addrs /\ is_routable_ip (sock_ip c) = true /\ endpoint_candidate bound c = Some a) \/
  (exists ip, ip ∈ ifs /\ is_routable_ip ip = true /\ interface_candidate bound ip = Some a).
Proof.
  unfold peer_direct_addresses, select_new. rewrite !elem_of_fold_push.
  setoid_rewrite elem_of_List_filter. set_solver.
Qed.

(** The address of a candidate whose port is a placeholder, or of an interface:
    the candidate's IP with the port of the bound socket that serves it. *)
Definition borrowed (bound : list SocketAddr) (ip : IpAddr) (a : SocketAddr) : Prop :=
  exists b, compatible_bound bound ip = Some b /\ a = sock_new ip (sock_port b).

Lemma peer_direct_cases ip_addrs bound ifs a :
  a ∈ peer_direct_addresses ip_addrs bound ifs <->
  is_routable_ip (sock_ip a) = true /\
  (a ∈ ip_addrs /\ is_placeholder_port (sock_port a) = false \/
   borrowed bound (sock_ip a) a /\
     (sock_ip a ∈ ifs \/ exists c, c ∈ ip_addrs /\ sock_ip c = sock_ip a /\
                                  is_placeholder_port (sock_port c) = true)).
Proof.
  rewrite elem_of_peer_direct. unfold endpoint_candidate, interface_candidate, borrowed. split.
  - intros [(c & Hc & Hr & He)|(ip & Hi & Hr & He)].
    + destruct (is_placeholder_port (sock_port c)) eqn:Ep; [|by simplify_eq; auto].
      case_match eqn:Eb; simplify_eq. rewrite sock_new_ip. split; [done|]. right. split; [eauto|].
      right. eauto.
    + case_match eqn:Eb; simplify_eq. rewrite sock_new_ip. split; [done|]. right. eauto.
  - intros [Hr [[Hin Hp]|[(b & Hb & Ha) [Hif|(c & Hc & Hip & Hp)]]]].
    + left. exists a. by rewrite Hp.
    + right. exists (sock_ip a). by rewrite Hb, <- Ha.
    + left. exists c. rewrite Hip, Hp, Hb, <- Ha. done.
Qed.

Lemma peer_direct_port ip_addrs bound ifs a :
  a ∈ peer_direct_addresses ip_addrs bound ifs ->
  is_routable_ip (sock_ip a) = true /\ is_placeholder_port (sock_port a) = false.
Proof.
  rewrite peer_direct_cases. intros [Hr [[_ Hp]|[(b & Hb & Ha) _]]]; [done|]. split; [done|].
  rewrite Ha, sock_new_port. by apply compatible_bound_spec in Hb as (_ & _ & ? & _).
Qed.

(** The direct addresses an endpoint publishes, exactly: the routable
    candidates with a real port, unchanged, and, for routable interface
    addresses and candidates with a placeholder port, the address at the port
    of the first bound socket of its family that listens on it.  Every one of
    them is dialable and none is listed twice. *)
Theorem peer_direct_addresses_exact (ip_addrs bound_sockets : list SocketAddr) (interface_ips : list IpAddr) :
  let selected := peer_direct_addresses ip_addrs bound_sockets interface_ips in
  NoDup selected /\
  Forall (fun a => is_routable_ip (sock_ip a) = true /\ is_placeholder_port (sock_port a) = false) selected /\
  forall a, a ∈ selected <->
    is_routable_ip (sock_ip a) = true /\
    (a ∈ ip_addrs /\ is_placeholder_port (sock_port a) = false \/
     borrowed bound_sockets (sock_ip a) a /\
       (sock_ip a ∈ interface_ips \/
        exists c, c ∈ ip_addrs /\ sock_ip c = sock_ip a /\ is_placeholder_port (sock_port c) = true)).
Proof.
  simpl. split_and!.
  - unfold peer_direct_addresses, select_new. apply NoDup_fold_push, NoDup_fold_push. constructor.
  - apply Forall_forall. intros a Ha. by eapply peer_direct_port.
  - intros a. apply peer_direct_cases.
Qed.

(** ** The published service *)

Lemma listens_on_eligible direct ip b :
  interface_is_eligible direct ip b = true <->
  is_routable_ip ip = true /\ sock_is_ipv6 b = ip_is_ipv6 ip /\ listens_on b ip = true /\
  forall c, c ∈ direct -> sock_ip c = ip -> sock_port c = sock_port b.
Proof.
  unfold interface_is_eligible. rewrite !andb_true_iff, negb_true_iff, <- not_true_iff_false, existsb_elem.
  split.
  - intros [[[Hr H6%Bool.eqb_prop] Hl] Hn]. split_and!; [done..|]. intros c Hc Hip.
    destruct (Z.eqb_spec (sock_port c) (sock_port b)) as [|Hne]; [done|]. exfalso. apply Hn.
    exists c. apply Z.eqb_neq in Hne. by rewrite bool_decide_eq_true_2, Hne.
  - intros (Hr & H6 & Hl & Hall). rewrite H6, Bool.eqb_reflx. split_and!; [done..|].
    intros (c & Hc & [Hip%bool_decide_eq_true Hp%negb_true_iff]%andb_true_iff).
    apply Z.eqb_neq in Hp. by apply Hp, Hall.
Qed.

Lemma bound_serves_spec c b :
  bound_serves c b = true <->
  sock_port c = sock_port b /\ sock_is_ipv6 c = sock_is_ipv6 b /\ listens_on b (sock_ip c) = true.
Proof.
  unfold bound_serves. rewrite !andb_true_iff, Z.eqb_eq. split.
  - by intros [[? ?%Bool.eqb_prop] ?].
  - intros (? & -> & ?). by rewrite Bool.eqb_reflx.
Qed.

Lemma srv_port_spec bound direct ifs p :
  srv_port bound direct ifs = Some p ->
  is_placeholder_port p = false /\ exists b, b ∈ bound /\ sock_port b = p.
Proof.
  unfold srv_port. intros Hp.
  assert (exists b, b ∈ bound /\ is_placeholder_port (sock_port b) = false /\ sock_port b = p)
    as (b & ? & ? & <-); [|eauto].
  destruct (List.find _ _) as [b|] eqn:E1 in Hp.
  { simplify_eq. apply find_elem in E1 as [[? ?%negb_true_iff]%elem_of_List_filter _]. eauto. }
  destruct (List.find _ _) as [b|] eqn:E2 in Hp.
  { simplify_eq. apply find_elem in E2 as [[? ?%negb_true_iff]%elem_of_List_filter _]. eauto. }
  apply fmap_Some in Hp as (b & [? ?%negb_true_iff]%find_elem & ->). eauto.
Qed.

Lemma srv_port_none bound direct ifs :
  srv_port bound direct ifs = None -> forall b, b ∈ bound -> is_placeholder_port (sock_port b) = true.
Proof.
  unfold srv_port. repeat case_match; try done. intros Hn%fmap_None b Hb.
  apply (find_none_elem _ _ b Hn) in Hb. by apply negb_false_iff in Hb.
Qed.

(** A bound socket accepts what is sent to [ip] at [port]. *)
Definition reachable_at (bound : list SocketAddr) (ip : IpAddr) (port : Z) : Prop :=
  exists b, b ∈ bound /\ sock_port b = port /\ sock_is_ipv6 b = ip_is_ipv6 ip /\ listens_on b ip = true.

(** An address record names a direct candidate at the SRV port. *)
Lemma host_addrs_direct socks bound ifs p ip :
  let direct := peer_direct_addresses socks bound ifs in
  is_placeholder_port p = false -> ip ∈ host_addrs bound direct ifs p ->
  reachable_at bound ip p /\ exists d, d ∈ direct /\ sock_ip d = ip /\ sock_port d = p.
Proof.
  simpl. intros Hp. unfold host_addrs. set (direct := peer_direct_addresses socks bound ifs).
  case_bool_decide as He.
  - rewrite He, elem_of_fold_push_map.
    intros [?%not_elem_of_nil|(d & [Hd Hb]%elem_of_List_filter & ->)]; [done|].
    apply andb_true_iff in Hb as [Hpd%Z.eqb_eq (b & Hb & Hs)%existsb_elem].
    apply bound_serves_spec in Hs as (Hpb & H6 & Hl).
    split; [|by exists d]. exists b. rewrite sock_ip_ipv6. split_and!; [done|congruence|done|done].
  - rewrite (elem_of_fold_push_map (fun ip => ip)). clear He.
    intros [?%not_elem_of_nil|(ip' & [Hif Hb]%elem_of_List_filter & <-)]; [done|].
    apply existsb_elem in Hb as (b & Hb & [Hpb%Z.eqb_eq He]%andb_true_iff).
    apply listens_on_eligible in He as (Hr & H6 & Hl & Hall).
    split; [by exists b|].
    destruct (compatible_bound_exists bound ip b) as [b' Hb']; [done..|congruence|done|].
    exists (sock_new ip (sock_port b')).
    assert (sock_new ip (sock_port b') ∈ direct) as Hd.
    { apply peer_direct_cases. rewrite sock_new_ip. split; [done|]. right. split; [by exists b'|by left]. }
    split; [done|]. rewrite sock_new_ip. split; [done|]. rewrite <- Hpb.
    apply Hall; [done|apply sock_new_ip].
Qed.

Section config.
Context {Id Relay : Type} `{HN : IrohNet Id Relay}.

(** The direct candidates of a snapshot. *)
Definition snapshot_directs (bound : list SocketAddr) (na : EndpointAddr (Relay := Relay))
  (ifs known : list IpAddr) : list SocketAddr :=
  peer_direct_addresses (live_candidates (ea_ip_addrs na) ifs known) bound ifs.

(** The service an endpoint publishes, and when it publishes none.  There
    is no service exactly when no bound socket has a real port.  Otherwise the
    SRV port is the port of a bound socket, and every A/AAAA address together
    with that port is reachable on a bound socket of its family and is one of
    the direct candidates: one SRV port never manufactures an address that the
    endpoint does not have. *)
Theorem published_service_sound (service_name instance_name : string) (bound : list SocketAddr)
  (na : EndpointAddr (Relay := Relay)) (ifs known : list IpAddr) :
  match peer_service_config_from_reconciled_snapshot service_name instance_name bound na ifs known with
  | Err e => e = Setup "endpoint has no dialable bound socket" /\
      forall b, b ∈ bound -> is_placeholder_port (sock_port b) = true
  | Ok c =>
      DnsSd.service_name c = service_name /\ DnsSd.instance_name c = instance_name /\
      is_placeholder_port (port c) = false /\
      (exists b, b ∈ bound /\ sock_port b = port c) /\
      forall ip, ip ∈ addrs c ->
        is_routable_ip ip = true /\ reachable_at bound ip (port c) /\
        exists d, d ∈ snapshot_directs bound na ifs known /\ sock_ip d = ip /\ sock_port d = port c
  end.
Proof.
  unfold peer_service_config_from_reconciled_snapshot.
  set (direct := peer_direct_addresses (live_candidates (ea_ip_addrs na) ifs known) bound ifs).
  destruct (srv_port bound direct ifs) as [p|] eqn:E; simpl.
  - apply srv_port_spec in E as [Hp Hb]. split_and!; [done..|]. intros ip Hip.
    destruct (host_addrs_direct _ _ _ _ _ Hp Hip) as (Hr & d & Hd & <- & <-).
    split; [by eapply peer_direct_port|]. split; [done|]. by exists d.
  - split; [done|]. by eapply srv_port_none.
Qed.

Lemma stale_ip_absent (service_name instance_name : string) (bound : list SocketAddr)
  (na : EndpointAddr (Relay := Relay)) (ifs known : list IpAddr) (ip : IpAddr) (c : ServiceConfig) :
  peer_service_config_from_reconciled_snapshot service_name instance_name bound na ifs known = Ok c ->
  ip ∈ known -> (ip ∉ ifs) ->
  (ip ∉ addrs c) /\ Forall (fun d => sock_ip d <> ip) (snapshot_directs bound na ifs known).
Proof.
  intros Hc Hk Hi.
  assert (Forall (fun d => sock_ip d <> ip) (snapshot_directs bound na ifs known)) as Hd.
  { apply Forall_forall. intros d Hd <-. apply peer_direct_cases in Hd as [_ Hd].
    assert (sock_ip d ∈ ifs \/ exists a, a ∈ live_candidates (ea_ip_addrs na) ifs known /\
              sock_ip a = sock_ip d) as [?|(a & Ha & Hip)] by naive_solver; [done|].
    apply elem_of_List_filter in Ha as [_ Ha]. cbv beta zeta in Ha. rewrite Hip in Ha.
    by rewrite (bool_decide_eq_true_2 (_ ∈ known)), (bool_decide_eq_false_2 (_ ∈ ifs)) in Ha. }
  split; [|done]. intros Hin. unfold peer_service_config_from_reconciled_snapshot in Hc.
  case_match eqn:E; simplify_eq. apply srv_port_spec in E as [Hp _].
  destruct (host_addrs_direct _ _ _ _ _ Hp Hin) as (_ & d & Hin' & Hip & _).
  rewrite Forall_forall in Hd. by apply (Hd d Hin').
Qed.

(** A local address that has left the interfaces is retracted everywhere:
    once an IP was seen on an interface of the host and is no longer there, it
    occurs neither in the A/AAAA records nor among the direct candidates of the
    [address] TXT entry, even while the endpoint still reports it. *)
Theorem stale_local_ip_retracted (service_name instance_name : string) (bound : list SocketAddr)
  (na : EndpointAddr (Relay := Relay)) (ifs known : list IpAddr) (ip : IpAddr) (c : ServiceConfig) :
  peer_service_config_from_reconciled_snapshot service_name instance_name bound na ifs known = Ok c ->
  ip ∈ known -> (ip ∉ ifs) ->
  (ip ∉ addrs c) /\ Forall (fun d => sock_ip d <> ip) (snapshot_directs bound na ifs known).
Proof. apply stale_ip_absent. Qed.
End config.

Definition lan (n : Z) : IpAddr := V4 (0x0a000000 + n).

Lemma stale_local_ip_retracted_witness :
  exists c, peer_service_config_from_reconciled_snapshot "app" "node" [SockV4 0 4000]
    (mkEndpointAddr [SockV4 0x0a000001 4000; SockV4 0x0a000002 4000] ([] : list unit)) [lan 2] [lan 1; lan 2] = Ok c /\
    addrs c = [lan 2] /\ lan 1 ∉ addrs c.
Proof.
  eexists. split; [reflexivity|]. split; [reflexivity|].
  eapply (stale_local_ip_retracted "app" "node" [SockV4 0 4000]
    (mkEndpointAddr [SockV4 0x0a000001 4000; SockV4 0x0a000002 4000] ([] : list unit)) [lan 2] [lan 1; lan 2]).
  - reflexivity.
  - by left.
  - by apply (bool_decide_unpack _); vm_compute.
Defined.

(** ** Reading a published record back *)

(** What the browser relies on: the text of a socket address names its IP, port
    and scope, and has neither commas nor blanks around it. *)
Class SockText (Id Relay : Type) `{IrohNet Id Relay} := {
  st_parse : forall a, sock_parse (sock_to_string a) = Some (without_flowinfo a);
  st_flowinfo : forall a, sock_to_string (without_flowinfo a) = sock_to_string a;
  st_nonempty : forall a, sock_to_string a <> "";
  st_no_comma : forall a, no_char "," (sock_to_string a);
  st_trim : forall a, str_trim (sock_to_string a) = sock_to_string a
}.

Lemma split_char_none c s : no_char c s -> split_char c s = [s].
Proof.
  induction s as [|a s IH]; [done|]. intros [Ha Hs]%no_char_cons. simpl.
  rewrite decide_False by congruence. by rewrite IH.
Qed.

Lemma split_char_app c s r : no_char c s -> split_char c (s +:+ String c r) = s :: split_char c r.
Proof.
  induction s as [|a s IH].
  - intros _. rewrite append_nil. simpl. by rewrite decide_True.
  - intros [Ha Hs]%no_char_cons. rewrite append_cons. simpl.
    rewrite decide_False by congruence. by rewrite IH.
Qed.

Lemma split_char_join l : l <> [] -> Forall (no_char ",") l -> split_char "," (join l) = l.
Proof.
  intros Hl Hf. induction Hf as [|v l Hv Hf IH]; [done|]. destruct l as [|w l]; [by apply split_char_none|].
  change (join (v :: w :: l)) with (v +:+ String "," (join (w :: l))).
  rewrite split_char_app by done. by rewrite IH.
Qed.

Lemma txt_find_skip key k v txt : k <> key -> txt_find key ((k, v) :: txt) = txt_find key txt.
Proof. intros Hn. unfold txt_find. simpl. by rewrite bool_decide_eq_false_2. Qed.
Lemma txt_find_here key v txt : txt_find key ((key, v) :: txt) = Some v.
Proof. unfold txt_find. simpl. by rewrite bool_decide_eq_true_2. Qed.

Section readback.
Context {Id Relay : Type} `{HN : IrohNet Id Relay} `{HT : !SockText Id Relay}.

Lemma txt_candidate_print d :
  is_routable_ip (sock_ip d) = true -> is_placeholder_port (sock_port d) = false -> (0 <= sock_port d)%Z ->
  txt_candidate (sock_to_string d) = Some (without_flowinfo d).
Proof.
  intros Hr Hp H0. unfold txt_candidate. rewrite st_trim, st_parse.
  apply orb_false_iff in Hp as [Hp0%Z.eqb_neq Hp1%Z.eqb_neq].
  destruct d as [b p|b p f sc]; cbn [sock_ip sock_port without_flowinfo] in *; rewrite (proj2 (Z.leb_gt p 1)) by lia; [done|].
  unfold is_routable_ip in Hr. case_match; [done|]. unfold v6_link_local.
  apply negb_true_iff in Hr. by rewrite Hr.
Qed.

Lemma peer_txt_find instance (na : EndpointAddr (Relay := Relay)) direct :
  txt_find TXT_PK (peer_txt instance na direct) = Some instance /\
  txt_find TXT_RELAY (peer_txt instance na direct) = relay_to_string <$> head (ea_relay_urls na) /\
  txt_find TXT_ADDRESS (peer_txt instance na direct) = fit_txt_values TXT_ADDRESS direct.
Proof.
  unfold peer_txt. generalize (fit_txt_values TXT_ADDRESS direct) as o. intros o.
  destruct (head (ea_relay_urls na)), o; cbn [app]; split_and!;
    repeat first [rewrite txt_find_here|rewrite txt_find_skip by discriminate]; done.
Qed.

(** What a direct address has to be for its text to be read back. *)
Definition readable (d : SocketAddr) : Prop :=
  is_routable_ip (sock_ip d) = true /\ is_placeholder_port (sock_port d) = false /\
  (0 <= sock_port d)%Z /\ (str_len (sock_to_string d) <= ISIZE_MAX)%Z.

(** The value of the published [address] entry. *)
Definition published_value (directs : list SocketAddr) : string :=
  default "" (fit_txt_values TXT_ADDRESS (map sock_to_string directs)).

Definition no_room (directs : list SocketAddr) (d : SocketAddr) : Prop :=
  (DNS_SD_TXT_ENTRY_MAX_BYTES <
     str_len TXT_ADDRESS + 1 + str_len (published_value directs) + 1 + str_len (sock_to_string d))%Z.

(** The addresses read from a published TXT value. *)
Lemma txt_addresses_published instance (na : EndpointAddr (Relay := Relay)) directs :
  Forall readable directs ->
  let t := peer_txt instance na (map sock_to_string directs) in
  (forall a, a ∈ txt_addresses t -> exists d, d ∈ directs /\ a = without_flowinfo d) /\
  (forall d, d ∈ directs -> without_flowinfo d ∈ txt_addresses t \/ no_room directs d).
Proof.
  simpl. intros Hd. rewrite Forall_forall in Hd.
  unfold txt_addresses, no_room, published_value.
  destruct (peer_txt_find instance na (map sock_to_string directs)) as (_ & _ & ->).
  assert (Forall (fun v => str_len v <= ISIZE_MAX)%Z (TXT_ADDRESS :: map sock_to_string directs)) as Hsz.
  { apply Forall_cons. split; [by vm_compute|]. apply Forall_map, Forall_forall. intros d Hin. by apply Hd. }
  apply fit_txt_values_fits in Hsz.
  destruct (fit_txt_values TXT_ADDRESS (map sock_to_string directs)) as [joined|]; simpl.
  - destruct Hsz as (_ & sel & Hsub & Hne & _ & -> & Hall).
    assert (forall v, v ∈ sel -> exists d, v = sock_to_string d /\ d ∈ directs) as Hsel.
    { intros v Hv. apply list_elem_of_fmap. by eapply sublist_subseteq. }
    rewrite split_char_join; [|done|apply Forall_forall; intros v (d & -> & _)%Hsel; apply st_no_comma].
    split.
    + intros a [?%not_elem_of_nil|(v & (d & -> & Hin)%Hsel & Ha)]%elem_of_fold_push; [done|].
      destruct (Hd d Hin) as (? & ? & ? & _). rewrite txt_candidate_print in Ha by done. naive_solver.
    + intros d Hin. destruct (Hall (sock_to_string d)) as [Hs|?]; [|apply st_nonempty| |by right].
      { apply list_elem_of_fmap. eauto. }
      left. apply elem_of_fold_push. right. exists (sock_to_string d). split; [done|].
      destruct (Hd d Hin) as (? & ? & ? & _). by apply txt_candidate_print.
  - split; [by intros a ?%not_elem_of_nil|]. intros d Hin. right.
    assert (sock_to_string d ∈ map sock_to_string directs) as Hm by (apply list_elem_of_fmap; eauto).
    specialize (Hsz _ Hm (st_nonempty d)). change (str_len "") with 0%Z. lia.
Qed.

(** C20. Publishing and browsing agree.  A browser that resolves the record an
    endpoint published (its TXT entries, and addresses among its A/AAAA records
    at its SRV port, in any order and number) reports a live peer under the
    published id; every address it reports is the endpoint's first relay or a
    direct candidate of the endpoint at its own port; the relay is reported,
    and so is every direct candidate for which the TXT entry had room. *)
Theorem published_peer_read_back (service_name instance : string) (bound : list SocketAddr)
  (na : EndpointAddr (Relay := Relay)) (ifs known : list IpAddr) (c : ServiceConfig) (rec : ServiceRecord) :
  peer_service_config_from_reconciled_snapshot service_name instance bound na ifs known = Ok c ->
  instance <> "" ->
  Forall (fun d => 0 <= sock_port d /\ str_len (sock_to_string d) <= ISIZE_MAX)%Z
    (snapshot_directs bound na ifs known) ->
  is_active rec = true -> sr_instance_name rec = instance -> sr_txt rec = txt c ->
  Forall (fun a => sock_ip a ∈ addrs c /\ sock_port a = port c) (sr_addrs rec) ->
  exists ev, peer_event_from_record rec = Some ev /\
    pe_is_active ev = true /\ pe_node_id ev = instance /\
    (forall s, s ∈ pe_addrs ev ->
       Some s = relay_to_string <$> head (ea_relay_urls na) \/
       exists a d, s = sock_to_string a /\ d ∈ snapshot_directs bound na ifs known /\
         sock_ip a = sock_ip d /\ sock_port a = sock_port d) /\
    (forall r, head (ea_relay_urls na) = Some r -> relay_to_string r ∈ pe_addrs ev) /\
    (forall d, d ∈ snapshot_directs bound na ifs known ->
       sock_to_string d ∈ pe_addrs ev \/ no_room (snapshot_directs bound na ifs known) d).
Proof.
  intros Hc Hi Hwf Hact Hin Htxt Hsrv. unfold peer_service_config_from_reconciled_snapshot in Hc.
  fold (snapshot_directs bound na ifs known) in Hc. set (directs := snapshot_directs bound na ifs known) in *.
  destruct (srv_port bound directs ifs) as [p|] eqn:Ep; [|done]. injection Hc as <-.
  cbn [txt addrs port] in *. apply srv_port_spec in Ep as [Hp _].
  assert (Forall readable directs) as Hread.
  { rewrite Forall_forall in Hwf |- *. intros d Hd. destruct (Hwf d Hd).
    destruct (peer_direct_port _ _ _ _ Hd). by split_and!. }
  destruct (txt_addresses_published instance na directs Hread) as [Hsound Hcomplete].
  destruct (peer_txt_find instance na (map sock_to_string directs)) as (Hpk & Hrelay & _).
  unfold peer_event_from_record, record_node_id. rewrite Htxt, Hpk, Hact, Hrelay.
  rewrite bool_decide_eq_false_2 by done. cbn [negb].
  set (ta := txt_addresses _) in *.
  eexists. split; [done|]. split; [done|]. split; [done|]. cbn [pe_addrs].
  set (socks := fold_left _ ta _).
  assert (forall s, s ∈ socks <-> s ∈ map sock_to_string (List.filter (srv_kept ta)
            (List.filter (fun srv => (1 <? sock_port srv)%Z) (sr_addrs rec))) \/
            exists a, a ∈ ta /\ s = sock_to_string a) as Hsocks.
  { intros s. apply elem_of_fold_push_map. }
  assert (forall s, s ∈ match relay_to_string <$> head (ea_relay_urls na) with
                        | Some relay => socks ++ [relay] | None => socks end <->
            s ∈ socks \/ Some s = relay_to_string <$> head (ea_relay_urls na)) as Hel.
  { intros s. destruct (head (ea_relay_urls na)); simpl; [rewrite elem_of_app|]; set_solver. }
  split_and!.
  - intros s Hs. apply Hel in Hs as [Hs|Hs]; [|by left]. right.
    apply Hsocks in Hs as [(a & -> & Ha)%list_elem_of_fmap|(a & (d & Hd & ->)%Hsound & ->)].
    + rewrite !elem_of_List_filter in Ha. destruct Ha as [[Ha _] _].
      rewrite Forall_forall in Hsrv. destruct (Hsrv a Ha) as [Hip Hpa].
      destruct (host_addrs_direct _ _ _ _ _ Hp Hip) as (_ & d & Hd & Hipd & Hpd).
      exists a, d. split_and!; [done|exact Hd|done|congruence].
    + exists (without_flowinfo d), d. split_and!; [done..|by destruct d|by destruct d].
  - intros r Hr. apply Hel. right. by rewrite Hr.
  - intros d Hd. destruct (Hcomplete d Hd) as [Ha|?]; [left|by right].
    apply Hel. left. apply Hsocks. right. exists (without_flowinfo d). by rewrite st_flowinfo.
Qed.
End readback.

(** ** A concrete text form *)

Lemma strip_one_none ws h t :
  Forall (fun w => match w with x :: _ => x <> h | [] => False end) ws -> strip_one ws (h :: t) = None.
Proof.
  induction 1 as [|w ws Hw _ IH]; [done|]. cbn [strip_one]. rewrite bool_decide_eq_false_2; [done|].
  destruct w as [|x w]; [done|]. cbn. congruence.
Qed.

Lemma strip_start_none fuel ws l : strip_one ws l = None -> strip_start fuel ws l = l.
Proof. destruct fuel; [done|]. simpl. by intros ->. Qed.

(** The bytes of the digits of [pos_text]. *)
Definition digit_bytes : list nat := [48; 49; 105].

Lemma pos_text_bytes p : bytes_of_string (pos_text p) <> [] /\ Forall (fun n => n ∈ digit_bytes) (bytes_of_string (pos_text p)).
Proof.
  unfold digit_bytes. induction p as [p [_ IH]|p [_ IH]|]; cbn [pos_text bytes_of_string]; (split; [done|]);
    (constructor; [|done]); vm_compute; set_solver.
Qed.

Lemma strip_digit ws n l : 
  forallb (fun w => match w with x :: _ => forallb (fun d => negb (x =? d)%nat) digit_bytes | [] => false end) ws = true ->
  n ∈ digit_bytes -> strip_one ws (n :: l) = None.
Proof.
  intros Hws Hn. apply strip_one_none, Forall_forall. intros w Hw. rewrite forallb_forall in Hws.
  specialize (Hws w ltac:(by apply list_elem_of_In)). destruct w as [|x w]; [done|].
  rewrite forallb_forall in Hws. intros ->. specialize (Hws n ltac:(by apply list_elem_of_In)).
  by rewrite Nat.eqb_refl in Hws.
Qed.

Lemma pos_text_trim p : str_trim (pos_text p) = pos_text p.
Proof.
  unfold str_trim. destruct (pos_text_bytes p) as [Hne Hall].
  assert (string_of_bytes (bytes_of_string (pos_text p)) = pos_text p) as Hb.
  { generalize (pos_text p). induction s as [|a s IH]; [done|]. cbn. by rewrite Ascii.ascii_nat_embedding, IH. }
  rewrite (strip_start_none _ white_space).
  2:{ destruct (bytes_of_string (pos_text p)); [done|]. apply Forall_cons in Hall as [? _].
      apply strip_digit; [by vm_compute|done]. }
  rewrite strip_start_none; [by rewrite reverse_involutive|].
  apply Forall_reverse in Hall. destruct (reverse (bytes_of_string (pos_text p))) eqn:Er.
  { apply (f_equal reverse) in Er. rewrite reverse_involutive in Er. done. }
  apply Forall_cons in Hall as [? _]. apply strip_digit; [by vm_compute|done].
Qed.

#[global] Instance text_SockText : SockText Byte.byte unit.
Proof.
  constructor.
  - intros a. cbn. rewrite text_pos_text. cbn. apply decode_encode.
  - intros a. by destruct a.
  - intros a. cbn. by destruct (encode _).
  - intros a. cbn. unfold no_char. generalize (encode (without_flowinfo a)).
    induction p as [p IH|p IH|]; cbn [pos_text chars]; rewrite ?not_elem_of_cons; split_and?; try done;
      apply not_elem_of_nil.
  - intros a. apply pos_text_trim.
Qed.

(** A dual-homed endpoint with a relay: an IPv4 wildcard socket, one candidate
    with a placeholder port and one reflexive candidate. *)
Definition demo_bound : list SocketAddr := [SockV4 0 4000].
Definition demo_addr : EndpointAddr (Relay := unit) :=
  mkEndpointAddr [SockV4 0x0a000001 1; SockV4 0x08080808 5000] [tt].
Definition demo_config : ServiceConfig :=
  match peer_service_config_from_snapshot "app" "node" demo_bound demo_addr [lan 1] with
  | Ok c => c
  | Err _ => mkServiceConfig "" "" 0 [] [] Udp
  end.
Definition demo_record : ServiceRecord :=
  mkServiceRecord true "_app._udp.local." "node" (Some "node.local.") (port demo_config)
    (map (fun ip => sock_new ip (port demo_config)) (addrs demo_config)) (txt demo_config).

Lemma published_peer_read_back_witness :
  addrs demo_config = [lan 1] /\ port demo_config = 4000%Z /\
  exists ev, peer_event_from_record demo_record = Some ev /\ pe_node_id ev = "node" /\
    "https://r" ∈ pe_addrs ev.
Proof.
  split; [by vm_compute|]. split; [by vm_compute|].
  destruct (published_peer_read_back "app" "node" demo_bound demo_addr [lan 1] [lan 1] demo_config demo_record)
    as (ev & Hev & _ & Hid & _ & Hr & _).
  - by vm_compute.
  - done.
  - apply (bool_decide_unpack _). by vm_compute.
  - done.
  - done.
  - done.
  - apply (bool_decide_unpack _). by vm_compute.
  - exists ev. split; [done|]. split; [done|]. by apply (Hr tt).
Defined.
