(* ===== verification/BrowseEngine.v ===== *)
(** * Browse sessions (iroh-http-discovery: engine/session.rs)

    [engine::BrowseSession] as a machine of interleaved calls.  Each call of
    [next], [close], [on_close] or [wait_closed] is a thread with a program
    counter at every point where another thread can run; [exec] is one atomic
    action of a thread, [cancel] the drop of a future at one of its awaits.
    The platform handle is the environment: [complete] is the answer of a
    spawned [handle.next()], [acknowledge] the result of its cleanup.

    [InFlight::wait] blocks until the result is stored: [notify_one] keeps a
    permit for the single waiter the gate admits. *)

From stdpp Require Import base numbers list strings gmap fin_maps relations.
From Stdlib Require Import ZArith Lia.
From S2P Require Import Prelude DnsSd.

Abbreviation BrowseOutcome := (Result (option RawEvent) TransportError).

(** What follows a call of [close]. *)
Inductive Cont :=
| KReturn (r : BrowseOutcome)  (** the end of [next] *)
| KWait                        (** the rest of [wait_closed] *)
| KDone.                       (** [close] itself, or [drop] *)

Inductive Pc :=
(** [next] *)
| NGate
| NCheck
| NSlot
| NWait (op : nat)
| NClear (op : nat) (r : BrowseOutcome)
| NTerminal (op : nat) (r : BrowseOutcome)
| NReturn (r : BrowseOutcome)
(** [close] *)
| CSwap (k : Cont)
| CRequest (k : Cont)
| CTake (k : Cont)
| CRun (callbacks : list nat) (k : Cont)
(** [on_close] *)
| OLock
| OLoad
| OPush
| OCall
(** [wait_closed], after its [close] *)
| WGate
| WSlot
| WWait (op : nat)
| WClear (op : nat)
| WClosed
(** finished; [Watching] is a returned [on_close] *)
| Returned (r : BrowseOutcome)
| Closed (r : Result unit TransportError)
| Finished
| Watching
| Dropped.

(** [BrowseSession] with its in-flight operations, the close requests the
    handle received and its answer, and what the callers have seen: the
    callbacks that ran and the events [next] returned.  A callback is named by
    the thread whose [on_close] registered it. *)
Record Session := mkSession {
  next_gate : option nat;
  next_operation : option nat;
  operations : list (option BrowseOutcome);
  terminal : bool;
  callbacks_lock : option nat;
  close_callbacks : list nat;
  close_requests : nat;
  handle_closed : option (Result unit TransportError);
  ran : list nat;
  returned : list RawEvent
}.

Definition set_gate g s := mkSession g (next_operation s) (operations s) (terminal s)
  (callbacks_lock s) (close_callbacks s) (close_requests s) (handle_closed s) (ran s) (returned s).
Definition set_slot o s := mkSession (next_gate s) o (operations s) (terminal s)
  (callbacks_lock s) (close_callbacks s) (close_requests s) (handle_closed s) (ran s) (returned s).
Definition set_operations ops s := mkSession (next_gate s) (next_operation s) ops (terminal s)
  (callbacks_lock s) (close_callbacks s) (close_requests s) (handle_closed s) (ran s) (returned s).
Definition set_terminal s := mkSession (next_gate s) (next_operation s) (operations s) true
  (callbacks_lock s) (close_callbacks s) (close_requests s) (handle_closed s) (ran s) (returned s).
Definition set_lock l s := mkSession (next_gate s) (next_operation s) (operations s) (terminal s)
  l (close_callbacks s) (close_requests s) (handle_closed s) (ran s) (returned s).
Definition set_callbacks l s := mkSession (next_gate s) (next_operation s) (operations s) (terminal s)
  (callbacks_lock s) l (close_requests s) (handle_closed s) (ran s) (returned s).
Definition request_close s := mkSession (next_gate s) (next_operation s) (operations s) (terminal s)
  (callbacks_lock s) (close_callbacks s) (S (close_requests s)) (handle_closed s) (ran s) (returned s).
Definition set_handle_closed r s := mkSession (next_gate s) (next_operation s) (operations s) (terminal s)
  (callbacks_lock s) (close_callbacks s) (close_requests s) (Some r) (ran s) (returned s).
Definition log_ran c s := mkSession (next_gate s) (next_operation s) (operations s) (terminal s)
  (callbacks_lock s) (close_callbacks s) (close_requests s) (handle_closed s) (ran s ++ [c]) (returned s).
Definition log_returned event s := mkSession (next_gate s) (next_operation s) (operations s) (terminal s)
  (callbacks_lock s) (close_callbacks s) (close_requests s) (handle_closed s) (ran s) (returned s ++ [event]).

Definition session_new : Session := mkSession None None [] false None [] 0 None [] [].

(** [slot.as_ref().is_some_and(|current| Arc::ptr_eq(current, completed))]. *)
Definition clear_operation (completed : nat) (s : Session) : Session :=
  if bool_decide (next_operation s = Some completed) then set_slot None s else s.

Definition continue (k : Cont) : Pc :=
  match k with KReturn r => NReturn r | KWait => WGate | KDone => Finished end.

(** The next operation, spawning [handle.next()] when none is in flight. *)
Definition join_or_spawn (s : Session) : Session * nat :=
  match next_operation s with
  | Some op => (s, op)
  | None =>
      let op := length (operations s) in
      (set_slot (Some op) (set_operations (operations s ++ [None]) s), op)
  end.

Definition stored (s : Session) (op : nat) : option BrowseOutcome := operations s !! op ≫= id.

(** One atomic action of thread [t]; [None] when it has to wait or is finished. *)
Definition exec (t : nat) (pc : Pc) (s : Session) : option (Session * Pc) :=
  match pc with
  | NGate => match next_gate s with None => Some (set_gate (Some t) s, NCheck) | Some _ => None end
  | NCheck => Some (s, if terminal s then NReturn (Ok None) else NSlot)
  | NSlot => let '(s, op) := join_or_spawn s in Some (s, NWait op)
  | NWait op => match stored s op with Some r => Some (s, NClear op r) | None => None end
  | NClear op r => Some (clear_operation op s, NTerminal op r)
  | NTerminal op r =>
      if terminal s then Some (s, NReturn (Ok None))
      else match r with
           | Ok (Some event) => Some (log_returned event s, NReturn (Ok (Some event)))
           | Ok None => Some (s, CSwap (KReturn (Ok None)))
           | Err error => Some (s, CSwap (KReturn (Err error)))
           end
  | NReturn r => Some (set_gate None s, Returned r)
  | CSwap k => if terminal s then Some (s, continue k) else Some (set_terminal s, CRequest k)
  | CRequest k => Some (request_close s, CTake k)
  | CTake k =>
      match callbacks_lock s with
      | None => Some (set_callbacks [] s, CRun (close_callbacks s) k)
      | Some _ => None
      end
  | CRun [] k => Some (s, continue k)
  | CRun (callback :: callbacks) k => Some (log_ran callback s, CRun callbacks k)
  | OLock => match callbacks_lock s with None => Some (set_lock (Some t) s, OLoad) | Some _ => None end
  | OLoad => if terminal s then Some (set_lock None s, OCall) else Some (s, OPush)
  | OPush => Some (set_lock None (set_callbacks (close_callbacks s ++ [t]) s), Watching)
  | OCall => Some (log_ran t s, Watching)
  | WGate => match next_gate s with None => Some (set_gate (Some t) s, WSlot) | Some _ => None end
  | WSlot => match next_operation s with Some op => Some (s, WWait op) | None => Some (s, WClosed) end
  | WWait op => match stored s op with Some _ => Some (s, WClear op) | None => None end
  | WClear op => Some (clear_operation op s, WClosed)
  | WClosed => match handle_closed s with
               | Some r => Some (set_gate None s, Closed r)
               | None => None
               end
  | Returned _ | Closed _ | Finished | Watching | Dropped => None
  end.

(** Dropping a future while it is suspended; the guard it holds is released. *)
Definition cancel (pc : Pc) (s : Session) : option Session :=
  match pc with
  | NGate | WGate => Some s
  | NWait _ | WWait _ | WClosed => Some (set_gate None s)
  | _ => None
  end.

(** The program counter a new call starts at. *)
Inductive entry : Pc -> Prop :=
| call_next : entry NGate
| call_close : entry (CSwap KDone)
| call_on_close : entry OLock
| call_wait_closed : entry (CSwap KWait).

Record Machine := mkMachine { session : Session; threads : gmap nat Pc }.

Definition machine_new : Machine := mkMachine session_new ∅.

Inductive step : Machine -> Machine -> Prop :=
| step_call m t pc :
    entry pc -> threads m !! t = None ->
    step m (mkMachine (session m) (<[t := pc]> (threads m)))
| step_exec m t pc s' pc' :
    threads m !! t = Some pc -> exec t pc (session m) = Some (s', pc') ->
    step m (mkMachine s' (<[t := pc']> (threads m)))
| step_cancel m t pc s' :
    threads m !! t = Some pc -> cancel pc (session m) = Some s' ->
    step m (mkMachine s' (<[t := Dropped]> (threads m)))
| step_complete m op r :
    operations (session m) !! op = Some None ->
    step m (mkMachine (set_operations (<[op := Some r]> (operations (session m))) (session m)) (threads m))
| step_acknowledge m r :
    close_requests (session m) <> 0 -> handle_closed (session m) = None ->
    step m (mkMachine (set_handle_closed r (session m)) (threads m)).

Definition reachable (m : Machine) : Prop := rtc step machine_new m.
