(* ===== verification/BrowseEngineProps.v ===== *)
(** * Properties of browse sessions

    Mutual exclusion, the close protocol, the fate of every callback and of
    every event of the platform handle, and progress. *)

From stdpp Require Import base numbers list strings sets gmap fin_maps relations.
From Stdlib Require Import ZArith Lia.
From S2P Require Import Prelude Threads DnsSd BrowseEngine.

(** ** The invariant *)

(** Threads between taking and releasing [next_gate]. *)
Definition holds_gate (pc : Pc) : bool :=
  match pc with
  | NCheck | NSlot | NWait _ | NClear _ _ | NTerminal _ _ | NReturn _
  | CSwap (KReturn _) | CRequest (KReturn _) | CTake (KReturn _) | CRun _ (KReturn _)
  | WSlot | WWait _ | WClear _ | WClosed => true
  | _ => false
  end.

(** Threads that hold the lock of the callbacks. *)
Definition holds_lock (pc : Pc) : bool := match pc with OLoad | OPush => true | _ => false end.

(** Threads that won the swap and have not left [close]. *)
Definition closing (pc : Pc) : bool :=
  match pc with CRequest _ | CTake _ | CRun _ _ => true | _ => false end.

(** Threads that have seen the session closed. *)
Definition knows_closed (pc : Pc) : bool :=
  match pc with CRequest _ | CTake _ | CRun _ _ | OCall | WGate | WSlot | WWait _ | WClear _ | WClosed => true | _ => false end.

Inductive phase (m : Machine) : list nat -> Prop :=
| phase_open :
    terminal (session m) = false -> close_requests (session m) = 0 -> ran (session m) = [] ->
    (forall t pc, threads m !! t = Some pc -> closing pc = false) -> phase m []
| phase_closing t pc :
    terminal (session m) = true -> threads m !! t = Some pc -> closing pc = true ->
    (forall t' pc', threads m !! t' = Some pc' -> closing pc' = true -> t' = t) ->
    close_requests (session m) = (match pc with CRequest _ => 0 | _ => 1 end) ->
    (forall l k, pc = CRun l k -> close_callbacks (session m) = [] /\
       forall t', threads m !! t' <> Some OPush) ->
    phase m (match pc with CRun l _ => l | _ => [] end)
| phase_closed :
    terminal (session m) = true -> close_requests (session m) = 1 ->
    close_callbacks (session m) = [] ->
    (forall t pc, threads m !! t = Some pc -> closing pc = false /\ pc <> OPush) -> phase m [].

(** The operation a thread works on is the last one, and still in the slot until
    the thread has cleared it. *)
Definition pc_ok (s : Session) (pc : Pc) : Prop :=
  let last op := S op = length (operations s) in
  match pc with
  | NWait op | WWait op => next_operation s = Some op
  | NClear op r => next_operation s = Some op /\ stored s op = Some r
  | WClear op => next_operation s = Some op /\ is_Some (stored s op)
  | NTerminal op r => next_operation s = None /\ last op /\ stored s op = Some r
  | CSwap (KReturn _) => next_operation s = None
  | _ => True
  end.

(** The gate holder has taken the last operation and not yet answered for it. *)
Definition in_hand (pc : Pc) : bool :=
  match pc with NTerminal _ _ | CSwap (KReturn _) => true | _ => false end.

Ltac exec_cases H :=
  unfold exec, join_or_spawn, clear_operation in H; repeat case_match; simplify_eq/=.

Lemma exec_gate t pc s s' pc' :
  exec t pc s = Some (s', pc') -> owner_step holds_gate t pc pc' (next_gate s) (next_gate s').
Proof.
  unfold owner_step. intros He. destruct pc as [| | | | | | |k|k|k|l k| | | | | | | | | | | | | |];
    exec_cases He; auto; try (destruct k; simpl; auto).
Qed.

Lemma exec_lock t pc s s' pc' :
  exec t pc s = Some (s', pc') -> owner_step holds_lock t pc pc' (callbacks_lock s) (callbacks_lock s').
Proof.
  unfold owner_step. intros He. destruct pc as [| | | | | | |k|k|k|l k| | | | | | | | | | | | | |];
    exec_cases He; auto; try (destruct k; simpl; auto).
Qed.

Definition locks_ok (m : Machine) : Prop :=
  owns holds_gate (next_gate (session m)) (threads m) /\
  owns holds_lock (callbacks_lock (session m)) (threads m).

Lemma cancel_owner pc s s' t :
  cancel pc s = Some s' ->
  owner_step holds_gate t pc Dropped (next_gate s) (next_gate s') /\
  owner_step holds_lock t pc Dropped (callbacks_lock s) (callbacks_lock s').
Proof. unfold cancel, owner_step. destruct pc; intros; simplify_eq/=; naive_solver. Qed.

Lemma entry_plain pc :
  entry pc -> holds_gate pc = false /\ holds_lock pc = false /\ closing pc = false /\
    knows_closed pc = false /\ in_hand pc = false /\ pc <> Watching /\ pc <> OPush /\ forall s, pc_ok s pc.
Proof. by destruct 1. Qed.

Lemma locks_ok_step m m' : locks_ok m -> step m m' -> locks_ok m'.
Proof.
  intros [Hg Hl]. destruct 1 as [m t pc He Ht|m t pc s' pc' Ht He|m t pc s' Ht He|m op r Ho|m r Hr Hh];
    unfold locks_ok; cbn [session threads].
  - apply entry_plain in He as (? & ? & _). split; by apply owns_call.
  - split; (eapply owns_step; [done|done|]); [by eapply exec_gate|by eapply exec_lock].
  - apply (cancel_owner _ _ _ t) in He as [? ?]. split; by eapply owns_step.
  - done.
  - done.
Qed.

(** ** Closing *)

Definition callbacks_ok (m : Machine) : Prop :=
  exists running, phase m running /\
    NoDup (ran (session m) ++ running ++ close_callbacks (session m)) /\
    forall t, t ∈ ran (session m) ++ running ++ close_callbacks (session m) <-> threads m !! t = Some Watching.

Definition knows_ok (m : Machine) : Prop :=
  forall t pc, threads m !! t = Some pc -> knows_closed pc = true -> terminal (session m) = true.

Lemma exec_terminal t pc s s' pc' :
  exec t pc s = Some (s', pc') -> terminal s = true -> terminal s' = true.
Proof. intros He Ht. destruct pc; exec_cases He; done. Qed.

Lemma knows_ok_step m m' : knows_ok m -> step m m' -> knows_ok m'.
Proof.
  unfold knows_ok. intros Hk.
  destruct 1 as [m t pc He Ht|m t pc s' pc' Ht He|m t pc s' Ht He|m op r Ho|m r Hr Hh]; cbn [session threads].
  - intros t' pc' [[<- <-]|[? ?]]%lookup_insert_Some; [|eauto].
    apply entry_plain in He as (_ & _ & _ & Hn & _). congruence.
  - intros u p [[<- <-]|[? ?]]%lookup_insert_Some Hp.
    + specialize (Hk _ _ Ht). destruct pc as [| | | | | | |k|k|k|l k| | | | | | | | | | | | | |];
        exec_cases He; try done; auto; try (by destruct k).
    + eapply exec_terminal; [done|]. eauto.
  - intros u p [[<- <-]|[? ?]]%lookup_insert_Some Hp; [done|].
    unfold cancel in He. destruct pc; simplify_eq/=; eauto.
  - eauto.
  - eauto.
Qed.

(** The fields the close protocol works on. *)
Definition same_close (s s' : Session) : Prop :=
  terminal s' = terminal s /\ close_requests s' = close_requests s /\ ran s' = ran s /\
  close_callbacks s' = close_callbacks s.

Lemma phase_frame m s' t pc' running :
  phase m running -> same_close (session m) s' ->
  (forall pc, threads m !! t = Some pc -> closing pc = false) -> closing pc' = false ->
  (pc' = OPush -> terminal (session m) = false) ->
  phase (mkMachine s' (<[t := pc']> (threads m))) running.
Proof.
  intros Hp (Ht & Hr & Hn & Hc) Hpc Hpc' Hpush. destruct Hp as [H1 H2 H3 H4|w pc H1 H2 H3 H4 H5 H6|H1 H2 H3 H4].
  - constructor; simpl; rewrite ?Ht, ?Hr, ?Hn; try done.
    intros u p [[<- <-]|[? ?]]%lookup_insert_Some; eauto.
  - assert (w <> t) as Hne by (intros ->; specialize (Hpc _ H2); congruence).
    apply (phase_closing _ w pc); simpl; rewrite ?Ht, ?Hr, ?Hn, ?Hc; try done.
    + by rewrite lookup_insert_ne.
    + intros u p [[<- <-]|[? ?]]%lookup_insert_Some; [congruence|eauto].
    + intros l k E. destruct (H6 l k E) as [? Ho]. split; [done|].
      intros u [[<- ->]|[? Hu]]%lookup_insert_Some; [|by eapply Ho].
      specialize (Hpush eq_refl). congruence.
  - apply phase_closed; simpl; rewrite ?Ht, ?Hr, ?Hn, ?Hc; try done.
    intros u p [[<- <-]|[? ?]]%lookup_insert_Some; [|eauto].
    split; [done|]. intros ->. specialize (Hpush eq_refl). congruence.
Qed.

(** A thread that neither registers, runs nor takes callbacks. *)
Lemma callbacks_frame m s' t pc' :
  callbacks_ok m -> same_close (session m) s' ->
  (forall pc, threads m !! t = Some pc -> closing pc = false /\ pc <> Watching) ->
  closing pc' = false -> pc' <> Watching -> (pc' = OPush -> terminal (session m) = false) ->
  callbacks_ok (mkMachine s' (<[t := pc']> (threads m))).
Proof.
  intros (running & Hp & Hd & Hw) Hs Hpc Hc Hnw Hpush. exists running.
  pose proof Hs as (_ & _ & Hr & Hcb). cbn [session threads]. rewrite Hr, Hcb. split.
  { eapply phase_frame; eauto. intros pc E. by apply Hpc in E as [? _]. }
  split; [done|]. intros u. rewrite Hw. rewrite lookup_insert_Some. destruct (decide (t = u)) as [->|Hne].
  - split; [|naive_solver]. intros E. by apply Hpc in E as [_ ?].
  - naive_solver.
Qed.

Lemma callbacks_threads m s' : callbacks_ok m -> same_close (session m) s' -> callbacks_ok (mkMachine s' (threads m)).
Proof.
  intros (running & Hp & Hd & Hw) (Ht & Hq & Hr & Hcb). exists running. cbn [session threads].
  rewrite Hr, Hcb. split; [|done]. destruct Hp as [H1 H2 H3 H4|w pc H1 H2 H3 H4 H5 H6|H1 H2 H3 H4].
  - constructor; simpl; by rewrite ?Ht, ?Hq, ?Hr.
  - apply (phase_closing _ w pc); simpl; by rewrite ?Ht, ?Hq, ?Hr, ?Hcb.
  - apply phase_closed; simpl; by rewrite ?Ht, ?Hq, ?Hr, ?Hcb.
Qed.

(** The threads whose actions matter to the protocol. *)
Definition close_actor (pc : Pc) : bool :=
  match pc with CSwap _ | CRequest _ | CTake _ | CRun _ _ | OPush | OCall => true | _ => false end.

Lemma exec_neutral t pc s s' pc' :
  exec t pc s = Some (s', pc') -> close_actor pc = false \/ (exists k, pc = CSwap k /\ terminal s = true) ->
  same_close s s' /\ closing pc = false /\ closing pc' = false /\ pc <> Watching /\ pc' <> Watching /\
  (pc' = OPush -> terminal s = false).
Proof.
  intros He Ha. unfold same_close.
  destruct pc as [| | | | | | |k|k|k|l k| | | | | | | | | | | | | |]; simpl in Ha;
    (destruct Ha as [Ha|(k' & Hk & Ha)]; [try discriminate Ha|try discriminate Hk]);
    exec_cases He; split_and!; try done; try congruence; try (by destruct k'); try (by destruct k).
Qed.

(** Watching threads after [t] has moved, when [t] is not one of them. *)
Lemma watching_insert (thr : gmap nat Pc) t pc pc' u :
  thr !! t = Some pc -> pc <> Watching -> pc' <> Watching ->
  thr !! u = Some Watching <-> <[t := pc']> thr !! u = Some Watching.
Proof. intros Ht Hp Hp'. rewrite lookup_insert_Some. destruct (decide (t = u)); naive_solver. Qed.

Lemma watching_new (thr : gmap nat Pc) t u :
  <[t := Watching]> thr !! u = Some Watching <-> u = t \/ thr !! u = Some Watching.
Proof. rewrite lookup_insert_Some. destruct (decide (t = u)); naive_solver. Qed.

(** The swap that is won. *)
Lemma callbacks_swap m t k :
  callbacks_ok m -> threads m !! t = Some (CSwap k) -> terminal (session m) = false ->
  callbacks_ok (mkMachine (set_terminal (session m)) (<[t := CRequest k]> (threads m))).
Proof.
  intros (running & Hp & Hd & Hw) Ht Hf. destruct Hp as [_ H2 H3 H4|w pc H1|H1]; [|congruence..].
  exists []. split.
  - apply (phase_closing _ t (CRequest k)); simpl; try done.
    + by rewrite lookup_insert_eq.
    + intros u p [[<- <-]|[? Hu]]%lookup_insert_Some Hc; [done|]. apply H4 in Hu. congruence.
  - simpl. split; [done|]. intros u. rewrite Hw. by apply (watching_insert _ _ (CSwap k)).
Qed.

(** The winner moves on inside [close]. *)
Lemma phase_winner m running t pc :
  phase m running -> threads m !! t = Some pc -> closing pc = true ->
  terminal (session m) = true /\ running = (match pc with CRun l _ => l | _ => [] end) /\
  close_requests (session m) = (match pc with CRequest _ => 0 | _ => 1 end) /\
  (forall t' pc', threads m !! t' = Some pc' -> closing pc' = true -> t' = t) /\
  (forall l k, pc = CRun l k -> close_callbacks (session m) = [] /\ forall t', threads m !! t' <> Some OPush).
Proof.
  intros Hp Ht Hc. destruct Hp as [H1 H2 H3 H4|w pc' H1 H2 H3 H4 H5 H6|H1 H2 H3 H4].
  - specialize (H4 _ _ Ht). congruence.
  - pose proof (H4 _ _ Ht Hc) as ->. assert (pc' = pc) as -> by congruence. by split_and!.
  - destruct (H4 _ _ Ht). congruence.
Qed.

Lemma callbacks_winner m t pc s' pc' :
  callbacks_ok m -> locks_ok m -> threads m !! t = Some pc -> closing pc = true ->
  exec t pc (session m) = Some (s', pc') ->
  callbacks_ok (mkMachine s' (<[t := pc']> (threads m))).
Proof.
  intros (running & Hp & Hd & Hw) [_ Hl] Ht Hc He.
  destruct (phase_winner _ _ _ _ Hp Ht Hc) as (Hterm & -> & Hreq & Huniq & Hrun).
  assert (forall u p, <[t := pc']> (threads m) !! u = Some p -> closing p = true -> u = t) as Huniq'.
  { intros u p [[<- <-]|[Hne Hu]]%lookup_insert_Some Hcl; [done|]. eauto. }
  assert (pc <> Watching /\ pc' <> Watching) as [Hnw Hnw'].
  { destruct pc as [| | | | | | | |k|k|l k| | | | | | | | | | | | | |]; try discriminate Hc; exec_cases He;
      split; try done; by destruct k. }
  assert (forall u, threads m !! u = Some Watching <-> <[t := pc']> (threads m) !! u = Some Watching) as Hwi.
  { intros u. by apply (watching_insert _ _ pc). }
  setoid_rewrite Hwi in Hw.
  destruct pc as [| | | | | | | |k|k|l k| | | | | | | | | | | | | |]; try discriminate Hc; cbn [exec] in He.
  - simplify_eq. exists []. split; [|done].
    apply (phase_closing _ t (CTake k)); simpl; try done; [by rewrite lookup_insert_eq|by rewrite Hreq].
  - destruct (callbacks_lock (session m)) eqn:El; [done|]. simplify_eq. exists (close_callbacks (session m)).
    split; [|by simpl; rewrite app_nil_r].
    apply (phase_closing _ t (CRun (close_callbacks (session m)) k)); simpl; try done; [by rewrite lookup_insert_eq|].
    intros l' k' _. split; [done|]. intros u [[<- ?]|[Hne Hu]]%lookup_insert_Some; [done|].
    assert (None = Some u) by (apply Hl; eauto). done.
  - destruct (Hrun l k eq_refl) as [Hcb Hpush]. destruct l as [|c l]; simplify_eq.
    + exists []. split; [|done]. apply phase_closed; simpl; try done.
      intros u p Hu. split.
      * destruct (closing p) eqn:Ecl; [|done]. specialize (Huniq' _ _ Hu Ecl) as ->.
        rewrite lookup_insert_eq in Hu. simplify_eq. by destruct k.
      * intros ->. apply lookup_insert_Some in Hu as [[_ ?]|[_ Hu]]; [by destruct k|by eapply Hpush].
    + exists l. split; [|by simpl; rewrite <- app_assoc].
      apply (phase_closing _ t (CRun l k)); simpl; try done; [by rewrite lookup_insert_eq|].
      intros l' k' _. split; [done|]. intros u [[<- ?]|[Hne Hu]]%lookup_insert_Some; [done|by eapply Hpush].
Qed.

(** [on_close] registers the callback, or runs it itself. *)
Lemma callbacks_push m t :
  callbacks_ok m -> threads m !! t = Some OPush ->
  callbacks_ok (mkMachine (set_lock None (set_callbacks (close_callbacks (session m) ++ [t]) (session m)))
    (<[t := Watching]> (threads m))).
Proof.
  intros (running & Hp & Hd & Hw) Ht.
  assert (t ∉ ran (session m) ++ running ++ close_callbacks (session m)) as Hn by (rewrite Hw; congruence).
  exists running. split.
  - destruct Hp as [H1 H2 H3 H4|w pc H1 H2 H3 H4 H5 H6|H1 H2 H3 H4].
    + constructor; simpl; try done. intros u p [[<- <-]|[? ?]]%lookup_insert_Some; eauto.
    + assert (w <> t) as Hne by (intros ->; simplify_eq).
      apply (phase_closing _ w pc); simpl; try done.
      * by rewrite lookup_insert_ne.
      * intros u p [[<- <-]|[? ?]]%lookup_insert_Some; [done|eauto].
      * intros l k E. destruct (H6 l k E) as [_ Ho]. by specialize (Ho t).
    + by destruct (H4 _ _ Ht).
  - cbn [session threads set_lock set_callbacks ran close_callbacks]. rewrite !app_assoc in *. split.
    + apply NoDup_app. split; [done|]. split; [set_solver|apply NoDup_singleton].
    + intros u. rewrite watching_new, <- Hw, elem_of_app, list_elem_of_singleton. tauto.
Qed.

Lemma callbacks_call m t :
  callbacks_ok m -> knows_ok m -> threads m !! t = Some OCall ->
  callbacks_ok (mkMachine (log_ran t (session m)) (<[t := Watching]> (threads m))).
Proof.
  intros (running & Hp & Hd & Hw) Hk Ht. specialize (Hk _ _ Ht eq_refl).
  assert (t ∉ ran (session m) ++ running ++ close_callbacks (session m)) as Hn by (rewrite Hw; congruence).
  exists running. split.
  - destruct Hp as [H1 H2 H3 H4|w pc H1 H2 H3 H4 H5 H6|H1 H2 H3 H4]; [congruence| |].
    + assert (w <> t) as Hne by (intros ->; simplify_eq).
      apply (phase_closing _ w pc); simpl; try done.
      * by rewrite lookup_insert_ne.
      * intros u p [[<- <-]|[? ?]]%lookup_insert_Some; [done|eauto].
      * intros l k E. destruct (H6 l k E) as [? Ho]. split; [done|].
        intros u [[_ ?]|[_ Hu]]%lookup_insert_Some; [done|by eapply Ho].
    + apply phase_closed; simpl; try done.
      intros u p [[<- <-]|[? ?]]%lookup_insert_Some; eauto.
  - cbn [session threads log_ran ran close_callbacks]. rewrite <- app_assoc. split.
    + rewrite (Permutation_app_comm [t]), app_assoc. apply NoDup_app.
      split; [done|]. split; [set_solver|apply NoDup_singleton].
    + intros u. rewrite watching_new, <- Hw. set_solver.
Qed.

Lemma callbacks_ok_step m m' : callbacks_ok m -> locks_ok m -> knows_ok m -> step m m' -> callbacks_ok m'.
Proof.
  intros Hcb Hlk Hk. destruct 1 as [m t pc He Ht|m t pc s' pc' Ht He|m t pc s' Ht He|m op r Ho|m r Hr Hh].
  - apply entry_plain in He as (_ & _ & ? & _ & _ & ? & ? & _).
    apply callbacks_frame; [done|by repeat split|congruence|done..].
  - destruct (close_actor pc) eqn:Ea.
    + destruct pc as [| | | | | | |k|k|k|l k| | | | | | | | | | | | | |]; try discriminate Ea;
        try (by eapply callbacks_winner).
      * destruct (terminal (session m)) eqn:Et; cbn [exec] in He; rewrite Et in He; simplify_eq.
        -- apply callbacks_frame; [done|by repeat split|intros pc E; by simplify_eq|..]; by destruct k.
        -- by apply callbacks_swap.
      * cbn [exec] in He. simplify_eq. by apply callbacks_push.
      * cbn [exec] in He. simplify_eq. by apply callbacks_call.
    + destruct (exec_neutral _ _ _ _ _ He (or_introl Ea)) as (? & ? & ? & ? & ? & ?).
      apply callbacks_frame; try done. intros p E. by simplify_eq.
  - apply callbacks_frame; try done; unfold cancel in He.
    + destruct pc; simplify_eq; by repeat split.
    + intros p E. destruct pc; simplify_eq; done.
  - by apply callbacks_threads.
  - by apply callbacks_threads.
Qed.

(** ** Operations *)

Definition taken (m : Machine) : nat :=
  if next_operation (session m) is Some _ then 1
  else match next_gate (session m) with
       | Some t => match threads m !! t with Some pc => if in_hand pc then 1 else 0 | None => 0 end
       | None => 0
       end.

Record ops_ok (m : Machine) : Prop := {
  o_pc : forall t pc, threads m !! t = Some pc -> pc_ok (session m) pc;
  o_flight : forall op, operations (session m) !! op = Some None -> next_operation (session m) = Some op;
  o_slot : forall op, next_operation (session m) = Some op -> S op = length (operations (session m));
  o_events : map (fun e => Some (Ok (Some e))) (returned (session m)) =
    take (length (returned (session m))) (operations (session m));
  o_taken : terminal (session m) = false ->
    length (operations (session m)) = length (returned (session m)) + taken m
}.

(** Actions that leave the operations alone. *)
Definition same_ops (s s' : Session) : Prop :=
  next_operation s' = next_operation s /\ operations s' = operations s /\ returned s' = returned s /\
  (terminal s = true -> terminal s' = true).

Lemma pc_ok_same s s' pc : same_ops s s' -> pc_ok s pc -> pc_ok s' pc.
Proof.
  intros (Hn & Ho & _). unfold pc_ok, stored. rewrite Hn, Ho. done.
Qed.

Lemma owner_lookup m t pc :
  locks_ok m -> threads m !! t = Some pc -> holds_gate pc = true -> next_gate (session m) = Some t.
Proof. intros [Hg _] Ht Hp. apply Hg. eauto. Qed.

Lemma holder_in_hand pc : in_hand pc = true -> holds_gate pc = true.
Proof. destruct pc as [| | | | | | |[]| | | | | | | | | | | | | | | | |]; done. Qed.

(** What the gate holder has in hand, whoever holds the gate. *)
Lemma in_hand_spec m : locks_ok m ->
  match next_gate (session m) with
  | Some t => match threads m !! t with Some pc => if in_hand pc then 1 else 0 | None => 0 end
  | None => 0
  end = 1 <-> exists t pc, threads m !! t = Some pc /\ in_hand pc = true.
Proof.
  intros Hl. split.
  - destruct (next_gate (session m)) as [t|]; [|done]. destruct (threads m !! t) as [pc|] eqn:E; [|done].
    destruct (in_hand pc) eqn:Ei; [eauto|done].
  - intros (t & pc & Ht & Hi). rewrite (owner_lookup _ _ _ Hl Ht (holder_in_hand _ Hi)), Ht, Hi. done.
Qed.

Lemma taken_le m : taken m <= 1.
Proof. unfold taken. repeat case_match; lia. Qed.

Lemma taken_spec m : locks_ok m ->
  taken m = 1 <-> is_Some (next_operation (session m)) \/ exists t pc, threads m !! t = Some pc /\ in_hand pc = true.
Proof.
  intros Hl. unfold taken. rewrite <- (in_hand_spec m Hl).
  destruct (next_operation (session m)); [naive_solver|]. split; [by right|].
  by intros [[? ?]|?].
Qed.

Lemma taken_eq m m' : locks_ok m -> locks_ok m' ->
  (is_Some (next_operation (session m)) \/ (exists t pc, threads m !! t = Some pc /\ in_hand pc = true) <->
   is_Some (next_operation (session m')) \/ (exists t pc, threads m' !! t = Some pc /\ in_hand pc = true)) ->
  taken m' = taken m.
Proof.
  intros Hl Hl' He. rewrite <- !taken_spec in He by done.
  pose proof (taken_le m). pose proof (taken_le m'). lia.
Qed.

Lemma in_hand_insert m s' t pc pc' : threads m !! t = Some pc -> in_hand pc = in_hand pc' ->
  (exists u p, threads m !! u = Some p /\ in_hand p = true) <->
  (exists u p, threads (mkMachine s' (<[t := pc']> (threads m))) !! u = Some p /\ in_hand p = true).
Proof.
  intros Ht Hi. cbn [threads]. setoid_rewrite lookup_insert_Some. split; intros (u & p & Hu & Hp).
  - destruct (decide (t = u)) as [->|]; [exists u, pc'|exists u, p]; naive_solver congruence.
  - destruct Hu as [[<- <-]|[? ?]]; [exists t, pc|exists u, p]; naive_solver congruence.
Qed.

Lemma ops_frame m s' t pc pc' :
  ops_ok m -> locks_ok m -> locks_ok (mkMachine s' (<[t := pc']> (threads m))) ->
  threads m !! t = Some pc -> same_ops (session m) s' -> pc_ok s' pc' ->
  (in_hand pc = in_hand pc' \/ terminal s' = true) ->
  ops_ok (mkMachine s' (<[t := pc']> (threads m))).
Proof.
  intros [Hpc Hf Hs Hev Htk] Hl Hl' Ht Hsame Hok Hi. pose proof Hsame as (Hn & Ho & Hr & Hterm).
  constructor; cbn [session threads]; rewrite ?Hn, ?Ho, ?Hr; try done.
  - intros u p [[<- <-]|[? ?]]%lookup_insert_Some; [done|]. eapply pc_ok_same; eauto.
  - intros Hfalse. destruct Hi as [Hi|?]; [|congruence].
    rewrite Htk by (destruct (terminal (session m)); [by rewrite Hterm in Hfalse|done]).
    f_equal. symmetry. apply taken_eq; [done..|].
    cbn [session]. rewrite Hn. by rewrite (in_hand_insert m s' t pc pc' Ht Hi).
Qed.

Lemma pc_ok_gateless s pc : holds_gate pc = false -> pc_ok s pc.
Proof. by destruct pc as [| | | | | | |[]| | | | | | | | | | | | | | | | |]. Qed.

(** The gate holder [t] moves; the other threads hold no operation. *)
Lemma pc_ok_holder m s' t pc pc' :
  locks_ok m -> threads m !! t = Some pc -> holds_gate pc = true -> pc_ok s' pc' ->
  forall u p, <[t := pc']> (threads m) !! u = Some p -> pc_ok s' p.
Proof.
  intros [Hg _] Ht Hh Hok u p [[<- <-]|[Hne Hu]]%lookup_insert_Some; [done|].
  apply pc_ok_gateless. destruct (holds_gate p) eqn:E; [|done]. exfalso. apply Hne.
  by eapply owns_unique.
Qed.

Lemma stored_lookup s op r : stored s op = Some r <-> operations s !! op = Some (Some r).
Proof.
  unfold stored. destruct (operations s !! op) as [[]|] eqn:E; simpl; split; intros; simplify_eq; done.
Qed.

(** The number of events returned never reaches an operation without an event. *)
Lemma returned_bound (l : list RawEvent) (ops : list (option BrowseOutcome)) op :
  map (fun e => Some (Ok (Some e))) l = take (length l) ops ->
  ops !! op = Some None -> length l <= op.
Proof.
  intros He Ho. destruct (decide (op < length l)) as [Hlt|]; [|lia]. exfalso.
  assert (map (fun e => Some (Ok (Some e))) l !! op = Some (None : option BrowseOutcome)) as Hm.
  { rewrite He. by rewrite lookup_take_lt. }
  apply list_lookup_fmap_Some in Hm as (? & ? & ?). done.
Qed.

Lemma ops_spawn m t :
  ops_ok m -> locks_ok m -> threads m !! t = Some NSlot -> next_operation (session m) = None ->
  let s' := set_slot (Some (length (operations (session m))))
              (set_operations (operations (session m) ++ [None]) (session m)) in
  ops_ok (mkMachine s' (<[t := NWait (length (operations (session m)))]> (threads m))).
Proof.
  intros [Hpc Hf Hs Hev Htk] Hl Ht Hn s'. constructor; cbn [session threads].
  - by apply (pc_ok_holder m s' t NSlot).
  - intros op. cbn. rewrite lookup_app_Some. intros [Ho|[Hge Ho]].
    + apply Hf in Ho. congruence.
    + destruct (op - length (operations (session m))) eqn:E; [|done]. f_equal. lia.
  - cbn. intros op [= <-]. rewrite length_app. simpl. lia.
  - cbn. rewrite take_app_le; [done|]. apply (f_equal length) in Hev.
    rewrite length_fmap, length_take in Hev. lia.
  - intros Hterm. unfold taken. cbn. rewrite length_app. simpl. specialize (Htk Hterm).
    unfold taken in Htk. rewrite Hn, (owner_lookup _ _ _ Hl Ht eq_refl), Ht in Htk. simpl in Htk. lia.
Qed.

Lemma ops_clear m t op r :
  ops_ok m -> locks_ok m -> threads m !! t = Some (NClear op r) ->
  ops_ok (mkMachine (clear_operation op (session m)) (<[t := NTerminal op r]> (threads m))).
Proof.
  intros [Hpc Hf Hs Hev Htk] Hl Ht. destruct (Hpc _ _ Ht) as [Hslot Hst].
  unfold clear_operation. rewrite bool_decide_eq_true_2 by done.
  constructor; cbn [session threads].
  - apply (pc_ok_holder m _ t (NClear op r)); [done..|]. by split_and!; auto.
  - cbn. intros op' Ho. pose proof (Hf _ Ho) as Hf'. assert (op' = op) as -> by congruence.
    apply stored_lookup in Hst. congruence.
  - done.
  - done.
  - cbn. intros Hterm. rewrite (Htk Hterm). unfold taken. cbn. rewrite Hslot.
    by rewrite (owner_lookup _ _ _ Hl Ht eq_refl), lookup_insert_eq.
Qed.

Lemma ops_return m t op e :
  ops_ok m -> locks_ok m -> threads m !! t = Some (NTerminal op (Ok (Some e))) -> terminal (session m) = false ->
  ops_ok (mkMachine (log_returned e (session m)) (<[t := NReturn (Ok (Some e))]> (threads m))).
Proof.
  intros [Hpc Hf Hs Hev Htk] Hl Ht Hterm. destruct (Hpc _ _ Ht) as (Hslot & Hlast & Hst).
  specialize (Htk Hterm). unfold taken in Htk.
  rewrite Hslot, (owner_lookup _ _ _ Hl Ht eq_refl), Ht in Htk. simpl in Htk.
  apply stored_lookup in Hst. assert (op = length (returned (session m))) as -> by lia.
  constructor; cbn [session threads]; cbn.
  - by apply (pc_ok_holder m _ t (NTerminal (length (returned (session m))) (Ok (Some e)))).
  - done.
  - done.
  - rewrite map_app, length_app, Hev. simpl. rewrite Nat.add_1_r. symmetry. by apply take_S_r.
  - intros _. unfold taken. cbn. rewrite Hslot, (owner_lookup _ _ _ Hl Ht eq_refl), lookup_insert_eq.
    rewrite length_app. simpl. lia.
Qed.

Lemma ops_wait_clear m t op :
  ops_ok m -> locks_ok m -> knows_ok m -> threads m !! t = Some (WClear op) ->
  ops_ok (mkMachine (clear_operation op (session m)) (<[t := WClosed]> (threads m))).
Proof.
  intros [Hpc Hf Hs Hev Htk] Hl Hk Ht. destruct (Hpc _ _ Ht) as [Hslot [r Hst]].
  unfold clear_operation. rewrite bool_decide_eq_true_2 by done. specialize (Hk _ _ Ht eq_refl).
  constructor; cbn [session threads]; cbn; try done.
  - by apply (pc_ok_holder m _ t (WClear op)).
  - intros op' Ho. pose proof (Hf _ Ho) as Hf'. assert (op' = op) as -> by congruence.
    apply stored_lookup in Hst. congruence.
  - congruence.
Qed.

Lemma ops_complete m op r :
  ops_ok m -> operations (session m) !! op = Some None ->
  ops_ok (mkMachine (set_operations (<[op := Some r]> (operations (session m))) (session m)) (threads m)).
Proof.
  intros [Hpc Hf Hs Hev Htk] Ho. constructor; cbn [session threads]; cbn; rewrite ?length_insert; try done.
  - intros t pc Ht. specialize (Hpc _ _ Ht).
    assert (forall op' x, stored (session m) op' = Some x ->
      stored (set_operations (<[op := Some r]> (operations (session m))) (session m)) op' = Some x) as Hst.
    { intros op' x Hx%stored_lookup. apply stored_lookup. cbn. rewrite list_lookup_insert_ne; [done|].
      intros ->. congruence. }
    unfold pc_ok, is_Some in *. destruct pc as [| | | | | | |[]| | | | | | | | | | | | | | | | |]; cbn;
      rewrite ?length_insert; naive_solver.
  - intros op' Ho'. destruct (decide (op' = op)) as [->|Hne]; [by apply Hf|].
    rewrite list_lookup_insert_ne in Ho' by done. by apply Hf.
  - rewrite Hev. symmetry. apply take_insert_ge. by eapply returned_bound.
Qed.

Lemma same_ops_refl s : same_ops s s.
Proof. by repeat split. Qed.

Ltac ops_frame := eapply ops_frame; [eassumption..|by repeat split| |].

Lemma ops_exec m t pc s' pc' :
  ops_ok m -> locks_ok m -> knows_ok m -> locks_ok (mkMachine s' (<[t := pc']> (threads m))) ->
  threads m !! t = Some pc -> exec t pc (session m) = Some (s', pc') ->
  ops_ok (mkMachine s' (<[t := pc']> (threads m))).
Proof.
  intros Hops Hl Hk Hl' Ht He. pose proof (o_pc _ Hops _ _ Ht) as Hok.
  destruct pc as [| | |op|op r|op r|r|k|k|k|l k| | | | | | |op|op| | | | | |]; cbn [exec] in He;
    try discriminate He; try (repeat case_match; simplify_eq; ops_frame; [by apply pc_ok_gateless|by left]).
  - (* NGate *) case_match; simplify_eq; ops_frame; by auto.
  - (* NCheck *) simplify_eq. destruct (terminal (session m)); ops_frame; by auto.
  - (* NSlot *)
    unfold join_or_spawn in He. destruct (next_operation (session m)) as [op|] eqn:En; simplify_eq.
    + ops_frame; [exact En|by left].
    + by apply ops_spawn.
  - (* NWait *)
    destruct (stored (session m) op) as [r|] eqn:Es; simplify_eq. ops_frame; [by split|by left].
  - (* NClear *) simplify_eq. by apply ops_clear.
  - (* NTerminal *)
    destruct (terminal (session m)) eqn:Et; simplify_eq.
    { ops_frame; [done|by right]. }
    destruct Hok as (? & ? & ?).
    destruct r as [[e|]|e]; simplify_eq; [by eapply ops_return|ops_frame; [done|by left]..].
  - (* CSwap *)
    destruct (terminal (session m)) eqn:Et; simplify_eq; ops_frame; try (by right); by destruct k.
  - (* CRequest *) simplify_eq. ops_frame; [by destruct k|left; by destruct k].
  - (* CTake *) case_match; simplify_eq. ops_frame; [by destruct k|left; by destruct k].
  - (* CRun *) destruct l; simplify_eq; ops_frame; try (by destruct k); left; by destruct k.
  - (* OLoad *) case_match; simplify_eq; ops_frame; by auto.
  - (* WGate *) case_match; simplify_eq; ops_frame; by auto.
  - (* WSlot *)
    destruct (next_operation (session m)) as [op|] eqn:En; simplify_eq; ops_frame; by auto.
  - (* WWait *)
    destruct (stored (session m) op) as [r|] eqn:Es; simplify_eq. ops_frame; [|by left].
    split; [done|]. by exists r.
  - (* WClear *) simplify_eq. by apply ops_wait_clear.
Qed.

Lemma ops_ok_step m m' : ops_ok m -> locks_ok m -> knows_ok m -> step m m' -> ops_ok m'.
Proof.
  intros Hops Hl Hk Hstep. pose proof (locks_ok_step _ _ Hl Hstep) as Hl'.
  destruct Hstep as [m t pc He Ht|m t pc s' pc' Ht He|m t pc s' Ht He|m op r Ho|m r Hr Hh].
  - apply entry_plain in He as (_ & _ & _ & _ & Hi & _ & _ & Hok).
    destruct Hops as [Hpc Hf Hs Hev Htk]. constructor; cbn [session threads]; try done.
    + intros u p [[<- <-]|[? ?]]%lookup_insert_Some; eauto.
    + intros Hfalse. rewrite (Htk Hfalse). f_equal. symmetry. apply taken_eq; [done..|]. cbn [session threads].
      setoid_rewrite lookup_insert_Some. naive_solver congruence.
  - by eapply ops_exec.
  - assert (same_ops (session m) s') by (unfold cancel in He; destruct pc; simplify_eq; by repeat split).
    eapply (ops_frame _ _ _ pc); try done. left. unfold cancel in He. by destruct pc.
  - by apply ops_complete.
  - destruct Hops as [Hpc Hf Hs Hev Htk]. constructor; try done.
Qed.

Record inv (m : Machine) : Prop := {
  i_locks : locks_ok m;
  i_knows : knows_ok m;
  i_callbacks : callbacks_ok m;
  i_ops : ops_ok m
}.

Lemma browse_reachable_inv m : reachable m -> inv m.
Proof.
  intros Hr. apply (rtc_invariant step inv machine_new m); [|done|].
  { intros x y Hs [? ? ? ?]. constructor; eauto using locks_ok_step, knows_ok_step, callbacks_ok_step, ops_ok_step. }
  - constructor.
    + split; intros t; cbn; rewrite lookup_empty; naive_solver.
    + intros t pc. cbn. by rewrite lookup_empty.
    + exists []. split; [|split; [constructor|]].
      * by constructor.
      * intros t. cbn. rewrite lookup_empty. set_solver.
    + by constructor.
Qed.

(** ** Theorems *)

(** C13. No event is lost to a cancelled [next], and none is reported twice.  In
    every interleaving of calls, cancellations and answers of the platform
    handle, at most one [handle.next()] is in flight, it is the operation in
    the slot, and the events [next] has returned are the first answers of the
    handle, in order; while the session is open at most the last answer is
    still to be returned, and when no call holds the gate that one is kept in
    the slot for the next caller. *)
Theorem browse_loses_no_event (m : Machine) :
  reachable m ->
  let s := session m in
  (forall op, operations s !! op = Some None -> next_operation s = Some op /\ S op = length (operations s)) /\
  map (fun e => Some (Ok (Some e))) (returned s) = take (length (returned s)) (operations s) /\
  (terminal s = false ->
     length (returned s) <= length (operations s) <= S (length (returned s)) /\
     (next_gate s = None ->
        length (operations s) = length (returned s) + (if next_operation s is Some _ then 1 else 0))).
Proof.
  intros Hr. destruct (browse_reachable_inv _ Hr) as [_ _ _ [_ Hf Hs Hev Htk]]. cbn. split_and!.
  - intros op Ho. specialize (Hf _ Ho). auto.
  - done.
  - intros Hopen. specialize (Htk Hopen). pose proof (taken_le m). split; [lia|].
    intros Hg. unfold taken in Htk. by rewrite Hg in Htk.
Qed.

(** A [next] that is dropped while the handle works: the answer goes to the
    following [next]. *)
Definition an_event : RawEvent := Remove "_app._udp.local." "node".
Definition cancelled_then_polled : Machine :=
  mkMachine
    (mkSession None None [Some (Ok (Some an_event))] false None [] 0 None [] [an_event])
    (<[1 := Returned (Ok (Some an_event))]> (<[0 := Dropped]> ∅)).

Ltac run_thread t :=
  eapply rtc_l; [eapply (step_exec _ t); [reflexivity|reflexivity]|]; cbn.

Lemma cancelled_then_polled_reachable : reachable cancelled_then_polled.
Proof.
  unfold reachable, cancelled_then_polled.
  eapply rtc_l; [apply (step_call _ 0); [apply call_next|reflexivity]|]; cbn.
  do 3 run_thread 0.
  eapply rtc_l; [eapply (step_cancel _ 0); [reflexivity|reflexivity]|]; cbn.
  eapply rtc_l; [apply (step_complete _ 0 (Ok (Some an_event))); reflexivity|]; cbn.
  eapply rtc_l; [apply (step_call _ 1); [apply call_next|reflexivity]|]; cbn.
  do 7 run_thread 1.
  apply rtc_refl.
Qed.

Lemma browse_loses_no_event_witness :
  returned (session cancelled_then_polled) = [an_event] /\
  length (operations (session cancelled_then_polled)) = 1.
Proof.
  destruct (browse_loses_no_event cancelled_then_polled cancelled_then_polled_reachable) as (_ & He & Ho).
  split; [reflexivity|]. by destruct (Ho eq_refl) as [_ ->].
Defined.

(** Closing happens once and reaches every callback once.  The handle gets
    at most one close request; no callback runs before the session is closed
    and none runs twice, whichever of [close], [drop], the end of the stream or
    a failed [next] closes the session and however registrations race with it;
    and once the closing call has left [close], the callbacks that ran are
    exactly those whose [on_close] has returned. *)
Theorem browse_close_exactly_once (m : Machine) :
  reachable m ->
  let s := session m in
  close_requests s <= 1 /\
  NoDup (ran s) /\
  (forall t, t ∈ ran s -> terminal s = true /\ threads m !! t = Some Watching) /\
  (terminal s = true -> (forall t pc, threads m !! t = Some pc -> closing pc = false) ->
     close_requests s = 1 /\ forall t, threads m !! t = Some Watching <-> t ∈ ran s).
Proof.
  intros Hr. destruct (browse_reachable_inv _ Hr) as [_ _ (running & Hp & Hd & Hw) _]. cbn.
  apply NoDup_app in Hd as (Hd1 & _ & _).
  assert (forall t, t ∈ ran (session m) -> threads m !! t = Some Watching) as Hin.
  { intros t Ht. apply Hw. set_solver. }
  destruct Hp as [H1 H2 H3 H4|w pc H1 H2 H3 H4 H5 H6|H1 H2 H3 H4].
  - rewrite H2. split_and!; [lia|done| |congruence]. rewrite H3. set_solver.
  - split_and!; [rewrite H5; case_match; lia|done|auto|].
    intros _ Hnone. specialize (Hnone _ _ H2). congruence.
  - split_and!; [lia|done|auto|]. intros _ _. split; [done|]. intros t.
    rewrite <- Hw, H3. cbn. by rewrite app_nil_r.
Qed.

(** A callback registered before [close], and one after. *)
Definition closed_with_callbacks : Machine :=
  mkMachine (mkSession None None [] true None [] 1 None [0; 2] [])
    (<[2 := Watching]> (<[1 := Finished]> (<[0 := Watching]> ∅))).

Lemma closed_with_callbacks_reachable : reachable closed_with_callbacks.
Proof.
  unfold reachable, closed_with_callbacks.
  eapply rtc_l; [apply (step_call _ 0); [apply call_on_close|reflexivity]|]; cbn.
  do 3 run_thread 0.
  eapply rtc_l; [apply (step_call _ 1); [apply call_close|reflexivity]|]; cbn.
  do 5 run_thread 1.
  eapply rtc_l; [apply (step_call _ 2); [apply call_on_close|reflexivity]|]; cbn.
  do 3 run_thread 2.
  apply rtc_refl.
Qed.

Lemma browse_close_exactly_once_witness :
  NoDup (ran (session closed_with_callbacks)) /\ close_requests (session closed_with_callbacks) = 1.
Proof.
  destruct (browse_close_exactly_once closed_with_callbacks closed_with_callbacks_reachable) as (_ & Hd & _).
  split; [exact Hd|reflexivity].
Defined.

(** The handle has answered what was asked of it: every [next], and the close
    request, if there was one. *)
Definition handle_answered (m : Machine) : Prop :=
  (forall op, operations (session m) !! op <> Some None) /\
  (close_requests (session m) <> 0 -> handle_closed (session m) <> None).

Definition finished (pc : Pc) : bool :=
  match pc with Returned _ | Closed _ | Finished | Watching | Dropped => true | _ => false end.

Definition runnable (m : Machine) : Prop :=
  exists t pc, threads m !! t = Some pc /\ is_Some (exec t pc (session m)).

(** The holder of the callbacks' lock never waits. *)
Lemma lock_runnable m t : inv m -> callbacks_lock (session m) = Some t -> runnable m.
Proof.
  intros Hi Ht. apply (i_locks _ Hi) in Ht as (pc & Ht & Hp). exists t, pc. split; [done|].
  destruct pc; try discriminate Hp; cbn [exec]; repeat case_match; eauto.
Qed.

Lemma closing_runnable m t pc :
  inv m -> threads m !! t = Some pc -> closing pc = true -> runnable m.
Proof.
  intros Hi Ht Hc. destruct pc as [| | | | | | | |k|k|l k| | | | | | | | | | | | | |]; try discriminate Hc.
  - exists t, (CRequest k). eauto.
  - destruct (callbacks_lock (session m)) as [u|] eqn:El; [by eapply lock_runnable|].
    exists t, (CTake k). cbn [exec]. rewrite El. eauto.
  - exists t, (CRun l k). split; [done|]. cbn [exec]. destruct l; eauto.
Qed.

(** An operation in the slot has its answer. *)
Lemma answered_stored m op :
  inv m -> handle_answered m -> next_operation (session m) = Some op -> is_Some (stored (session m) op).
Proof.
  intros Hi [Hops _] Hs. pose proof (o_slot _ (i_ops _ Hi) _ Hs) as Hlen.
  destruct (lookup_lt_is_Some_2 (operations (session m)) op ltac:(lia)) as [[r|] E].
  - exists r. by apply stored_lookup.
  - by apply Hops in E.
Qed.

Lemma gate_runnable m t pc :
  inv m -> handle_answered m -> threads m !! t = Some pc -> holds_gate pc = true -> runnable m.
Proof.
  intros Hi Ha Ht Hg. destruct (closing pc) eqn:Ec; [by eapply closing_runnable|].
  pose proof (o_pc _ (i_ops _ Hi) _ _ Ht) as Hok.
  assert (pc = WClosed \/ pc <> WClosed) as [->|Hne] by (destruct pc; auto).
  - destruct (handle_closed (session m)) as [r|] eqn:Eh.
    { exists t, WClosed. split; [done|]. cbn [exec]. rewrite Eh. eauto. }
    pose proof (i_knows _ Hi _ _ Ht eq_refl) as Hterm.
    destruct (i_callbacks _ Hi) as (running & Hp & _).
    destruct Hp as [H1|w p H1 H2 H3|H1 H2]; [congruence|by eapply closing_runnable|].
    exfalso. apply Ha; [lia|done].
  - exists t, pc. split; [done|].
    destruct pc as [| | |op|op r|op r|r|k| | | | | | | | | |op|op| | | | | |];
      try discriminate Hg; try discriminate Ec; cbn [exec]; try done; eauto.
    + destruct (join_or_spawn (session m)). eauto.
    + destruct (answered_stored m op) as [r ->]; eauto.
    + repeat case_match; eauto.
    + case_match; eauto.
    + case_match; eauto.
    + destruct (answered_stored m op) as [r ->]; eauto.
Qed.

(** No call is stuck.  Whenever the platform handle has answered what was
    asked of it, either every call has finished or some call can take its next
    step: neither the gate, nor the lock of the callbacks, nor a call cancelled
    while it held them can leave [next], [close], [on_close] and [wait_closed]
    waiting for each other. *)
Theorem browse_progress (m : Machine) (t : nat) (pc : Pc) :
  reachable m -> handle_answered m -> threads m !! t = Some pc -> finished pc = false -> runnable m.
Proof.
  intros Hr Ha Ht Hf. pose proof (browse_reachable_inv _ Hr) as Hi.
  destruct (holds_gate pc) eqn:Eg; [by eapply gate_runnable|].
  destruct (closing pc) eqn:Ec; [by eapply closing_runnable|].
  assert (forall u, next_gate (session m) = Some u -> runnable m) as Hgate.
  { intros u Hu. apply (i_locks _ Hi) in Hu as (p & Hu & Hp). by eapply gate_runnable. }
  assert (forall u, callbacks_lock (session m) = Some u -> runnable m) as Hlock.
  { intros u Hu. by eapply lock_runnable. }
  destruct pc as [| | | | | | |k| | | | | | | | | | | | | | | | |]; try discriminate; try discriminate Hf;
    destruct (next_gate (session m)) eqn:E1, (callbacks_lock (session m)) eqn:E2; eauto;
    (eexists t, _; split; [exact Ht|]; cbn [exec]; rewrite ?E1, ?E2; repeat case_match; eauto).
Qed.

Lemma browse_progress_witness :
  runnable (mkMachine (set_gate (Some 0) session_new) (<[1 := NGate]> (<[0 := NCheck]> ∅))).
Proof.
  apply (browse_progress
    (mkMachine (set_gate (Some 0) session_new) (<[1 := NGate]> (<[0 := NCheck]> ∅))) 1 NGate).
  - unfold reachable. eapply rtc_l; [apply (step_call _ 0); [apply call_next|reflexivity]|]; cbn.
    run_thread 0. eapply rtc_l; [apply (step_call _ 1); [apply call_next|reflexivity]|]; cbn. apply rtc_refl.
  - split; [done|]. intros Hn. by destruct Hn.
  - reflexivity.
  - reflexivity.
Defined.
