(* ===== verification/AdvertEngine.v ===== *)
(** * Advertisement sessions (iroh-http-discovery: engine/session.rs)

    [engine::AdvertisementSession] as a machine of interleaved calls of
    [update], [close] and [wait_closed], in the style of [BrowseEngine].  The
    task an update spawns is part of the machine; the platform handle answers
    [handle.update()] in [step_native], and [published] is what it then shows
    on the network.  Once a close was requested the platform withdraws it
    ([step_withdraw]): as its contract says, after the update in flight has been
    answered, and it accepts no update afterwards. *)

From stdpp Require Import base numbers list strings gmap fin_maps relations sets.
From Stdlib Require Import ZArith Lia.
From S2P Require Import Prelude Threads DnsSd.

Open Scope string_scope.
Open Scope list_scope.

Abbreviation Update := AdvertisementUpdate.
Abbreviation NativeResult := (Result unit TransportError).
Abbreviation UpdateOutcome := (Update * NativeResult)%type.
Abbreviation UpdateResult := (Result bool TransportError).

(** What follows a call of [close]. *)
Inductive Cont :=
| KError (u : Update) (error : TransportError)  (** a failed [update] *)
| KWait                                        (** the rest of [wait_closed] *)
| KDone.

Inductive Pc :=
(** [update] *)
| UGate (u : Update)
| UPrevious (u : Update)
| UWaitPrevious (u : Update) (op : nat)
| UClearPrevious (u : Update) (op : nat) (o : UpdateOutcome)
| UCollect (u : Update) (o : UpdateOutcome)
| UClosed (u : Update)
| UCompare (u : Update)
| USpawn (u : Update)
| UWait (u : Update) (op : nat)
| UClear (u : Update) (op : nat) (o : UpdateOutcome)
| UFinish (u : Update) (o : UpdateOutcome)
| UReturn (u : Update) (r : UpdateResult)
(** [close] *)
| CSwap (k : Cont)
| CRequest (k : Cont)
(** [wait_closed], after its [close] *)
| WGate
| WSlot
| WWait (op : nat)
| WClear (op : nat)
| WClosed
(** finished *)
| Returned (u : Update) (r : UpdateResult)
| Closed (r : NativeResult)
| Finished
| Dropped.

(** The task of an operation: in [handle.update()], past it, at the close
    request of a failed update, and at [complete]. *)
Inductive Task :=
| TNative (u : Update)
| TCheck (u : Update) (r : NativeResult)
| TRequest (u : Update) (r : NativeResult)
| TComplete (u : Update) (r : NativeResult).

Record Session := mkSession {
  update_gate : option nat;
  update_operation : option nat;
  operations : list (option UpdateOutcome);
  tasks : gmap nat Task;
  current_update : option Update;
  closed : bool;
  close_requests : nat;
  handle_closed : option NativeResult;
  published : option Update;
  native_stopped : bool
}.

Definition set_gate g s := mkSession g (update_operation s) (operations s) (tasks s) (current_update s)
  (closed s) (close_requests s) (handle_closed s) (published s) (native_stopped s).
Definition set_slot o s := mkSession (update_gate s) o (operations s) (tasks s) (current_update s)
  (closed s) (close_requests s) (handle_closed s) (published s) (native_stopped s).
Definition set_operations l s := mkSession (update_gate s) (update_operation s) l (tasks s) (current_update s)
  (closed s) (close_requests s) (handle_closed s) (published s) (native_stopped s).
Definition set_tasks l s := mkSession (update_gate s) (update_operation s) (operations s) l (current_update s)
  (closed s) (close_requests s) (handle_closed s) (published s) (native_stopped s).
Definition set_current u s := mkSession (update_gate s) (update_operation s) (operations s) (tasks s) (Some u)
  (closed s) (close_requests s) (handle_closed s) (published s) (native_stopped s).
Definition set_closed s := mkSession (update_gate s) (update_operation s) (operations s) (tasks s) (current_update s)
  true (close_requests s) (handle_closed s) (published s) (native_stopped s).
Definition request_close s := mkSession (update_gate s) (update_operation s) (operations s) (tasks s) (current_update s)
  (closed s) (S (close_requests s)) (handle_closed s) (published s) (native_stopped s).
Definition set_handle_closed r s := mkSession (update_gate s) (update_operation s) (operations s) (tasks s) (current_update s)
  (closed s) (close_requests s) (Some r) (published s) (native_stopped s).
Definition set_published u s := mkSession (update_gate s) (update_operation s) (operations s) (tasks s) (current_update s)
  (closed s) (close_requests s) (handle_closed s) (Some u) (native_stopped s).
Definition withdraw s := mkSession (update_gate s) (update_operation s) (operations s) (tasks s) (current_update s)
  (closed s) (close_requests s) (handle_closed s) None true.

(** [from_parts]: [new] passes no initial data, [with_initial] what the
    transport already published. *)
Definition from_parts (initial : option Update) : Session :=
  mkSession None None [] ∅ initial false 0 None initial false.

Definition clear_operation (completed : nat) (s : Session) : Session :=
  if bool_decide (update_operation s = Some completed) then set_slot None s else s.

Definition continue (k : Cont) : Pc :=
  match k with KError u error => UReturn u (Err error) | KWait => WGate | KDone => Finished end.

Definition stored (s : Session) (op : nat) : option UpdateOutcome := operations s !! op ≫= id.

Definition spawn (u : Update) (s : Session) : Session * nat :=
  let op := length (operations s) in
  (set_tasks (<[op := TNative u]> (tasks s))
     (set_slot (Some op) (set_operations (operations s ++ [None]) s)), op).

(** One atomic action of thread [t]; [None] when it has to wait or is finished. *)
Definition exec (t : nat) (pc : Pc) (s : Session) : option (Session * Pc) :=
  match pc with
  | UGate u => match update_gate s with None => Some (set_gate (Some t) s, UPrevious u) | Some _ => None end
  | UPrevious u =>
      match update_operation s with
      | Some op => Some (s, UWaitPrevious u op)
      | None => Some (s, UClosed u)
      end
  | UWaitPrevious u op => match stored s op with Some o => Some (s, UClearPrevious u op o) | None => None end
  | UClearPrevious u op o => Some (clear_operation op s, UCollect u o)
  | UCollect u (completed, r) =>
      match r with
      | Err error => Some (s, CSwap (KError u error))
      | Ok _ => Some (set_current completed s, UClosed u)
      end
  | UClosed u =>
      if closed s then Some (s, UReturn u (Err "advertisement is closed")) else Some (s, UCompare u)
  | UCompare u =>
      if bool_decide (current_update s = Some u) then Some (s, UReturn u (Ok false)) else Some (s, USpawn u)
  | USpawn u => let '(s, op) := spawn u s in Some (s, UWait u op)
  | UWait u op => match stored s op with Some o => Some (s, UClear u op o) | None => None end
  | UClear u op o => Some (clear_operation op s, UFinish u o)
  | UFinish u (completed, r) =>
      match r with
      | Ok _ => Some (set_current completed s, UReturn u (Ok true))
      | Err error => Some (s, CSwap (KError u error))
      end
  | UReturn u r => Some (set_gate None s, Returned u r)
  | CSwap k => if closed s then Some (s, continue k) else Some (set_closed s, CRequest k)
  | CRequest k => Some (request_close s, continue k)
  | WGate => match update_gate s with None => Some (set_gate (Some t) s, WSlot) | Some _ => None end
  | WSlot => match update_operation s with Some op => Some (s, WWait op) | None => Some (s, WClosed) end
  | WWait op => match stored s op with Some _ => Some (s, WClear op) | None => None end
  | WClear op => Some (clear_operation op s, WClosed)
  | WClosed => match handle_closed s with Some r => Some (set_gate None s, Closed r) | None => None end
  | Returned _ _ | Closed _ | Finished | Dropped => None
  end.

(** One atomic action of the task of [op], once its [handle.update()] is done. *)
Definition exec_task (op : nat) (task : Task) (s : Session) : option Session :=
  match task with
  | TNative _ => None
  | TCheck u (Ok _ as r) => Some (set_tasks (<[op := TComplete u r]> (tasks s)) s)
  | TCheck u (Err _ as r) =>
      if closed s then Some (set_tasks (<[op := TComplete u r]> (tasks s)) s)
      else Some (set_tasks (<[op := TRequest u r]> (tasks s)) (set_closed s))
  | TRequest u r => Some (set_tasks (<[op := TComplete u r]> (tasks s)) (request_close s))
  | TComplete u r =>
      Some (set_tasks (delete op (tasks s)) (set_operations (<[op := Some (u, r)]> (operations s)) s))
  end.

(** Dropping a future while it is suspended; the task it spawned goes on. *)
Definition cancel (pc : Pc) (s : Session) : option Session :=
  match pc with
  | UGate _ | WGate => Some s
  | UWaitPrevious _ _ | UWait _ _ | WWait _ | WClosed => Some (set_gate None s)
  | _ => None
  end.

Inductive entry : Pc -> Prop :=
| call_update u : entry (UGate u)
| call_close : entry (CSwap KDone)
| call_wait_closed : entry (CSwap KWait).

Record Machine := mkMachine { session : Session; threads : gmap nat Pc }.

Inductive step : Machine -> Machine -> Prop :=
| step_call m t pc :
    entry pc -> threads m !! t = None ->
    step m (mkMachine (session m) (<[t := pc]> (threads m)))
| step_exec m t pc s' pc' :
    threads m !! t = Some pc -> exec t pc (session m) = Some (s', pc') ->
    step m (mkMachine s' (<[t := pc']> (threads m)))
| step_cancel m t pc s' :
    threads m !! t = Some pc -> cancel pc (session m) = Some s' ->
    step m (mkMachine s' (<[t := Dropped]> (threads m)))
| step_native m op u r :
    tasks (session m) !! op = Some (TNative u) -> (is_ok r = true -> native_stopped (session m) = false) ->
    step m (mkMachine (set_tasks (<[op := TCheck u r]> (tasks (session m)))
                         (if is_ok r then set_published u (session m) else session m)) (threads m))
| step_task m op task s' :
    tasks (session m) !! op = Some task -> exec_task op task (session m) = Some s' ->
    step m (mkMachine s' (threads m))
| step_withdraw m :
    close_requests (session m) <> 0 -> (forall op u, tasks (session m) !! op <> Some (TNative u)) ->
    step m (mkMachine (withdraw (session m)) (threads m))
| step_acknowledge m r :
    close_requests (session m) <> 0 -> handle_closed (session m) = None ->
    step m (mkMachine (set_handle_closed r (session m)) (threads m)).

Definition reachable_from (initial : option Update) (m : Machine) : Prop :=
  rtc step (mkMachine (from_parts initial) ∅) m.

(** * Properties of advertisement sessions

    [current_update] is what the platform publishes, so that leaving out an
    unchanged update is sound; one native update at a time; a failed update
    closes the session. *)

(** ** The invariant *)

Definition holds_gate (pc : Pc) : bool :=
  match pc with
  | UPrevious _ | UWaitPrevious _ _ | UClearPrevious _ _ _ | UCollect _ _ | UClosed _ | UCompare _
  | USpawn _ | UWait _ _ | UClear _ _ _ | UFinish _ _ | UReturn _ _
  | CSwap (KError _ _) | CRequest (KError _ _) | WSlot | WWait _ | WClear _ | WClosed => true
  | _ => false
  end.

(** The session was closed and the platform has withdrawn the advertisement. *)
Definition withdrawn (s : Session) : Prop := closed s = true /\ native_stopped s = true /\ published s = None.

(** The platform shows [u], or nothing any more. *)
Definition shows (s : Session) (u : Update) : Prop := published s = Some u \/ withdrawn s.

(** A successful update is what is published, a failed one has closed the session. *)
Definition result_ok (s : Session) (o : UpdateOutcome) : Prop :=
  match o.2 with Ok _ => shows s o.1 | Err _ => closed s = true end.

(** The record of what is published is right, or no longer used. *)
Definition recorded (s : Session) : Prop := current_update s = published s \/ withdrawn s.
Definition current_ok (s : Session) : Prop := recorded s \/ closed s = true.

Definition task_update (task : Task) : Update :=
  match task with TNative u | TCheck u _ | TRequest u _ | TComplete u _ => u end.

Definition task_ok (s : Session) (task : Task) : Prop :=
  match task with
  | TNative _ => current_ok s
  | TCheck u (Ok _) => shows s u
  | TCheck _ (Err _) => True
  | TRequest u r => closed s = true /\ is_ok r = false
  | TComplete u r => result_ok s (u, r)
  end.

(** Operation [op] is the update [u], under way or done. *)
Definition op_of (s : Session) (op : nat) (u : Update) : Prop :=
  (exists task, tasks s !! op = Some task /\ task_update task = u) \/ (exists r, stored s op = Some (u, r)).

Definition pc_ok (s : Session) (pc : Pc) : Prop :=
  match pc with
  | UWaitPrevious _ op => update_operation s = Some op
  | UWait u op => update_operation s = Some op /\ op_of s op u
  | UClearPrevious _ op o => update_operation s = Some op /\ stored s op = Some o
  | UClear u op o => update_operation s = Some op /\ stored s op = Some o /\ o.1 = u
  | UCollect _ o => update_operation s = None /\ result_ok s o
  | UFinish u o => update_operation s = None /\ result_ok s o /\ o.1 = u
  | UClosed _ => update_operation s = None /\ current_ok s
  | UCompare _ | USpawn _ => update_operation s = None /\ recorded s
  | UReturn u (Ok _) => update_operation s = None /\ shows s u /\ current_update s = Some u
  | UPrevious _ => update_operation s = None -> current_ok s
  | UReturn _ (Err _) | CSwap (KError _ _) | CRequest _ | WGate | WSlot | WClosed => closed s = true
  | WWait op => closed s = true /\ update_operation s = Some op
  | WClear op => closed s = true /\ update_operation s = Some op /\ is_Some (stored s op)
  | _ => True
  end.

Record sess_ok (s : Session) : Prop := {
  s_tasks : forall op, operations s !! op = Some None <-> is_Some (tasks s !! op);
  s_flight : forall op, operations s !! op = Some None -> update_operation s = Some op;
  s_slot : forall op, update_operation s = Some op -> S op = length (operations s);
  s_task : forall op task, tasks s !! op = Some task -> task_ok s task;
  s_stored : forall op o, update_operation s = Some op -> stored s op = Some o -> result_ok s o;
  s_idle : update_gate s = None -> update_operation s = None -> current_ok s;
  s_requests : close_requests s <> 0 -> closed s = true
}.

Record inv (m : Machine) : Prop := {
  i_gate : owns holds_gate (update_gate (session m)) (threads m);
  i_sess : sess_ok (session m);
  i_pc : forall t pc, threads m !! t = Some pc -> pc_ok (session m) pc
}.

Ltac exec_cases H :=
  unfold exec, spawn, clear_operation in H; repeat case_match; simplify_eq/=.

Lemma advert_exec_gate t pc s s' pc' :
  exec t pc s = Some (s', pc') -> owner_step holds_gate t pc pc' (update_gate s) (update_gate s').
Proof.
  unfold owner_step. intros He. destruct pc as [| | | | | | | | | | | |k|k| | | | | | | | |];
    exec_cases He; auto; try (destruct k; simpl; auto).
Qed.

Lemma cancel_gate t pc s s' :
  cancel pc s = Some s' -> owner_step holds_gate t pc Dropped (update_gate s) (update_gate s').
Proof. unfold cancel, owner_step. destruct pc; intros; simplify_eq/=; naive_solver. Qed.

Lemma advert_entry_plain pc : entry pc -> holds_gate pc = false /\ forall s, pc_ok s pc.
Proof. by destruct 1. Qed.

Lemma advert_stored_lookup s op o : stored s op = Some o <-> operations s !! op = Some (Some o).
Proof.
  unfold stored. destruct (operations s !! op) as [[]|] eqn:E; simpl; split; intros; simplify_eq; done.
Qed.

(** ** Steps that leave the operations and the published data alone *)

Definition same_data (s s' : Session) : Prop :=
  update_operation s' = update_operation s /\ operations s' = operations s /\ tasks s' = tasks s /\
  current_update s' = current_update s /\ published s' = published s /\ native_stopped s' = native_stopped s /\
  (closed s = true -> closed s' = true) /\ (close_requests s' = close_requests s \/ closed s' = true).

(** The facts about the platform carry over. *)
Lemma shows_kept s s' :
  published s' = published s -> native_stopped s' = native_stopped s -> (closed s = true -> closed s' = true) ->
  (withdrawn s -> withdrawn s') /\ (forall u, shows s u -> shows s' u) /\
  (current_update s' = current_update s -> recorded s -> recorded s').
Proof.
  intros Hp Hn Hc. assert (withdrawn s -> withdrawn s') as Hw by (unfold withdrawn; rewrite Hp, Hn; naive_solver).
  unfold shows, recorded. rewrite Hp. split_and!; [done|intros u [|]; auto|intros -> [|]; auto].
Qed.

Lemma same_data_ok s s' :
  same_data s s' ->
  (forall o, result_ok s o -> result_ok s' o) /\ (current_ok s -> current_ok s') /\
  (forall op u, op_of s op u -> op_of s' op u) /\ (forall task, task_ok s task -> task_ok s' task) /\
  (forall pc, pc_ok s pc -> pc_ok s' pc).
Proof.
  intros (Hn & Ho & Ht & Hc & Hp & Hns & Hcl & _). destruct (shows_kept s s' Hp Hns Hcl) as (Hw & Hsh & Hre).
  specialize (Hre Hc).
  assert (forall o, result_ok s o -> result_ok s' o) as H1.
  { intros [v []]; unfold result_ok; simpl; [apply Hsh|done]. }
  assert (current_ok s -> current_ok s') as H2 by (unfold current_ok; naive_solver).
  assert (forall op u, op_of s op u -> op_of s' op u) as H3 by (intros op u; unfold op_of, stored; by rewrite Ht, Ho).
  split_and!; [done..| |].
  - intros [u|u []|u r|u r]; simpl; naive_solver.
  - unfold pc_ok, stored, is_Some. rewrite Hn, Ho, Hc.
    intros [| | | | | | | | | | |u []|[]| | | | | | | | | |]; naive_solver.
Qed.

Lemma sess_frame s s' :
  same_data s s' -> sess_ok s ->
  (update_gate s' = None -> update_operation s' = None -> current_ok s') -> sess_ok s'.
Proof.
  intros Hs [H1 H2 H3 H4 H5 H6 H7] Hidle. destruct (same_data_ok _ _ Hs) as (Hr & _ & _ & Ht & _).
  destruct Hs as (Hn & Ho & Htk & _ & _ & _ & Hcl & Hrq).
  constructor; [rewrite Ho, Htk; done|rewrite Ho, Hn; done|rewrite Ho, Hn; done|rewrite Htk; eauto| |done|].
  - intros op o. unfold stored. rewrite Hn, Ho. eauto.
  - destruct Hrq as [->|]; auto.
Qed.

(** The gate holder [t] moves: nothing depends on the operations but its own
    program counter. *)
Lemma advert_pc_ok_gateless s s' pc :
  holds_gate pc = false -> (closed s = true -> closed s' = true) -> pc_ok s pc -> pc_ok s' pc.
Proof. by destruct pc as [| | | | | | | | | | |u []|[]|[]| | | | | | | | |]. Qed.

Lemma advert_pc_ok_holder m s' t pc pc' :
  inv m -> threads m !! t = Some pc -> holds_gate pc = true -> (closed (session m) = true -> closed s' = true) ->
  pc_ok s' pc' -> forall u p, <[t := pc']> (threads m) !! u = Some p -> pc_ok s' p.
Proof.
  intros Hi Ht Hh Hc Hok u p [[<- <-]|[Hne Hu]]%lookup_insert_Some; [done|].
  eapply advert_pc_ok_gateless; [|done|by eapply i_pc]. destruct (holds_gate p) eqn:E; [|done].
  exfalso. apply Hne. eapply owns_unique; [by apply i_gate|done..].
Qed.

Lemma inv_frame m t pc pc' s' :
  inv m -> threads m !! t = Some pc -> owner_step holds_gate t pc pc' (update_gate (session m)) (update_gate s') ->
  same_data (session m) s' -> pc_ok s' pc' ->
  (update_gate s' = None -> update_operation s' = None -> current_ok s') ->
  inv (mkMachine s' (<[t := pc']> (threads m))).
Proof.
  intros Hi Ht Ho Hs Hok Hidle. constructor; cbn [session threads].
  - eapply owns_step; [by apply i_gate|done|done].
  - eapply sess_frame; [done|by apply i_sess|done].
  - intros u p [[<- <-]|[Hne Hu]]%lookup_insert_Some; [done|].
    apply (same_data_ok _ _ Hs). by eapply i_pc.
Qed.

(** The gate stays as it is, or [t] takes it. *)
Lemma idle_kept m s' :
  inv m -> same_data (session m) s' ->
  (update_gate s' = None -> update_gate (session m) = None) ->
  update_gate s' = None -> update_operation s' = None -> current_ok s'.
Proof.
  intros Hi Hs Hg H1 H2. apply (same_data_ok _ _ Hs). apply (s_idle _ (i_sess _ Hi)); [auto|].
  destruct Hs as (Hn & _). by rewrite <- Hn.
Qed.

(** ** Operations *)

Lemma no_tasks s op : sess_ok s -> update_operation s = None -> tasks s !! op = None.
Proof.
  intros Hs Hn. destruct (tasks s !! op) eqn:E; [|done].
  assert (is_Some (tasks s !! op)) as Ht by eauto. apply (s_tasks _ Hs), (s_flight _ Hs) in Ht. congruence.
Qed.

Lemma inv_spawn m t u :
  inv m -> threads m !! t = Some (USpawn u) ->
  inv (mkMachine (spawn u (session m)).1 (<[t := UWait u (spawn u (session m)).2]> (threads m))).
Proof.
  intros Hi Ht. destruct (i_pc _ Hi _ _ Ht) as [Hn Hcur]. pose proof (i_sess _ Hi) as Hs.
  set (op := length (operations (session m))).
  assert (forall o, tasks (session m) !! o = None) as Hnt by (intros; by apply no_tasks).
  constructor; cbn [session threads].
  - eapply owns_step; [by apply i_gate|done|]. by left.
  - destruct Hs as [H1 H2 H3 H4 H5 H6 H7]. constructor; cbn; fold op.
    + intros o. rewrite lookup_app_Some. destruct (decide (o = op)) as [->|Hne].
      * rewrite lookup_insert_eq. split; [eauto|]. intros _. right. unfold op. by rewrite Nat.sub_diag.
      * rewrite lookup_insert_ne by done. rewrite <- H1. split; [|by left]. intros [?|[Hge Hl]]; [done|].
        destruct (o - length (operations (session m))) eqn:E; [|done]. exfalso. apply Hne. unfold op. lia.
    + intros o. rewrite lookup_app_Some. intros [Ho|[Hge Hl]]; [apply H2 in Ho; congruence|].
      destruct (o - length (operations (session m))) eqn:E; [|done]. f_equal. unfold op. lia.
    + intros o [= <-]. rewrite length_app. simpl. unfold op. lia.
    + intros o task [[<- <-]|[Hne Hl]]%lookup_insert_Some; [by left|]. by rewrite Hnt in Hl.
    + intros o x [= <-] Hst. apply advert_stored_lookup in Hst. cbn in Hst.
      rewrite list_lookup_middle in Hst by done. done.
    + done.
    + done.
  - apply (advert_pc_ok_holder m _ t (USpawn u)); [done..|]. split; [done|]. left. exists (TNative u). cbn.
    by rewrite lookup_insert_eq.
Qed.

(** Clearing the slot of an operation that is done. *)
Lemma sess_clear s op :
  sess_ok s -> is_Some (stored s op) -> update_operation s = Some op -> is_Some (update_gate s) ->
  sess_ok (clear_operation op s).
Proof.
  intros [H1 H2 H3 H4 H5 H6 H7] [o Ho] Hn [g Hg]. unfold clear_operation. rewrite bool_decide_eq_true_2 by done.
  constructor; cbn; try done; [|congruence].
  intros x Hx. pose proof (H2 _ Hx). assert (x = op) as -> by congruence.
  apply advert_stored_lookup in Ho. congruence.
Qed.

Lemma clear_same op s : update_operation s = Some op -> clear_operation op s = set_slot None s.
Proof. intros H. unfold clear_operation. by rewrite bool_decide_eq_true_2. Qed.

Lemma inv_clear m t pc pc' op :
  inv m -> threads m !! t = Some pc -> holds_gate pc = true -> holds_gate pc' = true ->
  update_operation (session m) = Some op -> is_Some (stored (session m) op) ->
  pc_ok (clear_operation op (session m)) pc' ->
  inv (mkMachine (clear_operation op (session m)) (<[t := pc']> (threads m))).
Proof.
  intros Hi Ht Hh Hh' Hn Hst Hok. constructor; cbn [session threads].
  - eapply owns_step; [by apply i_gate|done|]. left. rewrite clear_same by done. by rewrite Hh.
  - apply sess_clear; [by apply i_sess|done..|]. exists t. apply (i_gate _ Hi). eauto.
  - apply (advert_pc_ok_holder m _ t pc); try done. by rewrite clear_same.
Qed.

(** Recording what was published. *)
Lemma shows_recorded s v : shows s v -> recorded (set_current v s).
Proof. intros [Hp|Hp]; [left; exact (eq_sym Hp)|by right]. Qed.
Lemma inv_set_current m t pc pc' v :
  inv m -> threads m !! t = Some pc -> holds_gate pc = true -> holds_gate pc' = true ->
  update_operation (session m) = None -> shows (session m) v ->
  pc_ok (set_current v (session m)) pc' ->
  inv (mkMachine (set_current v (session m)) (<[t := pc']> (threads m))).
Proof.
  intros Hi Ht Hh Hh' Hn Hp Hok. pose proof (i_sess _ Hi) as Hs.
  assert (forall o, tasks (session m) !! o = None) as Hnt by (intros; by apply no_tasks).
  constructor; cbn [session threads].
  - eapply owns_step; [by apply i_gate|done|]. left. by rewrite Hh.
  - destruct Hs as [H1 H2 H3 H4 H5 H6 H7]. constructor; cbn; try done.
    + intros o task E. by rewrite Hnt in E.
    + intros _ _. left. by apply shows_recorded.
  - by apply (advert_pc_ok_holder m _ t pc).
Qed.

(** ** The task of an update *)

(** The one task belongs to the operation in the slot. *)
Lemma task_slot s op task :
  sess_ok s -> tasks s !! op = Some task ->
  update_operation s = Some op /\ operations s !! op = Some None /\
  forall op' task', tasks s !! op' = Some task' -> op' = op.
Proof.
  intros Hs Ht.
  assert (forall o x, tasks s !! o = Some x -> operations s !! o = Some None /\ update_operation s = Some o) as H.
  { intros o x E. assert (is_Some (tasks s !! o)) as Hx by eauto.
    apply (s_tasks _ Hs) in Hx. split; [done|]. by apply (s_flight _ Hs). }
  destruct (H _ _ Ht) as [? ?]. split_and!; [done..|]. intros o x E. destruct (H _ _ E). congruence.
Qed.

(** What the gate holder knows while a task runs. *)
Definition waits_for (op : nat) (pc : Pc) : bool :=
  match pc with
  | UPrevious _ => true
  | UWaitPrevious _ o | UWait _ o | WWait o => (o =? op)%nat
  | UReturn _ (Err _) | CSwap (KError _ _) | CRequest (KError _ _) | WSlot | WClosed => true
  | _ => false
  end.

Lemma pc_while_running s op task pc :
  sess_ok s -> tasks s !! op = Some task -> pc_ok s pc -> holds_gate pc = true -> waits_for op pc = true.
Proof.
  intros Hs Ht Hok Hg. destruct (task_slot _ _ _ Hs Ht) as (Hn & Ho & _).
  assert (forall o, stored s op = Some o -> False) as Hst by (intros o E%advert_stored_lookup; congruence).
  destruct pc as [| | | | | | | | | | |u []|[]|[]| | | | | | | | |]; try discriminate Hg; try done; simpl in Hok;
    destruct_and?; simplify_eq; unfold is_Some in *; simpl; rewrite ?Nat.eqb_refl; naive_solver.
Qed.

(** A step of the task: the slot stays, the operation stays one of [u]. *)
Lemma inv_task m op task s' :
  inv m -> tasks (session m) !! op = Some task ->
  update_gate s' = update_gate (session m) -> update_operation s' = update_operation (session m) ->
  (closed (session m) = true -> closed s' = true) ->
  op_of s' op (task_update task) ->
  sess_ok s' -> inv (mkMachine s' (threads m)).
Proof.
  intros Hi Ht Hg Hn Hc Hop Hs'. pose proof (i_sess _ Hi) as Hs. constructor; cbn [session threads].
  - rewrite Hg. apply (i_gate _ Hi).
  - done.
  - intros t pc Htp. pose proof (i_pc _ Hi _ _ Htp) as Hok. destruct (holds_gate pc) eqn:Eg.
    + pose proof (pc_while_running _ _ _ _ Hs Ht Hok Eg) as Hw.
      destruct (task_slot _ _ _ Hs Ht) as (Hslot & Hops & _).
      destruct pc as [| | | | | | | |u o| | |u []|[]|[]| | | | | | | | |]; try discriminate Hw; try done;
        simpl in *; rewrite ?Hn; try naive_solver.
      * destruct Hok as [? Hu]. simplify_eq. split; [done|].
        destruct Hu as [(x & Hx & <-)|(r & Hr)]; [|apply advert_stored_lookup in Hr; congruence].
        by simplify_eq.
    + by eapply advert_pc_ok_gateless.
Qed.

Lemma sess_native s op u r :
  sess_ok s -> tasks s !! op = Some (TNative u) ->
  sess_ok (set_tasks (<[op := TCheck u r]> (tasks s)) (if is_ok r then set_published u s else s)).
Proof.
  intros Hs Ht. destruct (task_slot _ _ _ Hs Ht) as (Hn & Ho & Huniq).
  destruct Hs as [H1 H2 H3 H4 H5 H6 H7].
  assert (forall s', operations s' = operations s -> update_operation s' = update_operation s ->
    update_gate s' = update_gate s -> task_ok s' (TCheck u r) -> (close_requests s' <> 0 -> closed s' = true) ->
    sess_ok (set_tasks (<[op := TCheck u r]> (tasks s)) s')) as Hgen.
  { intros s' E1 E2 E3 Htk Hrq. constructor; cbn; rewrite ?E1, ?E2, ?E3; try done.
    - intros o. destruct (decide (o = op)) as [->|Hne]; [rewrite lookup_insert_eq; naive_solver|].
      by rewrite lookup_insert_ne.
    - intros o x [[<- <-]|[Hne Hl]]%lookup_insert_Some; [done|]. by apply Huniq in Hl.
    - intros o x E Hx. apply advert_stored_lookup in Hx. cbn in Hx. rewrite E1 in Hx. congruence.
    - congruence. }
  destruct r as [[]|e]; cbn [is_ok]; apply Hgen; try done. by left.
Qed.

Lemma sess_exec_task s op task s' :
  sess_ok s -> tasks s !! op = Some task -> exec_task op task s = Some s' ->
  sess_ok s' /\ update_gate s' = update_gate s /\ update_operation s' = update_operation s /\
  (closed s = true -> closed s' = true) /\ op_of s' op (task_update task).
Proof.
  intros Hs Ht He. destruct (task_slot _ _ _ Hs Ht) as (Hn & Ho & Huniq).
  pose proof (s_task _ Hs _ _ Ht) as Hok. destruct Hs as [H1 H2 H3 H4 H5 H6 H7].
  assert (forall x s1, operations s1 = operations s -> update_operation s1 = update_operation s ->
    update_gate s1 = update_gate s -> task_ok s1 x -> task_update x = task_update task ->
    (close_requests s1 <> 0 -> closed s1 = true) ->
    sess_ok (set_tasks (<[op := x]> (tasks s)) s1) /\
    op_of (set_tasks (<[op := x]> (tasks s)) s1) op (task_update task)) as Hgen.
  { intros x s1 E1 E2 E3 Htk Hu Hrq. split.
    - constructor; cbn; rewrite ?E1, ?E2, ?E3; try done.
      + intros o. destruct (decide (o = op)) as [->|Hne]; [rewrite lookup_insert_eq; naive_solver|].
        by rewrite lookup_insert_ne.
      + intros o y [[<- <-]|[Hne Hl]]%lookup_insert_Some; [by destruct x as [|? []| |]|]. by apply Huniq in Hl.
      + intros o y E Hx. apply advert_stored_lookup in Hx. cbn in Hx. rewrite E1 in Hx. congruence.
      + congruence.
    - left. exists x. cbn. by rewrite lookup_insert_eq. }
  destruct task as [u|u [[]|e]|u r|u r]; simpl in He; [done| | | |].
  - simplify_eq. destruct (Hgen (TComplete u (Ok tt)) s) as [? ?]; try done.
  - destruct (closed s) eqn:Ec; simplify_eq.
    + destruct (Hgen (TComplete u (Err e)) s) as [? ?]; try done.
    + destruct (Hgen (TRequest u (Err e)) (set_closed s)) as [? ?]; try done.
  - simplify_eq. destruct Hok as [Hc Hr]. destruct r as [|e]; [done|].
    destruct (Hgen (TComplete u (Err e)) (request_close s)) as [? ?]; try done.
  - simplify_eq. split_and!; try done.
    + constructor; cbn; rewrite ?length_insert; try done.
      * intros o. destruct (decide (o = op)) as [->|Hne].
        -- rewrite lookup_delete_eq, list_lookup_insert_eq by (by eapply lookup_lt_Some). naive_solver.
        -- by rewrite lookup_delete_ne, list_lookup_insert_ne.
      * intros o E. destruct (decide (o = op)) as [->|Hne]; [done|]. apply H2.
        by rewrite list_lookup_insert_ne in E.
      * intros o x [Hne Hl]%lookup_delete_Some. by apply Huniq in Hl.
      * intros o x E Hx. apply advert_stored_lookup in Hx. cbn in Hx. assert (o = op) as -> by congruence.
        rewrite list_lookup_insert_eq in Hx by (by eapply lookup_lt_Some). by simplify_eq.
    + right. exists r. apply advert_stored_lookup. cbn. rewrite list_lookup_insert_eq by (by eapply lookup_lt_Some). done.
Qed.

Ltac frame m t :=
  eapply (inv_frame m t); [done|eassumption|by eapply advert_exec_gate|split_and!; cbn; first [done|by left|by right]| |].

Lemma advert_inv_exec m t pc s' pc' :
  inv m -> threads m !! t = Some pc -> exec t pc (session m) = Some (s', pc') ->
  inv (mkMachine s' (<[t := pc']> (threads m))).
Proof.
  intros Hi Ht He0. pose proof He0 as He. pose proof (i_pc _ Hi _ _ Ht) as Hok.
  assert (holds_gate pc = true -> update_gate (session m) = Some t) as Hg.
  { intros Hh. apply (i_gate _ Hi). eauto. }
  destruct pc as [u|u|u op|u op o|u [v [[]|e]]|u|u|u|u op|u op o|u [v [[]|e]]|u r|k|k| | |op|op| | | | |];
    cbn [exec] in He; try discriminate He; try specialize (Hg eq_refl).
  - (* UGate *) case_match eqn:Eg; simplify_eq. frame m t; [|done]. exact (s_idle _ (i_sess _ Hi) Eg).
  - (* UPrevious *)
    case_match eqn:En; simplify_eq; frame m t; try congruence.
    split; [done|]. by apply Hok.
  - (* UWaitPrevious *) case_match eqn:Es; simplify_eq. frame m t; [by split|congruence].
  - (* UClearPrevious *)
    simplify_eq. destruct Hok as [Hn Hst]. eapply (inv_clear m t); try done.
    rewrite clear_same by done. split; [done|]. by apply (s_stored _ (i_sess _ Hi) op).
  - (* UCollect, Ok *)
    simplify_eq. destruct Hok as [Hn Hr]. eapply (inv_set_current m t); try done.
    split; [done|]. left. by apply shows_recorded.
  - (* UCollect, Err *) simplify_eq. destruct Hok as [Hn Hr]. frame m t; [done|congruence].
  - (* UClosed *)
    destruct Hok as [Hn Hc]. destruct (closed (session m)) eqn:Ec; simplify_eq; frame m t; try congruence.
    split; [done|]. destruct Hc; [done|congruence].
  - (* UCompare *)
    destruct Hok as [Hn Hc]. case_bool_decide as Hu; simplify_eq; frame m t; try congruence.
    + split_and!; [done| |done]. destruct Hc; [left; congruence|by right].
    + done.
  - (* USpawn *) injection He as <- <-. by apply inv_spawn.
  - (* UWait *)
    destruct Hok as [Hn Hop]. case_match eqn:Es; simplify_eq. frame m t; [|congruence]. split_and!; [done..|].
    destruct Hop as [(task & Htk & _)|(r & Hr)]; [|by simplify_eq].
    apply (task_slot _ _ _ (i_sess _ Hi)) in Htk as (_ & Ho & _). apply advert_stored_lookup in Es. congruence.
  - (* UClear *)
    simplify_eq. destruct Hok as (Hn & Hst & Hu). eapply (inv_clear m t); try done.
    rewrite clear_same by done. split_and!; [done| |done]. by apply (s_stored _ (i_sess _ Hi) op).
  - (* UFinish, Ok *)
    simplify_eq. destruct Hok as (Hn & Hr & Hu). simpl in Hu. subst v. eapply (inv_set_current m t); try done.
  - (* UFinish, Err *) simplify_eq. destruct Hok as (Hn & Hr & _). frame m t; [done|congruence].
  - (* UReturn *)
    simplify_eq. frame m t; [done|]. intros _ Hn. destruct r as [b|e].
    + destruct Hok as (_ & Hsh & Hc). left. destruct Hsh as [Hp|Hw]; [left; cbn; congruence|by right].
    + by right.
  - (* CSwap *)
    destruct (closed (session m)) eqn:Ec; simplify_eq; frame m t.
    + by destruct k.
    + eapply idle_kept; [done|split_and!; first [done|by left]|done].
    + by destruct k.
    + intros _ _. by right.
  - (* CRequest *)
    simplify_eq. frame m t.
    + by destruct k.
    + intros _ _. by right.
  - (* WGate *) case_match; simplify_eq. by frame m t.
  - (* WSlot *) case_match eqn:En; simplify_eq; frame m t; try congruence; by try split.
  - (* WWait *) destruct Hok. case_match eqn:Es; simplify_eq. frame m t; [|congruence]. by split_and!.
  - (* WClear *)
    simplify_eq. destruct Hok as (Hc & Hn & Hst). eapply (inv_clear m t); try done. by rewrite clear_same.
  - (* WClosed *) case_match; simplify_eq. frame m t; [done|]. intros _ _. by right.
Qed.

(** A withdrawal after the close. *)
Lemma withdraw_ok s : closed s = true ->
  (forall o, result_ok s o -> result_ok (withdraw s) o) /\ current_ok (withdraw s) /\
  (forall task, task_ok s task -> task_ok (withdraw s) task) /\ (forall pc, pc_ok s pc -> pc_ok (withdraw s) pc).
Proof.
  intros Hc. assert (withdrawn (withdraw s)) as Hw by (by split_and!).
  assert (forall o, result_ok s o -> result_ok (withdraw s) o) as H1.
  { intros [v []]; unfold result_ok; simpl; [by right|done]. }
  split_and!; [done|by right| |].
  - intros [u|u []|u r|u r]; simpl; try done; [by right|by right|apply H1].
  - intros [| | | | | | | | | | |u []|[]| | | | | | | | | |]; simpl; try done;
      intros; destruct_and?; split_and?; try done; first [by right|by apply H1].
Qed.

Lemma advert_inv_step m m' : step m m' -> inv m -> inv m'.
Proof.
  intros Hstep Hi. destruct Hstep as [m t pc He Ht|m t pc s' pc' Ht He|m t pc s' Ht He|m op u r Ht Hok|m op task s' Ht He|m Hr Hnt|m r Hr Hh].
  - apply advert_entry_plain in He as [Hg Hok]. constructor; cbn [session threads].
    + by apply owns_call; [apply i_gate|..].
    + by apply i_sess.
    + intros u p [[<- <-]|[? ?]]%lookup_insert_Some; [done|by eapply i_pc].
  - by eapply advert_inv_exec.
  - pose proof (i_pc _ Hi _ _ Ht) as Hok.
    assert (same_data (session m) s') as Hsame.
    { unfold cancel in He; destruct pc; simplify_eq; split_and!; first [done|by left]. }
    eapply (inv_frame m t); try done; [by eapply cancel_gate|].
    unfold cancel in He. destruct pc; simplify_eq; intros H1 H2; cbn in *; try (by apply (s_idle _ (i_sess _ Hi)));
      try (right; naive_solver); destruct_and?; congruence.
  - eapply (inv_task m op); try done.
    + by destruct (is_ok r).
    + by destruct (is_ok r).
    + by destruct (is_ok r).
    + left. exists (TCheck u r). cbn. by rewrite lookup_insert_eq.
    + apply sess_native; [by apply i_sess|done].
  - destruct (sess_exec_task _ _ _ _ (i_sess _ Hi) Ht He) as (? & ? & ? & ? & ?). by eapply (inv_task m op).
  - pose proof (s_requests _ (i_sess _ Hi) Hr) as Hc. destruct (withdraw_ok _ Hc) as (Hwr & Hwc & Hwt & Hwp).
    pose proof (i_sess _ Hi) as [H1 H2 H3 H4 H5 H6 H7]. constructor; cbn [session threads]; [apply (i_gate _ Hi)| |eauto using i_pc].
    constructor; cbn; eauto.
  - assert (same_data (session m) (set_handle_closed r (session m))) as Hs by (split_and!; first [done|by left]).
    constructor; cbn [session threads].
    + apply (i_gate _ Hi).
    + eapply sess_frame; [done|by apply i_sess|]. by apply (idle_kept m).
    + intros t pc Ht. apply (same_data_ok _ _ Hs). by eapply i_pc.
Qed.

Lemma advert_reachable_inv initial m : reachable_from initial m -> inv m.
Proof.
  intros Hr. apply (rtc_invariant step inv (mkMachine (from_parts initial) ∅) m advert_inv_step Hr). constructor.
  - intros t. cbn. rewrite lookup_empty. naive_solver.
  - constructor; cbn; try done; [|by left; left].
    intros op. rewrite lookup_empty. split; [done|by intros []].
  - done.
Qed.

(** A stopped platform publishes nothing, and was asked to stop. *)
Lemma advert_reachable_stopped initial m :
  reachable_from initial m -> native_stopped (session m) = true -> closed (session m) = true /\ published (session m) = None.
Proof.
  intros Hr. pose (P (m : Machine) := inv m /\ (native_stopped (session m) = true -> closed (session m) = true /\ published (session m) = None)).
  enough (P m) as [_ H] by done.
  apply (rtc_invariant step P (mkMachine (from_parts initial) ∅) m); [|done|split; [by eapply advert_reachable_inv, rtc_refl|done]].
  intros x y Hs [Hi Hx]. split; [by eapply advert_inv_step|].
  destruct Hs as [| ? t pc s' pc' Ht He|? t pc s' Ht He|? op u r Ht Hok|? op task s' Ht He|m' Hq Hnt| ]; cbn [session] in *; try done.
  - unfold exec, spawn, clear_operation in He. repeat case_match; simplify_eq/=; naive_solver.
  - unfold cancel in He. destruct pc; simplify_eq/=; done.
  - destruct r; cbn in *; [intros E; rewrite Hok in E by done; done|done].
  - unfold exec_task in He. repeat case_match; simplify_eq/=; naive_solver.
  - intros _. split; [|done]. by apply (s_requests _ (i_sess _ Hi)).
Qed.

(** ** Theorems *)

(** C12. The answer of [update] is true when it is given.  However calls, their
    cancellations, closes, withdrawals and native answers interleave, a call that
    is about to return [Ok] (also [Ok(false)], the call that skipped the transport
    because nothing changed) holds the gate, no native update is in flight, the
    session records the data of this call, and the platform publishes exactly
    that, unless a close was requested and the platform has withdrawn the
    advertisement: then nothing is published; a session that is not closed always
    publishes what the call answers.  A call that is about to return an error
    leaves the session closed, never with stale data that a later call could take
    for published. *)
Theorem update_answer_published (initial : option Update) (m : Machine) (t : nat) (u : Update) (r : UpdateResult) :
  reachable_from initial m -> threads m !! t = Some (UReturn u r) ->
  update_gate (session m) = Some t /\
  match r with
  | Ok _ => published (session m) = (if native_stopped (session m) then None else Some u) /\
            (native_stopped (session m) = true -> closed (session m) = true) /\
            current_update (session m) = Some u /\ (forall op, tasks (session m) !! op = None)
  | Err _ => closed (session m) = true
  end.
Proof.
  intros Hr Ht. pose proof (advert_reachable_inv _ _ Hr) as Hi. pose proof (i_pc _ Hi _ _ Ht) as Hok.
  split; [apply (i_gate _ Hi); eauto|]. destruct r as [b|e]; [|done].
  destruct Hok as (Hn & Hp & Hc). pose proof (advert_reachable_stopped _ _ Hr) as Hst.
  split_and!; [|apply Hst|done|].
  - destruct Hp as [Hp|(_ & -> & Hp)]; [|done]. destruct (native_stopped (session m)) eqn:E; [|done]. by apply Hst.
  - intros op. apply no_tasks; [by apply i_sess|done].
Qed.

(** An update is dropped while the platform applies it; repeating it finds it
    published. *)
Definition an_update : Update := mkAdvertisementUpdate 4000 [] [].
Definition repeated_after_cancel : Machine :=
  mkMachine (mkSession (Some 1) None [Some (an_update, Ok tt)] ∅ (Some an_update) false 0 None (Some an_update) false)
    (<[1 := UReturn an_update (Ok false)]> (<[0 := Dropped]> ∅)).

(** Schedules, to replay an interleaving by computation. *)
Inductive Action :=
| Call (t : nat) (u : Update)
| Run (t : nat)
| Drop (t : nat)
| Native (op : nat) (r : NativeResult)
| RunTask (op : nat).

Definition act (m : Machine) (a : Action) : option Machine :=
  match a with
  | Call t u => if threads m !! t is None then Some (mkMachine (session m) (<[t := UGate u]> (threads m))) else None
  | Run t => pc ← threads m !! t; '(s', pc') ← exec t pc (session m); Some (mkMachine s' (<[t := pc']> (threads m)))
  | Drop t => pc ← threads m !! t; s' ← cancel pc (session m); Some (mkMachine s' (<[t := Dropped]> (threads m)))
  | Native op r =>
      match tasks (session m) !! op with
      | Some (TNative u) =>
          if is_ok r && native_stopped (session m) then None
          else Some (mkMachine (set_tasks (<[op := TCheck u r]> (tasks (session m)))
                             (if is_ok r then set_published u (session m) else session m)) (threads m))
      | _ => None
      end
  | RunTask op => task ← tasks (session m) !! op; s' ← exec_task op task (session m); Some (mkMachine s' (threads m))
  end.

Lemma act_step m a m' : act m a = Some m' -> step m m'.
Proof.
  destruct a as [t u|t|t|op r|op]; simpl; intros Ha.
  - case_match eqn:E; simplify_eq. by apply step_call; [constructor|].
  - destruct (threads m !! t) eqn:E; simplify_eq/=. destruct (exec _ _ _) as [[]|] eqn:E2; simplify_eq/=.
    by eapply step_exec.
  - destruct (threads m !! t) eqn:E; simplify_eq/=. destruct (cancel _ _) eqn:E2; simplify_eq/=.
    by eapply step_cancel.
  - destruct (tasks (session m) !! op) as [[]|] eqn:E; simplify_eq. destruct (is_ok r && _) eqn:Eo; simplify_eq.
    apply step_native; [done|]. intros Hr. by rewrite Hr in Eo.
  - destruct (tasks _ !! op) eqn:E; simplify_eq/=. destruct (exec_task _ _ _) eqn:E2; simplify_eq/=.
    by eapply step_task.
Qed.

Lemma act_reachable initial l m :
  foldl (fun om a => om ≫= fun m => act m a) (Some (mkMachine (from_parts initial) ∅)) l = Some m ->
  reachable_from initial m.
Proof.
  unfold reachable_from. generalize (mkMachine (from_parts initial) ∅) as m0.
  induction l as [|a l IH]; intros m0; simpl; [intros [= ->]; apply rtc_refl|].
  destruct (act m0 a) as [m1|] eqn:E.
  - intros Hl. eapply rtc_l; [by eapply act_step|by apply IH].
  - intros Hl. exfalso. clear IH. induction l; simpl in Hl; [done|auto].
Qed.

Lemma repeated_after_cancel_reachable : reachable_from None repeated_after_cancel.
Proof.
  apply (act_reachable None
    ([Call 0 an_update] ++ replicate 5 (Run 0) ++ [Drop 0; Native 0 (Ok tt); RunTask 0; RunTask 0; Call 1 an_update]
     ++ replicate 7 (Run 1))).
  vm_compute. reflexivity.
Qed.

Lemma update_answer_published_witness :
  published (session repeated_after_cancel) = Some an_update.
Proof.
  apply (update_answer_published None repeated_after_cancel 1 an_update (Ok false)
    repeated_after_cancel_reachable eq_refl).
Defined.
