(* ===== verification/MdnsAdvert.v ===== *)
(** * The mDNS advertisement (iroh-http-discovery: dns_sd.rs)

    The desktop [AdvertisementHandle]: updates that withdraw and re-announce a
    service, and its cleanup, as interleaved threads that share the [closing]
    flag and the [operation] lock.  The daemon is the environment; [commands]
    logs what was sent to it, with the answers. *)

From stdpp Require Import base numbers list strings gmap fin_maps relations.
From Stdlib Require Import ZArith Lia.
From S2P Require Import Prelude Threads Net DnsSd PeerPolicy.

Open Scope string_scope.
Open Scope list_scope.

(** [mdns_sd::ServiceInfo::new], [get_fullname] and [enable_addr_auto]. *)
Class ServiceInfos (Info : Type) := {
  info_new : forall (service_type instance host : string) (addrs : list IpAddr) (port : Z)
    (txt : list (string * string)), Result Info string;
  get_fullname : Info -> string;
  enable_addr_auto : Info -> Info
}.

Section service_info.
Context {Info : Type} `{ServiceInfos Info} (debug_str : string -> string).

(** dns_sd.rs's [service_type]. *)
Definition checked_service_type (service_name : string) (p : Protocol) : Result string DiscoveryError :=
  map_err InvalidServiceName (service_type debug_str service_name p).

Definition service_info (config : ServiceConfig) (auto : bool) : Result Info DiscoveryError :=
  match checked_service_type (service_name config) (protocol config) with
  | Err e => Err e
  | Ok st =>
      match info_new st (instance_name config) (instance_name config +:+ ".local.") (addrs config)
              (port config) (txt config) with
      | Err error => Err (Setup error)
      | Ok info => Ok (if auto then enable_addr_auto info else info)
      end
  end.

Definition display_error (e : DiscoveryError) : string :=
  match e with
  | Setup msg => "mDNS setup failed: " +:+ msg
  | InvalidServiceName msg => "invalid mDNS service name: " +:+ msg
  end.

(** The checks [update] makes before it talks to the daemon. *)
Definition prepare_update (base : ServiceConfig) (fullname : string) (auto : bool) (u : AdvertisementUpdate)
  : Result Info TransportError :=
  let next := mkServiceConfig (service_name base) (instance_name base) (up_port u) (up_addrs u) (up_txt u)
                (protocol base) in
  match service_info next auto with
  | Err error => Err (display_error error)
  | Ok info =>
      if bool_decide (get_fullname info <> fullname)
      then Err "cannot change an active DNS-SD advertisement identity"
      else Ok info
  end.
End service_info.

(** ** Threads *)

Abbreviation Outcome := (Result unit TransportError).

Inductive Cmd := Register | Unregister | CleanupUnregister | Shutdown.

Inductive Pc :=
(** [update], then its blocking task *)
| UStart (u : AdvertisementUpdate)
| UPrepare (u : AdvertisementUpdate)
| ULock
| ULoad
| UUnregister
| UGoodbye
| ULoadAgain
| URegister
| UUnlock (r : Outcome)
(** [request_close], and [cleanup] *)
| QSwap
| QLock
| QCheck
| QUnregister
| QShutdown (unregistered : Result unit MdnsError)
| QResult (r : Result unit MdnsError)
| QUnlock
(** [closed] and [wait_closed_blocking] *)
| WClosed
(** finished *)
| Updated (r : Outcome)
| Requested
| Cleaned
| Observed (r : Outcome).

Record Advert := mkAdvert {
  closing : bool;
  operation : option nat;
  close_result : option Outcome;
  commands : list (Cmd * bool)
}.

Definition set_closing a := mkAdvert true (operation a) (close_result a) (commands a).
Definition set_operation o a := mkAdvert (closing a) o (close_result a) (commands a).
Definition set_result r a := mkAdvert (closing a) (operation a) (Some r) (commands a).
Definition log c ok a := mkAdvert (closing a) (operation a) (close_result a) (commands a ++ [(c, ok)]).

Definition closed_error : TransportError := "advertisement is closed".

Section machine.
Context {Info : Type} `{ServiceInfos Info} (debug_str : string -> string).
(** The data of [MdnsAdvertisementShared], and the text of a daemon error. *)
Context (base : ServiceConfig) (fullname : string) (auto : bool) (mdns_text : MdnsError -> string).

(** What the environment answers at a daemon command: the result of the
    command after its retries (for an unregister of [update], of its
    acknowledgement too). *)
Abbreviation Answer := (Result unit MdnsError).

(** One atomic action of thread [t].  [UGoodbye] is [wait_for_reannounce_or_close];
    it ends when the delay is over or [closing] is set, which is a matter of time. *)
Definition exec (t : nat) (pc : Pc) (answer : Answer) (a : Advert) : option (Advert * Pc) :=
  match pc with
  | UStart u => Some (a, if closing a then Updated (Err closed_error) else UPrepare u)
  | UPrepare u =>
      match prepare_update debug_str base fullname auto u with
      | Err error => Some (a, Updated (Err error))
      | Ok _ => Some (a, ULock)
      end
  | ULock => match operation a with None => Some (set_operation (Some t) a, ULoad) | Some _ => None end
  | ULoad => Some (a, if closing a then UUnlock (Err closed_error) else UUnregister)
  | UUnregister =>
      match answer with
      | Ok _ => Some (log Unregister true a, UGoodbye)
      | Err error => Some (log Unregister false a, UUnlock (Err (mdns_text error)))
      end
  | UGoodbye => Some (a, ULoadAgain)
  | ULoadAgain => Some (a, if closing a then UUnlock (Err closed_error) else URegister)
  | URegister =>
      match answer with
      | Ok _ => Some (log Register true a, UUnlock (Ok tt))
      | Err error => Some (log Register false a, UUnlock (Err (mdns_text error)))
      end
  | UUnlock r => Some (set_operation None a, Updated r)
  | QSwap => Some (set_closing a, if closing a then Requested else QLock)
  | QLock => match operation a with None => Some (set_operation (Some t) a, QCheck) | Some _ => None end
  | QCheck => Some (a, if close_result a is Some _ then QUnlock else QUnregister)
  | QUnregister =>
      match answer with
      | Err DaemonShutdown => Some (log CleanupUnregister false a, QResult (Ok tt))
      | _ => Some (log CleanupUnregister (is_ok answer) a, QShutdown answer)
      end
  | QShutdown unregistered =>
      Some (log Shutdown (is_ok answer) a,
            QResult (match unregistered with
                     | Err error => Err error
                     | Ok _ => match answer with Err DaemonShutdown => Ok tt | r => r end
                     end))
  | QResult r => Some (set_result (map_err mdns_text r) a, QUnlock)
  | QUnlock => Some (set_operation None a, Cleaned)
  | WClosed => match close_result a with Some r => Some (a, Observed r) | None => None end
  | Updated _ | Requested | Cleaned | Observed _ => None
  end.

Inductive entry : Pc -> Prop :=
| call_update u : entry (UStart u)
| call_request_close : entry QSwap
| call_closed : entry WClosed.

Record Machine := mkMachine { advert : Advert; threads : gmap nat Pc }.

Inductive step : Machine -> Machine -> Prop :=
| step_call m t pc :
    entry pc -> threads m !! t = None -> step m (mkMachine (advert m) (<[t := pc]> (threads m)))
| step_exec m t pc answer a' pc' :
    threads m !! t = Some pc -> exec t pc answer (advert m) = Some (a', pc') ->
    step m (mkMachine a' (<[t := pc']> (threads m))).

(** [advertise_inner] has registered the service. *)
Definition machine_new : Machine := mkMachine (mkAdvert false None None [(Register, true)]) ∅.

Definition reachable (m : Machine) : Prop := rtc step machine_new m.
End machine.

(** ** Specification of the command log *)

(** The commands of a live advertisement: the service is announced, withdrawn
    any number of times, and announced again only right after a withdrawal that
    the daemon acknowledged. *)
Inductive live_log : list (Cmd * bool) -> Prop :=
| live_start : live_log [(Register, true)]
| live_withdraw l ok : live_log l -> live_log (l ++ [(Unregister, ok)])
| live_announce l ok :
    live_log l -> last l = Some (Unregister, true) -> live_log (l ++ [(Register, ok)]).

(** ... and of one that was cleaned up: a final withdrawal and, unless the
    daemon was gone, its shutdown. *)
Definition ended_log (l : list (Cmd * bool)) : Prop :=
  exists l0 ok tail, live_log l0 /\ l = l0 ++ (CleanupUnregister, ok) :: tail /\
    (tail = [] \/ exists ok', tail = [(Shutdown, ok')]).

(** ** Invariant *)

Definition holds_operation (pc : Pc) : bool :=
  match pc with
  | ULoad | UUnregister | UGoodbye | ULoadAgain | URegister | UUnlock _
  | QCheck | QUnregister | QShutdown _ | QResult _ | QUnlock => true
  | _ => false
  end.

Definition pc_ok (a : Advert) (pc : Pc) : Prop :=
  match pc with
  | UUnregister => close_result a = None
  | UGoodbye | ULoadAgain | URegister => close_result a = None /\ last (commands a) = Some (Unregister, true)
  | QLock | QCheck => closing a = true
  | QUnregister => closing a = true /\ close_result a = None
  | QShutdown _ => closing a = true /\ close_result a = None /\
      exists l ok, live_log l /\ commands a = l ++ [(CleanupUnregister, ok)]
  | QResult _ => closing a = true /\ close_result a = None /\ ended_log (commands a)
  | _ => True
  end.

(** Between the cleanup's commands and its result. *)
Definition mid_cleanup (pc : Pc) : bool := match pc with QShutdown _ | QResult _ => true | _ => false end.

Section invariant.
Context {Info : Type} `{ServiceInfos Info} (debug_str : string -> string).
Context (base : ServiceConfig) (fullname : string) (auto : bool) (mdns_text : MdnsError -> string).

Record inv (m : Machine) : Prop := {
  i_lock : owns holds_operation (operation (advert m)) (threads m);
  i_pc : forall t pc, threads m !! t = Some pc -> pc_ok (advert m) pc;
  i_closing : close_result (advert m) <> None -> closing (advert m) = true;
  i_log : match close_result (advert m) with
          | Some _ => ended_log (commands (advert m))
          | None => (exists t pc, threads m !! t = Some pc /\ mid_cleanup pc = true) \/ live_log (commands (advert m))
          end
}.

Abbreviation exec' := (exec debug_str base fullname auto mdns_text).

Lemma exec_operation t pc answer a a' pc' :
  exec' t pc answer a = Some (a', pc') -> owner_step holds_operation t pc pc' (operation a) (operation a').
Proof.
  unfold owner_step. intros He. destruct pc; unfold exec in He; repeat case_match; simplify_eq/=; auto 10.
Qed.

(** Threads outside the lock rely on [closing] only. *)
Lemma pc_ok_unlocked a a' pc :
  holds_operation pc = false -> (closing a = true -> closing a' = true) -> pc_ok a pc -> pc_ok a' pc.
Proof. by destruct pc. Qed.

Lemma mdns_pc_ok_same a a' pc :
  close_result a' = close_result a -> commands a' = commands a -> (closing a = true -> closing a' = true) ->
  pc_ok a pc -> pc_ok a' pc.
Proof. intros Hr Hc Hcl. destruct pc; simpl; rewrite ?Hr, ?Hc; naive_solver. Qed.

Lemma exec_closing t pc answer a a' pc' :
  exec' t pc answer a = Some (a', pc') -> closing a = true -> closing a' = true.
Proof. intros He. destruct pc; unfold exec in He; repeat case_match; simplify_eq/=; done. Qed.

(** Only the holder of the lock logs commands or stores the result. *)
Lemma exec_unlocked t pc answer a a' pc' :
  exec' t pc answer a = Some (a', pc') -> holds_operation pc = false ->
  close_result a' = close_result a /\ commands a' = commands a /\ mid_cleanup pc = false /\ mid_cleanup pc' = false /\
  (pc_ok a pc -> pc_ok a' pc').
Proof.
  intros He Hh. destruct pc; try discriminate Hh; unfold exec in He; repeat case_match; simplify_eq/=; naive_solver.
Qed.

Definition log_ok (a : Advert) (pc : Pc) : Prop :=
  match close_result a with
  | Some _ => ended_log (commands a)
  | None => mid_cleanup pc = true \/ live_log (commands a)
  end.

Lemma exec_locked t pc answer a a' pc' :
  exec' t pc answer a = Some (a', pc') -> holds_operation pc = true ->
  (close_result a <> None -> closing a = true) -> pc_ok a pc -> log_ok a pc ->
  (close_result a' <> None -> closing a' = true) /\ pc_ok a' pc' /\ log_ok a' pc' /\
  (close_result a <> None -> close_result a' = close_result a /\ commands a' = commands a).
Proof.
  unfold log_ok. intros He Hh Hcl Hok Hlog. destruct pc; try discriminate Hh; unfold exec in He; simpl in Hok.
  - (* ULoad *) destruct (closing a) eqn:Ec; simplify_eq; split_and!; try done.
    + intros Hn. by apply Hcl in Hn.
    + simpl. destruct (close_result a') eqn:Er; [|done]. exfalso. by specialize (Hcl ltac:(done)).
  - (* UUnregister *) rewrite Hok in *. destruct Hlog as [|Hl]; [done|].
    destruct answer as [[]|e]; simplify_eq; simpl; rewrite Hok; split_and!; try done; try apply last_snoc;
      right; by constructor.
  - (* UGoodbye *) simplify_eq. by split_and!.
  - (* ULoadAgain *) destruct Hok as [Hr Hlast]. rewrite Hr in *.
    destruct (closing a) eqn:Ec; simplify_eq; simpl; rewrite Hr; by split_and!.
  - (* URegister *) destruct Hok as [Hr Hlast]. rewrite Hr in *. destruct Hlog as [|Hl]; [done|].
    destruct answer as [[]|e]; simplify_eq; simpl; rewrite Hr; split_and!; try done; right; by constructor.
  - (* UUnlock *) simplify_eq. simpl. by split_and!.
  - (* QCheck *) destruct (close_result a) eqn:Er; simplify_eq; simpl; rewrite Er; by split_and!.
  - (* QUnregister *) destruct Hok as [Hc Hr]. rewrite Hr in *. destruct Hlog as [|Hl]; [done|].
    destruct answer as [[]|[]]; simplify_eq; simpl; rewrite Hr; split_and!; try done; try (by left);
      try (by eexists _, _); exists (commands a), false, []; auto.
  - (* QShutdown *) destruct Hok as (Hc & Hr & l & ok & Hl & El). simplify_eq. simpl. rewrite Hr.
    split_and!; try done; [|by left]. exists l, ok, [(Shutdown, is_ok answer)].
    rewrite El, <- app_assoc. simpl. eauto.
  - (* QResult *) destruct Hok as (Hc & Hr & Hl). simplify_eq. simpl. by split_and!.
  - (* QUnlock *) simplify_eq. simpl. by split_and!.
Qed.

Lemma mid_holds pc : mid_cleanup pc = true -> holds_operation pc = true.
Proof. by destruct pc. Qed.

Lemma inv_log_holder m t pc :
  inv m -> threads m !! t = Some pc -> holds_operation pc = true -> log_ok (advert m) pc.
Proof.
  intros Hi Ht Hh. unfold log_ok. pose proof (i_log _ Hi) as Hl. case_match; [done|].
  destruct Hl as [(u & p & Hu & Hp)|]; [left|by right].
  assert (t = u) as -> by (eapply owns_unique; [by apply i_lock|done..|by apply mid_holds]). by simplify_eq.
Qed.

Lemma mdns_inv_exec m t pc answer a' pc' :
  inv m -> threads m !! t = Some pc -> exec' t pc answer (advert m) = Some (a', pc') ->
  inv (mkMachine a' (<[t := pc']> (threads m))) /\
  (close_result (advert m) <> None ->
     close_result a' = close_result (advert m) /\ commands a' = commands (advert m)).
Proof.
  intros Hi Ht He. pose proof (exec_operation _ _ _ _ _ _ He) as Hown.
  pose proof (i_pc _ Hi _ _ Ht) as Hok. destruct (holds_operation pc) eqn:Eh.
  - destruct (exec_locked _ _ _ _ _ _ He Eh (i_closing _ Hi) Hok (inv_log_holder _ _ _ Hi Ht Eh))
      as (Hcl & Hok' & Hlog & Hfrozen). split; [|done]. constructor; cbn [advert threads].
    + eapply owns_step; [by apply i_lock|done|done].
    + intros u p [[<- <-]|[Hne Hu]]%lookup_insert_Some; [done|].
      eapply pc_ok_unlocked; [|by eapply exec_closing|by eapply i_pc].
      destruct (holds_operation p) eqn:Ep; [|done]. exfalso. apply Hne.
      eapply owns_unique; [by apply i_lock|done..].
    + done.
    + unfold log_ok in Hlog. case_match; [done|]. destruct Hlog as [Hm|]; [left|by right].
      exists t, pc'. by rewrite lookup_insert_eq.
  - destruct (exec_unlocked _ _ _ _ _ _ He Eh) as (Hr & Hc & Hm & Hm' & Hok'). split; [|done].
    constructor; cbn [advert threads].
    + eapply owns_step; [by apply i_lock|done|done].
    + intros u p [[<- <-]|[Hne Hu]]%lookup_insert_Some; [auto|].
      eapply mdns_pc_ok_same; [done|done|by eapply exec_closing|by eapply i_pc].
    + rewrite Hr. intros Hn. eapply exec_closing; [done|]. by apply (i_closing _ Hi).
    + rewrite Hr, Hc. pose proof (i_log _ Hi) as Hl. case_match; [done|].
      destruct Hl as [(u & p & Hu & Hp)|]; [left|by right]. exists u, p. split; [|done].
      rewrite lookup_insert_ne; [done|]. intros ->. congruence.
Qed.

Abbreviation step' := (step debug_str base fullname auto mdns_text).
Abbreviation reachable' := (reachable debug_str base fullname auto mdns_text).

Lemma mdns_inv_step m m' :
  step' m m' -> inv m ->
  inv m' /\ (close_result (advert m) <> None ->
     close_result (advert m') = close_result (advert m) /\ commands (advert m') = commands (advert m)).
Proof.
  intros Hs Hi. destruct Hs as [m t pc He Ht|m t pc answer a' pc' Ht He]; [|by eapply mdns_inv_exec].
  split; [|done]. constructor; cbn [advert threads].
  - apply owns_call; [by apply i_lock|done|by destruct He].
  - intros u p [[<- <-]|[? ?]]%lookup_insert_Some; [by destruct He|by eapply i_pc].
  - apply (i_closing _ Hi).
  - pose proof (i_log _ Hi) as Hl. case_match; [done|].
    destruct Hl as [(u & p & Hu & Hp)|]; [left|by right]. exists u, p. split; [|done].
    rewrite lookup_insert_ne; [done|]. intros ->. congruence.
Qed.

Lemma mdns_reachable_inv m : reachable' m -> inv m.
Proof.
  intros Hr. apply (rtc_invariant step' inv machine_new m); [|done|].
  - intros x y Hs Hi. by apply (mdns_inv_step x y).
  - constructor; cbn; try done.
    + intros t. rewrite lookup_empty. naive_solver.
    + right. constructor.
Qed.

(** Closing an mDNS advertisement is final.  Once the cleanup has stored its
    result, the commands sent to the daemon end with the cleanup's unregister
    (and the shutdown, unless the daemon was already gone), whatever updates
    were racing with the close; from then on nothing is ever sent to the daemon
    again, so that the service cannot be announced after its session is gone,
    and every observer gets the same stored result. *)
Theorem mdns_close_is_final (m m' : Machine) (r : Outcome) :
  reachable' m -> close_result (advert m) = Some r -> rtc step' m m' ->
  ended_log (commands (advert m)) /\
  commands (advert m') = commands (advert m) /\ close_result (advert m') = Some r.
Proof.
  intros Hr Hc Hm. pose proof (mdns_reachable_inv _ Hr) as Hi.
  pose proof (i_log _ Hi) as Hl. rewrite Hc in Hl. split; [done|]. clear Hr Hl.
  induction Hm as [m|m m1 m2 Hs _ IH]; [done|].
  destruct (mdns_inv_step _ _ Hs Hi) as [Hi' Hf]. destruct Hf as [H1 H2]; [congruence|].
  destruct IH as [IH1 IH2]; [congruence|done|]. split; congruence.
Qed.

(** An update never announces over a live announcement.  In every
    interleaving of updates and closes, each announcement after the first
    directly follows a withdrawal of the service that the daemon acknowledged,
    with no command of another update or of the cleanup in between. *)
Theorem mdns_reannounce_after_goodbye (m : Machine) (l1 l2 : list (Cmd * bool)) (ok : bool) :
  reachable' m -> commands (advert m) = l1 ++ (Register, ok) :: l2 ->
  l1 = [] \/ last l1 = Some (Unregister, true).
Proof.
  intros Hr. pose proof (mdns_reachable_inv _ Hr) as Hi.
  assert (exists l0 tail, live_log l0 /\ commands (advert m) = l0 ++ tail /\ Forall (fun c => c.1 <> Register) tail)
    as (l0 & tail & Hl & -> & Ht).
  { assert (forall l, ended_log l -> exists l0 tail, live_log l0 /\ l = l0 ++ tail /\ Forall (fun c => c.1 <> Register) tail) as He.
    { intros l (l0 & b & tail & ? & -> & Ht). exists l0, ((CleanupUnregister, b) :: tail).
      split_and!; [done..|]. constructor; [done|]. destruct Ht as [->|[? ->]]; by repeat constructor. }
    pose proof (i_log _ Hi) as Hl. case_match; [by apply He|].
    destruct Hl as [(t & pc & Hpc & Hmid)|Hl].
    - pose proof (i_pc _ Hi _ _ Hpc) as Hok. destruct pc; try discriminate Hmid.
      + destruct Hok as (_ & _ & l & b & Hl & ->). exists l, [(CleanupUnregister, b)].
        split_and!; [done..|by repeat constructor].
      + destruct Hok as (_ & _ & Hok). by apply He.
    - exists (commands (advert m)), []. by rewrite app_nil_r. }
  intros E. apply app_eq_inv in E as [(k & -> & E)|(k & -> & E)].
  - destruct k as [|c k]; simpl in E.
    + subst tail. apply Forall_cons in Ht as [? _]. done.
    + injection E as <- E. clear Ht E tail Hi Hr. 
      remember (l1 ++ (Register, ok) :: k) as l eqn:El. revert l1 k El.
      induction Hl as [|l b Hl IH|l b Hl IH Hlast]; intros l1 k El.
      * destruct l1 as [|? [|]]; simplify_eq; by left.
      * destruct k as [|x k _] using rev_ind; [by apply app_inj_tail in El as [_ ?]|].
        rewrite app_comm_cons, app_assoc in El. apply app_inj_tail in El as [-> _]. by eapply IH.
      * destruct k as [|x k _] using rev_ind; [apply app_inj_tail in El as [-> _]; by right|].
        rewrite app_comm_cons, app_assoc in El. apply app_inj_tail in El as [-> _]. by eapply IH.
  - subst. apply Forall_app in Ht as [_ Ht]. by apply Forall_cons in Ht as [? _].
Qed.
End invariant.

(** ** A concrete race *)

#[global] Instance demo_ServiceInfos : ServiceInfos string := {|
  info_new := fun st instance _ _ _ _ => Ok (instance +:+ "." +:+ st);
  get_fullname := fun i => i;
  enable_addr_auto := fun i => i
|}.

Definition demo_base : ServiceConfig := mkServiceConfig "app" "node" 4000 [] [] Udp.
Definition demo_text (e : MdnsError) : string := "mdns".

Abbreviation demo_exec := (exec (fun s => s) demo_base "node._app._udp.local." false demo_text).
Abbreviation demo_step := (step (fun s => s) demo_base "node._app._udp.local." false demo_text).

(** A schedule: a thread is started at an entry, or takes a step with the
    daemon's answer. *)
Definition act (m : Machine) (x : nat * (Pc + Result unit MdnsError)) : option Machine :=
  match x with
  | (t, inl pc) => if threads m !! t is None then Some (mkMachine (advert m) (<[t := pc]> (threads m))) else None
  | (t, inr answer) =>
      pc ← threads m !! t; '(a', pc') ← demo_exec t pc answer (advert m);
      Some (mkMachine a' (<[t := pc']> (threads m)))
  end.

Lemma mdns_act_steps l m m' :
  Forall (fun x => match x.2 with inl pc => entry pc | inr _ => True end) l ->
  foldl (fun om x => om ≫= fun m => act m x) (Some m) l = Some m' -> rtc demo_step m m'.
Proof.
  intros Hl. revert m. induction Hl as [|x l Hx _ IH]; intros m; simpl; [intros [= ->]; apply rtc_refl|].
  destruct (act m x) as [m1|] eqn:E.
  - intros Hf. apply (rtc_l _ m m1 m'); [|by apply IH]. destruct x as [t [pc|answer]]; simpl in E.
    + case_match; simplify_eq. by apply step_call.
    + destruct (threads m !! t) eqn:E1; simplify_eq/=.
      destruct (exec _ _ _ _ _ _ _ _ _) as [[]|] eqn:E2; simplify_eq/=. by eapply step_exec.
  - intros Hf. exfalso. clear IH. induction l; simpl in Hf; [done|auto].
Qed.

Definition demo_update : AdvertisementUpdate := mkAdvertisementUpdate 4001 [] [].

(** An update is between its withdrawal and its second look at [closing] when
    the close arrives. *)
Definition race : list (nat * (Pc + Result unit MdnsError)) :=
  [(0, inl (UStart demo_update))] ++ replicate 5 (0, inr (Ok tt)) ++ [(1, inl QSwap); (1, inr (Ok tt))] ++
  replicate 3 (0, inr (Ok tt)) ++ replicate 6 (1, inr (Ok tt)).

Definition raced : Machine :=
  default machine_new (foldl (fun om x => om ≫= fun m => act m x) (Some machine_new) race).

Lemma raced_reachable : rtc demo_step machine_new raced.
Proof.
  apply (mdns_act_steps race).
  - unfold race. repeat (apply Forall_app; split); repeat constructor.
  - vm_compute. reflexivity.
Qed.

Lemma mdns_close_is_final_witness :
  commands (advert raced) =
    [(Register, true); (Unregister, true); (CleanupUnregister, true); (Shutdown, true)] /\
  ended_log (commands (advert raced)).
Proof.
  split; [by vm_compute|].
  apply (mdns_close_is_final (fun s => s) demo_base "node._app._udp.local." false demo_text raced raced (Ok tt)).
  - exact raced_reachable.
  - by vm_compute.
  - apply rtc_refl.
Defined.

Lemma mdns_reannounce_after_goodbye_witness :
  exists m l1, rtc demo_step machine_new m /\ commands (advert m) = l1 ++ [(Register, true)] /\
    last l1 = Some (Unregister, true).
Proof.
  exists (default machine_new (foldl (fun om x => om ≫= fun m => act m x) (Some machine_new)
    ([(0, inl (UStart demo_update))] ++ replicate 8 (0, inr (Ok tt))))), [(Register, true); (Unregister, true)].
  assert (rtc demo_step machine_new (default machine_new (foldl (fun om x => om ≫= fun m => act m x) (Some machine_new)
    ([(0, inl (UStart demo_update))] ++ replicate 8 (0, inr (Ok tt)))))) as Hr.
  { apply (mdns_act_steps ([(0, inl (UStart demo_update))] ++ replicate 8 (0, inr (Ok tt)))).
    - repeat constructor.
    - vm_compute. reflexivity. }
  split; [exact Hr|]. split; [by vm_compute|].
  destruct (mdns_reannounce_after_goodbye (fun s => s) demo_base "node._app._udp.local." false demo_text
    _ [(Register, true); (Unregister, true)] [] true Hr ltac:(by vm_compute)) as [|Hl]; [done|exact Hl].
Defined.
