(* ===== verification/PeerBrowse.v ===== *)
(** * Peer browsing (iroh-http-discovery: lib.rs)

    [PeerBrowseShared] and [BrowseSession::next_event]: DNS-SD records feed the
    endpoint's source-scoped lookup, and what the lookup then says is reported
    to the host.  [apply_peer_record] is the sequential part; the machine below
    it interleaves polls, closes and the installation of the task that watches
    the endpoint. *)

From stdpp Require Import base numbers list strings sets gmap fin_maps relations.
From Stdlib Require Import ZArith Lia Strings.Ascii.
From S2P Require Import Prelude Threads Text Net Lookup DnsSd PeerPolicy.

Open Scope string_scope.
Open Scope list_scope.

Section peer_browse.
Context {Id Relay D : Type} `{Countable Id}.
Context `{NET : IrohNet Id Relay} `{ED : EndpointData Relay D}.
Context (debug_str : string -> string).

Definition from_removal (r : AddressLookupRemoval) : PeerDiscoveryEvent :=
  mkPeerEvent (has_remaining_contributions r) (rm_node_id r) (remaining_addrs r).

Definition apply_peer_record (source : Z) (record : ServiceRecord) (l : Lookup Id D)
  : list PeerDiscoveryEvent * Lookup Id D :=
  match peer_event_from_record record with
  | None => ([], l)
  | Some event =>
      if pe_is_active event then
        match upsert debug_str source (sr_instance_name record) (pe_node_id event) (pe_addrs event) l with
        | (Ok update, l) =>
            (map from_removal (option_list (replaced update)) ++
               [mkPeerEvent (pe_is_active event) (up_node_id update) (effective_addrs update)], l)
        | (Err error, l) => (map from_removal (option_list (ue_removal error)), l)
        end
      else
        let '(removal, l) := remove_with_snapshot source (sr_instance_name record) l in
        (map from_removal (option_list removal), l)
  end.

(** ** The machine *)

(** What follows [close]. *)
Inductive Cont := KReturn | KDone.

Inductive Pc :=
(** [next_event] *)
| EGate
| ELoop
| EPop
| ERecheck (event : PeerDiscoveryEvent)
| ENext
| EApply (record : ServiceRecord)
| ELock (event : PeerDiscoveryEvent) (events : list PeerDiscoveryEvent)
| ELocked (event : PeerDiscoveryEvent) (events : list PeerDiscoveryEvent)
| EExtend (event : PeerDiscoveryEvent) (events : list PeerDiscoveryEvent)
| EReturn (r : option PeerDiscoveryEvent)
(** [close] *)
| CSwap (k : Cont)
| CClear (k : Cont)
| CRetire (k : Cont)
| CSweep (k : Cont)
| CInner (k : Cont)
| CTask (k : Cont)
(** [install_endpoint_task] *)
| ILock
| ILoad
| IStore
(** finished *)
| Returned (r : option PeerDiscoveryEvent)
| Finished
| Dropped.

(** The task that waits for the endpoint to close. *)
Inductive EndpointTask := Running | Stored | Aborted.

Record Shared := mkShared {
  next_event_gate : option nat;
  pending_lock : option nat;
  pending : list PeerDiscoveryEvent;
  closed : bool;
  lookup : Lookup Id D;
  source : Z;
  inner_closed : bool;
  task_lock : option nat;
  endpoint_task : EndpointTask
}.

Definition set_gate g s := mkShared g (pending_lock s) (pending s) (closed s) (lookup s) (source s)
  (inner_closed s) (task_lock s) (endpoint_task s).
Definition set_pending_lock l s := mkShared (next_event_gate s) l (pending s) (closed s) (lookup s) (source s)
  (inner_closed s) (task_lock s) (endpoint_task s).
Definition set_pending p s := mkShared (next_event_gate s) (pending_lock s) p (closed s) (lookup s) (source s)
  (inner_closed s) (task_lock s) (endpoint_task s).
Definition set_closed s := mkShared (next_event_gate s) (pending_lock s) (pending s) true (lookup s) (source s)
  (inner_closed s) (task_lock s) (endpoint_task s).
Definition set_lookup l s := mkShared (next_event_gate s) (pending_lock s) (pending s) (closed s) l (source s)
  (inner_closed s) (task_lock s) (endpoint_task s).
Definition set_inner_closed s := mkShared (next_event_gate s) (pending_lock s) (pending s) (closed s) (lookup s)
  (source s) true (task_lock s) (endpoint_task s).
Definition set_task_lock l s := mkShared (next_event_gate s) (pending_lock s) (pending s) (closed s) (lookup s)
  (source s) (inner_closed s) l (endpoint_task s).
Definition set_task x s := mkShared (next_event_gate s) (pending_lock s) (pending s) (closed s) (lookup s)
  (source s) (inner_closed s) (task_lock s) x.

Definition continue (k : Cont) : Pc := match k with KReturn => EReturn None | KDone => Finished end.

(** One atomic action of thread [t]; [answer] is what [inner.next()] gives. *)
Definition exec (t : nat) (pc : Pc) (answer : Result (option RawEvent) TransportError) (s : Shared)
  : option (Shared * Pc) :=
  match pc with
  | EGate => match next_event_gate s with None => Some (set_gate (Some t) s, ELoop) | Some _ => None end
  | ELoop => Some (s, if closed s then EReturn None else EPop)
  | EPop =>
      match pending_lock s, pending s with
      | Some _, _ => None
      | None, event :: rest => Some (set_pending rest s, ERecheck event)
      | None, [] => Some (s, ENext)
      end
  | ERecheck event => Some (s, EReturn (if closed s then None else Some event))
  | ENext =>
      match answer with
      | Ok (Some event) => Some (s, EApply (record_of_event event))
      | Ok None | Err _ => Some (s, CSwap KReturn)
      end
  | EApply record =>
      let '(events, l) := apply_peer_record (source s) record (lookup s) in
      Some (set_lookup l s, match events with [] => ELoop | event :: events => ELock event events end)
  | ELock event events =>
      match pending_lock s with None => Some (set_pending_lock (Some t) s, ELocked event events) | Some _ => None end
  | ELocked event events =>
      if closed s then Some (set_pending_lock None s, EReturn None) else Some (s, EExtend event events)
  | EExtend event events =>
      Some (set_pending_lock None (set_pending (pending s ++ events) s), EReturn (Some event))
  | EReturn r => Some (set_gate None s, Returned r)
  | CSwap k => if closed s then Some (s, continue k) else Some (set_closed s, CClear k)
  | CClear k => match pending_lock s with None => Some (set_pending [] s, CRetire k) | Some _ => None end
  | CRetire k =>
      let '(was, l) := retire_swap (source s) (lookup s) in
      Some (set_lookup l s, if was : bool then CInner k else CSweep k)
  | CSweep k => Some (set_lookup (retire_sweep (source s) (lookup s)) s, CInner k)
  | CInner k => Some (set_inner_closed s, CTask k)
  | CTask k =>
      match task_lock s with
      | None => Some (match endpoint_task s with Stored => set_task Aborted s | _ => s end, continue k)
      | Some _ => None
      end
  | ILock => match task_lock s with None => Some (set_task_lock (Some t) s, ILoad) | Some _ => None end
  | ILoad => if closed s then Some (set_task_lock None (set_task Aborted s), Finished) else Some (s, IStore)
  | IStore => Some (set_task_lock None (set_task Stored s), Finished)
  | Returned _ | Finished | Dropped => None
  end.

(** Dropping a [next_event] future at one of its awaits. *)
Definition cancel (pc : Pc) (s : Shared) : option Shared :=
  match pc with EGate => Some s | ENext => Some (set_gate None s) | _ => None end.

Inductive entry : Pc -> Prop :=
| call_next_event : entry EGate
| call_close : entry (CSwap KDone).

Record Machine := mkMachine { shared : Shared; threads : gmap nat Pc }.

(** Other browses of the same endpoint change the lookup as well, through their
    own sources. *)
Inductive step : Machine -> Machine -> Prop :=
| step_call m t pc : entry pc -> threads m !! t = None -> step m (mkMachine (shared m) (<[t := pc]> (threads m)))
| step_exec m t pc answer s' pc' :
    threads m !! t = Some pc -> exec t pc answer (shared m) = Some (s', pc') ->
    step m (mkMachine s' (<[t := pc']> (threads m)))
| step_cancel m t pc s' :
    threads m !! t = Some pc -> cancel pc (shared m) = Some s' ->
    step m (mkMachine s' (<[t := Dropped]> (threads m)))
| step_other m l' :
    lookup_step debug_str (lookup (shared m)) l' ->
    leases l' !! source (shared m) = leases (lookup (shared m)) !! source (shared m) ->
    (forall i, contributions (state l') !! (source (shared m), i) =
               contributions (state (lookup (shared m))) !! (source (shared m), i)) ->
    step m (mkMachine (set_lookup l' (shared m)) (threads m)).

(** [PeerBrowseShared::new] on a fresh source, with thread 0 installing the
    endpoint task ([browse_peers_with_engine]). *)
Definition start (l : Lookup Id D) (src : Z) : Machine :=
  mkMachine (mkShared None None [] false l src false None Running) {[0 := ILock]}.

Definition reachable_from (l : Lookup Id D) (src : Z) (m : Machine) : Prop := rtc step (start l src) m.

(** ** Events and the lookup *)

(** [ev] is what the source says about endpoint [e] in [l]. *)
Definition describes (src : Z) (l : Lookup Id D) (e : Id) (ev : PeerDiscoveryEvent) : Prop :=
  pe_node_id ev = b32_encode (id_as_bytes e) /\
  pe_addrs ev = source_effective_addrs (state l) src e /\
  (pe_is_active ev = true <-> exists i c, contributions (state l) !! (src, i) = Some c /\ c_endpoint_id c = e).

(** Every contribution carries the text form of its endpoint id. *)
Definition node_ids_ok (l : Lookup Id D) : Prop :=
  forall k c, contributions (state l) !! k = Some c -> c_node_id c = b32_encode (id_as_bytes (c_endpoint_id c)).

Context `{!EndpointDataLaws Relay D}.

Lemma node_ids_change (l l' : Lookup Id D) k oc :
  node_ids_ok l -> contributions (state l') = partial_alter (fun _ => oc) k (contributions (state l)) ->
  (forall c, oc = Some c -> c_node_id c = b32_encode (id_as_bytes (c_endpoint_id c))) -> node_ids_ok l'.
Proof.
  intros Hn Hc Ho k' c E. rewrite Hc in E. destruct (decide (k' = k)) as [->|Hne].
  - rewrite lookup_partial_alter_eq in E. by apply Ho.
  - rewrite lookup_partial_alter_ne in E by done. by eapply Hn.
Qed.

(** A change of one key concerns only the endpoints it held before and after. *)
Lemma contributed_by_change (st st' : State Id D) src i oc e a :
  contributions st' = partial_alter (fun _ => oc) (src, i) (contributions st) ->
  (forall c, oc = Some c -> c_endpoint_id c <> e) ->
  (forall c, contributions st !! (src, i) = Some c -> c_endpoint_id c <> e) ->
  contributed_by src st e a <-> contributed_by src st' e a.
Proof.
  intros Hc Hn Ho. unfold contributed_by. split; intros (j & c & E & He & Ha); exists j, c.
  - split; [|done]. rewrite Hc. rewrite lookup_partial_alter_ne; [done|]. intros [= <-]. by apply Ho in E.
  - split; [|done]. rewrite Hc in E. destruct (decide (j = i)) as [->|Hne].
    + rewrite lookup_partial_alter_eq in E. by apply Hn in E.
    + rewrite lookup_partial_alter_ne in E by congruence. done.
Qed.

Lemma describes_removal (src : Z) (l : Lookup Id D) e :
  describes src l e (from_removal (removal_snapshot (state l) src e (b32_encode (id_as_bytes e)))).
Proof. unfold describes, from_removal. cbn. split_and!; [done..|]. apply (has_remaining_spec (state l) src e ""). Qed.

Definition tracks (src : Z) (l l' : Lookup Id D) (events : list PeerDiscoveryEvent) : Prop :=
  (forall ev, ev ∈ events -> exists e, describes src l' e ev) /\
  (forall e, (exists ev, ev ∈ events /\ describes src l' e ev) \/
     forall a, contributed_by src (state l) e a <-> contributed_by src (state l') e a) /\
  node_ids_ok l'.

(** Removing an instance. *)
Lemma tracks_remove (src : Z) (l : Lookup Id D) i :
  node_ids_ok l ->
  let r := remove_contribution (state l) (src, i) in
  tracks src l (mkLookup r.2 (leases l)) (map from_removal (option_list r.1)).
Proof.
  intros Hn r. unfold r. pose proof (proj1 (remove_contribution_contributions (state l) (src, i))) as Hc.
  unfold remove_contribution in *. destruct (contributions (state l) !! (src, i)) as [o|] eqn:E; simpl in *.
  - set (l' := mkLookup _ (leases l)).
    assert (describes src l' (c_endpoint_id o)
      (from_removal (removal_snapshot (state l') src (c_endpoint_id o) (c_node_id o)))) as Hd.
    { rewrite (Hn _ _ E). apply describes_removal. }
    split_and!.
    + intros ev ->%list_elem_of_singleton. by exists (c_endpoint_id o).
    + intros e. destruct (decide (e = c_endpoint_id o)) as [->|Hne].
      * left. eexists. split; [by apply list_elem_of_singleton|done].
      * right. intros a. apply (contributed_by_change _ _ _ i None); [done|done|]. rewrite E. naive_solver.
    + by apply (node_ids_change l l' (src, i) None).
  - split_and!; [by intros ev ?%not_elem_of_nil|by right|done].
Qed.

(** Recording an instance under an endpoint. *)
Lemma tracks_upsert (src : Z) (l : Lookup Id D) i id addrs :
  node_ids_ok l ->
  let c := mkContribution id (b32_encode (id_as_bytes id)) (endpoint_data addrs) in
  let l' := mkLookup (upsert_state (src, i) c (state l)) (leases l) in
  tracks src l l'
    (map from_removal (option_list
       (match contributions (state l) !! (src, i) with
        | Some o => if bool_decide (c_endpoint_id o <> id)
                    then Some (removal_snapshot (state l') src (c_endpoint_id o) (c_node_id o)) else None
        | None => None
        end)) ++ [mkPeerEvent true (b32_encode (id_as_bytes id)) (source_effective_addrs (state l') src id)]).
Proof.
  intros Hn c l'.
  assert (contributions (state l') = <[(src, i) := c]> (contributions (state l))) as Hc
    by apply upsert_state_contributions.
  set (last := mkPeerEvent true _ _).
  assert (describes src l' id last) as Hlast.
  { unfold describes, last; cbn [pe_node_id pe_addrs pe_is_active]. split_and!; [done..|]. split; [|done]. intros _.
    exists i, c. rewrite Hc. by rewrite lookup_insert_eq. }
  assert (node_ids_ok l') as Hn' by (apply (node_ids_change l l' (src, i) (Some c)); [done|done|naive_solver]).
  assert (forall e, e <> id -> (forall o, contributions (state l) !! (src, i) = Some o -> c_endpoint_id o <> e) ->
    forall a, contributed_by src (state l) e a <-> contributed_by src (state l') e a) as Hkeep.
  { intros e He Ho a. apply (contributed_by_change _ _ _ i (Some c)); [done|naive_solver|done]. }
  destruct (contributions (state l) !! (src, i)) as [o|] eqn:E; [case_bool_decide as Ho|];
    cbn [option_list map app]; (split_and!; [| |done]).
  - intros ev [Hev|Hev%list_elem_of_singleton]%elem_of_cons; subst ev; eauto.
    exists (c_endpoint_id o). rewrite (Hn _ _ E). apply describes_removal.
  - intros e. destruct (decide (e = id)) as [->|]; [left; exists last; set_solver|].
    destruct (decide (e = c_endpoint_id o)) as [->|]; [|right; apply Hkeep; naive_solver].
    left. eexists. split; [by left|]. rewrite (Hn _ _ E). apply describes_removal.
  - intros ev Hev%list_elem_of_singleton. subst ev. eauto.
  - intros e. destruct (decide (e = id)) as [->|]; [left; exists last; set_solver|]. right. apply Hkeep; [done|].
    intros ? [= <-]. destruct (decide (c_endpoint_id o = id)); naive_solver.
  - intros ev Hev%list_elem_of_singleton. subst ev. eauto.
  - intros e. destruct (decide (e = id)) as [->|]; [left; exists last; set_solver|]. right. by apply Hkeep.
Qed.

(** C21. Peer events are the lookup's own account.  When a record of a live
    browse is applied, every event that results describes, after the change,
    one endpoint as this source contributes it: its id in text form, exactly
    its addresses, and active exactly when the source still advertises it; and
    an endpoint that no event describes has kept its contributions.  In
    particular an instance that moves to another endpoint, and one that turns
    invalid, are reported as leaving the old one. *)
Theorem peer_events_track_lookup (src : Z) (record : ServiceRecord) (l : Lookup Id D) :
  node_ids_ok l -> leases l !! src = Some Live ->
  let r := apply_peer_record src record l in
  (forall ev, ev ∈ r.1 -> exists e, describes src r.2 e ev) /\
  (forall e, (exists ev, ev ∈ r.1 /\ describes src r.2 e ev) \/
     forall a, contributed_by src (state l) e a <-> contributed_by src (state r.2) e a) /\
  node_ids_ok r.2.
Proof.
  intros Hn Hl. pose proof (proj2 (lease_live src l) Hl) as Hlr.
  cbn zeta. change (tracks src l (apply_peer_record src record l).2 (apply_peer_record src record l).1).
  unfold apply_peer_record. destruct (peer_event_from_record record) as [event|].
  2:{ split_and!; [by intros ev ?%not_elem_of_nil|by right|done]. }
  destruct (pe_is_active event) eqn:Ea.
  - destruct (parse_endpoint_id (pe_node_id event)) as [id|err] eqn:Ep.
    + rewrite (upsert_live_ok _ _ _ _ _ _ id) by done.
      apply (tracks_upsert src l (sr_instance_name record) id (pe_addrs event) Hn).
    + pose proof (tracks_remove src l (sr_instance_name record) Hn) as Ht. unfold upsert. rewrite Hlr, Ep.
      cbn zeta in Ht. by destruct (remove_contribution (state l) (src, sr_instance_name record)).
  - pose proof (tracks_remove src l (sr_instance_name record) Hn) as Ht.
    unfold remove_with_snapshot. rewrite Hlr.
    cbn zeta in Ht. by destruct (remove_contribution (state l) (src, sr_instance_name record)).
Qed.
End peer_browse.
