(* ===== verification/PeerBrowseProps.v ===== *)
(** * Properties of peer browsing: closing

    However polls, cancellations, closes and the installation of the endpoint
    task interleave, a closed browse leaves nothing behind. *)

From stdpp Require Import base numbers list strings sets gmap fin_maps relations.
From Stdlib Require Import ZArith Lia Strings.Ascii.
From S2P Require Import Prelude Threads Text Net Lookup DnsSd PeerPolicy PeerBrowse.

Section props.
Context {Id Relay D : Type} `{Countable Id}.
Context `{NET : IrohNet Id Relay} `{ED : EndpointData Relay D}.
Context (debug_str : string -> string).

Abbreviation Machine' := (Machine (Id := Id) (D := D)).
Abbreviation Shared' := (Shared (Id := Id) (D := D)).

(** ** The invariant *)

Definition holds_pending (pc : Pc) : bool :=
  match pc with ELocked _ _ | EExtend _ _ => true | _ => false end.
Definition holds_task (pc : Pc) : bool := match pc with ILoad | IStore => true | _ => false end.
Definition extending (pc : Pc) : bool := match pc with EExtend _ _ => true | _ => false end.
Definition closing (pc : Pc) : bool :=
  match pc with CClear _ | CRetire _ | CSweep _ | CInner _ | CTask _ => true | _ => false end.

Definition lease_of (s : Shared') : option LeaseState := leases (lookup s) !! source s.

(** No event is queued, and none will be. *)
Definition drained (m : Machine') : Prop :=
  pending (shared m) = [] /\ forall t pc, threads m !! t = Some pc -> extending pc = false.
(** The source has left the lookup. *)
Definition gone (s : Shared') : Prop :=
  lease_of s = Some Retired /\ forall i, contributions (state (lookup s)) !! (source s, i) = None.
(** The endpoint task is not kept. *)
Definition task_gone (m : Machine') : Prop :=
  endpoint_task (shared m) <> Stored /\ forall t, threads m !! t <> Some IStore.

Definition stage_ok (m : Machine') (pc : Pc) : Prop :=
  match pc with
  | CClear _ => lease_of (shared m) = Some Live
  | CRetire _ => lease_of (shared m) = Some Live /\ drained m
  | CSweep _ => lease_of (shared m) = Some Retiring /\ drained m
  | CInner _ => gone (shared m) /\ drained m
  | CTask _ => gone (shared m) /\ drained m /\ inner_closed (shared m) = true
  | _ => True
  end.

Inductive phase (m : Machine') : Prop :=
| phase_open :
    closed (shared m) = false -> lease_of (shared m) = Some Live ->
    (forall t pc, threads m !! t = Some pc -> closing pc = false) -> phase m
| phase_closing t pc :
    closed (shared m) = true -> threads m !! t = Some pc -> closing pc = true ->
    (forall t' pc', threads m !! t' = Some pc' -> closing pc' = true -> t' = t) ->
    stage_ok m pc -> phase m
| phase_closed :
    closed (shared m) = true -> (forall t pc, threads m !! t = Some pc -> closing pc = false) ->
    gone (shared m) -> drained m -> inner_closed (shared m) = true -> task_gone m -> phase m.

Definition installing (pc : Pc) : bool := match pc with ILock | ILoad | IStore => true | _ => false end.

Record inv (m : Machine') : Prop := {
  i_pending : owns holds_pending (pending_lock (shared m)) (threads m);
  i_task : owns holds_task (task_lock (shared m)) (threads m);
  i_phase : phase m;
  i_install : endpoint_task (shared m) = Running ->
    exists pc, threads m !! 0 = Some pc /\ installing pc = true
}.

(** ** Applying a record *)

Lemma upsert_leases s i n a (l : Lookup Id D) : leases (upsert debug_str s i n a l).2 = leases l.
Proof.
  unfold upsert. destruct (lease_retired s l); [done|]. destruct (parse_endpoint_id n); [done|].
  by destruct (remove_contribution _ _).
Qed.

Lemma apply_leases src rec (l : Lookup Id D) : leases (apply_peer_record debug_str src rec l).2 = leases l.
Proof.
  unfold apply_peer_record. destruct (peer_event_from_record rec) as [ev|]; [|done].
  destruct (pe_is_active ev).
  - pose proof (upsert_leases src (sr_instance_name rec) (pe_node_id ev) (pe_addrs ev) l) as Hu.
    by destruct (upsert _ _ _ _ _ l) as [[] ?].
  - unfold remove_with_snapshot. destruct (lease_retired src l); [done|]. by destruct (remove_contribution _ _).
Qed.

Lemma apply_retired src rec (l : Lookup Id D) :
  leases l !! src <> Some Live -> (apply_peer_record debug_str src rec l).2 = l.
Proof.
  intros Hl. assert (lease_retired src l = true) as Hr.
  { destruct (lease_retired src l) eqn:E; [done|]. by apply lease_live in E. }
  unfold apply_peer_record, upsert, remove_with_snapshot. rewrite Hr. by repeat case_match.
Qed.

(** ** What a thread outside [close] can do *)

Record calm (s s' : Shared') (pc pc' : Pc) : Prop := {
  k_closed : closed s' = closed s;
  k_source : source s' = source s;
  k_lease : lease_of s' = lease_of s;
  k_contrib : lease_of s <> Some Live -> forall i,
    contributions (state (lookup s')) !! (source s, i) = contributions (state (lookup s)) !! (source s, i);
  k_inner : inner_closed s' = inner_closed s;
  k_pending : extending pc = false -> pending s = [] -> pending s' = [];
  k_extend : extending pc' = true -> closed s = false;
  k_task : pc <> IStore -> endpoint_task s <> Stored -> endpoint_task s' <> Stored;
  k_store : pc' = IStore -> closed s = false;
  k_closing : closing pc' = false
}.

Lemma exec_calm t pc answer s s' pc' :
  exec debug_str t pc answer s = Some (s', pc') -> closing pc = false ->
  (forall k, pc = CSwap k -> closed s = true) -> calm s s' pc pc'.
Proof.
  intros He Hc Hk. destruct pc as [| | | | |rec| | | | |k| | | | | | | | | | |]; try discriminate Hc; unfold exec in He.
  6:{ destruct (apply_peer_record debug_str (source s) rec (lookup s)) as [evs l] eqn:E. simplify_eq.
      pose proof (apply_leases (source s) rec (lookup s)) as Hl.
      pose proof (apply_retired (source s) rec (lookup s)) as Hr. rewrite E in Hl, Hr. simpl in *.
      constructor; try done.
      - unfold lease_of. simpl. by rewrite Hl.
      - intros Hn i. simpl. by rewrite Hr.
      - by destruct evs.
      - by destruct evs.
      - by destruct evs. }
  10:{ rewrite (Hk k eq_refl) in He. simplify_eq. by constructor; destruct k. }
  all: repeat case_match; simplify_eq; constructor; simpl; intros; try done; try congruence; naive_solver.
Qed.

Lemma gone_calm s s' pc pc' : calm s s' pc pc' -> gone s -> gone s'.
Proof.
  intros Hc [Hl Hn]. split; [by rewrite (k_lease _ _ _ _ Hc)|]. intros i.
  rewrite (k_source _ _ _ _ Hc), (k_contrib _ _ _ _ Hc) by congruence. apply Hn.
Qed.

Lemma drained_calm m s' t pc' :
  calm (shared m) s' (default Finished (threads m !! t)) pc' -> closed (shared m) = true -> drained m ->
  drained (mkMachine s' (<[t := pc']> (threads m))).
Proof.
  intros Hc Hcl [Hp Hn]. split; cbn [shared threads].
  - apply (k_pending _ _ _ _ Hc); [|done]. destruct (threads m !! t) eqn:E; [by eapply Hn|done].
  - intros u p [[<- <-]|[? ?]]%lookup_insert_Some; [|eauto].
    destruct (extending pc') eqn:E; [|done]. apply (k_extend _ _ _ _ Hc) in E. congruence.
Qed.

Lemma stage_calm m s' t pc' q :
  calm (shared m) s' (default Finished (threads m !! t)) pc' -> closed (shared m) = true ->
  stage_ok m q -> stage_ok (mkMachine s' (<[t := pc']> (threads m))) q.
Proof.
  intros Hc Hcl. pose proof (k_lease _ _ _ _ Hc) as Hl. pose proof (k_inner _ _ _ _ Hc) as Hi.
  destruct q; simpl; try done; rewrite ?Hl, ?Hi; try done; intros; destruct_and?; split_and?;
    eauto using drained_calm, gone_calm.
Qed.

Lemma phase_calm m s' t pc' :
  phase m -> calm (shared m) s' (default Finished (threads m !! t)) pc' ->
  (forall pc, threads m !! t = Some pc -> closing pc = false) ->
  phase (mkMachine s' (<[t := pc']> (threads m))).
Proof.
  intros Hp Hc Hpc. pose proof (k_closed _ _ _ _ Hc) as Hcl. pose proof (k_closing _ _ _ _ Hc) as Hk.
  destruct Hp as [H1 H2 H3|u q H1 H2 H3 H4 H5|H1 H2 H3 H4 H5 [H6 H7]].
  - apply phase_open; cbn [shared threads]; [congruence|by rewrite (k_lease _ _ _ _ Hc)|].
    intros v p [[<- <-]|[? ?]]%lookup_insert_Some; eauto.
  - assert (u <> t) as Hne by (intros ->; apply Hpc in H2; congruence).
    apply (phase_closing _ u q); cbn [shared threads]; [congruence|by rewrite lookup_insert_ne|done| |].
    + intros v p [[<- <-]|[? ?]]%lookup_insert_Some; [congruence|eauto].
    + by apply stage_calm.
  - apply phase_closed; cbn [shared threads]; [congruence| |by eapply gone_calm|by apply drained_calm| |].
    + intros v p [[<- <-]|[? ?]]%lookup_insert_Some; eauto.
    + by rewrite (k_inner _ _ _ _ Hc).
    + split; cbn [shared threads].
      * apply (k_task _ _ _ _ Hc); [|done]. specialize (H7 t). destruct (threads m !! t); simpl; congruence.
      * intros v [[<- ->]|[_ E]]%lookup_insert_Some; [|by eapply H7].
        pose proof (k_store _ _ _ _ Hc eq_refl). congruence.
Qed.

(** ** What the closing thread does *)

Lemma peer_phase_winner m t pc :
  phase m -> threads m !! t = Some pc -> closing pc = true ->
  closed (shared m) = true /\ stage_ok m pc /\
  (forall t' pc', threads m !! t' = Some pc' -> closing pc' = true -> t' = t).
Proof.
  intros Hp Ht Hc. destruct Hp as [H1 H2 H3|u q H1 H2 H3 H4 H5|H1 H2].
  - apply H3 in Ht. congruence.
  - pose proof (H4 _ _ Ht Hc) as ->. simplify_eq. done.
  - apply H2 in Ht. congruence.
Qed.

Lemma drained_insert m s' t pc' :
  drained m -> pending s' = pending (shared m) -> extending pc' = false ->
  drained (mkMachine s' (<[t := pc']> (threads m))).
Proof.
  intros [Hp Hn] He Hx. split; cbn [shared threads]; [congruence|].
  intros u p [[<- <-]|[? ?]]%lookup_insert_Some; eauto.
Qed.

(** The stage the closing thread reaches; [None] when it leaves [close]. *)
Lemma exec_stage m t pc answer s' pc' :
  inv m -> threads m !! t = Some pc -> closing pc = true -> stage_ok m pc -> closed (shared m) = true ->
  exec debug_str t pc answer (shared m) = Some (s', pc') ->
  closed s' = true /\
  let m' := mkMachine s' (<[t := pc']> (threads m)) in
  if closing pc' then stage_ok m' pc'
  else gone s' /\ drained m' /\ inner_closed s' = true /\ task_gone m'.
Proof.
  intros Hi Ht Hc Hok Hcl He. destruct pc as [| | | | | | | | | |k|k|k|k|k|k| | | | | |]; try discriminate Hc; unfold exec in He;
    simpl in Hok.
  - destruct (pending_lock (shared m)) eqn:El; [done|]. simplify_eq. split; [done|]. cbn zeta.
    split; [done|]. split; [done|]. cbn [shared threads].
    intros u p [[<- <-]|[Hne Hu]]%lookup_insert_Some; [done|]. destruct (extending p) eqn:Ee; [|done].
    pose proof (i_pending _ Hi) as Ho. rewrite El in Ho.
    assert (None = Some u) by (apply Ho; exists p; split; [done|by destruct p]). done.
  - destruct Hok as [Hl Hd]. unfold lease_of in Hl.
    unfold retire_swap in He. rewrite (proj2 (lease_live _ _) Hl) in He. simplify_eq.
    split; [done|]. cbn zeta. split.
    + unfold lease_of. cbn. apply lookup_insert_eq.
    + by apply drained_insert.
  - destruct Hok as [Hl Hd]. simplify_eq. split; [done|]. cbn zeta. split; [split|by apply drained_insert].
    + unfold lease_of. cbn. apply lookup_insert_eq.
    + intros i. cbn [shared lookup set_lookup source]. rewrite retire_sweep_contributions. by rewrite decide_True.
  - destruct Hok as [Hg Hd]. simplify_eq. split; [done|]. cbn zeta. split; [exact Hg|].
    split; [by apply drained_insert|done].
  - destruct Hok as (Hg & Hd & Hin). destruct (task_lock (shared m)) eqn:El; [done|]. injection He as <- <-.
    assert (closing (continue k) = false) as -> by (by destruct k).
    split; [by case_match|]. cbn zeta. split_and!.
    + destruct (endpoint_task (shared m)); exact Hg.
    + apply drained_insert; [done|by case_match|by destruct k].
    + by case_match.
    + split; cbn [shared threads].
      * destruct (endpoint_task (shared m)) eqn:Et; cbn; congruence.
      * intros u [[_ E]|[_ E]]%lookup_insert_Some; [by destruct k|].
        pose proof (i_task _ Hi) as Ho. rewrite El in Ho.
        assert (None = Some u) by (apply Ho; eauto). done.
Qed.

Lemma exec_pending t pc answer s s' pc' :
  exec debug_str t pc answer s = Some (s', pc') -> owner_step holds_pending t pc pc' (pending_lock s) (pending_lock s').
Proof.
  unfold owner_step. intros He. destruct pc as [| | | | | | | | | |k|k|k|k|k|k| | | | | |]; unfold exec in He;
    repeat case_match; simplify_eq/=; auto; try (destruct k; simpl; auto).
Qed.

Lemma exec_task t pc answer s s' pc' :
  exec debug_str t pc answer s = Some (s', pc') -> owner_step holds_task t pc pc' (task_lock s) (task_lock s').
Proof.
  unfold owner_step. intros He. destruct pc as [| | | | | | | | | |k|k|k|k|k|k| | | | | |]; unfold exec in He;
    repeat case_match; simplify_eq/=; auto; try (destruct k; simpl; auto).
Qed.

(** Only the installer ends the first state of the endpoint task. *)
Lemma exec_install t pc answer s s' pc' :
  exec debug_str t pc answer s = Some (s', pc') -> endpoint_task s' = Running ->
  endpoint_task s = Running /\ (installing pc = true -> installing pc' = true).
Proof.
  intros He. destruct pc as [| | | | | | | | | |k|k|k|k|k|k| | | | | |]; unfold exec in He;
    repeat case_match; simplify_eq/=; try done; intros; simplify_eq/=; split; try done; congruence.
Qed.

Lemma phase_swap m t k :
  phase m -> threads m !! t = Some (CSwap k) -> closed (shared m) = false ->
  phase (mkMachine (set_closed (shared m)) (<[t := CClear k]> (threads m))).
Proof.
  intros Hp Ht Hf. destruct Hp as [_ H2 H3|u q H1|H1]; [|congruence..].
  apply (phase_closing _ t (CClear k)); cbn [shared threads]; try done.
  - by rewrite lookup_insert_eq.
  - intros v p [[<- <-]|[? Hv]]%lookup_insert_Some; [done|]. apply H3 in Hv. congruence.
Qed.

Lemma phase_exec m t pc answer s' pc' :
  inv m -> threads m !! t = Some pc -> exec debug_str t pc answer (shared m) = Some (s', pc') ->
  phase (mkMachine s' (<[t := pc']> (threads m))).
Proof.
  intros Hi Ht He. pose proof (i_phase _ Hi) as Hp. destruct (closing pc) eqn:Ec.
  - destruct (peer_phase_winner _ _ _ Hp Ht Ec) as (Hcl & Hok & Huniq).
    destruct (exec_stage _ _ _ _ _ _ Hi Ht Ec Hok Hcl He) as [Hcl' Hst]. cbn zeta in Hst.
    assert (forall u p, <[t := pc']> (threads m) !! u = Some p -> closing p = true -> u = t) as Hu'.
    { intros u p [[<- <-]|[Hne Hu]]%lookup_insert_Some Hcp; [done|eauto]. }
    destruct (closing pc') eqn:Ec'.
    + apply (phase_closing _ t pc'); cbn [shared threads]; try done. by rewrite lookup_insert_eq.
    + destruct Hst as (? & ? & ? & ?). apply phase_closed; try done. cbn [threads].
      intros u p Hu. destruct (closing p) eqn:Ep; [|done]. rewrite (Hu' _ _ Hu Ep) in Hu.
      rewrite lookup_insert_eq in Hu. congruence.
  - assert ((exists k, pc = CSwap k /\ closed (shared m) = false) \/
            (forall k, pc = CSwap k -> closed (shared m) = true)) as [(k & -> & Hf)|Hk].
    { destruct pc; try (right; done). destruct (closed (shared m)); [right|left]; eauto. }
    + unfold exec in He. rewrite Hf in He. simplify_eq. by apply phase_swap.
    + apply phase_calm; [done| |intros; by simplify_eq]. rewrite Ht. by eapply exec_calm.
Qed.

Lemma calm_refl s pc pc' :
  extending pc' = false -> pc' <> IStore -> closing pc' = false -> calm s s pc pc'.
Proof. intros. constructor; try done; congruence. Qed.

Lemma peer_entry_plain pc :
  entry pc -> holds_pending pc = false /\ holds_task pc = false /\ extending pc = false /\ pc <> IStore /\
    closing pc = false.
Proof. by destruct 1. Qed.

Abbreviation step' := (step debug_str).

Lemma phase_other m l' :
  phase m ->
  leases l' !! source (shared m) = lease_of (shared m) ->
  (forall i, contributions (state l') !! (source (shared m), i) =
             contributions (state (lookup (shared m))) !! (source (shared m), i)) ->
  phase (mkMachine (set_lookup l' (shared m)) (threads m)).
Proof.
  intros Hp Hl Hn.
  assert (gone (shared m) -> gone (set_lookup l' (shared m))) as Hg.
  { intros [Hg Hc]. split; [unfold lease_of; cbn; congruence|]. intros i. cbn. rewrite Hn. apply Hc. }
  destruct Hp as [H1 H2 H3|u q H1 H2 H3 H4 H5|H1 H2 H3 H4 H5 H6].
  - apply phase_open; cbn; [done|unfold lease_of; cbn; congruence|done].
  - apply (phase_closing _ u q); try done. destruct q; simpl in *; unfold lease_of in *; cbn in *;
      rewrite ?Hl; naive_solver.
  - apply phase_closed; try done. by apply Hg.
Qed.

Lemma peer_inv_step m m' : step' m m' -> inv m -> inv m'.
Proof.
  intros Hs Hi. destruct Hs as [m t pc He Ht|m t pc answer s' pc' Ht He|m t pc s' Ht He|m l' Hl H1 H2].
  - apply peer_entry_plain in He as (? & ? & ? & ? & ?). constructor; cbn [shared threads].
    + by apply owns_call; [apply i_pending|..].
    + by apply owns_call; [apply i_task|..].
    + apply phase_calm; [by apply i_phase|by apply calm_refl|congruence].
    + intros Hr. destruct (i_install _ Hi Hr) as (p & Hp & ?). exists p.
      rewrite lookup_insert_ne; [done|]. congruence.
  - constructor; cbn [shared threads].
    + eapply owns_step; [by apply i_pending|done|by eapply exec_pending].
    + eapply owns_step; [by apply i_task|done|by eapply exec_task].
    + by eapply phase_exec.
    + intros Hr. destruct (exec_install _ _ _ _ _ _ He Hr) as [Hr' Hin].
      destruct (i_install _ Hi Hr') as (p & Hp & Hpi). destruct (decide (t = 0)) as [->|Hne].
      * simplify_eq. exists pc'. rewrite lookup_insert_eq. auto.
      * exists p. by rewrite lookup_insert_ne.
  - assert (calm (shared m) s' pc Dropped /\ pending_lock s' = pending_lock (shared m) /\
            task_lock s' = task_lock (shared m) /\ endpoint_task s' = endpoint_task (shared m) /\
            holds_pending pc = false /\ holds_task pc = false /\ closing pc = false /\ installing pc = false)
      as (Hc & Hpl & Htl & Het & Hh1 & Hh2 & Hcl & Hins).
    { destruct pc; unfold cancel in He; simplify_eq; split_and!; try done; by constructor. }
    constructor; cbn [shared threads].
    + eapply owns_step; [by apply i_pending|done|left; by rewrite Hh1].
    + eapply owns_step; [by apply i_task|done|left; by rewrite Hh2].
    + apply phase_calm; [by apply i_phase|by rewrite Ht|intros; by simplify_eq].
    + rewrite Het. intros Hr. destruct (i_install _ Hi Hr) as (p & Hp & Hpi). exists p.
      rewrite lookup_insert_ne; [done|]. intros ->. simplify_eq. congruence.
  - destruct Hi as [? ? ? ?]. constructor; try done. by apply phase_other.
Qed.

Lemma peer_reachable_inv l src m :
  leases l !! src = Some Live -> reachable_from debug_str l src m -> inv m.
Proof.
  intros Hl Hr. apply (rtc_invariant step' inv (start l src) m peer_inv_step Hr). constructor; cbn.
  - intros t. split; [done|]. intros (pc & E & Hp). apply lookup_singleton_Some in E as [_ <-]. done.
  - intros t. split; [done|]. intros (pc & E & Hp). apply lookup_singleton_Some in E as [_ <-]. done.
  - apply phase_open; try done. intros t pc E. cbn in E. apply lookup_singleton_Some in E as [_ <-]. done.
  - intros _. exists ILock. by rewrite lookup_singleton_eq.
Qed.

(** Closing a peer browse leaves nothing behind.  Whatever polls are in
    flight, whoever closes the browse (the host, the end of the DNS-SD stream,
    the endpoint going away) and however the installation of the endpoint task
    races with it: once the closing call is done, the browse's source is
    retired and contributes no address to the lookup, no event is queued and
    no poll can queue one, the DNS-SD session is closed, and the task that
    watched the endpoint is not kept: it was aborted, by the close or, when it
    is installed later, by its installation. *)
Theorem peer_browse_close_complete (l : Lookup Id D) (src : Z) (m : Machine') :
  leases l !! src = Some Live -> reachable_from debug_str l src m ->
  closed (shared m) = true -> (forall t pc, threads m !! t = Some pc -> closing pc = false) ->
  let s := shared m in
  leases (lookup s) !! source s = Some Retired /\
  (forall i, contributions (state (lookup s)) !! (source s, i) = None) /\
  pending s = [] /\ (forall t ev evs, threads m !! t <> Some (EExtend ev evs)) /\
  inner_closed s = true /\
  endpoint_task s <> Stored /\ (threads m !! 0 = Some Finished -> endpoint_task s = Aborted).
Proof.
  intros Hl Hr Hc Hn. pose proof (peer_reachable_inv _ _ _ Hl Hr) as Hi.
  destruct (i_phase _ Hi) as [H1|t pc H1 H2 H3|_ _ [H3 H3'] [H4 H4'] H5 [H6 H7]]; [congruence| |].
  { apply Hn in H2. congruence. }
  cbn zeta. split_and!; try done.
  - intros t ev evs E. apply H4' in E. done.
  - intros H0. destruct (endpoint_task (shared m)) eqn:E; [|done..].
    destruct (i_install _ Hi E) as (pc & Hpc & Hp). rewrite H0 in Hpc. by simplify_eq.
Qed.
End props.

(** ** Examples *)

Definition demo_record (node : string) : ServiceRecord :=
  mkServiceRecord true "_app._udp.local." "x" None 112 [] [("pk", node); ("relay", "https://r")].

Lemma demo_l3_node_ids : node_ids_ok demo_l3.
Proof.
  assert (map_Forall (fun (_ : Z * string) c => c_node_id c = b32_encode (id_as_bytes (c_endpoint_id c)))
    (contributions (state demo_l3))) as Hf by (by apply (bool_decide_unpack _); vm_compute).
  intros k c E. by apply (Hf k c).
Qed.

(** The instance moves from endpoint [a] to endpoint [b]. *)
Lemma peer_events_track_lookup_witness :
  (apply_peer_record demo_debug 1 (demo_record "b") demo_l3).1 =
    [mkPeerEvent false "a" []; mkPeerEvent true "b" ["https://r"]] /\
  exists e, describes 1 (apply_peer_record demo_debug 1 (demo_record "b") demo_l3).2 e (mkPeerEvent false "a" []).
Proof.
  assert ((apply_peer_record demo_debug 1 (demo_record "b") demo_l3).1 =
    [mkPeerEvent false "a" []; mkPeerEvent true "b" ["https://r"]]) as E by (by vm_compute).
  split; [exact E|].
  apply (peer_events_track_lookup demo_debug 1 (demo_record "b") demo_l3 demo_l3_node_ids).
  - by vm_compute.
  - rewrite E. by left.
Defined.

(** The record is being applied when the close arrives; the endpoint task is
    installed last. *)
Abbreviation demo_exec := (exec (Id := nat) (D := list (TransportAddr string)) demo_debug).
Abbreviation demo_step := (step (Id := nat) (D := list (TransportAddr string)) demo_debug).
Abbreviation DemoMachine := (Machine (Id := nat) (D := list (TransportAddr string))).
Definition demo_answer : Result (option RawEvent) TransportError := Ok (Some (Upsert (demo_record "b"))).

Definition act (m : DemoMachine) (x : nat * option Pc) : option DemoMachine :=
  match x with
  | (t, Some pc) => if threads m !! t is None then Some (mkMachine (shared m) (<[t := pc]> (threads m))) else None
  | (t, None) =>
      pc ← threads m !! t; '(s', pc') ← demo_exec t pc demo_answer (shared m);
      Some (mkMachine s' (<[t := pc']> (threads m)))
  end.

Lemma peer_act_steps l m m' :
  Forall (fun x => match x.2 with Some pc => entry pc | None => True end) l ->
  foldl (fun om x => om ≫= fun m => act m x) (Some m) l = Some m' -> rtc demo_step m m'.
Proof.
  intros Hl. revert m. induction Hl as [|x l Hx _ IH]; intros m; simpl; [intros [= ->]; apply rtc_refl|].
  destruct (act m x) as [m1|] eqn:E.
  - intros Hf. apply (rtc_l _ m m1 m'); [|by apply IH]. destruct x as [t [pc|]]; simpl in E.
    + case_match; simplify_eq. by apply step_call.
    + destruct (threads m !! t) eqn:E1; simplify_eq/=.
      destruct (exec _ _ _ _ _) as [[]|] eqn:E2; simplify_eq/=. by eapply step_exec.
  - intros Hf. exfalso. clear IH. induction l; simpl in Hf; [done|auto].
Qed.

Definition schedule : list (nat * option Pc) :=
  [(1, Some EGate); (1, None); (1, None); (1, None); (1, None); (2, Some (CSwap KDone))] ++ replicate 6 (2, None) ++
  replicate 3 (1, None) ++ replicate 2 (0, None).
Definition closed_machine : DemoMachine :=
  default (start demo_l1 1) (foldl (fun om x => om ≫= fun m => act m x) (Some (start demo_l1 1)) schedule).

Lemma closed_machine_reachable : reachable_from demo_debug demo_l1 1 closed_machine.
Proof.
  apply (peer_act_steps schedule).
  - unfold schedule. repeat (apply Forall_app; split); repeat constructor.
  - vm_compute. reflexivity.
Qed.

Lemma peer_browse_close_complete_witness :
  threads closed_machine !! 1 = Some (Returned None) /\ endpoint_task (shared closed_machine) = Aborted /\
  forall i, contributions (state (lookup (shared closed_machine))) !! (1%Z, i) = None.
Proof.
  destruct (peer_browse_close_complete demo_debug demo_l1 1 closed_machine) as (_ & Hc & _ & _ & _ & _ & Ht).
  - by vm_compute.
  - exact closed_machine_reachable.
  - by vm_compute.
  - assert (map_Forall (fun (_ : nat) pc => closing pc = false) (threads closed_machine)) as Hf
      by (by apply (bool_decide_unpack _); vm_compute).
    intros t pc E. by apply (Hf t pc).
  - split; [by vm_compute|]. split; [apply Ht; by vm_compute|exact Hc].
Defined.
