(* ===== verification/AdvertRefresh.v ===== *)
(** * Refreshing a peer advertisement (iroh-http-discovery: lib.rs, dns_sd.rs)

    The worker that follows the endpoint's addresses and the host's interfaces
    and updates the published record.  One [Input] is what one turn of the loop
    meets: what woke it, what the interface inventory says, and how the update
    ends. *)

From stdpp Require Import base numbers list strings sets.
From Stdlib Require Import ZArith Lia Strings.Ascii.
From S2P Require Import Prelude Text Net Addr DnsSd PeerPolicy PeerPolicyProps.

Open Scope string_scope.
Open Scope list_scope.

Section refresh.
Context {Id Relay : Type} `{HN : IrohNet Id Relay}.
Context (service_name instance : string) (bound_sockets : list SocketAddr).

(** The branch [select_biased!] takes. *)
Inductive Wake :=
| WakeCancel
| WakeClosed
| WakeUpdated (r : Result (EndpointAddr (Relay := Relay)) unit)
| WakeTick.

Inductive UpdateEvent :=
| Cancelled
| EndpointClosed
| Completed (r : Result bool DiscoveryError).

Record Input := mkInput {
  wake : Wake;
  inventory : Result (list IpAddr) DiscoveryError;
  update_event : UpdateEvent
}.

Record Refresh := mkRefresh {
  node_addr : EndpointAddr (Relay := Relay);
  known_local_ips : list IpAddr
}.

(** The loop that adds the interface addresses not yet known. *)
Definition learn (known interface_ips : list IpAddr) : list IpAddr := fold_left push_new interface_ips known.

(** How a turn ends: the loop goes on, or the worker returns [terminal].
    [submitted] is the configuration handed to [update_advertisement] and
    [closed_session] says the worker closed the session itself. *)
Inductive Turn :=
| Continue (st : Refresh) (submitted : option ServiceConfig)
| Return (terminal closed_session : bool) (submitted : option ServiceConfig).

Definition refresh_turn (st : Refresh) (i : Input) : Turn :=
  let woken :=
    match wake i with
    | WakeCancel => inr false
    | WakeClosed => inr true
    | WakeUpdated (Ok updated) => inl updated
    | WakeUpdated (Err _) => inr true
    | WakeTick => inl (node_addr st)
    end in
  match woken with
  | inr terminal => Return terminal false None
  | inl node_addr =>
      match inventory i with
      | Err _ => Continue (mkRefresh node_addr (known_local_ips st)) None
      | Ok interface_ips =>
          let known := learn (known_local_ips st) interface_ips in
          match peer_service_config_from_reconciled_snapshot service_name instance bound_sockets node_addr
                  interface_ips known with
          | Err _ => Continue (mkRefresh node_addr known) None
          | Ok config =>
              match update_event i with
              | Cancelled => Return false true (Some config)
              | EndpointClosed => Return true true (Some config)
              | Completed (Err _) => Return true false (Some config)
              | Completed (Ok _) => Continue (mkRefresh node_addr known) (Some config)
              end
          end
      end
  end.

(** [run_peer_advertisement_refresh] on a sequence of inputs: the result, unless
    the worker is still waiting, with the submitted configurations. *)
Fixpoint run_peer_advertisement_refresh (st : Refresh) (inputs : list Input)
  : option (bool * bool) * list ServiceConfig :=
  match inputs with
  | [] => (None, [])
  | i :: inputs =>
      match refresh_turn st i with
      | Return terminal closed_session submitted => (Some (terminal, closed_session), option_list submitted)
      | Continue st submitted =>
          let '(r, l) := run_peer_advertisement_refresh st inputs in (r, option_list submitted ++ l)
      end
  end.

(** [spawn_refresh_worker] with the [on_finish] of [advertise_peer]: the session
    is closed by the worker itself or by [on_finish]. *)
Definition worker_closes_session (r : bool * bool) : bool := r.1 || r.2.

(** ** Properties *)

Lemma elem_of_learn known ifs ip : ip ∈ learn known ifs <-> ip ∈ known \/ ip ∈ ifs.
Proof.
  unfold learn. rewrite (elem_of_fold_push_map (fun ip => ip)). naive_solver.
Qed.

(** The addresses seen on the interfaces by the turns [inputs]. *)
Definition seen (inputs : list Input) : list IpAddr :=
  flat_map (fun i => match inventory i with Ok l => l | Err _ => [] end) inputs.

(** The state after the turns [inputs], none of which returned. *)
Fixpoint after (st : Refresh) (inputs : list Input) : option Refresh :=
  match inputs with
  | [] => Some st
  | i :: inputs => match refresh_turn st i with Continue st _ => after st inputs | Return _ _ _ => None end
  end.

Lemma turn_known st i st' sub :
  refresh_turn st i = Continue st' sub ->
  forall ip, ip ∈ known_local_ips st' <-> ip ∈ known_local_ips st \/
    ip ∈ (match inventory i with Ok l => l | Err _ => [] end).
Proof.
  unfold refresh_turn. intros Ht ip.
  assert (forall na : EndpointAddr (Relay := Relay),
    match inventory i with
    | Err _ => Continue (mkRefresh na (known_local_ips st)) None
    | Ok interface_ips =>
        let known := learn (known_local_ips st) interface_ips in
        match peer_service_config_from_reconciled_snapshot service_name instance bound_sockets na interface_ips known with
        | Err _ => Continue (mkRefresh na known) None
        | Ok config =>
            match update_event i with
            | Cancelled => Return false true (Some config)
            | EndpointClosed => Return true true (Some config)
            | Completed (Err _) => Return true false (Some config)
            | Completed (Ok _) => Continue (mkRefresh na known) (Some config)
            end
        end
    end = Continue st' sub ->
    ip ∈ known_local_ips st' <-> ip ∈ known_local_ips st \/
      ip ∈ (match inventory i with Ok l => l | Err _ => [] end)) as Hgen.
  { intros na. destruct (inventory i) as [l|]; cbn zeta; [|intros; simplify_eq/=; set_solver].
    repeat case_match; intros; simplify_eq/=; apply elem_of_learn. }
  destruct (wake i) as [| |[na|]|]; try done; by apply Hgen in Ht.
Qed.

Lemma after_known st inputs st' :
  after st inputs = Some st' ->
  forall ip, ip ∈ known_local_ips st' <-> ip ∈ known_local_ips st \/ ip ∈ seen inputs.
Proof.
  revert st. induction inputs as [|i inputs IH]; intros st; simpl; [intros [= ->] ip; set_solver|].
  destruct (refresh_turn st i) as [st1 sub|] eqn:E; [|done]. intros Ha ip.
  rewrite (IH _ Ha). rewrite (turn_known _ _ _ _ E). rewrite elem_of_app. tauto.
Qed.

(** The configuration a turn submits, from its inventory and what is known. *)
Lemma turn_submits st i c :
  (exists st', refresh_turn st i = Continue st' (Some c)) \/
  (exists b1 b2, refresh_turn st i = Return b1 b2 (Some c)) ->
  exists na ifs, inventory i = Ok ifs /\
    peer_service_config_from_reconciled_snapshot service_name instance bound_sockets na ifs
      (learn (known_local_ips st) ifs) = Ok c.
Proof.
  unfold refresh_turn. intros Ht.
  assert (exists na : EndpointAddr (Relay := Relay), exists ifs, inventory i = Ok ifs /\
    exists c', peer_service_config_from_reconciled_snapshot service_name instance bound_sockets na ifs
      (learn (known_local_ips st) ifs) = Ok c' /\ c' = c) as (na & ifs & Hi & c' & Hc & ->); [|by exists na, ifs].
  destruct Ht as [[st' Ht]|(b1 & b2 & Ht)]; destruct (wake i) as [| |[na|]|]; try discriminate Ht;
    cbn zeta iota in Ht; repeat case_match; simplify_eq/=; eauto 10.
Qed.

(** An address that has left the host is withdrawn by the next refresh.
    At any turn of the worker that submits a configuration, an IP that was on an
    interface when the advertisement started or at any earlier turn, and is not
    in the inventory of this turn, occurs neither among the A/AAAA records nor
    among the direct candidates of what is submitted, even when the endpoint
    still lists it and whatever turns failed in between. *)
Theorem refresh_withdraws_departed_ips (st st' : Refresh) (inputs : list Input) (i : Input) (c : ServiceConfig)
  (ip : IpAddr) :
  after st inputs = Some st' ->
  (exists st'', refresh_turn st' i = Continue st'' (Some c)) \/
  (exists b1 b2, refresh_turn st' i = Return b1 b2 (Some c)) ->
  ip ∈ known_local_ips st \/ ip ∈ seen inputs ->
  (match inventory i with Ok ifs => ip ∉ ifs | Err _ => True end) ->
  exists na ifs, inventory i = Ok ifs /\
    (ip ∉ addrs c) /\
    Forall (fun d => sock_ip d <> ip) (snapshot_directs bound_sockets na ifs (learn (known_local_ips st') ifs)) /\
    txt c = peer_txt instance na
      (map sock_to_string (snapshot_directs bound_sockets na ifs (learn (known_local_ips st') ifs))).
Proof.
  intros Ha Ht Hk Hn. destruct (turn_submits _ _ _ Ht) as (na & ifs & Hi & Hc). exists na, ifs.
  rewrite Hi in Hn. split; [done|].
  destruct (stale_ip_absent service_name instance bound_sockets na ifs (learn (known_local_ips st') ifs) ip c) as [? ?];
    [done|apply elem_of_learn; left; by apply (after_known _ _ _ Ha)|done|].
  split_and!; [done..|]. unfold peer_service_config_from_reconciled_snapshot in Hc. case_match; [|done].
  by simplify_eq.
Qed.

(** The worker never ends silently: it returns only because it was
    cancelled (by the drop of the session, which closes it), because the
    endpoint closed or stopped reporting, or because an update failed, and in
    every case but the first the session is closed; a failed inventory and a
    snapshot without a dialable socket keep it running with the record as it is
    published. *)
Theorem refresh_worker_end (st : Refresh) (inputs : list Input) :
  match (run_peer_advertisement_refresh st inputs).1 with
  | Some r => worker_closes_session r = true \/ exists i, i ∈ inputs /\ wake i = WakeCancel
  | None => exists st', after st inputs = Some st' /\
      Forall (fun i => wake i <> WakeCancel /\ wake i <> WakeClosed) inputs
  end.
Proof.
  revert st. induction inputs as [|i inputs IH]; intros st; simpl; [eauto|].
  destruct (refresh_turn st i) as [st1 sub|b1 b2 sub] eqn:E.
  - specialize (IH st1). destruct (run_peer_advertisement_refresh st1 inputs) as [[r|] l]; simpl in *.
    + destruct IH as [?|(j & ? & ?)]; [by left|right; exists j; split; [by right|done]].
    + destruct IH as (st' & Ha & Hf). exists st'. split; [done|]. constructor; [|done].
      unfold refresh_turn in E. destruct (wake i); done.
  - simpl. unfold refresh_turn in E. destruct (wake i) as [| |[na|]|] eqn:Ew; cbn zeta iota in E;
      repeat case_match; simplify_eq/=; try (by left). right. exists i. split; [by left|done].
Qed.
End refresh.

(** The host leaves the network of [lan 1] while the inventory fails once. *)
Definition demo_state : Refresh (Relay := unit) :=
  mkRefresh (mkEndpointAddr [SockV4 0x0a000001 4000; SockV4 0x0a000002 4000] []) [lan 1].
Definition demo_inputs : list (Input (Relay := unit)) :=
  [mkInput WakeTick (Ok [lan 1; lan 2]) (Completed (Ok true)); mkInput WakeTick (Err (Setup "down")) (Completed (Ok true))].
Definition demo_last : Input (Relay := unit) := mkInput WakeTick (Ok [lan 2]) (Completed (Ok true)).

Definition demo_after : Refresh (Relay := unit) := mkRefresh (node_addr demo_state) [lan 1; lan 2].
Definition demo_submitted : ServiceConfig :=
  match refresh_turn "app" "node" [SockV4 0 4000] demo_after demo_last with
  | Continue _ (Some c) => c
  | _ => mkServiceConfig "" "" 0 [] [] Udp
  end.

Lemma refresh_withdraws_departed_ips_witness :
  addrs demo_submitted = [lan 2] /\ lan 1 ∉ addrs demo_submitted.
Proof.
  split; [reflexivity|].
  destruct (refresh_withdraws_departed_ips "app" "node" [SockV4 0 4000] demo_state demo_after demo_inputs demo_last
    demo_submitted (lan 1)) as (na & ifs & _ & Hn & _).
  - reflexivity.
  - left. eexists. reflexivity.
  - left. by left.
  - apply (bool_decide_unpack (lan 1 ∉ [lan 2])). by vm_compute.
  - exact Hn.
Defined.
