(* ===== verification/DiscoveryStart.v ===== *)
(** * Starting discovery (iroh-http-discovery: lib.rs, dns_sd.rs)

    The start sequences of browses and advertisements, with every failure on
    the way, and the registry that gives each endpoint one lookup provider.
    Each step's outcome is an argument; what the sequence leaves behind is its
    result. *)

From stdpp Require Import base numbers list strings sets gmap fin_maps relations.
From Stdlib Require Import ZArith Lia Strings.Ascii.
From S2P Require Import Prelude Text Net Lookup DnsSd PeerPolicy MdnsAdvert PeerBrowse PeerBrowseProps.

Open Scope string_scope.
Open Scope list_scope.

(** ** One lookup provider per endpoint *)

(** Providers are numbered; the registry holds weak references to them, keyed by
    the address of the endpoint's services, and [installed] lists the providers
    the services of each endpoint keep alive. *)
Record Providers := mkProviders {
  registry : gmap Z nat;
  strong : gset nat;
  next_provider : nat;
  installed : gmap Z nat
}.

(** [endpoint_lookup_for_key]: dead entries are dropped, a live one is reused,
    otherwise a provider is created and added to the services. *)
Definition endpoint_lookup_for_key (key : Z) (p : Providers) : nat * Providers :=
  let registry := filter (fun kv => kv.2 ∈ strong p) (registry p) in
  match registry !! key with
  | Some provider => (provider, mkProviders registry (strong p) (next_provider p) (installed p))
  | None =>
      let provider := next_provider p in
      (provider,
       mkProviders (<[key := provider]> registry) ({[provider]} ∪ strong p) (S provider)
         (<[key := provider]> (installed p)))
  end.

(** The endpoint at [key] is gone, and with it its services and their provider. *)
Definition drop_endpoint (key : Z) (p : Providers) : Providers :=
  match installed p !! key with
  | Some provider => mkProviders (registry p) (strong p ∖ {[provider]}) (next_provider p) (delete key (installed p))
  | None => p
  end.

Inductive provider_step : Providers -> Providers -> Prop :=
| step_lookup p key : provider_step p (endpoint_lookup_for_key key p).2
| step_drop p key : provider_step p (drop_endpoint key p).

Definition providers_new : Providers := mkProviders ∅ ∅ 0 ∅.

(** Every live provider is the one its endpoint installed and is registered
    under that endpoint. *)
Record providers_ok (p : Providers) : Prop := {
  p_live : forall key n, installed p !! key = Some n -> n ∈ strong p /\ registry p !! key = Some n;
  p_strong : forall n, n ∈ strong p -> n < next_provider p /\ exists key, installed p !! key = Some n;
  p_inj : forall k1 k2 n, installed p !! k1 = Some n -> installed p !! k2 = Some n -> k1 = k2;
  p_reg : forall key n, registry p !! key = Some n -> n ∈ strong p -> installed p !! key = Some n
}.

Lemma live_registry p key n :
  filter (fun kv : Z * nat => kv.2 ∈ strong p) (registry p) !! key = Some n <->
  registry p !! key = Some n /\ n ∈ strong p.
Proof. apply map_lookup_filter_Some. Qed.

Lemma providers_ok_lookup p key : providers_ok p -> providers_ok (endpoint_lookup_for_key key p).2.
Proof.
  intros [H1 H2 H3 H4]. unfold endpoint_lookup_for_key.
  destruct (filter _ _ !! key) as [n|] eqn:E.
  - constructor; cbn; try done.
    + intros k m Hk. destruct (H1 _ _ Hk). split; [done|]. by apply live_registry.
    + intros k m Hk Hm. apply live_registry in Hk as [Hk _]. by apply H4.
  - assert (next_provider p ∉ strong p) as Hfresh by (intros [? _]%H2; lia).
    assert (installed p !! key = None) as Hnone.
    { destruct (installed p !! key) as [n|] eqn:Ei; [|done]. destruct (H1 _ _ Ei) as [? ?].
      assert (filter (fun kv : Z * nat => kv.2 ∈ strong p) (registry p) !! key = Some n) by (by apply live_registry).
      congruence. }
    assert (forall k m, installed p !! k = Some m -> m <> next_provider p) as Hne.
    { intros k m Hk ->. destruct (H1 _ _ Hk). done. }
    constructor; cbn.
    + intros k m [[<- <-]|[Hk Hi]]%lookup_insert_Some; [split; [set_solver|by rewrite lookup_insert_eq]|].
      destruct (H1 _ _ Hi). split; [set_solver|]. rewrite lookup_insert_ne by done. by apply live_registry.
    + intros m [->%elem_of_singleton|Hm]%elem_of_union.
      * split; [lia|]. exists key. by rewrite lookup_insert_eq.
      * destruct (H2 _ Hm) as [? [k Hk]]. split; [lia|]. exists k. rewrite lookup_insert_ne; [done|]. congruence.
    + intros k1 k2 m Hk1 Hk2. apply lookup_insert_Some in Hk1 as [[<- <-]|[? Hk1]], Hk2 as [[<- ?]|[? Hk2]]; try done.
      * by apply Hne in Hk2.
      * subst m. by apply Hne in Hk1.
      * by eapply H3.
    + intros k m [[<- <-]|[Hk Hr]]%lookup_insert_Some _; [by rewrite lookup_insert_eq|].
      rewrite lookup_insert_ne by done. apply live_registry in Hr as [? ?]. by apply H4.
Qed.

Lemma providers_ok_drop p key : providers_ok p -> providers_ok (drop_endpoint key p).
Proof.
  intros [H1 H2 H3 H4]. unfold drop_endpoint. destruct (installed p !! key) as [n|] eqn:E; [|done].
  constructor; cbn.
  - intros k m [Hk Hi]%lookup_delete_Some. destruct (H1 _ _ Hi). split; [|done].
    apply elem_of_difference. split; [done|]. intros ->%elem_of_singleton. apply Hk. by eapply H3.
  - intros m [Hm Hn]%elem_of_difference. destruct (H2 _ Hm) as [? [k Hk]]. split; [done|]. exists k.
    rewrite lookup_delete_ne; [done|]. intros ->. set_solver.
  - intros k1 k2 m [_ Ha]%lookup_delete_Some [_ Hb]%lookup_delete_Some. by eapply H3.
  - intros k m Hr [Hm Hn]%elem_of_difference. apply lookup_delete_Some. split; [|by apply H4].
    intros ->. pose proof (H4 _ _ Hr Hm). set_solver.
Qed.

Lemma providers_reachable_ok p : rtc provider_step providers_new p -> providers_ok p.
Proof.
  intros Hr. apply (rtc_invariant provider_step providers_ok providers_new p); [|done|by constructor].
  intros x y [] Hi; [by apply providers_ok_lookup|by apply providers_ok_drop].
Qed.

(** One provider per live endpoint.  However browses start and endpoints
    come and go (also when a new endpoint is allocated at the address of an old
    one), asking again for the provider of an endpoint that is still alive
    returns the installed one and installs nothing; asking for an endpoint that
    has none installs a new one that no live endpoint uses. *)
Theorem one_provider_per_endpoint (p : Providers) (key : Z) :
  rtc provider_step providers_new p ->
  let r := endpoint_lookup_for_key key p in
  installed r.2 !! key = Some r.1 /\
  match installed p !! key with
  | Some n => r.1 = n /\ installed r.2 = installed p
  | None => installed r.2 = <[key := r.1]> (installed p) /\ forall k, installed p !! k <> Some r.1
  end.
Proof.
  intros Hr. pose proof (providers_reachable_ok _ Hr) as Hp.
  pose proof (providers_ok_lookup p key Hp) as Hp'. destruct Hp as [H1 H2 H3 H4]. cbn zeta.
  unfold endpoint_lookup_for_key in *. destruct (filter _ _ !! key) as [n|] eqn:E; cbn [fst snd installed].
  - apply live_registry in E as [E Hn]. rewrite (H4 _ _ E Hn). done.
  - rewrite lookup_insert_eq. split; [done|]. destruct (installed p !! key) as [n|] eqn:Ei.
    + destruct (H1 _ _ Ei) as [? ?].
      assert (filter (fun kv : Z * nat => kv.2 ∈ strong p) (registry p) !! key = Some n) by (by apply live_registry).
      congruence.
    + split; [done|]. intros k Hk. destruct (H1 _ _ Hk) as [Hs _]. apply H2 in Hs as [? _]. lia.
Qed.

Lemma one_provider_per_endpoint_witness :
  let p := (endpoint_lookup_for_key 7 (drop_endpoint 7 (endpoint_lookup_for_key 7 providers_new).2)).2 in
  (endpoint_lookup_for_key 7 p).1 = 1 /\ installed (endpoint_lookup_for_key 7 p).2 !! 7%Z = Some 1.
Proof.
  intros p. split; [by vm_compute|].
  apply (one_provider_per_endpoint p 7). unfold p.
  eapply rtc_l; [apply (step_lookup _ 7)|]. eapply rtc_l; [apply (step_drop _ 7)|].
  eapply rtc_l; [apply (step_lookup _ 7)|]. apply rtc_refl.
Defined.

(** ** Starting a browse *)

Section browse_start.
Context {Id Relay D : Type} `{Countable Id}.
Context `{NET : IrohNet Id Relay} `{ED : EndpointData Relay D}.

(** [browse_peers_with_engine]: whether the endpoint is closed at the start and
    at the end, what [address_lookup] gives, and whether the engine session is
    already terminal (its [on_close] callback then closes the browse at once).
    The result comes with whether the engine session is closed and with the
    lookup; the outer [None] is the panic of an exhausted source counter. *)
Definition browse_peers_with_engine (is_closed : bool) (services : Result unit string)
  (inner_terminal closed_after : bool) (l : Lookup Id D)
  : option (Result Z DiscoveryError * bool * Lookup Id D) :=
  if is_closed then Some (Err (Setup "endpoint is closed"), true, l)
  else match services with
       | Err error => Some (Err (Setup error), true, l)
       | Ok _ =>
           match new_source l with
           | (None, _) => None
           | (Some source, l) =>
               let l := if inner_terminal then retire source l else l in
               if closed_after
               then Some (Err (Setup "endpoint is closed"), true, retire source l)
               else Some (Ok source, inner_terminal, l)
           end
       end.

(** [browse_peers]: the native browse is established first. *)
Definition browse_peers (native : Result unit DiscoveryError) (is_closed : bool) (services : Result unit string)
  (inner_terminal closed_after : bool) (l : Lookup Id D)
  : option (Result Z DiscoveryError * bool * Lookup Id D) :=
  match native with
  | Err e => Some (Err e, true, l)
  | Ok _ => browse_peers_with_engine is_closed services inner_terminal closed_after l
  end.

Lemma retire_gone s (l : Lookup Id D) :
  leases l !! s = Some Live ->
  leases (retire s l) !! s = Some Retired /\
  (forall k, contributions (state (retire s l)) !! k = if decide (k.1 = s) then None else contributions (state l) !! k).
Proof.
  intros Hl. unfold retire, retire_swap. rewrite (proj2 (lease_live s l) Hl).
  split; [by cbn; rewrite lookup_insert_eq|]. intros k. by rewrite retire_sweep_contributions.
Qed.

Lemma retire_retired s (l : Lookup Id D) : leases l !! s = Some Retired -> retire s l = l.
Proof.
  intros Hl. unfold retire, retire_swap. destruct (lease_retired s l) eqn:E; [done|].
  apply lease_live in E. congruence.
Qed.

(** A browse that does not start leaves nothing.  When starting fails, at
    any step and also when the endpoint closes during the start, the DNS-SD
    session is closed, no source of the lookup is left live by the attempt and
    all contributions of others are untouched; when it succeeds on an open
    session, the new source is live, different from every earlier one, and has
    contributed nothing yet. *)
Theorem browse_start_all_or_nothing (native : Result unit DiscoveryError) (is_closed : bool)
  (services : Result unit string) (inner_terminal closed_after : bool) (l l' : Lookup Id D)
  (r : Result Z DiscoveryError) (inner_closed : bool) :
  lookup_inv l -> browse_peers native is_closed services inner_terminal closed_after l = Some (r, inner_closed, l') ->
  contributions (state l') = contributions (state l) /\
  match r with
  | Err _ => inner_closed = true /\ forall s, leases l' !! s = Some Live -> leases l !! s = Some Live
  | Ok s => leases l !! s = None /\ inner_closed = inner_terminal /\
      (inner_terminal = false -> leases l' !! s = Some Live)
  end.
Proof.
  intros [_ Hown Hids _] Hb. unfold browse_peers, browse_peers_with_engine in Hb.
  destruct native as [[]|]; [|by simplify_eq]. destruct is_closed; [by simplify_eq|].
  destruct services as [[]|]; [|by simplify_eq]. unfold new_source, checked_add in Hb.
  destruct (next_source_id (state l) + 1 <=? U64_MAX)%Z; [|done].
  set (s := next_source_id (state l)) in *. set (l1 := mkLookup _ _) in Hb.
  assert (leases l !! s = None) as Hnew.
  { destruct (leases l !! s) eqn:E; [|done]. apply Hids in E. unfold s in E. lia. }
  assert (leases l1 !! s = Some Live) as Hl1 by (cbn; by rewrite lookup_insert_eq).
  destruct (retire_gone s l1 Hl1) as [Hret Hcon].
  assert (contributions (state (retire s l1)) = contributions (state l)) as Hkeep.
  { apply map_eq. intros k. rewrite Hcon. case_decide as Hk; [|done].
    destruct (contributions (state l) !! k) eqn:E; [|done]. apply Hown in E as [E|E]; rewrite Hk in E; congruence. }
  assert (forall x, leases (retire s l1) !! x = Some Live -> leases l !! x = Some Live) as Hlive.
  { intros x Hx. destruct (decide (x = s)) as [->|Hne]; [congruence|].
    unfold retire, retire_swap in Hx. rewrite (proj2 (lease_live s l1) Hl1) in Hx. cbn in Hx.
    by rewrite !lookup_insert_ne in Hx. }
  destruct closed_after, inner_terminal; simplify_eq; rewrite ?(retire_retired s (retire s l1) Hret); split_and!; done.
Qed.
End browse_start.

Lemma browse_start_all_or_nothing_witness :
  exists l', browse_peers (Ok tt) false (Ok tt) false true demo_l4 = Some (Err (Setup "endpoint is closed"), true, l') /\
    contributions (state l') = contributions (state demo_l4).
Proof.
  eexists. split; [reflexivity|].
  eapply (browse_start_all_or_nothing (Ok tt) false (Ok tt) false true demo_l4).
  - apply (lookup_reachable_inv demo_debug), demo_l4_reachable.
  - reflexivity.
Defined.

(** ** Starting an advertisement *)

Section advertise_start.
Context {Info : Type} `{ServiceInfos Info}.
Context {Id Relay : Type} `{IrohNet Id Relay}.
Context (debug_str : string -> string) (mdns_text : MdnsError -> string).

(** [browse] on what the daemon answers; the commands it sent besides. *)
Definition dns_sd_browse (config : BrowseConfig) (new_daemon : Result unit string)
  (browse shutdown : Result unit MdnsError) : Result string DiscoveryError * list (Cmd * bool) :=
  match checked_service_type debug_str (browse_service_name config) (browse_protocol config) with
  | Err e => (Err e, [])
  | Ok service_type =>
      match new_daemon with
      | Err e => (Err (Setup e), [])
      | Ok _ =>
          match browse with
          | Ok _ => (Ok service_type, [])
          | Err error => (Err (Setup (mdns_text error)), [(Shutdown, is_ok shutdown)])
          end
      end
  end.

(** [advertise_inner]: the full name, the initial data and the commands sent. *)
Definition advertise_inner (config : ServiceConfig) (auto : bool) (new_daemon : Result unit string)
  (register shutdown : Result unit MdnsError)
  : Result (string * AdvertisementUpdate) DiscoveryError * list (Cmd * bool) :=
  match service_info debug_str config auto with
  | Err e => (Err e, [])
  | Ok info =>
      match new_daemon with
      | Err e => (Err (Setup e), [])
      | Ok _ =>
          match register with
          | Err error => (Err (Setup (mdns_text error)), [(Register, false); (Shutdown, is_ok shutdown)])
          | Ok _ => (Ok (get_fullname info, advertisement_update config), [(Register, true)])
          end
      end
  end.

(** The drop of an [AdvertiseSession]: it closes the transport, joins the
    refresh worker and waits for the cleanup, which sends these commands. *)
Definition drop_session (unregister shutdown : Result unit MdnsError) : list (Cmd * bool) :=
  match unregister with
  | Err DaemonShutdown => [(CleanupUnregister, false)]
  | r => [(CleanupUnregister, is_ok r); (Shutdown, is_ok shutdown)]
  end.

(** What the environment answers during [advertise_peer]. *)
Record StartAnswers := mkStart {
  closed_before : bool;
  if_addrs : Result (list IpAddr) DiscoveryError;
  new_daemon : Result unit string;
  register : Result unit MdnsError;
  worker : Result unit string;
  closed_at_end : bool;
  unregister : Result unit MdnsError;
  shutdown : Result unit MdnsError
}.

Definition advertise_peer (id : Id) (bound_sockets : list SocketAddr) (node_addr : EndpointAddr (Relay := Relay))
  (service_name : string) (a : StartAnswers)
  : Result (string * AdvertisementUpdate) DiscoveryError * list (Cmd * bool) :=
  if closed_before a then (Err (Setup "endpoint is closed"), [])
  else
    let initial_interface_ips := match if_addrs a with Ok l => l | Err _ => [] end in
    match peer_service_config_from_reconciled_snapshot service_name (node_id_label id) bound_sockets node_addr
            initial_interface_ips initial_interface_ips with
    | Err e => (Err e, [])
    | Ok config =>
        match advertise_inner config false (new_daemon a) (register a) (shutdown a) with
        | (Err e, log) => (Err e, log)
        | (Ok session, log) =>
            match worker a with
            | Err e => (Err (Setup e), log ++ drop_session (unregister a) (shutdown a))
            | Ok _ =>
                if closed_at_end a
                then (Err (Setup "endpoint is closed"), log ++ drop_session (unregister a) (shutdown a))
                else (Ok session, log)
            end
        end
    end.

(** An advertisement that does not start is not left announced.  Whichever
    step of [advertise_peer] fails, also when the endpoint closes while the
    service is being registered, either nothing was announced or the commands
    sent to the daemon end with the withdrawal of the cleanup; a start that
    succeeds has announced the service once, under the full name it will check
    updates against, with exactly the data it takes for published. *)
Theorem advertise_start_all_or_nothing (id : Id) (bound_sockets : list SocketAddr)
  (node_addr : EndpointAddr (Relay := Relay)) (service_name : string) (a : StartAnswers) :
  match advertise_peer id bound_sockets node_addr service_name a with
  | (Err _, log) => Forall (fun c => c <> (Register, true)) log \/ ended_log log
  | (Ok (fullname, initial), log) =>
      log = [(Register, true)] /\ closed_before a = false /\ closed_at_end a = false /\
      exists config info,
        service_info debug_str config false = Ok info /\ get_fullname info = fullname /\
        initial = advertisement_update config /\ instance_name config = node_id_label id
  end.
Proof.
  unfold advertise_peer. destruct (closed_before a) eqn:Eb; [left; constructor|]. cbn zeta.
  set (ifs := match if_addrs a with Ok l => l | Err _ => [] end).
  destruct (peer_service_config_from_reconciled_snapshot _ _ _ _ _ _) as [config|e] eqn:Ec; [|left; constructor].
  assert (instance_name config = node_id_label id) as Hin.
  { unfold peer_service_config_from_reconciled_snapshot in Ec. case_match; by simplify_eq. }
  assert (forall u s, ended_log ([(Register, true)] ++ drop_session u s)) as Hend.
  { intros u s. destruct u as [[]|[]]; simpl;
      eexists [(Register, true)], _, _; (split; [constructor|split; [reflexivity|eauto]]). }
  unfold advertise_inner. destruct (service_info debug_str config false) as [info|] eqn:Ei; [|left; constructor].
  destruct (new_daemon a); [|left; constructor].
  destruct (register a); [|left; repeat constructor; done].
  destruct (worker a); [|by right]. destruct (closed_at_end a) eqn:Ee; [by right|].
  split_and!; [done..|]. by exists config, info.
Qed.
End advertise_start.
