(* ===== verification/Ownership.v ===== *)
(** * Discovery ownership (iroh-http-tauri: discovery_ownership.rs, commands.rs)

    Generation-safe ownership of discovery sessions by endpoints and WebViews,
    in the build for mobile, which has the start leases and the cleanup fences.
    Every operation runs under one lock, so it is a function of the state; the
    machine below adds the leases in flight and the tasks that finish
    retirements.

    [StartCompletion]s and [WebviewCleanup]s are cells that are set once; they
    are numbered, and compared by their number where the code compares
    pointers.  A fence also keeps what the [WebviewCleanupRetirement] or
    [SessionCleanup] that owns it holds: its label, the fence it replaced and
    the starts its retirement waits for. *)

From stdpp Require Import base numbers list strings sets gmap fin_maps relations countable.
From Stdlib Require Import ZArith Lia.
From S2P Require Import Prelude.

Open Scope string_scope.
Open Scope list_scope.

Inductive DiscoveryKind := BrowsePeers | AdvertisePeer | GenericAdvertise | GenericBrowse.

#[global] Instance DiscoveryKind_eq_dec : EqDecision DiscoveryKind.
Proof. solve_decision. Defined.
#[global] Instance DiscoveryKind_countable : Countable DiscoveryKind.
Proof.
  apply (inj_countable'
    (fun k => match k with BrowsePeers => 0 | AdvertisePeer => 1 | GenericAdvertise => 2 | GenericBrowse => 3 end)
    (fun n => match n with 0 => BrowsePeers | 1 => AdvertisePeer | 2 => GenericAdvertise | _ => GenericBrowse end)).
  by intros [].
Defined.

Inductive DiscoveryOwner :=
| Peer (endpoint_handle endpoint_generation : Z) (webview_label : string) (webview_generation : Z)
| Webview (webview_label : string) (webview_generation : Z).

#[global] Instance DiscoveryOwner_eq_dec : EqDecision DiscoveryOwner.
Proof. solve_decision. Defined.

Record TrackedDiscovery := mkTracked { t_kind : DiscoveryKind; t_handle : Z; t_owner : DiscoveryOwner }.

Record OwnerGeneration := mkGeneration { generation : Z; active : bool }.
Definition generation_default : OwnerGeneration := mkGeneration 0 false.

Abbreviation Outcome := (Result unit string).

Record PendingStart := mkPending { s_owner : DiscoveryOwner; s_completion : nat }.

Record Fence := mkFence {
  f_label : string;
  f_previous : option nat;
  f_starts : list nat;
  f_outcome : option Outcome
}.

Record OwnershipState := mkState {
  sessions : gmap (DiscoveryKind * Z) TrackedDiscovery;
  starts : gmap Z PendingStart;
  next_start : Z;
  endpoints : gmap Z OwnerGeneration;
  webviews : gmap string OwnerGeneration;
  webview_cleanups : gmap string nat;
  completions : list (option Outcome);
  fences : list Fence
}.

Definition state_default : OwnershipState := mkState ∅ ∅ 0 ∅ ∅ ∅ [] [].

Definition set_sessions x st := mkState x (starts st) (next_start st) (endpoints st) (webviews st)
  (webview_cleanups st) (completions st) (fences st).
Definition set_starts x n st := mkState (sessions st) x n (endpoints st) (webviews st)
  (webview_cleanups st) (completions st) (fences st).
Definition set_endpoints x st := mkState (sessions st) (starts st) (next_start st) x (webviews st)
  (webview_cleanups st) (completions st) (fences st).
Definition set_webviews x st := mkState (sessions st) (starts st) (next_start st) (endpoints st) x
  (webview_cleanups st) (completions st) (fences st).
Definition set_cleanups x st := mkState (sessions st) (starts st) (next_start st) (endpoints st) (webviews st)
  x (completions st) (fences st).
Definition set_completions x st := mkState (sessions st) (starts st) (next_start st) (endpoints st) (webviews st)
  (webview_cleanups st) x (fences st).
Definition set_fences x st := mkState (sessions st) (starts st) (next_start st) (endpoints st) (webviews st)
  (webview_cleanups st) (completions st) x.

(** ** Generations *)

(** [None] is the panic of an exhausted counter. *)
Definition next_generation (current : Z) : option Z := checked_add current 1.

Definition is_generation (o : option OwnerGeneration) (g : Z) : bool :=
  match o with Some current => active current && (generation current =? g)%Z | None => false end.

Definition owner_is_current (st : OwnershipState) (owner : DiscoveryOwner) : bool :=
  match owner with
  | Peer h g label wg => is_generation (endpoints st !! h) g && is_generation (webviews st !! label) wg
  | Webview label wg => is_generation (webviews st !! label) wg
  end.

Definition owner_label (owner : DiscoveryOwner) : string :=
  match owner with Peer _ _ label _ | Webview label _ => label end.

(** [entry(label).or_insert(OwnerGeneration { generation: 1, active: true })]. *)
Definition webview_entry (label : string) (st : OwnershipState) : OwnerGeneration * OwnershipState :=
  match webviews st !! label with
  | Some w => (w, st)
  | None => let w := mkGeneration 1 true in (w, set_webviews (<[label := w]> (webviews st)) st)
  end.

Definition activate_endpoint (h : Z) (st : OwnershipState) : option OwnershipState :=
  let owner := default generation_default (endpoints st !! h) in
  match next_generation (generation owner) with
  | None => None
  | Some g => Some (set_endpoints (<[h := mkGeneration g true]> (endpoints st)) st)
  end.

(** ** Capturing an owner *)

Definition begin_peer (h : Z) (label : string) (st : OwnershipState) : option DiscoveryOwner * OwnershipState :=
  match endpoints st !! h with
  | None => (None, st)
  | Some endpoint =>
      if negb (active endpoint) then (None, st)
      else
        let '(webview, st) := webview_entry label st in
        if negb (active webview) then (None, st)
        else (Some (Peer h (generation endpoint) label (generation webview)), st)
  end.

Definition begin_webview (label : string) (st : OwnershipState) : option DiscoveryOwner * OwnershipState :=
  let '(webview, st) := webview_entry label st in
  if negb (active webview) then (None, st) else (Some (Webview label (generation webview)), st).

(** [StartLease]; [since] is the number of fences published when it was created. *)
Record StartLease := mkLease {
  l_id : Z;
  l_owner : DiscoveryOwner;
  l_completion : nat;
  l_active : bool;
  native_started : bool;
  prior_cleanup : option nat;
  since : nat
}.

Definition insert_start (owner : DiscoveryOwner) (prior : option nat) (st : OwnershipState)
  : option (StartLease * OwnershipState) :=
  let id := next_start st in
  match checked_add id 1 with
  | None => None
  | Some n =>
      let completion := length (completions st) in
      Some (mkLease id owner completion true false prior (length (fences st)),
            set_completions (completions st ++ [None])
              (set_starts (<[id := mkPending owner completion]> (starts st)) n st))
  end.

(** The outer [None] is a panic, the inner one a refusal. *)
Definition begin_peer_start (h : Z) (label : string) (st : OwnershipState)
  : option (option StartLease * OwnershipState) :=
  match endpoints st !! h with
  | None => Some (None, st)
  | Some endpoint =>
      let '(webview, st) := webview_entry label st in
      if negb (active endpoint) || negb (active webview) then Some (None, st)
      else match insert_start (Peer h (generation endpoint) label (generation webview))
                   (webview_cleanups st !! label) st with
           | Some (lease, st) => Some (Some lease, st)
           | None => None
           end
  end.

Definition begin_webview_start (label : string) (st : OwnershipState)
  : option (option StartLease * OwnershipState) :=
  let '(webview, st) := webview_entry label st in
  if negb (active webview) then Some (None, st)
  else match insert_start (Webview label (generation webview)) (webview_cleanups st !! label) st with
       | Some (lease, st) => Some (Some lease, st)
       | None => None
       end.

(** ** Tracking *)

Definition insert_session (kind : DiscoveryKind) (handle : Z) (owner : DiscoveryOwner) (st : OwnershipState)
  : OwnershipState :=
  set_sessions (<[(kind, handle) := mkTracked kind handle owner]> (sessions st)) st.

(** [track_peer] and [track_generic], on their tokens. *)
Definition track (token : DiscoveryOwner) (kind : DiscoveryKind) (handle : Z) (st : OwnershipState)
  : Result unit unit * OwnershipState :=
  if negb (owner_is_current st token) then (Err tt, st) else (Ok tt, insert_session kind handle token st).

(** [StartCompletion::finish] and [WebviewCleanup::finish]: the first outcome stays. *)
Definition finish_completion (c : nat) (outcome : Outcome) (st : OwnershipState) : OwnershipState :=
  match completions st !! c with
  | Some None => set_completions (<[c := Some outcome]> (completions st)) st
  | _ => st
  end.

Definition retired_lease (lease : StartLease) : StartLease :=
  mkLease (l_id lease) (l_owner lease) (l_completion lease) false (native_started lease)
    (prior_cleanup lease) (since lease).
Definition arm_native_cleanup (lease : StartLease) : StartLease :=
  mkLease (l_id lease) (l_owner lease) (l_completion lease) (l_active lease) true
    (prior_cleanup lease) (since lease).

(** [StartLease::track]. *)
Definition lease_track (lease : StartLease) (kind : DiscoveryKind) (handle : Z) (st : OwnershipState)
  : Result unit unit * StartLease * OwnershipState :=
  if negb (owner_is_current st (l_owner lease)) then (Err tt, lease, st)
  else
    let st := insert_session kind handle (l_owner lease) st in
    let st := set_starts (delete (l_id lease) (starts st)) (next_start st) st in
    (Ok tt, retired_lease lease, finish_completion (l_completion lease) (Ok tt) st).

Definition finish_cleanup (lease : StartLease) (outcome : Outcome) (st : OwnershipState) : OwnershipState :=
  finish_completion (l_completion lease) outcome
    (set_starts (delete (l_id lease) (starts st)) (next_start st) st).

Definition abandoned : string := "native discovery start was abandoned before cleanup completed".

(** [Drop for StartLease]. *)
Definition drop_lease (lease : StartLease) (st : OwnershipState) : OwnershipState :=
  if negb (l_active lease) then st
  else finish_completion (l_completion lease) (if native_started lease then Err abandoned else Ok tt)
         (set_starts (delete (l_id lease) (starts st)) (next_start st) st).

Definition untrack (kind : DiscoveryKind) (handle : Z) (st : OwnershipState)
  : option TrackedDiscovery * OwnershipState :=
  (sessions st !! (kind, handle), set_sessions (delete (kind, handle) (sessions st)) st).

(** ** Retirement *)

(** Publishes a fence for [label], which replaces the one before. *)
Definition publish_fence (label : string) (awaited : list nat) (st : OwnershipState) : nat * OwnershipState :=
  let f := length (fences st) in
  (f, set_cleanups (<[label := f]> (webview_cleanups st))
        (set_fences (fences st ++ [mkFence label (webview_cleanups st !! label) awaited None]) st)).

Definition begin_session_cleanup (kind : DiscoveryKind) (handle : Z) (st : OwnershipState)
  : option nat * OwnershipState :=
  match sessions st !! (kind, handle) with
  | None => (None, st)
  | Some tracked =>
      let st := set_sessions (delete (kind, handle) (sessions st)) st in
      let '(f, st) := publish_fence (owner_label (t_owner tracked)) [] st in (Some f, st)
  end.

Record DiscoveryRetirement := mkRetirement {
  r_sessions : list TrackedDiscovery;
  r_starts : list nat;
  r_cleanups : list nat
}.

Definition take_matching (p : TrackedDiscovery -> bool) (st : OwnershipState)
  : list TrackedDiscovery * OwnershipState :=
  (snd <$> map_to_list (filter (fun kv => p kv.2 = true) (sessions st)),
   set_sessions (filter (fun kv => p kv.2 = false) (sessions st)) st).

Definition matching_starts (p : DiscoveryOwner -> bool) (st : OwnershipState) : list nat :=
  (fun kv => s_completion kv.2) <$> List.filter (fun kv => p (s_owner kv.2)) (map_to_list (starts st)).

Definition take_retirement (p : DiscoveryOwner -> bool) (st : OwnershipState)
  : list TrackedDiscovery * list nat * OwnershipState :=
  let '(taken, st) := take_matching (fun session => p (t_owner session)) st in
  (taken, matching_starts p st, st).

(** Sorted and without duplicates in the code; the order is not used. *)
Definition matching_owner_labels (p : DiscoveryOwner -> bool) (st : OwnershipState) : list string :=
  remove_dups
    ((owner_label ∘ t_owner ∘ snd <$> List.filter (fun kv => p (t_owner kv.2)) (map_to_list (sessions st))) ++
     (owner_label ∘ s_owner ∘ snd <$> List.filter (fun kv => p (s_owner kv.2)) (map_to_list (starts st)))).

Fixpoint install_owner_cleanups (labels : list string) (awaited : list nat) (st : OwnershipState)
  : list nat * OwnershipState :=
  match labels with
  | [] => ([], st)
  | label :: labels =>
      let '(f, st) := publish_fence label awaited st in
      let '(l, st) := install_owner_cleanups labels awaited st in (f :: l, st)
  end.

Definition owned_by_endpoint (h : Z) (owner : DiscoveryOwner) : bool :=
  match owner with Peer h' _ _ _ => (h' =? h)%Z | Webview _ _ => false end.

Definition retire_endpoint (h : Z) (st : OwnershipState) : option (DiscoveryRetirement * OwnershipState) :=
  let owner := default generation_default (endpoints st !! h) in
  match next_generation (generation owner) with
  | None => None
  | Some g =>
      let st := set_endpoints (<[h := mkGeneration g false]> (endpoints st)) st in
      let labels := matching_owner_labels (owned_by_endpoint h) st in
      let '(taken, awaited, st) := take_retirement (owned_by_endpoint h) st in
      let '(cleanups, st) := install_owner_cleanups labels awaited st in
      Some (mkRetirement taken awaited cleanups, st)
  end.

(** [advance_webview] leaves the WebView active, [retire_webview] does not. *)
Definition next_webview (now_active : bool) (label : string) (st : OwnershipState)
  : option (DiscoveryRetirement * OwnershipState) :=
  let owner := default generation_default (webviews st !! label) in
  match next_generation (generation owner) with
  | None => None
  | Some g =>
      let st := set_webviews (<[label := mkGeneration g now_active]> (webviews st)) st in
      let '(taken, awaited, st) := take_retirement (fun o => bool_decide (owner_label o = label)) st in
      let '(cleanup, st) := publish_fence label awaited st in
      Some (mkRetirement taken awaited [cleanup], st)
  end.
Definition advance_webview := next_webview true.
Definition retire_webview := next_webview false.

(** Every generation in a map ends; [None] when one is exhausted. *)
Definition end_generations {K} `{Countable K} (l : gmap K OwnerGeneration) : option (gmap K OwnerGeneration) :=
  if bool_decide (map_Forall (fun _ o => next_generation (generation o) <> None) l)
  then Some ((fun o => mkGeneration (generation o + 1) false) <$> l) else None.

Definition retire_all (st : OwnershipState) : option (DiscoveryRetirement * OwnershipState) :=
  match end_generations (endpoints st), end_generations (webviews st) with
  | Some eps, Some webs =>
      let st := set_webviews webs (set_endpoints eps st) in
      let labels := matching_owner_labels (fun _ => true) st in
      let '(taken, awaited, st) := take_retirement (fun _ => true) st in
      let '(cleanups, st) := install_owner_cleanups labels awaited st in
      Some (mkRetirement taken awaited cleanups, st)
  | _, _ => None
  end.

(** ** Finishing a retirement *)

(** [WebviewCleanup::finish]: the first outcome stays. *)
Definition fence_set (f : nat) (outcome : Outcome) (st : OwnershipState) : OwnershipState :=
  match fences st !! f with
  | Some (mkFence label previous awaited None) =>
      set_fences (<[f := mkFence label previous awaited (Some outcome)]> (fences st)) st
  | _ => st
  end.

(** After a success the fence is taken down, unless a newer one has replaced it. *)
Definition fence_remove (f : nat) (st : OwnershipState) : OwnershipState :=
  match fences st !! f with
  | Some fence =>
      if bool_decide (webview_cleanups st !! f_label fence = Some f)
      then set_cleanups (delete (f_label fence) (webview_cleanups st)) st else st
  | None => st
  end.

(** [if outcome.is_ok() { outcome = Err(error) }], over everything awaited. *)
Definition first_error (l : list Outcome) : Outcome :=
  fold_left (fun outcome r => if is_ok outcome then r else outcome) l (Ok tt).

Definition fence_outcome (st : OwnershipState) (f : nat) : option Outcome :=
  fence ← fences st !! f; f_outcome fence.

(** [StartLease::wait_for_cleanup]: [None] while it waits. *)
Definition wait_for_cleanup (lease : StartLease) (st : OwnershipState) : option Outcome :=
  match prior_cleanup lease with Some f => fence_outcome st f | None => Some (Ok tt) end.

(** [wait_for_previous] of each fence: [None] while one is not set. *)
Definition previous_outcomes (st : OwnershipState) (cleanups : list nat) : option (list Outcome) :=
  mapM (fun f => fence ← fences st !! f;
                 match f_previous fence with
                 | Some p => fence_outcome st p
                 | None => Some (Ok tt)
                 end) cleanups.

Definition start_outcomes (st : OwnershipState) (awaited : list nat) : option (list Outcome) :=
  mapM (fun c => completions st !! c ≫= id) awaited.

(** The outcome a retirement finishes its fences with: the first error among
    the earlier fences, the closed sessions and the starts in flight. *)
Definition retirement_outcome (r_fences r_awaited : list nat) (closed : list Outcome) (st : OwnershipState)
  : option Outcome :=
  previous ← previous_outcomes st r_fences;
  started ← start_outcomes st r_awaited;
  Some (first_error (previous ++ closed ++ started)).

(** ** The machine *)

(** A retirement whose waits are over: the fences it still has to finish, and
    the one it has finished but not yet taken down. *)
Record Finishing := mkFinishing { fin_outcome : Outcome; fin_removing : option nat; fin_fences : list nat }.

Record Machine := mkMachine {
  owned : OwnershipState;
  leases : gmap Z StartLease;
  waiting : list DiscoveryRetirement;
  finishing : list Finishing
}.

(** An endpoint handle is activated while it is not active: it comes fresh from
    the endpoint registry. *)
Inductive step : Machine -> Machine -> Prop :=
| step_activate m h st :
    (forall o, endpoints (owned m) !! h = Some o -> active o = false) ->
    activate_endpoint h (owned m) = Some st ->
    step m (mkMachine st (leases m) (waiting m) (finishing m))
| step_begin_peer m h label :
    step m (mkMachine (begin_peer h label (owned m)).2 (leases m) (waiting m) (finishing m))
| step_begin_webview m label :
    step m (mkMachine (begin_webview label (owned m)).2 (leases m) (waiting m) (finishing m))
| step_track m token kind handle :
    step m (mkMachine (track token kind handle (owned m)).2 (leases m) (waiting m) (finishing m))
| step_begin_start m h label r st :
    begin_peer_start h label (owned m) = Some (r, st) \/ begin_webview_start label (owned m) = Some (r, st) ->
    step m (mkMachine st (match r with Some l => <[l_id l := l]> (leases m) | None => leases m end)
              (waiting m) (finishing m))
| step_arm m id lease :
    leases m !! id = Some lease ->
    step m (mkMachine (owned m) (<[id := arm_native_cleanup lease]> (leases m)) (waiting m) (finishing m))
| step_lease_track m id lease kind handle r lease' st :
    leases m !! id = Some lease -> l_active lease = true ->
    lease_track lease kind handle (owned m) = (r, lease', st) ->
    step m (mkMachine st (<[id := lease']> (leases m)) (waiting m) (finishing m))
| step_finish_cleanup m id lease outcome :
    leases m !! id = Some lease -> l_active lease = true ->
    step m (mkMachine (finish_cleanup lease outcome (owned m)) (delete id (leases m)) (waiting m) (finishing m))
| step_drop_lease m id lease :
    leases m !! id = Some lease ->
    step m (mkMachine (drop_lease lease (owned m)) (delete id (leases m)) (waiting m) (finishing m))
| step_untrack m kind handle :
    step m (mkMachine (untrack kind handle (owned m)).2 (leases m) (waiting m) (finishing m))
| step_session_cleanup m kind handle f st :
    begin_session_cleanup kind handle (owned m) = (Some f, st) ->
    step m (mkMachine st (leases m) (waiting m ++ [mkRetirement [] [] [f]]) (finishing m))
| step_retire_endpoint m h r st :
    retire_endpoint h (owned m) = Some (r, st) ->
    step m (mkMachine st (leases m) (waiting m ++ [r]) (finishing m))
| step_next_webview m b label r st :
    next_webview b label (owned m) = Some (r, st) ->
    step m (mkMachine st (leases m) (waiting m ++ [r]) (finishing m))
| step_retire_all m r st :
    retire_all (owned m) = Some (r, st) ->
    step m (mkMachine st (leases m) (waiting m ++ [r]) (finishing m))
| step_waits_over m l1 r l2 closed outcome :
    waiting m = l1 ++ r :: l2 ->
    retirement_outcome (r_cleanups r) (r_starts r) closed (owned m) = Some outcome ->
    step m (mkMachine (owned m) (leases m) (l1 ++ l2) (finishing m ++ [mkFinishing outcome None (r_cleanups r)]))
| step_finish_fence m l1 outcome f fs l2 :
    finishing m = l1 ++ mkFinishing outcome None (f :: fs) :: l2 ->
    step m (mkMachine (fence_set f outcome (owned m)) (leases m) (waiting m)
              (l1 ++ mkFinishing outcome (if is_ok outcome then Some f else None) fs :: l2))
| step_remove_fence m l1 outcome f fs l2 :
    finishing m = l1 ++ mkFinishing outcome (Some f) fs :: l2 ->
    step m (mkMachine (fence_remove f (owned m)) (leases m) (waiting m)
              (l1 ++ mkFinishing outcome None fs :: l2)).

Definition machine_new : Machine := mkMachine state_default ∅ [] [].
Definition reachable (m : Machine) : Prop := rtc step machine_new m.
