(* ===== verification/OwnershipProps.v ===== *)
(** * Properties of discovery ownership

    Tracked sessions belong to live generations, a retired generation never
    tracks again, and a start waits for every cleanup published before it. *)

From stdpp Require Import base numbers list strings sets gmap fin_maps relations countable.
From Stdlib Require Import ZArith Lia.
From S2P Require Import Prelude Ownership.

Open Scope string_scope.
Open Scope list_scope.

(** ** Generations *)

Definition gen {K} `{Countable K} (l : gmap K OwnerGeneration) (k : K) : Z :=
  generation (default generation_default (l !! k)).

(** A generation that has passed. *)
Definition stale (st : OwnershipState) (owner : DiscoveryOwner) : Prop :=
  match owner with
  | Peer h g label wg => (g < gen (endpoints st) h)%Z \/ (wg < gen (webviews st) label)%Z
  | Webview label wg => (wg < gen (webviews st) label)%Z
  end.

Lemma is_generation_true o g : is_generation o g = true <-> exists c, o = Some c /\ active c = true /\ generation c = g.
Proof.
  unfold is_generation. destruct o as [c|]; [rewrite andb_true_iff, Z.eqb_eq|]; naive_solver.
Qed.

Lemma stale_not_current st owner : stale st owner -> owner_is_current st owner = false.
Proof.
  intros Hs. apply not_true_iff_false. intros Hc. destruct owner as [h g l wg|l wg]; simpl in *.
  - apply andb_true_iff in Hc as [(c & Ec & _ & Hg)%is_generation_true (d & Ed & _ & Hd)%is_generation_true].
    unfold gen in Hs. rewrite Ec, Ed in Hs. simpl in Hs. lia.
  - apply is_generation_true in Hc as (d & Ed & _ & Hd). unfold gen in Hs. rewrite Ed in Hs. simpl in Hs. lia.
Qed.

(** Generations never go back. *)
Definition gens_le (st st' : OwnershipState) : Prop :=
  (forall h, gen (endpoints st) h <= gen (endpoints st') h)%Z /\
  (forall l, gen (webviews st) l <= gen (webviews st') l)%Z.

Lemma stale_mono st st' owner : gens_le st st' -> stale st owner -> stale st' owner.
Proof.
  intros [He Hw]. destruct owner as [h g l wg|l wg]; simpl.
  - specialize (He h). specialize (Hw l). lia.
  - specialize (Hw l). lia.
Qed.

Lemma gens_le_same st st' : endpoints st' = endpoints st -> webviews st' = webviews st -> gens_le st st'.
Proof. intros He Hw. split; intros; rewrite ?He, ?Hw; lia. Qed.

Lemma gens_le_trans st1 st2 st3 : gens_le st1 st2 -> gens_le st2 st3 -> gens_le st1 st3.
Proof. intros [H1 H2] [H3 H4]. split; intros x; [specialize (H1 x); specialize (H3 x)|specialize (H2 x); specialize (H4 x)]; lia. Qed.

Lemma gen_insert {K} `{Countable K} (l : gmap K OwnerGeneration) k o x :
  gen (<[k := o]> l) x = if decide (k = x) then generation o else gen l x.
Proof. unfold gen. rewrite lookup_insert. by case_decide. Qed.

Lemma next_generation_Some g g' : next_generation g = Some g' -> g' = (g + 1)%Z.
Proof. unfold next_generation, checked_add. case_match; naive_solver. Qed.

(** Generations that are kept start at one, so that none is below zero. *)
Definition gens_pos (st : OwnershipState) : Prop :=
  (forall h, 0 <= gen (endpoints st) h)%Z /\ (forall l, 0 <= gen (webviews st) l)%Z.

Lemma webview_entry_spec label st :
  let r := webview_entry label st in
  webviews r.2 !! label = Some r.1 /\ endpoints r.2 = endpoints st /\ sessions r.2 = sessions st /\
  starts r.2 = starts st /\ next_start r.2 = next_start st /\ webview_cleanups r.2 = webview_cleanups st /\
  completions r.2 = completions st /\ fences r.2 = fences st /\
  (forall l w, webviews st !! l = Some w -> webviews r.2 !! l = Some w) /\
  (gens_pos st -> gens_le st r.2 /\ gens_pos r.2).
Proof.
  simpl. unfold webview_entry. destruct (webviews st !! label) as [w|] eqn:E; cbn.
  - split_and!; done.
  - split_and!; try done.
    + by rewrite lookup_insert_eq.
    + intros l w Hl. rewrite lookup_insert_ne by congruence. done.
    + intros [H1 H2]. split; split; cbn; intros x; try lia; try apply H1; rewrite gen_insert; case_decide; simpl; try lia.
      * subst. unfold gen. rewrite E. simpl. lia.
      * apply H2.
Qed.

(** ** Tracked sessions are current *)

Definition sessions_ok (st : OwnershipState) : Prop :=
  forall k t, sessions st !! k = Some t ->
    k = (t_kind t, t_handle t) /\ owner_is_current st (t_owner t) = true.

(** A change that keeps every current owner of a session current. *)
Lemma sessions_ok_sub st st' :
  sessions_ok st ->
  (forall k t, sessions st' !! k = Some t -> sessions st !! k = Some t) ->
  (forall k t, sessions st' !! k = Some t -> owner_is_current st (t_owner t) = true ->
     owner_is_current st' (t_owner t) = true) ->
  sessions_ok st'.
Proof. intros Hok Hsub Hcur k t Hk. destruct (Hok _ _ (Hsub _ _ Hk)). split; [done|]. by eapply Hcur. Qed.

Lemma owner_current_same st st' owner :
  endpoints st' = endpoints st -> webviews st' = webviews st -> owner_is_current st' owner = owner_is_current st owner.
Proof. intros He Hw. unfold owner_is_current. by rewrite He, Hw. Qed.

Lemma sessions_ok_same st st' :
  sessions st' = sessions st -> endpoints st' = endpoints st -> webviews st' = webviews st ->
  sessions_ok st -> sessions_ok st'.
Proof.
  intros Hs He Hw Hok. apply (sessions_ok_sub st); [done|by rewrite Hs|].
  intros. by rewrite (owner_current_same st).
Qed.

Lemma webview_entry_sessions label st : sessions_ok st -> sessions_ok (webview_entry label st).2.
Proof.
  intros Hok. destruct (webview_entry_spec label st) as (_ & He & Hs & _ & _ & _ & _ & _ & Hw & _).
  apply (sessions_ok_sub st); [done|by rewrite Hs|]. intros k t _. unfold owner_is_current. rewrite He.
  destruct (t_owner t) as [h g l wg|l wg]; rewrite ?andb_true_iff.
  - intros [? (c & Ec & Ha & Hg)%is_generation_true]. split; [done|].
    apply is_generation_true. exists c. split; [by apply Hw|done].
  - intros (c & Ec & Ha & Hg)%is_generation_true. apply is_generation_true. exists c. split; [by apply Hw|done].
Qed.

Lemma insert_session_ok st kind handle owner :
  owner_is_current st owner = true -> sessions_ok st -> sessions_ok (insert_session kind handle owner st).
Proof.
  intros Hc Hok k t. cbn [insert_session set_sessions sessions].
  intros [[<- <-]|[_ Hk]]%lookup_insert_Some; [done|]. by apply Hok in Hk.
Qed.

(** What the retirements share: the sessions of the matching owners are taken. *)
Lemma take_matching_spec p st :
  let r := take_matching p st in
  (forall t, t ∈ r.1 <-> exists k, sessions st !! k = Some t /\ p t = true) /\
  (forall k t, sessions r.2 !! k = Some t <-> sessions st !! k = Some t /\ p t = false).
Proof.
  simpl. unfold take_matching. cbn. split.
  - intros t. rewrite list_elem_of_fmap. split.
    + intros ([k t'] & -> & E). apply elem_of_map_to_list, map_lookup_filter_Some in E as [? ?]. eauto.
    + intros (k & E & Hp). exists (k, t). split; [done|]. apply elem_of_map_to_list. by apply map_lookup_filter_Some.
  - intros k t. apply map_lookup_filter_Some.
Qed.

(** The fields a fence or a completion does not touch. *)
Definition same_owners (st st' : OwnershipState) : Prop :=
  sessions st' = sessions st /\ endpoints st' = endpoints st /\ webviews st' = webviews st.

Lemma publish_same label awaited st : same_owners st (publish_fence label awaited st).2.
Proof. done. Qed.

Lemma install_same labels awaited st : same_owners st (install_owner_cleanups labels awaited st).2.
Proof.
  revert st. induction labels as [|l labels IH]; intros st; [done|].
  specialize (IH (publish_fence l awaited st).2). cbn in *. by destruct (install_owner_cleanups labels awaited _).
Qed.

Lemma finish_completion_same c o st : same_owners st (finish_completion c o st).
Proof. unfold finish_completion. by repeat case_match. Qed.

Lemma fence_set_same f o st : same_owners st (fence_set f o st).
Proof. unfold fence_set. destruct (fences st !! f) as [[? ? ? []]|]; split_and!; done. Qed.

Lemma fence_remove_same f st : same_owners st (fence_remove f st).
Proof. unfold fence_remove. repeat case_match; split_and!; done. Qed.

(** ** Retirements *)

(** Exactly the sessions of the owners [p] selects are handed over. *)
Definition drains (p : DiscoveryOwner -> bool) (st : OwnershipState) (r : DiscoveryRetirement) (st' : OwnershipState)
  : Prop :=
  (forall t, t ∈ r_sessions r <-> exists k, sessions st !! k = Some t /\ p (t_owner t) = true) /\
  (forall k t, sessions st' !! k = Some t <-> sessions st !! k = Some t /\ p (t_owner t) = false).

Lemma retire_endpoint_spec h st r st' :
  retire_endpoint h st = Some (r, st') ->
  drains (owned_by_endpoint h) st r st' /\ webviews st' = webviews st /\
  endpoints st' = <[h := mkGeneration (gen (endpoints st) h + 1) false]> (endpoints st).
Proof.
  unfold retire_endpoint. destruct (next_generation _) as [g|] eqn:Eg; [|done].
  apply next_generation_Some in Eg as ->. fold (gen (endpoints st) h).
  set (st1 := set_endpoints _ st).
  destruct (take_matching_spec (fun s => owned_by_endpoint h (t_owner s)) st1) as [Ht Hk].
  unfold take_retirement. destruct (take_matching _ st1) as [taken st2] eqn:E. unfold take_matching in E.
  injection E as E1 E2. cbn in Ht, Hk.
  set (labels := matching_owner_labels _ _). set (awaited := matching_starts _ _).
  pose proof (install_same labels awaited st2) as (Hs & He & Hw).
  destruct (install_owner_cleanups labels awaited st2) as [fs st3]. intros [= <- <-]. unfold drains. cbn in *.
  rewrite Hs, He, Hw. subst st2. cbn. split_and!; done.
Qed.

Lemma next_webview_spec b label st r st' :
  next_webview b label st = Some (r, st') ->
  drains (fun o => bool_decide (owner_label o = label)) st r st' /\ endpoints st' = endpoints st /\
  webviews st' = <[label := mkGeneration (gen (webviews st) label + 1) b]> (webviews st).
Proof.
  unfold next_webview. destruct (next_generation _) as [g|] eqn:Eg; [|done].
  apply next_generation_Some in Eg as ->. fold (gen (webviews st) label).
  set (st1 := set_webviews _ st).
  destruct (take_matching_spec (fun s => bool_decide (owner_label (t_owner s) = label)) st1) as [Ht Hk].
  unfold take_retirement. destruct (take_matching _ st1) as [taken st2] eqn:E. unfold take_matching in E.
  injection E as E1 E2. cbn in Ht, Hk. intros [= <- <-]. unfold drains. cbn in *. subst st2. cbn. split_and!; done.
Qed.

Lemma end_generations_spec {K} `{Countable K} (l l' : gmap K OwnerGeneration) :
  end_generations l = Some l' -> l' = (fun o => mkGeneration (generation o + 1) false) <$> l.
Proof. unfold end_generations. case_bool_decide; naive_solver. Qed.

Lemma retire_all_spec st r st' :
  retire_all st = Some (r, st') ->
  drains (fun _ => true) st r st' /\
  endpoints st' = (fun o => mkGeneration (generation o + 1) false) <$> endpoints st /\
  webviews st' = (fun o => mkGeneration (generation o + 1) false) <$> webviews st.
Proof.
  unfold retire_all. destruct (end_generations (endpoints st)) as [eps|] eqn:Ee; [|done].
  destruct (end_generations (webviews st)) as [webs|] eqn:Ew; [|done].
  apply end_generations_spec in Ee, Ew. set (st1 := set_webviews _ _).
  destruct (take_matching_spec (fun _ => true) st1) as [Ht Hk].
  unfold take_retirement. destruct (take_matching _ st1) as [taken st2] eqn:E. unfold take_matching in E.
  injection E as E1 E2. cbn in Ht, Hk.
  set (labels := matching_owner_labels _ _). set (awaited := matching_starts _ _).
  pose proof (install_same labels awaited st2) as (Hs & He & Hw).
  destruct (install_owner_cleanups labels awaited st2) as [fs st3]. intros [= <- <-]. unfold drains. cbn in *.
  rewrite Hs, He, Hw. subst st2. cbn. split_and!; done.
Qed.

(** A retirement of the owners [p] selects. *)
Inductive retires (p : DiscoveryOwner -> bool) (st : OwnershipState) (r : DiscoveryRetirement)
  : OwnershipState -> Prop :=
| by_endpoint h st' :
    p = owned_by_endpoint h -> retire_endpoint h st = Some (r, st') -> retires p st r st'
| by_webview b label st' :
    p = (fun o => bool_decide (owner_label o = label)) -> next_webview b label st = Some (r, st') -> retires p st r st'
| by_all st' :
    p = (fun _ => true) -> retire_all st = Some (r, st') -> retires p st r st'.

Lemma retires_drains p st r st' : retires p st r st' -> drains p st r st'.
Proof.
  intros [h st1 -> E|b l st1 -> E|st1 -> E];
    [by apply retire_endpoint_spec in E as (? & _)|by apply next_webview_spec in E as (? & _)|by apply retire_all_spec in E as (? & _)].
Qed.

(** The owners that are retired are stale afterwards. *)
Lemma retires_stale p st r st' owner :
  retires p st r st' -> p owner = true -> owner_is_current st owner = true -> stale st' owner.
Proof.
  intros Hr Hp Hc.
  assert (forall g c h, endpoints st !! h = Some c -> generation c = g -> (g = gen (endpoints st) h)%Z) as Hge
    by (intros g c h E <-; unfold gen; by rewrite E).
  assert (forall g c l, webviews st !! l = Some c -> generation c = g -> (g = gen (webviews st) l)%Z) as Hgw
    by (intros g c l E <-; unfold gen; by rewrite E).
  destruct Hr as [h st1 -> E|b l st1 -> E|st1 -> E].
  - apply retire_endpoint_spec in E as (_ & _ & He). destruct owner as [h' g l wg|]; [|done].
    apply Z.eqb_eq in Hp as ->. simpl in *. rewrite He, gen_insert, decide_True by done. simpl.
    apply andb_true_iff in Hc as [(c & Ec & _ & Hg)%is_generation_true _]. left. rewrite (Hge _ _ _ Ec Hg). lia.
  - apply next_webview_spec in E as (_ & _ & Hw). apply bool_decide_eq_true in Hp.
    destruct owner as [h' g l' wg|l' wg]; simpl in *; subst l'; rewrite Hw, gen_insert, decide_True by done; simpl.
    + apply andb_true_iff in Hc as [_ (c & Ec & _ & Hg)%is_generation_true]. right. rewrite (Hgw _ _ _ Ec Hg). lia.
    + apply is_generation_true in Hc as (c & Ec & _ & Hg). rewrite (Hgw _ _ _ Ec Hg). lia.
  - apply retire_all_spec in E as (_ & _ & Hw). destruct owner as [h' g l wg|l wg]; simpl in *.
    + apply andb_true_iff in Hc as [_ (c & Ec & _ & Hg)%is_generation_true]. right.
      unfold gen. rewrite Hw, lookup_fmap, Ec. simpl. lia.
    + apply is_generation_true in Hc as (c & Ec & _ & Hg). unfold gen. rewrite Hw, lookup_fmap, Ec. simpl. lia.
Qed.

Lemma gen_fmap_le {K} `{Countable K} (l : gmap K OwnerGeneration) k :
  (gen l k <= gen ((fun o => mkGeneration (generation o + 1) false) <$> l) k)%Z.
Proof. unfold gen. rewrite lookup_fmap. destruct (l !! k); simpl; lia. Qed.

Lemma retires_gens p st r st' : retires p st r st' -> gens_pos st -> gens_le st st' /\ gens_pos st'.
Proof.
  intros Hr [H1 H2].
  assert (gens_le st st') as Hle.
  { destruct Hr as [h st1 -> E|b l st1 -> E|st1 -> E].
    - apply retire_endpoint_spec in E as (_ & Hw & He). split; intros x; rewrite ?Hw, ?He, ?gen_insert; [|lia].
      case_decide; simpl; subst; lia.
    - apply next_webview_spec in E as (_ & He & Hw). split; intros x; rewrite ?Hw, ?He, ?gen_insert; [lia|].
      case_decide; simpl; subst; lia.
    - apply retire_all_spec in E as (_ & He & Hw). split; intros x; rewrite ?He, ?Hw; apply gen_fmap_le. }
  split; [done|]. destruct Hle as [Ha Hb]. split; intros x; [specialize (H1 x); specialize (Ha x)|specialize (H2 x); specialize (Hb x)]; lia.
Qed.

(** Owners that are not retired stay current. *)
Lemma retires_keeps p st r st' owner :
  retires p st r st' -> p owner = false -> owner_is_current st owner = true -> owner_is_current st' owner = true.
Proof.
  intros Hr Hp Hc. destruct Hr as [h st1 -> E|b l st1 -> E|st1 -> E]; [| |done].
  - apply retire_endpoint_spec in E as (_ & Hw & He). unfold owner_is_current in *. rewrite Hw, He.
    destruct owner as [h' g l wg|]; [|done]. apply Z.eqb_neq in Hp. by rewrite lookup_insert_ne.
  - apply next_webview_spec in E as (_ & He & Hw). unfold owner_is_current in *. rewrite Hw, He.
    apply bool_decide_eq_false in Hp. by destruct owner as [h' g l' wg|l' wg]; simpl in *; rewrite lookup_insert_ne.
Qed.

Lemma retires_sessions p st r st' : retires p st r st' -> sessions_ok st -> sessions_ok st'.
Proof.
  intros Hr Hok. destruct (retires_drains _ _ _ _ Hr) as [_ Hk].
  apply (sessions_ok_sub st); [done|intros k t E; by apply Hk in E as [? _]|].
  intros k t E Hc. apply Hk in E as [_ Hp]. by eapply retires_keeps.
Qed.

(** ** Steps *)

Definition owners_ok (st : OwnershipState) : Prop := sessions_ok st /\ gens_pos st.
Definition owners_step (st st' : OwnershipState) : Prop := gens_le st st' /\ owners_ok st'.

Lemma owners_same st st' : same_owners st st' -> owners_ok st -> owners_step st st'.
Proof.
  intros (Hs & He & Hw) [Hok [H1 H2]]. split; [by apply gens_le_same|].
  split; [by apply (sessions_ok_same st)|]. split; intros; rewrite ?He, ?Hw; auto.
Qed.

Lemma owners_trans st1 st2 st3 : owners_step st1 st2 -> (owners_ok st2 -> owners_step st2 st3) -> owners_step st1 st3.
Proof. intros [H1 H2] H3. destruct (H3 H2) as [H4 H5]. split; [by eapply gens_le_trans|done]. Qed.

Lemma owners_entry label st : owners_ok st -> owners_step st (webview_entry label st).2.
Proof.
  intros [Hok Hp]. destruct (webview_entry_spec label st) as (_ & _ & _ & _ & _ & _ & _ & _ & _ & Hg).
  destruct (Hg Hp). split; [done|]. split; [by apply webview_entry_sessions|done].
Qed.

Lemma owners_activate h st st' :
  (forall o, endpoints st !! h = Some o -> active o = false) -> activate_endpoint h st = Some st' ->
  owners_ok st -> owners_step st st'.
Proof.
  intros Hin Ha [Hok [H1 H2]]. unfold activate_endpoint in Ha.
  destruct (next_generation _) as [g|] eqn:Eg; [|done]. apply next_generation_Some in Eg. fold (gen (endpoints st) h) in Eg.
  simplify_eq. assert (gens_le st (set_endpoints (<[h := mkGeneration (gen (endpoints st) h + 1) true]> (endpoints st)) st)) as Hle.
  { split; intros x; cbn; [rewrite gen_insert; case_decide; simpl; subst; lia|lia]. }
  split; [done|]. split.
  - apply (sessions_ok_sub st); [done|done|]. intros k t _. unfold owner_is_current. cbn.
    destruct (t_owner t) as [h' g l wg|l wg]; [|done]. rewrite !andb_true_iff. intros [(c & Ec & Hac & Hg)%is_generation_true ?].
    split; [|done]. assert (h <> h') by (intros ->; apply Hin in Ec; congruence). rewrite lookup_insert_ne by done.
    apply is_generation_true. eauto.
  - destruct Hle as [Ha' Hb']. split; intros x; [specialize (H1 x); specialize (Ha' x)|specialize (H2 x)]; cbn in *; lia.
Qed.

Lemma owners_insert_session st kind handle owner :
  owner_is_current st owner = true -> owners_ok st -> owners_step st (insert_session kind handle owner st).
Proof.
  intros Hc [Hok Hp]. split; [by apply gens_le_same|]. split; [by apply insert_session_ok|done].
Qed.

Lemma owners_delete_session st k : owners_ok st -> owners_step st (set_sessions (delete k (sessions st)) st).
Proof.
  intros [Hok Hp]. split; [by apply gens_le_same|]. split; [|done].
  apply (sessions_ok_sub st); [done| |done]. cbn. by intros k' t [_ ?]%lookup_delete_Some.
Qed.

Lemma owners_retires p st r st' : retires p st r st' -> owners_ok st -> owners_step st st'.
Proof.
  intros Hr [Hok Hp]. destruct (retires_gens _ _ _ _ Hr Hp). split; [done|]. split; [by eapply retires_sessions|done].
Qed.

Lemma owners_insert_start owner prior st lease st' :
  insert_start owner prior st = Some (lease, st') -> owners_ok st -> owners_step st st'.
Proof. unfold insert_start. case_match; [|done]. intros [= _ <-]. by apply owners_same. Qed.

Lemma step_owners m m' : step m m' -> owners_ok (owned m) -> owners_step (owned m) (owned m').
Proof.
  intros Hs Hok.
  destruct Hs as [m h st Hin Ha|m h label|m label|m token kind handle|m h label r st Hb|m id lease Hl
    |m id lease kind handle r lease' st Hl Hact Ht|m id lease outcome Hl Hact|m id lease Hl|m kind handle
    |m kind handle f st Hb|m h r st Hr|m b label r st Hr|m r st Hr|m l1 r l2 closed outcome Hw Ho|m l1 outcome f fs l2 Hf|m l1 outcome f fs l2 Hf];
    cbn [owned].
  - by eapply owners_activate.
  - unfold begin_peer. destruct (endpoints (owned m) !! h) as [e|]; [|by apply owners_same].
    destruct (active e); [|by apply owners_same]. cbn. pose proof (owners_entry label _ Hok) as He.
    destruct (webview_entry label (owned m)) as [w st]. by destruct (active w).
  - unfold begin_webview. pose proof (owners_entry label _ Hok) as He.
    destruct (webview_entry label (owned m)) as [w st]. by destruct (active w).
  - unfold track. destruct (owner_is_current _ _) eqn:E; cbn; [by apply owners_insert_session|by apply owners_same].
  - pose proof (owners_entry label _ Hok) as He.
    destruct Hb as [Hb|Hb]; [unfold begin_peer_start in Hb|unfold begin_webview_start in Hb];
      [destruct (endpoints (owned m) !! h) as [e|]; [|simplify_eq; by apply owners_same]|];
      destruct (webview_entry label (owned m)) as [w st1]; cbn in He;
      (case_match; [by simplify_eq|]);
      (destruct (insert_start _ _ st1) as [[lease st2]|] eqn:Ei; [|done]); simplify_eq;
      (eapply owners_trans; [exact He|intros; by eapply owners_insert_start]).
  - by apply owners_same.
  - unfold lease_track in Ht. destruct (owner_is_current _ _) eqn:E; cbn in Ht; simplify_eq; [|by apply owners_same].
    eapply owners_trans; [by apply (owners_insert_session _ kind handle _ E)|]. intros Hok'.
    eapply owners_trans; [by apply (owners_same _ (set_starts (delete (l_id lease) (starts (owned m))) (next_start (owned m))
      (insert_session kind handle (l_owner lease) (owned m))))|]. intros Hok''.
    apply owners_same; [apply finish_completion_same|done].
  - unfold finish_cleanup. eapply owners_trans; [by apply (owners_same _ (set_starts (delete (l_id lease) (starts (owned m))) (next_start (owned m)) (owned m)))|].
    intros. apply owners_same; [apply finish_completion_same|done].
  - unfold drop_lease. destruct (l_active lease); cbn; [|by apply owners_same].
    eapply owners_trans; [by apply (owners_same _ (set_starts (delete (l_id lease) (starts (owned m))) (next_start (owned m)) (owned m)))|].
    intros. apply owners_same; [apply finish_completion_same|done].
  - by apply owners_delete_session.
  - unfold begin_session_cleanup in Hb. destruct (sessions (owned m) !! (kind, handle)) as [t|]; [|done].
    unfold publish_fence in Hb. simplify_eq.
    eapply owners_trans; [by apply (owners_delete_session _ (kind, handle))|]. intros. by apply owners_same.
  - eapply owners_retires; [by eapply by_endpoint|done].
  - eapply owners_retires; [by eapply by_webview|done].
  - eapply owners_retires; [by eapply by_all|done].
  - by apply owners_same.
  - apply owners_same; [apply fence_set_same|done].
  - apply owners_same; [apply fence_remove_same|done].
Qed.

Lemma owners_ok_new : owners_ok (owned machine_new).
Proof.
  split; [intros k t E; cbn in E; by rewrite lookup_empty in E|].
  split; intros x; unfold gen; cbn; by rewrite lookup_empty.
Qed.

Lemma steps_owners m m' : rtc step m m' -> owners_ok (owned m) -> gens_le (owned m) (owned m') /\ owners_ok (owned m').
Proof.
  induction 1 as [m|m1 m2 m3 Hs _ IH]; intros Hok; [split; [by apply gens_le_same|done]|].
  destruct (step_owners _ _ Hs Hok) as [H1 H2]. destruct (IH H2) as [H3 H4]. split; [by eapply gens_le_trans|done].
Qed.

Lemma reachable_owners m : reachable m -> owners_ok (owned m).
Proof. intros Hr. by destruct (steps_owners _ _ Hr owners_ok_new). Qed.

(** ** Theorems *)

(** Every tracked discovery session belongs to a live owner: whatever starts,
    page loads, closes and retirements have happened and however they were
    interleaved, the endpoint of a tracked session is open in the generation
    that started it, and so is its WebView. *)
Theorem tracked_sessions_are_current (m : Machine) (kind : DiscoveryKind) (handle : Z) (t : TrackedDiscovery) :
  reachable m -> sessions (owned m) !! (kind, handle) = Some t ->
  t_kind t = kind /\ t_handle t = handle /\ owner_is_current (owned m) (t_owner t) = true.
Proof. intros Hr Hs. destruct (reachable_owners _ Hr) as [Hok _]. destruct (Hok _ _ Hs) as [[= -> ->] ?]. done. Qed.

(** C22. Retirement is exact and final.  Closing an endpoint, navigating or
    destroying a WebView, or closing everything hands over exactly the sessions
    of the owners concerned and leaves the others tracked; and an owner that
    was captured before can never track anything again, neither by a token nor
    by a lease, in any later state: a start that was in flight cannot attach
    itself to the next page or to an endpoint that reuses the handle. *)
Theorem retirement_is_exact_and_final (m m' : Machine) (p : DiscoveryOwner -> bool) (r : DiscoveryRetirement)
  (st : OwnershipState) (owner : DiscoveryOwner) :
  reachable m -> retires p (owned m) r st -> owner_is_current (owned m) owner = true -> p owner = true ->
  rtc step (mkMachine st (leases m) (waiting m ++ [r]) (finishing m)) m' ->
  drains p (owned m) r st /\
  (forall kind handle, track owner kind handle (owned m') = (Err tt, owned m')) /\
  (forall lease kind handle, l_owner lease = owner ->
     lease_track lease kind handle (owned m') = (Err tt, lease, owned m')) /\
  (forall k t, sessions (owned m') !! k = Some t -> t_owner t <> owner).
Proof.
  intros Hr Hret Hc Hp Hs. pose proof (reachable_owners _ Hr) as Hok.
  destruct (owners_retires _ _ _ _ Hret Hok) as [_ Hok'].
  destruct (steps_owners _ _ Hs Hok') as [Hle [Hok'' _]]. cbn [owned] in Hle.
  pose proof (stale_not_current _ _ (stale_mono _ _ _ Hle (retires_stale _ _ _ _ _ Hret Hp Hc))) as Hst.
  split_and!.
  - by apply retires_drains.
  - intros. unfold track. by rewrite Hst.
  - intros lease kind handle <-. unfold lease_track. by rewrite Hst.
  - intros k t Hk <-. destruct (Hok'' _ _ Hk). congruence.
Qed.

(** ** A schedule *)

Inductive Action :=
| AActivate (h : Z)
| AStart (h : Z) (label : string)
| ALeaseTrack (id : Z) (kind : DiscoveryKind) (handle : Z)
| AFinishCleanup (id : Z) (outcome : Outcome)
| ASessionCleanup (kind : DiscoveryKind) (handle : Z)
| AWebview (now_active : bool) (label : string)
| AWaitsOver (closed : list Outcome)
| AFinishFence
| ARemoveFence.

Definition act (m : Machine) (a : Action) : option Machine :=
  match a with
  | AActivate h =>
      match endpoints (owned m) !! h with
      | Some (mkGeneration _ true) => None
      | _ => st ← activate_endpoint h (owned m); Some (mkMachine st (leases m) (waiting m) (finishing m))
      end
  | AStart h label =>
      '(r, st) ← begin_peer_start h label (owned m);
      Some (mkMachine st (match r with Some l => <[l_id l := l]> (leases m) | None => leases m end)
              (waiting m) (finishing m))
  | ALeaseTrack id kind handle =>
      lease ← leases m !! id;
      if l_active lease
      then let '(_, lease', st) := lease_track lease kind handle (owned m) in
           Some (mkMachine st (<[id := lease']> (leases m)) (waiting m) (finishing m))
      else None
  | AFinishCleanup id outcome =>
      lease ← leases m !! id;
      if l_active lease
      then Some (mkMachine (finish_cleanup lease outcome (owned m)) (delete id (leases m)) (waiting m) (finishing m))
      else None
  | ASessionCleanup kind handle =>
      match begin_session_cleanup kind handle (owned m) with
      | (Some f, st) => Some (mkMachine st (leases m) (waiting m ++ [mkRetirement [] [] [f]]) (finishing m))
      | (None, _) => None
      end
  | AWebview b label =>
      '(r, st) ← next_webview b label (owned m);
      Some (mkMachine st (leases m) (waiting m ++ [r]) (finishing m))
  | AWaitsOver closed =>
      match waiting m with
      | r :: l =>
          outcome ← retirement_outcome (r_cleanups r) (r_starts r) closed (owned m);
          Some (mkMachine (owned m) (leases m) l (finishing m ++ [mkFinishing outcome None (r_cleanups r)]))
      | [] => None
      end
  | AFinishFence =>
      match finishing m with
      | mkFinishing outcome None (f :: fs) :: l =>
          Some (mkMachine (fence_set f outcome (owned m)) (leases m) (waiting m)
                  (mkFinishing outcome (if is_ok outcome then Some f else None) fs :: l))
      | _ => None
      end
  | ARemoveFence =>
      match finishing m with
      | mkFinishing outcome (Some f) fs :: l =>
          Some (mkMachine (fence_remove f (owned m)) (leases m) (waiting m) (mkFinishing outcome None fs :: l))
      | _ => None
      end
  end.

Lemma act_is_step m a m' : act m a = Some m' -> step m m'.
Proof.
  destruct a as [h|h label|id kind handle|id outcome|kind handle|b label|closed| |]; cbn; intros E.
  - destruct (endpoints (owned m) !! h) as [[g []]|] eqn:Eo; [done|..];
      (destruct (activate_endpoint h (owned m)) as [st|] eqn:Ea; [|done]); injection E as <-;
      (apply step_activate with (h := h); [|done]); intros o Ho; rewrite Eo in Ho; by simplify_eq.
  - destruct (begin_peer_start h label (owned m)) as [[r st]|] eqn:Eb; [|done]. injection E as <-.
    apply step_begin_start with (h := h) (label := label). by left.
  - destruct (leases m !! id) as [lease|] eqn:El; [|done]. cbn in E. destruct (l_active lease) eqn:Ea; [|done].
    destruct (lease_track lease kind handle (owned m)) as [[r lease'] st] eqn:Et. injection E as <-. by eapply step_lease_track.
  - destruct (leases m !! id) as [lease|] eqn:El; [|done]. cbn in E. destruct (l_active lease) eqn:Ea; [|done].
    injection E as <-. by eapply step_finish_cleanup.
  - destruct (begin_session_cleanup kind handle (owned m)) as [[f|] st] eqn:Eb; [|done]. injection E as <-.
    by eapply step_session_cleanup.
  - destruct (next_webview b label (owned m)) as [[r st]|] eqn:Eb; [|done]. injection E as <-. by eapply step_next_webview.
  - destruct (waiting m) as [|r l] eqn:Ew; [done|]. destruct (retirement_outcome _ _ _ _) as [o|] eqn:Eo; [|done]. injection E as <-.
    by apply (step_waits_over m [] r l closed o).
  - destruct (finishing m) as [|[o [|] [|f fs]] l] eqn:Ef; try done. injection E as <-. by apply (step_finish_fence m []).
  - destruct (finishing m) as [|[o [f|] fs] l] eqn:Ef; try done. injection E as <-. by apply (step_remove_fence m []).
Qed.

Definition run (m : Machine) (l : list Action) : option Machine := foldl (fun om a => om ≫= fun m => act m a) (Some m) l.

Lemma run_steps m l m' : run m l = Some m' -> rtc step m m'.
Proof.
  unfold run. revert m. induction l as [|a l IH]; intros m; cbn; [by intros [= ->]|].
  destruct (act m a) as [m1|] eqn:E; cbn.
  - intros H. eapply rtc_l; [by eapply act_is_step|by apply IH].
  - intros H. exfalso. clear -H. by induction l.
Qed.

(** The page starts two browses on an endpoint; the second is in flight. *)
Definition two_starts : list Action :=
  [AActivate 7; AStart 7 "main"; ALeaseTrack 0 BrowsePeers 3; AStart 7 "main"].
Definition in_flight : Machine := default machine_new (run machine_new two_starts).

Lemma in_flight_reachable : reachable in_flight.
Proof. apply (run_steps _ two_starts). by vm_compute. Qed.

Lemma tracked_sessions_are_current_witness :
  sessions (owned in_flight) !! (BrowsePeers, 3%Z) = Some (mkTracked BrowsePeers 3 (Peer 7 1 "main" 1)) /\
  owner_is_current (owned in_flight) (Peer 7 1 "main" 1) = true.
Proof.
  split; [by vm_compute|].
  apply (tracked_sessions_are_current in_flight BrowsePeers 3 (mkTracked BrowsePeers 3 (Peer 7 1 "main" 1))
           in_flight_reachable). by vm_compute.
Defined.

Lemma retirement_is_exact_and_final_witness :
  exists m r st,
    next_webview true "main" (owned in_flight) = Some (r, st) /\
    r_sessions r = [mkTracked BrowsePeers 3 (Peer 7 1 "main" 1)] /\ r_starts r = [1] /\
    track (Peer 7 1 "main" 1) BrowsePeers 9 (owned m) = (Err tt, owned m).
Proof.
  destruct (next_webview true "main" (owned in_flight)) as [[r st]|] eqn:E; [|by vm_compute in E].
  exists (mkMachine st (leases in_flight) (waiting in_flight ++ [r]) (finishing in_flight)), r, st.
  split; [done|]. split; [vm_compute in E; by injection E as <- _|]. split; [vm_compute in E; by injection E as <- _|].
  apply (retirement_is_exact_and_final in_flight _ (fun o => bool_decide (owner_label o = "main")) r st
           (Peer 7 1 "main" 1) in_flight_reachable (by_webview _ _ _ true "main" st eq_refl E)); [by vm_compute|by vm_compute|apply rtc_refl].
Defined.
