(* ===== verification/OwnershipFence.v ===== *)
(** * Cleanup fences

    A start that has waited for the cleanup fence its lease captured comes after
    every earlier retirement of its WebView: fences are chained by the one they
    replaced, a fence succeeds only after the one before it and the starts it
    waits for, and it is taken down only when it has succeeded. *)

From stdpp Require Import base numbers list strings sets gmap fin_maps relations countable.
From Stdlib Require Import ZArith Lia.
From S2P Require Import Prelude Ownership OwnershipProps.

Open Scope string_scope.
Open Scope list_scope.

(** ** Outcomes *)

Definition fence_ok (st : OwnershipState) (f : nat) : Prop := fence_outcome st f = Some (Ok tt).
Definition start_ok (st : OwnershipState) (c : nat) : Prop := completions st !! c = Some (Some (Ok tt)).

Lemma first_error_ok l : first_error l = Ok tt -> Forall (fun o => o = Ok tt) l.
Proof.
  unfold first_error. generalize (Ok tt : Outcome) at 1 as acc.
  assert (forall (acc : Outcome), fold_left (fun outcome r => if is_ok outcome then r else outcome) l acc = Ok tt ->
    acc = Ok tt /\ Forall (fun o => o = Ok tt) l) as H; [|intros acc Hf; by apply H in Hf as [_ ?]].
  induction l as [|o l IH]; cbn; intros acc Hf; [done|]. apply IH in Hf as [Hf Hl].
  destruct acc as [[]|e]; cbn in Hf; [|done]. by repeat constructor.
Qed.

(** What a retirement has waited for when its outcome is a success. *)
Definition waited (st : OwnershipState) (f : nat) : Prop :=
  forall fence, fences st !! f = Some fence ->
    (forall p, f_previous fence = Some p -> fence_ok st p) /\ Forall (start_ok st) (f_starts fence).

Lemma retirement_outcome_ok fs awaited closed st :
  retirement_outcome fs awaited closed st = Some (Ok tt) ->
  Forall (fun f => exists fence, fences st !! f = Some fence /\ f_starts fence = awaited) fs ->
  Forall (waited st) fs.
Proof.
  unfold retirement_outcome. intros H Hfs.
  destruct (previous_outcomes st fs) as [previous|] eqn:Ep; [|done]. cbn in H.
  destruct (start_outcomes st awaited) as [started|] eqn:Es; [|done]. cbn in H.
  injection H as H. apply first_error_ok in H. rewrite !Forall_app in H. destruct H as (Hp & _ & Hs).
  unfold previous_outcomes in Ep. unfold start_outcomes in Es. apply mapM_Some in Ep, Es.
  assert (Forall (start_ok st) awaited) as Ha.
  { clear -Es Hs. induction Es as [|c o l l' E Es IH]; [constructor|]. apply Forall_cons_1 in Hs as [-> Hs].
    constructor; [|by apply IH]. unfold start_ok. destruct (completions st !! c); cbn in E; congruence. }
  clear Es Hs. induction Ep as [|f o fs previous E Ep IH]; [constructor|].
  apply Forall_cons_1 in Hp as [-> Hp]. apply Forall_cons_1 in Hfs as [(fence & Ef & Hst) Hfs].
  constructor; [|by apply IH]. intros fence' Ef'. rewrite Ef in Ef'. injection Ef' as <-. rewrite Ef in E. cbn in E.
  split; [|by rewrite Hst]. intros p Hp'. by rewrite Hp' in E.
Qed.

(** ** Cells only gain outcomes *)

Record cells_le (st st' : OwnershipState) : Prop := mkCellsLe {
  le_fence : forall f fence, fences st !! f = Some fence ->
    exists o, fences st' !! f = Some (mkFence (f_label fence) (f_previous fence) (f_starts fence) o) /\
              (forall x, f_outcome fence = Some x -> o = Some x);
  le_start : forall c, start_ok st c -> start_ok st' c
}.

Lemma cells_le_refl st : cells_le st st.
Proof. split; [|done]. intros f [l p s o] E. by exists o. Qed.

Lemma cells_le_trans st1 st2 st3 : cells_le st1 st2 -> cells_le st2 st3 -> cells_le st1 st3.
Proof.
  intros [H1 H2] [H3 H4]. split; [|auto]. intros f fence E. apply H1 in E as (o & E & Ho).
  apply H3 in E as (o' & E & Ho'). exists o'. split; [done|]. auto.
Qed.

Lemma cells_le_same st st' :
  fences st' = fences st -> completions st' = completions st -> cells_le st st'.
Proof.
  intros Hf Hc. destruct (cells_le_refl st) as [H1 H2]. split; [by rewrite Hf|]. unfold start_ok in *. by rewrite Hc.
Qed.

Lemma le_ok st st' f : cells_le st st' -> fence_ok st f -> fence_ok st' f.
Proof.
  intros Hle. unfold fence_ok, fence_outcome. destruct (fences st !! f) as [fence|] eqn:E; [|done]. cbn. intros Ho.
  apply (le_fence _ _ Hle) in E as (o & -> & Hx). cbn. by apply Hx.
Qed.

Lemma le_waited st st' f : cells_le st st' -> is_Some (fences st !! f) -> waited st f -> waited st' f.
Proof.
  intros Hle [fence E] Hw. destruct (le_fence _ _ Hle _ _ E) as (o & E' & _). intros fence' Hf. rewrite E' in Hf. injection Hf as <-.
  cbn. destruct (Hw _ E) as [H1 H2]. split; [intros; eapply le_ok; eauto|].
  revert H2. apply Forall_impl, (le_start _ _ Hle).
Qed.

(** ** Chains *)

Definition replaced (st : OwnershipState) (f p : nat) : Prop :=
  exists fence, fences st !! f = Some fence /\ f_previous fence = Some p.

(** [g] is the fence [o] or one that it replaced, directly or not. *)
Definition behind (st : OwnershipState) (o : option nat) (g : nat) : Prop :=
  match o with Some f => rtc (replaced st) f g | None => False end.

Lemma le_behind st st' o g : cells_le st st' -> behind st o g -> behind st' o g.
Proof.
  intros Hle. destruct o as [f|]; [|done]. cbn. induction 1 as [|f p g (fence & E & Hp) _ IH]; [done|].
  apply (rtc_l _ _ p); [|done]. apply (le_fence _ _ Hle) in E as (x & E & _). by eexists.
Qed.

(** The fence of [label] covers the fences below [n]: each has succeeded or is
    one that it replaced. *)
Definition covered (st : OwnershipState) (label : string) (o : option nat) (n : nat) : Prop :=
  forall g fence, g < n -> fences st !! g = Some fence -> f_label fence = label -> fence_ok st g \/ behind st o g.

Record fence_inv (st : OwnershipState) : Prop := mkFenceInv {
  ok_waited : forall f, fence_ok st f -> waited st f;
  all_covered : forall label, covered st label (webview_cleanups st !! label) (length (fences st))
}.

Lemma ok_behind st f g : (forall f, fence_ok st f -> waited st f) -> rtc (replaced st) f g -> fence_ok st f -> fence_ok st g.
Proof.
  intros Hw. induction 1 as [|f p g (fence & E & Hp) _ IH]; [done|]. intros Ho. apply IH.
  destruct (Hw _ Ho _ E) as [H _]. by apply H.
Qed.

Lemma covered_le st st' label o n :
  cells_le st st' -> n <= length (fences st) -> covered st label o n -> covered st' label o n.
Proof.
  intros Hle Hn Hc g fence' Hg Hf' Hl. destruct (lookup_lt_is_Some_2 (fences st) g) as [fence Hf]; [lia|].
  destruct (le_fence _ _ Hle _ _ Hf) as (x & Hf'' & _). rewrite Hf' in Hf''. injection Hf'' as ->. cbn in Hl.
  destruct (Hc g fence Hg Hf Hl); [left; by eapply le_ok|right; by eapply le_behind].
Qed.

(** ** Operations *)

(** The part of the state the fences live in. *)
Definition same_cells (st st' : OwnershipState) : Prop :=
  webview_cleanups st' = webview_cleanups st /\ completions st' = completions st /\ fences st' = fences st.

Lemma fence_inv_le st st' :
  cells_le st st' -> length (fences st') = length (fences st) ->
  webview_cleanups st' = webview_cleanups st -> (forall f, fence_ok st' f -> waited st' f) -> fence_inv st -> fence_inv st'.
Proof.
  intros Hle Hn Hw Hok Hi. split; [done|]. intros label. rewrite Hw, Hn. by apply (covered_le st); [|done|apply (all_covered _ Hi)].
Qed.

(** What every operation does to the cells, finishing a fence apart. *)
Definition grows (st st' : OwnershipState) : Prop :=
  cells_le st st' /\ fences st `prefix_of` fences st' /\ (fence_inv st -> fence_inv st').

Lemma grows_trans st1 st2 st3 : grows st1 st2 -> grows st2 st3 -> grows st1 st3.
Proof. intros (H1 & H2 & H3) (H4 & H5 & H6). split_and!; [by eapply cells_le_trans|by etrans|auto]. Qed.

(** Neither the fences nor the map of current ones change. *)
Lemma grows_fences st st' :
  fences st' = fences st -> webview_cleanups st' = webview_cleanups st ->
  (forall c, start_ok st c -> start_ok st' c) -> grows st st'.
Proof.
  intros Hf Hw Hc. assert (cells_le st st') as Hle.
  { destruct (cells_le_refl st) as [H1 H2]. split; [by rewrite Hf|done]. }
  split_and!; [done|by rewrite Hf|]. intros Hi. apply (fence_inv_le st); [done|by rewrite Hf|done| |done]. intros f Ho.
  assert (fence_ok st f) as Ho' by (unfold fence_ok, fence_outcome in *; by rewrite Hf in Ho).
  apply (le_waited st); [done| |by apply (ok_waited _ Hi)]. unfold fence_ok, fence_outcome in Ho'. by destruct (fences st !! f).
Qed.

Lemma grows_cells st st' : same_cells st st' -> grows st st'.
Proof. intros (Hw & Hc & Hf). apply grows_fences; [done|done|]. unfold start_ok. by rewrite Hc. Qed.

Lemma grows_finish_completion c o st : grows st (finish_completion c o st).
Proof.
  unfold finish_completion. destruct (completions st !! c) as [[]|] eqn:E; try (by apply grows_cells).
  apply grows_fences; [done|done|]. unfold start_ok. cbn. intros c' Hc. rewrite list_lookup_insert_ne; [done|congruence].
Qed.

Lemma grows_insert_start owner prior st lease st' :
  insert_start owner prior st = Some (lease, st') -> grows st st'.
Proof.
  unfold insert_start. case_match; [|done]. intros [= _ <-]. apply grows_fences; [done|done|].
  unfold start_ok. cbn. intros c Hc. by rewrite lookup_app_l by (by eapply lookup_lt_Some).
Qed.

Lemma grows_fence_remove f st : fence_ok st f -> grows st (fence_remove f st).
Proof.
  intros Ho. unfold fence_remove. destruct (fences st !! f) as [fence|] eqn:Ef; [|by apply grows_cells].
  case_bool_decide as Hw; [|by apply grows_cells]. set (st' := set_cleanups _ _).
  assert (cells_le st st') as Hle by (by apply cells_le_same).
  split_and!; [done|done|]. intros Hi. split.
  - intros g Hg. apply (le_waited st); [done| |by apply (ok_waited _ Hi)].
    unfold fence_ok, fence_outcome in Hg. cbn in Hg. by destruct (fences st !! g).
  - intros label g gf Hg Eg Hl. cbn in Hg, Eg |- *. destruct (all_covered _ Hi label g gf Hg Eg Hl) as [?|Hb]; [by left|].
    destruct (decide (label = f_label fence)) as [->|]; [|right; rewrite lookup_delete_ne by done; by apply (le_behind st)].
    left. rewrite Hw in Hb. eapply (ok_behind st); [apply (ok_waited _ Hi)|exact Hb|done].
Qed.

(** The fences [fs] are new, not finished, and wait for [awaited]. *)
Definition published (st st' : OwnershipState) (awaited fs : list nat) : Prop :=
  NoDup fs /\ Forall (fun f => length (fences st) <= f /\
    exists fence, fences st' !! f = Some fence /\ f_starts fence = awaited /\ f_outcome fence = None) fs.

Lemma publish_le label awaited st : cells_le st (publish_fence label awaited st).2.
Proof.
  destruct (cells_le_refl st) as [H1 H2]. split; [|done]. intros f fence E. cbn.
  rewrite lookup_app_l by (by eapply lookup_lt_Some). by apply H1.
Qed.

Lemma publish_new label awaited st :
  fences (publish_fence label awaited st).2 !! length (fences st) =
    Some (mkFence label (webview_cleanups st !! label) awaited None).
Proof. cbn. by rewrite lookup_app_r, Nat.sub_diag by done. Qed.

Lemma publish_old label awaited st f :
  fence_ok (publish_fence label awaited st).2 f -> fence_ok st f /\ is_Some (fences st !! f).
Proof.
  unfold fence_ok, fence_outcome. cbn. destruct (decide (f < length (fences st))) as [Hlt|Hge].
  - rewrite lookup_app_l by done. by destruct (fences st !! f).
  - rewrite lookup_app_r by lia. by destruct (f - length (fences st)) as [|[|n]].
Qed.

Lemma publish_inv label awaited st : fence_inv st -> fence_inv (publish_fence label awaited st).2.
Proof.
  intros Hi. pose proof (publish_le label awaited st) as Hle. split.
  - intros f Ho. apply publish_old in Ho as [Ho Hs]. apply (le_waited st); [done|done|by apply (ok_waited _ Hi)].
  - pose proof (publish_new label awaited st) as Hn.
    assert (webview_cleanups (publish_fence label awaited st).2 = <[label := length (fences st)]> (webview_cleanups st)) as Hw by done.
    assert (length (fences (publish_fence label awaited st).2) = S (length (fences st))) as Hlen
      by (cbn; rewrite length_app; cbn; lia).
    revert Hle Hn Hw Hlen. generalize (publish_fence label awaited st).2 as st'. intros st' Hle Hn Hw Hlen l g fence Hg Ef Hl.
    rewrite Hw. destruct (decide (g = length (fences st))) as [->|Hne].
    { rewrite Hn in Ef. injection Ef as <-. cbn in Hl. subst l. right. rewrite lookup_insert_eq. constructor. }
    destruct (covered_le st st' l (webview_cleanups st !! l) _ Hle (Nat.le_refl _) (all_covered _ Hi l) g fence)
      as [?|Hb]; [lia|done|done|by left|right].
    destruct (decide (l = label)) as [->|]; [|by rewrite lookup_insert_ne].
    rewrite lookup_insert_eq. destruct (webview_cleanups st !! label) as [p|]; [|done].
    apply (rtc_l _ _ p); [by eexists|done].
Qed.

Lemma publish_grows label awaited st : grows st (publish_fence label awaited st).2.
Proof. split_and!; [apply publish_le|by eexists|apply publish_inv]. Qed.

Lemma install_published labels awaited st :
  let r := install_owner_cleanups labels awaited st in
  grows st r.2 /\ published st r.2 awaited r.1.
Proof.
  revert st. induction labels as [|label labels IH]; intros st; cbn -[publish_fence].
  - split; [by apply grows_cells|]. split; constructor.
  - pose proof (publish_grows label awaited st) as Hg. pose proof (publish_new label awaited st) as Hn.
    assert (length (fences (publish_fence label awaited st).2) = S (length (fences st))) as Hlen
      by (cbn; rewrite length_app; cbn; lia).
    assert ((publish_fence label awaited st).1 = length (fences st)) as Hf by done.
    destruct (publish_fence label awaited st) as [f st1]. cbn in Hg, Hn, Hlen, Hf. subst f.
    destruct (IH st1) as ((H1 & H2 & H3) & H4 & H5). destruct (install_owner_cleanups labels awaited st1) as [fs st2]. cbn in *.
    split; [by eapply grows_trans|]. split.
    + constructor; [|done]. intros Hin. rewrite list.Forall_forall in H5. apply H5 in Hin as [? _]. lia.
    + constructor.
      * split; [done|]. eexists. split; [by eapply prefix_lookup_Some|done].
      * revert H5. apply Forall_impl. cbn. intros f [? ?]. split; [lia|done].
Qed.

Lemma retires_published p st r st' :
  retires p st r st' -> grows st st' /\ published st st' (r_starts r) (r_cleanups r).
Proof.
  intros [h st1 -> E|b l st1 -> E|st1 -> E].
  - unfold retire_endpoint in E. case_match; [|done]. set (labels := matching_owner_labels _ _) in E.
    cbn in E. set (st2 := set_sessions _ _) in E. set (awaited := matching_starts _ _) in E.
    pose proof (install_published labels awaited st2) as [Hg Hp].
    destruct (install_owner_cleanups labels awaited st2) as [fs st3]. cbn in E. injection E as <- <-. cbn in *.
    split; [|done]. eapply grows_trans; [|exact Hg]. by apply grows_cells.
  - unfold next_webview in E. case_match; [|done]. cbn -[publish_fence] in E. set (st2 := set_sessions _ _) in E.
    set (awaited := matching_starts _ _) in E. pose proof (install_published [l] awaited st2) as [Hg Hp].
    cbn -[publish_fence] in Hg, Hp. destruct (publish_fence l awaited st2) as [f st3]. injection E as <- <-. cbn in *.
    split; [|done]. eapply grows_trans; [|exact Hg]. by apply grows_cells.
  - unfold retire_all in E. case_match; [|done]. case_match; [|done]. set (labels := matching_owner_labels _ _) in E.
    cbn in E. set (st2 := set_sessions _ _) in E. set (awaited := matching_starts _ _) in E.
    pose proof (install_published labels awaited st2) as [Hg Hp].
    destruct (install_owner_cleanups labels awaited st2) as [fs st3]. cbn in E. injection E as <- <-. cbn in *.
    split; [|done]. eapply grows_trans; [|exact Hg]. by apply grows_cells.
Qed.

Lemma session_cleanup_published kind handle st f st' :
  begin_session_cleanup kind handle st = (Some f, st') -> grows st st' /\ published st st' [] [f].
Proof.
  unfold begin_session_cleanup. destruct (sessions st !! (kind, handle)) as [t|]; [|done]. set (st2 := set_sessions _ _).
  pose proof (install_published [owner_label (t_owner t)] [] st2) as [Hg Hp]. cbn -[publish_fence] in Hg, Hp.
  destruct (publish_fence _ [] st2) as [f' st3]. intros [= <- <-]. cbn in *. split; [|done].
  eapply grows_trans; [|exact Hg]. by apply grows_cells.
Qed.

(** ** The machine *)

Definition unfinished (st : OwnershipState) (f : nat) : Prop :=
  exists fence, fences st !! f = Some fence /\ f_outcome fence = None.

(** The fences that retirements still have to finish. *)
Definition pending (m : Machine) : list nat :=
  concat (r_cleanups <$> waiting m) ++ concat (fin_fences <$> finishing m).

Definition lease_ok (st : OwnershipState) (lease : StartLease) : Prop :=
  since lease <= length (fences st) /\ covered st (owner_label (l_owner lease)) (prior_cleanup lease) (since lease).
Definition waiting_ok (st : OwnershipState) (r : DiscoveryRetirement) : Prop :=
  Forall (fun f => exists fence, fences st !! f = Some fence /\ f_starts fence = r_starts r) (r_cleanups r).
Definition finishing_ok (st : OwnershipState) (t : Finishing) : Prop :=
  (fin_outcome t = Ok tt -> Forall (waited st) (fin_fences t)) /\ (forall f, fin_removing t = Some f -> fence_ok st f).

Record inv (m : Machine) : Prop := mkInv {
  i_fences : fence_inv (owned m);
  i_leases : map_Forall (fun _ => lease_ok (owned m)) (leases m);
  i_waiting : Forall (waiting_ok (owned m)) (waiting m);
  i_finishing : Forall (finishing_ok (owned m)) (finishing m);
  i_distinct : NoDup (pending m);
  i_pending : Forall (unfinished (owned m)) (pending m)
}.

Lemma lease_ok_le st st' lease :
  cells_le st st' -> length (fences st) <= length (fences st') -> lease_ok st lease -> lease_ok st' lease.
Proof. intros Hle Hn [H1 H2]. split; [lia|]. by apply (covered_le st). Qed.

Lemma waiting_ok_le st st' r : cells_le st st' -> waiting_ok st r -> waiting_ok st' r.
Proof.
  intros Hle. apply Forall_impl. intros f (fence & E & Hs). destruct (le_fence _ _ Hle _ _ E) as (o & E' & _).
  eexists. split; [exact E'|done].
Qed.

Lemma finishing_ok_le st st' t :
  cells_le st st' -> Forall (fun f => is_Some (fences st !! f)) (fin_fences t) -> finishing_ok st t -> finishing_ok st' t.
Proof.
  intros Hle Hs [H1 H2]. split; [|intros f Hf; eapply le_ok; eauto]. intros Ho. specialize (H1 Ho).
  rewrite list.Forall_forall in *. intros f Hf. eapply le_waited; eauto.
Qed.

Lemma unfinished_prefix st st' f : fences st `prefix_of` fences st' -> unfinished st f -> unfinished st' f.
Proof. intros Hp (fence & E & Ho). exists fence. split; [by eapply prefix_lookup_Some|done]. Qed.

(** The fences of a finishing task are pending. *)
Lemma finishing_known m :
  Forall (unfinished (owned m)) (pending m) ->
  Forall (fun t => Forall (fun f => is_Some (fences (owned m) !! f)) (fin_fences t)) (finishing m).
Proof.
  unfold pending. rewrite Forall_app. intros [_ H]. rewrite list.Forall_forall in H. apply list.Forall_forall. intros t Ht. apply list.Forall_forall. intros f Hf.
  destruct (H f) as (fence & E & _); [|by eexists]. apply list_elem_of_In, List.in_concat. exists (fin_fences t).
  split; [apply list_elem_of_In, list_elem_of_fmap; eauto|by apply list_elem_of_In].
Qed.

Lemma inv_grows m st :
  grows (owned m) st -> inv m -> inv (mkMachine st (leases m) (waiting m) (finishing m)).
Proof.
  intros (Hle & Hp & Hf) [H1 H2 H3 H4 H5 H6]. pose proof (finishing_known _ H6) as Hk.
  split; cbn; [auto|..].
  - intros id lease E. apply (lease_ok_le (owned m)); [done|by apply prefix_length|by eapply H2].
  - revert H3. apply Forall_impl. intros r. by apply waiting_ok_le.
  - clear -Hle H4 Hk. induction H4; [constructor|]. apply Forall_cons_1 in Hk as [? ?]. constructor; [by apply (finishing_ok_le (owned m))|auto].
  - done.
  - revert H6. apply Forall_impl. intros f. by apply unfinished_prefix.
Qed.

Lemma inv_leases m l :
  map_Forall (fun _ => lease_ok (owned m)) l -> inv m -> inv (mkMachine (owned m) l (waiting m) (finishing m)).
Proof. intros Hl [H1 H2 H3 H4 H5 H6]. by split. Qed.

(** A retirement is added to the ones that wait. *)
Lemma inv_retire m r st :
  grows (owned m) st -> published (owned m) st (r_starts r) (r_cleanups r) -> inv m ->
  inv (mkMachine st (leases m) (waiting m ++ [r]) (finishing m)).
Proof.
  intros Hg [Hnd Hnew] Hi. pose proof (inv_grows m st Hg Hi) as [H1 H2 H3 H4 H5 H6]. cbn [owned leases waiting finishing] in *.
  assert (Forall (unfinished (owned m)) (pending m)) as Hold by apply Hi.
  assert (pending (mkMachine st (leases m) (waiting m ++ [r]) (finishing m)) ≡ₚ
          r_cleanups r ++ pending (mkMachine st (leases m) (waiting m) (finishing m))) as Hpe.
  { unfold pending. cbn. rewrite fmap_app, concat_app. cbn. rewrite app_nil_r. solve_Permutation. }
  split; [done|done| |done|..]; cbn [owned leases waiting finishing].
  - apply Forall_app. split; [done|]. constructor; [|constructor]. revert Hnew. apply Forall_impl.
    intros f (_ & fence & E & Hs & _). by exists fence.
  - rewrite Hpe. apply list.NoDup_app. split_and!; [done| |done]. intros f Hf Hf'. rewrite list.Forall_forall in Hnew, Hold.
    apply Hnew in Hf as [Hf _]. apply Hold in Hf' as (fence & E & _). apply lookup_lt_Some in E. lia.
  - rewrite Hpe. apply Forall_app. split; [|done]. revert Hnew. apply Forall_impl. intros f (_ & fence & E & _ & Ho). by exists fence.
Qed.

Lemma inv_waits_over m l1 r l2 closed outcome :
  waiting m = l1 ++ r :: l2 -> retirement_outcome (r_cleanups r) (r_starts r) closed (owned m) = Some outcome -> inv m ->
  inv (mkMachine (owned m) (leases m) (l1 ++ l2) (finishing m ++ [mkFinishing outcome None (r_cleanups r)])).
Proof.
  intros Ew Ho [H1 H2 H3 H4 H5 H6]. rewrite Ew in H3. apply Forall_app in H3 as [H3 H3']. apply Forall_cons_1 in H3' as [Hr H3'].
  assert (pending (mkMachine (owned m) (leases m) (l1 ++ l2) (finishing m ++ [mkFinishing outcome None (r_cleanups r)])) ≡ₚ
          pending m) as Hpe.
  { unfold pending. cbn. rewrite Ew, !fmap_app, !concat_app. cbn. rewrite app_nil_r. solve_Permutation. }
  split; cbn [owned leases waiting finishing]; [done|done|by apply Forall_app| |by rewrite Hpe|by rewrite Hpe].
  apply Forall_app. split; [done|]. constructor; [|constructor]. split; [|done]. cbn. intros ->.
  by eapply retirement_outcome_ok.
Qed.

Lemma inv_remove_fence m l1 outcome f fs l2 :
  finishing m = l1 ++ mkFinishing outcome (Some f) fs :: l2 -> inv m ->
  inv (mkMachine (fence_remove f (owned m)) (leases m) (waiting m) (l1 ++ mkFinishing outcome None fs :: l2)).
Proof.
  intros Ef Hi. pose proof (i_finishing _ Hi) as H4. rewrite Ef in H4. apply Forall_app in H4 as [Ha Hb].
  apply Forall_cons_1 in Hb as [[Hw Hr] Hb].
  assert (inv (mkMachine (owned m) (leases m) (waiting m) (l1 ++ mkFinishing outcome None fs :: l2))) as Hi'.
  { destruct Hi as [H1 H2 H3 _ H5 H6]. unfold pending in *. rewrite Ef, fmap_app, fmap_cons in H5, H6.
    split; cbn; unfold pending; cbn; rewrite ?fmap_app, ?fmap_cons; try done. apply Forall_app. split; [done|].
    constructor; [|done]. by split. }
  apply inv_grows with (2 := Hi'). by apply grows_fence_remove, Hr.
Qed.

Lemma fence_set_le f o st : cells_le st (fence_set f o st).
Proof.
  unfold fence_set. destruct (fences st !! f) as [[l p s []]|] eqn:E; try apply cells_le_refl.
  split; [|done]. intros g fence Eg. cbn. destruct (decide (g = f)) as [->|].
  - rewrite list_lookup_insert_eq by (by eapply lookup_lt_Some). rewrite E in Eg. injection Eg as <-. by exists (Some o).
  - rewrite list_lookup_insert_ne by done. destruct (cells_le_refl st) as [H _]. by apply H.
Qed.

Lemma fence_set_length f o st : length (fences (fence_set f o st)) = length (fences st).
Proof. unfold fence_set. destruct (fences st !! f) as [[l p s []]|]; cbn; by rewrite ?length_insert. Qed.

Lemma fence_set_eq f o st : unfinished st f -> fence_outcome (fence_set f o st) f = Some o.
Proof.
  intros ([l p s x] & E & Ho). cbn in Ho. subst x. unfold fence_set, fence_outcome. rewrite E. cbn.
  by rewrite list_lookup_insert_eq by (by eapply lookup_lt_Some).
Qed.

Lemma fence_set_ne f o st g : g <> f -> fences (fence_set f o st) !! g = fences st !! g.
Proof. intros Hne. unfold fence_set. destruct (fences st !! f) as [[l p s []]|]; cbn; rewrite ?list_lookup_insert_ne; done. Qed.

Lemma fence_set_inv f o st :
  unfinished st f -> (o = Ok tt -> waited st f) -> fence_inv st -> fence_inv (fence_set f o st).
Proof.
  intros Hu Hw Hi. pose proof (fence_set_le f o st) as Hle.
  apply (fence_inv_le st); [done|apply fence_set_length|unfold fence_set; by destruct (fences st !! f) as [[? ? ? []]|]| |done].
  intros g Hg. destruct Hu as (fence & E & Hn).
  destruct (decide (g = f)) as [->|Hne].
  - unfold fence_ok in Hg. rewrite fence_set_eq in Hg by (by exists fence). injection Hg as Hg.
    apply (le_waited st); [done|by eexists|auto].
  - assert (fence_ok st g) as Hg' by (unfold fence_ok, fence_outcome in *; by rewrite fence_set_ne in Hg).
    apply (le_waited st); [done| |by apply (ok_waited _ Hi)]. unfold fence_ok, fence_outcome in Hg'. by destruct (fences st !! g).
Qed.

Lemma inv_finish_fence m l1 outcome f fs l2 :
  finishing m = l1 ++ mkFinishing outcome None (f :: fs) :: l2 -> inv m ->
  inv (mkMachine (fence_set f outcome (owned m)) (leases m) (waiting m)
         (l1 ++ mkFinishing outcome (if is_ok outcome then Some f else None) fs :: l2)).
Proof.
  intros Ef [H1 H2 H3 H4 H5 H6]. pose proof (finishing_known _ H6) as Hk.
  assert (pending m ≡ₚ f :: pending (mkMachine (fence_set f outcome (owned m)) (leases m) (waiting m)
         (l1 ++ mkFinishing outcome (if is_ok outcome then Some f else None) fs :: l2))) as Hpe.
  { unfold pending. cbn. rewrite Ef, !fmap_app, !fmap_cons, !concat_app. cbn. solve_Permutation. }
  rewrite Hpe in H5, H6. apply list.NoDup_cons in H5 as [Hnin H5]. apply Forall_cons_1 in H6 as [Hu H6].
  rewrite Ef in H4, Hk. apply Forall_app in H4 as [Ha Hb], Hk as [Hka Hkb]. apply Forall_cons_1 in Hb as [[Hw Hr] Hb], Hkb as [Hkf Hkb].
  cbn in Hw, Hr, Hkf. pose proof (fence_set_le f outcome (owned m)) as Hle.
  assert (forall l, Forall (finishing_ok (owned m)) l ->
    Forall (fun t => Forall (fun f => is_Some (fences (owned m) !! f)) (fin_fences t)) l ->
    Forall (finishing_ok (fence_set f outcome (owned m))) l) as Hfin.
  { intros l Hl Hk. clear -Hl Hk Hle. induction Hl; [constructor|]. apply Forall_cons_1 in Hk as [? ?].
    constructor; [by apply (finishing_ok_le (owned m))|auto]. }
  split; cbn [owned leases waiting finishing].
  - apply fence_set_inv; [done| |done]. intros Ho. specialize (Hw Ho). by apply Forall_cons_1 in Hw as [? _].
  - intros id lease E. apply (lease_ok_le (owned m)); [done|by rewrite fence_set_length|by eapply H2].
  - revert H3. apply Forall_impl. intros r. by apply waiting_ok_le.
  - apply Forall_app. split; [by apply Hfin|]. constructor; [|by apply Hfin]. split; cbn.
    + intros Ho. specialize (Hw Ho). apply Forall_cons_1 in Hw as [_ Hw]. apply Forall_cons_1 in Hkf as [_ Hkf].
      clear -Hw Hkf Hle. induction Hw; [constructor|]. apply Forall_cons_1 in Hkf as [? ?]. constructor; [by apply (le_waited (owned m))|auto].
    + destruct outcome as [[]|]; [|done]. intros g [= <-]. by apply fence_set_eq.
  - done.
  - rewrite list.Forall_forall in H6 |- *. intros g Hg. destruct (H6 g Hg) as (fence & E & Ho). exists fence.
    split; [|done]. rewrite fence_set_ne; [done|]. intros ->. done.
Qed.

(** ** Starts *)

Lemma entry_cells label st : same_cells st (webview_entry label st).2.
Proof. unfold webview_entry. by destruct (webviews st !! label). Qed.

Lemma insert_start_lease owner st lease st' :
  insert_start owner (webview_cleanups st !! owner_label owner) st = Some (lease, st') ->
  fence_inv st -> lease_ok st' lease.
Proof.
  intros Hs Hi. pose proof (grows_insert_start _ _ _ _ _ Hs) as (Hle & Hp & _).
  unfold insert_start in Hs. destruct (checked_add _ _); [|done]. injection Hs as <- <-.
  split; cbn; [done|]. apply (covered_le st); [done|done|apply (all_covered _ Hi)].
Qed.

Lemma begin_start_spec h label r st st' :
  begin_peer_start h label st = Some (r, st') \/ begin_webview_start label st = Some (r, st') ->
  grows st st' /\ (fence_inv st -> forall lease, r = Some lease -> lease_ok st' lease).
Proof.
  pose proof (grows_cells _ _ (entry_cells label st)) as Hg. intros Hb.
  assert (forall b owner st1, owner_label owner = label -> grows st st1 ->
    (if (b : bool) then Some (None, st1)
     else match insert_start owner (webview_cleanups st1 !! label) st1 with
          | Some (lease, st2) => Some (Some lease, st2) | None => None end) = Some (r, st') ->
    grows st st' /\ (fence_inv st -> forall lease, r = Some lease -> lease_ok st' lease)) as Hstart.
  { intros b owner st1 <- Hg1. destruct b; [by intros [= <- <-]|].
    destruct (insert_start _ _ st1) as [[lease st2]|] eqn:Ei; [|done]. intros [= <- <-]. split.
    - by eapply grows_trans, grows_insert_start.
    - intros Hi l [= <-]. eapply insert_start_lease; [done|by apply Hg1]. }
  destruct Hb as [Hb|Hb]; [unfold begin_peer_start in Hb|unfold begin_webview_start in Hb].
  - destruct (endpoints st !! h) as [e|]; [|injection Hb as <- <-; by split; [apply grows_cells|]].
    destruct (webview_entry label st) as [w st1]. cbn in Hg. by eapply (Hstart (negb (active e) || negb (active w))); [|exact Hg|exact Hb].
  - destruct (webview_entry label st) as [w st1]. cbn in Hg. by eapply (Hstart (negb (active w))); [|exact Hg|exact Hb].
Qed.

Lemma fence_inv_step m m' : step m m' -> inv m -> inv m'.
Proof.
  intros Hs Hi.
  assert (forall l, (forall id lease, l !! id = Some lease -> exists lease', leases m !! id = Some lease' /\
    l_owner lease = l_owner lease' /\ prior_cleanup lease = prior_cleanup lease' /\ since lease = since lease') ->
    inv (mkMachine (owned m) l (waiting m) (finishing m))) as Hleases.
  { intros l Hl. apply inv_leases; [|done]. intros id lease E. apply Hl in E as (lease' & E & H1 & H2 & H3).
    unfold lease_ok. rewrite H1, H2, H3. by eapply (i_leases _ Hi). }
  destruct Hs as [m h st Hin Ha|m h label|m label|m token kind handle|m h label r st Hb|m id lease Hl
    |m id lease kind handle r lease' st Hl Hact Ht|m id lease outcome Hl Hact|m id lease Hl|m kind handle
    |m kind handle f st Hb|m h r st Hr|m b label r st Hr|m r st Hr|m l1 r l2 closed outcome Hw Ho|m l1 outcome f fs l2 Hf
    |m l1 outcome f fs l2 Hf].
  - apply inv_grows; [|done]. apply grows_cells. unfold activate_endpoint in Ha. case_match; by simplify_eq.
  - apply inv_grows; [|done]. pose proof (entry_cells label (owned m)) as He. apply grows_cells. unfold begin_peer.
    destruct (endpoints (owned m) !! h) as [e|]; [|done]. destruct (active e); [|done]. cbn.
    destruct (webview_entry label (owned m)) as [w st]. by destruct (active w).
  - apply inv_grows; [|done]. pose proof (entry_cells label (owned m)) as He. apply grows_cells. unfold begin_webview.
    destruct (webview_entry label (owned m)) as [w st]. by destruct (active w).
  - apply inv_grows; [|done]. apply grows_cells. unfold track. by destruct (owner_is_current _ _).
  - apply begin_start_spec in Hb as [Hg Hl]. pose proof (inv_grows _ _ Hg Hi) as Hi'.
    apply (inv_leases (mkMachine st (leases m) (waiting m) (finishing m))); [|done]. cbn.
    destruct r as [lease|]; [|apply Hi']. apply map_Forall_insert_2; [|apply Hi']. apply Hl; [apply Hi|done].
  - apply Hleases. intros id' lease'. rewrite lookup_insert_Some. intros [[<- <-]|[_ E]]; [by exists lease|by exists lease'].
  - assert (inv (mkMachine (owned m) (<[id := lease']> (leases m)) (waiting m) (finishing m))) as Hi'.
    { apply Hleases. unfold lease_track in Ht.
      intros id' lease'' E. rewrite lookup_insert_Some in E. destruct E as [[<- <-]|[_ E]]; [|by exists lease''].
      exists lease. destruct (owner_is_current _ _); cbn in Ht; by simplify_eq. }
    apply (inv_grows _ st) in Hi'; [done|]. cbn. unfold lease_track in Ht.
    destruct (owner_is_current _ _); cbn in Ht; simplify_eq; [|by apply grows_cells].
    eapply grows_trans; [|apply grows_finish_completion]. by apply grows_cells.
  - assert (inv (mkMachine (owned m) (delete id (leases m)) (waiting m) (finishing m))) as Hi'.
    { apply Hleases. intros id' lease' [_ E]%lookup_delete_Some. by exists lease'. }
    apply (inv_grows _ (finish_cleanup lease outcome (owned m))) in Hi'; [done|]. cbn. unfold finish_cleanup.
    eapply grows_trans; [|apply grows_finish_completion]. by apply grows_cells.
  - assert (inv (mkMachine (owned m) (delete id (leases m)) (waiting m) (finishing m))) as Hi'.
    { apply Hleases. intros id' lease' [_ E]%lookup_delete_Some. by exists lease'. }
    apply (inv_grows _ (drop_lease lease (owned m))) in Hi'; [done|]. cbn. unfold drop_lease.
    destruct (l_active lease); cbn; [|by apply grows_cells]. eapply grows_trans; [|apply grows_finish_completion]. by apply grows_cells.
  - apply inv_grows; [|done]. by apply grows_cells.
  - apply session_cleanup_published in Hb as [Hg Hp]. by apply inv_retire.
  - destruct (retires_published _ _ _ _ (by_endpoint _ _ _ _ _ eq_refl Hr)). by apply inv_retire.
  - destruct (retires_published _ _ _ _ (by_webview _ _ _ _ _ _ eq_refl Hr)). by apply inv_retire.
  - destruct (retires_published _ _ _ _ (by_all _ _ _ _ eq_refl Hr)). by apply inv_retire.
  - by eapply inv_waits_over.
  - by apply inv_finish_fence.
  - by apply inv_remove_fence.
Qed.

Lemma reachable_fences m : reachable m -> inv m.
Proof.
  apply (rtc_ind_r inv); [|intros; by eapply fence_inv_step].
  split; cbn; [|by apply map_Forall_empty|constructor..]. split; [|intros label g fence Hg; cbn in Hg; lia].
  intros f Ho. unfold fence_ok, fence_outcome in Ho. by destruct f.
Qed.

(** When the wait of a lease succeeds, the earlier fences of its WebView have
    succeeded. *)
Lemma lease_fences_ok m id lease g fence :
  inv m -> leases m !! id = Some lease -> wait_for_cleanup lease (owned m) = Some (Ok tt) ->
  fences (owned m) !! g = Some fence -> g < since lease -> f_label fence = owner_label (l_owner lease) ->
  fence_ok (owned m) g.
Proof.
  intros Hi Hl Hw Ef Hg Hlab. destruct (i_leases _ Hi _ _ Hl) as [_ Hc].
  destruct (Hc g fence Hg Ef Hlab) as [?|Hb]; [done|]. unfold wait_for_cleanup in Hw.
  destruct (prior_cleanup lease) as [f|]; [|done]. eapply (ok_behind (owned m)); [apply (ok_waited _ (i_fences _ Hi))|exact Hb|done].
Qed.

(** ** Theorem *)

(** C5. A start never runs beside an earlier cleanup of its WebView: when the
    wait of a lease succeeds, every cleanup fence that was published for its
    WebView before the lease was taken (by a navigation, an endpoint close, a
    session close or a shutdown, however many and in whatever order they were
    finished) has finished with success, and so have all the starts that those
    retirements found in flight. *)
Theorem start_follows_cleanups (m : Machine) (id : Z) (lease : StartLease) (g : nat) (fence : Fence) :
  reachable m -> leases m !! id = Some lease -> wait_for_cleanup lease (owned m) = Some (Ok tt) ->
  fences (owned m) !! g = Some fence -> g < since lease -> f_label fence = owner_label (l_owner lease) ->
  f_outcome fence = Some (Ok tt) /\
  Forall (fun c => completions (owned m) !! c = Some (Some (Ok tt))) (f_starts fence).
Proof.
  intros Hr Hl Hw Ef Hg Hlab. pose proof (lease_fences_ok m id lease g fence (reachable_fences _ Hr) Hl Hw Ef Hg Hlab) as Ho.
  destruct (ok_waited _ (i_fences _ (reachable_fences _ Hr)) g Ho _ Ef) as [_ Hs]. split; [|exact Hs].
  unfold fence_ok, fence_outcome in Ho. by rewrite Ef in Ho.
Qed.

(** The page is reloaded while a start is in flight; the start is refused and
    cleaned up, and the new page starts before the fence is taken down. *)
Definition reload : list Action :=
  two_starts ++ [AWebview true "main"; ALeaseTrack 1 AdvertisePeer 4; AFinishCleanup 1 (Ok tt);
                 AWaitsOver [Ok tt]; AFinishFence; AStart 7 "main"; ARemoveFence].
Definition after_reload : Machine := default machine_new (run machine_new reload).

Lemma start_follows_cleanups_witness :
  exists lease, leases after_reload !! 2%Z = Some lease /\ prior_cleanup lease = Some 0 /\ since lease = 1 /\
    webview_cleanups (owned after_reload) !! "main" = None /\
    f_starts <$> fences (owned after_reload) !! 0 = Some [1] /\
    completions (owned after_reload) !! 1 = Some (Some (Ok tt)).
Proof.
  destruct (leases after_reload !! 2%Z) as [lease|] eqn:El; [|by vm_compute in El].
  exists lease. vm_compute in El. injection El as <-. do 5 (split; [by vm_compute|]).
  destruct (fences (owned after_reload) !! 0) as [fence|] eqn:Ef; [|by vm_compute in Ef].
  assert (Forall (fun c => completions (owned after_reload) !! c = Some (Some (Ok tt))) (f_starts fence)) as Hs.
  { apply (start_follows_cleanups after_reload 2 (mkLease 2 (Peer 7 1 "main" 2) 2 true false (Some 0) 1) 0 fence).
    - apply (run_steps _ reload). by vm_compute.
    - by vm_compute.
    - by vm_compute.
    - exact Ef.
    - cbn. lia.
    - vm_compute in Ef. by injection Ef as <-. }
  vm_compute in Ef. injection Ef as <-. cbn in Hs. by apply Forall_cons_1 in Hs as [? _].
Defined.
