(* ===== verification/OwnershipOrder.v ===== *)
(** * The order of starts and retirements

    What a start lease can rely on beyond its own fence: a start in flight whose
    owner has been retired is awaited by a fence of its WebView, and this fence
    was there before any lease of a later generation was taken. *)

From stdpp Require Import base numbers list strings sets gmap fin_maps relations countable.
From Stdlib Require Import ZArith Lia.
From S2P Require Import Prelude Ownership OwnershipProps OwnershipFence.

Open Scope string_scope.
Open Scope list_scope.

(** ** Generations of one WebView *)

Definition webview_generation (o : DiscoveryOwner) : Z := match o with Peer _ _ _ g | Webview _ g => g end.

(** [o] belongs to an earlier page than [o'] in the same WebView, or to an
    earlier generation of the same endpoint. *)
Definition older (o o' : DiscoveryOwner) : Prop :=
  owner_label o = owner_label o' /\
  ((webview_generation o < webview_generation o')%Z \/
   match o, o' with Peer h g _ _, Peer h' g' _ _ => h = h' /\ (g < g')%Z | _, _ => False end).

(** The generations of [o] have come, and may be over. *)
Definition reached (st : OwnershipState) (o : DiscoveryOwner) : Prop :=
  (webview_generation o <= gen (webviews st) (owner_label o))%Z /\
  match o with Peer h g _ _ => (g <= gen (endpoints st) h)%Z | Webview _ _ => True end.

Lemma older_stale st o o' : reached st o' -> older o o' -> stale st o.
Proof.
  intros [Hw He] [Hl Ho]. destruct o as [h g l wg|l wg], o' as [h' g' l' wg'|l' wg']; cbn in *; subst l'; try lia;
    destruct Ho as [?|[<- ?]]; lia.
Qed.

Lemma reached_le st st' o : gens_le st st' -> reached st o -> reached st' o.
Proof.
  intros [He Hw] [H1 H2]. specialize (Hw (owner_label o)). split; [lia|]. destruct o as [h g l wg|]; [|done]. specialize (He h). cbn in *. lia.
Qed.

Lemma current_reached st o : owner_is_current st o = true -> reached st o.
Proof.
  unfold reached. destruct o as [h g l wg|l wg]; cbn.
  - intros [(c & Ec & _ & Hg)%is_generation_true (d & Ed & _ & Hd)%is_generation_true]%andb_true_iff.
    unfold gen. rewrite Ec, Ed. cbn. lia.
  - intros (d & Ed & _ & Hd)%is_generation_true. unfold gen. rewrite Ed. cbn. lia.
Qed.

(** ** The fences of a retirement *)

(** [f] awaits the starts [awaited] on behalf of [label]. *)
Definition awaits (st : OwnershipState) (f : nat) (label : string) (awaited : list nat) : Prop :=
  exists fence, fences st !! f = Some fence /\ f_label fence = label /\ f_starts fence = awaited.

Lemma awaits_le st st' f label awaited : cells_le st st' -> awaits st f label awaited -> awaits st' f label awaited.
Proof. intros Hle (fence & E & <- & <-). destruct (le_fence _ _ Hle _ _ E) as (o & E' & _). eexists. by split. Qed.

Lemma install_labels labels awaited st label :
  label ∈ labels -> exists f, f ∈ (install_owner_cleanups labels awaited st).1 /\
    awaits (install_owner_cleanups labels awaited st).2 f label awaited.
Proof.
  revert st. induction labels as [|l labels IH]; intros st Hl; [by apply not_elem_of_nil in Hl|].
  cbn -[publish_fence]. pose proof (publish_new l awaited st) as Hn. destruct (publish_fence l awaited st) as [f st1] eqn:Ep.
  pose proof (install_published labels awaited st1) as [(Hle & _) _]. specialize (IH st1).
  destruct (install_owner_cleanups labels awaited st1) as [fs st2]. cbn in *.
  apply elem_of_cons in Hl as [->|Hl].
  - exists f. split; [set_solver|]. apply (awaits_le st1); [done|]. unfold publish_fence in Ep. injection Ep as <- <-. eexists. split; [exact Hn|done].
  - destruct (IH Hl) as (g & Hg & Ha). exists g. split; [set_solver|done].
Qed.

Lemma label_of_session p st k t :
  sessions st !! k = Some t -> p (t_owner t) = true -> owner_label (t_owner t) ∈ matching_owner_labels p st.
Proof.
  intros Hk Hp. unfold matching_owner_labels. apply elem_of_remove_dups, elem_of_app. left. apply list_elem_of_fmap. exists (k, t).
  split; [done|]. apply list_elem_of_In, List.filter_In. split; [by apply list_elem_of_In, elem_of_map_to_list|done].
Qed.

Lemma label_of_start p st id q :
  starts st !! id = Some q -> p (s_owner q) = true -> owner_label (s_owner q) ∈ matching_owner_labels p st.
Proof.
  intros Hk Hp. unfold matching_owner_labels. apply elem_of_remove_dups, elem_of_app. right. apply list_elem_of_fmap. exists (id, q).
  split; [done|]. apply list_elem_of_In, List.filter_In. split; [by apply list_elem_of_In, elem_of_map_to_list|done].
Qed.

Lemma matching_start p st id q :
  starts st !! id = Some q -> p (s_owner q) = true -> s_completion q ∈ matching_starts p st.
Proof.
  intros Hk Hp. unfold matching_starts. apply list_elem_of_fmap. exists (id, q). split; [done|].
  apply list_elem_of_In, List.filter_In. split; [by apply list_elem_of_In, elem_of_map_to_list|done].
Qed.

(** The fields that starts live in. *)
Definition same_starts (st st' : OwnershipState) : Prop :=
  starts st' = starts st /\ next_start st' = next_start st /\ completions st' = completions st.

Lemma install_starts labels awaited st : same_starts st (install_owner_cleanups labels awaited st).2.
Proof.
  revert st. induction labels as [|l labels IH]; intros st; [done|].
  specialize (IH (publish_fence l awaited st).2). cbn in *. by destruct (install_owner_cleanups labels awaited _).
Qed.

(** A retirement of the owners [p] selects publishes a fence for each of them
    that has a session or a start, and the fence awaits the starts. *)
Lemma retires_fenced p st r st' :
  retires p st r st' ->
  same_starts st st' /\
  (forall k t, sessions st !! k = Some t -> p (t_owner t) = true ->
     exists f, f ∈ r_cleanups r /\ awaits st' f (owner_label (t_owner t)) (r_starts r)) /\
  (forall id q, starts st !! id = Some q -> p (s_owner q) = true -> s_completion q ∈ r_starts r /\
     exists f, f ∈ r_cleanups r /\ awaits st' f (owner_label (s_owner q)) (r_starts r)).
Proof.
  intros [h st1 -> E|b l st1 -> E|st1 -> E].
  - unfold retire_endpoint in E. case_match; [|done]. set (st0 := set_endpoints _ st) in E. set (labels := matching_owner_labels _ st0) in E.
    cbn in E. set (st2 := set_sessions _ st0) in E. set (awaited := matching_starts _ st2) in E.
    pose proof (install_labels labels awaited st2) as Hl. pose proof (install_starts labels awaited st2) as Hs.
    destruct (install_owner_cleanups labels awaited st2) as [fs st3]. cbn in E. injection E as <- <-. cbn in *. split_and!; [done|..].
    + intros k t Hk Hp. apply Hl. by eapply (label_of_session _ st0).
    + intros id q Hq Hp. split; [by eapply (matching_start _ st2)|]. apply Hl. by eapply (label_of_start _ st0).
  - unfold next_webview in E. case_match; [|done]. cbn -[publish_fence] in E. set (st2 := set_sessions _ _) in E.
    set (awaited := matching_starts _ _) in E. pose proof (install_labels [l] awaited st2 l) as Hl.
    cbn -[publish_fence] in Hl. destruct (publish_fence l awaited st2) as [f st3] eqn:Ep. injection E as <- <-. cbn in *.
    unfold publish_fence in Ep. injection Ep as <- <-. split_and!; [done|..].
    + intros k t Hk Hp. apply bool_decide_eq_true in Hp as ->. apply Hl. set_solver.
    + intros id q Hq Hp. split; [by eapply (matching_start _ st2)|]. apply bool_decide_eq_true in Hp as ->. apply Hl. set_solver.
  - unfold retire_all in E. case_match; [|done]. case_match; [|done]. set (st0 := set_webviews _ _) in E.
    set (labels := matching_owner_labels _ st0) in E.
    cbn in E. set (st2 := set_sessions _ st0) in E. set (awaited := matching_starts _ st2) in E.
    pose proof (install_labels labels awaited st2) as Hl. pose proof (install_starts labels awaited st2) as Hs.
    destruct (install_owner_cleanups labels awaited st2) as [fs st3]. cbn in E. injection E as <- <-. cbn in *. split_and!; [done|..].
    + intros k t Hk Hp. apply Hl. by eapply (label_of_session (fun _ => true) st0).
    + intros id q Hq Hp. split; [by eapply (matching_start _ st2)|]. apply Hl. by eapply (label_of_start (fun _ => true) st0).
Qed.

(** ** What a step keeps *)

Lemma entry_keeps_current label st o :
  owner_is_current st o = true -> owner_is_current (webview_entry label st).2 o = true.
Proof.
  destruct (webview_entry_spec label st) as (_ & He & _ & _ & _ & _ & _ & _ & Hw & _). unfold owner_is_current. rewrite He.
  destruct o as [h g l wg|l wg]; rewrite ?andb_true_iff.
  - intros [? (c & Ec & Ha & Hg)%is_generation_true]. split; [done|]. apply is_generation_true. exists c. split; [by apply Hw|done].
  - intros (c & Ec & Ha & Hg)%is_generation_true. apply is_generation_true. exists c. split; [by apply Hw|done].
Qed.

Lemma activate_keeps_current h st st' o :
  (forall c, endpoints st !! h = Some c -> active c = false) -> activate_endpoint h st = Some st' ->
  owner_is_current st o = true -> owner_is_current st' o = true.
Proof.
  intros Hin Ha. unfold activate_endpoint in Ha. destruct (next_generation _) as [g|]; [|done]. injection Ha as <-.
  unfold owner_is_current. cbn. destruct o as [h' g' l wg|l wg]; [|done]. rewrite !andb_true_iff.
  intros [(c & Ec & Hac & Hg)%is_generation_true ?]. split; [|done].
  assert (h <> h') by (intros ->; apply Hin in Ec; congruence). rewrite lookup_insert_ne by done. apply is_generation_true. eauto.
Qed.

Lemma same_current st st' o : same_owners st st' -> owner_is_current st o = true -> owner_is_current st' o = true.
Proof. intros (_ & He & Hw). by rewrite (owner_current_same st st'). Qed.

(** A start in flight is open in its completion; whose owner is not current any
    more, or is older than that of a lease, is awaited by a fence. *)
Definition covers (st : OwnershipState) (q : PendingStart) (bound : nat) : Prop :=
  exists f a, f < bound /\ awaits st f (owner_label (s_owner q)) a /\ s_completion q ∈ a.

Record order_inv (m : Machine) : Prop := mkOrder {
  o_lease : forall id l, leases m !! id = Some l -> l_id l = id /\ reached (owned m) (l_owner l) /\
    (l_active l = true -> starts (owned m) !! id = Some (mkPending (l_owner l) (l_completion l)));
  o_ids : forall id l, leases m !! id = Some l -> (id < next_start (owned m))%Z;
  o_next : forall id q, starts (owned m) !! id = Some q -> (id < next_start (owned m))%Z;
  o_open : forall id q, starts (owned m) !! id = Some q -> completions (owned m) !! s_completion q = Some None;
  o_inj : forall id id' q q', starts (owned m) !! id = Some q -> starts (owned m) !! id' = Some q' ->
    s_completion q = s_completion q' -> id = id';
  o_cover : forall id q, starts (owned m) !! id = Some q ->
    owner_is_current (owned m) (s_owner q) = true \/ covers (owned m) q (length (fences (owned m)));
  o_order : forall id q id' l, starts (owned m) !! id = Some q -> leases m !! id' = Some l ->
    older (s_owner q) (l_owner l) -> covers (owned m) q (since l)
}.

Lemma covers_le st st' q n : cells_le st st' -> covers st q n -> covers st' q n.
Proof. intros Hle (f & a & Hf & Ha & Hc). exists f, a. split_and!; [done|by eapply awaits_le|done]. Qed.

Lemma covers_length st q n : covers st q n -> covers st q (length (fences st)).
Proof. intros (f & a & _ & (fence & E & ?) & Hc). exists f, a. split_and!; [by eapply lookup_lt_Some|by exists fence|done]. Qed.

Lemma cells_length st st' : cells_le st st' -> length (fences st) <= length (fences st').
Proof.
  intros Hle. destruct (length (fences st)) as [|n] eqn:E; [lia|]. destruct (lookup_lt_is_Some_2 (fences st) n) as [x Hx]; [lia|].
  destruct (le_fence _ _ Hle _ _ Hx) as (o & Ho & _). apply lookup_lt_Some in Ho. lia.
Qed.

(** No start is added. *)
Lemma order_frame m m' :
  order_inv m -> cells_le (owned m) (owned m') -> gens_le (owned m) (owned m') -> next_start (owned m') = next_start (owned m) ->
  (forall id q, starts (owned m') !! id = Some q -> starts (owned m) !! id = Some q /\ completions (owned m') !! s_completion q = Some None) ->
  (forall id l, leases m' !! id = Some l -> exists l0, leases m !! id = Some l0 /\ l_id l = l_id l0 /\ l_owner l = l_owner l0 /\
     since l = since l0 /\ (l_active l = true -> starts (owned m') !! id = Some (mkPending (l_owner l) (l_completion l)))) ->
  (forall id q, starts (owned m') !! id = Some q -> owner_is_current (owned m) (s_owner q) = true ->
     owner_is_current (owned m') (s_owner q) = true \/ covers (owned m') q (length (fences (owned m')))) ->
  order_inv m'.
Proof.
  intros [H1 H0 H2 H3 H4 H5 H6] Hle Hg Hn Hs Hl Hc. split.
  - intros id l E. destruct (Hl _ _ E) as (l0 & E0 & Ei & Eo & _ & Ha). destruct (H1 _ _ E0) as (? & ? & _).
    split_and!; [congruence|rewrite Eo; by eapply reached_le|done].
  - intros id l E. rewrite Hn. destruct (Hl _ _ E) as (l0 & E0 & _). by eapply H0.
  - intros id q E. rewrite Hn. by eapply H2, Hs.
  - intros id q E. by eapply Hs.
  - intros id id' q q' E E' Eq. eapply H4; [by eapply Hs|by eapply Hs|done].
  - intros id q E. destruct (H5 id q) as [?|Hcov]; [by apply Hs|by eapply Hc|]. right. by eapply covers_length, covers_le.
  - intros id q id' l E E' Ho. destruct (Hl _ _ E') as (l0 & E0 & _ & Eo & -> & _). eapply covers_le; [done|].
    eapply H6; [by apply Hs|done|by rewrite <- Eo].
Qed.

(** Nothing that starts and leases depend on changes. *)
Lemma order_same m st (w : list DiscoveryRetirement) (fi : list Finishing) :
  order_inv m -> cells_le (owned m) st -> gens_le (owned m) st -> same_starts (owned m) st ->
  (forall o, owner_is_current (owned m) o = true -> owner_is_current st o = true) ->
  order_inv (mkMachine st (leases m) w fi).
Proof.
  intros Hi Hle Hg (Es & En & Ec) Hc. apply (order_frame m); cbn; try done; rewrite ?Es.
  - intros id q E. rewrite Ec. split; [done|by eapply o_open].
  - intros id l E. exists l. split_and!; try done. by eapply (o_lease _ Hi).
  - intros id q _ Hq. left. by apply Hc.
Qed.

(** A lease lets go of its start. *)
Lemma finish_starts c o st : starts (finish_completion c o st) = starts st /\ next_start (finish_completion c o st) = next_start st /\
  (forall d, d <> c -> completions (finish_completion c o st) !! d = completions st !! d) /\ fences (finish_completion c o st) = fences st.
Proof.
  unfold finish_completion. destruct (completions st !! c) as [[]|]; cbn; try by split_and!. split_and!; try done.
  intros d Hd. by rewrite list_lookup_insert_ne.
Qed.

Lemma order_release m id l o ls st :
  order_inv m -> leases m !! id = Some l -> l_active l = true -> same_starts (owned m) st -> fences st = fences (owned m) ->
  endpoints st = endpoints (owned m) -> webviews st = webviews (owned m) ->
  (forall id' l', ls !! id' = Some l' -> (id' <> id /\ leases m !! id' = Some l') \/ (id' = id /\ l' = retired_lease l)) ->
  order_inv (mkMachine (finish_completion (l_completion l) o (set_starts (delete (l_id l) (starts st)) (next_start st) st)) ls
    (waiting m) (finishing m)).
Proof.
  intros Hi Hl Ha (Es & En & Ec) Ef Ee Ew Hls. destruct (o_lease _ Hi _ _ Hl) as (Eid & _ & Hst). specialize (Hst Ha).
  set (st1 := set_starts _ _ st). destruct (finish_starts (l_completion l) o st1) as (F1 & F2 & F3 & F4).
  destruct (finish_completion_same (l_completion l) o st1) as (_ & G2 & G3).
  apply (order_frame m); cbn [owned leases]; [done|..].
  - eapply cells_le_trans; [apply (cells_le_same (owned m) st1)|apply grows_finish_completion]; [done|done].
  - apply gens_le_same; [by rewrite G2|by rewrite G3].
  - by rewrite F2.
  - rewrite F1. intros id' q. cbn. rewrite Es. intros [Hne E]%lookup_delete_Some. split; [done|].
    rewrite F3; cbn; rewrite ?Ec; [by eapply o_open|]. intros Eq. rewrite Eid in Hne. by apply Hne, (o_inj _ Hi _ _ _ _ Hst E).
  - intros id' l' E. destruct (Hls _ _ E) as [[Hne E0]|[-> ->]]; [|by exists l].
    exists l'. split_and!; try done. rewrite F1. cbn. rewrite Es. intros Ha'.
    rewrite lookup_delete_ne by congruence. by eapply (o_lease _ Hi).
  - intros id' q _ Hq. left. rewrite (owner_current_same (owned m)); [done|by rewrite G2|by rewrite G3].
Qed.

(** A start is added, with its lease. *)
Lemma order_insert m owner prior l st st' :
  order_inv m -> cells_le (owned m) st -> gens_le (owned m) st -> same_starts (owned m) st -> fences st = fences (owned m) ->
  (forall o, owner_is_current (owned m) o = true -> owner_is_current st o = true) ->
  owner_is_current st owner = true -> insert_start owner prior st = Some (l, st') ->
  order_inv (mkMachine st' (<[l_id l := l]> (leases m)) (waiting m) (finishing m)).
Proof.
  intros Hi Hle Hg Hss Hf Hc Ho Hs. pose proof (order_same m st (waiting m) (finishing m) Hi Hle Hg Hss Hc) as [H1 H0 H2 H3 H4 H5 H6].
  cbn [owned leases waiting finishing] in *.
  unfold insert_start in Hs. destruct (checked_add _ _) as [n|] eqn:En; [|done]. injection Hs as <- <-.
  assert (n = next_start st + 1)%Z as -> by (unfold checked_add in En; case_match; congruence).
  set (l := mkLease _ _ _ _ _ _ _). set (q0 := mkPending owner (length (completions st))). set (st' := set_completions _ _).
  assert (forall id q, starts st !! id = Some q -> s_completion q < length (completions st)) as Hlt
    by (intros id q E; apply H3 in E; by eapply lookup_lt_Some).
  assert (forall id q, starts st' !! id = Some q -> (id = next_start st /\ q = q0) \/ starts st !! id = Some q) as Hst.
  { intros id q. cbn. intros [[<- <-]|[_ ?]]%lookup_insert_Some; [by left|by right]. }
  assert (forall q n, covers st q n -> covers st' q n) as Hcov by done.
  split; cbn [owned leases].
  - intros id l'. intros [[<- <-]|[Hne E]]%lookup_insert_Some.
    + split_and!; [done|by apply current_reached|]. intros _. cbn. by rewrite lookup_insert_eq.
    + destruct (H1 _ _ E) as (? & ? & Ha). split_and!; [done|done|]. intros Hact. specialize (Ha Hact). cbn.
      rewrite lookup_insert_ne; [done|]. apply H2 in Ha. cbn in Hne. lia.
  - intros id l'. intros [[<- <-]|[Hne E]]%lookup_insert_Some; cbn; [lia|]. apply H0 in E. lia.
  - intros id q E. cbn. destruct (Hst _ _ E) as [[-> _]|E0]; [lia|]. apply H2 in E0. lia.
  - intros id q E. cbn. destruct (Hst _ _ E) as [[_ ->]|E0].
    + cbn. by rewrite lookup_app_r, Nat.sub_diag by lia.
    + apply lookup_app_l_Some. by eapply H3.
  - intros id id' q q' E E' Eq. destruct (Hst _ _ E) as [[-> ->]|E0], (Hst _ _ E') as [[-> ->]|E0']; [done|..|by eapply H4];
      [apply Hlt in E0'|apply Hlt in E0]; cbn in Eq; lia.
  - intros id q E. destruct (Hst _ _ E) as [[_ ->]|E0]; [by left|by eapply H5].
  - intros id q id' l' E E' Hold. apply Hcov. rewrite lookup_insert_Some in E'. destruct (Hst _ _ E) as [[_ ->]|E0].
    + exfalso. assert (reached st (l_owner l')) as Hr by (destruct E' as [[_ <-]|[_ E']]; [by apply current_reached|by eapply H1]).
      cbn in Hold. apply (older_stale st), stale_not_current in Hold; [|done]. congruence.
    + destruct E' as [[_ <-]|[_ E']]; [|by eapply H6]. cbn in *.
      destruct (H5 _ _ E0) as [Hcur|Hx]; [|done]. apply (older_stale st), stale_not_current in Hold; [congruence|by apply current_reached].
Qed.

(** How a start begins: an owner that is current once the WebView is known. *)
Lemma begin_start_insert h label r st st' :
  begin_peer_start h label st = Some (r, st') \/ begin_webview_start label st = Some (r, st') ->
  match r with
  | None => st' = st \/ st' = (webview_entry label st).2
  | Some l => exists owner, owner_label owner = label /\ owner_is_current (webview_entry label st).2 owner = true /\
      insert_start owner (webview_cleanups (webview_entry label st).2 !! label) (webview_entry label st).2 = Some (l, st')
  end.
Proof.
  destruct (webview_entry_spec label st) as (Ew & Ee & _). intros [Hb|Hb]; [unfold begin_peer_start in Hb|unfold begin_webview_start in Hb].
  - destruct (endpoints st !! h) as [e|] eqn:E; [|injection Hb as <- <-; by left].
    destruct (webview_entry label st) as [w st1]. cbn in *.
    destruct (active e) eqn:Eae; cbn in Hb; [|injection Hb as <- <-; by right].
    destruct (active w) eqn:Eaw; cbn in Hb; [|injection Hb as <- <-; by right].
    destruct (insert_start _ _ st1) as [[l st2]|] eqn:Ei; [|done]. injection Hb as <- <-. eexists. split_and!; [..|exact Ei]; [done|].
    cbn. rewrite Ee, E, Ew. cbn. by rewrite Eae, Eaw, !Z.eqb_refl.
  - destruct (webview_entry label st) as [w st1]. cbn in *.
    destruct (active w) eqn:Eaw; cbn in Hb; [|injection Hb as <- <-; by right].
    destruct (insert_start _ _ st1) as [[l st2]|] eqn:Ei; [|done]. injection Hb as <- <-. eexists. split_and!; [..|exact Ei]; [done|].
    cbn. rewrite Ew. cbn. by rewrite Eaw, !Z.eqb_refl.
Qed.

Lemma entry_starts label st : same_starts st (webview_entry label st).2.
Proof. destruct (webview_entry_spec label st) as (_ & _ & _ & ? & ? & _ & ? & _). done. Qed.

Lemma order_entry m label (w : list DiscoveryRetirement) (fi : list Finishing) :
  owners_ok (owned m) -> order_inv m -> order_inv (mkMachine (webview_entry label (owned m)).2 (leases m) w fi).
Proof.
  intros Hok Hi. destruct (owners_entry label _ Hok) as [Hg _]. apply order_same; [done| |done|apply entry_starts|apply entry_keeps_current].
  apply cells_le_same; by apply entry_cells.
Qed.

Lemma order_retires m p r st :
  retires p (owned m) r st -> owners_ok (owned m) -> order_inv m -> order_inv (mkMachine st (leases m) (waiting m ++ [r]) (finishing m)).
Proof.
  intros Hr Hok Hi. destruct (retires_fenced _ _ _ _ Hr) as ((Es & En & Ec) & _ & Hq). destruct (retires_published _ _ _ _ Hr) as [(Hle & _) _].
  destruct (owners_retires _ _ _ _ Hr Hok) as [Hg _].
  apply (order_frame m); cbn; try done; rewrite ?Es.
  - intros id q E. rewrite Ec. split; [done|by eapply o_open].
  - intros id l E. exists l. split_and!; try done. by eapply (o_lease _ Hi).
  - intros id q E Hcur. destruct (p (s_owner q)) eqn:Ep; [|left; by eapply retires_keeps]. right.
    destruct (Hq _ _ E Ep) as (Hin & f & _ & Ha). eapply covers_length. exists f, (r_starts r). split_and!; [by apply Nat.lt_succ_diag_r|done|done].
Qed.

Lemma same_owners_gens st st' : same_owners st st' -> gens_le st st'.
Proof. intros (_ & He & Hw). by apply gens_le_same. Qed.

Lemma order_step m m' : step m m' -> owners_ok (owned m) -> order_inv m -> order_inv m'.
Proof.
  intros Hs Hok Hi.
  destruct Hs as [m h st Hin Ha|m h label|m label|m token kind handle|m h label r st Hb|m id lease Hl
    |m id lease kind handle r lease' st Hl Hact Ht|m id lease outcome Hl Hact|m id lease Hl|m kind handle
    |m kind handle f st Hb|m h r st Hr|m b label r st Hr|m r st Hr|m l1 r l2 closed outcome Hw Ho|m l1 outcome f fs l2 Hf
    |m l1 outcome f fs l2 Hf].
  - destruct (owners_activate _ _ _ Hin Ha Hok) as [Hg _]. pose proof (activate_keeps_current h (owned m) st) as Hk.
    assert (same_starts (owned m) st /\ fences st = fences (owned m)) as [Hs Hfe].
    { clear -Ha. unfold activate_endpoint in Ha. case_match; by simplify_eq. }
    apply order_same; [done| |done|done|by intros; eapply Hk]. apply cells_le_same; [done|apply Hs].
  - pose proof (order_entry m label (waiting m) (finishing m) Hok Hi) as He. assert (order_inv (mkMachine (owned m) (leases m) (waiting m) (finishing m))) as Hid by (by destruct m).
    unfold begin_peer. destruct (endpoints (owned m) !! h) as [e|]; [|done]. destruct (active e); [|done]. cbn.
    destruct (webview_entry label (owned m)) as [w st]. by destruct (active w).
  - pose proof (order_entry m label (waiting m) (finishing m) Hok Hi) as He.
    unfold begin_webview. destruct (webview_entry label (owned m)) as [w st]. by destruct (active w).
  - assert (order_inv (mkMachine (owned m) (leases m) (waiting m) (finishing m))) as Hid by (by destruct m).
    unfold track. destruct (owner_is_current _ _); [|done]. cbn. apply order_same; try done; by apply cells_le_same.
  - apply begin_start_insert in Hb. destruct r as [l|]; [|destruct Hb as [-> | ->]; [by destruct m|by apply order_entry]].
    destruct Hb as (owner & _ & Hcur & Hb). destruct (owners_entry label _ Hok) as [Hg _].
    eapply order_insert; [done|..|exact Hcur|exact Hb]; [|done|apply entry_starts|by apply entry_cells|apply entry_keeps_current].
    apply cells_le_same; by apply entry_cells.
  - apply (order_frame m); cbn; try done; [apply cells_le_refl| | |by left].
    + intros id' q E. split; [done|by eapply o_open].
    + intros id' l. intros [[<- <-]|[_ E]]%lookup_insert_Some; [exists lease|exists l]; (split_and!; try done); cbn; intros Ha;
        by eapply (o_lease _ Hi).
  - unfold lease_track in Ht. destruct (owner_is_current _ _) eqn:Ec; cbn in Ht; injection Ht as <- <- <-.
    + apply (order_release m id lease (Ok tt) _ (insert_session kind handle (l_owner lease) (owned m))); try done.
      intros id' l'. intros [[<- <-]|[Hne E]]%lookup_insert_Some; [by right|by left].
    + rewrite insert_id by done. by destruct m.
  - unfold finish_cleanup. apply (order_release m id); try done. intros id' l' [Hne E]%lookup_delete_Some. by left.
  - unfold drop_lease. destruct (l_active lease) eqn:Ea; cbn.
    + apply (order_release m id); try done. intros id' l' [Hne E]%lookup_delete_Some. by left.
    + apply (order_frame m); cbn; try done; [apply cells_le_refl| | |by left].
      * intros id' q E. split; [done|by eapply o_open].
      * intros id' l [_ E]%lookup_delete_Some. exists l. (split_and!; try done). by eapply (o_lease _ Hi).
  - apply order_same; try done; by apply cells_le_same.
  - apply session_cleanup_published in Hb as Hp. destruct Hp as [(Hle & _) _]. unfold begin_session_cleanup in Hb.
    destruct (sessions (owned m) !! (kind, handle)) as [t|]; [|done]. cbn in Hb. injection Hb as <- <-.
    apply order_same; try done.
  - eapply order_retires; [by eapply by_endpoint|done|done].
  - eapply order_retires; [by eapply by_webview|done|done].
  - eapply order_retires; [by eapply by_all|done|done].
  - apply order_same; try done; apply cells_le_refl.
  - pose proof (fence_set_same f outcome (owned m)) as Hs. apply order_same; try done; [apply fence_set_le|by apply same_owners_gens| |by intros; eapply same_current].
    unfold fence_set. by destruct (fences (owned m) !! f) as [[? ? ? []]|].
  - pose proof (fence_remove_same f (owned m)) as Hs. apply order_same; try done; [|by apply same_owners_gens| |by intros; eapply same_current].
    + unfold fence_remove. destruct (fences (owned m) !! f); [|apply cells_le_refl]. case_bool_decide; [by apply cells_le_same|apply cells_le_refl].
    + unfold fence_remove. destruct (fences (owned m) !! f); [|done]. by case_bool_decide.
Qed.

Lemma reachable_order m : reachable m -> order_inv m.
Proof.
  intros Hr. assert (reachable m /\ order_inv m) as [_ ?]; [|done]. revert m Hr. apply (rtc_ind_r (fun m => reachable m /\ order_inv m)).
  - split; [apply rtc_refl|]. by split; cbn; intros *; rewrite ?lookup_empty.
  - intros m m' _ Hs [Hr Hi]. split; [by eapply rtc_r|]. eapply order_step; [done|by apply reachable_owners|done].
Qed.

(** When the wait of a lease has succeeded, no start of an older generation is
    in flight. *)
Lemma older_starts_over m id l id' q :
  reachable m -> leases m !! id = Some l -> wait_for_cleanup l (owned m) = Some (Ok tt) ->
  starts (owned m) !! id' = Some q -> older (s_owner q) (l_owner l) -> False.
Proof.
  intros Hr Hl Hw Hq Ho. pose proof (reachable_order _ Hr) as Hi. pose proof (reachable_fences _ Hr) as Hf.
  destruct (o_order _ Hi _ _ _ _ Hq Hl Ho) as (f & a & Hlt & (fence & E & Elab & Ea) & Hc).
  assert (fence_ok (owned m) f) as Hok by (eapply lease_fences_ok; [done..|]; rewrite Elab; by apply Ho).
  destruct (ok_waited _ (i_fences _ Hf) _ Hok _ E) as [_ Hs]. rewrite Ea in Hs. rewrite list.Forall_forall in Hs.
  apply Hs in Hc. unfold start_ok in Hc. rewrite (o_open _ Hi _ _ Hq) in Hc. done.
Qed.

(** Starts are added for current owners only, so none of an older generation is
    added to those in flight. *)
Lemma starts_step m m' id q :
  step m m' -> starts (owned m') !! id = Some q -> starts (owned m) !! id = Some q \/ owner_is_current (owned m') (s_owner q) = true.
Proof.
  intros Hs E.
  destruct Hs as [m h st Hin Ha|m h label|m label|m token kind handle|m h label r st Hb|m id' lease Hl
    |m id' lease kind handle r lease' st Hl Hact Ht|m id' lease outcome Hl Hact|m id' lease Hl|m kind handle
    |m kind handle f st Hb|m h r st Hr|m b label r st Hr|m r st Hr|m l1 r l2 closed outcome Hw Ho|m l1 outcome f fs l2 Hf
    |m l1 outcome f fs l2 Hf]; cbn [owned] in *.
  - left. unfold activate_endpoint in Ha. case_match; by simplify_eq.
  - left. destruct (entry_starts label (owned m)) as [Es _]. revert E. unfold begin_peer. destruct (endpoints (owned m) !! h) as [e|]; [|done].
    destruct (active e); [|done]. cbn. destruct (webview_entry label (owned m)) as [w st]. cbn in Es. rewrite <- Es. by destruct (active w).
  - left. destruct (entry_starts label (owned m)) as [Es _]. revert E. unfold begin_webview.
    destruct (webview_entry label (owned m)) as [w st]. cbn in Es. rewrite <- Es. by destruct (active w).
  - left. revert E. unfold track. by destruct (owner_is_current _ _).
  - apply begin_start_insert in Hb. destruct (entry_starts label (owned m)) as [Es _].
    destruct r as [l|]; [|left; destruct Hb as [-> | ->]; [done|by rewrite <- Es]].
    destruct Hb as (owner & _ & Hcur & Hb). unfold insert_start in Hb. destruct (checked_add _ _); [|done]. injection Hb as <- <-.
    cbn in E. rewrite Es in E. apply lookup_insert_Some in E as [[_ <-]|[_ ?]]; [by right|by left].
  - by left.
  - left. unfold lease_track in Ht. destruct (owner_is_current _ _); cbn in Ht; injection Ht as <- <- <-; [|done].
    rewrite (proj1 (finish_starts _ _ _)) in E. cbn in E. by apply lookup_delete_Some in E as [_ ?].
  - left. unfold finish_cleanup in E. rewrite (proj1 (finish_starts _ _ _)) in E. cbn in E. by apply lookup_delete_Some in E as [_ ?].
  - left. unfold drop_lease in E. destruct (l_active lease); cbn in E; [|done]. rewrite (proj1 (finish_starts _ _ _)) in E. cbn in E.
    by apply lookup_delete_Some in E as [_ ?].
  - by left.
  - left. unfold begin_session_cleanup in Hb. destruct (sessions (owned m) !! (kind, handle)); [|done]. cbn in Hb. by injection Hb as <- <-.
  - left. destruct (retires_fenced _ _ _ _ (by_endpoint _ _ _ _ _ eq_refl Hr)) as ((Es & _) & _). by rewrite <- Es.
  - left. destruct (retires_fenced _ _ _ _ (by_webview _ _ _ _ _ _ eq_refl Hr)) as ((Es & _) & _). by rewrite <- Es.
  - left. destruct (retires_fenced _ _ _ _ (by_all _ _ _ _ eq_refl Hr)) as ((Es & _) & _). by rewrite <- Es.
  - by left.
  - left. revert E. unfold fence_set. by destruct (fences (owned m) !! f) as [[? ? ? []]|].
  - left. revert E. unfold fence_remove. destruct (fences (owned m) !! f); [|done]. by case_bool_decide.
Qed.

(** Nothing older than [o] is in flight, nor will be. *)
Definition none_older (m : Machine) (o : DiscoveryOwner) : Prop :=
  reached (owned m) o /\ forall id q, starts (owned m) !! id = Some q -> ~ older (s_owner q) o.

Lemma none_older_steps m m' o : rtc step m m' -> owners_ok (owned m) -> none_older m o -> none_older m' o.
Proof.
  induction 1 as [|m1 m2 m3 Hs _ IH]; [done|]. intros Hok [Hr Hn]. destruct (step_owners _ _ Hs Hok) as [Hg Hok'].
  apply IH; [done|]. pose proof (reached_le _ _ _ Hg Hr) as Hr'. split; [done|]. intros id q E Ho.
  destruct (starts_step _ _ _ _ Hs E) as [E0|Hc]; [by eapply Hn|]. apply (older_stale _ _ _ Hr'), stale_not_current in Ho. congruence.
Qed.
