(* ===== verification/Sessions.v ===== *)
(** * Sessions and the endpoint registry (ffi/session.rs, ffi/registry.rs)

    A session is a handle to a dedicated connection.  The connections belong to
    [iroh]: a call of one is an argument that holds its answer, and the calls
    that act on the connection or start a pump are recorded in a log.  A call
    that waits ([closed]) is split where it waits. *)

From stdpp Require Import base numbers list strings gmap fin_maps pretty.
From Stdlib Require Import ZArith Lia Strings.String Strings.Byte.
From S2P Require Import Prelude Text Errors Extern Net BodyChannel Handles HandlesFacts Addr Fetch.

Open Scope string_scope.
Open Scope list_scope.

(** [iroh::endpoint::ConnectionError]; the text is the [Display] of the others. *)
Inductive ConnectionError :=
| ApplicationClosed (error_code : Z) (reason : Bytes)
| ConnectionClosed (text : string)
| Reset
| TimedOut
| LocallyClosed
| OtherConnectionError (text : string).

Definition is_connection_closed (err : ConnectionError) : bool :=
  match err with
  | ApplicationClosed _ _ | ConnectionClosed _ | Reset | TimedOut | LocallyClosed => true
  | OtherConnectionError _ => false
  end.

Inductive SendDatagramError := TooLarge | OtherDatagramError (text : string).

Record CloseInfo := mkCloseInfo { close_code : Z; close_reason : string }.
Record FfiDuplexStream := mkDuplex { read_handle : Z; write_handle : Z }.

(** The calls with an effect outside the store: closing a connection, sending a
    datagram, and the pumps, with the end of the channel each one owns. *)
Inductive NetCall :=
| NetClose (c : nat) (code : Z) (reason : Bytes)
| NetDatagram (c : nat) (data : Bytes)
| NetPumpRecv (c : nat) (writer : BodyWriter)
| NetPumpSend (c : nat) (reader : BodyReader).

(** [str::as_bytes]. *)
Definition as_bytes (s : string) : Bytes := list_byte_of_string s.
Definition ALPN_DUPLEX : Bytes := as_bytes "iroh-http/2-duplex".

#[global] Instance byte_eq_decision : EqDecision Byte.byte := Byte.byte_eq_dec.

Definition VARINT_MAX : Z := 2 ^ 62 - 1.

Section sessions.
Context {K : Type} {M : Type -> Type} `{SlotMap K M} {C : Type -> Type} `{Mpsc C}.
Context {Id Relay : Type} `{IrohNet Id Relay}.
(** [serde_json] on node addresses; [{:?}] of a string,
    [String::from_utf8_lossy] and the [Display] of a connection error. *)
Context (json_parse : string -> option NodeAddrInfo) (debug_str : string -> string).
Context (utf8_lossy : Bytes -> string) (conn_error_text : ConnectionError -> string).

#[local] Abbreviation world := (World M C).

(** ** Opening *)

Definition connect_addr (remote_node_id : string) (direct_addrs : option (list SocketAddr))
  : Result (Id * list Relay * list SocketAddr) CoreError :=
  let? parsed := parse_node_addr json_parse remote_node_id in Ok (dial_addrs parsed direct_addrs).

(** [dial]: the connection [raw().connect] returns for an address. *)
Definition connect (now : Z) (dial : Id * list Relay * list SocketAddr -> Result nat string)
  (remote_node_id : string) (direct_addrs : option (list SocketAddr)) (w : world)
  : Result Z CoreError * world :=
  match connect_addr remote_node_id direct_addrs with
  | Err e => (Err e, w)
  | Ok addr =>
      match dial addr with
      | Err e => (Err (connection_failed ("connect session: " +:+ e)), w)
      | Ok c => insert_session now (mkSession c) w
      end
  end.

(** [incoming]: [None] when the endpoint shuts down; otherwise the outcome of the
    handshake, with the protocol it negotiated. *)
Definition accept (now : Z) (incoming : option (Result (nat * Bytes) string)) (w : world)
  : Result (option Z) CoreError * list NetCall * world :=
  match incoming with
  | None => (Ok None, [], w)
  | Some (Err e) => (Err (connection_failed ("accept session: " +:+ e)), [], w)
  | Some (Ok (c, alpn)) =>
      if negb (bool_decide (alpn = ALPN_DUPLEX))
      then (Err (connection_failed ("accept session: unexpected ALPN " +:+ debug_str (utf8_lossy alpn))),
            [NetClose c 0 (as_bytes "unexpected ALPN")], w)
      else match insert_session now (mkSession c) w with
           | (Ok h, w) => (Ok (Some h), [], w)
           | (Err e, w) => (Err e, [], w)
           end
  end.

Definition session_conn (h : Z) (w : world) : Result nat CoreError :=
  match lookup_session h w with Some e => Ok (conn e) | None => Err (invalid_handle h) end.

Definition ready (h : Z) (w : world) : Result unit CoreError :=
  let? _ := session_conn h w in Ok tt.

(** ** Streams *)

Definition wrap_bidi_stream (now : Z) (c : nat) (w : world)
  : Result FfiDuplexStream CoreError * list NetCall * world :=
  let g := insert_guard in
  let '(recv_writer, recv_reader, w) := make_body_channel w in
  match guard_insert_reader now recv_reader g w with
  | (Err e, g, w) => (Err e, [], guard_drop g (drop_writer recv_writer w))
  | (Ok rh, g, w) =>
      let '(send_writer, send_reader, w) := make_body_channel w in
      match guard_insert_writer now send_writer g w with
      | (Err e, g, w) => (Err e, [NetPumpRecv c recv_writer], guard_drop g (drop_reader send_reader w))
      | (Ok wh, g, w) =>
          (Ok (mkDuplex rh wh), [NetPumpRecv c recv_writer; NetPumpSend c send_reader], guard_drop (commit g) w)
      end
  end.

Definition create_bidi_stream (now h : Z) (open_bi : Result unit string) (w : world)
  : Result FfiDuplexStream CoreError * list NetCall * world :=
  match session_conn h w with
  | Err e => (Err e, [], w)
  | Ok c =>
      match open_bi with
      | Err e => (Err (connection_failed ("open_bi: " +:+ e)), [], w)
      | Ok _ => wrap_bidi_stream now c w
      end
  end.

Definition next_bidi_stream (now h : Z) (accept_bi : Result unit ConnectionError) (w : world)
  : Result (option FfiDuplexStream) CoreError * list NetCall * world :=
  match session_conn h w with
  | Err e => (Err e, [], w)
  | Ok c =>
      match accept_bi with
      | Ok _ =>
          match wrap_bidi_stream now c w with
          | (Ok d, calls, w) => (Ok (Some d), calls, w)
          | (Err e, calls, w) => (Err e, calls, w)
          end
      | Err e =>
          if is_connection_closed e then (Ok None, [], w)
          else (Err (connection_failed ("accept_bi: " +:+ conn_error_text e)), [], w)
      end
  end.

Definition create_uni_stream (now h : Z) (open_uni : Result unit string) (w : world)
  : Result Z CoreError * list NetCall * world :=
  match session_conn h w with
  | Err e => (Err e, [], w)
  | Ok c =>
      match open_uni with
      | Err e => (Err (connection_failed ("open_uni: " +:+ e)), [], w)
      | Ok _ =>
          let '(send_writer, send_reader, w) := make_body_channel w in
          match insert_writer now send_writer w with
          | (Err e, w) => (Err e, [], drop_reader send_reader w)
          | (Ok wh, w) => (Ok wh, [NetPumpSend c send_reader], w)
          end
      end
  end.

Definition next_uni_stream (now h : Z) (accept_uni : Result unit ConnectionError) (w : world)
  : Result (option Z) CoreError * list NetCall * world :=
  match session_conn h w with
  | Err e => (Err e, [], w)
  | Ok c =>
      match accept_uni with
      | Ok _ =>
          let '(recv_writer, recv_reader, w) := make_body_channel w in
          match insert_reader now recv_reader w with
          | (Err e, w) => (Err e, [], drop_writer recv_writer w)
          | (Ok rh, w) => (Ok (Some rh), [NetPumpRecv c recv_writer], w)
          end
      | Err e =>
          if is_connection_closed e then (Ok None, [], w)
          else (Err (connection_failed ("accept_uni: " +:+ conn_error_text e)), [], w)
      end
  end.

(** ** Datagrams *)

Definition send_datagram (h : Z) (data : Bytes) (sent : Result unit SendDatagramError) (w : world)
  : Result unit CoreError * list NetCall :=
  match session_conn h w with
  | Err e => (Err e, [])
  | Ok c =>
      (match sent with
       | Ok _ => Ok tt
       | Err TooLarge => Err (body_too_large "datagram exceeds path MTU; check Session::max_datagram_size()")
       | Err (OtherDatagramError e) => Err (internal ("send_datagram: " +:+ e))
       end, [NetDatagram c data])
  end.

Definition recv_datagram (h : Z) (read : Result Bytes ConnectionError) (w : world)
  : Result (option Bytes) CoreError :=
  let? _ := session_conn h w in
  match read with
  | Ok data => Ok (Some data)
  | Err e => if is_connection_closed e then Ok None
             else Err (connection_failed ("recv_datagram: " +:+ conn_error_text e))
  end.

Definition max_datagram_size (h : Z) (conn_max : nat -> option Z) (w : world) : Result (option Z) CoreError :=
  let? c := session_conn h w in Ok (conn_max c).

(** ** Closing *)

Definition parse_connection_error (err : ConnectionError) : Z * string :=
  match err with
  | ApplicationClosed code reason => (code, utf8_lossy reason)
  | other => (0%Z, conn_error_text other)
  end.

Definition close (h : Z) (code : Z) (reason : string) (w : world) : Result unit CoreError * list NetCall :=
  match session_conn h w with
  | Err e => (Err e, [])
  | Ok c =>
      if (VARINT_MAX <? code)%Z
      then (Err (invalid_input ("close_code " +:+ pretty code +:+ " exceeds QUIC VarInt max (2^62 - 1)")), [])
      else (Ok tt, [NetClose c code (as_bytes reason)])
  end.

(** [closed] up to its wait: the connection it waits for, or the default answer. *)
Definition closed_start (h : Z) (w : world) : nat + CloseInfo :=
  match session_conn h w with Ok c => inl c | Err _ => inr (mkCloseInfo 0 "") end.

(** And after it. *)
Definition closed_finish (h : Z) (err : ConnectionError) (w : world) : CloseInfo * world :=
  let w := (remove_session h w).2 in
  let '(code, reason) := parse_connection_error err in (mkCloseInfo code reason, w).

End sessions.

(** ** The endpoint registry *)

Section registry.
Context {K : Type} {M : Type -> Type} `{SlotMap K M} {Ep : Type}.

Definition insert_endpoint (ep : Ep) (map : M Ep) : Z * M Ep :=
  let '(key, map) := sm_insert ep map in (key_to_handle key, map).
Definition get_endpoint (handle : Z) (map : M Ep) : option Ep := sm_get (handle_to_key handle) map.
Definition remove_endpoint (handle : Z) (map : M Ep) : option Ep * M Ep := sm_remove (handle_to_key handle) map.

(** [keys.into_iter().filter_map(|k| map.remove(k))]. *)
Fixpoint remove_keys (keys : list K) (map : M Ep) : list Ep * M Ep :=
  match keys with
  | [] => ([], map)
  | k :: keys =>
      let '(ep, map) := sm_remove k map in
      let '(eps, map) := remove_keys keys map in (option_list ep ++ eps, map)
  end.

(** The endpoints to force-close, in order, and the registry without them. *)
Definition close_all_endpoints (map : M Ep) : list Ep * M Ep := remove_keys (sm_keys map) map.

Inductive RegistryOp := OpInsert (ep : Ep) | OpRemove (handle : Z) | OpCloseAll.
Definition registry_op (map : M Ep) (op : RegistryOp) : M Ep :=
  match op with
  | OpInsert ep => (insert_endpoint ep map).2
  | OpRemove handle => (remove_endpoint handle map).2
  | OpCloseAll => (close_all_endpoints map).2
  end.

End registry.
