(* ===== verification/SessionsProps.v ===== *)
(** * Properties of sessions and of the endpoint registry

    How a session ends, stream pairs that are allocated whole or not at all,
    the protocol check on incoming sessions, and handles of closed endpoints. *)

From stdpp Require Import base numbers list strings gmap fin_maps pretty.
From Stdlib Require Import ZArith Lia Strings.String.
From S2P Require Import Prelude Text Errors Extern Net BodyChannel Handles HandlesFacts HandlesProps Addr Fetch Sessions.

Open Scope string_scope.
Open Scope list_scope.

Section sessions.
Context {K : Type} {M : Type -> Type} `{HSM : SlotMap K M} `{Countable K} `{HSL : !SlotMapLaws K M}.
Context {C : Type -> Type} `{HMP : Mpsc C} `{HML : !MpscLaws C}.
Context (debug_str : string -> string) (utf8_lossy : Bytes -> string) (conn_error_text : ConnectionError -> string).
#[local] Abbreviation world := (World M C).

(** The sessions a store knows. *)
Definition session_view (w : world) : gmap K (Timed SessionEntry) := sm_view (sessions (store w)).

Lemma session_conn_view h (w : world) :
  session_conn h w =
  match session_view w !! handle_to_key h with Some e => Ok (conn (value e)) | None => Err (invalid_handle h) end.
Proof.
  unfold session_conn, lookup_session, session_view. rewrite sm_view_get. by destruct (sm_view (sessions (store w)) !! handle_to_key h).
Qed.

Lemma remove_session_view h (w : world) : session_view (remove_session h w).2 = delete (handle_to_key h) (session_view w).
Proof.
  unfold remove_session, session_view. pose proof (sm_view_remove _ (handle_to_key h) (sessions (store w))) as Hv.
  by destruct (sm_remove _ (sessions (store w))).
Qed.

(** A new session resolves to its connection, and no other handle changes. *)
Lemma insert_session_conn now c (w : world) h w' :
  insert_session now (mkSession c) w = (Ok h, w') ->
  session_conn h w = Err (invalid_handle h) /\ session_conn h w' = Ok c /\
  forall h', handle_to_key h' <> handle_to_key h -> session_conn h' w' = session_conn h' w.
Proof.
  unfold insert_session. destruct (insert_checked _ _ _ _) as [[h1|e] reg] eqn:E; [|done]. intros [= <- <-].
  apply insert_checked_view in E as (_ & k & -> & Hk & Hv). unfold handle_to_key in *. rewrite !session_conn_view.
  unfold session_view, handle_to_key. cbn. rewrite from_as_ffi, Hk, Hv, lookup_insert_eq. split; [done|]. split; [done|].
  intros h' Hne. rewrite !session_conn_view. unfold session_view, handle_to_key. cbn. by rewrite Hv, lookup_insert_ne.
Qed.

(** ** Closing *)

(** The way a session ends.  [close] keeps the handle, so that a [closed]
    that looks it up afterwards waits for the same connection; a code above
    2^62-1 is refused before the connection is touched.  When the connection has
    ended, [closed] reports the peer's code and reason and releases exactly this
    handle: from then on every call on it is an invalid-handle error, and another
    [closed] answers at once with the default. *)
Theorem session_end_to_end h c code reason err (w : world) :
  session_conn h w = Ok c ->
  let '(info, w') := closed_finish utf8_lossy conn_error_text h err w in
  (if (VARINT_MAX <? code)%Z
   then exists msg, close h code reason w = (Err (invalid_input msg), [])
   else close h code reason w = (Ok tt, [NetClose c code (as_bytes reason)])) /\
  closed_start h w = inl c /\
  (forall x y, err = ApplicationClosed x y -> info = mkCloseInfo x (utf8_lossy y)) /\
  ((forall x y, err <> ApplicationClosed x y) -> info = mkCloseInfo 0 (conn_error_text err)) /\
  close h code reason w' = (Err (invalid_handle h), []) /\
  closed_start h w' = inr (mkCloseInfo 0 "") /\
  (forall h', handle_to_key h' <> handle_to_key h -> session_conn h' w' = session_conn h' w).
Proof.
  intros Hc. destruct (closed_finish _ _ h err w) as [info w'] eqn:E.
  assert (session_view w' = delete (handle_to_key h) (session_view w)) as Hv.
  { unfold closed_finish in E. destruct (parse_connection_error _ _ err). injection E as _ <-. apply remove_session_view. }
  assert (session_conn h w' = Err (invalid_handle h)) as Hd by (by rewrite session_conn_view, Hv, lookup_delete_eq).
  unfold close, closed_start. rewrite Hc, Hd. split_and!.
  - destruct (VARINT_MAX <? code)%Z; [by eexists|done].
  - done.
  - intros x y ->. unfold closed_finish in E. cbn in E. by injection E as <- _.
  - intros Hn. unfold closed_finish in E. destruct err; cbn in E; try (by injection E as <- _). by destruct (Hn error_code reason0).
  - done.
  - done.
  - intros h' Hne. rewrite !session_conn_view, Hv. by rewrite lookup_delete_ne.
Qed.

(** ** Accepting *)

(** Incoming sessions: a connection that negotiated another protocol than
    the session one is closed and never gets a handle, one that did is stored
    under a fresh handle that resolves to it, and a shutdown is the end of the
    stream of sessions, not an error. *)
Theorem accept_checks_protocol now c alpn (w : world) :
  accept debug_str utf8_lossy now None w = (Ok None, [], w) /\
  (alpn <> ALPN_DUPLEX ->
   exists msg, accept debug_str utf8_lossy now (Some (Ok (c, alpn))) w =
               (Err (connection_failed msg), [NetClose c 0 (as_bytes "unexpected ALPN")], w)) /\
  (forall r calls w', accept debug_str utf8_lossy now (Some (Ok (c, ALPN_DUPLEX))) w = (r, calls, w') ->
   calls = [] /\
   match r with
   | Ok (Some h) => session_conn h w = Err (invalid_handle h) /\ session_conn h w' = Ok c
   | Ok None => False
   | Err e => e = internal "handle registry at capacity" /\ w' = w
   end).
Proof.
  split; [done|]. split.
  - intros Hne. eexists. unfold accept. by rewrite bool_decide_eq_false_2.
  - intros r calls w' E. unfold accept in E. rewrite bool_decide_eq_true_2 in E by done. cbn [negb] in E. destruct (insert_session now (mkSession c) w) as [[h|e] w1] eqn:Ei; simplify_eq.
    + destruct (insert_session_conn _ _ _ _ _ Ei) as (? & ? & _). done.
    + unfold insert_session in Ei. destruct (insert_checked _ _ _ _) as [[h|e'] reg] eqn:E; simplify_eq.
      split; [done|]. split; [|done]. unfold insert_checked in E. destruct (_ <=? _)%Z; [by simplify_eq|].
      by destruct (sm_insert _ _).
Qed.

(** ** Streams *)

Lemma guard_reader_views now r g (w : world) o g' w' :
  guard_insert_reader now r g w = (o, g', w') ->
  match o with
  | Ok h => g' = track (Reader h) g /\ heap w' = heap w /\ sm_view (readers (store w)) !! handle_to_key h = None /\
            store w' = set_readers (readers (store w')) (store w) /\
            sm_view (readers (store w')) = <[handle_to_key h := timed_new now r]> (sm_view (readers (store w)))
  | Err _ => g' = g /\ store w' = store w
  end.
Proof.
  unfold guard_insert_reader, insert_reader. destruct (insert_checked _ _ _ _) as [[h|e] reg] eqn:E; intros; simplify_eq; [|done].
  apply insert_checked_view in E as (_ & k & -> & Hk & Hv). unfold handle_to_key. rewrite from_as_ffi. done.
Qed.

Lemma guard_writer_views now x g (w : world) o g' w' :
  guard_insert_writer now x g w = (o, g', w') ->
  match o with
  | Ok h => g' = track (Writer h) g /\ heap w' = heap w /\ sm_view (writers (store w)) !! handle_to_key h = None /\
            store w' = set_writers (writers (store w')) (store w) /\
            sm_view (writers (store w')) = <[handle_to_key h := timed_new now x]> (sm_view (writers (store w)))
  | Err _ => g' = g /\ store w' = store w
  end.
Proof.
  unfold guard_insert_writer, insert_writer. destruct (insert_checked _ _ _ _) as [[h|e] reg] eqn:E; intros; simplify_eq; [|done].
  apply insert_checked_view in E as (_ & k & -> & Hk & Hv). unfold handle_to_key. rewrite from_as_ffi. done.
Qed.

Lemma handle_views_store (w w' : world) : store w' = store w -> handle_views w' = handle_views w.
Proof. unfold handle_views. by intros ->. Qed.

(** A bidirectional stream is allocated whole or not at all: when either
    handle does not fit, every handle resolves as before the call; otherwise the
    read handle and the write handle are fresh, they are the reader and the
    writer of two different channels, and the other ends of the two channels
    are with the pumps of this connection. *)
Theorem bidi_stream_all_or_nothing now c (w : world) :
  let '(r, calls, w') := wrap_bidi_stream now c w in
  match r with
  | Err _ => handle_views w' = handle_views w
  | Ok d =>
      exists recv send timeout, recv <> send /\
        calls = [NetPumpRecv c (mkWriter recv timeout); NetPumpSend c (mkReader send)] /\
        sm_view (readers (store w)) !! handle_to_key (read_handle d) = None /\
        sm_view (writers (store w)) !! handle_to_key (write_handle d) = None /\
        sm_view (readers (store w')) =
          <[handle_to_key (read_handle d) := timed_new now (mkReader recv)]> (sm_view (readers (store w))) /\
        sm_view (writers (store w')) =
          <[handle_to_key (write_handle d) := timed_new now (mkWriter send timeout)]> (sm_view (writers (store w))) /\
        session_view w' = session_view w
  end.
Proof.
  unfold wrap_bidi_stream. destruct (make_body_channel w) as [[rw rr] w1] eqn:E1.
  assert (store w1 = store w) as Hs1 by (unfold make_body_channel in E1; by simplify_eq).
  destruct (guard_insert_reader now rr insert_guard w1) as [[[rh|e] g1] w2] eqn:E2; apply guard_reader_views in E2; last first.
  { destruct E2 as [-> Hs2]. apply handle_views_store. unfold guard_drop. cbn. by rewrite Hs2. }
  destruct E2 as (-> & Hh2 & Hf1 & Hs2 & Hv2).
  destruct (make_body_channel w2) as [[sw sr] w3] eqn:E3.
  assert (store w3 = store w2) as Hs3 by (unfold make_body_channel in E3; by simplify_eq).
  destruct (guard_insert_writer now sw _ w3) as [[[wh|e] g2] w4] eqn:E4; apply guard_writer_views in E4; last first.
  { destruct E4 as [-> Hs4]. rewrite guard_drop_views by done.
    rewrite (handle_views_store w2 (drop_reader sr w4)) by (change (store w4 = store w2); congruence). unfold handle_views. rewrite Hs2, Hs1. cbn. rewrite Hv2, Hs1.
    rewrite delete_insert_id; [done|]. by rewrite <- Hs1. }
  destruct E4 as (-> & _ & Hf2 & Hs4 & Hv4). cbn -[make_body_channel].
  unfold make_body_channel in E1, E3. injection E1 as <- <- Ew1. injection E3 as <- <- Ew3.
  exists (hp_next (heap w)), (hp_next (heap w2)), (cfg_drain_timeout (config (store w))).
  assert (hp_next (heap w2) = S (hp_next (heap w))) as Hn.
  { rewrite Hh2, <- Ew1. done. }
  rewrite Hs3 in Hf2, Hv4. rewrite Hs2, Hs1 in Hf2, Hv4. cbn in Hf2, Hv4.
  assert (config (store w2) = config (store w)) as Hcfg by (rewrite Hs2, Hs1; done).
  rewrite Hn, Hcfg in *. rewrite Hs1 in Hf1, Hv2.
  split_and!; [lia|done|done|done| |done|].
  - rewrite Hs4, Hs3. cbn. done.
  - unfold session_view. rewrite Hs4, Hs3, Hs2, Hs1. done.
Qed.

(** ** Sweeping *)

(** No call on a session counts as an access: its entry keeps the time of its
    creation. *)
Lemma uni_stream_sessions now h ans (w : world) r calls w' :
  create_uni_stream now h ans w = (r, calls, w') -> session_view w' = session_view w.
Proof.
  unfold create_uni_stream. destruct (session_conn h w); [|by intros [= _ _ <-]]. destruct ans; [|by intros [= _ _ <-]].
  destruct (make_body_channel w) as [[x rr] w1] eqn:E1. assert (store w1 = store w) as Hs1 by (unfold make_body_channel in E1; by simplify_eq).
  unfold insert_writer. destruct (insert_checked _ _ _ _) as [[wh|e] reg]; intros [= _ _ <-]; unfold session_view; cbn; by rewrite Hs1.
Qed.

(** A session is swept while it is in use: the time that counts is the one of
    its creation, so a sweep more than the TTL after that makes the handle
    invalid, also when a stream was opened on it at the very moment of the
    sweep. *)
Theorem session_swept_in_use now ttl h e wh calls (w w' : world) :
  sm_get (handle_to_key h) (sessions (store w)) = Some e -> (ttl < elapsed now (last_accessed e))%Z ->
  create_uni_stream now h (Ok tt) w = (Ok wh, calls, w') ->
  session_conn h (sweep now ttl w') = Err (invalid_handle h).
Proof.
  intros He Hx Hc. apply uni_stream_sessions in Hc. rewrite sm_view_get in He. fold (session_view w) in He. rewrite <- Hc in He.
  rewrite session_conn_view. unfold session_view in *. rewrite store_sweep. cbn. rewrite sweep_registry_view, He. cbn.
  unfold is_expired. by rewrite (proj2 (Z.ltb_lt _ _) Hx).
Qed.

End sessions.

(** ** The endpoint registry *)

Section registry.
Context {K : Type} {M : Type -> Type} `{HSM : SlotMap K M} `{Countable K} `{HSL : !SlotMapLaws K M} {Ep : Type}.

Lemma remove_keys_view keys (map : M Ep) : sm_view (remove_keys keys map).2 = dels keys (sm_view map).
Proof.
  revert map. induction keys as [|k keys IH]; intros map; cbn; [done|].
  pose proof (sm_view_remove _ k map) as Hv. destruct (sm_remove k map) as [ep map1]. cbn in Hv.
  specialize (IH map1). destruct (remove_keys keys map1) as [eps map2]. cbn in *. by rewrite IH, Hv.
Qed.

Lemma remove_keys_stale keys (map : M Ep) k : sm_stale k map -> sm_stale k (remove_keys keys map).2.
Proof.
  revert map. induction keys as [|k' keys IH]; intros map Hs; cbn; [done|].
  pose proof (sm_stale_remove_other _ k k' map Hs) as Hs'. destruct (sm_remove k' map) as [ep map1]. cbn in Hs'.
  specialize (IH map1 Hs'). by destruct (remove_keys keys map1).
Qed.

Lemma remove_keys_all keys (map : M Ep) k :
  k ∈ keys -> is_Some (sm_view map !! k) -> sm_stale k (remove_keys keys map).2.
Proof.
  revert map. induction keys as [|k' keys IH]; intros map Hin Hs; [by apply elem_of_nil in Hin|]. cbn.
  destruct (decide (k = k')) as [<-|Hne].
  - pose proof (sm_stale_remove _ k map Hs) as Hst. destruct (sm_remove k map) as [ep map1]. cbn in Hst.
    apply (remove_keys_stale keys) in Hst. by destruct (remove_keys keys map1).
  - apply elem_of_cons in Hin as [?|Hin]; [done|]. pose proof (sm_view_remove _ k' map) as Hv.
    destruct (sm_remove k' map) as [ep map1]. cbn in Hv. specialize (IH map1 Hin). rewrite Hv, lookup_delete_ne in IH by done.
    specialize (IH Hs). by destruct (remove_keys keys map1).
Qed.

Lemma remove_keys_elem keys (map : M Ep) k ep :
  sm_view map !! k = Some ep -> k ∈ keys -> ep ∈ (remove_keys keys map).1.
Proof.
  revert map. induction keys as [|k' keys IH]; intros map Hg Hin; [by apply elem_of_nil in Hin|]. cbn.
  pose proof (sm_view_remove_val _ k' map) as Hrv. pose proof (sm_view_remove _ k' map) as Hv.
  destruct (sm_remove k' map) as [ep' map1]. cbn in *. specialize (IH map1).
  destruct (remove_keys keys map1) as [eps map2] eqn:Er. cbn in *. apply elem_of_app.
  destruct (decide (k = k')) as [<-|Hne]; [left; rewrite Hrv, Hg; by apply list_elem_of_here|right].
  apply elem_of_cons in Hin as [?|Hin]; [done|]. rewrite Hv, lookup_delete_ne in IH by done. by apply IH.
Qed.

(** The slots never run out of generations along the way. *)
Fixpoint roomy (map : M Ep) (ops : list RegistryOp) : Prop :=
  match ops with [] => True | op :: ops => sm_room map /\ roomy (registry_op map op) ops end.

Lemma registry_op_stale (map : M Ep) (op : RegistryOp) k : sm_room map -> sm_stale k map -> sm_stale k (registry_op map op).
Proof.
  intros Hr Hs. destruct op as [ep|h|]; cbn.
  - unfold insert_endpoint. destruct (sm_stale_insert _ ep k map Hr Hs) as [_ ?]. by destruct (sm_insert ep map).
  - by apply sm_stale_remove_other.
  - by apply remove_keys_stale.
Qed.

(** The handle of a closed endpoint never names another one: a handle that
    resolved and was removed, or drained with all the others, resolves to
    nothing whatever is inserted, removed or drained afterwards, also when its
    slot is reused. *)
Theorem closed_endpoint_handle_stays_dead (map : M Ep) h ep ops (all : bool) :
  get_endpoint h map = Some ep ->
  let closed := registry_op map (if all then OpCloseAll else OpRemove h) in
  roomy closed ops ->
  (if all then (forall h', get_endpoint h' closed = None) /\ ep ∈ (close_all_endpoints map).1
   else (remove_endpoint h map).1 = Some ep) /\
  get_endpoint h (fold_left registry_op ops closed) = None.
Proof.
  intros Hg closed Hroom. unfold get_endpoint in *. rewrite sm_view_get in Hg. split.
  - destruct all; [|unfold remove_endpoint; by rewrite sm_view_remove_val].
    unfold close_all_endpoints. split.
    + intros h'. subst closed. cbn. unfold close_all_endpoints. rewrite sm_view_get, remove_keys_view, lookup_dels.
      case_decide as Hd; [done|]. destruct (sm_view map !! handle_to_key h') eqn:E; [|done]. destruct Hd. by apply sm_keys_elem; rewrite E.
    + assert (handle_to_key h ∈ sm_keys map) as Hin by (apply sm_keys_elem; by rewrite Hg).
      by eapply remove_keys_elem.
  - assert (sm_stale (handle_to_key h) closed) as Hs.
    { subst closed. destruct all; cbn; [|apply sm_stale_remove; by rewrite Hg].
      apply remove_keys_all; [|by rewrite Hg]. apply sm_keys_elem. by rewrite Hg. }
    rewrite sm_view_get. apply sm_stale_absent. clearbody closed. clear Hg. revert closed Hroom Hs.
    induction ops as [|op ops IH]; intros closed Hroom Hs; cbn; [done|]. destruct Hroom as [H1 H2].
    apply IH; [done|]. by apply registry_op_stale.
Qed.

End registry.

(** ** Witnesses *)

Definition demo_session : Z * World VecMap ChanView :=
  match insert_session 0 (mkSession 5) (world_new (mkConfig 4 64 30000 16 300000)) with
  | (Ok h, w) => (h, w)
  | (Err _, w) => (0%Z, w)
  end.
Definition demo_text : Bytes -> string := fun b => String.string_of_list_byte b.

Lemma session_end_to_end_witness :
  session_conn demo_session.1 demo_session.2 = Ok 5 /\
  closed_start demo_session.1
    (closed_finish demo_text (fun _ => "") demo_session.1 (ApplicationClosed 7 (as_bytes "bye")) demo_session.2).2 =
    inr (mkCloseInfo 0 "").
Proof.
  split; [by vm_compute|].
  pose proof (session_end_to_end demo_text (fun _ => "") demo_session.1 5 0 "done"
    (ApplicationClosed 7 (as_bytes "bye")) demo_session.2) as Hw.
  destruct (closed_finish _ _ _ _ _) as [info w']. apply Hw. by vm_compute.
Defined.

(** Six minutes after its creation. *)
Lemma session_swept_in_use_witness :
  exists wh calls w',
    create_uni_stream 360000 demo_session.1 (Ok tt) demo_session.2 = (Ok wh, calls, w') /\
    session_conn demo_session.1 (sweep 360000 300000 w') = Err (invalid_handle demo_session.1).
Proof.
  destruct (create_uni_stream 360000 demo_session.1 (Ok tt) demo_session.2) as [[[wh|] calls] w'] eqn:E; [|by vm_compute in E].
  exists wh, calls, w'. split; [done|].
  apply (session_swept_in_use 360000 300000 demo_session.1 (timed_new 0 (mkSession 5)) wh calls demo_session.2 w');
    [by vm_compute|by vm_compute|exact E].
Defined.

Lemma closed_endpoint_handle_stays_dead_witness :
  let map := (insert_endpoint 8 (sm_with_key : VecMap nat)).2 in
  get_endpoint 4294967297 map = Some 8 /\
  get_endpoint 4294967297 (fold_left registry_op [OpInsert 9; OpRemove 4294967298; OpInsert 10] (registry_op map OpCloseAll)) = None.
Proof.
  split; [by vm_compute|].
  by apply (closed_endpoint_handle_stays_dead (insert_endpoint 8 (sm_with_key : VecMap nat)).2 4294967297 8
    [OpInsert 9; OpRemove 4294967298; OpInsert 10] true).
Defined.
