(* ===== verification/HostAdapter.v ===== *)
(** * Host adapter layer (iroh-http-adapter/src/lib.rs)

    The checks every host binding applies to its inputs, the JSON error envelope
    and the delivery of a request to the runtime.

    A JavaScript number is an [f64]: not a number, an infinity, or a sign, a
    mantissa and a binary exponent.  The limits are all below 2^53, where
    [max as f64] is exact, so a number is compared with the limit itself. *)

From stdpp Require Import base numbers list strings gmap fin_maps pretty.
From Stdlib Require Import ZArith Lia Strings.Ascii.
From S2P Require Import Prelude Text Errors Extern BodyChannel Handles ServeOptions Dispatcher.

Open Scope string_scope.
Open Scope list_scope.

Definition MAX_HEADER_COUNT : Z := 100.
Definition MAX_HEADER_NAME_LEN : Z := 256.
Definition MAX_HEADER_VALUE_LEN : Z := 8192.
Definition MAX_TIMEOUT_MS : Z := 300000.
Definition MAX_SERVE_TIMEOUT_MS : Z := 86400000.
Definition MAX_BODY_BYTES : Z := DEFAULT_MAX_RESPONSE_BODY_BYTES.
Definition MAX_RESPONSE_BODY_BYTES : Z := DEFAULT_MAX_RESPONSE_BODY_BYTES.
Definition MAX_TOTAL_CONNECTIONS : Z := 100000.
Definition MAX_HEADER_BYTES : Z := 1048576.
Definition MAX_NODE_ID_LEN : Z := 128.
Definition MAX_URL_LEN : Z := 8192.
Definition MAX_METHOD_LEN : Z := 32.
Definition MAX_DIRECT_ADDRS : Z := 32.
Definition MAX_DIRECT_ADDR_LEN : Z := 256.

(** ** Errors *)

Inductive AdapterInputError :=
| InvalidNodeId
| InvalidUrl
| InputTooLarge (field : string) (max got : Z)
| InvalidEncoding (field : string)
| InvalidArgument (field reason : string).

Definition adapter_code (e : AdapterInputError) : string :=
  match e with
  | InvalidNodeId => "INVALID_NODE_ID"
  | InvalidUrl => "INVALID_URL"
  | InputTooLarge _ _ _ => "INPUT_TOO_LARGE"
  | InvalidEncoding _ => "INVALID_ENCODING"
  | InvalidArgument _ _ => "INVALID_ARGUMENT"
  end.

Definition adapter_message (e : AdapterInputError) : string :=
  match e with
  | InvalidNodeId => "invalid node id"
  | InvalidUrl => "invalid url"
  | InputTooLarge field max got =>
      field +:+ " exceeds max size " +:+ pretty max +:+ " (got " +:+ pretty got +:+ ")"
  | InvalidEncoding field => field +:+ " contains invalid encoding"
  | InvalidArgument field reason => field +:+ ": " +:+ reason
  end.

Definition core_code (c : ErrorCode) : string :=
  match c with
  | InvalidInput => "INVALID_INPUT"
  | ConnectionFailed => "REFUSED"
  | Timeout => "TIMEOUT"
  | BodyTooLarge => "BODY_TOO_LARGE"
  | HeaderTooLarge => "HEADER_TOO_LARGE"
  | PeerRejected => "PEER_REJECTED"
  | Cancelled => "CANCELLED"
  | Internal => "INTERNAL"
  end.

Definition dquote : string := String (ascii_of_nat 34) "".
(** A JSON member with a name that needs no escape. *)
Definition member (name value : string) : string := dquote +:+ name +:+ dquote +:+ ":" +:+ value.

Section envelope.
(** [serde_json::Value::String(..)] as text. *)
Context (json_string : string -> string).

Definition format_error_json (code msg : string) : string :=
  "{" +:+ member "code" (dquote +:+ code +:+ dquote) +:+ "," +:+ member "message" (json_string msg) +:+ "}".
Definition core_error_to_json (e : CoreError) : string := format_error_json (core_code (code e)) (message e).
Definition adapter_to_json (e : AdapterInputError) : string := format_error_json (adapter_code e) (adapter_message e).
End envelope.

(** ** Strings *)

Fixpoint contains_zero (s : string) : bool :=
  match s with
  | EmptyString => false
  | String a s => bool_decide (nat_of_ascii a = 0) || contains_zero s
  end.

Definition validate_bounded_string (field value : string) (max_len : Z) : Result unit AdapterInputError :=
  if (str_len value =? 0)%Z then Err (InvalidArgument field "must not be empty")
  else if (max_len <? str_len value)%Z then Err (InputTooLarge field max_len (str_len value))
  else if contains_zero value then Err (InvalidEncoding field)
  else Ok tt.

(** The whitespace characters of [str::trim_start], in UTF-8. *)
Definition ws1 (a : ascii) : bool := let n := nat_of_ascii a in ((9 <=? n) && (n <=? 13) || (n =? 32))%nat.
Definition ws2 (a b : ascii) : bool :=
  let n := nat_of_ascii a in let m := nat_of_ascii b in ((n =? 194) && ((m =? 133) || (m =? 160)))%nat.
Definition ws3 (a b c : ascii) : bool :=
  let n := nat_of_ascii a in let m := nat_of_ascii b in let k := nat_of_ascii c in
  ((n =? 225) && (m =? 154) && (k =? 128) ||
   (n =? 226) && (m =? 128) && ((128 <=? k) && (k <=? 138) || (k =? 168) || (k =? 169) || (k =? 175)) ||
   (n =? 226) && (m =? 129) && (k =? 159) ||
   (n =? 227) && (m =? 128) && (k =? 128))%nat.

Fixpoint trim_start (s : string) : string :=
  match s with
  | String a s1 =>
      if ws1 a then trim_start s1
      else match s1 with
           | String b s2 =>
               if ws2 a b then trim_start s2
               else match s2 with
                    | String c s3 => if ws3 a b c then trim_start s3 else s
                    | EmptyString => s
                    end
           | EmptyString => s
           end
  | EmptyString => EmptyString
  end.

Definition base32_char (a : ascii) : bool :=
  let n := nat_of_ascii a in ((97 <=? n) && (n <=? 122) || (50 <=? n) && (n <=? 55))%nat.
Definition is_base32 (s : string) : bool := forallb base32_char (chars s).

Definition validate_node_id (node_id : string) : Result unit AdapterInputError :=
  let? _ := validate_bounded_string "nodeId" node_id MAX_NODE_ID_LEN in
  if starts_with "{" (trim_start node_id) then Ok tt
  else if negb (is_base32 node_id) then Err InvalidNodeId else Ok tt.

Definition validate_url (url : string) : Result unit AdapterInputError :=
  validate_bounded_string "url" url MAX_URL_LEN.
Definition validate_method (method : string) : Result unit AdapterInputError :=
  validate_bounded_string "method" method MAX_METHOD_LEN.

Fixpoint validate_addr_list (addrs : list string) : Result unit AdapterInputError :=
  match addrs with
  | [] => Ok tt
  | addr :: addrs =>
      let? _ := validate_bounded_string "directAddr" addr MAX_DIRECT_ADDR_LEN in validate_addr_list addrs
  end.

Definition validate_direct_addrs (direct_addrs : option (list string)) : Result unit AdapterInputError :=
  match direct_addrs with
  | Some addrs =>
      if (MAX_DIRECT_ADDRS <? len addrs)%Z then Err (InputTooLarge "directAddrs" MAX_DIRECT_ADDRS (len addrs))
      else validate_addr_list addrs
  | None => Ok tt
  end.

(** The loop over the rows. *)
Fixpoint validate_rows (headers : list (list string)) : Result (list (string * string)) AdapterInputError :=
  match headers with
  | [] => Ok []
  | [name; value] :: headers =>
      let? _ := validate_bounded_string "headerName" name MAX_HEADER_NAME_LEN in
      let? _ := validate_bounded_string "headerValue" value MAX_HEADER_VALUE_LEN in
      let? pairs := validate_rows headers in Ok ((name, value) :: pairs)
  | _ :: _ => Err (InvalidArgument "headers" "each header must be [name, value]")
  end.

Definition validate_header_rows (headers : list (list string)) : Result (list (string * string)) AdapterInputError :=
  if (MAX_HEADER_COUNT <? len headers)%Z then Err (InputTooLarge "headers" MAX_HEADER_COUNT (len headers))
  else validate_rows headers.

(** ** Numbers *)

Inductive f64 := NaN | Infinite (negative : bool) | Finite (negative : bool) (mantissa : N) (exponent : Z).

Definition is_nan (v : f64) : bool := match v with NaN => true | _ => false end.
Definition is_infinite (v : f64) : bool := match v with Infinite _ => true | _ => false end.
(** [value < 0.0]; minus zero is not. *)
Definition lt_zero (v : f64) : bool :=
  match v with NaN => false | Infinite s => s | Finite s m _ => s && negb (m =? 0)%N end.
(** [value.fract() != 0.0]. *)
Definition has_fract (v : f64) : bool :=
  match v with
  | Finite _ m e => if (0 <=? e)%Z then false else negb (Z.of_N m mod 2 ^ (- e) =? 0)%Z
  | _ => true
  end.
(** The integer part of a number that is not negative. *)
Definition trunc (v : f64) : Z :=
  match v with
  | Finite _ m e => if (0 <=? e)%Z then (Z.of_N m * 2 ^ e)%Z else (Z.of_N m / 2 ^ (- e))%Z
  | _ => 0%Z
  end.
(** [value > max]. *)
Definition gt_max (v : f64) (max : Z) : bool :=
  match v with
  | NaN => false
  | Infinite s => negb s
  | Finite s m e =>
      negb s && (if (0 <=? e)%Z then (max <? Z.of_N m * 2 ^ e)%Z else (max * 2 ^ (- e) <? Z.of_N m)%Z)
  end.

Section numbers.
(** The [Display] of a number. *)
Context (show_f64 : f64 -> string).

(** [safe_f64_to_u64] and [safe_f64_to_usize], which differ in the result type only. *)
Definition safe_f64_to_u64 (value : f64) (field : string) (max : Z) : Result Z AdapterInputError :=
  if is_nan value || is_infinite value || lt_zero value
  then Err (InvalidArgument field ("expected a non-negative finite number, got " +:+ show_f64 value))
  else if has_fract value then Err (InvalidArgument field "must be an integer")
  else if gt_max value max then Err (InvalidArgument field ("must be <= " +:+ pretty max))
  else Ok (trunc value).
Definition safe_f64_to_usize := safe_f64_to_u64.

(** [.map(..).transpose()]. *)
Definition opt_check {A B} (f : A -> Result B AdapterInputError) (o : option A) : Result (option B) AdapterInputError :=
  match o with Some a => let? b := f a in Ok (Some b) | None => Ok None end.

Definition validate_compression_level (level : Z) : Result Z AdapterInputError :=
  if (level <? 0)%Z then Err (InvalidArgument "compressionLevel" ("must be non-negative, got " +:+ pretty level))
  else Ok level.

(** ** Option records *)

Record RawFetchOptions := mkRawFetch {
  rf_node_id : string; rf_url : string; rf_method : string;
  rf_direct_addrs : option (list string); rf_headers : list (list string);
  rf_timeout_ms : option f64; rf_max_response_body_bytes : option f64
}.
Record FetchOptions := mkFetchOptions {
  fo_node_id : string; fo_url : string; fo_method : string;
  fo_direct_addrs : option (list string); fo_headers : list (string * string);
  fo_timeout_ms : option Z; fo_max_response_body_bytes : option Z
}.

Definition coerce_fetch_options (raw : RawFetchOptions) : Result FetchOptions AdapterInputError :=
  let? _ := validate_node_id (rf_node_id raw) in
  let? _ := validate_url (rf_url raw) in
  let? _ := validate_method (rf_method raw) in
  let? _ := validate_direct_addrs (rf_direct_addrs raw) in
  let? headers := validate_header_rows (rf_headers raw) in
  let? timeout_ms := opt_check (fun v => safe_f64_to_u64 v "timeoutMs" MAX_TIMEOUT_MS) (rf_timeout_ms raw) in
  let? max_body := opt_check (fun v => safe_f64_to_usize v "maxResponseBodyBytes" MAX_RESPONSE_BODY_BYTES)
                     (rf_max_response_body_bytes raw) in
  Ok (mkFetchOptions (rf_node_id raw) (rf_url raw) (rf_method raw) (rf_direct_addrs raw) headers timeout_ms max_body).

Record RawEndpointOptions := mkRawEndpoint {
  re_idle_timeout_ms : option f64; re_pool_idle_timeout_ms : option f64; re_handle_ttl_ms : option f64;
  re_sweep_interval_ms : option f64; re_max_header_bytes : option f64; re_compression_level : option Z
}.
Record EndpointOptions := mkEndpointOptions {
  eo_idle_timeout_ms : option Z; eo_pool_idle_timeout_ms : option Z; eo_handle_ttl_ms : option Z;
  eo_sweep_interval_ms : option Z; eo_max_header_bytes : option Z; eo_compression_level : option Z
}.

Definition coerce_endpoint_options (raw : RawEndpointOptions) : Result EndpointOptions AdapterInputError :=
  let? idle := opt_check (fun v => safe_f64_to_u64 v "idleTimeout" MAX_TIMEOUT_MS) (re_idle_timeout_ms raw) in
  let? pool := opt_check (fun v => safe_f64_to_u64 v "poolIdleTimeoutMs" MAX_TIMEOUT_MS) (re_pool_idle_timeout_ms raw) in
  let? ttl := opt_check (fun v => safe_f64_to_u64 v "handleTtl" MAX_TIMEOUT_MS) (re_handle_ttl_ms raw) in
  let? sweep := opt_check (fun v => safe_f64_to_u64 v "sweepInterval" MAX_TIMEOUT_MS) (re_sweep_interval_ms raw) in
  let? header := opt_check (fun v => safe_f64_to_usize v "maxHeaderBytes" MAX_HEADER_BYTES) (re_max_header_bytes raw) in
  let? level := opt_check validate_compression_level (re_compression_level raw) in
  Ok (mkEndpointOptions idle pool ttl sweep header level).

Record RawServeOptions := mkRawServe {
  rs_request_timeout_ms : option f64; rs_request_head_timeout_ms : option f64; rs_body_idle_timeout_ms : option f64;
  rs_max_request_body_wire_bytes : option f64; rs_max_request_body_decoded_bytes : option f64;
  rs_max_total_connections : option f64; rs_drain_timeout_ms : option f64
}.
Record AdapterServeOptions := mkServeOptions {
  so_request_timeout_ms : option Z; so_request_head_timeout_ms : option Z; so_body_idle_timeout_ms : option Z;
  so_max_request_body_wire_bytes : option Z; so_max_request_body_decoded_bytes : option Z;
  so_max_total_connections : option Z; so_drain_timeout_ms : option Z
}.

Definition coerce_serve_options (raw : RawServeOptions) : Result AdapterServeOptions AdapterInputError :=
  let? request := opt_check (fun v => safe_f64_to_u64 v "requestTimeout" MAX_SERVE_TIMEOUT_MS) (rs_request_timeout_ms raw) in
  let? head := opt_check (fun v => safe_f64_to_u64 v "requestHeadTimeout" MAX_SERVE_TIMEOUT_MS) (rs_request_head_timeout_ms raw) in
  let? idle := opt_check (fun v => safe_f64_to_u64 v "bodyIdleTimeout" MAX_SERVE_TIMEOUT_MS) (rs_body_idle_timeout_ms raw) in
  let? wire := opt_check (fun v => safe_f64_to_usize v "maxRequestBodyWireBytes" MAX_BODY_BYTES)
                 (rs_max_request_body_wire_bytes raw) in
  let? decoded := opt_check (fun v => safe_f64_to_usize v "maxRequestBodyDecodedBytes" MAX_BODY_BYTES)
                    (rs_max_request_body_decoded_bytes raw) in
  let? total := opt_check (fun v => safe_f64_to_usize v "maxTotalConnections" MAX_TOTAL_CONNECTIONS)
                  (rs_max_total_connections raw) in
  let? drain := opt_check (fun v => safe_f64_to_u64 v "drainTimeout" MAX_TIMEOUT_MS) (rs_drain_timeout_ms raw) in
  Ok (mkServeOptions request head idle wire decoded total drain).

End numbers.

(** ** Request delivery *)

Record DeliverableRequest := mkDeliverable {
  dr_req_handle : Z; dr_req_body_handle : Z; dr_res_body_handle : Z; dr_is_bidi : bool;
  dr_method : string; dr_url : string; dr_headers : list (list string); dr_remote_node_id : string
}.

Definition from_payload (payload : RequestPayload) : DeliverableRequest :=
  mkDeliverable (req_handle payload) (req_body_handle payload) (res_body_handle payload) (is_bidi payload)
    (pl_method payload) (pl_url payload) ((fun h => [h.1; h.2]) <$> pl_headers payload) (pl_remote_node_id payload).

Definition UNDELIVERABLE_STATUS : Z := 503.
Definition UNDELIVERABLE_HEADERS : list (string * string) := [("content-length", "0")].
Definition reject_undeliverable : ResponseHeadEntry := mkHead UNDELIVERABLE_STATUS UNDELIVERABLE_HEADERS.

Section deliver.
Context {K : Type} {M : Type -> Type} `{SlotMap K M} {C : Type -> Type} `{Mpsc C}.
Context (status_ok : Z -> bool) (header_name_ok header_value_ok : string -> bool) (debug_str : string -> string).

#[local] Abbreviation world := (World M C).

Definition send_undeliverable_rejection (req_handle : Z) (w : world) : Result unit CoreError * world :=
  respond status_ok header_name_ok header_value_ok debug_str req_handle
    (status reject_undeliverable) (headers reject_undeliverable) w.

(** The transport ([RequestTransport]) takes the request or refuses it; [T] is its state. *)
Definition deliver_request {T} (deliver : DeliverableRequest -> T -> Result unit string * T)
  (payload : RequestPayload) (t : T) (w : world) : T * world :=
  let req := from_payload payload in
  match deliver req t with
  | (Ok _, t) => (t, w)
  | (Err _, t) =>
      let w := (send_undeliverable_rejection (dr_req_handle req) w).2 in
      (t, (finish_body (dr_res_body_handle req) w).2)
  end.

End deliver.
