(* ===== verification/HostAdapterProps.v ===== *)
(** * Properties of the host adapter layer *)

From stdpp Require Import base numbers list strings gmap fin_maps pretty.
From Stdlib Require Import ZArith Lia Strings.Ascii.
From S2P Require Import Prelude Text Errors Extern BodyChannel Handles HandlesFacts Dispatcher DispatcherProps HostAdapter.

Open Scope string_scope.
Open Scope list_scope.

(** ** Numbers *)

(** The number is the integer [n]; both zeros are. *)
Definition is_integer (v : f64) (n : Z) : Prop :=
  match v with
  | Finite s m e =>
      (s = false \/ m = 0%N) /\
      (if (0 <=? e)%Z then n = (Z.of_N m * 2 ^ e)%Z else Z.of_N m = (n * 2 ^ (- e))%Z)
  | _ => False
  end.

(** An option is absent on both sides or an integer up to [max]. *)
Definition number_ok (max : Z) (o : option f64) (r : option Z) : Prop :=
  match o, r with
  | Some v, Some n => is_integer v n /\ (0 <= n <= max)%Z
  | None, None => True
  | _, _ => False
  end.
Lemma number_ok_bounds max o r n : number_ok max o r -> r = Some n -> (0 <= n <= max)%Z.
Proof. destruct o, r; cbn; naive_solver. Qed.

Section numbers.
Context (show_f64 : f64 -> string).

(** The part that does not look at the sign. *)
Lemma magnitude_spec m e (max : Z) :
  has_fract (Finite false m e) = false -> gt_max (Finite false m e) max = false ->
  is_integer (Finite false m e) (trunc (Finite false m e)) /\ (0 <= trunc (Finite false m e) <= max)%Z.
Proof.
  cbn. intros Hf Hg. destruct (0 <=? e)%Z eqn:Ee; bool_to_prop.
  - assert (0 < 2 ^ e)%Z by (apply Z.pow_pos_nonneg; lia). split; [split; [by left|done]|lia].
  - assert (0 < 2 ^ (- e))%Z as Hd by (apply Z.pow_pos_nonneg; lia).
    pose proof (Z.div_mod (Z.of_N m) (2 ^ (- e)) ltac:(lia)) as Hm.
    split; [split; [by left|lia]|]. split; [apply Z.div_pos; lia|]. apply Z.div_le_upper_bound; lia.
Qed.

Lemma safe_f64_spec v field max n :
  (0 <= max)%Z ->
  safe_f64_to_u64 show_f64 v field max = Ok n <-> is_integer v n /\ (0 <= n <= max)%Z.
Proof.
  intros Hmax. unfold safe_f64_to_u64. destruct v as [|s|s m e]; [naive_solver|destruct s; naive_solver|].
  cbn [is_nan is_infinite orb lt_zero].
  destruct (s && negb (m =? 0)%N) eqn:Es.
  { apply andb_true_iff in Es as [-> Em%negb_true_iff]. apply N.eqb_neq in Em. cbn. naive_solver. }
  assert (s = false \/ m = 0%N) as Hs by (destruct s; [right|by left]; cbn in Es; by apply negb_false_iff, N.eqb_eq in Es).
  split.
  - destruct (has_fract (Finite s m e)) eqn:Hf; [done|]. destruct (gt_max (Finite s m e) max) eqn:Hg; [done|]. intros [= <-].
    assert (gt_max (Finite false m e) max = false) as Hg'.
    { destruct Hs as [->| ->]; [done|]. cbn. destruct (0 <=? e)%Z; bool_to_prop; [lia|].
      apply Z.ltb_ge. assert (0 <= 2 ^ (- e))%Z by (apply Z.pow_nonneg; lia). nia. }
    destruct (magnitude_spec m e max Hf Hg') as [[_ H1] H2]. done.
  - intros [[_ Hn] Hr].
    assert (has_fract (Finite s m e) = false /\ gt_max (Finite s m e) max = false /\ trunc (Finite s m e) = n) as (-> & -> & ->); [|done].
    cbn. destruct (0 <=? e)%Z eqn:Ee; bool_to_prop.
    + split; [done|]. split; [|by rewrite Hn]. destruct s; cbn; [done|]. apply Z.ltb_ge. lia.
    + assert (0 < 2 ^ (- e))%Z as Hd by (apply Z.pow_pos_nonneg; lia). rewrite Hn, Z.mod_mul, Z.div_mul by lia.
      split; [done|]. split; [|done]. destruct s; cbn; [done|]. apply Z.ltb_ge. nia.
Qed.

Lemma opt_check_number o field max r :
  (0 <= max)%Z ->
  opt_check (fun v => safe_f64_to_u64 show_f64 v field max) o = Ok r <-> number_ok max o r.
Proof.
  intros Hmax. destruct o as [v|]; cbn; [|destruct r; naive_solver].
  destruct (safe_f64_to_u64 show_f64 v field max) as [n|e] eqn:E.
  - apply safe_f64_spec in E; [|done]. destruct r as [n'|]; cbn; [|naive_solver]. split; [by intros [= <-]|].
    intros H. apply (safe_f64_spec v field) in E; [|done]. apply (safe_f64_spec v field) in H; [|done]. congruence.
  - destruct r as [n'|]; cbn; [|naive_solver]. split; [done|]. intros H. apply (safe_f64_spec v field) in H; [|done]. congruence.
Qed.
End numbers.

(** ** Strings *)

(** Not empty, at most [max] bytes and no zero byte. *)
Definition bounded (max : Z) (s : string) : Prop := (0 < str_len s <= max)%Z /\ contains_zero s = false.

Lemma bounded_string_spec field s max : validate_bounded_string field s max = Ok tt <-> bounded max s.
Proof.
  unfold validate_bounded_string, bounded. pose proof (str_len_nonneg s).
  destruct (str_len s =? 0)%Z eqn:E0; bool_to_prop; [split; [done|lia]|].
  destruct (max <? str_len s)%Z eqn:E1; bool_to_prop; [split; [done|lia]|].
  destruct (contains_zero s); [naive_solver|]. split; [intros _; lia|done].
Qed.

Lemma unit_result {E} (r : Result unit E) : (exists e, r = Err e) \/ r = Ok tt.
Proof. destruct r as [[]|e]; eauto. Qed.

Definition node_id_ok (s : string) : Prop :=
  bounded MAX_NODE_ID_LEN s /\ (starts_with "{" (trim_start s) = true \/ is_base32 s = true).

Lemma validate_node_id_spec s : validate_node_id s = Ok tt <-> node_id_ok s.
Proof.
  unfold validate_node_id, node_id_ok. rewrite <- (bounded_string_spec "nodeId").
  destruct (unit_result (validate_bounded_string "nodeId" s MAX_NODE_ID_LEN)) as [[e ->]| ->]; [naive_solver|].
  destruct (starts_with "{" (trim_start s)); [naive_solver|]. destruct (is_base32 s); naive_solver.
Qed.

Definition addrs_ok (o : option (list string)) : Prop :=
  match o with
  | Some addrs => (len addrs <= MAX_DIRECT_ADDRS)%Z /\ Forall (bounded MAX_DIRECT_ADDR_LEN) addrs
  | None => True
  end.

Lemma validate_addrs_spec o : validate_direct_addrs o = Ok tt <-> addrs_ok o.
Proof.
  destruct o as [addrs|]; [|done]. cbn. destruct (MAX_DIRECT_ADDRS <? len addrs)%Z eqn:E; bool_to_prop; [split; [done|lia]|].
  assert (validate_addr_list addrs = Ok tt <-> Forall (bounded MAX_DIRECT_ADDR_LEN) addrs) as ->; [|naive_solver lia].
  clear E. induction addrs as [|a addrs IH]; cbn; [split; [constructor|done]|]. rewrite list.Forall_cons, <- (bounded_string_spec "directAddr").
  destruct (unit_result (validate_bounded_string "directAddr" a MAX_DIRECT_ADDR_LEN)) as [[e ->]| ->]; naive_solver.
Qed.

Definition row (h : string * string) : list string := [h.1; h.2].
Definition pair_ok (h : string * string) : Prop := bounded MAX_HEADER_NAME_LEN h.1 /\ bounded MAX_HEADER_VALUE_LEN h.2.

Lemma validate_rows_spec rows l : validate_rows rows = Ok l <-> rows = row <$> l /\ Forall pair_ok l.
Proof.
  revert l. induction rows as [|r rows IH]; intros l; cbn.
  { destruct l; cbn; split; [done..| |]; naive_solver. }
  destruct r as [|name [|value [|x r]]]; [destruct l; cbn; split; naive_solver..| |destruct l; cbn; split; naive_solver].
  pose proof (bounded_string_spec "headerName" name MAX_HEADER_NAME_LEN) as Hn.
  pose proof (bounded_string_spec "headerValue" value MAX_HEADER_VALUE_LEN) as Hv.
  assert (forall l, (([name; value] :: rows) = row <$> l /\ Forall pair_ok l) <->
    exists l', l = (name, value) :: l' /\ pair_ok (name, value) /\ rows = row <$> l' /\ Forall pair_ok l') as Hl.
  { intros [|[n v] l']; cbn; [split; [naive_solver|by intros (? & ? & _)]|]. rewrite list.Forall_cons. split.
    - intros [[= -> -> ->] [? ?]]. eauto 10.
    - intros (l1 & [= -> -> ->] & ? & -> & ?). done. }
  rewrite Hl. clear Hl.
  destruct (unit_result (validate_bounded_string "headerName" name MAX_HEADER_NAME_LEN)) as [[e En]|En]; rewrite En in *.
  { split; [done|]. intros (l' & _ & [? _] & _). naive_solver. }
  destruct (unit_result (validate_bounded_string "headerValue" value MAX_HEADER_VALUE_LEN)) as [[e Ev]|Ev]; rewrite Ev in *.
  { split; [done|]. intros (l' & _ & [_ ?] & _). naive_solver. }
  assert (pair_ok (name, value)) as Hp by (split; naive_solver).
  destruct (validate_rows rows) as [l'|e] eqn:E.
  - split; [intros [= <-]; exists l'; split; [done|]; split; [done|by apply IH]|]. intros (l1 & -> & _ & Hr).
    apply IH in Hr. by injection Hr as ->.
  - split; [done|]. intros (l1 & _ & _ & Hr). apply IH in Hr. done.
Qed.

Definition headers_rows_ok (rows : list (list string)) (l : list (string * string)) : Prop :=
  (len rows <= MAX_HEADER_COUNT)%Z /\ rows = row <$> l /\ Forall pair_ok l.

Lemma validate_header_rows_spec rows l : validate_header_rows rows = Ok l <-> headers_rows_ok rows l.
Proof.
  unfold validate_header_rows, headers_rows_ok. destruct (MAX_HEADER_COUNT <? len rows)%Z eqn:E; bool_to_prop; [split; [done|lia]|].
  rewrite validate_rows_spec. naive_solver lia.
Qed.

(** ** Option records *)

Section options.
Context (show_f64 : f64 -> string).

(** The fetch options of a host call are accepted exactly when every one of
    them is within its limit, and what comes out is what went in: the node id is
    a ticket or lower-case base32 of at most 128 bytes, URL, method, addresses
    and headers are within their bounds and free of zero bytes, the header rows
    are the pairs, and a number is the non-negative integer it stands for, never
    a rounded, wrapped or saturated one. *)
Theorem fetch_options_exact (raw : RawFetchOptions) (o : FetchOptions) :
  coerce_fetch_options show_f64 raw = Ok o <->
  (fo_node_id o = rf_node_id raw /\ node_id_ok (fo_node_id o)) /\
  (fo_url o = rf_url raw /\ bounded MAX_URL_LEN (fo_url o)) /\
  (fo_method o = rf_method raw /\ bounded MAX_METHOD_LEN (fo_method o)) /\
  (fo_direct_addrs o = rf_direct_addrs raw /\ addrs_ok (fo_direct_addrs o)) /\
  headers_rows_ok (rf_headers raw) (fo_headers o) /\
  number_ok MAX_TIMEOUT_MS (rf_timeout_ms raw) (fo_timeout_ms o) /\
  number_ok MAX_RESPONSE_BODY_BYTES (rf_max_response_body_bytes raw) (fo_max_response_body_bytes o).
Proof.
  destruct raw as [id url method addrs rows t b], o as [id' url' method' addrs' hs t' b']. unfold coerce_fetch_options. cbn.
  rewrite <- validate_node_id_spec, <- (bounded_string_spec "url"), <- (bounded_string_spec "method"), <- validate_addrs_spec,
    <- validate_header_rows_spec, <- (opt_check_number show_f64 t "timeoutMs"), <- (opt_check_number show_f64 b "maxResponseBodyBytes") by done.
  rewrite !let_ok. split.
  - intros ([] & H1 & ([] & H2 & H)%let_ok). apply let_ok in H as ([] & H3 & ([] & H4 & H)%let_ok).
    apply let_ok in H as (hs1 & H5 & (t1 & H6 & H)%let_ok). apply let_ok in H as (b1 & H7 & H). simplify_eq. done.
  - intros ((-> & H1) & (-> & H2) & (-> & H3) & (-> & H4) & H5 & H6 & H7).
    exists tt. split; [done|]. apply let_ok. exists tt. split; [done|]. unfold validate_method. rewrite H3, H4, H5, H6.
    unfold safe_f64_to_usize. by rewrite H7.
Qed.

Lemma coerce_endpoint_spec (re : RawEndpointOptions) (eo : EndpointOptions) :
  coerce_endpoint_options show_f64 re = Ok eo <->
   number_ok MAX_TIMEOUT_MS (re_idle_timeout_ms re) (eo_idle_timeout_ms eo) /\
   number_ok MAX_TIMEOUT_MS (re_pool_idle_timeout_ms re) (eo_pool_idle_timeout_ms eo) /\
   number_ok 300000 (re_handle_ttl_ms re) (eo_handle_ttl_ms eo) /\
   number_ok MAX_TIMEOUT_MS (re_sweep_interval_ms re) (eo_sweep_interval_ms eo) /\
   number_ok MAX_HEADER_BYTES (re_max_header_bytes re) (eo_max_header_bytes eo) /\
   eo_compression_level eo = re_compression_level re /\
   (forall l, re_compression_level re = Some l -> (0 <= l)%Z).
Proof.
  destruct re as [a1 a2 a3 a4 a5 lvl], eo as [b1 b2 b3 b4 b5 lvl']. unfold coerce_endpoint_options. cbn.
  rewrite <- (opt_check_number show_f64 a1 "idleTimeout"), <- (opt_check_number show_f64 a2 "poolIdleTimeoutMs"),
    <- (opt_check_number show_f64 a3 "handleTtl"), <- (opt_check_number show_f64 a4 "sweepInterval"),
    <- (opt_check_number show_f64 a5 "maxHeaderBytes") by done.
  assert (opt_check validate_compression_level lvl = Ok lvl' <-> lvl' = lvl /\ (forall l, lvl = Some l -> (0 <= l)%Z)) as Hl.
  { destruct lvl as [l|]; cbn; [|destruct lvl'; naive_solver]. unfold validate_compression_level.
    destruct (l <? 0)%Z eqn:E; bool_to_prop; [split; [done|]; intros [_ H]; specialize (H l eq_refl); lia|]. split.
    - intros [= <-]. split; [done|]. intros ? [= <-]. lia.
    - by intros [-> _]. }
  rewrite <- Hl. unfold safe_f64_to_usize, MAX_TIMEOUT_MS. rewrite !let_ok. split.
  - intros (x1 & H1 & H). do 4 (apply let_ok in H as (? & ? & H)). apply let_ok in H as (? & ? & H). by simplify_eq.
  - intros (H1 & H2 & H3 & H4 & H5 & H6). exists b1. split; [done|]. by rewrite H2, H3, H4, H5, H6.
Qed.

Lemma coerce_serve_spec (rs : RawServeOptions) (so : AdapterServeOptions) :
  coerce_serve_options show_f64 rs = Ok so <->
   number_ok MAX_SERVE_TIMEOUT_MS (rs_request_timeout_ms rs) (so_request_timeout_ms so) /\
   number_ok MAX_SERVE_TIMEOUT_MS (rs_request_head_timeout_ms rs) (so_request_head_timeout_ms so) /\
   number_ok MAX_SERVE_TIMEOUT_MS (rs_body_idle_timeout_ms rs) (so_body_idle_timeout_ms so) /\
   number_ok MAX_BODY_BYTES (rs_max_request_body_wire_bytes rs) (so_max_request_body_wire_bytes so) /\
   number_ok MAX_BODY_BYTES (rs_max_request_body_decoded_bytes rs) (so_max_request_body_decoded_bytes so) /\
   number_ok MAX_TOTAL_CONNECTIONS (rs_max_total_connections rs) (so_max_total_connections so) /\
   number_ok MAX_TIMEOUT_MS (rs_drain_timeout_ms rs) (so_drain_timeout_ms so).
Proof.
  destruct rs as [a1 a2 a3 a4 a5 a6 a7], so as [b1 b2 b3 b4 b5 b6 b7]. unfold coerce_serve_options. cbn.
  rewrite <- (opt_check_number show_f64 a1 "requestTimeout"), <- (opt_check_number show_f64 a2 "requestHeadTimeout"),
    <- (opt_check_number show_f64 a3 "bodyIdleTimeout"), <- (opt_check_number show_f64 a4 "maxRequestBodyWireBytes"),
    <- (opt_check_number show_f64 a5 "maxRequestBodyDecodedBytes"), <- (opt_check_number show_f64 a6 "maxTotalConnections"),
    <- (opt_check_number show_f64 a7 "drainTimeout") by done.
  unfold safe_f64_to_usize. rewrite !let_ok. split.
  - intros (x1 & H1 & H). do 6 (apply let_ok in H as (? & ? & H)). by simplify_eq.
  - intros (H1 & H2 & H3 & H4 & H5 & H6 & H7). exists b1. split; [done|]. by rewrite H2, H3, H4, H5, H6, H7.
Qed.

(** The numeric endpoint and serve options are accepted exactly when each is a
    non-negative integer up to its limit, and are then that integer.  In
    particular a handle TTL above 300000 ms (the default) is refused. *)
Theorem endpoint_and_serve_options_exact (re : RawEndpointOptions) (eo : EndpointOptions)
  (rs : RawServeOptions) (so : AdapterServeOptions) :
  (coerce_endpoint_options show_f64 re = Ok eo <->
   number_ok MAX_TIMEOUT_MS (re_idle_timeout_ms re) (eo_idle_timeout_ms eo) /\
   number_ok MAX_TIMEOUT_MS (re_pool_idle_timeout_ms re) (eo_pool_idle_timeout_ms eo) /\
   number_ok 300000 (re_handle_ttl_ms re) (eo_handle_ttl_ms eo) /\
   number_ok MAX_TIMEOUT_MS (re_sweep_interval_ms re) (eo_sweep_interval_ms eo) /\
   number_ok MAX_HEADER_BYTES (re_max_header_bytes re) (eo_max_header_bytes eo) /\
   eo_compression_level eo = re_compression_level re /\
   (forall l, re_compression_level re = Some l -> (0 <= l)%Z)) /\
  (coerce_serve_options show_f64 rs = Ok so <->
   number_ok MAX_SERVE_TIMEOUT_MS (rs_request_timeout_ms rs) (so_request_timeout_ms so) /\
   number_ok MAX_SERVE_TIMEOUT_MS (rs_request_head_timeout_ms rs) (so_request_head_timeout_ms so) /\
   number_ok MAX_SERVE_TIMEOUT_MS (rs_body_idle_timeout_ms rs) (so_body_idle_timeout_ms so) /\
   number_ok MAX_BODY_BYTES (rs_max_request_body_wire_bytes rs) (so_max_request_body_wire_bytes so) /\
   number_ok MAX_BODY_BYTES (rs_max_request_body_decoded_bytes rs) (so_max_request_body_decoded_bytes so) /\
   number_ok MAX_TOTAL_CONNECTIONS (rs_max_total_connections rs) (so_max_total_connections so) /\
   number_ok MAX_TIMEOUT_MS (rs_drain_timeout_ms rs) (so_drain_timeout_ms so)).
Proof. split; [apply coerce_endpoint_spec|apply coerce_serve_spec]. Qed.

End options.

(** ** Error codes *)

(** No two error kinds share a code in the JSON envelope: a binding that reads
    the code knows which error of the core, or which failed check, it was. *)
Theorem error_codes_distinct (c c' : ErrorCode) (e e' : AdapterInputError) :
  (core_code c = core_code c' -> c = c') /\
  core_code c <> adapter_code e /\
  (adapter_code e = adapter_code e' ->
   match e, e' with
   | InvalidNodeId, InvalidNodeId | InvalidUrl, InvalidUrl => True
   | InputTooLarge _ _ _, InputTooLarge _ _ _ | InvalidEncoding _, InvalidEncoding _ => True
   | InvalidArgument _ _, InvalidArgument _ _ => True
   | _, _ => False
   end).
Proof. split; [by destruct c, c'|]. split; [by destruct c, e|]. by destruct e, e'. Qed.

(** ** Delivery *)

Section deliver.
Context {K : Type} {M : Type -> Type} `{HSM : SlotMap K M} `{Countable K} `{HSL : !SlotMapLaws K M}.
Context {C : Type -> Type} `{HMP : Mpsc C} `{HML : !MpscLaws C}.
Context (hv_to_str : Bytes -> option string).
Context (status_ok : Z -> bool) (header_name_ok header_value_ok : string -> bool) (debug_str : string -> string).
#[local] Abbreviation world := (World M C).
#[local] Abbreviation respond := (respond status_ok header_name_ok header_value_ok debug_str).
#[local] Abbreviation dispatch_start := (dispatch_start hv_to_str).
#[local] Abbreviation dispatch_poll := (dispatch_poll status_ok header_name_ok header_value_ok).
#[local] Abbreviation deliver_request := (deliver_request status_ok header_name_ok header_value_ok debug_str).

(** [respond] leaves the writers and the body channels alone. *)
Lemma respond_frame h st hs (w : world) :
  writers (store (respond h st hs w).2) = writers (store w) /\ hp_chans (heap (respond h st hs w).2) = hp_chans (heap w).
Proof.
  unfold Dispatcher.respond. destruct (negb (status_ok st)); [done|].
  destruct (check_headers _ _ _ hs); [|done]. unfold take_req_sender. destruct (sm_remove _ _) as [e reg]. cbn.
  destruct (value <$> e) as [c|]; [|done]. unfold oneshot_send. cbn. destruct (hp_heads (heap w) !! c) as [o|]; [|done].
  by destruct (os_rx o).
Qed.

(** The response channel of a dispatch is new, with its writer in the store. *)
Lemma dispatch_alloc_channel now (w w' : world) rb sb pump pd :
  dispatch_alloc now w = (inr (rb, sb, pump, pd), w') ->
  hp_chans (heap w') !! rd_chan (pd_res_reader pd) = Some (make_body_channel_with (channel_capacity (config (store w)))).
Proof.
  unfold dispatch_alloc. simpl. unfold guard_insert_reader, insert_reader. simpl.
  destruct (insert_checked now (readers (store w)) _ _) as [[h1|e1] r1]; simpl; [|by intros].
  unfold guard_insert_writer, insert_writer. simpl.
  destruct (insert_checked now (writers (store w)) _ _) as [[h2|e2] r2]; simpl; [|by intros].
  unfold guard_allocate_req_handle, allocate_req_handle. simpl.
  destruct (insert_checked now (request_heads (store w)) _ _) as [[h3|e3] r3]; simpl; [|by intros].
  intros [= <- <- <- <- <-]. cbn. by rewrite lookup_insert_eq.
Qed.

Lemma head_guard_frame h (w : world) :
  writers (store (req_head_guard_drop h w)) = writers (store w) /\ hp_chans (heap (req_head_guard_drop h w)) = hp_chans (heap w).
Proof. unfold req_head_guard_drop, take_req_sender. destruct (sm_remove _ _) as [e reg]. cbn. by destruct (value <$> e). Qed.

Lemma finish_body_drops h (w : world) t :
  sm_view (writers (store w)) !! handle_to_key h = Some t ->
  exists reg, finish_body h w = (Ok tt, drop_writer (value t) (upd_store (set_writers reg) w)) /\
              sm_view reg = delete (handle_to_key h) (sm_view (writers (store w))).
Proof.
  intros Ht. unfold finish_body. pose proof (sm_view_remove_val _ (handle_to_key h) (writers (store w))) as Hv.
  pose proof (sm_view_remove _ (handle_to_key h) (writers (store w))) as Hd.
  destruct (sm_remove _ _) as [e reg]; simpl in *. rewrite Hv, Ht. eauto.
Qed.

(** A dispatch under way: its response writer is in the store, on a new channel. *)
Lemma dispatch_writer now d req remote (w w1 : world) pl pump pd :
  dispatch_start now d req remote w = (inr (pl, pump, pd), w1) ->
  let k := handle_to_key (res_body_handle pl) in
  sm_view (writers (store w)) !! k = None /\
  (exists timeout, sm_view (writers (store w1)) =
     <[k := timed_new now (mkWriter (rd_chan (pd_res_reader pd)) timeout)]> (sm_view (writers (store w)))) /\
  hp_chans (heap w1) !! rd_chan (pd_res_reader pd) = Some (make_body_channel_with (channel_capacity (config (store w)))).
Proof.
  intros Hd. apply dispatch_start_inr in Hd as (l & rb & sb & _ & Ea & ->). pose proof (dispatch_alloc_channel _ _ _ _ _ _ _ Ea) as Hch.
  pose proof (dispatch_alloc_spec now w) as Hs. rewrite Ea in Hs.
  destruct Hs as (k1 & k2 & k3 & c1 & c2 & c3 & _ & Esb & _ & _ & Erd & _ & _ & N2 & _ & _ & V2 & _).
  cbn. unfold handle_to_key. rewrite Esb. unfold key_to_handle. rewrite from_as_ffi, Erd in *. eauto.
Qed.

(** The rejection resolves the dispatch, whatever happens to writers and bodies. *)
Lemma rejection_reaches_dispatch now d req remote (w w1 : world) pl pump pd :
  dispatch_start now d req remote w = (inr (pl, pump, pd), w1) ->
  status_ok 503 = true -> headers_ok header_name_ok header_value_ok [("content-length", "0")] = true ->
  let w2 := (send_undeliverable_rejection status_ok header_name_ok header_value_ok debug_str (req_handle pl) w1).2 in
  writers (store w2) = writers (store w1) /\ hp_chans (heap w2) = hp_chans (heap w1) /\
  forall w' : world, request_heads (store w') = request_heads (store w2) -> hp_heads (heap w') = hp_heads (heap w2) ->
    exists w3, dispatch_poll pd w' =
        (Ready (mkResponse 503 [("content-length", "0")] (BodyReading (pd_res_reader pd))), w3) /\
      sm_view (request_heads (store w3)) = sm_view (request_heads (store w)) /\
      writers (store w3) = writers (store w') /\ hp_chans (heap w3) = hp_chans (heap w').
Proof.
  intros Hd Hst Hhs w2. apply dispatch_start_inr in Hd as (l & rb & sb & _ & Ea & ->).
  pose proof (dispatch_alloc_spec now w) as Hs. rewrite Ea in Hs.
  destruct Hs as (k1 & k2 & k3 & c1 & c2 & c3 & _ & _ & E3 & _ & _ & Ehd & _ & _ & N3 & _ & _ & V3 & _ & _ & _ & Ho).
  assert (handle_to_key (pd_req_handle pd) = k3) as Hk3 by (rewrite E3; apply from_as_ffi).
  destruct (respond_frame (pd_req_handle pd) 503 [("content-length", "0")] w1) as [Fw Fc].
  destruct (respond_waiting status_ok header_name_ok header_value_ok debug_str (pd_req_handle pd) 503 [("content-length", "0")] w1
    (timed_new now c3) (mkOneshot None true true)) as (w2' & Er & Ev2 & Eo2); try done; [by rewrite Hk3, V3, lookup_insert_eq|].
  assert (w2 = w2') as -> by (subst w2; change ((respond (pd_req_handle pd) 503 [("content-length", "0")] w1).2 = w2'); by rewrite Er).
  rewrite Er in Fw, Fc. split; [done|]. split; [done|]. intros w' Hrh Hhd.
  unfold Dispatcher.dispatch_poll. rewrite Hhd, Ehd. cbn in Eo2. rewrite Eo2. cbn -[headers_ok]. rewrite Hst, Hhs.
  eexists. split; [done|]. destruct (head_guard_frame (pd_req_handle pd) (drop_head_rx c3 w')) as [Gw Gc].
  rewrite req_head_guard_drop_view, Gw, Gc. cbn. split; [|done].
  by rewrite Hrh, Ev2, Hk3, V3, delete_insert_id, delete_id.
Qed.

(** C30. A request that cannot be delivered is answered and ended at once: the
    dispatch that waits for it resolves to 503 with an empty body (its channel
    has no writer and nothing queued, so it does not hang until the drain
    timeout), and the request head and the response writer are both released.
    A request that is delivered leaves the store to the runtime. *)
Theorem undeliverable_request_fails_closed {T} now d req remote (w w1 : world) pl pump pd
  (deliver : DeliverableRequest -> T -> Result unit string * T) t :
  dispatch_start now d req remote w = (inr (pl, pump, pd), w1) ->
  status_ok 503 = true -> headers_ok header_name_ok header_value_ok [("content-length", "0")] = true ->
  match deliver (from_payload pl) t with
  | (Ok _, t') => deliver_request deliver pl t w1 = (t', w1)
  | (Err _, t') =>
      exists w2 w3 b, deliver_request deliver pl t w1 = (t', w2) /\
        dispatch_poll pd w2 =
          (Ready (mkResponse 503 [("content-length", "0")] (BodyReading (pd_res_reader pd))), w3) /\
        sm_view (request_heads (store w3)) = sm_view (request_heads (store w)) /\
        sm_view (writers (store w3)) = sm_view (writers (store w)) /\
        hp_chans (heap w3) !! rd_chan (pd_res_reader pd) = Some b /\
        cv_buf (bview b) = [] /\ cv_senders (bview b) = 0
  end.
Proof.
  intros Hd Hst Hhs. unfold HostAdapter.deliver_request. destruct (deliver (from_payload pl) t) as [[u|e] t']; [done|].
  destruct (dispatch_writer _ _ _ _ _ _ _ _ _ Hd) as (N2 & (timeout & V2) & Hch).
  destruct (rejection_reaches_dispatch _ _ _ _ _ _ _ _ _ Hd Hst Hhs) as (Fw & Fc & Hpoll).
  cbn [from_payload dr_req_handle dr_res_body_handle]. set (w2 := (send_undeliverable_rejection _ _ _ _ _ _).2) in *.
  destruct (finish_body_drops (res_body_handle pl) w2 (timed_new now (mkWriter (rd_chan (pd_res_reader pd)) timeout))) as (reg & Ef & Hreg).
  { by rewrite Fw, V2, lookup_insert_eq. }
  rewrite Ef. cbn [snd]. destruct (Hpoll (drop_writer (value (timed_new now (mkWriter (rd_chan (pd_res_reader pd)) timeout)))
    (upd_store (set_writers reg) w2))) as (w3 & Ep & Hh & Hw & Hc); [done|done|].
  eexists _, w3, _. split; [done|]. split; [exact Ep|]. split; [done|]. rewrite Hw, Hc. cbn.
  split; [by rewrite Hreg, Fw, V2, delete_insert_id|]. rewrite lookup_alter_eq, Fc, Hch. split; [done|].
  unfold bview, make_body_channel_with. cbn. rewrite chan_view_drop_tx, chan_view_new. done.
Qed.
End deliver.

(** A transport that refuses everything. *)
Definition refuses (req : DeliverableRequest) (t : unit) : Result unit string * unit := (Err "queue full", t).

Lemma undeliverable_request_witness :
  exists w2 w3 b,
    deliver_request (fun _ => true) (fun _ => true) (fun _ => true) (fun s => s) refuses demo_payload tt demo_out.2 = (tt, w2) /\
    dispatch_poll (fun _ => true) (fun _ => true) (fun _ => true) demo_pd w2 =
      (Ready (mkResponse 503 [("content-length", "0")] (BodyReading (pd_res_reader demo_pd))), w3) /\
    hp_chans (heap w3) !! rd_chan (pd_res_reader demo_pd) = Some b /\ cv_senders (bview b) = 0.
Proof.
  destruct (undeliverable_request_fails_closed demo_text (fun _ => true) (fun _ => true) (fun _ => true) (fun s => s)
    5 demo_dispatcher demo_req "alice" demo_world demo_out.2 demo_payload demo_pump demo_pd refuses tt
    demo_dispatched eq_refl eq_refl) as (w2 & w3 & b & E1 & E2 & _ & _ & E3 & _ & E4).
  by exists w2, w3, b.
Defined.

(** ** Tickets *)

(** A ticket with one relay and one direct address, as [node_ticket] prints it. *)
Definition demo_ticket : string :=
  let q t := dquote +:+ t +:+ dquote in
  "{" +:+ member "id" (q "aaaaaaaaaaaaaaaaaaaaaaaaaaaaaaaaaaaaaaaaaaaaaaaaaaaa") +:+ "," +:+
  member "addrs" ("[" +:+ q "https://euw1-1.relay.iroh.network./" +:+ "," +:+ q "192.168.1.10:51820" +:+ "]") +:+ "}".

(** It is a ticket and still refused, by the limit for node ids. *)
Example demo_ticket_refused :
  starts_with "{" (trim_start demo_ticket) = true /\
  validate_node_id demo_ticket = Err (InputTooLarge "nodeId" 128 130).
Proof. by vm_compute. Qed.
