(* ===== verification/DenoServe.v ===== *)
(** * Deno serve bridge (iroh-http-deno: serve_registry.rs, dispatch.rs, lib.rs)

    Requests wait in a bounded queue per endpoint; a callback wakes the
    JavaScript loop, which takes them one by one with a call that does not
    block.  A queue is shared by the registry and by the calls that have looked
    it up, so queues live in a list and the registry holds their numbers. *)

From stdpp Require Import base numbers list strings gmap fin_maps.
From Stdlib Require Import ZArith Lia.
From S2P Require Import Prelude Errors Extern BodyChannel Handles Dispatcher HostAdapter.

Open Scope string_scope.
Open Scope list_scope.

Definition QUEUE_CAPACITY : nat := 256.
Definition I32_MIN : Z := - 2147483648.
Definition I32_MAX : Z := 2147483647.
(** The conversion [as i32] of a length. *)
Definition as_i32 (n : Z) : Z := (n + 2147483648) mod 4294967296 - 2147483648.

Record ConnectionEvent := mkConnEvent { peer_id : string; connected : bool }.

Section deno.
Context {C : Type -> Type} `{Mpsc C}.
(** [mpsc::Receiver::is_empty], and a request as JSON text. *)
Context (rx_is_empty : C DeliverableRequest -> bool) (encode : DeliverableRequest -> Bytes).

(** [ServeQueue]; [q_rx_locked]: a call holds the lock of [rx]; a waker is its token. *)
Record ServeQueue := mkQueue {
  q_chan : C DeliverableRequest;
  q_conn : C ConnectionEvent;
  q_rx_locked : bool;
  q_shutdown : bool;
  q_waker : option Z
}.

(** [wakes]: the tokens the callbacks were called with. *)
Record Deno := mkDeno { registry : gmap Z nat; queues : list ServeQueue; wakes : list Z }.

Definition set_chan c q := mkQueue c (q_conn q) (q_rx_locked q) (q_shutdown q) (q_waker q).
Definition set_conn c q := mkQueue (q_chan q) c (q_rx_locked q) (q_shutdown q) (q_waker q).
Definition set_rx_locked l q := mkQueue (q_chan q) (q_conn q) l (q_shutdown q) (q_waker q).
Definition set_shutdown s q := mkQueue (q_chan q) (q_conn q) (q_rx_locked q) s (q_waker q).
Definition set_waker w q := mkQueue (q_chan q) (q_conn q) (q_rx_locked q) (q_shutdown q) w.

Definition upd_queue (n : nat) (f : ServeQueue -> ServeQueue) (d : Deno) : Deno :=
  mkDeno (registry d) (alter f n (queues d)) (wakes d).
Definition call_back (token : Z) (d : Deno) : Deno := mkDeno (registry d) (queues d) (wakes d ++ [token]).

(** ** One queue *)

Definition queue_new : ServeQueue :=
  mkQueue (mpsc_channel QUEUE_CAPACITY) (mpsc_channel QUEUE_CAPACITY) false false None.

(** [wake_request_loop]: the token it calls back with. *)
Definition wake_request_loop (q : ServeQueue) : option Z := q_waker q.

(** [set_request_ready_waker]: the queue, and whether it wakes at once. *)
Definition set_request_ready_waker (token : Z) (q : ServeQueue) : ServeQueue * bool :=
  let q := set_waker (Some token) q in
  let request_waiting := if q_rx_locked q then true else negb (rx_is_empty (q_chan q)) in
  (q, q_shutdown q || request_waiting).

(** [DenoTransport::deliver] after the lookup: the check, then the send. *)
Definition deliver_check (q : ServeQueue) : Result unit string :=
  if q_shutdown q then Err "deno serve shutdown" else Ok tt.
Definition deliver_send (req : DeliverableRequest) (q : ServeQueue) : Result unit string * ServeQueue :=
  match try_send req (q_chan q) with
  | (Sent, c) => (Ok tt, set_chan c q)
  | (_, c) => (Err "deno serve queue full", set_chan c q)
  end.

(** What [iroh_http_try_next_request] does with the queue: the value it returns,
    and the bytes it has written. *)
Definition try_next (out_cap : Z) (q : ServeQueue) : Z * option Bytes * ServeQueue :=
  if q_shutdown q then ((-1)%Z, None, q)
  else if q_rx_locked q then (0%Z, None, q)
  else match try_recv (q_chan q) with
       | (Received event, c) =>
           let encoded := encode event in
           let n := len encoded in
           (if (out_cap <? n)%Z
            then (if (n <=? I32_MAX)%Z then - n else I32_MIN)%Z
            else as_i32 n,
            if (out_cap <? n)%Z then None else Some encoded,
            set_chan c q)
       | (RecvEmpty, c) => (0%Z, None, set_chan c q)
       | (RecvDisconnected, c) => ((-1)%Z, None, set_chan c q)
       end.

(** [next_request] once it has its queue: [None] is the end of the stream; while
    it waits it holds the lock. *)
Definition next_request_poll (holds : bool) (q : ServeQueue) : Poll (option DeliverableRequest) * bool * ServeQueue :=
  if q_shutdown q then (Ready None, false, if holds then set_rx_locked false q else q)
  else if negb holds && q_rx_locked q then (Pending, false, q)
  else match try_recv (q_chan q) with
       | (Received x, c) => (Ready (Some x), false, set_rx_locked false (set_chan c q))
       | (RecvEmpty, c) => (Pending, true, set_rx_locked true (set_chan c q))
       | (RecvDisconnected, c) => (Ready None, false, set_rx_locked false (set_chan c q))
       end.

(** ** The registry *)

Definition register (h : Z) (d : Deno) : nat * Deno :=
  let n := length (queues d) in
  (n, mkDeno (<[h := n]> (registry d)) (queues d ++ [queue_new]) (wakes d)).

Definition get (h : Z) (d : Deno) : option nat := registry d !! h.

(** [shutdown_tx.send(true)] and [wake_request_loop]. *)
Definition shut_down (n : nat) (d : Deno) : Deno :=
  let d := upd_queue n (set_shutdown true) d in
  match queues d !! n ≫= wake_request_loop with Some token => call_back token d | None => d end.

Definition remove (h : Z) (d : Deno) : Deno :=
  match registry d !! h with
  | Some n => shut_down n (mkDeno (delete h (registry d)) (queues d) (wakes d))
  | None => d
  end.

Definition signal_shutdown (h : Z) (d : Deno) : Deno :=
  match get h d with Some n => shut_down n d | None => d end.

(** [drained] is a listing of the map, in its own order. *)
Definition shutdown_all (d : Deno) : Deno :=
  fold_left (fun d n => shut_down n d) (snd <$> map_to_list (registry d)) (mkDeno ∅ (queues d) (wakes d)).

Definition set_callback (h token : Z) (d : Deno) : Z * Deno :=
  match get h d ≫= fun n => (n,.) <$> queues d !! n with
  | None => ((-1)%Z, d)
  | Some (n, q) =>
      let '(q, wake) := set_request_ready_waker token q in
      let d := upd_queue n (fun _ => q) d in
      (0%Z, if wake then call_back token d else d)
  end.

(** ** Transport *)

Definition deliver (h : Z) (req : DeliverableRequest) (d : Deno) : Result unit string * Deno :=
  match get h d ≫= fun n => (n,.) <$> queues d !! n with
  | None => (Err "deno registry miss", d)
  | Some (n, q) =>
      match deliver_check q with
      | Err e => (Err e, d)
      | Ok _ =>
          let '(r, q) := deliver_send req q in
          let d := upd_queue n (fun _ => q) d in
          match r with
          | Err e => (Err e, d)
          | Ok _ => (Ok tt, match wake_request_loop q with Some token => call_back token d | None => d end)
          end
      end
  end.

Definition try_next_request (h out_cap : Z) (d : Deno) : Z * option Bytes * Deno :=
  match get h d ≫= fun n => (n,.) <$> queues d !! n with
  | None => ((-1)%Z, None, d)
  | Some (n, q) =>
      let '(r, out, q) := try_next out_cap q in (r, out, upd_queue n (fun _ => q) d)
  end.

(** The callback of connection events; a full queue drops the event. *)
Definition on_connection_event (n : nat) (ev : ConnectionEvent) (d : Deno) : Deno :=
  upd_queue n (fun q => set_conn (try_send ev (q_conn q)).2 q) d.

(** ** Stopping *)

(** The drain loop of [stop_serve]: the requests it takes, in order; [fuel]
    bounds the loop by what the queue can hold. *)
Fixpoint drain_queue (fuel : nat) (c : C DeliverableRequest) : list DeliverableRequest * C DeliverableRequest :=
  match fuel with
  | 0 => ([], c)
  | S fuel =>
      match try_recv c with
      | (Received x, c) => let '(l, c) := drain_queue fuel c in (x :: l, c)
      | (_, c) => ([], c)
      end
  end.

Section store.
Context {K : Type} {M : Type -> Type} `{SlotMap K M} {B : Type -> Type} `{Mpsc B}.
Context (status_ok : Z -> bool) (header_name_ok header_value_ok : string -> bool) (debug_str : string -> string).

(** [stop_serve] between [stop_serve()] and [wait_serve_stop()] of the endpoint. *)
Definition stop_serve (h : Z) (d : Deno) (w : World M B) : Deno * World M B :=
  let d := signal_shutdown h d in
  match get h d ≫= fun n => (n,.) <$> queues d !! n with
  | None => (d, w)
  | Some (n, q) =>
      if q_rx_locked q then (d, w)
      else
        let '(taken, c) := drain_queue (S QUEUE_CAPACITY) (q_chan q) in
        (upd_queue n (set_chan c) d,
         fold_left (fun w req =>
           (send_undeliverable_rejection status_ok header_name_ok header_value_ok debug_str (dr_req_handle req) w).2)
           taken w)
  end.
End store.

End deno.
Arguments ServeQueue C : clear implicits.
Arguments Deno C : clear implicits.
