(* ===== verification/DenoWake.v ===== *)
(** * The Deno request loop

    Deliveries, a stop and the JavaScript loop on one queue, interleaved at every
    lock and channel operation.  The loop takes requests until the queue is
    empty and then waits for its wake signal ([createServeWakeSignal] and
    [rawServe] of adapter.ts); a wake from Rust is a callback that the event
    loop runs later, and [stopServe] of the adapter wakes the signal directly.
    A request that does not fit the buffer makes the loop grow the buffer and
    poll once more; when the second answer is again a size, the loop takes it for
    a request, decodes an empty text and ends with the exception. *)

From stdpp Require Import base numbers list strings gmap fin_maps relations.
From Stdlib Require Import ZArith Lia.
From S2P Require Import Prelude Errors Extern BodyChannel Handles Dispatcher HostAdapter DenoServe.

Open Scope string_scope.
Open Scope list_scope.

(** [DenoTransport::deliver] after the lookup: before the check, before the send,
    before the wake. *)
Inductive DeliverPc := DLooked | DChecked | DSent.
(** [stop_serve]: before the signal, before the wake, before the lock, draining. *)
Inductive StopPc := SSignal | SWake | SLock | SDrain.
(** The loop: before the callback is installed, before its check, before the two
    halves of a poll ([retry]: the poll after the buffer has grown), after an
    empty poll, asleep, ended. *)
Inductive JsPc := JsStart | JsInstalled | JsRun (retry : bool) | JsTry (retry : bool) | JsWait | JsAsleep | JsDone.

#[global] Instance JsPc_eq_dec : EqDecision JsPc.
Proof. solve_decision. Defined.

Section machine.
Context {C : Type -> Type} `{Mpsc C}.
Context (rx_is_empty : C DeliverableRequest -> bool) (encode : DeliverableRequest -> Bytes).

Record Machine := mkMachine {
  queue : ServeQueue C;
  delivering : list (DeliverableRequest * DeliverPc);
  stops : list StopPc;
  js : JsPc;
  signal : bool;
  callbacks : nat;
  buffer : Z;
  delivered : list DeliverableRequest;
  too_large : list DeliverableRequest;
  rejected : list DeliverableRequest
}.

Definition set_queue q m := mkMachine q (delivering m) (stops m) (js m) (signal m) (callbacks m) (buffer m) (delivered m) (too_large m) (rejected m).
Definition set_delivering l m := mkMachine (queue m) l (stops m) (js m) (signal m) (callbacks m) (buffer m) (delivered m) (too_large m) (rejected m).
Definition set_stops l m := mkMachine (queue m) (delivering m) l (js m) (signal m) (callbacks m) (buffer m) (delivered m) (too_large m) (rejected m).
Definition set_js p m := mkMachine (queue m) (delivering m) (stops m) p (signal m) (callbacks m) (buffer m) (delivered m) (too_large m) (rejected m).
Definition set_signal b m := mkMachine (queue m) (delivering m) (stops m) (js m) b (callbacks m) (buffer m) (delivered m) (too_large m) (rejected m).
Definition set_callbacks n m := mkMachine (queue m) (delivering m) (stops m) (js m) (signal m) n (buffer m) (delivered m) (too_large m) (rejected m).
Definition set_taken b d t m := mkMachine (queue m) (delivering m) (stops m) (js m) (signal m) (callbacks m) b d t (rejected m).
Definition reject req m := mkMachine (queue m) (delivering m) (stops m) (js m) (signal m) (callbacks m) (buffer m) (delivered m) (too_large m) (rejected m ++ [req]).

(** A wake through the installed callback. *)
Definition wake (m : Machine) : Machine :=
  match wake_request_loop (queue m) with Some _ => set_callbacks (S (callbacks m)) m | None => m end.

(** One step of the loop. *)
Definition js_step (m : Machine) : option Machine :=
  match js m with
  | JsStart => Some (set_js JsInstalled (set_queue (set_waker (Some 1%Z) (queue m)) m))
  | JsInstalled =>
      let '(q, now) := set_request_ready_waker rx_is_empty 1 (queue m) in
      let m := set_js (JsRun false) (set_queue q m) in Some (if now then wake m else m)
  | JsRun retry => Some (set_js (if q_shutdown (queue m) then JsDone else JsTry retry) m)
  | JsTry retry =>
      if q_rx_locked (queue m) then Some (set_js JsWait m)
      else match try_recv (q_chan (queue m)) with
           | (Received x, c) =>
               let m := set_queue (set_chan c (queue m)) m in
               Some (if (buffer m <? len (encode x))%Z
                     then set_js (if retry then JsDone else JsRun true)
                            (set_taken (if retry then buffer m else len (encode x)) (delivered m) (too_large m ++ [x]) m)
                     else set_js (JsRun false) (set_taken (buffer m) (delivered m ++ [x]) (too_large m) m))
           | (RecvEmpty, c) => Some (set_js JsWait (set_queue (set_chan c (queue m)) m))
           | (RecvDisconnected, c) => Some (set_js JsDone (set_queue (set_chan c (queue m)) m))
           end
  | JsWait => Some (if signal m then set_js (JsRun false) (set_signal false m) else set_js JsAsleep m)
  | JsAsleep | JsDone => None
  end.

(** [wake] of the signal. *)
Definition wake_signal (m : Machine) : Machine :=
  match js m with JsAsleep => set_js (JsRun false) m | _ => set_signal true m end.

(** The event loop runs a callback. *)
Definition run_callback (m : Machine) : option Machine :=
  match callbacks m with
  | 0 => None
  | S n => Some (wake_signal (set_callbacks n m))
  end.

Inductive js_runs : Machine -> Machine -> Prop :=
| runs_loop m m' : js_step m = Some m' -> js_runs m m'
| runs_callback m m' : run_callback m = Some m' -> js_runs m m'.

Inductive step : Machine -> Machine -> Prop :=
| step_check m l1 req l2 :
    delivering m = l1 ++ (req, DLooked) :: l2 ->
    step m (match deliver_check (queue m) with
            | Ok _ => set_delivering (l1 ++ (req, DChecked) :: l2) m
            | Err _ => reject req (set_delivering (l1 ++ l2) m)
            end)
| step_send m l1 req l2 r q :
    delivering m = l1 ++ (req, DChecked) :: l2 -> deliver_send req (queue m) = (r, q) ->
    step m (match r with
            | Ok _ => set_queue q (set_delivering (l1 ++ (req, DSent) :: l2) m)
            | Err _ => reject req (set_queue q (set_delivering (l1 ++ l2) m))
            end)
| step_wake m l1 req l2 :
    delivering m = l1 ++ (req, DSent) :: l2 -> step m (wake (set_delivering (l1 ++ l2) m))
| step_stop m : step m (set_stops (stops m ++ [SSignal]) m)
| step_stop_signal m l1 l2 :
    stops m = l1 ++ SSignal :: l2 ->
    step m (set_queue (set_shutdown true (queue m)) (set_stops (l1 ++ SWake :: l2) m))
| step_stop_wake m l1 l2 :
    stops m = l1 ++ SWake :: l2 -> step m (wake (set_stops (l1 ++ SLock :: l2) m))
| step_stop_lock m l1 l2 :
    stops m = l1 ++ SLock :: l2 ->
    step m (if q_rx_locked (queue m) then set_stops (l1 ++ l2) m
            else set_queue (set_rx_locked true (queue m)) (set_stops (l1 ++ SDrain :: l2) m))
| step_stop_drain m l1 l2 r c :
    stops m = l1 ++ SDrain :: l2 -> try_recv (q_chan (queue m)) = (r, c) ->
    step m (match r with
            | Received x => reject x (set_queue (set_chan c (queue m)) m)
            | _ => set_queue (set_rx_locked false (set_chan c (queue m))) (set_stops (l1 ++ l2) m)
            end)
| step_js m m' : js_runs m m' -> step m m'
| step_cancel m : step m (wake_signal m).

Definition machine_new : Machine := mkMachine queue_new [] [] JsStart false 0 4096 [] [] [].

(** A request arrives: its delivery has looked the queue up. *)
Definition arrive (req : DeliverableRequest) (m : Machine) : Machine :=
  set_delivering (delivering m ++ [(req, DLooked)]) m.

(** The states after the requests [arrived]. *)
Inductive reachable : list DeliverableRequest -> Machine -> Prop :=
| reach_new : reachable [] machine_new
| reach_arrive arrived m req : reachable arrived m -> reachable (arrived ++ [req]) (arrive req m)
| reach_step arrived m m' : reachable arrived m -> step m m' -> reachable arrived m'.

End machine.
Arguments Machine C : clear implicits.
