(* ===== verification/DenoProps.v ===== *)
(** * Properties of the Deno serve bridge *)

From stdpp Require Import base numbers list strings gmap fin_maps relations.
From Stdlib Require Import ZArith Lia.
From S2P Require Import Prelude Errors Extern BodyChannel Handles HandlesFacts Dispatcher DispatcherProps HostAdapter HostAdapterProps DenoServe DenoWake.

Open Scope string_scope.
Open Scope list_scope.

Section queue.
Context {C : Type -> Type} `{HMP : Mpsc C} `{HML : !MpscLaws C}.
Context (rx_is_empty : C DeliverableRequest -> bool) (encode : DeliverableRequest -> Bytes).

(** The requests in a queue. *)
Definition waiting (q : ServeQueue C) : list DeliverableRequest := cv_buf (chan_view (q_chan q)).

(** The sender and the receiver are both in the queue, so both are alive. *)
Definition queue_ok (q : ServeQueue C) : Prop :=
  cv_cap (chan_view (q_chan q)) = QUEUE_CAPACITY /\ 0 < cv_senders (chan_view (q_chan q)) /\
  cv_rx (chan_view (q_chan q)) = true /\ length (waiting q) <= QUEUE_CAPACITY.

Lemma queue_new_ok : queue_ok (queue_new : ServeQueue C).
Proof. unfold queue_ok, waiting, queue_new, QUEUE_CAPACITY. cbn. rewrite chan_view_new. cbn. lia. Qed.

Lemma deliver_send_spec req (q : ServeQueue C) r q' :
  queue_ok q -> deliver_send req q = (r, q') ->
  q_shutdown q' = q_shutdown q /\ q_waker q' = q_waker q /\ q_rx_locked q' = q_rx_locked q /\ queue_ok q' /\
  match r with
  | Ok _ => length (waiting q) < QUEUE_CAPACITY /\ waiting q' = waiting q ++ [req]
  | Err _ => length (waiting q) = QUEUE_CAPACITY /\ waiting q' = waiting q
  end.
Proof.
  intros (Hcap & Hs & Hrx & Hlen) E. unfold deliver_send in E. destruct (chan_view_try_send _ req (q_chan q)) as [H1 H2].
  destruct (try_send req (q_chan q)) as [o c]. cbn in H1, H2. unfold cv_try_send in H1, H2. rewrite Hrx in H1, H2. cbn in H1, H2.
  unfold waiting in *. rewrite Hcap in H1, H2. 
  destruct (decide (length (cv_buf (chan_view (q_chan q))) < QUEUE_CAPACITY)) as [Hd|Hd]; cbn in H1, H2; subst o; injection E as <- <-;
    unfold queue_ok, waiting, set_chan; cbn; rewrite H2; cbn; rewrite ?length_app; cbn; rewrite ?Hcap; split_and!; try done; try lia.
Qed.

Lemma queue_recv (q : ServeQueue C) r c :
  queue_ok q -> try_recv (q_chan q) = (r, c) -> queue_ok (set_chan c q) /\
  match r with
  | Received x => waiting q = x :: waiting (set_chan c q)
  | RecvEmpty => waiting q = [] /\ waiting (set_chan c q) = []
  | RecvDisconnected => False
  end.
Proof.
  intros (Hcap & Hs & Hrx & Hlen) E. destruct (chan_view_try_recv _ (q_chan q)) as [H1 H2]. rewrite E in H1, H2. cbn in H1, H2.
  unfold cv_try_recv in H1, H2. unfold waiting in *. destruct (cv_buf (chan_view (q_chan q))) as [|x l] eqn:Eb.
  - rewrite decide_False in H1, H2 by lia. cbn in H1, H2. subst r. unfold queue_ok, waiting. cbn. rewrite H2, Eb. done.
  - cbn in H1, H2. subst r. unfold queue_ok, waiting. cbn. rewrite H2. cbn in *. split_and!; try done; lia.
Qed.

Lemma as_i32_id n : (0 <= n <= I32_MAX)%Z -> as_i32 n = n.
Proof. unfold as_i32, I32_MAX. intros Hn. rewrite Z.mod_small by lia. lia. Qed.

(** The poll of the request loop is destructive: when the first request does
    not fit the caller's buffer, the call asks for a larger buffer but has
    already taken the request out of the queue; the retry with that buffer gets
    the request behind it, or finds the queue empty.  The request is neither
    handed to the handler nor answered. *)
Theorem small_buffer_loses_request (q : ServeQueue C) x rest out_cap :
  queue_ok q -> q_shutdown q = false -> q_rx_locked q = false -> waiting q = x :: rest ->
  (out_cap < len (encode x) <= I32_MAX)%Z ->
  exists q1, try_next encode out_cap q = ((- len (encode x))%Z, None, q1) /\ waiting q1 = rest /\
    match rest with
    | [] => exists q2, try_next encode (len (encode x)) q1 = (0%Z, None, q2)
    | y :: _ => (len (encode y) <= len (encode x))%Z ->
        exists q2, try_next encode (len (encode x)) q1 = (len (encode y), Some (encode y), q2)
    end.
Proof.
  intros Hok Hsd Hl Hw Hc. unfold try_next at 1. rewrite Hsd, Hl.
  destruct (try_recv (q_chan q)) as [r c] eqn:E. destruct (queue_recv q r c Hok E) as [Hok1 Hr].
  destruct r as [x'| |]; [|destruct Hr; congruence|done]. rewrite Hw in Hr. injection Hr as <- Hr.
  rewrite (proj2 (Z.ltb_lt _ _) (proj1 Hc)), (proj2 (Z.leb_le _ _) (proj2 Hc)).
  exists (set_chan c q). split; [done|]. split; [done|]. unfold try_next. cbn. rewrite Hsd, Hl.
  destruct (try_recv c) as [r2 c2] eqn:E2. destruct (queue_recv (set_chan c q) r2 c2 Hok1 E2) as [_ Hr2].
  destruct rest as [|y rest].
  - destruct r2 as [z| |]; [congruence|by eexists|done].
  - intros Hy. destruct r2 as [z| |]; [|destruct Hr2; congruence|done]. rewrite <- Hr in Hr2. injection Hr2 as -> _.
    rewrite (proj2 (Z.ltb_ge _ _) Hy), as_i32_id by (unfold len in *; lia). by eexists.
Qed.

End queue.

(** ** The registry *)

Section registry.
Context {C : Type -> Type} `{HMP : Mpsc C} `{HML : !MpscLaws C}.

Lemma lookup_upd_queue n f (d : Deno C) n' :
  queues (upd_queue n f d) !! n' = if decide (n' = n) then f <$> queues d !! n else queues d !! n'.
Proof.
  cbn. destruct (decide (n' = n)) as [->|]; [by rewrite list_lookup_alter_eq|by rewrite list_lookup_alter_ne].
Qed.

(** A delivery goes to the queue that is registered when it is made: it is
    appended there behind what waits and the loop is woken, or it is refused
    because nothing is registered, the cycle has been stopped or 256 requests
    wait, and then no queue has changed.  Queues of other endpoints and of
    earlier cycles are never touched. *)
Theorem deno_delivery_outcome h req (d : Deno C) :
  Forall queue_ok (queues d) ->
  let '(r, d') := deliver h req d in
  registry d' = registry d /\
  match get h d ≫= fun n => (n,.) <$> queues d !! n with
  | None => r = Err "deno registry miss" /\ d' = d
  | Some (n, q) =>
      (forall n', n' <> n -> queues d' !! n' = queues d !! n') /\
      exists q', queues d' !! n = Some q' /\ q_shutdown q' = q_shutdown q /\ q_waker q' = q_waker q /\
        (if q_shutdown q then r = Err "deno serve shutdown" /\ d' = d
         else if decide (length (waiting q) < 256)
         then r = Ok tt /\ waiting q' = waiting q ++ [req] /\ wakes d' = wakes d ++ option_list (q_waker q)
         else r = Err "deno serve queue full" /\ waiting q' = waiting q /\ wakes d' = wakes d)
  end.
Proof.
  intros Hok. unfold deliver. destruct (get h d ≫= _) as [[n q]|] eqn:Eg; [|done].
  assert (queues d !! n = Some q) as Hq.
  { destruct (get h d) as [n0|]; cbn in Eg; [|done]. destruct (queues d !! n0) eqn:E; cbn in Eg; [|done]. by injection Eg as <- <-. }
  pose proof (Forall_lookup_1 _ _ _ _ Hok Hq) as Hqok. unfold deliver_check.
  destruct (q_shutdown q) eqn:Es; [split; [done|]; split; [done|]; exists q; by rewrite Es|].
  destruct (deliver_send req q) as [r q1] eqn:E. destruct (deliver_send_spec _ _ _ _ Hqok E) as (Hs1 & Hw1 & _ & _ & Hr).
  assert (forall n', queues (upd_queue n (fun _ => q1) d) !! n' = if decide (n' = n) then Some q1 else queues d !! n') as Hl.
  { intros n'. rewrite lookup_upd_queue, Hq. done. }
  assert (match r with Err e => e = "deno serve queue full" | Ok u => u = tt end) as Hre.
  { unfold deliver_send in E. destruct (try_send req (q_chan q)) as [[] c]; by injection E as <- _. }
  destruct r as [u|e]; subst; destruct Hr as [Hlen Hw].
  - assert (queues (match wake_request_loop q1 with
      | Some token => call_back token (upd_queue n (fun _ => q1) d) | None => upd_queue n (fun _ => q1) d end) =
      queues (upd_queue n (fun _ => q1) d)) as -> by (by destruct (wake_request_loop q1)).
    split; [by destruct (wake_request_loop q1)|]. split; [intros n' Hne; by rewrite Hl, decide_False|].
    exists q1. rewrite Hl, decide_True by done. split; [done|]. rewrite Hs1. split; [done|]. split; [done|].
    rewrite decide_True by (unfold QUEUE_CAPACITY in Hlen; lia). split; [done|]. split; [done|].
    unfold wake_request_loop. rewrite Hw1. destruct (q_waker q); cbn; [done|by rewrite app_nil_r].
  - split; [done|]. split; [intros n' Hne; by rewrite Hl, decide_False|].
    exists q1. rewrite Hl, decide_True by done. split; [done|]. rewrite Hs1. split; [done|]. split; [done|].
    rewrite decide_False by (unfold QUEUE_CAPACITY in Hlen; lia). done.
Qed.

Lemma drain_queue_all fuel (q : ServeQueue C) :
  queue_ok q -> length (waiting q) < fuel ->
  (drain_queue fuel (q_chan q)).1 = waiting q /\ waiting (set_chan (drain_queue fuel (q_chan q)).2 q) = [].
Proof.
  revert q. induction fuel as [|fuel IH]; intros q Hq Hl; [lia|]. cbn.
  destruct (try_recv (q_chan q)) as [r c] eqn:E. destruct (queue_recv q r c Hq E) as [Hq' Hr]. destruct r as [x| |]; [| |done].
  - rewrite Hr in Hl |- *. cbn in Hl. destruct (IH (set_chan c q) Hq') as [H1 H2]; [lia|]. cbn in H1, H2.
    destruct (drain_queue fuel c) as [l c']. cbn in *. by rewrite H1.
  - destruct Hr as [-> Hr]. done.
Qed.

Context {K : Type} {M : Type -> Type} `{HSM : SlotMap K M} `{Countable K} `{HSL : !SlotMapLaws K M}.
Context {B : Type -> Type} `{HMB : Mpsc B} `{HMLB : !MpscLaws B}.
Context (hv_to_str : Bytes -> option string).
Context (status_ok : Z -> bool) (header_name_ok header_value_ok : string -> bool) (debug_str : string -> string).

(** A stop answers a queued request but leaves its body open: the dispatch
    resolves to 503, but the response writer stays in the store and its channel
    keeps a sender, so the end of the body does not come until the handle is
    swept. *)
Theorem stop_leaves_body_open now dd req remote (w w1 : World M B) pl pump pd h (d : Deno C) n q :
  dispatch_start hv_to_str now dd req remote w = (inr (pl, pump, pd), w1) ->
  status_ok 503 = true -> headers_ok header_name_ok header_value_ok [("content-length", "0")] = true ->
  get h d = Some n -> queues d !! n = Some q -> queue_ok q -> q_rx_locked q = false -> waiting q = [from_payload pl] ->
  let '(d', w2) := stop_serve status_ok header_name_ok header_value_ok debug_str h d w1 in
  (exists q', queues d' !! n = Some q' /\ waiting q' = []) /\
  exists w3 b, dispatch_poll status_ok header_name_ok header_value_ok pd w2 =
      (Ready (mkResponse 503 [("content-length", "0")] (BodyReading (pd_res_reader pd))), w3) /\
    is_Some (sm_view (writers (store w3)) !! handle_to_key (res_body_handle pl)) /\
    hp_chans (heap w3) !! rd_chan (pd_res_reader pd) = Some b /\ cv_senders (bview b) = 1.
Proof.
  intros Hd Hst Hhs Hg Hq Hok Hl Hw. unfold stop_serve, signal_shutdown. rewrite Hg.
  assert (queues (shut_down n d) !! n = Some (set_shutdown true q) /\ get h (shut_down n d) = Some n) as [Hq1 Hg1].
  { unfold shut_down. destruct (_ ≫= wake_request_loop); cbn [call_back queues get registry upd_queue];
      rewrite list_lookup_alter_eq, Hq; by split. }
  rewrite Hg1. cbn [mbind option_bind]. rewrite Hq1. cbn [fmap option_fmap option_map]. cbn [q_rx_locked set_shutdown]. rewrite Hl.
  destruct (drain_queue_all (S QUEUE_CAPACITY) (set_shutdown true q)) as [Ht He]; [done|unfold waiting, QUEUE_CAPACITY in *; cbn; rewrite Hw; cbn; lia|].
  cbn [q_chan set_shutdown] in Ht, He |- *. destruct (drain_queue (S QUEUE_CAPACITY) (q_chan q)) as [taken c]. cbn [fst snd] in Ht, He.
  unfold waiting in Ht. cbn in Ht. fold (waiting q) in Ht. rewrite Hw in Ht. subst taken. split.
  { eexists. rewrite lookup_upd_queue, decide_True, Hq1 by done. split; [done|]. exact He. }
  cbn [fold_left dr_req_handle from_payload].
  destruct (dispatch_writer _ _ _ _ _ _ _ _ _ _ Hd) as (N2 & (timeout & V2) & Hch).
  destruct (rejection_reaches_dispatch _ _ _ _ debug_str _ _ _ _ _ _ _ _ _ Hd Hst Hhs) as (Fw & Fc & Hpoll).
  destruct (Hpoll _ eq_refl eq_refl) as (w3 & Ep & _ & Hwr & Hc). eexists w3, _. split; [exact Ep|].
  rewrite Hwr, Hc, Fw, Fc, V2, lookup_insert_eq. split; [by eexists|]. split; [exact Hch|].
  unfold bview, make_body_channel_with. cbn. by rewrite chan_view_new.
Qed.
End registry.

(** ** The loop *)

Section machine.
Context {C : Type -> Type} `{HMP : Mpsc C} `{HML : !MpscLaws C}.
Context (rx_is_empty : C DeliverableRequest -> bool) (encode : DeliverableRequest -> Bytes).
#[local] Abbreviation machine := (Machine C).
#[local] Abbreviation step := (step rx_is_empty encode).
#[local] Abbreviation js_runs := (js_runs rx_is_empty encode).
#[local] Abbreviation reachable := (reachable rx_is_empty encode).

(** A wake is on its way: the signal is set, a callback is queued, or a delivery
    or a stop is about to call it. *)
Definition woken (m : machine) : Prop :=
  signal m = true \/ 0 < callbacks m \/ (exists req, (req, DSent) ∈ delivering m) \/ SWake ∈ stops m.

Definition resting (p : JsPc) : Prop := p = JsWait \/ p = JsAsleep.

Record inv (m : machine) : Prop := mkInv {
  i_queue : queue_ok (queue m);
  i_waker : js m <> JsStart -> is_Some (q_waker (queue m));
  i_locked : q_rx_locked (queue m) = true -> q_shutdown (queue m) = true;
  i_try : (exists b, js m = JsTry b) -> q_shutdown (queue m) = true -> woken m;
  i_rest : resting (js m) -> waiting (queue m) <> [] \/ q_shutdown (queue m) = true -> woken m;
  i_asleep : js m = JsAsleep -> signal m = false;
  i_stops : Forall (fun s => s = SSignal \/ q_shutdown (queue m) = true) (stops m)
}.

Lemma deno_wake_cases (m : machine) :
  (is_Some (q_waker (queue m)) /\ wake m = set_callbacks (S (callbacks m)) m) \/ (q_waker (queue m) = None /\ wake m = m).
Proof. unfold wake, wake_request_loop. destruct (q_waker (queue m)); eauto. Qed.

(** A step that keeps the loop, the queue's flags and, up to growth that is
    announced, what waits. *)
Lemma deno_inv_frame (m m' : machine) :
  js m' = js m -> signal m' = signal m -> queue_ok (queue m') -> q_waker (queue m') = q_waker (queue m) ->
  (q_rx_locked (queue m') = true -> q_shutdown (queue m') = true) ->
  (q_shutdown (queue m') = true -> q_shutdown (queue m) = true \/ woken m') ->
  (waiting (queue m') <> [] -> waiting (queue m) <> [] \/ woken m') ->
  (js m <> JsStart -> woken m -> woken m') ->
  Forall (fun s => s = SSignal \/ q_shutdown (queue m') = true) (stops m') -> inv m -> inv m'.
Proof.
  intros Hj Hs Hq Hw Hl Hsd Hne Hwk Hst [H1 H2 H3 H4 H5 H6 H7]. split; rewrite ?Hj, ?Hs, ?Hw; auto.
  - intros [b Ej] Hsd'. destruct (Hsd Hsd') as [?|?]; [|done]. apply Hwk; [by rewrite Ej|]. eauto.
  - intros Hr Ho. assert (js m <> JsStart) as Hjs by (destruct Hr as [-> | ->]; done).
    assert ((waiting (queue m) <> [] \/ q_shutdown (queue m) = true) \/ woken m') as [Hx|?]; [|by apply Hwk; auto|done].
    destruct Ho as [Ho|Ho]; [destruct (Hne Ho)|destruct (Hsd Ho)]; auto.
Qed.

Lemma woken_delivering (m : machine) l1 x l2 l :
  delivering m = l1 ++ x :: l2 -> x.2 <> DSent -> l1 ++ l2 ⊆ l -> woken m -> woken (set_delivering l m).
Proof.
  intros Hd Hx Hl [?|[?|[(req & Hin)|?]]]; [by left|by right; left| |by right; right; right].
  right; right; left. exists req. cbn. apply Hl. rewrite Hd in Hin. apply elem_of_app in Hin as [?|Hin]; [apply elem_of_app; auto|].
  apply elem_of_cons in Hin as [<-|?]; [done|apply elem_of_app; auto].
Qed.

Lemma woken_stops (m : machine) l1 x l2 l :
  stops m = l1 ++ x :: l2 -> x <> SWake -> l1 ++ l2 ⊆ l -> woken m -> woken (set_stops l m).
Proof.
  intros Hd Hx Hl [?|[?|[?|Hin]]]; [by left|by right; left|by right; right; left|].
  right; right; right. cbn. apply Hl. rewrite Hd in Hin. apply elem_of_app in Hin as [?|Hin]; [apply elem_of_app; auto|].
  apply elem_of_cons in Hin as [<-|?]; [done|apply elem_of_app; auto].
Qed.

Lemma woken_wake (m m' : machine) :
  is_Some (q_waker (queue m')) -> woken (wake m').
Proof. intros Hs. destruct (deno_wake_cases m') as [[_ ->]|[Hn _]]; [right; left; cbn; lia|]. rewrite Hn in Hs. by destruct Hs. Qed.

Lemma app_sub {A} (l1 l2 : list A) x : l1 ++ l2 ⊆ l1 ++ x :: l2.
Proof. intros y. rewrite !elem_of_app, elem_of_cons. tauto. Qed.

(** The loop is neither resting nor about to poll. *)
Lemma inv_running (m m' : machine) :
  ~ resting (js m') -> (forall b, js m' <> JsTry b) \/ q_shutdown (queue m') = false -> queue_ok (queue m') ->
  (js m' <> JsStart -> is_Some (q_waker (queue m'))) -> q_rx_locked (queue m') = q_rx_locked (queue m) ->
  q_shutdown (queue m') = q_shutdown (queue m) -> stops m' = stops m -> inv m -> inv m'.
Proof.
  intros Hr Ht Hq Hw Hl Hsd Hst [H1 H2 H3 H4 H5 H6 H7]. split; rewrite ?Hl, ?Hsd, ?Hst; try done.
  - intros [b Ej] Es. destruct Ht as [Ht|]; [by destruct (Ht b)|congruence].
  - intros Ej. destruct Hr. by right.
Qed.

#[local] Ltac running Hi Hw Ej :=
  eapply inv_running; try exact Hi; cbn; try done; try (by intros []); try (by left); try (by right);
  try (left; by intros ?); try (by eauto); intros _; apply Hw; by rewrite Ej.

Lemma inv_signal (m : machine) n : inv m -> inv (wake_signal (set_callbacks n m)).
Proof.
  intros Hi. pose proof (i_queue _ Hi) as Hq. pose proof (i_waker _ Hi) as Hw. unfold wake_signal. cbn. destruct (decide (js m = JsAsleep)) as [Ej|Ej].
  - rewrite Ej. running Hi Hw Ej.
  - destruct Hi as [H1 H2 H3 H4 H5 H6 H7].
    destruct (js m) eqn:E; try done; split; cbn; rewrite ?E; try done; try (by intros []); by left.
Qed.

Lemma inv_js (m m' : machine) : js_runs m m' -> inv m -> inv m'.
Proof.
  intros [m0 m1 Hs|m0 m1 Hs] Hi; pose proof (i_queue _ Hi) as Hq; pose proof (i_waker _ Hi) as Hw.
  - unfold js_step in Hs. destruct (js m0) as [| |b|b| | |] eqn:Ej; try done.
    + injection Hs as <-. running Hi Hw Ej.
    + cbn in Hs. injection Hs as <-. destruct (q_shutdown (queue m0) || _); running Hi Hw Ej.
    + injection Hs as <-. destruct (q_shutdown (queue m0)) eqn:E; running Hi Hw Ej.
    + pose proof Hi as [H1 H2 H3 H4 H5 H6 H7]. destruct (q_rx_locked (queue m0)) eqn:El.
      { injection Hs as <-. split; cbn; try done; [intros _; by apply Hw|by auto|by intros []|]. intros _ _. apply H4; eauto. }
      destruct (try_recv (q_chan (queue m0))) as [r c] eqn:E. destruct (queue_recv _ _ _ Hq E) as [Hq' Hr].
      destruct r as [x| |]; [| |done].
      * cbn in Hs. destruct (_ <? _)%Z, b; injection Hs as <-; (running Hi Hw Ej).
      * injection Hs as <-. split; cbn; try done; [intros _; by apply Hw|by rewrite El|by intros []|].
        intros _ [Hn|Hn]; [destruct Hr as [_ Hr]; by destruct Hn|]. apply H4; eauto.
    + destruct (signal m0) eqn:Esg; injection Hs as <-.
      { running Hi Hw Ej. }
      destruct Hi as [H1 H2 H3 H4 H5 H6 H7]. split; cbn; try done; [intros _; by apply Hw|by intros []|].
      intros _ Ho. rewrite Ej in H5. destruct (H5 (or_introl eq_refl) Ho) as [?|?]; [congruence|by right].
  - unfold run_callback in Hs. destruct (callbacks m0) as [|n] eqn:Ec; [done|]. injection Hs as <-. by apply inv_signal.
Qed.

Lemma inv_step (m m' : machine) : step m m' -> inv m -> inv m'.
Proof.
  intros Hs Hi. pose proof (i_queue _ Hi) as Hq. pose proof (i_locked _ Hi) as Hlk. pose proof (i_stops _ Hi) as Hst.
  pose proof (i_waker _ Hi) as Hwk.
  destruct Hs as [m l1 req l2 Hd|m l1 req l2 r q Hd E|m l1 req l2 Hd|m|m l1 l2 Hd|m l1 l2 Hd|m l1 l2 Hd|m l1 l2 r c Hd E|m m' Hj|m].
  - unfold deliver_check. destruct (q_shutdown (queue m)) eqn:Es; eapply deno_inv_frame; try exact Hi; cbn; rewrite ?Es; try done; auto.
    + intros _ Hw. apply (woken_delivering m l1 (req, DLooked) l2 (l1 ++ l2)) in Hw; done.
    + intros _ Hw. apply (woken_delivering m l1 (req, DLooked) l2 (l1 ++ (req, DChecked) :: l2)) in Hw; [done|done|done|apply app_sub].
  - destruct (deliver_send_spec _ _ _ _ Hq E) as (Hsd & Hw & Hl & Hq' & Hr).
    destruct r; eapply deno_inv_frame; try exact Hi; cbn; rewrite ?Hsd, ?Hl; try done; auto.
    + intros _. right. right. right. left. exists req. cbn. apply elem_of_app. right. by left.
    + intros _ Hw'. apply (woken_delivering m l1 (req, DChecked) l2 (l1 ++ (req, DSent) :: l2)) in Hw'; [done|done|done|apply app_sub].
    + destruct Hr as [_ ->]. auto.
    + intros _ Hw'. apply (woken_delivering m l1 (req, DChecked) l2 (l1 ++ l2)) in Hw'; done.
  - destruct (deno_wake_cases (set_delivering (l1 ++ l2) m)) as [[Hw ->]|[Hw ->]]; eapply deno_inv_frame; try exact Hi; cbn; try done; auto.
    + intros _ _. right. left. cbn. lia.
    + intros Hjs _. cbn in Hw. rewrite Hw in Hwk. by destruct (Hwk Hjs).
  - eapply deno_inv_frame; try exact Hi; cbn; try done; auto.
    + intros _ [?|[?|[?|?]]]; [by left|by right; left|by right; right; left|].
      right; right; right. cbn. apply elem_of_app. by left.
    + apply Forall_app. split; [done|]. constructor; [by left|constructor].
  - rewrite Hd in Hst. apply Forall_app in Hst as [Ha Hb]. apply Forall_cons_1 in Hb as [_ Hb].
    eapply deno_inv_frame; try exact Hi; cbn; try done; auto.
    + intros _. right. right. right. right. cbn. apply elem_of_app. right. by left.
    + intros _ Hw. apply (woken_stops m l1 SSignal l2 (l1 ++ SWake :: l2)) in Hw; [done|done|done|apply app_sub].
    + apply Forall_app. split; [eapply Forall_impl; [exact Ha|]; auto|constructor; [by right|]; eapply Forall_impl; [exact Hb|]; auto].
  - rewrite Hd in Hst. apply Forall_app in Hst as [Ha Hb]. apply Forall_cons_1 in Hb as [Hx Hb]. destruct Hx as [?|Hx]; [done|].
    assert (Forall (fun s => s = SSignal \/ q_shutdown (queue m) = true) (l1 ++ SLock :: l2)) as Hst'
      by (apply Forall_app; split; [done|constructor; [by right|done]]).
    destruct (deno_wake_cases (set_stops (l1 ++ SLock :: l2) m)) as [[Hw ->]|[Hw ->]]; eapply deno_inv_frame; try exact Hi; cbn; try done; auto.
    + intros _ _. right. left. cbn. lia.
    + intros Hjs _. cbn in Hw. rewrite Hw in Hwk. by destruct (Hwk Hjs).
  - rewrite Hd in Hst. apply Forall_app in Hst as [Ha Hb]. apply Forall_cons_1 in Hb as [Hx Hb]. destruct Hx as [?|Hx]; [done|].
    destruct (q_rx_locked (queue m)) eqn:El; eapply deno_inv_frame; try exact Hi; cbn; try done; auto.
    + intros _ Hw. apply (woken_stops m l1 SLock l2 (l1 ++ l2)) in Hw; done.
    + by apply Forall_app.
    + intros _ Hw. apply (woken_stops m l1 SLock l2 (l1 ++ SDrain :: l2)) in Hw; [done|done|done|apply app_sub].
    + apply Forall_app. split; [done|constructor; [by right|done]].
  - pose proof Hst as Hst'. rewrite Hd in Hst'. apply Forall_app in Hst' as [Ha Hb]. apply Forall_cons_1 in Hb as [_ Hb].
    destruct (queue_recv _ _ _ Hq E) as [Hq' Hr]. destruct r as [x| |]; [| |done]; eapply deno_inv_frame; try exact Hi; cbn; try done; auto.
    + intros _. left. by rewrite Hr.
    + intros Hn. destruct Hr as [_ Hr]. by destruct Hn.
    + intros _ Hw. apply (woken_stops m l1 SDrain l2 (l1 ++ l2)) in Hw; done.
    + by apply Forall_app.
  - by eapply inv_js.
  - replace m with (set_callbacks (callbacks m) m) by by destruct m. by apply inv_signal.
Qed.

Lemma reachable_inv_deno arrived (m : machine) : reachable arrived m -> inv m.
Proof.
  induction 1 as [|arrived m req _ IH|arrived m m' _ IH Hs]; [|destruct IH as [H1 H2 H3 H4 H5 H6 H7]|by eapply inv_step].
  - split; cbn; try done; [apply queue_new_ok|by intros []].
  - assert (woken m -> woken (arrive req m)) as Hw.
    { intros [?|[?|[(r & ?)|?]]]; [by left|by right; left|right; right; left; exists r; cbn; apply elem_of_app; by left|by right; right; right]. }
    split; cbn; auto.
Qed.

(** ** Where a request is *)

(** A delivery that has not sent yet. *)
Definition unsent (x : DeliverableRequest * DeliverPc) : option DeliverableRequest :=
  match x.2 with DSent => None | _ => Some x.1 end.

(** Every request is in one of these places. *)
Definition located (m : machine) : list DeliverableRequest :=
  omap unsent (delivering m) ++ waiting (queue m) ++ delivered m ++ too_large m ++ rejected m.

Lemma located_js (m m' : machine) : js_runs m m' -> queue_ok (queue m) -> located m' ≡ₚ located m.
Proof.
  intros [m0 m1 Hs|m0 m1 Hs] Hq; unfold located.
  - unfold js_step in Hs. destruct (js m0); try done; try (by injection Hs as <-).
    + cbn in Hs. injection Hs as <-. by destruct (q_shutdown (queue m0) || _).
    + destruct (q_rx_locked (queue m0)); [by injection Hs as <-|]. rename retry into b.
      destruct (try_recv (q_chan (queue m0))) as [r c] eqn:E. destruct (queue_recv _ _ _ Hq E) as [_ Hr].
      destruct r as [x| |]; [| |done].
      * cbn in Hs. destruct (_ <? _)%Z, b; injection Hs as <-; cbn [delivering queue delivered too_large rejected set_taken set_js set_queue];
          rewrite Hr; solve_Permutation.
      * injection Hs as <-. cbn [delivering queue delivered too_large rejected set_js set_queue]. destruct Hr as [-> ->]. done.
    + injection Hs as <-. by destruct (signal m0).
  - unfold run_callback in Hs. destruct (callbacks m0); [done|]. injection Hs as <-. unfold wake_signal. cbn. by destruct (js m0).
Qed.

Lemma located_wake (m : machine) : located (wake m) = located m.
Proof. unfold wake. by destruct (wake_request_loop (queue m)). Qed.

Lemma located_step (m m' : machine) : step m m' -> queue_ok (queue m) -> located m' ≡ₚ located m.
Proof.
  intros Hs Hq.
  destruct Hs as [m l1 req l2 Hd|m l1 req l2 r q Hd E|m l1 req l2 Hd|m|m l1 l2 Hd|m l1 l2 Hd|m l1 l2 Hd|m l1 l2 r c Hd E|m m' Hj|m];
    rewrite ?located_wake; try done.
  - unfold located, deliver_check. rewrite Hd, omap_app. destruct (q_shutdown (queue m));
      cbn [delivering queue delivered too_large rejected reject set_delivering]; rewrite omap_app; cbn; solve_Permutation.
  - destruct (deliver_send_spec _ _ _ _ Hq E) as (_ & _ & _ & _ & Hr). unfold located. rewrite Hd, omap_app.
    destruct r; cbn [delivering queue delivered too_large rejected reject set_delivering set_queue]; rewrite omap_app; destruct Hr as [_ ->];
      cbn; solve_Permutation.
  - unfold located. cbn [delivering queue delivered too_large rejected set_delivering]. rewrite Hd, !omap_app. cbn. done.
  - by destruct (q_rx_locked (queue m)).
  - destruct (queue_recv _ _ _ Hq E) as [_ Hr]. unfold located. destruct r as [x| |]; [| |done];
      cbn [delivering queue delivered too_large rejected reject set_delivering set_queue set_stops].
    + rewrite Hr. solve_Permutation.
    + unfold waiting in *. cbn in *. destruct Hr as [-> ->]. done.
  - by apply located_js.
  - unfold wake_signal. by destruct (js m).
Qed.

(** C23. No request is lost or duplicated inside the bridge, except by a poll with
    too small a buffer: whatever deliveries, stops and polls are interleaved,
    every request that arrived is in exactly one place: its delivery has not
    sent it yet, it waits in the queue (at most 256 do), it was handed to the
    handler, it was answered with 503, or the loop's buffer was too small for
    it. *)
Theorem deno_request_conservation arrived (m : machine) :
  reachable arrived m ->
  omap unsent (delivering m) ++ waiting (queue m) ++ delivered m ++ too_large m ++ rejected m ≡ₚ arrived /\
  length (waiting (queue m)) <= 256.
Proof.
  intros Hr. split; [|apply (reachable_inv_deno _ _ Hr)]. fold (located m).
  induction Hr as [|arrived m req _ IH|arrived m m' Hr IH Hs].
  - unfold located. cbn. unfold waiting. cbn. by rewrite chan_view_new.
  - rewrite <- IH. unfold located. cbn. rewrite omap_app. cbn. solve_Permutation.
  - rewrite <- IH. apply located_step; [done|]. apply (reachable_inv_deno _ _ Hr).
Qed.

(** ** Progress *)

(** What the loop makes of the requests that wait, with a buffer of [buf] bytes
    ([retry]: it has just grown): those it hands to the handler, those it loses to
    the buffer, and, if it ends, those it leaves. *)
Fixpoint loop_takes (buf : Z) (retry : bool) (l : list DeliverableRequest)
  : list DeliverableRequest * list DeliverableRequest * option (list DeliverableRequest) :=
  match l with
  | [] => ([], [], None)
  | x :: l =>
      if (buf <? len (encode x))%Z
      then if retry then ([], [x], Some l)
           else let '(h, d, e) := loop_takes (len (encode x)) true l in (h, x :: d, e)
      else let '(h, d, e) := loop_takes buf false l in (x :: h, d, e)
  end.

Lemma loop_takes_all buf b l :
  Forall (fun x => (len (encode x) <= buf)%Z) l -> loop_takes buf b l = (l, [], None).
Proof.
  intros Hf. revert b. induction Hf as [|x l Hx _ IH]; intros b; [done|]. cbn. by rewrite (proj2 (Z.ltb_ge _ _) Hx), IH.
Qed.

Definition retrying (p : JsPc) : bool := match p with JsRun b | JsTry b => b | _ => false end.

(** One poll takes the first request. *)
Lemma js_poll_one (m : machine) x rest b :
  inv m -> js m = JsRun b \/ js m = JsTry b -> q_shutdown (queue m) = false -> waiting (queue m) = x :: rest ->
  exists m', rtc js_runs m m' /\ q_shutdown (queue m') = false /\ waiting (queue m') = rest /\
    if (buffer m <? len (encode x))%Z
    then js m' = (if b then JsDone else JsRun true) /\ buffer m' = (if b then buffer m else len (encode x)) /\
         delivered m' = delivered m /\ too_large m' = too_large m ++ [x]
    else js m' = JsRun false /\ buffer m' = buffer m /\ delivered m' = delivered m ++ [x] /\ too_large m' = too_large m.
Proof.
  intros Hi Hj Hs Hw. destruct (try_recv (q_chan (queue m))) as [r c] eqn:E.
  destruct (queue_recv _ _ _ (i_queue _ Hi) E) as [Hq Hr].
  destruct r as [y| |]; [|destruct Hr; congruence|done]. rewrite Hw in Hr. injection Hr as <- Hr.
  assert (q_rx_locked (queue m) = false) as Hl.
  { destruct (q_rx_locked (queue m)) eqn:El; [|done]. apply (i_locked _ Hi) in El. congruence. }
  eexists. split.
  { transitivity (set_js (JsTry b) m).
    - destruct Hj as [Hj|Hj]; [apply rtc_once, runs_loop; unfold js_step; by rewrite Hj, Hs|].
      destruct m. cbn in Hj. subst. apply rtc_refl.
    - apply rtc_once, runs_loop. unfold js_step. cbn. by rewrite Hl, E. }
  cbn. destruct (buffer m <? len (encode x))%Z; by destruct b.
Qed.

Lemma js_drain (m : machine) b :
  inv m -> js m = JsRun b \/ js m = JsTry b -> q_shutdown (queue m) = false ->
  let '(h, d, e) := loop_takes (buffer m) b (waiting (queue m)) in
  exists m', rtc js_runs m m' /\ delivered m' = delivered m ++ h /\ too_large m' = too_large m ++ d /\
    match e with None => waiting (queue m') = [] | Some behind => js m' = JsDone /\ waiting (queue m') = behind end.
Proof.
  remember (waiting (queue m)) as l eqn:El. revert m b El. induction l as [|x l IH]; intros m b El Hi Hj Hs.
  - cbn. exists m. by rewrite !app_nil_r, <- El.
  - destruct (js_poll_one m x l b) as (m1 & Hr & Hs1 & Hw1 & Hm1); try done.
    assert (inv m1) as Hi1 by (clear -Hi Hr HML; induction Hr; [done|]; eauto using inv_js).
    cbn [loop_takes]. destruct (buffer m <? len (encode x))%Z; destruct Hm1 as (Hj1 & Hb1 & Hd1 & Ht1).
    + destruct b; [exists m1; by rewrite app_nil_r|].
      specialize (IH m1 true (eq_sym Hw1) Hi1 (or_introl Hj1) Hs1). rewrite Hb1 in IH.
      destruct (loop_takes _ true l) as [[h d] e]. destruct IH as (m2 & Hr2 & Hd2 & Ht2 & He).
      exists m2. rewrite Hd2, Ht2, Hd1, Ht1, <- app_assoc. split; [by etrans|done].
    + specialize (IH m1 false (eq_sym Hw1) Hi1 (or_introl Hj1) Hs1). rewrite Hb1 in IH.
      destruct (loop_takes _ false l) as [[h d] e]. destruct IH as (m2 & Hr2 & Hd2 & Ht2 & He).
      exists m2. rewrite Hd2, Ht2, Hd1, Ht1, <- app_assoc. split; [by etrans|done].
Qed.

(** A loop that has not ended polls, at once or after its wake. *)
Lemma js_gets_up (m : machine) :
  js m <> JsDone -> q_shutdown (queue m) = false -> (resting (js m) -> signal m = true \/ 0 < callbacks m) ->
  (js m = JsAsleep -> signal m = false) ->
  exists m1, rtc js_runs m m1 /\ (js m1 = JsRun (retrying (js m)) \/ js m1 = JsTry (retrying (js m))) /\ q_shutdown (queue m1) = false /\
    waiting (queue m1) = waiting (queue m) /\ buffer m1 = buffer m /\ delivered m1 = delivered m /\ too_large m1 = too_large m.
Proof.
  intros Hjd Hs Hre Has. destruct (js m) eqn:Ej; try done.
  - eexists. split.
    { eapply rtc_l; [apply runs_loop; unfold js_step; by rewrite Ej|]. apply rtc_once, runs_loop. unfold js_step. cbn. reflexivity. }
    destruct (_ || _); split_and!; first [done|by left].
  - eexists. split; [apply rtc_once, runs_loop; unfold js_step; by rewrite Ej|]. cbn. destruct (_ || _); split_and!; first [done|by left].
  - exists m. rewrite Ej. split; [apply rtc_refl|]. split_and!; first [done|by left|by right].
  - exists m. rewrite Ej. split; [apply rtc_refl|]. split_and!; first [done|by left|by right].
  - destruct (signal m) eqn:Eg.
    { eexists. split; [apply rtc_once, runs_loop; unfold js_step; by rewrite Ej, Eg|]. split_and!; first [done|by left]. }
    destruct (Hre (or_introl eq_refl)) as [?|Hc]; [done|]. destruct (callbacks m) as [|n] eqn:Ec; [lia|].
    eexists. split.
    { eapply rtc_l; [apply runs_loop; unfold js_step; by rewrite Ej, Eg|]. apply rtc_once, runs_callback. unfold run_callback. cbn. by rewrite Ec. }
    split_and!; first [done|by left].
  - destruct (Hre (or_intror eq_refl)) as [Hg|Hc]; [rewrite Has in Hg; done|]. destruct (callbacks m) as [|n] eqn:Ec; [lia|].
    eexists. split; [apply rtc_once, runs_callback; unfold run_callback; by rewrite Ec|]. unfold wake_signal. cbn. rewrite Ej. split_and!; first [done|by left].
Qed.

(** C24. The loop never sleeps on a request: in every reachable state, if requests
    wait or the serve cycle has been stopped, a loop that has polled an empty
    queue has a wake coming, or a delivery or stop is about to send one.  And
    what becomes of the waiting requests is exactly [loop_takes]: as long as the
    cycle runs and the loop has not ended, with no delivery between its send and
    its wake, the loop and its callbacks alone hand over, in order, each request
    that fits the buffer at its turn; one that does not is lost and the buffer
    grows to it, and a second one in a row that still does not fit ends the loop
    with the rest left behind.  If all of them fit, all are handed over. *)
Theorem deno_loop_drains arrived (m : machine) :
  reachable arrived m ->
  (resting (js m) -> waiting (queue m) <> [] \/ q_shutdown (queue m) = true ->
   signal m = true \/ 0 < callbacks m \/ (exists r, (r, DSent) ∈ delivering m) \/ SWake ∈ stops m) /\
  (js m <> JsDone -> q_shutdown (queue m) = false -> (forall r, (r, DSent) ∉ delivering m) ->
   let '(h, d, e) := loop_takes (buffer m) (retrying (js m)) (waiting (queue m)) in
   (exists m', rtc js_runs m m' /\ delivered m' = delivered m ++ h /\ too_large m' = too_large m ++ d /\
      match e with None => waiting (queue m') = [] | Some behind => js m' = JsDone /\ waiting (queue m') = behind end) /\
   (Forall (fun x => (len (encode x) <= buffer m)%Z) (waiting (queue m)) -> h = waiting (queue m) /\ d = [] /\ e = None)).
Proof.
  intros Hr. pose proof (reachable_inv_deno _ _ Hr) as Hi.
  split; [intros Hre Hw; exact (i_rest _ Hi Hre Hw)|]. intros Hjd Hs Hnd.
  assert (SWake ∉ stops m) as Hns.
  { intros Hin. pose proof (i_stops _ Hi) as Hst. rewrite Forall_forall in Hst. destruct (Hst _ Hin); [done|congruence]. }
  destruct (loop_takes _ _ _) as [[h d] e] eqn:El. split; [|intros Hf; rewrite loop_takes_all in El by done; by injection El as <- <- <-].
  destruct (decide (waiting (queue m) = [])) as [Hw|Hw].
  { rewrite Hw in El. injection El as <- <- <-. exists m. by rewrite !app_nil_r, Hw. }
  destruct (js_gets_up m) as (m1 & Hr1 & Hj1 & Hs1 & Hw1 & Hb1 & Hd1 & Ht1);
    [done|done|intros Hre; destruct (i_rest _ Hi Hre (or_introl Hw)) as [?|[?|[(r & Hin)|Hin]]]; [by left|by right|by destruct (Hnd r)|done]|apply Hi|].
  assert (inv m1) as Hi1 by (clear -Hi Hr1 HML; induction Hr1; [done|]; eauto using inv_js).
  pose proof (js_drain m1 _ Hi1 Hj1 Hs1) as Hdr. rewrite Hw1, Hb1, El in Hdr. destruct Hdr as (m2 & Hr2 & Hd2 & Ht2 & He).
  exists m2. rewrite Hd2, Ht2, Hd1, Ht1. split; [by etrans|done].
Qed.

(** A loop that has ended stays ended. *)
Lemma js_done_final (m m' : machine) :
  rtc (fun a b => step a b \/ exists r, b = arrive r a) m m' -> js m = JsDone -> js m' = JsDone /\ delivered m' = delivered m.
Proof.
  induction 1 as [m|m1 m2 m3 Hs _ IH]; [done|]. intros Hj.
  cut (js m2 = JsDone /\ delivered m2 = delivered m1); [intros [H1 <-]; by apply IH|]. clear IH.
  destruct Hs as [Hs|[r ->]]; [|done].
  destruct Hs as [m l1 req l2 Hd|m l1 req l2 r q Hd E|m l1 req l2 Hd|m|m l1 l2 Hd|m l1 l2 Hd|m l1 l2 Hd|m l1 l2 r c Hd E|m m' Hr|m].
  1-8: unfold wake; cbn; repeat case_match; by cbn.
  - destruct Hr as [m m' Hs|m m' Hs]; [unfold js_step in Hs; by rewrite Hj in Hs|].
    unfold run_callback in Hs. destruct (callbacks m); [done|]. injection Hs as <-. unfold wake_signal. cbn. by rewrite Hj.
  - unfold wake_signal. cbn. by rewrite Hj.
Qed.
End machine.

(** ** A schedule *)

Section schedule.
Context (encode : DeliverableRequest -> Bytes).
#[local] Abbreviation machine := (Machine ChanView).
#[local] Abbreviation empty := (fun c : ChanView DeliverableRequest => match cv_buf c with [] => true | _ => false end).

Inductive Action := AArrive (req : DeliverableRequest) | ADeliver | AStop | AStopStep | AJs | ACallback.

(** The first delivery or the first stop makes its next step. *)
Definition act (am : list DeliverableRequest * machine) (a : Action) : option (list DeliverableRequest * machine) :=
  let '(arrived, m) := am in
  match a with
  | AArrive req => Some (arrived ++ [req], arrive req m)
  | ADeliver =>
      match delivering m with
      | [] => None
      | (req, DLooked) :: l =>
          Some (arrived, match deliver_check (queue m) with
                         | Ok _ => set_delivering ((req, DChecked) :: l) m
                         | Err _ => reject req (set_delivering l m)
                         end)
      | (req, DChecked) :: l =>
          let '(r, q) := deliver_send req (queue m) in
          Some (arrived, match r with
                         | Ok _ => set_queue q (set_delivering ((req, DSent) :: l) m)
                         | Err _ => reject req (set_queue q (set_delivering l m))
                         end)
      | (req, DSent) :: l => Some (arrived, wake (set_delivering l m))
      end
  | AStop => Some (arrived, set_stops (stops m ++ [SSignal]) m)
  | AStopStep =>
      match stops m with
      | [] => None
      | SSignal :: l => Some (arrived, set_queue (set_shutdown true (queue m)) (set_stops (SWake :: l) m))
      | SWake :: l => Some (arrived, wake (set_stops (SLock :: l) m))
      | SLock :: l =>
          Some (arrived, if q_rx_locked (queue m) then set_stops l m
                         else set_queue (set_rx_locked true (queue m)) (set_stops (SDrain :: l) m))
      | SDrain :: l =>
          let '(r, c) := try_recv (q_chan (queue m)) in
          Some (arrived, match r with
                         | Received x => reject x (set_queue (set_chan c (queue m)) m)
                         | _ => set_queue (set_rx_locked false (set_chan c (queue m))) (set_stops l m)
                         end)
      end
  | AJs => pair arrived <$> js_step empty encode m
  | ACallback => pair arrived <$> run_callback m
  end.

Lemma deno_act_reachable am a am' :
  act am a = Some am' -> reachable empty encode am.1 am.2 -> reachable empty encode am'.1 am'.2.
Proof.
  destruct am as [arrived m], a; cbn; intros E Hr.
  - injection E as <-. by apply reach_arrive.
  - destruct (delivering m) as [|[req []] l] eqn:Ed; [done|..].
    + injection E as <-. eapply reach_step; [done|]. by apply (step_check _ _ m [] req l).
    + destruct (deliver_send req (queue m)) as [r q] eqn:Es. injection E as <-. eapply reach_step; [done|].
      by apply (step_send _ _ m [] req l r q).
    + injection E as <-. eapply reach_step; [done|]. by apply (step_wake _ _ m [] req l).
  - injection E as <-. eapply reach_step; [done|]. apply step_stop.
  - destruct (stops m) as [|[] l] eqn:Ed; [done|..].
    + injection E as <-. eapply reach_step; [done|]. by apply (step_stop_signal _ _ m [] l).
    + injection E as <-. eapply reach_step; [done|]. by apply (step_stop_wake _ _ m [] l).
    + injection E as <-. eapply reach_step; [done|]. by apply (step_stop_lock _ _ m [] l).
    + destruct (cv_try_recv (q_chan (queue m))) as [r c] eqn:Es. injection E as <-. eapply reach_step; [done|].
      by apply (step_stop_drain _ _ m [] l r c).
  - destruct (js_step empty encode m) as [m1|] eqn:Ej; [|done]. injection E as <-. eapply reach_step; [done|]. by apply step_js, runs_loop.
  - destruct (run_callback m) as [m1|] eqn:Ej; [|done]. injection E as <-. eapply reach_step; [done|]. by apply step_js, runs_callback.
Qed.

Definition play (l : list Action) : option (list DeliverableRequest * machine) :=
  foldl (fun o a => o ≫= fun am => act am a) (Some ([], machine_new)) l.

Lemma play_reachable l am : play l = Some am -> reachable empty encode am.1 am.2.
Proof.
  unfold play. assert (forall am0, reachable empty encode am0.1 am0.2 ->
    foldl (fun o a => o ≫= fun am => act am a) (Some am0) l = Some am -> reachable empty encode am.1 am.2) as H;
    [|apply (H ([], machine_new)), reach_new].
  induction l as [|a l IH]; intros am0 Hr; cbn; [by intros [= <-]|]. destruct (act am0 a) as [am1|] eqn:E; cbn.
  - apply IH. by eapply deno_act_reachable.
  - intros H. exfalso. clear -H. by induction l.
Qed.

(** A stop can strand a request: when a delivery has passed the shutdown check
    and the stop then signals, drains the empty queue and finishes before the
    delivery sends, the request ends up in a queue that nobody reads: the loop
    has ended, the stop is over, and the request is neither delivered nor
    answered. *)
Theorem stop_can_strand_request (req : DeliverableRequest) :
  exists m, reachable empty encode [req] m /\ delivering m = [] /\ stops m = [] /\ js m = JsDone /\
    waiting (queue m) = [req] /\ delivered m = [] /\ rejected m = [] /\ q_shutdown (queue m) = true.
Proof.
  pose (l := [AArrive req; ADeliver; AJs; AJs; AStop; AStopStep; AStopStep; AStopStep; AStopStep; AJs; ADeliver; ADeliver]).
  destruct (play l) as [[arrived m]|] eqn:E; [|by vm_compute in E].
  pose proof (play_reachable _ _ E) as Hr. cbn in Hr. exists m. vm_compute in E. injection E as <- <-. by split_and!.
Qed.

(** Two requests end the loop: when the first does not fit the loop's first
    buffer of 4096 bytes and the one behind it is larger still, both are lost
    and the loop ends although the serve cycle has not been stopped; whatever
    arrives or happens from then on, no request reaches the handler. *)
Theorem large_requests_end_loop (x y : DeliverableRequest) :
  (4096 < len (encode x) < len (encode y))%Z ->
  exists m, reachable empty encode [x; y] m /\ js m = JsDone /\ q_shutdown (queue m) = false /\
    delivered m = [] /\ rejected m = [] /\ waiting (queue m) = [] /\
    forall m', rtc (fun a b => step empty encode a b \/ exists r, b = arrive r a) m m' -> js m' = JsDone /\ delivered m' = [].
Proof.
  intros [Hx Hy].
  pose (l := [AJs; AJs; AArrive x; ADeliver; ADeliver; ADeliver; AArrive y; ADeliver; ADeliver; ADeliver; AJs]).
  destruct (play l) as [[arrived m]|] eqn:E; [|by vm_compute in E].
  pose proof (play_reachable _ _ E) as Hr. cbn in Hr. vm_compute in E. injection E as <- <-.
  apply Z.ltb_lt in Hx, Hy.
  eassert (reachable empty encode [x; y] _) as Hd.
  { eapply reach_step; [eapply reach_step; [eapply reach_step; [exact Hr|]|]|]; apply step_js, runs_loop.
    - unfold js_step. cbn. rewrite Hx. reflexivity.
    - reflexivity.
    - unfold js_step. cbn. rewrite Hy. reflexivity. }
  eexists. split; [exact Hd|]. split_and!; try done. intros m' Hm'. by apply js_done_final in Hm'.
Qed.
End schedule.

Definition demo_deliverable : DeliverableRequest := from_payload demo_payload.
Definition demo_encode (r : DeliverableRequest) : Bytes := replicate 10 Byte.x61.
Definition demo_empty (c : ChanView DeliverableRequest) : bool := match cv_buf c with [] => true | _ => false end.
(** The loop has gone to sleep when a request is delivered. *)
Definition demo_run : list Action :=
  [AJs; AJs; AJs; AJs; AJs; AArrive demo_deliverable; ADeliver; ADeliver; ADeliver].
Definition demo_am : list DeliverableRequest * Machine ChanView := default ([], machine_new) (play demo_encode demo_run).

Lemma demo_am_reachable : reachable demo_empty demo_encode demo_am.1 demo_am.2.
Proof. apply (play_reachable demo_encode demo_run). by vm_compute. Qed.

Lemma deno_request_conservation_witness :
  demo_am.1 = [demo_deliverable] /\ length (waiting (queue demo_am.2)) <= 256 /\ waiting (queue demo_am.2) <> [].
Proof.
  split; [by vm_compute|]. split; [|by vm_compute].
  apply (deno_request_conservation demo_empty demo_encode demo_am.1 demo_am.2 demo_am_reachable).
Defined.

Lemma deno_loop_drains_witness :
  js demo_am.2 = JsAsleep /\
  exists m', rtc (js_runs demo_empty demo_encode) demo_am.2 m' /\ delivered m' = [demo_deliverable].
Proof.
  split; [by vm_compute|].
  destruct (deno_loop_drains demo_empty demo_encode demo_am.1 demo_am.2 demo_am_reachable) as [_ Hd].
  destruct Hd as [(m' & Hr & Hd & _) _]; [by vm_compute|by vm_compute| |].
  - intros r. vm_compute. intros Hin. inversion Hin.
  - exists m'. split; [done|]. by vm_compute in Hd.
Defined.

(** A request of 5000 bytes and the loop's first buffer. *)
Lemma small_buffer_loses_request_witness :
  exists q1, try_next (fun _ => replicate 5000 Byte.x61) 4096
    (set_chan (mkChan [demo_deliverable] 256 1 true) (queue_new : ServeQueue ChanView)) = ((-5000)%Z, None, q1) /\
    waiting q1 = [].
Proof.
  destruct (small_buffer_loses_request (fun _ => replicate 5000 Byte.x61)
    (set_chan (mkChan [demo_deliverable] 256 1 true) (queue_new : ServeQueue ChanView)) demo_deliverable [] 4096)
    as (q1 & E & Hw & _); [|done|done|done|by vm_compute|by exists q1].
  unfold queue_ok, QUEUE_CAPACITY. cbn. lia.
Defined.

Lemma large_requests_end_loop_witness :
  exists m, reachable demo_empty (fun r => replicate (if String.eqb (dr_method r) "GET" then 4500 else 4800) Byte.x61)
      [demo_deliverable; mkDeliverable 2 2 2 false "POST" "/" [] "bob"] m /\
    js m = JsDone /\ q_shutdown (queue m) = false.
Proof.
  destruct (large_requests_end_loop (fun r => replicate (if String.eqb (dr_method r) "GET" then 4500 else 4800) Byte.x61)
    demo_deliverable (mkDeliverable 2 2 2 false "POST" "/" [] "bob")) as (m & Hr & Hj & Hs & _); [by vm_compute|].
  by exists m.
Defined.

(** An endpoint whose loop has installed its callback, with one request queued. *)
Definition demo_deno : Deno ChanView :=
  (deliver 7 demo_deliverable (set_callback demo_empty 7 1 (register 7 (mkDeno ∅ [] [])).2).2).2.

Lemma demo_deno_ok : Forall queue_ok (queues demo_deno).
Proof. repeat constructor; vm_compute; lia. Qed.

Lemma deno_delivery_outcome_witness :
  let '(r, d') := deliver 7 demo_deliverable demo_deno in
  r = Ok tt /\ wakes d' = [1%Z; 1%Z] /\ registry d' = registry demo_deno.
Proof.
  pose proof (deno_delivery_outcome 7 demo_deliverable demo_deno demo_deno_ok) as Hd.
  destruct (deliver 7 demo_deliverable demo_deno) as [r d'] eqn:E. destruct Hd as [Hr _].
  vm_compute in E. injection E as <- <-. by split_and!.
Defined.

Lemma stop_leaves_body_open_witness :
  exists w3 b,
    dispatch_poll (fun _ => true) (fun _ => true) (fun _ => true) demo_pd
      (stop_serve (fun _ => true) (fun _ => true) (fun _ => true) (fun s => s) 7 demo_deno demo_out.2).2 =
      (Ready (mkResponse 503 [("content-length", "0")] (BodyReading (pd_res_reader demo_pd))), w3) /\
    hp_chans (heap w3) !! rd_chan (pd_res_reader demo_pd) = Some b /\ cv_senders (bview b) = 1.
Proof.
  pose proof (stop_leaves_body_open demo_text (fun _ => true) (fun _ => true) (fun _ => true) (fun s => s)
    5 demo_dispatcher demo_req "alice" demo_world demo_out.2 demo_payload demo_pump demo_pd 7 demo_deno 0
    (set_waker (Some 1%Z) (set_chan (mkChan [demo_deliverable] 256 1 true) queue_new)) demo_dispatched eq_refl eq_refl) as Hs.
  destruct (stop_serve _ _ _ _ 7 demo_deno demo_out.2) as [d' w2].
  destruct Hs as [_ (w3 & b & E1 & _ & E2 & E3)]; [by vm_compute|by vm_compute|vm_compute; lia|done|done|].
  by exists w3, b.
Defined.
