(* ===== verification/TauriState.v ===== *)
(** * Tauri endpoint state (iroh-http-tauri: state.rs, discovery_handles.rs)

    Which endpoint owns a node id, which endpoint the [httpi:] scheme resolves
    through, and the handles of desktop discovery resources.

    [replace_endpoint_for_node_id] and [bind_if_unbound] take several steps on
    shared state, so a machine interleaves their steps. *)

From stdpp Require Import base numbers list strings gmap fin_maps relations.
From Stdlib Require Import ZArith Lia.
From S2P Require Import Prelude Extern BodyChannel Handles Sessions.

Open Scope string_scope.
Open Scope list_scope.

(** ** Discovery handles *)

Record DiscoveryHandleMap (T : Type) := mkHandles { next : Z; entries : gmap Z T }.
Arguments mkHandles {T} _ _.
Arguments next {T} _.
Arguments entries {T} _.

Section handles.
Context {T : Type}.
Definition handles_default : DiscoveryHandleMap T := mkHandles 1 ∅.

Definition handles_insert (value : T) (m : DiscoveryHandleMap T) : Result Z string * DiscoveryHandleMap T :=
  let handle := next m in
  match checked_add (next m) 1 with
  | None => (Err "discovery handle space exhausted", m)
  | Some n => (Ok handle, mkHandles n (<[handle := value]> (entries m)))
  end.
Definition handles_get (handle : Z) (m : DiscoveryHandleMap T) : option T := entries m !! handle.
Definition handles_remove (handle : Z) (m : DiscoveryHandleMap T) : option T * DiscoveryHandleMap T :=
  (entries m !! handle, mkHandles (next m) (delete handle (entries m))).
Definition handles_remove_if (handle : Z) (predicate : T -> bool) (m : DiscoveryHandleMap T)
  : option T * DiscoveryHandleMap T :=
  match entries m !! handle with
  | Some v => if predicate v then handles_remove handle m else (None, m)
  | None => (None, m)
  end.

Inductive HandlesOp := HInsert (value : T) | HRemove (handle : Z) | HRemoveIf (handle : Z) (predicate : T -> bool).
Definition handles_op (m : DiscoveryHandleMap T) (op : HandlesOp) : DiscoveryHandleMap T :=
  match op with
  | HInsert v => (handles_insert v m).2
  | HRemove h => (handles_remove h m).2
  | HRemoveIf h p => (handles_remove_if h p m).2
  end.

Lemma handles_op_grows (m : DiscoveryHandleMap T) op :
  (next m <= next (handles_op m op))%Z /\
  forall k, (k < next m)%Z -> entries m !! k = None -> entries (handles_op m op) !! k = None.
Proof.
  destruct op as [x|h|h p]; cbn.
  - unfold handles_insert, checked_add. destruct (next m + 1 <=? U64_MAX)%Z; cbn; [|split; [lia|done]]. split; [lia|].
    intros k Hk Ek. by rewrite lookup_insert_ne by lia.
  - split; [lia|]. intros j _ Ej. rewrite lookup_delete_None. by right.
  - unfold handles_remove_if. destruct (entries m !! h) as [v|]; cbn; [|split; [lia|done]]. destruct (p v); cbn; [|split; [lia|done]].
    split; [lia|]. intros j _ Ej. rewrite lookup_delete_None. by right.
Qed.

Lemma handles_ops_grow ops (m : DiscoveryHandleMap T) :
  (next m <= next (fold_left handles_op ops m))%Z /\
  forall k, (k < next m)%Z -> entries m !! k = None -> entries (fold_left handles_op ops m) !! k = None.
Proof.
  revert m. induction ops as [|op l IH]; intros m; cbn; [split; [lia|done]|].
  destruct (handles_op_grows m op) as [Hn Hk]. destruct (IH (handles_op m op)) as [Hn' Hk'].
  split; [lia|]. intros k Hlt Ek. apply Hk'; [lia|by apply Hk].
Qed.

(** Every handle in use is below the next one. *)
Lemma handles_below ops :
  let m := fold_left handles_op ops handles_default in
  map_Forall (fun k (_ : T) => (k < next m)%Z) (entries m).
Proof.
  induction ops as [|op l IH] using rev_ind; [by apply map_Forall_empty|]. rewrite fold_left_app. cbn in *.
  revert IH. generalize (fold_left handles_op l handles_default) as m1. intros m1 IH. destruct op as [x|k|k p]; cbn.
  - unfold handles_insert, checked_add. destruct (next m1 + 1 <=? U64_MAX)%Z; cbn; [|done]. apply map_Forall_insert_2; [lia|].
    eapply map_Forall_impl; [exact IH|]. cbn. lia.
  - by apply map_Forall_delete.
  - unfold handles_remove_if. destruct (entries m1 !! k) as [v|]; [|done]. destruct (p v); [|done]. cbn. by apply map_Forall_delete.
Qed.

(** A discovery handle is never used for two resources: one that was returned
    names its resource until that is removed, and after that, through any
    further inserts and removals, it names nothing and is not returned again;
    a conditional removal takes a resource only if it is the one expected. *)
Theorem discovery_handles_never_reused (ops ops' : list HandlesOp) v h m :
  let m0 := fold_left handles_op ops handles_default in
  handles_insert v m0 = (Ok h, m) ->
  handles_get h m0 = None /\ handles_get h m = Some v /\
  (forall h' p, (handles_remove_if h' p m).1 = None <-> forall x, handles_get h' m = Some x -> p x = false) /\
  (forall m', m' = fold_left handles_op ops' (handles_remove h m).2 ->
     handles_get h m' = None /\ forall v' h' m'', handles_insert v' m' = (Ok h', m'') -> h' <> h).
Proof.
  intros m0 Hi. unfold handles_insert in Hi. destruct (checked_add (next m0) 1) as [n|] eqn:En; [|done].
  unfold checked_add in En. destruct (_ <=? _)%Z; [|done]. injection En as <-. injection Hi as <- <-. unfold handles_get. cbn.
  split_and!.
  - destruct (entries m0 !! next m0) eqn:E; [|done]. apply (handles_below ops) in E. fold m0 in E. lia.
  - by rewrite lookup_insert_eq.
  - intros h' p. unfold handles_remove_if. cbn. destruct (<[_ := v]> _ !! h') as [x|] eqn:E; cbn; [|naive_solver].
    destruct (p x) eqn:Ep; cbn; [|naive_solver]. rewrite E. split; [done|]. intros H. specialize (H x eq_refl). congruence.
  - intros m' ->. match goal with |- context [fold_left handles_op ops' ?x] => destruct (handles_ops_grow ops' x) as [Hn Hk] end.
    cbn in Hn, Hk. split.
    + apply Hk; [lia|]. by rewrite lookup_delete_eq.
    + intros v' h' m'' Hins. unfold handles_insert in Hins. destruct (checked_add _ _); [|done]. injection Hins as <- _. lia.
Qed.
End handles.

(** ** Endpoint owners *)

Section owners.
Context {K : Type} {M : Type -> Type} `{SlotMap K M} {Ep : Type}.

(** The registry, the owner of each node id and the scheme's endpoint. *)
Record TauriState := mkTauri { endpoint_map : M Ep; endpoint_owners : gmap string Z; active : Z }.

Definition set_map x s := mkTauri x (endpoint_owners s) (active s).
Definition set_owners x s := mkTauri (endpoint_map s) x (active s).
Definition set_active x s := mkTauri (endpoint_map s) (endpoint_owners s) x.

(** The three steps of [replace_endpoint_for_node_id]. *)
Definition replace_insert (ep : Ep) (s : TauriState) : Z * TauriState :=
  let '(handle, m) := insert_endpoint ep (endpoint_map s) in (handle, set_map m s).
Definition replace_own (node_id : string) (handle : Z) (s : TauriState) : option Z * TauriState :=
  let old := endpoint_owners s !! node_id in
  (match old with Some o => if (o =? handle)%Z then None else Some o | None => None end,
   set_owners (<[node_id := handle]> (endpoint_owners s)) s).
Definition replace_remove (old : Z) (s : TauriState) : option (Z * Ep) * TauriState :=
  let '(ep, m) := Sessions.remove_endpoint old (endpoint_map s) in (pair old <$> ep, set_map m s).

Definition replace_endpoint_for_node_id (node_id : string) (ep : Ep) (s : TauriState)
  : Z * option (Z * Ep) * TauriState :=
  let '(handle, s) := replace_insert ep s in
  let '(old, s) := replace_own node_id handle s in
  match old with
  | Some o => let '(removed, s) := replace_remove o s in (handle, removed, s)
  | None => (handle, None, s)
  end.

Definition remove_endpoint_owner (handle : Z) (s : TauriState) : TauriState :=
  set_owners (filter (fun kv => kv.2 <> handle) (endpoint_owners s)) s.
Definition remove_endpoint (handle : Z) (s : TauriState) : option Ep * TauriState :=
  let s := remove_endpoint_owner handle s in
  let '(ep, m) := Sessions.remove_endpoint handle (endpoint_map s) in (ep, set_map m s).
Definition clear_endpoint_owners (s : TauriState) : TauriState := set_owners ∅ s.

(** ** Scheme state *)

Definition active_handle (s : TauriState) : option Z := if (active s =? 0)%Z then None else Some (active s).
Definition bind (handle : Z) (s : TauriState) : TauriState := set_active handle s.

Definition compare_exchange (old new : Z) (s : TauriState) : bool * TauriState :=
  if (active s =? old)%Z then (true, set_active new s) else (false, s).

(** [bind_if_unbound]: the handle it has loaded, then whether it found it dead. *)
Inductive BindPc := BLoad | BLoaded (current : Z) | BDead (current : Z) | BBind.

Definition bind_step (handle : Z) (pc : BindPc) (s : TauriState) : (BindPc + bool) * TauriState :=
  match pc with
  | BLoad => (inl (BLoaded (active s)), s)
  | BLoaded current =>
      (inl (if negb (current =? 0)%Z && match get_endpoint current (endpoint_map s) with None => true | _ => false end
            then BDead current else BBind), s)
  | BDead current => (inl BBind, (compare_exchange current 0 s).2)
  | BBind => let '(ok, s) := compare_exchange 0 handle s in (inr ok, s)
  end.

(** The call without interference. *)
Definition bind_if_unbound (handle : Z) (s : TauriState) : bool * TauriState :=
  let current := active s in
  let s := if negb (current =? 0)%Z && match get_endpoint current (endpoint_map s) with None => true | _ => false end
           then (compare_exchange current 0 s).2 else s in
  compare_exchange 0 handle s.

(** ** The machine *)

(** A call of [replace_endpoint_for_node_id] after its first and its second step. *)
Inductive ReplacePc := RInserted (handle : Z) | RSwapped (old : option Z).

Record Machine := mkMachine {
  tauri : TauriState;
  replacing : list (string * ReplacePc);
  closing : list Z;
  binding : list (Z * BindPc);
  node_of : gmap Z string
}.

Inductive step : Machine -> Machine -> Prop :=
| step_insert m node_id ep handle s :
    replace_insert ep (tauri m) = (handle, s) ->
    step m (mkMachine s (replacing m ++ [(node_id, RInserted handle)]) (closing m) (binding m) (<[handle := node_id]> (node_of m)))
| step_own m l1 node_id handle l2 old s :
    replacing m = l1 ++ (node_id, RInserted handle) :: l2 -> replace_own node_id handle (tauri m) = (old, s) ->
    step m (mkMachine s (l1 ++ (node_id, RSwapped old) :: l2) (closing m) (binding m) (node_of m))
| step_remove_old m l1 node_id old l2 s :
    replacing m = l1 ++ (node_id, RSwapped old) :: l2 ->
    s = match old with Some o => (replace_remove o (tauri m)).2 | None => tauri m end ->
    step m (mkMachine s (l1 ++ l2) (closing m) (binding m) (node_of m))
| step_close m handle :
    step m (mkMachine (remove_endpoint_owner handle (tauri m)) (replacing m) (closing m ++ [handle]) (binding m) (node_of m))
| step_close_remove m l1 handle l2 :
    closing m = l1 ++ handle :: l2 ->
    step m (mkMachine (set_map (Sessions.remove_endpoint handle (endpoint_map (tauri m))).2 (tauri m))
              (replacing m) (l1 ++ l2) (binding m) (node_of m))
| step_bind_start m handle :
    step m (mkMachine (tauri m) (replacing m) (closing m) (binding m ++ [(handle, BLoad)]) (node_of m))
| step_bind m l1 handle pc l2 r s :
    binding m = l1 ++ (handle, pc) :: l2 -> bind_step handle pc (tauri m) = (r, s) ->
    step m (mkMachine s (replacing m) (closing m)
              (match r with inl pc => l1 ++ (handle, pc) :: l2 | inr _ => l1 ++ l2 end) (node_of m)).

Definition machine_new : Machine := mkMachine (mkTauri sm_with_key ∅ 0) [] [] [] ∅.

End owners.
Arguments TauriState M Ep : clear implicits.
Arguments Machine M Ep : clear implicits.

(** ** Properties *)

Section props.
Context {K : Type} {M : Type -> Type} `{HSM : SlotMap K M} `{Countable K} `{HSL : !SlotMapLaws K M} {Ep : Type}.
#[local] Abbreviation machine := (Machine M Ep).

(** The first live endpoint keeps the scheme; a dead one gives way. *)
Lemma bind_if_unbound_spec handle (s : TauriState M Ep) :
  match active_handle s with
  | Some h =>
      match get_endpoint h (endpoint_map s) with
      | Some _ => bind_if_unbound handle s = (false, s)
      | None => bind_if_unbound handle s = (true, set_active handle s)
      end
  | None => bind_if_unbound handle s = (true, set_active handle s)
  end.
Proof.
  unfold active_handle, bind_if_unbound, compare_exchange. destruct (active s =? 0)%Z eqn:E; cbn; [by rewrite E|].
  destruct (get_endpoint (active s) (endpoint_map s)); cbn; [by rewrite E|]. by rewrite Z.eqb_refl.
Qed.

Definition view (m : machine) : gmap K Ep := sm_view (endpoint_map (tauri m)).

(** Who answers for a live endpoint of [n]: the owner entry, a replacement under
    way, or a close under way. *)
Definition accounted (m : machine) (n : string) (k : K) : Prop :=
  endpoint_owners (tauri m) !! n = Some (as_ffi k) \/
  (n, RInserted (as_ffi k)) ∈ replacing m \/ (n, RSwapped (Some (as_ffi k))) ∈ replacing m \/
  exists h, h ∈ closing m /\ handle_to_key h = k.

Record inv (m : machine) : Prop := mkInv {
  i_issued : forall h n, node_of m !! h = Some n -> exists k, h = as_ffi k;
  i_live : forall k ep, view m !! k = Some ep -> exists n, node_of m !! as_ffi k = Some n /\ accounted m n k
}.

(** A step that keeps the live endpoints, or removes some. *)
Lemma inv_less (m m' : machine) :
  node_of m' = node_of m ->
  (forall k ep n, view m' !! k = Some ep -> accounted m n k -> view m !! k = Some ep /\ accounted m' n k) ->
  (forall k ep, view m' !! k = Some ep -> view m !! k = Some ep) -> inv m -> inv m'.
Proof.
  intros Hn Hk Hs [H1 H2]. split; rewrite Hn; [done|]. intros k ep E. destruct (H2 k ep (Hs k ep E)) as (n & En & Ha).
  exists n. split; [done|]. by eapply Hk.
Qed.

Lemma removed_view h (mp : M Ep) k ep :
  sm_view (Sessions.remove_endpoint h mp).2 !! k = Some ep -> sm_view mp !! k = Some ep /\ handle_to_key h <> k.
Proof. unfold Sessions.remove_endpoint. rewrite sm_view_remove. intros [? ?]%lookup_delete_Some. done. Qed.

Lemma inv_step_tauri (m m' : machine) : step m m' -> inv m -> inv m'.
Proof.
  intros Hs Hi. destruct Hs as [m n0 ep handle s E|m l1 n0 h0 l2 old s Hr E|m l1 n0 old l2 s Hr Hs|m h0|m l1 h0 l2 Hc|m h0|m l1 h0 pc l2 r s Hb E].
  - unfold replace_insert, insert_endpoint in E. pose proof (sm_view_insert _ ep (endpoint_map (tauri m))) as Hv.
    destruct (sm_insert ep (endpoint_map (tauri m))) as [k0 mp]. cbn in Hv. injection E as <- <-. destruct Hi as [H1 H2]. split.
    + cbn. intros h n [[<- <-]|[_ Hn]]%lookup_insert_Some; [by exists k0|by eapply H1].
    + intros k e. unfold view. cbn. rewrite Hv. intros [[<- <-]|[Hne Hk]]%lookup_insert_Some.
      * exists n0. unfold key_to_handle. rewrite lookup_insert_eq. split; [done|]. right; left. cbn. apply elem_of_app. right. by left.
      * destruct (H2 k e Hk) as (n & En & Ha). exists n. unfold key_to_handle. rewrite lookup_insert_ne.
        2: { intros Heq. apply Hne. by rewrite <- (from_as_ffi k0), Heq, from_as_ffi. }
        split; [done|]. destruct Ha as [?|[?|[?|?]]]; [by left|right; left|right; right; left|by right; right; right];
          cbn; apply elem_of_app; by left.
  - unfold replace_own in E. injection E as <- <-. apply (inv_less m); [done| |done|done]. intros k ep n Hk Ha. split; [done|].
    unfold accounted in *. cbn. rewrite Hr in Ha. destruct (decide (n = n0)) as [->|Hne].
    + rewrite lookup_insert_eq. destruct (decide (h0 = as_ffi k)) as [->|Hk0]; [by left|]. right.
      destruct Ha as [Ha|[Ha|[Ha|Ha]]]; [|left|right; left|by right; right].
      * right; left. apply elem_of_app. right. rewrite Ha. rewrite (proj2 (Z.eqb_neq _ _)) by congruence. by left.
      * apply elem_of_app in Ha as [?|Ha]; apply elem_of_app; [by left|right]. apply elem_of_cons in Ha as [?|?]; [congruence|by right].
      * apply elem_of_app in Ha as [?|Ha]; apply elem_of_app; [by left|right]. apply elem_of_cons in Ha as [?|?]; [congruence|by right].
    + rewrite lookup_insert_ne by done. destruct Ha as [?|[Ha|[Ha|?]]]; [by left|right; left|right; right; left|by right; right; right];
        apply elem_of_app in Ha as [?|Ha]; apply elem_of_app; [by left|right|by left|right];
        (apply elem_of_cons in Ha as [?|?]; [congruence|by right]).
  - assert (forall k ep, sm_view (endpoint_map s) !! k = Some ep -> view m !! k = Some ep /\ old <> Some (as_ffi k)) as Hv.
    { subst s. destruct old as [o|]; [|done]. unfold replace_remove.
      pose proof (removed_view o (endpoint_map (tauri m))) as Hrv. destruct (Sessions.remove_endpoint o _) as [e mp]. cbn in *.
      intros k ep Hk. destruct (Hrv k ep Hk) as [? Hne]. split; [done|]. intros [= ->]. apply Hne. apply from_as_ffi. }
    assert (endpoint_owners s = endpoint_owners (tauri m)) as Ho.
    { subst s. destruct old as [o|]; [|done]. unfold replace_remove. by destruct (Sessions.remove_endpoint o _). }
    apply (inv_less m); [done| |intros k ep Hk; by apply Hv|done]. intros k ep n Hk Ha. destruct (Hv k ep Hk) as [? Hold]. split; [done|].
    unfold accounted in *. cbn. rewrite Ho. rewrite Hr in Ha.
    destruct Ha as [?|[Ha|[Ha|?]]]; [by left|right; left|right; right; left|by right; right; right];
      apply elem_of_app in Ha as [?|Ha]; apply elem_of_app; [by left|right|by left|right];
      (apply elem_of_cons in Ha as [?|?]; [congruence|done]).
  - apply (inv_less m); [done| |done|done]. intros k ep n Hk Ha. split; [done|]. unfold accounted in *. cbn.
    destruct Ha as [Ha|[?|[?|(h & Hin & ?)]]]; [|by right; left|by right; right; left|].
    + destruct (decide (as_ffi k = h0)) as [<-|Hne].
      * right; right; right. exists (as_ffi k). split; [apply elem_of_app; right; by left|apply from_as_ffi].
      * left. by rewrite map_lookup_filter_Some.
    + right; right; right. exists h. split; [apply elem_of_app; by left|done].
  - apply (inv_less m); [done| |intros k ep Hk; by apply removed_view in Hk as [? _]|done]. intros k ep n Hk Ha.
    apply removed_view in Hk as [? Hne]. split; [done|]. unfold accounted in *. cbn. rewrite Hc in Ha.
    destruct Ha as [?|[?|[?|(h & Hin & Hh)]]]; [by left|by right; left|by right; right; left|]. right; right; right. exists h.
    split; [|done]. apply elem_of_app in Hin as [?|Hin]; apply elem_of_app; [by left|right]. apply elem_of_cons in Hin as [->|?]; done.
  - by apply (inv_less m).
  - assert (endpoint_map s = endpoint_map (tauri m) /\ endpoint_owners s = endpoint_owners (tauri m)) as [Hm Ho].
    { destruct pc; cbn in E; unfold compare_exchange in E; repeat case_match; by simplify_eq. }
    apply (inv_less m); [done| |by unfold view; cbn; rewrite Hm|done]. unfold view, accounted. cbn. rewrite Hm, Ho. done.
Qed.

(** C39. At most one live endpoint per node id: however replacements, closes and
    scheme bindings are interleaved, once the calls under way have finished two
    live handles that were inserted for the same node id are the same handle,
    and it is the one the owner table names; so a page that was reloaded with a
    persisted key never leaves its old endpoint running beside the new one. *)
Theorem one_live_endpoint_per_node (m : machine) n h1 h2 ep1 ep2 :
  rtc step machine_new m -> replacing m = [] -> closing m = [] ->
  node_of m !! h1 = Some n -> node_of m !! h2 = Some n ->
  get_endpoint h1 (endpoint_map (tauri m)) = Some ep1 -> get_endpoint h2 (endpoint_map (tauri m)) = Some ep2 ->
  h1 = h2 /\ endpoint_owners (tauri m) !! n = Some h1.
Proof.
  intros Hr Hrep Hcl N1 N2 G1 G2.
  assert (inv m) as [H1 H2].
  { revert Hr. apply (rtc_ind_r inv); [|intros; by eapply inv_step_tauri].
    split; cbn; [intros h n'; by rewrite lookup_empty|]. intros k ep. unfold view. cbn. by rewrite sm_view_with_key, lookup_empty. }
  assert (forall h ep, node_of m !! h = Some n -> get_endpoint h (endpoint_map (tauri m)) = Some ep ->
    endpoint_owners (tauri m) !! n = Some h) as Hown.
  { intros h ep Hn Hg. destruct (H1 h n Hn) as [k ->]. unfold get_endpoint, handle_to_key in Hg. rewrite from_as_ffi, sm_view_get in Hg.
    destruct (H2 k ep Hg) as (n' & Hn' & Ha). rewrite Hn in Hn'. injection Hn' as <-.
    destruct Ha as [?|[Ha|[Ha|(h & Ha & _)]]]; [done|..]; rewrite ?Hrep, ?Hcl in Ha; by apply elem_of_nil in Ha. }
  pose proof (Hown h1 ep1 N1 G1). pose proof (Hown h2 ep2 N2 G2). split; [congruence|done].
Qed.
End props.

(** ** Witnesses *)

Lemma discovery_handles_never_reused_witness :
  exists m, handles_insert 8 handles_default = (Ok 1%Z, m) /\
    handles_get 1 (fold_left handles_op [HInsert 9; HRemove 1] (handles_remove 1 m).2) = None.
Proof.
  destruct (handles_insert 8 handles_default) as [r m] eqn:E. vm_compute in E. injection E as <- E.
  exists m. split; [done|].
  destruct (discovery_handles_never_reused [] [HInsert 9; HRemove 1] 8 1 m) as (_ & _ & _ & Hd); [by subst m|].
  by apply Hd.
Defined.

(** Two replacements for one node id that overlap. *)
Definition demo_insert (s : TauriState VecMap nat) (ep : nat) := replace_insert ep s.
Definition demo_m1 : Machine VecMap nat :=
  let '(h, s) := demo_insert (mkTauri sm_with_key ∅ 0) 10 in mkMachine s [("n", RInserted h)] [] [] {[h := "n"]}.
Definition demo_m2 : Machine VecMap nat :=
  let '(h, s) := demo_insert (tauri demo_m1) 11 in
  mkMachine s (replacing demo_m1 ++ [("n", RInserted h)]) [] [] (<[h := "n"]> (node_of demo_m1)).
Definition demo_m3 : Machine VecMap nat :=
  let '(old, s) := replace_own "n" 4294967297 (tauri demo_m2) in
  mkMachine s [("n", RSwapped old); ("n", RInserted 4294967298)] [] [] (node_of demo_m2).
Definition demo_m4 : Machine VecMap nat :=
  let '(old, s) := replace_own "n" 4294967298 (tauri demo_m3) in
  mkMachine s [("n", RSwapped None); ("n", RSwapped old)] [] [] (node_of demo_m3).
Definition demo_m5 : Machine VecMap nat := mkMachine (tauri demo_m4) [("n", RSwapped (Some 4294967297%Z))] [] [] (node_of demo_m4).
Definition demo_m6 : Machine VecMap nat :=
  mkMachine (replace_remove 4294967297 (tauri demo_m5)).2 [] [] [] (node_of demo_m5).

Lemma demo_m6_reachable : rtc step machine_new demo_m6.
Proof.
  apply (rtc_l _ _ demo_m1).
  { exact (step_insert machine_new "n" 10 _ _ eq_refl). }
  apply (rtc_l _ _ demo_m2); [exact (step_insert demo_m1 "n" 11 _ _ eq_refl)|].
  apply (rtc_l _ _ demo_m3); [exact (step_own demo_m2 [] "n" 4294967297 [("n", RInserted 4294967298%Z)] _ _ eq_refl eq_refl)|].
  apply (rtc_l _ _ demo_m4); [exact (step_own demo_m3 [("n", RSwapped None)] "n" 4294967298 [] _ _ eq_refl eq_refl)|].
  apply (rtc_l _ _ demo_m5); [exact (step_remove_old demo_m4 [] "n" None [("n", RSwapped (Some 4294967297%Z))] _ eq_refl eq_refl)|].
  apply rtc_once. exact (step_remove_old demo_m5 [] "n" (Some 4294967297%Z) [] _ eq_refl eq_refl).
Qed.

Lemma one_live_endpoint_per_node_witness :
  get_endpoint 4294967297 (endpoint_map (tauri demo_m6)) = None /\
  endpoint_owners (tauri demo_m6) !! "n" = Some 4294967298%Z.
Proof.
  split; [by vm_compute|].
  apply (one_live_endpoint_per_node demo_m6 "n" 4294967298 4294967298 11 11 demo_m6_reachable); by vm_compute.
Defined.
