(* ===== verification/MobileActor.v ===== *)
(** * Native mobile discovery transport (iroh-http-tauri: mobile_discovery_transport.rs)

    The handles that give the discovery engine its transport on a mobile
    platform.  A handle is a queue of commands and an actor that serves them with
    calls of the native side; the native side is the environment, so the answer
    of each native call is a step.  Callers are numbered; a reply that is
    dropped with its command is what the caller's [unwrap_or] makes of it. *)

From stdpp Require Import base numbers list strings gmap fin_maps relations sorting.
From Stdlib Require Import ZArith Lia Strings.Ascii.
From S2P Require Import Prelude Text Net DnsSd.

Open Scope string_scope.
Open Scope list_scope.

(** ** Native records *)

Record MobileServiceRecord := mkMobileRecord {
  mr_is_active : bool;
  mr_service_type : string;
  mr_instance_name : string;
  mr_host : option string;
  mr_port : Z;
  mr_addrs : list string;
  mr_txt : gmap string string
}.

Inductive MobileSessionStatus := Active | Closed | Failed.

Record DnsSdBrowsePollResponse := mkPollResponse {
  pr_status : MobileSessionStatus;
  pr_records : list MobileServiceRecord;
  pr_error : option string
}.

(** [trim_end_matches('.')] and [strip_suffix], on the reversed characters. *)
Fixpoint drop_dots (l : list ascii) : list ascii :=
  match l with a :: l' => if decide (a = "."%char) then drop_dots l' else l | [] => [] end.
Definition trim_end_dots (s : string) : string := text (reverse (drop_dots (reverse (chars s)))).
Definition strip_suffix (p s : string) : option string :=
  (fun r => text (reverse (chars r))) <$> strip_prefix (text (reverse (chars p))) (text (reverse (chars s))).

Definition short (value : string) : string :=
  default (trim_end_dots value) (strip_suffix ".local" (trim_end_dots value)).
Definition equivalent_service_type (native configured : string) : bool :=
  eq_ignore_ascii_case (short native) (short configured).

Definition key_le (a b : string * string) : Prop := String.leb a.1 b.1 = true.
#[global] Instance key_le_dec : RelDecision key_le.
Proof. intros a b. unfold key_le. apply _. Defined.

Section mobile.
Context {Id Relay : Type} `{IrohNet Id Relay} (debug_str : string -> string).

Fixpoint parse_native_addrs (addrs : list string) : Result (list SocketAddr) TransportError :=
  match addrs with
  | [] => Ok []
  | address :: addrs =>
      match sock_parse address with
      | None => Err ("native DNS-SD returned an invalid socket address: " +:+ address)
      | Some a => let? l := parse_native_addrs addrs in Ok (a :: l)
      end
  end.

Definition raw_event_from_mobile (record : MobileServiceRecord) (service_type : string)
  : Result RawEvent TransportError :=
  if negb (equivalent_service_type (mr_service_type record) service_type)
  then Err ("native DNS-SD returned service type " +:+ debug_str (mr_service_type record) +:+ " for " +:+
            debug_str service_type)
  else if negb (mr_is_active record) then Ok (Remove service_type (mr_instance_name record))
  else
    let? addrs := parse_native_addrs (mr_addrs record) in
    Ok (Upsert (mkServiceRecord true service_type (mr_instance_name record) (mr_host record) (mr_port record) addrs
                  (merge_sort key_le (map_to_list (mr_txt record))))).

(** The records of a batch, up to the first that is not one of ours. *)
Fixpoint convert_batch (records : list MobileServiceRecord) (service_type : string)
  : list RawEvent * option TransportError :=
  match records with
  | [] => ([], None)
  | r :: records =>
      match raw_event_from_mobile r service_type with
      | Err e => ([], Some e)
      | Ok ev => let '(l, e) := convert_batch records service_type in (ev :: l, e)
      end
  end.

(** ** Browsing *)

Inductive BrowseCommand := CNext (reply : nat) | CClose.
Abbreviation NextAnswer := (Result (option RawEvent) TransportError).

(** The actor: at its [recv], in a poll, in the wait of 250 ms after an empty
    batch, in [stop] with the error it still has to send, or returned. *)
Inductive ActorPc := AIdle | APolling (reply : nat) | AWaiting (reply : nat) | AStopping (reply : option (nat * NextAnswer)) | ADone.
Inductive NativeCall := NPoll | NStop.

(** [calls]: the callers of [next] so far; [answers]: what they got, in order;
    [seen]: the events of all batches. *)
Record Browse := mkBrowse {
  closing : bool;
  dropped : bool;
  commands : list BrowseCommand;
  actor : ActorPc;
  buffered : list RawEvent;
  closed : option (Result unit TransportError);
  native : list NativeCall;
  calls : nat;
  answers : list (nat * NextAnswer);
  seen : list RawEvent
}.

Definition set_handle c d q s := mkBrowse c d q (actor s) (buffered s) (closed s) (native s) (calls s) (answers s) (seen s).
Definition set_actor p s := mkBrowse (closing s) (dropped s) (commands s) p (buffered s) (closed s) (native s) (calls s) (answers s) (seen s).
Definition set_buffered b l s := mkBrowse (closing s) (dropped s) (commands s) (actor s) b (closed s) (native s) (calls s) (answers s) l.
Definition set_calls n s := mkBrowse (closing s) (dropped s) (commands s) (actor s) (buffered s) (closed s) (native s) n (answers s) (seen s).
Definition call_native c s := mkBrowse (closing s) (dropped s) (commands s) (actor s) (buffered s) (closed s) (native s ++ [c]) (calls s) (answers s) (seen s).
Definition answer i r s := mkBrowse (closing s) (dropped s) (commands s) (actor s) (buffered s) (closed s) (native s) (calls s) (answers s ++ [(i, r)]) (seen s).

(** [CloseOutcome::complete]: the first result stays. *)
Definition complete r s := mkBrowse (closing s) (dropped s) (commands s) (actor s) (buffered s)
  (match closed s with None => Some r | o => o end) (native s) (calls s) (answers s) (seen s).

Definition is_done (s : Browse) : bool := match actor s with ADone => true | _ => false end.

Definition next (s : Browse) : Browse :=
  let i := calls s in
  let s := set_calls (S i) s in
  if closing s || is_done s then answer i (Ok None) s
  else set_handle (closing s) (dropped s) (commands s ++ [CNext i]) s.

Definition request_close (s : Browse) : Browse :=
  if closing s then s
  else if is_done s then complete (Ok tt) (set_handle true (dropped s) (commands s) s)
  else set_handle true (dropped s) (commands s ++ [CClose]) s.

Definition drop_handle (s : Browse) : Browse := set_handle (closing s) true (commands s) s.

(** The actor starts a native call. *)
Definition start_poll (i : nat) (s : Browse) : Browse := call_native NPoll (set_actor (APolling i) s).
Definition start_stop (reply : option (nat * NextAnswer)) (s : Browse) : Browse :=
  call_native NStop (set_actor (AStopping reply) s).

(** The actor returns: the commands it has not received are dropped. *)
Definition dropped_replies (q : list BrowseCommand) : list (nat * NextAnswer) :=
  omap (fun c => match c with CNext i => Some (i, Ok None) | CClose => None end) q.
Definition return_actor (s : Browse) : Browse :=
  mkBrowse (closing s) (dropped s) [] ADone (buffered s) (closed s) (native s) (calls s)
    (answers s ++ dropped_replies (commands s)) (seen s).

(** [commands.recv()] at the top of the loop. *)
Definition actor_recv (s : Browse) : option Browse :=
  match actor s, commands s with
  | AIdle, CNext i :: q =>
      let s := set_handle (closing s) (dropped s) q s in
      Some (match buffered s with
            | ev :: rest => answer i (Ok (Some ev)) (set_buffered rest (seen s) s)
            | [] => start_poll i s
            end)
  | AIdle, CClose :: q => Some (start_stop None (set_handle (closing s) (dropped s) q s))
  | AIdle, [] => if dropped s then Some (start_stop None s) else None
  | _, _ => None
  end.

(** A poll returns. *)
Definition actor_polled (service_type : string) (r : Result DnsSdBrowsePollResponse string) (s : Browse) : option Browse :=
  match actor s with
  | APolling i =>
      Some (match r with
            | Err e => start_stop (Some (i, Err e)) s
            | Ok batch =>
                match pr_status batch with
                | Active =>
                    let '(events, e) := convert_batch (pr_records batch) service_type in
                    let s := set_buffered (buffered s ++ events) (seen s ++ events) s in
                    match e with
                    | Some e => start_stop (Some (i, Err e)) s
                    | None =>
                        match buffered s with
                        | ev :: rest => answer i (Ok (Some ev)) (set_actor AIdle (set_buffered rest (seen s) s))
                        | [] => set_actor (AWaiting i) s
                        end
                    end
                | Closed => return_actor (complete (Ok tt) (answer i (Ok None) s))
                | Failed => start_stop (Some (i, Err (default "native browse failed" (pr_error batch)))) s
                end
            end)
  | _ => None
  end.

Definition not_serialized : TransportError := "native browse next calls must be serialized".

(** The wait ends: by a command, or without one (the time is over, or the channel
    is closed). *)
Definition actor_waited (elapsed : bool) (s : Browse) : option Browse :=
  match actor s with
  | AWaiting i =>
      if elapsed then Some (start_poll i s)
      else match commands s with
           | CClose :: q => Some (start_stop None (answer i (Ok None) (set_handle (closing s) (dropped s) q s)))
           | CNext j :: q => Some (start_poll i (answer j (Err not_serialized) (set_handle (closing s) (dropped s) q s)))
           | [] => if dropped s then Some (start_poll i s) else None
           end
  | _ => None
  end.

(** [stop] returns, and with it the actor. *)
Definition actor_stopped (r : Result unit string) (s : Browse) : option Browse :=
  match actor s with
  | AStopping reply =>
      let s := complete r s in
      Some (return_actor (match reply with Some (i, a) => answer i a s | None => s end))
  | _ => None
  end.

Inductive step (service_type : string) : Browse -> Browse -> Prop :=
| step_next s : dropped s = false -> step service_type s (next s)
| step_close s : dropped s = false -> step service_type s (request_close s)
| step_drop s : step service_type s (drop_handle s)
| step_recv s s' : actor_recv s = Some s' -> step service_type s s'
| step_polled s s' r : actor_polled service_type r s = Some s' -> step service_type s s'
| step_waited s s' elapsed : actor_waited elapsed s = Some s' -> step service_type s s'
| step_stopped s s' r : actor_stopped r s = Some s' -> step service_type s s'.

Definition browse_new : Browse := mkBrowse false false [] AIdle [] None [] 0 [] [].
Definition reachable (service_type : string) : Browse -> Prop := rtc (step service_type) browse_new.

End mobile.

(** * Properties of the native mobile transport *)

Section mobile.
Context {Id Relay : Type} `{IrohNet Id Relay} (debug_str : string -> string) (service_type : string).
#[local] Abbreviation step := (step debug_str service_type).
#[local] Abbreviation reachable := (reachable debug_str service_type).

(** The callers whose command the actor has received or will. *)
Definition queued (q : list BrowseCommand) : list nat :=
  omap (fun c => match c with CNext i => Some i | CClose => None end) q.
Definition current (p : ActorPc) : list nat :=
  match p with
  | APolling i | AWaiting i | AStopping (Some (i, _)) => [i]
  | AIdle | AStopping None | ADone => []
  end.

(** The events callers got, in order. *)
Definition reported (s : Browse) : list RawEvent :=
  omap (fun a => match a.2 with Ok (Some ev) => Some ev | _ => None end) (answers s).

#[local] Arguments reported : simpl never.
#[local] Arguments seq : simpl never.

Definition only_polls (l : list NativeCall) : Prop := Forall (fun c => c = NPoll) l.

(** What has been called and completed, by the place of the actor. *)
Definition native_ok (s : Browse) : Prop :=
  match actor s with
  | AIdle | APolling _ | AWaiting _ => only_polls (native s) /\ closed s = None
  | AStopping _ => (exists l, native s = l ++ [NStop] /\ only_polls l) /\ closed s = None
  | ADone => (exists l, (native s = l \/ native s = l ++ [NStop]) /\ only_polls l) /\ is_Some (closed s) /\ commands s = []
  end.

(** The error an actor still has to send carries no event. *)
Definition pending_error (p : ActorPc) : Prop :=
  match p with AStopping (Some (_, Ok (Some _))) => False | _ => True end.

Record inv (s : Browse) : Prop := mkInv {
  i_answers : (answers s).*1 ++ current (actor s) ++ queued (commands s) ≡ₚ seq 0 (calls s);
  i_events : reported s ++ buffered s = seen s;
  i_native : native_ok s;
  i_error : pending_error (actor s)
}.

Lemma queued_app q q' : queued (q ++ q') = queued q ++ queued q'.
Proof. apply omap_app. Qed.

Lemma reported_answer i r s :
  reported (answer i r s) = reported s ++ match r with Ok (Some ev) => [ev] | _ => [] end.
Proof. unfold reported. cbn. rewrite omap_app. cbn. by destruct r as [[]|]. Qed.

Lemma dropped_replies_ids q : (dropped_replies q).*1 = queued q.
Proof. induction q as [|[i|] q IH]; cbn; [done| |done]. by f_equal. Qed.

Lemma dropped_replies_events q :
  omap (fun a : nat * Result (option RawEvent) TransportError => match a.2 with Ok (Some ev) => Some ev | _ => None end) (dropped_replies q) = [].
Proof. induction q as [|[i|] q IH]; cbn; done. Qed.

Lemma polls_snoc l : only_polls l -> only_polls (l ++ [NPoll]).
Proof. intros Hl. apply Forall_app. split; [done|]. by repeat constructor. Qed.

Lemma inv_next s : inv s -> inv (next s).
Proof.
  intros [H1 H2 H3 H4]. unfold next. destruct (closing (set_calls (S (calls s)) s) || is_done (set_calls (S (calls s)) s)) eqn:E.
  - split; cbn; [|by rewrite reported_answer, app_nil_r|done|done].
    rewrite seq_S, <- H1, fmap_app. cbn. solve_Permutation.
  - split; cbn; [|done| |done].
    + rewrite seq_S, <- H1, queued_app. cbn. solve_Permutation.
    + apply orb_false_iff in E as [_ E]. unfold native_ok, is_done in *. cbn in *. by destruct (actor s).
Qed.

Lemma inv_request_close s : inv s -> inv (request_close s).
Proof.
  intros [H1 H2 H3 H4]. unfold request_close. destruct (closing s); [done|]. unfold is_done. destruct (actor s) eqn:E;
    (split; cbn; rewrite ?E, ?queued_app; cbn; rewrite ?app_nil_r; try done; try (by rewrite E in H1); try (by rewrite E in H4)).
  all: unfold native_ok in *; cbn; rewrite E in *; try done.
  destruct H3 as (Hn & [r ->] & Hc). done.
Qed.

Lemma inv_recv s s' : actor_recv s = Some s' -> inv s -> inv s'.
Proof.
  intros E [H1 H2 H3 H4]. unfold actor_recv in E. destruct (actor s) eqn:Ea; try done. unfold native_ok in H3. rewrite Ea in H3. destruct H3 as [Hp Hc].
  destruct (commands s) as [|[i|] q] eqn:Eq; cbn in H1.
  - destruct (dropped s); [|done]. injection E as <-. split; cbn; [by rewrite Eq|done| |done]. split; [by exists (native s)|done].
  - cbn in E. destruct (buffered s) as [|ev rest] eqn:Eb; injection E as <-.
    + split; cbn; [|by rewrite Eb| |done].
      * rewrite <- H1. solve_Permutation.
      * split; [by apply polls_snoc|done].
    + split; cbn; rewrite ?Ea; [| |unfold native_ok; cbn; by rewrite Ea|done].
      * rewrite <- H1, fmap_app. cbn. solve_Permutation.
      * rewrite reported_answer. cbn. rewrite <- H2. by rewrite <- app_assoc.
  - injection E as <-. split; cbn; [done|done| |done]. split; [by exists (native s)|done].
Qed.

Lemma inv_stop_with i e s :
  current (actor s) = [i] -> native_ok s -> (exists j, actor s = APolling j) ->
  (answers s).*1 ++ current (actor s) ++ queued (commands s) ≡ₚ seq 0 (calls s) -> reported s ++ buffered s = seen s ->
  inv (start_stop (Some (i, Err e)) s).
Proof.
  intros Hc Hn [j Ej] Ha He. unfold native_ok in Hn. rewrite Ej in Hn, Ha, Hc. cbn in Hc. injection Hc as ->. destruct Hn as [Hp Hcl].
  split; cbn; [done|done| |done]. split; [by exists (native s)|done].
Qed.

Lemma inv_return s :
  (answers s).*1 ++ queued (commands s) ≡ₚ seq 0 (calls s) -> reported s ++ buffered s = seen s ->
  (exists l, (native s = l \/ native s = l ++ [NStop]) /\ only_polls l) -> is_Some (closed s) -> inv (return_actor s).
Proof.
  intros Ha He Hn Hc. split; cbn.
  - rewrite fmap_app, dropped_replies_ids, app_nil_r. done.
  - unfold reported. cbn. rewrite omap_app, dropped_replies_events, app_nil_r. done.
  - done.
  - done.
Qed.

Lemma inv_polled r s s' : actor_polled debug_str service_type r s = Some s' -> inv s -> inv s'.
Proof.
  intros E [H1 H2 H3 H4]. unfold actor_polled in E. destruct (actor s) as [|i| | |] eqn:Ea; try done.
  assert (forall s0, actor s0 = actor s -> closed s0 = closed s -> native s0 = native s -> native_ok s0) as Hno.
  { intros s0 E1 E2 E3. unfold native_ok in *. rewrite E1, Ea in *. by rewrite E2, E3. }
  destruct r as [batch|e]; injection E as <-; [|apply inv_stop_with; rewrite ?Ea; eauto].
  destruct (pr_status batch).
  - destruct (convert_batch _ _ _) as [events e] eqn:Eb. set (s1 := set_buffered _ _ s).
    assert (reported s1 ++ buffered s1 = seen s1) as He by (subst s1; cbn; rewrite app_assoc; change (reported (set_buffered (buffered s ++ events) (seen s ++ events) s)) with (reported s); by rewrite H2).
    assert (native_ok s1) as Hn1 by (by apply Hno). destruct e as [e|]; [apply inv_stop_with; cbn; rewrite ?Ea; eauto|].
    cbn [buffered set_buffered s1]. destruct (buffered s ++ events) as [|ev rest] eqn:Eb1.
    + unfold native_ok in Hn1. cbn in Hn1. rewrite Ea in Hn1. split; [done| |done|done].
      change (reported s1 ++ buffered s1 = seen s1). done.
    + unfold native_ok in Hn1. cbn in Hn1. rewrite Ea in Hn1. split; cbn; [| |done|done].
      * rewrite <- H1, fmap_app. cbn. solve_Permutation.
      * rewrite reported_answer. rewrite <- app_assoc. change (reported s1 ++ ev :: rest = seen s1). by rewrite <- He.
  - unfold native_ok in H3. rewrite Ea in H3. destruct H3 as [Hp Hc]. apply inv_return; cbn.
    + rewrite <- H1, fmap_app. cbn. by rewrite <- app_assoc.
    + unfold reported in *. cbn. rewrite omap_app. cbn. by rewrite app_nil_r.
    + exists (native s). by split; [left|].
    + rewrite Hc. by eexists.
  - apply inv_stop_with; rewrite ?Ea; eauto.
Qed.

Lemma inv_waited elapsed s s' : actor_waited elapsed s = Some s' -> inv s -> inv s'.
Proof.
  intros E [H1 H2 H3 H4]. unfold actor_waited in E. destruct (actor s) as [| |i| |] eqn:Ea; try done.
  unfold native_ok in H3. rewrite Ea in H3. destruct H3 as [Hp Hc].
  assert (inv (start_poll i s)) as Hpoll.
  { split; cbn; [done|done|split; [by apply polls_snoc|done]|done]. }
  destruct elapsed; [by injection E as <-|]. destruct (commands s) as [|[j|] q] eqn:Eq.
  - destruct (dropped s); [by injection E as <-|done].
  - injection E as <-. split; cbn; [|by unfold reported in *; cbn; rewrite omap_app, app_nil_r|split; [by apply polls_snoc|done]|done].
    rewrite <- H1, fmap_app. cbn. solve_Permutation.
  - injection E as <-. split; cbn; [|by unfold reported in *; cbn; rewrite omap_app, app_nil_r|split; [by exists (native s)|done]|done].
    rewrite <- H1, fmap_app. cbn. solve_Permutation.
Qed.

Lemma inv_stopped r s s' : actor_stopped r s = Some s' -> inv s -> inv s'.
Proof.
  intros E [H1 H2 H3 H4]. unfold actor_stopped in E. destruct (actor s) as [| | |reply|] eqn:Ea; try done. injection E as <-.
  unfold native_ok in H3. rewrite Ea in H3. destruct H3 as [(l & Hl & Hp) Hc].
  destruct reply as [[i a]|]; apply inv_return; cbn; rewrite ?Hc; try (by eexists); try (exists l; by split; [right|]).
  - rewrite <- H1, fmap_app. cbn. by rewrite <- app_assoc.
  - cbn in H4. unfold reported in *. cbn. rewrite omap_app. cbn. destruct a as [[ev|]|]; [done|..]; by rewrite app_nil_r.
  - done.
  - done.
Qed.

Lemma mobile_inv_step s s' : step s s' -> inv s -> inv s'.
Proof.
  intros [s0 _|s0 _|s0|s0 s1 E|s0 s1 r E|s0 s1 el E|s0 s1 r E] Hi;
    [by apply inv_next|by apply inv_request_close| |by eapply inv_recv|by eapply inv_polled|by eapply inv_waited|by eapply inv_stopped].
  destruct Hi. by split.
Qed.

Lemma mobile_reachable_inv s : reachable s -> inv s.
Proof.
  apply (rtc_ind_r inv); [|intros; by eapply mobile_inv_step]. split; cbn; try done. split; [constructor|done].
Qed.

(** Once an outcome is there, it stays. *)
Lemma closed_stays s s' r : step s s' -> closed s = Some r -> closed s' = Some r.
Proof.
  intros Hs Hr. destruct Hs as [s0 _|s0 _|s0|s0 s1 E|s0 s1 x E|s0 s1 el E|s0 s1 x E].
  - unfold next. by destruct (_ || _).
  - unfold request_close. destruct (closing s0); [done|]. destruct (is_done s0); cbn; by rewrite ?Hr.
  - done.
  - unfold actor_recv in E. destruct (actor s0), (commands s0) as [|[] ?]; try done; cbn in E; repeat case_match; by simplify_eq.
  - unfold actor_polled in E. destruct (actor s0); try done. injection E as <-. destruct x as [batch|]; [|done].
    destruct (pr_status batch); [|cbn; by rewrite Hr|done]. destruct (convert_batch _ _ _) as [ev [e|]]; [done|]. cbn. by destruct (buffered s0 ++ ev).
  - unfold actor_waited in E. destruct (actor s0); try done. destruct el; [by injection E as <-|].
    destruct (commands s0) as [|[] ?]; [destruct (dropped s0); [|done]|..]; by injection E as <-.
  - unfold actor_stopped in E. destruct (actor s0) as [| | |reply|]; try done. injection E as <-. destruct reply as [[]|]; cbn; by rewrite Hr.
Qed.

(** And the actor that has returned makes no more calls and no more answers. *)
Lemma done_stays s s' :
  step s s' -> actor s = ADone -> actor s' = ADone /\ native s' = native s /\ reported s' = reported s.
Proof.
  intros Hst Ha. destruct Hst as [s0 _|s0 _|s0|s0 s1 E|s0 s1 x E|s0 s1 el E|s0 s1 x E].
  - unfold next. unfold is_done. cbn. rewrite Ha, orb_true_r. cbn. rewrite reported_answer. cbn. by rewrite app_nil_r.
  - unfold request_close, is_done. rewrite Ha. by destruct (closing s0).
  - done.
  - unfold actor_recv in E. by rewrite Ha in E.
  - unfold actor_polled in E. by rewrite Ha in E.
  - unfold actor_waited in E. by rewrite Ha in E.
  - unfold actor_stopped in E. by rewrite Ha in E.
Qed.

(** Every call of [next] on a mobile browse is answered exactly once, whatever
    calls, closes, drops and native answers are interleaved: no caller gets two
    answers, the ones without an answer are the one the actor works for and the
    ones in its queue, and when the actor has returned there are none left. *)
Theorem mobile_next_answered_once s :
  reachable s ->
  (answers s).*1 ++ current (actor s) ++ queued (commands s) ≡ₚ seq 0 (calls s) /\
  NoDup ((answers s).*1) /\
  (actor s = ADone -> (answers s).*1 ≡ₚ seq 0 (calls s)).
Proof.
  intros Hr. destruct (mobile_reachable_inv _ Hr) as [H1 _ H3 _]. split; [done|]. split.
  - assert (NoDup ((answers s).*1 ++ current (actor s) ++ queued (commands s))) as Hn by (rewrite H1; apply NoDup_seq).
    by apply NoDup_app in Hn as [? _].
  - intros Ha. unfold native_ok in H3. rewrite Ha in H1, H3. destruct H3 as (_ & _ & Hc). rewrite Hc in H1. by rewrite app_nil_r in H1.
Qed.

(** C38. A mobile browse reports the events of the native side in order, without
    loss or repetition, until it ends, and it ends once: the native browse is
    stopped at most once, nothing is called after that, the outcome of the close
    is there exactly when the actor has returned, and it never changes. *)
Theorem mobile_browse_faithful s :
  reachable s ->
  reported s ++ buffered s = seen s /\
  (exists polls, only_polls polls /\ (native s = polls \/ native s = polls ++ [NStop])) /\
  (is_Some (closed s) <-> actor s = ADone) /\
  (forall s' r, rtc step s s' -> closed s = Some r ->
     closed s' = Some r /\ native s' = native s /\ reported s' = reported s).
Proof.
  intros Hr. destruct (mobile_reachable_inv _ Hr) as [_ H2 H3 _].
  assert (is_Some (closed s) <-> actor s = ADone) as Hd.
  { unfold native_ok in H3. destruct (actor s); [destruct H3 as [_ ->]..|naive_solver]; by split; [intros []|]. }
  split; [done|]. split.
  { unfold native_ok in H3. destruct (actor s); [exists (native s); split; [apply H3|by left]..| |].
    - destruct H3 as [(l & -> & ?) _]. exists l. auto.
    - destruct H3 as [(l & ? & ?) _]. by exists l. }
  split; [done|]. intros s' r Hs Hc. assert (actor s = ADone) as Ha by (apply Hd; by eexists).
  clear -Hs Hc Ha. revert Hc Ha. induction Hs as [s|s s1 s2 Hst _ IH]; intros Hc Ha; [done|].
  pose proof (closed_stays _ _ _ Hst Hc) as Hc1. destruct (done_stays _ _ Hst Ha) as (Ha1 & Hn1 & Hr1).
  destruct (IH Hc1 Ha1) as (? & ? & ?). split_and!; congruence.
Qed.
End mobile.

(** ** Witnesses *)

Definition demo_record : MobileServiceRecord := mkMobileRecord false "_demo._udp" "printer" None 0 [] ∅.
Definition demo_batch : DnsSdBrowsePollResponse := mkPollResponse Active [demo_record; demo_record] None.

(** Two calls, a batch of two events, a close. *)
Definition demo_s1 : Browse := default browse_new (actor_recv (next browse_new)).
Definition demo_s2 : Browse :=
  default browse_new (actor_polled (Id := nat) (Relay := string) (fun s => s) "_demo._udp.local." (Ok demo_batch) demo_s1).
Definition demo_s3 : Browse := default browse_new (actor_recv (request_close (next demo_s2))).
Definition demo_s4 : Browse := default browse_new (actor_recv demo_s3).
Definition demo_end : Browse := default browse_new (actor_stopped (Ok tt) demo_s4).

Lemma demo_end_reachable : reachable (Id := nat) (Relay := string) (fun s => s) "_demo._udp.local." demo_end.
Proof.
  apply (rtc_l _ _ (next browse_new)); [apply step_next; by vm_compute|].
  apply (rtc_l _ _ demo_s1); [apply step_recv; by vm_compute|].
  apply (rtc_l _ _ demo_s2); [apply step_polled with (r := Ok demo_batch); by vm_compute|].
  apply (rtc_l _ _ (next demo_s2)); [apply step_next; by vm_compute|].
  apply (rtc_l _ _ (request_close (next demo_s2))); [apply step_close; by vm_compute|].
  apply (rtc_l _ _ demo_s3); [apply step_recv; by vm_compute|].
  apply (rtc_l _ _ demo_s4); [apply step_recv; by vm_compute|].
  apply rtc_once. apply step_stopped with (r := Ok tt). by vm_compute.
Qed.

Lemma mobile_next_answered_once_witness : (answers demo_end).*1 ≡ₚ [0; 1].
Proof.
  destruct (mobile_next_answered_once (fun s => s) "_demo._udp.local." demo_end demo_end_reachable) as (_ & _ & Hd).
  apply Hd. by vm_compute.
Defined.

Lemma mobile_browse_faithful_witness :
  closed demo_end = Some (Ok tt) /\ length (reported demo_end) = 2 /\ reported demo_end ++ buffered demo_end = seen demo_end.
Proof.
  split; [by vm_compute|]. split; [by vm_compute|].
  apply (mobile_browse_faithful (fun s => s) "_demo._udp.local." demo_end demo_end_reachable).
Defined.
