(* ===== verification/MobileAdvert.v ===== *)
(** * The mobile advertisement actor (iroh-http-tauri: mobile_discovery_transport.rs)

    [NativeAdvertisementHandle] and [run_advertisement_actor]: the handle queues
    updates and the close, the actor hands them to the native side one at a
    time.  A failed update ends the advertisement: the native side is stopped
    first, and only then does the caller get the error. *)

From stdpp Require Import base numbers list strings gmap fin_maps relations sorting.
From Stdlib Require Import ZArith Lia.
From S2P Require Import Prelude Text Net DnsSd.

Open Scope string_scope.
Open Scope list_scope.

Inductive AdvertisementCommand := CUpdate (reply : nat) (update : AdvertisementUpdate) | CClose.
Abbreviation Answer := (Result unit TransportError).

(** The actor: at its [recv], in a native update, in [stop] with the error it
    still has to send, or returned. *)
Inductive ActorPc := PIdle | PUpdating (reply : nat) | PStopping (reply : option (nat * Answer)) | PDone.
Inductive NativeCall := NUpdate (call : nat) (update : AdvertisementUpdate) | NStop.

(** [calls]: the callers of [update] so far; [answers]: what they got, in order. *)
Record Advert := mkAdvert {
  closing : bool;
  dropped : bool;
  commands : list AdvertisementCommand;
  actor : ActorPc;
  closed : option Answer;
  native : list NativeCall;
  calls : nat;
  answers : list (nat * Answer)
}.

Definition set_handle c d q s := mkAdvert c d q (actor s) (closed s) (native s) (calls s) (answers s).
Definition set_actor p s := mkAdvert (closing s) (dropped s) (commands s) p (closed s) (native s) (calls s) (answers s).
Definition set_calls n s := mkAdvert (closing s) (dropped s) (commands s) (actor s) (closed s) (native s) n (answers s).
Definition call_native c s := mkAdvert (closing s) (dropped s) (commands s) (actor s) (closed s) (native s ++ [c]) (calls s) (answers s).
Definition answer i r s := mkAdvert (closing s) (dropped s) (commands s) (actor s) (closed s) (native s) (calls s) (answers s ++ [(i, r)]).

(** [CloseOutcome::complete]: the first result stays. *)
Definition complete r s := mkAdvert (closing s) (dropped s) (commands s) (actor s)
  (match closed s with None => Some r | o => o end) (native s) (calls s) (answers s).

Definition is_closed : Answer := Err "advertisement is closed".
Definition is_done (s : Advert) : bool := match actor s with PDone => true | _ => false end.

Definition update (u : AdvertisementUpdate) (s : Advert) : Advert :=
  let i := calls s in
  let s := set_calls (S i) s in
  if closing s || is_done s then answer i is_closed s
  else set_handle (closing s) (dropped s) (commands s ++ [CUpdate i u]) s.

Definition request_close (s : Advert) : Advert :=
  if closing s then s
  else if is_done s then complete (Ok tt) (set_handle true (dropped s) (commands s) s)
  else set_handle true (dropped s) (commands s ++ [CClose]) s.

Definition drop_handle (s : Advert) : Advert := set_handle (closing s) true (commands s) s.

Definition start_stop (reply : option (nat * Answer)) (s : Advert) : Advert :=
  call_native NStop (set_actor (PStopping reply) s).

(** The actor returns: the replies of the commands it has not received are
    dropped with them. *)
Definition dropped_replies (q : list AdvertisementCommand) : list (nat * Answer) :=
  omap (fun c => match c with CUpdate i _ => Some (i, is_closed) | CClose => None end) q.
Definition return_actor (s : Advert) : Advert :=
  mkAdvert (closing s) (dropped s) [] PDone (closed s) (native s) (calls s)
    (answers s ++ dropped_replies (commands s)).

(** [commands.recv()]. *)
Definition actor_recv (s : Advert) : option Advert :=
  match actor s, commands s with
  | PIdle, CUpdate i u :: q =>
      Some (call_native (NUpdate i u) (set_actor (PUpdating i) (set_handle (closing s) (dropped s) q s)))
  | PIdle, CClose :: q => Some (start_stop None (set_handle (closing s) (dropped s) q s))
  | PIdle, [] => if dropped s then Some (start_stop None s) else None
  | _, _ => None
  end.

(** The native update returns. *)
Definition actor_updated (r : Result unit string) (s : Advert) : option Advert :=
  match actor s with
  | PUpdating i =>
      Some (match r with
            | Ok _ => answer i (Ok tt) (set_actor PIdle s)
            | Err e => start_stop (Some (i, Err e)) s
            end)
  | _ => None
  end.

(** [stop] returns, and with it the actor. *)
Definition actor_stopped (r : Result unit string) (s : Advert) : option Advert :=
  match actor s with
  | PStopping reply =>
      let s := complete r s in
      Some (return_actor (match reply with Some (i, a) => answer i a s | None => s end))
  | _ => None
  end.

Inductive step : Advert -> Advert -> Prop :=
| step_update s u : dropped s = false -> step s (update u s)
| step_close s : dropped s = false -> step s (request_close s)
| step_drop s : step s (drop_handle s)
| step_recv s s' : actor_recv s = Some s' -> step s s'
| step_updated s s' r : actor_updated r s = Some s' -> step s s'
| step_stopped s s' r : actor_stopped r s = Some s' -> step s s'.

Definition advert_new : Advert := mkAdvert false false [] PIdle None [] 0 [].
Definition reachable : Advert -> Prop := rtc step advert_new.

(** ** Properties *)

(** The callers whose update went to the native side, and those still queued. *)
Definition forwarded (l : list NativeCall) : list nat :=
  omap (fun c => match c with NUpdate i _ => Some i | NStop => None end) l.
Definition queued (q : list AdvertisementCommand) : list nat :=
  omap (fun c => match c with CUpdate i _ => Some i | CClose => None end) q.
Definition current (p : ActorPc) : list nat :=
  match p with PUpdating i | PStopping (Some (i, _)) => [i] | _ => [] end.
(** The callers who were told that their data is published. *)
Definition accepted (l : list (nat * Answer)) : list nat :=
  omap (fun a => if is_ok a.2 then Some a.1 else None) l.

#[local] Arguments seq : simpl never.
#[local] Arguments forwarded !l : simpl nomatch.
#[local] Arguments queued !q : simpl nomatch.
#[local] Arguments accepted !l : simpl nomatch.

Definition native_ok (s : Advert) : Prop :=
  match actor s with
  | PIdle | PUpdating _ => (NStop ∉ native s) /\ closed s = None
  | PStopping r => (exists l, native s = l ++ [NStop] /\ NStop ∉ l) /\ closed s = None /\
      match r with Some (_, Ok _) => False | _ => True end
  | PDone => (exists l, native s = l ++ [NStop] /\ NStop ∉ l) /\ is_Some (closed s) /\ commands s = []
  end.

Definition answered_ok (s : Advert) : Prop :=
  exists rest, forwarded (native s) = accepted (answers s) ++ rest /\
    match actor s with PDone => length rest <= 1 | p => rest = current p end /\
    (actor s <> PDone -> Forall (fun a => a.1 ∈ forwarded (native s) -> is_ok a.2 = true) (answers s)).

Record inv (s : Advert) : Prop := mkInv {
  i_ids : (answers s).*1 ++ current (actor s) ++ queued (commands s) ≡ₚ seq 0 (calls s);
  i_order : StronglySorted lt (forwarded (native s) ++ queued (commands s));
  i_bound : Forall (fun i => i < calls s) (forwarded (native s) ++ queued (commands s));
  i_native : native_ok s;
  i_answered : answered_ok s
}.

Lemma forwarded_snoc l c : forwarded (l ++ [c]) = forwarded l ++ match c with NUpdate i _ => [i] | NStop => [] end.
Proof. unfold forwarded. rewrite omap_app. cbn. by destruct c. Qed.

Lemma accepted_snoc l a : accepted (l ++ [a]) = accepted l ++ if is_ok a.2 then [a.1] else [].
Proof. unfold accepted. rewrite omap_app. cbn. by destruct (is_ok a.2). Qed.

Lemma advert_replies_ids q : (dropped_replies q).*1 = queued q.
Proof. induction q as [|[i u|] q IH]; cbn; [done| |done]. by f_equal. Qed.

Lemma advert_replies_refused q : accepted (dropped_replies q) = [].
Proof. induction q as [|[i u|] q IH]; cbn; done. Qed.

Lemma sorted_snoc (l : list nat) n : StronglySorted lt l -> Forall (fun i => i < n) l -> StronglySorted lt (l ++ [n]).
Proof.
  induction 1 as [|x l Hs IH Hx]; intros Hf; cbn; [repeat constructor|]. apply Forall_cons_1 in Hf as [? Hf].
  constructor; [by apply IH|]. apply Forall_app. split; [done|by repeat constructor].
Qed.

Lemma inv_update u s : inv s -> inv (update u s).
Proof.
  intros [H1 H2 H3 H4 (rest & H5 & H6 & H7)]. unfold update.
  assert (Forall (fun i => i < S (calls s)) (forwarded (native s) ++ queued (commands s))) as H3'
    by (eapply Forall_impl; [exact H3|cbn; lia]).
  destruct (closing (set_calls (S (calls s)) s) || is_done (set_calls (S (calls s)) s)) eqn:E.
  - split; cbn; [|done|done|done|].
    + rewrite seq_S, <- H1, fmap_app. cbn. solve_Permutation.
    + exists rest. cbn. rewrite accepted_snoc. cbn. rewrite app_nil_r. split; [done|]. split; [done|].
      intros Hd. apply Forall_app. split; [by apply H7|]. constructor; [|constructor]. cbn. intros Hin.
      apply Forall_app in H3 as [H3 _]. rewrite list.Forall_forall in H3. apply H3 in Hin. lia.
  - apply orb_false_iff in E as [_ E]. unfold is_done in E. cbn in E. split; cbn.
    + rewrite seq_S, <- H1. unfold queued. rewrite omap_app. cbn. solve_Permutation.
    + unfold queued. rewrite omap_app. cbn. rewrite app_assoc. by apply sorted_snoc.
    + unfold queued in *. rewrite omap_app. cbn. rewrite app_assoc. apply Forall_app. split; [done|]. constructor; [lia|constructor].
    + unfold native_ok in *. cbn. by destruct (actor s).
    + by exists rest.
Qed.

Lemma advert_inv_close s : inv s -> inv (request_close s).
Proof.
  intros [H1 H2 H3 H4 H5]. unfold request_close. destruct (closing s); [done|]. unfold is_done.
  assert (queued (commands s ++ [CClose]) = queued (commands s)) as Hq by (unfold queued; rewrite omap_app; apply app_nil_r).
  destruct (actor s) eqn:E; (split; cbn; rewrite ?Hq, ?E; try done); unfold native_ok, answered_ok in *; cbn; rewrite ?E in *; try done.
  destruct H4 as (Hl & [r ->] & ?). done.
Qed.

(** An update that the actor takes from its queue has no answer yet. *)
Lemma taken_unanswered s i u q :
  inv s -> commands s = CUpdate i u :: q -> i ∉ (answers s).*1.
Proof.
  intros [H1 _ _ _ _] Eq Hin. rewrite Eq in H1. cbn in H1.
  assert (NoDup ((answers s).*1 ++ current (actor s) ++ i :: queued q)) as Hn by (rewrite H1; apply NoDup_seq).
  apply list.NoDup_app in Hn as (_ & Hd & _). apply (Hd i Hin). apply elem_of_app. right. by left.
Qed.

Lemma advert_inv_recv s s' : actor_recv s = Some s' -> inv s -> inv s'.
Proof.
  intros E Hi. pose proof Hi as [H1 H2 H3 H4 (rest & H5 & H6 & H7)]. unfold actor_recv in E. destruct (actor s) eqn:Ea; try done.
  unfold native_ok in H4. rewrite Ea in H4. destruct H4 as [Hp Hc]. cbn in H6. subst rest. rewrite app_nil_r in H5.
  assert (forall q, queued q = queued (commands s) -> inv (start_stop None (set_handle (closing s) (dropped s) q s))) as Hstop.
  { intros q Hq. split; cbn; rewrite ?forwarded_snoc, ?Hq, ?app_nil_r; try done.
    - split; [by exists (native s)|done].
    - exists []. cbn. rewrite forwarded_snoc, !app_nil_r. split; [done|]. split; [done|]. intros _. by apply H7. }
  destruct (commands s) as [|[i u|] q] eqn:Eq.
  - destruct (dropped s) eqn:Ed; [|done]. injection E as <-. specialize (Hstop [] eq_refl).
    destruct s. cbn in *. subst. exact Hstop.
  - injection E as <-. cbn in *. split; cbn; rewrite ?forwarded_snoc, <- ?app_assoc; cbn; try done.
    + split; [|done]. rewrite elem_of_app, list_elem_of_singleton. naive_solver.
    + exists [i]. cbn. rewrite forwarded_snoc, H5. split; [done|]. split; [done|]. intros _.
      pose proof (taken_unanswered s i u q Hi Eq) as Hn. rewrite list.Forall_forall in *. intros a Ha Hin.
      apply elem_of_app in Hin as [Hin|Hin]; [apply H7; [done|done|by rewrite H5]|]. apply list_elem_of_singleton in Hin.
      destruct Hn. rewrite <- Hin. by apply list_elem_of_fmap_2.
  - injection E as <-. by apply Hstop.
Qed.

Lemma advert_inv_updated r s s' : actor_updated r s = Some s' -> inv s -> inv s'.
Proof.
  intros E [H1 H2 H3 H4 (rest & H5 & H6 & H7)]. unfold actor_updated in E. destruct (actor s) as [|i| |] eqn:Ea; try done.
  unfold native_ok in H4. rewrite Ea in H4. destruct H4 as [Hp Hc]. cbn in H6. subst rest.
  destruct r as [x|e]; injection E as <-.
  - split; cbn; [|done|done|done|].
    + rewrite <- H1, fmap_app. cbn. solve_Permutation.
    + exists []. cbn. rewrite accepted_snoc, app_nil_r. cbn. split; [done|]. split; [done|]. intros _.
      apply Forall_app. split; [by apply H7|]. by repeat constructor.
  - split; cbn; rewrite ?forwarded_snoc, ?app_nil_r; try done.
    + split; [by exists (native s)|done].
    + exists [i]. cbn. rewrite forwarded_snoc, app_nil_r. split; [done|]. split; [done|]. intros _. by apply H7.
Qed.

Lemma advert_inv_stopped r s s' : actor_stopped r s = Some s' -> inv s -> inv s'.
Proof.
  intros E [H1 H2 H3 H4 (rest & H5 & H6 & _)]. unfold actor_stopped in E. destruct (actor s) as [| |reply|] eqn:Ea; try done. injection E as <-.
  unfold native_ok in H4. rewrite Ea in H4. destruct H4 as (Hl & Hc & Hr). subst rest.
  assert (Forall (fun i => i < calls s) (forwarded (native s)) /\ StronglySorted lt (forwarded (native s))) as [Hb Ho].
  { apply Forall_app in H3 as [? _]. split; [done|]. by apply StronglySorted_app_1_l in H2. }
  destruct reply as [[i [x|e]]|]; [done|..]; (split; cbn; rewrite ?app_nil_r; try done);
    rewrite ?fmap_app, ?advert_replies_ids; cbn.
  - rewrite <- H1. cbn. solve_Permutation.
  - split; [done|]. by rewrite Hc.
  - exists [i]. cbn. unfold accepted. rewrite !omap_app. fold (accepted (answers s)) (accepted (dropped_replies (commands s))).
    cbn. rewrite advert_replies_refused, !app_nil_r. done.
  - done.
  - split; [done|]. by rewrite Hc.
  - exists []. cbn. unfold accepted. rewrite omap_app. fold (accepted (answers s)) (accepted (dropped_replies (commands s))).
    rewrite advert_replies_refused, !app_nil_r. rewrite app_nil_r in H5. split; [done|]. split; [cbn; lia|done].
Qed.

Lemma mobile_advert_step s s' : step s s' -> inv s -> inv s'.
Proof.
  intros [s0 u _|s0 _|s0|s0 s1 E|s0 s1 r E|s0 s1 r E] Hi;
    [by apply inv_update|by apply advert_inv_close| |by eapply advert_inv_recv|by eapply advert_inv_updated|by eapply advert_inv_stopped].
  destruct Hi. by split.
Qed.

Lemma mobile_advert_reachable s : reachable s -> inv s.
Proof.
  apply (rtc_ind_r inv); [|intros; by eapply mobile_advert_step]. split; cbn; try done; [constructor|split; [by apply not_elem_of_nil|done]|].
  exists []. split_and!; [done|done|constructor].
Qed.

Lemma advert_done_stays s s' r :
  step s s' -> actor s = PDone -> closed s = Some r ->
  actor s' = PDone /\ closed s' = Some r /\ native s' = native s /\ accepted (answers s') = accepted (answers s).
Proof.
  intros Hst Ha Hr. destruct Hst as [s0 u _|s0 _|s0|s0 s1 E|s0 s1 x E|s0 s1 x E].
  - unfold update, is_done. cbn. rewrite Ha, orb_true_r. cbn. by rewrite accepted_snoc, app_nil_r.
  - unfold request_close, is_done. rewrite Ha. destruct (closing s0); [done|]. cbn. by rewrite Hr.
  - done.
  - unfold actor_recv in E. by rewrite Ha in E.
  - unfold actor_updated in E. by rewrite Ha in E.
  - unfold actor_stopped in E. by rewrite Ha in E.
Qed.

(** C36. A mobile advertisement answers truly and ends once.  However updates, closes,
    drops and native answers are interleaved: no caller is answered twice, and
    when the actor has returned none is left waiting; updates reach the native
    side one at a time, in the order of the calls; the callers that were told
    their update is published are those the native side has acknowledged, all
    that it got but the one it is working on or refused; the caller of a
    refused update gets the error only after the native side has been stopped;
    the stop is the last native call, and the outcome of the close is there
    exactly when the actor has returned and never changes. *)
Theorem mobile_advert_faithful s :
  reachable s ->
  (answers s).*1 ++ current (actor s) ++ queued (commands s) ≡ₚ seq 0 (calls s) /\
  StronglySorted lt (forwarded (native s)) /\
  (exists rest, forwarded (native s) = accepted (answers s) ++ rest /\ length rest <= 1) /\
  (forall i e, (i, Err e) ∈ answers s -> i ∈ forwarded (native s) -> is_Some (closed s)) /\
  (is_Some (closed s) <-> actor s = PDone) /\
  (actor s = PDone -> (exists l, native s = l ++ [NStop] /\ NStop ∉ l) /\ (answers s).*1 ≡ₚ seq 0 (calls s)) /\
  (forall s' r, rtc step s s' -> closed s = Some r ->
     closed s' = Some r /\ native s' = native s /\ accepted (answers s') = accepted (answers s)).
Proof.
  intros Hr. destruct (mobile_advert_reachable _ Hr) as [H1 H2 _ H4 (rest & H5 & H6 & H7)].
  assert (is_Some (closed s) <-> actor s = PDone) as Hd.
  { unfold native_ok in H4. destruct (actor s); [destruct H4 as [_ ->]|destruct H4 as [_ ->]|destruct H4 as (_ & -> & _)|naive_solver]; by split; [intros []|]. }
  split; [done|]. split; [by apply StronglySorted_app_1_l in H2|]. split.
  { exists rest. split; [done|]. destruct (actor s) as [| |[[]|]|]; subst; cbn; lia. }
  split.
  { intros i e Hin Hf. apply Hd. destruct (decide (is_done s = true)) as [Hx|Hx]; unfold is_done in Hx.
    - by destruct (actor s).
    - assert (actor s <> PDone) as Hnd by (by destruct (actor s)). specialize (H7 Hnd). rewrite list.Forall_forall in H7.
      by specialize (H7 _ Hin Hf). }
  split; [done|]. split.
  { intros Ha. unfold native_ok in H4. rewrite Ha in H1, H4. destruct H4 as (? & _ & Hc). rewrite Hc in H1. by rewrite app_nil_r in H1. }
  intros s' r Hs Hc. assert (actor s = PDone) as Ha by (apply Hd; by eexists). clear -Hs Hc Ha. revert Hc Ha.
  induction Hs as [s|s s1 s2 Hst _ IH]; intros Hc Ha; [done|]. destruct (advert_done_stays _ _ _ Hst Ha Hc) as (Ha1 & Hc1 & Hn1 & Hr1).
  destruct (IH Hc1 Ha1) as (? & ? & ?). split_and!; congruence.
Qed.

(** ** Witness *)

Definition demo_update (port : Z) : AdvertisementUpdate := mkAdvertisementUpdate port [] [].
Definition demo_updates : Advert := update (demo_update 2) (update (demo_update 1) advert_new).
Definition demo_first : Advert := default advert_new (actor_recv demo_updates ≫= actor_updated (Ok tt)).
(** The native side refuses the second update. *)
Definition demo_refused : Advert := default advert_new (actor_recv demo_first ≫= actor_updated (Err "refused")).
Definition demo_ended : Advert := default advert_new (actor_stopped (Ok tt) demo_refused).

Lemma demo_ended_reachable : reachable demo_ended.
Proof.
  unfold reachable. transitivity demo_updates; [|transitivity demo_first; [|transitivity demo_refused]].
  - eapply rtc_l; [by apply (step_update _ (demo_update 1))|]. apply rtc_once. by apply (step_update _ (demo_update 2)).
  - eapply rtc_l; [by eapply step_recv|]. apply rtc_once. by eapply (step_updated _ _ (Ok tt)).
  - eapply rtc_l; [by eapply step_recv|]. apply rtc_once. by eapply (step_updated _ _ (Err "refused")).
  - apply rtc_once. by eapply (step_stopped _ _ (Ok tt)).
Qed.

Lemma mobile_advert_faithful_witness :
  answers demo_ended = [(0, Ok tt); (1, Err "refused")] /\ closed demo_ended = Some (Ok tt) /\
  StronglySorted lt (forwarded (native demo_ended)).
Proof. split; [done|]. split; [done|]. apply (mobile_advert_faithful demo_ended demo_ended_reachable). Defined.
