(* ===== verification/Stack.v ===== *)
(** * The serve stack's own layers (http/server/stack.rs, error_layer.rs)

    Three parts of the tower stack are the crate's own code: the body wrapper
    that times out a request body which makes no progress ([BodyIdleTimeout]),
    the layer that turns the errors of other layers into responses
    ([HandleLayerError]) and the predicate that decides which responses are
    compressed ([build_compression_layer]). *)

From stdpp Require Import base numbers list strings.
From Stdlib Require Import ZArith Lia Ascii.
From S2P Require Import Prelude Text Net ServeOptions PeerPolicy.

Open Scope string_scope.
Open Scope list_scope.

(** ** Body idle timeout *)

Section idle.
Context {Frame Error : Type}.

(** What [poll_frame] answers: a frame, an error or, for [None], the end.  The
    error of the wrapper is [IdleTimeout]. *)
Inductive BodyError := Inner (e : Error) | IdleTimeout.
Abbreviation InnerPoll := (Poll (option (Result Frame Error))).
Abbreviation FramePoll := (Poll (option (Result Frame BodyError))).

(** [BodyIdleTimeout]: the timer is the time at which its sleep is over. *)
Record BodyIdle := mkIdle { timer : option Z; done : bool }.
Definition idle_new : BodyIdle := mkIdle None false.

(** [poll_frame] at time [now]; [inner] is what the body answers when it is polled. *)
Definition idle_poll_frame (timeout now : Z) (inner : InnerPoll) (s : BodyIdle) : FramePoll * BodyIdle :=
  if done s then (Ready None, s)
  else match inner with
       | Ready (Some (Ok frame)) => (Ready (Some (Ok frame)), mkIdle None false)
       | Ready (Some (Err error)) => (Ready (Some (Err (Inner error))), mkIdle (timer s) true)
       | Ready None => (Ready None, mkIdle (timer s) true)
       | Pending =>
           let deadline := default (now + timeout)%Z (timer s) in
           if (deadline <=? now)%Z then (Ready (Some (Err IdleTimeout)), mkIdle (Some deadline) true)
           else (Pending, mkIdle (Some deadline) false)
       end.

Definition idle_is_end_stream (inner_end : bool) (s : BodyIdle) : bool := done s || inner_end.

(** The state after a sequence of polls. *)
Definition idle_after (timeout : Z) (polls : list (Z * InnerPoll)) : BodyIdle :=
  fold_left (fun s p => (idle_poll_frame timeout p.1 p.2 s).2) polls idle_new.

(** The body has had nothing to give since [t]: the poll at [t] and all after it
    were pending, and the one before it was not. *)
Definition idle_since (polls : list (Z * InnerPoll)) (t : Z) : Prop :=
  exists l1 l2, polls = l1 ++ (t, Pending) :: l2 /\ Forall (fun p => p.2 = Pending) l2 /\
    (forall p, last l1 = Some p -> p.2 <> Pending).

Definition forward (a : InnerPoll) : FramePoll :=
  match a with
  | Pending => Pending
  | Ready None => Ready None
  | Ready (Some (Ok frame)) => Ready (Some (Ok frame))
  | Ready (Some (Err e)) => Ready (Some (Err (Inner e)))
  end.

(** The same, as a function of the history. *)
Definition since_step (o : option Z) (p : Z * InnerPoll) : option Z :=
  match p.2 with Pending => Some (default p.1 o) | _ => None end.
Definition since (polls : list (Z * InnerPoll)) : option Z := fold_left since_step polls None.

Lemma since_snoc l p : since (l ++ [p]) = since_step (since l) p.
Proof. unfold since. by rewrite fold_left_app. Qed.

Lemma since_None_last l p : since l = None -> last l = Some p -> p.2 <> Pending.
Proof.
  destruct l as [|x l _] using rev_ind; [done|]. rewrite since_snoc, last_snoc. intros Hs [= <-] Hp.
  unfold since_step in Hs. by rewrite Hp in Hs.
Qed.

Lemma since_last_None l : (forall p, last l = Some p -> p.2 <> Pending) -> since l = None.
Proof.
  destruct l as [|x l _] using rev_ind; [done|]. intros Hl. specialize (Hl x (last_snoc _ _)). rewrite since_snoc.
  unfold since_step. by destruct x.2.
Qed.

Lemma since_spec l t : since l = Some t <-> idle_since l t.
Proof.
  revert t. induction l as [|[n a] l IH] using rev_ind; intros t.
  { split; [done|]. intros (l1 & l2 & E & _). by destruct l1. }
  rewrite since_snoc. unfold since_step. cbn. split.
  - destruct a; [done|]. intros [= <-]. destruct (since l) as [t'|] eqn:E; cbn.
    + destruct (proj1 (IH t') eq_refl) as (l1 & l2 & -> & Hf & Hl). exists l1, (l2 ++ [(n, Pending)]).
      split; [by rewrite <- app_assoc|]. split; [|done]. apply Forall_app. split; [done|]. by repeat constructor.
    + exists l, []. split; [done|]. split; [constructor|]. intros p. by apply since_None_last.
  - intros (l1 & l2 & E & Hf & Hl). destruct l2 as [|x l2 _] using rev_ind.
    + apply app_inj_tail in E as [-> [= <- ->]]. by rewrite (since_last_None l1).
    + rewrite app_comm_cons, app_assoc in E. apply app_inj_tail in E as [E <-]. apply Forall_app in Hf as [Hf Hx].
      apply Forall_cons_1 in Hx as [Hx _]. cbn in Hx. subst a. assert (since l = Some t) as -> by (apply IH; by exists l1, l2). done.
Qed.

Lemma idle_after_snoc timeout l p :
  idle_after timeout (l ++ [p]) = (idle_poll_frame timeout p.1 p.2 (idle_after timeout l)).2.
Proof. unfold idle_after. by rewrite fold_left_app. Qed.

(** The timer remembers since when the body has been idle. *)
Lemma idle_timer timeout l :
  done (idle_after timeout l) = false -> timer (idle_after timeout l) = (fun t => t + timeout)%Z <$> since l.
Proof.
  induction l as [|[now a] l IH] using rev_ind; [done|]. rewrite idle_after_snoc, since_snoc. unfold idle_poll_frame, since_step. cbn.
  destruct (done (idle_after timeout l)) eqn:Ed; [cbn; congruence|]. specialize (IH eq_refl). destruct a as [[[f|e]|]|]; try done.
  rewrite IH. destruct (default _ _ <=? now)%Z; [done|]. intros _. cbn. by destruct (since l).
Qed.

(** The idle timeout of a request body measures exactly the time during which the
    body had nothing to give.  After any history of polls that has not ended the
    body, a poll hands on what the body answers; only when the body is pending,
    and has been at every poll since one that is at least the timeout ago, does
    it answer with the timeout error.  So the time an application spends between
    two polls of a body that has data is never counted, and a stalled body is
    reported at the first poll after the timeout.  After an end or an error the
    body stays ended. *)
Theorem body_idle_timeout_exact (timeout now : Z) (polls : list (Z * InnerPoll)) (a : InnerPoll) :
  (0 < timeout)%Z ->
  let s := idle_after timeout polls in
  let '(r, s') := idle_poll_frame timeout now a s in
  (done s = true -> r = Ready None /\ s' = s) /\
  (done s = false ->
     (a <> Pending -> r = forward a /\ (done s' = true <-> forall f, a <> Ready (Some (Ok f)))) /\
     (a = Pending ->
        (r = Ready (Some (Err IdleTimeout)) /\ done s' = true /\
           exists t, idle_since polls t /\ (t + timeout <= now)%Z) \/
        (r = Pending /\ done s' = false /\ forall t, idle_since polls t -> (now < t + timeout)%Z))).
Proof.
  intros Ht. pose proof (idle_timer timeout polls) as Hti. cbn zeta. destruct (idle_after timeout polls) as [tm d]. cbn in Hti.
  unfold idle_poll_frame. cbn. destruct d; [done|]. specialize (Hti eq_refl). subst tm.
  destruct a as [[[f|e]|]|]; cbn; try (split; [done|]; intros _; split; [|done]; intros _; split; [done|]; split; [done|naive_solver]).
  destruct (since polls) as [t|] eqn:Es; cbn.
  - apply since_spec in Es as Hs. destruct (Z.leb_spec (t + timeout) now); cbn; (split; [done|]; intros _; split; [done|]; intros _).
    + left. split; [done|]. split; [done|]. by exists t.
    + right. split; [done|]. split; [done|]. intros t' Ht'. apply since_spec in Ht'. assert (t' = t) as -> by congruence. done.
  - rewrite (proj2 (Z.leb_gt _ _)) by lia. split; [done|]. intros _. split; [done|]. intros _. right. split; [done|]. split; [done|].
    intros t Hs. apply since_spec in Hs. congruence.
Qed.
End idle.
Arguments BodyError Error : clear implicits.

(** ** Layer errors *)

(** The errors of the other layers, as far as the code tells them apart. *)
Inductive LayerError := Elapsed | Overloaded | OtherError (text : string).
Record LayerResponse := mkLayerResponse { lr_status : Z; lr_body : string }.

Section error_layer.
Context {Response : Type}.

(** [HandleLayerError::call], once the inner future is ready. *)
Definition layer_call (r : Result Response LayerError) : Response + LayerResponse :=
  match r with
  | Ok r => inl r
  | Err e =>
      let status := match e with Elapsed => 408 | Overloaded => 503 | OtherError _ => 500 end%Z in
      let body := if (status =? 408)%Z then "request timed out"
                  else if (status =? 503)%Z then "server at capacity"
                  else "internal server error" in
      inr (mkLayerResponse status body)
  end.

(** [HandleLayerError::poll_ready]: the answer, and whether it wakes the task. *)
Definition layer_poll_ready (r : Poll (Result unit LayerError)) : Poll unit * bool :=
  match r with
  | Pending => (Pending, false)
  | Ready (Ok _) => (Ready tt, false)
  | Ready (Err _) => (Pending, true)
  end.

(** A layer error never reaches hyper and never passes for readiness: the three
    kinds of errors get three different statuses, all errors of HTTP, and a
    service that fails to become ready is polled again. *)
Lemma layer_errors_rendered (e : LayerError) :
  (exists resp, layer_call (Err e) = inr resp /\ (400 <= lr_status resp)%Z /\
     forall e' resp', layer_call (Err e') = inr resp' -> lr_status resp' = lr_status resp ->
       match e, e' with Elapsed, Elapsed | Overloaded, Overloaded | OtherError _, OtherError _ => True | _, _ => False end) /\
  layer_poll_ready (Ready (Err e)) = (Pending, true).
Proof.
  split; [|done]. destruct e; eexists; (split; [reflexivity|]; split; [cbn; lia|]);
    intros [] resp' [= <-]; cbn; congruence || done.
Qed.
End error_layer.

(** ** Response compression *)

Section compression.
Context (hv_to_str : Bytes -> option string).
(** The predicates of tower-http on a response: its size is at least a minimum,
    its content type does not begin with a text (images and event streams have
    predicates of their own). *)
Context {Response : Type} (headers : Response -> list (string * Bytes)).
Context (size_above : Z -> Response -> bool) (not_for_content_type : string -> Response -> bool).
Context (not_images not_sse : Response -> bool).

(** [HeaderMap::get]: the first value of the name. *)
Definition header_get (name : string) (hs : list (string * Bytes)) : option Bytes :=
  p ← list_find (fun h => h.1 = name) hs; Some p.2.2.

Definition not_pre_compressed (hs : list (string * Bytes)) : bool :=
  match header_get "content-encoding" hs with Some _ => false | None => true end.

Definition is_no_transform (directive : string) : bool := eq_ignore_ascii_case (str_trim directive) "no-transform".

Definition not_no_transform (hs : list (string * Bytes)) : bool :=
  match header_get "cache-control" hs ≫= hv_to_str with
  | Some v => negb (existsb is_no_transform (split_char ","%char v))
  | None => true
  end.

(** The predicate of [build_compression_layer]. *)
Definition compress_when (comp : CompressionOptions) (r : Response) : bool :=
  size_above (min_body_bytes comp) r && not_images r && not_sse r
  && not_for_content_type "audio/" r && not_for_content_type "video/" r
  && not_for_content_type "application/zstd" r && not_for_content_type "application/octet-stream" r
  && not_pre_compressed (headers r) && not_no_transform (headers r).

Lemma header_get_None name hs : header_get name hs = None <-> Forall (fun h => h.1 <> name) hs.
Proof.
  unfold header_get. destruct (list_find (fun h => h.1 = name) hs) as [[i h]|] eqn:E; cbn.
  - split; [done|]. apply list_find_Some in E as (E & Hn & _). intros Hf. rewrite list.Forall_forall in Hf.
    destruct (Hf h); [by eapply list_elem_of_lookup_2|done].
  - split; [|done]. intros _. exact (proj1 (list_find_None _ _) E).
Qed.

Lemma header_get_first name hs1 v hs2 :
  Forall (fun h => h.1 <> name) hs1 -> header_get name (hs1 ++ (name, v) :: hs2) = Some v.
Proof.
  intros Hf. unfold header_get. assert (list_find (fun h => h.1 = name) (hs1 ++ (name, v) :: hs2) = Some (length hs1, (name, v))) as ->.
  { apply list_find_Some. split; [by rewrite lookup_app_r, Nat.sub_diag|]. split; [done|]. intros j h Hj Hlt.
    rewrite lookup_app_l in Hj by done. rewrite list.Forall_forall in Hf. apply Hf. by eapply list_elem_of_lookup_2. }
  done.
Qed.

(** What is never compressed: a response with any content encoding, and one whose
    first Cache-Control value lists [no-transform] in whatever case and spacing,
    whatever the size and the type. *)
Lemma compression_declined comp r :
  (exists v, ("content-encoding", v) ∈ headers r) \/
  (exists hs1 v hs2 text d, headers r = hs1 ++ ("cache-control", v) :: hs2 /\
     Forall (fun h => h.1 <> "cache-control") hs1 /\ hv_to_str v = Some text /\
     d ∈ split_char ","%char text /\ is_no_transform d = true) ->
  compress_when comp r = false.
Proof.
  intros Hd. unfold compress_when.
  assert (not_pre_compressed (headers r) = false \/ not_no_transform (headers r) = false) as [-> | ->];
    [|by rewrite andb_false_r|by rewrite andb_false_r].
  destruct Hd as [[v Hv]|(hs1 & v & hs2 & text & d & E & Hf & Ht & Hd & Hn)].
  - left. unfold not_pre_compressed. destruct (header_get _ _) eqn:E; [done|]. apply header_get_None in E.
    rewrite list.Forall_forall in E. by destruct (E _ Hv).
  - right. unfold not_no_transform. rewrite E, header_get_first by done. cbn. rewrite Ht.
    replace (existsb _ _) with true; [done|]. symmetry. apply existsb_exists. exists d. split; [by apply list_elem_of_In|done].
Qed.

(** Only the first Cache-Control header counts: when it has no [no-transform], a
    further Cache-Control header that consists of it does not keep the response
    from being compressed. *)
Lemma second_cache_control_ignored (v1 v2 : Bytes) (text : string) :
  hv_to_str v1 = Some text -> existsb is_no_transform (split_char ","%char text) = false ->
  hv_to_str v2 = Some "no-transform" ->
  not_no_transform [("cache-control", v1); ("cache-control", v2)] = true.
Proof.
  intros H1 H2 _. unfold not_no_transform.
  change (header_get _ _) with (header_get "cache-control" ([] ++ ("cache-control", v1) :: [("cache-control", v2)])).
  rewrite header_get_first by constructor. cbn. by rewrite H1, H2.
Qed.
End compression.

(** ** Witness *)

(** A body that is polled every ten seconds, gives a frame at the second poll and
    then nothing: with a timeout of thirty seconds the poll at fifty is the first
    to report it. *)
Definition demo_polls : list (Z * Poll (option (Result nat unit))) :=
  [(0%Z, Pending); (10%Z, Ready (Some (Ok 1))); (20%Z, Pending); (40%Z, Pending)].

Lemma body_idle_timeout_exact_witness :
  (idle_poll_frame 30 49 (Pending : Poll (option (Result nat unit))) (idle_after 30 demo_polls)).1 = Pending /\
  (idle_poll_frame 30 50 (Pending : Poll (option (Result nat unit))) (idle_after 30 demo_polls)).1 = Ready (Some (Err IdleTimeout)) /\
  exists t, idle_since demo_polls t /\ (t + 30 <= 50)%Z.
Proof.
  split; [done|]. split; [done|].
  pose proof (body_idle_timeout_exact 30 50 demo_polls Pending) as Ht. cbn zeta in Ht.
  destruct Ht as [_ Ht]; [lia|]. destruct (Ht eq_refl) as [_ Hp]. destruct (Hp eq_refl) as [(_ & _ & He)|(Hr & _)]; [exact He|done].
Defined.
