(* ===== verification/DenoCall.v ===== *)
(** * Buffers and caches of the Deno FFI (iroh-http-deno/src/lib.rs)

    Every symbol answers with an [i32]: a length, or a negative number that is
    an error or the size the caller's buffer should have had.  Answers that do
    not fit are kept for a retry: responses in a cache with a token, a size and
    a time limit, fetch results in a table by token, stream errors by handle.
    The iteration order of the hash map is a parameter. *)

From stdpp Require Import base numbers list strings gmap fin_maps.
From Stdlib Require Import ZArith Lia.
From S2P Require Import Prelude Errors Extern BodyChannel Handles Dispatcher HostAdapter Sessions Text DenoServe.

Open Scope string_scope.
Open Scope list_scope.

(** ** Buffers *)

(** An input pointer with its length: a null pointer carries only the length. *)
Record RawIn := mkRawIn { in_null : bool; in_bytes : Bytes }.
(** An output pointer with its capacity. *)
Record RawOut := mkRawOut { out_null : bool; out_cap : Z }.
(** The returned number and the bytes written at the start of the output buffer. *)
Record Ret := mkRet { rc : Z; written : Bytes }.

Definition in_invalid (i : RawIn) : bool := (0 <? len (in_bytes i))%Z && in_null i.
Definition out_invalid (o : RawOut) : bool := (0 <? out_cap o)%Z && out_null o.

(** [i32::try_from(len).map(|n| 0i32.wrapping_sub(n)).unwrap_or(i32::MIN)]. *)
Definition needed (n : Z) : Z := if (n <=? I32_MAX)%Z then (- n)%Z else I32_MIN.
(** The copy of a value that fits. *)
Definition copied (data : Bytes) : Ret := mkRet (as_i32 (len data)) data.
Definition failed : Ret := mkRet (-1) [].

(** [u64::to_le_bytes] and [u64::from_le_bytes]. *)
Definition byte_of (n : Z) : Byte.byte := default Byte.x00 (Byte.of_N (Z.to_N (n mod 256))).
Fixpoint le_bytes (count : nat) (n : Z) : Bytes :=
  match count with O => [] | S count => byte_of n :: le_bytes count (n / 256) end.
Fixpoint from_le (bytes : Bytes) : Z :=
  match bytes with [] => 0 | b :: bytes => Z.of_N (Byte.to_N b) + 256 * from_le bytes end%Z.
Definition to_le_bytes (token : Z) : Bytes := le_bytes 8 token.
Definition from_le_bytes (bytes : Bytes) : Z := from_le bytes.

(** ** The overflow cache *)

Definition OVERFLOW_MAX_ENTRIES : Z := 256.
Definition OVERFLOW_MAX_BYTES : Z := 64 * 1024 * 1024.
Definition OVERFLOW_TTL : Z := 30000.

(** [OverflowEntry]. *)
Record OverflowEntry := mkOverflow { data : Bytes; ov_created : Z }.
Abbreviation OverflowCache := (gmap Z OverflowEntry).

Definition cache_bytes (cache : OverflowCache) : Z := zsum (fun e => len (data e.2)) (map_to_list cache).
Definition over_budget (cache : OverflowCache) : bool :=
  (OVERFLOW_MAX_ENTRIES <? Z.of_nat (size cache))%Z || (OVERFLOW_MAX_BYTES <? cache_bytes cache)%Z.

(** [Iterator::min_by_key]: the first of the smallest. *)
Fixpoint min_by_created (l : list (Z * OverflowEntry)) : option (Z * OverflowEntry) :=
  match l with
  | [] => None
  | e :: l =>
      match min_by_created l with
      | Some m => if (ov_created m.2 <? ov_created e.2)%Z then Some m else Some e
      | None => Some e
      end
  end.

Definition unexpired (now : Z) (cache : OverflowCache) : OverflowCache :=
  filter (fun e => elapsed now (ov_created e.2) < OVERFLOW_TTL)%Z cache.

Section overflow.
(** The order in which the hash map is iterated. *)
Context (iter : OverflowCache -> list (Z * OverflowEntry)).

Fixpoint evict_loop (fuel : nat) (cache : OverflowCache) : option OverflowCache :=
  if over_budget cache
  then match fuel with
       | O => None
       | S fuel =>
           match min_by_created (iter cache) with
           | Some (oldest_key, _) => evict_loop fuel (delete oldest_key cache)
           | None => Some cache
           end
       end
  else Some cache.

(** [None]: out of fuel; there are as many rounds as entries. *)
Definition evict_overflow (now : Z) (cache : OverflowCache) : option OverflowCache :=
  let cache := unexpired now cache in evict_loop (size cache) cache.

(** [OVERFLOW_COUNTER] and the cache. *)
Record Overflow := mkOverflowState { overflow_counter : Z; overflow_cache : OverflowCache }.

(** The end of a call whose response is longer than the buffer. *)
Definition overflow_store (now : Z) (encoded : Bytes) (o : RawOut) (s : Overflow) : option (Ret * Overflow) :=
  let token := overflow_counter s in
  let written := if (8 <=? out_cap o)%Z then to_le_bytes token else [] in
  match evict_overflow now (overflow_cache s) with
  | None => None
  | Some cache =>
      Some (mkRet (needed (len encoded)) written,
            mkOverflowState (wrapping_add token 1) (<[token := mkOverflow encoded now]> cache))
  end.

(** The response of a call, copied or kept. *)
Definition finish_call (now : Z) (encoded : Bytes) (o : RawOut) (s : Overflow) : option (Ret * Overflow) :=
  if (out_cap o <? len encoded)%Z then overflow_store now encoded o s else Some (copied encoded, s).

(** ["__cached"], first lock: take the entry out. *)
Definition cached_take (payload : Bytes) (s : Overflow) : option (Z * OverflowEntry) * Overflow :=
  if (8 <=? len payload)%Z
  then let token := from_le_bytes (take 8 payload) in
       (pair token <$> overflow_cache s !! token,
        mkOverflowState (overflow_counter s) (delete token (overflow_cache s)))
  else (None, s).

(** Without the lock: copy it, or go on to put it back. *)
Definition cached_copy (o : RawOut) (entry : OverflowEntry) : option Ret :=
  if (len (data entry) <=? out_cap o)%Z then Some (copied (data entry)) else None.

(** Second lock: put it back. *)
Definition cached_put_back (token : Z) (entry : OverflowEntry) (s : Overflow) : Ret * Overflow :=
  (mkRet (needed (len (data entry))) [],
   mkOverflowState (overflow_counter s) (<[token := entry]> (overflow_cache s))).

(** The retrieval without a concurrent call in between. *)
Definition cached (payload : Bytes) (o : RawOut) (s : Overflow) : Ret * Overflow :=
  match cached_take payload s with
  | (None, s) => (failed, s)
  | (Some (token, entry), s) =>
      match cached_copy o entry with
      | Some ret => (ret, s)
      | None => cached_put_back token entry s
      end
  end.

(** [from_utf8]: [None] when the bytes are not text. *)
Context (from_utf8 : Bytes -> option string).

(** [{"err":"RUNTIME_INIT_FAILED: ..."}]. *)
Definition RUNTIME_INIT_FAILED : Bytes :=
  as_bytes ("{" +:+ member "err" (dquote +:+ "RUNTIME_INIT_FAILED: OS refused to create threads for Tokio runtime" +:+ dquote) +:+ "}").

(** [iroh_http_call], for a dispatch that answers with the bytes [dispatch]
    gives; [runtime]: the runtime could be created. *)
Definition iroh_http_call {S} (runtime : bool) (now : Z) (dispatch : string -> Bytes -> S -> Bytes * S)
  (method payload : RawIn) (o : RawOut) (st : S * Overflow) : option (Ret * (S * Overflow)) :=
  if in_invalid method then Some (failed, st)
  else if in_invalid payload then Some (failed, st)
  else if out_invalid o then Some (failed, st)
  else
    let name := default "__invalid_utf8__" (from_utf8 (in_bytes method)) in
    if bool_decide (name = "__cached")
    then let '(ret, s) := cached (in_bytes payload) o st.2 in Some (ret, (st.1, s))
    else if negb runtime
    then Some (if (len RUNTIME_INIT_FAILED <=? out_cap o)%Z then copied RUNTIME_INIT_FAILED
               else mkRet (needed (len RUNTIME_INIT_FAILED)) [], st)
    else
      let '(encoded, d) := dispatch name (in_bytes payload) st.1 in
      match finish_call now encoded o st.2 with
      | Some (ret, s) => Some (ret, (d, s))
      | None => None
      end.

End overflow.

(** ** Fetches started without blocking *)

(** A task of [start_fetch]; [FetchResult] is always [Ok] there. *)
Abbreviation FetchResult := (Result Bytes Bytes).
Inductive FetchTask := Running | Finished (r : FetchResult) | Panicked.
#[global] Instance FetchTask_eq_dec : EqDecision FetchTask.
Proof. solve_decision. Defined.
Definition is_finished (t : FetchTask) : bool := match t with Running => false | _ => true end.

(** [cb_tasks]: the running tasks of [start_fetch_cb]; [called_back]: the tokens
    the callback was called with. *)
Record Fetches := mkFetches {
  fetch_counter : Z;
  fetch_registry : gmap Z FetchTask;
  fetch_results : gmap Z FetchResult;
  cb_tasks : list Z;
  called_back : list Z
}.

Definition set_results r s := mkFetches (fetch_counter s) (fetch_registry s) r (cb_tasks s) (called_back s).
Definition set_registry r s := mkFetches (fetch_counter s) r (fetch_results s) (cb_tasks s) (called_back s).

(** [iroh_http_start_fetch]. *)
Definition start_fetch (runtime : bool) (request : RawIn) (s : Fetches) : Z * Fetches :=
  if in_invalid request then (0%Z, s)
  else if negb runtime then (0%Z, s)
  else
    let token := fetch_counter s in
    (token, mkFetches (wrapping_add token 1) (<[token := Running]> (fetch_registry s)) (fetch_results s)
              (cb_tasks s) (called_back s)).

(** [iroh_http_start_fetch_cb]; [json_ok]: the request is JSON. *)
Definition start_fetch_cb (runtime : bool) (json_ok : Bytes -> bool) (request : RawIn) (s : Fetches) : Z * Fetches :=
  if in_invalid request then (0%Z, s)
  else if negb runtime then (0%Z, s)
  else if negb (json_ok (in_bytes request)) then (0%Z, s)
  else
    let token := fetch_counter s in
    (token, mkFetches (wrapping_add token 1) (fetch_registry s) (fetch_results s)
              (cb_tasks s ++ [token]) (called_back s)).

(** The end of a task of [start_fetch], and of one of [start_fetch_cb]: it stores
    the result, then calls back. *)
Definition task_ends (token : Z) (t : FetchTask) (s : Fetches) : Fetches :=
  set_registry (<[token := t]> (fetch_registry s)) s.
Definition cb_task_stores (token : Z) (encoded : Bytes) (s : Fetches) : Fetches :=
  set_results (<[token := Ok encoded]> (fetch_results s)) s.
Definition cb_task_calls (token : Z) (s : Fetches) : Fetches :=
  mkFetches (fetch_counter s) (fetch_registry s) (fetch_results s) (filter (fun t => t <> token) (cb_tasks s))
    (called_back s ++ [token]).

(** [Ok(encoded) | Err(encoded)]. *)
Definition result_bytes (r : FetchResult) : Bytes := match r with Ok b => b | Err b => b end.

(** What both branches of a poll do with a result. *)
Definition give_result (token : Z) (encoded : Bytes) (o : RawOut) (s : Fetches) : Ret * Fetches :=
  if (out_cap o <? len encoded)%Z
  then (mkRet (needed (len encoded)) [], set_results (<[token := Ok encoded]> (fetch_results s)) s)
  else (copied encoded, s).

(** [iroh_http_poll_fetch]. *)
Definition poll_fetch (runtime : bool) (token : Z) (o : RawOut) (s : Fetches) : Ret * Fetches :=
  if out_invalid o then (failed, s)
  else
    match fetch_results s !! token with
    | Some result =>
        give_result token (result_bytes result) o (set_results (delete token (fetch_results s)) s)
    | None =>
        match fetch_registry s !! token with
        | None => (failed, s)
        | Some handle =>
            if negb (is_finished handle) then (mkRet 0 [], s)
            else
              let s := set_registry (delete token (fetch_registry s)) s in
              if negb runtime then (failed, s)
              else match handle with
                   | Finished result => give_result token (result_bytes result) o s
                   | _ => (failed, s)
                   end
        end
    end.

(** ** Streams *)

Section streams.
Context {K : Type} {M : Type -> Type} `{SlotMap K M} {C : Type -> Type} `{Mpsc C}.
#[local] Abbreviation world := (World M C).
(** A string as JSON text. *)
Context (json_string : string -> string).

(** The endpoints are shared by the registry and by the calls that looked them
    up; [stream_errors] is keyed by the endpoint and the stream handle. *)
Record Ffi := mkFfi {
  endpoints : M nat;
  worlds : list world;
  stream_errors : gmap (Z * Z) Bytes
}.

Definition set_world (ep : nat) (w : world) (s : Ffi) : Ffi :=
  mkFfi (endpoints s) (<[ep := w]> (worlds s)) (stream_errors s).

(** [registry::get_endpoint] and the handles of the endpoint. *)
Definition lookup_endpoint (endpoint_handle : Z) (s : Ffi) : option (nat * world) :=
  get_endpoint endpoint_handle (endpoints s) ≫= fun ep => pair ep <$> worlds s !! ep.

Definition record_stream_error (endpoint_handle handle : Z) (error : CoreError) (s : Ffi) : Ffi :=
  mkFfi (endpoints s) (worlds s)
    (<[(endpoint_handle, handle) := as_bytes (core_error_to_json json_string error)]> (stream_errors s)).

(** A chunk in the caller's buffer, or the size it needs. *)
Definition copy_chunk (b : Bytes) (o : RawOut) : Ret :=
  if (out_cap o <? len b)%Z then mkRet (needed (len b)) [] else copied b.

(** [iroh_http_next_chunk] once the read has its result. *)
Definition next_chunk_answer (endpoint_handle handle : Z) (o : RawOut) (r : Result (option Bytes) CoreError)
  (s : Ffi) : Ret * Ffi :=
  match r with
  | Err e => (failed, record_stream_error endpoint_handle handle e s)
  | Ok None => (mkRet 0 [], s)
  | Ok (Some b) => (copy_chunk b o, s)
  end.

(** [iroh_http_next_chunk]: the answer, or the read it is blocked on. *)
Definition ffi_next_chunk (runtime : bool) (now endpoint_handle handle : Z) (o : RawOut) (s : Ffi)
  : Poll Ret * option (nat * NextChunk) * Ffi :=
  if out_invalid o then (Ready failed, None, s)
  else
    match lookup_endpoint endpoint_handle s with
    | None => (Ready failed, None, s)
    | Some (ep, w) =>
        if negb runtime then (Ready failed, None, s)
        else
          match next_chunk now handle w with
          | (Ready r, _, w) =>
              let '(ret, s) := next_chunk_answer endpoint_handle handle o r (set_world ep w s) in
              (Ready ret, None, s)
          | (Pending, n, w) => (Pending, pair ep <$> n, set_world ep w s)
          end
    end.

(** A later poll of the blocked read. *)
Definition ffi_next_chunk_resume (endpoint_handle handle : Z) (o : RawOut) (blocked : nat * NextChunk) (s : Ffi)
  : Poll Ret * option (nat * NextChunk) * Ffi :=
  let '(ep, n) := blocked in
  match worlds s !! ep with
  | None => (Pending, Some blocked, s)
  | Some w =>
      match next_chunk_poll n w with
      | (Ready r, _, w) =>
          let '(ret, s) := next_chunk_answer endpoint_handle handle o r (set_world ep w s) in
          (Ready ret, None, s)
      | (Pending, n, w) => (Pending, Some (ep, n), set_world ep w s)
      end
  end.

(** [iroh_http_try_next_chunk]. *)
Definition ffi_try_next_chunk (now endpoint_handle handle : Z) (o : RawOut) (s : Ffi) : Ret * Ffi :=
  if out_invalid o then (failed, s)
  else
    match lookup_endpoint endpoint_handle s with
    | None => (failed, s)
    | Some (ep, w) =>
        let '(r, w) := try_next_chunk now handle w in
        let s := set_world ep w s in
        match r with
        | Ok None => (mkRet 0 [], s)
        | Ok (Some b) => (copy_chunk b o, s)
        | Err e =>
            if starts_with "try_next_chunk:" (message e) then (mkRet (-2) [], s)
            else (failed, record_stream_error endpoint_handle handle e s)
        end
    end.

(** [iroh_http_take_last_stream_error]. *)
Definition take_last_stream_error (endpoint_handle handle : Z) (o : RawOut) (s : Ffi) : Ret * Ffi :=
  if out_invalid o then (failed, s)
  else
    match stream_errors s !! (endpoint_handle, handle) with
    | None => (mkRet 0 [], s)
    | Some bytes =>
        if (out_cap o <? len bytes)%Z then (mkRet (needed (len bytes)) [], s)
        else (copied bytes,
              mkFfi (endpoints s) (worlds s) (delete (endpoint_handle, handle) (stream_errors s)))
    end.

(** The number of a symbol that answers with success or failure. *)
Definition unit_rc {E} (r : Result unit E) : Z := match r with Ok _ => 0 | Err _ => -1 end.

(** [iroh_http_send_chunk]; [None]: the split loop ran out of fuel. *)
Definition ffi_send_chunk (runtime : bool) (now endpoint_handle handle : Z) (chunk : RawIn)
  (envs : list (list EnvAct * list EnvAct)) (s : Ffi) : option (Z * list Bytes * Ffi) :=
  if in_invalid chunk then Some ((-1)%Z, [], s)
  else
    match lookup_endpoint endpoint_handle s with
    | None => Some ((-1)%Z, [], s)
    | Some (ep, w) =>
        if negb runtime then Some ((-1)%Z, [], s)
        else '(r, got, w) ← send_chunk now handle (in_bytes chunk) envs w; Some (unit_rc r, got, set_world ep w s)
    end.

(** ** Responses *)

(** [status as u16]. *)
Definition as_u16 (n : Z) : Z := n mod 65536.
(** Rows that are not pairs are dropped. *)
Definition header_pairs : list (list string) -> list (string * string) :=
  omap (fun p => match p with [name; value] => Some (name, value) | _ => None end).

(** JSON rows of strings; the checks of the response head, and [{:?}]. *)
Context (parse_rows : Bytes -> option (list (list string))).
Context (status_ok : Z -> bool) (header_name_ok header_value_ok : string -> bool) (debug_str : string -> string).

(** [iroh_http_respond]. *)
Definition ffi_respond (endpoint_handle req_handle status : Z) (rows : RawIn) (s : Ffi) : Z * Ffi :=
  match lookup_endpoint endpoint_handle s with
  | None => ((-1)%Z, s)
  | Some (ep, w) =>
      if in_invalid rows then ((-1)%Z, s)
      else
        match if (len (in_bytes rows) =? 0)%Z then Some [] else header_pairs <$> parse_rows (in_bytes rows) with
        | None => ((-1)%Z, s)
        | Some headers =>
            let '(r, w) := respond status_ok header_name_ok header_value_ok debug_str req_handle (as_u16 status)
                             headers w in
            (unit_rc r, set_world ep w s)
        end
  end.

(** [iroh_http_finish_body]. *)
Definition ffi_finish_body (endpoint_handle handle : Z) (s : Ffi) : Z * Ffi :=
  match lookup_endpoint endpoint_handle s with
  | None => ((-1)%Z, s)
  | Some (ep, w) => let '(r, w) := finish_body handle w in (unit_rc r, set_world ep w s)
  end.

(** [iroh_http_cancel_reader]. *)
Definition ffi_cancel_reader (endpoint_handle handle : Z) (s : Ffi) : Z * Ffi :=
  match lookup_endpoint endpoint_handle s with
  | None => ((-1)%Z, s)
  | Some (ep, w) => (0%Z, set_world ep (cancel_reader handle w) s)
  end.

(** [iroh_http_close_all]: wake the serve loops, then take every endpoint out of
    the registry; the result lists the endpoints to close. *)
Definition ffi_close_all (d : Deno C) (s : Ffi) : Deno C * list nat * Ffi :=
  let d := shutdown_all d in
  let '(closed, map) := close_all_endpoints (endpoints s) in
  (d, closed, mkFfi map (worlds s) (stream_errors s)).

End streams.
