(* ===== verification/DenoCallProps.v ===== *)
(** * Properties of the Deno FFI buffers

    The overflow cache hands every response out at most once and unchanged,
    stays within its budget plus one entry and evicts only what is expired or
    oldest; a fetch result is handed out exactly once; a stream error is taken
    once; the chunk symbols deliver a body exactly when the buffers are large
    enough. *)

From stdpp Require Import base numbers list strings gmap fin_maps relations.
From Stdlib Require Import ZArith Lia.
From S2P Require Import Prelude Errors Extern BodyChannel Handles HandlesFacts Dispatcher HostAdapter Sessions DenoServe DenoCall.

Open Scope string_scope.
Open Scope list_scope.

(** ** Numbers and tokens *)

Lemma as_i32_small n : (0 <= n <= I32_MAX)%Z -> as_i32 n = n.
Proof. unfold as_i32, I32_MAX. intros ?. rewrite Z.mod_small; lia. Qed.

Lemma needed_small n : (0 <= n <= I32_MAX)%Z -> needed n = (- n)%Z.
Proof. unfold needed. intros ?. destruct (n <=? I32_MAX)%Z eqn:?; zify_bool. Qed.

Lemma copied_small b : (len b <= I32_MAX)%Z -> copied b = mkRet (len b) b.
Proof. intros Hb. unfold copied. rewrite as_i32_small; [done|]. pose proof (len_nonneg b). lia. Qed.

Lemma byte_of_to_N n : Z.of_N (Byte.to_N (byte_of n)) = (n mod 256)%Z.
Proof.
  unfold byte_of. pose proof (Z.mod_pos_bound n 256 ltac:(lia)).
  destruct (Byte.of_N (Z.to_N (n mod 256))) as [b|] eqn:Hb; simpl.
  - apply Byte.to_of_N in Hb. rewrite Hb. lia.
  - apply Byte.of_N_None_iff in Hb. lia.
Qed.

Lemma from_le_bytes_of count n :
  (0 <= n < 256 ^ Z.of_nat count)%Z -> from_le (le_bytes count n) = n.
Proof.
  revert n. induction count as [|count IH]; intros n Hn; simpl.
  - change (256 ^ Z.of_nat 0)%Z with 1%Z in Hn. lia.
  - rewrite Nat2Z.inj_succ, Z.pow_succ_r in Hn by lia.
    rewrite byte_of_to_N, IH; [pose proof (Z.div_mod n 256); lia|].
    split; [apply Z.div_pos; lia | apply Z.div_lt_upper_bound; lia].
Qed.

Lemma length_le_bytes count n : length (le_bytes count n) = count.
Proof. revert n. induction count; intros; simpl; auto. Qed.

Lemma token_roundtrip token rest :
  is_u64 token -> from_le_bytes (take 8 (to_le_bytes token ++ rest)) = token.
Proof.
  intros Ht. unfold to_le_bytes. rewrite take_app_length' by (symmetry; apply length_le_bytes).
  apply from_le_bytes_of. unfold is_u64, U64_MAX in Ht.
  change (256 ^ Z.of_nat 8)%Z with 18446744073709551616%Z. lia.
Qed.

(** ** Eviction *)

Lemma zsum_perm {A} (f : A -> Z) l k : l ≡ₚ k -> zsum f l = zsum f k.
Proof. induction 1; simpl; lia. Qed.

Lemma cache_bytes_insert (cache : OverflowCache) t e :
  cache !! t = None -> cache_bytes (<[t := e]> cache) = (len (data e) + cache_bytes cache)%Z.
Proof. intros Ht. unfold cache_bytes. rewrite (zsum_perm _ _ _ (map_to_list_insert _ _ _ Ht)). done. Qed.

Lemma cache_bytes_delete (cache : OverflowCache) t :
  (cache_bytes (delete t cache) <= cache_bytes cache)%Z.
Proof.
  destruct (cache !! t) as [e|] eqn:Ht.
  - pose proof (cache_bytes_insert (delete t cache) t e (lookup_delete_eq _ _)) as Hi.
    rewrite insert_delete_id in Hi by done. pose proof (len_nonneg (data e)). lia.
  - by rewrite delete_id.
Qed.

Lemma min_by_created_spec l :
  match min_by_created l with
  | Some m => m ∈ l /\ forall e, e ∈ l -> (ov_created m.2 <= ov_created e.2)%Z
  | None => l = []
  end.
Proof.
  induction l as [|x l IH]; [done|]. simpl. destruct (min_by_created l) as [m|].
  - destruct IH as [Hm Hmin]. destruct (ov_created m.2 <? ov_created x.2)%Z eqn:Hc; bool_to_prop.
    + split; [by right|]. intros e [->|He]%elem_of_cons; [lia | auto].
    + split; [by left|]. intros e [->|He]%elem_of_cons; [lia|]. specialize (Hmin e He). lia.
  - subst l. split; [by left|]. intros e He%list_elem_of_singleton. subst e. lia.
Qed.

Section eviction.
Context (iter : OverflowCache -> list (Z * OverflowEntry)).
Context (iter_perm : forall m, iter m ≡ₚ map_to_list m).

(** What an eviction from [from] leaves: everything within the budget, and what
    was removed is no younger than what is left and was in the way. *)
Definition evicted_to (from kept : OverflowCache) : Prop :=
  over_budget kept = false /\ kept ⊆ from /\
  (forall t e t' e', from !! t = Some e -> kept !! t = None -> kept !! t' = Some e' ->
     (ov_created e <= ov_created e')%Z) /\
  (kept = from \/ exists t e, from !! t = Some e /\ kept !! t = None /\ over_budget (<[t := e]> kept) = true).

Lemma oldest_entry cache :
  over_budget cache = true ->
  exists t e, min_by_created (iter cache) = Some (t, e) /\ cache !! t = Some e /\
    forall t' e', cache !! t' = Some e' -> (ov_created e <= ov_created e')%Z.
Proof.
  intros Ho. pose proof (min_by_created_spec (iter cache)) as Hm.
  destruct (min_by_created (iter cache)) as [[t e]|].
  - exists t, e. destruct Hm as [He Hmin]. split; [done|].
    rewrite iter_perm in He. apply elem_of_map_to_list in He. split; [done|].
    intros t' e' He'. apply (Hmin (t', e')). rewrite iter_perm. by apply elem_of_map_to_list.
  - pose proof (iter_perm cache) as Hp. rewrite Hm in Hp. apply Permutation_nil in Hp.
    apply map_to_list_empty_iff in Hp. subst cache. done.
Qed.

Lemma evict_loop_spec fuel cache :
  size cache <= fuel -> exists kept, evict_loop iter fuel cache = Some kept /\ evicted_to cache kept.
Proof.
  revert cache. induction fuel as [|fuel IH]; intros cache Hf.
  - assert (cache = ∅) as -> by (apply map_size_empty_iff; lia).
    exists ∅. split; [done|]. repeat split; auto; done.
  - simpl. destruct (over_budget cache) eqn:Ho.
    2:{ exists cache. split; [done|]. repeat split; auto. intros t e t' e' H1 H2. congruence. }
    destruct (oldest_entry cache Ho) as (t & e & -> & Ht & Hmin).
    destruct (IH (delete t cache)) as (kept & Hk & Hb & Hsub & Hold & Hlast).
    { rewrite map_size_delete_Some by eauto. lia. }
    exists kept. split; [done|]. unfold evicted_to. split_and!; [done| | |].
    + etrans; [done|]. apply delete_subseteq.
    + intros t1 e1 t2 e2 H1 H2 H3. destruct (decide (t1 = t)) as [->|Hne].
      * replace e1 with e by congruence. apply (Hmin t2).
        apply (lookup_weaken _ _ _ _ H3). etrans; [done|]. apply delete_subseteq.
      * apply (Hold t1 e1 t2 e2); [|done|done]. by rewrite lookup_delete_ne by done.
    + right. destruct Hlast as [->|(t1 & e1 & H1 & H2 & H3)].
      * exists t, e. split; [done|]. rewrite lookup_delete_eq, insert_delete_id by done. done.
      * exists t1, e1. apply lookup_delete_Some in H1 as [_ H1]. done.
Qed.

(** The eviction ends; it removes the expired entries, and of the others only
    oldest ones and only as many as the budget demands. *)
Theorem evict_overflow_exact now cache :
  exists kept, evict_overflow iter now cache = Some kept /\ evicted_to (unexpired now cache) kept.
Proof. apply evict_loop_spec. done. Qed.

Lemma evict_overflow_small now cache :
  over_budget (unexpired now cache) = false -> evict_overflow iter now cache = Some (unexpired now cache).
Proof. intros Ho. unfold evict_overflow. destruct (size _); simpl; by rewrite Ho. Qed.

Lemma evicted_subseteq now cache kept : evict_overflow iter now cache = Some kept -> kept ⊆ cache.
Proof.
  intros Hk. destruct (evict_overflow_exact now cache) as (k & Hk' & _ & Hsub & _).
  replace kept with k by congruence. etrans; [done|]. apply map_filter_subseteq.
Qed.

(** ** The protocol of retrievals *)

(** The cache, the retrievals between their two locks, what was stored under
    each token, what the retrievals have returned, and the number of put-backs
    since the last response was stored. *)
Record Run := mkRun {
  ov : Overflow;
  held : list (Z * OverflowEntry);
  stored : gmap Z Bytes;
  returned : list (Z * Bytes);
  put_backs : nat
}.
Definition run0 : Run := mkRun (mkOverflowState 1 ∅) [] ∅ [] 0.

(** Calls of any number of threads, each lock a step of its own. *)
Inductive ov_step : Run -> Run -> Prop :=
| ov_store now encoded o r ret s :
    overflow_store iter now encoded o (ov r) = Some (ret, s) ->
    ov_step r (mkRun s (held r) (<[overflow_counter (ov r) := encoded]> (stored r)) (returned r) 0)
| ov_take payload r token e s :
    cached_take payload (ov r) = (Some (token, e), s) ->
    ov_step r (mkRun s (held r ++ [(token, e)]) (stored r) (returned r) (put_backs r))
| ov_copy o r l1 token e l2 ret :
    held r = l1 ++ (token, e) :: l2 -> cached_copy o e = Some ret ->
    ov_step r (mkRun (ov r) (l1 ++ l2) (stored r) (returned r ++ [(token, written ret)]) (put_backs r))
| ov_put_back o r l1 token e l2 :
    held r = l1 ++ (token, e) :: l2 -> cached_copy o e = None ->
    ov_step r (mkRun (cached_put_back token e (ov r)).2 (l1 ++ l2) (stored r) (returned r) (S (put_backs r))).

(** Every token is in one place at most, with the bytes stored under it. *)
Record ov_inv (n : nat) (r : Run) : Prop := mkOvInv {
  ovi_counter : (1 <= overflow_counter (ov r) <= 1 + Z.of_nat n)%Z;
  ovi_below : forall t, is_Some (stored r !! t) -> (1 <= t < overflow_counter (ov r))%Z;
  ovi_cache : forall t e, overflow_cache (ov r) !! t = Some e -> stored r !! t = Some (data e);
  ovi_held : forall t e, (t, e) ∈ held r -> stored r !! t = Some (data e) /\ overflow_cache (ov r) !! t = None;
  ovi_returned : forall t b, (t, b) ∈ returned r -> stored r !! t = Some b /\ overflow_cache (ov r) !! t = None;
  ovi_nodup : NoDup ((held r).*1 ++ (returned r).*1)
}.

Lemma ov_inv_store n now encoded o r ret s :
  (Z.of_nat (S n) < U64_MAX)%Z ->
  overflow_store iter now encoded o (ov r) = Some (ret, s) -> ov_inv n r ->
  ov_inv (S n) (mkRun s (held r) (<[overflow_counter (ov r) := encoded]> (stored r)) (returned r) 0).
Proof.
  intros Hn Hs [Hc Hb Hca Hh Hr Hnd]. unfold overflow_store in Hs.
  destruct (evict_overflow _ _ _) as [kept|] eqn:Hk; [|done]. injection Hs as <- <-.
  apply evicted_subseteq in Hk.
  assert (forall t b, stored r !! t = Some b -> t <> overflow_counter (ov r)) as Hne.
  { intros t b Ht ->. specialize (Hb _ ltac:(eauto)). lia. }
  assert (forall t, overflow_cache (ov r) !! t = None -> kept !! t = None) as Hkn.
  { intros t Ht. by apply (lookup_weaken_None _ _ _ Ht). }
  split; simpl.
  - rewrite wrapping_add_exact; unfold U64_MAX in *; lia.
  - intros t Ht. rewrite wrapping_add_exact by (unfold U64_MAX in *; lia).
    destruct (decide (t = overflow_counter (ov r))) as [->|Hd]; [lia|].
    rewrite lookup_insert_ne in Ht by done. specialize (Hb t Ht). lia.
  - intros t e [[<- <-]|[Hd He]]%lookup_insert_Some.
    + by rewrite lookup_insert_eq.
    + rewrite lookup_insert_ne by done. apply Hca. by apply (lookup_weaken _ _ _ _ He).
  - intros t e He. destruct (Hh t e He) as [H1 H2]. specialize (Hne _ _ H1).
    rewrite !lookup_insert_ne by done. auto.
  - intros t b He. destruct (Hr t b He) as [H1 H2]. specialize (Hne _ _ H1).
    rewrite !lookup_insert_ne by done. auto.
  - done.
Qed.

Lemma ov_inv_mono n r : ov_inv n r -> ov_inv (S n) r.
Proof. intros []. split; auto. lia. Qed.

Lemma ov_inv_take n payload r token e s :
  cached_take payload (ov r) = (Some (token, e), s) -> ov_inv n r ->
  ov_inv n (mkRun s (held r ++ [(token, e)]) (stored r) (returned r) (put_backs r)).
Proof.
  intros Ht [Hc Hb Hca Hh Hr Hnd]. unfold cached_take in Ht. case_match; [|done].
  destruct (overflow_cache (ov r) !! _) as [e'|] eqn:He; [|done]. injection Ht as <- <- <-.
  set (t0 := from_le_bytes _) in *.
  split; simpl; [done|done| | | |].
  - intros t e0 [_ He0]%lookup_delete_Some. auto.
  - intros t e0 [H0|[= -> ->]%list_elem_of_singleton]%elem_of_app.
    + destruct (Hh _ _ H0). split; [done|]. by apply lookup_delete_None; right.
    + split; [auto|]. apply lookup_delete_eq.
  - intros t b H0. destruct (Hr _ _ H0). split; [done|]. by apply lookup_delete_None; right.
  - rewrite fmap_app; simpl. rewrite <- app_assoc. rewrite (Permutation_app_swap_app _ [t0]). simpl.
    constructor; [|done]. intros [H0|H0]%elem_of_app.
    + apply list_elem_of_fmap in H0 as ([t b] & -> & H0). destruct (Hh _ _ H0). simpl in *. congruence.
    + apply list_elem_of_fmap in H0 as ([t b] & -> & H0). destruct (Hr _ _ H0). simpl in *. congruence.
Qed.

Lemma held_split r l1 t e l2 : held r = l1 ++ (t, e) :: l2 -> forall x, x ∈ l1 ++ l2 -> x ∈ held r.
Proof. intros -> x. rewrite !elem_of_app, elem_of_cons. tauto. Qed.

Lemma held_mid r l1 t e l2 : held r = l1 ++ (t, e) :: l2 -> (t, e) ∈ held r.
Proof. intros ->. apply elem_of_app. right. by left. Qed.

Lemma held_perm r l1 t e l2 : held r = l1 ++ (t, e) :: l2 ->
  (held r).*1 ++ (returned r).*1 ≡ₚ t :: (l1 ++ l2).*1 ++ (returned r).*1.
Proof. intros ->. rewrite !fmap_app. simpl. by rewrite <- Permutation_middle. Qed.

Lemma ov_inv_copy n o r l1 token e l2 ret :
  held r = l1 ++ (token, e) :: l2 -> cached_copy o e = Some ret -> ov_inv n r ->
  ov_inv n (mkRun (ov r) (l1 ++ l2) (stored r) (returned r ++ [(token, written ret)]) (put_backs r)).
Proof.
  intros Hl Hcopy [Hc Hb Hca Hh Hr Hnd]. unfold cached_copy in Hcopy. case_match; [|done].
  injection Hcopy as <-. split; simpl; [done|done|done| | |].
  - intros t e0 H0. apply Hh. by apply (held_split _ _ _ _ _ Hl).
  - intros t b [H0|[= -> ->]%list_elem_of_singleton]%elem_of_app; [auto|].
    apply Hh. by apply (held_mid _ _ _ _ _ Hl).
  - rewrite (held_perm _ _ _ _ _ Hl) in Hnd. rewrite (fmap_app _ (returned r)); simpl.
    by rewrite (Permutation_app_comm (returned r).*1), (Permutation_app_swap_app _ [token]).
Qed.

Lemma ov_inv_put_back n r l1 token e l2 :
  held r = l1 ++ (token, e) :: l2 -> ov_inv n r ->
  ov_inv n (mkRun (cached_put_back token e (ov r)).2 (l1 ++ l2) (stored r) (returned r) (S (put_backs r))).
Proof.
  intros Hl [Hc Hb Hca Hh Hr Hnd].
  rewrite (held_perm _ _ _ _ _ Hl) in Hnd. apply NoDup_cons in Hnd as [Hni Hnd].
  rewrite elem_of_app in Hni.
  destruct (Hh _ _ (held_mid _ _ _ _ _ Hl)) as [Hs _].
  split; simpl; [done|done| | | |done].
  - intros t e0 [[<- <-]|[_ H0]]%lookup_insert_Some; auto.
  - intros t e0 H0. destruct (Hh _ _ (held_split _ _ _ _ _ Hl _ H0)). split; [done|].
    rewrite lookup_insert_ne; [done|]. intros ->. apply Hni. left. by apply (list_elem_of_fmap_2' _ _ (t, e0)).
  - intros t b H0. destruct (Hr _ _ H0). split; [done|].
    rewrite lookup_insert_ne; [done|]. intros ->. apply Hni. right. by apply (list_elem_of_fmap_2' _ _ (t, b)).
Qed.

Lemma ov_run_step n a b : (Z.of_nat (S n) < U64_MAX)%Z -> ov_step a b -> ov_inv n a -> ov_inv (S n) b.
Proof.
  intros Hn [] Ha; [by eapply ov_inv_store|apply ov_inv_mono..].
  - by eapply ov_inv_take.
  - by eapply ov_inv_copy.
  - by eapply ov_inv_put_back.
Qed.

Lemma ov_run_inv n r : nsteps ov_step n run0 r -> (Z.of_nat n < U64_MAX)%Z -> ov_inv n r.
Proof.
  intros Hr Hn. apply (nsteps_invariant ov_step ov_inv n) with (x := run0); [|done|done|].
  - intros m a b Hm. apply ov_run_step. lia.
  - split; simpl; [lia | by intros t [? ?] | done | by intros ? ? ?%not_elem_of_nil | by intros ? ? ?%not_elem_of_nil | constructor].
Qed.

Lemma over_budget_false cache : over_budget cache = false <->
  (Z.of_nat (size cache) <= OVERFLOW_MAX_ENTRIES /\ cache_bytes cache <= OVERFLOW_MAX_BYTES)%Z.
Proof.
  unfold over_budget. rewrite orb_false_iff. split; intros [? ?]; split; bool_to_prop; try lia; apply Z.ltb_ge; lia.
Qed.

Lemma stored_within now encoded o s ret s' :
  overflow_store iter now encoded o s = Some (ret, s') ->
  (Z.of_nat (size (overflow_cache s')) <= OVERFLOW_MAX_ENTRIES + 1)%Z /\
  (cache_bytes (overflow_cache s') <= OVERFLOW_MAX_BYTES + len encoded)%Z /\
  overflow_cache s' !! overflow_counter s = Some (mkOverflow encoded now).
Proof.
  unfold overflow_store. destruct (evict_overflow_exact now (overflow_cache s)) as (kept & -> & Hb & _).
  intros [= <- <-]. simpl. apply over_budget_false in Hb as [Hb1 Hb2]. set (t := overflow_counter s).
  rewrite lookup_insert_eq. rewrite <- insert_delete_eq.
  rewrite cache_bytes_insert by apply lookup_delete_eq. rewrite map_size_insert_None by apply lookup_delete_eq.
  pose proof (cache_bytes_delete kept t). simpl.
  assert (size (delete t kept) <= size kept) by (apply map_subseteq_size, delete_subseteq). split; [lia|].
  split; [lia|done].
Qed.

Lemma stored_grows n r r' : ov_inv n r -> ov_step r r' -> stored r ⊆ stored r'.
Proof.
  intros Hi Hs. destruct Hs; simpl; try done. apply insert_subseteq.
  apply eq_None_not_Some. intros Hx%(ovi_below _ _ Hi). lia.
Qed.

(** The sizes when every response has at most [L] bytes. *)
Definition sizes_ok (L : Z) (r : Run) : Prop :=
  (Z.of_nat (size (overflow_cache (ov r))) <= OVERFLOW_MAX_ENTRIES + 1 + Z.of_nat (put_backs r))%Z /\
  (cache_bytes (overflow_cache (ov r)) <= OVERFLOW_MAX_BYTES + L * (1 + Z.of_nat (put_backs r)))%Z.
Definition short_responses (L : Z) (r : Run) : Prop := forall t b, stored r !! t = Some b -> (len b <= L)%Z.

Lemma sizes_step L n r r' : ov_inv n r -> short_responses L r' -> ov_step r r' -> sizes_ok L r -> sizes_ok L r'.
Proof.
  intros Hi Hs Hstep [H1 H2]. destruct Hstep as [now encoded o r ret s Ho|payload r t e s Ho|o r l1 t e l2 ret Hl Hc|o r l1 t e l2 Hl Hc];
    unfold sizes_ok; simpl in *.
  - destruct (stored_within _ _ _ _ _ _ Ho) as (H3 & H4 & _).
    assert (len encoded <= L)%Z by (apply (Hs (overflow_counter (ov r))); simpl; apply lookup_insert_eq). split; [lia|].
    lia.
  - unfold cached_take in Ho. case_match; [|done]. injection Ho as _ <-. simpl.
    set (t0 := from_le_bytes _). pose proof (cache_bytes_delete (overflow_cache (ov r)) t0).
    assert (size (delete t0 (overflow_cache (ov r))) <= size (overflow_cache (ov r))).
    { apply map_subseteq_size, delete_subseteq. }
    split; lia.
  - auto.
  - destruct (ovi_held _ _ Hi t e (held_mid _ _ _ _ _ Hl)) as [Hst Hn]. rewrite map_size_insert_None by done.
    rewrite cache_bytes_insert by done. pose proof (Hs _ _ Hst). simpl. split; lia.
Qed.

Lemma ov_run_bounded L n r :
  nsteps ov_step n run0 r -> (Z.of_nat n < U64_MAX)%Z -> (0 <= L)%Z -> short_responses L r -> sizes_ok L r.
Proof.
  intros Hr Hn HL. cut (ov_inv n r /\ (short_responses L r -> sizes_ok L r)); [tauto|].
  refine (nsteps_invariant ov_step (fun n r => ov_inv n r /\ (short_responses L r -> sizes_ok L r)) n n run0 r _ Hr _ _);
    [|done|].
  - intros m a b Hm Hstep [Hi Hb]. split.
    + apply (ov_run_step m a b); [lia|done..].
    + intros Hs. apply (sizes_step L m a b Hi Hs Hstep), Hb.
      intros t x Ht. apply (Hs t x). apply (lookup_weaken _ _ _ _ Ht). by apply (stored_grows m).
  - split; [by apply (ov_run_inv 0); [constructor|]|]. intros _. split; simpl; [done|].
    change (cache_bytes ∅) with 0%Z. unfold OVERFLOW_MAX_BYTES. lia.
Qed.

(** Retrieving a token that is in the cache. *)
Lemma cached_hit token rest o s e :
  is_u64 token -> overflow_cache s !! token = Some e -> (len (data e) <= out_cap o)%Z -> (len (data e) <= I32_MAX)%Z ->
  cached (to_le_bytes token ++ rest) o s =
    (mkRet (len (data e)) (data e), mkOverflowState (overflow_counter s) (delete token (overflow_cache s))).
Proof.
  intros Ht He Ho Hm. unfold cached, cached_take.
  assert ((8 <=? len (to_le_bytes token ++ rest))%Z = true) as ->.
  { apply Z.leb_le. rewrite len_app. unfold len at 1, to_le_bytes. rewrite length_le_bytes.
    pose proof (len_nonneg rest). lia. }
  rewrite token_roundtrip by done. rewrite He. simpl. unfold cached_copy. rewrite (proj2 (Z.leb_le _ _) Ho). by rewrite copied_small.
Qed.

(** C18. However the calls are interleaved, a response that did not fit is returned
    at most once, unchanged and under its own token; the caller that is told
    the size [n] finds the token in its buffer, and as long as the entry is not
    evicted the retry with a buffer of [n] bytes returns the response.  If no
    response is longer than [L], the cache never holds more than 257 entries and
    64 MiB plus [L] bytes, besides one entry of at most [L] bytes for each retry
    with too small a buffer that has put its response back since the last
    eviction. *)
Theorem overflow_retry_exact n r :
  nsteps ov_step n run0 r -> (Z.of_nat n < U64_MAX)%Z ->
  NoDup (returned r).*1 /\
  (forall t b, (t, b) ∈ returned r -> stored r !! t = Some b /\ overflow_cache (ov r) !! t = None) /\
  (forall t e o, overflow_cache (ov r) !! t = Some e -> (len (data e) <= I32_MAX)%Z ->
     (- needed (len (data e)) <= out_cap o)%Z ->
     stored r !! t = Some (data e) /\
     (cached (to_le_bytes t) o (ov r)).1 = mkRet (len (data e)) (data e)) /\
  (forall now encoded o ret s, overflow_store iter now encoded o (ov r) = Some (ret, s) ->
     rc ret = needed (len encoded) /\ ((8 <= out_cap o)%Z -> written ret = to_le_bytes (overflow_counter (ov r))) /\
     stored r !! overflow_counter (ov r) = None /\
     overflow_cache s !! overflow_counter (ov r) = Some (mkOverflow encoded now)) /\
  (forall L, (0 <= L)%Z -> short_responses L r -> sizes_ok L r).
Proof.
  intros Hr Hn. pose proof (ov_run_inv n r Hr Hn) as Hi. split_and!.
  - pose proof (ovi_nodup _ _ Hi) as Hnd. apply list.NoDup_app in Hnd. tauto.
  - apply (ovi_returned _ _ Hi).
  - intros t e o Ht Hm Ho. rewrite needed_small in Ho by (pose proof (len_nonneg (data e)); lia).
    pose proof (ovi_cache _ _ Hi t e Ht) as Hs. split; [done|].
    rewrite <- (app_nil_r (to_le_bytes t)). rewrite (cached_hit t [] o _ e); [done| |done|lia|done].
    pose proof (ovi_below _ _ Hi t ltac:(eauto)). pose proof (ovi_counter _ _ Hi). unfold is_u64, U64_MAX in *. lia.
  - intros now encoded o ret s Ho. destruct (stored_within _ _ _ _ _ _ Ho) as (_ & _ & Hs).
    unfold overflow_store in Ho. destruct (evict_overflow _ _ _); [|done]. injection Ho as <- <-. simpl.
    split; [done|]. split; [intros H8; by rewrite (proj2 (Z.leb_le _ _) H8)|]. split; [|done].
    apply eq_None_not_Some. intros Hx%(ovi_below _ _ Hi). lia.
  - intros L HL. by apply (ov_run_bounded L n).
Qed.

End eviction.

Definition demo_response : Bytes := as_bytes "0123456789".
Definition demo_overflow_run : Run :=
  mkRun (mkOverflowState 2 {[ 1%Z := mkOverflow demo_response 0 ]}) [] {[ 1%Z := demo_response ]} [] 0.

Lemma demo_overflow_reached : nsteps (ov_step map_to_list) 1 run0 demo_overflow_run.
Proof.
  apply nsteps_once.
  exact (ov_store map_to_list 0 demo_response (mkRawOut false 8) run0 (mkRet (-10) (to_le_bytes 1)) (ov demo_overflow_run) eq_refl).
Qed.

Lemma overflow_retry_exact_witness :
  (cached (to_le_bytes 1) (mkRawOut false 10) (ov demo_overflow_run)).1 = mkRet 10 demo_response.
Proof.
  apply (overflow_retry_exact map_to_list (fun m => reflexivity (map_to_list m)) 1 demo_overflow_run demo_overflow_reached ltac:(done))
    with (e := mkOverflow demo_response 0); vm_compute; done.
Defined.
