(* ===== verification/DenoBodyProps.v ===== *)
(** * Fetches and bodies of the Deno FFI

    Every result of a fetch is handed out once: the tasks, the callbacks and the
    polls of a run of fetches are interleaved arbitrarily; the result of a task waits in the registry or in the result
    table until a poll with a large enough buffer takes it.  Then the reading of
    bodies through the chunk symbols, and stream errors. *)

From stdpp Require Import base numbers list strings gmap fin_maps relations.
From Stdlib Require Import ZArith Lia.
From S2P Require Import Prelude Errors Extern BodyChannel Handles HandlesFacts HandlesProps Dispatcher HostAdapter Sessions Text DenoServe DenoCall DenoCallProps.

Open Scope string_scope.
Open Scope list_scope.

Section fetches.
Context (runtime : bool) (json_ok : Bytes -> bool).

(** [done]: the result of each task that has ended; [taken]: what polls have
    returned. *)
Record FetchRun := mkFetchRun { fs : Fetches; done_ : gmap Z Bytes; taken : list (Z * Bytes) }.
Definition fetch_run0 : FetchRun := mkFetchRun (mkFetches 1 ∅ ∅ [] []) ∅ [].

(** Encoded results are texts: not empty, and not 2 GiB long. *)
Definition is_text (b : Bytes) : Prop := (0 < len b <= I32_MAX)%Z.

Inductive ffi_fetch_step : FetchRun -> FetchRun -> Prop :=
| f_start request r token s :
    start_fetch runtime request (fs r) = (token, s) -> ffi_fetch_step r (mkFetchRun s (done_ r) (taken r))
| f_start_cb request r token s :
    start_fetch_cb runtime json_ok request (fs r) = (token, s) -> ffi_fetch_step r (mkFetchRun s (done_ r) (taken r))
| f_ends token encoded r :
    fetch_registry (fs r) !! token = Some Running -> is_text encoded ->
    ffi_fetch_step r (mkFetchRun (task_ends token (Finished (Ok encoded)) (fs r)) (<[token := encoded]> (done_ r)) (taken r))
| f_panics token r :
    fetch_registry (fs r) !! token = Some Running ->
    ffi_fetch_step r (mkFetchRun (task_ends token Panicked (fs r)) (done_ r) (taken r))
| f_cb_stores token encoded r :
    token ∈ cb_tasks (fs r) -> done_ r !! token = None -> is_text encoded ->
    ffi_fetch_step r (mkFetchRun (cb_task_stores token encoded (fs r)) (<[token := encoded]> (done_ r)) (taken r))
| f_cb_calls token r :
    token ∈ cb_tasks (fs r) -> is_Some (done_ r !! token) ->
    ffi_fetch_step r (mkFetchRun (cb_task_calls token (fs r)) (done_ r) (taken r))
| f_poll token o r ret s :
    poll_fetch runtime token o (fs r) = (ret, s) ->
    ffi_fetch_step r (mkFetchRun s (done_ r) (taken r ++ (if (0 <? rc ret)%Z then [(token, written ret)] else []))).

(** Where the result of a token is. *)
Definition result_waiting (r : FetchRun) (token : Z) (b : Bytes) : Prop :=
  fetch_results (fs r) !! token = Some (Ok b) \/
  (fetch_results (fs r) !! token = None /\ fetch_registry (fs r) !! token = Some (Finished (Ok b))).

Record ffi_fetch_inv (n : nat) (r : FetchRun) : Prop := mkFetchInv {
  fi_counter : (1 <= fetch_counter (fs r) <= 1 + Z.of_nat n)%Z;
  fi_registry : forall t x, fetch_registry (fs r) !! t = Some x ->
    (1 <= t < fetch_counter (fs r))%Z /\ (t ∉ cb_tasks (fs r)) /\ fetch_results (fs r) !! t = None /\ (t ∉ (taken r).*1) /\
    match x with Finished y => exists b, y = Ok b /\ done_ r !! t = Some b | _ => done_ r !! t = None end;
  fi_results : forall t x, fetch_results (fs r) !! t = Some x ->
    (t ∉ (taken r).*1) /\ exists b, x = Ok b /\ done_ r !! t = Some b;
  fi_cb : forall t, t ∈ cb_tasks (fs r) -> (1 <= t < fetch_counter (fs r))%Z;
  fi_taken : forall t b, (t, b) ∈ taken r -> done_ r !! t = Some b;
  fi_done : forall t b, done_ r !! t = Some b ->
    (1 <= t < fetch_counter (fs r))%Z /\ is_text b /\ (t ∈ (taken r).*1 \/ result_waiting r t b);
  fi_called : forall t, t ∈ called_back (fs r) -> is_Some (done_ r !! t);
  fi_nodup : NoDup (taken r).*1
}.

Lemma fetch_inv_mono n r : ffi_fetch_inv n r -> ffi_fetch_inv (S n) r.
Proof. intros []. split; auto. lia. Qed.

(** A token not handed out yet is nowhere. *)
Lemma fetch_fresh n r : ffi_fetch_inv n r ->
  let t := fetch_counter (fs r) in
  fetch_registry (fs r) !! t = None /\ fetch_results (fs r) !! t = None /\ (t ∉ cb_tasks (fs r)) /\
  done_ r !! t = None /\ (t ∉ (taken r).*1).
Proof.
  intros Hi t. assert (done_ r !! t = None) as Hd.
  { apply eq_None_not_Some. intros [b Hb%(fi_done _ _ Hi)]. subst t. lia. }
  split_and!; [| | |done|].
  - apply eq_None_not_Some. intros [x Hx%(fi_registry _ _ Hi)]. subst t. lia.
  - apply eq_None_not_Some. intros [x Hx%(fi_results _ _ Hi)]. naive_solver.
  - intros Hx%(fi_cb _ _ Hi). subst t. lia.
  - intros ([t' b] & Heq & Hx%(fi_taken _ _ Hi))%list_elem_of_fmap. simpl in Heq. congruence.
Qed.

Lemma fetch_inv_start n request r token s :
  (Z.of_nat (S n) < U64_MAX)%Z -> start_fetch runtime request (fs r) = (token, s) ->
  ffi_fetch_inv n r -> ffi_fetch_inv (S n) (mkFetchRun s (done_ r) (taken r)).
Proof.
  intros Hn Hs Hi. pose proof (fetch_fresh n r Hi) as (F1 & F2 & F3 & F4 & F5).
  unfold start_fetch in Hs. destruct r as [f d tk].
  destruct (in_invalid request); [injection Hs as <- <-; by apply fetch_inv_mono|].
  destruct (negb runtime); injection Hs as <- <-; [by apply fetch_inv_mono|].
  destruct Hi as [Hc Hr Hre Hcb Ht Hd Hca Hnd]; simpl in *.
  assert (wrapping_add (fetch_counter f) 1 = fetch_counter f + 1)%Z as Hw.
  { apply wrapping_add_exact; unfold U64_MAX in *; lia. }
  split; simpl; rewrite ?Hw; [lia| |done| |done| |done|done].
  - intros t x [[<- <-]|[Hx Hl]]%lookup_insert_Some; [split; [lia|done]|].
    destruct (Hr t x Hl) as (H1 & H2). split; [lia|done].
  - intros t Ht'%Hcb. lia.
  - intros t b Hb. destruct (Hd t b Hb) as (H1 & H2 & H3). split; [lia|]. split; [done|].
    unfold result_waiting in *; simpl in *. rewrite lookup_insert_ne by lia. done.
Qed.

Lemma fetch_inv_start_cb n request r token s :
  (Z.of_nat (S n) < U64_MAX)%Z -> start_fetch_cb runtime json_ok request (fs r) = (token, s) ->
  ffi_fetch_inv n r -> ffi_fetch_inv (S n) (mkFetchRun s (done_ r) (taken r)).
Proof.
  intros Hn Hs Hi. pose proof (fetch_fresh n r Hi) as (F1 & F2 & F3 & F4 & F5).
  unfold start_fetch_cb in Hs. destruct r as [f d tk].
  destruct (in_invalid request); [injection Hs as <- <-; by apply fetch_inv_mono|].
  destruct (negb runtime); [injection Hs as <- <-; by apply fetch_inv_mono|].
  destruct (negb (json_ok _)); injection Hs as <- <-; [by apply fetch_inv_mono|].
  destruct Hi as [Hc Hr Hre Hcb Ht Hd Hca Hnd]; simpl in *.
  assert (wrapping_add (fetch_counter f) 1 = fetch_counter f + 1)%Z as Hw.
  { apply wrapping_add_exact; unfold U64_MAX in *; lia. }
  split; simpl; rewrite ?Hw; [lia| |done| |done| |done|done].
  - intros t x Hl. destruct (Hr t x Hl) as (H1 & H2 & H3). split; [lia|]. split; [|done].
    rewrite elem_of_app, list_elem_of_singleton. intros [?| ->]; [done|lia].
  - intros t [Ht'%Hcb| ->%list_elem_of_singleton]%elem_of_app; lia.
  - intros t b Hb. destruct (Hd t b Hb) as (H1 & H2 & H3). split; [lia|done].
Qed.

Lemma fetch_inv_ends n token encoded r :
  fetch_registry (fs r) !! token = Some Running -> is_text encoded -> ffi_fetch_inv n r ->
  ffi_fetch_inv n (mkFetchRun (task_ends token (Finished (Ok encoded)) (fs r)) (<[token := encoded]> (done_ r)) (taken r)).
Proof.
  intros Hrun Htx Hi. destruct (fi_registry _ _ Hi _ _ Hrun) as (R1 & R2 & R3 & R4 & R5).
  destruct r as [f d tk]; destruct Hi as [Hc Hr Hre Hcb Ht Hd Hca Hnd]; simpl in *.
  assert (forall t b, d !! t = Some b -> <[token := encoded]> d !! t = Some b) as Hold.
  { intros t b Hb. rewrite lookup_insert_ne; [done|]. congruence. }
  split; simpl; [done| | |done| | | |done].
  - intros t x [[<- <-]|[Hx Hl]]%lookup_insert_Some.
    + split_and!; [lia..|done|done|done|]. exists encoded. by rewrite lookup_insert_eq.
    + rewrite lookup_insert_ne by done. auto.
  - intros t x Hx. destruct (Hre t x Hx) as (H1 & b & -> & H3). eauto 10.
  - auto.
  - intros t b [[<- <-]|[Hx Hl]]%lookup_insert_Some.
    + split_and!; [lia..|done|]. right. right. simpl. by rewrite lookup_insert_eq.
    + destruct (Hd t b Hl) as (H1 & H2 & H3). split; [done|]. split; [done|].
      unfold result_waiting in *; simpl in *. by rewrite lookup_insert_ne.
  - intros t [b Hb]%Hca. eauto.
Qed.

Lemma fetch_inv_panics n token r :
  fetch_registry (fs r) !! token = Some Running -> ffi_fetch_inv n r ->
  ffi_fetch_inv n (mkFetchRun (task_ends token Panicked (fs r)) (done_ r) (taken r)).
Proof.
  intros Hrun Hi. destruct (fi_registry _ _ Hi _ _ Hrun) as (R1 & R2 & R3 & R4 & R5).
  destruct r as [f d tk]; destruct Hi as [Hc Hr Hre Hcb Ht Hd Hca Hnd]; simpl in *.
  split; simpl; [done| |done|done|done| |done|done].
  - intros t x [[<- <-]|[Hx Hl]]%lookup_insert_Some; auto.
  - intros t b Hb. destruct (Hd t b Hb) as (H1 & H2 & H3). split; [done|]. split; [done|].
    unfold result_waiting in *; simpl in *. rewrite lookup_insert_ne by congruence. done.
Qed.

Lemma fetch_inv_cb_stores n token encoded r :
  token ∈ cb_tasks (fs r) -> done_ r !! token = None -> is_text encoded -> ffi_fetch_inv n r ->
  ffi_fetch_inv n (mkFetchRun (cb_task_stores token encoded (fs r)) (<[token := encoded]> (done_ r)) (taken r)).
Proof.
  intros Hcbt Hn Htx Hi.
  destruct r as [f d tk]; destruct Hi as [Hc Hr Hre Hcb Ht Hd Hca Hnd]; simpl in *.
  assert (forall t b, d !! t = Some b -> <[token := encoded]> d !! t = Some b) as Hold.
  { intros t b Hb. rewrite lookup_insert_ne; [done|]. congruence. }
  assert (token ∉ tk.*1) as Htk.
  { intros ([t b] & -> & Hx%Ht)%list_elem_of_fmap. simpl in *. congruence. }
  split; simpl; [done| | |done| | | |done].
  - intros t x Hx. destruct (Hr t x Hx) as (H1 & H2 & H3 & H4 & H5).
    assert (t <> token) by congruence. rewrite !lookup_insert_ne by done. auto.
  - intros t x [[<- <-]|[Hx Hl]]%lookup_insert_Some.
    + split; [done|]. exists encoded. by rewrite lookup_insert_eq.
    + destruct (Hre t x Hl) as (H1 & b & -> & H3). eauto 10.
  - auto.
  - intros t b [[<- <-]|[Hx Hl]]%lookup_insert_Some.
    + split_and!; [apply Hcb; done..|done|]. right. left. simpl. by rewrite lookup_insert_eq.
    + destruct (Hd t b Hl) as (H1 & H2 & H3). split; [done|]. split; [done|].
      unfold result_waiting in *; simpl in *. by rewrite !lookup_insert_ne by done.
  - intros t [b Hb]%Hca. eauto.
Qed.

Lemma fetch_inv_cb_calls n token r :
  is_Some (done_ r !! token) -> ffi_fetch_inv n r ->
  ffi_fetch_inv n (mkFetchRun (cb_task_calls token (fs r)) (done_ r) (taken r)).
Proof.
  intros Hdn Hi. destruct r as [f d tk]; destruct Hi as [Hc Hr Hre Hcb Ht Hd Hca Hnd]; simpl in *.
  split; simpl; [done| |done| |done|done| |done].
  - intros t x Hx. destruct (Hr t x Hx) as (H1 & H2 & H3). split; [done|]. split; [|done].
    rewrite list_elem_of_filter. tauto.
  - intros t [_ Hx]%list_elem_of_filter. auto.
  - intros t [Hx| ->%list_elem_of_singleton]%elem_of_app; auto.
Qed.

(** Handing out a result that [r] no longer holds anywhere. *)
Lemma fetch_inv_give n token b o r ret s :
  ffi_fetch_inv n r -> done_ r !! token = Some b -> (token ∉ (taken r).*1) ->
  forall r', done_ r' = done_ r -> taken r' = taken r ->
  fetch_results (fs r') = delete token (fetch_results (fs r)) ->
  fetch_registry (fs r') = delete token (fetch_registry (fs r)) ->
  fetch_counter (fs r') = fetch_counter (fs r) -> cb_tasks (fs r') = cb_tasks (fs r) ->
  called_back (fs r') = called_back (fs r) ->
  give_result token b o (fs r') = (ret, s) ->
  ffi_fetch_inv n (mkFetchRun s (done_ r) (taken r ++ (if (0 <? rc ret)%Z then [(token, written ret)] else []))).
Proof.
  intros Hi Hdt Hnt r' E1 E2 E3 E4 E5 E6 E7 Hg.
  destruct (fi_done _ _ Hi _ _ Hdt) as (D1 & D2 & _). destruct (Hi) as [Hc Hr Hre Hcb Ht Hd Hca Hnd].
  unfold give_result in Hg. destruct (out_cap o <? len b)%Z; injection Hg as <- <-; simpl.
  - assert ((0 <? needed (len b))%Z = false) as ->.
    { apply Z.ltb_ge. rewrite needed_small; unfold is_text in D2; lia. }
    rewrite app_nil_r. split; simpl; rewrite ?E5, ?E6, ?E7, ?E3, ?E4; auto.
    + intros t x [Hx Hl]%lookup_delete_Some. destruct (Hr t x Hl) as (H1 & H2 & H3 & H4 & H5).
      split_and!; auto; try lia. rewrite lookup_insert_ne, lookup_delete_ne by done. done.
    + intros t x [[<- <-]|[Hx Hl]]%lookup_insert_Some; [eauto|].
      apply lookup_delete_Some in Hl as [_ Hl]. auto.
    + intros t b' Hb. destruct (Hd t b' Hb) as (H1 & H2 & H3). split_and!; [lia..|done|].
      destruct (decide (t = token)) as [->|Hne].
      * right. left. simpl. rewrite lookup_insert_eq. congruence.
      * unfold result_waiting in *; simpl. rewrite ?E3, ?E4, !lookup_insert_ne, !lookup_delete_ne by done. done.
  - rewrite as_i32_small by (unfold is_text in D2; lia). assert ((0 <? len b)%Z = true) as ->.
    { apply Z.ltb_lt. unfold is_text in D2; lia. }
    split; simpl; rewrite ?E5, ?E6, ?E7, ?E3, ?E4; auto.
    + intros t x [Hx Hl]%lookup_delete_Some. destruct (Hr t x Hl) as (H1 & H2 & H3 & H4 & H5).
      split_and!; auto; try lia; [by rewrite lookup_delete_ne|].
      rewrite fmap_app, elem_of_app; simpl; rewrite list_elem_of_singleton. intros [?| ->]; done.
    + intros t x [Hx Hl]%lookup_delete_Some. destruct (Hre t x Hl) as (H1 & H2). split; [|done].
      rewrite fmap_app, elem_of_app; simpl; rewrite list_elem_of_singleton. intros [?| ->]; done.
    + intros t b' [Hb|[= -> ->]%list_elem_of_singleton]%elem_of_app; auto.
    + intros t b' Hb. destruct (Hd t b' Hb) as (H1 & H2 & H3). split_and!; [lia..|done|].
      rewrite fmap_app, elem_of_app; simpl; rewrite list_elem_of_singleton. destruct (decide (t = token)) as [->|Hne]; [auto|].
      destruct H3 as [H3|H3]; [auto|]. right.
      unfold result_waiting in *; simpl. rewrite ?E3, ?E4, !lookup_delete_ne by done. done.
    + rewrite fmap_app; simpl. apply list.NoDup_app. split_and!; [done| |apply NoDup_singleton].
      intros t Hx ->%list_elem_of_singleton. done.
Qed.

(** Polls that hand out nothing and at most drop a panicked task. *)
Lemma fetch_inv_no_result n r registry' :
  ffi_fetch_inv n r ->
  (forall t x, registry' !! t = Some x -> fetch_registry (fs r) !! t = Some x) ->
  (forall t y, fetch_registry (fs r) !! t = Some (Finished y) -> registry' !! t = Some (Finished y)) ->
  ffi_fetch_inv n (mkFetchRun (set_registry registry' (fs r)) (done_ r) (taken r)).
Proof.
  intros [Hc Hr Hre Hcb Ht Hd Hca Hnd] H1 H2. split; simpl; auto.
  intros t b Hb. destruct (Hd t b Hb) as (D1 & D2 & D3). split_and!; [lia..|done|].
  destruct D3 as [?|[?|[? D3]]]; [auto| |]; right; unfold result_waiting; simpl; auto.
Qed.

Lemma fetch_inv_poll n token o r ret s :
  poll_fetch runtime token o (fs r) = (ret, s) -> ffi_fetch_inv n r -> (runtime = false -> fetch_registry (fs r) = ∅) ->
  ffi_fetch_inv n (mkFetchRun s (done_ r) (taken r ++ (if (0 <? rc ret)%Z then [(token, written ret)] else []))).
Proof.
  intros Hp Hi Hrt. unfold poll_fetch in Hp.
  assert (Hsame : ffi_fetch_inv n (mkFetchRun (fs r) (done_ r) (taken r ++ []))) by (rewrite app_nil_r; by destruct r).
  destruct (out_invalid o); [by injection Hp as <- <-|].
  destruct (fetch_results (fs r) !! token) as [result|] eqn:Hres.
  - destruct (fi_results _ _ Hi _ _ Hres) as (Hnt & b & -> & Hdt).
    apply (fetch_inv_give n token b o r ret s Hi Hdt Hnt
             (mkFetchRun (set_results (delete token (fetch_results (fs r))) (fs r)) (done_ r) (taken r))); try done.
    simpl. rewrite delete_id; [done|]. apply eq_None_not_Some. intros [x Hx%(fi_registry _ _ Hi)]. naive_solver.
  - destruct (fetch_registry (fs r) !! token) as [handle|] eqn:Hreg; [|by injection Hp as <- <-].
    destruct (fi_registry _ _ Hi _ _ Hreg) as (_ & _ & _ & Hnt & Hx).
    destruct handle as [|result|]; simpl in Hp.
    + by injection Hp as <- <-.
    + destruct runtime; [|by rewrite Hrt in Hreg]. simpl in Hp. destruct Hx as (b & -> & Hdt).
      apply (fetch_inv_give n token b o r ret s Hi Hdt Hnt
               (mkFetchRun (set_registry (delete token (fetch_registry (fs r))) (fs r)) (done_ r) (taken r))); try done.
      simpl. by rewrite delete_id.
    + assert (ret = failed /\ s = set_registry (delete token (fetch_registry (fs r))) (fs r)) as [-> ->].
      { destruct (negb runtime); by injection Hp as <- <-. }
      rewrite app_nil_r. apply fetch_inv_no_result; [done| |].
      * intros t x Hl. by apply lookup_delete_Some in Hl as [_ Hl].
      * intros t y Hl. rewrite lookup_delete_ne; [done|]. congruence.
Qed.

Lemma fetch_runtime_needed r : rtc ffi_fetch_step fetch_run0 r -> runtime = false -> fetch_registry (fs r) = ∅.
Proof.
  intros Hr Hrt. refine (rtc_invariant ffi_fetch_step (fun r => fetch_registry (fs r) = ∅) _ _ _ Hr _); [|done].
  intros a b Hs Ha.
  destruct Hs as [request r' token s Hs|request r' token s Hs|token e r' He|token r' He|?|?|token o r' ret s Hp];
    simpl; try done.
  - unfold start_fetch in Hs. rewrite Hrt in Hs. simpl in Hs. case_match; by injection Hs as <- <-.
  - unfold start_fetch_cb in Hs. rewrite Hrt in Hs. simpl in Hs. case_match; by injection Hs as <- <-.
  - rewrite Ha in He. done.
  - rewrite Ha in He. done.
  - unfold poll_fetch in Hp. rewrite Ha in Hp. case_match; [by injection Hp as <- <-|].
    case_match; [|by injection Hp as <- <-]. unfold give_result in Hp. case_match; by injection Hp as <- <-.
Qed.

Lemma fetch_run_inv n r : nsteps ffi_fetch_step n fetch_run0 r -> (Z.of_nat n < U64_MAX)%Z -> ffi_fetch_inv n r.
Proof.
  intros Hr Hn. cut (ffi_fetch_inv n r /\ rtc ffi_fetch_step fetch_run0 r); [tauto|].
  refine (nsteps_invariant ffi_fetch_step (fun n r => ffi_fetch_inv n r /\ rtc ffi_fetch_step fetch_run0 r) n n fetch_run0 r _ Hr _ _);
    [|done|].
  - intros m a b Hm Hs [Ha Hreach]. split; [|by eapply rtc_r]. destruct Hs.
    + eapply fetch_inv_start; [|done..]. lia.
    + eapply fetch_inv_start_cb; [|done..]. lia.
    + by apply fetch_inv_mono, fetch_inv_ends.
    + by apply fetch_inv_mono, fetch_inv_panics.
    + by apply fetch_inv_mono, fetch_inv_cb_stores.
    + by apply fetch_inv_mono, fetch_inv_cb_calls.
    + eapply fetch_inv_mono, fetch_inv_poll; [done..|]. by apply fetch_runtime_needed.
  - split; [|done]. split; simpl; try done; try lia; try (by intros ? ?%not_elem_of_nil); try (by intros ? ? ?%not_elem_of_nil).
    constructor.
Qed.

Lemma poll_waiting t b o r :
  runtime = true -> result_waiting r t b -> out_invalid o = false ->
  (poll_fetch runtime t o (fs r)).1 = (if (out_cap o <? len b)%Z then mkRet (needed (len b)) [] else copied b) /\
  ((out_cap o < len b)%Z -> fetch_results (poll_fetch runtime t o (fs r)).2 !! t = Some (Ok b)).
Proof.
  intros -> Hw Ho. unfold poll_fetch. rewrite Ho. destruct Hw as [Hw|[Hn Hw]].
  - rewrite Hw. simpl. unfold give_result. destruct (out_cap o <? len b)%Z eqn:Hc; simpl.
    + by rewrite lookup_insert_eq.
    + split; [done|]. intros. zify_bool.
  - rewrite Hn, Hw. simpl. unfold give_result. destruct (out_cap o <? len b)%Z eqn:Hc; simpl.
    + by rewrite lookup_insert_eq.
    + split; [done|]. intros. zify_bool.
Qed.

(** C19. However starts, tasks, callbacks and polls are interleaved, no result is
    handed out twice and what is handed out is the result of that task.  The
    result of a task that has ended and was not handed out is given to the
    first poll with a large enough buffer; a smaller buffer is told the size
    and the result stays; a token that was handed out, or is not known, gets
    -1; and a callback is only called for a task whose result is stored. *)
Theorem fetch_result_once n r :
  nsteps ffi_fetch_step n fetch_run0 r -> (Z.of_nat n < U64_MAX)%Z -> runtime = true ->
  NoDup (taken r).*1 /\
  (forall t b, (t, b) ∈ taken r -> done_ r !! t = Some b /\
     forall o, (poll_fetch runtime t o (fs r)).1 = failed) /\
  (forall t b o, done_ r !! t = Some b -> (t ∉ (taken r).*1) -> out_invalid o = false ->
     ((len b <= out_cap o)%Z -> (poll_fetch runtime t o (fs r)).1 = mkRet (len b) b) /\
     ((out_cap o < len b)%Z ->
        (poll_fetch runtime t o (fs r)).1 = mkRet (- len b) [] /\
        fetch_results (poll_fetch runtime t o (fs r)).2 !! t = Some (Ok b))) /\
  (forall t o, done_ r !! t = None -> (rc (poll_fetch runtime t o (fs r)).1 = 0 \/ rc (poll_fetch runtime t o (fs r)).1 = -1)%Z) /\
  (forall t, t ∈ called_back (fs r) -> is_Some (done_ r !! t)).
Proof.
  intros Hr Hn Hrt. pose proof (fetch_run_inv n r Hr Hn) as Hi. split_and!.
  - apply (fi_nodup _ _ Hi).
  - intros t b Ht. split; [by apply (fi_taken _ _ Hi)|]. intros o. unfold poll_fetch.
    assert (t ∈ (taken r).*1) as Htk by (by apply (list_elem_of_fmap_2' _ _ (t, b))).
    destruct (out_invalid o); [done|].
    destruct (fetch_results (fs r) !! t) eqn:Hx; [by destruct (fi_results _ _ Hi _ _ Hx)|].
    destruct (fetch_registry (fs r) !! t) eqn:Hy; [|done].
    destruct (fi_registry _ _ Hi _ _ Hy) as (_ & _ & _ & ? & _). done.
  - intros t b o Hd Hnt Ho. destruct (fi_done _ _ Hi t b Hd) as (_ & [D1 D2] & [D3|D3]); [done|].
    destruct (poll_waiting t b o r Hrt D3 Ho) as [Hp1 Hp2]. split; intros Hc.
    + rewrite Hp1. rewrite (proj2 (Z.ltb_ge _ _) Hc). by rewrite copied_small.
    + split; [|by apply Hp2]. rewrite Hp1, (proj2 (Z.ltb_lt _ _) Hc), needed_small by lia. done.
  - intros t o Hd. unfold poll_fetch. destruct (out_invalid o); [by right|].
    destruct (fetch_results (fs r) !! t) eqn:Hx.
    { destruct (fi_results _ _ Hi _ _ Hx) as (_ & b & _ & ?). congruence. }
    destruct (fetch_registry (fs r) !! t) as [[]|] eqn:Hy; [by left| |right..].
    + destruct (fi_registry _ _ Hi _ _ Hy) as (_ & _ & _ & _ & b & _ & ?). congruence.
    + simpl. by destruct (negb runtime).
    + done.
  - apply (fi_called _ _ Hi).
Qed.

End fetches.

Definition demo_fetched : FetchRun :=
  mkFetchRun (mkFetches 2 ∅ {[ 1%Z := Ok demo_response ]} [] [1%Z]) {[ 1%Z := demo_response ]} [].

Lemma demo_fetched_reached : nsteps (ffi_fetch_step true (fun _ => true)) 3 fetch_run0 demo_fetched.
Proof.
  eapply nsteps_l; [exact (f_start_cb true (fun _ => true) (mkRawIn false []) fetch_run0 1 _ eq_refl)|].
  eapply nsteps_l; [apply (f_cb_stores true (fun _ => true) 1 demo_response); [by left|done|by vm_compute]|].
  eapply nsteps_l; [apply (f_cb_calls true (fun _ => true) 1); [by left|by vm_compute; eexists]|].
  replace demo_fetched with (mkFetchRun (cb_task_calls 1 (cb_task_stores 1 demo_response
    (start_fetch_cb true (fun _ => true) (mkRawIn false []) (fs fetch_run0)).2)) (<[1%Z := demo_response]> ∅) []).
  - constructor.
  - by vm_compute.
Qed.

Lemma fetch_result_once_witness :
  (poll_fetch true 1 (mkRawOut false 10) (fs demo_fetched)).1 = mkRet 10 demo_response.
Proof.
  destruct (fetch_result_once true (fun _ => true) 3 demo_fetched demo_fetched_reached ltac:(done) eq_refl)
    as (_ & _ & Hpoll & _).
  destruct (Hpoll 1%Z demo_response (mkRawOut false 10)) as [Hlarge _];
    [done|by intros ?%not_elem_of_nil|done|apply Hlarge; by vm_compute].
Defined.

(** * Bodies and stream errors of the Deno FFI

    A body read with the chunk symbols comes out exactly when the chunks are not
    empty and the buffer is large enough, and a failed stream leaves its error
    for one retrieval.  A chunk that is larger than the buffer, or empty, is
    where the symbols differ from the handle store below them. *)

Section deno_streams.
Context {K : Type} {M : Type -> Type} `{SL : SlotMapLaws K M} {C : Type -> Type} `{ML : MpscLaws C}.
Context (json_string : string -> string).

#[local] Abbreviation world := (World M C).
#[local] Abbreviation ffi := (@Ffi M C).

(** ** [try_next_chunk] on a body nobody waits on *)

Lemma upd_chan_at f c (w : world) b :
  hp_chans (heap w) !! c = Some b -> upd_chan f c w = upd_chan (fun _ => f b) c w.
Proof.
  intros Hb. unfold upd_chan. do 2 f_equal. apply map_eq. intros i. destruct (decide (i = c)) as [->|Hne].
  - by rewrite !lookup_alter_eq, Hb.
  - by rewrite !lookup_alter_ne.
Qed.

Lemma agrees now h (w : world) e b :
  open_body w h e b ->
  match next_chunk now h w with
  | (Ready r, _, w') => try_next_chunk now h w = (r, w')
  | (Pending, _, _) => exists w' b',
      try_next_chunk now h w = (Err (internal "try_next_chunk: channel empty"), w') /\
      open_body w' h (touch now e) b' /\ bview b' = bview b /\ bc_terminal b' = bc_terminal b
  end.
Proof.
  intros Ho. rewrite (next_chunk_live now h w e b Ho). destruct Ho as (He & Hb & Hl & Hr).
  unfold try_next_chunk, next_chunk_lookup. rewrite sm_view_get, He. cbn zeta beta iota.
  set (w1 := upd_chan clone_rx_arc _ _).
  assert (hp_chans (heap w1) !! rd_chan (value e) = Some (clone_rx_arc b)) as Hb1.
  { unfold w1. simpl. by rewrite lookup_alter_eq, Hb. }
  rewrite Hb1. change (bc_locked (clone_rx_arc b)) with (bc_locked b). rewrite Hl.
  change (bc_mpsc (clone_rx_arc b)) with (bc_mpsc b).
  pose proof (try_recv_of_view b) as (q & Hq & Hv). rewrite Hq.
  assert (forall q, set_locked false (set_mpsc q (clone_rx_arc b)) = set_mpsc q (clone_rx_arc b)) as Hsl.
  { intros q'. destruct b; simpl in *. by subst. }
  rewrite (upd_chan_at (fun b => set_mpsc q b) _ w1 _ Hb1), Hsl.
  unfold cv_try_recv in *. destruct (cv_buf (bview b)) as [|x rest] eqn:Hbuf; simpl in *; [|done].
  destruct (decide (cv_senders (bview b) = 0)); simpl in *.
  - by destruct (next_chunk_finish _ _ _ _) as [r w'].
  - eexists _, (set_mpsc q b). split; [done|]. split; [|done].
    unfold open_body; simpl. split_and!; try done.
    + rewrite sm_view_modify, lookup_alter_eq, He. done.
    + rewrite !lookup_alter_eq, Hb. simpl. f_equal. destruct b as [q0 t nw [|k] l]; simpl in *; [lia|]. done.
Qed.

(** The synchronous read returns what the blocking read returns, with the same
    effect, whenever that one would not wait; otherwise it reports that there is
    no data and takes nothing. *)
Theorem try_next_chunk_agrees now h (w : world) e b :
  open_body w h e b ->
  match next_chunk now h w with
  | (Ready r, _, w') => try_next_chunk now h w = (r, w')
  | (Pending, _, _) => exists w' b',
      try_next_chunk now h w = (Err (internal "try_next_chunk: channel empty"), w') /\
      open_body w' h (touch now e) b' /\ bview b' = bview b /\ bc_terminal b' = bc_terminal b
  end.
Proof. apply agrees. Qed.

Lemma try_next_data now h (w : world) e b x rest :
  open_body w h e b -> cv_buf (bview b) = x :: rest ->
  exists w' e' b',
    try_next_chunk now h w = (Ok (Some x), w') /\ open_body w' h e' b' /\
    bview b' = mkChan rest (cv_cap (bview b)) (cv_senders (bview b)) (cv_rx (bview b)) /\
    bc_terminal b' = bc_terminal b.
Proof.
  intros Ho Hbuf. destruct (next_chunk_data now h w e b x rest Ho Hbuf) as (w' & e' & b' & Hn & Ho' & _ & Hv & Ht).
  exists w', e', b'. split; [|done]. pose proof (agrees now h w e b Ho) as Ha. by rewrite Hn in Ha.
Qed.

Lemma try_next_eof now h (w : world) e b :
  open_body w h e b -> cv_buf (bview b) = [] -> cv_senders (bview b) = 0 ->
  exists w', try_next_chunk now h w = (match bc_terminal b with Some err => Err err | None => Ok None end, w') /\
    sm_view (readers (store w')) = delete (handle_to_key h) (sm_view (readers (store w))).
Proof.
  intros Ho Hbuf Hs. destruct (next_chunk_eof now h w e b Ho Hbuf Hs) as (w' & b' & Hn & Hv & _).
  exists w'. split; [|done]. pose proof (agrees now h w e b Ho) as Ha. by rewrite Hn in Ha.
Qed.

(** ** Through the registry *)

(** Endpoint handle [eh] is that of endpoint [ep], whose stream [h] is open. *)
Definition ffi_open (s : ffi) (eh h : Z) (ep : nat) (w : world) (e : Timed BodyReader) (b : BodyChan C) : Prop :=
  get_endpoint eh (endpoints s) = Some ep /\ worlds s !! ep = Some w /\ open_body w h e b.

Lemma ffi_open_set s eh h ep w e b w' e' b' :
  ffi_open s eh h ep w e b -> open_body w' h e' b' -> ffi_open (set_world ep w' s) eh h ep w' e' b'.
Proof. intros (G1 & G2 & G3) Ho. split; [done|]. split; [|done]. simpl. apply list_lookup_insert_eq. by apply lookup_lt_Some in G2. Qed.

Lemma ffi_try_data now eh h o (s : ffi) ep w e b x rest :
  ffi_open s eh h ep w e b -> cv_buf (bview b) = x :: rest -> out_invalid o = false ->
  exists w' e' b',
    ffi_try_next_chunk json_string now eh h o s = (copy_chunk x o, set_world ep w' s) /\
    ffi_open (set_world ep w' s) eh h ep w' e' b' /\
    bview b' = mkChan rest (cv_cap (bview b)) (cv_senders (bview b)) (cv_rx (bview b)) /\
    bc_terminal b' = bc_terminal b.
Proof.
  intros Hf Hbuf Hout. pose proof Hf as (G1 & G2 & G3).
  destruct (try_next_data now h w e b x rest G3 Hbuf) as (w' & e' & b' & Ht & Ho & Hv & Hterm).
  exists w', e', b'. split_and!; try done; [|by eapply ffi_open_set].
  unfold ffi_try_next_chunk, lookup_endpoint. rewrite Hout, G1. simpl. rewrite G2. simpl. by rewrite Ht.
Qed.

(** ** Reading a whole body *)

(** The synchronous loop of a reader: the chunks it gets and the number that
    ends it. *)
Fixpoint read_chunks (fuel : nat) (now eh h : Z) (o : RawOut) (s : ffi) : option (list Bytes * Z * ffi) :=
  match fuel with
  | O => None
  | S fuel =>
      let '(ret, s) := ffi_try_next_chunk json_string now eh h o s in
      if (0 <? rc ret)%Z
      then '(chunks, n, s) ← read_chunks fuel now eh h o s; Some (written ret :: chunks, n, s)
      else Some ([], rc ret, s)
  end.

(** A chunk the symbols can hand over. *)
Definition chunk_fits (o : RawOut) (x : Bytes) : Prop := (0 < len x <= out_cap o)%Z.

Lemma copy_chunk_fits o x : (out_cap o <= I32_MAX)%Z -> chunk_fits o x -> copy_chunk x o = mkRet (len x) x.
Proof.
  intros Ho [G1 G2]. unfold copy_chunk. rewrite (proj2 (Z.ltb_ge _ _) G2). apply copied_small. lia.
Qed.

Lemma read_chunks_spec now eh h o chunks : forall (s : ffi) ep w e b,
  ffi_open s eh h ep w e b -> cv_buf (bview b) = chunks -> cv_senders (bview b) = 0 ->
  out_invalid o = false -> (out_cap o <= I32_MAX)%Z -> Forall (chunk_fits o) chunks ->
  (forall err, bc_terminal b = Some err -> starts_with "try_next_chunk:" (message err) = false) ->
  exists s', read_chunks (S (length chunks)) now eh h o s =
      Some (chunks, (match bc_terminal b with Some _ => -1 | None => 0 end)%Z, s') /\
    get_endpoint eh (endpoints s') = Some ep /\
    match bc_terminal b with
    | Some err => stream_errors s' = <[(eh, h) := as_bytes (core_error_to_json json_string err)]> (stream_errors s)
    | None => stream_errors s' = stream_errors s
    end.
Proof.
  induction chunks as [|x rest IH]; intros s ep w e b Hf Hbuf Hs Hout Hcap Hfit Hterm.
  - pose proof Hf as (G1 & G2 & G3). destruct (try_next_eof now h w e b G3 Hbuf Hs) as (w' & Ht & _).
    simpl. unfold ffi_try_next_chunk, lookup_endpoint. rewrite Hout, G1. simpl. rewrite G2. simpl. rewrite Ht.
    destruct (bc_terminal b) as [err|]; simpl; [|by eexists]. rewrite (Hterm err eq_refl). simpl. by eexists.
  - apply Forall_cons_1 in Hfit as [Hx Hrest].
    destruct (ffi_try_data now eh h o s ep w e b x rest Hf Hbuf Hout) as (w' & e' & b' & Ht & Hf' & Hv & Htt).
    destruct (IH (set_world ep w' s) ep w' e' b' Hf') as (s' & Hr & G4 & G5); rewrite ?Hv, ?Htt in *; try done.
    exists s'. split; [|split; [done|by destruct (bc_terminal b)]].
    cbn [length]. remember (S (length rest)) as fuel. simpl. rewrite Ht, copy_chunk_fits by done. simpl.
    destruct Hx as [Hx _]. rewrite (proj2 (Z.ltb_lt _ _) Hx). by rewrite Hr.
Qed.

Lemma take_error_spec eh h o (s : ffi) json :
  stream_errors s !! (eh, h) = Some json -> out_invalid o = false -> (len json <= I32_MAX)%Z ->
  ((len json <= out_cap o)%Z ->
     exists s', take_last_stream_error eh h o s = (mkRet (len json) json, s') /\
       stream_errors s' = delete (eh, h) (stream_errors s) /\
       (forall o', out_invalid o' = false -> (take_last_stream_error eh h o' s').1 = mkRet 0 [])) /\
  ((out_cap o < len json)%Z -> take_last_stream_error eh h o s = (mkRet (- len json) [], s)).
Proof.
  intros Hj Ho Hm. unfold take_last_stream_error. rewrite Ho, Hj. split; intros Hc.
  - rewrite (proj2 (Z.ltb_ge _ _) Hc), copied_small by done. eexists. split; [done|]. split; [done|].
    intros o' Ho'. simpl. by rewrite Ho', lookup_delete_eq.
  - rewrite (proj2 (Z.ltb_lt _ _) Hc), needed_small; [done|]. pose proof (len_nonneg json). lia.
Qed.

(** A body whose writers are gone, read with a buffer that holds its chunks:
    the chunks come out in order and without loss, the read ends with 0 when the
    body was complete and with -1 when it failed, and then the structured error
    of the stream can be taken exactly once, by the first buffer that holds it. *)
Theorem deno_body_read_exact now eh h o (s : ffi) ep w e b :
  ffi_open s eh h ep w e b -> cv_senders (bview b) = 0 -> out_invalid o = false -> (out_cap o <= I32_MAX)%Z ->
  Forall (chunk_fits o) (cv_buf (bview b)) ->
  (forall err, bc_terminal b = Some err -> starts_with "try_next_chunk:" (message err) = false) ->
  exists n s', read_chunks (S (length (cv_buf (bview b)))) now eh h o s = Some (cv_buf (bview b), n, s') /\
    match bc_terminal b with
    | None => n = 0%Z /\ stream_errors s' = stream_errors s
    | Some err => n = (-1)%Z /\
        let json := as_bytes (core_error_to_json json_string err) in
        forall o', out_invalid o' = false -> (len json <= I32_MAX)%Z ->
        ((len json <= out_cap o')%Z ->
           exists s2, take_last_stream_error eh h o' s' = (mkRet (len json) json, s2) /\
             stream_errors s2 = delete (eh, h) (stream_errors s') /\
             (forall o2, out_invalid o2 = false -> (take_last_stream_error eh h o2 s2).1 = mkRet 0 [])) /\
        ((out_cap o' < len json)%Z -> take_last_stream_error eh h o' s' = (mkRet (- len json) [], s'))
    end.
Proof.
  intros Hf Hs Hout Hcap Hfit Hterm.
  destruct (read_chunks_spec now eh h o _ s ep w e b Hf eq_refl Hs Hout Hcap Hfit Hterm) as (s' & Hr & _ & Hse).
  eexists _, s'. split; [exact Hr|]. destruct (bc_terminal b) as [err|]; [|done].
  split; [done|]. intros json o' Ho' Hj. apply take_error_spec; [|done|done]. rewrite Hse. apply lookup_insert_eq.
Qed.

(** A chunk that is larger than the buffer is gone: the call announces its size,
    and the retry with a buffer of that size gets the chunk after it. *)
Theorem deno_small_buffer_loses_chunk now eh h o o' (s : ffi) ep w e b x y rest :
  ffi_open s eh h ep w e b -> cv_buf (bview b) = x :: y :: rest ->
  out_invalid o = false -> out_invalid o' = false -> (out_cap o < len x <= I32_MAX)%Z ->
  exists s1 s2, ffi_try_next_chunk json_string now eh h o s = (mkRet (- len x) [], s1) /\
    ffi_try_next_chunk json_string now eh h o' s1 = (copy_chunk y o', s2).
Proof.
  intros Hf Hbuf Ho Ho' Hc.
  destruct (ffi_try_data now eh h o s ep w e b x (y :: rest) Hf Hbuf Ho) as (w1 & e1 & b1 & Ht1 & Hf1 & Hv1 & _).
  destruct (ffi_try_data now eh h o' _ ep w1 e1 b1 y rest Hf1 ltac:(by rewrite Hv1) Ho') as (w2 & e2 & b2 & Ht2 & _).
  eexists _, _. split; [|exact Ht2]. rewrite Ht1. unfold copy_chunk.
  rewrite (proj2 (Z.ltb_lt _ _)) by lia. rewrite needed_small by (pose proof (len_nonneg x); lia). done.
Qed.

(** An empty chunk looks like the end of the body, although more follows. *)
Theorem deno_empty_chunk_ends_body now eh h o (s : ffi) ep w e b rest :
  ffi_open s eh h ep w e b -> cv_buf (bview b) = [] :: rest -> out_invalid o = false -> (0 <= out_cap o)%Z ->
  (ffi_try_next_chunk json_string now eh h o s).1 = mkRet 0 [].
Proof.
  intros Hf Hbuf Ho Hc. destruct (ffi_try_data now eh h o s ep w e b [] rest Hf Hbuf Ho) as (w1 & e1 & b1 & -> & _).
  simpl. unfold copy_chunk. rewrite len_nil, (proj2 (Z.ltb_ge _ _) Hc). done.
Qed.

End deno_streams.

(** ** Witnesses *)

(** An endpoint whose stream holds a body of two pieces of three bytes and one byte. *)
Definition demo_stream : World VecMap ChanView := (finish_body demo_hw demo_sent).2.
Definition demo_eps : Z * VecMap nat := insert_endpoint 0 (sm_with_key : VecMap nat).
Definition demo_ffi : @Ffi VecMap ChanView := mkFfi demo_eps.2 [demo_stream] ∅.
Definition demo_stream_chan : BodyChan ChanView :=
  default demo_chan (hp_chans (heap demo_stream) !! 0).
Definition demo_stream_reader : Timed BodyReader :=
  default demo_er (sm_view (readers (store demo_stream)) !! handle_to_key demo_hr).
Definition demo_json (s : string) : string := s.

Lemma demo_ffi_open : ffi_open demo_ffi demo_eps.1 demo_hr 0 demo_stream demo_stream_reader demo_stream_chan.
Proof. split; [by vm_compute|]. split; [done|]. split_and!; [by vm_compute..|vm_compute; lia]. Qed.

Lemma try_next_chunk_agrees_witness :
  exists w', try_next_chunk 3 demo_hr demo_stream = (Ok (Some (take 3 demo_chunk)), w').
Proof.
  pose proof (try_next_chunk_agrees 3 demo_hr demo_stream demo_stream_reader demo_stream_chan (proj2 (proj2 demo_ffi_open))) as Ha.
  destruct (next_chunk 3 demo_hr demo_stream) as [[[r|] n] w'] eqn:Hn; [|by vm_compute in Hn].
  exists w'. rewrite Ha. vm_compute in Hn. injection Hn as <- _ _. by vm_compute.
Defined.

Lemma deno_body_read_exact_witness :
  exists s', read_chunks demo_json 3 4 demo_eps.1 demo_hr (mkRawOut false 8) demo_ffi = Some (cv_buf (bview demo_stream_chan), 0%Z, s').
Proof.
  destruct (deno_body_read_exact demo_json 4 demo_eps.1 demo_hr (mkRawOut false 8) demo_ffi 0 demo_stream demo_stream_reader
    demo_stream_chan demo_ffi_open) as (n & s' & Hr & Hn & _).
  - by vm_compute.
  - done.
  - by vm_compute.
  - repeat constructor; by vm_compute.
  - by intros err [=].
  - exists s'. subst n. exact Hr.
Defined.

Lemma deno_small_buffer_loses_chunk_witness :
  exists s1 s2, ffi_try_next_chunk demo_json 4 demo_eps.1 demo_hr (mkRawOut false 2) demo_ffi = (mkRet (-3) [], s1) /\
    ffi_try_next_chunk demo_json 4 demo_eps.1 demo_hr (mkRawOut false 3) s1 = (mkRet 1 (drop 3 demo_chunk), s2).
Proof.
  destruct (deno_small_buffer_loses_chunk demo_json 4 demo_eps.1 demo_hr (mkRawOut false 2) (mkRawOut false 3) demo_ffi 0 demo_stream
    demo_stream_reader demo_stream_chan (take 3 demo_chunk) (drop 3 demo_chunk) [] demo_ffi_open) as (s1 & s2 & H1 & H2).
  - by vm_compute.
  - done.
  - done.
  - by vm_compute.
  - exists s1, s2. split; [exact H1|exact H2].
Defined.

Definition demo_empty_chan : BodyChan ChanView := mkBodyChan (mkChan [[]; demo_chunk] 4 1 true) None 0 1 false.
Definition demo_empty_ffi : @Ffi VecMap ChanView :=
  mkFfi demo_eps.2 [upd_chan (fun _ => demo_empty_chan) 0 demo_stream] ∅.

Lemma deno_empty_chunk_ends_body_witness :
  (ffi_try_next_chunk demo_json 4 demo_eps.1 demo_hr (mkRawOut false 8) demo_empty_ffi).1 = mkRet 0 [].
Proof.
  apply (deno_empty_chunk_ends_body demo_json 4 demo_eps.1 demo_hr (mkRawOut false 8) demo_empty_ffi 0
           (upd_chan (fun _ => demo_empty_chan) 0 demo_stream) demo_stream_reader demo_empty_chan [demo_chunk]);
    [|done|done|done].
  split; [by vm_compute|]. split; [done|]. split_and!; [by vm_compute..|vm_compute; lia].
Defined.
