(* ===== verification/DiscoveryRegistry.v ===== *)
(** * Discovery resources of the Deno and Node bindings
    (iroh-http-deno/src/dispatch.rs, iroh-http-node/src/lib.rs)

    Both bindings keep their browse and advertise sessions in one locked state
    under 32-bit handles from one counter.  Sessions that belong to an endpoint
    are published only while the endpoint is active and are taken out when it is
    closed.  A session is known by its identity ([Arc] pointer).  The calls take
    several locked sections, so a machine interleaves them. *)

From stdpp Require Import base numbers list strings gmap fin_maps pretty relations.
From Stdlib Require Import ZArith Lia.
From S2P Require Import Prelude Errors Extern HostAdapter.

Open Scope string_scope.
Open Scope list_scope.

Definition U32_MAX : Z := 4294967295.

(** [EndpointOwned]. *)
Record EndpointOwned := mkOwned { endpoint : Z; resource : nat }.

(** Sessions of an endpoint, and those of no endpoint. *)
Inductive ResKind := Browse | Advertise.
#[global] Instance ResKind_eq_dec : EqDecision ResKind.
Proof. solve_decision. Defined.

(** [DiscoveryState] with [DISCOVERY_HANDLE_COUNTER]. *)
Record DiscoveryState := mkDiscovery {
  handle_counter : Z;
  active_endpoints : gset Z;
  peer_browses : gmap Z EndpointOwned;
  peer_advertisements : gmap Z EndpointOwned;
  generic_browses : gmap Z nat;
  generic_advertisements : gmap Z nat
}.
Definition discovery_default : DiscoveryState := mkDiscovery 1 ∅ ∅ ∅ ∅ ∅.

Definition peer_table (k : ResKind) (st : DiscoveryState) : gmap Z EndpointOwned :=
  match k with Browse => peer_browses st | Advertise => peer_advertisements st end.
Definition set_peer_table (k : ResKind) (m : gmap Z EndpointOwned) (st : DiscoveryState) : DiscoveryState :=
  match k with
  | Browse => mkDiscovery (handle_counter st) (active_endpoints st) m (peer_advertisements st) (generic_browses st) (generic_advertisements st)
  | Advertise => mkDiscovery (handle_counter st) (active_endpoints st) (peer_browses st) m (generic_browses st) (generic_advertisements st)
  end.
Definition generic_table (k : ResKind) (st : DiscoveryState) : gmap Z nat :=
  match k with Browse => generic_browses st | Advertise => generic_advertisements st end.
Definition set_generic_table (k : ResKind) (m : gmap Z nat) (st : DiscoveryState) : DiscoveryState :=
  match k with
  | Browse => mkDiscovery (handle_counter st) (active_endpoints st) (peer_browses st) (peer_advertisements st) m (generic_advertisements st)
  | Advertise => mkDiscovery (handle_counter st) (active_endpoints st) (peer_browses st) (peer_advertisements st) (generic_browses st) m
  end.
Definition set_active a st := mkDiscovery (handle_counter st) a (peer_browses st) (peer_advertisements st) (generic_browses st) (generic_advertisements st).
Definition set_counter c st := mkDiscovery c (active_endpoints st) (peer_browses st) (peer_advertisements st) (generic_browses st) (generic_advertisements st).

(** ** Locked sections *)

(** [alloc_discovery_handle]: [checked_add] on a [u32]. *)
Definition alloc_discovery_handle (st : DiscoveryState) : option Z * DiscoveryState :=
  if (handle_counter st =? U32_MAX)%Z then (None, st)
  else (Some (handle_counter st), set_counter (handle_counter st + 1) st).

(** [drain_endpoint_owned]: the resources in the order of the handles found. *)
Definition endpoint_handles (ep : Z) (m : gmap Z EndpointOwned) : list Z :=
  (filter (fun e => endpoint e.2 = ep) (map_to_list m)).*1.
Fixpoint remove_handles (handles : list Z) (m : gmap Z EndpointOwned) : list nat * gmap Z EndpointOwned :=
  match handles with
  | [] => ([], m)
  | h :: handles =>
      let '(taken, m') := remove_handles handles (delete h m) in
      (match m !! h with Some o => resource o :: taken | None => taken end, m')
  end.
Definition drain_endpoint_owned (ep : Z) (m : gmap Z EndpointOwned) : list nat * gmap Z EndpointOwned :=
  remove_handles (endpoint_handles ep m) m.

Definition activate_endpoint_discovery (ep : Z) (st : DiscoveryState) : DiscoveryState :=
  set_active ({[ ep ]} ∪ active_endpoints st) st.

(** The locked part of [retire_endpoint_discovery]: the browses to close and the
    advertisements to drop. *)
Definition retire_endpoint_discovery (ep : Z) (st : DiscoveryState) : list nat * list nat * DiscoveryState :=
  let st := set_active (active_endpoints st ∖ {[ ep ]}) st in
  let '(browses, m) := drain_endpoint_owned ep (peer_browses st) in
  let st := set_peer_table Browse m st in
  let '(advertisements, m) := drain_endpoint_owned ep (peer_advertisements st) in
  (browses, advertisements, set_peer_table Advertise m st).

(** Publishing a started session of an endpoint. *)
Inductive PublishError := ClosedDuringStart | HandleExhausted.
Definition publish_peer (k : ResKind) (ep : Z) (session : nat) (st : DiscoveryState)
  : Result Z PublishError * DiscoveryState :=
  if negb (bool_decide (ep ∈ active_endpoints st)) then (Err ClosedDuringStart, st)
  else
    match alloc_discovery_handle st with
    | (None, st) => (Err HandleExhausted, st)
    | (Some h, st) => (Ok h, set_peer_table k (<[h := mkOwned ep session]> (peer_table k st)) st)
    end.

(** Removing a browse only if it is still the same session ([Arc::ptr_eq]). *)
Definition remove_same_peer (h : Z) (session : nat) (st : DiscoveryState) : bool * DiscoveryState :=
  match peer_browses st !! h with
  | Some o => if bool_decide (resource o = session)
              then (true, set_peer_table Browse (delete h (peer_browses st)) st) else (false, st)
  | None => (false, st)
  end.
Definition remove_same_generic (h : Z) (session : nat) (st : DiscoveryState) : bool * DiscoveryState :=
  match generic_browses st !! h with
  | Some s => if bool_decide (s = session)
              then (true, set_generic_table Browse (delete h (generic_browses st)) st) else (false, st)
  | None => (false, st)
  end.

(** [advertise_peer_close] and [advertise_close]: what is dropped. *)
Definition take_advertisement (h : Z) (st : DiscoveryState) : option nat * DiscoveryState :=
  (resource <$> peer_advertisements st !! h,
   set_peer_table Advertise (delete h (peer_advertisements st)) st).
Definition take_generic_advertisement (h : Z) (st : DiscoveryState) : option nat * DiscoveryState :=
  (generic_advertisements st !! h,
   set_generic_table Advertise (delete h (generic_advertisements st)) st).

(** ** Arguments and answers of the Deno dispatcher *)

(** An answer: a value, or a code with a message. *)
Abbreviation Answer A := (Result A (string * string)).
Definition err {A} (message : string) : Answer A := Err ("UNKNOWN", message).
Definition err_code {A} (code message : string) : Answer A := Err (code, message).

(** [parse_discovery_handle]: [raw] is what [as_u64] gives. *)
Definition parse_discovery_handle (raw : option Z) (field : string) : Result Z string :=
  match raw with
  | None => Err ("missing " +:+ field)
  | Some n => if (n <=? U32_MAX)%Z then Ok n else Err ("invalid " +:+ field +:+ ": " +:+ pretty n)
  end.

(** [browse_peers_dispatch] and [advertise_peer_dispatch] before the start. *)
Definition start_args (handle : option Z) (service_name : option string) (live : Z -> bool) : Answer (Z * string) :=
  match handle with
  | None => err "missing endpointHandle"
  | Some h =>
      match service_name with
      | None => err "missing serviceName"
      | Some name =>
          if live h then Ok (h, name)
          else err_code "INVALID_HANDLE" ("node closed or not found (handle " +:+ pretty h +:+ ")")
      end
  end.

(** The checks of [close_endpoint] before the endpoint's discovery is retired. *)
Definition close_args (handle : option Z) (live : Z -> bool) : Answer Z :=
  match handle with
  | None => err "missing endpointHandle"
  | Some h =>
      if live h then Ok h
      else err_code "INVALID_HANDLE" ("node closed or not found (handle " +:+ pretty h +:+ ")")
  end.

(** The answer after publishing. *)
Definition publish_answer (ep : Z) (r : Result Z PublishError) : Answer Z :=
  match r with
  | Ok h => Ok h
  | Err ClosedDuringStart => err_code "INVALID_HANDLE" ("node closed during discovery start (handle " +:+ pretty ep +:+ ")")
  | Err HandleExhausted => err_code "HANDLE_EXHAUSTED" "discovery handle space exhausted"
  end.

(** ** The calls, interleaved *)

(** Where a call is between two of its sections.  [PcPublish], [PcReject] and
    the rest hold a session that no table holds. *)
Inductive Pc :=
| PcActivate (ep : Z)
| PcStarting (k : ResKind) (ep : Z)
| PcPublish (k : ResKind) (ep : Z) (session : nat)
| PcReject (session : nat)
| PcNext (h : Z) (session : nat)
| PcNextEnd (h : Z) (session : nat)
| PcClose (h : Z) (session : nat)
| PcCloseEnd (h : Z) (session : nat)
| PcDrop (session : nat)
| PcCloseEndpoint (ep : Z)
| PcRetire (ep : Z) (todo : list nat)
| PcRemove (ep : Z)
| PcGenStarting (k : ResKind)
| PcGenAlloc (k : ResKind) (session : nat)
| PcGenInsert (k : ResKind) (h : Z) (session : nat)
| PcGenNext (h : Z) (session : nat)
| PcGenNextEnd (h : Z) (session : nat)
| PcGenClose (h : Z) (session : nat)
| PcGenCloseEnd (h : Z) (session : nat)
| PcDone.

(** [sessions]: the endpoint of each session started so far, if it has one;
    [closed]: sessions that were closed, dropped or have reported their end;
    [issued]: the handles allocated, in order. *)
Record Proc := mkProc {
  disc : DiscoveryState;
  live : gset Z;
  created : gset Z;
  sessions : list (option Z);
  closed : gset nat;
  issued : list Z;
  calls : list Pc
}.
Definition proc0 : Proc := mkProc discovery_default ∅ ∅ [] ∅ [] [].

Definition set_disc d p := mkProc d (live p) (created p) (sessions p) (closed p) (issued p) (calls p).
Definition close_session (s : nat) p := mkProc (disc p) (live p) (created p) (sessions p) ({[ s ]} ∪ closed p) (issued p) (calls p).
Definition issue (h : Z) p := mkProc (disc p) (live p) (created p) (sessions p) (closed p) (issued p ++ [h]) (calls p).
Definition start_session (o : option Z) p := mkProc (disc p) (live p) (created p) (sessions p ++ [o]) (closed p) (issued p) (calls p).
Definition create (ep : Z) p := mkProc (disc p) ({[ ep ]} ∪ live p) ({[ ep ]} ∪ created p) (sessions p) (closed p) (issued p) (calls p).
Definition unregister (ep : Z) p := mkProc (disc p) (live p ∖ {[ ep ]}) (created p) (sessions p) (closed p) (issued p) (calls p).
Definition unregister_all p := mkProc (disc p) ∅ (created p) (sessions p) (closed p) (issued p) (calls p).
Definition call (pc : Pc) p := mkProc (disc p) (live p) (created p) (sessions p) (closed p) (issued p) (calls p ++ [pc]).
Definition goto (i : nat) (pc : Pc) p := mkProc (disc p) (live p) (created p) (sessions p) (closed p) (issued p) (<[i := pc]> (calls p)).

(** The first section of each call. *)
Inductive begins (p : Proc) : Proc -> Prop :=
| b_create ep : ep ∉ created p -> begins p (call (PcActivate ep) (create ep p))
| b_start k ep : ep ∈ live p -> begins p (call (PcStarting k ep) p)
| b_next h o : peer_browses (disc p) !! h = Some o -> begins p (call (PcNext h (resource o)) p)
| b_close h o : peer_browses (disc p) !! h = Some o -> begins p (call (PcClose h (resource o)) p)
| b_stop h s d : take_advertisement h (disc p) = (Some s, d) -> begins p (call (PcDrop s) (set_disc d p))
| b_close_endpoint ep : ep ∈ live p -> begins p (call (PcCloseEndpoint ep) p)
| b_close_all : begins p (unregister_all p)
| b_gen_start k : begins p (call (PcGenStarting k) p)
| b_gen_next h s : generic_browses (disc p) !! h = Some s -> begins p (call (PcGenNext h s) p)
| b_gen_close h s : generic_browses (disc p) !! h = Some s -> begins p (call (PcGenClose h s) p)
| b_gen_stop h s d : take_generic_advertisement h (disc p) = (Some s, d) -> begins p (call (PcDrop s) (set_disc d p)).

(** The next section of a call; what the discovery crate answers is free. *)
Inductive goes_on (p : Proc) : Pc -> Pc * Proc -> Prop :=
| g_activate ep : goes_on p (PcActivate ep) (PcDone, set_disc (activate_endpoint_discovery ep (disc p)) p)
| g_start_fails k ep : goes_on p (PcStarting k ep) (PcDone, p)
| g_started k ep : goes_on p (PcStarting k ep) (PcPublish k ep (length (sessions p)), start_session (Some ep) p)
| g_published k ep s h d : publish_peer k ep s (disc p) = (Ok h, d) ->
    goes_on p (PcPublish k ep s) (PcDone, issue h (set_disc d p))
| g_refused k ep s e d : publish_peer k ep s (disc p) = (Err e, d) ->
    goes_on p (PcPublish k ep s) (PcReject s, set_disc d p)
| g_reject s : goes_on p (PcReject s) (PcDone, close_session s p)
| g_event h s : goes_on p (PcNext h s) (PcDone, p)
| g_ended h s : goes_on p (PcNext h s) (PcNextEnd h s, close_session s p)
| g_next_end h s : goes_on p (PcNextEnd h s) (PcDone, set_disc (remove_same_peer h s (disc p)).2 p)
| g_close h s : goes_on p (PcClose h s) (PcCloseEnd h s, close_session s p)
| g_close_end h s : goes_on p (PcCloseEnd h s) (PcDone, set_disc (remove_same_peer h s (disc p)).2 p)
| g_drop s : goes_on p (PcDrop s) (PcDone, close_session s p)
| g_retire ep bs ads d : retire_endpoint_discovery ep (disc p) = (bs, ads, d) ->
    goes_on p (PcCloseEndpoint ep) (PcRetire ep (bs ++ ads), set_disc d p)
| g_retire_close ep s todo : goes_on p (PcRetire ep (s :: todo)) (PcRetire ep todo, close_session s p)
| g_endpoint_closed ep : goes_on p (PcRetire ep []) (PcRemove ep, p)
| g_remove ep : goes_on p (PcRemove ep) (PcDone, unregister ep p)
| g_gen_fails k : goes_on p (PcGenStarting k) (PcDone, p)
| g_gen_started k : goes_on p (PcGenStarting k) (PcGenAlloc k (length (sessions p)), start_session None p)
| g_gen_alloc k s h d : alloc_discovery_handle (disc p) = (Some h, d) ->
    goes_on p (PcGenAlloc k s) (PcGenInsert k h s, issue h (set_disc d p))
| g_gen_exhausted k s d : alloc_discovery_handle (disc p) = (None, d) ->
    goes_on p (PcGenAlloc k s) (PcReject s, set_disc d p)
| g_gen_insert k h s : goes_on p (PcGenInsert k h s)
    (PcDone, set_disc (set_generic_table k (<[h := s]> (generic_table k (disc p))) (disc p)) p)
| g_gen_event h s : goes_on p (PcGenNext h s) (PcDone, p)
| g_gen_ended h s : goes_on p (PcGenNext h s) (PcGenNextEnd h s, close_session s p)
| g_gen_next_end h s : goes_on p (PcGenNextEnd h s) (PcDone, set_disc (remove_same_generic h s (disc p)).2 p)
| g_gen_close h s : goes_on p (PcGenClose h s) (PcGenCloseEnd h s, close_session s p)
| g_gen_close_end h s : goes_on p (PcGenCloseEnd h s) (PcDone, set_disc (remove_same_generic h s (disc p)).2 p).

Inductive disc_step (p : Proc) : Proc -> Prop :=
| step_begins p' : begins p p' -> disc_step p p'
| step_goes_on i pc pc' p' : calls p !! i = Some pc -> goes_on p pc (pc', p') -> disc_step p (goto i pc' p').
