(* ===== verification/DiscoveryRegistryProps.v ===== *)
(** * Discovery resources: every session has one owner

    However the calls of a binding are interleaved, a session that was started
    is held by one table entry or by one call that is going to publish or close
    it, until it is closed; the entries of an endpoint exist only while it is
    active; and no handle is issued twice. *)

From stdpp Require Import base numbers list strings gmap fin_maps relations.
From Stdlib Require Import ZArith Lia.
From S2P Require Import Prelude HostAdapter DiscoveryRegistry.

Open Scope string_scope.
Open Scope list_scope.

(** ** What holds sessions and handles *)

Definition owned_items (m : gmap Z EndpointOwned) : list (Z * nat) := prod_map id resource <$> map_to_list m.
Definition items (st : DiscoveryState) : list (Z * nat) :=
  owned_items (peer_browses st) ++ owned_items (peer_advertisements st) ++
  map_to_list (generic_browses st) ++ map_to_list (generic_advertisements st).

Definition held_by (pc : Pc) : list nat :=
  match pc with
  | PcPublish _ _ s | PcReject s | PcDrop s | PcGenAlloc _ s | PcGenInsert _ _ s => [s]
  | PcRetire _ todo => todo
  | _ => []
  end.
Definition pending_handle (pc : Pc) : list Z := match pc with PcGenInsert _ h _ => [h] | _ => [] end.

Definition holders (p : Proc) : list nat := (items (disc p)).*2 ++ concat (held_by <$> calls p).
Definition handles (p : Proc) : list Z := (items (disc p)).*1 ++ concat (pending_handle <$> calls p).

(** ** Tables *)

Lemma owned_items_insert m h o : m !! h = None -> owned_items (<[h := o]> m) ≡ₚ (h, resource o) :: owned_items m.
Proof. intros Hm. unfold owned_items. by rewrite map_to_list_insert. Qed.

Lemma owned_items_delete m h o : m !! h = Some o -> owned_items m ≡ₚ (h, resource o) :: owned_items (delete h m).
Proof. intros Hm. rewrite <- (insert_delete_id m h o Hm) at 1. apply owned_items_insert, lookup_delete_eq. Qed.

Lemma generic_items_delete (m : gmap Z nat) h s : m !! h = Some s -> map_to_list m ≡ₚ (h, s) :: map_to_list (delete h m).
Proof. intros Hm. by rewrite map_to_list_delete. Qed.

Lemma remove_handles_items hs m taken m' :
  remove_handles hs m = (taken, m') ->
  exists l, owned_items m ≡ₚ l ++ owned_items m' /\ l.*2 = taken /\ m' ⊆ m /\ forall h, h ∈ hs -> m' !! h = None.
Proof.
  revert m taken m'. induction hs as [|h hs IH]; intros m taken m' Hr; simpl in Hr.
  - injection Hr as <- <-. exists []. split_and!; try done. by intros ? ?%not_elem_of_nil.
  - destruct (remove_handles hs (delete h m)) as [t m1] eqn:E. injection Hr as <- <-.
    destruct (IH _ _ _ E) as (l & Hp & Hl & Hsub & Hn).
    assert (forall x, x ∈ h :: hs -> m1 !! x = None) as Hn'.
    { intros x [->|Hx]%elem_of_cons; [|auto]. apply (lookup_weaken_None _ (delete h m)); [apply lookup_delete_eq|done]. }
    assert (m1 ⊆ m) by (etrans; [done|apply delete_subseteq]).
    destruct (m !! h) as [o|] eqn:Ho.
    + exists ((h, resource o) :: l). split_and!; [by rewrite (owned_items_delete m h o Ho), Hp|by rewrite fmap_cons, Hl|done|done].
    + exists l. rewrite <- (delete_id m h Ho) at 1. done.
Qed.

Lemma drain_spec ep m taken m' :
  drain_endpoint_owned ep m = (taken, m') ->
  exists l, owned_items m ≡ₚ l ++ owned_items m' /\ l.*2 = taken /\ m' ⊆ m /\
    forall h o, m' !! h = Some o -> endpoint o <> ep.
Proof.
  intros Hd. destruct (remove_handles_items _ _ _ _ Hd) as (l & Hp & Hl & Hsub & Hn).
  exists l. split_and!; try done. intros h o Ho He.
  pose proof (lookup_weaken _ _ _ _ Ho Hsub) as Hm. rewrite Hn in Ho; [done|].
  unfold endpoint_handles. apply (list_elem_of_fmap_2' _ _ (h, o)); [|done].
  apply list_elem_of_filter. split; [done|]. by apply elem_of_map_to_list.
Qed.

Lemma retire_spec ep st bs ads st' :
  retire_endpoint_discovery ep st = (bs, ads, st') ->
  (exists l, items st ≡ₚ l ++ items st' /\ l.*2 = bs ++ ads) /\
  handle_counter st' = handle_counter st /\ active_endpoints st' = active_endpoints st ∖ {[ ep ]} /\
  (forall k h o, peer_table k st' !! h = Some o -> peer_table k st !! h = Some o /\ endpoint o <> ep) /\
  (forall k, generic_table k st' = generic_table k st).
Proof.
  unfold retire_endpoint_discovery. simpl.
  destruct (drain_endpoint_owned ep (peer_browses st)) as [b mb] eqn:Eb. simpl.
  destruct (drain_endpoint_owned ep (peer_advertisements st)) as [a ma] eqn:Ea. simpl. intros [= <- <- <-].
  destruct (drain_spec _ _ _ _ Eb) as (lb & Pb & Lb & Sb & Nb).
  destruct (drain_spec _ _ _ _ Ea) as (la & Pa & La & Sa & Na). split_and!; try done.
  - exists (lb ++ la). split; [|by rewrite fmap_app, Lb, La]. unfold items; simpl. rewrite Pb, Pa. solve_Permutation.
  - intros [] h o Ho; simpl in *; (split; [by eapply lookup_weaken|eauto]).
Qed.

Lemma alloc_spec st o st' :
  alloc_discovery_handle st = (o, st') ->
  match o with
  | Some h => h = handle_counter st /\ st' = set_counter (h + 1) st /\ (h <> U32_MAX)%Z
  | None => st' = st
  end.
Proof. unfold alloc_discovery_handle. destruct (_ =? _)%Z eqn:E; intros [= <- <-]; [done|]. bool_to_prop. done. Qed.

(** A handle that no table and no pending call knows is free in each table. *)
Lemma free_peer k h p : h ∉ handles p -> peer_table k (disc p) !! h = None.
Proof.
  intros Hf. apply eq_None_not_Some. intros [o Ho]. apply Hf. unfold handles, items. apply elem_of_app. left.
  apply elem_of_map_to_list in Ho. apply (list_elem_of_fmap_2' _ _ (h, resource o)); [|done].
  rewrite !elem_of_app. unfold owned_items.
  destruct k; [left|right; left]; by apply (list_elem_of_fmap_2' _ _ (h, o)).
Qed.
Lemma free_generic k h st : h ∉ (items st).*1 -> generic_table k st !! h = None.
Proof.
  intros Hf. apply eq_None_not_Some. intros [s Hs]. apply Hf. unfold items.
  apply elem_of_map_to_list in Hs. apply (list_elem_of_fmap_2' _ _ (h, s)); [|done].
  rewrite !elem_of_app. destruct k; auto.
Qed.

Lemma items_peer_insert k h o st : peer_table k st !! h = None ->
  items (set_peer_table k (<[h := o]> (peer_table k st)) st) ≡ₚ (h, resource o) :: items st.
Proof. intros Hn. unfold items. destruct k; simpl in *; rewrite owned_items_insert by done; solve_Permutation. Qed.
Lemma items_peer_delete k h o st : peer_table k st !! h = Some o ->
  items st ≡ₚ (h, resource o) :: items (set_peer_table k (delete h (peer_table k st)) st).
Proof. intros Hn. unfold items. destruct k; simpl in *; rewrite (owned_items_delete _ _ _ Hn); solve_Permutation. Qed.
Lemma items_generic_insert k h s st : generic_table k st !! h = None ->
  items (set_generic_table k (<[h := s]> (generic_table k st)) st) ≡ₚ (h, s) :: items st.
Proof. intros Hn. unfold items. destruct k; simpl in *; rewrite map_to_list_insert by done; solve_Permutation. Qed.
Lemma items_generic_delete k h s st : generic_table k st !! h = Some s ->
  items st ≡ₚ (h, s) :: items (set_generic_table k (delete h (generic_table k st)) st).
Proof. intros Hn. unfold items. destruct k; simpl in *; rewrite (generic_items_delete _ _ _ Hn); solve_Permutation. Qed.

(** ** The invariant *)

(** What a call knows about the session it carries. *)
Definition call_ok (p : Proc) (pc : Pc) : Prop :=
  match pc with
  | PcActivate ep => ep ∈ created p
  | PcPublish _ ep s => sessions p !! s = Some (Some ep)
  | PcGenAlloc _ s | PcGenInsert _ _ s => sessions p !! s = Some None
  | PcNextEnd _ s | PcCloseEnd _ s | PcGenNextEnd _ s | PcGenCloseEnd _ s => s ∈ closed p
  | _ => True
  end.

Record disc_inv (p : Proc) : Prop := mkDiscInv {
  di_nodup : NoDup (holders p);
  di_covered : forall s, s < length (sessions p) -> s ∈ holders p \/ s ∈ closed p;
  di_bound : forall s, s ∈ holders p -> s < length (sessions p);
  di_handles : handles p ⊆+ issued p;
  di_issued : NoDup (issued p);
  di_below : forall h, h ∈ issued p -> (1 <= h < handle_counter (disc p))%Z;
  di_counter : (1 <= handle_counter (disc p) <= U32_MAX)%Z;
  di_calls : Forall (call_ok p) (calls p);
  di_peer : forall k h o, peer_table k (disc p) !! h = Some o ->
    endpoint o ∈ active_endpoints (disc p) /\ sessions p !! resource o = Some (Some (endpoint o));
  di_generic : forall k h s, generic_table k (disc p) !! h = Some s -> sessions p !! s = Some None;
  di_active : active_endpoints (disc p) ⊆ created p
}.

Lemma concat_goto {A} (f : Pc -> list A) (l : list Pc) i pc pc' :
  l !! i = Some pc ->
  exists rest, concat (f <$> l) ≡ₚ f pc ++ rest /\ concat (f <$> <[i := pc']> l) ≡ₚ f pc' ++ rest.
Proof.
  intros Hi. exists (concat (f <$> take i l) ++ concat (f <$> drop (S i) l)).
  assert (Hlen : i < length l) by (by eapply lookup_lt_Some).
  rewrite insert_take_drop by done. rewrite <- (take_drop_middle l i pc Hi) at 1.
  rewrite !fmap_app, !fmap_cons, !concat_app. simpl. split; solve_Permutation.
Qed.

(** How the holders [l] of a process change to [l']. *)
Definition own_change (l l' : list nat) (p p' : Proc) : Prop :=
  (l' ≡ₚ l /\ sessions p' = sessions p) \/
  (l' ≡ₚ length (sessions p) :: l /\ exists o, sessions p' = sessions p ++ [o]) \/
  (exists s, l ≡ₚ s :: l' /\ s ∈ closed p' /\ sessions p' = sessions p).
(** How the handles change. *)
Definition handle_change (l l' : list Z) (p p' : Proc) : Prop :=
  (l' ⊆+ l /\ issued p' = issued p /\ handle_counter (disc p') = handle_counter (disc p)) \/
  (let h := handle_counter (disc p) in
   l' ≡ₚ h :: l /\ issued p' = issued p ++ [h] /\ handle_counter (disc p') = (h + 1)%Z /\ (h <> U32_MAX)%Z).

Lemma own_change_frame l l' r p p' : own_change l l' p p' -> own_change (l ++ r) (l' ++ r) p p'.
Proof.
  intros [[H1 H2]|[[H1 H2]|(s & H1 & H2)]]; [left|right; left|right; right; exists s]; split; try done; by rewrite H1.
Qed.
Lemma handle_change_frame l l' r p p' : handle_change l l' p p' -> handle_change (l ++ r) (l' ++ r) p p'.
Proof.
  intros [[H1 H2]|(H1 & H2)]; [left|right]; (split; [|done]); [by apply submseteq_app|by rewrite H1].
Qed.

#[global] Instance own_change_proper : Proper ((≡ₚ) ==> (≡ₚ) ==> (=) ==> (=) ==> iff) own_change.
Proof. intros l1 l2 Hl l1' l2' Hl' p ? <- p' ? <-. unfold own_change. by setoid_rewrite Hl; setoid_rewrite Hl'. Qed.
#[global] Instance handle_change_proper : Proper ((≡ₚ) ==> (≡ₚ) ==> (=) ==> (=) ==> iff) handle_change.
Proof. intros l1 l2 Hl l1' l2' Hl' p ? <- p' ? <-. unfold handle_change. by setoid_rewrite Hl; setoid_rewrite Hl'. Qed.

Lemma own_preserved p p' :
  own_change (holders p) (holders p') p p' -> closed p ⊆ closed p' -> disc_inv p ->
  NoDup (holders p') /\ (forall s, s < length (sessions p') -> s ∈ holders p' \/ s ∈ closed p') /\
  (forall s, s ∈ holders p' -> s < length (sessions p')).
Proof.
  intros Hc Hcl Hi. pose proof (di_nodup _ Hi) as N. pose proof (di_covered _ Hi) as V. pose proof (di_bound _ Hi) as B.
  destruct Hc as [[H1 H2]|[[H1 [o H2]]|(s & H1 & H2 & H3)]].
  - rewrite H2. split_and!; [by rewrite H1| |by setoid_rewrite H1].
    intros s Hs. rewrite H1. destruct (V s Hs); auto.
  - rewrite H2, length_app. simpl. split_and!.
    + rewrite H1. constructor; [|done]. intros Hx%B. lia.
    + intros s Hs. rewrite H1, elem_of_cons. destruct (decide (s = length (sessions p))) as [->|Hne]; [auto|].
      destruct (V s); [lia|auto|auto].
    + intros s. rewrite H1, elem_of_cons. intros [->|Hs%B]; lia.
  - rewrite H3. rewrite H1 in N. apply NoDup_cons in N as [N1 N2]. split_and!; [done| |].
    + intros x Hx. destruct (V x Hx) as [Hy|Hy]; [|auto]. rewrite H1, elem_of_cons in Hy.
      destruct Hy as [->|Hy]; auto.
    + intros x Hx. apply B. rewrite H1. by right.
Qed.

Lemma handles_preserved p p' :
  handle_change (handles p) (handles p') p p' -> disc_inv p ->
  handles p' ⊆+ issued p' /\ NoDup (issued p') /\
  (forall h, h ∈ issued p' -> (1 <= h < handle_counter (disc p'))%Z) /\ (1 <= handle_counter (disc p') <= U32_MAX)%Z.
Proof.
  intros Hc Hi. pose proof (di_handles _ Hi) as HS. pose proof (di_issued _ Hi) as N. pose proof (di_below _ Hi) as B.
  pose proof (di_counter _ Hi) as C.
  destruct Hc as [(H1 & H2 & H3)|(H1 & H2 & H3 & H4)]; rewrite H2, ?H3.
  - split_and!; try done; try lia. by etrans.
  - split_and!; try lia.
    + rewrite H1, <- Permutation_cons_append. by apply submseteq_skip.
    + apply list.NoDup_app. split_and!; [done| |apply NoDup_singleton].
      intros h Hh%B ->%list_elem_of_singleton. lia.
    + intros h [Hh%B| ->%list_elem_of_singleton]%elem_of_app; lia.
Qed.

(** ** The sections *)

(** [st'] has the entries of [st] or fewer, and nothing else changed. *)
Definition shrinks (st st' : DiscoveryState) : Prop :=
  active_endpoints st' = active_endpoints st /\ handle_counter st' = handle_counter st /\
  (forall k h o, peer_table k st' !! h = Some o -> peer_table k st !! h = Some o) /\
  (forall k h s, generic_table k st' !! h = Some s -> generic_table k st !! h = Some s).

Lemma shrinks_peer_delete k h st : shrinks st (set_peer_table k (delete h (peer_table k st)) st).
Proof. destruct k; (split_and!; [done|done| |done]); intros [] x o; simpl; try done; by intros [_ ?]%lookup_delete_Some. Qed.
Lemma shrinks_generic_delete k h st : shrinks st (set_generic_table k (delete h (generic_table k st)) st).
Proof. destruct k; (split_and!; [done|done|done|]); intros [] x o; simpl; try done; by intros [_ ?]%lookup_delete_Some. Qed.

(** A removal of the entry [(h, s)], if it is there. *)
Definition removes (h : Z) (s : nat) (st st' : DiscoveryState) : Prop :=
  shrinks st st' /\ (st' = st \/ items st ≡ₚ (h, s) :: items st').

Lemma remove_same_peer_removes h s st : removes h s st (remove_same_peer h s st).2.
Proof.
  unfold remove_same_peer. destruct (peer_browses st !! h) as [o|] eqn:Ho; [|by split; [|left]].
  case_bool_decide as Hs; [|by split; [|left]]. subst s. split; [apply (shrinks_peer_delete Browse)|right].
  by apply (items_peer_delete Browse).
Qed.
Lemma remove_same_generic_removes h s st : removes h s st (remove_same_generic h s st).2.
Proof.
  unfold remove_same_generic. destruct (generic_browses st !! h) as [o|] eqn:Ho; [|by split; [|left]].
  case_bool_decide as Hs; [|by split; [|left]]. subst s. split; [apply (shrinks_generic_delete Browse)|right].
  by apply (items_generic_delete Browse).
Qed.
Lemma take_advertisement_removes h s st st' :
  take_advertisement h st = (Some s, st') -> shrinks st st' /\ items st ≡ₚ (h, s) :: items st'.
Proof.
  unfold take_advertisement. destruct (peer_advertisements st !! h) as [o|] eqn:Ho; [|done]. intros [= <- <-].
  split; [apply (shrinks_peer_delete Advertise)|by apply (items_peer_delete Advertise)].
Qed.
Lemma take_generic_removes h s st st' :
  take_generic_advertisement h st = (Some s, st') -> shrinks st st' /\ items st ≡ₚ (h, s) :: items st'.
Proof.
  unfold take_generic_advertisement. intros [= Ho <-].
  split; [apply (shrinks_generic_delete Advertise)|by apply (items_generic_delete Advertise)].
Qed.

Lemma publish_ok_spec k ep s p h st' :
  handle_counter (disc p) ∉ handles p ->
  publish_peer k ep s (disc p) = (Ok h, st') ->
  ep ∈ active_endpoints (disc p) /\ h = handle_counter (disc p) /\ (h <> U32_MAX)%Z /\
  items st' ≡ₚ (h, s) :: items (disc p) /\ handle_counter st' = (h + 1)%Z /\
  st' = set_peer_table k (<[h := mkOwned ep s]> (peer_table k (disc p))) (set_counter (h + 1) (disc p)).
Proof.
  intros Hf Hp. unfold publish_peer in Hp. case_bool_decide as Ha; simpl in Hp; [|done].
  destruct (alloc_discovery_handle (disc p)) as [[x|] d] eqn:E; [|done]. apply alloc_spec in E as (-> & -> & Hm).
  injection Hp as <- <-. apply (free_peer k) in Hf. split_and!; try done.
  - destruct k; by apply (items_peer_insert _ _ (mkOwned ep s) (set_counter (handle_counter (disc p) + 1) (disc p))).
  - by destruct k.
Qed.
Lemma publish_err_spec k ep s st e st' : publish_peer k ep s st = (Err e, st') -> st' = st.
Proof.
  unfold publish_peer. case_bool_decide; simpl; [|by intros [=]].
  destruct (alloc_discovery_handle st) as [[x|] d] eqn:E; [done|]. apply alloc_spec in E as ->. by intros [=].
Qed.

Lemma fresh_counter p : disc_inv p -> handle_counter (disc p) ∉ handles p.
Proof.
  intros Hi Hh. pose proof (elem_of_submseteq _ _ _ Hh (di_handles _ Hi)) as Hx%(di_below _ Hi). lia.
Qed.

Lemma pending_free p i k h s : disc_inv p -> calls p !! i = Some (PcGenInsert k h s) -> h ∉ (items (disc p)).*1.
Proof.
  intros Hi Hc Hh. destruct (concat_goto pending_handle (calls p) i _ PcDone Hc) as (rest & Hr & _).
  pose proof (submseteq_Permutation _ _ (di_handles _ Hi)) as (gone & Hg).
  pose proof (di_issued _ Hi) as N. rewrite Hg in N. unfold handles in N. rewrite Hr in N. simpl in N.
  rewrite <- app_assoc in N. apply list.NoDup_app in N as (_ & N & _). apply (N h Hh). simpl. by left.
Qed.

(** Changes of the two kinds from those of the tables. *)
Lemma own_same (l : list nat) p p' : sessions p' = sessions p -> own_change l l p p'.
Proof. by left. Qed.
Lemma handle_same (l : list Z) p p' : issued p' = issued p -> handle_counter (disc p') = handle_counter (disc p) -> handle_change l l p p'.
Proof. by left. Qed.

Lemma removes_changes h s p st' :
  removes h s (disc p) st' -> s ∈ closed p ->
  own_change ((items (disc p)).*2 ++ []) ((items st').*2 ++ []) p (set_disc st' p) /\
  handle_change ((items (disc p)).*1 ++ []) ((items st').*1 ++ []) p (set_disc st' p).
Proof.
  intros [(_ & Hcnt & _) [->|Hp]] Hs.
  - split; [by apply own_same|by apply handle_same].
  - rewrite !app_nil_r. split.
    + right. right. exists s. split; [by rewrite Hp|done].
    + left. split; [|done]. rewrite Hp. simpl. by apply submseteq_cons.
Qed.

(** The session [s] leaves the call that closes it. *)
Lemma close_changes s todo p :
  own_change ((items (disc p)).*2 ++ s :: todo) ((items (disc p)).*2 ++ todo) p (close_session s p).
Proof.
  right. right. exists s. split; [by rewrite <- Permutation_middle|]. split; [|done].
  apply elem_of_union_l. by apply elem_of_singleton.
Qed.

Lemma start_changes o p :
  own_change ((items (disc p)).*2 ++ []) ((items (disc p)).*2 ++ [length (sessions p)]) p (start_session o p).
Proof. right. left. split; [by rewrite app_nil_r, <- Permutation_cons_append|by exists o]. Qed.

Lemma retire_changes ep p bs ads d :
  retire_endpoint_discovery ep (disc p) = (bs, ads, d) ->
  own_change ((items (disc p)).*2 ++ []) ((items d).*2 ++ bs ++ ads) p (set_disc d p) /\
  handle_change ((items (disc p)).*1 ++ []) ((items d).*1 ++ []) p (set_disc d p).
Proof.
  intros ((l & Hp & Hl) & Hcnt & _)%retire_spec. rewrite !app_nil_r. split.
  - left. split; [|done]. rewrite Hp, fmap_app, Hl. solve_Permutation.
  - left. split; [|done]. rewrite Hp, fmap_app. by apply submseteq_inserts_l.
Qed.

Lemma goes_on_effect p i pc pc' p' :
  disc_inv p -> calls p !! i = Some pc -> goes_on p pc (pc', p') ->
  calls p' = calls p /\ closed p ⊆ closed p' /\
  own_change ((items (disc p)).*2 ++ held_by pc) ((items (disc p')).*2 ++ held_by pc') p p' /\
  handle_change ((items (disc p)).*1 ++ pending_handle pc) ((items (disc p')).*1 ++ pending_handle pc') p p'.
Proof.
  intros Hi Hc Hg. pose proof (di_calls _ Hi) as Hok. rewrite Forall_lookup in Hok. specialize (Hok i pc Hc).
  inversion Hg as [| | |k ep s h d Hp|k ep s e d Hp| | | | | | | |ep bs ads d Hp| | | | | |k s h d Hp|k s d Hp|k h s| | | | |];
    subst; simpl in *; (split; [done|]); (split; [set_solver|]);
    try (split; [by apply own_same|by apply handle_same]);
    try (split; [apply close_changes|by apply handle_same]);
    try (split; [apply start_changes|by apply handle_same]);
    try (eapply removes_changes; [first [apply remove_same_peer_removes|apply remove_same_generic_removes]|done]).
  - apply publish_ok_spec in Hp as (_ & -> & Hm & Hp & Hcnt & _); [|by apply fresh_counter].
    rewrite !app_nil_r. split.
    + left. split; [|done]. rewrite Hp. simpl. by rewrite <- Permutation_cons_append.
    + right. split_and!; try done. by rewrite Hp.
  - apply publish_err_spec in Hp as ->. split; [by apply own_same|by apply handle_same].
  - by apply (retire_changes ep).
  - apply alloc_spec in Hp as (-> & -> & Hm). split; [by apply own_same|]. right.
    rewrite app_nil_r. split_and!; try done. by rewrite <- Permutation_cons_append.
  - apply alloc_spec in Hp as ->. split; [by apply own_same|by apply handle_same].
  - pose proof (free_generic k h _ (pending_free p i k h s Hi Hc)) as Hf.
    rewrite !app_nil_r. split.
    + left. split; [|done]. rewrite items_generic_insert by done. simpl. by rewrite <- Permutation_cons_append.
    + left. split; [|by destruct k]. rewrite items_generic_insert by done. simpl.
      by rewrite <- Permutation_cons_append.
Qed.

(** ** Tables, active endpoints and what the calls know *)

Definition tables_ok (p : Proc) : Prop :=
  (forall k h o, peer_table k (disc p) !! h = Some o ->
     endpoint o ∈ active_endpoints (disc p) /\ sessions p !! resource o = Some (Some (endpoint o))) /\
  (forall k h s, generic_table k (disc p) !! h = Some s -> sessions p !! s = Some None) /\
  active_endpoints (disc p) ⊆ created p.

Lemma tables_shrink p st' : tables_ok p -> shrinks (disc p) st' -> tables_ok (set_disc st' p).
Proof. intros (T1 & T2 & T3) (S1 & S2 & S3 & S4). split_and!; simpl; rewrite ?S1; eauto. Qed.

Lemma tables_start p o : tables_ok p -> tables_ok (start_session o p).
Proof.
  intros (T1 & T2 & T3). split_and!; simpl; [| |done].
  - intros k h x Hx. destruct (T1 k h x Hx). split; [done|]. by apply lookup_app_l_Some.
  - intros k h x Hx. apply lookup_app_l_Some. eauto.
Qed.

Lemma goes_on_tables p pc pc' p' :
  disc_inv p -> call_ok p pc -> goes_on p pc (pc', p') -> tables_ok p -> tables_ok p'.
Proof.
  intros Hi Hok Hg Ht. pose proof Ht as (T1 & T2 & T3).
  inversion Hg as [ep| | |k ep s h d Hp|k ep s e d Hp| | | | | | | |ep bs ads d Hp| | | | | |k s h d Hp|k s d Hp|k h s| | | | |];
    subst; simpl in *; try done; try (by apply tables_start);
    try (apply tables_shrink; [done|]; first [apply remove_same_peer_removes|apply remove_same_generic_removes]).
  - split_and!; simpl; [|done|set_solver]. intros k h o Ho. destruct (T1 k h o Ho). split; [set_solver|done].
  - apply publish_ok_spec in Hp as (Ha & -> & _ & _ & _ & ->); [|by apply fresh_counter].
    split_and!; simpl.
    + intros k' h o Ho. destruct (decide (k' = k)) as [->|Hne].
      * assert (<[handle_counter (disc p) := mkOwned ep s]> (peer_table k (disc p)) !! h = Some o) as Hx by (by destruct k).
        apply lookup_insert_Some in Hx as [[<- <-]|[_ Hx]]; destruct k; simpl; eauto.
      * assert (peer_table k' (disc p) !! h = Some o) as Hx by (by destruct k, k'). destruct k; simpl; eauto.
    + intros k' h x Hx. apply (T2 k' h x). by destruct k, k'.
    + by destruct k.
  - by apply publish_err_spec in Hp as ->.
  - apply retire_spec in Hp as (_ & _ & Ha & Hpt & Hgt). split_and!; simpl; rewrite ?Ha.
    + intros k h o [Ho Hne]%Hpt. destruct (T1 k h o Ho). split; [set_solver|done].
    + intros k h s. rewrite Hgt. eauto.
    + set_solver.
  - apply alloc_spec in Hp as (-> & -> & _). done.
  - by apply alloc_spec in Hp as ->.
  - split_and!; simpl.
    + intros k' h' o Ho. assert (peer_table k' (disc p) !! h' = Some o) as Hx by (by destruct k, k'). destruct k; simpl; eauto.
    + intros k' h' x Hx. destruct (decide (k' = k)) as [->|Hne].
      * assert (<[h := s]> (generic_table k (disc p)) !! h' = Some x) as Hy by (by destruct k).
        apply lookup_insert_Some in Hy as [[<- <-]|[_ Hy]]; eauto.
      * apply (T2 k' h' x). by destruct k, k'.
    + by destruct k.
Qed.

Lemma call_ok_mono p p' pc :
  (forall s x, sessions p !! s = Some x -> sessions p' !! s = Some x) -> closed p ⊆ closed p' -> created p ⊆ created p' ->
  call_ok p pc -> call_ok p' pc.
Proof. intros Hs Hc Hcr. destruct pc; simpl; try done; try apply Hs; set_solver. Qed.

Lemma goes_on_calls p pc pc' p' :
  goes_on p pc (pc', p') ->
  (forall s x, sessions p !! s = Some x -> sessions p' !! s = Some x) /\ closed p ⊆ closed p' /\ created p ⊆ created p' /\
  (call_ok p pc -> call_ok p' pc').
Proof.
  intros Hg. inversion Hg; subst; simpl; (split; [try done; intros; by apply lookup_app_l_Some|]);
    (split; [set_solver|]); (split; [done|]); try done; intros; try set_solver;
    rewrite lookup_app_r, Nat.sub_diag by done; done.
Qed.

Lemma goes_on_inv p i pc pc' p' :
  disc_inv p -> calls p !! i = Some pc -> goes_on p pc (pc', p') -> disc_inv (goto i pc' p').
Proof.
  intros Hi Hc Hg. destruct (goes_on_effect p i pc pc' p' Hi Hc Hg) as (Ec & Ecl & Eo & Eh).
  destruct (goes_on_calls p pc pc' p' Hg) as (Gs & _ & Gc & Gk).
  destruct (concat_goto held_by (calls p) i pc pc' Hc) as (r1 & R1 & R1').
  destruct (concat_goto pending_handle (calls p) i pc pc' Hc) as (r2 & R2 & R2').
  apply (own_change_frame _ _ r1) in Eo. apply (handle_change_frame _ _ r2) in Eh.
  assert (own_change (holders p) (holders (goto i pc' p')) p (goto i pc' p')) as Ho.
  { unfold holders; simpl. rewrite Ec, R1, R1', !app_assoc. exact Eo. }
  assert (handle_change (handles p) (handles (goto i pc' p')) p (goto i pc' p')) as Hh.
  { unfold handles; simpl. rewrite Ec, R2, R2', !app_assoc. exact Eh. }
  destruct (own_preserved p (goto i pc' p') Ho Ecl Hi) as (A1 & A2 & A3).
  destruct (handles_preserved p (goto i pc' p') Hh Hi) as (B1 & B2 & B3 & B4).
  pose proof (di_calls _ Hi) as Hok. rewrite Forall_lookup in Hok.
  destruct (goes_on_tables p pc pc' p' Hi (Hok i pc Hc) Hg) as (T1 & T2 & T3).
  { split_and!; apply Hi. }
  split; try done. simpl. rewrite Ec. apply Forall_insert.
  - apply Forall_lookup. intros j x Hx. apply (call_ok_mono p); [done..|]. eauto.
  - apply Gk. eauto.
Qed.

(** A call that starts without a session, and one that has taken one out. *)
Lemma call_inv p pc :
  held_by pc = [] -> pending_handle pc = [] -> call_ok p pc -> disc_inv p -> disc_inv (call pc p).
Proof.
  intros Hh Hp Hk Hi.
  assert (holders (call pc p) = holders p) as Eh by (unfold holders; simpl; by rewrite fmap_app, concat_app; simpl; rewrite Hh, !app_nil_r).
  assert (handles (call pc p) = handles p) as Ep by (unfold handles; simpl; by rewrite fmap_app, concat_app; simpl; rewrite Hp, !app_nil_r).
  destruct Hi. split; rewrite ?Eh, ?Ep; simpl; auto. apply Forall_app. split; [|by repeat constructor].
  eapply Forall_impl; [exact di_calls0|]. intros x. by apply call_ok_mono.
Qed.

Lemma take_inv p h s d :
  shrinks (disc p) d -> items (disc p) ≡ₚ (h, s) :: items d -> disc_inv p -> disc_inv (call (PcDrop s) (set_disc d p)).
Proof.
  intros Hs Hp Hi.
  assert (holders (call (PcDrop s) (set_disc d p)) ≡ₚ holders p) as Eh.
  { unfold holders; simpl. rewrite Hp, fmap_app, concat_app. simpl. solve_Permutation. }
  assert (handles (call (PcDrop s) (set_disc d p)) ⊆+ handles p) as Ep.
  { unfold handles; simpl. rewrite Hp, fmap_app, concat_app. simpl. rewrite app_nil_r. by apply submseteq_cons. }
  destruct (tables_shrink p d) as (T1 & T2 & T3); [split_and!; apply Hi|done|].
  destruct Hs as (_ & Hcnt & _). destruct Hi. split; simpl; rewrite ?Hcnt; auto.
  - by rewrite Eh.
  - setoid_rewrite Eh. done.
  - setoid_rewrite Eh. done.
  - by etrans.
  - apply Forall_app. split; [|by repeat constructor]. eapply Forall_impl; [exact di_calls0|]. intros x. by apply call_ok_mono.
Qed.

Lemma disc_step_inv p p' : disc_step p p' -> disc_inv p -> disc_inv p'.
Proof.
  intros Hs Hi. destruct Hs as [p' Hb|i pc pc' p' Hc Hg]; [|by eapply goes_on_inv].
  destruct Hb as [ep Hep|k ep Hl|h o Ho|h o Ho|h s d Ht|ep Hl| |k|h s Hl|h s Hl|h s d Ht];
    try (by apply call_inv).
  - apply call_inv; [done|done|simpl; set_solver|]. destruct Hi. split; auto.
    + eapply Forall_impl; [exact di_calls0|]. intros x. apply call_ok_mono; simpl; [done|done|set_solver].
    + simpl. set_solver.
  - destruct (take_advertisement_removes _ _ _ _ Ht). by apply (take_inv p h).
  - destruct Hi. split; auto.
  - destruct (take_generic_removes _ _ _ _ Ht). by apply (take_inv p h).
Qed.

Lemma disc_inv0 : disc_inv proc0.
Proof.
  split; simpl; try done; try (intros [] ? ? [=]); try (by intros ? ?%not_elem_of_nil); try lia; try constructor.
Qed.

Lemma disc_reachable_inv p : rtc disc_step proc0 p -> disc_inv p.
Proof. intros Hr. apply (rtc_invariant disc_step disc_inv proc0 p disc_step_inv Hr disc_inv0). Qed.

(** ** Properties *)

Definition quiet (p : Proc) : Prop := Forall (fun pc => pc = PcDone) (calls p).

Lemma quiet_holders p : quiet p -> holders p = (items (disc p)).*2.
Proof.
  intros Hq. unfold holders. replace (concat (held_by <$> calls p)) with (@nil nat); [apply app_nil_r|].
  unfold quiet in Hq. induction Hq as [|x l Hx Hq IH]; [done|]. rewrite fmap_cons, Hx. exact IH.
Qed.

Lemma item_entry st s : s ∈ (items st).*2 ->
  (exists k h o, peer_table k st !! h = Some o /\ resource o = s) \/ (exists k h, generic_table k st !! h = Some s).
Proof.
  intros ([h x] & -> & Hx)%list_elem_of_fmap. unfold items, owned_items in Hx. rewrite !elem_of_app in Hx. simpl.
  destruct Hx as [([h' o] & [= -> ->] & Ho%elem_of_map_to_list)%list_elem_of_fmap|[([h' o] & [= -> ->] & Ho%elem_of_map_to_list)%list_elem_of_fmap|[Ho%elem_of_map_to_list|Ho%elem_of_map_to_list]]].
  - left. by exists Browse, h', o.
  - left. by exists Advertise, h', o.
  - right. by exists Browse, h.
  - right. by exists Advertise, h.
Qed.

Lemma quiet_closed p s ep :
  disc_inv p -> quiet p -> sessions p !! s = Some (Some ep) -> ep ∉ active_endpoints (disc p) -> s ∈ closed p.
Proof.
  intros Hi Hq Hs Ha. destruct (di_covered _ Hi s) as [Hh|Hc]; [by eapply lookup_lt_Some| |done].
  rewrite quiet_holders in Hh by done. destruct (item_entry _ _ Hh) as [(k & h & o & Ho & <-)|(k & h & Ho)].
  - destruct (di_peer _ Hi k h o Ho) as [H1 H2]. congruence.
  - rewrite (di_generic _ Hi k h s Ho) in Hs. done.
Qed.

(** C11. However starts, polls, closes and endpoint closes are interleaved, every
    session that was started has exactly one owner, a table entry or a call that
    is about to publish or close it, until it is closed: none is lost and none
    is closed twice by its owners.  An entry of an endpoint exists only while
    the endpoint is active, no handle is issued twice, and when no call is
    running every session of an endpoint that is not active is closed. *)
Theorem discovery_sessions_accounted p :
  rtc disc_step proc0 p ->
  NoDup (holders p) /\
  (forall s, s < length (sessions p) -> s ∈ holders p \/ s ∈ closed p) /\
  (forall k h o, peer_table k (disc p) !! h = Some o ->
     endpoint o ∈ active_endpoints (disc p) /\ sessions p !! resource o = Some (Some (endpoint o))) /\
  NoDup (issued p) /\ (forall h, h ∈ handles p -> h ∈ issued p /\ (1 <= h < U32_MAX)%Z) /\
  (quiet p -> forall s ep, sessions p !! s = Some (Some ep) -> ep ∉ active_endpoints (disc p) -> s ∈ closed p).
Proof.
  intros Hr. pose proof (disc_reachable_inv p Hr) as Hi. split_and!; try apply Hi.
  - intros h Hh. pose proof (elem_of_submseteq _ _ _ Hh (di_handles _ Hi)) as Hx. split; [done|].
    apply (di_below _ Hi) in Hx. pose proof (di_counter _ Hi). lia.
  - intros Hq s ep. by apply quiet_closed.
Qed.

(** Not active, known, and with no activation on its way. *)
Definition retired (ep : Z) (p : Proc) : Prop :=
  ep ∈ created p /\ (ep ∉ active_endpoints (disc p)) /\ (PcActivate ep ∉ calls p).

Lemma retired_goto ep i pc p : retired ep p -> pc <> PcActivate ep -> retired ep (goto i pc p).
Proof.
  intros (R1 & R2 & R3) Hne. split_and!; simpl; try done. intros Hx. apply R3.
  apply list_elem_of_lookup in Hx as (j & Hj). destruct (decide (j = i)) as [->|Hji].
  - destruct (decide (i < length (calls p))).
    + rewrite list_lookup_insert_eq in Hj by done. congruence.
    + rewrite list_insert_ge in Hj by lia. by eapply list_elem_of_lookup_2.
  - rewrite list_lookup_insert_ne in Hj by done. by eapply list_elem_of_lookup_2.
Qed.

Lemma retired_disc ep d p :
  active_endpoints d ⊆ active_endpoints (disc p) -> retired ep p -> retired ep (set_disc d p).
Proof. intros Hs (R1 & R2 & R3). split_and!; simpl; try done. set_solver. Qed.

Lemma retired_step ep p p' : disc_step p p' -> retired ep p -> retired ep p'.
Proof.
  intros Hs Hr. pose proof Hr as (R1 & R2 & R3). destruct Hs as [p' Hb|i pc pc' p' Hc Hg].
  - assert (forall pc q, pc <> PcActivate ep -> retired ep q -> retired ep (call pc q)) as Hcall.
    { intros pc q Hne (Q1 & Q2 & Q3). split_and!; simpl; try done. rewrite elem_of_app, list_elem_of_singleton. naive_solver. }
    destruct Hb as [ep' Hep|k ep' Hl|h o Ho|h o Ho|h s d Ht|ep' Hl| |k|h s Hl|h s Hl|h s d Ht]; try (by apply Hcall).
    + apply Hcall; [by intros [= ->]|]. split_and!; simpl; try done. set_solver.
    + apply Hcall; [done|]. apply retired_disc; [|done]. apply take_advertisement_removes in Ht as [(-> & _) _]. done.
    + done.
    + apply Hcall; [done|]. apply retired_disc; [|done]. apply take_generic_removes in Ht as [(-> & _) _]. done.
  - apply retired_goto; [|by inversion Hg; subst].
    inversion Hg as [ep'| | |k ep' s h d Hp|k ep' s e d Hp| | | |h s| |h s| |ep' bs ads d Hp| | | | | |k s h d Hp|k s d Hp|k h s| | |h s| |h s];
      subst; try done.
    + assert (ep' <> ep) by (intros ->; apply R3; by eapply list_elem_of_lookup_2).
      split_and!; simpl; try done. set_solver.
    + unfold publish_peer in Hp. case_bool_decide; simpl in Hp; [|done].
      destruct (alloc_discovery_handle (disc p)) as [[x|] d'] eqn:E; [|done]. injection Hp as <- <-.
      apply alloc_spec in E as (_ & -> & _). apply (retired_disc ep _ p); [by destruct k|done].
    + apply publish_err_spec in Hp as ->. done.
    + apply retired_disc; [|done]. destruct (remove_same_peer_removes h s (disc p)) as [(-> & _) _]. done.
    + apply retired_disc; [|done]. destruct (remove_same_peer_removes h s (disc p)) as [(-> & _) _]. done.
    + apply retired_disc; [|done]. apply retire_spec in Hp as (_ & _ & -> & _). set_solver.
    + apply alloc_spec in Hp as (_ & -> & _). done.
    + apply alloc_spec in Hp as ->. done.
    + apply retired_disc; [by destruct k|done].
    + apply retired_disc; [|done]. destruct (remove_same_generic_removes h s (disc p)) as [(-> & _) _]. done.
    + apply retired_disc; [|done]. destruct (remove_same_generic_removes h s (disc p)) as [(-> & _) _]. done.
Qed.

(** Closing an endpoint is final for discovery: from the moment its resources
    are taken out, no later call, however it was interleaved with the close,
    publishes a session for it, and once the calls have returned every session
    ever started for it is closed. *)
Theorem discovery_retirement_final ep p p' :
  rtc disc_step proc0 p -> retired ep p -> rtc disc_step p p' ->
  (ep ∉ active_endpoints (disc p')) /\
  (forall k h o, peer_table k (disc p') !! h = Some o -> endpoint o <> ep) /\
  (quiet p' -> forall s, sessions p' !! s = Some (Some ep) -> s ∈ closed p').
Proof.
  intros Hr Hret Hr'. pose proof (disc_reachable_inv p' ltac:(by etrans)) as Hi.
  destruct (rtc_invariant disc_step (retired ep) p p' (retired_step ep) Hr' Hret) as (_ & Ha & _).
  split_and!; [done| |].
  - intros k h o Ho He. destruct (di_peer _ Hi k h o Ho) as [Hx _]. by rewrite He in Hx.
  - intros Hq s Hs. by apply (quiet_closed p' s ep).
Qed.

(** ** Witnesses *)

(** The next section of call [i] by rule [c], and a state that is the one sought. *)
Ltac go_on i c := eapply rtc_l; [eapply (step_goes_on _ i); [reflexivity|eapply c; reflexivity]|].
Ltac arrived := match goal with |- rtc _ ?a ?b => replace a with b by (by vm_compute) end; constructor.

(** A browse is started and published, its endpoint is closed and with it the
    browse. *)
Definition demo_published : Proc :=
  mkProc (mkDiscovery 2 {[ 7%Z ]} {[ 1%Z := mkOwned 7 0 ]} ∅ ∅ ∅) {[ 7%Z ]} {[ 7%Z ]} [Some 7%Z] ∅ [1%Z] [PcDone; PcDone].

Lemma demo_published_reached : rtc disc_step proc0 demo_published.
Proof.
  eapply rtc_l; [apply step_begins, (b_create _ 7); by vm_compute|].
  go_on 0 g_activate.
  eapply rtc_l; [apply step_begins, (b_start _ Browse 7); by vm_compute|].
  go_on 1 g_started.
  go_on 1 g_published.
  arrived.
Qed.

Lemma discovery_sessions_accounted_witness :
  quiet demo_published /\ NoDup (issued demo_published) /\
  (forall s, s < 1 -> s ∈ holders demo_published \/ s ∈ closed demo_published).
Proof.
  destruct (discovery_sessions_accounted demo_published demo_published_reached) as (_ & H1 & _ & H2 & _).
  split; [by repeat constructor|]. split; [exact H2|exact H1].
Defined.

(** After the close of endpoint 7 has taken out its browse. *)
Definition demo_closing : Proc :=
  mkProc (mkDiscovery 2 ∅ ∅ ∅ ∅ ∅) {[ 7%Z ]} {[ 7%Z ]} [Some 7%Z] ∅ [1%Z] [PcDone; PcDone; PcRetire 7 [0]].
Definition demo_closed : Proc :=
  mkProc (mkDiscovery 2 ∅ ∅ ∅ ∅ ∅) ∅ {[ 7%Z ]} [Some 7%Z] {[ 0 ]} [1%Z] [PcDone; PcDone; PcDone].

Lemma demo_closing_reached : rtc disc_step proc0 demo_closing.
Proof.
  etrans; [apply demo_published_reached|].
  eapply rtc_l; [apply step_begins, (b_close_endpoint _ 7); by vm_compute|].
  go_on 2 g_retire.
  arrived.
Qed.

Lemma demo_closed_after : rtc disc_step demo_closing demo_closed.
Proof.
  go_on 2 g_retire_close.
  go_on 2 g_endpoint_closed.
  go_on 2 g_remove.
  arrived.
Qed.

Lemma discovery_retirement_final_witness : quiet demo_closed /\ 0 ∈ closed demo_closed.
Proof.
  assert (quiet demo_closed) as Hq by (by repeat constructor). split; [exact Hq|].
  refine (proj2 (proj2 (discovery_retirement_final 7 demo_closing demo_closed demo_closing_reached _ demo_closed_after)) Hq 0 eq_refl).
  split_and!; [by vm_compute|by vm_compute|]. simpl. rewrite !elem_of_cons, elem_of_nil. naive_solver.
Defined.

(** Taking every endpoint out of the registry at once leaves its discovery
    resources: the browse of endpoint 7 stays published, and its close is
    refused because the endpoint is no longer known. *)
Theorem close_all_strands_discovery :
  let p := unregister_all demo_published in
  rtc disc_step proc0 p /\ quiet p /\ peer_browses (disc p) !! 1%Z = Some (mkOwned 7 0) /\ (0 ∉ closed p) /\
  close_args (Some 7%Z) (fun h => bool_decide (h ∈ live p)) =
    Err ("INVALID_HANDLE", "node closed or not found (handle 7)").
Proof.
  split_and!; [|by repeat constructor|by vm_compute..].
  eapply rtc_r; [apply demo_published_reached|]. apply step_begins, b_close_all.
Qed.
