(* ===== verification/DenoDispatch.v ===== *)
(** * Handlers of the Deno JSON dispatcher (iroh-http-deno/src/dispatch.rs)

    The handlers that work on the handle store of an endpoint: bodies, fetch
    tokens, fetch preparation, responses and sessions.  A handler finds its
    endpoint in the registry, calls the core, and answers with a value or with a
    code and a message.  Decoding of a payload is its result; what the network
    answers is an argument. *)

From stdpp Require Import base numbers list strings gmap fin_maps pretty.
From Stdlib Require Import ZArith Lia.
From S2P Require Import Prelude Errors Extern Net BodyChannel Handles Dispatcher Addr HostAdapter Sessions DenoServe DenoCall DiscoveryRegistry.

Open Scope string_scope.
Open Scope list_scope.

(** ** Payloads *)

Record RespondPayload := mkRespondPayload { rp_req_handle : Z; rp_status : Z; rp_headers : list (list string) }.
Record SessionConnectPayload := mkSessionConnect { sc_endpoint : Z; sc_node_id : string; sc_direct_addrs : option (list string) }.
Record SessionEndpointPayload := mkSessionEndpoint { se_endpoint : Z; se_session : Z }.
Record SessionClosePayload := mkSessionClose { cl_endpoint : Z; cl_session : Z; cl_code : option Z; cl_reason : option string }.
Record SessionDatagramPayload := mkSessionDatagram { dg_endpoint : Z; dg_session : Z; dg_data : string }.
Record RawFetchPayload := mkRawFetchPayload {
  rf_endpoint : Z;
  rf_options : RawFetchOptions;
  rf_req_body_handle : option Z;
  rf_fetch_token : option Z;
  rf_decompress : option bool
}.

(** What the handlers answer. *)
Inductive Reply :=
| VNull
| VEmpty
| VHandle (h : Z)
| VToken (t : Z)
| VChunk (base64 : option string)
| VSession (h : Z)
| VAccepted (h : Z) (node_id : string)
| VDuplex (d : FfiDuplexStream)
| VWrite (h : Z)
| VRead (h : Z)
| VClosed (i : CloseInfo)
| VData (base64 : string)
| VMaxSize (n : option Z).

(** ** Helpers *)

Definition err_core {A} (e : CoreError) : Answer A := Err (core_code (code e), message e).
Definition err_adapter {A} (e : AdapterInputError) : Answer A := Err (adapter_code e, adapter_message e).
Definition not_found {A} (h : Z) : Answer A :=
  err_code "INVALID_HANDLE" ("node closed or not found (handle " +:+ pretty h +:+ ")").

(** The answer of a core call: its value as a reply. *)
Definition core_answer {A} (f : A -> Reply) (r : Result A CoreError) : Answer Reply :=
  match r with Ok v => Ok (f v) | Err e => err_core e end.

Section dispatch.
Context {K : Type} {M : Type -> Type} `{SlotMap K M} {C : Type -> Type} `{Mpsc C}.
Context {Id Relay : Type} `{IrohNet Id Relay}.
Context (json_parse : string -> option NodeAddrInfo) (debug_str : string -> string).
(** [{}] of a number, and of the error of [SocketAddr] parsing for a text. *)
Context (show_f64 : f64 -> string) (addr_error : string -> string).
Context (utf8_lossy : Bytes -> string) (conn_error_text : ConnectionError -> string).
Context (status_ok : Z -> bool) (header_name_ok header_value_ok : string -> bool).
(** [base64] in both directions. *)
Context (b64_encode : Bytes -> string) (b64_decode : string -> Result Bytes string).

#[local] Abbreviation world := (World M C).
#[local] Abbreviation ffi := (@Ffi M C).
(** An answer, the calls with an effect outside the stores, and the state. *)
#[local] Abbreviation Outcome := (Answer Reply * list NetCall * ffi)%type.

(** [require_endpoint]: [raw] is what [as_u64] gives. *)
Definition require_endpoint (raw : option Z) (s : ffi) : Answer (nat * world) :=
  match raw with
  | None => err "missing endpointHandle"
  | Some h => match lookup_endpoint h s with Some x => Ok x | None => not_found h end
  end.

(** A handler that has found its endpoint. *)
Definition on_endpoint (raw : option Z) (op : world -> Answer Reply * list NetCall * world) (s : ffi) : Outcome :=
  match require_endpoint raw s with
  | Err e => (Err e, [], s)
  | Ok (ep, w) => let '(r, calls, w) := op w in (r, calls, set_world ep w s)
  end.

(** ... whose second argument is a number under [field]. *)
Definition with_number (field : string) (raw : option Z) (op : Z -> world -> Answer Reply * list NetCall * world) (w : world)
  : Answer Reply * list NetCall * world :=
  match raw with Some n => op n w | None => (err ("missing " +:+ field), [], w) end.

(** ... and one whose payload is a record. *)
Definition decoded {A} (p : Result A string) (f : A -> ffi -> Outcome) (s : ffi) : Outcome :=
  match p with Ok a => f a s | Err e => (err e, [], s) end.

(** ** Bodies and tokens *)

Definition alloc_body_writer_dispatch (now : Z) (eh : option Z) : ffi -> Outcome :=
  on_endpoint eh (fun w =>
    match alloc_body_writer now w with
    | (Err e, w) => (err_core e, [], w)
    | (Ok (handle, reader), w) => (Ok (VHandle handle), [], store_pending_reader now handle reader w)
    end).

Definition alloc_fetch_token_dispatch (now : Z) (eh : option Z) : ffi -> Outcome :=
  on_endpoint eh (fun w => let '(r, w) := alloc_fetch_token now w in (core_answer VToken r, [], w)).

Definition cancel_in_flight_dispatch (eh token : option Z) : ffi -> Outcome :=
  on_endpoint eh (with_number "token" token (fun t w => (Ok VEmpty, [], cancel_in_flight t w))).

(** [next_chunk_dispatch] when the read does not wait ([None] when it does). *)
Definition next_chunk_dispatch (now : Z) (eh handle : option Z) (s : ffi) : option Outcome :=
  match require_endpoint eh s with
  | Err e => Some (Err e, [], s)
  | Ok (ep, w) =>
      match handle with
      | None => Some (err "missing handle", [], s)
      | Some h =>
          match next_chunk now h w with
          | (Ready r, _, w) => Some (core_answer (fun c => VChunk (b64_encode <$> c)) r, [], set_world ep w s)
          | (Pending, _, _) => None
          end
      end
  end.

(** [chunk]: the payload's string, or why there is none; [None]: out of fuel. *)
Definition send_chunk_dispatch (now : Z) (eh handle : option Z) (chunk : Result string string)
  (envs : list (list EnvAct * list EnvAct)) (s : ffi) : option (Outcome * list Bytes) :=
  match require_endpoint eh s with
  | Err e => Some (Err e, [], s, [])
  | Ok (ep, w) =>
      match handle, chunk with
      | None, _ => Some (err "missing handle", [], s, [])
      | Some _, Err e => Some (err e, [], s, [])
      | Some h, Ok text =>
          match b64_decode text with
          | Err e => Some (err ("base64 decode: " +:+ e), [], s, [])
          | Ok bytes =>
              '(r, got, w) ← send_chunk now h bytes envs w;
              Some (core_answer (fun _ => VEmpty) r, [], set_world ep w s, got)
          end
      end
  end.

Definition finish_body_dispatch (eh handle : option Z) : ffi -> Outcome :=
  on_endpoint eh (with_number "handle" handle (fun h w =>
    let '(r, w) := finish_body h w in (core_answer (fun _ => VEmpty) r, [], w))).

Definition cancel_request_dispatch (eh handle : option Z) : ffi -> Outcome :=
  on_endpoint eh (with_number "handle" handle (fun h w => (Ok VEmpty, [], cancel_reader h w))).

(** ** Responses *)

Definition respond_dispatch (eh : option Z) (payload : Result RespondPayload string) : ffi -> Outcome :=
  on_endpoint eh (fun w =>
    match payload with
    | Err e => (err e, [], w)
    | Ok args =>
        match validate_header_rows (rp_headers args) with
        | Err e => (err_adapter e, [], w)
        | Ok headers =>
            let '(r, w) := respond status_ok header_name_ok header_value_ok debug_str (rp_req_handle args)
                             (rp_status args) headers w in
            (core_answer (fun _ => VEmpty) r, [], w)
        end
    end).

(** ** Fetch *)

(** [raw_fetch_impl] up to the call of [fetch]: what it is called with. *)
Record FetchCall := mkFetchCall {
  fc_options : FetchOptions;
  fc_reader : option BodyReader;
  fc_addrs : option (list SocketAddr);
  fc_token : option Z;
  fc_decompress : bool
}.
Definition raw_fetch_prepare (now : Z) (args : RawFetchPayload) (s : ffi) : Answer (nat * FetchCall) * ffi :=
  match lookup_endpoint (rf_endpoint args) s with
  | None => (not_found (rf_endpoint args), s)
  | Some (ep, w) =>
      match coerce_fetch_options show_f64 (rf_options args) with
      | Err e => (err_adapter e, s)
      | Ok opts =>
          let '(reader, w) :=
            match rf_req_body_handle args with
            | Some h => claim_pending_reader h w
            | None => (None, w)
            end in
          match parse_direct_addrs debug_str addr_error (fo_direct_addrs opts) with
          | Err e => (err e, set_world ep (match reader with Some r => drop_reader r w | None => w end) s)
          | Ok addrs =>
              let '(token, w) :=
                match rf_fetch_token args with
                | Some t => (Some t, w)
                | None => match alloc_fetch_token now w with (Ok t, w) => (Some t, w) | (Err _, w) => (None, w) end
                end in
              (Ok (ep, mkFetchCall opts reader addrs token (default true (rf_decompress args))), set_world ep w s)
          end
      end
  end.

(** ** Sessions *)

(** [Session::accept]: the remote id of a connection as text. *)
Definition session_accept_dispatch (now : Z) (eh : Result Z string) (incoming : option (Result (nat * Bytes) string))
  (remote_id : Z -> string) : ffi -> Outcome :=
  decoded eh (fun h => on_endpoint (Some h) (fun w =>
    let '(r, calls, w) := accept debug_str utf8_lossy now incoming w in
    (core_answer (fun o => match o with None => VNull | Some h => VAccepted h (remote_id h) end) r, calls, w))).

Definition session_connect_dispatch (now : Z) (p : Result SessionConnectPayload string)
  (dial : Id * list Relay * list SocketAddr -> Result nat string) : ffi -> Outcome :=
  decoded p (fun a => on_endpoint (Some (sc_endpoint a)) (fun w =>
    match parse_direct_addrs debug_str addr_error (sc_direct_addrs a) with
    | Err e => (err e, [], w)
    | Ok addrs =>
        let '(r, w) := connect json_parse now dial (sc_node_id a) addrs w in (core_answer VSession r, [], w)
    end)).

(** A handler on a session of an endpoint. *)
Definition on_session (p : Result SessionEndpointPayload string) (op : Z -> world -> Answer Reply * list NetCall * world)
  : ffi -> Outcome :=
  decoded p (fun a => on_endpoint (Some (se_endpoint a)) (op (se_session a))).

Definition session_create_bidi_stream_dispatch (now : Z) p (open_bi : Result unit string) : ffi -> Outcome :=
  on_session p (fun h w => let '(r, calls, w) := create_bidi_stream now h open_bi w in (core_answer VDuplex r, calls, w)).
Definition session_next_bidi_stream_dispatch (now : Z) p (accept_bi : Result unit ConnectionError) : ffi -> Outcome :=
  on_session p (fun h w => let '(r, calls, w) := next_bidi_stream conn_error_text now h accept_bi w in
    (core_answer (fun o => match o with Some d => VDuplex d | None => VNull end) r, calls, w)).
Definition session_create_uni_stream_dispatch (now : Z) p (open_uni : Result unit string) : ffi -> Outcome :=
  on_session p (fun h w => let '(r, calls, w) := create_uni_stream now h open_uni w in (core_answer VWrite r, calls, w)).
Definition session_next_uni_stream_dispatch (now : Z) p (accept_uni : Result unit ConnectionError) : ffi -> Outcome :=
  on_session p (fun h w => let '(r, calls, w) := next_uni_stream conn_error_text now h accept_uni w in
    (core_answer (fun o => match o with Some h => VRead h | None => VNull end) r, calls, w)).

Definition session_close_dispatch (p : Result SessionClosePayload string) : ffi -> Outcome :=
  decoded p (fun a => on_endpoint (Some (cl_endpoint a)) (fun w =>
    let '(r, calls) := close (cl_session a) (default 0%Z (cl_code a)) (default "" (cl_reason a)) w in
    (core_answer (fun _ => VEmpty) r, calls, w))).

(** [session.closed()], when the connection ends with [reason]. *)
Definition session_closed_dispatch p (reason : ConnectionError) : ffi -> Outcome :=
  on_session p (fun h w =>
    match closed_start h w with
    | inr i => (Ok (VClosed i), [], w)
    | inl _ => let '(i, w) := closed_finish utf8_lossy conn_error_text h reason w in (Ok (VClosed i), [], w)
    end).

Definition session_send_datagram_dispatch (p : Result SessionDatagramPayload string) (sent : Result unit SendDatagramError)
  : ffi -> Outcome :=
  decoded p (fun a => on_endpoint (Some (dg_endpoint a)) (fun w =>
    match b64_decode (dg_data a) with
    | Err e => (err ("base64 decode: " +:+ e), [], w)
    | Ok bytes => let '(r, calls) := send_datagram (dg_session a) bytes sent w in (core_answer (fun _ => VEmpty) r, calls, w)
    end)).
Definition session_recv_datagram_dispatch p (read : Result Bytes ConnectionError) : ffi -> Outcome :=
  on_session p (fun h w =>
    (core_answer (fun o => match o with Some b => VData (b64_encode b) | None => VNull end) (recv_datagram conn_error_text h read w), [], w)).
Definition session_max_datagram_size_dispatch p (conn_max : nat -> option Z) : ffi -> Outcome :=
  on_session p (fun h w => (core_answer VMaxSize (max_datagram_size h conn_max w), [], w)).

(** ** The rows of the table *)

(** A call of one of the methods that are one operation on a handle store, with
    what it is answered by the network. *)
Inductive Request :=
| AllocBodyWriter (eh : option Z)
| AllocFetchToken (eh : option Z)
| CancelInFlight (eh token : option Z)
| FinishBody (eh handle : option Z)
| CancelRequest (eh handle : option Z)
| Respond (eh : option Z) (payload : Result RespondPayload string)
| SessionAccept (eh : Result Z string) (incoming : option (Result (nat * Bytes) string)) (remote_id : Z -> string)
| SessionConnect (p : Result SessionConnectPayload string) (dial : Id * list Relay * list SocketAddr -> Result nat string)
| SessionCreateBidi (p : Result SessionEndpointPayload string) (open_bi : Result unit string)
| SessionNextBidi (p : Result SessionEndpointPayload string) (accept_bi : Result unit ConnectionError)
| SessionCreateUni (p : Result SessionEndpointPayload string) (open_uni : Result unit string)
| SessionNextUni (p : Result SessionEndpointPayload string) (accept_uni : Result unit ConnectionError)
| SessionClose (p : Result SessionClosePayload string)
| SessionClosed (p : Result SessionEndpointPayload string) (reason : ConnectionError)
| SessionSendDatagram (p : Result SessionDatagramPayload string) (sent : Result unit SendDatagramError)
| SessionRecvDatagram (p : Result SessionEndpointPayload string) (read : Result Bytes ConnectionError)
| SessionMaxDatagramSize (p : Result SessionEndpointPayload string) (conn_max : nat -> option Z).

(** The rows of [dispatch_table!] for these methods: the allocation of handles,
    [finishBody], [cancelRequest], [respond] and every row of the sessions.
    [nextChunk] and [rawFetch] wait in the middle and are not in a row here
    ([next_chunk_dispatch], [raw_fetch_prepare]); the rows for the serve queue,
    discovery, keys, path receivers and endpoint creation act on other state and
    are modelled with it. *)
Definition dispatch_store_rows (now : Z) (r : Request) : ffi -> Outcome :=
  match r with
  | AllocBodyWriter eh => alloc_body_writer_dispatch now eh
  | AllocFetchToken eh => alloc_fetch_token_dispatch now eh
  | CancelInFlight eh token => cancel_in_flight_dispatch eh token
  | FinishBody eh handle => finish_body_dispatch eh handle
  | CancelRequest eh handle => cancel_request_dispatch eh handle
  | Respond eh payload => respond_dispatch eh payload
  | SessionAccept eh incoming remote_id => session_accept_dispatch now eh incoming remote_id
  | SessionConnect p dial => session_connect_dispatch now p dial
  | SessionCreateBidi p open_bi => session_create_bidi_stream_dispatch now p open_bi
  | SessionNextBidi p accept_bi => session_next_bidi_stream_dispatch now p accept_bi
  | SessionCreateUni p open_uni => session_create_uni_stream_dispatch now p open_uni
  | SessionNextUni p accept_uni => session_next_uni_stream_dispatch now p accept_uni
  | SessionClose p => session_close_dispatch p
  | SessionClosed p reason => session_closed_dispatch p reason
  | SessionSendDatagram p sent => session_send_datagram_dispatch p sent
  | SessionRecvDatagram p read => session_recv_datagram_dispatch p read
  | SessionMaxDatagramSize p conn_max => session_max_datagram_size_dispatch p conn_max
  end.

End dispatch.

Arguments Request : clear implicits.
