(* ===== verification/DenoDispatchProps.v ===== *)
(** * Properties of the Deno handlers

    The handlers on a handle store work on the endpoint they name and no other,
    and refuse what they cannot decode or find without an effect; the two ways to
    respond agree on valid headers.  That they do the same as the other bindings,
    and what, is in HostCallsProps. *)

From stdpp Require Import base numbers list strings gmap fin_maps pretty.
From Stdlib Require Import ZArith Lia.
From S2P Require Import Prelude Errors Extern Net BodyChannel Handles HandlesFacts Dispatcher Addr HostAdapter Sessions DenoServe DenoCall DiscoveryRegistry DenoDispatch.

Open Scope string_scope.
Open Scope list_scope.

#[local] Opaque make_body_channel.

Section deno_dispatch.
Context {K : Type} {M : Type -> Type} `{SL : SlotMapLaws K M} {C : Type -> Type} `{ML : Mpsc C}.
Context {Id Relay : Type} `{IrohNet Id Relay}.
Context (json_parse : string -> option NodeAddrInfo) (debug_str : string -> string).
Context (show_f64 : f64 -> string) (addr_error : string -> string).
Context (utf8_lossy : Bytes -> string) (conn_error_text : ConnectionError -> string).
Context (status_ok : Z -> bool) (header_name_ok header_value_ok : string -> bool).
Context (b64_encode : Bytes -> string) (b64_decode : string -> Result Bytes string).

#[local] Abbreviation world := (World M C).
#[local] Abbreviation ffi := (@Ffi M C).
#[local] Abbreviation table := (dispatch_store_rows json_parse debug_str addr_error utf8_lossy conn_error_text
  status_ok header_name_ok header_value_ok b64_encode b64_decode).

(** ** Isolation *)

(** The handlers are one operation on the endpoint they name, or a refusal. *)
Definition request_endpoint (r : Request Id Relay) : option Z :=
  match r with
  | AllocBodyWriter eh | AllocFetchToken eh | CancelInFlight eh _ | FinishBody eh _ | CancelRequest eh _ | Respond eh _ => eh
  | SessionAccept (Ok h) _ _ => Some h
  | SessionConnect (Ok a) _ => Some (sc_endpoint a)
  | SessionCreateBidi (Ok a) _ | SessionNextBidi (Ok a) _ | SessionCreateUni (Ok a) _ | SessionNextUni (Ok a) _
  | SessionClosed (Ok a) _ | SessionRecvDatagram (Ok a) _ | SessionMaxDatagramSize (Ok a) _ => Some (se_endpoint a)
  | SessionClose (Ok a) => Some (cl_endpoint a)
  | SessionSendDatagram (Ok a) _ => Some (dg_endpoint a)
  | _ => None
  end.

Lemma on_endpoint_isolated eh op (s : ffi) :
  let '(ans, calls, s') := on_endpoint eh op s in
  match eh ≫= fun h => lookup_endpoint h s with
  | Some (ep, _) => endpoints s' = endpoints s /\ stream_errors s' = stream_errors s /\
      (forall ep', ep' <> ep -> worlds s' !! ep' = worlds s !! ep')
  | None => s' = s /\ calls = [] /\ exists code msg, ans = Err (code, msg)
  end.
Proof.
  unfold on_endpoint, require_endpoint. destruct eh as [h|]; simpl; [|split_and!; try done; by eexists _, _].
  destruct (lookup_endpoint h s) as [[ep w]|] eqn:E; [|split_and!; try done; by eexists _, _]. destruct (op w) as [[r calls] w']. simpl.
  split_and!; [done|done|]. intros ep' Hne. by rewrite list_lookup_insert_ne.
Qed.

(** A handler changes nothing outside the store of the endpoint its payload
    names; a payload that cannot be decoded or names no endpoint is answered
    with an error, without an effect and without a call to the network. *)
Theorem dispatch_isolated now r (s : ffi) :
  let '(ans, calls, s') := table now r s in
  match request_endpoint r ≫= fun h => lookup_endpoint h s with
  | Some (ep, _) => endpoints s' = endpoints s /\ stream_errors s' = stream_errors s /\
      (forall ep', ep' <> ep -> worlds s' !! ep' = worlds s !! ep')
  | None => s' = s /\ calls = [] /\ exists code msg, ans = Err (code, msg)
  end.
Proof.
  destruct r; simpl; try apply on_endpoint_isolated.
  all: match goal with p : Result _ string |- _ => destruct p as [a|e]; [apply on_endpoint_isolated|] end.
  all: split_and!; try done; by eexists _, _.
Qed.

(** ** Two ways to respond *)

Context (parse_rows : Bytes -> option (list (list string))).
#[local] Abbreviation symbol := (ffi_respond parse_rows status_ok header_name_ok header_value_ok debug_str).
#[local] Abbreviation handler := (respond_dispatch debug_str status_ok header_name_ok header_value_ok).

Lemma validate_rows_pairs rows hs : validate_rows rows = Ok hs -> header_pairs rows = hs.
Proof.
  revert hs. induction rows as [|row rows IH]; intros hs Hv; simpl in *; [by injection Hv as <-|].
  destruct row as [|name [|value [|x y]]]; try done.
  destruct (validate_bounded_string _ name _); [|done]. destruct (validate_bounded_string _ value _); [|done].
  destruct (validate_rows rows) as [pairs|]; [|done]. injection Hv as <-. simpl. f_equal. by apply IH.
Qed.

Lemma symbol_answer eh req status raw rows (s : ffi) ep w :
  lookup_endpoint eh s = Some (ep, w) -> in_null raw = false -> in_bytes raw <> [] -> parse_rows (in_bytes raw) = Some rows ->
  symbol eh req status raw s =
    let '(r, w) := respond status_ok header_name_ok header_value_ok debug_str req (as_u16 status) (header_pairs rows) w in
    (unit_rc r, set_world ep w s).
Proof.
  intros Hl Hn Hb Hp. unfold ffi_respond. rewrite Hl. unfold in_invalid. rewrite Hn, andb_false_r, Hp. simpl.
  destruct (len (in_bytes raw) =? 0)%Z eqn:E; [|done]. bool_to_prop. unfold len in E. by destruct (in_bytes raw).
Qed.

(** The synchronous symbol and the JSON handler respond alike when the status
    fits a [u16] and the header rows are valid: the same effect, and success on
    one side exactly when there is success on the other. *)
Theorem respond_paths_agree eh req status raw rows headers (s : ffi) ep w :
  lookup_endpoint eh s = Some (ep, w) -> in_null raw = false -> in_bytes raw <> [] -> parse_rows (in_bytes raw) = Some rows ->
  (0 <= status <= U16_MAX)%Z -> validate_header_rows rows = Ok headers ->
  let '(rc, s1) := symbol eh req status raw s in
  let '(ans, calls, s2) := handler (Some eh) (Ok (mkRespondPayload req status rows)) s in
  s1 = s2 /\ calls = [] /\ (rc = 0%Z <-> ans = Ok VEmpty) /\ (rc = (-1)%Z <-> exists e, ans = Err e).
Proof.
  intros Hl Hn Hb Hp Hst Hv. rewrite (symbol_answer eh req status raw rows s ep w Hl Hn Hb Hp).
  unfold respond_dispatch, on_endpoint, require_endpoint. rewrite Hl. simpl. rewrite Hv.
  unfold validate_header_rows in Hv. destruct (_ <? _)%Z; [done|]. rewrite (validate_rows_pairs _ _ Hv).
  unfold as_u16. rewrite Z.mod_small by (unfold U16_MAX in Hst; lia).
  destruct (respond _ _ _ _ _ _ _ _) as [[[]|e] w']; simpl; split_and!; try done; split; try done; try (intros [? [=]]).
  by eexists.
Qed.

(** Rows the handler refuses pass the symbol: a row that is not a pair is left
    out, and the response goes out without it. *)
Theorem respond_symbol_drops_rows eh req status raw row rest (s : ffi) ep w :
  lookup_endpoint eh s = Some (ep, w) -> in_null raw = false -> in_bytes raw <> [] ->
  parse_rows (in_bytes raw) = Some (row :: rest) -> length row <> 2 -> (0 <= status <= U16_MAX)%Z ->
  (exists e, handler (Some eh) (Ok (mkRespondPayload req status (row :: rest))) s = (Err e, [], set_world ep w s)) /\
  symbol eh req status raw s =
    let '(r, w) := respond status_ok header_name_ok header_value_ok debug_str req status (header_pairs rest) w in
    (unit_rc r, set_world ep w s).
Proof.
  intros Hl Hn Hb Hp Hrow Hst. split.
  - unfold respond_dispatch, on_endpoint, require_endpoint. rewrite Hl. simpl. unfold validate_header_rows.
    destruct (_ <? _)%Z; [by eexists|]. simpl. destruct row as [|a [|b [|c d]]]; [by eexists|by eexists|done|by eexists].
  - rewrite (symbol_answer eh req status raw (row :: rest) s ep w Hl Hn Hb Hp).
    unfold as_u16. rewrite Z.mod_small by (unfold U16_MAX in Hst; lia).
    replace (header_pairs (row :: rest)) with (header_pairs rest); [done|].
    destruct row as [|a [|b [|c d]]]; done.
Qed.

End deno_dispatch.

(** ** Witnesses *)

Definition demo_text (s : string) : string := s.
Definition demo_all_ok (_ : string) : bool := true.
Definition demo_status_ok (n : Z) : bool := ((100 <=? n) && (n <=? 999))%Z.
Definition demo_rows (b : Bytes) : option (list (list string)) :=
  if bool_decide (length b = 1) then Some [["x-id"; "1"]] else Some [["x-id"]; ["a"; "b"]].
Definition dispatch_cfg : StoreConfig := mkConfig 4 3 1000 2 5000.

(** A store with a pending response, in an endpoint that is registered. *)
Definition dispatch_opened : Z * World VecMap ChanView :=
  let '(c, w) := oneshot_channel (world_new dispatch_cfg) in
  match allocate_req_handle 0 c w with (Ok h, w) => (h, w) | (Err _, w) => (0%Z, w) end.
Definition dispatch_eps : Z * VecMap nat := insert_endpoint 0 (sm_with_key : VecMap nat).
Definition dispatch_ffi : @Ffi VecMap ChanView := mkFfi dispatch_eps.2 [dispatch_opened.2] ∅.

Lemma respond_paths_agree_witness :
  let '(rc, s1) := ffi_respond demo_rows demo_status_ok demo_all_ok demo_all_ok demo_text dispatch_eps.1 dispatch_opened.1 200
                     (mkRawIn false [Byte.x00]) dispatch_ffi in
  rc = 0%Z /\ (respond_dispatch demo_text demo_status_ok demo_all_ok demo_all_ok (Some dispatch_eps.1)
                 (Ok (mkRespondPayload dispatch_opened.1 200 [["x-id"; "1"]])) dispatch_ffi).2 = s1.
Proof.
  pose proof (respond_paths_agree demo_text demo_status_ok demo_all_ok demo_all_ok demo_rows dispatch_eps.1 dispatch_opened.1 200
    (mkRawIn false [Byte.x00]) [["x-id"; "1"]] [("x-id", "1")] dispatch_ffi 0 dispatch_opened.2 ltac:(by vm_compute) eq_refl ltac:(done) eq_refl
    ltac:(by vm_compute) eq_refl) as Ha.
  destruct (ffi_respond _ _ _ _ _ _ _ _ _ _) as [rc s1] eqn:E1.
  destruct (respond_dispatch _ _ _ _ _ _ _) as [[ans calls] s2] eqn:E2. destruct Ha as (-> & _ & Hrc & _).
  split; [|done]. apply Hrc. vm_compute in E2. by injection E2 as <- _ _.
Defined.

Lemma respond_symbol_drops_rows_witness :
  (ffi_respond demo_rows demo_status_ok demo_all_ok demo_all_ok demo_text dispatch_eps.1 dispatch_opened.1 200
     (mkRawIn false [Byte.x00; Byte.x00]) dispatch_ffi).1 = 0%Z.
Proof.
  destruct (respond_symbol_drops_rows demo_text demo_status_ok demo_all_ok demo_all_ok demo_rows dispatch_eps.1 dispatch_opened.1 200
    (mkRawIn false [Byte.x00; Byte.x00]) ["x-id"] [["a"; "b"]] dispatch_ffi 0 dispatch_opened.2 ltac:(by vm_compute) eq_refl ltac:(done) eq_refl
    ltac:(done) ltac:(by vm_compute)) as [_ ->].
  by vm_compute.
Defined.
