(* ===== verification/TauriDiscovery.v ===== *)
(** * Discovery commands of the Tauri plugin on desktop (iroh-http-tauri: commands.rs)

    Browse and advertise sessions are kept under handles in three locked slabs,
    and the ownership state says which page and endpoint they belong to.  A start
    captures its owner, starts the session, inserts it into a slab and then
    tracks it; a retirement takes the tracked sessions of its owners and closes
    them one by one.  These are separate locked sections, so a machine
    interleaves them.  A session is known by its identity; the fences that the
    shared ownership operations publish belong to the mobile build, and nothing
    here reads them. *)

From stdpp Require Import base numbers list strings gmap fin_maps relations.
From Stdlib Require Import ZArith Lia.
From S2P Require Import Prelude Extern Ownership TauriState.

Open Scope string_scope.
Open Scope list_scope.

(** ** Slabs *)

Inductive SlabName := BrowseSlab | AdvertiseSlab | GenericBrowseSlab.
#[global] Instance SlabName_eq_dec : EqDecision SlabName.
Proof. solve_decision. Defined.

(** Peer and generic advertisements share one slab. *)
Definition slab_of (kind : DiscoveryKind) : SlabName :=
  match kind with
  | BrowsePeers => BrowseSlab
  | AdvertisePeer | GenericAdvertise => AdvertiseSlab
  | GenericBrowse => GenericBrowseSlab
  end.

Record Slabs := mkSlabs {
  browse_slab : DiscoveryHandleMap nat;
  advertise_slab : DiscoveryHandleMap nat;
  generic_browse_slab : DiscoveryHandleMap nat
}.
Definition slabs_default : Slabs := mkSlabs handles_default handles_default handles_default.
Definition slab (n : SlabName) (s : Slabs) : DiscoveryHandleMap nat :=
  match n with
  | BrowseSlab => browse_slab s
  | AdvertiseSlab => advertise_slab s
  | GenericBrowseSlab => generic_browse_slab s
  end.
Definition set_slab (n : SlabName) (x : DiscoveryHandleMap nat) (s : Slabs) : Slabs :=
  match n with
  | BrowseSlab => mkSlabs x (advertise_slab s) (generic_browse_slab s)
  | AdvertiseSlab => mkSlabs (browse_slab s) x (generic_browse_slab s)
  | GenericBrowseSlab => mkSlabs (browse_slab s) (advertise_slab s) x
  end.

(** ** State *)

(** Where a command is between two of its sections. *)
Inductive Pc :=
| PcStart (kind : DiscoveryKind) (owner : DiscoveryOwner)
| PcInsert (kind : DiscoveryKind) (owner : DiscoveryOwner) (session : nat)
| PcTrack (kind : DiscoveryKind) (owner : DiscoveryOwner) (handle : Z)
| PcUndo (kind : DiscoveryKind) (owner : DiscoveryOwner) (handle : Z)
| PcNext (kind : DiscoveryKind) (handle : Z) (session : nat)
| PcNextEnd (kind : DiscoveryKind) (handle : Z) (session : nat)
| PcUntrack (kind : DiscoveryKind) (handle : Z)
| PcRetire (todo : list TrackedDiscovery)
| PcDone.

(** [owners]: the owner each session was started for; [closed]: sessions that
    were closed, dropped or have reported their end. *)
Record Desk := mkDesk {
  owned : OwnershipState;
  slabs : Slabs;
  owners : list DiscoveryOwner;
  closed : gset nat;
  calls : list Pc
}.
Definition desk0 : Desk := mkDesk state_default slabs_default [] ∅ [].

Definition set_owned x p := mkDesk x (slabs p) (owners p) (closed p) (calls p).
Definition set_slabs x p := mkDesk (owned p) x (owners p) (closed p) (calls p).
Definition close_session (s : nat) p := mkDesk (owned p) (slabs p) (owners p) ({[ s ]} ∪ closed p) (calls p).
Definition start_session (o : DiscoveryOwner) p := mkDesk (owned p) (slabs p) (owners p ++ [o]) (closed p) (calls p).
Definition call (pc : Pc) p := mkDesk (owned p) (slabs p) (owners p) (closed p) (calls p ++ [pc]).
Definition goto (i : nat) (pc : Pc) p := mkDesk (owned p) (slabs p) (owners p) (closed p) (<[i := pc]> (calls p)).

(** ** Sections *)

(** Inserting a started session; an exhausted slab drops it. *)
Definition insert_session (kind : DiscoveryKind) (owner : DiscoveryOwner) (s : nat) (p : Desk) : Pc * Desk :=
  match handles_insert s (slab (slab_of kind) (slabs p)) with
  | (Ok h, m) => (PcTrack kind owner h, set_slabs (set_slab (slab_of kind) m (slabs p)) p)
  | (Err _, _) => (PcDone, close_session s p)
  end.

Definition track_session (kind : DiscoveryKind) (owner : DiscoveryOwner) (h : Z) (p : Desk) : Pc * Desk :=
  match track owner kind h (owned p) with
  | (Ok _, st) => (PcDone, set_owned st p)
  | (Err _, st) => (PcUndo kind owner h, set_owned st p)
  end.

(** Taking a session out of its slab and closing it, under the slab's lock. *)
Definition remove_close (kind : DiscoveryKind) (h : Z) (p : Desk) : Desk :=
  let '(s, m) := handles_remove h (slab (slab_of kind) (slabs p)) in
  let p := set_slabs (set_slab (slab_of kind) m (slabs p)) p in
  match s with Some s => close_session s p | None => p end.

(** [browse_peers_close] and the other closes: the lock of the slab is held from
    the untracking to the removal, so nothing reaches the slab in between. *)
Definition close_handle (kind : DiscoveryKind) (h : Z) (p : Desk) : Desk :=
  match untrack kind h (owned p) with
  | (Some _, st) => remove_close kind h (set_owned st p)
  | (None, st) => set_owned st p
  end.

(** The end of a browse: [remove_if] compares pointers. *)
Definition remove_ended (kind : DiscoveryKind) (h : Z) (s : nat) (p : Desk) : Pc * Desk :=
  match handles_remove_if h (fun current => bool_decide (current = s)) (slab (slab_of kind) (slabs p)) with
  | (Some _, m) => (PcUntrack kind h, set_slabs (set_slab (slab_of kind) m (slabs p)) p)
  | (None, m) => (PcDone, set_slabs (set_slab (slab_of kind) m (slabs p)) p)
  end.

(** ** The machine *)

Definition is_peer (kind : DiscoveryKind) : bool :=
  match kind with BrowsePeers | AdvertisePeer => true | _ => false end.
Definition is_browse (kind : DiscoveryKind) : bool :=
  match kind with BrowsePeers | GenericBrowse => true | _ => false end.

(** The first section of each command.  A start that finds no current owner and
    a poll of an unknown handle are refused at once.  An endpoint is activated
    while it is not active: its handle comes fresh from the endpoint registry. *)
Inductive begins (p : Desk) : Desk -> Prop :=
| b_activate h st :
    (forall o, endpoints (owned p) !! h = Some o -> Ownership.active o = false) ->
    activate_endpoint h (owned p) = Some st -> begins p (set_owned st p)
| b_peer_start kind h label owner st :
    is_peer kind = true -> begin_peer h label (owned p) = (Some owner, st) ->
    begins p (call (PcStart kind owner) (set_owned st p))
| b_generic_start kind label owner st :
    is_peer kind = false -> begin_webview label (owned p) = (Some owner, st) ->
    begins p (call (PcStart kind owner) (set_owned st p))
| b_refused h label st :
    begin_peer h label (owned p) = (None, st) \/ begin_webview label (owned p) = (None, st) ->
    begins p (set_owned st p)
| b_next kind h s :
    is_browse kind = true -> handles_get h (slab (slab_of kind) (slabs p)) = Some s ->
    begins p (call (PcNext kind h s) p)
| b_close kind h : begins p (close_handle kind h p)
| b_retire_endpoint h r st :
    retire_endpoint h (owned p) = Some (r, st) -> begins p (call (PcRetire (r_sessions r)) (set_owned st p))
| b_next_webview now_active label r st :
    next_webview now_active label (owned p) = Some (r, st) ->
    begins p (call (PcRetire (r_sessions r)) (set_owned st p))
| b_retire_all r st :
    retire_all (owned p) = Some (r, st) -> begins p (call (PcRetire (r_sessions r)) (set_owned st p)).

(** The next section of a command; what the discovery crate answers is free. *)
Inductive goes_on (p : Desk) : Pc -> Pc * Desk -> Prop :=
| g_start_fails kind owner : goes_on p (PcStart kind owner) (PcDone, p)
| g_started kind owner :
    goes_on p (PcStart kind owner) (PcInsert kind owner (length (owners p)), start_session owner p)
| g_insert kind owner s : goes_on p (PcInsert kind owner s) (insert_session kind owner s p)
| g_track kind owner h : goes_on p (PcTrack kind owner h) (track_session kind owner h p)
| g_undo kind owner h : goes_on p (PcUndo kind owner h) (PcDone, remove_close kind h p)
| g_event kind h s : goes_on p (PcNext kind h s) (PcDone, p)
| g_ended kind h s : goes_on p (PcNext kind h s) (PcNextEnd kind h s, close_session s p)
| g_remove_ended kind h s : goes_on p (PcNextEnd kind h s) (remove_ended kind h s p)
| g_untrack kind h : goes_on p (PcUntrack kind h) (PcDone, set_owned (untrack kind h (owned p)).2 p)
| g_retire_one t todo : goes_on p (PcRetire (t :: todo)) (PcRetire todo, remove_close (t_kind t) (t_handle t) p)
| g_retired : goes_on p (PcRetire []) (PcDone, p).

Inductive desk_step (p : Desk) : Desk -> Prop :=
| step_begins p' : begins p p' -> desk_step p p'
| step_goes_on i pc pc' p' : calls p !! i = Some pc -> goes_on p pc (pc', p') -> desk_step p (goto i pc' p').
