(* ===== verification/TauriDiscoveryProps.v ===== *)
(** * Tauri discovery on desktop: no session outlives its owner

    However the commands are interleaved with navigations, closes of endpoints
    and the closing of everything, a session that is open is in one slab under
    one handle and somebody answers for it: it is tracked for its owner, or a
    command is about to track or close it. *)

From stdpp Require Import base numbers list strings gmap fin_maps relations.
From Stdlib Require Import ZArith Lia.
From S2P Require Import Prelude Extern Ownership OwnershipProps TauriState TauriDiscovery.

Open Scope string_scope.
Open Scope list_scope.

(** ** Who answers for an entry *)

Definition entry (p : Desk) (n : SlabName) (h : Z) : option nat := entries (slab n (slabs p)) !! h.
Definition fresh (p : Desk) (n : SlabName) : Z := next (slab n (slabs p)).

Definition claims_of (pc : Pc) : list (SlabName * Z * DiscoveryOwner) :=
  match pc with
  | PcTrack k o h | PcUndo k o h => [(slab_of k, h, o)]
  | PcRetire todo => (fun t => (slab_of (t_kind t), t_handle t, t_owner t)) <$> todo
  | _ => []
  end.

(** The entry [h] of [n] is tracked for [o], or a command for [o] holds it. *)
Definition claimed (st : OwnershipState) (l : list Pc) (n : SlabName) (h : Z) (o : DiscoveryOwner) : Prop :=
  (exists k t, sessions st !! (k, h) = Some t /\ slab_of k = n /\ t_owner t = o) \/
  (exists pc, pc ∈ l /\ (n, h, o) ∈ claims_of pc).

Definition polls (pc : Pc) (k : DiscoveryKind) (h : Z) (s : nat) : Prop := pc = PcNext k h s \/ pc = PcNextEnd k h s.

Record inv (p : Desk) : Prop := {
  i_own : owners_ok (owned p);
  i_claim : forall n h o, claimed (owned p) (calls p) n h o ->
    (h < fresh p n)%Z /\ forall s, entry p n h = Some s -> owners p !! s = Some o;
  i_entry : forall n h s, entry p n h = Some s ->
    (h < fresh p n)%Z /\ s < length (owners p) /\ exists o, claimed (owned p) (calls p) n h o;
  i_where : forall s, s < length (owners p) ->
    s ∈ closed p \/ (exists n h, entry p n h = Some s) \/ (exists k o, PcInsert k o s ∈ calls p);
  i_insert : forall i k o s, calls p !! i = Some (PcInsert k o s) ->
    owners p !! s = Some o /\ (s ∉ closed p) /\ (forall n h, entry p n h <> Some s) /\
    forall j k' o', calls p !! j = Some (PcInsert k' o' s) -> i = j;
  i_inj : forall n h n' h' s, entry p n h = Some s -> entry p n' h' = Some s -> n = n' /\ h = h';
  i_poll : forall pc k h s, pc ∈ calls p -> polls pc k h s ->
    s < length (owners p) /\ (forall n' h', entry p n' h' = Some s -> n' = slab_of k /\ h' = h) /\
    forall k' o, PcInsert k' o s ∉ calls p;
  i_closed : forall n h s, s ∈ closed p -> entry p n h = Some s -> exists k, slab_of k = n /\ PcNextEnd k h s ∈ calls p;
  i_retire : forall todo t, PcRetire todo ∈ calls p -> t ∈ todo -> stale (owned p) (t_owner t);
  i_untrack : forall k h, PcUntrack k h ∈ calls p -> (h < fresh p (slab_of k))%Z /\ entry p (slab_of k) h = None;
  i_ended : forall k h s, PcNextEnd k h s ∈ calls p -> s ∈ closed p;
  i_old : forall s, s ∈ closed p -> s < length (owners p)
}.

(** ** Lists of commands *)

Lemma goto_elem i pc pc' old (l : list Pc) :
  l !! i = Some old -> pc ∈ <[i := pc']> l -> pc = pc' \/ pc ∈ l.
Proof.
  intros Hi [j Hj]%list_elem_of_lookup_1. apply list_lookup_insert_Some in Hj as [(_ & -> & _)|[_ Hj]]; [by left|].
  right. by eapply list_elem_of_lookup_2.
Qed.

Lemma goto_new i pc' old (l : list Pc) : l !! i = Some old -> pc' ∈ <[i := pc']> l.
Proof. intros Hi. eapply list_elem_of_lookup_2, list_lookup_insert_eq. by eapply lookup_lt_Some. Qed.

Lemma goto_keeps i pc pc' old (l : list Pc) : l !! i = Some old -> pc ∈ l -> pc <> old -> pc ∈ <[i := pc']> l.
Proof.
  intros Hi [j Hj]%list_elem_of_lookup_1 Hne. apply (list_elem_of_lookup_2 _ j). rewrite list_lookup_insert_ne; [done|]. congruence.
Qed.

(** A command moves on: its claims are those given up and those taken. *)
Lemma claimed_goto st i pc' old l n h o :
  l !! i = Some old -> claimed st (<[i := pc']> l) n h o -> claimed st l n h o \/ (n, h, o) ∈ claims_of pc'.
Proof.
  intros Hi [Ht|(pc & Hpc & Hc)]; [by left; left|].
  destruct (goto_elem _ _ _ _ _ Hi Hpc) as [->|?]; [by right|]. left. right. eauto.
Qed.

Lemma claimed_goto_keeps st i pc' old l n h o :
  l !! i = Some old -> claimed st l n h o -> ((n, h, o) ∈ claims_of old -> (n, h, o) ∈ claims_of pc' \/ claimed st (<[i := pc']> l) n h o) ->
  claimed st (<[i := pc']> l) n h o.
Proof.
  intros Hi [Ht|(pc & Hpc & Hc)] Hold; [by left|]. apply list_elem_of_lookup_1 in Hpc as [j Hj].
  destruct (decide (j = i)) as [->|Hne].
  - assert (pc = old) as -> by congruence. destruct (Hold Hc) as [Hn|?]; [|done]. right. exists pc'. split; [|done].
    by eapply goto_new.
  - right. exists pc. split; [|done]. apply (list_elem_of_lookup_2 _ j). by rewrite list_lookup_insert_ne.
Qed.

Lemma claimed_mono st st' l l' n h o :
  (forall k t, sessions st !! (k, h) = Some t -> sessions st' !! (k, h) = Some t) -> (forall pc, pc ∈ l -> pc ∈ l') ->
  claimed st l n h o -> claimed st' l' n h o.
Proof. intros Hs Hl [(k & t & H1 & H2)|(pc & H1 & H2)]; [left|right]; eauto 10. Qed.

(** ** Slabs *)

Lemma slab_set n n' x s : slab n' (set_slab n x s) = if decide (n = n') then x else slab n' s.
Proof. by destruct n, n'. Qed.

Lemma entry_set n n' x p h :
  entry (set_slabs (set_slab n x (slabs p)) p) n' h = if decide (n = n') then entries x !! h else entry p n' h.
Proof. unfold entry. simpl. rewrite slab_set. by case_decide. Qed.

Lemma fresh_set n n' x p : fresh (set_slabs (set_slab n x (slabs p)) p) n' = if decide (n = n') then next x else fresh p n'.
Proof. unfold fresh. simpl. rewrite slab_set. by case_decide. Qed.

Lemma removed_spec k h p :
  let q := set_slabs (set_slab (slab_of k) (handles_remove h (slab (slab_of k) (slabs p))).2 (slabs p)) p in
  (forall n, fresh q n = fresh p n) /\
  (forall n h', entry q n h' = if decide (n = slab_of k /\ h' = h) then None else entry p n h').
Proof.
  simpl. split.
  - intros n. rewrite fresh_set. simpl. unfold fresh. case_decide; by subst.
  - intros n h'. rewrite entry_set. simpl. unfold entry. destruct (decide (slab_of k = n)) as [<-|Hn].
    + destruct (decide (h' = h)) as [->|Hh]; [rewrite decide_True by done; apply lookup_delete_eq|].
      rewrite decide_False by naive_solver. by rewrite lookup_delete_ne.
    + by rewrite decide_False by naive_solver.
Qed.

Lemma remove_close_spec k h p :
  let q := remove_close k h p in
  owned q = owned p /\ owners q = owners p /\ calls q = calls p /\ (forall n, fresh q n = fresh p n) /\
  (forall n h', entry q n h' = if decide (n = slab_of k /\ h' = h) then None else entry p n h') /\
  (forall s, s ∈ closed q <-> s ∈ closed p \/ entry p (slab_of k) h = Some s).
Proof.
  simpl. unfold remove_close, handles_remove. fold (entry p (slab_of k) h).
  set (q := set_slabs _ p).
  destruct (removed_spec k h p) as [Hf He]. fold q in Hf, He.
  destruct (entry p (slab_of k) h) as [s0|] eqn:E; simpl; split_and!; try done; intros s; simpl; set_solver.
Qed.

(** ** Steps that start and insert nothing *)

Lemma desk_inv_frame p p' :
  inv p -> owners_step (owned p) (owned p') -> owners p' = owners p -> (forall n, fresh p' n = fresh p n) ->
  (forall n h s, entry p' n h = Some s -> entry p n h = Some s) ->
  (forall n h s, entry p n h = Some s -> entry p' n h = Some s \/ s ∈ closed p') ->
  closed p ⊆ closed p' ->
  (forall s, s ∈ closed p' -> (s ∉ closed p) -> s < length (owners p) /\ (forall k o, PcInsert k o s ∉ calls p) /\
     forall n h, entry p' n h = Some s -> exists k, slab_of k = n /\ PcNextEnd k h s ∈ calls p') ->
  (forall n h o, claimed (owned p') (calls p') n h o -> claimed (owned p) (calls p) n h o) ->
  (forall n h s o, entry p' n h = Some s -> claimed (owned p) (calls p) n h o -> exists o', claimed (owned p') (calls p') n h o') ->
  (forall i k o s, calls p' !! i = Some (PcInsert k o s) <-> calls p !! i = Some (PcInsert k o s)) ->
  (forall pc k h s, pc ∈ calls p' -> polls pc k h s ->
     (exists pc', pc' ∈ calls p /\ polls pc' k h s) \/ entry p (slab_of k) h = Some s) ->
  (forall k h s, PcNextEnd k h s ∈ calls p -> entry p' (slab_of k) h = Some s -> PcNextEnd k h s ∈ calls p') ->
  (forall todo t, PcRetire todo ∈ calls p' -> t ∈ todo -> stale (owned p') (t_owner t)) ->
  (forall k h, PcUntrack k h ∈ calls p' ->
     PcUntrack k h ∈ calls p \/ (h < fresh p (slab_of k))%Z /\ entry p' (slab_of k) h = None) ->
  (forall k h s, PcNextEnd k h s ∈ calls p' -> PcNextEnd k h s ∈ calls p \/ s ∈ closed p') ->
  inv p'.
Proof.
  intros [Io Ic Ie Iw Ii Ij Ip Icl Ir Iu In Il] F1 F2 F3 F4 F5 F6 F7 F8 F9 F10 F11 F12 F13 F14 F15.
  assert (forall k o s, PcInsert k o s ∈ calls p' <-> PcInsert k o s ∈ calls p) as Hins.
  { intros k o s. split; intros [i Hi]%list_elem_of_lookup_1; apply (list_elem_of_lookup_2 _ i); by apply F10. }
  constructor.
  - apply F1.
  - intros n h o Hc. destruct (Ic n h o (F8 _ _ _ Hc)) as [H1 H2]. rewrite F3, F2. split; [done|]. eauto.
  - intros n h s He. destruct (Ie n h s (F4 _ _ _ He)) as (H1 & H2 & o & Ho). rewrite F3, F2. split_and!; try done. eauto.
  - rewrite F2. intros s Hs. destruct (Iw s Hs) as [Hc|[(n & h & He)|(k & o & Hk)]]; [left; set_solver| |].
    + destruct (F5 _ _ _ He); [right; left; eauto|by left].
    + right; right. exists k, o. by apply Hins.
  - intros i k o s Hi. apply F10 in Hi. destruct (Ii i k o s Hi) as (H1 & H2 & H3 & H4). rewrite F2. split_and!; [done| | |].
    + intros Hc. destruct (F7 s Hc H2) as (_ & H5 & _). by eapply H5, list_elem_of_lookup_2.
    + intros n h He. by eapply H3, F4.
    + intros j k' o' Hj. eapply H4. by apply F10.
  - intros n h n' h' s H1 H2. eapply Ij; eauto.
  - intros pc k h s Hpc Hp. rewrite F2. destruct (F11 _ _ _ _ Hpc Hp) as [(pc' & Hin & Hp')|He].
    + destruct (Ip _ _ _ _ Hin Hp') as (H1 & H2 & H3). split_and!; [done|eauto|]. intros k' o. by rewrite Hins.
    + destruct (Ie _ _ _ He) as (_ & Hlt & _). split_and!; [done| |].
      * intros n' h' He'. destruct (Ij _ _ _ _ _ He (F4 _ _ _ He')) as [-> ->]. done.
      * intros k' o. rewrite Hins. intros [i Hi]%list_elem_of_lookup_1. destruct (Ii _ _ _ _ Hi) as (_ & _ & H3 & _). by eapply H3.
  - intros n h s Hc He. destruct (decide (s ∈ closed p)) as [Hp|Hp]; [|by apply F7].
    destruct (Icl n h s Hp (F4 _ _ _ He)) as (k & <- & Hk). eauto.
  - done.
  - intros k h Hk. rewrite F3. destruct (F14 k h Hk) as [Hu|?]; [|done]. destruct (Iu k h Hu) as [H1 H2]. split; [done|].
    destruct (entry p' (slab_of k) h) eqn:E; [|done]. apply F4 in E. congruence.
  - intros k h s Hk. destruct (F15 k h s Hk) as [Hi|?]; [|done]. apply In in Hi. set_solver.
  - intros s Hs. rewrite F2. destruct (decide (s ∈ closed p)) as [|Hn]; [auto|]. by apply F7.
Qed.

(** A command that begins. *)
Lemma call_lookup pc pc' (l : list Pc) i : (l ++ [pc]) !! i = Some pc' <-> l !! i = Some pc' \/ i = length l /\ pc' = pc.
Proof.
  rewrite lookup_app_Some, list_lookup_singleton_Some. split.
  - intros [?|(? & ? & ->)]; [by left|right; split; [lia|done]].
  - intros [?|[-> ->]]; [by left|right; split_and!; [lia|lia|done]].
Qed.

Lemma call_elem pc pc' (l : list Pc) : pc' ∈ l ++ [pc] <-> pc' ∈ l \/ pc' = pc.
Proof. by rewrite elem_of_app, list_elem_of_singleton. Qed.

Lemma claimed_call st l pc n h o : claimed st (l ++ [pc]) n h o <-> claimed st l n h o \/ (n, h, o) ∈ claims_of pc.
Proof.
  unfold claimed. setoid_rewrite call_elem. split.
  - intros [?|(? & [?| ->] & ?)]; eauto.
  - intros [[?|(? & ? & ?)]|?]; eauto 10.
Qed.

(** The ownership state changes, but not what is tracked. *)
Lemma inv_owned_same p st :
  inv p -> owners_step (owned p) st -> sessions st = sessions (owned p) -> inv (set_owned st p).
Proof.
  intros Hp Hs He. pose proof Hp as [_ _ _ _ _ _ _ Icl Ir _ _ _].
  assert (forall n h o, claimed st (calls p) n h o <-> claimed (owned p) (calls p) n h o) as Hc
    by (intros; unfold claimed; by rewrite He).
  apply (desk_inv_frame p); simpl; try done; eauto.
  - intros n h o. by apply Hc.
  - intros n h s o _ Ho. exists o. by apply Hc.
  - intros todo t H1 H2. eapply stale_mono; [apply Hs|eauto].
Qed.

Definition quiet_pc (pc : Pc) : Prop :=
  match pc with PcInsert _ _ _ | PcRetire _ | PcUntrack _ _ | PcTrack _ _ _ | PcUndo _ _ _ | PcNextEnd _ _ _ => False | _ => True end.

Lemma inv_call p pc :
  inv p -> quiet_pc pc -> (forall k h s, polls pc k h s -> entry p (slab_of k) h = Some s) -> inv (call pc p).
Proof.
  intros Hp Hq He. pose proof Hp as [Io _ _ _ _ _ _ _ Ir _ _ _].
  assert (forall n h o, claimed (owned p) (calls p ++ [pc]) n h o <-> claimed (owned p) (calls p) n h o) as Hc.
  { intros. rewrite claimed_call. split; [intros [?|Hi]; [done|]|by left]. destruct pc; simpl in *; try done; by apply not_elem_of_nil in Hi. }
  apply (desk_inv_frame p); simpl; try done; eauto.
  - intros n h o. by apply Hc.
  - intros n h s o _ Ho. exists o. by apply Hc.
  - intros i k o s. rewrite call_lookup. split; [intros [?|[_ <-]]; done|by left].
  - intros pc' k h s. rewrite call_elem. intros [H1| ->] H2; [eauto|right; by apply He].
  - intros k h s Hk _. apply call_elem. by left.
  - intros todo t. rewrite call_elem. intros [H1| <-]; [by apply Ir|done].
  - intros k h. rewrite call_elem. intros [H1| <-]; [by left|done].
  - intros k h s. rewrite call_elem. intros [H1| <-]; [by left|done].
Qed.

Lemma desk_inv_retire p sel r st :
  inv p -> retires sel (owned p) r st -> inv (call (PcRetire (r_sessions r)) (set_owned st p)).
Proof.
  intros Hp Hr. pose proof Hp as [[Io Ig] _ _ _ _ _ _ _ Ir _ _ _]. destruct (retires_drains _ _ _ _ Hr) as [Dt Dk].
  assert (forall n h o, claimed st (calls p ++ [PcRetire (r_sessions r)]) n h o <-> claimed (owned p) (calls p) n h o) as Hc.
  { intros n h o. rewrite claimed_call. simpl. rewrite list_elem_of_fmap. split.
    - intros [[(k & t & H1 & H2)|?]|(t & [= -> -> ->] & Ht)]; [|by right|].
      + left. exists k, t. split; [|done]. by apply Dk in H1 as [? _].
      + apply Dt in Ht as (k & Hk & _). destruct (Io _ _ Hk) as [-> _]. left. eauto.
    - intros [(k & t & H1 & <- & <-)|?]; [|by left; right].
      destruct (sel (t_owner t)) eqn:E; [|left; left; exists k, t; split_and!; try done; by apply Dk].
      right. destruct (Io _ _ H1) as [[= -> ->] _]. exists t. split; [done|]. apply Dt. eauto. }
  apply (desk_inv_frame p); simpl; try done; eauto.
  - by eapply owners_retires.
  - intros n h o. by apply Hc.
  - intros n h s o _ Ho. exists o. by apply Hc.
  - intros i k o s. rewrite call_lookup. split; [intros [?|[_ ?]]; done|by left].
  - intros pc' k h s. rewrite call_elem. intros [H1| ->] H2; [eauto|by destruct H2].
  - intros k h s Hk _. apply call_elem. by left.
  - intros todo t. rewrite call_elem. intros [H1|[= ->]] H2.
    + eapply stale_mono; [by eapply retires_gens|eauto].
    + apply Dt in H2 as (k & Hk & Hs). destruct (Io _ _ Hk). by eapply retires_stale.
  - intros k h. rewrite call_elem. intros [H1|?]; [by left|done].
  - intros k h s. rewrite call_elem. intros [H1|?]; [by left|done].
Qed.

(** An entry is taken out and closed, by somebody who lets go of claims to it. *)
Lemma inv_remove p k h st l :
  inv p -> owners_step (owned p) st ->
  (forall n h' o, claimed st l n h' o -> claimed (owned p) (calls p) n h' o) ->
  (forall n h' o, (n <> slab_of k \/ h' <> h) -> claimed (owned p) (calls p) n h' o -> claimed st l n h' o) ->
  (forall i k o s, l !! i = Some (PcInsert k o s) <-> calls p !! i = Some (PcInsert k o s)) ->
  (forall pc k h s, pc ∈ l -> polls pc k h s -> pc ∈ calls p) ->
  (forall k h s, PcNextEnd k h s ∈ calls p -> PcNextEnd k h s ∈ l) ->
  (forall todo t, PcRetire todo ∈ l -> t ∈ todo -> stale st (t_owner t)) ->
  (forall k h, PcUntrack k h ∈ l -> PcUntrack k h ∈ calls p) ->
  let q := remove_close k h p in inv (mkDesk st (slabs q) (owners q) (closed q) l).
Proof.
  intros Hp Hs C1 C2 L1 L2 L3 L4 L5. destruct (remove_close_spec k h p) as (_ & Ew & _ & Ef & Ee & Ec). simpl.
  set (q := remove_close k h p) in *. set (p' := mkDesk _ _ _ _ _).
  pose proof Hp as [_ _ Ie _ Ii Ij _ _ _ _ _ _].
  assert (forall n h', entry p' n h' = entry q n h') as Hent by done.
  apply (desk_inv_frame p); try done.
  - intros n h' s. rewrite Hent, Ee. by case_decide.
  - intros n h' s He. rewrite Hent, Ee. simpl. case_decide as Hd; [|by left]. destruct Hd as [-> ->]. right. apply Ec. by right.
  - intros s. simpl. rewrite Ec. by left.
  - intros s Hc Hn. apply Ec in Hc as [?|He]; [done|]. split; [by apply Ie in He as (_ & ? & _)|]. split.
    + intros k' o [i Hi]%list_elem_of_lookup_1. destruct (Ii _ _ _ _ Hi) as (_ & _ & H3 & _). by eapply H3.
    + intros n h'. rewrite Hent, Ee. case_decide as Hd; [done|]. intros He'. destruct (Ij _ _ _ _ _ He He') as [<- <-]. naive_solver.
  - intros n h' s o. rewrite Hent, Ee. case_decide as Hd; [done|]. intros _ Ho. exists o. apply C2; [|done].
    destruct (decide (n = slab_of k)) as [->|]; [right|by left]. intros ->. by apply Hd.
  - intros pc k' h' s H1 H2. left. exists pc. split; [|done]. by eapply L2.
  - intros k' h' s H1 _. by apply L3.
  - intros k' h' H1. left. by apply L5.
  - intros k' h' s H1. left. eapply L2; [done|by right].
Qed.

(** ** Commands that move on *)

Definition letting_go (pc : Pc) : Prop :=
  match pc with PcStart _ _ | PcNext _ _ _ | PcRetire [] => True | _ => False end.

(** What a list of commands still holds after the command at [i] has moved on. *)
Lemma goto_inserts i pc' old (l : list Pc) :
  l !! i = Some old -> (forall k o s, old <> PcInsert k o s) -> (forall k o s, pc' <> PcInsert k o s) ->
  forall j k o s, <[i := pc']> l !! j = Some (PcInsert k o s) <-> l !! j = Some (PcInsert k o s).
Proof.
  intros Hi Ho Hn j k o s. rewrite list_lookup_insert_Some. split; [intros [(_ & He & _)|[_ ?]]; [by apply Hn in He|done]|].
  intros Hj. right. split; [|done]. intros ->. rewrite Hi in Hj. injection Hj as Hj. by apply Ho in Hj.
Qed.

Ltac moved Hi :=
  intros;
  repeat match goal with
  | H : _ ∈ <[_ := _]> _ |- _ => destruct (goto_elem _ _ _ _ _ Hi H) as [?|?]; clear H
  | H : polls _ _ _ _ |- _ => destruct H as [-> | ->]
  end; simplify_eq; try done; eauto.

Lemma inv_done p i old : inv p -> calls p !! i = Some old -> letting_go old -> inv (goto i PcDone p).
Proof.
  intros Hp Hi Hl. pose proof Hp as [Io _ _ _ _ _ _ _ Ir _ _ _].
  assert (claims_of old = []) as Hcl by (by destruct old as [| | | | | | |[]|]).
  assert (forall n h o, claimed (owned p) (<[i := PcDone]> (calls p)) n h o <-> claimed (owned p) (calls p) n h o) as Hc.
  { intros n h o. split; intros Hx.
    - destruct (claimed_goto _ _ _ _ _ _ _ _ Hi Hx) as [?|Hn]; [done|by apply not_elem_of_nil in Hn].
    - apply (claimed_goto_keeps _ _ _ _ _ _ _ _ Hi Hx). rewrite Hcl. by intros Hn%not_elem_of_nil. }
  apply (desk_inv_frame p); simpl; try done; eauto.
  - intros n h o. by apply Hc.
  - intros n h s o _ Ho. exists o. by apply Hc.
  - apply (goto_inserts i PcDone old); [done|by destruct old|done].
  - moved Hi; left; eexists; (split; [done|]); unfold polls; auto.
  - intros k h s Hk _. eapply goto_keeps; [done|done|]. by intros <-.
  - moved Hi.
  - moved Hi.
  - moved Hi.
Qed.

Lemma inv_ended p i k h s :
  inv p -> calls p !! i = Some (PcNext k h s) -> inv (goto i (PcNextEnd k h s) (close_session s p)).
Proof.
  intros Hp Hi. pose proof Hp as [Io _ _ _ _ _ Ip _ Ir _ _ _].
  destruct (Ip (PcNext k h s) k h s) as (H1 & H2 & H3); [by eapply list_elem_of_lookup_2|by left|].
  assert (forall n h' o, claimed (owned p) (<[i := PcNextEnd k h s]> (calls p)) n h' o <-> claimed (owned p) (calls p) n h' o) as Hc.
  { intros n h' o. split; intros Hx.
    - destruct (claimed_goto _ _ _ _ _ _ _ _ Hi Hx) as [?|Hn]; [done|by apply not_elem_of_nil in Hn].
    - apply (claimed_goto_keeps _ _ _ _ _ _ _ _ Hi Hx). by intros Hn%not_elem_of_nil. }
  apply (desk_inv_frame p); simpl; try done; eauto.
  - set_solver.
  - intros s' Hs Hn. assert (s' = s) as -> by set_solver. split; [done|]. split; [done|]. intros n h' He.
    destruct (H2 n h' He) as [-> ->]. exists k. split; [done|]. by eapply goto_new.
  - intros n h' o. by apply Hc.
  - intros n h' s' o _ Ho. exists o. by apply Hc.
  - by apply (goto_inserts i _ (PcNext k h s)).
  - intros pc k' h' s' Hpc Hpo. left. destruct (goto_elem _ _ _ _ _ Hi Hpc) as [->|?]; [|by exists pc].
    exists (PcNext k h s). split; [by eapply list_elem_of_lookup_2|]. destruct Hpo; simplify_eq. by left.
  - intros k' h' s' Hk _. by eapply goto_keeps.
  - moved Hi.
  - moved Hi.
  - moved Hi. right. set_solver.
Qed.

Lemma inv_untrack p i k h :
  inv p -> calls p !! i = Some (PcUntrack k h) -> inv (goto i PcDone (set_owned (untrack k h (owned p)).2 p)).
Proof.
  intros Hp Hi. pose proof Hp as [Io _ _ _ _ _ _ _ Ir Iu _ _].
  destruct (Iu k h) as [_ Hn]; [by eapply list_elem_of_lookup_2|].
  pose proof (owners_delete_session _ (k, h) Io) as Hs.
  apply (desk_inv_frame p); simpl; try done; eauto.
  - intros n h' o Hx. destruct (claimed_goto _ _ _ _ _ _ _ _ Hi Hx) as [[(k' & t & H1 & H2)|?]|Hn']; [|by right|by apply not_elem_of_nil in Hn'].
    left. exists k', t. split; [|done]. simpl in H1. by apply lookup_delete_Some in H1 as [_ ?].
  - intros n h' s o He Ho. exists o. change (entry p n h' = Some s) in He.
    apply (claimed_goto_keeps _ _ _ _ _ _ _ _ Hi); [|by intros Hn'%not_elem_of_nil].
    destruct Ho as [(k' & t & H1 & H2 & H3)|?]; [|by right]. left. exists k', t. split; [|done]. simpl.
    rewrite lookup_delete_ne; [done|]. intros [= -> ->]. congruence.
  - by apply (goto_inserts i _ (PcUntrack k h)).
  - moved Hi; left; eexists; (split; [done|]); unfold polls; auto.
  - intros k' h' s Hk _. by eapply goto_keeps.
  - intros todo t Ht Hin. eapply stale_mono; [apply Hs|]. moved Hi.
  - moved Hi.
  - moved Hi.
Qed.

Lemma inv_undo p i k o h :
  inv p -> calls p !! i = Some (PcUndo k o h) -> inv (goto i PcDone (remove_close k h p)).
Proof.
  intros Hp Hi. pose proof Hp as [Io _ _ _ _ _ _ _ Ir _ _ _].
  destruct (remove_close_spec k h p) as (Eo & _ & Ec & _).
  unfold goto. rewrite Eo, Ec. apply inv_remove; try done.
  - intros n h' o' Hx. destruct (claimed_goto _ _ _ _ _ _ _ _ Hi Hx) as [?|Hn]; [done|by apply not_elem_of_nil in Hn].
  - intros n h' o' Hne Hx. apply (claimed_goto_keeps _ _ _ _ _ _ _ _ Hi Hx). simpl. rewrite list_elem_of_singleton. naive_solver.
  - by apply (goto_inserts i _ (PcUndo k o h)).
  - moved Hi.
  - intros k' h' s Hk. by eapply goto_keeps.
  - moved Hi.
  - moved Hi.
Qed.

Lemma inv_retire_one p i t todo :
  inv p -> calls p !! i = Some (PcRetire (t :: todo)) -> inv (goto i (PcRetire todo) (remove_close (t_kind t) (t_handle t) p)).
Proof.
  intros Hp Hi. pose proof Hp as [Io _ _ _ _ _ _ _ Ir _ _ _].
  destruct (remove_close_spec (t_kind t) (t_handle t) p) as (Eo & _ & Ec & _).
  unfold goto. rewrite Eo, Ec. apply inv_remove; try done.
  - intros n h' o' Hx. destruct (claimed_goto _ _ _ _ _ _ _ _ Hi Hx) as [?|Hn]; [done|].
    right. exists (PcRetire (t :: todo)). split; [by eapply list_elem_of_lookup_2|]. by right.
  - intros n h' o' Hne Hx. apply (claimed_goto_keeps _ _ _ _ _ _ _ _ Hi Hx). simpl.
    intros [?|?]%elem_of_cons; [naive_solver|by left].
  - by apply (goto_inserts i _ (PcRetire (t :: todo))).
  - moved Hi.
  - intros k' h' s Hk. by eapply goto_keeps.
  - intros todo' t' Ht Hin. destruct (goto_elem _ _ _ _ _ Hi Ht) as [[= ->]|?]; [|by eapply Ir].
    eapply Ir; [by eapply list_elem_of_lookup_2|]. by right.
  - moved Hi.
Qed.

Lemma inv_close_handle p k h : inv p -> inv (close_handle k h p).
Proof.
  intros Hp. pose proof Hp as [Io _ _ _ _ _ _ _ Ir _ _ _]. unfold close_handle, untrack.
  pose proof (owners_delete_session _ (k, h) Io) as Hs. destruct (sessions (owned p) !! (k, h)) as [t|] eqn:E.
  - set (st := set_sessions _ _) in *. destruct (remove_close_spec k h p) as (_ & Ew & Ec & _).
    replace (remove_close k h (set_owned st p)) with
      (let q := remove_close k h p in mkDesk st (slabs q) (owners q) (closed q) (calls p)).
    2:{ unfold remove_close, handles_remove. simpl. by destruct (entries _ !! h). }
    apply inv_remove; try done.
    + intros n h' o [(k' & t' & H1 & H2)|?]; [|by right]. left. exists k', t'. split; [|done].
      simpl in H1. by apply lookup_delete_Some in H1 as [_ ?].
    + intros n h' o Hne [(k' & t' & H1 & H2 & H3)|?]; [|by right]. left. exists k', t'. split; [|done]. simpl.
      rewrite lookup_delete_ne; [done|]. intros [= -> ->]. naive_solver.
  - apply inv_owned_same; [done|done|]. simpl. by apply delete_id.
Qed.

Lemma inv_track p i k o h :
  inv p -> calls p !! i = Some (PcTrack k o h) ->
  let '(pc', p') := track_session k o h p in inv (goto i pc' p').
Proof.
  intros Hp Hi. pose proof Hp as [Io _ _ _ _ _ _ _ Ir _ _ _]. unfold track_session, track.
  assert (claimed (owned p) (calls p) (slab_of k) h o) as Hme.
  { right. exists (PcTrack k o h). split; [by eapply list_elem_of_lookup_2|]. simpl. by apply list_elem_of_singleton. }
  destruct (owner_is_current (owned p) o) eqn:E; simpl.
  - pose proof (owners_insert_session _ k h o E Io) as Hs. apply (desk_inv_frame p); simpl; try done; eauto.
    + intros n h' o' Hx. destruct (claimed_goto _ _ _ _ _ _ _ _ Hi Hx) as [[(k' & t & H1 & H2 & H3)|?]|Hn]; [|by right|by apply not_elem_of_nil in Hn].
      simpl in H1. apply lookup_insert_Some in H1 as [[[= <- <-] <-]|[_ H1]]; [|left; eauto]. simpl in *. by subst.
    + intros n h' s o' _ Hx. destruct (decide (n = slab_of k /\ h' = h)) as [[-> ->]|Hne].
      { exists o. left. exists k, (mkTracked k h o). simpl. by rewrite lookup_insert_eq. }
      exists o'. apply (claimed_goto_keeps _ _ _ _ _ _ _ _ Hi); [|simpl; rewrite list_elem_of_singleton; naive_solver].
      destruct Hx as [(k' & t & H1 & H2 & H3)|?]; [|by right]. left. exists k', t. split; [|done]. simpl.
      rewrite lookup_insert_ne; [done|]. intros [= -> ->]. naive_solver.
    + by apply (goto_inserts i _ (PcTrack k o h)).
    + moved Hi; left; eexists; (split; [done|]); unfold polls; auto.
    + intros k' h' s Hk _. by eapply goto_keeps.
    + moved Hi.
    + moved Hi.
    + moved Hi.
  - apply (desk_inv_frame p); simpl; try done; eauto.
    + intros n h' o' Hx. destruct (claimed_goto _ _ _ _ _ _ _ _ Hi Hx) as [?|Hn]; [done|]. simpl in Hn.
      apply list_elem_of_singleton in Hn. by simplify_eq.
    + intros n h' s o' _ Hx. exists o'. apply (claimed_goto_keeps _ _ _ _ _ _ _ _ Hi Hx). by left.
    + by apply (goto_inserts i _ (PcTrack k o h)).
    + moved Hi; left; eexists; (split; [done|]); unfold polls; auto.
    + intros k' h' s Hk _. by eapply goto_keeps.
    + moved Hi.
    + moved Hi.
    + moved Hi.
Qed.

Lemma inv_remove_ended p i k h s :
  inv p -> calls p !! i = Some (PcNextEnd k h s) ->
  let '(pc', p') := remove_ended k h s p in inv (goto i pc' p').
Proof.
  intros Hp Hi. pose proof Hp as [Io _ Ie _ _ Ij Ip _ Ir _ In _]. unfold remove_ended, handles_remove_if.
  assert (PcNextEnd k h s ∈ calls p) as Hin by (by eapply list_elem_of_lookup_2).
  destruct (Ip _ k h s Hin (or_intror eq_refl)) as (_ & Hs & _). pose proof (In _ _ _ Hin) as Hcl.
  assert (forall pc', claims_of pc' = [] -> forall n h' o,
    claimed (owned p) (<[i := pc']> (calls p)) n h' o <-> claimed (owned p) (calls p) n h' o) as Hc.
  { intros pc' Hpc n h' o. split; intros Hx.
    - destruct (claimed_goto _ _ _ _ _ _ _ _ Hi Hx) as [?|Hn]; [done|]. rewrite Hpc in Hn. by apply not_elem_of_nil in Hn.
    - apply (claimed_goto_keeps _ _ _ _ _ _ _ _ Hi Hx). by intros Hn%not_elem_of_nil. }
  fold (entry p (slab_of k) h).
  assert (forall m, m = slab (slab_of k) (slabs p) -> set_slabs (set_slab (slab_of k) m (slabs p)) p = p) as Hsame.
  { intros m ->. destruct p as [? []]. by destruct k. }
  assert (entry p (slab_of k) h <> Some s -> inv (goto i PcDone p)) as Hnone.
  { intros Hne. apply (desk_inv_frame p); simpl; try done; eauto.
    - intros n h' o. by apply Hc.
    - intros n h' s' o _ Ho. exists o. by apply Hc.
    - by apply (goto_inserts i _ (PcNextEnd k h s)).
    - moved Hi; left; eexists; (split; [done|]); unfold polls; auto.
    - intros k' h' s' Hk He. eapply goto_keeps; [done|done|]. intros [= -> -> ->]. by apply Hne.
    - moved Hi.
    - moved Hi.
    - moved Hi. }
  destruct (entry p (slab_of k) h) as [cur|] eqn:E; [case_bool_decide as Hcur; [subst cur|]|];
    [|rewrite Hsame by done; apply Hnone; congruence|rewrite Hsame by done; by apply Hnone].
  unfold handles_remove. fold (entry p (slab_of k) h). rewrite E.
  set (q := set_slabs _ p).
  destruct (removed_spec k h p) as [Hf He]. fold q in Hf, He.
  assert (forall n h', entry (goto i (PcUntrack k h) q) n h' = entry q n h') as Hg by done.
  apply (desk_inv_frame p); try done.
  - intros n h' s'. rewrite Hg, He. by case_decide.
  - intros n h' s' Hx. rewrite Hg, He. case_decide as Hd; [|by left]. destruct Hd as [-> ->]. right. by simplify_eq.
  - intros n h' o. by apply Hc.
  - intros n h' s' o _ Ho. exists o. by apply Hc.
  - by apply (goto_inserts i _ (PcNextEnd k h s)).
  - simpl. moved Hi; left; eexists; (split; [done|]); unfold polls; auto.
  - intros k' h' s' Hk. rewrite Hg, He. case_decide as Hd; [done|]. intros Hx. eapply goto_keeps; [done|done|].
    intros [= -> -> ->]. by apply Hd.
  - simpl. moved Hi.
  - intros k' h' Hk. simpl in Hk. destruct (goto_elem _ _ _ _ _ Hi Hk) as [[= -> ->]|?]; [right|by left].
    rewrite Hg, He, decide_True by done. split; [|done]. by apply Ie in E as [? _].
  - simpl. moved Hi.
Qed.

(** ** Starting and inserting *)

Lemma inv_started p i k o :
  inv p -> calls p !! i = Some (PcStart k o) -> inv (goto i (PcInsert k o (length (owners p))) (start_session o p)).
Proof.
  intros Hp Hi. pose proof Hp as [Io Ic Ie Iw Ii Ij Ip Icl Ir Iu In Il].
  assert (forall n h o', claimed (owned p) (<[i := PcInsert k o (length (owners p))]> (calls p)) n h o' <-> claimed (owned p) (calls p) n h o') as Hc.
  { intros n h o'. split; intros Hx.
    - destruct (claimed_goto _ _ _ _ _ _ _ _ Hi Hx) as [?|Hn]; [done|by apply not_elem_of_nil in Hn].
    - apply (claimed_goto_keeps _ _ _ _ _ _ _ _ Hi Hx). by intros Hn%not_elem_of_nil. }
  assert (forall s o', owners p !! s = Some o' -> (owners p ++ [o]) !! s = Some o') as Hl by (intros; by apply lookup_app_l_Some).
  assert (forall n h, entry p n h <> Some (length (owners p))) as Hnew by (intros n h (_ & ? & _)%Ie; lia).
  assert (forall j k' o' s, <[i := PcInsert k o (length (owners p))]> (calls p) !! j = Some (PcInsert k' o' s) ->
    j = i /\ k' = k /\ o' = o /\ s = length (owners p) \/ j <> i /\ calls p !! j = Some (PcInsert k' o' s)) as Hins.
  { intros j k' o' s [(-> & ? & _)|[? ?]]%list_lookup_insert_Some; [left; by simplify_eq|right; auto]. }
  constructor; simpl.
  - done.
  - intros n h o' Hx. apply Hc, Ic in Hx as [H1 H2]. split; [done|]. intros s He. by apply Hl, H2.
  - intros n h s He. destruct (Ie n h s He) as (H1 & H2 & o' & Ho). rewrite length_app. split_and!; [done|simpl; lia|]. exists o'. by apply Hc.
  - intros s. rewrite length_app. simpl. intros Hs. destruct (decide (s = length (owners p))) as [->|Hne].
    { right; right. exists k, o. by eapply goto_new. }
    destruct (Iw s) as [?|[?|(k' & o' & Hk)]]; [lia|by left|by right; left|]. right; right. exists k', o'. by eapply goto_keeps.
  - intros j k' o' s Hj. destruct (Hins _ _ _ _ Hj) as [(-> & -> & -> & ->)|[Hne Hj']].
    + split_and!.
      * by apply list_lookup_middle.
      * intros Hx%Il. lia.
      * done.
      * intros j k' o' Hj'. destruct (Hins _ _ _ _ Hj') as [(-> & _)|[_ Hx]]; [done|].
        destruct (Ii _ _ _ _ Hx) as (Hx' & _). apply lookup_lt_Some in Hx'. lia.
    + destruct (Ii _ _ _ _ Hj') as (H1 & H2 & H3 & H4). split_and!; [by apply Hl|done|done|]. intros j2 k2 o2 Hj2.
      destruct (Hins _ _ _ _ Hj2) as [(-> & -> & -> & ->)|[_ Hx]]; [|by eapply H4]. apply lookup_lt_Some in H1. lia.
  - done.
  - intros pc k' h s Hpc Hpo. destruct (goto_elem _ _ _ _ _ Hi Hpc) as [->|Hin]; [by destruct Hpo|].
    destruct (Ip _ _ _ _ Hin Hpo) as (H1 & H2 & H3). rewrite length_app. split_and!; [lia|done|]. intros k2 o2 Hx.
    destruct (goto_elem _ _ _ _ _ Hi Hx) as [[= -> -> ->]|?]; [lia|by eapply H3].
  - intros n h s H1 H2. destruct (Icl n h s H1 H2) as (k' & Hk & Hin). exists k'. split; [done|]. by eapply goto_keeps.
  - moved Hi.
  - moved Hi.
  - moved Hi.
  - intros s Hs%Il. rewrite length_app. lia.
Qed.

(** The command at [i] was the only one that held the session [s]. *)
Lemma insert_gone p i k o s pc' :
  inv p -> calls p !! i = Some (PcInsert k o s) -> (forall k o s, pc' <> PcInsert k o s) ->
  forall j k' o' s', <[i := pc']> (calls p) !! j = Some (PcInsert k' o' s') -> calls p !! j = Some (PcInsert k' o' s') /\ s' <> s.
Proof.
  intros Hp Hi Hpc j k' o' s' [(_ & ? & _)|[Hj Hx]]%list_lookup_insert_Some; [by edestruct Hpc|]. split; [done|].
  intros ->. apply Hj. destruct (i_insert p Hp _ _ _ _ Hi) as (_ & _ & _ & Hun). by eapply Hun.
Qed.

Lemma inserted_spec k s p :
  let h0 := fresh p (slab_of k) in
  let q := set_slabs (set_slab (slab_of k) (mkHandles (h0 + 1) (<[h0 := s]> (entries (slab (slab_of k) (slabs p))))) (slabs p)) p in
  (forall n h, entry q n h = if decide (n = slab_of k /\ h = h0) then Some s else entry p n h) /\
  (forall n, fresh q n = if decide (n = slab_of k) then (h0 + 1)%Z else fresh p n).
Proof.
  intros h0 q. split.
  - intros n h. unfold q. rewrite entry_set. simpl. unfold entry. destruct (decide (slab_of k = n)) as [<-|Hn].
    + destruct (decide (h = h0)) as [->|Hh]; [rewrite decide_True by done; apply lookup_insert_eq|].
      rewrite decide_False by naive_solver. by rewrite lookup_insert_ne.
    + by rewrite decide_False by naive_solver.
  - intros n. unfold q. rewrite fresh_set. simpl.
    destruct (decide (slab_of k = n)) as [<-|Hn]; [by rewrite decide_True|by rewrite decide_False by naive_solver].
Qed.

Lemma inv_inserted p i k o s q :
  inv p -> calls p !! i = Some (PcInsert k o s) ->
  owned q = owned p -> owners q = owners p -> closed q = closed p ->
  calls q = <[i := PcTrack k o (fresh p (slab_of k))]> (calls p) ->
  (forall n h, entry q n h = if decide (n = slab_of k /\ h = fresh p (slab_of k)) then Some s else entry p n h) ->
  (forall n, fresh q n = if decide (n = slab_of k) then (fresh p (slab_of k) + 1)%Z else fresh p n) ->
  inv q.
Proof.
  intros Hp Hi Eo Ew Ek El He Hf. pose proof Hp as [Io Ic Ie Iw Ii Ij Ip Icl Ir Iu In Il].
  destruct (Ii _ _ _ _ Hi) as (Ho & Hnc & Hne & Hun). pose proof (lookup_lt_Some _ _ _ Ho) as Hlt.
  pose proof (insert_gone _ _ _ _ _ (PcTrack k o (fresh p (slab_of k))) Hp Hi ltac:(done)) as Hins.
  set (h0 := fresh p (slab_of k)) in *.
  assert (forall n, (fresh p n <= fresh q n)%Z) as Hle by (intros n; rewrite Hf; case_decide; [subst; lia|lia]).
  assert (forall n h o', claimed (owned p) (<[i := PcTrack k o h0]> (calls p)) n h o' <-> claimed (owned p) (calls p) n h o' \/ n = slab_of k /\ h = h0 /\ o' = o) as Hc.
  { intros n h o'. split.
    - intros Hx. destruct (claimed_goto _ _ _ _ _ _ _ _ Hi Hx) as [?|Hn]; [by left|].
      simpl in Hn. apply list_elem_of_singleton in Hn. simplify_eq. by right.
    - intros [Hx|(-> & -> & ->)].
      + apply (claimed_goto_keeps _ _ _ _ _ _ _ _ Hi Hx). by intros Hn%not_elem_of_nil.
      + right. exists (PcTrack k o h0). split; [by eapply goto_new|]. simpl. by apply list_elem_of_singleton. }
  assert (entry p (slab_of k) h0 = None) as Hfree.
  { destruct (entry p (slab_of k) h0) eqn:E; [|done]. apply Ie in E as [? _]. lia. }
  constructor; rewrite ?Eo, ?Ew, ?Ek, ?El.
  - done.
  - intros n h o' [Hx|(-> & -> & ->)]%Hc.
    + destruct (Ic _ _ _ Hx) as [H1 H2]. split; [specialize (Hle n); lia|]. intros s'. rewrite He. case_decide as Hd; [|by apply H2].
      destruct Hd as [-> ->]. lia.
    + rewrite Hf, decide_True by done. split; [lia|]. intros s'. rewrite He, decide_True by done. by intros [= <-].
  - intros n h s'. rewrite He. case_decide as Hd.
    + destruct Hd as [-> ->]. intros [= <-]. rewrite Hf, decide_True by done. split_and!; [lia|done|]. exists o. apply Hc. by right.
    + intros Hx. destruct (Ie _ _ _ Hx) as (H1 & H2 & o' & Ho'). split_and!; [specialize (Hle n); lia|done|]. exists o'. apply Hc. by left.
  - intros s' Hs'. destruct (decide (s' = s)) as [->|Hne'].
    { right; left. exists (slab_of k), h0. by rewrite He, decide_True. }
    destruct (Iw s' Hs') as [?|[(n & h & Hx)|(k' & o' & Hk)]]; [by left| |].
    + right; left. exists n, h. rewrite He. case_decide as Hd; [|done]. destruct Hd as [-> ->]. congruence.
    + right; right. exists k', o'. eapply goto_keeps; [done|done|]. congruence.
  - intros j k' o' s' Hj. apply Hins in Hj as [Hj Hs']. destruct (Ii _ _ _ _ Hj) as (H1 & H2 & H3 & H4).
    split_and!; [done|done| |].
    + intros n h. rewrite He. case_decide; [congruence|done].
    + intros j2 k2 o2 Hj2. apply Hins in Hj2 as [Hj2 _]. by eapply H4.
  - intros n h n' h' s'. rewrite !He. case_decide as H1; case_decide as H2; [naive_solver| | |by apply Ij].
    + intros [= <-] Hx. by apply Hne in Hx.
    + intros Hx [= <-]. by apply Hne in Hx.
  - intros pc k' h s' Hpc Hpo. destruct (goto_elem _ _ _ _ _ Hi Hpc) as [->|Hin]; [by destruct Hpo|].
    destruct (Ip _ _ _ _ Hin Hpo) as (H1 & H2 & H3). split_and!; [done| |].
    + intros n' h'. rewrite He. case_decide as Hd; [|by apply H2]. intros [= <-].
      edestruct H3. by eapply list_elem_of_lookup_2.
    + intros k2 o2 Hx. destruct (goto_elem _ _ _ _ _ Hi Hx) as [?|?]; [done|by eapply H3].
  - intros n h s' Hs'. rewrite He. case_decide as Hd; [by intros [= <-]|]. intros Hx.
    destruct (Icl _ _ _ Hs' Hx) as (k' & Hk & Hin). exists k'. split; [done|]. by eapply goto_keeps.
  - moved Hi.
  - intros k' h Hx. destruct (goto_elem _ _ _ _ _ Hi Hx) as [?|Hx']; [done|]. destruct (Iu _ _ Hx') as [H1 H2].
    split; [specialize (Hle (slab_of k')); lia|]. rewrite He. case_decide as Hd; [|done]. destruct Hd as [Hd ->].
    rewrite Hd in H1. lia.
  - moved Hi.
  - done.
Qed.

Lemma inv_dropped p i k o s : inv p -> calls p !! i = Some (PcInsert k o s) -> inv (goto i PcDone (close_session s p)).
Proof.
  intros Hp Hi. pose proof Hp as [Io Ic Ie Iw Ii Ij Ip Icl Ir Iu In Il].
  destruct (Ii _ _ _ _ Hi) as (Ho & Hnc & Hne & Hun). pose proof (lookup_lt_Some _ _ _ Ho) as Hlt.
  pose proof (insert_gone _ _ _ _ _ PcDone Hp Hi ltac:(done)) as Hins.
  assert (forall n h o', claimed (owned p) (<[i := PcDone]> (calls p)) n h o' <-> claimed (owned p) (calls p) n h o') as Hc.
  { intros n h o'. split; intros Hx.
    - destruct (claimed_goto _ _ _ _ _ _ _ _ Hi Hx) as [?|Hn]; [done|by apply not_elem_of_nil in Hn].
    - apply (claimed_goto_keeps _ _ _ _ _ _ _ _ Hi Hx). by intros Hn%not_elem_of_nil. }
  constructor; simpl.
  - done.
  - intros n h o' Hx%Hc. by apply Ic.
  - intros n h s' Hx. destruct (Ie _ _ _ Hx) as (H1 & H2 & o' & Ho'). split_and!; [done|done|]. exists o'. by apply Hc.
  - intros s' Hs'. destruct (decide (s' = s)) as [->|Hne']; [left; set_solver|].
    destruct (Iw s' Hs') as [?|[?|(k' & o' & Hk)]]; [left; set_solver|by right; left|].
    right; right. exists k', o'. eapply goto_keeps; [done|done|]. congruence.
  - intros j k' o' s' Hj. apply Hins in Hj as [Hj Hs']. destruct (Ii _ _ _ _ Hj) as (H1 & H2 & H3 & H4).
    split_and!; [done|set_solver|done|]. intros j2 k2 o2 Hj2. apply Hins in Hj2 as [Hj2 _]. by eapply H4.
  - done.
  - intros pc k' h s' Hpc Hpo. destruct (goto_elem _ _ _ _ _ Hi Hpc) as [->|Hin]; [by destruct Hpo|].
    destruct (Ip _ _ _ _ Hin Hpo) as (H1 & H2 & H3). split_and!; [done|done|].
    intros k2 o2 Hx. destruct (goto_elem _ _ _ _ _ Hi Hx) as [?|?]; [done|by eapply H3].
  - intros n h s' Hs' Hx. assert (s' ∈ closed p) as Hs''.
    { apply elem_of_union in Hs' as [->%elem_of_singleton|?]; [by apply Hne in Hx|done]. }
    destruct (Icl _ _ _ Hs'' Hx) as (k' & Hk & Hin). exists k'. split; [done|]. by eapply goto_keeps.
  - moved Hi.
  - moved Hi.
  - intros k' h s' Hx. destruct (goto_elem _ _ _ _ _ Hi Hx) as [?|?%In]; [done|set_solver].
  - intros s' [->%elem_of_singleton|?]%elem_of_union; [done|by apply Il].
Qed.

Lemma inv_insert_step p i k o s :
  inv p -> calls p !! i = Some (PcInsert k o s) ->
  let '(pc', p') := insert_session k o s p in inv (goto i pc' p').
Proof.
  intros Hp Hi. unfold insert_session, handles_insert. fold (fresh p (slab_of k)).
  destruct (checked_add (fresh p (slab_of k)) 1) as [nx|] eqn:En; [|by eapply inv_dropped].
  assert (nx = fresh p (slab_of k) + 1)%Z as -> by (unfold checked_add in En; by case_match; simplify_eq).
  destruct (inserted_spec k s p) as [He Hf]. by eapply inv_inserted.
Qed.

(** ** Every step keeps the invariant *)

Lemma desk_inv_new : inv desk0.
Proof.
  assert (forall pc, pc ∉ calls desk0) as Hno by (intros pc; apply not_elem_of_nil).
  assert (forall n h, entry desk0 n h = None) as He by (intros [] h; apply lookup_empty).
  constructor; try (intros; rewrite ?He in *; done); try (intros; exfalso; by eapply Hno); try (simpl; intros; lia).
  - intros n h o [(k & t & Hk & _)|(pc & Hpc & _)]; [|by apply Hno in Hpc]. by change (sessions (owned desk0)) with (∅ : gmap (DiscoveryKind * Z) TrackedDiscovery) in Hk.
Qed.

(** What is shared with the ownership machine. *)
Lemma begin_step p st' :
  (exists h label, st' = (begin_peer h label (owned p)).2) \/ (exists label, st' = (begin_webview label (owned p)).2) ->
  owners_ok (owned p) -> owners_step (owned p) st' /\ sessions st' = sessions (owned p).
Proof.
  intros Hb Hok. destruct Hb as [(h & label & ->)|(label & ->)].
  - split; [by apply (step_owners (Ownership.mkMachine (owned p) ∅ [] []) _ (Ownership.step_begin_peer _ h label))|].
    unfold begin_peer. destruct (endpoints (owned p) !! h) as [e|]; [|done]. destruct (Ownership.active e); [|done]. simpl.
    destruct (webview_entry_spec label (owned p)) as (_ & _ & Hs & _). destruct (webview_entry label (owned p)) as [w st]. by destruct (Ownership.active w).
  - split; [by apply (step_owners (Ownership.mkMachine (owned p) ∅ [] []) _ (Ownership.step_begin_webview _ label))|].
    unfold begin_webview. destruct (webview_entry_spec label (owned p)) as (_ & _ & Hs & _).
    destruct (webview_entry label (owned p)) as [w st]. by destruct (Ownership.active w).
Qed.

Lemma inv_begins p p' : inv p -> begins p p' -> inv p'.
Proof.
  intros Hp Hb. pose proof (i_own p Hp) as Hok.
  destruct Hb as [h st Hin Ha|kind h label owner st Hk Hb|kind label owner st Hk Hb|h label st Hb|kind h s Hk Hg|kind h|h r st Hr|b label r st Hr|r st Hr].
  - apply inv_owned_same; [done|by eapply owners_activate|]. unfold activate_endpoint in Ha. case_match; by simplify_eq.
  - destruct (begin_step p st) as [H1 H2]; [left; exists h, label; by rewrite Hb|done|].
    apply inv_call; [by apply inv_owned_same|done|by intros ? ? ? []].
  - destruct (begin_step p st) as [H1 H2]; [right; exists label; by rewrite Hb|done|].
    apply inv_call; [by apply inv_owned_same|done|by intros ? ? ? []].
  - destruct (begin_step p st) as [H1 H2]; [|done|by apply inv_owned_same].
    destruct Hb as [Hb|Hb]; [left; exists h, label|right; exists label]; by rewrite Hb.
  - apply inv_call; [done|done|]. intros k' h' s' [[= -> -> ->]|?]; done.
  - by apply inv_close_handle.
  - eapply desk_inv_retire; [done|by eapply by_endpoint].
  - eapply desk_inv_retire; [done|by eapply by_webview].
  - eapply desk_inv_retire; [done|by eapply by_all].
Qed.

Lemma inv_goes_on p i pc pc' p' : inv p -> calls p !! i = Some pc -> goes_on p pc (pc', p') -> inv (goto i pc' p').
Proof.
  intros Hp Hi Hg. inversion Hg; subst; clear Hg.
  - by eapply inv_done.
  - by eapply inv_started.
  - pose proof (inv_insert_step p i kind owner s Hp Hi) as Hs. by match goal with E : _ = (pc', p') |- _ => rewrite E in Hs end.
  - pose proof (inv_track p i kind owner h Hp Hi) as Hs. by match goal with E : _ = (pc', p') |- _ => rewrite E in Hs end.
  - by eapply inv_undo.
  - by eapply inv_done.
  - by eapply inv_ended.
  - pose proof (inv_remove_ended p i kind h s Hp Hi) as Hs. by match goal with E : _ = (pc', p') |- _ => rewrite E in Hs end.
  - by eapply inv_untrack.
  - by eapply inv_retire_one.
  - by eapply inv_done.
Qed.

Lemma desk_inv p : rtc desk_step desk0 p -> inv p.
Proof.
  intros Hr. refine (rtc_invariant _ inv _ _ _ Hr desk_inv_new).
  intros x y [q Hb|i pc pc' q Hi Hg] Hx; [by eapply inv_begins|by eapply inv_goes_on].
Qed.

(** ** Theorems *)

Definition quiet (p : Desk) : Prop := Forall (fun pc => pc = PcDone) (calls p).

Lemma quiet_no p pc : quiet p -> pc ∈ calls p -> pc = PcDone.
Proof. intros Hq Hin. by eapply Forall_forall in Hq. Qed.

(** In a state without running commands somebody who claims an entry tracks it. *)
Lemma quiet_claim p n h o : quiet p -> claimed (owned p) (calls p) n h o ->
  exists k t, sessions (owned p) !! (k, h) = Some t /\ slab_of k = n /\ t_owner t = o.
Proof.
  intros Hq [?|(pc & Hpc & Hc)]; [done|]. rewrite (quiet_no _ _ Hq Hpc) in Hc. by apply not_elem_of_nil in Hc.
Qed.

(** C10. No session outlives its owner, and none is lost.  However the commands are
    interleaved with each other, with navigations, closes of endpoints and the
    closing of everything: an open session is in the hands of the command that
    started it, or in one slab under one handle, tracked for its owner or
    claimed by a command that will track or close it; a retirement closes only
    sessions of owners that are no longer current; and when no command is
    running, every session is either closed and in no slab, or open, in its slab
    and tracked for an owner that is current. *)
Theorem tauri_sessions_accounted (p : Desk) :
  rtc desk_step desk0 p ->
  (forall s o, owners p !! s = Some o -> (s ∉ closed p) ->
     (exists i k, calls p !! i = Some (PcInsert k o s)) \/
     (exists n h, entry p n h = Some s /\ (forall n' h', entry p n' h' = Some s -> n' = n /\ h' = h) /\
        claimed (owned p) (calls p) n h o)) /\
  (forall i t todo s, calls p !! i = Some (PcRetire (t :: todo)) -> entry p (slab_of (t_kind t)) (t_handle t) = Some s ->
     exists o, owners p !! s = Some o /\ owner_is_current (owned p) o = false) /\
  (quiet p -> forall s o, owners p !! s = Some o ->
     s ∈ closed p /\ (forall n h, entry p n h <> Some s) \/
     (s ∉ closed p) /\ owner_is_current (owned p) o = true /\
       exists k h t, entry p (slab_of k) h = Some s /\ sessions (owned p) !! (k, h) = Some t /\ t_owner t = o).
Proof.
  intros Hr. pose proof (desk_inv p Hr) as [[Io _] Ic Ie Iw Ii Ij _ Icl Ir _ _ _].
  assert (forall n h s o, entry p n h = Some s -> owners p !! s = Some o -> claimed (owned p) (calls p) n h o) as Hown.
  { intros n h s o He Ho. destruct (Ie _ _ _ He) as (_ & _ & o' & Ho'). destruct (Ic _ _ _ Ho') as [_ Hx].
    rewrite (Hx _ He) in Ho. by injection Ho as <-. }
  split_and!.
  - intros s o Ho Hn. destruct (Iw s) as [?|[(n & h & He)|(k & o' & [i Hi]%list_elem_of_lookup_1)]]; [by eapply lookup_lt_Some|done| |].
    + right. exists n, h. split_and!; [done| |by eapply Hown]. intros n' h' He'. by destruct (Ij _ _ _ _ _ He He') as [-> ->].
    + left. exists i, k. destruct (Ii _ _ _ _ Hi) as (Ho' & _). congruence.
  - intros i t todo s Hi He. apply list_elem_of_lookup_2 in Hi as Hin.
    assert (claimed (owned p) (calls p) (slab_of (t_kind t)) (t_handle t) (t_owner t)) as Hc.
    { right. exists (PcRetire (t :: todo)). split; [done|]. simpl. by left. }
    destruct (Ic _ _ _ Hc) as [_ Hx]. exists (t_owner t). split; [by apply Hx|]. eapply stale_not_current, Ir; [done|by left].
  - intros Hq s o Ho. destruct (decide (s ∈ closed p)) as [Hc|Hn].
    + left. split; [done|]. intros n h He. destruct (Icl _ _ _ Hc He) as (k & _ & Hin). by apply (quiet_no _ _ Hq) in Hin.
    + right. split; [done|]. destruct (Iw s) as [?|[(n & h & He)|(k & o' & Hin)]]; [by eapply lookup_lt_Some|done| |by apply (quiet_no _ _ Hq) in Hin].
      destruct (quiet_claim _ _ _ _ Hq (Hown _ _ _ _ He Ho)) as (k & t & Ht & <- & Hto).
      split; [rewrite <- Hto; by destruct (Io _ _ Ht)|eauto 10].
Qed.

(** ** Witness *)

Lemma step_run p i pc r : calls p !! i = Some pc -> goes_on p pc r -> desk_step p (goto i r.1 r.2).
Proof. destruct r. apply step_goes_on. Qed.

Ltac settle := match goal with |- rtc _ ?a _ => let b := eval vm_compute in a in change a with b end.
Ltac go_on i c := eapply rtc_l; [eapply (step_run _ i); [reflexivity|apply c]|]; settle.
Ltac begin c := eapply rtc_l; [apply step_begins; eapply c; by vm_compute|]; settle.

(** A page browses for peers of endpoint 7 and navigates away while a second
    browse is starting: the first is closed by the retirement, the second by its
    own command. *)
Definition owner7 : DiscoveryOwner := Peer 7 1 "main" 1.
Definition demo_steps : Desk :=
  mkDesk (mkState ∅ ∅ 0 {[ 7%Z := mkGeneration 1 true ]} {[ "main" := mkGeneration 2 true ]} {[ "main" := 0 ]} [] [mkFence "main" None [] None])
    (mkSlabs (mkHandles 3 ∅) handles_default handles_default) [owner7; owner7] {[ 0; 1 ]} [PcDone; PcDone; PcDone].

Lemma demo_steps_reached : rtc desk_step desk0 demo_steps.
Proof.
  begin (b_activate desk0 7).
  begin (fun p => b_peer_start p BrowsePeers 7 "main").
  go_on 0 g_started. go_on 0 g_insert. go_on 0 g_track.
  begin (fun p => b_peer_start p BrowsePeers 7 "main").
  go_on 1 g_started. go_on 1 g_insert.
  begin (fun p => b_next_webview p true "main").
  go_on 1 g_track. go_on 1 g_undo. go_on 2 g_retire_one. go_on 2 g_retired.
  match goal with |- rtc _ ?a ?b => replace a with b by (by vm_compute) end. constructor.
Qed.

Lemma tauri_sessions_accounted_witness :
  quiet demo_steps /\ forall s, s < 2 -> s ∈ closed demo_steps /\ forall n h, entry demo_steps n h <> Some s.
Proof.
  assert (quiet demo_steps) as Hq by (by repeat constructor). split; [exact Hq|].
  intros s Hs. destruct (tauri_sessions_accounted demo_steps demo_steps_reached) as (_ & _ & H).
  destruct (H Hq s owner7) as [Hc|(Hn & _)]; [by destruct s as [|[|]]; [| |lia]|exact Hc|].
  exfalso. apply Hn. destruct s as [|[|]]; [by vm_compute|by vm_compute|lia].
Defined.
