(* ===== verification/IpText.v ===== *)
(** * Numbers and IP addresses from text

    The parsers of [u32] and of [std::net]'s IP addresses, on byte strings.  A
    parser takes what is left of the text and gives a value with the rest; one
    that fails leaves the text as it was. *)

From stdpp Require Import base numbers list strings.
From Stdlib Require Import ZArith Lia Strings.Ascii.
From S2P Require Import Prelude Net Text.

Open Scope string_scope.
Open Scope list_scope.

Abbreviation Parser A := (list ascii -> option (A * list ascii)).

(** [char::to_digit]. *)
Definition to_digit (radix : Z) (a : ascii) : option Z :=
  let n := Z.of_nat (nat_of_ascii a) in
  let d := (if (48 <=? n) && (n <=? 57) then n - 48
            else if (97 <=? n) && (n <=? 122) then n - 87
            else if (65 <=? n) && (n <=? 90) then n - 55 else 99)%Z in
  if (d <? radix)%Z then Some d else None.

(** The digits at the front as a number, and their count. *)
Fixpoint read_digits (radix acc count : Z) (l : list ascii) : Z * Z * list ascii :=
  match l with
  | a :: l' =>
      match to_digit radix a with
      | Some d => read_digits radix (acc * radix + d) (count + 1) l'
      | None => (acc, count, l)
      end
  | [] => (acc, count, [])
  end.

(** [Parser::read_number] with a maximal count of digits and a maximal value. *)
Definition read_number (radix max_digits : Z) (allow_zero_prefix : bool) (max : Z) : Parser Z :=
  fun l =>
    let '(n, count, rest) := read_digits radix 0 0 l in
    let leading_zero := match l with a :: _ => bool_decide (a = "0"%char) | [] => false end in
    if (count =? 0)%Z || (max_digits <? count)%Z || (negb allow_zero_prefix && leading_zero && (1 <? count)%Z)
       || (max <? n)%Z
    then None else Some (n, rest).

Definition read_char (c : ascii) : Parser unit :=
  fun l => match l with a :: l' => if decide (a = c) then Some (tt, l') else None | [] => None end.

(** [Parser::read_separator]: the separator is read before all but the first. *)
Definition read_separator {A} (sep : ascii) (index : nat) (inner : Parser A) : Parser A :=
  fun l => if decide (index = 0) then inner l else match read_char sep l with Some (_, l') => inner l' | None => None end.

Fixpoint read_octets (todo index : nat) (acc : Z) : Parser Z :=
  fun l =>
    match todo with
    | O => Some (acc, l)
    | S todo =>
        match read_separator "."%char index (read_number 10 3 false 255) l with
        | Some (n, l') => read_octets todo (S index) (acc * 256 + n) l'
        | None => None
        end
    end.

(** [Parser::read_ipv4_addr]. *)
Definition read_ipv4 : Parser Z := read_octets 4 0 0.

(** [read_groups]: [todo] groups are left to read after [index] were; the groups
    read, and whether the last two are an IPv4 address. *)
Fixpoint read_groups (todo index : nat) (l : list ascii) : list Z * bool * list ascii :=
  match todo with
  | O => ([], false, l)
  | S todo' =>
      match (if decide (todo' = 0) then None else read_separator ":"%char index read_ipv4 l) with
      | Some (v4, l') => ([Z.shiftr v4 16; Z.land v4 65535], true, l')
      | None =>
          match read_separator ":"%char index (read_number 16 4 true 65535) l with
          | Some (g, l') => let '(gs, v4, rest) := read_groups todo' (S index) l' in (g :: gs, v4, rest)
          | None => ([], false, l)
          end
      end
  end.

Definition group_bits (groups : list Z) : Z := fold_left (fun acc g => acc * 65536 + g)%Z groups 0%Z.

(** [Parser::read_ipv6_addr]: the groups before and after [::]. *)
Definition read_ipv6 : Parser Z :=
  fun l =>
    let '(head, head_v4, l1) := read_groups 8 0 l in
    if decide (length head = 8) then Some (group_bits head, l1)
    else if head_v4 then None
    else
      match read_char ":"%char l1 with
      | None => None
      | Some (_, l2) =>
          match read_char ":"%char l2 with
          | None => None
          | Some (_, l3) =>
              let '(tail, _, l4) := read_groups (8 - (length head + 1)) 0 l3 in
              Some (group_bits (head ++ replicate (8 - length head - length tail) 0%Z ++ tail), l4)
          end
      end.

(** The whole text has to be read. *)
Definition parse_with {A} (p : Parser A) (s : string) : option A :=
  match p (chars s) with Some (a, []) => Some a | _ => None end.

(** [Ipv6Addr::from_str] and [IpAddr::from_str], with the text of their errors. *)
Definition parse_ipv6 (s : string) : Result Z string :=
  ok_or (parse_with read_ipv6 s) "invalid IPv6 address syntax".
Definition parse_ip (s : string) : Result IpAddr string :=
  ok_or (parse_with (fun l => match read_ipv4 l with
                              | Some (b, rest) => Some (V4 b, rest)
                              | None => match read_ipv6 l with Some (b, rest) => Some (V6 b, rest) | None => None end
                              end) s) "invalid IP address syntax".

(** [SocketAddr::from_str]: a number without a limit on its digits follows the
    colon, and a scope may precede the closing bracket. *)
Definition read_port (l : list ascii) : option (Z * list ascii) :=
  match read_char ":"%char l with Some (_, l) => read_number 10 (len l) true 65535 l | None => None end.
Definition read_scope_id (l : list ascii) : option (Z * list ascii) :=
  match read_char "%"%char l with Some (_, l) => read_number 10 (len l) true 4294967295 l | None => None end.
Definition read_socket_v4 : Parser SocketAddr := fun l =>
  match read_ipv4 l with
  | Some (b, l) => match read_port l with Some (p, l) => Some (SockV4 b p, l) | None => None end
  | None => None
  end.
Definition read_socket_v6 : Parser SocketAddr := fun l =>
  match read_char "["%char l with
  | Some (_, l) =>
      match read_ipv6 l with
      | Some (b, l) =>
          let '(scope, l) := match read_scope_id l with Some (n, l) => (n, l) | None => (0%Z, l) end in
          match read_char "]"%char l with
          | Some (_, l) => match read_port l with Some (p, l) => Some (SockV6 b p 0 scope, l) | None => None end
          | None => None
          end
      | None => None
      end
  | None => None
  end.
Definition parse_socket (s : string) : Result SocketAddr string :=
  ok_or (parse_with (fun l => match read_socket_v4 l with Some r => Some r | None => read_socket_v6 l end) s)
    "invalid socket address syntax".

(** [u32::from_str]: an optional plus sign, then digits only. *)
Definition parse_u32 (s : string) : option Z :=
  let l := match chars s with a :: l => if decide (a = "+"%char) then l else a :: l | [] => [] end in
  match read_digits 10 0 0 l with
  | (n, count, []) => if (0 <? count)%Z && (n <? 4294967296)%Z then Some n else None
  | _ => None
  end.

(** [str::split_once] at a character. *)
Definition split_once (c : ascii) (s : string) : option (string * string) :=
  match split_at_char c s with
  | (pre, Some (String _ rest)) => Some (pre, rest)
  | _ => None
  end.

(** ** Bounds *)

Lemma to_digit_bound radix a d : to_digit radix a = Some d -> (0 <= d < radix)%Z.
Proof.
  unfold to_digit. generalize (Nat2Z.is_nonneg (nat_of_ascii a)). generalize (Z.of_nat (nat_of_ascii a)) as n. cbv zeta.
  intros n Hn Hd. destruct (_ <? radix)%Z eqn:E in Hd; [|done]. injection Hd as <-. apply Z.ltb_lt in E. split; [|done].
  clear E. destruct ((48 <=? n)%Z && (n <=? 57)%Z) eqn:E1; [apply andb_true_iff in E1; lia|].
  destruct ((97 <=? n)%Z && (n <=? 122)%Z) eqn:E2; [apply andb_true_iff in E2; lia|].
  destruct ((65 <=? n)%Z && (n <=? 90)%Z) eqn:E3; [apply andb_true_iff in E3; lia|lia].
Qed.

Lemma read_digits_nonneg radix acc count l n c rest :
  (0 <= radix)%Z -> (0 <= acc)%Z -> read_digits radix acc count l = (n, c, rest) -> (0 <= n)%Z.
Proof.
  intros Hr. revert acc count. induction l as [|a l IH]; intros acc count Ha; cbn.
  - by intros [= <- _ _].
  - destruct (to_digit radix a) as [d|] eqn:E; [|by intros [= <- _ _]]. apply IH. apply to_digit_bound in E. nia.
Qed.

Lemma read_number_bound radix md az max l n rest :
  (0 <= radix)%Z -> read_number radix md az max l = Some (n, rest) -> (0 <= n <= max)%Z.
Proof.
  intros Hr. unfold read_number. destruct (read_digits radix 0 0 l) as [[m c] r] eqn:E.
  destruct (_ || (max <? m)%Z) eqn:Eb; [done|]. intros [= <- _]. apply orb_false_iff in Eb as [_ Hm]. apply Z.ltb_ge in Hm.
  apply read_digits_nonneg in E; lia.
Qed.

Lemma read_separator_inner {A} sep i (p : Parser A) l r :
  read_separator sep i p l = Some r -> exists l', p l' = Some r.
Proof.
  unfold read_separator. case_decide; [eauto|]. destruct (read_char sep l) as [[[] l']|]; [eauto|done].
Qed.

Lemma read_octets_bound todo i acc l n rest :
  (0 <= acc)%Z -> read_octets todo i acc l = Some (n, rest) -> (0 <= n < (acc + 1) * 256 ^ Z.of_nat todo)%Z.
Proof.
  revert i acc l. induction todo as [|todo IH]; intros i acc l Ha; cbn [read_octets].
  - intros [= <- _]. cbn. lia.
  - destruct (read_separator _ _ _ l) as [[m l']|] eqn:E; [|done]. intros Ho.
    apply read_separator_inner in E as [l0 E]. apply read_number_bound in E; [|lia].
    apply IH in Ho; [|lia]. replace (Z.of_nat (S todo)) with (Z.of_nat todo + 1)%Z by lia. rewrite Z.pow_add_r by lia. nia.
Qed.

Lemma read_ipv4_bound l n rest : read_ipv4 l = Some (n, rest) -> (0 <= n < 2 ^ 32)%Z.
Proof. intros H. apply read_octets_bound in H; [|lia]. lia. Qed.

(** Groups are 16-bit, and at most as many as there is room for. *)
Lemma read_groups_bound todo i l gs v4 rest :
  read_groups todo i l = (gs, v4, rest) -> length gs <= todo /\ Forall (fun g => 0 <= g < 65536)%Z gs.
Proof.
  revert i l gs v4 rest. induction todo as [|todo IH]; intros i l gs v4 rest; cbn [read_groups].
  - intros [= <- _ _]. split; [done|constructor].
  - destruct (if decide (todo = 0) then None else _) as [[b l']|] eqn:E.
    + intros [= <- _ _]. case_decide; [done|]. apply read_separator_inner in E as [l0 E]. apply read_ipv4_bound in E.
      split; [cbn; lia|]. rewrite Z.shiftr_div_pow2 by lia. change 65535%Z with (Z.ones 16). rewrite Z.land_ones by lia.
      repeat constructor; [apply Z.div_pos; lia|apply Z.div_lt_upper_bound; lia|apply Z.mod_pos_bound; lia|apply Z.mod_pos_bound; lia].
    + destruct (read_separator _ _ (read_number _ _ _ _) l) as [[g l']|] eqn:Eg; [|intros [= <- _ _]; split; [cbn; lia|constructor]].
      destruct (read_groups todo (S i) l') as [[gs' v4'] rest'] eqn:Er. intros [= <- _ _].
      apply IH in Er as [Hl Hf]. apply read_separator_inner in Eg as [l0 Eg]. apply read_number_bound in Eg; [|lia].
      split; [cbn; lia|]. constructor; [lia|done].
Qed.

Lemma group_bits_app l g : group_bits (l ++ [g]) = (group_bits l * 65536 + g)%Z.
Proof. unfold group_bits. by rewrite fold_left_app. Qed.

Lemma group_bits_bound l : Forall (fun g => 0 <= g < 65536)%Z l -> (0 <= group_bits l < 65536 ^ Z.of_nat (length l))%Z.
Proof.
  induction l as [|g l IH] using rev_ind; intros Hl; [cbn; lia|]. apply list.Forall_app in Hl as [Hl Hg].
  apply Forall_cons_1 in Hg as [Hg _]. rewrite group_bits_app, length_app. specialize (IH Hl). cbn [length].
  replace (Z.of_nat (length l + 1)) with (Z.of_nat (length l) + 1)%Z by lia. rewrite Z.pow_add_r by lia. lia.
Qed.

Lemma read_ipv6_bound l n rest : read_ipv6 l = Some (n, rest) -> (0 <= n < 2 ^ 128)%Z.
Proof.
  unfold read_ipv6. destruct (read_groups 8 0 l) as [[head hv] l1] eqn:Eh. apply read_groups_bound in Eh as [Hlh Hfh].
  case_decide as Hd.
  - intros [= <- _]. apply group_bits_bound in Hfh. rewrite Hd in Hfh. exact Hfh.
  - destruct hv; [done|]. destruct (read_char _ l1) as [[[] l2]|]; [|done]. destruct (read_char _ l2) as [[[] l3]|]; [|done].
    destruct (read_groups _ 0 l3) as [[tail tv] l4] eqn:Et. apply read_groups_bound in Et as [Hlt Hft]. intros [= <- _].
    match goal with |- context [group_bits ?g] => assert (length g = 8) as Hl end.
    { rewrite !length_app, length_replicate. lia. }
    match goal with |- context [group_bits ?g] => pose proof (group_bits_bound g) as Hb end. rewrite Hl in Hb. apply Hb.
    apply list.Forall_app. split; [done|]. apply list.Forall_app. split; [|done]. apply Forall_replicate. lia.
Qed.

Lemma parse_u32_bound s n : parse_u32 s = Some n -> (0 <= n < 2 ^ 32)%Z.
Proof.
  unfold parse_u32. destruct (read_digits _ _ _ _) as [[m c] [|]] eqn:E; [|done]. destruct (_ && _) eqn:Eb; [|done].
  intros [= <-]. apply andb_true_iff in Eb as [_ Hb]. apply read_digits_nonneg in E; lia.
Qed.

(** ** Examples *)

Example parse_socket_v4 : parse_socket "127.0.0.1:0080" = Ok (SockV4 2130706433 80).
Proof. reflexivity. Qed.
Example parse_socket_v6 : parse_socket "[::1%3]:8080" = Ok (SockV6 1 8080 0 3).
Proof. reflexivity. Qed.
Example parse_socket_bad : parse_socket "127.0.0.1" = Err "invalid socket address syntax" /\
  parse_socket "127.0.0.1:65536" = Err "invalid socket address syntax".
Proof. done. Qed.

Example parse_ip_v4 : parse_ip "192.168.1.20" = Ok (V4 3232235796).
Proof. reflexivity. Qed.
Example parse_ip_leading_zero : parse_ip "192.168.01.20" = Err "invalid IP address syntax".
Proof. reflexivity. Qed.
Example parse_ip_v6_short : parse_ip "fe80::1" = Ok (V6 338288524927261089654018896841347694593).
Proof. reflexivity. Qed.
Example parse_ip_v6_mapped : parse_ip "::ffff:1.2.3.4" = Ok (V6 281470698652420).
Proof. reflexivity. Qed.
Example parse_ip_v6_full : parse_ipv6 "1:2:3:4:5:6:7:8" = Ok 5192455318486707404433266433261576%Z.
Proof. reflexivity. Qed.
Example parse_ip_too_many : parse_ipv6 "1:2:3:4:5:6:7:8:9" = Err "invalid IPv6 address syntax".
Proof. reflexivity. Qed.
Example parse_u32_plus : parse_u32 "+17" = Some 17%Z /\ parse_u32 "en0" = None /\ parse_u32 "4294967296" = None.
Proof. done. Qed.
