(* ===== verification/DnsConfig.v ===== *)
(** * DNS name servers of an endpoint
    (endpoint/dns_nameservers.rs, endpoint/scoped_dns_compat.rs)

    Reading the configured name servers, and the forwarding proxies that stand
    in for scoped IPv6 servers.  What binding a local socket answers, the k-th
    time, is an argument. *)

From stdpp Require Import base numbers list sets strings pretty.
From Stdlib Require Import ZArith Lia Strings.Ascii.
From S2P Require Import Prelude Errors Net Text IpText.

Open Scope string_scope.
Open Scope list_scope.

Section dns.
Context (debug_str : string -> string) (bind_local : nat -> Result Z string).

(** ** [parse_dns_nameserver] *)

Definition is_link_local_v6 (bits : Z) : bool := (Z.land (Z.shiftr bits 112) 65472 =? 65152)%Z.

Definition parse_dns_nameserver (value : string) : Result SocketAddr string :=
  match split_once "%"%char value with
  | Some (host, scope) =>
      match parse_ipv6 host with
      | Err reason => Err ("invalid scoped IPv6 DNS nameserver " +:+ debug_str value +:+ ": " +:+ reason)
      | Ok ip =>
          match parse_u32 scope with
          | None => Err ("IPv6 DNS nameserver " +:+ debug_str value +:+ " must use a numeric interface scope")
          | Some scope_id =>
              if (scope_id =? 0)%Z
              then Err ("IPv6 DNS nameserver " +:+ debug_str value +:+ " must use a non-zero interface scope")
              else Ok (SockV6 ip 53 0 scope_id)
          end
      end
  | None =>
      match parse_ip value with
      | Err reason => Err ("invalid DNS nameserver " +:+ debug_str value +:+ ": " +:+ reason)
      | Ok (V6 v6) =>
          if is_link_local_v6 v6
          then Err ("link-local IPv6 DNS nameserver " +:+ debug_str value +:+ " requires a numeric interface scope")
          else Ok (sock_new (V6 v6) 53)
      | Ok ip => Ok (sock_new ip 53)
      end
  end.

(** ** [ScopedDnsCompat] *)

Record ScopedDnsProxy := mkProxy { local_addr : SocketAddr; upstream : SocketAddr }.

Definition LOCALHOST : Z := 2130706433.

(** [start_scoped_dns_proxy]; [k] sockets were bound before. *)
Definition start_scoped_dns_proxy (k : nat) (up : SocketAddr) : Result ScopedDnsProxy string :=
  match up with
  | SockV4 _ _ => Err "scoped DNS proxy requires an IPv6 upstream"
  | SockV6 _ _ _ scope_id =>
      if (scope_id =? 0)%Z then Err "scoped DNS proxy requires a non-zero IPv6 scope ID"
      else match bind_local k with
           | Ok port => Ok (mkProxy (SockV4 LOCALHOST port) up)
           | Err reason => Err reason
           end
  end.

Definition resolver_addr (nameserver : string) (addr : SocketAddr) (proxies : list ScopedDnsProxy)
  : Result (SocketAddr * list ScopedDnsProxy) CoreError :=
  match addr with
  | SockV4 _ _ => Ok (addr, proxies)
  | SockV6 _ _ _ scope_id =>
      if (scope_id =? 0)%Z then Ok (addr, proxies)
      else match start_scoped_dns_proxy (length proxies) addr with
           | Ok proxy => Ok (local_addr proxy, proxies ++ [proxy])
           | Err reason =>
               Err (connection_failed ("failed to start scoped DNS proxy for " +:+ debug_str nameserver +:+ ": " +:+ reason))
           end
  end.

(** ** [ConfiguredDns::configure] *)

(** The servers of the resolver, if it is an own one, and the proxies. *)
Record ConfiguredDns := mkDns { resolver : option (list SocketAddr); compat : list ScopedDnsProxy }.

(** The loop over the name servers: the servers added, the proxies and the
    reasons of those rejected.  On an error the proxies that were started are
    given instead, for they are dropped. *)
Fixpoint configure_loop (nameservers : list string) (servers : list SocketAddr) (proxies : list ScopedDnsProxy)
  (rejected : list string) : Result (list SocketAddr * list ScopedDnsProxy * list string) (CoreError * list ScopedDnsProxy) :=
  match nameservers with
  | [] => Ok (servers, proxies, rejected)
  | nameserver :: rest =>
      match parse_dns_nameserver nameserver with
      | Err reason => configure_loop rest servers proxies (rejected ++ [reason])
      | Ok addr =>
          match resolver_addr nameserver addr proxies with
          | Ok (a, proxies) => configure_loop rest (servers ++ [a]) proxies rejected
          | Err e => Err (e, proxies)
          end
      end
  end.

Fixpoint join (sep : string) (l : list string) : string :=
  match l with [] => "" | [x] => x | x :: l => x +:+ sep +:+ join sep l end.

Definition configure (nameservers : list string) : Result ConfiguredDns (CoreError * list ScopedDnsProxy) :=
  match nameservers with
  | [] => Ok (mkDns None [])
  | _ =>
      match configure_loop nameservers [] [] [] with
      | Err e => Err e
      | Ok (servers, proxies, rejected) =>
          if decide (length servers = 0)
          then Err (invalid_input ("all " +:+ pretty (length rejected) +:+
                     " supplied dns_nameservers were invalid (expected IP addresses): " +:+ join "; " rejected), proxies)
          else Ok (mkDns (Some servers) proxies)
      end
  end.

(** ** Properties *)

Definition scoped (a : SocketAddr) : bool :=
  match a with SockV6 _ _ _ scope_id => negb (scope_id =? 0)%Z | SockV4 _ _ => false end.

(** What [parse_dns_nameserver] accepts is an address with port 53 whose parts
    fit their widths; it carries a scope exactly when the text has a percent
    sign, so that a link-local server always has one and no other server that
    was given without one gets one. *)
Theorem dns_nameserver_parsed value a :
  parse_dns_nameserver value = Ok a ->
  sock_port a = 53%Z /\
  match a with
  | SockV4 bits _ => (0 <= bits < 2 ^ 32)%Z
  | SockV6 bits _ flow scope_id => (0 <= bits < 2 ^ 128 /\ flow = 0 /\ 0 <= scope_id < 2 ^ 32)%Z /\
      (is_link_local_v6 bits = true -> scope_id <> 0%Z)
  end /\
  (scoped a = true <-> exists host scope, split_once "%"%char value = Some (host, scope)).
Proof.
  unfold parse_dns_nameserver, parse_ipv6, parse_ip, parse_with, ok_or.
  destruct (split_once _ value) as [[host scope]|] eqn:Es.
  - destruct (read_ipv6 (chars host)) as [[ip [|]]|] eqn:E; try done.
    destruct (parse_u32 scope) as [sid|] eqn:Eu; [|done]. destruct (sid =? 0)%Z eqn:E0; [done|]. intros [= <-]. simpl.
    apply Z.eqb_neq in E0 as Hs. rewrite E0. apply read_ipv6_bound in E. apply parse_u32_bound in Eu.
    split_and!; try done; try lia. split; [eauto|done].
  - destruct (read_ipv4 (chars value)) as [[ip [|]]|] eqn:E4; try done.
    + intros [= <-]. apply read_ipv4_bound in E4. split_and!; try done; try lia. simpl. split; [done|by intros (? & ? & ?)].
    + destruct (read_ipv6 (chars value)) as [[ip [|]]|] eqn:E6; try done. destruct (is_link_local_v6 ip) eqn:El; [done|].
      intros [= <-]. simpl. apply read_ipv6_bound in E6. split_and!; try done; try lia; [congruence|].
      split; [done|by intros (? & ? & ?)].
Qed.
(** The addresses of the name servers that can be read. *)
Definition accepted (l : list string) : list SocketAddr :=
  omap (fun v => match parse_dns_nameserver v with Ok a => Some a | Err _ => None end) l.

(** The resolver reaches [a] at [s]: through its proxy if [a] has a scope. *)
Definition serves (proxies : list ScopedDnsProxy) (a s : SocketAddr) : Prop :=
  if scoped a then exists p, p ∈ proxies /\ upstream p = a /\ local_addr p = s else s = a.

Lemma serves_mono l l' a s : (forall p, p ∈ l -> p ∈ l') -> serves l a s -> serves l' a s.
Proof. intros Hl. unfold serves. destruct (scoped a); [|done]. intros (p & ? & ?). eauto. Qed.

Lemma resolver_addr_spec nameserver a proxies :
  match resolver_addr nameserver a proxies with
  | Ok (s, proxies') => exists new, proxies' = proxies ++ new /\ upstream <$> new = filter (fun a => scoped a = true) [a] /\
      serves new a s /\ (forall p, p ∈ new -> exists port, bind_local (length proxies) = Ok port /\ local_addr p = SockV4 LOCALHOST port)
  | Err e => code e = ConnectionFailed /\ scoped a = true /\ exists reason, bind_local (length proxies) = Err reason
  end.
Proof.
  unfold resolver_addr, start_scoped_dns_proxy, serves.
  destruct a as [b p|b p f sid]; simpl; [exists []; rewrite app_nil_r; split_and!; try done; by intros ? ?%not_elem_of_nil|].
  destruct (sid =? 0)%Z eqn:E; simpl.
  - exists []. rewrite app_nil_r. rewrite filter_cons_False by (simpl; by rewrite E). split_and!; try done. by intros ? ?%not_elem_of_nil.
  - destruct (bind_local (length proxies)) as [port|reason]; [|by eauto].
    exists [mkProxy (SockV4 LOCALHOST port) (SockV6 b p f sid)]. rewrite filter_cons_True by (simpl; by rewrite E).
    split_and!; try done.
    + eexists. split; [by apply list_elem_of_singleton|done].
    + intros q ->%list_elem_of_singleton. eauto.
Qed.

Lemma accepted_cons v l : accepted (v :: l) = match parse_dns_nameserver v with Ok a => a :: accepted l | Err _ => accepted l end.
Proof. unfold accepted. simpl. by destruct (parse_dns_nameserver v). Qed.

Lemma configure_loop_ok l servers proxies rejected servers' proxies' rejected' :
  configure_loop l servers proxies rejected = Ok (servers', proxies', rejected') ->
  exists added new, servers' = servers ++ added /\ proxies' = proxies ++ new /\
    upstream <$> new = filter (fun a => scoped a = true) (accepted l) /\ Forall2 (serves new) (accepted l) added /\
    (forall i p, new !! i = Some p -> exists port, bind_local (length proxies + i) = Ok port /\ local_addr p = SockV4 LOCALHOST port) /\
    length rejected' + length (accepted l) = length rejected + length l.
Proof.
  revert servers proxies rejected. induction l as [|v l IH]; intros servers proxies rejected; cbn [configure_loop].
  { intros [= <- <- <-]. exists [], []. rewrite !app_nil_r. split_and!; done. }
  rewrite accepted_cons. destruct (parse_dns_nameserver v) as [a|reason].
  - pose proof (resolver_addr_spec v a proxies) as Hr. destruct (resolver_addr v a proxies) as [[s px]|e]; [|done].
    destruct Hr as (n1 & -> & Hu & Hs & Hb). intros Hl. destruct (IH _ _ _ Hl) as (added & n2 & -> & -> & Hu2 & Hf & Hb2 & Hlen).
    exists (s :: added), (n1 ++ n2). rewrite !cons_middle, <- !app_assoc. split_and!; try done.
    + rewrite fmap_app, Hu, Hu2. symmetry. apply (filter_app _ [a]).
    + constructor; [eapply serves_mono; [|done]; set_solver|].
      eapply Forall2_impl; [done|]. intros ? ? Hx. eapply serves_mono; [|done]. set_solver.
    + intros i p Hi. apply lookup_app_Some in Hi as [Hi|[Hge Hi]].
      * destruct (Hb p) as (port & H1 & H2); [by eapply list_elem_of_lookup_2|]. exists port. split; [|done].
        assert (length n1 <= 1) as Hl1.
        { rewrite <- (length_fmap upstream), Hu. pose proof (length_filter (fun a => scoped a = true) [a]). simpl in *. lia. }
        apply lookup_lt_Some in Hi. by replace (length proxies + i) with (length proxies) by lia.
      * destruct (Hb2 _ _ Hi) as (port & H1 & H2). exists port. split; [|done]. rewrite <- H1. f_equal. rewrite length_app. lia.
    + simpl. lia.
  - intros Hl. destruct (IH _ _ _ Hl) as (added & n2 & -> & -> & Hu2 & Hf & Hb2 & Hlen). exists added, n2. split_and!; try done.
    rewrite length_app in Hlen. simpl in *. lia.
Qed.

Lemma configure_loop_err l servers proxies rejected e px :
  configure_loop l servers proxies rejected = Err (e, px) ->
  code e = ConnectionFailed /\ (exists reason, bind_local (length px) = Err reason) /\
  exists pre v rest a, l = pre ++ v :: rest /\ parse_dns_nameserver v = Ok a /\ scoped a = true /\
    upstream <$> px = (upstream <$> proxies) ++ filter (fun a => scoped a = true) (accepted pre).
Proof.
  revert servers proxies rejected. induction l as [|v l IH]; intros servers proxies rejected; cbn [configure_loop]; [done|].
  destruct (parse_dns_nameserver v) as [a|reason] eqn:Ep.
  - pose proof (resolver_addr_spec v a proxies) as Hr. destruct (resolver_addr v a proxies) as [[s px']|e'].
    + destruct Hr as (n1 & -> & Hu & _). intros Hl. destruct (IH _ _ _ Hl) as (H1 & H2 & pre & v' & rest & a' & -> & H3 & H4 & H5).
      split_and!; try done. exists (v :: pre), v', rest, a'. split_and!; try done.
      rewrite H5, accepted_cons, Ep, fmap_app, Hu, <- app_assoc. f_equal. symmetry. apply (filter_app _ [a]).
    + destruct Hr as (H1 & H2 & H3). intros [= -> ->]. split_and!; try done. exists [], v, l, a. by rewrite app_nil_r.
  - intros Hl. destruct (IH _ _ _ Hl) as (H1 & H2 & pre & v' & rest & a' & -> & H3 & H4 & H5).
    split_and!; try done. exists (v :: pre), v', rest, a'. split_and!; try done. by rewrite accepted_cons, Ep.
Qed.

(** How a configuration fails. *)
Lemma dns_configured_err l e px :
  configure l = Err (e, px) -> code e = InvalidInput \/ code e = ConnectionFailed /\ exists k reason, bind_local k = Err reason.
Proof.
  unfold configure. destruct l as [|v l]; [done|]. set (nameservers := v :: l).
  destruct (configure_loop nameservers [] [] []) as [[[servers px'] rejected]|[e' px']] eqn:E.
  - case_decide; [|done]. intros [= <- _]. by left.
  - intros [= <- <-]. right. destruct (configure_loop_err _ _ _ _ _ _ E) as (? & (reason & ?) & _). eauto.
Qed.

(** The configured name servers are exactly the ones that can be read.  Without
    any the default resolver stays; otherwise the resolver has, in order, each
    server that could be read, the scoped ones behind a proxy of their own on
    the loopback interface that forwards to that very address; it fails only
    when none could be read or a socket for a proxy could not be bound, and
    then the proxies started so far are given up. *)
Theorem dns_configured_exact (l : list string) :
  match configure l with
  | Ok (mkDns None px) => l = [] /\ px = []
  | Ok (mkDns (Some servers) px) =>
      accepted l <> [] /\ Forall2 (serves px) (accepted l) servers /\
      upstream <$> px = filter (fun a => scoped a = true) (accepted l) /\
      (forall i p, px !! i = Some p -> exists port, bind_local i = Ok port /\ local_addr p = SockV4 LOCALHOST port)
  | Err (e, px) =>
      code e = InvalidInput /\ l <> [] /\ accepted l = [] /\ px = [] \/
      code e = ConnectionFailed /\ (exists reason, bind_local (length px) = Err reason) /\
        exists pre v rest a, l = pre ++ v :: rest /\ parse_dns_nameserver v = Ok a /\ scoped a = true /\
          upstream <$> px = filter (fun a => scoped a = true) (accepted pre)
  end.
Proof.
  unfold configure. destruct l as [|v l]; [done|]. set (nameservers := v :: l).
  destruct (configure_loop nameservers [] [] []) as [[[servers px] rejected]|[e px]] eqn:E.
  - destruct (configure_loop_ok _ _ _ _ _ _ _ E) as (added & new & -> & -> & Hu & Hf & Hb & Hlen). rewrite !app_nil_l.
    pose proof (Forall2_length _ _ _ Hf) as Hl. case_decide as Hd.
    + left. split_and!; [done|done|by apply length_zero_iff_nil; lia|].
      rewrite (proj1 (length_zero_iff_nil (accepted nameservers)) ltac:(lia)) in Hu. by apply fmap_nil_inv in Hu.
    + split_and!; try done. intros He. rewrite He in Hl. by apply Hd.
  - right. by apply configure_loop_err in E.
Qed.
End dns.

(** ** Witness *)

Definition demo_bind (k : nat) : Result Z string := Ok (40000 + Z.of_nat k)%Z.

Example demo_configure :
  configure id demo_bind ["8.8.8.8"; "bogus"; "fe80::1%17"; "fe80::1"] =
    Ok (mkDns (Some [SockV4 134744072 53; SockV4 LOCALHOST 40000])
          [mkProxy (SockV4 LOCALHOST 40000) (SockV6 338288524927261089654018896841347694593 53 0 17)]).
Proof. reflexivity. Qed.

Lemma dns_nameserver_parsed_witness :
  parse_dns_nameserver id "fe80::1%17" = Ok (SockV6 338288524927261089654018896841347694593 53 0 17) /\
  scoped (SockV6 338288524927261089654018896841347694593 53 0 17) = true.
Proof.
  assert (parse_dns_nameserver id "fe80::1%17" = Ok (SockV6 338288524927261089654018896841347694593 53 0 17)) as E by reflexivity.
  split; [exact E|]. apply (proj2 (proj2 (dns_nameserver_parsed id "fe80::1%17" _ E))). exists "fe80::1", "17". reflexivity.
Defined.
