(* ===== verification/DnsProxy.v ===== *)
(** * The scoped DNS proxy (endpoint/scoped_dns_compat.rs)

    A task receives datagrams on a local socket and forwards each in a task of
    its own, with a limit on the forwards in flight.  It ends on a signal, after
    its forwards have ended.  Tasks run between their suspension points; which
    branch of the [select!] is taken and what the sockets answer is free. *)

From stdpp Require Import base numbers list sets relations.
From Stdlib Require Import ZArith Lia.
From S2P Require Import Prelude.

Open Scope list_scope.

Definition MAX_SCOPED_DNS_IN_FLIGHT : Z := 32.
Definition MAX_SCOPED_DNS_UDP_PAYLOAD : Z := 4096.

(** ** State *)

(** Where [forward_dns_datagram] is: at one of its awaits, or with its end
    decided, when the future still holds its [InFlightDnsQuery], or ended. *)
Inductive ForwardPc :=
| FBind
| FConnect
| FSend
| FRecv
| FReply (response : Bytes)
| FRelease
| FFinished.

Record Forward := mkForward { client : nat; query : Bytes; f_aborted : bool; f_pc : ForwardPc }.

(** Where [run_scoped_dns_proxy] is: in the [select!], with a datagram of
    acceptable size, with one that has room, waiting for its forwards, ended. *)
Inductive LoopPc :=
| LSelect
| LReceived (client : nat) (query : Bytes)
| LAdmit (client : nat) (query : Bytes)
| LDrain
| LEnded.

(** Where a call of [shutdown] is; a caller may drop it while it waits. *)
Inductive ShutdownPc := SSend | SLock | SAwait | SReturned | SCancelled.
#[global] Instance ShutdownPc_eq_dec : EqDecision ShutdownPc.
Proof. solve_decision. Defined.

(** [reaped]: forwards whose entry in the [JoinSet] is gone; the lists record
    what was received, sent upstream, answered and sent back, by forward. *)
Record ProxyState := mkProxyState {
  in_flight : Z;
  dropped_queries : Z;
  forwards : list Forward;
  reaped : list nat;
  loop : LoopPc;
  loop_aborted : bool;
  signalled : bool;
  task_taken : bool;
  lock : option nat;
  shutdowns : list ShutdownPc;
  released : bool;
  received : list (nat * Bytes);
  sent : list (nat * Bytes);
  answers : list (nat * Bytes);
  replies : list (nat * (nat * Bytes))
}.
Definition proxy_started : ProxyState :=
  mkProxyState 0 0 [] [] LSelect false false false None [] false [] [] [] [].

Definition set_load a d (s : ProxyState) := mkProxyState a d (forwards s) (reaped s) (loop s) (loop_aborted s) (signalled s)
  (task_taken s) (lock s) (shutdowns s) (released s) (received s) (sent s) (answers s) (replies s).
Definition set_forwards x (s : ProxyState) := mkProxyState (in_flight s) (dropped_queries s) x (reaped s) (loop s) (loop_aborted s) (signalled s)
  (task_taken s) (lock s) (shutdowns s) (released s) (received s) (sent s) (answers s) (replies s).
Definition set_reaped x (s : ProxyState) := mkProxyState (in_flight s) (dropped_queries s) (forwards s) x (loop s) (loop_aborted s) (signalled s)
  (task_taken s) (lock s) (shutdowns s) (released s) (received s) (sent s) (answers s) (replies s).
Definition set_loop x (s : ProxyState) := mkProxyState (in_flight s) (dropped_queries s) (forwards s) (reaped s) x (loop_aborted s) (signalled s)
  (task_taken s) (lock s) (shutdowns s) (released s) (received s) (sent s) (answers s) (replies s).
Definition set_ends ab sg (s : ProxyState) := mkProxyState (in_flight s) (dropped_queries s) (forwards s) (reaped s) (loop s) ab sg
  (task_taken s) (lock s) (shutdowns s) (released s) (received s) (sent s) (answers s) (replies s).
Definition set_task t l (s : ProxyState) := mkProxyState (in_flight s) (dropped_queries s) (forwards s) (reaped s) (loop s) (loop_aborted s) (signalled s)
  t l (shutdowns s) (released s) (received s) (sent s) (answers s) (replies s).
Definition set_shutdowns x (s : ProxyState) := mkProxyState (in_flight s) (dropped_queries s) (forwards s) (reaped s) (loop s) (loop_aborted s) (signalled s)
  (task_taken s) (lock s) x (released s) (received s) (sent s) (answers s) (replies s).
Definition set_released x (s : ProxyState) := mkProxyState (in_flight s) (dropped_queries s) (forwards s) (reaped s) (loop s) (loop_aborted s) (signalled s)
  (task_taken s) (lock s) (shutdowns s) x (received s) (sent s) (answers s) (replies s).
Definition set_logs r u a b (s : ProxyState) := mkProxyState (in_flight s) (dropped_queries s) (forwards s) (reaped s) (loop s) (loop_aborted s) (signalled s)
  (task_taken s) (lock s) (shutdowns s) (released s) r u a b.

Definition f_set_pc x (f : Forward) := mkForward (client f) (query f) (f_aborted f) x.
Definition f_abort (f : Forward) := mkForward (client f) (query f) true (f_pc f).
Definition goto (i : nat) (x : ForwardPc) (s : ProxyState) : ProxyState := set_forwards (alter (f_set_pc x) i (forwards s)) s.

Definition awaiting (x : ForwardPc) : bool := match x with FRelease | FFinished => false | _ => true end.

(** [JoinSet::abort_all], and what dropping the [JoinSet] does. *)
Definition abort_all (s : ProxyState) : ProxyState := set_forwards (f_abort <$> forwards s) s.

(** ** [run_scoped_dns_proxy] *)

(** A datagram arrives; the buffer holds one byte more than the limit, so that a
    longer one is told apart. *)
Definition loop_receive (c : nat) (datagram : Bytes) (s : ProxyState) : ProxyState :=
  let s := set_logs (received s ++ [(c, datagram)]) (sent s) (answers s) (replies s) s in
  if (MAX_SCOPED_DNS_UDP_PAYLOAD <? Z.min (len datagram) (MAX_SCOPED_DNS_UDP_PAYLOAD + 1))%Z
  then set_load (in_flight s) (dropped_queries s + 1) s
  else set_loop (LReceived c datagram) s.

(** The load of [in_flight] against the capacity, after reaping what has ended
    by then. *)
Definition loop_check (c : nat) (q : Bytes) (s : ProxyState) : ProxyState :=
  if (MAX_SCOPED_DNS_IN_FLIGHT <=? in_flight s)%Z
  then set_loop LSelect (set_load (in_flight s) (dropped_queries s + 1) s)
  else set_loop (LAdmit c q) s.

(** [InFlightDnsQuery::begin] and the spawn. *)
Definition loop_spawn (c : nat) (q : Bytes) (s : ProxyState) : ProxyState :=
  set_loop LSelect (set_load (in_flight s + 1) (dropped_queries s)
    (set_forwards (forwards s ++ [mkForward c q false FBind]) s)).

Definition finished (s : ProxyState) (i : nat) : Prop := exists f, forwards s !! i = Some f /\ f_pc f = FFinished.

(** Every entry of the [JoinSet] is gone. *)
Definition all_joined (s : ProxyState) : Prop := forall i, i < length (forwards s) -> i ∈ reaped s.

(** A [shutdown] moves on. *)
Definition shutdown_goto (i : nat) (x : ShutdownPc) (s : ProxyState) : ProxyState := set_shutdowns (<[i := x]> (shutdowns s)) s.

Definition shutdown_waits (x : ShutdownPc) : bool := match x with SSend | SLock | SAwait => true | _ => false end.

Inductive proxy_step (s : ProxyState) : ProxyState -> Prop :=
(** The [select!] and the code after it. *)
| s_signal : loop s = LSelect -> signalled s = true -> proxy_step s (abort_all (set_loop LDrain s))
| s_listener_error : loop s = LSelect -> proxy_step s (abort_all (set_loop LDrain s))
| s_receive c datagram : loop s = LSelect -> proxy_step s (loop_receive c datagram s)
| s_join_next i : loop s = LSelect -> finished s i -> (i ∉ reaped s) -> proxy_step s (set_reaped (reaped s ++ [i]) s)
| s_try_join_next i c q : loop s = LReceived c q -> finished s i -> (i ∉ reaped s) -> proxy_step s (set_reaped (reaped s ++ [i]) s)
| s_check c q : loop s = LReceived c q -> proxy_step s (loop_check c q s)
| s_spawn c q : loop s = LAdmit c q -> proxy_step s (loop_spawn c q s)
| s_drain_join i : loop s = LDrain -> finished s i -> (i ∉ reaped s) -> proxy_step s (set_reaped (reaped s ++ [i]) s)
| s_drained : loop s = LDrain -> all_joined s -> proxy_step s (set_loop LEnded s)
| s_loop_aborted : loop_aborted s = true -> loop s = LSelect \/ loop s = LDrain -> proxy_step s (abort_all (set_loop LEnded s))
(** [forward_dns_datagram] and the end of its task. *)
| s_fails i f : forwards s !! i = Some f -> awaiting (f_pc f) = true -> proxy_step s (goto i FRelease s)
| s_aborted i f : forwards s !! i = Some f -> f_aborted f = true -> awaiting (f_pc f) = true -> proxy_step s (goto i FRelease s)
| s_bound i f : forwards s !! i = Some f -> f_pc f = FBind -> proxy_step s (goto i FConnect s)
| s_connected i f : forwards s !! i = Some f -> f_pc f = FConnect -> proxy_step s (goto i FSend s)
| s_sent i f : forwards s !! i = Some f -> f_pc f = FSend ->
    proxy_step s (goto i FRecv (set_logs (received s) (sent s ++ [(i, query f)]) (answers s) (replies s) s))
| s_answer i f response : forwards s !! i = Some f -> f_pc f = FRecv ->
    proxy_step s (goto i (if (MAX_SCOPED_DNS_UDP_PAYLOAD <? Z.min (len response) (MAX_SCOPED_DNS_UDP_PAYLOAD + 1))%Z then FRelease else FReply response)
                    (set_logs (received s) (sent s) (answers s ++ [(i, response)]) (replies s) s))
| s_reply i f response : forwards s !! i = Some f -> f_pc f = FReply response ->
    proxy_step s (goto i FRelease (set_logs (received s) (sent s) (answers s) (replies s ++ [(i, (client f, response))]) s))
| s_release i f : forwards s !! i = Some f -> f_pc f = FRelease ->
    proxy_step s (goto i FFinished (set_load (in_flight s - 1) (dropped_queries s) s))
(** [shutdown] and [Drop]: the handle is borrowed while a call waits. *)
| s_shutdown : released s = false -> proxy_step s (set_shutdowns (shutdowns s ++ [SSend]) s)
| s_send i : shutdowns s !! i = Some SSend -> proxy_step s (shutdown_goto i SLock (set_ends (loop_aborted s) true s))
| s_lock i : shutdowns s !! i = Some SLock -> lock s = None -> task_taken s = false ->
    proxy_step s (shutdown_goto i SAwait (set_task false (Some i) s))
| s_lock_none i : shutdowns s !! i = Some SLock -> lock s = None -> task_taken s = true -> proxy_step s (shutdown_goto i SReturned s)
| s_joined i : shutdowns s !! i = Some SAwait -> loop s = LEnded -> proxy_step s (shutdown_goto i SReturned (set_task true None s))
| s_cancelled i x : shutdowns s !! i = Some x -> shutdown_waits x = true ->
    proxy_step s (shutdown_goto i SCancelled (match x with SAwait => set_task (task_taken s) None s | _ => s end))
| s_dropped : released s = false -> Forall (fun x => shutdown_waits x = false) (shutdowns s) ->
    proxy_step s (set_released true (set_ends (negb (task_taken s)) true s)).

(** * The scoped DNS proxy: bounded, faithful and gone after a shutdown *)

(** ** Load *)

(** A forward counts until it has released its place. *)
Definition holds (f : Forward) : Z := match f_pc f with FFinished => 0 | _ => 1 end%Z.

Definition in_hand (s : ProxyState) : list (nat * Bytes) :=
  match loop s with LReceived c q | LAdmit c q => [(c, q)] | _ => [] end.

Definition datagram_of (f : Forward) : nat * Bytes := (client f, query f).

Record load_inv (s : ProxyState) : Prop := {
  l_exact : in_flight s = zsum holds (forwards s);
  l_bound : (in_flight s <= MAX_SCOPED_DNS_IN_FLIGHT)%Z;
  l_admit : forall c q, loop s = LAdmit c q -> (in_flight s < MAX_SCOPED_DNS_IN_FLIGHT)%Z;
  l_count : (len (received s) = dropped_queries s + Z.of_nat (length (forwards s)) + Z.of_nat (length (in_hand s)))%Z;
  l_order : (datagram_of <$> forwards s) ++ in_hand s `sublist_of` received s;
  l_size : Forall (fun d => len d.2 <= MAX_SCOPED_DNS_UDP_PAYLOAD)%Z ((datagram_of <$> forwards s) ++ in_hand s)
}.

Lemma in_flight_holds_nonneg f : (0 <= holds f)%Z.
Proof. unfold holds. destruct (f_pc f); lia. Qed.

Lemma goto_insert i x f s : forwards s !! i = Some f -> forwards (goto i x s) = <[i := f_set_pc x f]> (forwards s).
Proof.
  intros Hf. apply list_eq. intros j. simpl. destruct (decide (i = j)) as [<-|Hne].
  - rewrite list_lookup_alter_eq, list_lookup_insert_eq by (by eapply lookup_lt_Some). by rewrite Hf.
  - by rewrite list_lookup_alter_ne, list_lookup_insert_ne.
Qed.

Lemma datagrams_goto i x f (l : list Forward) : l !! i = Some f -> datagram_of <$> <[i := f_set_pc x f]> l = datagram_of <$> l.
Proof. intros Hf. rewrite list_fmap_insert. apply list_insert_id. by rewrite list_lookup_fmap, Hf. Qed.

(** A step that leaves what was received and only moves forwards on. *)
Lemma load_same s s' :
  load_inv s -> loop s' = loop s -> received s' = received s -> dropped_queries s' = dropped_queries s ->
  datagram_of <$> forwards s' = datagram_of <$> forwards s -> in_flight s' = zsum holds (forwards s') ->
  (in_flight s' <= in_flight s)%Z -> load_inv s'.
Proof.
  intros [H1 H2 H3 H4 H5 H6] El Er Ed Ef Ei Hle.
  assert (length (forwards s') = length (forwards s)) as Hl by (by rewrite <- (length_fmap datagram_of), Ef, length_fmap).
  assert (in_hand s' = in_hand s) as Eh by (unfold in_hand; by rewrite El).
  constructor; rewrite ?Ef, ?Eh, ?Er, ?Ed, ?Hl; try done; [lia|]. intros c q Hc. rewrite El in Hc. specialize (H3 _ _ Hc). lia.
Qed.

Lemma load_goto s i f x u a b :
  load_inv s -> forwards s !! i = Some f -> awaiting (f_pc f) = true -> x <> FFinished ->
  load_inv (goto i x (set_logs (received s) u a b s)).
Proof.
  intros Hi Hf Ha Hx. pose proof Hi as [H1 _ _ _ _ _].
  assert (forwards (goto i x (set_logs (received s) u a b s)) = <[i := f_set_pc x f]> (forwards s)) as E
    by (by apply (goto_insert i x f (set_logs (received s) u a b s))).
  assert (in_flight s = zsum holds (<[i := f_set_pc x f]> (forwards s))) as Ez.
  { rewrite (zsum_insert _ _ _ f) by done. assert (holds f = 1%Z) as -> by (unfold holds; by destruct (f_pc f)).
    assert (holds (f_set_pc x f) = 1%Z) as -> by (unfold holds; by destruct x). lia. }
  apply (load_same s); try done; rewrite ?E; [by apply datagrams_goto|by rewrite <- Ez].
Qed.

Lemma abort_datagrams (l : list Forward) : datagram_of <$> (f_abort <$> l) = datagram_of <$> l.
Proof. rewrite <- list_fmap_compose. by apply list_fmap_ext. Qed.

Lemma abort_holds (l : list Forward) : zsum holds (f_abort <$> l) = zsum holds l.
Proof. induction l as [|f l IH]; [done|]. rewrite fmap_cons. cbn [zsum]. by rewrite IH. Qed.

(** The loop moves without a datagram: nothing in hand before or after. *)
Lemma load_idle s s' :
  load_inv s -> in_hand s = [] -> in_hand s' = [] -> received s' = received s -> dropped_queries s' = dropped_queries s ->
  datagram_of <$> forwards s' = datagram_of <$> forwards s -> zsum holds (forwards s') = zsum holds (forwards s) ->
  in_flight s' = in_flight s -> load_inv s'.
Proof.
  intros [H1 H2 H3 H4 H5 H6] E1 E2 Er Ed Ef Ez Ei.
  assert (length (forwards s') = length (forwards s)) as Hl by (by rewrite <- (length_fmap datagram_of), Ef, length_fmap).
  rewrite E1 in *. constructor; rewrite ?Ef, ?E2, ?Er, ?Ed, ?Hl, ?Ei, ?Ez; try done.
  intros c q Hc. unfold in_hand in E2. by rewrite Hc in E2.
Qed.

Lemma min_over (d : Bytes) : (MAX_SCOPED_DNS_UDP_PAYLOAD <? Z.min (len d) (MAX_SCOPED_DNS_UDP_PAYLOAD + 1))%Z = false ->
  (len d <= MAX_SCOPED_DNS_UDP_PAYLOAD)%Z.
Proof. intros H%Z.ltb_ge. lia. Qed.

Lemma load_receive c d s : load_inv s -> loop s = LSelect -> load_inv (loop_receive c d s).
Proof.
  intros [H1 H2 H3 H4 H5 H6] El. unfold in_hand in *. rewrite El in *. unfold loop_receive.
  rewrite app_nil_r in H5, H6. destruct (_ <? _)%Z eqn:E; constructor; unfold in_hand; simpl; rewrite ?El; try done.
  - unfold len in *. rewrite length_app. simpl in *. lia.
  - rewrite app_nil_r. by apply sublist_inserts_r.
  - by rewrite app_nil_r.
  - unfold len in *. rewrite length_app. simpl in *. lia.
  - by apply sublist_app.
  - apply list.Forall_app. split; [done|]. constructor; [by apply min_over|done].
Qed.

Lemma load_check c q s : load_inv s -> loop s = LReceived c q -> load_inv (loop_check c q s).
Proof.
  intros [H1 H2 H3 H4 H5 H6] El. unfold in_hand in *. rewrite El in *. unfold loop_check.
  destruct (_ <=? _)%Z eqn:E; constructor; unfold in_hand; simpl in *; try done.
  - lia.
  - rewrite app_nil_r. etrans; [|exact H5]. by apply sublist_inserts_r.
  - rewrite app_nil_r. by apply list.Forall_app in H6 as [? _].
  - intros _ _ _. by apply Z.leb_gt in E.
Qed.

Lemma load_spawn c q s : load_inv s -> loop s = LAdmit c q -> load_inv (loop_spawn c q s).
Proof.
  intros [H1 H2 H3 H4 H5 H6] El. specialize (H3 _ _ El). unfold in_hand in *. rewrite El in *.
  constructor; unfold in_hand; simpl in *; try done.
  - rewrite zsum_app. simpl. unfold holds at 2. simpl. lia.
  - lia.
  - rewrite length_app. simpl. lia.
  - rewrite app_nil_r, fmap_app. exact H5.
  - rewrite app_nil_r, fmap_app. exact H6.
Qed.

Lemma load_release s i f :
  load_inv s -> forwards s !! i = Some f -> f_pc f = FRelease ->
  load_inv (goto i FFinished (set_load (in_flight s - 1) (dropped_queries s) s)).
Proof.
  intros Hi Hf Hp. pose proof Hi as [H1 _ _ _ _ _]. set (s1 := set_load _ _ s).
  pose proof (goto_insert i FFinished f s1 Hf) as E. apply (load_same s); try done.
  - rewrite E. by apply datagrams_goto.
  - rewrite E, (zsum_insert _ _ _ f) by done. simpl. unfold holds at 2 3. rewrite Hp. simpl. lia.
  - simpl. lia.
Qed.

Lemma load_step s s' : proxy_step s s' -> load_inv s -> load_inv s'.
Proof.
  intros Hs Hi.
  destruct Hs as [El Hsig|El|c d El|i El Hf Hr|i c q El Hf Hr|c q El|c q El|i El Hf Hr|El Ha|Hab El|i f Hf Ha|i f Hf Hab Ha|i f Hf Hp|i f Hf Hp
    |i f Hf Hp|i f r Hf Hp|i f r Hf Hp|i f Hf Hp|Hr|i Hsh|i Hsh Hl Ht|i Hsh Hl Ht|i Hsh El|i x Hsh Hw|Hr Hw].
  all: try (apply (load_idle s); unfold in_hand; simpl; rewrite ?El; try done; auto using abort_datagrams, abort_holds; fail).
  all: try (apply (load_same s); simpl; try done; apply Hi; fail).
  - by apply load_receive.
  - by apply load_check.
  - by apply load_spawn.
  - apply (load_idle s); unfold in_hand; simpl; auto using abort_datagrams, abort_holds. by destruct El as [-> | ->].
  - replace s with (set_logs (received s) (sent s) (answers s) (replies s) s) at 1 by (by destruct s). by eapply load_goto.
  - replace s with (set_logs (received s) (sent s) (answers s) (replies s) s) at 1 by (by destruct s). by eapply load_goto.
  - replace s with (set_logs (received s) (sent s) (answers s) (replies s) s) at 1 by (by destruct s). eapply load_goto; [done|done|by rewrite Hp|done].
  - replace s with (set_logs (received s) (sent s) (answers s) (replies s) s) at 1 by (by destruct s). eapply load_goto; [done|done|by rewrite Hp|done].
  - eapply load_goto; [done|done|by rewrite Hp|done].
  - eapply load_goto; [done|done|by rewrite Hp|by destruct (_ <? _)%Z].
  - eapply load_goto; [done|done|by rewrite Hp|done].
  - by eapply load_release.
  - destruct x; apply (load_same s); simpl; try done; apply Hi.
Qed.

(** ** What is sent where *)

Definition fwd_ok (s : ProxyState) (i : nat) (f : Forward) : Prop :=
  match f_pc f with
  | FBind | FConnect | FSend => (i ∉ (sent s).*1) /\ (i ∉ (answers s).*1) /\ (i ∉ (replies s).*1)
  | FRecv => (i, query f) ∈ sent s /\ (i ∉ (answers s).*1) /\ (i ∉ (replies s).*1)
  | FReply r => (i, query f) ∈ sent s /\ (i, r) ∈ answers s /\ (len r <= MAX_SCOPED_DNS_UDP_PAYLOAD)%Z /\ (i ∉ (replies s).*1)
  | FRelease | FFinished => True
  end.

Record log_inv (s : ProxyState) : Prop := {
  g_fwd : forall i f, forwards s !! i = Some f -> fwd_ok s i f;
  g_nodup : NoDup (sent s).*1 /\ NoDup (answers s).*1 /\ NoDup (replies s).*1;
  g_sent : forall i q, (i, q) ∈ sent s -> exists f, forwards s !! i = Some f /\ q = query f;
  g_answers : forall i r, (i, r) ∈ answers s -> i < length (forwards s);
  g_replies : forall i c r, (i, (c, r)) ∈ replies s -> exists f, forwards s !! i = Some f /\ c = client f /\
    (i, query f) ∈ sent s /\ (i, r) ∈ answers s /\ (len r <= MAX_SCOPED_DNS_UDP_PAYLOAD)%Z
}.

(** The forwards that were there stay, with their client and query. *)
Definition keeps (s s' : ProxyState) : Prop :=
  forall i f, forwards s !! i = Some f -> exists f', forwards s' !! i = Some f' /\ datagram_of f' = datagram_of f.

Lemma keeps_length s s' : keeps s s' -> length (forwards s) <= length (forwards s').
Proof.
  intros Hk. destruct (decide (length (forwards s) = 0)) as [->|Hn]; [lia|].
  destruct (lookup_lt_is_Some_2 (forwards s) (length (forwards s) - 1)) as [f Hf]; [lia|].
  destruct (Hk _ _ Hf) as (f' & Hf' & _). apply lookup_lt_Some in Hf'. lia.
Qed.

(** Logs that grow by entries of a forward that had none. *)
Lemma log_grow s s' us an rs :
  log_inv s -> keeps s s' -> (forall i f, forwards s' !! i = Some f -> fwd_ok s' i f) ->
  sent s' = sent s ++ us -> answers s' = answers s ++ an -> replies s' = replies s ++ rs ->
  NoDup (sent s').*1 /\ NoDup (answers s').*1 /\ NoDup (replies s').*1 ->
  (forall i q, (i, q) ∈ us -> exists f, forwards s' !! i = Some f /\ q = query f) ->
  (forall i r, (i, r) ∈ an -> i < length (forwards s')) ->
  (forall i c r, (i, (c, r)) ∈ rs -> exists f, forwards s' !! i = Some f /\ c = client f /\
     (i, query f) ∈ sent s' /\ (i, r) ∈ answers s' /\ (len r <= MAX_SCOPED_DNS_UDP_PAYLOAD)%Z) ->
  log_inv s'.
Proof.
  intros [G1 G2 G3 G4 G5] Hk Hf E1 E2 E3 Hn Hu Ha Hr. constructor; [done|done| | |].
  - intros i q. rewrite E1. intros [Hi|Hi]%elem_of_app; [|by apply Hu]. destruct (G3 _ _ Hi) as (f & Hfi & ->).
    destruct (Hk _ _ Hfi) as (f' & Hf' & Hd). exists f'. split; [done|]. by injection Hd as _ <-.
  - intros i r. rewrite E2. intros [Hi|Hi]%elem_of_app; [|by eapply Ha]. apply G4 in Hi. pose proof (keeps_length _ _ Hk). lia.
  - intros i c r. rewrite E3. intros [Hi|Hi]%elem_of_app; [|by apply Hr]. destruct (G5 _ _ _ Hi) as (f & Hfi & -> & H1 & H2 & H3).
    destruct (Hk _ _ Hfi) as (f' & Hf' & Hd). injection Hd as Hc Hq. exists f'. rewrite E1, E2, Hc, Hq. split_and!; try done; apply elem_of_app; by left.
Qed.

Lemma log_same s s' :
  log_inv s -> keeps s s' -> (forall i f, forwards s' !! i = Some f -> fwd_ok s i f) ->
  sent s' = sent s -> answers s' = answers s -> replies s' = replies s -> log_inv s'.
Proof.
  intros Hi Hk Hf E1 E2 E3. apply (log_grow s s' [] [] []); rewrite ?app_nil_r; try done; try (by intros; set_solver).
  - intros i f Hx. specialize (Hf i f Hx). unfold fwd_ok in *. by rewrite E1, E2, E3.
  - rewrite E1, E2, E3. apply Hi.
Qed.

Lemma keeps_goto i x f s s1 :
  forwards s !! i = Some f -> forwards s1 = forwards s -> keeps s (goto i x s1).
Proof.
  intros Hf E. intros j g Hj. rewrite (goto_insert i x f) by (by rewrite E). rewrite E. destruct (decide (i = j)) as [<-|Hne].
  - rewrite list_lookup_insert_eq by (by eapply lookup_lt_Some). assert (f = g) as -> by congruence. by eexists.
  - rewrite list_lookup_insert_ne by done. by exists g.
Qed.

Lemma goto_lookup i x f s j g : forwards s !! i = Some f -> forwards (goto i x s) !! j = Some g ->
  j = i /\ g = f_set_pc x f \/ j <> i /\ forwards s !! j = Some g.
Proof.
  intros Hf. rewrite (goto_insert i x f) by done. intros [(-> & <- & _)|[Hn Hj]]%list_lookup_insert_Some; [by left|right]. by split.
Qed.

(** A forward moves without a datagram. *)
Lemma log_goto s s1 i x f :
  log_inv s -> forwards s !! i = Some f -> forwards s1 = forwards s -> sent s1 = sent s -> answers s1 = answers s -> replies s1 = replies s ->
  fwd_ok s i (f_set_pc x f) -> log_inv (goto i x s1).
Proof.
  intros Hi Hf E1 E2 E3 E4 Hok. apply (log_same s); try done; [by eapply keeps_goto|].
  intros j g Hg. apply (goto_lookup _ _ f) in Hg as [[-> ->]|[_ Hj]]; [done| |by rewrite E1]. rewrite E1 in Hj. by apply Hi.
Qed.

Lemma nodup_snoc {A} (l : list (nat * A)) i x : NoDup l.*1 -> (i ∉ l.*1) -> NoDup (l ++ [(i, x)]).*1.
Proof.
  intros Hn Hi. rewrite fmap_app. apply list.NoDup_app. split_and!; [done| |by apply NoDup_singleton].
  intros y Hy ->%list_elem_of_singleton. by apply Hi.
Qed.

(** Growing the log of forward [i] keeps the others in order. *)
Lemma fwd_ok_other s s' i j f us an rs :
  fwd_ok s j f -> j <> i -> (forall p, p ∈ us -> p.1 = i) -> (forall p, p ∈ an -> p.1 = i) -> (forall p, p ∈ rs -> p.1 = i) ->
  sent s' = sent s ++ us -> answers s' = answers s ++ an -> replies s' = replies s ++ rs -> fwd_ok s' j f.
Proof.
  intros Hok Hj Hu Ha Hr E1 E2 E3. unfold fwd_ok in *. rewrite E1, E2, E3.
  assert (forall A (l l' : list (nat * A)), (forall p, p ∈ l' -> p.1 = i) -> (j ∉ l.*1) -> j ∉ (l ++ l').*1) as Hx.
  { intros A l l' Hl Hn. rewrite fmap_app, elem_of_app. intros [?|(p & -> & Hp)%list_elem_of_fmap]; [done|]. by apply Hl in Hp. }
  destruct (f_pc f); try done; destruct_and!; split_and!; try (by apply Hx); try (by apply elem_of_app; left); done.
Qed.

(** Forward [i] sends, receives or answers, and moves on. *)
Lemma log_say s i f x us an rs :
  let s' := goto i x (set_logs (received s) (sent s ++ us) (answers s ++ an) (replies s ++ rs) s) in
  log_inv s -> forwards s !! i = Some f ->
  (forall p, p ∈ us -> p = (i, query f)) -> (forall p, p ∈ an -> p.1 = i) ->
  (forall p, p ∈ rs -> p.1 = i) ->
  (forall c r, (i, (c, r)) ∈ rs -> c = client f /\ (i, query f) ∈ sent s ++ us /\ (i, r) ∈ answers s ++ an /\
     (len r <= MAX_SCOPED_DNS_UDP_PAYLOAD)%Z) ->
  NoDup (sent s ++ us).*1 /\ NoDup (answers s ++ an).*1 /\ NoDup (replies s ++ rs).*1 ->
  fwd_ok s' i (f_set_pc x f) -> log_inv s'.
Proof.
  intros s' Hi Hf Hu Ha Hr1 Hr Hn Hok.
  assert (forwards s' !! i = Some (f_set_pc x f)) as Hf'.
  { unfold s'. rewrite (goto_insert i x f) by done. apply list_lookup_insert_eq. by eapply lookup_lt_Some. }
  apply (log_grow s s' us an rs); try done.
  - by eapply keeps_goto.
  - intros j g Hg. apply (goto_lookup _ _ f) in Hg as [[-> ->]|[Hj Hg]]; [done| |done].
    eapply (fwd_ok_other s s' i j g us an rs); try done; [by apply Hi|]. intros p Hp. by rewrite (Hu p Hp).
  - intros j q Hj. pose proof (Hu _ Hj) as [= -> ->]. exists (f_set_pc x f). by split.
  - intros j r Hj. pose proof (Ha _ Hj) as Hj'. simpl in Hj'. subst j. by eapply lookup_lt_Some.
  - intros j c r Hj. pose proof (Hr1 _ Hj) as Hj'. simpl in Hj'. subst j. destruct (Hr _ _ Hj) as (-> & ?). exists (f_set_pc x f). by split.
Qed.

Lemma log_step s s' : proxy_step s s' -> log_inv s -> log_inv s'.
Proof.
  intros Hs Hi. pose proof Hi as [G1 (N1 & N2 & N3) G3 G4 G5].
  destruct Hs as [El Hsig|El|c d El|i El Hf Hr|i c q El Hf Hr|c q El|c q El|i El Hf Hr|El Ha|Hab El|i f Hf Ha|i f Hf Hab Ha|i f Hf Hp|i f Hf Hp
    |i f Hf Hp|i f r Hf Hp|i f r Hf Hp|i f Hf Hp|Hr|i Hsh|i Hsh Hl Ht|i Hsh Hl Ht|i Hsh El|i x Hsh Hw|Hr Hw].
  all: try (apply (log_same s); simpl; try done; intros j g Hg; by eexists).
  all: try (apply (log_same s); simpl; try done;
    [intros j g Hg; exists (f_abort g); simpl; by rewrite list_lookup_fmap, Hg|
     intros j g Hg; apply list_lookup_fmap_Some in Hg as (g0 & -> & Hg); by apply (G1 j g0)]).
  all: try (eapply (log_goto s); simpl; try done; fail).
  - unfold loop_receive. destruct (_ <? _)%Z; apply (log_same s); simpl; try done; intros j g Hg; by eexists.
  - unfold loop_check. destruct (_ <=? _)%Z; apply (log_same s); simpl; try done; intros j g Hg; by eexists.
  - apply (log_same s); simpl; try done.
    + intros j g Hg. exists g. split; [|done]. simpl. by apply lookup_app_l_Some.
    + intros j g Hg. apply lookup_app_Some in Hg as [Hg|[Hge Hg]]; [by apply G1|]. apply list_lookup_singleton_Some in Hg as [Hz <-].
      assert (j = length (forwards s)) as -> by lia. unfold fwd_ok. simpl.
      split_and!; intros ([k y] & Hk & Hin)%list_elem_of_fmap; simpl in Hk; subst k.
      * destruct (G3 _ _ Hin) as (g & Hg & _). apply lookup_lt_Some in Hg. lia.
      * apply G4 in Hin. lia.
      * destruct y as [c' r]. destruct (G5 _ _ _ Hin) as (g & Hg & _). apply lookup_lt_Some in Hg. lia.
  - eapply (log_goto s); try done. specialize (G1 _ _ Hf). unfold fwd_ok in *. simpl. by rewrite Hp in G1.
  - eapply (log_goto s); try done. specialize (G1 _ _ Hf). unfold fwd_ok in *. simpl. by rewrite Hp in G1.
  - pose proof (G1 _ _ Hf) as Hok. unfold fwd_ok in Hok. rewrite Hp in Hok. destruct Hok as (O1 & O2 & O3).
    rewrite <- (app_nil_r (answers s)), <- (app_nil_r (replies s)). apply (log_say s i f FRecv); rewrite ?app_nil_r; try done.
    + by intros p ->%list_elem_of_singleton.
    + by intros p ?%not_elem_of_nil.
    + by intros p ?%not_elem_of_nil.
    + by intros c r ?%not_elem_of_nil.
    + split_and!; [by apply nodup_snoc|done|done].
    + unfold fwd_ok. simpl. rewrite ?app_nil_r. split_and!; [apply elem_of_app; right; by apply list_elem_of_singleton|done|done].
  - pose proof (G1 _ _ Hf) as Hok. unfold fwd_ok in Hok. rewrite Hp in Hok. destruct Hok as (O1 & O2 & O3).
    rewrite <- (app_nil_r (sent s)), <- (app_nil_r (replies s)). apply (log_say s i f); rewrite ?app_nil_r; try done.
    + by intros p ?%not_elem_of_nil.
    + by intros p ->%list_elem_of_singleton.
    + by intros p ?%not_elem_of_nil.
    + by intros c r' ?%not_elem_of_nil.
    + split_and!; [done|by apply nodup_snoc|done].
    + unfold fwd_ok. simpl. rewrite ?app_nil_r. destruct (_ <? _)%Z eqn:E; [done|].
      split_and!; [done|apply elem_of_app; right; by apply list_elem_of_singleton|by apply min_over|done].
  - pose proof (G1 _ _ Hf) as Hok. unfold fwd_ok in Hok. rewrite Hp in Hok. destruct Hok as (O1 & O2 & O3 & O4).
    rewrite <- (app_nil_r (sent s)), <- (app_nil_r (answers s)). apply (log_say s i f); rewrite ?app_nil_r; try done.
    + by intros p ?%not_elem_of_nil.
    + by intros p ?%not_elem_of_nil.
    + by intros p ->%list_elem_of_singleton.
    + by intros c r' [= -> ->]%list_elem_of_singleton.
    + split_and!; [done|done|by apply nodup_snoc].
  - destruct x; apply (log_same s); simpl; try done; intros j g Hg; by eexists.
Qed.

(** ** How it ends *)

Record end_inv (s : ProxyState) : Prop := {
  e_reaped : forall i, i ∈ reaped s -> finished s i;
  e_ended : loop s = LEnded -> loop_aborted s = false -> forall i f, forwards s !! i = Some f -> f_pc f = FFinished;
  e_lock : forall i, lock s = Some i <-> shutdowns s !! i = Some SAwait;
  e_await : lock s <> None -> task_taken s = false;
  e_taken : task_taken s = true -> loop s = LEnded /\ loop_aborted s = false;
  e_returned : SReturned ∈ shutdowns s -> task_taken s = true;
  e_aborted : loop_aborted s = true -> released s = true /\ task_taken s = false;
  e_released : released s = true -> Forall (fun x => shutdown_waits x = false) (shutdowns s);
  e_drain : loop s = LDrain -> Forall (fun f => f_aborted f = true) (forwards s)
}.

(** What the handle and its callers know. *)
Definition same_handle (s s' : ProxyState) : Prop :=
  loop_aborted s' = loop_aborted s /\ task_taken s' = task_taken s /\ lock s' = lock s /\
  shutdowns s' = shutdowns s /\ released s' = released s.

Lemma end_loop s s' :
  end_inv s -> same_handle s s' -> (forall i, i ∈ reaped s' -> finished s' i) ->
  (loop s' = LEnded -> loop_aborted s = false -> forall i f, forwards s' !! i = Some f -> f_pc f = FFinished) ->
  (loop s = LEnded -> loop s' = LEnded) ->
  (loop s' = LDrain -> Forall (fun f => f_aborted f = true) (forwards s')) -> end_inv s'.
Proof.
  intros [A B C D E F G H I] (E1 & E2 & E3 & E4 & E5) Hr He Hl Hd. constructor; rewrite ?E1, ?E2, ?E3, ?E4, ?E5; try done.
  intros Ht. destruct (E Ht). auto.
Qed.

Lemma finished_goto s s1 i x f j :
  forwards s !! i = Some f -> f_pc f <> FFinished -> forwards s1 = forwards s -> finished s j -> finished (goto i x s1) j.
Proof.
  intros Hf Hp E (g & Hg & Hj). exists g. split; [|done]. rewrite (goto_insert i x f) by (by rewrite E). rewrite E.
  rewrite list_lookup_insert_ne; [done|]. intros ->. congruence.
Qed.

Lemma end_goto s s1 i x f :
  end_inv s -> forwards s !! i = Some f -> f_pc f <> FFinished -> forwards s1 = forwards s -> reaped s1 = reaped s ->
  loop s1 = loop s -> same_handle s s1 -> end_inv (goto i x s1).
Proof.
  intros Hi Hf Hp E1 E2 E3 Hh. pose proof Hi as [A B _ _ _ _ _ _ I]. apply (end_loop s); try done; simpl; rewrite ?E2, ?E3; try done.
  - intros j Hj. eapply finished_goto; eauto.
  - intros El Ha. exfalso. apply Hp. by eapply B.
  - intros El. specialize (I El). change (Forall (fun f => f_aborted f = true) (forwards (goto i x s1))).
    rewrite (goto_insert i x f) by (by rewrite E1). rewrite E1. apply Forall_insert; [done|]. by apply (Forall_lookup_1 _ _ _ _ I) in Hf.
Qed.

Lemma finished_abort s s1 i : forwards s1 = forwards s -> finished s i -> finished (abort_all s1) i.
Proof. intros E (g & Hg & Hj). exists (f_abort g). simpl. rewrite list_lookup_fmap, E, Hg. done. Qed.

Lemma aborted_all (l : list Forward) : Forall (fun f => f_aborted f = true) (f_abort <$> l).
Proof. apply Forall_fmap, Forall_true. done. Qed.

Lemma call_lookup_s (l : list ShutdownPc) x i : (l ++ [x]) !! i = Some SAwait <-> l !! i = Some SAwait \/ i = length l /\ x = SAwait.
Proof.
  rewrite lookup_app_Some, list_lookup_singleton_Some. split.
  - intros [?|(? & ? & ->)]; [by left|right; split; [lia|done]].
  - intros [?|[-> ->]]; [by left|right; split_and!; [lia|lia|done]].
Qed.

(** A caller of [shutdown] moves on without the lock. *)
Lemma end_caller s s' i x y :
  end_inv s -> shutdowns s !! i = Some x -> x <> SAwait -> x <> SReturned -> y <> SAwait ->
  (y = SReturned -> task_taken s = true) -> (released s = true -> shutdown_waits y = false) ->
  shutdowns s' = <[i := y]> (shutdowns s) -> forwards s' = forwards s -> reaped s' = reaped s -> loop s' = loop s ->
  loop_aborted s' = loop_aborted s -> task_taken s' = task_taken s -> lock s' = lock s -> released s' = released s -> end_inv s'.
Proof.
  intros [A B C D E F G H I] Hi Hx1 Hx2 Hy Hr Hw E1 E2 E3 E4 E5 E6 E7 E8.
  constructor; unfold finished; rewrite ?E1, ?E2, ?E3, ?E4, ?E5, ?E6, ?E7, ?E8; try done.
  - intros j. rewrite C, list_lookup_insert_Some. split; [|naive_solver]. intros Hj. right. split; [|done]. intros ->. congruence.
  - intros [j Hj]%list_elem_of_lookup_1. apply list_lookup_insert_Some in Hj as [(_ & Hj & _)|[_ Hj]]; [by apply Hr|].
    by eapply F, list_elem_of_lookup_2.
  - intros Hrel. apply Forall_insert; [by apply H|by apply Hw].
Qed.

Lemma end_step s s' : proxy_step s s' -> end_inv s -> end_inv s'.
Proof.
  intros Hs Hi. pose proof Hi as [A B C D E F G H I].
  destruct Hs as [El Hsig|El|c d El|i El Hf Hr|i c q El Hf Hr|c q El|c q El|i El Hf Hr|El Ha|Hab El|i f Hf Ha|i f Hf Hab Ha|i f Hf Hp|i f Hf Hp
    |i f Hf Hp|i f r Hf Hp|i f r Hf Hp|i f Hf Hp|Hr|i Hsh|i Hsh Hl Ht|i Hsh Hl Ht|i Hsh El|i x Hsh Hw|Hr Hw].
  all: try (eapply (end_goto s); try done; try (rewrite Hp; done); by intros Hx; rewrite Hx in Ha).
  - apply (end_loop s); try done; simpl; [intros; by eapply (finished_abort s), A|congruence|intros; apply aborted_all].
  - apply (end_loop s); try done; simpl; [intros; by eapply (finished_abort s), A|congruence|intros; apply aborted_all].
  - unfold loop_receive. destruct (_ <? _)%Z; apply (end_loop s); simpl; try done; rewrite ?El; done.
  - apply (end_loop s); simpl; try done; rewrite ?El; try done. by intros j [?| ->%list_elem_of_singleton]%elem_of_app; [apply A|].
  - apply (end_loop s); simpl; try done; rewrite ?El; try done. by intros j [?| ->%list_elem_of_singleton]%elem_of_app; [apply A|].
  - unfold loop_check. destruct (_ <=? _)%Z; apply (end_loop s); simpl; try done; rewrite ?El; done.
  - apply (end_loop s); simpl; try done; rewrite ?El; try done. intros j (g & Hg & Hp)%A. exists g. split; [|done]. by apply lookup_app_l_Some.
  - apply (end_loop s); simpl; try done; rewrite ?El; try done. by intros j [?| ->%list_elem_of_singleton]%elem_of_app; [apply A|].
  - apply (end_loop s); simpl; try done. intros _ _ i f Hf. destruct (A i) as (g & Hg & Hp); [by eapply Ha, lookup_lt_Some|]. congruence.
  - apply (end_loop s); simpl; try done; [intros; by eapply (finished_abort s), A|intros; congruence].
  - constructor; simpl; try done.
    + intros i. rewrite C, call_lookup_s. naive_solver.
    + rewrite elem_of_app, list_elem_of_singleton. intros [?|?]; [by apply F|done].
    + congruence.
  - apply (end_caller s _ i SSend SLock); try done. intros Hx. apply H in Hx. by apply (Forall_lookup_1 _ _ _ _ Hx) in Hsh.
  - constructor; simpl; try done.
    + intros j. rewrite list_lookup_insert_Some. split; [intros [= ->]; left; split_and!; [done|done|by eapply lookup_lt_Some]|].
      intros [(-> & _)|[_ Hj]]; [done|]. apply C in Hj. congruence.
    + intros [j Hj]%list_elem_of_lookup_1. apply list_lookup_insert_Some in Hj as [(_ & Hj & _)|[_ Hj]]; [done|].
      rewrite <- Ht. by eapply F, list_elem_of_lookup_2.
    + intros Hx. by destruct (G Hx).
    + intros Hx. apply H in Hx. by apply (Forall_lookup_1 _ _ _ _ Hx) in Hsh.
  - by apply (end_caller s _ i SLock SReturned).
  - assert (loop_aborted s = false) as Hla.
    { destruct (loop_aborted s) eqn:Ea; [|done]. destruct (G eq_refl) as [Hrel _]. apply H in Hrel. by apply (Forall_lookup_1 _ _ _ _ Hrel) in Hsh. }
    assert (released s = true -> False) as Hnr.
    { intros Hx. apply H in Hx. by apply (Forall_lookup_1 _ _ _ _ Hx) in Hsh. }
    constructor; simpl; try done.
    + intros j. split; [done|]. intros [(_ & ? & _)|[Hj Hx]]%list_lookup_insert_Some; [done|]. apply C in Hsh. apply C in Hx. congruence.
    + congruence.
  - destruct (decide (x = SAwait)) as [->|Hx].
    + assert (released s = true -> False) as Hnr.
      { intros Hx. apply H in Hx. by apply (Forall_lookup_1 _ _ _ _ Hx) in Hsh. }
      constructor; simpl; try done.
      * intros j. split; [done|]. intros [(_ & ? & _)|[Hj Hx]]%list_lookup_insert_Some; [done|]. apply C in Hsh. apply C in Hx. congruence.
      * intros [j Hj]%list_elem_of_lookup_1. apply list_lookup_insert_Some in Hj as [(_ & Hj & _)|[_ Hj]]; [done|]. by eapply F, list_elem_of_lookup_2.
    + apply (end_caller s _ i x SCancelled); try done; by destruct x.
  - constructor; simpl; try done.
    + intros Hl Ht. apply B; [done|]. destruct (loop_aborted s) eqn:Ea; [|done]. destruct (G eq_refl). congruence.
    + intros Ht. rewrite Ht. by destruct (E Ht).
    + intros Ht%negb_true_iff. by split.
Qed.

(** ** Theorems *)

Definition proxy_reachable (s : ProxyState) : Prop := rtc proxy_step proxy_started s.

Lemma proxy_inv s : proxy_reachable s -> load_inv s /\ log_inv s /\ end_inv s.
Proof.
  intros Hr. split_and!.
  - refine (rtc_invariant _ load_inv _ _ load_step Hr _). by constructor.
  - refine (rtc_invariant _ log_inv _ _ log_step Hr _).
    constructor; simpl; try done; try (intros; by match goal with H : _ ∈ _ |- _ => apply not_elem_of_nil in H end). split_and!; constructor.
  - refine (rtc_invariant _ end_inv _ _ end_step Hr _).
    constructor; simpl; try done; try (intros; by match goal with H : _ ∈ _ |- _ => apply not_elem_of_nil in H end).
Qed.

(** C32. The proxy is bounded and forwards faithfully.  However the tasks are
    interleaved and whatever the sockets answer: the counter is exactly the
    number of forwards that have not ended and never above 32; every datagram
    that arrived was forwarded in its turn, counted as dropped, or is in hand;
    and each query goes upstream at most once, unchanged, and is answered at
    most once, to the client that sent it, with an answer that came for this
    very query, both within 4096 bytes. *)
Theorem dns_proxy_bounded_and_faithful (s : ProxyState) :
  proxy_reachable s ->
  in_flight s = zsum holds (forwards s) /\ (0 <= in_flight s <= 32)%Z /\
  (len (received s) = dropped_queries s + Z.of_nat (length (forwards s)) + Z.of_nat (length (in_hand s)))%Z /\
  (datagram_of <$> forwards s) ++ in_hand s `sublist_of` received s /\
  NoDup (sent s).*1 /\ NoDup (replies s).*1 /\
  (forall i q, (i, q) ∈ sent s -> exists f, forwards s !! i = Some f /\ q = query f /\ (len q <= 4096)%Z) /\
  (forall i c r, (i, (c, r)) ∈ replies s -> exists f, forwards s !! i = Some f /\ c = client f /\
     (i, query f) ∈ sent s /\ (i, r) ∈ answers s /\ (len r <= 4096)%Z).
Proof.
  intros Hr. destruct (proxy_inv s Hr) as ([L1 L2 L3 L4 L5 L6] & [_ (N1 & _ & N3) G3 _ G5] & _). split_and!; try done.
  - rewrite L1. apply zsum_nonneg, in_flight_holds_nonneg.
  - intros i q Hq. destruct (G3 _ _ Hq) as (f & Hf & ->). exists f. split_and!; try done.
    apply list.Forall_app in L6 as [L6 _]. rewrite Forall_fmap in L6. by apply (Forall_lookup_1 _ _ _ _ L6) in Hf.
Qed.

(** Nothing is left after a shutdown. *)
Definition at_rest (s : ProxyState) : Prop :=
  loop s = LEnded /\ forall i f, forwards s !! i = Some f -> f_pc f = FFinished.

Lemma rest_step s s' : proxy_step s s' -> at_rest s ->
  at_rest s' /\ received s' = received s /\ sent s' = sent s /\ replies s' = replies s.
Proof.
  intros Hs [Hl Hf0].
  destruct Hs as [El Hsig|El|c d El|i El Hf Hr|i c q El Hf Hr|c q El|c q El|i El Hf Hr|El Ha|Hab El|i f Hf Ha|i f Hf Hab Ha|i f Hf Hp|i f Hf Hp
    |i f Hf Hp|i f r Hf Hp|i f r Hf Hp|i f Hf Hp|Hr|i Hsh|i Hsh Hlk Ht|i Hsh Hlk Ht|i Hsh El|i x Hsh Hw|Hr Hw].
  all: try (specialize (Hf0 _ _ Hf); rewrite Hf0 in *; done).
  all: try (by destruct El; congruence).
  all: try congruence.
  all: try (split_and!; done).
  by destruct x.
Qed.

(** A [shutdown] that has returned leaves nothing running: the loop and every
    forward have ended, no place is taken, and from then on nothing is received,
    sent upstream or answered. *)
Theorem dns_proxy_shutdown_final (s s' : ProxyState) :
  proxy_reachable s -> SReturned ∈ shutdowns s -> rtc proxy_step s s' ->
  at_rest s /\ in_flight s = 0%Z /\ at_rest s' /\ received s' = received s /\ sent s' = sent s /\ replies s' = replies s.
Proof.
  intros Hr Hret Hs. destruct (proxy_inv s Hr) as ([L1 _ _ _ _ _] & _ & [_ B _ _ E F _ _ _]).
  destruct (E (F Hret)) as [Hl Hla]. assert (at_rest s) as Hrest by (split; [done|by apply B]).
  assert (at_rest s' /\ received s' = received s /\ sent s' = sent s /\ replies s' = replies s) as Hs'.
  { refine (rtc_invariant _ (fun x => at_rest x /\ received x = received s /\ sent x = sent s /\ replies x = replies s) _ _ _ Hs _); [|done].
    intros a b Hab (Ha & E1 & E2 & E3). destruct (rest_step _ _ Hab Ha) as (? & -> & -> & ->). done. }
  split_and!; try done; try apply Hs'. rewrite L1. destruct Hrest as [_ Hrest]. clear - Hrest. induction (forwards s) as [|f l IH]; [done|].
  simpl. rewrite IH; [|intros i g Hg; by apply (Hrest (S i))]. unfold holds. by rewrite (Hrest 0 f eq_refl).
Qed.

(** ** A shutdown can always complete *)

Definition draining (s s' : ProxyState) : Prop :=
  rtc proxy_step s s' /\ loop s' = LDrain /\ received s' = received s /\ sent s' = sent s /\ replies s' = replies s /\
  length (forwards s') = length (forwards s) /\ forall i, i ∈ reaped s -> i ∈ reaped s'.

Lemma draining_refl s : loop s = LDrain -> draining s s.
Proof. intros Hl. by split_and!. Qed.

Lemma draining_trans s1 s2 s3 : draining s1 s2 -> draining s2 s3 -> draining s1 s3.
Proof.
  intros (A1 & A2 & A3 & A4 & A5 & A6 & A7) (B1 & B2 & B3 & B4 & B5 & B6 & B7). split_and!; try congruence; [by etrans|]. auto.
Qed.

Lemma draining_step s s' : proxy_step s s' -> loop s' = LDrain -> received s' = received s -> sent s' = sent s -> replies s' = replies s ->
  length (forwards s') = length (forwards s) -> (forall i, i ∈ reaped s -> i ∈ reaped s') -> draining s s'.
Proof. intros. split_and!; try done. by apply rtc_once. Qed.

Lemma goto_same i x f s : forwards s !! i = Some f ->
  forwards (goto i x s) !! i = Some (f_set_pc x f) /\ length (forwards (goto i x s)) = length (forwards s).
Proof.
  intros Hf. rewrite (goto_insert i x f) by done. rewrite length_insert, list_lookup_insert_eq by (by eapply lookup_lt_Some). done.
Qed.

(** One forward is brought to its end and reaped. *)
Lemma drain_finished s i : loop s = LDrain -> finished s i -> exists s', draining s s' /\ i ∈ reaped s'.
Proof.
  intros Hl Hf. destruct (decide (i ∈ reaped s)) as [Hi|Hi]; [exists s; split; [by apply draining_refl|done]|].
  exists (set_reaped (reaped s ++ [i]) s). split; [|simpl; apply elem_of_app; right; by apply list_elem_of_singleton].
  apply draining_step; try done; [by apply s_drain_join|]. intros j Hj. simpl. apply elem_of_app. by left.
Qed.

Lemma drain_releasing s i f : loop s = LDrain -> forwards s !! i = Some f -> f_pc f = FRelease -> exists s', draining s s' /\ i ∈ reaped s'.
Proof.
  intros Hl Hf Hp. set (s1 := set_load (in_flight s - 1) (dropped_queries s) s).
  destruct (goto_same i FFinished f s1 Hf) as [Hg Hn]. destruct (drain_finished (goto i FFinished s1) i) as (s' & Hd & Hi); [done|by eexists|].
  exists s'. split; [|done]. eapply draining_trans; [|exact Hd]. apply draining_step; try done. by eapply s_release.
Qed.

Lemma drain_one s i : end_inv s -> loop s = LDrain -> i < length (forwards s) -> exists s', draining s s' /\ i ∈ reaped s'.
Proof.
  intros Hi Hl Hlt. apply lookup_lt_is_Some_2 in Hlt as [f Hf]. pose proof (e_drain s Hi Hl) as Hab.
  apply (Forall_lookup_1 _ _ _ _ Hab) in Hf as Ha. destruct (awaiting (f_pc f)) eqn:Hw.
  - destruct (goto_same i FRelease f s Hf) as [Hg Hn]. destruct (drain_releasing (goto i FRelease s) i (f_set_pc FRelease f)) as (s' & Hd & Hin); try done.
    exists s'. split; [|done]. eapply draining_trans; [|exact Hd]. apply draining_step; try done. by eapply s_aborted.
  - destruct (f_pc f) eqn:Hp; try done; [by eapply drain_releasing|]. apply drain_finished; [done|by eexists].
Qed.

Lemma end_steps s s' : rtc proxy_step s s' -> end_inv s -> end_inv s'.
Proof. intros Hr. by refine (rtc_invariant _ end_inv _ _ end_step Hr). Qed.

Lemma drain_upto n s : end_inv s -> loop s = LDrain -> n <= length (forwards s) ->
  exists s', draining s s' /\ forall i, i < n -> i ∈ reaped s'.
Proof.
  intros Hi Hl. induction n as [|n IH]; intros Hn; [exists s; split; [by apply draining_refl|lia]|].
  destruct IH as (s1 & Hd & Hr); [lia|]. pose proof Hd as (A1 & A2 & _ & _ & _ & A6 & _).
  destruct (drain_one s1 n) as (s2 & Hd2 & Hn2); [by eapply end_steps|done|lia|]. exists s2. split; [by eapply draining_trans|].
  intros i Hi'. destruct (decide (i = n)) as [->|]; [done|]. apply Hd2, Hr. lia.
Qed.

Lemma drain_ends s : end_inv s -> loop s = LDrain ->
  exists s', rtc proxy_step s s' /\ loop s' = LEnded /\ received s' = received s /\ sent s' = sent s /\ replies s' = replies s.
Proof.
  intros Hi Hl. destruct (drain_upto (length (forwards s)) s) as (s1 & (A1 & A2 & A3 & A4 & A5 & A6 & A7) & Hr); [done|done|done|].
  exists (set_loop LEnded s1). split_and!; try done. eapply rtc_r; [exact A1|]. apply s_drained; [done|]. intros i Hlt. apply Hr. by rewrite A6 in Hlt.
Qed.

(** Once the signal is given the loop can always run to its end, without a
    datagram, an answer or an error from outside and without sending anything
    more; the [shutdown] that waits for it then returns. *)
Theorem dns_proxy_shutdown_ends (s : ProxyState) :
  proxy_reachable s -> signalled s = true ->
  exists s', rtc proxy_step s s' /\ loop s' = LEnded /\ received s' = received s /\ sent s' = sent s /\ replies s' = replies s.
Proof.
  intros Hr Hsig. destruct (proxy_inv s Hr) as (_ & _ & Hi).
  assert (forall x, end_inv x -> loop x = LSelect -> signalled x = true ->
    exists s', rtc proxy_step x s' /\ loop s' = LEnded /\ received s' = received x /\ sent s' = sent x /\ replies s' = replies x) as Hsel.
  { intros x Hx El Es. pose proof (s_signal x El Es) as Hst.
    destruct (drain_ends (abort_all (set_loop LDrain x))) as (s' & A & B); [by eapply end_step|done|].
    exists s'. split; [by eapply rtc_l|exact B]. }
  destruct (loop s) as [|c q|c q| |] eqn:El.
  - by apply Hsel.
  - pose proof (s_check s c q El) as Hst. pose proof (end_step _ _ Hst Hi) as Hi1. unfold loop_check in *. destruct (_ <=? _)%Z.
    + destruct (Hsel _ Hi1) as (s' & A & B); [done|done|]. exists s'. split; [by eapply rtc_l|exact B].
    + pose proof (s_spawn _ c q (eq_refl : loop (set_loop (LAdmit c q) s) = LAdmit c q)) as Hst2. pose proof (end_step _ _ Hst2 Hi1) as Hi2.
      destruct (Hsel _ Hi2) as (s' & A & B); [done|done|]. exists s'. split; [|exact B]. eapply rtc_l; [exact Hst|]. by eapply rtc_l.
  - pose proof (s_spawn s c q El) as Hst. pose proof (end_step _ _ Hst Hi) as Hi2.
    destruct (Hsel _ Hi2) as (s' & A & B); [done|done|]. exists s'. split; [by eapply rtc_l|exact B].
  - by apply drain_ends.
  - by exists s.
Qed.

(** ** Witnesses *)

(** A query is forwarded and answered, a second one is cut off by a shutdown. *)
Definition demo_query : Bytes := [Byte.x01; Byte.x02].
Definition demo_response : Bytes := [Byte.x01; Byte.x80].
Definition demo_served : ProxyState :=
  mkProxyState 1 0 [mkForward 5 demo_query false FFinished; mkForward 6 demo_query false FRecv] [] LSelect false true false None [SLock] false
    [(5, demo_query); (6, demo_query)] [(0, demo_query); (1, demo_query)] [(0, demo_response)] [(0, (5, demo_response))].
Definition demo_stopped : ProxyState :=
  mkProxyState 0 0 [mkForward 5 demo_query true FFinished; mkForward 6 demo_query true FFinished] [0; 1] LEnded false true true None [SReturned] false
    [(5, demo_query); (6, demo_query)] [(0, demo_query); (1, demo_query)] [(0, demo_response)] [(0, (5, demo_response))].

Ltac settle := match goal with |- rtc _ ?a _ => let b := eval vm_compute in a in replace a with b by (by vm_compute) end.
Ltac proxy_do c := eapply rtc_l; [eapply c; try done; try (by eexists)|settle].

Lemma demo_served_reached : proxy_reachable demo_served.
Proof.
  unfold proxy_reachable. proxy_do (s_receive proxy_started 5 demo_query). proxy_do s_check. proxy_do s_spawn.
  proxy_do (fun s => s_bound s 0). proxy_do (fun s => s_connected s 0). proxy_do (fun s => s_sent s 0).
  proxy_do (fun s => s_receive s 6 demo_query). proxy_do s_check. proxy_do s_spawn.
  proxy_do (fun s => s_bound s 1). proxy_do (fun s => s_connected s 1). proxy_do (fun s => s_sent s 1).
  proxy_do (fun s f => s_answer s 0 f demo_response). proxy_do (fun s f => s_reply s 0 f demo_response). proxy_do (fun s => s_release s 0).
  proxy_do s_shutdown. proxy_do (fun s => s_send s 0). constructor.
Qed.

Lemma demo_stopped_after : rtc proxy_step demo_served demo_stopped.
Proof.
  proxy_do s_signal. proxy_do (fun s => s_lock s 0). proxy_do (fun s => s_aborted s 1). proxy_do (fun s => s_release s 1).
  eapply rtc_l; [apply (s_drain_join _ 0); [done|by eexists|by apply not_elem_of_nil]|settle].
  eapply rtc_l; [apply (s_drain_join _ 1); [done|by eexists|set_solver]|settle].
  eapply rtc_l; [apply s_drained; [done|]|settle].
  { intros i Hi. cbn in Hi. destruct i as [|[|]]; [set_solver|set_solver|lia]. }
  proxy_do (fun s => s_joined s 0). constructor.
Qed.

Lemma demo_stopped_reached : proxy_reachable demo_stopped.
Proof. unfold proxy_reachable. etrans; [apply demo_served_reached|apply demo_stopped_after]. Qed.

Lemma dns_proxy_bounded_and_faithful_witness : (0 <= in_flight demo_served <= 32)%Z /\ NoDup (replies demo_served).*1.
Proof.
  destruct (dns_proxy_bounded_and_faithful demo_served demo_served_reached) as (_ & H1 & _ & _ & _ & H2 & _).
  split; [exact H1|exact H2].
Defined.

Lemma dns_proxy_shutdown_final_witness : at_rest demo_stopped /\ in_flight demo_stopped = 0%Z.
Proof.
  destruct (dns_proxy_shutdown_final demo_stopped demo_stopped demo_stopped_reached) as (H1 & H2 & _);
    [by apply list_elem_of_singleton|constructor|]. split; [exact H1|exact H2].
Defined.

Lemma dns_proxy_shutdown_ends_witness : exists s', rtc proxy_step demo_served s' /\ loop s' = LEnded.
Proof.
  destruct (dns_proxy_shutdown_ends demo_served demo_served_reached) as (s' & H1 & H2 & _); [reflexivity|].
  exists s'. split; [exact H1|exact H2].
Defined.
