(* ===== verification/EndpointBind.v ===== *)
(** * Binding an endpoint (endpoint/bind.rs, endpoint/config.rs)

    The options of a node, how [IrohEndpoint::bind] checks them and turns them
    into an iroh builder, and the endpoint it assembles, with the task that
    sweeps its handles.  The parsers of URLs, what iroh says of an address or a
    timeout and what its [bind] answers are arguments. *)

From stdpp Require Import base numbers list sets strings pretty.
From Stdlib Require Import ZArith Lia Strings.Ascii.
From S2P Require Import Prelude Errors Extern Net BodyChannel Handles ServeOptions ServeCycle IpText DnsConfig.

Open Scope string_scope.
Open Scope list_scope.

(** ** Options *)

Record NetworkingOptions := mkNetworking {
  no_relay_mode : option string; no_relays : list string; no_bind_addrs : list string; no_idle_timeout_ms : option Z;
  no_proxy_url : option string; no_proxy_from_env : bool; no_disabled : bool
}.
Record DiscoveryOptions := mkDiscovery { do_dns_server : option string; do_enabled : bool; do_dns_nameservers : list string }.
Record PoolOptions := mkPoolOptions { po_max_connections : option Z; po_idle_timeout_ms : option Z }.
Record StreamingOptions := mkStreaming {
  st_channel_capacity : option Z; st_max_chunk_size_bytes : option Z; st_drain_timeout_ms : option Z;
  st_handle_ttl_ms : option Z; st_sweep_interval_ms : option Z
}.
Record NodeOptions := mkNodeOptions {
  nd_key : option Bytes; nd_networking : NetworkingOptions; nd_discovery : DiscoveryOptions; nd_pool : PoolOptions;
  nd_streaming : StreamingOptions; nd_capabilities : list string; nd_keylog : bool; nd_max_header_size : option Z;
  nd_max_response_body_bytes : option Z; nd_compression : option CompressionOptions
}.

(** [DiscoveryOptions::new] and the [Default]s. *)
Definition discovery_new (dns_server : option string) (enabled : bool) : DiscoveryOptions := mkDiscovery dns_server enabled [].
Definition networking_default : NetworkingOptions := mkNetworking None [] [] None None false false.
Definition discovery_default : DiscoveryOptions := mkDiscovery None true [].
Definition pool_default : PoolOptions := mkPoolOptions None None.
Definition streaming_default : StreamingOptions := mkStreaming None None None None None.
Definition node_options_default : NodeOptions :=
  mkNodeOptions None networking_default discovery_default pool_default streaming_default [] false None None None.

(** ** Protocols *)

Definition ALPN_STR : string := "iroh-http/2".
Definition ALPN_DUPLEX_STR : string := "iroh-http/2-duplex".
Definition KNOWN_ALPNS : list string := [ALPN_STR; ALPN_DUPLEX_STR].

Definition segmentation_offload_enabled (target_os : string) : bool := negb (bool_decide (target_os = "android")).

Definition in_quotes (s : string) : string := String (ascii_of_nat 34) (s +:+ String (ascii_of_nat 34) "").

(** [classify_bind_error]. *)
Definition classify_bind_error (msg : string) : CoreError := connection_failed msg.

Section bind.
Context {K : Type} {M : Type -> Type} `{SlotMap K M} {C : Type -> Type} `{Mpsc C}.
Context {RelayUrl Url Ep : Type}.
Context (relay_url_parse : string -> Result RelayUrl string) (url_parse : string -> Result Url string) (host_str : Url -> option string).
Context (idle_timeout_try_from : Z -> Result Z string) (bind_addr : list SocketAddr -> SocketAddr -> Result unit string).
Context (target_os : string) (debug_str : string -> string) (debug_alpns : list string -> string) (bind_local : nat -> Result Z string).

Inductive RelayMode :=
| RelayDisabled
| RelayDefault
| RelayStaging
| RelayCustom (urls : list RelayUrl).

(** [u.parse().map_err(..)] on each, up to the first that fails. *)
Fixpoint parse_relays (l : list string) : Result (list RelayUrl) CoreError :=
  match l with
  | [] => Ok []
  | u :: l =>
      match relay_url_parse u with
      | Ok url => let? urls := parse_relays l in Ok (url :: urls)
      | Err e => Err (invalid_input e)
      end
  end.

Definition relay_mode (n : NetworkingOptions) : Result RelayMode CoreError :=
  if no_disabled n && match no_relay_mode n with Some m => negb (bool_decide (m = "disabled")) | None => false end
  then Err (invalid_input ("networking.disabled is true but relay_mode is set to a non-disabled value; set relay_mode to " +:+ in_quotes "disabled" +:+ " or omit it when networking.disabled is true"))
  else if no_disabled n then Ok RelayDisabled
  else match no_relay_mode n with
       | None => Ok RelayDefault
       | Some m =>
           if bool_decide (m = "default") then Ok RelayDefault
           else if bool_decide (m = "staging") then Ok RelayStaging
           else if bool_decide (m = "disabled") then Ok RelayDisabled
           else if bool_decide (m = "custom") then
             match no_relays n with
             | [] => Err (invalid_input ("relay_mode " +:+ in_quotes "custom" +:+ " requires at least one URL in `relays`"))
             | relays => let? urls := parse_relays relays in Ok (RelayCustom urls)
             end
           else Err (invalid_input ("unknown relay_mode: " +:+ m))
       end.

Fixpoint check_capabilities (l : list string) : Result unit CoreError :=
  match l with
  | [] => Ok tt
  | cap :: l =>
      if bool_decide (cap ∈ KNOWN_ALPNS) then check_capabilities l
      else Err (invalid_input ("unknown ALPN capability: " +:+ in_quotes cap +:+ "; valid values are " +:+ debug_alpns KNOWN_ALPNS))
  end.

Definition check_compression (c : option CompressionOptions) : Result unit CoreError :=
  match c with
  | Some (mkCompression _ (Some lvl)) =>
      if (1 <=? lvl)%Z && (lvl <=? 22)%Z then Ok tt
      else Err (invalid_input ("compression level must be 1–22, got " +:+ pretty lvl))
  | _ => Ok tt
  end.

Definition alpns (capabilities : list string) : list string :=
  match capabilities with
  | [] => [ALPN_DUPLEX_STR; ALPN_STR]
  | _ => if bool_decide (ALPN_STR ∈ capabilities) then capabilities else capabilities ++ [ALPN_STR]
  end.

(** ** The builder *)

Inductive AddressLookup :=
| PkarrPublisher (url : option Url)
| DnsAddressLookup (origin : option string).

Inductive ProxyConfig := NoProxy | ProxyUrl (url : Url) | ProxyFromEnv.

(** An absent URL or origin stands for the n0 servers. *)
Record Builder := mkBuilder {
  b_relay_mode : RelayMode; b_alpns : list string; b_lookups : list AddressLookup; b_resolver : option (list SocketAddr);
  b_secret_key : option Bytes; b_max_concurrent_bidi_streams : Z; b_segmentation_offload : bool; b_max_idle_timeout : option Z;
  b_bind_addrs : list SocketAddr; b_proxy : ProxyConfig; b_keylog : bool
}.

Definition address_lookups (n : NetworkingOptions) (d : DiscoveryOptions) : Result (list AddressLookup) CoreError :=
  if negb (no_disabled n) && do_enabled d then
    match do_dns_server d with
    | Some url_str =>
        match url_parse url_str with
        | Ok url => Ok [PkarrPublisher (Some url); DnsAddressLookup (Some (default "" (host_str url)))]
        | Err e => Err (invalid_input ("invalid dns_discovery URL: " +:+ e))
        end
    | None => Ok [PkarrPublisher None; DnsAddressLookup None]
    end
  else Ok [].

Definition idle_timeout (n : NetworkingOptions) : Result (option Z) CoreError :=
  match no_idle_timeout_ms n with
  | Some ms =>
      match idle_timeout_try_from ms with
      | Ok timeout => Ok (Some timeout)
      | Err e => Err (invalid_input ("idle_timeout_ms out of range: " +:+ e))
      end
  | None => Ok None
  end.

(** The loop over the bind addresses; [done] are those the builder has. *)
Fixpoint bind_addrs (done : list SocketAddr) (l : list string) : Result (list SocketAddr) CoreError :=
  match l with
  | [] => Ok done
  | addr_str :: l =>
      match parse_socket addr_str with
      | Err e => Err (invalid_input ("invalid bind address " +:+ in_quotes addr_str +:+ ": " +:+ e))
      | Ok sock =>
          match bind_addr done sock with
          | Err e => Err (invalid_input ("bind address " +:+ in_quotes addr_str +:+ ": " +:+ e))
          | Ok _ => bind_addrs (done ++ [sock]) l
          end
      end
  end.

Definition proxy_config (n : NetworkingOptions) : Result ProxyConfig CoreError :=
  match no_proxy_url n with
  | Some proxy =>
      match url_parse proxy with Ok url => Ok (ProxyUrl url) | Err e => Err (invalid_input ("invalid proxy URL: " +:+ e)) end
  | None => Ok (if no_proxy_from_env n then ProxyFromEnv else NoProxy)
  end.

(** From the options to what is checked before the name servers. *)
Definition check_options (o : NodeOptions) : Result (RelayMode * list string) CoreError :=
  let? mode := relay_mode (nd_networking o) in
  let? _ := check_capabilities (nd_capabilities o) in
  let? _ := check_compression (nd_compression o) in
  Ok (mode, alpns (nd_capabilities o)).

(** The rest of the builder, once the resolver is there. *)
Definition build (o : NodeOptions) (mode : RelayMode) (protocols : list string) (servers : option (list SocketAddr))
  : Result Builder CoreError :=
  let? lookups := address_lookups (nd_networking o) (nd_discovery o) in
  let? idle := idle_timeout (nd_networking o) in
  let? addrs := bind_addrs [] (no_bind_addrs (nd_networking o)) in
  let? proxy := proxy_config (nd_networking o) in
  Ok (mkBuilder mode protocols lookups servers (nd_key o) 128 (segmentation_offload_enabled target_os) idle addrs proxy (nd_keylog o)).

(** ** The endpoint *)

Definition store_config (s : StreamingOptions) : StoreConfig :=
  mkConfig (Z.max (default DEFAULT_CHANNEL_CAPACITY (st_channel_capacity s)) 1)
    (Z.max (default DEFAULT_MAX_CHUNK_SIZE (st_max_chunk_size_bytes s)) 1)
    (default BodyChannel.DEFAULT_DRAIN_TIMEOUT_MS (st_drain_timeout_ms s)) DEFAULT_MAX_HANDLES
    (default DEFAULT_SLAB_TTL_MS (st_handle_ttl_ms s)).

Definition sweep_interval (s : StreamingOptions) : Z := default DEFAULT_SWEEP_INTERVAL_MS (st_sweep_interval_ms s).

(** The parts of [EndpointInner]: the pool is given by its options, the serve
    state and the handle store by their initial states. *)
Record EndpointInner := mkInner {
  ep : Ep; node_id_str : string; scoped_dns_compat : list ScopedDnsProxy;
  pool_max_connections : option Z; pool_idle_timeout : option Z; max_header_size : Z; max_response_body_bytes : Z;
  active_connections : Z; active_requests : Z; in_compression : option CompressionOptions;
  session : Endpoint; handles : World M C
}.

Definition header_size (o : NodeOptions) : Result Z CoreError :=
  match nd_max_header_size o with
  | Some n =>
      if (n =? 0)%Z then Err (invalid_input "max_header_size must be > 0; use None for the default (65536)") else Ok n
  | None => Ok (64 * 1024)%Z
  end.

Definition assemble (ep_id : Ep -> string) (o : NodeOptions) (e : Ep) (proxies : list ScopedDnsProxy) : Result EndpointInner CoreError :=
  let? size := header_size o in
  Ok (mkInner e (ep_id e) proxies (po_max_connections (nd_pool o)) (po_idle_timeout_ms (nd_pool o)) size
        (default DEFAULT_MAX_RESPONSE_BODY_BYTES (nd_max_response_body_bytes o)) 0 0 (nd_compression o)
        endpoint_new (world_new (store_config (nd_streaming o)))).

(** The sweep task: its [ttl] and what [interval] made of its period. *)
Inductive SweepTask :=
| NoSweep
| SweepPanics
| Sweeps (ttl period : Z).

Definition sweep_task (interval : Z -> option Z) (s : StreamingOptions) : SweepTask :=
  let sweep_ttl := ttl (store_config s) in
  if (sweep_ttl =? 0)%Z then NoSweep
  else match interval (sweep_interval s) with Some period => Sweeps sweep_ttl period | None => SweepPanics end.

(** What had been started when [bind] fails, and is dropped with the error. *)
Record Dropped := mkDropped { d_proxies : list ScopedDnsProxy; d_endpoint : option Ep }.

Definition with_dropped {A} (d : Dropped) (r : Result A CoreError) : Result A (CoreError * Dropped) :=
  match r with Ok a => Ok a | Err e => Err (e, d) end.

(** [IrohEndpoint::bind]. *)
Definition bind (builder_bind : Builder -> Result Ep string) (ep_id : Ep -> string) (interval : Z -> option Z) (o : NodeOptions)
  : Result (EndpointInner * SweepTask) (CoreError * Dropped) :=
  let? checked := with_dropped (mkDropped [] None) (check_options o) in
  match configure debug_str bind_local (do_dns_nameservers (nd_discovery o)) with
  | Err (e, proxies) => Err (e, mkDropped proxies None)
  | Ok dns =>
      let? builder := with_dropped (mkDropped (compat dns) None) (build o checked.1 checked.2 (resolver dns)) in
      match builder_bind builder with
      | Err msg => Err (classify_bind_error msg, mkDropped (compat dns) None)
      | Ok e =>
          let? inner := with_dropped (mkDropped (compat dns) (Some e)) (assemble ep_id o e (compat dns)) in
          Ok (inner, sweep_task interval (nd_streaming o))
      end
  end.
End bind.
Arguments RelayMode RelayUrl : clear implicits.
Arguments Builder RelayUrl Url : clear implicits.
Arguments AddressLookup Url : clear implicits.
Arguments ProxyConfig Url : clear implicits.
Arguments EndpointInner M C Ep : clear implicits.
Arguments Dropped Ep : clear implicits.
