(* ===== verification/EndpointCreate.v ===== *)
(** * Creating an endpoint from JavaScript options
    (commands.rs, dispatch.rs and lib.rs of the Tauri, Deno and Node bindings)

    How each binding turns the options of [createEndpoint] into the options of
    a node.  The base64 decoder is an argument.  Node takes the key as bytes
    and narrower integers; the other two take the key as text. *)

From stdpp Require Import base numbers list strings pretty.
From Stdlib Require Import ZArith Lia.
From S2P Require Import Prelude Errors ServeOptions HostAdapter DiscoveryRegistry DenoDispatch EndpointBind.

Open Scope string_scope.
Open Scope list_scope.

Record CreateEndpointArgs (Key : Type) := mkArgs {
  ca_key : option Key; ca_idle_timeout : option f64; ca_relay_mode : option string; ca_relays : option (list string);
  ca_bind_addrs : option (list string); ca_dns_discovery : option string; ca_dns_discovery_enabled : option bool;
  ca_channel_capacity : option Z; ca_max_chunk_size_bytes : option Z; ca_handle_ttl : option f64; ca_sweep_interval : option f64;
  ca_disable_networking : option bool; ca_proxy_url : option string; ca_proxy_from_env : option bool; ca_keylog : option bool;
  ca_compression_min_body_bytes : option Z; ca_compression_level : option Z; ca_max_header_bytes : option f64;
  ca_max_pooled_connections : option Z; ca_pool_idle_timeout_ms : option f64
}.
Arguments mkArgs {Key}.
Arguments ca_key {Key}. Arguments ca_idle_timeout {Key}. Arguments ca_relay_mode {Key}. Arguments ca_relays {Key}.
Arguments ca_bind_addrs {Key}. Arguments ca_dns_discovery {Key}. Arguments ca_dns_discovery_enabled {Key}.
Arguments ca_channel_capacity {Key}. Arguments ca_max_chunk_size_bytes {Key}. Arguments ca_handle_ttl {Key}.
Arguments ca_sweep_interval {Key}. Arguments ca_disable_networking {Key}. Arguments ca_proxy_url {Key}.
Arguments ca_proxy_from_env {Key}. Arguments ca_keylog {Key}. Arguments ca_compression_min_body_bytes {Key}.
Arguments ca_compression_level {Key}. Arguments ca_max_header_bytes {Key}. Arguments ca_max_pooled_connections {Key}.
Arguments ca_pool_idle_timeout_ms {Key}.

Definition no_args {Key} : CreateEndpointArgs Key :=
  mkArgs None None None None None None None None None None None None None None None None None None None None.

Inductive Status := InvalidArg | GenericFailure.
Definition Napi (A : Type) : Type := Result A (Status * string).

Section create.
Context (show_f64 : f64 -> string) (json_string : string -> string) (b64_decode : string -> option Bytes).

Definition raw_options {Key} (a : CreateEndpointArgs Key) : RawEndpointOptions :=
  mkRawEndpoint (ca_idle_timeout a) (ca_pool_idle_timeout_ms a) (ca_handle_ttl a) (ca_sweep_interval a) (ca_max_header_bytes a)
    (ca_compression_level a).

(** The literal of [NodeOptions], which the three bindings share. *)
Definition node_options_of {Key} (a : CreateEndpointArgs Key) (endpoint : EndpointOptions) (key : option Bytes) : NodeOptions :=
  mkNodeOptions key
    (mkNetworking (ca_relay_mode a) (default [] (ca_relays a)) (default [] (ca_bind_addrs a)) (eo_idle_timeout_ms endpoint)
       (ca_proxy_url a) (default false (ca_proxy_from_env a)) (default false (ca_disable_networking a)))
    (discovery_new (ca_dns_discovery a) (default true (ca_dns_discovery_enabled a)))
    (mkPoolOptions (ca_max_pooled_connections a) (eo_pool_idle_timeout_ms endpoint))
    (mkStreaming (ca_channel_capacity a) (ca_max_chunk_size_bytes a) None (eo_handle_ttl_ms endpoint) (eo_sweep_interval_ms endpoint))
    [] (default false (ca_keylog a)) (eo_max_header_bytes endpoint) None
    (if bool_decide (is_Some (ca_compression_min_body_bytes a)) || bool_decide (is_Some (ca_compression_level a))
     then Some (mkCompression (default DEFAULT_MIN_BODY_BYTES (ca_compression_min_body_bytes a)) (eo_compression_level endpoint))
     else None).

Definition key_length_error (key : Bytes) : string := "secret key must be exactly 32 bytes, got " +:+ pretty (length key).

(** Text to a key, with the texts of the errors. *)
Definition text_key (k : string) : Result Bytes string :=
  match b64_decode k with
  | None => Err "secret key: invalid base64"
  | Some decoded => if decide (length decoded = 32) then Ok decoded else Err (key_length_error decoded)
  end.

Definition optional_key {Key E} (decode : Key -> Result Bytes E) (k : option Key) : Result (option Bytes) E :=
  match k with Some k => let? arr := decode k in Ok (Some arr) | None => Ok None end.

(** [create_endpoint] of the Tauri plugin: the numbers are checked first. *)
Definition tauri_options (args : option (CreateEndpointArgs string)) : Result NodeOptions string :=
  match args with
  | None => Ok node_options_default
  | Some a =>
      match coerce_endpoint_options show_f64 (raw_options a) with
      | Err e => Err (adapter_to_json json_string e)
      | Ok endpoint => let? key := optional_key text_key (ca_key a) in Ok (node_options_of a endpoint key)
      end
  end.

(** [create_endpoint] of the Deno library: the key is checked first. *)
Definition deno_options (args : Result (CreateEndpointArgs string) string) : Answer NodeOptions :=
  match args with
  | Err e => err e
  | Ok a =>
      match optional_key text_key (ca_key a) with
      | Err e => err e
      | Ok key =>
          match coerce_endpoint_options show_f64 (raw_options a) with
          | Err e => err_adapter e
          | Ok endpoint => Ok (node_options_of a endpoint key)
          end
      end
  end.

(** [create_endpoint] of the Node module. *)
Definition js_key (k : Bytes) : Napi Bytes :=
  if decide (length k = 32) then Ok k else Err (InvalidArg, key_length_error k).
Definition napi_options (args : option (CreateEndpointArgs Bytes)) : Napi NodeOptions :=
  match args with
  | None => Ok node_options_default
  | Some o =>
      match coerce_endpoint_options show_f64 (raw_options o) with
      | Err e => Err (InvalidArg, adapter_to_json json_string e)
      | Ok endpoint => let? key := optional_key js_key (ca_key o) in Ok (node_options_of o endpoint key)
      end
  end.

(** On mobile hosts the name servers come from the platform; [native] is what
    the plugin answers, if it is there. *)
Definition should_query_mobile_dns (o : NodeOptions) : bool := negb (no_disabled (nd_networking o)).
Definition set_nameservers (servers : list string) (o : NodeOptions) : NodeOptions :=
  mkNodeOptions (nd_key o) (nd_networking o)
    (mkDiscovery (do_dns_server (nd_discovery o)) (do_enabled (nd_discovery o)) servers) (nd_pool o) (nd_streaming o)
    (nd_capabilities o) (nd_keylog o) (nd_max_header_size o) (nd_max_response_body_bytes o) (nd_compression o).
Definition mobile_dns (native : option (Result (list string) string)) (o : NodeOptions) : Result NodeOptions string :=
  if should_query_mobile_dns o then
    match native with
    | None => Ok o
    | Some (Err e) => Err (format_error_json json_string "REFUSED" ("failed to query platform DNS: " +:+ e))
    | Some (Ok []) => Ok o
    | Some (Ok servers) => Ok (set_nameservers servers o)
    end
  else Ok o.

End create.
