(* ===== verification/EndpointProps.v ===== *)
(** * Bound and created endpoints

    What a bound endpoint is like, and the endpoints that the bindings create. *)

From stdpp Require Import base numbers list gmap sets strings.
From Stdlib Require Import ZArith Lia.
From S2P Require Import Prelude Errors Extern Net BodyChannel Handles HandlesFacts HandlesProps ServeOptions ServeCycle IpText DnsConfig HostAdapter HostAdapterProps DiscoveryRegistry DenoDispatch EndpointBind EndpointCreate.

Open Scope string_scope.
Open Scope list_scope.

Section props.
Context {K : Type} {M : Type -> Type} `{HSM : SlotMap K M} `{Countable K} `{HSL : !SlotMapLaws K M}.
Context {C : Type -> Type} `{HMP : Mpsc C} `{HML : !MpscLaws C}.
Context {RelayUrl Url Ep : Type}.
Context (relay_url_parse : string -> Result RelayUrl string) (url_parse : string -> Result Url string) (host_str : Url -> option string).
Context (idle_timeout_try_from : Z -> Result Z string) (bind_addr : list SocketAddr -> SocketAddr -> Result unit string).
Context (target_os : string) (debug_str : string -> string) (debug_alpns : list string -> string) (bind_local : nat -> Result Z string).
Context (builder_bind : Builder RelayUrl Url -> Result Ep string) (ep_id : Ep -> string) (interval : Z -> option Z).

#[local] Abbreviation bind_endpoint := (bind (K:=K) (M:=M) (C:=C) relay_url_parse url_parse host_str idle_timeout_try_from bind_addr
  target_os debug_str debug_alpns bind_local builder_bind ep_id interval).

(** ** The checks *)

Lemma parse_relays_ok l urls : parse_relays relay_url_parse l = Ok urls -> Forall2 (fun u url => relay_url_parse u = Ok url) l urls.
Proof.
  revert urls. induction l as [|u l IH]; intros urls; cbn; [by intros [= <-]|]. destruct (relay_url_parse u) as [url|] eqn:E; [|done].
  intros (us & Hus & [= <-])%let_ok. constructor; auto.
Qed.

Lemma bind_addrs_ok acc l r :
  bind_addrs bind_addr acc l = Ok r -> exists new, r = acc ++ new /\ Forall2 (fun s a => parse_socket s = Ok a) l new.
Proof.
  revert acc. induction l as [|s l IH]; intros acc; cbn [bind_addrs]; [intros [= <-]; exists []; by rewrite app_nil_r|].
  destruct (parse_socket s) as [a|] eqn:E; [|done]. destruct (bind_addr acc a); [|done].
  intros (new & -> & Hf)%IH. exists (a :: new). by rewrite <- app_assoc, list.Forall2_cons.
Qed.

Lemma check_capabilities_ok l : check_capabilities debug_alpns l = Ok tt -> Forall (fun c => c ∈ KNOWN_ALPNS) l.
Proof. induction l as [|c l IH]; cbn; [constructor|]. case_bool_decide; [|done]. constructor; auto. Qed.

Lemma check_compression_ok c : check_compression c = Ok tt -> forall x lvl, c = Some x -> level x = Some lvl -> (1 <= lvl <= 22)%Z.
Proof.
  intros Hc x lvl -> Hl. destruct x as [m l]. cbn in Hl. subst l. cbn in Hc. destruct ((1 <=? lvl)%Z && (lvl <=? 22)%Z) eqn:E; [|done].
  apply andb_true_iff in E as [?%Z.leb_le ?%Z.leb_le]. done.
Qed.

(** The ways in which [check_options] and [build] fail are all invalid input. *)
Lemma let_err {A B E} (r : Result A E) (k : A -> Result B E) (e : E) :
  (let? a := r in k a) = Err e -> r = Err e \/ exists a, r = Ok a /\ k a = Err e.
Proof. destruct r; naive_solver. Qed.

Lemma parse_relays_err l e : parse_relays relay_url_parse l = Err e -> code e = InvalidInput.
Proof.
  induction l as [|u l IH]; [done|]. cbn. destruct (relay_url_parse u); [|by intros [= <-]].
  destruct (parse_relays _ l); [done|auto].
Qed.

Lemma relay_mode_err n e : relay_mode relay_url_parse n = Err e -> code e = InvalidInput.
Proof.
  unfold relay_mode. destruct (no_disabled n && _); [by intros [= <-]|]. destruct (no_disabled n); [done|].
  destruct (no_relay_mode n) as [m|]; [|done]. repeat (case_bool_decide; [done|]).
  case_bool_decide; [|by intros [= <-]]. destruct (no_relays n) as [|u l]; [by intros [= <-]|].
  intros [He|(? & _ & ?)]%let_err; [by apply (parse_relays_err (u :: l))|done].
Qed.

Lemma check_options_err o e : check_options relay_url_parse debug_alpns o = Err e -> code e = InvalidInput.
Proof.
  unfold check_options. intros [He|(m & _ & He)]%let_err; [by apply relay_mode_err in He|].
  apply let_err in He as [He|([] & _ & He)].
  - induction (nd_capabilities o) as [|c l IH]; [done|]. cbn in He. case_bool_decide; [auto|by injection He as <-].
  - apply let_err in He as [He|([] & _ & He)]; [|done]. unfold check_compression in He.
    destruct (nd_compression o) as [[x [l|]]|]; try done. destruct (_ && _); [done|by injection He as <-].
Qed.

Lemma bind_addrs_err acc l e : bind_addrs bind_addr acc l = Err e -> code e = InvalidInput.
Proof.
  revert acc. induction l as [|s l IH]; intros acc; cbn [bind_addrs]; [done|].
  destruct (parse_socket s) as [a|]; [|by intros [= <-]]. destruct (bind_addr acc a); [apply IH|by intros [= <-]].
Qed.

Lemma build_err o (m : RelayMode RelayUrl) p s e :
  build url_parse host_str idle_timeout_try_from bind_addr target_os o m p s = Err e -> code e = InvalidInput.
Proof.
  unfold build. intros [He|(? & _ & He)]%let_err.
  { unfold address_lookups in He. destruct (_ && _); [|done]. destruct (do_dns_server _) as [u|]; [|done].
    destruct (url_parse u); [done|by injection He as <-]. }
  apply let_err in He as [He|(? & _ & He)].
  { unfold idle_timeout in He. destruct (no_idle_timeout_ms _) as [ms|]; [|done].
    destruct (idle_timeout_try_from ms); [done|by injection He as <-]. }
  apply let_err in He as [He|(? & _ & He)]; [by apply bind_addrs_err in He|].
  apply let_err in He as [He|(? & _ & ?)]; [|done].
  unfold proxy_config in He. destruct (no_proxy_url _) as [u|]; [|done]. destruct (url_parse u); [done|by injection He as <-].
Qed.

Lemma with_dropped_ok {A} (d : Dropped Ep) (r : Result A CoreError) a : with_dropped d r = Ok a <-> r = Ok a.
Proof. destruct r; naive_solver. Qed.
Lemma with_dropped_err {A} (d d' : Dropped Ep) (r : Result A CoreError) e : with_dropped d r = Err (e, d') <-> r = Err e /\ d' = d.
Proof. destruct r; cbn; naive_solver. Qed.

(** The stages of a successful [bind]. *)
Lemma bind_ok_stages o inner t :
  bind_endpoint o = Ok (inner, t) ->
  exists mode dns b e size,
    relay_mode relay_url_parse (nd_networking o) = Ok mode /\ check_capabilities debug_alpns (nd_capabilities o) = Ok tt /\
    check_compression (nd_compression o) = Ok tt /\ configure debug_str bind_local (do_dns_nameservers (nd_discovery o)) = Ok dns /\
    build url_parse host_str idle_timeout_try_from bind_addr target_os o mode (alpns (nd_capabilities o)) (resolver dns) = Ok b /\
    builder_bind b = Ok e /\ header_size o = Ok size /\ t = sweep_task interval (nd_streaming o) /\
    inner = mkInner e (ep_id e) (compat dns) (po_max_connections (nd_pool o)) (po_idle_timeout_ms (nd_pool o)) size
        (default DEFAULT_MAX_RESPONSE_BODY_BYTES (nd_max_response_body_bytes o)) 0 0 (nd_compression o)
        endpoint_new (world_new (store_config (nd_streaming o))).
Proof.
  unfold bind. intros ([m p] & Hc & Hb)%let_ok. apply with_dropped_ok in Hc.
  apply let_ok in Hc as (mode & Hm & Hc). apply let_ok in Hc as ([] & H1 & Hc). apply let_ok in Hc as ([] & H2 & [= <- <-]).
  destruct (configure _ _ _) as [dns|[? ?]] eqn:Ed; [|done]. apply let_ok in Hb as (b & Hbuild & Hb). apply with_dropped_ok in Hbuild.
  destruct (builder_bind b) as [e|] eqn:Ee; [|done]. apply let_ok in Hb as (i & Hi & [= <- <-]). apply with_dropped_ok in Hi.
  apply let_ok in Hi as (size & Hs & [= <-]). exists mode, dns, b, e, size. done.
Qed.

(** ** Network and protocols *)

(** What the options ask for, one relation per setting of the builder. *)
Definition relays_asked (n : NetworkingOptions) (m : RelayMode RelayUrl) : Prop :=
  match m with
  | RelayDisabled => no_disabled n = true /\ no_relay_mode n = None \/ no_relay_mode n = Some "disabled"
  | RelayDefault => no_disabled n = false /\ (no_relay_mode n = None \/ no_relay_mode n = Some "default")
  | RelayStaging => no_disabled n = false /\ no_relay_mode n = Some "staging"
  | RelayCustom urls => no_disabled n = false /\ no_relay_mode n = Some "custom" /\ urls <> [] /\
      Forall2 (fun u url => relay_url_parse u = Ok url) (no_relays n) urls
  end.

Definition lookups_asked (n : NetworkingOptions) (d : DiscoveryOptions) (l : list (AddressLookup Url)) : Prop :=
  if no_disabled n || negb (do_enabled d) then l = []
  else match do_dns_server d with
       | None => l = [PkarrPublisher None; DnsAddressLookup None]
       | Some text => exists url, url_parse text = Ok url /\ l = [PkarrPublisher (Some url); DnsAddressLookup (Some (default "" (host_str url)))]
       end.

Definition proxy_asked (n : NetworkingOptions) (p : ProxyConfig Url) : Prop :=
  match p with
  | ProxyUrl url => exists text, no_proxy_url n = Some text /\ url_parse text = Ok url
  | ProxyFromEnv => no_proxy_url n = None /\ no_proxy_from_env n = true
  | NoProxy => no_proxy_url n = None /\ no_proxy_from_env n = false
  end.

Definition idle_asked (n : NetworkingOptions) (timeout : option Z) : Prop :=
  match no_idle_timeout_ms n, timeout with
  | Some ms, Some t => idle_timeout_try_from ms = Ok t
  | None, None => True
  | _, _ => False
  end.

Lemma relay_mode_asked n m : relay_mode relay_url_parse n = Ok m -> relays_asked n m.
Proof.
  unfold relay_mode. destruct (no_disabled n) eqn:Ed; cbn [andb].
  - destruct (no_relay_mode n) as [x|] eqn:Er; [case_bool_decide; cbn; [|done]|]; intros [= <-]; cbn; rewrite Ed, Er; naive_solver.
  - destruct (no_relay_mode n) as [x|] eqn:Er; [|intros [= <-]; cbn; auto]. do 3 (case_bool_decide as Hx; [subst x; intros [= <-]; cbn; auto|clear Hx]).
    case_bool_decide as Hx; [subst x|done]. destruct (no_relays n) as [|u l] eqn:El; [done|].
    intros (urls & Hus%parse_relays_ok & [= <-])%let_ok. cbn. rewrite El. split_and!; try done. intros ->. inversion Hus.
Qed.

Lemma address_lookups_asked n d l : address_lookups url_parse host_str n d = Ok l -> lookups_asked n d l.
Proof.
  unfold address_lookups, lookups_asked. destruct (no_disabled n), (do_enabled d); cbn; try (by intros [= <-]).
  destruct (do_dns_server d) as [text|]; [|by intros [= <-]]. destruct (url_parse text) as [url|]; [|done]. intros [= <-]. by exists url.
Qed.

Lemma proxy_config_asked n p : proxy_config url_parse n = Ok p -> proxy_asked n p.
Proof.
  unfold proxy_config. destruct (no_proxy_url n) as [text|] eqn:Epx.
  - destruct (url_parse text) as [url|] eqn:Eu; [|done]. intros [= <-]. cbn. eauto.
  - intros [= <-]. destruct (no_proxy_from_env n) eqn:Ee; cbn; auto.
Qed.

Lemma idle_timeout_asked n t : idle_timeout idle_timeout_try_from n = Ok t -> idle_asked n t.
Proof.
  unfold idle_timeout, idle_asked. destruct (no_idle_timeout_ms n) as [ms|]; [|by intros [= <-]].
  destruct (idle_timeout_try_from ms) eqn:E; [|done]. by intros [= <-].
Qed.

(** The settings of the builder that [build] makes. *)
Lemma build_asked o (mode : RelayMode RelayUrl) protocols servers b :
  build url_parse host_str idle_timeout_try_from bind_addr target_os o mode protocols servers = Ok b ->
  exists lookups idle addrs proxy,
    b = mkBuilder mode protocols lookups servers (nd_key o) 128 (segmentation_offload_enabled target_os) idle addrs proxy (nd_keylog o) /\
    lookups_asked (nd_networking o) (nd_discovery o) lookups /\ idle_asked (nd_networking o) idle /\
    Forall2 (fun s a => parse_socket s = Ok a) (no_bind_addrs (nd_networking o)) addrs /\ proxy_asked (nd_networking o) proxy.
Proof.
  unfold build. intros (lookups & Hl%address_lookups_asked & Hb)%let_ok. apply let_ok in Hb as (idle & Hi%idle_timeout_asked & Hb).
  apply let_ok in Hb as (addrs & (new & -> & Ha)%bind_addrs_ok & Hb). apply let_ok in Hb as (proxy & Hp%proxy_config_asked & [= <-]).
  exists lookups, idle, new, proxy. done.
Qed.

(** C34. A bound endpoint is the one that was asked for.  It speaks the
    capabilities of the options and the base protocol, which is added when it is
    missing, or both protocols when there are none, and no unknown one.  Its
    relay mode is the one named: disabled when it says so or networking is
    disabled, the default when it says so or says nothing, staging, or custom
    with all the URLs of the options, in order and at least one.  It looks peers
    up with the given DNS server or the default ones, and nowhere when networking
    or discovery is disabled; its QUIC idle timeout, proxy, key log, sockets and
    key are those of the options, and its resolver asks the configured name
    servers. *)
Theorem bound_network_exact o inner t :
  bind_endpoint o = Ok (inner, t) ->
  exists b, builder_bind b = Ok (ep inner) /\
    b_alpns b = (if decide (nd_capabilities o = []) then [ALPN_DUPLEX_STR; ALPN_STR]
                 else nd_capabilities o ++ if decide (ALPN_STR ∈ nd_capabilities o) then [] else [ALPN_STR]) /\
    Forall (fun c => c ∈ KNOWN_ALPNS) (b_alpns b) /\
    relays_asked (nd_networking o) (b_relay_mode b) /\
    lookups_asked (nd_networking o) (nd_discovery o) (b_lookups b) /\
    idle_asked (nd_networking o) (b_max_idle_timeout b) /\
    proxy_asked (nd_networking o) (b_proxy b) /\ b_keylog b = nd_keylog o /\
    b_segmentation_offload b = negb (bool_decide (target_os = "android")) /\
    Forall2 (fun s a => parse_socket s = Ok a) (no_bind_addrs (nd_networking o)) (b_bind_addrs b) /\
    b_secret_key b = nd_key o /\
    configure debug_str bind_local (do_dns_nameservers (nd_discovery o)) = Ok (mkDns (b_resolver b) (scoped_dns_compat inner)).
Proof.
  intros (mode & dns & b & e & size & Hm%relay_mode_asked & Hcap%check_capabilities_ok & _ & Hd & Hb & He & _ & _ & ->)%bind_ok_stages.
  exists b. cbn [ep scoped_dns_compat]. apply build_asked in Hb as (lookups & idle & addrs & proxy & -> & Hl & Hi & Ha & Hp). cbn.
  split_and!; try done.
  - unfold alpns. destruct (nd_capabilities o) as [|c l]; [done|]. rewrite decide_False by done.
    case_bool_decide; [rewrite decide_True by done; by rewrite app_nil_r|by rewrite decide_False].
  - unfold alpns. destruct (nd_capabilities o) as [|c l]; [repeat constructor; set_solver|]. case_bool_decide; [done|].
    apply list.Forall_app. split; [done|]. repeat constructor.
  - by destruct dns.
Qed.

(** ** Errors *)

(** A [bind] that fails says why: its error is invalid input, or a connection
    failure that comes from iroh's [bind] with its text or from a socket for a
    DNS proxy.  Nothing has been bound by then, unless the only thing wrong is a
    header size of zero, which is found out when the endpoint is up. *)
Theorem bind_refusal_exact o e d :
  bind_endpoint o = Err (e, d) ->
  (code e = InvalidInput /\ (d_endpoint d = None \/ nd_max_header_size o = Some 0%Z) \/
   code e = ConnectionFailed /\ d_endpoint d = None /\
     ((exists b, builder_bind b = Err (message e)) \/ exists k reason, bind_local k = Err reason)) /\
  (forall x, d_endpoint d = Some x -> exists b, builder_bind b = Ok x).
Proof.
  unfold bind. intros [He|([m p] & _ & He)]%let_err.
  { apply with_dropped_err in He as [He%check_options_err ->]. naive_solver. }
  pose proof (dns_configured_err debug_str bind_local (do_dns_nameservers (nd_discovery o))) as Hd.
  destruct (configure _ _ _) as [dns|[e' px]]; cycle 1.
  { injection He as <- <-. cbn. split; [|done]. destruct (Hd _ _ eq_refl) as [?|[? ?]]; [naive_solver|]. right. split_and!; eauto. }
  clear Hd. apply let_err in He as [He|(b & _ & He)]; [apply with_dropped_err in He as [He%build_err ->]; naive_solver|].
  destruct (builder_bind b) as [x|msg] eqn:Eb.
  - apply let_err in He as [He|(? & _ & ?)]; [|done]. apply with_dropped_err in He as [He ->]. cbn.
    apply let_err in He as [He|(? & _ & ?)]; [|done]. split; [|naive_solver]. left. unfold header_size in He.
    destruct (nd_max_header_size o) as [n|]; [|done]. destruct (n =? 0)%Z eqn:En; [|done]. apply Z.eqb_eq in En as ->.
    injection He as <-. split; [done|]. by right.
  - injection He as <- <-. split; [|done]. right. cbn. eauto 10.
Qed.

(** ** Sweeping *)

(** The times of the sweeps: tokio's ticks come at once and then once a period. *)
Definition sweeps_at (t : SweepTask) (start now : Z) : Prop :=
  match t with Sweeps _ period => exists k : nat, now = (start + Z.of_nat k * period)%Z | _ => False end.

(** Nothing last used at [used] is left. *)
Definition none_used_at (used : Z) (s : HandleStore M) : Prop :=
  let none {T} (reg : M (Timed T)) := forall (k : K) e, sm_get k reg = Some e -> last_accessed e <> used in
  none (Handles.readers s) /\ none (writers s) /\ none (Handles.sessions s) /\ none (request_heads s) /\ none (fetch_cancels s) /\
  forall h e, pending_readers s !! h = Some e -> Handles.created e <> used.

Lemma sweep_clears now t used (w : World M C) : (0 <= t)%Z -> (used + t < now)%Z -> none_used_at used (store (sweep now t w)).
Proof.
  intros Ht Hn. rewrite store_sweep. unfold none_used_at. simpl.
  split_and!; try (intros k e [_ He]%sweep_registry_get <-; unfold elapsed in He; lia).
  intros h e [_ He]%map_lookup_filter_Some <-. cbn in He. apply Z.ltb_lt in He. unfold elapsed in He. lia.
Qed.

Lemma tick_after (start period x : Z) : (0 < period)%Z -> (start <= x)%Z -> exists k : nat, (x < start + Z.of_nat k * period <= x + period)%Z.
Proof.
  intros Hp Hx. exists (Z.to_nat ((x - start) / period + 1)). pose proof (Z.div_pos (x - start) period ltac:(lia) Hp).
  rewrite Z2Nat.id by lia. pose proof (Z.div_mod (x - start) period ltac:(lia)). pose proof (Z.mod_pos_bound (x - start) period Hp). nia.
Qed.

(** What a sweep can do in time: with a positive interval, a handle that was last
    used at some time is gone at most the TTL and one interval later, from every
    registry of the endpoint. *)
Theorem handles_swept_in_time o inner t start used :
  bind_endpoint o = Ok (inner, t) -> (forall p, (0 < p)%Z -> interval p = Some p) ->
  (0 < sweep_interval (nd_streaming o))%Z -> (0 < ttl (config (store (handles inner))))%Z -> (start <= used)%Z ->
  let life := ttl (config (store (handles inner))) in
  exists now, sweeps_at t start now /\ (used + life < now <= used + life + sweep_interval (nd_streaming o))%Z /\
    forall w : World M C, none_used_at used (store (sweep now life w)).
Proof.
  intros (mode & dns & b & e & size & _ & _ & _ & _ & _ & _ & _ & -> & ->)%bind_ok_stages Hint Hp Ht Hu. simpl in *.
  unfold sweep_task. cbn [ttl store_config]. destruct (Z.eqb_spec (default DEFAULT_SLAB_TTL_MS (st_handle_ttl_ms (nd_streaming o))) 0); [lia|].
  rewrite (Hint _ Hp). set (life := default DEFAULT_SLAB_TTL_MS _) in *.
  destruct (tick_after start (sweep_interval (nd_streaming o)) (used + life)) as [k Hk]; [done|lia|].
  eexists. split; [by exists k|]. split; [lia|]. intros w. apply sweep_clears; lia.
Qed.
End props.

(** ** What the bindings accept *)

Section accepted.
Context (show_f64 : f64 -> string) (json_string : string -> string) (b64_decode : string -> option Bytes).

Inductive accepted_options (o : NodeOptions) : Prop :=
| by_tauri a : tauri_options show_f64 json_string b64_decode a = Ok o -> accepted_options o
| by_deno a : deno_options show_f64 b64_decode a = Ok o -> accepted_options o
| by_node a : napi_options show_f64 json_string a = Ok o -> accepted_options o.

Lemma text_key_ok k key : text_key b64_decode k = Ok key <-> b64_decode k = Some key /\ length key = 32.
Proof. unfold text_key. destruct (b64_decode k) as [d|]; [|naive_solver]. case_decide; naive_solver. Qed.
Lemma js_key_ok k key : js_key k = Ok key <-> k = key /\ length key = 32.
Proof. unfold js_key. case_decide; naive_solver. Qed.
Lemma optional_key_ok {Key E} (decode : Key -> Result Bytes E) k key :
  optional_key decode k = Ok key <->
  match k, key with Some k, Some b => decode k = Ok b | None, None => True | _, _ => False end.
Proof. destruct k as [k|], key as [b|]; cbn; rewrite ?let_ok; naive_solver. Qed.

(** Options that are accepted come from the defaults or from coerced numbers. *)
Lemma accepted_shape o : accepted_options o ->
  o = node_options_default \/
  exists Key (a : CreateEndpointArgs Key) endpoint key,
    coerce_endpoint_options show_f64 (raw_options a) = Ok endpoint /\ o = node_options_of a endpoint key.
Proof.
  intros [[a|] Ha|[a|e] Ha|[a|] Ha]; cbn in Ha; try done.
  - destruct (coerce_endpoint_options _ _) as [ep|] eqn:E; [|done]. apply let_ok in Ha as (key & _ & [= <-]). right. eauto 10.
  - left. by injection Ha as <-.
  - destruct (optional_key _ _) as [key|]; [|done]. destruct (coerce_endpoint_options _ _) as [ep|] eqn:E; [|done].
    injection Ha as <-. right. eauto 10.
  - destruct (coerce_endpoint_options _ _) as [ep|] eqn:E; [|done]. apply let_ok in Ha as (key & _ & [= <-]). right. eauto 10.
  - left. by injection Ha as <-.
Qed.
End accepted.

(** * Endpoints created by the bindings *)

Section agree.
Context (show_f64 : f64 -> string) (json_string : string -> string) (b64_decode : string -> option Bytes).

(** The same options with another key. *)
Definition with_key {Key Key'} (k : option Key') (a : CreateEndpointArgs Key) : CreateEndpointArgs Key' :=
  mkArgs k (ca_idle_timeout a) (ca_relay_mode a) (ca_relays a) (ca_bind_addrs a) (ca_dns_discovery a) (ca_dns_discovery_enabled a)
    (ca_channel_capacity a) (ca_max_chunk_size_bytes a) (ca_handle_ttl a) (ca_sweep_interval a) (ca_disable_networking a)
    (ca_proxy_url a) (ca_proxy_from_env a) (ca_keylog a) (ca_compression_min_body_bytes a) (ca_compression_level a)
    (ca_max_header_bytes a) (ca_max_pooled_connections a) (ca_pool_idle_timeout_ms a).

Lemma node_options_with_key {Key Key'} (k : option Key') (a : CreateEndpointArgs Key) ep key :
  node_options_of (with_key k a) ep key = node_options_of a ep key.
Proof. by destruct a. Qed.

(** The three bindings agree.  On options with a key as base64 text, the Tauri
    and the Deno binding accept the same ones, although they check in a
    different order, and the Node binding accepts the same options with the key
    as the bytes it stands for; and all build the same node options.  No options
    at all are the defaults. *)
Theorem create_options_agree (a : CreateEndpointArgs string) (o : NodeOptions) :
  (tauri_options show_f64 json_string b64_decode (Some a) = Ok o <-> deno_options show_f64 b64_decode (Ok a) = Ok o) /\
  (tauri_options show_f64 json_string b64_decode (Some a) = Ok o <->
     match ca_key a with
     | Some k => exists b, b64_decode k = Some b /\ napi_options show_f64 json_string (Some (with_key (Some b) a)) = Ok o
     | None => napi_options show_f64 json_string (Some (with_key None a)) = Ok o
     end) /\
  tauri_options show_f64 json_string b64_decode None = tauri_options show_f64 json_string b64_decode (Some no_args) /\
  napi_options show_f64 json_string None = napi_options show_f64 json_string (Some no_args).
Proof.
  split_and!; [| |done|done].
  - unfold tauri_options, deno_options. destruct (coerce_endpoint_options _ _), (optional_key _ _); naive_solver.
  - unfold tauri_options, napi_options. destruct (ca_key a) as [k|] eqn:Ek.
    + unfold optional_key, text_key, js_key. cbn [with_key ca_key]. change (raw_options (with_key (Some ?b) a)) with (raw_options a).
      destruct (coerce_endpoint_options _ _) as [ep|]; [|naive_solver]. destruct (b64_decode k) as [d|]; [|naive_solver].
      split.
      * intros Ha. exists d. split; [done|]. case_decide; [|done]. rewrite node_options_with_key. by injection Ha as <-.
      * intros (b & [= <-] & Hb). case_decide; [|done]. rewrite node_options_with_key in Hb. by injection Hb as <-.
    + cbn [with_key ca_key optional_key]. change (raw_options (with_key None a)) with (raw_options a).
      destruct (coerce_endpoint_options _ _); rewrite ?node_options_with_key; naive_solver.
Qed.
End agree.

Section created.
Context {K : Type} {M : Type -> Type} `{HSM : SlotMap K M} `{Countable K} `{HSL : !SlotMapLaws K M}.
Context {C : Type -> Type} `{HMP : Mpsc C} `{HML : !MpscLaws C}.
Context {RelayUrl Url Ep : Type}.
Context (relay_url_parse : string -> Result RelayUrl string) (url_parse : string -> Result Url string) (host_str : Url -> option string).
Context (idle_timeout_try_from : Z -> Result Z string) (bind_addr : list SocketAddr -> SocketAddr -> Result unit string).
Context (target_os : string) (debug_str : string -> string) (debug_alpns : list string -> string) (bind_local : nat -> Result Z string).
Context (builder_bind : Builder RelayUrl Url -> Result Ep string) (ep_id : Ep -> string) (interval : Z -> option Z).
Context (show_f64 : f64 -> string) (json_string : string -> string) (b64_decode : string -> option Bytes).

#[local] Abbreviation bind_endpoint := (bind (K:=K) (M:=M) (C:=C) relay_url_parse url_parse host_str idle_timeout_try_from bind_addr
  target_os debug_str debug_alpns bind_local builder_bind ep_id interval).

(** The numbers of accepted options. *)
Lemma accepted_bounds o : accepted_options show_f64 json_string b64_decode o ->
  (forall n, nd_max_header_size o = Some n -> 0 <= n <= 1048576)%Z /\ nd_max_response_body_bytes o = None /\
  (forall n, po_idle_timeout_ms (nd_pool o) = Some n -> 0 <= n <= 300000)%Z /\
  (forall n, st_handle_ttl_ms (nd_streaming o) = Some n -> 0 <= n <= 300000)%Z /\
  (forall n, st_sweep_interval_ms (nd_streaming o) = Some n -> 0 <= n <= 300000)%Z /\
  (forall n, no_idle_timeout_ms (nd_networking o) = Some n -> 0 <= n <= 300000)%Z.
Proof.
  intros [->|(Key & a & endpoint & key & He & ->)]%accepted_shape; [done|].
  apply coerce_endpoint_spec in He as (H1 & H2 & H3 & H4 & H5 & _). cbn.
  split_and!; try done; intros n; by eapply number_ok_bounds.
Qed.

(** Asking the platform changes nothing but the name servers. *)
Lemma mobile_dns_servers native o o' : mobile_dns json_string native o = Ok o' -> exists servers, o' = set_nameservers servers o.
Proof.
  unfold mobile_dns. assert (exists servers, o = set_nameservers servers o) by (exists (do_dns_nameservers (nd_discovery o)); by destruct o as [? ? []]).
  destruct (should_query_mobile_dns o); [|by intros [= <-]]. destruct native as [[[|x l]|e]|]; try done; intros [= <-]; eauto.
Qed.

(** C37. An endpoint that a binding has created, on a mobile host with the name
    servers of the platform, is within the limits, whatever the options were: the
    header size is between 1 byte and 1 MiB and the response limit 256 MiB, a
    compression level between 1 and 22; the pool's idle timeout, the number of
    milliseconds that QUIC's idle timeout was made of, the handle TTL and the
    sweep interval are each at most five minutes, and handles are swept with that
    TTL and that interval, unless the TTL is zero or tokio refuses the interval;
    channels and chunks have room for at least one chunk and one byte, and a
    handle store of 65536 entries per registry starts out well formed and empty
    of sessions and serve loops. *)
Theorem created_endpoint_within_limits native o o' inner t :
  accepted_options show_f64 json_string b64_decode o -> mobile_dns json_string native o = Ok o' -> bind_endpoint o' = Ok (inner, t) ->
  let cfg := config (store (handles inner)) in
  (1 <= max_header_size inner <= 1048576)%Z /\ max_response_body_bytes inner = 268435456%Z /\
  (forall c lvl, in_compression inner = Some c -> level c = Some lvl -> 1 <= lvl <= 22)%Z /\
  (forall n, pool_idle_timeout inner = Some n -> 0 <= n <= 300000)%Z /\
  (exists b, builder_bind b = Ok (ep inner) /\
     forall x, b_max_idle_timeout b = Some x -> exists ms, (0 <= ms <= 300000)%Z /\ idle_timeout_try_from ms = Ok x) /\
  (0 <= ttl cfg <= 300000)%Z /\
  match t with
  | NoSweep => ttl cfg = 0%Z
  | Sweeps life period => life = ttl cfg /\ life <> 0%Z /\ exists i, (0 <= i <= 300000)%Z /\ interval i = Some period
  | SweepPanics => exists i, (0 <= i <= 300000)%Z /\ interval i = None
  end /\
  (1 <= channel_capacity cfg)%Z /\ (1 <= max_chunk_size cfg)%Z /\ max_handles cfg = 65536%Z /\
  store_inv cfg (handles inner) /\ session inner = endpoint_new /\
  active_connections inner = 0%Z /\ active_requests inner = 0%Z.
Proof.
  intros (B1 & B2 & B3 & B4 & B5 & B6)%accepted_bounds [servers ->]%mobile_dns_servers
    (mode & dns & b & e & size & _ & _ & Hc & _ & Hb & He & Hs & -> & ->)%bind_ok_stages.
  apply build_asked in Hb as (lookups & idle & addrs & proxy & -> & _ & Hi & _).
  cbv zeta. cbn [handles max_header_size EndpointBind.max_response_body_bytes in_compression pool_idle_timeout session ep
    EndpointBind.active_connections EndpointBind.active_requests nd_streaming nd_pool nd_max_response_body_bytes nd_compression set_nameservers] in *.
  change (config (store (world_new ?c))) with c. unfold sweep_task. cbn [store_config ttl channel_capacity max_chunk_size max_handles].
  assert (0 <= default DEFAULT_SLAB_TTL_MS (st_handle_ttl_ms (nd_streaming o)) <= 300000)%Z as Httl.
  { destruct (st_handle_ttl_ms _) as [n|]; cbn; [by apply B4|by unfold DEFAULT_SLAB_TTL_MS]. }
  assert (0 <= sweep_interval (nd_streaming o) <= 300000)%Z as Hsw.
  { unfold sweep_interval. destruct (st_sweep_interval_ms _) as [n|]; cbn; [by apply B5|by unfold DEFAULT_SWEEP_INTERVAL_MS]. }
  assert (1 <= size <= 1048576)%Z as Hsz.
  { unfold header_size in Hs. cbn in Hs. destruct (nd_max_header_size o) as [n|]; [|by injection Hs as <-].
    destruct (Z.eqb_spec n 0); [done|]. injection Hs as <-. specialize (B1 n eq_refl). lia. }
  split_and!; try done; try lia.
  - by rewrite B2.
  - by apply check_compression_ok.
  - eexists. split; [exact He|]. cbn. intros x ->. unfold idle_asked in Hi. cbn in Hi.
    destruct (no_idle_timeout_ms (nd_networking o)) as [ms|]; [|done]. exists ms. auto.
  - destruct (Z.eqb_spec (default DEFAULT_SLAB_TTL_MS (st_handle_ttl_ms (nd_streaming o))) 0); [done|].
    destruct (interval _) eqn:E; eauto 10.
  - by apply inv_new.
Qed.

(** A sweep interval of zero is accepted and the endpoint is bound, but tokio's
    [interval] panics on it: no sweep ever takes place. *)
Theorem zero_sweep_interval_never_sweeps (a : CreateEndpointArgs string) o inner t v :
  tauri_options show_f64 json_string b64_decode (Some a) = Ok o -> ca_sweep_interval a = Some v -> is_integer v 0 ->
  bind_endpoint o = Ok (inner, t) -> interval 0%Z = None ->
  st_sweep_interval_ms (nd_streaming o) = Some 0%Z /\ forall start now, ~ sweeps_at t start now.
Proof.
  intros Ha Hv Hi Hb Hint.
  assert (st_sweep_interval_ms (nd_streaming o) = Some 0%Z) as Hz.
  { cbn in Ha. destruct (coerce_endpoint_options _ _) as [ep|] eqn:E; [|done]. apply let_ok in Ha as (key & _ & [= <-]). cbn.
    apply coerce_endpoint_spec in E as (_ & _ & _ & H4 & _). cbn in H4. rewrite Hv in H4. destruct (eo_sweep_interval_ms ep) as [n|]; [|done].
    destruct H4 as [Hn _]. f_equal. clear - Hi Hn. destruct v as [| |s m x]; try done. cbn in *. destruct Hi as [_ Hi], Hn as [_ Hn].
    destruct (0 <=? x)%Z eqn:Ex; [congruence|]. rewrite Hi in Hn. apply Z.leb_gt in Ex.
    assert (0 < 2 ^ (- x))%Z by (apply Z.pow_pos_nonneg; lia). nia. }
  split; [done|]. apply bind_ok_stages in Hb as (mode & dns & b & e & size & _ & _ & _ & _ & _ & _ & _ & -> & _).
  intros start now. unfold sweep_task, sweep_interval. rewrite Hz. change (default _ (Some 0%Z)) with 0%Z. rewrite Hint. destruct (_ =? 0)%Z; intros [].
Qed.
End created.

(** ** Witnesses *)

Section witnesses.
#[local] Abbreviation demo_bind_endpoint := (bind (K:=nat) (M:=VecMap) (C:=ChanView) (RelayUrl:=string) (Url:=string) (Ep:=nat)
  Ok Ok Some Ok (fun _ _ => Ok tt) "linux" id (fun _ => "[]") demo_bind (fun _ => Ok 7) (fun _ => "node")
  (fun p => if (p =? 0)%Z then None else Some p)).

Definition demo_args : CreateEndpointArgs string :=
  mkArgs None None (Some "custom") (Some ["https://relay"]) (Some ["0.0.0.0:4433"]) None None (Some 0%Z) None None
    (Some (Finite false 0 0)) None None None None None (Some 3%Z) None None None.

Definition demo_options : NodeOptions :=
  node_options_of demo_args (mkEndpointOptions None None None (Some 0%Z) None (Some 3%Z)) None.

Example demo_accepted : tauri_options (fun _ => "") id (fun _ => None) (Some demo_args) = Ok demo_options.
Proof. reflexivity. Qed.

Definition demo_inner : EndpointInner VecMap ChanView nat :=
  mkInner 7 "node" [] None None 65536 268435456 0 0 (Some (mkCompression 1024 (Some 3%Z))) endpoint_new
    (world_new (mkConfig 1 65536 30000 65536 300000)).

Example demo_bound : demo_bind_endpoint demo_options = Ok (demo_inner, SweepPanics).
Proof. reflexivity. Qed.
Example demo_default_bound : demo_bind_endpoint node_options_default =
  Ok (mkInner 7 "node" [] None None 65536 268435456 0 0 None endpoint_new (world_new (mkConfig 32 65536 30000 65536 300000)), Sweeps 300000 60000).
Proof. reflexivity. Qed.

Lemma bound_network_exact_witness : exists b : Builder string string,
  b_alpns b = [ALPN_DUPLEX_STR; ALPN_STR] /\ b_relay_mode b = RelayCustom ["https://relay"] /\
  Forall2 (fun s a => parse_socket s = Ok a) ["0.0.0.0:4433"] (b_bind_addrs b).
Proof.
  destruct (bound_network_exact _ _ _ _ _ _ _ _ _ _ _ _ demo_options demo_inner SweepPanics demo_bound)
    as (b & _ & H1 & _ & H2 & _ & _ & _ & _ & _ & H3 & _). exists b. split_and!; [by rewrite H1| |exact H3].
  destruct (b_relay_mode b) as [| | |urls]; cbn in H2; [by destruct H2 as [[]|]|by destruct H2 as [_ []]|by destruct H2|].
  destruct H2 as (_ & _ & _ & Hf). apply Forall2_cons_inv_l in Hf as (u & us & [= <-] & Hf & ->). apply Forall2_nil_inv_l in Hf as ->. done.
Defined.

Lemma bind_refusal_exact_witness : exists e d,
  demo_bind_endpoint (mkNodeOptions None networking_default discovery_default pool_default streaming_default [] false (Some 0%Z) None None) =
    Err (e, d) /\ exists x, d_endpoint d = Some x /\ exists b : Builder string string, (fun _ => Ok 7 : Result nat string) b = Ok x.
Proof.
  eexists _, _. split; [reflexivity|]. exists 7. split; [reflexivity|].
  eapply (proj2 (bind_refusal_exact (K:=nat) (M:=VecMap) (C:=ChanView) (RelayUrl:=string) (Url:=string) (Ep:=nat)
    Ok Ok Some Ok (fun _ _ => Ok tt) "linux" id (fun _ => "[]") demo_bind (fun _ => Ok 7) (fun _ => "node") Some
    (mkNodeOptions None networking_default discovery_default pool_default streaming_default [] false (Some 0%Z) None None) _ _ eq_refl)).
  reflexivity.
Defined.

Lemma handles_swept_in_time_witness : exists now,
  (1000 + 300000 < now <= 1000 + 300000 + 60000)%Z /\
  forall w : World VecMap ChanView, none_used_at 1000 (store (sweep now 300000 w)).
Proof.
  destruct (handles_swept_in_time _ _ _ _ _ _ _ _ _ _ _ (fun p => if (p =? 0)%Z then None else Some p) node_options_default _ _ 0 1000 demo_default_bound)
    as (now & _ & H1 & H2); [intros p Hp; destruct (Z.eqb_spec p 0); [lia|done]|reflexivity|reflexivity|lia|].
  exists now. split; [exact H1|exact H2].
Defined.

Lemma created_endpoint_within_limits_witness :
  (1 <= channel_capacity (config (store (handles demo_inner))))%Z /\ (1 <= max_header_size demo_inner <= 1048576)%Z.
Proof.
  destruct (created_endpoint_within_limits _ _ _ _ _ _ _ _ _ _ _ _ (fun _ => "") id (fun _ => None) None demo_options demo_options demo_inner SweepPanics
    (by_tauri _ _ _ _ (Some demo_args) demo_accepted) eq_refl demo_bound) as (H1 & _ & _ & _ & _ & _ & _ & H2 & _). split; [exact H2|exact H1].
Defined.

Lemma zero_sweep_interval_never_sweeps_witness : forall start now, ~ sweeps_at SweepPanics start now.
Proof.
  refine (proj2 (zero_sweep_interval_never_sweeps _ _ _ _ _ _ _ _ _ _ _ _ (fun _ => "") id (fun _ => None)
    demo_args demo_options demo_inner SweepPanics (Finite false 0 0) demo_accepted eq_refl _ demo_bound eq_refl)).
  split; [by left|reflexivity].
Defined.
End witnesses.
