(* ===== verification/PathRx.v ===== *)
(** * Path-change receivers of the bindings
    (commands.rs, dispatch.rs and lib.rs of the Tauri, Deno and Node bindings)

    The three bindings keep the receivers of path subscriptions in a map from
    endpoint handle, peer and subscription id.  [nextPathChange] takes the
    receiver from the map, or subscribes, and waits on it;
    [unsubscribePathChanges] and the close of an endpoint take it out and wake
    who waits.  The calls interleave between their locked sections and awaits.
    The endpoint is seen through what it promises of a subscription: one sender
    per key, which a new subscription to the key replaces, an unsubscription
    drops and, once the endpoint is closed, the end of the watcher drops. *)

From stdpp Require Import base numbers list gmap sets strings relations.
From Stdlib Require Import ZArith Lia.
From S2P Require Import Prelude PathWatch.

Open Scope list_scope.

Abbreviation Key := (Z * string * Z)%type.
Definition key_ep (k : Key) : Z := k.1.1.

(** ** State *)

(** [PathSub]: the channel with its buffer and whether its sender is alive, and
    who holds the lock of the receiver.  What was sent and what was taken, by
    which call, is recorded. *)
Record PathSub := mkSub {
  ps_key : Key; ps_buf : list PathInfo; ps_tx : bool; ps_lock : option nat;
  ps_sent : list PathInfo; ps_taken : list (nat * PathInfo)
}.

(** Where a call of [next_path_change] is: before the map, waiting for the lock,
    in the [select!] (and whether it was notified), with [None], or returned. *)
Inductive NextPc :=
| NEnter
| NLock (j : nat)
| NSelect (j : nat) (notified : bool)
| NNone (j : nat)
| NDone (r : option PathInfo).

Inductive UnsubPc := UMap | UCore | UDone.

Record RxState := mkRx {
  rxs : gmap Key nat;
  subs : list PathSub;
  calls : list (Key * NextPc);
  unsubs : list (Key * UnsubPc);
  registered : gset Z;
  eps_closed : gset Z;
  senders : gmap Key nat
}.
Definition rx_new (endpoints : gset Z) : RxState := mkRx ∅ [] [] [] endpoints ∅ ∅.

Definition set_rxs x s := mkRx x (subs s) (calls s) (unsubs s) (registered s) (eps_closed s) (senders s).
Definition set_subs x s := mkRx (rxs s) x (calls s) (unsubs s) (registered s) (eps_closed s) (senders s).
Definition set_calls x s := mkRx (rxs s) (subs s) x (unsubs s) (registered s) (eps_closed s) (senders s).
Definition set_unsubs x s := mkRx (rxs s) (subs s) (calls s) x (registered s) (eps_closed s) (senders s).
Definition set_eps r c s := mkRx (rxs s) (subs s) (calls s) (unsubs s) r c (senders s).
Definition set_senders x s := mkRx (rxs s) (subs s) (calls s) (unsubs s) (registered s) (eps_closed s) x.

Definition sub_lock l (p : PathSub) := mkSub (ps_key p) (ps_buf p) (ps_tx p) l (ps_sent p) (ps_taken p).
Definition sub_drop_tx (p : PathSub) := mkSub (ps_key p) (ps_buf p) false (ps_lock p) (ps_sent p) (ps_taken p).
Definition sub_send (a : PathInfo) (p : PathSub) :=
  mkSub (ps_key p) (ps_buf p ++ [a]) (ps_tx p) (ps_lock p) (ps_sent p ++ [a]) (ps_taken p).
Definition sub_take (i : nat) (a : PathInfo) (rest : list PathInfo) (p : PathSub) :=
  mkSub (ps_key p) rest (ps_tx p) None (ps_sent p) (ps_taken p ++ [(i, a)]).

Definition call_goto (i : nat) (k : Key) (x : NextPc) (s : RxState) : RxState := set_calls (<[i := (k, x)]> (calls s)) s.
Definition upd_sub (f : PathSub -> PathSub) (j : nat) (s : RxState) : RxState := set_subs (alter f j (subs s)) s.

(** ** The endpoint *)

(** Dropping the sender of a key, and [subscribe_path_changes] with the number
    of the new receiver. *)
Definition drop_sender_of (k : Key) (s : RxState) : RxState :=
  match senders s !! k with
  | Some j => set_senders (delete k (senders s)) (upd_sub sub_drop_tx j s)
  | None => s
  end.
Definition core_subscribe (k : Key) (s : RxState) : nat * RxState :=
  let s := drop_sender_of k s in
  let j := length (subs s) in
  (j, set_senders (<[k := j]> (senders s)) (set_subs (subs s ++ [mkSub k [] true None [] []]) s)).

(** ** The bindings *)

(** [notify.notify_waiters()]: who is in the [select!] on receiver [j]. *)
Definition notify_call (j : nat) (c : Key * NextPc) : Key * NextPc :=
  match c.2 with NSelect j' _ => if decide (j' = j) then (c.1, NSelect j true) else c | _ => c end.
Definition wake_waiters (j : nat) (s : RxState) : RxState := set_calls (notify_call j <$> calls s) s.

(** The entry of the key, or a new subscription. *)
Definition next_enter (i : nat) (k : Key) (s : RxState) : RxState :=
  match rxs s !! k with
  | Some j => call_goto i k (NLock j) s
  | None => let '(j, s) := core_subscribe k s in call_goto i k (NLock j) (set_rxs (<[k := j]> (rxs s)) s)
  end.

(** The end of a call without a path: the entry goes if it is still this one. *)
Definition remove_if (k : Key) (j : nat) (s : RxState) : RxState :=
  if decide (rxs s !! k = Some j) then set_rxs (delete k (rxs s)) s else s.

(** [unsubscribe_path_changes]: the entry is taken out and its waiter woken; an
    absent one is replaced by a receiver that has already ended. *)
Definition unsubscribe_map (k : Key) (s : RxState) : RxState :=
  match rxs s !! k with
  | Some j => wake_waiters j (set_rxs (delete k (rxs s)) s)
  | None => set_rxs (<[k := length (subs s)]> (rxs s)) (set_subs (subs s ++ [mkSub k [] false None [] []]) s)
  end.

(** [clear_path_change_rxs]. *)
Definition notify_all (e : Z) (r : gmap Key nat) (c : Key * NextPc) : Key * NextPc :=
  match c.2 with
  | NSelect j _ => if decide (key_ep c.1 = e /\ r !! c.1 = Some j) then (c.1, NSelect j true) else c
  | _ => c
  end.
Definition clear_path_change_rxs (e : Z) (s : RxState) : RxState :=
  set_calls (notify_all e (rxs s) <$> calls s) (set_rxs (filter (fun kv => key_ep kv.1 <> e) (rxs s)) s).

Inductive rx_step (s : RxState) : RxState -> Prop :=
| r_call k : key_ep k ∈ registered s -> rx_step s (set_calls (calls s ++ [(k, NEnter)]) s)
| r_enter i k : calls s !! i = Some (k, NEnter) -> rx_step s (next_enter i k s)
| r_lock i k j p : calls s !! i = Some (k, NLock j) -> subs s !! j = Some p -> ps_lock p = None ->
    rx_step s (call_goto i k (NSelect j false) (upd_sub (sub_lock (Some i)) j s))
| r_recv i k j w p a rest : calls s !! i = Some (k, NSelect j w) -> subs s !! j = Some p -> ps_buf p = a :: rest ->
    rx_step s (call_goto i k (NDone (Some a)) (upd_sub (sub_take i a rest) j s))
| r_recv_none i k j w p : calls s !! i = Some (k, NSelect j w) -> subs s !! j = Some p -> ps_buf p = [] -> ps_tx p = false ->
    rx_step s (call_goto i k (NNone j) (upd_sub (sub_lock None) j s))
| r_notified i k j : calls s !! i = Some (k, NSelect j true) -> rx_step s (call_goto i k (NNone j) (upd_sub (sub_lock None) j s))
| r_finish i k j : calls s !! i = Some (k, NNone j) -> rx_step s (call_goto i k (NDone None) (remove_if k j s))
| r_unsub k : key_ep k ∈ registered s -> rx_step s (set_unsubs (unsubs s ++ [(k, UMap)]) s)
| r_unsub_map u k : unsubs s !! u = Some (k, UMap) -> rx_step s (set_unsubs (<[u := (k, UCore)]> (unsubs s)) (unsubscribe_map k s))
| r_unsub_core u k : unsubs s !! u = Some (k, UCore) -> rx_step s (set_unsubs (<[u := (k, UDone)]> (unsubs s)) (drop_sender_of k s))
| r_close e : e ∈ registered s -> rx_step s (set_eps (registered s) (eps_closed s ∪ {[e]}) s)
| r_clear e : e ∈ eps_closed s -> rx_step s (clear_path_change_rxs e s)
| r_remove e : e ∈ eps_closed s -> rx_step s (set_eps (registered s ∖ {[e]}) (eps_closed s) s)
| r_core_send k j a : senders s !! k = Some j -> rx_step s (upd_sub (sub_send a) j s)
| r_core_end k : key_ep k ∈ eps_closed s -> rx_step s (drop_sender_of k s).
