(* ===== verification/PathRxProps.v ===== *)
(** * Path-change receivers: every change once and in order, and no call stranded *)

From stdpp Require Import base numbers list gmap sets strings relations.
From Stdlib Require Import ZArith Lia.
From S2P Require Import Prelude PathWatch PathRx.

Open Scope list_scope.

(** ** Lookups after a step *)

Lemma alter_Some {A} (f : A -> A) j (l : list A) j' x :
  alter f j l !! j' = Some x <-> exists y, l !! j' = Some y /\ x = if decide (j = j') then f y else y.
Proof.
  destruct (decide (j = j')) as [<-|Hne].
  - rewrite list_lookup_alter_eq. destruct (l !! j); naive_solver.
  - rewrite list_lookup_alter_ne by done. naive_solver.
Qed.

Lemma snoc_Some {A} (l : list A) y j x : (l ++ [y]) !! j = Some x <-> l !! j = Some x \/ j = length l /\ x = y.
Proof.
  rewrite lookup_app_Some. split.
  - intros [?|[Hj Hx]]; [by left|]. right. apply list_lookup_singleton_Some in Hx as [? ->]. split; [lia|done].
  - intros [?|[-> ->]]; [by left|]. right. by rewrite Nat.sub_diag.
Qed.

Lemma insert_Some {A} (l : list A) i z y j x :
  l !! i = Some z -> <[i := y]> l !! j = Some x <-> if decide (i = j) then x = y else l !! j = Some x.
Proof.
  intros Hi. case_decide as Hd.
  - subst j. rewrite list_lookup_insert_eq by (by eapply lookup_lt_Some). naive_solver.
  - by rewrite list_lookup_insert_ne.
Qed.

(** ** What was sent and what was returned *)

Definition waits_on (x : NextPc) : option nat :=
  match x with NLock j | NSelect j _ | NNone j => Some j | NEnter | NDone _ => None end.
Definition returned (x : NextPc) : option PathInfo := match x with NDone r => r | _ => None end.

(** The receivers and calls as the properties see them. *)
Record log_inv (l : list PathSub) (c : list (Key * NextPc)) : Prop := {
  g_sent : forall j p, l !! j = Some p -> ps_sent p = (ps_taken p).*2 ++ ps_buf p;
  g_nodup : forall j p, l !! j = Some p -> NoDup (ps_taken p).*1;
  g_taken : forall j p i a, l !! j = Some p -> (i, a) ∈ ps_taken p -> c !! i = Some (ps_key p, NDone (Some a));
  g_returned : forall i k a, c !! i = Some (k, NDone (Some a)) ->
    exists j p, l !! j = Some p /\ ps_key p = k /\ (i, a) ∈ ps_taken p
}.

(** Changes to receivers that keep key and logs, and calls that keep results. *)
Definition same_log (l l' : list PathSub) : Prop :=
  forall j p', l' !! j = Some p' -> (exists p, l !! j = Some p /\ ps_key p = ps_key p' /\ ps_buf p = ps_buf p' /\
    ps_sent p = ps_sent p' /\ ps_taken p = ps_taken p') \/ ps_sent p' = [] /\ ps_taken p' = [] /\ ps_buf p' = [].
Definition keeps_log (l l' : list PathSub) : Prop :=
  forall j p, l !! j = Some p -> exists p', l' !! j = Some p' /\ ps_key p' = ps_key p /\ ps_taken p' = ps_taken p.
Definition keeps_results (c c' : list (Key * NextPc)) : Prop :=
  forall i k a, c' !! i = Some (k, NDone (Some a)) <-> c !! i = Some (k, NDone (Some a)).

Lemma log_keep l l' c c' : log_inv l c -> same_log l l' -> keeps_log l l' -> keeps_results c c' -> log_inv l' c'.
Proof.
  intros [G1 G2 G3 G4] Hs Hk Hc. constructor.
  - intros j p' Hp. destruct (Hs _ _ Hp) as [(p & Hl & _ & <- & <- & <-)|(-> & -> & ->)]; [by apply (G1 j)|done].
  - intros j p' Hp. destruct (Hs _ _ Hp) as [(p & Hl & _ & _ & _ & <-)|(_ & -> & _)]; [by apply (G2 j)|constructor].
  - intros j p' i a Hp Ha. apply Hc. destruct (Hs _ _ Hp) as [(p & Hl & <- & _ & _ & E)|(_ & E & _)].
    + rewrite <- E in Ha. by apply (G3 j).
    + rewrite E in Ha. by apply not_elem_of_nil in Ha.
  - intros i k a Hi%Hc. destruct (G4 _ _ _ Hi) as (j & p & Hp & <- & Ha). destruct (Hk _ _ Hp) as (p' & ? & <- & E).
    exists j, p'. by rewrite E.
Qed.

Lemma same_log_refl l : same_log l l.
Proof. intros j p Hp. left. eauto 10. Qed.
Lemma keeps_log_refl l : keeps_log l l.
Proof. intros j p Hp. eauto. Qed.
Lemma same_log_alter f j l : (forall p, ps_key (f p) = ps_key p /\ ps_buf (f p) = ps_buf p /\ ps_sent (f p) = ps_sent p /\ ps_taken (f p) = ps_taken p) ->
  same_log l (alter f j l) /\ keeps_log l (alter f j l).
Proof.
  intros Hf. split.
  - intros j' p' Hp. apply alter_Some in Hp as (p & Hp & ->). left. exists p. destruct (Hf p) as (E1 & E2 & E3 & E4). case_decide; by split_and!.
  - intros j' p Hp. destruct (Hf p) as (E1 & E2 & E3 & E4). eexists. split; [apply alter_Some; eauto|]. case_decide; done.
Qed.
Lemma same_log_snoc l p : ps_sent p = [] -> ps_taken p = [] -> ps_buf p = [] -> same_log l (l ++ [p]) /\ keeps_log l (l ++ [p]).
Proof.
  intros E1 E2 E3. split.
  - intros j p' [Hp|[_ ->]]%snoc_Some; [left; eauto 10|by right].
  - intros j q Hq. exists q. split; [|done]. apply snoc_Some. by left.
Qed.
Lemma same_log_trans l l' l'' : same_log l l' /\ keeps_log l l' -> same_log l' l'' /\ keeps_log l' l'' -> same_log l l'' /\ keeps_log l l''.
Proof.
  intros [H1 H2] [H3 H4]. split.
  - intros j p Hp. destruct (H3 _ _ Hp) as [(q & Hq & E1 & E2 & E3 & E4)|?]; [|by right].
    destruct (H1 _ _ Hq) as [(r & Hr & ? & ? & ? & ?)|(? & ? & ?)]; [left; exists r; split_and!; congruence|right; split_and!; congruence].
  - intros j p Hp. destruct (H2 _ _ Hp) as (q & Hq & ? & ?). destruct (H4 _ _ Hq) as (r & Hr & ? & ?). exists r. split_and!; congruence.
Qed.

Lemma keeps_results_refl c : keeps_results c c.
Proof. done. Qed.
Lemma keeps_results_insert c i k k' x y :
  c !! i = Some (k', x) -> returned x = None -> returned y = None -> keeps_results c (<[i := (k, y)]> c).
Proof.
  intros Hi Hx Hy i' k'' a. rewrite (insert_Some _ _ _ _ _ _ Hi). case_decide; [|done]. subst i'. rewrite Hi. split.
  - intros [= _ <-]. done.
  - intros [= _ ->]. done.
Qed.
Lemma keeps_results_snoc c k : keeps_results c (c ++ [(k, NEnter)]).
Proof. intros i k' a. rewrite snoc_Some. naive_solver. Qed.
Lemma keeps_results_map (f : Key * NextPc -> Key * NextPc) c :
  (forall x, f x = x \/ exists j w, x.2 = NSelect j w /\ f x = (x.1, NSelect j true)) -> keeps_results c (f <$> c).
Proof.
  intros Hf i k a. rewrite list_lookup_fmap_Some. split.
  - intros ([k' x] & Hx & Hc). destruct (Hf (k', x)) as [E|(j & w & _ & E)]; rewrite E in Hx; [by simplify_eq|done].
  - intros Hc. exists (k, NDone (Some a)). split; [|done]. destruct (Hf (k, NDone (Some a))) as [E|(j & w & E & _)]; [|done]. by rewrite E.
Qed.

Lemma notify_call_cases j x : notify_call j x = x \/ exists j' w, x.2 = NSelect j' w /\ notify_call j x = (x.1, NSelect j' true).
Proof. unfold notify_call. destruct (x.2) as [| |j' w| |]; try by left. case_decide as Hd; [subst; right; eauto|by left]. Qed.
Lemma notify_all_cases e r x : notify_all e r x = x \/ exists j' w, x.2 = NSelect j' w /\ notify_all e r x = (x.1, NSelect j' true).
Proof. unfold notify_all. destruct (x.2) as [| |j' w| |]; try by left. case_decide; [right; eauto|by left]. Qed.

Lemma drop_tx_log j l : same_log l (alter sub_drop_tx j l) /\ keeps_log l (alter sub_drop_tx j l).
Proof. by apply same_log_alter. Qed.
Lemma drop_sender_log k s : same_log (subs s) (subs (drop_sender_of k s)) /\ keeps_log (subs s) (subs (drop_sender_of k s)).
Proof. unfold drop_sender_of. destruct (senders s !! k); [apply drop_tx_log|split; [apply same_log_refl|apply keeps_log_refl]]. Qed.
Lemma drop_sender_calls k s : calls (drop_sender_of k s) = calls s.
Proof. unfold drop_sender_of. by destruct (senders s !! k). Qed.
Lemma drop_sender_rxs k s : rxs (drop_sender_of k s) = rxs s.
Proof. unfold drop_sender_of. by destruct (senders s !! k). Qed.

(** ** Receivers, entries and senders *)

Record link_inv (s : RxState) : Prop := {
  k_tx : forall j p, subs s !! j = Some p -> ps_tx p = true <-> senders s !! ps_key p = Some j;
  k_senders : forall k j, senders s !! k = Some j -> exists p, subs s !! j = Some p /\ ps_key p = k;
  k_rxs : forall k j, rxs s !! k = Some j -> exists p, subs s !! j = Some p /\ ps_key p = k;
  k_calls : forall i k x j, calls s !! i = Some (k, x) -> waits_on x = Some j -> exists p, subs s !! j = Some p /\ ps_key p = k
}.

(** No receiver is lost and none changes its key. *)
Definition keys_kept (l l' : list PathSub) : Prop := forall j p, l !! j = Some p -> exists p', l' !! j = Some p' /\ ps_key p' = ps_key p.

Lemma keys_alter f j l : (forall p, ps_key (f p) = ps_key p) -> keys_kept l (alter f j l).
Proof. intros Hf j' p Hp. eexists. split; [apply alter_Some; eauto|]. by case_decide. Qed.
Lemma keys_snoc l p : keys_kept l (l ++ [p]).
Proof. intros j q Hq. exists q. split; [|done]. apply snoc_Some. by left. Qed.
Lemma keys_found l l' j k : keys_kept l l' -> (exists p, l !! j = Some p /\ ps_key p = k) -> exists p, l' !! j = Some p /\ ps_key p = k.
Proof. intros Hk (p & Hp & <-). destruct (Hk _ _ Hp) as (p' & ? & ?). eauto. Qed.

(** A step of a call that waits on nothing new, receivers and senders kept. *)
Lemma link_keep s s' :
  link_inv s -> senders s' = senders s -> keys_kept (subs s) (subs s') ->
  (forall j p', subs s' !! j = Some p' -> (exists p, subs s !! j = Some p /\ ps_key p' = ps_key p /\ ps_tx p' = ps_tx p) \/
     ps_tx p' = false /\ length (subs s) <= j) ->
  (forall k j, rxs s' !! k = Some j -> (exists p, subs s' !! j = Some p /\ ps_key p = k)) ->
  (forall i k x j, calls s' !! i = Some (k, x) -> waits_on x = Some j -> exists p, subs s' !! j = Some p /\ ps_key p = k) ->
  link_inv s'.
Proof.
  intros [K1 K2 K3 K4] Es Hk Hp Hr Hc. constructor; [|by rewrite Es; intros k j ?%K2; eapply keys_found|done|done].
  intros j p' Hj. rewrite Es. destruct (Hp _ _ Hj) as [(p & Hl & -> & ->)|[-> Hlen]]; [by apply K1|].
  split; [done|]. intros Hs. apply K2 in Hs as (q & Hq & _). apply lookup_lt_Some in Hq. lia.
Qed.

Lemma calls_insert_wait s c i k x (l : list PathSub) z :
  calls s !! i = Some z -> keys_kept (subs s) l -> link_inv s -> c = <[i := (k, x)]> (calls s) ->
  (forall j, waits_on x = Some j -> exists p, l !! j = Some p /\ ps_key p = k) ->
  forall i' k' x' j, c !! i' = Some (k', x') -> waits_on x' = Some j -> exists p, l !! j = Some p /\ ps_key p = k'.
Proof.
  intros Hi Hk [_ _ _ K4] -> Hx i' k' x' j Hc Hw. apply (insert_Some _ _ _ _ _ _ Hi) in Hc. case_decide.
  - simplify_eq. by apply Hx.
  - eapply keys_found; [done|]. by eapply K4.
Qed.

Lemma waits_map s (f : Key * NextPc -> Key * NextPc) l :
  (forall x, f x = x \/ exists j w, x.2 = NSelect j w /\ f x = (x.1, NSelect j true)) -> keys_kept (subs s) l -> link_inv s ->
  forall i k x j, (f <$> calls s) !! i = Some (k, x) -> waits_on x = Some j -> exists p, l !! j = Some p /\ ps_key p = k.
Proof.
  intros Hf Hk [_ _ _ K4] i k x j ([k' y] & Hx & Hc)%list_lookup_fmap_Some Hw. eapply keys_found; [done|].
  destruct (Hf (k', y)) as [E|(j' & w & E1 & E)]; rewrite E in Hx; simplify_eq.
  - by eapply K4.
  - cbn in *. subst y. simplify_eq. by eapply K4.
Qed.

Lemma link_drop_sender k s : link_inv s -> link_inv (drop_sender_of k s) /\ keys_kept (subs s) (subs (drop_sender_of k s)) /\
  senders (drop_sender_of k s) !! k = None.
Proof.
  intros [K1 K2 K3 K4]. unfold drop_sender_of. destruct (senders s !! k) as [j|] eqn:Ek; [|split_and!; [done|intros j p Hp; eauto|done]].
  assert (keys_kept (subs s) (alter sub_drop_tx j (subs s))) as Hk by (by apply keys_alter).
  split_and!; [|done|cbn; apply lookup_delete_eq]. constructor; cbn.
  - intros j' p' (p & Hp & ->)%alter_Some. case_decide as Hd.
    + subst j'. cbn. destruct (K2 _ _ Ek) as (q & Hq & Eq). simplify_eq. rewrite lookup_delete_eq. done.
    + rewrite (K1 _ _ Hp), lookup_delete_Some. split; [|naive_solver]. intros Hs. split; [|done]. intros E. rewrite <- E in Hs. congruence.
  - intros k' j' [_ ?%K2]%lookup_delete_Some. by eapply keys_found.
  - intros k' j' ?%K3. by eapply keys_found.
  - intros i k' x j' Hc Hw. eapply keys_found; [done|]. by eapply K4.
Qed.

Lemma keys_refl l : keys_kept l l.
Proof. intros j p Hp. eauto. Qed.
Lemma keys_trans l l' l'' : keys_kept l l' -> keys_kept l' l'' -> keys_kept l l''.
Proof. intros H1 H2 j p Hp. destruct (H1 _ _ Hp) as (q & Hq & <-). by apply H2. Qed.

Lemma tx_alter f j (l : list PathSub) : (forall p, ps_key (f p) = ps_key p /\ ps_tx (f p) = ps_tx p) ->
  forall j' p', alter f j l !! j' = Some p' -> (exists p, l !! j' = Some p /\ ps_key p' = ps_key p /\ ps_tx p' = ps_tx p) \/
     ps_tx p' = false /\ length l <= j'.
Proof. intros Hf j' p' (p & Hp & ->)%alter_Some. left. exists p. destruct (Hf p). by case_decide. Qed.
Lemma tx_refl (l : list PathSub) j' p' : l !! j' = Some p' -> (exists p, l !! j' = Some p /\ ps_key p' = ps_key p /\ ps_tx p' = ps_tx p) \/
     ps_tx p' = false /\ length l <= j'.
Proof. intros Hp. left. eauto. Qed.

(** A call that goes on, with its receiver changed in ways that do not matter here. *)
Lemma link_goto s i k x y f j :
  link_inv s -> calls s !! i = Some (k, x) -> (forall p, ps_key (f p) = ps_key p /\ ps_tx (f p) = ps_tx p) ->
  waits_on y = waits_on x \/ waits_on y = None -> link_inv (call_goto i k y (upd_sub f j s)).
Proof.
  intros Hi Hc Hf Hy. assert (keys_kept (subs s) (alter f j (subs s))) as Hk by (apply keys_alter; intros p; apply Hf).
  apply (link_keep s); try done; [by apply tx_alter| |].
  - intros k' j' Hr. eapply keys_found; [done|]. by apply (k_rxs _ Hi).
  - eapply (calls_insert_wait s); [done|done|done|reflexivity|]. intros j' Hw. eapply keys_found; [done|].
    eapply (k_calls _ Hi); [done|]. destruct Hy as [<-|E]; congruence.
Qed.

Lemma link_step s s' : rx_step s s' -> link_inv s -> link_inv s'.
Proof.
  intros Hs Hi. pose proof Hi as [K1 K2 K3 K4].
  destruct Hs as [k|i k Hc|i k j p Hc Hp Hl|i k j w p a rest Hc Hp Hb|i k j w p Hc Hp Hb Ht|i k j Hc|i k j Hc|k|u k Hu|u k Hu|e|e|e|k j a Hk|k].
  - apply (link_keep s); try done; [apply keys_refl|apply tx_refl|].
    intros i k' x j [Hc|[_ [= -> ->]]]%snoc_Some; [by apply (K4 i)|done].
  - unfold next_enter. destruct (rxs s !! k) as [j|] eqn:Er.
    + apply (link_keep s); try done; [apply keys_refl|apply tx_refl|].
      eapply (calls_insert_wait s); [done|apply keys_refl|done|reflexivity|]. intros j' [= <-]. by apply K3.
    + destruct (link_drop_sender k s Hi) as (Hi1 & Hk1 & Hn). cbn. pose proof (drop_sender_calls k s) as Ec. pose proof (drop_sender_rxs k s) as Ex.
      set (s1 := drop_sender_of k s) in *. clearbody s1.
      pose proof (keys_snoc (subs s1) (mkSub k [] true None [] [])) as Hk2.
      assert (exists p, (subs s1 ++ [mkSub k [] true None [] []]) !! length (subs s1) = Some p /\ ps_key p = k) as Hnew
        by (eexists; split; [apply snoc_Some; by right|done]).
      destruct Hi1 as [J1 J2 J3 J4]. constructor; cbn.
      * intros j p [Hp|[-> ->]]%snoc_Some; [|by cbn; rewrite lookup_insert_eq].
        rewrite (J1 _ _ Hp). apply lookup_lt_Some in Hp. destruct (decide (k = ps_key p)) as [<-|Hne].
        -- rewrite lookup_insert_eq, Hn. split; [done|]. intros [= E]. lia.
        -- by rewrite lookup_insert_ne.
      * intros k' j [[<- <-]|[_ ?%J2]]%lookup_insert_Some; [done|by eapply keys_found].
      * intros k' j [[<- <-]|[_ ?%J3]]%lookup_insert_Some; [done|by eapply keys_found].
      * rewrite <- Ec in Hc. eapply (calls_insert_wait s1); [done|exact Hk2|by constructor|reflexivity|]. by intros j [= <-].
  - apply (link_goto s i k (NLock j)); [done|done|done|by left].
  - apply (link_goto s i k (NSelect j w)); [done|done|done|by right].
  - apply (link_goto s i k (NSelect j w)); [done|done|done|by left].
  - apply (link_goto s i k (NSelect j true)); [done|done|done|by left].
  - assert (forall k' j', rxs (remove_if k j s) !! k' = Some j' -> rxs s !! k' = Some j') as Hr.
    { unfold remove_if. case_decide; [|done]. intros k' j' Hr. cbn in Hr. by apply lookup_delete_Some in Hr as [_ ?]. }
    assert (subs (remove_if k j s) = subs s /\ calls (remove_if k j s) = calls s /\ senders (remove_if k j s) = senders s) as (E1 & E2 & E3)
      by (unfold remove_if; by case_decide).
    apply (link_keep s); cbn; rewrite ?E1, ?E2; try done; [apply keys_refl|apply tx_refl| |].
    + intros k' j' ?%Hr. by apply K3.
    + by eapply (calls_insert_wait s); [done|apply keys_refl|done|reflexivity|].
  - apply (link_keep s); try done; [apply keys_refl|apply tx_refl].
  - unfold unsubscribe_map. destruct (rxs s !! k) as [j|] eqn:Er.
    + apply (link_keep s); cbn; try done; [apply keys_refl|apply tx_refl| |].
      * intros k' j' [_ ?]%lookup_delete_Some. by apply K3.
      * by apply (waits_map s); [apply notify_call_cases|apply keys_refl|].
    + pose proof (keys_snoc (subs s) (mkSub k [] false None [] [])) as Hk2. apply (link_keep s); cbn; try done.
      * intros j p [Hp|[-> ->]]%snoc_Some; [by apply tx_refl|by right].
      * intros k' j [[<- <-]|[_ ?%K3]]%lookup_insert_Some; [|by eapply keys_found]. eexists. split; [apply snoc_Some; by right|done].
      * intros i k' x j Hc Hw. eapply keys_found; [done|]. by eapply K4.
  - destruct (link_drop_sender k s Hi) as ([J1 J2 J3 J4] & _). constructor; done.
  - apply (link_keep s); try done; [apply keys_refl|apply tx_refl].
  - apply (link_keep s); cbn; try done; [apply keys_refl|apply tx_refl| |].
    + intros k j [? _]%map_lookup_filter_Some. by apply K3.
    + by apply (waits_map s); [apply notify_all_cases|apply keys_refl|].
  - apply (link_keep s); try done; [apply keys_refl|apply tx_refl].
  - assert (keys_kept (subs s) (alter (sub_send a) j (subs s))) as Hk' by (by apply keys_alter).
    apply (link_keep s); cbn; try done; [by apply tx_alter| |].
    + intros k' j' ?%K3. by eapply keys_found.
    + intros i k' x j' Hc Hw. eapply keys_found; [done|]. by eapply K4.
  - by apply link_drop_sender.
Qed.

Lemma log_take s i k j w p a rest :
  link_inv s -> log_inv (subs s) (calls s) -> calls s !! i = Some (k, NSelect j w) -> subs s !! j = Some p -> ps_buf p = a :: rest ->
  log_inv (alter (sub_take i a rest) j (subs s)) (<[i := (k, NDone (Some a))]> (calls s)).
Proof.
  intros Hi [G1 G2 G3 G4] Hc Hp Hb.
  assert (ps_key p = k) as Hk by (destruct (k_calls _ Hi _ _ _ j Hc eq_refl) as (q & Hq & <-); congruence).
  assert (forall j' q a', subs s !! j' = Some q -> ~ (i, a') ∈ ps_taken q) as Hno by (intros j' q a' Hq Ha%(G3 _ _ _ _ Hq); congruence).
  constructor.
  - intros j' p' (q & Hq & ->)%alter_Some. case_decide; [subst j'|by apply (G1 j')]. simplify_eq. cbn.
    rewrite fmap_app, (G1 j _ Hp), Hb, <- app_assoc. done.
  - intros j' p' (q & Hq & ->)%alter_Some. case_decide; [subst j'|by apply (G2 j')]. simplify_eq. cbn.
    rewrite fmap_app. apply list.NoDup_app. split_and!; [by apply (G2 j)| |by apply NoDup_singleton].
    intros x Hx Hxi. apply list_elem_of_singleton in Hxi as ->. apply list_elem_of_fmap in Hx as ([i' a'] & E & Hx). cbn in E. subst i'. by apply (Hno _ _ a' Hp).
  - intros j' p' i' a' (q & Hq & ->)%alter_Some Ha. apply (insert_Some _ _ _ _ _ _ Hc).
    assert ((i', a') ∈ ps_taken q \/ q = p /\ (i', a') = (i, a)) as [Ha'|[-> [= -> ->]]].
    { case_decide; [subst j'; simplify_eq; cbn in Ha; apply elem_of_app in Ha as [?|?%list_elem_of_singleton]; auto|by left]. }
    + assert (i <> i') by (intros <-; by apply (Hno _ _ _ Hq Ha')). rewrite decide_False by done.
      apply (G3 _ _ _ _ Hq) in Ha'. by case_decide.
    + rewrite decide_True by done. case_decide; cbn; by rewrite Hk.
  - intros i' k' a' Hi'. apply (insert_Some _ _ _ _ _ _ Hc) in Hi'. case_decide as Hd.
    + injection Hi' as -> ->. subst i'. exists j, (sub_take i a rest p). split; [apply alter_Some; exists p; by rewrite decide_True|]. split; [done|].
      cbn. apply elem_of_app. right. by apply list_elem_of_singleton.
    + destruct (G4 _ _ _ Hi') as (j' & q & Hq & <- & Ha). eexists j', _. split; [apply alter_Some; eauto|].
      case_decide; [|done]. subst j'. cbn. split; [done|]. apply elem_of_app. by left.
Qed.

Lemma log_send l c j a : log_inv l c -> log_inv (alter (sub_send a) j l) c.
Proof.
  intros [G1 G2 G3 G4]. constructor.
  - intros j' p' (q & Hq & ->)%alter_Some. case_decide; [|by apply (G1 j')]. cbn. by rewrite (G1 _ _ Hq), app_assoc.
  - intros j' p' (q & Hq & ->)%alter_Some. pose proof (G2 _ _ Hq); by case_decide.
  - intros j' p' i' a' (q & Hq & ->)%alter_Some Ha. assert ((i', a') ∈ ps_taken q) as Ha' by (by case_decide); apply (G3 _ _ _ _ Hq) in Ha'; by case_decide.
  - intros i k a' (j' & q & Hq & <- & Ha)%G4. eexists j', _. split; [apply alter_Some; eauto|]. by case_decide.
Qed.

Lemma rx_log_step s s' : rx_step s s' -> link_inv s -> log_inv (subs s) (calls s) -> log_inv (subs s') (calls s').
Proof.
  intros Hs Hk Hi.
  assert (forall f j i k x y, calls s !! i = Some (k, x) -> returned x = None -> returned y = None ->
    (forall p, ps_key (f p) = ps_key p /\ ps_buf (f p) = ps_buf p /\ ps_sent (f p) = ps_sent p /\ ps_taken (f p) = ps_taken p) ->
    log_inv (alter f j (subs s)) (<[i := (k, y)]> (calls s))) as Hgo.
  { intros f j i k x y Hc Hx Hy Hf. destruct (same_log_alter f j (subs s) Hf). eapply log_keep; [done|done|done|by eapply keeps_results_insert]. }
  assert (forall c', keeps_results (calls s) c' -> log_inv (subs s) c') as Hcalls.
  { intros c' Hc. eapply log_keep; [done|apply same_log_refl|apply keeps_log_refl|done]. }
  destruct Hs as [k|i k Hc|i k j p Hc Hp Hl|i k j w p a rest Hc Hp Hb|i k j w p Hc Hp Hb Ht|i k j Hc|i k j Hc|k|u k Hu|u k Hu|e|e|e|k j a Hs|k].
  - apply Hcalls, keeps_results_snoc.
  - unfold next_enter. destruct (rxs s !! k) as [j|]; [apply Hcalls; by eapply keeps_results_insert|].
    cbn. rewrite drop_sender_calls.
    destruct (same_log_trans _ _ _ (drop_sender_log k s) (same_log_snoc (subs (drop_sender_of k s)) (mkSub k [] true None [] []) eq_refl eq_refl eq_refl)).
    eapply log_keep; [done|done|done|by eapply keeps_results_insert].
  - by eapply Hgo.
  - exact (log_take s i k j w p a rest Hk Hi Hc Hp Hb).
  - by eapply Hgo.
  - by eapply Hgo.
  - unfold remove_if. case_decide; apply Hcalls; by eapply keeps_results_insert.
  - done.
  - unfold unsubscribe_map. destruct (rxs s !! k); cbn.
    + apply Hcalls, keeps_results_map. apply notify_call_cases.
    + destruct (same_log_snoc (subs s) (mkSub k [] false None [] [])); [done..|]. by eapply log_keep.
  - cbn. rewrite drop_sender_calls. destruct (drop_sender_log k s). by eapply log_keep.
  - done.
  - apply Hcalls, keeps_results_map. apply notify_all_cases.
  - done.
  - by apply log_send.
  - cbn. rewrite drop_sender_calls. destruct (drop_sender_log k s). by eapply log_keep.
Qed.

(** ** Locks *)

Definition selects (x : NextPc) : option nat := match x with NSelect j _ => Some j | _ => None end.

Definition sel (c : list (Key * NextPc)) (i : nat) : option nat := c !! i ≫= fun c => selects c.2.

Lemma sel_insert c i z k x i' : c !! i = Some z -> sel (<[i := (k, x)]> c) i' = if decide (i = i') then selects x else sel c i'.
Proof.
  intros Hi. unfold sel. case_decide as Hd; [subst|by rewrite list_lookup_insert_ne].
  by rewrite list_lookup_insert_eq by (by eapply lookup_lt_Some).
Qed.
Lemma sel_snoc c k i : sel (c ++ [(k, NEnter)]) i = sel c i.
Proof.
  unfold sel. destruct (c !! i) as [z|] eqn:E; [by rewrite (lookup_app_l_Some _ _ _ _ E)|].
  destruct ((c ++ [(k, NEnter)]) !! i) as [z|] eqn:E'; [|done]. apply snoc_Some in E' as [?|[_ ->]]; [congruence|done].
Qed.
Lemma sel_map (f : Key * NextPc -> Key * NextPc) c i :
  (forall x, f x = x \/ exists j w, x.2 = NSelect j w /\ f x = (x.1, NSelect j true)) -> sel (f <$> c) i = sel c i.
Proof.
  intros Hf. unfold sel. rewrite list_lookup_fmap. destruct (c !! i) as [z|]; [|done]. simpl.
  destruct (Hf z) as [->|(j & w & E & ->)]; [done|]. by rewrite E.
Qed.
Lemma sel_bound s i j : link_inv s -> sel (calls s) i = Some j -> j < length (subs s).
Proof.
  intros Hk. unfold sel. destruct (calls s !! i) as [[k x]|] eqn:E; [|done]. simpl. intros Hx.
  destruct (k_calls _ Hk i k x j E) as (p & Hp & _); [by destruct x|]. by eapply lookup_lt_Some.
Qed.

Lemma lock_keep s (l : list PathSub) c :
  (forall i j p, subs s !! j = Some p -> ps_lock p = Some i <-> sel (calls s) i = Some j) -> link_inv s ->
  (forall j p', l !! j = Some p' -> (exists p, subs s !! j = Some p /\ ps_lock p' = ps_lock p) \/ ps_lock p' = None /\ length (subs s) <= j) ->
  (forall i, sel c i = sel (calls s) i) ->
  forall i j p, l !! j = Some p -> ps_lock p = Some i <-> sel c i = Some j.
Proof.
  intros Hl Hk Hp Hc i j p' Hj. rewrite Hc. destruct (Hp _ _ Hj) as [(p & Hs & ->)|[-> Hlen]]; [by apply Hl|].
  split; [done|]. intros Hs%sel_bound; [lia|done].
Qed.

Lemma locks_alter f j (l : list PathSub) : (forall p, ps_lock (f p) = ps_lock p) -> forall j' p', alter f j l !! j' = Some p' ->
  (exists p, l !! j' = Some p /\ ps_lock p' = ps_lock p) \/ ps_lock p' = None /\ length l <= j'.
Proof. intros Hf j' p' (p & Hp & ->)%alter_Some. left. exists p. split; [done|]. by case_decide. Qed.
Lemma locks_drop_sender k s j' p' : subs (drop_sender_of k s) !! j' = Some p' ->
  (exists p, subs s !! j' = Some p /\ ps_lock p' = ps_lock p) \/ ps_lock p' = None /\ length (subs s) <= j'.
Proof. unfold drop_sender_of. destruct (senders s !! k); [by apply locks_alter|left; eauto]. Qed.
Lemma drop_sender_length k s : length (subs (drop_sender_of k s)) = length (subs s).
Proof. unfold drop_sender_of. destruct (senders s !! k); [apply length_alter|done]. Qed.

(** Taking and giving back the lock of a receiver. *)
Lemma lock_taken s i k j f y l' :
  (forall i j p, subs s !! j = Some p -> ps_lock p = Some i <-> sel (calls s) i = Some j) ->
  calls s !! i = Some (k, y) -> (forall p, ps_lock (f p) = l') ->
  forall x, (selects y = None /\ (forall p, subs s !! j = Some p -> ps_lock p = None) /\ l' = Some i /\ selects x = Some j) \/
            (selects y = Some j /\ l' = None /\ selects x = None) ->
  forall i' j' p, alter f j (subs s) !! j' = Some p -> ps_lock p = Some i' <-> sel (<[i := (k, x)]> (calls s)) i' = Some j'.
Proof.
  intros Hl Hc Hf x Hx i' j' p' (p & Hp & ->)%alter_Some. rewrite (sel_insert _ _ _ _ _ _ Hc).
  assert (sel (calls s) i = selects y) as Ey by (unfold sel; by rewrite Hc).
  case_decide as Hj; [subst j'; rewrite Hf|]; case_decide as Hi; try subst i'.
  - destruct Hx as [(_ & _ & -> & ->)|(_ & -> & ->)]; done.
  - destruct Hx as [(_ & Hn & -> & _)|(Hy & -> & _)].
    + specialize (Hn _ Hp). pose proof (Hl i' j p Hp) as E. rewrite Hn in E. split; [congruence|]. intros Hs. by apply E in Hs.
    + split; [done|]. intros Hs. rewrite Hy in Ey. apply (Hl _ _ _ Hp) in Ey. apply (Hl _ _ _ Hp) in Hs. congruence.
  - rewrite (Hl i j' p Hp), Ey. destruct Hx as [(-> & _ & _ & ->)|(-> & _ & ->)]; naive_solver.
  - by apply Hl.
Qed.

Definition lock_ok (s : RxState) : Prop := forall i j p, subs s !! j = Some p -> ps_lock p = Some i <-> sel (calls s) i = Some j.

Lemma lock_step s s' : rx_step s s' -> link_inv s -> lock_ok s -> lock_ok s'.
Proof.
  intros Hs Hk Hl.
  assert (forall c, (forall i, sel c i = sel (calls s) i) -> forall i j p, subs s !! j = Some p -> ps_lock p = Some i <-> sel c i = Some j) as Hcalls.
  { intros c Hc. apply (lock_keep s); [done|done| |done]. intros j p' Hp. left. eauto. }
  assert (forall i k x y, calls s !! i = Some (k, x) -> selects x = selects y -> forall i', sel (<[i := (k, y)]> (calls s)) i' = sel (calls s) i') as Hins.
  { intros i k x y Hc E i'. rewrite (sel_insert _ _ _ _ _ _ Hc). case_decide; [subst; unfold sel; rewrite Hc; by rewrite <- E|done]. }
  destruct Hs as [k|i k Hc|i k j p Hc Hp Hlk|i k j w p a rest Hc Hp Hb|i k j w p Hc Hp Hb Ht|i k j Hc|i k j Hc|k|u k Hu|u k Hu|e|e|e|k j a Hs|k].
  - refine (Hcalls _ _). intros i. apply sel_snoc.
  - unfold next_enter. destruct (rxs s !! k) as [j|]; [refine (Hcalls _ _); by eapply Hins|].
    unfold lock_ok. cbn. rewrite drop_sender_calls. apply (lock_keep s); [done|done| |by eapply Hins].
    intros j p [Hp|[-> ->]]%snoc_Some; [by apply locks_drop_sender in Hp|]. right. split; [done|]. by rewrite drop_sender_length.
  - refine (lock_taken s i k j _ (NLock j) (Some i) Hl Hc _ _ _); [done|]. left. split_and!; try done. intros q Hq. congruence.
  - refine (lock_taken s i k j _ (NSelect j w) None Hl Hc _ _ _); [done|]. by right.
  - refine (lock_taken s i k j _ (NSelect j w) None Hl Hc _ _ _); [done|]. by right.
  - refine (lock_taken s i k j _ (NSelect j true) None Hl Hc _ _ _); [done|]. by right.
  - unfold remove_if. case_decide; refine (Hcalls _ _); by eapply Hins.
  - done.
  - unfold unsubscribe_map. destruct (rxs s !! k); [refine (Hcalls _ _); intros i; apply sel_map, notify_call_cases|].
    unfold lock_ok. cbn. apply (lock_keep s); [done|done| |done]. intros j p [Hp|[-> ->]]%snoc_Some; [left; eauto|by right].
  - unfold lock_ok. cbn. rewrite drop_sender_calls. apply (lock_keep s); [done|done| |done]. intros j p Hp. by apply locks_drop_sender in Hp.
  - done.
  - refine (Hcalls _ _). intros i. apply sel_map, notify_all_cases.
  - done.
  - refine (lock_keep s _ _ Hl Hk _ _); [by apply locks_alter|done].
  - unfold lock_ok. rewrite drop_sender_calls. apply (lock_keep s); [done|done| |done]. intros j p Hp. by apply locks_drop_sender in Hp.
Qed.

(** ** Who is told that a receiver has ended *)

Definition ending (x : NextPc) : option nat := match x with NSelect j true | NNone j => Some j | _ => None end.

(** An unsubscription of the key has yet to reach the endpoint, or the endpoint
    is closed. *)
Definition ending_key (s : RxState) (k : Key) : Prop := (exists u, unsubs s !! u = Some (k, UCore)) \/ key_ep k ∈ eps_closed s.

Record gone_inv (s : RxState) : Prop := {
  n_gone : forall k j, senders s !! k = Some j -> rxs s !! k <> Some j -> ending_key s k;
  n_end : forall i k x j, calls s !! i = Some (k, x) -> ending x = Some j -> senders s !! k <> Some j \/ rxs s !! k <> Some j
}.

Lemma gone_calls s c :
  gone_inv s -> (forall i k x j, c !! i = Some (k, x) -> ending x = Some j ->
    (exists y, calls s !! i = Some (k, y) /\ ending y = Some j) \/ senders s !! k <> Some j \/ rxs s !! k <> Some j) ->
  gone_inv (set_calls c s).
Proof.
  intros [N1 N2] Hc. constructor; [exact N1|]. intros i k x j Hi Hx. destruct (Hc _ _ _ _ Hi Hx) as [(y & Hy & E)|?]; [by apply (N2 i k y)|done].
Qed.

Lemma gone_goto s i k x y f j :
  gone_inv s -> calls s !! i = Some (k, x) -> ending y = ending x \/ ending y = None -> gone_inv (call_goto i k y (upd_sub f j s)).
Proof.
  intros Hn Hc Hy. destruct (gone_calls s (<[i := (k, y)]> (calls s)) Hn) as [N1 N2]; [|by constructor].
  intros i' k' x' j' Hi Hx. apply (insert_Some _ _ _ _ _ _ Hc) in Hi. left. case_decide.
  - simplify_eq. exists x. split; [done|]. destruct Hy as [<-|E]; [done|congruence].
  - eauto.
Qed.

Lemma drop_sender_senders k s : senders (drop_sender_of k s) = delete k (senders s).
Proof. unfold drop_sender_of. destruct (senders s !! k) eqn:E; [done|]. by rewrite delete_id. Qed.
Lemma drop_sender_unsubs k s : unsubs (drop_sender_of k s) = unsubs s.
Proof. unfold drop_sender_of. by destruct (senders s !! k). Qed.
Lemma drop_sender_closed k s : eps_closed (drop_sender_of k s) = eps_closed s.
Proof. unfold drop_sender_of. by destruct (senders s !! k). Qed.

Lemma gone_drop_sender k s : gone_inv s -> gone_inv (drop_sender_of k s).
Proof.
  intros [N1 N2]. constructor; rewrite ?drop_sender_calls, drop_sender_senders, drop_sender_rxs.
  - intros k' j [_ Hs]%lookup_delete_Some Hr. unfold ending_key. rewrite drop_sender_unsubs, drop_sender_closed. by eapply N1.
  - intros i k' x j Hc Hx. destruct (N2 _ _ _ _ Hc Hx) as [Hs|Hr]; [left|by right]. by intros [_ ?]%lookup_delete_Some.
Qed.

Lemma wait_bound s i k x j : link_inv s -> calls s !! i = Some (k, x) -> ending x = Some j -> j < length (subs s).
Proof.
  intros Hk Hc Hx. destruct (k_calls _ Hk i k x j Hc) as (p & Hp & _); [destruct x as [| |? []| |]; done|]. by eapply lookup_lt_Some.
Qed.

Lemma gone_enter s i k : link_inv s -> gone_inv s -> calls s !! i = Some (k, NEnter) -> gone_inv (next_enter i k s).
Proof.
  intros Hk Hn Hc. unfold next_enter. destruct (rxs s !! k) as [j|] eqn:Er.
  { destruct (gone_calls s (<[i := (k, NLock j)]> (calls s)) Hn) as [N1 N2]; [|by constructor].
    intros i' k' x' j' Hi Hx. apply (insert_Some _ _ _ _ _ _ Hc) in Hi. case_decide; [by simplify_eq|left; eauto]. }
  pose proof (gone_drop_sender k s Hn) as [N1 N2]. cbn. rewrite drop_sender_length. constructor; cbn; rewrite drop_sender_senders, drop_sender_rxs in *.
  - intros k' j Hs Hr. apply lookup_insert_Some in Hs as [[<- <-]|[Hne Hs]]; [by rewrite lookup_insert_eq in Hr|].
    rewrite lookup_insert_ne in Hr by done. exact (N1 _ _ Hs Hr).
  - rewrite drop_sender_calls in *. intros i' k' x j Hi Hx. apply (insert_Some _ _ _ _ _ _ Hc) in Hi. case_decide; [by simplify_eq|].
    destruct (decide (k = k')) as [<-|Hne]; [|rewrite !lookup_insert_ne by done; by apply (N2 i' k' x)].
    right. rewrite lookup_insert_eq. intros [= E]. pose proof (wait_bound _ _ _ _ _ Hk Hi Hx). lia.
Qed.

Lemma ending_insert s u k y k' : unsubs s !! u = Some (k, UMap) -> ending_key s k' ->
  (exists v, <[u := (k, y)]> (unsubs s) !! v = Some (k', UCore)) \/ key_ep k' ∈ eps_closed s.
Proof.
  intros Hu [[v Hv]|He]; [left|by right]. exists v. rewrite list_lookup_insert_ne; [done|]. intros <-. congruence.
Qed.

Lemma gone_unsub_map s u k : link_inv s -> gone_inv s -> unsubs s !! u = Some (k, UMap) ->
  gone_inv (set_unsubs (<[u := (k, UCore)]> (unsubs s)) (unsubscribe_map k s)).
Proof.
  intros Hk [N1 N2] Hu. unfold unsubscribe_map. destruct (rxs s !! k) as [j|] eqn:Er; constructor; cbn.
  - intros k' j' Hs Hr. unfold ending_key. cbn. destruct (decide (k = k')) as [<-|Hne].
    + left. exists u. by rewrite list_lookup_insert_eq by (by eapply lookup_lt_Some).
    + rewrite lookup_delete_ne in Hr by done. apply (ending_insert s); [done|]. by eapply N1.
  - intros i k' x j' ([k0 y] & Hx & Hc)%list_lookup_fmap_Some He. unfold notify_call in Hx. cbn in Hx.
    assert (k0 = k' /\ (y = x \/ j' = j /\ exists w, y = NSelect j w)) as [-> Hy].
    { destruct y as [| |j0 w| |]; try (injection Hx as -> ->; by auto). case_decide; injection Hx as -> ->; [subst; cbn in He; naive_solver|auto]. }
    destruct Hy as [->|(-> & w & ->)].
    + destruct (N2 _ _ _ _ Hc He) as [?|Hr]; [by left|right]. by intros [_ ?]%lookup_delete_Some.
    + right. destruct (k_calls _ Hk _ _ _ j Hc eq_refl) as (p & Hp & <-). destruct (k_rxs _ Hk _ _ Er) as (q & Hq & <-).
      simplify_eq. by rewrite lookup_delete_eq.
  - intros k' j' Hs Hr. unfold ending_key. cbn. destruct (decide (k = k')) as [<-|Hne].
    + left. exists u. by rewrite list_lookup_insert_eq by (by eapply lookup_lt_Some).
    + rewrite lookup_insert_ne in Hr by done. apply (ending_insert s); [done|]. by eapply N1.
  - intros i k' x j' Hc He. destruct (decide (k = k')) as [<-|Hne]; [|rewrite lookup_insert_ne by done; by eapply N2].
    right. rewrite lookup_insert_eq. intros [= E]. pose proof (wait_bound _ _ _ _ _ Hk Hc He). lia.
Qed.

Lemma gone_clear s e : link_inv s -> gone_inv s -> e ∈ eps_closed s -> gone_inv (clear_path_change_rxs e s).
Proof.
  intros Hk [N1 N2] He. constructor; cbn.
  - intros k j Hs Hr. unfold ending_key. cbn. destruct (decide (key_ep k = e)) as [<-|Hne]; [by right|]. apply (N1 _ _ Hs).
    intros Er. apply Hr. by apply map_lookup_filter_Some.
  - intros i k x j ([k0 y] & Hx & Hc)%list_lookup_fmap_Some Hj. unfold notify_all in Hx. cbn in Hx.
    assert (k0 = k /\ (y = x \/ key_ep k = e)) as [-> [->|Ek]].
    { destruct y as [| |j0 w| |]; try (injection Hx as -> ->; by auto). case_decide; injection Hx as -> ->; naive_solver. }
    + destruct (N2 _ _ _ _ Hc Hj) as [?|Hr]; [by left|right]. by intros [? _]%map_lookup_filter_Some.
    + right. intros [_ ?]%map_lookup_filter_Some. done.
Qed.

Lemma gone_step s s' : rx_step s s' -> link_inv s -> gone_inv s -> gone_inv s'.
Proof.
  intros Hs Hk Hn. pose proof Hn as [N1 N2].
  destruct Hs as [k|i k Hc|i k j p Hc Hp Hlk|i k j w p a rest Hc Hp Hb|i k j w p Hc Hp Hb Ht|i k j Hc|i k j Hc|k|u k Hu|u k Hu|e|e|e|k j a Hs|k].
  - apply gone_calls; [done|]. intros i k' x j [Hc|[_ [= -> ->]]]%snoc_Some Hx; [left; eauto|done].
  - by apply gone_enter.
  - apply (gone_goto s i k (NLock j)); [done|done|by right].
  - apply (gone_goto s i k (NSelect j w)); [done|done|by right].
  - destruct (gone_calls s (<[i := (k, NNone j)]> (calls s)) Hn) as [M1 M2]; [|by constructor].
    intros i' k' x' j' Hi Hx. apply (insert_Some _ _ _ _ _ _ Hc) in Hi. case_decide; [|left; eauto]. simplify_eq. injection Hx as <-. right. left.
    destruct (k_calls _ Hk _ _ _ j Hc eq_refl) as (q & Hq & <-). intros Hs. apply (k_tx _ Hk _ _ Hq) in Hs. congruence.
  - apply (gone_goto s i k (NSelect j true)); [done|done|by left].
  - assert (gone_inv (remove_if k j s)) as Hr.
    { unfold remove_if. case_decide as Hd; [|done]. constructor; cbn.
      - intros k' j' Hs Hr. unfold ending_key. cbn. destruct (decide (k = k')) as [<-|Hne].
        + destruct (N2 _ _ _ j Hc eq_refl) as [Hs'|?]; [|done]. apply (N1 _ _ Hs). congruence.
        + rewrite lookup_delete_ne in Hr by done. by apply (N1 _ j').
      - intros i' k' x j' Hi Hx. destruct (N2 _ _ _ _ Hi Hx) as [?|Hr]; [by left|right]. by intros [_ ?]%lookup_delete_Some. }
    assert (calls (remove_if k j s) = calls s) as E by (unfold remove_if; by case_decide).
    apply gone_calls; [done|]. intros i' k' x' j' Hi Hx. rewrite E in *. apply (insert_Some _ _ _ _ _ _ Hc) in Hi.
    case_decide; [by simplify_eq|left; eauto].
  - constructor; [|exact N2]. intros k' j' Hs Hr. destruct (N1 _ _ Hs Hr) as [[u Hu]|?]; [left|by right]. exists u. apply snoc_Some. by left.
  - by apply gone_unsub_map.
  - destruct (gone_drop_sender k s Hn) as [M1 M2]. constructor; [|exact M2]. intros k' j' Hs Hr. cbn in Hs, Hr.
    destruct (M1 _ _ Hs Hr) as [[v Hv]|Hc]; [left|by right]. exists v. cbn. rewrite list_lookup_insert_ne; [by rewrite drop_sender_unsubs in Hv|].
    intros <-. rewrite drop_sender_unsubs, Hu in Hv. injection Hv as ->. rewrite drop_sender_senders, lookup_delete_eq in Hs. done.
  - constructor; [|exact N2]. intros k j Hs Hr. destruct (N1 _ _ Hs Hr) as [?|?]; [by left|right]. cbn. set_solver.
  - by apply gone_clear.
  - by constructor.
  - by constructor.
  - by apply gone_drop_sender.
Qed.

(** ** The properties *)

Definition rx_reachable (endpoints : gset Z) (s : RxState) : Prop := rtc rx_step (rx_new endpoints) s.

Lemma rx_inv endpoints s : rx_reachable endpoints s -> link_inv s /\ log_inv (subs s) (calls s) /\ lock_ok s /\ gone_inv s.
Proof.
  intros Hr. refine (rtc_invariant _ (fun s => link_inv s /\ log_inv (subs s) (calls s) /\ lock_ok s /\ gone_inv s) _ _ _ Hr _).
  - intros a b Hab (H1 & H2 & H3 & H4). split_and!; [by eapply link_step|by eapply rx_log_step|by eapply lock_step|by eapply gone_step].
  - split_and!; [constructor|constructor|intros i j p Hp|constructor]; cbn; try (intros; by simplify_map_eq); try done.
    all: intros; simplify_eq/=; by (rewrite ?lookup_nil in *).
Qed.

(** Every change once and in order: what the calls of [nextPathChange] on a
    receiver have returned, in the order in which they took it, followed by what
    is still in its buffer is what the endpoint sent to it; no call returns two
    changes, and each change that a call returned was sent to a receiver of the
    key it asked for. *)
Theorem path_changes_delivered_in_order endpoints s :
  rx_reachable endpoints s ->
  (forall j p, subs s !! j = Some p -> ps_sent p = (ps_taken p).*2 ++ ps_buf p /\ NoDup (ps_taken p).*1 /\
     forall i a, (i, a) ∈ ps_taken p -> calls s !! i = Some (ps_key p, NDone (Some a))) /\
  (forall i k a, calls s !! i = Some (k, NDone (Some a)) ->
     exists j p, subs s !! j = Some p /\ ps_key p = k /\ (i, a) ∈ ps_taken p).
Proof.
  intros (_ & [G1 G2 G3 G4] & _)%rx_inv. split; [|exact G4]. intros j p Hp. split_and!; [by apply (G1 j)|by apply (G2 j)|].
  intros i a. by apply (G3 j).
Qed.

Lemma sent_alter f j (l : list PathSub) : (forall q, ps_sent (f q) = ps_sent q) -> ps_sent <$> alter f j l = ps_sent <$> l.
Proof.
  intros Hf. apply list_eq. intros j'. rewrite !list_lookup_fmap. destruct (decide (j = j')) as [<-|Hne].
  - rewrite list_lookup_alter_eq. destruct (l !! j); cbn; [by rewrite Hf|done].
  - by rewrite list_lookup_alter_ne.
Qed.

(** A call in the [select!] on a receiver whose sender is gone. *)
Lemma select_moves s i k j w p :
  calls s !! i = Some (k, NSelect j w) -> subs s !! j = Some p -> ps_tx p = false ->
  exists x p' s', rx_step s s' /\ calls s' = <[i := (k, x)]> (calls s) /\ (x = NNone j \/ exists a, x = NDone (Some a)) /\
    subs s' !! j = Some p' /\ ps_tx p' = false /\ ps_lock p' = None /\ ps_sent <$> subs s' = ps_sent <$> subs s.
Proof.
  intros Hc Hp Ht.
  destruct (ps_buf p) as [|a rest] eqn:Eb.
  - exists (NNone j), (sub_lock None p), (call_goto i k (NNone j) (upd_sub (sub_lock None) j s)).
    split_and!; [by eapply r_recv_none|done|by left| |done|done|by apply sent_alter]. cbn. by rewrite list_lookup_alter_eq, Hp.
  - exists (NDone (Some a)), (sub_take i a rest p), (call_goto i k (NDone (Some a)) (upd_sub (sub_take i a rest) j s)).
    split_and!; [by eapply r_recv|done|by eauto| |done|done|by apply sent_alter]. cbn. by rewrite list_lookup_alter_eq, Hp.
Qed.

Definition can_return (s : RxState) (i : nat) (k : Key) : Prop :=
  exists s' r, rtc rx_step s s' /\ calls s' !! i = Some (k, NDone r) /\ ps_sent <$> subs s' = ps_sent <$> subs s.

Lemma none_returns s i k j : calls s !! i = Some (k, NNone j) -> can_return s i k.
Proof.
  intros Hc. exists (call_goto i k (NDone None) (remove_if k j s)), None. split; [by apply rtc_once, r_finish|].
  unfold remove_if. case_decide; cbn; (split; [|done]); by rewrite list_lookup_insert_eq by (by eapply lookup_lt_Some).
Qed.

Lemma select_returns s i k j w p :
  calls s !! i = Some (k, NSelect j w) -> subs s !! j = Some p -> ps_tx p = false -> can_return s i k.
Proof.
  intros Hc Hp Ht. destruct (select_moves s i k j w p Hc Hp Ht) as (x & p' & s' & Hs & Ec & Hx & _ & _ & _ & Es).
  assert (calls s' !! i = Some (k, x)) as Hi by (rewrite Ec, list_lookup_insert_eq by (by eapply lookup_lt_Some); done).
  destruct Hx as [->|[a ->]].
  - destruct (none_returns s' i k j Hi) as (s2 & r & H1 & H2 & H3). exists s2, r. split_and!; [by eapply rtc_l|done|congruence].
  - exists s', (Some a). split_and!; [by apply rtc_once|done|done].
Qed.

Lemma free_returns s i k j p :
  calls s !! i = Some (k, NLock j) -> subs s !! j = Some p -> ps_tx p = false -> ps_lock p = None -> can_return s i k.
Proof.
  intros Hc Hp Ht Hl. pose proof (r_lock s i k j p Hc Hp Hl) as Hs.
  destruct (select_returns (call_goto i k (NSelect j false) (upd_sub (sub_lock (Some i)) j s)) i k j false (sub_lock (Some i) p)) as (s2 & r & H1 & H2 & H3).
  - cbn. by rewrite list_lookup_insert_eq by (by eapply lookup_lt_Some).
  - cbn. by rewrite list_lookup_alter_eq, Hp.
  - done.
  - exists s2, r. split_and!; [by eapply rtc_l|done|]. rewrite H3. by apply sent_alter.
Qed.

Lemma ended_returns s i k x j p :
  lock_ok s -> calls s !! i = Some (k, x) -> waits_on x = Some j -> subs s !! j = Some p -> ps_tx p = false -> can_return s i k.
Proof.
  intros Hl Hc Hx Hp Ht. destruct x as [|j'|j' w|j'|]; simplify_eq/=; [|by eapply select_returns|by eapply none_returns].
  destruct (ps_lock p) as [i'|] eqn:El; [|by eapply free_returns].
  apply (Hl i' j p Hp) in El. unfold sel in El. destruct (calls s !! i') as [[k' y]|] eqn:Hi'; [|done].
  destruct y as [| |j' w| |]; simplify_eq/=. assert (i' <> i) as Hne by congruence.
  destruct (select_moves s i' k' j w p Hi' Hp Ht) as (x & p' & s1 & Hs & Ec & _ & Hp' & Ht' & Hl' & Es).
  destruct (free_returns s1 i k j p') as (s2 & r & H1 & H2 & H3); try done; [by rewrite Ec, list_lookup_insert_ne|].
  exists s2, r. split_and!; [by eapply rtc_l|done|congruence].
Qed.

(** C35. No call is stranded.  A call that waits on a receiver which was taken out of
    the map, by an unsubscription that has returned, or whose endpoint is closed,
    can always return, whoever else waits on the receiver and whether or not it
    was notified, without another change being sent. *)
Theorem path_calls_not_stranded endpoints s i k x j :
  rx_reachable endpoints s -> calls s !! i = Some (k, x) -> waits_on x = Some j ->
  (rxs s !! k <> Some j /\ forall u, unsubs s !! u <> Some (k, UCore)) \/ key_ep k ∈ eps_closed s ->
  exists s' r, rtc rx_step s s' /\ calls s' !! i = Some (k, NDone r) /\ ps_sent <$> subs s' = ps_sent <$> subs s.
Proof.
  intros Hr Hc Hx Hk. destruct (rx_inv _ _ Hr) as (Hlink & _ & Hl & [N1 _]).
  destruct (k_calls _ Hlink _ _ _ _ Hc Hx) as (p & Hp & Ek).
  destruct (ps_tx p) eqn:Et; [|by eapply ended_returns].
  assert (senders s !! k = Some j) as Hs by (rewrite <- Ek; by apply (k_tx _ Hlink)).
  assert (key_ep k ∈ eps_closed s) as He.
  { destruct Hk as [[Hn Hu]|?]; [|done]. destruct (N1 _ _ Hs Hn) as [[u Hu']|?]; [by destruct (Hu u)|done]. }
  pose proof (r_core_end s k He) as Hst. pose proof (lock_step _ _ Hst Hlink Hl) as Hl'. unfold drop_sender_of in *. rewrite Hs in *.
  destruct (ended_returns (set_senders (delete k (senders s)) (upd_sub sub_drop_tx j s)) i k x j (sub_drop_tx p)) as (s2 & r & H1 & H2 & H3); try done.
  { cbn. by rewrite list_lookup_alter_eq, Hp. }
  exists s2, r. split_and!; [by eapply rtc_l|done|]. rewrite H3. by apply sent_alter.
Qed.

(** ** Witnesses *)

Definition demo_key : Key := (1%Z, "peer"%string, 5%Z).
Definition demo_path : PathInfo := mkPath false "1.2.3.4:5" true.

(** One call has returned a change, two more wait, and the subscription was
    cancelled before either was in the [select!]. *)
Definition demo_waiting : RxState :=
  mkRx ∅ [mkSub demo_key [] false None [demo_path] [(0, demo_path)]]
    [(demo_key, NDone (Some demo_path)); (demo_key, NLock 0); (demo_key, NLock 0)] [(demo_key, UDone)] {[1%Z]} ∅ ∅.

Ltac rx_do c := eapply rtc_l; [eapply c; try done; try set_solver|settle_rx]
with settle_rx := match goal with |- rtc _ ?a _ => let b := eval vm_compute in a in replace a with b by (by vm_compute) end.

Lemma demo_waiting_reached : rx_reachable {[1%Z]} demo_waiting.
Proof.
  unfold rx_reachable. rx_do (r_call (rx_new {[1%Z]}) demo_key). rx_do (fun s => r_enter s 0).
  rx_do (fun s => r_lock s 0). rx_do (fun s => r_core_send s demo_key 0 demo_path). rx_do (fun s => r_recv s 0).
  rx_do (fun s => r_call s demo_key). rx_do (fun s => r_enter s 1). rx_do (fun s => r_call s demo_key). rx_do (fun s => r_enter s 2).
  rx_do (fun s => r_unsub s demo_key). rx_do (fun s => r_unsub_map s 0). rx_do (fun s => r_unsub_core s 0).
  constructor.
Qed.

Lemma path_changes_delivered_in_order_witness :
  exists j p, subs demo_waiting !! j = Some p /\ ps_key p = demo_key /\ (0, demo_path) ∈ ps_taken p.
Proof. apply (proj2 (path_changes_delivered_in_order {[1%Z]} demo_waiting demo_waiting_reached) 0 demo_key demo_path). reflexivity. Defined.

Lemma path_calls_not_stranded_witness :
  exists s' r, rtc rx_step demo_waiting s' /\ calls s' !! 2 = Some (demo_key, NDone r) /\ ps_sent <$> subs s' = [[demo_path]].
Proof.
  apply (path_calls_not_stranded {[1%Z]} demo_waiting 2 demo_key (NLock 0) 0 demo_waiting_reached); [reflexivity|reflexivity|].
  left. split; [done|]. by intros [|u].
Defined.
