(* ===== verification/PeerStats.v ===== *)
(** * Observability (endpoint/observe.rs, endpoint/stats.rs)

    What an endpoint reports of its peers and of itself.  What iroh knows of a
    remote endpoint and of a connection are arguments. *)

From stdpp Require Import base numbers list gmap sets strings relations.
From Stdlib Require Import ZArith Lia.
From S2P Require Import Prelude Errors Extern Net BodyChannel Handles HandlesFacts Addr Pool PathWatch.

Open Scope string_scope.
Open Scope list_scope.

(** ** Peers *)

Section peers.
Context {Id Relay : Type} `{EqDecision Id} `{Countable Id} `{IrohNet Id Relay}.
Context {M : Type} {C : Type -> Type} `{Mpsc C} `{CA : Cache (PoolKey Id) PooledConnection M}.
Context {Rtt : Type}.

(** An address of a remote endpoint, and whether its usage is [Active]. *)
Record RemoteAddr := mkRemoteAddr { ra_addr : TransportAddr Relay; ra_active : bool }.

(** [remote_info]: the id and the addresses of a known remote; [other_text]: the
    [Debug] of an address of another kind; [conn_stats]: round-trip time, bytes
    sent and received of a connection. *)
Context (remote_info : Id -> option (Id * list RemoteAddr)) (other_text : nat -> string) (conn_stats : nat -> option Rtt * Z * Z).

Definition remote_addr_text (a : TransportAddr Relay) : string :=
  match a with TaIp sock => sock_to_string sock | TaRelay url => relay_to_string url | TaOther n => other_text n end.
Definition is_relay (a : TransportAddr Relay) : bool := match a with TaRelay _ => true | _ => false end.

(** The three [?]s at the start of both methods. *)
Definition decode_peer (node_id_b32 : string) : option Id :=
  match base32_decode node_id_b32 with
  | Err _ => None
  | Ok bytes => if negb (len bytes =? 32)%Z then None else match id_from_bytes bytes with Ok pk => Some pk | Err _ => None end
  end.

Definition peer_info (node_id_b32 : string) : option NodeAddrInfo :=
  match decode_peer node_id_b32 with
  | None => None
  | Some pk =>
      match remote_info pk with
      | None => None
      | Some (id, addrs) => Some (mkNodeAddrInfo (b32_encode (id_as_bytes id)) ((fun a => remote_addr_text (ra_addr a)) <$> addrs))
      end
  end.

Record PeerStats := mkPeerStats {
  pst_relay : bool; pst_relay_url : option string; pst_paths : list PathInfo; pst_rtt_ms : option Rtt;
  pst_bytes_sent : option Z; pst_bytes_received : option Z; pst_lost_packets : option Z; pst_sent_packets : option Z;
  pst_congestion_window : option Z
}.

(** The loop over the addresses, with what it has found so far. *)
Fixpoint stats_loop (addrs : list RemoteAddr) (relay : bool) (url : option string) (paths : list PathInfo)
  : bool * option string * list PathInfo :=
  match addrs with
  | [] => (relay, url, paths)
  | a :: addrs =>
      let '(relay, url) :=
        match ra_addr a with
        | TaRelay u => if ra_active a then (true, Some (relay_to_string u)) else (relay, url)
        | _ => (relay, url)
        end in
      stats_loop addrs relay url (paths ++ [mkPath (is_relay (ra_addr a)) (remote_addr_text (ra_addr a)) (ra_active a)])
  end.

Definition peer_stats (alpn : string) (pool : Pool Id M C) (node_id_b32 : string) : option PeerStats :=
  match decode_peer node_id_b32 with
  | None => None
  | Some pk =>
      match remote_info pk with
      | None => None
      | Some (_, addrs) =>
          let '(relay, url, paths) := stats_loop addrs false None [] in
          let '(rtt, sent, received) :=
            match get_existing pk alpn pool with
            | Some pooled => let '(rtt, tx, rx) := conn_stats (pc_conn pooled) in (rtt, Some tx, Some rx)
            | None => (None, None, None)
            end in
          Some (mkPeerStats relay url paths rtt sent received None None None)
      end
  end.

(** ** Properties *)

Definition path_of (a : RemoteAddr) : PathInfo := mkPath (is_relay (ra_addr a)) (remote_addr_text (ra_addr a)) (ra_active a).

Definition relay_path (p : PathInfo) : bool := pi_relay p && pi_active p.

Lemma stats_loop_spec addrs relay url paths :
  stats_loop addrs relay url paths =
    (relay || existsb relay_path (path_of <$> addrs),
     match last (filter (fun p => relay_path p = true) (path_of <$> addrs)) with Some p => Some (pi_addr p) | None => url end,
     paths ++ (path_of <$> addrs)).
Proof.
  revert relay url paths. induction addrs as [|a addrs IH]; intros relay url paths; [cbn; by rewrite orb_false_r, app_nil_r|].
  rewrite !fmap_cons. cbn [stats_loop existsb].
  assert (forall ad act, a = mkRemoteAddr ad act -> relay_path (path_of a) = is_relay ad && act) as Er by (by intros ad act ->).
  destruct a as [[sock|u|n] act]; specialize (Er _ _ eq_refl); cbn [is_relay andb] in Er; cbn [ra_addr ra_active];
    try (rewrite IH, filter_cons_False by (by rewrite Er); by rewrite Er, <- app_assoc).
  destruct act; cycle 1; [rewrite IH, filter_cons_False by (by rewrite Er); by rewrite Er, <- app_assoc|].
  rewrite IH, filter_cons_True by done. rewrite Er, orb_true_r, <- app_assoc. f_equal. f_equal.
  destruct (filter _ (path_of <$> addrs)) as [|q l] eqn:El; [done|].
  assert (last (path_of (mkRemoteAddr (TaRelay u) true) :: q :: l) = last (q :: l)) as -> by done.
  by destruct (proj2 (last_is_Some (q :: l)) ltac:(done)) as [x ->].
Qed.

(** What is reported of a peer is what iroh knows of it: a path for each address,
    in order; a relay is reported exactly when a relay path is active, with the
    URL of such a path; bytes are counted exactly when a live connection is in
    the pool; and [peer_info] gives the same addresses.  Loss, packets and the
    congestion window are never reported. *)
Theorem peer_stats_exact alpn (pool : Pool Id M C) s st :
  peer_stats alpn pool s = Some st ->
  exists pk id addrs, decode_peer s = Some pk /\ remote_info pk = Some (id, addrs) /\
    pst_paths st = path_of <$> addrs /\
    (pst_relay st = true <-> exists p, p ∈ pst_paths st /\ relay_path p = true) /\
    (is_Some (pst_relay_url st) <-> pst_relay st = true) /\
    (forall u, pst_relay_url st = Some u -> exists p, p ∈ pst_paths st /\ relay_path p = true /\ pi_addr p = u) /\
    (is_Some (pst_bytes_sent st) <-> is_Some (get_existing pk alpn pool)) /\
    (is_Some (pst_bytes_received st) <-> is_Some (get_existing pk alpn pool)) /\
    peer_info s = Some (mkNodeAddrInfo (b32_encode (id_as_bytes id)) (pi_addr <$> pst_paths st)) /\
    pst_lost_packets st = None /\ pst_sent_packets st = None /\ pst_congestion_window st = None.
Proof.
  unfold peer_stats, peer_info. destruct (decode_peer s) as [pk|]; [|done]. destruct (remote_info pk) as [[id addrs]|] eqn:Ei; [|done].
  rewrite stats_loop_spec. cbn [orb app]. set (paths := path_of <$> addrs). set (relays := filter _ paths).
  assert (existsb relay_path paths = true <-> exists p, p ∈ paths /\ relay_path p = true) as Hex.
  { rewrite existsb_exists. by setoid_rewrite list_elem_of_In. }
  assert (forall p, last relays = Some p -> p ∈ paths /\ relay_path p = true) as Hlast.
  { intros p Hp. apply last_Some in Hp as (l & E). assert (p ∈ relays) as Hin by (rewrite E; set_solver).
    by apply list_elem_of_filter in Hin as [? ?]. }
  assert (is_Some (last relays) <-> existsb relay_path paths = true) as Hsome.
  { rewrite Hex, last_is_Some. split.
    - intros Hne. destruct (last relays) as [p|] eqn:El; [destruct (Hlast p eq_refl); eauto|by apply last_None in El].
    - intros (p & Hp & Hr) E. assert (p ∈ relays) as Hin by (by apply list_elem_of_filter). rewrite E in Hin. by apply not_elem_of_nil in Hin. }
  assert ((fun a => remote_addr_text (ra_addr a)) <$> addrs = pi_addr <$> paths) as -> by (unfold paths; by rewrite <- list_fmap_compose).
  intros Hst. exists pk, id, addrs.
  assert (pst_paths st = paths /\ pst_relay st = existsb relay_path paths /\
    pst_relay_url st = match last relays with Some p => Some (pi_addr p) | None => None end /\
    (is_Some (pst_bytes_sent st) <-> is_Some (get_existing pk alpn pool)) /\ (is_Some (pst_bytes_received st) <-> is_Some (get_existing pk alpn pool)) /\
    pst_lost_packets st = None /\ pst_sent_packets st = None /\ pst_congestion_window st = None) as (-> & -> & -> & P1 & P2 & P3 & P4 & P5).
  { destruct (get_existing pk alpn pool) as [pooled|]; [destruct (conn_stats _) as [[rtt tx] rx]|]; injection Hst as <-; cbn; split_and!; try done.
    all: split; intros [? ?]; by eauto. }
  split_and!; try done.
  - rewrite <- Hsome. destruct (last relays); by split; intros [? ?]; eauto.
  - intros u Hu. destruct (last relays) as [p|] eqn:El; [|done]. injection Hu as <-. destruct (Hlast p eq_refl). eauto.
Qed.
End peers.

(** ** The endpoint *)

Section endpoint.
Context {K : Type} {M : Type -> Type} `{HSM : SlotMap K M} `{Countable K} `{HSL : !SlotMapLaws K M}.
Context {C : Type -> Type} `{HMP : Mpsc C} `{HML : !MpscLaws C}.

Record EndpointStats := mkEndpointStats {
  es_active_readers : Z; es_active_writers : Z; es_active_sessions : Z; es_total_handles : Z; es_pool_size : Z;
  es_active_connections : Z; es_active_requests : Z; es_active_path_subscriptions : Z; es_active_path_watchers : Z
}.

(** [entry_count]: the cache's own count; [connections] and [requests]: the counters. *)
Definition endpoint_stats (w : World M C) (entry_count connections requests : Z) (p : Paths) : EndpointStats :=
  let '(active_readers, active_writers, active_sessions, total_handles) := count_handles (store w) in
  mkEndpointStats active_readers active_writers active_sessions total_handles entry_count connections requests
    (Z.of_nat (size (path_subs p))) (active_path_watchers p).

(** The numbers of a reachable endpoint are exact: the registries' sizes within
    their bound, their sum without saturation, and the watcher tasks that have
    not returned. *)
Theorem endpoint_stats_exact cfg (w : World M C) n c r p :
  (0 <= max_handles cfg <= 65536)%Z -> rtc store_step (world_new cfg) w -> rtc wstep paths_new p ->
  let st := endpoint_stats w n c r p in let s := store w in
  es_total_handles st = (es_active_readers st + es_active_writers st + es_active_sessions st +
    Z.of_nat (sm_len (request_heads s)) + Z.of_nat (sm_len (fetch_cancels s)))%Z /\
  (es_active_readers st <= max_handles cfg /\ es_active_writers st <= max_handles cfg /\ es_active_sessions st <= max_handles cfg /\
   es_total_handles st <= 5 * max_handles cfg)%Z /\
  es_active_path_watchers st = zsum counted (watches p).
Proof.
  intros Hc Hr [_ Hp]%paths_reachable_inv. destruct (reachable_inv _ _ (proj1 Hc) Hr) as [<- [H1 _] [H2 _] [H3 _] [H4 _] [H5 _] _ _].
  cbn. rewrite !sm_view_len. unfold sat_add, USIZE_MAX in *. assert (400000 <= U64_MAX)%Z by (by vm_compute). rewrite !Z.min_l by lia. lia.
Qed.
End endpoint.

(** ** Witnesses *)

Section witnesses.
(** An id is the number of bytes of its text. *)
#[local] Instance demo_net32 : IrohNet nat string := {|
  parse_endpoint_id := fun _ => Err "not an endpoint id";
  id_as_bytes := fun n => replicate n Byte.x00;
  id_from_bytes := fun l => Ok (length l);
  relay_parse := Some;
  relay_to_string := fun s => s;
  sock_parse := fun _ => None;
  sock_to_string := fun _ => "sock";
  b32_encode := fun _ => "id";
  b32_decode := fun s => Some (replicate (String.length s) Byte.x00)
|}.

Definition demo_remote (_ : nat) : option (nat * list (RemoteAddr (Relay:=string))) :=
  Some (32, [mkRemoteAddr (TaIp (SockV4 0 1)) false; mkRemoteAddr (TaRelay "https://relay") true]).

Definition demo_peer_pool : Pool nat (MokaCache (PoolKey nat) PooledConnection) ChanView := pool_new None 0.
Definition demo_peer : string := "abcdefghijklmnopqrstuvwxyz234567".
Definition demo_stats : PeerStats (Rtt:=Z) :=
  mkPeerStats true (Some "https://relay") [mkPath false "sock" false; mkPath true "https://relay" true] None None None None None None.

Example demo_peer_stats : peer_stats demo_remote (fun _ => "") (fun _ => (None, 0%Z, 0%Z)) "iroh-http/2" demo_peer_pool demo_peer = Some demo_stats.
Proof. vm_compute. reflexivity. Qed.

Lemma peer_stats_exact_witness : exists p, p ∈ pst_paths demo_stats /\ relay_path p = true /\ pi_addr p = "https://relay".
Proof.
  destruct (peer_stats_exact demo_remote (fun _ => "") (fun _ => (None, 0%Z, 0%Z)) "iroh-http/2" demo_peer_pool demo_peer demo_stats demo_peer_stats)
    as (pk & id & addrs & _ & _ & _ & _ & _ & H1 & _). apply H1. reflexivity.
Defined.

Lemma endpoint_stats_exact_witness :
  let w : World VecMap ChanView := (alloc_body_writer 7 (world_new (mkConfig 4 3 1000 2 5000))).2 in
  es_total_handles (endpoint_stats w 0 0 0 paths_new) = 1%Z.
Proof.
  cbv zeta. destruct (endpoint_stats_exact (mkConfig 4 3 1000 2 5000)
    ((alloc_body_writer 7 (world_new (mkConfig 4 3 1000 2 5000) : World VecMap ChanView)).2) 0 0 0 paths_new) as [E _].
  - cbn. lia.
  - apply rtc_once. constructor.
  - constructor.
  - rewrite E. vm_compute. reflexivity.
Defined.
End witnesses.
