(* ===== verification/NodeHandles.v ===== *)
(** * Endpoint handles of the Node binding (iroh-http-node/src/lib.rs)

    napi has no 64-bit scalars, so the binding gives out 32-bit handles of its
    own that stand for the handles of the core's endpoint registry.  Creating
    and closing endpoints interleave between their accesses to the counter, the
    map and the registry. *)

From stdpp Require Import base numbers list gmap sets strings pretty relations.
From Stdlib Require Import ZArith Lia.
From S2P Require Import Prelude Extern Handles Sessions HostAdapter EndpointCreate.

Open Scope string_scope.
Open Scope list_scope.

Section node.
Context {K : Type} {M : Type -> Type} `{HSM : SlotMap K M} {Ep : Type}.

(** Where [create_endpoint] is once its endpoint is bound. *)
Inductive NodeCreatePc :=
| CInsert
| CCount (registry_handle : Z)
| CMap (local registry_handle : Z)
| CDone (local : Z).

(** Where [close_endpoint] is: the two lookups of [get_endpoint], the close of
    the endpoint, the two removals. *)
Inductive NodeClosePc :=
| KLookup
| KRegistry (registry_handle : Z)
| KClosing (ep : Ep)
| KRemove
| KRemoveReg (registry_handle : Z)
| KRefused
| KClosed.

Record NodeState := mkNode {
  handle_counter : Z;
  handle_map : gmap Z Z;
  registry : M Ep;
  creates : list (Ep * NodeCreatePc);
  node_closes : list (Z * NodeClosePc)
}.
Definition node_new : NodeState := mkNode 1 ∅ sm_with_key [] [].

Definition set_counter x s := mkNode x (handle_map s) (registry s) (creates s) (node_closes s).
Definition set_handle_map x s := mkNode (handle_counter s) x (registry s) (creates s) (node_closes s).
Definition set_registry x s := mkNode (handle_counter s) (handle_map s) x (creates s) (node_closes s).
Definition set_creates x s := mkNode (handle_counter s) (handle_map s) (registry s) x (node_closes s).
Definition set_node_closes x s := mkNode (handle_counter s) (handle_map s) (registry s) (creates s) x.

Definition create_goto (i : nat) (ep : Ep) (x : NodeCreatePc) (s : NodeState) : NodeState := set_creates (<[i := (ep, x)]> (creates s)) s.
Definition close_goto (c : nat) (local : Z) (x : NodeClosePc) (s : NodeState) : NodeState := set_node_closes (<[c := (local, x)]> (node_closes s)) s.

(** [fetch_add] of an [AtomicU32]. *)
Definition u32_next (n : Z) : Z := ((n + 1) mod 2 ^ 32)%Z.

Definition create_insert (i : nat) (ep : Ep) (s : NodeState) : NodeState :=
  let '(h, registry) := insert_endpoint ep (registry s) in create_goto i ep (CCount h) (set_registry registry s).

(** [alloc_local_handle]. *)
Definition create_count (i : nat) (ep : Ep) (h : Z) (s : NodeState) : NodeState :=
  create_goto i ep (CMap (handle_counter s) h) (set_counter (u32_next (handle_counter s)) s).
Definition create_map (i : nat) (ep : Ep) (local h : Z) (s : NodeState) : NodeState :=
  create_goto i ep (CDone local) (set_handle_map (<[local := h]> (handle_map s)) s).

Definition invalid_handle_error (json_string : string -> string) (handle : Z) : Status * string :=
  (InvalidArg, format_error_json json_string "INVALID_HANDLE" ("node closed or not found (handle " +:+ pretty handle +:+ ")")).

(** [get_endpoint], as one. *)
Definition node_get_endpoint (json_string : string -> string) (handle : Z) (s : NodeState) : Napi Ep :=
  match handle_map s !! handle with
  | None => Err (invalid_handle_error json_string handle)
  | Some h => match get_endpoint h (registry s) with Some ep => Ok ep | None => Err (invalid_handle_error json_string handle) end
  end.

Definition close_lookup (c : nat) (local : Z) (s : NodeState) : NodeState :=
  close_goto c local (match handle_map s !! local with Some h => KRegistry h | None => KRefused end) s.
Definition close_registry (c : nat) (local h : Z) (s : NodeState) : NodeState :=
  close_goto c local (match get_endpoint h (registry s) with Some ep => KClosing ep | None => KRefused end) s.

(** [remove_local_handle], and the removal from the registry. *)
Definition close_remove (c : nat) (local : Z) (s : NodeState) : NodeState :=
  match handle_map s !! local with
  | Some h => close_goto c local (KRemoveReg h) (set_handle_map (delete local (handle_map s)) s)
  | None => close_goto c local KClosed s
  end.
Definition close_remove_reg (c : nat) (local h : Z) (s : NodeState) : NodeState :=
  close_goto c local KClosed (set_registry (remove_endpoint h (registry s)).2 s).

Inductive node_step (s : NodeState) : NodeState -> Prop :=
| h_create ep : node_step s (set_creates (creates s ++ [(ep, CInsert)]) s)
| h_insert i ep : creates s !! i = Some (ep, CInsert) -> node_step s (create_insert i ep s)
| h_count i ep h : creates s !! i = Some (ep, CCount h) -> node_step s (create_count i ep h s)
| h_map i ep local h : creates s !! i = Some (ep, CMap local h) -> node_step s (create_map i ep local h s)
| h_close local : node_step s (set_node_closes (node_closes s ++ [(local, KLookup)]) s)
| h_lookup c local : node_closes s !! c = Some (local, KLookup) -> node_step s (close_lookup c local s)
| h_registry c local h : node_closes s !! c = Some (local, KRegistry h) -> node_step s (close_registry c local h s)
| h_closed c local ep : node_closes s !! c = Some (local, KClosing ep) -> node_step s (close_goto c local KRemove s)
| h_remove c local : node_closes s !! c = Some (local, KRemove) -> node_step s (close_remove c local s)
| h_remove_reg c local h : node_closes s !! c = Some (local, KRemoveReg h) -> node_step s (close_remove_reg c local h s).
End node.
Arguments NodeState M Ep : clear implicits.
Arguments NodeClosePc Ep : clear implicits.

(** * Node endpoint handles: one endpoint each, none lost, none reused *)

(** Who has the handle of the registry: a call that creates, an entry of the
    map or a call that closes. *)
Inductive Who := ByCreate (i : nat) | ByMap (local : Z) | ByClose (c : nat).
#[global] Instance Who_eq_dec : EqDecision Who.
Proof. solve_decision. Defined.

Section props.
Context {K : Type} {M : Type -> Type} `{HSM : SlotMap K M} `{Countable K} `{HSL : !SlotMapLaws K M} {Ep : Type}.
#[local] Abbreviation node := (NodeState M Ep).

Definition create_has (x : NodeCreatePc) : option Z := match x with CCount h | CMap _ h => Some h | _ => None end.
Definition close_has (x : NodeClosePc Ep) : option Z := match x with KRemoveReg h => Some h | _ => None end.

Definition holder (s : node) (w : Who) : option Z :=
  match w with
  | ByCreate i => creates s !! i ≫= fun x => create_has x.2
  | ByMap l => handle_map s !! l
  | ByClose c => node_closes s !! c ≫= fun x => close_has x.2
  end.

Lemma holder_create s i z ep x w : creates s !! i = Some z ->
  holder (create_goto i ep x s) w = if decide (w = ByCreate i) then create_has x else holder s w.
Proof.
  intros Hi. destruct w as [j|l|c]; cbn; try (rewrite decide_False by done; done).
  destruct (decide (i = j)) as [<-|Hne].
  - rewrite decide_True by done. by rewrite list_lookup_insert_eq by (by eapply lookup_lt_Some).
  - rewrite decide_False by congruence. by rewrite list_lookup_insert_ne.
Qed.
Lemma holder_close s c z l x w : node_closes s !! c = Some z ->
  holder (close_goto c l x s) w = if decide (w = ByClose c) then close_has x else holder s w.
Proof.
  intros Hi. destruct w as [j|l'|c']; cbn; try (rewrite decide_False by done; done).
  destruct (decide (c = c')) as [<-|Hne].
  - rewrite decide_True by done. by rewrite list_lookup_insert_eq by (by eapply lookup_lt_Some).
  - rewrite decide_False by congruence. by rewrite list_lookup_insert_ne.
Qed.
Lemma holder_map_insert s l h w : holder (set_handle_map (<[l := h]> (handle_map s)) s) w = if decide (w = ByMap l) then Some h else holder s w.
Proof.
  destruct w as [j|l'|c']; cbn; try (rewrite decide_False by done; done).
  destruct (decide (l = l')) as [<-|Hne]; [by rewrite decide_True, lookup_insert_eq|]. by rewrite decide_False, lookup_insert_ne by congruence.
Qed.
Lemma holder_map_delete s l w : holder (set_handle_map (delete l (handle_map s)) s) w = if decide (w = ByMap l) then None else holder s w.
Proof.
  destruct w as [j|l'|c']; cbn; try (rewrite decide_False by done; done).
  destruct (decide (l = l')) as [<-|Hne]; [by rewrite decide_True, lookup_delete_eq|]. by rewrite decide_False, lookup_delete_ne by congruence.
Qed.

(** ** The registry *)

(** Every handle of the registry is in one hand. *)
Record held_inv (s : node) : Prop := {
  v_inj : forall w w' h, holder s w = Some h -> holder s w' = Some h -> w = w';
  v_reg : forall w h, holder s w = Some h -> exists k, h = as_ffi k /\ is_Some (sm_view (registry s) !! k);
  v_all : forall k, is_Some (sm_view (registry s) !! k) -> exists w, holder s w = Some (as_ffi k)
}.

(** The handle passes from one hand to another. *)
Lemma held_move (s s' : node) a b :
  held_inv s -> registry s' = registry s -> holder s b = None ->
  (forall w, holder s' w = if decide (w = b) then holder s a else if decide (w = a) then None else holder s w) -> held_inv s'.
Proof.
  intros [V1 V2 V3] Er Hb Hw. constructor; rewrite ?Er.
  - intros w w' h. rewrite !Hw. repeat case_decide; subst; try done; [|..].
    + intros Ha Hh. specialize (V1 _ _ _ Ha Hh). congruence.
    + intros Hh Ha. specialize (V1 _ _ _ Hh Ha). congruence.
    + apply V1.
  - intros w h. rewrite Hw. repeat case_decide; try done; apply V2.
  - intros k Hk. destruct (V3 k Hk) as [w Hh]. destruct (decide (w = a)) as [->|Hne].
    + exists b. by rewrite Hw, decide_True.
    + exists w. rewrite Hw, decide_False by (intros ->; congruence). by rewrite decide_False.
Qed.

(** A step that changes no hand. *)
Lemma held_keep (s s' : node) : held_inv s -> registry s' = registry s -> (forall w, holder s' w = holder s w) -> held_inv s'.
Proof.
  intros [V1 V2 V3] Er Hw. constructor; rewrite ?Er.
  - intros w w' h. rewrite !Hw. apply V1.
  - intros w h. rewrite Hw. apply V2.
  - intros k (w & Hh)%V3. exists w. by rewrite Hw.
Qed.

Lemma as_ffi_inj (k k' : K) : as_ffi k = as_ffi k' -> k = k'.
Proof. intros E. by rewrite <- (from_as_ffi k), <- (from_as_ffi k'), E. Qed.

Lemma held_insert (s : node) i ep : held_inv s -> creates s !! i = Some (ep, CInsert) -> held_inv (create_insert i ep s).
Proof.
  intros [V1 V2 V3] Hi. unfold create_insert, insert_endpoint. destruct (sm_insert ep (registry s)) as [k reg] eqn:E.
  pose proof (sm_view_insert_fresh _ ep (registry s)) as Hf. pose proof (sm_view_insert _ ep (registry s)) as Hv. rewrite E in Hf, Hv. cbn in Hf, Hv.
  assert (forall w, holder (create_goto i ep (CCount (as_ffi k)) (set_registry reg s)) w = if decide (w = ByCreate i) then Some (as_ffi k) else holder s w) as Hw.
  { intros w. rewrite (holder_create (set_registry reg s) i (ep, CInsert)) by done. done. }
  assert (forall w, holder s w <> Some (as_ffi k)) as Hno.
  { intros w Hh. destruct (V2 _ _ Hh) as (k' & E'%as_ffi_inj & [x Hx]). subst k'. congruence. }
  constructor; cbn.
  - intros w w' h. rewrite !Hw. repeat case_decide; subst; try done.
    + intros [= <-] Hh. by destruct (Hno w').
    + intros Hh [= <-]. by destruct (Hno w).
    + apply V1.
  - intros w h. rewrite Hw, Hv. case_decide.
    + intros [= <-]. exists k. rewrite lookup_insert_eq. eauto.
    + intros (k' & -> & [x Hx])%V2. exists k'. rewrite lookup_insert_ne by congruence. eauto.
  - intros k' Hk'. rewrite Hv in Hk'. destruct (decide (k = k')) as [<-|Hne]; [exists (ByCreate i); by rewrite Hw, decide_True|].
    rewrite lookup_insert_ne in Hk' by done. destruct (V3 _ Hk') as [w Hh]. exists w. rewrite Hw. case_decide; [|done]. subst w. cbn in Hh. by rewrite Hi in Hh.
Qed.

Lemma held_remove (s : node) c l h : held_inv s -> node_closes s !! c = Some (l, KRemoveReg h) -> held_inv (close_remove_reg c l h s).
Proof.
  intros [V1 V2 V3] Hc. assert (holder s (ByClose c) = Some h) as Hh by (cbn; by rewrite Hc).
  destruct (V2 _ _ Hh) as (k & -> & Hk). unfold close_remove_reg, remove_endpoint, handle_to_key. rewrite from_as_ffi.
  pose proof (sm_view_remove _ k (registry s)) as Hv.
  assert (forall w, holder (close_goto c l KClosed (set_registry (sm_remove k (registry s)).2 s)) w = if decide (w = ByClose c) then None else holder s w) as Hw.
  { intros w. by rewrite (holder_close (set_registry (sm_remove k (registry s)).2 s) c (l, KRemoveReg (as_ffi k))). }
  constructor; cbn.
  - intros w w' h'. rewrite !Hw. repeat case_decide; try done. apply V1.
  - intros w h'. rewrite Hw, Hv. case_decide as Hd; [done|]. intros Hw'. destruct (V2 _ _ Hw') as (k' & -> & Hk'). exists k'. split; [done|].
    rewrite lookup_delete_ne; [done|]. intros <-. by apply Hd, (V1 _ _ _ Hw' Hh).
  - intros k' Hk'. rewrite Hv in Hk'. destruct (decide (k = k')) as [<-|Hne]; [by rewrite lookup_delete_eq in Hk'; destruct Hk'|].
    rewrite lookup_delete_ne in Hk' by done. destruct (V3 _ Hk') as [w Hw']. exists w. rewrite Hw. case_decide; [|done].
    subst w. rewrite Hh in Hw'. injection Hw' as E%as_ffi_inj. congruence.
Qed.

Lemma held_step (s s' : node) : node_step s s' -> (forall i ep l h, creates s !! i = Some (ep, CMap l h) -> handle_map s !! l = None) ->
  held_inv s -> held_inv s'.
Proof.
  intros Hs Hfree Hv. destruct Hs as [ep|i ep Hi|i ep h Hi|i ep l h Hi|l|c l Hc|c l h Hc|c l ep Hc|c l Hc|c l h Hc].
  - apply (held_keep s); [done|done|]. intros [i|l|c]; try done. cbn. destruct (creates s !! i) as [x|] eqn:E; [by rewrite (lookup_app_l_Some _ _ _ _ E)|].
    destruct ((creates s ++ [(ep, CInsert)]) !! i) as [x|] eqn:E'; [|done]. apply lookup_app_Some in E' as [?|[_ E']]; [congruence|].
    by apply list_lookup_singleton_Some in E' as [_ <-].
  - by apply held_insert.
  - apply (held_keep s); [done|done|]. intros w. unfold create_count. rewrite (holder_create _ i (ep, CCount h)) by done.
    case_decide; [subst; cbn; by rewrite Hi|by destruct w].
  - apply (held_move s _ (ByCreate i) (ByMap l)); [done|done|by eapply Hfree|]. intros w. unfold create_map.
    rewrite (holder_create _ i (ep, CMap l h)), holder_map_insert by done. repeat case_decide; subst; try done. cbn. by rewrite Hi.
  - apply (held_keep s); [done|done|]. intros [i|l'|c]; try done. cbn. destruct (node_closes s !! c) as [x|] eqn:E; [by rewrite (lookup_app_l_Some _ _ _ _ E)|].
    destruct ((node_closes s ++ [(l, KLookup)]) !! c) as [x|] eqn:E'; [|done]. apply lookup_app_Some in E' as [?|[_ E']]; [congruence|].
    by apply list_lookup_singleton_Some in E' as [_ <-].
  - apply (held_keep s); [done|done|]. intros w. unfold close_lookup. rewrite (holder_close _ c (l, KLookup)) by done.
    case_decide; [|done]. subst w. cbn. rewrite Hc. by destruct (handle_map s !! l).
  - apply (held_keep s); [done|done|]. intros w. unfold close_registry. rewrite (holder_close _ c (l, KRegistry h)) by done.
    case_decide; [|done]. subst w. cbn. rewrite Hc. by destruct (get_endpoint h _).
  - apply (held_keep s); [done|done|]. intros w. rewrite (holder_close _ c (l, KClosing ep)) by done.
    case_decide; [|done]. subst w. cbn. by rewrite Hc.
  - unfold close_remove. destruct (handle_map s !! l) as [h|] eqn:El.
    + apply (held_move s _ (ByMap l) (ByClose c)); [done|done|cbn; by rewrite Hc|]. intros w.
      rewrite (holder_close _ c (l, KRemove)), holder_map_delete by done. repeat case_decide; subst; try done.
    + apply (held_keep s); [done|done|]. intros w. rewrite (holder_close _ c (l, KRemove)) by done.
      case_decide; [|done]. subst w. cbn. by rewrite Hc.
  - by apply held_remove.
Qed.

(** ** Local handles *)

Definition local_of (x : NodeCreatePc) : option Z := match x with CMap l _ | CDone l => Some l | _ => None end.
Definition counted (x : Ep * NodeCreatePc) : Z := match local_of x.2 with Some _ => 1 | None => 0 end.

(** Handles do not run out: fewer than [2^32 - 2] endpoints were created. *)
Definition handles_left (s : node) : Prop := (Z.of_nat (length (creates s)) < 2 ^ 32 - 2)%Z.

Record local_inv (s : node) : Prop := {
  l_counter : handle_counter s = (1 + zsum counted (creates s))%Z;
  l_range : forall i ep x l, creates s !! i = Some (ep, x) -> local_of x = Some l -> (1 <= l < handle_counter s)%Z;
  l_inj : forall i j ep ep' x x' l, creates s !! i = Some (ep, x) -> creates s !! j = Some (ep', x') ->
    local_of x = Some l -> local_of x' = Some l -> i = j;
  l_map : forall l h, handle_map s !! l = Some h -> exists i ep, creates s !! i = Some (ep, CDone l) /\ sm_view (registry s) !! from_ffi h = Some ep;
  l_create : forall i ep x h, creates s !! i = Some (ep, x) -> create_has x = Some h -> sm_view (registry s) !! from_ffi h = Some ep
}.

Lemma counted_length (l : list (Ep * NodeCreatePc)) : (0 <= zsum counted l <= Z.of_nat (length l))%Z.
Proof. induction l as [|x l IH]; cbn; [lia|]. unfold counted at 1 3. destruct (local_of x.2); lia. Qed.

Lemma creates_insert_Some (s : node) i z ep x j y : creates s !! i = Some z ->
  <[i := (ep, x)]> (creates s) !! j = Some y <-> if decide (i = j) then y = (ep, x) else creates s !! j = Some y.
Proof.
  intros Hi. case_decide as Hd.
  - subst j. rewrite list_lookup_insert_eq by (by eapply lookup_lt_Some). naive_solver.
  - by rewrite list_lookup_insert_ne.
Qed.

(** A call moves on without a new local handle; the registry keeps what counts. *)
Lemma local_goto (s : node) i ep x y reg :
  local_inv s -> creates s !! i = Some (ep, x) -> local_of y = local_of x -> (forall l, x <> CDone l) ->
  (forall h e, (exists l, handle_map s !! l = Some h) \/ (exists j x', creates s !! j = Some (e, x') /\ create_has x' = Some h) ->
     sm_view (registry s) !! from_ffi h = Some e -> sm_view reg !! from_ffi h = Some e) ->
  (forall h, create_has y = Some h -> sm_view reg !! from_ffi h = Some ep) ->
  local_inv (create_goto i ep y (set_registry reg s)).
Proof.
  intros [L1 L2 L3 L4 L5] Hi Hl Hx Hr Hy. constructor; cbn.
  - rewrite (zsum_insert _ _ _ (ep, x)) by done. unfold counted at 2 3. cbn. rewrite Hl, L1. lia.
  - intros j e z l Hz Hzl. apply (creates_insert_Some s i (ep, x)) in Hz; [|done]. case_decide; [simplify_eq|by apply (L2 j e z)].
    rewrite Hl in Hzl. by apply (L2 _ _ _ _ Hi).
  - intros j j' e e' z z' l Hz Hz' Hzl Hzl'. apply (creates_insert_Some s i (ep, x)) in Hz, Hz'; [|done..].
    repeat case_decide; subst; simplify_eq; try done.
    + eapply (L3 _ _ _ _ _ _ l); [exact Hz|exact Hi|done|congruence].
    + eapply (L3 _ _ _ _ _ _ l); [exact Hi|exact Hz'|congruence|done].
    + by eapply (L3 _ _ _ _ _ _ _ Hz Hz').
  - intros l h Hm. destruct (L4 _ _ Hm) as (j & e & Hj & Hk). exists j, e. split; [|apply Hr; eauto].
    apply (creates_insert_Some s i (ep, x)); [done|]. case_decide; [|done]. subst j. rewrite Hi in Hj. injection Hj as _ ->. by destruct (Hx l).
  - intros j e z h Hz Hh. apply (creates_insert_Some s i (ep, x)) in Hz; [|done]. case_decide; [simplify_eq; by apply Hy|].
    apply Hr; [right; eauto|]. by apply (L5 j e z).
Qed.

Lemma local_insert (s : node) i ep : local_inv s -> creates s !! i = Some (ep, CInsert) -> local_inv (create_insert i ep s).
Proof.
  intros Hl Hi. unfold create_insert, insert_endpoint. destruct (sm_insert ep (registry s)) as [k reg] eqn:E.
  pose proof (sm_view_insert_fresh _ ep (registry s)) as Hf. pose proof (sm_view_insert _ ep (registry s)) as Hv. rewrite E in Hf, Hv. cbn in Hf, Hv.
  apply (local_goto s i ep CInsert); try done; rewrite ?Hv.
  - intros h e _ Hh. rewrite lookup_insert_ne; [done|]. intros E'. congruence.
  - intros h [= <-]. unfold key_to_handle. rewrite from_as_ffi. apply lookup_insert_eq.
Qed.

Lemma local_count (s : node) i ep h : handles_left s -> local_inv s -> creates s !! i = Some (ep, CCount h) -> local_inv (create_count i ep h s).
Proof.
  intros Hb [L1 L2 L3 L4 L5] Hi. pose proof (counted_length (creates s)) as Hlen. unfold handles_left in Hb.
  assert (u32_next (handle_counter s) = handle_counter s + 1)%Z as Eu by (unfold u32_next; rewrite Z.mod_small; lia).
  constructor; cbn; rewrite ?Eu.
  - rewrite (zsum_insert _ _ _ (ep, CCount h)) by done. cbn. lia.
  - intros j e z l Hz Hzl. apply (creates_insert_Some s i (ep, CCount h)) in Hz; [|done]. case_decide; [simplify_eq/=; lia|].
    specialize (L2 _ _ _ _ Hz Hzl). lia.
  - intros j j' e e' z z' l Hz Hz' Hzl Hzl'. apply (creates_insert_Some s i (ep, CCount h)) in Hz, Hz'; [|done..].
    repeat case_decide; subst; simplify_eq/=; try done.
    + specialize (L2 _ _ _ _ Hz Hzl). lia.
    + specialize (L2 _ _ _ _ Hz' Hzl'). lia.
    + by eapply (L3 _ _ _ _ _ _ _ Hz Hz').
  - intros l h' Hm. destruct (L4 _ _ Hm) as (j & e & Hj & Hk). exists j, e. split; [|done].
    apply (creates_insert_Some s i (ep, CCount h)); [done|]. case_decide; [|done]. subst j. by rewrite Hi in Hj.
  - intros j e z h' Hz Hh. apply (creates_insert_Some s i (ep, CCount h)) in Hz; [|done]. case_decide; [|by apply (L5 j e z)].
    simplify_eq/=. by apply (L5 _ _ _ h' Hi).
Qed.

Lemma local_map (s : node) i ep l h : local_inv s -> creates s !! i = Some (ep, CMap l h) -> local_inv (create_map i ep l h s).
Proof.
  intros [L1 L2 L3 L4 L5] Hi. constructor; cbn.
  - rewrite (zsum_insert _ _ _ (ep, CMap l h)) by done. cbn. lia.
  - intros j e z l' Hz Hzl. apply (creates_insert_Some s i (ep, CMap l h)) in Hz; [|done]. case_decide; [simplify_eq/=; by apply (L2 _ _ _ _ Hi)|by apply (L2 j e z)].
  - intros j j' e e' z z' l' Hz Hz' Hzl Hzl'. apply (creates_insert_Some s i (ep, CMap l h)) in Hz, Hz'; [|done..].
    repeat case_decide; subst; simplify_eq/=; try done.
    + by apply (L3 _ _ _ _ _ _ l' Hz Hi).
    + by apply (L3 _ _ _ _ _ _ l' Hi Hz').
    + by eapply (L3 _ _ _ _ _ _ _ Hz Hz').
  - intros l' h' Hm. apply lookup_insert_Some in Hm as [[<- <-]|[Hne Hm]].
    + exists i, ep. split; [|by apply (L5 _ _ _ h Hi)]. apply (creates_insert_Some s i (ep, CMap l h)); [done|]. by rewrite decide_True.
    + destruct (L4 _ _ Hm) as (j & e & Hj & Hk). exists j, e. split; [|done].
      apply (creates_insert_Some s i (ep, CMap l h)); [done|]. case_decide; [|done]. subst j. by rewrite Hi in Hj.
  - intros j e z h' Hz Hh. apply (creates_insert_Some s i (ep, CMap l h)) in Hz; [|done]. case_decide; [by simplify_eq|by apply (L5 j e z)].
Qed.

(** A call that closes gives entries up, and with them what the registry kept for
    them. *)
Lemma local_shrink (s s' : node) : local_inv s -> handle_counter s' = handle_counter s -> creates s' = creates s -> handle_map s' ⊆ handle_map s ->
  (forall h e, (exists w, holder s' w = Some h /\ forall c, w <> ByClose c) -> sm_view (registry s) !! from_ffi h = Some e -> sm_view (registry s') !! from_ffi h = Some e) ->
  local_inv s'.
Proof.
  intros [L1 L2 L3 L4 L5] Ec Ek Hm Hr. constructor; rewrite ?Ec, ?Ek; try done.
  - intros l h Hl. destruct (L4 l h) as (i & ep & Hi & Hk); [by eapply lookup_weaken|]. exists i, ep. split; [done|]. apply Hr; [|done]. by exists (ByMap l).
  - intros i ep x h Hi Hh. apply Hr; [|by apply (L5 i ep x)]. exists (ByCreate i). split; [|done]. cbn. by rewrite Ek, Hi.
Qed.

Lemma local_remove_reg (s : node) c l h : held_inv s -> local_inv s -> node_closes s !! c = Some (l, KRemoveReg h) -> local_inv (close_remove_reg c l h s).
Proof.
  intros Hv Hl Hc. assert (holder s (ByClose c) = Some h) as Hh by (cbn; by rewrite Hc). apply (local_shrink s); try done.
  intros h' e (w & Hw & Hno) He. cbn. unfold remove_endpoint, handle_to_key. rewrite sm_view_remove, lookup_delete_ne; [done|]. intros E.
  unfold close_remove_reg in Hw. rewrite (holder_close (set_registry (remove_endpoint h (registry s)).2 s) c (l, KRemoveReg h)) in Hw by done. rewrite decide_False in Hw by done.
  change (holder s w = Some h') in Hw. destruct (v_reg s Hv _ _ Hw) as (k & -> & _). destruct (v_reg s Hv _ _ Hh) as (k' & -> & _).
  rewrite !from_as_ffi in E. subst k'. by apply (Hno c), (v_inj s Hv _ _ _ Hw Hh).
Qed.

Lemma node_local_step (s s' : node) : node_step s s' -> handles_left s -> held_inv s -> local_inv s -> local_inv s'.
Proof.
  intros Hs Hb Hv Hl. destruct Hs as [ep|i ep Hi|i ep h Hi|i ep l h Hi|l|c l Hc|c l h Hc|c l ep Hc|c l Hc|c l h Hc];
    [|by apply local_insert|by apply local_count|by apply local_map|..].
  - destruct Hl as [L1 L2 L3 L4 L5].
    assert (forall i e x, (creates s ++ [(ep, CInsert)]) !! i = Some (e, x) -> x <> CInsert -> creates s !! i = Some (e, x)) as Hold.
    { intros i e x [?|[_ E]]%lookup_app_Some Hx; [done|]. apply list_lookup_singleton_Some in E as [_ E]. congruence. }
    constructor; cbn.
    + rewrite zsum_app. cbn. lia.
    + intros i e x l Hi Hx. apply (L2 i e x); [|done]. apply Hold; [done|]. by intros ->.
    + intros i j e e' x x' l Hi Hj Hx Hx'. eapply (L3 i j e e' x x' l); try done; apply Hold; try done; by intros ->.
    + intros l h (i & e & Hi & Hk)%L4. exists i, e. by rewrite (lookup_app_l_Some _ _ _ _ Hi).
    + intros i e x h Hi Hx. apply (L5 i e x); [|done]. apply Hold; [done|]. by intros ->.
  - by apply (local_shrink s).
  - by apply (local_shrink s).
  - by apply (local_shrink s).
  - by apply (local_shrink s).
  - unfold close_remove. destruct (handle_map s !! l); apply (local_shrink s); try done. apply delete_subseteq.
  - by apply local_remove_reg.
Qed.

(** ** Calls that close *)

Definition past_lookup (x : NodeClosePc Ep) : bool := match x with KLookup | KRefused => false | _ => true end.
Definition removed (x : NodeClosePc Ep) : bool := match x with KRemoveReg _ | KClosed => true | _ => false end.

Record close_inv (s : node) : Prop := {
  c_known : forall c l x, node_closes s !! c = Some (l, x) -> past_lookup x -> exists i ep, creates s !! i = Some (ep, CDone l);
  c_gone : forall c l x, node_closes s !! c = Some (l, x) -> removed x -> handle_map s !! l = None;
  c_open : forall i ep l, creates s !! i = Some (ep, CDone l) -> handle_map s !! l = None -> exists c x, node_closes s !! c = Some (l, x) /\ removed x
}.

(** A call that creates moves on before it has entered its handle. *)
Lemma close_create (s s' : node) i ep x y :
  close_inv s -> creates s !! i = Some (ep, x) -> (forall l, x <> CDone l) -> (forall l, y <> CDone l) ->
  creates s' = <[i := (ep, y)]> (creates s) -> handle_map s' = handle_map s -> node_closes s' = node_closes s -> close_inv s'.
Proof.
  intros [C1 C2 C3] Hi Hx Hy Ec Em En. constructor; rewrite ?Ec, ?Em, ?En; try done.
  - intros c l z Hc Hz. destruct (C1 c l z Hc Hz) as (j & e & Hj). exists j, e. apply (creates_insert_Some s i (ep, x)); [done|].
    case_decide; [|done]. subst j. rewrite Hi in Hj. injection Hj as _ ->. by destruct (Hx l).
  - intros j e l Hj. apply (creates_insert_Some s i (ep, x)) in Hj; [|done]. case_decide; [|by apply (C3 j e)]. injection Hj as _ <-. by destruct (Hy l).
Qed.

Lemma close_map (s : node) i ep l h : local_inv s -> close_inv s -> creates s !! i = Some (ep, CMap l h) -> close_inv (create_map i ep l h s).
Proof.
  intros Hl [C1 C2 C3] Hi.
  assert (forall j e l', creates s !! j = Some (e, CDone l') -> l' <> l) as Hne.
  { intros j e l' Hj ->. assert (i = j) as <- by (by eapply (l_inj s Hl _ _ _ _ _ _ l Hi Hj)). congruence. }
  assert (forall j e l', creates s !! j = Some (e, CDone l') -> <[i := (ep, CDone l)]> (creates s) !! j = Some (e, CDone l')) as Hold.
  { intros j e l' Hj. apply (creates_insert_Some s i (ep, CMap l h)); [done|]. case_decide; [|done]. subst j. congruence. }
  constructor; cbn.
  - intros c l' z Hc Hz. destruct (C1 c l' z Hc Hz) as (j & e & Hj). eauto.
  - intros c l' z Hc Hz. destruct (C1 c l' z Hc) as (j & e & Hj); [by destruct z|]. rewrite lookup_insert_ne by (symmetry; by eapply Hne). by apply (C2 c l' z).
  - intros j e l' Hj Hm. apply lookup_insert_None in Hm as [Hm Hn]. apply (creates_insert_Some s i (ep, CMap l h)) in Hj; [|done]. case_decide; [simplify_eq|by apply (C3 j e)].
Qed.

(** A call that closes moves on; it does not come back from a removal, and an
    entry that it takes out of the map is its own. *)
Lemma close_moves (s s' : node) c l x y :
  close_inv s -> node_closes s !! c = Some (l, x) -> removed x = false \/ y = KClosed ->
  (past_lookup y -> exists i ep, creates s !! i = Some (ep, CDone l)) ->
  node_closes s' = <[c := (l, y)]> (node_closes s) -> creates s' = creates s ->
  (forall l', l' <> l -> handle_map s' !! l' = handle_map s !! l') ->
  (if removed y then handle_map s' !! l = None else handle_map s' !! l = handle_map s !! l) -> close_inv s'.
Proof.
  intros [C1 C2 C3] Hc Hx Hy En Ec Hm Hl.
  assert (forall z, removed z -> handle_map s !! l = None -> handle_map s' !! l = None) as Hgone by (destruct (removed y); [done|]; intros; congruence).
  constructor; rewrite ?En, ?Ec.
  - intros c' l' z [(<- & [= <- <-] & _)|[_ Hz]]%list_lookup_insert_Some Hp; [by apply Hy|by apply (C1 c' l' z)].
  - intros c' l' z [(<- & [= <- <-] & _)|[_ Hz]]%list_lookup_insert_Some Hp; [by destruct (removed y)|].
    destruct (decide (l' = l)) as [->|Hne]; [eapply Hgone; [exact Hp|by apply (C2 c' l z)]|]. rewrite Hm by done. by apply (C2 c' l' z).
  - intros i e l' Hi Hn.
    assert (forall z, node_closes s !! c = Some (l', z) -> removed z -> exists c' x', <[c := (l, y)]> (node_closes s) !! c' = Some (l', x') /\ removed x') as Hown.
    { intros z Hz Hr. rewrite Hc in Hz. injection Hz as -> ->. destruct Hx as [Hx| ->]; [by rewrite Hx in Hr|].
      exists c, KClosed. by rewrite list_lookup_insert_eq by (by eapply lookup_lt_Some). }
    assert (handle_map s !! l' = None -> exists c' x', <[c := (l, y)]> (node_closes s) !! c' = Some (l', x') /\ removed x') as Hkeep.
    { intros (c' & z & Hz & Hr)%(C3 i e); [|done]. destruct (decide (c' = c)) as [->|Hne]; [by apply (Hown z)|]. exists c', z. by rewrite list_lookup_insert_ne. }
    destruct (decide (l' = l)) as [->|Hne]; [|apply Hkeep; by rewrite <- Hm].
    destruct (removed y) eqn:Er; [|apply Hkeep; congruence]. exists c, y. rewrite list_lookup_insert_eq by (by eapply lookup_lt_Some). by rewrite Er.
Qed.

Lemma close_step (s s' : node) : node_step s s' -> local_inv s -> close_inv s -> close_inv s'.
Proof.
  intros Hs Hl Hv. destruct Hs as [ep|i ep Hi|i ep h Hi|i ep l h Hi|l|c l Hc|c l h Hc|c l ep Hc|c l Hc|c l h Hc].
  - destruct Hv as [C1 C2 C3]. constructor; cbn; [|done|].
    + intros c l z Hc Hz. destruct (C1 c l z Hc Hz) as (j & e & Hj). exists j, e. by rewrite (lookup_app_l_Some _ _ _ _ Hj).
    + intros i e l [Hi|[_ E]]%lookup_app_Some; [by apply (C3 i e)|]. by apply list_lookup_singleton_Some in E as [_ E].
  - unfold create_insert. destruct (insert_endpoint ep (registry s)) as [k reg]. by apply (close_create s _ i ep CInsert (CCount k)).
  - by apply (close_create s _ i ep (CCount h) (CMap (handle_counter s) h)).
  - by apply close_map.
  - destruct Hv as [C1 C2 C3].
    assert (forall c l' z, (node_closes s ++ [(l, KLookup)]) !! c = Some (l', z) -> past_lookup z -> node_closes s !! c = Some (l', z)) as Hold.
    { intros c l' z [?|[_ E]]%lookup_app_Some Hz; [done|]. apply list_lookup_singleton_Some in E as [_ E]. by simplify_eq. }
    constructor; cbn.
    + intros c l' z Hc Hz. apply (C1 c l' z); [by apply Hold|done].
    + intros c l' z Hc Hz. apply (C2 c l' z); [apply Hold; [done|by destruct z]|done].
    + intros i e l' Hi Hn. destruct (C3 i e l' Hi Hn) as (c & x & Hc & Hr). exists c, x. by rewrite (lookup_app_l_Some _ _ _ _ Hc).
  - apply (close_moves s _ c l KLookup (match handle_map s !! l with Some h => KRegistry h | None => KRefused end)); try done; [by left| |cbn; by destruct (handle_map s !! l)].
    destruct (handle_map s !! l) as [h|] eqn:E; [|done]. intros _. destruct (l_map s Hl _ _ E) as (i & ep & Hi & _). eauto.
  - apply (close_moves s _ c l (KRegistry h) (match get_endpoint h (registry s) with Some ep => KClosing ep | None => KRefused end)); try done; [by left| |cbn; by destruct (get_endpoint h (registry s))].
    intros _. by apply (c_known s Hv c l _ Hc).
  - apply (close_moves s _ c l (KClosing ep) KRemove); try done; [by left|]. intros _. by apply (c_known s Hv c l _ Hc).
  - unfold close_remove. destruct (handle_map s !! l) as [h|] eqn:E.
    + apply (close_moves s _ c l KRemove (KRemoveReg h)); try done; [by left|by intros _; apply (c_known s Hv c l _ Hc)| |]; cbn; [|apply lookup_delete_eq].
      intros l' Hne. by apply lookup_delete_ne.
    + apply (close_moves s _ c l KRemove KClosed); try done; [by left|]. intros _. by apply (c_known s Hv c l _ Hc).
  - apply (close_moves s _ c l (KRemoveReg h) KClosed); try done; [by right|by intros _; apply (c_known s Hv c l _ Hc)|]. by apply (c_gone s Hv c l _ Hc).
Qed.

(** ** Reachable states *)

Lemma creates_grow (s s' : node) : node_step s s' -> (length (creates s) <= length (creates s'))%nat.
Proof.
  intros []; cbn; rewrite ?length_app, ?length_insert; cbn; try lia; unfold create_insert, close_remove; repeat case_match; cbn; rewrite ?length_insert; lia.
Qed.

(** A local handle that is about to be entered is not in the map. *)
Lemma local_free (s : node) : local_inv s -> forall i ep l h, creates s !! i = Some (ep, CMap l h) -> handle_map s !! l = None.
Proof.
  intros [L1 L2 L3 L4 L5] i ep l h Hi. destruct (handle_map s !! l) as [h'|] eqn:E; [|done]. destruct (L4 _ _ E) as (j & e & Hj & _).
  assert (i = j) as <- by (by eapply (L3 _ _ _ _ _ _ l Hi Hj)). congruence.
Qed.

Definition reachable (s : node) : Prop := rtc node_step node_new s.

Lemma node_new_inv : held_inv node_new /\ local_inv node_new /\ close_inv node_new.
Proof.
  split_and!; constructor; cbn; try done.
  - by intros [] ?.
  - by intros [].
  - intros k. rewrite sm_view_with_key, lookup_empty. by intros [].
Qed.

Lemma node_reachable_inv (s : node) : reachable s -> handles_left s -> held_inv s /\ local_inv s /\ close_inv s.
Proof.
  intros Hr. revert s Hr. apply (rtc_ind_r (fun s => handles_left s -> held_inv s /\ local_inv s /\ close_inv s)); [intros _; apply node_new_inv|].
  intros s s' Hr Hs IH Hb.
  assert (handles_left s) as Hb0 by (pose proof (creates_grow _ _ Hs); unfold handles_left in *; lia).
  destruct (IH Hb0) as (Hv & Hl & Hc). split_and!; [by apply (held_step s s' Hs (local_free s Hl))|by apply (node_local_step s)|by apply (close_step s)].
Qed.

(** A close that has returned stays so. *)
Lemma node_closed_stays (s s' : node) c l : rtc node_step s s' -> node_closes s !! c = Some (l, KClosed) -> node_closes s' !! c = Some (l, KClosed).
Proof.
  induction 1 as [|s s1 s' Hs _ IH]; [done|]. intros Hc. apply IH.
  assert (forall c' l' x y, node_closes s !! c' = Some (l', x) -> x <> KClosed -> <[c' := (l', y)]> (node_closes s) !! c = Some (l, KClosed)) as Hmv
    by (intros c' l' x y Hc' Hx; rewrite list_lookup_insert_ne; [done|]; intros ->; congruence).
  destruct Hs; cbn; eauto; [|by apply lookup_app_l_Some|]; unfold create_insert, close_remove; repeat case_match; cbn; eauto.
Qed.

Lemma resolves (s : node) json_string l ep : held_inv s -> local_inv s ->
  node_get_endpoint json_string l s = Ok ep <-> is_Some (handle_map s !! l) /\ exists i, creates s !! i = Some (ep, CDone l).
Proof.
  intros Hv Hl. unfold node_get_endpoint. destruct (handle_map s !! l) as [h|] eqn:E; [|split; [done|by intros [[] _]]].
  destruct (l_map s Hl _ _ E) as (i & e & Hi & Hk). unfold get_endpoint, handle_to_key. rewrite sm_view_get, Hk. split.
  - intros [= ->]. eauto.
  - intros (_ & j & Hj). assert (i = j) as <- by (by eapply (l_inj s Hl _ _ _ _ _ _ l Hi Hj)). congruence.
Qed.

(** C27. Whatever way calls to [create_endpoint] and [close_endpoint] interleave, a
    handle resolves to the endpoint of the one call that returned it until a
    call that closes it removes it, and to no other; two handles never share an
    entry of the registry, and the registry keeps no endpoint that has neither a
    handle nor a call still at work on it (so nothing leaks once all calls have
    returned). *)
Theorem node_handles_exact (json_string : string -> string) (s : node) :
  reachable s -> handles_left s ->
  (forall l ep, node_get_endpoint json_string l s = Ok ep <->
     (exists i, creates s !! i = Some (ep, CDone l)) /\ ~ exists c x, node_closes s !! c = Some (l, x) /\ removed x) /\
  (forall i j ep ep' l, creates s !! i = Some (ep, CDone l) -> creates s !! j = Some (ep', CDone l) -> i = j) /\
  (forall l l' h, handle_map s !! l = Some h -> handle_map s !! l' = Some h -> l = l') /\
  (forall k, is_Some (sm_view (registry s) !! k) ->
     (exists l, handle_map s !! l = Some (as_ffi k)) \/
     (exists i ep x, creates s !! i = Some (ep, x) /\ create_has x = Some (as_ffi k)) \/
     (exists c l, node_closes s !! c = Some (l, KRemoveReg (as_ffi k)))).
Proof.
  intros Hr Hb. destruct (node_reachable_inv s Hr Hb) as (Hv & Hl & Hc). split_and!.
  - intros l ep. rewrite resolves by done. split.
    + intros [[h Hh] Hi]. split; [done|]. intros (c & x & Hx & Hrm). by rewrite (c_gone s Hc c l x Hx Hrm) in Hh.
    + intros [[i Hi] Hno]. split; [|eauto]. destruct (handle_map s !! l) eqn:E; [done|]. by destruct Hno; apply (c_open s Hc i ep).
  - intros i j ep ep' l Hi Hj. by apply (l_inj s Hl _ _ _ _ _ _ l Hi Hj).
  - intros l l' h Hh Hh'. by injection (v_inj s Hv (ByMap l) (ByMap l') h Hh Hh').
  - intros k [w Hw]%(v_all s Hv). destruct w as [i|l|c]; cbn in Hw; [|by left; exists l|].
    + right; left. destruct (creates s !! i) as [[ep x]|] eqn:E; [|done]. by exists i, ep, x.
    + right; right. destruct (node_closes s !! c) as [[l x]|] eqn:E; [|done]. exists c, l. destruct x; try done. cbn in Hw. by injection Hw as ->.
Qed.

(** Once a call to [close_endpoint] has returned, its handle is refused with
    [INVALID_HANDLE] for good: no endpoint created later gets it. *)
Theorem node_closed_handle_final (json_string : string -> string) (s s' : node) (c : nat) (l : Z) :
  reachable s -> node_closes s !! c = Some (l, KClosed) -> rtc node_step s s' -> handles_left s' ->
  node_get_endpoint json_string l s' = Err (invalid_handle_error json_string l).
Proof.
  intros Hr Hc Hs Hb. destruct (node_reachable_inv s') as (_ & _ & Hv); [unfold reachable; by transitivity s|done|].
  unfold node_get_endpoint. by rewrite (c_gone s' Hv c l KClosed (node_closed_stays s s' c l Hs Hc) I).
Qed.
End props.

(** ** Two endpoints, one closed *)

#[local] Abbreviation demo_node := (NodeState VecMap nat).

Definition demo_node_created : demo_node :=
  create_map 0 7 1 4294967297 (create_map 1 9 2 4294967298 (create_count 1 9 4294967298 (create_count 0 7 4294967297
    (create_insert 1 9 (create_insert 0 7 (set_creates [(7, CInsert); (9, CInsert)] node_new)))))).
Definition demo_node_closed : demo_node :=
  close_remove_reg 0 1 4294967297 (close_remove 0 1 (close_goto 0 1 KRemove (close_registry 0 1 4294967297 (close_lookup 0 1
    (set_node_closes [(1%Z, KLookup)] demo_node_created))))).

Lemma demo_node_created_reached : reachable demo_node_created.
Proof.
  unfold reachable, demo_node_created.
  assert (rtc (node_step (M:=VecMap) (Ep:=nat)) node_new (set_creates [(7, CInsert); (9, CInsert)] node_new)) as Hn.
  { eapply rtc_l; [apply (h_create _ 7)|]. eapply rtc_l; [apply (h_create _ 9)|]. reflexivity. }
  do 6 (eapply rtc_r; [|first [apply h_map; vm_compute; reflexivity | apply h_count; vm_compute; reflexivity | apply h_insert; vm_compute; reflexivity]]).
  exact Hn.
Qed.

Lemma demo_node_close : rtc node_step demo_node_created demo_node_closed.
Proof.
  unfold demo_node_closed. eapply rtc_l; [apply (h_close _ 1)|].
  eapply rtc_l; [apply (h_lookup _ 0 1); vm_compute; reflexivity|].
  eapply rtc_l; [apply (h_registry _ 0 1 4294967297); vm_compute; reflexivity|].
  eapply rtc_l; [apply (h_closed _ 0 1 7); vm_compute; reflexivity|].
  eapply rtc_l; [apply (h_remove _ 0 1); vm_compute; reflexivity|].
  eapply rtc_l; [apply (h_remove_reg _ 0 1 4294967297); vm_compute; reflexivity|]. reflexivity.
Qed.

Lemma demo_node_closed_reached : reachable demo_node_closed.
Proof. unfold reachable. transitivity demo_node_created; [apply demo_node_created_reached|apply demo_node_close]. Qed.

Lemma node_handles_exact_witness :
  node_get_endpoint id 2 demo_node_closed = Ok 9 /\ (forall ep, node_get_endpoint id 1 demo_node_closed <> Ok ep).
Proof.
  destruct (node_handles_exact id demo_node_closed) as (Hr & _); [exact demo_node_closed_reached|vm_compute; reflexivity|].
  split.
  - apply Hr. split; [exists 1; reflexivity|]. intros ([|c] & x & Hx & Hrm); cbn in Hx; [|done]. vm_compute in Hx. congruence.
  - intros ep Hep. apply (proj2 (proj1 (Hr 1%Z ep) Hep)). exists 0, KClosed. split; [vm_compute; reflexivity|done].
Defined.

Lemma node_closed_handle_final_witness :
  node_get_endpoint id 1 (create_insert 2 5 (set_creates (creates demo_node_closed ++ [(5, CInsert)]) demo_node_closed)) = Err (invalid_handle_error id 1).
Proof.
  apply (node_closed_handle_final id demo_node_closed _ 0 1); [exact demo_node_closed_reached|vm_compute; reflexivity| |vm_compute; reflexivity].
  eapply rtc_l; [apply (h_create _ 5)|]. eapply rtc_l; [apply (h_insert _ 2 5); vm_compute; reflexivity|]. reflexivity.
Defined.
