(* ===== verification/HostCalls.v ===== *)
(** * Calls of the Tauri and Node bindings on an endpoint

    The Tauri commands (iroh-http-tauri/src/commands.rs) and the napi functions
    (iroh-http-node/src/lib.rs) on the handle store of an endpoint: bodies, fetch
    tokens, responses, fetch preparation and sessions.  A Tauri command fails with
    a text, a napi function with a status and a text.  Values are those of the
    Deno handlers; what the network answers is an argument. *)

From stdpp Require Import base numbers list strings gmap fin_maps pretty.
From Stdlib Require Import ZArith Lia.
From S2P Require Import Prelude Errors Extern Net BodyChannel Handles Dispatcher Addr HostAdapter Sessions Text IpText DenoServe DenoCall DiscoveryRegistry DenoDispatch EndpointBind EndpointCreate NodeHandles.

Open Scope string_scope.
Open Scope list_scope.

(** The answer to a read: a byte that says whether there is a chunk, and the chunk. *)
Definition framed (chunk : option Bytes) : Bytes :=
  match chunk with Some bytes => Byte.x01 :: bytes | None => [Byte.x00] end.

(** [tauri::ipc::InvokeBody]: a JSON value that is a string, or another one. *)
Inductive InvokeBody := BodyRaw (data : Bytes) | BodyJson (text : option string).

(** [as u32]. *)
Definition as_u32 (n : Z) : Z := (n mod 2 ^ 32)%Z.

(** [{:?}] of an error code, and [Display] of a core error. *)
Definition code_debug (c : ErrorCode) : string :=
  match c with
  | InvalidInput => "InvalidInput" | ConnectionFailed => "ConnectionFailed" | Timeout => "Timeout" | BodyTooLarge => "BodyTooLarge"
  | HeaderTooLarge => "HeaderTooLarge" | PeerRejected => "PeerRejected" | Cancelled => "Cancelled" | Internal => "Internal"
  end.
Definition core_display (e : CoreError) : string := code_debug (code e) +:+ ": " +:+ message e.

(** ** Node's own checks *)

Inductive FfiError :=
| FfiInputTooLarge (field : string) (max got : Z)
| FfiInvalidEncoding (field : string)
| FfiInvalidArgument (field reason : string)
| FfiInternalLock (resource : string).
Definition ffi_code (e : FfiError) : string :=
  match e with
  | FfiInputTooLarge _ _ _ => "INPUT_TOO_LARGE"
  | FfiInvalidEncoding _ => "INVALID_ENCODING"
  | FfiInvalidArgument _ _ => "INVALID_ARGUMENT"
  | FfiInternalLock _ => "INTERNAL_LOCK"
  end.
Definition ffi_message (e : FfiError) : string :=
  match e with
  | FfiInputTooLarge field max got => field +:+ " exceeds max size " +:+ pretty max +:+ " (got " +:+ pretty got +:+ ")"
  | FfiInvalidEncoding field => field +:+ " contains invalid encoding"
  | FfiInvalidArgument field reason => field +:+ ": " +:+ reason
  | FfiInternalLock resource => "internal lock for " +:+ resource +:+ " is poisoned"
  end.
Definition ffi_bounded_string (field value : string) (max_len : Z) : Result unit FfiError :=
  if (str_len value =? 0)%Z then Err (FfiInvalidArgument field "must not be empty")
  else if (max_len <? str_len value)%Z then Err (FfiInputTooLarge field max_len (str_len value))
  else if contains_zero value then Err (FfiInvalidEncoding field)
  else Ok tt.
Definition NODE_MAX_URL_LEN : Z := 8192.
Definition ffi_invalid_arg (json_string : string -> string) {A} (e : FfiError) : Napi A :=
  Err (InvalidArg, format_error_json json_string (ffi_code e) (ffi_message e)).

Section calls.
Context {K : Type} {M : Type -> Type} `{SlotMap K M} {C : Type -> Type} `{Mpsc C}.
Context {Id Relay : Type} `{IrohNet Id Relay}.
Context (json_parse : string -> option NodeAddrInfo) (debug_str : string -> string) (json_string : string -> string).
Context (show_f64 : f64 -> string) (addr_error : string -> string).
Context (utf8_lossy : Bytes -> string) (conn_error_text : ConnectionError -> string).
Context (status_ok : Z -> bool) (header_name_ok header_value_ok : string -> bool).
Context (b64_encode : Bytes -> string) (b64_decode : string -> Result Bytes string).

#[local] Abbreviation world := (World M C).
#[local] Abbreviation ffi := (@Ffi M C).
#[local] Abbreviation respond' := (respond status_ok header_name_ok header_value_ok debug_str).

(** The value of a core call, its error rendered by [g]. *)
Definition answer_with {A B E} (g : CoreError -> E) (f : A -> B) (r : Result A CoreError) : Result B E :=
  match r with Ok v => Ok (f v) | Err e => Err (g e) end.

(** ** Tauri *)

#[local] Abbreviation Cmd A := (Result A string).
#[local] Abbreviation tauri_core := (answer_with (core_error_to_json json_string)).

Definition tauri_no_endpoint (h : Z) : string := format_error_json json_string "INVALID_HANDLE" ("invalid endpoint handle: " +:+ pretty h).

(** A command on the endpoint it names. *)
Definition tauri_on {A} (eh : Z) (op : world -> Cmd A * list NetCall * world) (s : ffi) : Cmd A * list NetCall * ffi :=
  match lookup_endpoint eh s with
  | None => (Err (tauri_no_endpoint eh), [], s)
  | Some (ep, w) => let '(r, calls, w) := op w in (r, calls, set_world ep w s)
  end.

(** [None]: the read waits. *)
Definition tauri_next_chunk (now eh h : Z) (s : ffi) : option (Cmd Bytes * ffi) :=
  match lookup_endpoint eh s with
  | None => Some (Err (tauri_no_endpoint eh), s)
  | Some (ep, w) =>
      match next_chunk now h w with
      | (Ready r, _, w) => Some (tauri_core framed r, set_world ep w s)
      | (Pending, _, _) => None
      end
  end.
Definition tauri_try_next_chunk (now eh h : Z) (s : ffi) : Cmd Bytes * ffi :=
  match lookup_endpoint eh s with
  | None => (Err (tauri_no_endpoint eh), s)
  | Some (ep, w) => let '(r, w) := try_next_chunk now h w in (tauri_core framed r, set_world ep w s)
  end.

(** The headers and the body of the IPC request; a header is [None] when it is
    missing or not text.  [None] of the result: out of fuel. *)
Definition tauri_send_chunk (now : Z) (ep_header handle_header : option string) (body : InvokeBody)
  (envs : list (list EnvAct * list EnvAct)) (s : ffi) : option (Cmd unit * list Bytes * ffi) :=
  match ep_header ≫= parse_u64 with
  | None => Some (Err (format_error_json json_string "INVALID_INPUT" "missing or invalid iroh-ep header"), [], s)
  | Some eh =>
      match handle_header ≫= parse_u64 with
      | None => Some (Err (format_error_json json_string "INVALID_INPUT" "missing or invalid iroh-handle header"), [], s)
      | Some h =>
          match lookup_endpoint eh s with
          | None => Some (Err (tauri_no_endpoint eh), [], s)
          | Some (ep, w) =>
              match (match body with
                     | BodyRaw data => Ok data
                     | BodyJson (Some b64) =>
                         match b64_decode b64 with
                         | Ok decoded => Ok decoded
                         | Err e => Err (format_error_json json_string "INVALID_INPUT" ("base64 decode: " +:+ e))
                         end
                     | BodyJson None => Err (format_error_json json_string "INVALID_INPUT" "expected raw binary body or base64 string")
                     end) with
              | Err e => Some (Err e, [], s)
              | Ok bytes => '(r, got, w) ← send_chunk now h bytes envs w; Some (tauri_core (fun _ => tt) r, got, set_world ep w s)
              end
          end
      end
  end.

Definition tauri_finish_body (eh h : Z) : ffi -> Cmd Reply * list NetCall * ffi :=
  tauri_on eh (fun w => let '(r, w) := finish_body h w in (tauri_core (fun _ => VEmpty) r, [], w)).
Definition tauri_cancel_request (eh h : Z) : ffi -> Cmd Reply * list NetCall * ffi :=
  tauri_on eh (fun w => (Ok VEmpty, [], cancel_reader h w)).
Definition tauri_create_body_writer (now eh : Z) : ffi -> Cmd Reply * list NetCall * ffi :=
  tauri_on eh (fun w =>
    match alloc_body_writer now w with
    | (Err e, w) => (Err (core_error_to_json json_string e), [], w)
    | (Ok (handle, reader), w) => (Ok (VHandle handle), [], store_pending_reader now handle reader w)
    end).
Definition tauri_create_fetch_token (now eh : Z) : ffi -> Cmd Reply * list NetCall * ffi :=
  tauri_on eh (fun w => let '(r, w) := alloc_fetch_token now w in (tauri_core VToken r, [], w)).
Definition tauri_cancel_in_flight (eh token : Z) : ffi -> Cmd Reply * list NetCall * ffi :=
  tauri_on eh (fun w => (Ok VEmpty, [], cancel_in_flight token w)).

(** [respond_to_request]. *)
Definition tauri_respond (eh req status : Z) (headers : list (list string)) : ffi -> Cmd Reply * list NetCall * ffi :=
  tauri_on eh (fun w =>
    match validate_header_rows headers with
    | Err e => (Err (adapter_to_json json_string e), [], w)
    | Ok headers => let '(r, w) := respond' req status headers w in (tauri_core (fun _ => VEmpty) r, [], w)
    end).

(** [fetch] up to the call of the core: what that is called with. *)
Definition tauri_fetch_prepare (args : RawFetchPayload) (s : ffi) : Cmd (nat * FetchCall) * ffi :=
  match lookup_endpoint (rf_endpoint args) s with
  | None => (Err (tauri_no_endpoint (rf_endpoint args)), s)
  | Some (ep, w) =>
      match coerce_fetch_options show_f64 (rf_options args) with
      | Err e => (Err (adapter_to_json json_string e), s)
      | Ok opts =>
          let '(reader, w) := match rf_req_body_handle args with Some h => claim_pending_reader h w | None => (None, w) end in
          match parse_direct_addrs debug_str addr_error (fo_direct_addrs opts) with
          | Err e => (Err e, set_world ep (match reader with Some r => drop_reader r w | None => w end) s)
          | Ok addrs => (Ok (ep, mkFetchCall opts reader addrs (rf_fetch_token args) (default true (rf_decompress args))), set_world ep w s)
          end
      end
  end.

(** The addresses of [session_connect]: the first that is none ends the command. *)
Fixpoint tauri_addrs (v : list string) : Cmd (list SocketAddr) :=
  match v with
  | [] => Ok []
  | s :: v =>
      match sock_parse s with
      | Some a => match tauri_addrs v with Ok l => Ok (a :: l) | Err e => Err e end
      | None => Err (format_error_json json_string "INVALID_INPUT" ("invalid socket address " +:+ debug_str s))
      end
  end.
Definition tauri_session_connect (now eh : Z) (node_id : string) (direct_addrs : option (list string))
  (dial : Id * list Relay * list SocketAddr -> Result nat string) : ffi -> Cmd Reply * list NetCall * ffi :=
  tauri_on eh (fun w =>
    match (match direct_addrs with None => Ok None | Some v => match tauri_addrs v with Ok l => Ok (Some l) | Err e => Err e end end) with
    | Err e => (Err e, [], w)
    | Ok addrs => let '(r, w) := connect json_parse now dial node_id addrs w in (tauri_core VSession r, [], w)
    end).
Definition tauri_session_accept (now eh : Z) (incoming : option (Result (nat * Bytes) string)) (remote_id : Z -> string)
  : ffi -> Cmd Reply * list NetCall * ffi :=
  tauri_on eh (fun w =>
    let '(r, calls, w) := accept debug_str utf8_lossy now incoming w in
    (tauri_core (fun o => match o with None => VNull | Some h => VAccepted h (remote_id h) end) r, calls, w)).

Definition tauri_create_bidi (now eh h : Z) (open_bi : Result unit string) : ffi -> Cmd Reply * list NetCall * ffi :=
  tauri_on eh (fun w => let '(r, calls, w) := create_bidi_stream now h open_bi w in (tauri_core VDuplex r, calls, w)).
Definition tauri_next_bidi (now eh h : Z) (accept_bi : Result unit ConnectionError) : ffi -> Cmd Reply * list NetCall * ffi :=
  tauri_on eh (fun w => let '(r, calls, w) := next_bidi_stream conn_error_text now h accept_bi w in
    (tauri_core (fun o => match o with Some d => VDuplex d | None => VNull end) r, calls, w)).
Definition tauri_create_uni (now eh h : Z) (open_uni : Result unit string) : ffi -> Cmd Reply * list NetCall * ffi :=
  tauri_on eh (fun w => let '(r, calls, w) := create_uni_stream now h open_uni w in (tauri_core VWrite r, calls, w)).
Definition tauri_next_uni (now eh h : Z) (accept_uni : Result unit ConnectionError) : ffi -> Cmd Reply * list NetCall * ffi :=
  tauri_on eh (fun w => let '(r, calls, w) := next_uni_stream conn_error_text now h accept_uni w in
    (tauri_core (fun o => match o with Some h => VRead h | None => VNull end) r, calls, w)).

Definition tauri_session_close (eh h : Z) (close_code : option Z) (reason : option string) : ffi -> Cmd Reply * list NetCall * ffi :=
  tauri_on eh (fun w => let '(r, calls) := close h (default 0%Z close_code) (default "" reason) w in (tauri_core (fun _ => VEmpty) r, calls, w)).
Definition tauri_session_closed (eh h : Z) (reason : ConnectionError) : ffi -> Cmd Reply * list NetCall * ffi :=
  tauri_on eh (fun w =>
    match closed_start h w with
    | inr i => (Ok (VClosed i), [], w)
    | inl _ => let '(i, w) := closed_finish utf8_lossy conn_error_text h reason w in (Ok (VClosed i), [], w)
    end).

(** The text of a datagram that is not base64 is refused without an envelope. *)
Definition tauri_send_datagram (eh h : Z) (data : string) (sent : Result unit SendDatagramError) : ffi -> Cmd Reply * list NetCall * ffi :=
  tauri_on eh (fun w =>
    match b64_decode data with
    | Err e => (Err ("base64 decode: " +:+ e), [], w)
    | Ok bytes => let '(r, calls) := send_datagram h bytes sent w in (tauri_core (fun _ => VEmpty) r, calls, w)
    end).
Definition tauri_recv_datagram (eh h : Z) (read : Result Bytes ConnectionError) : ffi -> Cmd Reply * list NetCall * ffi :=
  tauri_on eh (fun w =>
    (tauri_core (fun o => match o with Some b => VData (b64_encode b) | None => VNull end) (recv_datagram conn_error_text h read w), [], w)).
Definition tauri_max_datagram_size (eh h : Z) (conn_max : nat -> option Z) : ffi -> Cmd Reply * list NetCall * ffi :=
  tauri_on eh (fun w => (tauri_core (fun o => VMaxSize (as_u32 <$> o)) (max_datagram_size h conn_max w), [], w)).

(** ** Node *)

Section node_calls.
(** napi's [BigInt] and its [get_u64]: sign, value, and whether the value is exact. *)
Context {BigInt : Type} (get_u64 : BigInt -> bool * Z * bool).
(** The local handles. *)
Context (locals : gmap Z Z).

#[local] Abbreviation node_core := (answer_with (fun e => (GenericFailure, core_error_to_json json_string e))).
Definition node_adapter {A} (e : AdapterInputError) : Napi A := Err (InvalidArg, adapter_to_json json_string e).

Definition get_handle (big : BigInt) : Napi Z :=
  let '(_, val, lossless) := get_u64 big in
  if negb lossless then Err (InvalidArg, format_error_json json_string "INVALID_INPUT" "handle value is out of u64 range") else Ok val.

Definition lookup_node (eh : Z) (s : ffi) : option (nat * world) := locals !! eh ≫= fun h => lookup_endpoint h s.

Definition node_on {A} (eh : Z) (op : world -> Napi A * list NetCall * world) (s : ffi) : Napi A * list NetCall * ffi :=
  match lookup_node eh s with
  | None => (Err (invalid_handle_error json_string eh), [], s)
  | Some (ep, w) => let '(r, calls, w) := op w in (r, calls, set_world ep w s)
  end.
(** ... with a handle. *)
Definition with_handle {A} (h : BigInt) (op : Z -> world -> Napi A * list NetCall * world) (w : world) : Napi A * list NetCall * world :=
  match get_handle h with Err e => (Err e, [], w) | Ok h => op h w end.

(** [js_next_chunk]; [None]: the read waits. *)
Definition js_next_chunk (now eh : Z) (h : BigInt) (s : ffi) : option (Napi (option Bytes) * ffi) :=
  match lookup_node eh s with
  | None => Some (Err (invalid_handle_error json_string eh), s)
  | Some (ep, w) =>
      match get_handle h with
      | Err e => Some (Err e, s)
      | Ok h =>
          match next_chunk now h w with
          | (Ready r, _, w) => Some (node_core id r, set_world ep w s)
          | (Pending, _, _) => None
          end
      end
  end.
Definition js_try_next_chunk (now eh : Z) (h : BigInt) (s : ffi) : Napi (option Bytes) * list NetCall * ffi :=
  node_on eh (with_handle h (fun h w => let '(r, w) := try_next_chunk now h w in (node_core id r, [], w))) s.
Definition js_send_chunk (now eh : Z) (h : BigInt) (chunk : Bytes) (envs : list (list EnvAct * list EnvAct)) (s : ffi)
  : option (Napi unit * list Bytes * ffi) :=
  match lookup_node eh s with
  | None => Some (Err (invalid_handle_error json_string eh), [], s)
  | Some (ep, w) =>
      match get_handle h with
      | Err e => Some (Err e, [], s)
      | Ok h => '(r, got, w) ← send_chunk now h chunk envs w; Some (node_core (fun _ => tt) r, got, set_world ep w s)
      end
  end.

Definition js_finish_body (eh : Z) (h : BigInt) : ffi -> Napi Reply * list NetCall * ffi :=
  node_on eh (with_handle h (fun h w => let '(r, w) := finish_body h w in (node_core (fun _ => VEmpty) r, [], w))).
Definition js_cancel_request (eh : Z) (h : BigInt) : ffi -> Napi Reply * list NetCall * ffi :=
  node_on eh (with_handle h (fun h w => (Ok VEmpty, [], cancel_reader h w))).
Definition js_alloc_body_writer (now eh : Z) : ffi -> Napi Reply * list NetCall * ffi :=
  node_on eh (fun w =>
    match alloc_body_writer now w with
    | (Err e, w) => (Err (GenericFailure, core_error_to_json json_string e), [], w)
    | (Ok (handle, reader), w) => (Ok (VHandle handle), [], store_pending_reader now handle reader w)
    end).
Definition js_alloc_fetch_token (now eh : Z) : ffi -> Napi Reply * list NetCall * ffi :=
  node_on eh (fun w => let '(r, w) := alloc_fetch_token now w in (node_core VToken r, [], w)).
Definition js_cancel_in_flight (eh : Z) (token : BigInt) : ffi -> Napi Reply * list NetCall * ffi :=
  node_on eh (with_handle token (fun t w => (Ok VEmpty, [], cancel_in_flight t w))).

(** The error of the core is rendered with [Display], not as an envelope. *)
Definition raw_respond (eh : Z) (req : BigInt) (status : Z) (headers : list (list string)) : ffi -> Napi Reply * list NetCall * ffi :=
  node_on eh (fun w =>
    match validate_header_rows headers with
    | Err e => (node_adapter e, [], w)
    | Ok headers =>
        with_handle req (fun req w =>
          let '(r, w) := respond' req (as_u16 status) headers w in
          (answer_with (fun e => (GenericFailure, core_display e)) (fun _ => VEmpty) r, [], w)) w
    end).

(** [raw_fetch] up to the call of the core. *)
Definition node_fetch_prepare (eh : Z) (options : RawFetchOptions) (req_body_handle : option BigInt) (fetch_token : BigInt) (decompress : option bool) (s : ffi)
  : Napi (nat * FetchCall) * ffi :=
  match lookup_node eh s with
  | None => (Err (invalid_handle_error json_string eh), s)
  | Some (ep, w) =>
      match coerce_fetch_options show_f64 options with
      | Err e => (node_adapter e, s)
      | Ok opts =>
          match (match req_body_handle with None => Ok None | Some big => match get_handle big with Ok h => Ok (Some h) | Err e => Err e end end) with
          | Err e => (Err e, s)
          | Ok body =>
              let '(reader, w) := match body with Some h => claim_pending_reader h w | None => (None, w) end in
              let dropped := set_world ep (match reader with Some r => drop_reader r w | None => w end) s in
              match parse_direct_addrs debug_str addr_error (fo_direct_addrs opts) with
              | Err e => (Err (InvalidArg, e), dropped)
              | Ok addrs =>
                  match get_handle fetch_token with
                  | Err e => (Err e, dropped)
                  | Ok token => (Ok (ep, mkFetchCall opts reader addrs (Some token) (default true decompress)), set_world ep w s)
                  end
              end
          end
      end
  end.

Definition node_session_connect (now eh : Z) (node_id : string) (direct_addrs : option (list string))
  (dial : Id * list Relay * list SocketAddr -> Result nat string) : ffi -> Napi Reply * list NetCall * ffi :=
  node_on eh (fun w =>
    match validate_node_id node_id with
    | Err e => (node_adapter e, [], w)
    | Ok _ =>
        match validate_direct_addrs direct_addrs with
        | Err e => (node_adapter e, [], w)
        | Ok _ =>
            match parse_direct_addrs debug_str addr_error direct_addrs with
            | Err e => (Err (InvalidArg, e), [], w)
            | Ok addrs => let '(r, w) := connect json_parse now dial node_id addrs w in (node_core VSession r, [], w)
            end
        end
    end).
Definition node_session_accept (now eh : Z) (incoming : option (Result (nat * Bytes) string)) (remote_id : Z -> string)
  : ffi -> Napi Reply * list NetCall * ffi :=
  node_on eh (fun w =>
    let '(r, calls, w) := accept debug_str utf8_lossy now incoming w in
    (node_core (fun o => match o with None => VNull | Some h => VAccepted h (remote_id h) end) r, calls, w)).
Definition node_create_bidi (now eh : Z) (h : BigInt) (open_bi : Result unit string) : ffi -> Napi Reply * list NetCall * ffi :=
  node_on eh (with_handle h (fun h w => let '(r, calls, w) := create_bidi_stream now h open_bi w in (node_core VDuplex r, calls, w))).
Definition node_next_bidi (now eh : Z) (h : BigInt) (accept_bi : Result unit ConnectionError) : ffi -> Napi Reply * list NetCall * ffi :=
  node_on eh (with_handle h (fun h w => let '(r, calls, w) := next_bidi_stream conn_error_text now h accept_bi w in
    (node_core (fun o => match o with Some d => VDuplex d | None => VNull end) r, calls, w))).
Definition node_create_uni (now eh : Z) (h : BigInt) (open_uni : Result unit string) : ffi -> Napi Reply * list NetCall * ffi :=
  node_on eh (with_handle h (fun h w => let '(r, calls, w) := create_uni_stream now h open_uni w in (node_core VWrite r, calls, w))).
Definition node_next_uni (now eh : Z) (h : BigInt) (accept_uni : Result unit ConnectionError) : ffi -> Napi Reply * list NetCall * ffi :=
  node_on eh (with_handle h (fun h w => let '(r, calls, w) := next_uni_stream conn_error_text now h accept_uni w in
    (node_core (fun o => match o with Some h => VRead h | None => VNull end) r, calls, w))).

Definition session_close_handle (eh : Z) (h : BigInt) (close_code : option BigInt) (reason : option string) : ffi -> Napi Reply * list NetCall * ffi :=
  node_on eh (fun w =>
    match (match close_code with None => Ok 0%Z | Some big => get_handle big end) with
    | Err e => (Err e, [], w)
    | Ok code =>
        match (match reason with None => Ok tt | Some reason => ffi_bounded_string "reason" reason NODE_MAX_URL_LEN end) with
        | Err e => (ffi_invalid_arg json_string e, [], w)
        | Ok _ => with_handle h (fun h w => let '(r, calls) := close h code (default "" reason) w in (node_core (fun _ => VEmpty) r, calls, w)) w
        end
    end).
Definition node_session_closed (eh : Z) (h : BigInt) (reason : ConnectionError) : ffi -> Napi Reply * list NetCall * ffi :=
  node_on eh (with_handle h (fun h w =>
    match closed_start h w with
    | inr i => (Ok (VClosed i), [], w)
    | inl _ => let '(i, w) := closed_finish utf8_lossy conn_error_text h reason w in (Ok (VClosed i), [], w)
    end)).
Definition node_send_datagram (eh : Z) (h : BigInt) (data : Bytes) (sent : Result unit SendDatagramError) : ffi -> Napi Reply * list NetCall * ffi :=
  node_on eh (with_handle h (fun h w => let '(r, calls) := send_datagram h data sent w in (node_core (fun _ => VEmpty) r, calls, w))).
Definition node_recv_datagram (eh : Z) (h : BigInt) (read : Result Bytes ConnectionError) : ffi -> Napi (option Bytes) * list NetCall * ffi :=
  node_on eh (with_handle h (fun h w => (node_core id (recv_datagram conn_error_text h read w), [], w))).
Definition node_max_datagram_size (eh : Z) (h : BigInt) (conn_max : nat -> option Z) : ffi -> Napi Reply * list NetCall * ffi :=
  node_on eh (with_handle h (fun h w => (node_core (fun o => VMaxSize (as_u32 <$> o)) (max_datagram_size h conn_max w), [], w))).
End node_calls.
End calls.
