(* ===== verification/HostCallsProps.v ===== *)
(** * The bindings agree

    A call through Deno, Tauri or Node does the same to the stores and to the
    network and gets the same answer, on the arguments that all three accept. *)

From stdpp Require Import base numbers list strings gmap fin_maps pretty.
From Stdlib Require Import ZArith Lia Strings.String Strings.Ascii.
From S2P Require Import Prelude Errors Extern Net BodyChannel Handles HandlesFacts Dispatcher Addr HostAdapter Sessions IpText DenoServe DenoCall DiscoveryRegistry DenoDispatch DenoDispatchProps EndpointBind EndpointCreate NodeHandles HostCalls.

Open Scope string_scope.
Open Scope list_scope.

#[local] Opaque make_body_channel.

(** A call on an endpoint, with what it is answered by the network. *)
Inductive HostCall {Id Relay : Type} :=
| HAllocBodyWriter
| HAllocFetchToken
| HCancelInFlight (token : Z)
| HFinishBody (h : Z)
| HCancelRequest (h : Z)
| HRespond (req status : Z) (headers : list (list string))
| HAccept (incoming : option (Result (nat * Bytes) string)) (remote_id : Z -> string)
| HConnect (node_id : string) (addrs : option (list string)) (dial : Id * list Relay * list SocketAddr -> Result nat string)
| HCreateBidi (h : Z) (open_bi : Result unit string)
| HNextBidi (h : Z) (accept_bi : Result unit ConnectionError)
| HCreateUni (h : Z) (open_uni : Result unit string)
| HNextUni (h : Z) (accept_uni : Result unit ConnectionError)
| HClose (h : Z) (close_code : option Z) (reason : option string)
| HClosed (h : Z) (reason : ConnectionError)
| HSendDatagram (h : Z) (data : Bytes) (sent : Result unit SendDatagramError)
| HRecvDatagram (h : Z) (read : Result Bytes ConnectionError)
| HMaxDatagramSize (h : Z) (conn_max : nat -> option Z).
Arguments HostCall : clear implicits.

(** The handles and numbers of a call. *)
Definition call_numbers {Id Relay} (c : HostCall Id Relay) : list Z :=
  match c with
  | HAllocBodyWriter | HAllocFetchToken | HAccept _ _ | HConnect _ _ _ => []
  | HCancelInFlight h | HFinishBody h | HCancelRequest h | HRespond h _ _ | HCreateBidi h _ | HNextBidi h _ | HCreateUni h _
  | HNextUni h _ | HClosed h _ | HSendDatagram h _ _ | HRecvDatagram h _ | HMaxDatagramSize h _ => [h]
  | HClose h code _ => h :: option_list code
  end.

Section agree.
Context {K : Type} {M : Type -> Type} `{SL : SlotMapLaws K M} {C : Type -> Type} `{ML : Mpsc C}.
Context {Id Relay : Type} `{IrohNet Id Relay}.
Context (json_parse : string -> option NodeAddrInfo) (debug_str : string -> string) (json_string : string -> string).
Context (show_f64 : f64 -> string) (addr_error : string -> string).
Context (utf8_lossy : Bytes -> string) (conn_error_text : ConnectionError -> string).
Context (status_ok : Z -> bool) (header_name_ok header_value_ok : string -> bool).
Context (b64_encode : Bytes -> string) (b64_decode : string -> Result Bytes string).
Context {BigInt : Type} (get_u64 : BigInt -> bool * Z * bool) (big : Z -> BigInt).

#[local] Abbreviation world := (World M C).
#[local] Abbreviation ffi := (@Ffi M C).
#[local] Abbreviation table := (dispatch_store_rows json_parse debug_str addr_error utf8_lossy conn_error_text
  status_ok header_name_ok header_value_ok b64_encode b64_decode).
#[local] Abbreviation call := (HostCall Id Relay).

(** ** The same call in each binding *)

Definition deno_call (h : Z) (c : call) : Request Id Relay :=
  match c with
  | HAllocBodyWriter => AllocBodyWriter (Some h)
  | HAllocFetchToken => AllocFetchToken (Some h)
  | HCancelInFlight t => CancelInFlight (Some h) (Some t)
  | HFinishBody b => FinishBody (Some h) (Some b)
  | HCancelRequest b => CancelRequest (Some h) (Some b)
  | HRespond req status headers => Respond (Some h) (Ok (mkRespondPayload req status headers))
  | HAccept incoming remote_id => SessionAccept (Ok h) incoming remote_id
  | HConnect node_id addrs dial => SessionConnect (Ok (mkSessionConnect h node_id addrs)) dial
  | HCreateBidi b o => SessionCreateBidi (Ok (mkSessionEndpoint h b)) o
  | HNextBidi b o => SessionNextBidi (Ok (mkSessionEndpoint h b)) o
  | HCreateUni b o => SessionCreateUni (Ok (mkSessionEndpoint h b)) o
  | HNextUni b o => SessionNextUni (Ok (mkSessionEndpoint h b)) o
  | HClose b code reason => SessionClose (Ok (mkSessionClose h b code reason))
  | HClosed b reason => SessionClosed (Ok (mkSessionEndpoint h b)) reason
  | HSendDatagram b data sent => SessionSendDatagram (Ok (mkSessionDatagram h b (b64_encode data))) sent
  | HRecvDatagram b read => SessionRecvDatagram (Ok (mkSessionEndpoint h b)) read
  | HMaxDatagramSize b m => SessionMaxDatagramSize (Ok (mkSessionEndpoint h b)) m
  end.

Definition tauri_call (now h : Z) (c : call) : ffi -> Result Reply string * list NetCall * ffi :=
  match c with
  | HAllocBodyWriter => tauri_create_body_writer json_string now h
  | HAllocFetchToken => tauri_create_fetch_token json_string now h
  | HCancelInFlight t => tauri_cancel_in_flight json_string h t
  | HFinishBody b => tauri_finish_body json_string h b
  | HCancelRequest b => tauri_cancel_request json_string h b
  | HRespond req status headers => tauri_respond debug_str json_string status_ok header_name_ok header_value_ok h req status headers
  | HAccept incoming remote_id => tauri_session_accept debug_str json_string utf8_lossy now h incoming remote_id
  | HConnect node_id addrs dial => tauri_session_connect json_parse debug_str json_string now h node_id addrs dial
  | HCreateBidi b o => tauri_create_bidi json_string now h b o
  | HNextBidi b o => tauri_next_bidi json_string conn_error_text now h b o
  | HCreateUni b o => tauri_create_uni json_string now h b o
  | HNextUni b o => tauri_next_uni json_string conn_error_text now h b o
  | HClose b code reason => tauri_session_close json_string h b code reason
  | HClosed b reason => tauri_session_closed json_string utf8_lossy conn_error_text h b reason
  | HSendDatagram b data sent => tauri_send_datagram json_string b64_decode h b (b64_encode data) sent
  | HRecvDatagram b read => tauri_recv_datagram json_string conn_error_text b64_encode h b read
  | HMaxDatagramSize b m => tauri_max_datagram_size json_string h b m
  end.

Definition datagram_reply (r : Napi (option Bytes)) : Napi Reply :=
  match r with Ok (Some b) => Ok (VData (b64_encode b)) | Ok None => Ok VNull | Err e => Err e end.

Definition node_call (locals : gmap Z Z) (now l : Z) (c : call) : ffi -> Napi Reply * list NetCall * ffi :=
  match c with
  | HAllocBodyWriter => js_alloc_body_writer json_string locals now l
  | HAllocFetchToken => js_alloc_fetch_token json_string locals now l
  | HCancelInFlight t => js_cancel_in_flight json_string get_u64 locals l (big t)
  | HFinishBody b => js_finish_body json_string get_u64 locals l (big b)
  | HCancelRequest b => js_cancel_request json_string get_u64 locals l (big b)
  | HRespond req status headers => raw_respond debug_str json_string status_ok header_name_ok header_value_ok get_u64 locals l (big req) status headers
  | HAccept incoming remote_id => node_session_accept debug_str json_string utf8_lossy locals now l incoming remote_id
  | HConnect node_id addrs dial => node_session_connect json_parse debug_str json_string addr_error locals now l node_id addrs dial
  | HCreateBidi b o => node_create_bidi json_string get_u64 locals now l (big b) o
  | HNextBidi b o => node_next_bidi json_string conn_error_text get_u64 locals now l (big b) o
  | HCreateUni b o => node_create_uni json_string get_u64 locals now l (big b) o
  | HNextUni b o => node_next_uni json_string conn_error_text get_u64 locals now l (big b) o
  | HClose b code reason => session_close_handle json_string get_u64 locals l (big b) (big <$> code) reason
  | HClosed b reason => node_session_closed json_string utf8_lossy conn_error_text get_u64 locals l (big b) reason
  | HSendDatagram b data sent => node_send_datagram json_string get_u64 locals l (big b) data sent
  | HRecvDatagram b read => fun s =>
      let '(r, calls, s) := node_recv_datagram json_string conn_error_text get_u64 locals l (big b) read s in (datagram_reply r, calls, s)
  | HMaxDatagramSize b m => node_max_datagram_size json_string get_u64 locals l (big b) m
  end.

(** What all three accept: numbers of 64 bits, a status of 16, an id and
    addresses that are readable and not too long, a reason that is neither empty
    nor over 8192 bytes, a datagram size of 32 bits. *)
Definition call_ok (c : call) : Prop :=
  Forall is_u64 (call_numbers c) /\
  match c with
  | HRespond _ status _ => (0 <= status < 2 ^ 16)%Z
  | HConnect node_id addrs _ =>
      validate_node_id node_id = Ok tt /\ validate_direct_addrs addrs = Ok tt /\ is_ok (parse_direct_addrs debug_str addr_error addrs) = true
  | HClose _ _ (Some reason) => is_ok (ffi_bounded_string "reason" reason NODE_MAX_URL_LEN) = true
  | HMaxDatagramSize _ m => forall conn n, m conn = Some n -> (0 <= n < 2 ^ 32)%Z
  | _ => True
  end.

(** The core calls whose errors Node renders with [Display]: the answer to a
    request, once its headers are accepted. *)
Definition node_displays (c : call) : bool :=
  match c with HRespond _ _ headers => is_ok (validate_header_rows headers) | _ => false end.

(** The answers to a call: the same value, or an error whose code and message
    Tauri and Node carry as the envelope; where Node displays the error, its text
    is the name of the error's variant and the message instead. *)
Definition same_answer (c : call) (d : Answer Reply) (t : Result Reply string) (n : Napi Reply) : Prop :=
  match d with
  | Ok v => t = Ok v /\ n = Ok v
  | Err (code, msg) =>
      let text := format_error_json json_string code msg in
      t = Err text /\
      if node_displays c then exists e : CoreError, code = core_code (Errors.code e) /\ msg = message e /\ n = Err (GenericFailure, core_display e)
      else exists st, n = Err (st, text)
  end.

Lemma same_core {A} (c : call) (f : A -> Reply) (r : Result A CoreError) :
  node_displays c = false ->
  same_answer c (core_answer f r) (answer_with (core_error_to_json json_string) f r)
    (answer_with (fun e => (GenericFailure, core_error_to_json json_string e)) f r).
Proof. intros Hc. destruct r as [v|e]; cbn; [done|]. rewrite Hc. split; [done|]. by eexists. Qed.

Lemma same_displayed {A} (c : call) (f : A -> Reply) (r : Result A CoreError) :
  node_displays c = true ->
  same_answer c (core_answer f r) (answer_with (core_error_to_json json_string) f r)
    (answer_with (fun e => (GenericFailure, core_display e)) f r).
Proof. intros Hc. destruct r as [v|e]; cbn; [done|]. rewrite Hc. split; [done|]. by exists e. Qed.

Lemma tauri_addrs_parsed v l : parse_direct_list debug_str addr_error v = Ok l -> tauri_addrs debug_str json_string v = Ok l.
Proof.
  revert l. induction v as [|s v IH]; intros l; cbn; [done|]. destruct (sock_parse s) as [a|]; [|done].
  destruct (sock_port a =? 0)%Z; [done|]. destruct (parse_direct_list _ _ v) as [out|e]; [|done]. cbn. intros [= <-]. by rewrite (IH out).
Qed.

(** One operation on a world, seen through the three bindings. *)
Definition agree_on (c : call) (d : Answer Reply * list NetCall * world) (t : Result Reply string * list NetCall * world)
  (n : Napi Reply * list NetCall * world) : Prop :=
  let '(rd, cd, wd) := d in let '(rt, ct, wt) := t in let '(rn, cn, wn) := n in
  ct = cd /\ cn = cd /\ wt = wd /\ wn = wd /\ same_answer c rd rt rn.

Lemma agree_lift (c : call) locals (s : ffi) h l ep w (d : world -> Answer Reply * list NetCall * world)
  (t : world -> Result Reply string * list NetCall * world) (n : world -> Napi Reply * list NetCall * world) :
  locals !! l = Some h -> lookup_endpoint h s = Some (ep, w) -> agree_on c (d w) (t w) (n w) ->
  let '(rd, cd, sd) := on_endpoint (Some h) d s in let '(rt, ct, st) := tauri_on json_string h t s in let '(rn, cn, sn) := node_on json_string locals l n s in
  ct = cd /\ cn = cd /\ st = sd /\ sn = sd /\ same_answer c rd rt rn.
Proof.
  intros Hl Hs. unfold agree_on, on_endpoint, require_endpoint, tauri_on, node_on, lookup_node. rewrite Hl. cbn. rewrite Hs.
  destruct (d w) as [[rd cd] wd], (t w) as [[rt ct] wt], (n w) as [[rn cn] wn]. by intros (-> & -> & -> & -> & ?).
Qed.

Hypothesis big_u64 : forall z, is_u64 z -> get_u64 (big z) = (false, z, true).
Hypothesis b64_round : forall b, b64_decode (b64_encode b) = Ok b.

Lemma get_handle_big z : is_u64 z -> get_handle json_string get_u64 (big z) = Ok z.
Proof. intros Hz. unfold get_handle. by rewrite big_u64. Qed.

Lemma with_handle_big {A} z (op : Z -> world -> Napi A * list NetCall * world) (w : world) :
  is_u64 z -> with_handle json_string get_u64 (big z) op w = op z w.
Proof. intros Hz. unfold with_handle. by rewrite get_handle_big. Qed.

(** A call whose only number is a handle. *)
Lemma one_number (c : call) z : call_numbers c = [z] -> Forall is_u64 (call_numbers c) -> is_u64 z.
Proof. intros ->. by rewrite Forall_singleton. Qed.

Lemma as_u32_all (m : option Z) : (forall n, m = Some n -> (0 <= n < 2 ^ 32)%Z) -> as_u32 <$> m = m.
Proof. destruct m as [n|]; [|done]. intros Hn. cbn. unfold as_u32. by rewrite Z.mod_small by (by apply Hn). Qed.

(** C28. Each of the seventeen calls on an endpoint's handles does the same to the
    stores and to the network whichever binding it comes through, and is answered
    the same: the same value, or an error with the same code and message, which
    Tauri and Node carry as one envelope text.  One answer differs: when the core
    refuses a response whose headers were accepted, Node's text is the [Display]
    of the same error, its variant and its message. *)
Theorem host_calls_agree (locals : gmap Z Z) (now h l : Z) (c : call) (s : ffi) :
  locals !! l = Some h -> is_Some (lookup_endpoint h s) -> call_ok c ->
  let '(rd, cd, sd) := table now (deno_call h c) s in
  let '(rt, ct, st) := tauri_call now h c s in
  let '(rn, cn, sn) := node_call locals now l c s in
  ct = cd /\ cn = cd /\ st = sd /\ sn = sd /\ same_answer c rd rt rn.
Proof.
  intros Hl [[ep w] Hs] [Hn Hc].
  assert (forall z, call_numbers c = [z] -> is_u64 z) as Hz by (intros z Hz; by apply (one_number c)).
  destruct c as [| |t|b|b|req status headers|incoming remote_id|node_id addrs dial|b o|b o|b o|b o|b code reason|b reason|b data sent|b read|b m];
    cbn [deno_call dispatch_store_rows tauri_call node_call];
    try (apply (agree_lift _ locals s h l ep w); [done|done|]; unfold agree_on; rewrite ?with_handle_big by (by apply Hz)).
  - destruct (alloc_body_writer now w) as [[[bh reader]|e] w']; [done|]. cbn. split_and!; try done. by eexists.
  - destruct (alloc_fetch_token now w) as [r w']. split_and!; try done. by apply same_core.
  - done.
  - cbn. destruct (finish_body b w) as [r w']. split_and!; try done. by apply same_core.
  - done.
  - cbn. destruct (validate_header_rows headers) as [hs|e] eqn:Ev; [|cbn; rewrite Ev; split_and!; try done; by eexists].
    rewrite with_handle_big by (by apply Hz). unfold as_u16. rewrite Z.mod_small by done. destruct (respond _ _ _ _ _ _ _ _) as [r w']. split_and!; try done.
    apply same_displayed. cbn. by rewrite Ev.
  - destruct (accept _ _ _ _ _) as [[r calls] w']. split_and!; try done. by apply same_core.
  - destruct Hc as (E1 & E2 & E3). rewrite E1, E2. destruct (parse_direct_addrs _ _ addrs) as [l'|e] eqn:E; [|done].
    assert ((match addrs with None => Ok None | Some v => match tauri_addrs debug_str json_string v with Ok l => Ok (Some l) | Err e => Err e end end) = Ok l') as ->.
    { destruct addrs as [v|]; cbn in E; [|by injection E as <-]. destruct (parse_direct_list _ _ v) as [out|] eqn:Ev; [|done].
      cbn in E. injection E as <-. by rewrite (tauri_addrs_parsed v out). }
    cbn. rewrite E. destruct (connect _ _ _ _ _ _) as [r w']. split_and!; try done. by apply same_core.
  - destruct (create_bidi_stream _ _ _ _) as [[r calls] w']. split_and!; try done. by apply same_core.
  - destruct (next_bidi_stream _ _ _ _ _) as [[r calls] w']. split_and!; try done. by apply same_core.
  - destruct (create_uni_stream _ _ _ _) as [[r calls] w']. split_and!; try done. by apply same_core.
  - destruct (next_uni_stream _ _ _ _ _) as [[r calls] w']. split_and!; try done. by apply same_core.
  - pose proof (Forall_inv Hn) as Hb. cbn. assert ((match big <$> code with None => Ok 0%Z | Some x => get_handle json_string get_u64 x end) = Ok (default 0%Z code)) as ->.
    { destruct code as [z|]; [|done]. apply get_handle_big. by eapply Forall_inv, Forall_inv_tail. }
    assert ((match reason with None => Ok tt | Some r => ffi_bounded_string "reason" r NODE_MAX_URL_LEN end) = Ok tt) as ->.
    { destruct reason as [r|]; [|done]. by destruct (ffi_bounded_string _ r _) as [[]|]. }
    rewrite with_handle_big by done. destruct (close _ _ _ _) as [r calls]. split_and!; try done. by apply same_core.
  - cbn. destruct (closed_start b w) as [|i]; [destruct (closed_finish _ _ _ _ _) as [i w']|]; cbn; repeat split.
  - cbn. rewrite b64_round. destruct (send_datagram _ _ _ _) as [r calls]. split_and!; try done. by apply same_core.
  - cbn. unfold on_endpoint, require_endpoint, tauri_recv_datagram, tauri_on, node_recv_datagram, node_on, lookup_node. rewrite Hl. cbn. rewrite Hs, with_handle_big by (by apply Hz).
    destruct (recv_datagram _ _ _ _) as [[d|]|e]; cbn; split_and!; try done. by eexists.
  - assert (forall conn, as_u32 <$> m conn = m conn) as Hm by (intros conn; apply as_u32_all; by apply Hc).
    cbn. unfold max_datagram_size. destruct (session_conn b w) as [conn|e]; cbn; rewrite ?Hm; split_and!; try done. by eexists.
Qed.

(** ** Reading and writing chunks *)

Lemma framed_inj c c' : framed c = framed c' -> c = c'.
Proof. destruct c, c'; cbn; by intros [=]; subst. Qed.

(** A chunk read through any binding is the same chunk, waits or fails alike and
    leaves the same state.  The byte in front keeps Tauri's empty chunk apart
    from the end of the body. *)
Theorem chunk_reads_agree (locals : gmap Z Z) (now h l b : Z) (s : ffi) :
  locals !! l = Some h -> is_Some (lookup_endpoint h s) -> is_u64 b ->
  (forall c c', framed c = framed c' -> c = c') /\
  match next_chunk_dispatch b64_encode now (Some h) (Some b) s, tauri_next_chunk json_string now h b s, js_next_chunk json_string get_u64 locals now l (big b) s with
  | None, None, None => True
  | Some (rd, calls, sd), Some (rt, st), Some (rn, sn) =>
      calls = [] /\ st = sd /\ sn = sd /\
      match rn with
      | Ok c => rt = Ok (framed c) /\ rd = Ok (VChunk (b64_encode <$> c))
      | Err (_, text) => rt = Err text /\ exists code msg, rd = Err (code, msg) /\ text = format_error_json json_string code msg
      end
  | _, _, _ => False
  end.
Proof.
  intros Hl [[ep w] Hs] Hb. split; [apply framed_inj|].
  unfold next_chunk_dispatch, require_endpoint, tauri_next_chunk, js_next_chunk, lookup_node. rewrite Hl. cbn. rewrite Hs, get_handle_big by done.
  destruct (next_chunk now b w) as [[[r|] n] w']; [|done]. destruct r as [c|e]; cbn; split_and!; try done. by eexists _, _.
Qed.

(** ** Preparing a fetch *)

(** The three bindings hand the same request, body and token to the core, and
    refuse alike: the body reader is claimed once, and given up when the
    addresses cannot be read. *)
Theorem fetch_preparations_agree (locals : gmap Z Z) (now h l t : Z) (options : RawFetchOptions) (body : option Z) (decompress : option bool) (s : ffi) :
  locals !! l = Some h -> is_Some (lookup_endpoint h s) -> is_u64 t -> Forall is_u64 (option_list body) ->
  let args := mkRawFetchPayload h options body (Some t) decompress in
  let '(rd, sd) := raw_fetch_prepare debug_str show_f64 addr_error now args s in
  let '(rt, st) := tauri_fetch_prepare debug_str json_string show_f64 addr_error args s in
  let '(rn, sn) := node_fetch_prepare debug_str json_string show_f64 addr_error get_u64 locals l options (big <$> body) (big t) decompress s in
  st = sd /\ sn = sd /\
  match rd with Ok v => rt = Ok v /\ rn = Ok v | Err _ => exists text, rt = Err text /\ rn = Err (InvalidArg, text) end.
Proof.
  intros Hl [[ep w] Hs] Ht Hb. unfold raw_fetch_prepare, tauri_fetch_prepare, node_fetch_prepare, lookup_node. rewrite Hl. cbn. rewrite Hs.
  destruct (coerce_fetch_options show_f64 options) as [opts|e]; [|split_and!; by try eexists].
  assert ((match big <$> body with None => Ok None | Some x => match get_handle json_string get_u64 x with Ok h => Ok (Some h) | Err e => Err e end end) = Ok body) as ->.
  { destruct body as [b|]; [|done]. cbn in Hb |- *. by rewrite get_handle_big by (by apply Forall_inv in Hb). }
  destruct (match body with Some b => claim_pending_reader b w | None => (None, w) end) as [reader w'].
  destruct (parse_direct_addrs _ _ _) as [addrs|e]; [|split_and!; by try eexists]. by rewrite get_handle_big.
Qed.
End agree.

(** ** Where they differ *)

Section differ.
Context {K : Type} {M : Type -> Type} `{SL : SlotMapLaws K M} {C : Type -> Type} `{ML : Mpsc C}.
Context {Id Relay : Type} `{IrohNet Id Relay}.
Context (json_parse : string -> option NodeAddrInfo) (debug_str : string -> string) (json_string : string -> string) (addr_error : string -> string).
Context (status_ok : Z -> bool) (header_name_ok header_value_ok : string -> bool).
Context {BigInt : Type} (get_u64 : BigInt -> bool * Z * bool).
#[local] Abbreviation ffi := (@Ffi M C).

(** A failed [rawRespond] of Node carries [Display] of the error and not the
    envelope that every other call has, so that JavaScript cannot tell the code;
    and a status over 16 bits is answered as its low half. *)
Theorem node_respond_differs (locals : gmap Z Z) (l : Z) (req : BigInt) (status : Z) (headers : list (list string)) (pairs : list (string * string)) (s : ffi) e w ep r :
  lookup_node locals l s = Some (ep, w) -> validate_header_rows headers = Ok pairs -> get_handle json_string get_u64 req = Ok r ->
  (respond status_ok header_name_ok header_value_ok debug_str r (as_u16 status) pairs w).1 = Err e ->
  (exists text, (raw_respond debug_str json_string status_ok header_name_ok header_value_ok get_u64 locals l req status headers s).1.1 = Err (GenericFailure, text) /\
     text = core_display e /\ forall c m, text <> format_error_json json_string c m) /\
  raw_respond debug_str json_string status_ok header_name_ok header_value_ok get_u64 locals l req (status + 2 ^ 16) headers s =
  raw_respond debug_str json_string status_ok header_name_ok header_value_ok get_u64 locals l req status headers s.
Proof.
  intros Hs Hh Hr He. unfold raw_respond, node_on, with_handle. rewrite Hs, Hh, Hr.
  assert (as_u16 (status + 2 ^ 16) = as_u16 status) as -> by (unfold as_u16; by rewrite <- (Z.mul_1_l (2 ^ 16)%Z) at 1; rewrite Z_mod_plus_full).
  destruct (respond _ _ _ _ _ _ _ _) as [o w']. cbn in He. subst o. cbn. split; [|done]. eexists. split_and!; [done|done|].
  intros c m. unfold core_display, format_error_json. by destruct e as [[] msg].
Qed.

(** Tauri's [session_connect] dials an address with port 0; the other bindings
    refuse it before a connection is tried. *)
Theorem tauri_dials_port_zero (locals : gmap Z Z) (now h l : Z) (node_id text : string) (a : SocketAddr) dial (s : ffi) ep w :
  sock_parse text = Some a -> sock_port a = 0%Z -> locals !! l = Some h -> lookup_endpoint h s = Some (ep, w) ->
  (tauri_session_connect json_parse debug_str json_string now h node_id (Some [text]) dial s).1.1 =
    answer_with (core_error_to_json json_string) VSession (connect json_parse now dial node_id (Some [a]) w).1 /\
  (exists e, (session_connect_dispatch json_parse debug_str addr_error now (Ok (mkSessionConnect h node_id (Some [text]))) dial s) = (Err e, [], set_world ep w s)) /\
  (exists e, (node_session_connect json_parse debug_str json_string addr_error locals now l node_id (Some [text]) dial s) = (Err e, [], set_world ep w s)).
Proof.
  intros Ha Hp Hl Hs. split_and!.
  - unfold tauri_session_connect, tauri_on. rewrite Hs. cbn [tauri_addrs]. rewrite Ha. cbn. by destruct (connect _ _ _ _ _ _).
  - unfold session_connect_dispatch, decoded, on_endpoint, require_endpoint. cbn. rewrite Hs, Ha, Hp. cbn. by eexists.
  - unfold node_session_connect, node_on, lookup_node. rewrite Hl. cbn [mbind option_bind]. rewrite Hs.
    destruct (validate_node_id _); [|by eexists]. destruct (validate_direct_addrs (Some _)); [|by eexists].
    unfold parse_direct_addrs. cbn. rewrite Ha, Hp. by eexists.
Qed.

(** [get_handle] does not look at the sign. *)
Lemma get_handle_sign (b b' : BigInt) sign sign' n : get_u64 b = (sign, n, true) -> get_u64 b' = (sign', n, true) ->
  get_handle json_string get_u64 b = get_handle json_string get_u64 b'.
Proof. unfold get_handle. by intros -> ->. Qed.
End differ.

(** ** Witnesses *)

(** A [BigInt] is its value. *)
Definition demo_get_u64 (z : Z) : bool * Z * bool := ((z <? 0)%Z, (Z.abs z mod 2 ^ 64)%Z, (Z.abs z <? 2 ^ 64)%Z).
Lemma demo_big_u64 z : is_u64 z -> demo_get_u64 z = (false, z, true).
Proof.
  unfold is_u64, U64_MAX, demo_get_u64. intros Hz. rewrite Z.abs_eq, Z.mod_small by lia.
  f_equal; [f_equal|]; [apply Z.ltb_ge|apply Z.ltb_lt]; lia.
Qed.
Definition demo_b64_encode (b : Bytes) : string := string_of_list_byte b.
Definition demo_b64_decode (s : string) : Result Bytes string := Ok (list_byte_of_string s).
Lemma demo_b64_round b : demo_b64_decode (demo_b64_encode b) = Ok b.
Proof. unfold demo_b64_decode, demo_b64_encode. f_equal. apply list_byte_of_string_of_list_byte. Qed.
Definition demo_locals : gmap Z Z := {[1%Z := dispatch_eps.1]}.
Definition demo_json (s : string) : string := s.

Lemma host_calls_agree_witness :
  (tauri_call (Id:=nat) (Relay:=string) (fun _ => None) demo_text demo_json (fun _ => "") (fun _ => "") demo_status_ok demo_all_ok demo_all_ok
     demo_b64_encode demo_b64_decode 0 dispatch_eps.1 (HRespond dispatch_opened.1 200 [["x-id"; "1"]]) dispatch_ffi).2 =
  (node_call (Id:=nat) (Relay:=string) (fun _ => None) demo_text demo_json demo_text (fun _ => "") (fun _ => "") demo_status_ok demo_all_ok demo_all_ok
     demo_b64_encode demo_get_u64 id demo_locals 0 1 (HRespond dispatch_opened.1 200 [["x-id"; "1"]]) dispatch_ffi).2.
Proof.
  pose proof (host_calls_agree (K:=nat) (Id:=nat) (Relay:=string) (fun _ => None) demo_text demo_json demo_text (fun _ => "") (fun _ => "") demo_status_ok
    demo_all_ok demo_all_ok demo_b64_encode demo_b64_decode demo_get_u64 id demo_big_u64 demo_b64_round demo_locals 0 dispatch_eps.1 1
    (HRespond dispatch_opened.1 200 [["x-id"; "1"]]) dispatch_ffi) as Ha.
  destruct (dispatch_store_rows _ _ _ _ _ _ _ _ _ _ _ _ _) as [[rd cd] sd]. destruct (tauri_call _ _ _ _ _ _ _ _ _ _ _ _ _ _) as [[rt ct] st].
  destruct (node_call _ _ _ _ _ _ _ _ _ _ _ _ _ _ _ _ _) as [[rn cn] sn]. destruct Ha as (_ & _ & -> & -> & _); [by vm_compute|vm_compute; by eexists| |done].
  split; [|by vm_compute]. apply Forall_singleton. by vm_compute.
Defined.

Lemma chunk_reads_agree_witness :
  exists text, tauri_next_chunk demo_json 0 dispatch_eps.1 5 dispatch_ffi = Some (Err text, dispatch_ffi) /\
    js_next_chunk demo_json demo_get_u64 demo_locals 0 1 5%Z dispatch_ffi = Some (Err (GenericFailure, text), dispatch_ffi).
Proof.
  pose proof (proj2 (chunk_reads_agree (K:=nat) demo_json demo_b64_encode demo_get_u64 id demo_big_u64 demo_locals 0 dispatch_eps.1 1 5 dispatch_ffi
    ltac:(by vm_compute) ltac:(vm_compute; by eexists) ltac:(by vm_compute))) as Ha.
  destruct Ha as (_ & _ & _ & Ht & _). eexists. split; [|vm_compute; reflexivity].
  change (tauri_next_chunk demo_json 0 dispatch_eps.1 5 dispatch_ffi) with (Some (answer_with (core_error_to_json demo_json) framed (Err (invalid_handle 5)), dispatch_ffi)).
  rewrite Ht. vm_compute. reflexivity.
Defined.

Definition demo_fetch : RawFetchOptions := mkRawFetch "ab" "httpi://ab/" "GET" None [] None None.

Lemma fetch_preparations_agree_witness :
  (tauri_fetch_prepare (Id:=nat) (Relay:=string) demo_text demo_json (fun _ => "") demo_text (mkRawFetchPayload dispatch_eps.1 demo_fetch (Some 9%Z) (Some 7%Z) None) dispatch_ffi).2 =
  (node_fetch_prepare (Id:=nat) (Relay:=string) demo_text demo_json (fun _ => "") demo_text demo_get_u64 demo_locals 1 demo_fetch (Some 9%Z) 7%Z None dispatch_ffi).2.
Proof.
  pose proof (fetch_preparations_agree (K:=nat) (Id:=nat) (Relay:=string) demo_text demo_json (fun _ => "") demo_text demo_get_u64 id demo_big_u64 demo_locals 0 dispatch_eps.1 1 7
    demo_fetch (Some 9%Z) None dispatch_ffi ltac:(by vm_compute) ltac:(vm_compute; by eexists) ltac:(by vm_compute) ltac:(apply Forall_singleton; by vm_compute)) as Ha. cbv zeta in Ha.
  destruct (raw_fetch_prepare _ _ _ _ _ _) as [rd sd]. destruct (tauri_fetch_prepare _ _ _ _ _ _) as [rt st].
  change (id <$> Some 9%Z) with (Some 9%Z) in Ha. change (id 7%Z) with 7%Z in Ha.
  destruct (node_fetch_prepare _ _ _ _ _ _ _ _ _ _ _ _) as [rn sn]. by destruct Ha as (-> & -> & _).
Defined.

Lemma node_respond_differs_witness :
  exists text, (raw_respond demo_text demo_json demo_status_ok demo_all_ok demo_all_ok demo_get_u64 demo_locals 1 99%Z 5 [] dispatch_ffi).1.1 = Err (GenericFailure, text) /\
    text = "InvalidInput: invalid HTTP status code: 5".
Proof.
  destruct (node_respond_differs (K:=nat) demo_text demo_json demo_status_ok demo_all_ok demo_all_ok demo_get_u64 demo_locals 1 99%Z 5 [] [] dispatch_ffi
    (invalid_input "invalid HTTP status code: 5") dispatch_opened.2 0 99%Z ltac:(by vm_compute) eq_refl ltac:(by vm_compute) ltac:(by vm_compute)) as [(text & Hr & Ht & _) _].
  exists text. split; [exact Hr|]. rewrite Ht. by vm_compute.
Defined.

Lemma tauri_dials_port_zero_witness :
  (tauri_session_connect (Id:=nat) (Relay:=string) (fun _ => None) demo_text demo_json 0 dispatch_eps.1 "a" (Some [String ":"%char (String (Ascii.ascii_of_nat 0) "")]) (fun _ => Ok 3) dispatch_ffi).1.1 =
    answer_with (core_error_to_json demo_json) VSession (connect (Id:=nat) (Relay:=string) (fun _ => None) 0 (fun _ => Ok 3) "a" (Some [SockV4 2130706433 0]) dispatch_opened.2).1.
Proof.
  apply (tauri_dials_port_zero (K:=nat) (Id:=nat) (Relay:=string) (fun _ => None) demo_text demo_json demo_text demo_locals 0 dispatch_eps.1 1 "a"
    (String ":"%char (String (Ascii.ascii_of_nat 0) "")) (SockV4 2130706433 0) (fun _ => Ok 3) dispatch_ffi 0 dispatch_opened.2); by vm_compute.
Defined.
