(* ===== verification/HostArgs.v ===== *)
(** * Arguments of the bindings: serving, generic services and keys

    How the Deno, Tauri and Node bindings read the options of a serve call, the
    description of a DNS-SD service and the inputs of the key functions, from
    JSON values or from records that were decoded for them. *)

From stdpp Require Import base numbers list strings gmap fin_maps pretty.
From Stdlib Require Import ZArith Lia.
From S2P Require Import Prelude Errors Extern Net BodyChannel Handles HostAdapter HostAdapterProps IpText ServeOptions DnsSd DiscoveryRegistry EndpointBind EndpointCreate DenoDispatch HostCalls HostCallsProps.

Open Scope string_scope.
Open Scope list_scope.

(** ** JSON values *)

(** Of [serde_json]: a number is a [u64], a negative [i64] or an [f64]; the
    members of an object are in the order in which it is iterated. *)
Inductive Value :=
| JNull
| JBool (b : bool)
| JPos (n : Z)
| JNeg (n : Z)
| JFloat (v : f64)
| JStr (s : string)
| JArr (l : list Value)
| JObj (members : list (string * Value)).

Fixpoint member_of (field : string) (members : list (string * Value)) : Value :=
  match members with
  | [] => JNull
  | (k, v) :: members => if bool_decide (k = field) then v else member_of field members
  end.
(** [p[field]]. *)
Definition index (p : Value) (field : string) : Value := match p with JObj members => member_of field members | _ => JNull end.

Definition as_u64 (v : Value) : option Z := match v with JPos n => Some n | _ => None end.
(** An integer of more than 53 bits is rounded, which every limit is below. *)
Definition int_f64 (n : Z) : f64 := Finite (n <? 0)%Z (Z.abs_N n) 0.
Definition as_f64 (v : Value) : option f64 :=
  match v with JPos n | JNeg n => Some (int_f64 n) | JFloat v => Some v | _ => None end.
Definition as_bool (v : Value) : option bool := match v with JBool b => Some b | _ => None end.
Definition as_str (v : Value) : option string := match v with JStr s => Some s | _ => None end.
Definition as_array (v : Value) : option (list Value) := match v with JArr l => Some l | _ => None end.
Definition as_object (v : Value) : option (list (string * Value)) := match v with JObj m => Some m | _ => None end.

(** ** Serving *)

(** [ServeArgs] of Tauri and [JsServeOptions] of Node. *)
Record ServeArgs := mkServeArgs {
  sa_max_concurrency : option Z; sa_max_connections_per_peer : option Z; sa_raw : RawServeOptions; sa_load_shed : option bool; sa_decompress : option bool
}.
Definition no_serve_args : ServeArgs := mkServeArgs None None (mkRawServe None None None None None None None) None None.

Section serve.
Context (show_f64 : f64 -> string) (json_string : string -> string).

(** The [ServeOptions] of the core. *)
Definition serve_options_of (args : ServeArgs) (serve : AdapterServeOptions) : ServeOptions :=
  {| ServeOptions.so_max_concurrency := sa_max_concurrency args;
     ServeOptions.so_request_timeout_ms := HostAdapter.so_request_timeout_ms serve;
     ServeOptions.so_request_head_timeout_ms := HostAdapter.so_request_head_timeout_ms serve;
     ServeOptions.so_body_idle_timeout_ms := HostAdapter.so_body_idle_timeout_ms serve;
     ServeOptions.so_connection_idle_timeout_ms := None;
     ServeOptions.so_max_connections_per_peer := sa_max_connections_per_peer args;
     ServeOptions.so_max_request_body_wire_bytes := HostAdapter.so_max_request_body_wire_bytes serve;
     ServeOptions.so_max_request_body_decoded_bytes := HostAdapter.so_max_request_body_decoded_bytes serve;
     ServeOptions.so_drain_timeout_ms := HostAdapter.so_drain_timeout_ms serve;
     ServeOptions.so_max_total_connections := HostAdapter.so_max_total_connections serve;
     ServeOptions.so_load_shed := sa_load_shed args;
     ServeOptions.so_decompression := sa_decompress args |}.

Definition tauri_serve_options (args : ServeArgs) : Result ServeOptions string :=
  match coerce_serve_options show_f64 (sa_raw args) with
  | Err e => Err (adapter_to_json json_string e)
  | Ok serve => Ok (serve_options_of args serve)
  end.
Definition node_serve_options (args : option ServeArgs) : Napi ServeOptions :=
  let o := default no_serve_args args in
  match coerce_serve_options show_f64 (sa_raw o) with
  | Err e => Err (InvalidArg, adapter_to_json json_string e)
  | Ok serve => Ok (serve_options_of o serve)
  end.

(** What [serve_start] reads of its payload; what has another type counts as absent. *)
Definition deno_serve_args (p : Value) : ServeArgs :=
  mkServeArgs (as_u64 (index p "maxConcurrency")) (as_u64 (index p "maxConnectionsPerPeer"))
    (mkRawServe (as_f64 (index p "requestTimeout")) (as_f64 (index p "requestHeadTimeout")) (as_f64 (index p "bodyIdleTimeout"))
       (as_f64 (index p "maxRequestBodyWireBytes")) (as_f64 (index p "maxRequestBodyDecodedBytes"))
       (as_f64 (index p "maxTotalConnections")) (as_f64 (index p "drainTimeout")))
    (as_bool (index p "loadShed")) (as_bool (index p "decompress")).
Definition deno_serve_options (p : Value) : Answer ServeOptions :=
  let args := deno_serve_args p in
  match coerce_serve_options show_f64 (sa_raw args) with
  | Err e => err_adapter e
  | Ok serve => Ok (serve_options_of args serve)
  end.
End serve.

(** ** Generic services *)

(** [ServiceConfigPayload] of Tauri and [JsServiceConfig] of Node, the texts of
    the map in the order in which it is iterated. *)
Record ServiceArgs := mkServiceArgs {
  sv_service_name : string; sv_instance_name : string; sv_port : Z; sv_addrs : list string; sv_txt : list (string * string); sv_protocol : option string
}.
Definition MAX_MDNS_SERVICE_NAME_LEN : Z := 128.

Section services.
Context (json_string debug_str : string -> string).
(** [Display] of a JSON value. *)
Context (show_value : Value -> string).

(** [parse_protocol], the error of an unknown one rendered by [g]. *)
Definition parse_protocol {E} (g : string -> E) (s : option string) : Result Protocol E :=
  let s := default "udp" s in
  if decide (s = "udp") then Ok Udp else if decide (s = "tcp") then Ok Tcp else Err (g ("invalid protocol: " +:+ debug_str s)).
Definition tauri_protocol := parse_protocol (format_error_json json_string "INVALID_INPUT").
Definition node_protocol := parse_protocol (fun m => (InvalidArg, format_error_json json_string "INVALID_INPUT" m)).
Definition deno_protocol (p : Value) : Result Protocol string := parse_protocol id (as_str (index p "protocol")).

(** [collect] of parsed addresses: the first that is none is the error. *)
Fixpoint collect_ips {E} (g : string -> E) (l : list string) : Result (list IpAddr) E :=
  match l with
  | [] => Ok []
  | s :: l => match parse_ip s with Err e => Err (g ("invalid address: " +:+ e)) | Ok ip => let? ips := collect_ips g l in Ok (ip :: ips) end
  end.

(** [advertise] of Tauri up to the call of the library. *)
Definition tauri_service_config (c : ServiceArgs) : Result ServiceConfig string :=
  let? protocol := tauri_protocol (sv_protocol c) in
  let? addrs := collect_ips (format_error_json json_string "INVALID_INPUT") (sv_addrs c) in
  Ok (mkServiceConfig (sv_service_name c) (sv_instance_name c) (sv_port c) addrs (sv_txt c) protocol).

Definition js_config_to_service_config (c : ServiceArgs) : Napi ServiceConfig :=
  match ffi_bounded_string "serviceName" (sv_service_name c) MAX_MDNS_SERVICE_NAME_LEN with
  | Err e => ffi_invalid_arg json_string e
  | Ok _ =>
      if (65535 <? sv_port c)%Z then Err (InvalidArg, format_error_json json_string "INVALID_INPUT" "port must be in the range 0..=65535")
      else
        let? addrs := collect_ips (fun m => (InvalidArg, format_error_json json_string "INVALID_INPUT" m)) (sv_addrs c) in
        let? protocol := node_protocol (sv_protocol c) in
        Ok (mkServiceConfig (sv_service_name c) (sv_instance_name c) (sv_port c) addrs (sv_txt c) protocol)
  end.

Fixpoint deno_ips (l : list Value) : Answer (list IpAddr) :=
  match l with
  | [] => Ok []
  | a :: l =>
      match as_str a ≫= fun s => match parse_ip s with Ok ip => Some ip | Err _ => None end with
      | Some ip => let? ips := deno_ips l in Ok (ip :: ips)
      | None => err ("invalid address: " +:+ show_value a)
      end
  end.
(** Members that are no text are left out. *)
Definition deno_txt (members : list (string * Value)) : list (string * string) :=
  omap (fun kv => pair kv.1 <$> as_str kv.2) members.
(** [advertise_dispatch] up to the call of the library. *)
Definition deno_service_config (p : Value) : Answer ServiceConfig :=
  match as_str (index p "serviceName") with
  | None => err "missing serviceName"
  | Some service_name =>
      match as_str (index p "instanceName") with
      | None => err "missing instanceName"
      | Some instance_name =>
          match as_u64 (index p "port") with
          | Some port =>
              if (65535 <? port)%Z then err "port must be in the range 0..=65535"
              else
                match deno_protocol p with
                | Err e => err e
                | Ok protocol =>
                    let? addrs := match as_array (index p "addrs") with Some l => deno_ips l | None => Ok [] end in
                    Ok (mkServiceConfig service_name instance_name port addrs (match as_object (index p "txt") with Some m => deno_txt m | None => [] end) protocol)
                end
          | None => err "port must be in the range 0..=65535"
          end
      end
  end.

(** [browse] up to the call of the library. *)
Definition tauri_browse_config (service_name : string) (protocol : option string) : Result BrowseConfig string :=
  let? protocol := tauri_protocol protocol in Ok (mkBrowseConfig service_name protocol).
Definition node_browse_config (service_name : string) (protocol : option string) : Napi BrowseConfig :=
  match ffi_bounded_string "serviceName" service_name MAX_MDNS_SERVICE_NAME_LEN with
  | Err e => ffi_invalid_arg json_string e
  | Ok _ => let? protocol := node_protocol protocol in Ok (mkBrowseConfig service_name protocol)
  end.
Definition deno_browse_config (p : Value) : Answer BrowseConfig :=
  match as_str (index p "serviceName") with
  | None => err "missing serviceName"
  | Some service_name => match deno_protocol p with Err e => err e | Ok protocol => Ok (mkBrowseConfig service_name protocol) end
  end.

(** A mobile binding leaves the addresses to the native side. *)
Definition reject_mobile_explicit_addrs (addrs : list string) : Result unit string :=
  match addrs with
  | [] => Ok tt
  | _ => Err (format_error_json json_string "INVALID_INPUT"
           "generic DNS-SD explicit addrs are desktop-only; native mobile adapters select A/AAAA records")
  end.
End services.

(** A record as JavaScript gets it: the texts collected in a hash map, the later
    of two under one key. *)
Record JsServiceRecord := mkJsRecord {
  jr_is_active : bool; jr_service_type : string; jr_instance_name : string; jr_host : option string; jr_port : Z; jr_addrs : list string; jr_txt : gmap string string
}.
Definition service_record_to_js (show_addr : SocketAddr -> string) (r : ServiceRecord) : JsServiceRecord :=
  mkJsRecord (is_active r) (sr_service_type r) (sr_instance_name r) (host r) (sr_port r) (show_addr <$> sr_addrs r)
    (foldl (fun m kv => <[kv.1 := kv.2]> m) ∅ (sr_txt r)).

(** ** Keys *)

Section keys.
(** Ed25519 of iroh; [None]: it panics.  [ed_verify] is false for bytes that are no key. *)
Context (ed_sign : Bytes -> Bytes -> option Bytes) (ed_verify : Bytes -> Bytes -> Bytes -> option bool) (ed_generate : option Bytes).
Context (json_string : string -> string) (b64_encode : Bytes -> string) (b64_decode : string -> Result Bytes string).

Definition secret_key_sign (secret_key_bytes data : Bytes) : Result Bytes CoreError :=
  match ed_sign secret_key_bytes data with Some s => Ok s | None => Err (internal "secret_key_sign panicked") end.
Definition public_key_verify (public_key_bytes data sig_bytes : Bytes) : bool := default false (ed_verify public_key_bytes data sig_bytes).
Definition generate_secret_key : Result Bytes CoreError :=
  match ed_generate with Some k => Ok k | None => Err (internal "generate_secret_key panicked") end.

(** [try_into] an array of [n] bytes. *)
Definition to_array {E} (n : Z) (e : E) (b : Bytes) : Result Bytes E := if (len b =? n)%Z then Ok b else Err e.

Definition node_secret_key_sign (secret_key data : Bytes) : Napi Bytes :=
  let? key_bytes := to_array 32 (InvalidArg, "secret key must be 32 bytes") secret_key in
  match secret_key_sign key_bytes data with Ok s => Ok s | Err e => Err (GenericFailure, core_display e) end.
Definition node_public_key_verify (public_key data signature : Bytes) : bool :=
  match to_array 32 tt public_key with
  | Err _ => false
  | Ok key_bytes => match to_array 64 tt signature with Err _ => false | Ok sig_bytes => public_key_verify key_bytes data sig_bytes end
  end.
Definition node_generate_secret_key : Napi Bytes :=
  match generate_secret_key with Ok k => Ok k | Err e => Err (GenericFailure, core_display e) end.

(** The decoding of a base64 argument, with the error's prefix. *)
Definition decode_arg (what s : string) : Result Bytes string :=
  match b64_decode s with Ok b => Ok b | Err e => Err ("base64 decode " +:+ what +:+ ": " +:+ e) end.
(** [secret_key_sign] of Tauri, and of Deno, whose errors have code UNKNOWN. *)
Definition text_secret_key_sign (secret_key data : string) : Result string string :=
  let? key := decode_arg "key" secret_key in
  let? key_bytes := to_array 32 "secret key must be 32 bytes" key in
  let? data_bytes := decode_arg "data" data in
  match secret_key_sign key_bytes data_bytes with Ok s => Ok (b64_encode s) | Err e => Err (core_display e) end.
Definition text_public_key_verify (public_key data signature : string) : Result bool string :=
  let? key := decode_arg "key" public_key in
  let? key_bytes := to_array 32 "public key must be 32 bytes" key in
  let? data_bytes := decode_arg "data" data in
  let? sig := decode_arg "sig" signature in
  let? sig_bytes := to_array 64 "signature must be 64 bytes" sig in
  Ok (public_key_verify key_bytes data_bytes sig_bytes).
Definition text_generate_secret_key : Result string string :=
  match generate_secret_key with Ok k => Ok (b64_encode k) | Err e => Err (core_display e) end.
(** [err] of the Deno dispatcher around them. *)
Definition deno_key_answer {A} (r : Result A string) : Answer A := match r with Ok v => Ok v | Err e => err e end.
Definition deno_secret_key_sign (secret_key data : string) : Answer string := deno_key_answer (text_secret_key_sign secret_key data).
Definition deno_public_key_verify (public_key data signature : string) : Answer bool := deno_key_answer (text_public_key_verify public_key data signature).
Definition deno_generate_secret_key : Answer string := deno_key_answer text_generate_secret_key.
End keys.

(** * Arguments read alike

    The bindings read the same serve options and the same services from the same
    JavaScript values, what they accept is within the limits, and a signature
    made through one binding is accepted by every other. *)

(** ** Payloads *)

(** A member that is there when the option is set. *)
Definition member_opt {A} (f : A -> Value) (name : string) (o : option A) : list (string * Value) :=
  match o with Some v => [(name, f v)] | None => [] end.

(** What JavaScript sends to Deno for the same arguments. *)
Definition serve_json (a : ServeArgs) : Value :=
  let r := sa_raw a in
  JObj (member_opt JPos "maxConcurrency" (sa_max_concurrency a) ++ member_opt JPos "maxConnectionsPerPeer" (sa_max_connections_per_peer a) ++
    member_opt JFloat "requestTimeout" (rs_request_timeout_ms r) ++ member_opt JFloat "requestHeadTimeout" (rs_request_head_timeout_ms r) ++
    member_opt JFloat "bodyIdleTimeout" (rs_body_idle_timeout_ms r) ++ member_opt JFloat "maxRequestBodyWireBytes" (rs_max_request_body_wire_bytes r) ++
    member_opt JFloat "maxRequestBodyDecodedBytes" (rs_max_request_body_decoded_bytes r) ++
    member_opt JFloat "maxTotalConnections" (rs_max_total_connections r) ++ member_opt JFloat "drainTimeout" (rs_drain_timeout_ms r) ++
    member_opt JBool "loadShed" (sa_load_shed a) ++ member_opt JBool "decompress" (sa_decompress a)).
Definition service_json (c : ServiceArgs) : Value :=
  JObj ([("serviceName", JStr (sv_service_name c)); ("instanceName", JStr (sv_instance_name c)); ("port", JPos (sv_port c));
         ("addrs", JArr (JStr <$> sv_addrs c)); ("txt", JObj ((fun kv => (kv.1, JStr kv.2)) <$> sv_txt c))] ++
        member_opt JStr "protocol" (sv_protocol c)).

Lemma member_other {A} (f : A -> Value) name field (o : option A) rest :
  name <> field -> member_of field (member_opt f name o ++ rest) = member_of field rest.
Proof. intros Hne. destruct o; cbn; [|done]. by rewrite bool_decide_false. Qed.
Lemma member_here {A} (f : A -> Value) name (o : option A) rest :
  member_of name rest = JNull -> member_of name (member_opt f name o ++ rest) = match o with Some v => f v | None => JNull end.
Proof. intros Hn. destruct o; cbn; [|done]. by rewrite bool_decide_true. Qed.

(** The member of a field in a list of optional members. *)
Ltac find_member :=
  rewrite ?member_other by done; first [reflexivity | rewrite member_here by find_member].

Lemma serve_json_read (a : ServeArgs) : deno_serve_args (serve_json a) = a.
Proof.
  destruct a as [a1 a2 [b1 b2 b3 b4 b5 b6 b7] a3 a4]. unfold deno_serve_args, serve_json, index. cbn [sa_raw sa_max_concurrency sa_max_connections_per_peer
    rs_request_timeout_ms rs_request_head_timeout_ms rs_body_idle_timeout_ms rs_max_request_body_wire_bytes rs_max_request_body_decoded_bytes rs_max_total_connections
    rs_drain_timeout_ms sa_load_shed sa_decompress].
  rewrite <- (app_nil_r (member_opt JBool "decompress" a4)).
  f_equal; [| |f_equal|..]; find_member; by lazymatch goal with |- context [match ?o with _ => _ end] => destruct o end.
Qed.

(** ** Serving *)

Section serve.
Context (show_f64 : f64 -> string) (json_string : string -> string).

(** The numbers of accepted serve options. *)
Definition serve_limits (o : ServeOptions) : Prop :=
  (forall n, so_request_timeout_ms o = Some n -> 0 <= n <= 86400000)%Z /\ (forall n, so_request_head_timeout_ms o = Some n -> 0 <= n <= 86400000)%Z /\
  (forall n, so_body_idle_timeout_ms o = Some n -> 0 <= n <= 86400000)%Z /\ (forall n, so_drain_timeout_ms o = Some n -> 0 <= n <= 300000)%Z /\
  (forall n, so_max_request_body_wire_bytes o = Some n -> 0 <= n <= 268435456)%Z /\ (forall n, so_max_request_body_decoded_bytes o = Some n -> 0 <= n <= 268435456)%Z /\
  (forall n, so_max_total_connections o = Some n -> 0 <= n <= 100000)%Z /\ so_connection_idle_timeout_ms o = None.

Lemma serve_options_limits args serve : coerce_serve_options show_f64 (sa_raw args) = Ok serve -> serve_limits (serve_options_of args serve).
Proof.
  intros Hs%coerce_serve_spec. destruct Hs as (N1 & N2 & N3 & N4 & N5 & N6 & N7). unfold serve_limits. cbn.
  split_and!; try done; intros n; by eapply number_ok_bounds.
Qed.

(** The three bindings read the same serve options: Deno from the payload that
    JavaScript sends, Tauri and Node from their records.  They accept the same
    ones, refuse with the same code and message, and what they accept is within
    the limits. *)
Theorem serve_options_agree (a : ServeArgs) :
  match deno_serve_options show_f64 (serve_json a) with
  | Ok o => tauri_serve_options show_f64 json_string a = Ok o /\ node_serve_options show_f64 json_string (Some a) = Ok o /\ serve_limits o
  | Err (code, msg) =>
      tauri_serve_options show_f64 json_string a = Err (format_error_json json_string code msg) /\
      node_serve_options show_f64 json_string (Some a) = Err (InvalidArg, format_error_json json_string code msg)
  end /\
  node_serve_options show_f64 json_string None = node_serve_options show_f64 json_string (Some no_serve_args).
Proof.
  split; [|done]. unfold deno_serve_options, tauri_serve_options, node_serve_options. rewrite serve_json_read. change (default no_serve_args (Some a)) with a.
  destruct (coerce_serve_options show_f64 (sa_raw a)) as [serve|e] eqn:E; [|by unfold err_adapter]. split_and!; [done|done|]. by apply serve_options_limits.
Qed.

(** A value of another type counts as absent: Deno then serves without the limit
    that was asked for, where the other bindings refuse the call. *)
Theorem deno_serve_ignores_types (t : string) (p : Value) (o : ServeOptions) :
  index p "maxRequestBodyDecodedBytes" = JStr t -> deno_serve_options show_f64 p = Ok o -> so_max_request_body_decoded_bytes o = None.
Proof.
  intros Ht. unfold deno_serve_options, deno_serve_args. rewrite Ht. cbn [as_f64 sa_raw].
  destruct (coerce_serve_options _ _) as [serve|e] eqn:E; [|done]. intros [= <-]. cbn.
  apply coerce_serve_spec in E as (_ & _ & _ & _ & N & _). cbn in N. by destruct (HostAdapter.so_max_request_body_decoded_bytes serve).
Qed.
End serve.

(** ** Services *)

Section services.
Context (json_string debug_str : string -> string) (show_value : Value -> string).

Lemma collect_ips_agree {E} (g : string -> E) l :
  match deno_ips show_value (JStr <$> l) with
  | Ok ips => collect_ips g l = Ok ips
  | Err _ => exists e, collect_ips g l = Err e
  end.
Proof.
  induction l as [|s l IH]; [done|]. rewrite fmap_cons. cbn. destruct (parse_ip s) as [ip|e]; cbn; [|by eexists].
  destruct (deno_ips show_value (JStr <$> l)) as [ips|e]; cbn.
  - by rewrite IH.
  - destruct IH as [e' ->]. by eexists.
Qed.

Lemma deno_txt_texts l : deno_txt ((fun kv => (kv.1, JStr kv.2)) <$> l) = l.
Proof. induction l as [|[k v] l IH]; [done|]. rewrite fmap_cons. unfold deno_txt in *. cbn. by rewrite IH. Qed.

Lemma protocol_agree {E} (g : string -> E) o :
  match parse_protocol debug_str id o with Ok p => parse_protocol debug_str g o = Ok p | Err m => parse_protocol debug_str g o = Err (g m) end.
Proof. unfold parse_protocol. repeat case_decide; done. Qed.

(** A service described alike is advertised alike: the three bindings build the
    same description from it or refuse it, only Node refuses the names that are
    empty, over 128 bytes or contain a zero byte as well; a port over 65535 is
    refused by Deno and Node (Tauri's payload cannot hold it). *)
Theorem service_configs_agree (c : ServiceArgs) :
  (0 <= sv_port c)%Z ->
  (sv_port c <= 65535 ->
    match deno_service_config debug_str show_value (service_json c) with
    | Ok cfg => tauri_service_config json_string debug_str c = Ok cfg /\
        (is_ok (ffi_bounded_string "serviceName" (sv_service_name c) 128) = true -> js_config_to_service_config json_string debug_str c = Ok cfg) /\
        cfg = mkServiceConfig (sv_service_name c) (sv_instance_name c) (sv_port c) (addrs cfg) (sv_txt c) (protocol cfg)
    | Err _ => is_ok (tauri_service_config json_string debug_str c) = false /\ is_ok (js_config_to_service_config json_string debug_str c) = false
    end)%Z /\
  (is_ok (ffi_bounded_string "serviceName" (sv_service_name c) 128) = false -> is_ok (js_config_to_service_config json_string debug_str c) = false) /\
  (65535 < sv_port c ->
    is_ok (deno_service_config debug_str show_value (service_json c)) = false /\ is_ok (js_config_to_service_config json_string debug_str c) = false)%Z.
Proof.
  intros Hp.
  assert (deno_service_config debug_str show_value (service_json c) =
    if (65535 <? sv_port c)%Z then err "port must be in the range 0..=65535"
    else match parse_protocol debug_str id (sv_protocol c) with
         | Err e => err e
         | Ok protocol => let? addrs := deno_ips show_value (JStr <$> sv_addrs c) in
             Ok (mkServiceConfig (sv_service_name c) (sv_instance_name c) (sv_port c) addrs (sv_txt c) protocol)
         end) as ->.
  { unfold deno_service_config, service_json. pose proof (deno_txt_texts (sv_txt c)) as Et. revert Et. generalize (JStr <$> sv_addrs c). generalize ((fun kv : string * string => (kv.1, JStr kv.2)) <$> sv_txt c).
    intros tv av Et. unfold deno_protocol, index. destruct (sv_protocol c); cbn -[Z.ltb deno_ips deno_txt parse_protocol];
      repeat first [rewrite bool_decide_true by done | rewrite bool_decide_false by done]; cbn -[Z.ltb deno_ips deno_txt parse_protocol]; by rewrite Et. }
  unfold js_config_to_service_config, tauri_service_config, tauri_protocol, node_protocol, MAX_MDNS_SERVICE_NAME_LEN.
  pose proof (protocol_agree (format_error_json json_string "INVALID_INPUT") (sv_protocol c)) as P1.
  pose proof (protocol_agree (fun m => (InvalidArg, format_error_json json_string "INVALID_INPUT" m)) (sv_protocol c)) as P2.
  pose proof (collect_ips_agree (format_error_json json_string "INVALID_INPUT") (sv_addrs c)) as A1.
  pose proof (collect_ips_agree (fun m => (InvalidArg, format_error_json json_string "INVALID_INPUT" m)) (sv_addrs c)) as A2.
  split_and!.
  - intros Hle. rewrite (proj2 (Z.ltb_ge _ _)) by done.
    destruct (parse_protocol debug_str id (sv_protocol c)) as [pr|m]; cbn; rewrite P1, P2; cbn; cycle 1.
    { split; [done|]. destruct (ffi_bounded_string _ _ _); [|done]. clear A1 A2. by destruct (collect_ips _ (sv_addrs c)). }
    destruct (deno_ips show_value (JStr <$> sv_addrs c)) as [ips|e]; cbn.
    + rewrite A1, A2. cbn. split_and!; [done| |done]. by destruct (ffi_bounded_string _ _ _).
    + destruct A1 as [e1 ->], A2 as [e2 ->]. cbn. split; [done|]. by destruct (ffi_bounded_string _ _ _).
  - by destruct (ffi_bounded_string _ _ _).
  - intros Hgt. rewrite (proj2 (Z.ltb_lt _ _)) by done. split; [done|]. by destruct (ffi_bounded_string _ _ _).
Qed.

(** The texts of a record that JavaScript gets: under each key the last value. *)
Lemma record_txt_last show_addr r k v :
  jr_txt (service_record_to_js show_addr r) !! k = Some v <->
  exists l l', sr_txt r = l ++ (k, v) :: l' /\ k ∉ l'.*1.
Proof.
  unfold service_record_to_js. cbn. induction (sr_txt r) as [|[x y] l IH] using rev_ind; cbn.
  - rewrite lookup_empty. split; [done|]. intros (l & l' & E & _). by destruct l.
  - rewrite foldl_app. cbn. rewrite lookup_insert_Some. cbn. rewrite IH. split.
    + intros [[-> ->]|[Hne (a & b & -> & Hn)]]; [exists l, []; split; [done|apply not_elem_of_nil]|].
      exists a, (b ++ [(x, y)]). rewrite <- app_assoc. split; [done|]. rewrite fmap_app. set_solver.
    + intros (a & b & E & Hn). destruct b as [|z b] using rev_ind; [apply app_inj_tail in E as [-> [= -> ->]]; by left|].
      clear IHb. right. rewrite app_comm_cons, app_assoc in E. apply app_inj_tail in E as [-> <-]. rewrite fmap_app in Hn. cbn in Hn. split; [set_solver|].
      exists a, b. split; [done|]. set_solver.
Qed.
End services.

(** ** Keys *)

Section keys.
Context (ed_sign : Bytes -> Bytes -> option Bytes) (ed_verify : Bytes -> Bytes -> Bytes -> option bool) (ed_generate : option Bytes).
Context (b64_encode : Bytes -> string) (b64_decode : string -> Result Bytes string).
(** The public key of a secret key. *)
Context (ed_public : Bytes -> Bytes).

#[local] Abbreviation node_sign := (node_secret_key_sign ed_sign).
#[local] Abbreviation text_sign := (text_secret_key_sign ed_sign b64_encode b64_decode).
#[local] Abbreviation deno_sign := (deno_secret_key_sign ed_sign b64_encode b64_decode).
#[local] Abbreviation deno_verify := (deno_public_key_verify ed_verify b64_decode).
#[local] Abbreviation node_verify := (node_public_key_verify ed_verify).
#[local] Abbreviation text_verify := (text_public_key_verify ed_verify b64_decode).

(** Ed25519: signatures of 64 bytes that verify under the key's public key of 32. *)
Hypothesis ed_signature : forall k d s, len k = 32%Z -> ed_sign k d = Some s -> len s = 64%Z /\ len (ed_public k) = 32%Z /\ ed_verify (ed_public k) d s = Some true.
Hypothesis b64_round : forall b, b64_decode (b64_encode b) = Ok b.

(** What one binding has signed every binding verifies; the two kinds of binding
    sign alike, and refuse a key of another length. *)
Theorem signatures_verify_everywhere (k d s : Bytes) :
  (node_sign k d = Ok s <-> len k = 32%Z /\ ed_sign k d = Some s) /\
  (text_sign (b64_encode k) (b64_encode d) = Ok (b64_encode s) <-> node_sign k d = Ok s) /\
  (node_sign k d = Ok s ->
     node_verify (ed_public k) d s = true /\ text_verify (b64_encode (ed_public k)) (b64_encode d) (b64_encode s) = Ok true /\
     deno_sign (b64_encode k) (b64_encode d) = Ok (b64_encode s) /\ deno_verify (b64_encode (ed_public k)) (b64_encode d) (b64_encode s) = Ok true).
Proof.
  assert (node_sign k d = Ok s <-> len k = 32%Z /\ ed_sign k d = Some s) as Hn.
  { unfold node_secret_key_sign, to_array, secret_key_sign. destruct (Z.eqb_spec (len k) 32); cbn; [|naive_solver]. destruct (ed_sign k d); naive_solver. }
  assert (text_sign (b64_encode k) (b64_encode d) = Ok (b64_encode s) <-> node_sign k d = Ok s) as Ht.
  { rewrite Hn. unfold text_secret_key_sign, decode_arg. rewrite !b64_round. cbn. unfold to_array, secret_key_sign.
    destruct (Z.eqb_spec (len k) 32); cbn; [|naive_solver]. destruct (ed_sign k d) as [s'|]; [|naive_solver]. split; [|naive_solver].
    intros [= E]. split; [done|]. f_equal. assert (Ok (E:=string) s' = Ok s) as [= ->]; [by rewrite <- !b64_round, E|done]. }
  split_and!; [done|done|]. intros Hs'. unfold deno_secret_key_sign, deno_public_key_verify. rewrite (proj2 Ht Hs'). revert Hs'. rewrite Hn.
  intros [Hk Hs]. destruct (ed_signature k d s Hk Hs) as (L1 & L2 & Hv).
  unfold node_public_key_verify, text_public_key_verify, decode_arg, to_array, public_key_verify. rewrite !b64_round. cbn. rewrite L2. cbn. rewrite L1. cbn. by rewrite Hv.
Qed.
End keys.

(** ** Witnesses *)

Definition demo_service : ServiceArgs := mkServiceArgs "web" "here" 80 ["10.0.0.1"] [("a", "b")] (Some "tcp").
Lemma service_configs_agree_witness :
  tauri_service_config (fun s => s) (fun s => s) demo_service = Ok (mkServiceConfig "web" "here" 80 [V4 167772161] [("a", "b")] Tcp).
Proof.
  pose proof (proj1 (service_configs_agree (fun s => s) (fun s => s) (fun _ => "value") demo_service ltac:(by vm_compute)) ltac:(by vm_compute)) as Hc.
  vm_compute in Hc. by destruct Hc as [Hc _].
Defined.

Lemma deno_serve_ignores_types_witness :
  exists o, deno_serve_options (fun _ => "") (JObj [("maxRequestBodyDecodedBytes", JStr "1000")]) = Ok o /\ so_max_request_body_decoded_bytes o = None.
Proof.
  eexists. split; [vm_compute; reflexivity|].
  apply (deno_serve_ignores_types (fun _ => "") "1000" (JObj [("maxRequestBodyDecodedBytes", JStr "1000")])); vm_compute; reflexivity.
Defined.

(** A signature is the key twice, whatever the text. *)
Lemma signatures_verify_everywhere_witness :
  node_public_key_verify (fun k _ s => Some (bool_decide (s = k ++ k))) (replicate 32 Byte.x01) [] (replicate 64 Byte.x01) = true.
Proof.
  destruct (signatures_verify_everywhere (fun k _ => Some (k ++ k)) (fun k _ s => Some (bool_decide (s = k ++ k))) demo_b64_encode demo_b64_decode id
    ltac:(intros k d s Hk [= <-]; split_and!; [rewrite len_app; lia|done|by rewrite bool_decide_true]) demo_b64_round
    (replicate 32 Byte.x01) [] (replicate 64 Byte.x01)) as (Hs & _ & Hv).
  apply Hv, Hs. by vm_compute.
Defined.
