(* ===== verification/MobileArgs.v ===== *)
(** * Arguments of the mobile discovery commands (iroh-http-tauri: commands.rs)

    What the mobile start commands check and hand to the native side: the
    service of a browse, the first publication of an advertisement, and the
    interface addresses that a peer advertisement is built from. *)

From stdpp Require Import base numbers list strings gmap fin_maps relations sorting.
From Stdlib Require Import ZArith Lia.
From S2P Require Import Prelude Net Text IpText DnsSd HostAdapter HostArgs MobileActor.

Open Scope string_scope.
Open Scope list_scope.

(** ** Interface addresses *)

(** [select_operational_interface_ips]: [contains] and [push], in order. *)
Definition select_operational_interface_ips (interfaces : list (bool * IpAddr)) : list IpAddr :=
  fold_left (fun out ip => if bool_decide (ip ∈ out) then out else out ++ [ip]) (List.filter fst interfaces).*2 [].

Definition parse_mobile_interface_ips (addresses : list string) : list IpAddr :=
  select_operational_interface_ips
    (omap (fun literal => match parse_ip literal with Ok ip => Some (true, ip) | Err _ => None end) addresses).

(** [mobile_interface_ips] on iOS and on Android: a failed inventory is empty. *)
Definition ios_interface_ips (inventory : Result (list (bool * IpAddr)) string) : list IpAddr :=
  match inventory with Ok interfaces => select_operational_interface_ips interfaces | Err _ => [] end.
Definition android_interface_ips (inventory : Result (list string) string) : list IpAddr :=
  match inventory with Ok addresses => parse_mobile_interface_ips addresses | Err _ => [] end.

(** ** What is published *)

Definition mobile_peer_advertisement_update (config : ServiceConfig) : AdvertisementUpdate := mkAdvertisementUpdate 1 [] (txt config).

(** The arguments of [advertise_start] and of [browse_start]. *)
Record NativeAdvertise := mkNativeAdvertise {
  na_service_name : string; na_instance_name : string; na_port : Z; na_protocol : string; na_addrs : list string; na_txt : gmap string string
}.
Record NativeBrowse := mkNativeBrowse { nb_service_name : string; nb_protocol : string }.

Definition protocol_label (p : Protocol) : string := match p with Udp => "udp" | Tcp => "tcp" end.

Section args.
Context (json_string debug_str : string -> string).

(** [browse_peers] and [browse]: the native browse and the service type of its
    records. *)
Definition mobile_browse_peers_args (service_name : string) : Result (NativeBrowse * string) string :=
  match service_type debug_str service_name Udp with
  | Err error => Err (format_error_json json_string "INVALID_INPUT" error)
  | Ok ty => Ok (mkNativeBrowse service_name "udp", ty)
  end.
Definition mobile_browse_args (service_name : string) (protocol : option string) : Result (NativeBrowse * string) string :=
  let? protocol := tauri_protocol json_string debug_str protocol in
  match service_type debug_str service_name protocol with
  | Err error => Err (format_error_json json_string "INVALID_INPUT" error)
  | Ok ty => Ok (mkNativeBrowse service_name (protocol_label protocol), ty)
  end.

(** [advertise_peer], on the configuration of the discovery crate. *)
Definition mobile_peer_advertise_args (config : ServiceConfig) : NativeAdvertise * AdvertisementUpdate :=
  let initial := mobile_peer_advertisement_update config in
  (mkNativeAdvertise (service_name config) (instance_name config) (up_port initial) "udp" []
     (fold_left (fun m kv => <[kv.1 := kv.2]> m) (txt config) ∅), initial).

(** [advertise]; [config.txt] is a [HashMap], which [sv_txt] enumerates. *)
Definition mobile_advertise_args (config : ServiceArgs) : Result (NativeAdvertise * AdvertisementUpdate) string :=
  let? _ := reject_mobile_explicit_addrs json_string (sv_addrs config) in
  let? protocol := tauri_protocol json_string debug_str (sv_protocol config) in
  match service_type debug_str (sv_service_name config) protocol with
  | Err error => Err (format_error_json json_string "INVALID_INPUT" error)
  | Ok _ =>
      Ok (mkNativeAdvertise (sv_service_name config) (sv_instance_name config) (sv_port config) (protocol_label protocol)
            (sv_addrs config) (list_to_map (sv_txt config)),
          mkAdvertisementUpdate (sv_port config) [] (merge_sort key_le (sv_txt config)))
  end.
End args.

(** ** Facts *)

Lemma collect_unique_spec (l out : list IpAddr) :
  NoDup out ->
  let r := fold_left (fun out ip => if bool_decide (ip ∈ out) then out else out ++ [ip]) l out in
  NoDup r /\ (forall ip, ip ∈ r <-> ip ∈ out \/ ip ∈ l) /\ exists new, r = out ++ new /\ new `sublist_of` l.
Proof.
  revert out. induction l as [|ip l IH]; intros out Hnd; cbn.
  - split_and!; [done|set_solver|]. exists []. by rewrite app_nil_r.
  - case_bool_decide as Hin.
    + destruct (IH out Hnd) as (H1 & H2 & new & E & Hs). split_and!; [done|set_solver|]. exists new. split; [done|by constructor].
    + destruct (IH (out ++ [ip])) as (H1 & H2 & new & E & Hs).
      { apply list.NoDup_app. split_and!; [done|set_solver|apply NoDup_singleton]. }
      split_and!; [done|set_solver|]. exists (ip :: new). split; [rewrite E; by rewrite <- app_assoc|by constructor].
Qed.

(** The inventory of interface addresses keeps exactly the addresses of interfaces
    that are up, each once and in the order of the platform; on Android, where
    they come as text, exactly those that are addresses. *)
Theorem interface_ips_exact (interfaces : list (bool * IpAddr)) (addresses : list string) :
  NoDup (select_operational_interface_ips interfaces) /\
  (forall ip, ip ∈ select_operational_interface_ips interfaces <-> (true, ip) ∈ interfaces) /\
  select_operational_interface_ips interfaces `sublist_of` interfaces.*2 /\
  NoDup (parse_mobile_interface_ips addresses) /\
  (forall ip, ip ∈ parse_mobile_interface_ips addresses <-> exists literal, literal ∈ addresses /\ parse_ip literal = Ok ip).
Proof.
  assert (forall l, NoDup (select_operational_interface_ips l) /\
    (forall ip, ip ∈ select_operational_interface_ips l <-> (true, ip) ∈ l) /\ select_operational_interface_ips l `sublist_of` l.*2) as H.
  { intros l. destruct (collect_unique_spec (List.filter fst l).*2 [] (NoDup_nil_2)) as (H1 & H2 & new & E & Hs).
    fold (select_operational_interface_ips l) in *. split_and!; [done| |].
    - intros ip. rewrite H2, list_elem_of_fmap. split.
      + intros [Hx|([b x] & -> & Hx)]; [by apply not_elem_of_nil in Hx|]. apply list_elem_of_In, List.filter_In in Hx as [Hx Hb]. cbn in Hb. subst b.
        by apply list_elem_of_In.
      + intros Hx. right. exists (true, ip). split; [done|]. by apply list_elem_of_In, List.filter_In; split; [apply list_elem_of_In|].
    - rewrite E. cbn. etransitivity; [exact Hs|]. clear. induction l as [|[[] x] l IH]; cbn; by constructor. }
  destruct (H interfaces) as (H1 & H2 & H3). unfold parse_mobile_interface_ips. set (l := omap _ addresses). destruct (H l) as (H4 & H5 & _).
  split_and!; try done. intros ip. rewrite H5. unfold l. rewrite list_elem_of_omap. split.
  - intros (literal & Hl & E). destruct (parse_ip literal) as [ip'|] eqn:Ep; [|done]. injection E as <-. eauto.
  - intros (literal & Hl & E). exists literal. by rewrite E.
Qed.

(** A generic advertisement is accepted on mobile exactly when it is on desktop,
    names no addresses and its service name is well formed; and it publishes what
    desktop would: the same port and texts (sorted), under the same name and
    protocol. *)
Theorem mobile_advertise_agrees (json_string debug_str : string -> string) (c : ServiceArgs) :
  (is_ok (mobile_advertise_args json_string debug_str c) = true <->
     sv_addrs c = [] /\ exists cfg, tauri_service_config json_string debug_str c = Ok cfg /\
       is_ok (service_type debug_str (service_name cfg) (protocol cfg)) = true) /\
  (forall native initial cfg, mobile_advertise_args json_string debug_str c = Ok (native, initial) ->
     tauri_service_config json_string debug_str c = Ok cfg ->
     up_port initial = up_port (advertisement_update cfg) /\ up_addrs initial = up_addrs (advertisement_update cfg) /\
     up_txt initial ≡ₚ up_txt (advertisement_update cfg) /\ Sorted key_le (up_txt initial) /\
     na_service_name native = service_name cfg /\ na_instance_name native = instance_name cfg /\ na_port native = port cfg /\
     na_protocol native = protocol_label (protocol cfg) /\ na_addrs native = [] /\ na_txt native = list_to_map (txt cfg)).
Proof.
  unfold mobile_advertise_args, tauri_service_config, reject_mobile_explicit_addrs. split.
  - destruct (sv_addrs c) as [|a l]; [|split; [done|by intros [? _]]].
    destruct (tauri_protocol json_string debug_str (sv_protocol c)) as [p|e]; [|split; [done|by intros (_ & ? & ? & _)]]. cbn. split.
    + intros Hs. split; [done|]. eexists. split; [done|]. cbn. by destruct (service_type _ _ p).
    + intros (_ & cfg & [= <-] & Hs). cbn in Hs. by destruct (service_type _ _ p).
  - intros native initial cfg Hm Ht. destruct (sv_addrs c) as [|a l] eqn:Ea; [|done].
    destruct (tauri_protocol json_string debug_str (sv_protocol c)) as [p|e]; [|done]. cbn in Ht. injection Ht as <-. cbn in Hm.
    destruct (service_type _ _ p); [|done]. injection Hm as <- <-. cbn. split_and!; try done.
    + apply merge_sort_Permutation.
    + apply Sorted_merge_sort. intros x y. unfold key_le. destruct (String.leb_total x.1 y.1); auto.
Qed.
