(* ===== verification/MobileDiscovery.v ===== *)
(** * Discovery commands of the Tauri plugin on mobile (iroh-http-tauri: commands.rs)

    On Android and iOS a session is a native registration.  A start takes a lease
    from the ownership state, waits for the cleanups of its WebView, runs the
    native start in a detached task and tracks the session; closes, ended polls
    and retirements publish a fence first and finish it when the native side has
    acknowledged.  The sections between two awaits or locks are the steps of a
    machine over [Ownership.Machine], which has the leases and the fences.

    A native registration is known by its number from the moment it is asked
    for; a lease by its id, so that a call names the lease that it owns.  A call
    that is aborted and has no guard to run is one that takes no more steps. *)

From stdpp Require Import base numbers list strings gmap fin_maps relations.
From Stdlib Require Import ZArith Lia.
From S2P Require Import Prelude Extern HostAdapter TauriState Ownership.

Open Scope string_scope.
Open Scope list_scope.

(** ** The start barrier *)

Inductive BarrierError := CleanupTimedOut | CleanupFailed (error : string) | OwnerRetired.

(** [await_mobile_webview_cleanup_with_timeout] and the check of the owner
    after it; [None] while it waits. *)
Definition await_start_barrier (timed_out : bool) (owner : StartLease) (st : OwnershipState) : option (Result unit BarrierError) :=
  match wait_for_cleanup owner st with
  | None => if timed_out then Some (Err CleanupTimedOut) else None
  | Some (Err error) => Some (Err (CleanupFailed error))
  | Some (Ok _) => if negb (owner_is_current st (l_owner owner)) then Some (Err OwnerRetired) else Some (Ok tt)
  end.

Definition is_peer_kind (kind : DiscoveryKind) : bool :=
  match kind with BrowsePeers | AdvertisePeer => true | _ => false end.
Definition is_browse_kind (kind : DiscoveryKind) : bool :=
  match kind with BrowsePeers | GenericBrowse => true | _ => false end.

Definition barrier_message (json_string debug_str : string -> string) (kind : DiscoveryKind) (webview_label : string)
    (e : BarrierError) : string :=
  format_error_json json_string "REFUSED"
    match e with
    | CleanupTimedOut => "prior WebView discovery cleanup timed out for " +:+ debug_str webview_label
    | CleanupFailed error => "prior WebView discovery cleanup failed for " +:+ debug_str webview_label +:+ ": " +:+ error
    | OwnerRetired =>
        if is_peer_kind kind then "discovery owner retired while waiting for prior WebView cleanup"
        else "WebView retired while waiting for prior discovery cleanup"
    end.

(** ** State *)

(** The gate of a refresh task: [refresh_start], sent or dropped. *)
Inductive Gate := GatePending | GatePublished | GateDropped.

(** A native registration with its session: who started it, whether a close was
    requested and how the native side has acknowledged it; of a peer
    advertisement also its [cancel], its gate and its [refresh] slot, which has
    the number of the task's call. *)
Record Native := mkNative {
  nv_kind : DiscoveryKind;
  nv_lease : Z;
  nv_owner : DiscoveryOwner;
  nv_closing : bool;
  nv_ended : option Outcome;
  nv_cancel : bool;
  nv_gate : Gate;
  nv_refresh : option nat
}.
Definition native_new (kind : DiscoveryKind) (l : StartLease) : Native :=
  mkNative kind (l_id l) (l_owner l) false None false GatePending None.

Definition nv_close nv := mkNative (nv_kind nv) (nv_lease nv) (nv_owner nv) true (nv_ended nv) (nv_cancel nv) (nv_gate nv) (nv_refresh nv).
Definition nv_end o nv := mkNative (nv_kind nv) (nv_lease nv) (nv_owner nv) (nv_closing nv) (Some o) (nv_cancel nv) (nv_gate nv) (nv_refresh nv).
Definition nv_send_cancel nv := mkNative (nv_kind nv) (nv_lease nv) (nv_owner nv) (nv_closing nv) (nv_ended nv) true (nv_gate nv) (nv_refresh nv).
Definition nv_set_gate g nv := mkNative (nv_kind nv) (nv_lease nv) (nv_owner nv) (nv_closing nv) (nv_ended nv) (nv_cancel nv) g (nv_refresh nv).
Definition nv_set_refresh j nv := mkNative (nv_kind nv) (nv_lease nv) (nv_owner nv) (nv_closing nv) (nv_ended nv) (nv_cancel nv) (nv_gate nv) j.

(** What a command answers, up to the payload of an event. *)
Inductive Answer := AHandle (handle : Z) | AEvent | AEnd | AClosed | ARefused | AAborted | ARetired.

(** Who finishes a session cleanup: a close, a poll (and whether it has an
    error to report), or the refresh task of an advertisement. *)
Inductive Finisher := ByClose | ByPoll (failed : bool) | ByRefresh (n : nat).

(** Where a call is between two of its sections; [join] is the refresh task that
    is awaited in place of the session, [cleanup] the fence that is finished. *)
Inductive MobilePc :=
| MBarrier (kind : DiscoveryKind) (id : Z)
| MArgs (kind : DiscoveryKind) (id : Z)
| MStart (kind : DiscoveryKind) (id : Z) (n : nat) (waiter : bool)
| MDelivered (kind : DiscoveryKind) (id : Z) (n : nat) (waiter : bool)
| MInsert (kind : DiscoveryKind) (id : Z) (n : nat)
| MSpawn (id : Z) (n : nat) (handle : Z)
| MSlot (id : Z) (n : nat) (handle : Z) (task : nat)
| MTrack (kind : DiscoveryKind) (id : Z) (n : nat) (handle : Z)
| MPublish (n : nat) (handle : Z)
| MUndo (kind : DiscoveryKind) (id : Z) (n : nat) (handle : Z)
| MUndoClose (kind : DiscoveryKind) (id : Z) (n : nat)
| MReconcile (id : Z) (n : nat) (join : option nat)
| MGate (handle : Z) (n : nat)
| MLoop (handle : Z) (n : nat)
| MEnd (handle : Z) (n : nat)
| MRefreshed (n : nat) (outcome : Outcome)
| MNext (kind : DiscoveryKind) (handle : Z) (n : nat)
| MTermClose (kind : DiscoveryKind) (handle : Z) (n : nat) (who : Finisher) (cleanup : option nat)
| MTermWait (kind : DiscoveryKind) (handle : Z) (n : nat) (who : Finisher) (cleanup : option nat)
| MTermRemove (kind : DiscoveryKind) (handle : Z) (n : nat) (who : Finisher) (cleanup : option nat) (outcome : Outcome)
| MFinish (who : Finisher) (cleanup : option nat) (outcome : Outcome)
| MFence (who : Finisher) (f : nat) (outcome : Outcome)
| MCloseRemove (kind : DiscoveryKind) (handle : Z) (f : nat)
| MCloseClose (kind : DiscoveryKind) (n : nat) (f : nat)
| MCloseWait (n : nat) (join : option nat) (f : nat)
| MCloseGet (kind : DiscoveryKind) (handle : Z)
| MJoinClose (kind : DiscoveryKind) (n : nat)
| MJoin (n : nat) (join : option nat)
| MRetire (r : DiscoveryRetirement) (todo : list TrackedDiscovery) (held : list (nat * option (option nat)))
| MDone (answer : Answer).

Record Mobile := mkMobile {
  mach : Machine;
  mslabs : gmap DiscoveryKind (DiscoveryHandleMap nat);
  natives : list Native;
  mcalls : list MobilePc
}.
Definition mobile0 : Mobile := mkMobile machine_new ∅ [] [].

(** The four slabs, made on first use. *)
Definition mslab (kind : DiscoveryKind) (s : Mobile) : DiscoveryHandleMap nat := default handles_default (mslabs s !! kind).

Definition set_mach x s := mkMobile x (mslabs s) (natives s) (mcalls s).
Definition set_mslab kind x s := mkMobile (mach s) (<[kind := x]> (mslabs s)) (natives s) (mcalls s).
Definition upd_native (f : Native -> Native) (n : nat) s := mkMobile (mach s) (mslabs s) (alter f n (natives s)) (mcalls s).
Definition add_native nv s := mkMobile (mach s) (mslabs s) (natives s ++ [nv]) (mcalls s).
Definition mcall (pc : MobilePc) s := mkMobile (mach s) (mslabs s) (natives s) (mcalls s ++ [pc]).
Definition mgoto (i : nat) (pc : MobilePc) s := mkMobile (mach s) (mslabs s) (natives s) (<[i := pc]> (mcalls s)).

(** ** Leases and fences *)

Definition with_owned st m := mkMachine st (leases m) (waiting m) (finishing m).
Definition with_lease st ls m := mkMachine st ls (waiting m) (finishing m).

(** [Drop for StartLease]. *)
Definition drop_start (l : StartLease) (s : Mobile) : Mobile :=
  set_mach (with_lease (drop_lease l (owned (mach s))) (delete (l_id l) (leases (mach s))) (mach s)) s.
Definition arm_start (l : StartLease) (s : Mobile) : Mobile :=
  set_mach (with_lease (owned (mach s)) (<[l_id l := arm_native_cleanup l]> (leases (mach s))) (mach s)) s.
Definition finish_start (l : StartLease) (outcome : Outcome) (s : Mobile) : Mobile :=
  set_mach (with_lease (finish_cleanup l outcome (owned (mach s))) (delete (l_id l) (leases (mach s))) (mach s)) s.

(** [begin_session_cleanup]: the fence it publishes waits to be finished. *)
Definition session_cleanup (kind : DiscoveryKind) (handle : Z) (s : Mobile) : option nat * Mobile :=
  match begin_session_cleanup kind handle (owned (mach s)) with
  | (Some f, st) =>
      (Some f, set_mach (mkMachine st (leases (mach s)) (waiting (mach s) ++ [mkRetirement [] [] [f]]) (finishing (mach s))) s)
  | (None, _) => (None, s)
  end.

(** The waits before a fence are over. *)
Definition waits_over (l : list DiscoveryRetirement) (outcome : Outcome) (fs : list nat) (s : Mobile) : Mobile :=
  set_mach (mkMachine (owned (mach s)) (leases (mach s)) l (finishing (mach s) ++ [mkFinishing outcome None fs])) s.

(** ** Sessions *)

(** [close] of the engine's session. *)
Definition close_engine (n : nat) (s : Mobile) : Mobile := upd_native nv_close n s.
(** A peer advertisement is cancelled first. *)
Definition close_session (kind : DiscoveryKind) (n : nat) (s : Mobile) : Mobile :=
  close_engine n (match kind with AdvertisePeer => upd_native nv_send_cancel n s | _ => s end).
(** [refresh.lock().take()]. *)
Definition take_refresh (kind : DiscoveryKind) (n : nat) (s : Mobile) : option nat * Mobile :=
  match kind with
  | AdvertisePeer => (natives s !! n ≫= nv_refresh, upd_native (nv_set_refresh None) n s)
  | _ => (None, s)
  end.
(** [close_mobile_peer_advertisement] up to its await, or [close]. *)
Definition close_take (kind : DiscoveryKind) (n : nat) (s : Mobile) : option nat * Mobile :=
  take_refresh kind n (close_session kind n s).

Definition ended_of (s : Mobile) (n : nat) : option Outcome := natives s !! n ≫= nv_ended.

(** [wait_closed], or the join of the refresh task. *)
Definition wait_outcome (s : Mobile) (n : nat) (join : option nat) : option Outcome :=
  match join with
  | None => ended_of s n
  | Some j => match mcalls s !! j with Some (MRefreshed _ outcome) => Some outcome | _ => None end
  end.

(** ** Sections of a start *)

(** Inserting the session; a full slab closes it again. *)
Definition insert_native (kind : DiscoveryKind) (id : Z) (n : nat) (s : Mobile) : MobilePc * Mobile :=
  match handles_insert n (mslab kind s) with
  | (Ok handle, m) =>
      (match kind with AdvertisePeer => MSpawn id n handle | _ => MTrack kind id n handle end, set_mslab kind m s)
  | (Err _, _) => (MReconcile id n None, close_engine n s)
  end.

(** Tracking; the lease is spent when it succeeds. *)
Definition track_native (kind : DiscoveryKind) (l : StartLease) (n : nat) (handle : Z) (s : Mobile) : MobilePc * Mobile :=
  match lease_track l kind handle (owned (mach s)) with
  | (Ok _, _, st) =>
      (match kind with AdvertisePeer => MPublish n handle | _ => MDone (AHandle handle) end,
       set_mach (with_lease st (delete (l_id l) (leases (mach s))) (mach s)) s)
  | (Err _, _, st) => (MUndo kind (l_id l) n handle, set_mach (with_owned st (mach s)) s)
  end.

(** Removing the session again; the advertisement's gate is dropped. *)
Definition undo_native (kind : DiscoveryKind) (id : Z) (n : nat) (handle : Z) (s : Mobile) : MobilePc * Mobile :=
  let s := set_mslab kind (handles_remove handle (mslab kind s)).2 s in
  (MUndoClose kind id n, match kind with AdvertisePeer => upd_native (nv_set_gate GateDropped) n s | _ => s end).

(** ** Sections of ends, closes and retirements *)

(** The end of a browse or of a refresh task: [browse_peers_next] does not close
    what has ended. *)
Definition begin_end (kind : DiscoveryKind) (handle : Z) (n : nat) (who : Finisher) (s : Mobile) : MobilePc * Mobile :=
  let '(cleanup, s) := session_cleanup kind handle s in
  (match kind with BrowsePeers => MTermWait kind handle n who cleanup | _ => MTermClose kind handle n who cleanup end, s).

Definition remove_native_if (kind : DiscoveryKind) (handle : Z) (n : nat) (s : Mobile) : Mobile :=
  set_mslab kind (handles_remove_if handle (fun current => bool_decide (current = n)) (mslab kind s)).2 s.

Definition finished (who : Finisher) (outcome : Outcome) : MobilePc :=
  match who with
  | ByRefresh n => MRefreshed n outcome
  | ByClose => MDone (if is_ok outcome then AClosed else ARefused)
  | ByPoll failed => MDone (if negb failed && is_ok outcome then AEnd else ARefused)
  end.

Definition begin_close (kind : DiscoveryKind) (handle : Z) (s : Mobile) : Mobile :=
  let '(cleanup, s) := session_cleanup kind handle s in
  mcall (match cleanup with Some f => MCloseRemove kind handle f | None => MCloseGet kind handle end) s.

Definition close_remove (kind : DiscoveryKind) (handle : Z) (f : nat) (s : Mobile) : MobilePc * Mobile :=
  let '(session, m) := handles_remove handle (mslab kind s) in
  (match session with Some n => MCloseClose kind n f | None => MFinish ByClose (Some f) (Ok tt) end, set_mslab kind m s).

(** [prepare_mobile_discovery_retirement]. *)
Definition prepare_retirement (t : TrackedDiscovery) (held : list (nat * option (option nat))) (s : Mobile)
  : list (nat * option (option nat)) * Mobile :=
  let '(session, m) := handles_remove (t_handle t) (mslab (t_kind t) s) in
  let s := set_mslab (t_kind t) m s in
  match session with
  | Some n => (held ++ [(n, match t_kind t with AdvertisePeer => None | _ => Some None end)], close_session (t_kind t) n s)
  | None => (held, s)
  end.

Definition held_outcome (s : Mobile) (x : nat * option (option nat)) : option Outcome :=
  match x.2 with Some join => wait_outcome s x.1 join | None => None end.

(** A retirement begins. *)
Definition retire_with (r : DiscoveryRetirement) (st : OwnershipState) (s : Mobile) : Mobile :=
  mcall (MRetire r (r_sessions r) [])
    (set_mach (mkMachine st (leases (mach s)) (waiting (mach s) ++ [r]) (finishing (mach s))) s).

(** [retire_endpoint_discovery_sessions], [retire_webview_discovery_sessions] and
    [advance_webview_discovery_context], [retire_all_discovery_sessions]; [None] is
    the panic of an exhausted generation. *)
Definition retire_endpoint_sessions (h : Z) (s : Mobile) : option Mobile :=
  '(r, st) ← retire_endpoint h (owned (mach s)); Some (retire_with r st s).
Definition retire_webview_sessions (now_active : bool) (label : string) (s : Mobile) : option Mobile :=
  '(r, st) ← next_webview now_active label (owned (mach s)); Some (retire_with r st s).
Definition retire_all_sessions (s : Mobile) : option Mobile :=
  '(r, st) ← retire_all (owned (mach s)); Some (retire_with r st s).

(** ** The machine *)

(** A start: the barrier, the native start in its detached task, the session, its
    tracking, and the reconciliation of a start that came too late. *)
Inductive start_goes (s : Mobile) : MobilePc -> MobilePc * Mobile -> Prop :=
| g_barrier kind id l timed_out :
    leases (mach s) !! id = Some l -> await_start_barrier timed_out l (owned (mach s)) = Some (Ok tt) ->
    start_goes s (MBarrier kind id) (MArgs kind id, s)
| g_barrier_refused kind id l timed_out e :
    leases (mach s) !! id = Some l -> await_start_barrier timed_out l (owned (mach s)) = Some (Err e) ->
    start_goes s (MBarrier kind id) (MDone ARefused, drop_start l s)
| g_barrier_aborted kind id l :
    leases (mach s) !! id = Some l -> start_goes s (MBarrier kind id) (MDone AAborted, drop_start l s)
| g_args_refused kind id l answer :
    leases (mach s) !! id = Some l -> answer = ARefused \/ answer = AAborted ->
    start_goes s (MArgs kind id) (MDone answer, drop_start l s)
| g_native_start kind id l :
    leases (mach s) !! id = Some l ->
    start_goes s (MArgs kind id) (MStart kind id (length (natives s)) true, add_native (native_new kind l) s)
| g_waiter_gone kind id n : start_goes s (MStart kind id n true) (MStart kind id n false, s)
| g_native_refused kind id n waiter l :
    leases (mach s) !! id = Some l ->
    start_goes s (MStart kind id n waiter) (MDone ARefused, drop_start l (upd_native (nv_end (Ok tt)) n s))
| g_native_started kind id n waiter l :
    leases (mach s) !! id = Some l -> start_goes s (MStart kind id n waiter) (MDelivered kind id n waiter, arm_start l s)
| g_claimed kind id n : start_goes s (MDelivered kind id n true) (MInsert kind id n, s)
| g_unclaimed kind id n waiter : start_goes s (MDelivered kind id n waiter) (MReconcile id n None, close_engine n s)
| g_project_fails id n : start_goes s (MInsert BrowsePeers id n) (MReconcile id n None, close_engine n s)
| g_insert kind id n : start_goes s (MInsert kind id n) (insert_native kind id n s)
| g_spawn id n handle : start_goes s (MSpawn id n handle) (MSlot id n handle (length (mcalls s)), mcall (MGate handle n) s)
| g_slot id n handle task :
    start_goes s (MSlot id n handle task) (MTrack AdvertisePeer id n handle, upd_native (nv_set_refresh (Some task)) n s)
| g_track kind id l n handle :
    leases (mach s) !! id = Some l -> start_goes s (MTrack kind id n handle) (track_native kind l n handle s)
| g_publish n handle : start_goes s (MPublish n handle) (MDone (AHandle handle), upd_native (nv_set_gate GatePublished) n s)
| g_undo kind id n handle : start_goes s (MUndo kind id n handle) (undo_native kind id n handle s)
| g_undo_close kind id n :
    start_goes s (MUndoClose kind id n) (MReconcile id n (close_take kind n s).1, (close_take kind n s).2)
| g_reconciled id n join l outcome :
    leases (mach s) !! id = Some l -> wait_outcome s n join = Some outcome ->
    start_goes s (MReconcile id n join) (MDone ARefused, finish_start l outcome s).

(** The refresh task of an advertisement; updates leave the state as it is. *)
Inductive refresh_goes (s : Mobile) : MobilePc -> MobilePc * Mobile -> Prop :=
| g_gate_open handle n nv :
    natives s !! n = Some nv -> nv_gate nv = GatePublished -> refresh_goes s (MGate handle n) (MLoop handle n, s)
| g_gate_shut handle n nv :
    natives s !! n = Some nv -> nv_gate nv = GateDropped \/ nv_cancel nv = true -> refresh_goes s (MGate handle n) (MEnd handle n, s)
| g_loop_breaks handle n : refresh_goes s (MLoop handle n) (MEnd handle n, s)
| g_end handle n : refresh_goes s (MEnd handle n) (begin_end AdvertisePeer handle n (ByRefresh n) s).

(** A poll, and the end of a poll or of a refresh task. *)
Inductive poll_goes (s : Mobile) : MobilePc -> MobilePc * Mobile -> Prop :=
| g_event kind handle n : poll_goes s (MNext kind handle n) (MDone AEvent, s)
| g_next_ends kind handle n nv failed :
    natives s !! n = Some nv -> nv_closing nv = true -> (kind = BrowsePeers -> failed = false) ->
    poll_goes s (MNext kind handle n) (begin_end kind handle n (ByPoll failed) s)
| g_term_close kind handle n who cleanup :
    poll_goes s (MTermClose kind handle n who cleanup) (MTermWait kind handle n who cleanup, close_engine n s)
| g_term_wait kind handle n who cleanup outcome :
    ended_of s n = Some outcome ->
    poll_goes s (MTermWait kind handle n who cleanup) (MTermRemove kind handle n who cleanup outcome, s)
| g_term_remove kind handle n who cleanup outcome :
    poll_goes s (MTermRemove kind handle n who cleanup outcome) (MFinish who cleanup outcome, remove_native_if kind handle n s)
| g_finish_plain who outcome : poll_goes s (MFinish who None outcome) (finished who outcome, s)
| g_finish who f native_outcome l1 l2 outcome :
    waiting (mach s) = l1 ++ mkRetirement [] [] [f] :: l2 ->
    retirement_outcome [f] [] [native_outcome] (owned (mach s)) = Some outcome ->
    poll_goes s (MFinish who (Some f) native_outcome) (MFence who f outcome, waits_over (l1 ++ l2) outcome [f] s)
| g_fenced who f outcome :
    fence_outcome (owned (mach s)) f = Some outcome -> poll_goes s (MFence who f outcome) (finished who outcome, s).

Inductive close_goes (s : Mobile) : MobilePc -> MobilePc * Mobile -> Prop :=
| g_close_remove kind handle f : close_goes s (MCloseRemove kind handle f) (close_remove kind handle f s)
| g_close_close kind n f : close_goes s (MCloseClose kind n f) (MCloseWait n (close_take kind n s).1 f, (close_take kind n s).2)
| g_close_waited n join f outcome :
    wait_outcome s n join = Some outcome -> close_goes s (MCloseWait n join f) (MFinish ByClose (Some f) outcome, s)
| g_close_get kind handle n :
    handles_get handle (mslab kind s) = Some n -> close_goes s (MCloseGet kind handle) (MJoinClose kind n, s)
| g_close_none kind handle :
    handles_get handle (mslab kind s) = None -> close_goes s (MCloseGet kind handle) (MDone AClosed, s)
| g_join_close kind n : close_goes s (MJoinClose kind n) (MJoin n (close_take kind n s).1, (close_take kind n s).2)
| g_joined n join outcome :
    wait_outcome s n join = Some outcome -> close_goes s (MJoin n join) (finished ByClose outcome, s).

(** A retirement: closing the sessions, taking over the refresh tasks, waiting. *)
Inductive retire_goes (s : Mobile) : MobilePc -> MobilePc * Mobile -> Prop :=
| g_prepare r t todo held :
    retire_goes s (MRetire r (t :: todo) held)
      (MRetire r todo (prepare_retirement t held s).1, (prepare_retirement t held s).2)
| g_take r held1 n held2 :
    retire_goes s (MRetire r [] (held1 ++ (n, None) :: held2))
      (MRetire r [] (held1 ++ (n, Some (close_take AdvertisePeer n s).1) :: held2), (close_take AdvertisePeer n s).2)
| g_retired r held closed l1 l2 outcome :
    mapM (held_outcome s) held = Some closed -> waiting (mach s) = l1 ++ r :: l2 ->
    retirement_outcome (r_cleanups r) (r_starts r) closed (owned (mach s)) = Some outcome ->
    retire_goes s (MRetire r [] held) (MDone ARetired, waits_over (l1 ++ l2) outcome (r_cleanups r) s).

Inductive goes_on (s : Mobile) (pc : MobilePc) (p : MobilePc * Mobile) : Prop :=
| on_start : start_goes s pc p -> goes_on s pc p
| on_refresh : refresh_goes s pc p -> goes_on s pc p
| on_poll : poll_goes s pc p -> goes_on s pc p
| on_close : close_goes s pc p -> goes_on s pc p
| on_retire : retire_goes s pc p -> goes_on s pc p.

(** The first section of each command; one that is refused at once, or polls an
    unknown handle, leaves nothing but the entry of its WebView. *)
Inductive mbegins (s : Mobile) : Mobile -> Prop :=
| b_peer_start kind h label l st :
    is_peer_kind kind = true -> begin_peer_start h label (owned (mach s)) = Some (Some l, st) ->
    mbegins s (mcall (MBarrier kind (l_id l)) (set_mach (with_lease st (<[l_id l := l]> (leases (mach s))) (mach s)) s))
| b_generic_start kind label l st :
    is_peer_kind kind = false -> begin_webview_start label (owned (mach s)) = Some (Some l, st) ->
    mbegins s (mcall (MBarrier kind (l_id l)) (set_mach (with_lease st (<[l_id l := l]> (leases (mach s))) (mach s)) s))
| b_refused h label st :
    begin_peer_start h label (owned (mach s)) = Some (None, st) \/ begin_webview_start label (owned (mach s)) = Some (None, st) ->
    mbegins s (set_mach (with_owned st (mach s)) s)
| b_next kind handle n :
    is_browse_kind kind = true -> handles_get handle (mslab kind s) = Some n -> mbegins s (mcall (MNext kind handle n) s)
| b_close kind handle : mbegins s (begin_close kind handle s)
| b_retire_endpoint h s' : retire_endpoint_sessions h s = Some s' -> mbegins s s'
| b_next_webview now_active label s' : retire_webview_sessions now_active label s = Some s' -> mbegins s s'
| b_retire_all s' : retire_all_sessions s = Some s' -> mbegins s s'.

(** What happens elsewhere: endpoints are opened, a session ends of itself, the
    native side acknowledges a close, and a finished retirement sets its fences. *)
Inductive menv (s : Mobile) : Mobile -> Prop :=
| e_activate h st :
    (forall o, endpoints (owned (mach s)) !! h = Some o -> Ownership.active o = false) ->
    activate_endpoint h (owned (mach s)) = Some st -> menv s (set_mach (with_owned st (mach s)) s)
| e_closes n :
    (forall i kind id waiter, mcalls s !! i <> Some (MStart kind id n waiter) /\ mcalls s !! i <> Some (MDelivered kind id n waiter)) ->
    menv s (close_engine n s)
| e_ended n nv outcome :
    natives s !! n = Some nv -> nv_closing nv = true -> nv_ended nv = None -> menv s (upd_native (nv_end outcome) n s)
| e_finish_fence l1 outcome f fs l2 :
    finishing (mach s) = l1 ++ mkFinishing outcome None (f :: fs) :: l2 ->
    menv s (set_mach (mkMachine (fence_set f outcome (owned (mach s))) (leases (mach s)) (waiting (mach s))
      (l1 ++ mkFinishing outcome (if is_ok outcome then Some f else None) fs :: l2)) s)
| e_remove_fence l1 outcome f fs l2 :
    finishing (mach s) = l1 ++ mkFinishing outcome (Some f) fs :: l2 ->
    menv s (set_mach (mkMachine (fence_remove f (owned (mach s))) (leases (mach s)) (waiting (mach s))
      (l1 ++ mkFinishing outcome None fs :: l2)) s).

Inductive mobile_step (s : Mobile) : Mobile -> Prop :=
| ms_begins s' : mbegins s s' -> mobile_step s s'
| ms_env s' : menv s s' -> mobile_step s s'
| ms_goes_on i pc pc' s' : mcalls s !! i = Some pc -> goes_on s pc (pc', s') -> mobile_step s (mgoto i pc' s').

Definition mobile_reachable (s : Mobile) : Prop := rtc mobile_step mobile0 s.
