(* ===== verification/MobileDiscoveryFacts.v ===== *)
(** * Mobile discovery: what calls hold

    A call owns its lease, its fences and the handles it is about to track or to
    take out; no two calls own the same one.  From that, every run of the mobile
    commands is a run of the ownership machine, and every registration that the
    native side has not yet given up is somebody's: of a start, of a tracked
    handle, or of a cleanup whose fence is not finished. *)

From stdpp Require Import base numbers list strings sets gmap fin_maps relations.
From Stdlib Require Import ZArith Lia.
From S2P Require Import Prelude Extern TauriState Ownership OwnershipProps OwnershipFence OwnershipOrder MobileDiscovery.

Open Scope string_scope.
Open Scope list_scope.

(** ** What a call owns and knows *)

Inductive Res := RLease (id : Z) | RFence (f : nat) | RClaim (kind : DiscoveryKind) (handle : Z).

Definition res_fence (o : option nat) : list Res := match o with Some f => [RFence f] | None => [] end.

Definition res (pc : MobilePc) : list Res :=
  match pc with
  | MBarrier _ id | MArgs _ id | MStart _ id _ _ | MDelivered _ id _ _ | MInsert _ id _ | MUndoClose _ id _ | MReconcile id _ _ => [RLease id]
  | MSpawn id _ h | MSlot id _ h _ => [RLease id; RClaim AdvertisePeer h]
  | MTrack k id _ h | MUndo k id _ h => [RLease id; RClaim k h]
  | MTermClose _ _ _ _ c | MTermWait _ _ _ _ c | MTermRemove _ _ _ _ c _ | MFinish _ c _ => res_fence c
  | MCloseRemove k h f => [RFence f; RClaim k h]
  | MCloseClose _ _ f | MCloseWait _ _ f => [RFence f]
  | MRetire r todo _ => (RFence <$> r_cleanups r) ++ ((fun t => RClaim (t_kind t) (t_handle t)) <$> todo)
  | _ => []
  end.

(** The lease and the registration of a start. *)
Definition leased_native (pc : MobilePc) : option (Z * nat) :=
  match pc with
  | MStart _ id n _ | MDelivered _ id n _ | MInsert _ id n | MSpawn id n _ | MSlot id n _ _ | MTrack _ id n _ | MUndo _ id n _
  | MUndoClose _ id n | MReconcile id n _ => Some (id, n)
  | _ => None
  end.

(** It is not in a slab yet. *)
Definition unplaced (pc : MobilePc) : option (DiscoveryKind * nat) :=
  match pc with MStart k _ n _ | MDelivered k _ n _ | MInsert k _ n => Some (k, n) | _ => None end.

(** The handle that a registration is, or was, kept under. *)
Definition named (pc : MobilePc) : option (DiscoveryKind * Z * nat) :=
  match pc with
  | MSpawn _ n h | MSlot _ n h _ | MGate h n | MLoop h n | MEnd h n => Some (AdvertisePeer, h, n)
  | MTrack k _ n h | MUndo k _ n h | MNext k h n | MTermClose k h n _ _ | MTermWait k h n _ _ | MTermRemove k h n _ _ _ => Some (k, h, n)
  | _ => None
  end.
Definition lands (pc : MobilePc) : bool := match pc with MSpawn _ _ _ | MSlot _ _ _ _ | MTrack _ _ _ _ => true | _ => false end.

(** The refresh task of a registration, and the tasks a call waits for. *)
Definition refresher (who : Finisher) : option nat := match who with ByRefresh n => Some n | _ => None end.
Definition refresh_of (pc : MobilePc) : option nat :=
  match pc with
  | MGate _ n | MLoop _ n | MEnd _ n | MRefreshed n _ => Some n
  | MTermClose _ _ n who _ | MTermWait _ _ n who _ | MTermRemove _ _ n who _ _ => match who with ByRefresh _ => Some n | _ => None end
  | MFinish who _ _ | MFence who _ _ => refresher who
  | _ => None
  end.
Definition join_of (n : nat) (o : option nat) : list (nat * nat) := match o with Some j => [(n, j)] | None => [] end.
Definition joins (pc : MobilePc) : list (nat * nat) :=
  match pc with
  | MSlot _ n _ j => [(n, j)]
  | MReconcile _ n o | MCloseWait n o _ | MJoin n o => join_of n o
  | MRetire _ _ held => held ≫= fun x => match x.2 with Some o => join_of x.1 o | None => [] end
  | _ => []
  end.
Definition over (pc : MobilePc) : option nat :=
  match pc with
  | MTermRemove _ _ n _ _ _ => Some n
  | MFinish who _ _ | MFence who _ _ => refresher who
  | MRefreshed n _ => Some n
  | _ => None
  end.
Definition same_refresh (pc : MobilePc) : Prop :=
  match pc with
  | MTermClose _ _ n who _ | MTermWait _ _ n who _ | MTermRemove _ _ n who _ _ => forall m, refresher who = Some m -> m = n
  | _ => True
  end.

(** ** Invariant *)

Abbreviation st_of s := (owned (mach s)).
Definition mentry (s : Mobile) (k : DiscoveryKind) (h : Z) : option nat := entries (mslab k s) !! h.
Definition mfresh (s : Mobile) (k : DiscoveryKind) : Z := next (mslab k s).
Definition wfences (s : Mobile) : list nat := concat (r_cleanups <$> waiting (mach s)).
Definition over_native (s : Mobile) (n : nat) : Prop := is_Some (ended_of s n).
Definition refreshes (s : Mobile) (n j : nat) : Prop := exists pc, mcalls s !! j = Some pc /\ refresh_of pc = Some n.

Record pc_ok (s : Mobile) (pc : MobilePc) : Prop := mkPcOk {
  k_lease : forall id, RLease id ∈ res pc -> exists l, leases (mach s) !! id = Some l /\ l_active l = true;
  k_claim : forall k h, RClaim k h ∈ res pc -> sessions (st_of s) !! (k, h) = None /\ (h < mfresh s k)%Z;
  k_fence : forall f, RFence f ∈ res pc -> f ∈ wfences s;
  k_native : forall id n, leased_native pc = Some (id, n) -> exists nv l, natives s !! n = Some nv /\ leases (mach s) !! id = Some l /\
    nv_lease nv = id /\ nv_owner nv = l_owner l;
  k_kind : forall k h n, named pc = Some (k, h, n) \/ (unplaced pc = Some (k, n) /\ h = 0%Z) -> exists nv, natives s !! n = Some nv /\ nv_kind nv = k;
  k_named : forall k h n, named pc = Some (k, h, n) -> (h < mfresh s k)%Z /\ forall n', mentry s k h = Some n' -> n' = n;
  k_lands : forall k h n, named pc = Some (k, h, n) -> lands pc = true -> mentry s k h = Some n \/ over_native s n;
  k_joins : forall n j, (n, j) ∈ joins pc -> refreshes s n j;
  k_over : forall n, over pc = Some n -> over_native s n;
  k_same : same_refresh pc
}.

Record mob_inv (s : Mobile) : Prop := mkMobInv {
  v_pc : forall i pc, mcalls s !! i = Some pc -> pc_ok s pc;
  v_own : forall i j pc pc' r, mcalls s !! i = Some pc -> mcalls s !! j = Some pc' -> r ∈ res pc -> r ∈ res pc' -> i = j;
  v_entry : forall k h n, mentry s k h = Some n -> (h < mfresh s k)%Z /\ (exists nv, natives s !! n = Some nv /\ nv_kind nv = k) /\
    forall i pc k', mcalls s !! i = Some pc -> unplaced pc <> Some (k', n);
  v_inj : forall k h k' h' n, mentry s k h = Some n -> mentry s k' h' = Some n -> h = h';
  v_tracked : forall k h t, sessions (st_of s) !! (k, h) = Some t -> (h < mfresh s k)%Z;
  v_slot : forall n nv j, natives s !! n = Some nv -> nv_refresh nv = Some j -> refreshes s n j
}.

(** ** What other calls see of a step *)

(** [R]: what the moving call owns. *)
Record eff (s s' : Mobile) (R : list Res) : Prop := mkEff {
  e_lease : forall id l, (RLease id ∉ R) -> leases (mach s) !! id = Some l -> leases (mach s') !! id = Some l;
  e_claim : forall k h, (RClaim k h ∉ R) -> sessions (st_of s) !! (k, h) = None -> (h < mfresh s k)%Z -> sessions (st_of s') !! (k, h) = None;
  e_fence : forall f, (RFence f ∉ R) -> f ∈ wfences s -> f ∈ wfences s';
  e_native : forall n nv, natives s !! n = Some nv -> exists nv', natives s' !! n = Some nv' /\ nv_kind nv' = nv_kind nv /\
    nv_lease nv' = nv_lease nv /\ nv_owner nv' = nv_owner nv /\ (is_Some (nv_ended nv) -> is_Some (nv_ended nv'));
  e_fresh : forall k, (mfresh s k <= mfresh s' k)%Z;
  e_entry : forall k h n, (h < mfresh s k)%Z -> mentry s' k h = Some n -> mentry s k h = Some n;
  e_keep : forall k h n, (RClaim k h ∉ R) -> mentry s k h = Some n -> mentry s' k h = Some n \/ over_native s' n;
  e_refresh : forall n j, refreshes s n j -> refreshes s' n j
}.

Lemma over_eff s s' R n : eff s s' R -> over_native s n -> over_native s' n.
Proof.
  intros He. unfold over_native, ended_of. destruct (natives s !! n) as [nv|] eqn:E; cbn; [|by intros []].
  destruct (e_native _ _ _ He _ _ E) as (nv' & -> & _ & _ & _ & Hk). done.
Qed.

Lemma leased_res pc id n : leased_native pc = Some (id, n) -> RLease id ∈ res pc.
Proof. destruct pc; cbn; intros [=]; subst; set_solver. Qed.
Lemma lands_res pc k h n : named pc = Some (k, h, n) -> lands pc = true -> RClaim k h ∈ res pc.
Proof. destruct pc; cbn; intros [=] ?; subst; try done; set_solver. Qed.

Lemma pc_stable s s' R pc : eff s s' R -> (forall r, r ∈ res pc -> r ∉ R) -> pc_ok s pc -> pc_ok s' pc.
Proof.
  intros He HR [H1 H2 H3 H4 H5 H6 H7 H8 H9 H10]. split; [| | | | | | | | |done].
  - intros id Hid. destruct (H1 id Hid) as (l & Hl & Ha). exists l. split; [|done]. apply (e_lease _ _ _ He); [by apply HR|done].
  - intros k h Hk. destruct (H2 k h Hk) as [Hs Hh]. split; [apply (e_claim _ _ _ He); [by apply HR|done|done]|].
    pose proof (e_fresh _ _ _ He k). lia.
  - intros f Hf. apply (e_fence _ _ _ He); [by apply HR|by apply H3].
  - intros id n Hn. destruct (H4 id n Hn) as (nv & l & E & El & E1 & E2). destruct (e_native _ _ _ He _ _ E) as (nv' & E' & _ & F1 & F2 & _).
    exists nv', l. split_and!; [done| |congruence|congruence]. apply (e_lease _ _ _ He); [|done]. by apply HR, (leased_res _ _ n).
  - intros k h n Hn. destruct (H5 k h n Hn) as (nv & E & Ek). destruct (e_native _ _ _ He _ _ E) as (nv' & E' & F & _). exists nv'. split; [done|congruence].
  - intros k h n Hn. destruct (H6 k h n Hn) as [Hh Hu]. pose proof (e_fresh _ _ _ He k). split; [lia|]. intros n' E. apply Hu. by apply (e_entry _ _ _ He).
  - intros k h n Hn Hl. destruct (H7 k h n Hn Hl) as [E|Ho]; [|right; by eapply over_eff]. apply (e_keep _ _ _ He); [|done]. apply HR. by eapply lands_res.
  - intros n j Hj. by apply (e_refresh _ _ _ He), H8.
  - intros n Hn. eapply over_eff; [done|by apply H9].
Qed.

(** Nobody owns it. *)
Definition free (s : Mobile) (r : Res) : Prop := forall i pc, mcalls s !! i = Some pc -> r ∉ res pc.
Definition owns (s : Mobile) (i : nat) (r : Res) : Prop := exists pc, mcalls s !! i = Some pc /\ r ∈ res pc.

Record moved (s s' : Mobile) (i0 : nat) : Prop := mkMoved {
  d_eff : exists R, eff s s' R /\ forall r, r ∈ R -> owns s i0 r;
  d_other : forall i pc, i <> i0 -> mcalls s' !! i = Some pc ->
    mcalls s !! i = Some pc \/ (res pc = [] /\ pc_ok s' pc /\ unplaced pc = None);
  d_pc : forall pc, mcalls s' !! i0 = Some pc -> pc_ok s' pc;
  d_own : forall pc r, mcalls s' !! i0 = Some pc -> r ∈ res pc -> owns s i0 r \/ free s r;
  d_unplaced : forall pc k n, mcalls s' !! i0 = Some pc -> unplaced pc = Some (k, n) ->
    (exists old k', mcalls s !! i0 = Some old /\ unplaced old = Some (k', n)) \/ natives s !! n = None;
  d_entry : forall k h n, mentry s' k h = Some n -> mentry s k h = Some n \/
    ((h < mfresh s' k)%Z /\ (exists nv, natives s' !! n = Some nv /\ nv_kind nv = k) /\
     (forall i pc k', mcalls s' !! i = Some pc -> unplaced pc <> Some (k', n)) /\ forall k' h', mentry s' k' h' = Some n -> h' = h);
  d_tracked : forall k h t, sessions (st_of s') !! (k, h) = Some t -> sessions (st_of s) !! (k, h) = Some t \/ (h < mfresh s' k)%Z;
  d_slot : forall n nv j, natives s' !! n = Some nv -> nv_refresh nv = Some j ->
    (exists nv0, natives s !! n = Some nv0 /\ nv_refresh nv0 = Some j) \/ refreshes s' n j
}.

Lemma mob_inv_moved s s' i0 : mob_inv s -> moved s s' i0 -> mob_inv s'.
Proof.
  intros [V1 V2 V3 V4 V5 V6] [(R & He & HR) D2 D3 D4 D5 D6 D7 D8]. split.
  - intros i pc Hi. destruct (decide (i = i0)) as [->|Hne]; [by apply D3|].
    destruct (D2 i pc Hne Hi) as [Ho|(_ & ? & _)]; [|done]. apply (pc_stable s s' R); [done| |by eapply V1].
    intros r Hr HRr. destruct (HR r HRr) as (old & E & Hro). by apply Hne, (V2 i i0 pc old r).
  - assert (forall i pc r, i <> i0 -> mcalls s' !! i = Some pc -> r ∈ res pc -> mcalls s !! i = Some pc) as Hold.
    { intros i pc r Hne Hi Hr. destruct (D2 i pc Hne Hi) as [?|(E & _)]; [done|]. rewrite E in Hr. by apply not_elem_of_nil in Hr. }
    assert (forall i pc pc' r, i <> i0 -> mcalls s' !! i = Some pc -> mcalls s' !! i0 = Some pc' -> r ∈ res pc -> r ∈ res pc' -> False) as Hx.
    { intros i pc pc' r Hne Hi Hi0 Hr Hr'. pose proof (Hold _ _ _ Hne Hi Hr) as Ho. destruct (D4 _ _ Hi0 Hr') as [(old & E & Hro)|Hf].
      - by apply Hne, (V2 i i0 pc old r).
      - by apply (Hf i pc). }
    intros i j pc pc' r Hi Hj Hr Hr'. destruct (decide (i = i0)) as [->|Hi0], (decide (j = i0)) as [->|Hj0]; [done|exfalso; eauto..|].
    eapply V2; eauto.
  - intros k h n E. destruct (D6 k h n E) as [Eo|(? & ? & ? & _)]; [|done]. destruct (V3 k h n Eo) as (Hh & (nv & En & Ek) & Hu).
    split_and!.
    + pose proof (e_fresh _ _ _ He k). lia.
    + destruct (e_native _ _ _ He _ _ En) as (nv' & E' & F & _). exists nv'. split; [done|congruence].
    + intros i pc k' Hi Hp. destruct (decide (i = i0)) as [->|Hne].
      * destruct (D5 pc k' n Hi Hp) as [(old & k0 & Eold & Hp0)|Hnone]; [by eapply Hu|congruence].
      * destruct (D2 i pc Hne Hi) as [Ho|(_ & _ & Hnone)]; [by eapply Hu|congruence].
  - intros k h k' h' n E E'. destruct (D6 k h n E) as [Eo|(_ & _ & _ & Hq)]; [|symmetry; by eapply Hq].
    destruct (D6 k' h' n E') as [Eo'|(_ & _ & _ & Hq)]; [by eapply V4|by eapply Hq].
  - intros k h t E. destruct (D7 k h t E) as [Eo|?]; [|done]. apply V5 in Eo. pose proof (e_fresh _ _ _ He k). lia.
  - intros n nv j E Ej. destruct (D8 n nv j E Ej) as [(nv0 & E0 & Ej0)|?]; [|done]. by eapply (e_refresh _ _ _ He), V6.
Qed.

(** ** Moves *)

(** The part of [eff] that is not about calls. *)
Record world (s s' : Mobile) (R : list Res) : Prop := mkWorld {
  w_lease : forall id l, (RLease id ∉ R) -> leases (mach s) !! id = Some l -> leases (mach s') !! id = Some l;
  w_claim : forall k h, (RClaim k h ∉ R) -> sessions (st_of s) !! (k, h) = None -> (h < mfresh s k)%Z -> sessions (st_of s') !! (k, h) = None;
  w_fence : forall f, (RFence f ∉ R) -> f ∈ wfences s -> f ∈ wfences s';
  w_native : forall n nv, natives s !! n = Some nv -> exists nv', natives s' !! n = Some nv' /\ nv_kind nv' = nv_kind nv /\
    nv_lease nv' = nv_lease nv /\ nv_owner nv' = nv_owner nv /\ (is_Some (nv_ended nv) -> is_Some (nv_ended nv'));
  w_fresh : forall k, (mfresh s k <= mfresh s' k)%Z;
  w_entry : forall k h n, (h < mfresh s k)%Z -> mentry s' k h = Some n -> mentry s k h = Some n;
  w_keep : forall k h n, (RClaim k h ∉ R) -> mentry s k h = Some n -> mentry s' k h = Some n \/ over_native s' n
}.

Lemma world_eff s s' R : world s s' R -> (forall n j, refreshes s n j -> refreshes s' n j) -> eff s s' R.
Proof. intros [] ?. by split. Qed.

(** The calls play no part in it. *)
Lemma world_calls s s1 l R : world s s1 R -> world s (mkMobile (mach s1) (mslabs s1) (natives s1) l) R.
Proof. intros []. by split. Qed.

(** A registration only changes in what it may lose or gain. *)
Definition native_le (nv nv' : Native) : Prop :=
  nv_kind nv' = nv_kind nv /\ nv_lease nv' = nv_lease nv /\ nv_owner nv' = nv_owner nv /\ (is_Some (nv_ended nv) -> is_Some (nv_ended nv')).
Definition natives_le (l l' : list Native) : Prop := forall n nv, l !! n = Some nv -> exists nv', l' !! n = Some nv' /\ native_le nv nv'.

Lemma natives_le_refl l : natives_le l l.
Proof. intros n nv E. exists nv. done. Qed.
Lemma natives_le_trans l1 l2 l3 : natives_le l1 l2 -> natives_le l2 l3 -> natives_le l1 l3.
Proof.
  intros H1 H2 n nv E. destruct (H1 _ _ E) as (nv1 & E1 & A1 & A2 & A3 & A4). destruct (H2 _ _ E1) as (nv2 & E2 & B1 & B2 & B3 & B4).
  exists nv2. split; [done|]. split_and!; [congruence..|]. auto.
Qed.
Lemma natives_le_alter f n l : (forall nv, native_le nv (f nv)) -> natives_le l (alter f n l).
Proof.
  intros Hf m nv E. rewrite list_lookup_alter. case_decide; [subst; rewrite E; cbn; by eexists|]. exists nv. done.
Qed.

(** The registrations change, and nothing else but calls. *)
Lemma world_quiet s s' :
  mach s' = mach s -> mslabs s' = mslabs s -> natives_le (natives s) (natives s') -> world s s' [].
Proof.
  intros Em Es Hn.
  assert (forall k, mslab k s' = mslab k s) as Hs by (intros; unfold mslab; by rewrite Es).
  split; unfold wfences, mfresh, mentry; rewrite ?Em; try done; try (intros *; rewrite ?Hs; auto; lia).
Qed.

Definition slots_le (s s' : Mobile) : Prop :=
  forall n nv j, natives s' !! n = Some nv -> nv_refresh nv = Some j -> exists nv0, natives s !! n = Some nv0 /\ nv_refresh nv0 = Some j.

Lemma slots_refl s s' : natives s' = natives s -> slots_le s s'.
Proof. intros E n nv j Hn Hj. exists nv. by rewrite <- E. Qed.
Lemma slots_alter s f n l m sl :
  (forall nv j, nv_refresh (f nv) = Some j -> nv_refresh nv = Some j) -> slots_le s (mkMobile m sl (alter f n (natives s)) l).
Proof.
  intros Hf n' nv j. cbn. rewrite list_lookup_alter. destruct (decide (n = n')) as [<-|]; [|by eauto].
  destruct (natives s !! n) as [nv0|]; cbn; [|done]. intros [= <-] Hj. eauto.
Qed.

(** A call that goes on. *)
Lemma refreshes_goto s s1 i old pc' n j :
  mcalls s !! i = Some old -> (exists l, mcalls s1 = mcalls s ++ l) -> (forall n, refresh_of old = Some n -> refresh_of pc' = Some n) ->
  refreshes s n j -> refreshes (mgoto i pc' s1) n j.
Proof.
  intros Hi [l Hl] Hr (pc & Hj & Hn). unfold refreshes. cbn. rewrite Hl. assert (i < length (mcalls s)) by (by eapply lookup_lt_Some).
  destruct (decide (i = j)) as [->|Hne].
  - exists pc'. rewrite list_lookup_insert_eq by (rewrite length_app; lia). split; [done|]. apply Hr. congruence.
  - exists pc. rewrite list_lookup_insert_ne by done. split; [|done]. by apply lookup_app_l_Some.
Qed.

Lemma moved_goto s s1 i old pc' R :
  mcalls s !! i = Some old -> mcalls s1 = mcalls s -> world s s1 R -> (forall r, r ∈ R -> r ∈ res old) ->
  (forall n, refresh_of old = Some n -> refresh_of pc' = Some n) ->
  (eff s (mgoto i pc' s1) R -> pc_ok (mgoto i pc' s1) pc') ->
  (forall r, r ∈ res pc' -> r ∈ res old \/ free s r) ->
  (forall k n, unplaced pc' = Some (k, n) -> (exists k', unplaced old = Some (k', n)) \/ natives s !! n = None) ->
  (forall k h n, mentry s1 k h = Some n -> mentry s k h = Some n \/
    ((h < mfresh s1 k)%Z /\ (exists nv, natives s1 !! n = Some nv /\ nv_kind nv = k) /\
     (forall j pc k', <[i := pc']> (mcalls s) !! j = Some pc -> unplaced pc <> Some (k', n)) /\ forall k' h', mentry s1 k' h' = Some n -> h' = h)) ->
  (forall k h t, sessions (st_of s1) !! (k, h) = Some t -> sessions (st_of s) !! (k, h) = Some t \/ (h < mfresh s1 k)%Z) ->
  (forall n nv j, natives s1 !! n = Some nv -> nv_refresh nv = Some j ->
    (exists nv0, natives s !! n = Some nv0 /\ nv_refresh nv0 = Some j) \/ refreshes (mgoto i pc' s1) n j) ->
  moved s (mgoto i pc' s1) i.
Proof.
  intros Hi Hc Hw HR Hr Hok Ho Hu He Ht Hs.
  assert (eff s (mgoto i pc' s1) R) as Heff.
  { apply world_eff; [by apply world_calls|]. intros n j. apply (refreshes_goto s s1 i old); [done|exists []; by rewrite app_nil_r|done]. }
  assert (mcalls (mgoto i pc' s1) !! i = Some pc') as Hi'.
  { cbn. rewrite Hc. apply list_lookup_insert_eq. by eapply lookup_lt_Some. }
  split; try done.
  - exists R. split; [done|]. intros r Hrr. exists old. auto.
  - intros j pc Hne Hj. cbn in Hj. rewrite list_lookup_insert_ne, Hc in Hj by done. by left.
  - intros pc Hpc. rewrite Hi' in Hpc. injection Hpc as <-. auto.
  - intros pc r Hpc Hrr. rewrite Hi' in Hpc. injection Hpc as <-. destruct (Ho r Hrr); [left; by exists old|by right].
  - intros pc k n Hpc Hn. rewrite Hi' in Hpc. injection Hpc as <-. destruct (Hu k n Hn) as [[k' ?]|?]; [left; by exists old, k'|by right].
  - intros k h n E. destruct (He k h n E) as [?|(? & ? & Hq & ?)]; [by left|]. right. split_and!; try done.
    intros j pc k'. cbn. rewrite Hc. apply Hq.
Qed.

(** What the next section knows it knew before. *)
Record follows (old pc : MobilePc) : Prop := mkFollows {
  fo_res : forall r, r ∈ res pc -> r ∈ res old;
  fo_leased : forall x, leased_native pc = Some x -> leased_native old = Some x;
  fo_unplaced : forall x, unplaced pc = Some x -> unplaced old = Some x;
  fo_named : forall x, named pc = Some x -> named old = Some x;
  fo_lands : lands pc = true -> lands old = true;
  fo_same : same_refresh old -> same_refresh pc
}.

Lemma follows_ok s old pc : pc_ok s old -> follows old pc -> (forall n, over pc = Some n -> over_native s n) ->
  (forall n j, (n, j) ∈ joins pc -> refreshes s n j) -> pc_ok s pc.
Proof.
  intros [H1 H2 H3 H4 H5 H6 H7 H8 H9 H10] [F1 F2 F3 F4 F5 F6] Ho Hj. split; eauto.
  - intros k h n Hx. apply (H5 k h n). destruct Hx as [?|[? ?]]; [left|right]; auto.
Qed.

Lemma moved_quiet s s1 i old pc' :
  mob_inv s -> mcalls s !! i = Some old -> mcalls s1 = mcalls s -> mach s1 = mach s -> mslabs s1 = mslabs s ->
  natives_le (natives s) (natives s1) -> slots_le s s1 ->
  (forall n, refresh_of old = Some n -> refresh_of pc' = Some n) ->
  (forall n, over pc' = Some n -> over_native s1 n) ->
  (pc_ok s old -> (forall n, over pc' = Some n -> over_native (mgoto i pc' s1) n) ->
     eff s (mgoto i pc' s1) [] -> pc_ok (mgoto i pc' s1) old -> pc_ok (mgoto i pc' s1) pc') ->
  (forall r, r ∈ res pc' -> r ∈ res old) -> (forall x, unplaced pc' = Some x -> unplaced old = Some x) ->
  moved s (mgoto i pc' s1) i.
Proof.
  intros Hinv Hi Hc Em Es Hn Hsl Hr Hov Hok Hres Hun. pose proof (v_pc _ Hinv _ _ Hi) as Hold.
  assert (forall k, mslab k s1 = mslab k s) as Hs by (intros; unfold mslab; by rewrite Es).
  apply (moved_goto s s1 i old pc' []); try done.
  - by apply world_quiet.
  - intros r Hx. by apply not_elem_of_nil in Hx.
  - intros He. apply Hok; [done|done|done|]. apply (pc_stable s _ []); [done|intros r _ Hx; by apply not_elem_of_nil in Hx|done].
  - intros r Hx. left. auto.
  - intros k n Hx. left. eauto.
  - intros k h n. unfold mentry. rewrite Hs. by left.
  - rewrite Em. by left.
  - intros n nv j E Ej. left. by eapply Hsl.
Qed.

(** A quiet move to a section that follows. *)
Lemma moved_follows s s1 i old pc' :
  mob_inv s -> mcalls s !! i = Some old -> mcalls s1 = mcalls s -> mach s1 = mach s -> mslabs s1 = mslabs s ->
  natives_le (natives s) (natives s1) -> slots_le s s1 ->
  (forall n, refresh_of old = Some n -> refresh_of pc' = Some n) ->
  (forall n, over pc' = Some n -> over_native s1 n) -> (forall n j, (n, j) ∈ joins pc' -> (n, j) ∈ joins old \/ refreshes s n j) ->
  follows old pc' -> moved s (mgoto i pc' s1) i.
Proof.
  intros Hinv Hi Hc Em Es Hn Hsl Hr Hov Hj Hf. apply (moved_quiet s s1 i old pc'); try done; try apply Hf.
  intros Hold Ho He Hp. eapply follows_ok; [done|done|done|]. intros n j Hx. apply (e_refresh _ _ _ He).
  destruct (Hj _ _ Hx); [by apply (k_joins _ _ Hold)|done].
Qed.

(** ** Custody of a registration *)

Definition live (s : Mobile) (n : nat) : Prop := exists nv, natives s !! n = Some nv /\ nv_ended nv = None.

(** A start is at work on it. *)
Definition leased (s : Mobile) (n : nat) : Prop := exists i pc id, mcalls s !! i = Some pc /\ leased_native pc = Some (id, n).
(** It is in its slab under a handle that is tracked for its owner. *)
Definition tracked (s : Mobile) (n : nat) : Prop :=
  exists nv h t, natives s !! n = Some nv /\ mentry s (nv_kind nv) h = Some n /\
    sessions (st_of s) !! (nv_kind nv, h) = Some t /\ t_owner t = nv_owner nv.
(** A call closes it, or is about to, before it finishes the fence [f]. *)
Definition guards (s : Mobile) (pc : MobilePc) (n f : nat) : Prop :=
  match pc with
  | MCloseRemove k h f' => f' = f /\ mentry s k h = Some n
  | MCloseClose _ n' f' | MCloseWait n' _ f' => n' = n /\ f' = f
  | MTermClose _ _ n' _ (Some f') | MTermWait _ _ n' _ (Some f') => n' = n /\ f' = f
  | MRetire r todo held => f ∈ r_cleanups r /\
      (n ∈ held.*1 \/ exists t, t ∈ todo /\ mentry s (t_kind t) (t_handle t) = Some n)
  | _ => False
  end.
Definition guarded (s : Mobile) (n bound : nat) : Prop :=
  exists i pc f nv fence, mcalls s !! i = Some pc /\ guards s pc n f /\ f < bound /\ natives s !! n = Some nv /\
    fences (st_of s) !! f = Some fence /\ f_label fence = owner_label (nv_owner nv).

Lemma guards_res s pc n f : guards s pc n f -> RFence f ∈ res pc.
Proof.
  destruct pc; cbn; try done; try (case_match; [|done]); intros [H1 H2]; subst; set_solver.
Qed.

Record custody (s : Mobile) : Prop := mkCustody {
  c_live : forall n, live s n -> leased s n \/ tracked s n \/ guarded s n (length (fences (st_of s)));
  c_older : forall n nv id l, natives s !! n = Some nv -> nv_ended nv = None -> leases (mach s) !! id = Some l ->
    older (nv_owner nv) (l_owner l) -> leased s n \/ guarded s n (since l)
}.

(** A step passes on what the moving call has. *)
Record transfer (s s' : Mobile) (i0 : nat) : Prop := mkTransfer {
  t_leased : forall pc id n, mcalls s !! i0 = Some pc -> leased_native pc = Some (id, n) ->
    over_native s' n \/ (exists pc' id', mcalls s' !! i0 = Some pc' /\ leased_native pc' = Some (id', n)) \/ tracked s' n;
  t_other : forall i pc, i <> i0 -> mcalls s !! i = Some pc -> mcalls s' !! i = Some pc;
  t_sessions : forall k h t n nv, sessions (st_of s) !! (k, h) = Some t -> mentry s k h = Some n -> natives s !! n = Some nv ->
    nv_kind nv = k -> t_owner t = nv_owner nv ->
    sessions (st_of s') !! (k, h) = Some t \/ over_native s' n \/ guarded s' n (length (fences (st_of s')));
  t_guard : forall pc n f, mcalls s !! i0 = Some pc -> guards s pc n f ->
    over_native s' n \/ exists pc', mcalls s' !! i0 = Some pc' /\ guards s' pc' n f;
  t_new : forall n, natives s !! n = None -> is_Some (natives s' !! n) -> leased s' n;
  t_cells : cells_le (st_of s) (st_of s');
  t_leases : forall id l, leases (mach s') !! id = Some l ->
    (exists l0, leases (mach s) !! id = Some l0 /\ l_owner l = l_owner l0 /\ since l = since l0 /\ prior_cleanup l = prior_cleanup l0) \/ since l = length (fences (st_of s'))
}.

Lemma over_not_live s n : live s n -> over_native s n -> False.
Proof. intros (nv & E & Hn) [o Ho]. unfold ended_of in Ho. rewrite E in Ho. cbn in Ho. congruence. Qed.

Lemma tracked_current s n nv : owners_ok (st_of s) -> tracked s n -> natives s !! n = Some nv -> owner_is_current (st_of s) (nv_owner nv) = true.
Proof.
  intros [Hok _] (nv' & h & t & E & _ & Ht & Eo) E'. assert (nv' = nv) as -> by congruence. apply Hok in Ht as [_ Hc]. by rewrite <- Eo.
Qed.

Section pass.
Context (s s' : Mobile) (i0 : nat) (R : list Res) (Hinv : mob_inv s) (He : eff s s' R) (HR : forall r, r ∈ R -> owns s i0 r) (Ht : transfer s s' i0).

Lemma pass_leased n : leased s n -> live s' n -> leased s' n \/ tracked s' n.
Proof.
  intros (i & pc & id & Hi & Hn) Hl. destruct (decide (i = i0)) as [->|Hne].
  - destruct (t_leased _ _ _ Ht _ _ _ Hi Hn) as [Ho|[(pc' & id' & Hi' & Hn')|?]]; [by destruct (over_not_live s' n)|left|by right]. by exists i0, pc', id'.
  - left. exists i, pc, id. split; [|done]. by eapply t_other.
Qed.

Lemma not_claimed k h t : sessions (st_of s) !! (k, h) = Some t -> RClaim k h ∉ R.
Proof. intros Hs Hk. destruct (HR _ Hk) as (pc & Hi & Hr). destruct (k_claim _ _ (v_pc _ Hinv _ _ Hi) _ _ Hr). congruence. Qed.

Lemma pass_tracked n : tracked s n -> live s' n -> tracked s' n \/ guarded s' n (length (fences (st_of s'))).
Proof.
  intros (nv & h & t & E & En & Hs & Ho) Hl. destruct (e_native _ _ _ He _ _ E) as (nv' & E' & Ek & _ & Eo & _).
  destruct (t_sessions _ _ _ Ht _ _ _ _ _ Hs En E eq_refl Ho) as [Hs'|[Hov|?]]; [|by destruct (over_not_live s' n)|by right].
  destruct (e_keep _ _ _ He _ _ _ (not_claimed _ _ _ Hs) En) as [En'|Hov]; [|by destruct (over_not_live s' n)].
  left. exists nv', h, t. rewrite Ek, Eo. done.
Qed.

Lemma pass_guarded n b : guarded s n b -> live s' n -> guarded s' n b.
Proof.
  intros (i & pc & f & nv & fence & Hi & Hg & Hb & E & Ef & El) Hl. destruct (e_native _ _ _ He _ _ E) as (nv' & E' & _ & _ & Eo & _).
  destruct (le_fence _ _ (t_cells _ _ _ Ht) _ _ Ef) as (o & Ef' & _).
  assert (exists i' pc', mcalls s' !! i' = Some pc' /\ guards s' pc' n f) as (i' & pc' & Hi' & Hg').
  { destruct (decide (i = i0)) as [->|Hne].
    - destruct (t_guard _ _ _ Ht _ _ _ Hi Hg) as [Ho|(pc' & ? & ?)]; [by destruct (over_not_live s' n)|by exists i0, pc'].
    - exists i, pc. split; [by eapply t_other|].
      assert (forall k h, RClaim k h ∈ res pc -> mentry s k h = Some n -> mentry s' k h = Some n) as Hk.
      { intros k h Hc En. destruct (e_keep _ _ _ He k h n) as [?|Ho]; [|done|done|by destruct (over_not_live s' n)].
        intros Hr. destruct (HR _ Hr) as (old & Hi0 & Hro). by apply Hne, (v_own _ Hinv i i0 pc old (RClaim k h)). }
      destruct pc; cbn in *; try done.
      + destruct Hg as [-> En]. split; [done|]. apply Hk; [set_solver|done].
      + destruct Hg as [Hf [?|(t & Ht' & En)]]; (split; [done|]); [by left|]. right. exists t. split; [done|]. apply Hk; [|done].
        apply elem_of_app. right. apply list_elem_of_fmap. by exists t. }
  exists i', pc', f, nv', (mkFence (f_label fence) (f_previous fence) (f_starts fence) o). rewrite Eo. done.
Qed.

Lemma was_live n nv' : natives s' !! n = Some nv' -> nv_ended nv' = None ->
  natives s !! n = None \/ exists nv, natives s !! n = Some nv /\ nv_ended nv = None /\ nv_owner nv = nv_owner nv'.
Proof.
  intros E Hn. destruct (natives s !! n) as [nv|] eqn:E0; [right|by left]. destruct (e_native _ _ _ He _ _ E0) as (nv1 & E1 & _ & _ & Eo & Hk).
  assert (nv1 = nv') as -> by congruence. exists nv. split_and!; [done| |done]. destruct (nv_ended nv) eqn:E2; [|done].
  destruct Hk as [x Hx]; [by eexists|congruence].
Qed.

Lemma custody_pass : owners_ok (st_of s') -> order_inv (mach s') -> custody s -> custody s'.
Proof.
  intros Hok Hord [C1 C2].
  assert (forall n, live s' n -> leased s' n \/ tracked s' n \/ guarded s' n (length (fences (st_of s')))) as Hlive.
  { intros n (nv' & E & Hn). destruct (was_live _ _ E Hn) as [Hnone|(nv & E0 & Hn0 & _)].
    - left. apply (t_new _ _ _ Ht); [done|by eexists].
    - assert (live s' n) as Hl by (by exists nv'). destruct (C1 n) as [H|[H|H]]; [by exists nv|..].
      + destruct (pass_leased n H Hl); auto.
      + destruct (pass_tracked n H Hl); auto.
      + right; right. apply (pass_guarded n _) in H; [|done]. destruct H as (i & pc & f & nv2 & fence & H1 & H2 & H3 & H4 & H5 & H6).
        exists i, pc, f, nv2, fence. split_and!; try done. by eapply lookup_lt_Some. }
  assert (forall n nv id l, natives s' !! n = Some nv -> leases (mach s') !! id = Some l -> older (nv_owner nv) (l_owner l) -> ~ tracked s' n) as Hnot.
  { intros n nv id l E Hl Ho Htr. pose proof (tracked_current _ _ _ Hok Htr E) as Hc. destruct (o_lease _ Hord _ _ Hl) as (_ & Hr & _).
    apply (older_stale _ _ _ Hr), stale_not_current in Ho. congruence. }
  split; [done|]. intros n nv' id l E Hn Hl Ho. assert (live s' n) as Hlv by (by exists nv').
  destruct (t_leases _ _ _ Ht _ _ Hl) as [(l0 & Hl0 & Eo & Es & _)|Es].
  - destruct (was_live _ _ E Hn) as [Hnone|(nv & E0 & Hn0 & Eow)]; [left; apply (t_new _ _ _ Ht); [done|by eexists]|].
    destruct (C2 n nv id l0) as [H|H]; [done|done|done|by rewrite Eow, <- Eo|..].
    + destruct (pass_leased n H Hlv) as [?|Htr]; [by left|]. by destruct (Hnot _ _ _ _ E Hl Ho).
    + right. rewrite Es. by apply pass_guarded.
  - destruct (Hlive n Hlv) as [?|[Htr|?]]; [by left|by destruct (Hnot _ _ _ _ E Hl Ho)|right; by rewrite Es].
Qed.
End pass.
