(* ===== verification/MobileDiscoverySteps.v ===== *)
(** * Mobile discovery: what every section passes on

    Section by section: what a call owns stays its own, other calls see none of
    it, and a registration that a call has in hand is passed on to the next
    section, to a tracked handle or to the native side. *)

From stdpp Require Import base numbers list strings sets gmap fin_maps relations.
From Stdlib Require Import ZArith Lia.
From S2P Require Import Prelude Extern TauriState Ownership OwnershipProps OwnershipFence OwnershipOrder MobileDiscovery MobileDiscoveryFacts.

Open Scope string_scope.
Open Scope list_scope.

(** ** Moves that leave the ownership state alone *)

Definition advances (s s' : Mobile) (i : nat) : Prop := moved s s' i /\ transfer s s' i.

(** What the moving call passes on to its next section. *)
Definition hands_over (s s' : Mobile) (old pc' : MobilePc) : Prop :=
  (forall id n, leased_native old = Some (id, n) -> over_native s' n \/ leased_native pc' = Some (id, n) \/ tracked s' n) /\
  (forall n f, guards s old n f -> over_native s' n \/ guards s' pc' n f).

Lemma goto_at i pc' s1 (l : list MobilePc) old : l !! i = Some old -> mcalls s1 = l -> mcalls (mgoto i pc' s1) !! i = Some pc'.
Proof. intros Hi Hc. cbn. rewrite Hc. apply list_lookup_insert_eq. by eapply lookup_lt_Some. Qed.

Lemma transfer_goto s s1 i old pc' :
  mcalls s !! i = Some old -> mcalls s1 = mcalls s -> hands_over s (mgoto i pc' s1) old pc' ->
  (forall k h t n nv, sessions (st_of s) !! (k, h) = Some t -> mentry s k h = Some n -> natives s !! n = Some nv ->
    nv_kind nv = k -> t_owner t = nv_owner nv ->
    sessions (st_of s1) !! (k, h) = Some t \/ over_native s1 n \/ guarded (mgoto i pc' s1) n (length (fences (st_of s1)))) ->
  (forall n, natives s !! n = None -> is_Some (natives s1 !! n) -> exists id, leased_native pc' = Some (id, n)) ->
  cells_le (st_of s) (st_of s1) ->
  (forall id l, leases (mach s1) !! id = Some l -> exists l0, leases (mach s) !! id = Some l0 /\ l_owner l = l_owner l0 /\ since l = since l0 /\ prior_cleanup l = prior_cleanup l0) ->
  transfer s (mgoto i pc' s1) i.
Proof.
  intros Hi Hc [Hl Hg] Hs Hn Hle Hls. pose proof (goto_at i pc' s1 _ _ Hi Hc) as Hi'. split; try done.
  - intros pc id n Hpc Hx. assert (pc = old) as -> by congruence. destruct (Hl _ _ Hx) as [?|[?|?]]; [by left| |by right; right].
    right; left. by exists pc', id.
  - intros j pc Hne Hj. cbn. by rewrite list_lookup_insert_ne, Hc.
  - intros pc n f Hpc Hx. assert (pc = old) as -> by congruence. destruct (Hg _ _ Hx); [by left|]. right. by exists pc'.
  - intros n E E'. destruct (Hn n E E') as [id Hx]. by exists i, pc', id.
  - intros id l E. left. by apply Hls.
Qed.

Lemma advance_quiet s s1 i old pc' :
  mob_inv s -> mcalls s !! i = Some old -> mcalls s1 = mcalls s -> mach s1 = mach s -> mslabs s1 = mslabs s ->
  natives_le (natives s) (natives s1) -> length (natives s1) = length (natives s) -> slots_le s s1 ->
  (forall n, refresh_of old = Some n -> refresh_of pc' = Some n) ->
  (forall n, over pc' = Some n -> over_native s1 n) -> (forall n j, (n, j) ∈ joins pc' -> (n, j) ∈ joins old \/ refreshes s n j) ->
  follows old pc' -> hands_over s (mgoto i pc' s1) old pc' -> advances s (mgoto i pc' s1) i.
Proof.
  intros Hinv Hi Hc Em Es Hn Hlen Hsl Hr Hov Hj Hf Hh. split; [by apply (moved_follows s s1 i old)|].
  apply (transfer_goto s s1 i old); try done; rewrite ?Em.
  - intros *. by left.
  - intros n E [nv E']. apply lookup_lt_Some in E'. apply lookup_ge_None in E. lia.
  - apply cells_le_refl.
  - intros id l E. by exists l.
Qed.

(** A move that changes nothing but its own call. *)
Lemma advance_idle s i old pc' :
  mob_inv s -> mcalls s !! i = Some old ->
  (forall n, refresh_of old = Some n -> refresh_of pc' = Some n) ->
  (forall n, over pc' = Some n -> over_native s n) -> (forall n j, (n, j) ∈ joins pc' -> (n, j) ∈ joins old \/ refreshes s n j) ->
  follows old pc' -> hands_over s (mgoto i pc' s) old pc' -> advances s (mgoto i pc' s) i.
Proof. intros. apply (advance_quiet s s i old); try done; [apply natives_le_refl|by apply slots_refl]. Qed.

(** A move that changes one registration as well. *)
Lemma advance_native s i old pc' f n :
  mob_inv s -> mcalls s !! i = Some old -> (forall nv, native_le nv (f nv)) ->
  (forall nv j, nv_refresh (f nv) = Some j -> nv_refresh nv = Some j) ->
  (forall n, refresh_of old = Some n -> refresh_of pc' = Some n) ->
  (forall n, over pc' = Some n -> over_native s n) -> (forall n j, (n, j) ∈ joins pc' -> (n, j) ∈ joins old \/ refreshes s n j) ->
  follows old pc' -> hands_over s (mgoto i pc' (upd_native f n s)) old pc' -> advances s (mgoto i pc' (upd_native f n s)) i.
Proof.
  intros Hinv Hi Hf Hs Hr Ho Hj Hfo Hh. apply (advance_quiet s _ i old); try done.
  - by apply natives_le_alter.
  - by apply length_alter.
  - by apply slots_alter.
  - intros m Hm. destruct (Ho m Hm) as [o Eo]. unfold over_native, ended_of in *. cbn. rewrite list_lookup_alter. case_decide; [|done]. subst.
    destruct (natives s !! m) as [nv|]; cbn in *; [|done]. apply Hf. by eexists.
Qed.

(** The changes that sections make are of this kind. *)
Lemma nv_close_le nv : native_le nv (nv_close nv).
Proof. by split_and!. Qed.
Lemma nv_cancel_le nv : native_le nv (nv_send_cancel nv).
Proof. by split_and!. Qed.
Lemma nv_gate_le g nv : native_le nv (nv_set_gate g nv).
Proof. by split_and!. Qed.
Lemma nv_refresh_le j nv : native_le nv (nv_set_refresh j nv).
Proof. by split_and!. Qed.
Lemma nv_end_le o nv : native_le nv (nv_end o nv).
Proof. split_and!; try done. Qed.

(** [close_take] on its registration. *)
Definition touched (kind : DiscoveryKind) (nv : Native) : Native :=
  match kind with AdvertisePeer => nv_set_refresh None (nv_close (nv_send_cancel nv)) | _ => nv_close nv end.

Lemma touched_le kind nv : native_le nv (touched kind nv).
Proof. by destruct kind. Qed.
Lemma touched_slot kind nv j : nv_refresh (touched kind nv) = Some j -> nv_refresh nv = Some j.
Proof. by destruct kind. Qed.

Lemma close_take_native kind n s : (close_take kind n s).2 = upd_native (touched kind) n s.
Proof. destruct kind; try done. unfold close_take, take_refresh, close_session, close_engine, upd_native. cbn. by rewrite !list_alter_alter_eq. Qed.

Lemma close_take_slot kind n s j : (close_take kind n s).1 = Some j -> exists nv, natives s !! n = Some nv /\ nv_refresh nv = Some j.
Proof.
  destruct kind; try done. unfold close_take, take_refresh, close_session, close_engine, upd_native. cbn.
  rewrite list_alter_alter_eq, list_lookup_alter_eq. destruct (natives s !! n) as [nv|]; cbn; [|done]. intros Hj. by exists nv.
Qed.

Lemma close_take_joins kind n s m j : mob_inv s -> (m, j) ∈ join_of n (close_take kind n s).1 -> refreshes s m j.
Proof.
  intros Hi Hj. destruct (close_take kind n s).1 as [j'|] eqn:E; [|by apply not_elem_of_nil in Hj].
  apply list_elem_of_singleton in Hj as [= -> ->]. apply close_take_slot in E as (nv & En & Hr). by eapply v_slot.
Qed.

(** Whoever has awaited a registration finds it ended. *)
Lemma wait_over s n join outcome :
  mob_inv s -> wait_outcome s n join = Some outcome -> (forall j, join = Some j -> refreshes s n j) -> over_native s n.
Proof.
  intros Hi Hw Hj. destruct join as [j|]; cbn in Hw; [|by eexists]. destruct (Hj j eq_refl) as (pc & Hc & Hn). rewrite Hc in Hw.
  destruct pc; try done. cbn in Hn. injection Hn as ->. by apply (k_over _ _ (v_pc _ Hi _ _ Hc)).
Qed.

Lemma pc_joined s i pc n j : mob_inv s -> mcalls s !! i = Some pc -> (n, j) ∈ joins pc -> refreshes s n j.
Proof. intros Hi Hc. apply (k_joins _ _ (v_pc _ Hi _ _ Hc)). Qed.

Ltac tidy := repeat match goal with
  | H : _ ∈ [] |- _ => by apply not_elem_of_nil in H
  | H : _ /\ _ |- _ => destruct H
  | H : Some _ = Some _ |- _ => injection H as H; subst
  | H : (_, _) = (_, _) |- _ => injection H as H; subst
  end.
Ltac follow := split; cbn; intros; tidy; subst; try done; try set_solver; eauto.
Ltac hand := split; cbn; intros; tidy; subst; try done; eauto.

Ltac adv := try done; match goal with
  | |- forall n j, (n, j) ∈ joins _ -> _ =>
      let H := fresh in intros ? ? H; cbn in H; first [by apply not_elem_of_nil in H | by left | right; by eapply close_take_joins]
  | |- follows _ _ => follow
  | |- hands_over _ _ _ _ => hand
  | |- forall nv, native_le _ _ => first [apply nv_close_le | apply touched_le]
  | |- forall nv j, nv_refresh _ = _ -> _ => apply touched_slot
  end.

(** The sections that change at most a registration. *)
Lemma goes_quiet s i old p :
  mob_inv s -> mcalls s !! i = Some old -> goes_on s old p ->
  match old with
  | MBarrier _ _ | MArgs _ _ | MStart _ _ _ _ | MInsert _ _ _ | MSpawn _ _ _ | MSlot _ _ _ _ | MTrack _ _ _ _ | MUndo _ _ _ _
  | MReconcile _ _ _ | MEnd _ _ | MNext _ _ _ | MTermRemove _ _ _ _ _ _ | MFinish _ (Some _) _ | MCloseRemove _ _ _ | MRetire _ _ _ => False
  | _ => True
  end -> advances s (mgoto i p.1 p.2) i.
Proof.
  intros Hinv Hi Hg Hq. pose proof (v_pc _ Hinv _ _ Hi) as Hok.
  destruct Hg as [Hg|Hg|Hg|Hg|Hg]; destruct Hg; try done; cbn [fst snd].
  - (* claimed *) apply (advance_idle s i (MDelivered kind id n true)); adv.
  - (* unclaimed *) apply (advance_native s i (MDelivered kind id n waiter)); adv.
  - (* publish *) apply (advance_native s i (MPublish n handle)); adv.
  - (* undo *) rewrite close_take_native. apply (advance_native s i (MUndoClose kind id n)); adv.
  - apply (advance_idle s i (MGate handle n)); adv.
  - apply (advance_idle s i (MGate handle n)); adv.
  - apply (advance_idle s i (MLoop handle n)); adv.
  - apply (advance_native s i (MTermClose kind handle n who cleanup)); adv.
  - assert (over_native s n) as Ho by (by eexists). apply (advance_idle s i (MTermWait kind handle n who cleanup)); try done; [|adv..|].
    + cbn. intros m [= <-]. done.
    + split; cbn; [done|]. intros m f. case_match; [|done]. intros [<- _]. by left.
  - apply (advance_idle s i (MFinish who None outcome)); [done|done|by destruct who| |destruct who; adv|destruct who; adv|adv].
    intros m Hm. apply (k_over _ _ Hok). destruct who; cbn in *; congruence.
  - apply (advance_idle s i (MFence who f outcome)); [done|done|by destruct who| |destruct who; adv|destruct who; adv|adv].
    intros m Hm. apply (k_over _ _ Hok). destruct who; cbn in *; congruence.
  - (* close *) rewrite close_take_native. apply (advance_native s i (MCloseClose kind n f)); adv.
  - assert (over_native s n) as Ho.
    { eapply wait_over; [done|done|]. intros j ->. eapply pc_joined; [done|done|]. cbn. set_solver. }
    apply (advance_idle s i (MCloseWait n join f)); try done; [adv..|].
    split; cbn; [done|]. intros m f' [<- _]. by left.
  - apply (advance_idle s i (MCloseGet kind handle)); adv.
  - apply (advance_idle s i (MCloseGet kind handle)); adv.
  - rewrite close_take_native. apply (advance_native s i (MJoinClose kind n)); adv.
  - apply (advance_idle s i (MJoin n join)); adv.
Qed.

(** ** Leases *)

Lemma ok_done s a : pc_ok s (MDone a).
Proof. split; cbn; intros; tidy; try done. by destruct H as [?|[? ?]]. Qed.

Lemma world_lease s s1 id :
  mslabs s1 = mslabs s -> natives_le (natives s) (natives s1) -> sessions (st_of s1) = sessions (st_of s) -> waiting (mach s1) = waiting (mach s) ->
  (forall id', id' <> id -> leases (mach s1) !! id' = leases (mach s) !! id') -> world s s1 [RLease id].
Proof.
  intros Es Hn Hs Hw Hl. assert (forall k, mslab k s1 = mslab k s) as Hk by (intros; unfold mslab; by rewrite Es).
  split; unfold wfences, mfresh, mentry; rewrite ?Hw, ?Hs; try done; try (intros *; rewrite ?Hk; auto; lia).
  intros id' l Hid E. rewrite Hl; [done|]. intros ->. set_solver.
Qed.

(** A call whose lease changes hands. *)
Lemma advance_lease s s1 i old pc' id :
  mob_inv s -> mcalls s !! i = Some old -> RLease id ∈ res old -> (forall n, refresh_of old <> Some n) -> (forall n f, ~ guards s old n f) ->
  mcalls s1 = mcalls s -> mslabs s1 = mslabs s -> natives_le (natives s) (natives s1) -> length (natives s1) = length (natives s) -> slots_le s s1 ->
  sessions (st_of s1) = sessions (st_of s) -> waiting (mach s1) = waiting (mach s) -> cells_le (st_of s) (st_of s1) ->
  (forall id', id' <> id -> leases (mach s1) !! id' = leases (mach s) !! id') ->
  (forall l, leases (mach s1) !! id = Some l -> exists l0, leases (mach s) !! id = Some l0 /\ l_owner l = l_owner l0 /\ since l = since l0 /\ prior_cleanup l = prior_cleanup l0) ->
  (eff s (mgoto i pc' s1) [RLease id] -> pc_ok (mgoto i pc' s1) pc') -> (forall r, r ∈ res pc' -> r ∈ res old) ->
  (forall x, unplaced pc' = Some x -> unplaced old = Some x) ->
  (forall id n, leased_native old = Some (id, n) -> over_native s1 n \/ leased_native pc' = Some (id, n)) ->
  advances s (mgoto i pc' s1) i.
Proof.
  intros Hinv Hi Hres Hr Hg Hc Es Hn Hlen Hsl Hse Hw Hle Hl Hl' Hok Hro Hun Hle'.
  assert (forall k, mslab k s1 = mslab k s) as Hk by (intros; unfold mslab; by rewrite Es).
  split.
  - apply (moved_goto s s1 i old pc' [RLease id]); try done.
    + by apply world_lease.
    + intros r ->%list_elem_of_singleton. done.
    + intros n Hx. by apply Hr in Hx.
    + intros r Hx. left. auto.
    + intros k n Hx. left. eauto.
    + intros k h n. unfold mentry. rewrite Hk. by left.
    + rewrite Hse. by left.
    + intros n nv j E Ej. left. by eapply Hsl.
  - apply (transfer_goto s s1 i old); try done.
    + split; [|intros n f Hx; by apply Hg in Hx]. intros id' n Hx. destruct (Hle' _ _ Hx); auto.
    + intros *. rewrite Hse. by left.
    + intros n E [nv E']. apply lookup_lt_Some in E'. apply lookup_ge_None in E. lia.
    + intros id' l E. destruct (decide (id' = id)) as [->|Hne]; [by apply Hl'|]. rewrite Hl in E by done. by exists l.
Qed.

Lemma drop_lease_same l st : same_owners st (drop_lease l st) /\ cells_le st (drop_lease l st).
Proof.
  unfold drop_lease. destruct (l_active l); cbn; [|by split; [|apply cells_le_refl]].
  split; [exact (finish_completion_same _ _ (set_starts (delete (l_id l) (starts st)) (next_start st) st))|].
  eapply cells_le_trans; [|apply grows_finish_completion]. by apply cells_le_same.
Qed.
Lemma finish_cleanup_same l o st : same_owners st (finish_cleanup l o st) /\ cells_le st (finish_cleanup l o st).
Proof.
  split; [exact (finish_completion_same _ _ (set_starts (delete (l_id l) (starts st)) (next_start st) st))|].
  eapply cells_le_trans; [|apply grows_finish_completion]. by apply cells_le_same.
Qed.

(** The lease of a call that ends is gone. *)
Lemma advance_drop s i old a id l f n :
  mob_inv s -> mcalls s !! i = Some old -> RLease id ∈ res old -> (forall n, refresh_of old <> Some n) -> (forall n f, ~ guards s old n f) ->
  l_id l = id -> (forall nv, native_le nv (f nv)) -> (forall nv, nv_refresh (f nv) = nv_refresh nv) ->
  (forall id m, leased_native old = Some (id, m) -> over_native (upd_native f n s) m) ->
  advances s (mgoto i (MDone a) (drop_start l (upd_native f n s))) i.
Proof.
  intros Hinv Hi Hres Hr Hg <- Hf Hs Ho. destruct (drop_lease_same l (st_of s)) as [(E1 & _) Hle].
  apply (advance_lease s _ i old (MDone a) (l_id l)); try done; cbn.
  - by apply natives_le_alter.
  - by apply length_alter.
  - apply slots_alter. intros nv j. by rewrite Hs.
  - intros id' Hne. by rewrite lookup_delete_ne.
  - intros l'. by rewrite lookup_delete_eq.
  - intros _. apply ok_done.
  - intros r Hx. tidy.
  - intros id m Hm. left. by eapply Ho.
Qed.

Lemma upd_id s n : upd_native id n s = s.
Proof. destruct s. unfold upd_native. cbn. f_equal. by apply list_alter_id. Qed.

Lemma held_lease s i pc id : mob_inv s -> mcalls s !! i = Some pc -> RLease id ∈ res pc ->
  exists l, leases (mach s) !! id = Some l /\ l_active l = true.
Proof. intros Hinv Hi. apply (k_lease _ _ (v_pc _ Hinv _ _ Hi)). Qed.

Lemma advance_finish s i old a id l o :
  mob_inv s -> mcalls s !! i = Some old -> RLease id ∈ res old -> (forall n, refresh_of old <> Some n) -> (forall n f, ~ guards s old n f) ->
  l_id l = id -> (forall id m, leased_native old = Some (id, m) -> over_native s m) ->
  advances s (mgoto i (MDone a) (finish_start l o s)) i.
Proof.
  intros Hinv Hi Hres Hr Hg <- Ho. destruct (finish_cleanup_same l o (st_of s)) as [(E1 & _) Hle].
  apply (advance_lease s _ i old (MDone a) (l_id l)); try done; cbn.
  - apply natives_le_refl.
  - by apply slots_refl.
  - intros id' Hne. by rewrite lookup_delete_ne.
  - intros l'. by rewrite lookup_delete_eq.
  - intros _. apply ok_done.
  - intros r Hx. tidy.
  - intros id m Hm. left. by eapply Ho.
Qed.

Section starts.
Context (s : Mobile) (i : nat) (Hinv : mob_inv s) (Hid : forall id l, leases (mach s) !! id = Some l -> l_id l = id).

(** A registration is made. *)
Lemma advance_native_start kind id l :
  mcalls s !! i = Some (MArgs kind id) -> leases (mach s) !! id = Some l ->
  advances s (mgoto i (MStart kind id (length (natives s)) true) (add_native (native_new kind l) s)) i.
Proof.
  intros Hi Hl. pose proof (v_pc _ Hinv _ _ Hi) as Hok. set (pc' := MStart _ _ _ _). set (s1 := add_native _ s).
  assert (world s s1 []) as Hw.
  { apply world_quiet; try done. intros n nv E. exists nv. split; [by apply lookup_app_l_Some|done]. }
  assert (natives s1 !! length (natives s) = Some (native_new kind l)) as Hnew by (cbn; by rewrite lookup_app_r, Nat.sub_diag by lia).
  split.
  - apply (moved_goto s s1 i (MArgs kind id) pc' []); try done.
    + intros r Hr. tidy.
    + intros He. pose proof (pc_stable s _ [] _ He (fun r _ Hr => not_elem_of_nil r Hr) Hok) as [K1 K2 K3 K4 K5 K6 K7 K8 K9 K10].
      split; try done; cbn.
      * intros id' n [= <- <-]. exists (native_new kind l), l. by split_and!; [done|done|apply Hid|].
      * intros k h n [?|[[= <- <-] _]]; [done|]. by exists (native_new kind l).
    + cbn. by left.
    + cbn. intros k n [= <- <-]. right. by apply lookup_ge_None.
    + by left.
    + by left.
    + intros n nv j. cbn. rewrite lookup_app_Some, list_lookup_singleton_Some. intros [E|(_ & _ & <-)] Ej; [left; by exists nv|done].
  - apply (transfer_goto s s1 i (MArgs kind id)); try done.
    + by left.
    + intros n E [nv E']. cbn in E'. apply lookup_app_Some in E' as [E'|(Hge & E')]; [congruence|].
      apply list_lookup_singleton_Some in E' as [E' _]. exists id. cbn. do 2 f_equal. lia.
    + apply cells_le_refl.
    + intros id' l' E. by exists l'.
Qed.

(** The lease of a native start is armed. *)
Lemma advance_arm kind id n waiter l :
  mcalls s !! i = Some (MStart kind id n waiter) -> leases (mach s) !! id = Some l ->
  advances s (mgoto i (MDelivered kind id n waiter) (arm_start l s)) i.
Proof.
  intros Hi Hl. pose proof (v_pc _ Hinv _ _ Hi) as Hok. pose proof (Hid _ _ Hl) as El.
  apply (advance_lease s _ i (MStart kind id n waiter) (MDelivered kind id n waiter) id); try done.
  - cbn. set_solver.
  - by intros n' f [].
  - apply natives_le_refl.
  - by apply slots_refl.
  - apply cells_le_refl.
  - intros id' Hne. cbn. rewrite El. by rewrite lookup_insert_ne.
  - intros l'. cbn. rewrite El, lookup_insert_eq. intros [= <-]. by exists l.
  - intros He. assert (leases (mach (arm_start l s)) !! id = Some (arm_native_cleanup l)) as Hl' by (cbn; by rewrite El, lookup_insert_eq).
    destruct Hok as [K1 K2 K3 K4 K5 K6 K7 K8 K9 K10]. split; [|set_solver|set_solver| | |done|done|set_solver|done|done].
    + intros id' Hx. apply list_elem_of_singleton in Hx as [= ->]. exists (arm_native_cleanup l). split; [done|]. cbn.
      destruct (K1 id) as (l0 & E & Ha); [set_solver|]. congruence.
    + intros id' n' [= <- <-]. destruct (K4 id n eq_refl) as (nv & l0 & E & E0 & E1 & E2). exists nv, (arm_native_cleanup l).
      split_and!; try done. cbn. congruence.
    + intros k h n' Hx. cbn in Hx. destruct (K5 k h n') as (nv & ? & ?); [by destruct Hx as [?|?]; [left|right]|]. by exists nv.
  - cbn. by right.
Qed.

Lemma goes_start old p :
  mcalls s !! i = Some old -> goes_on s old p ->
  match old with MBarrier _ _ | MArgs _ _ | MStart _ _ _ _ | MReconcile _ _ _ => True | _ => False end ->
  advances s (mgoto i p.1 p.2) i.
Proof.
  intros Hi Hg Hq. destruct Hg as [Hg|Hg|Hg|Hg|Hg]; destruct Hg; try done; cbn [fst snd].
  - apply (advance_idle s i (MBarrier kind id)); adv.
  - rewrite <- (upd_id s 0) at 2. apply (advance_drop s i (MBarrier kind id) _ id); try done; [cbn; set_solver|by intros ? ? []|by apply Hid].
  - rewrite <- (upd_id s 0) at 2. apply (advance_drop s i (MBarrier kind id) _ id); try done; [cbn; set_solver|by intros ? ? []|by apply Hid].
  - rewrite <- (upd_id s 0) at 2. apply (advance_drop s i (MArgs kind id) _ id); try done; [cbn; set_solver|by intros ? ? []|by apply Hid].
  - by apply advance_native_start.
  - apply (advance_idle s i (MStart kind id n true)); adv.
  - apply (advance_drop s i (MStart kind id n waiter) _ id); try done; [cbn; set_solver|by intros ? ? []|by apply Hid|].
    cbn. intros id' m [= <- <-]. destruct (k_native _ _ (v_pc _ Hinv _ _ Hi) _ _ eq_refl) as (nv & l0 & E & _).
    unfold over_native, ended_of. cbn. rewrite list_lookup_alter_eq, E. by eexists.
  - by apply advance_arm.
  - apply (advance_finish s i (MReconcile id n join) _ id); try done; [cbn; set_solver|by intros ? ? []|by apply Hid|].
    cbn. intros id' m [= <- <-]. eapply wait_over; [done|done|]. intros j ->. eapply pc_joined; [done|done|]. cbn. set_solver.
Qed.
End starts.

(** ** Slabs *)

Lemma mslab_set k k' x s : mslab k' (set_mslab k x s) = if decide (k = k') then x else mslab k' s.
Proof. unfold mslab, set_mslab. cbn. rewrite lookup_insert. by case_decide. Qed.

(** Entries are taken out of slabs. *)
Definition shrinks (s s1 : Mobile) : Prop :=
  (forall k, mfresh s1 k = mfresh s k) /\ forall k h n, mentry s1 k h = Some n -> mentry s k h = Some n.

Lemma shrinks_remove k h s :
  let s1 := set_mslab k (handles_remove h (mslab k s)).2 s in
  shrinks s s1 /\ forall k' h', mentry s1 k' h' = if decide (k = k' /\ h = h') then None else mentry s k' h'.
Proof.
  cbn -[handles_remove]. assert (forall k' h', mentry (set_mslab k (handles_remove h (mslab k s)).2 s) k' h' =
    if decide (k = k' /\ h = h') then None else mentry s k' h') as He.
  { intros k' h'. unfold mentry. rewrite mslab_set. destruct (decide (k = k')) as [<-|Hk]; cbn.
    - rewrite lookup_delete. case_decide; [by rewrite decide_True|rewrite decide_False; naive_solver].
    - by rewrite decide_False by naive_solver. }
  split; [|done]. split.
  - intros k'. unfold mfresh. rewrite mslab_set. case_decide; [by subst|done].
  - intros k' h' n. rewrite He. by case_decide.
Qed.

Lemma shrinks_remove_if k h n s :
  let s1 := remove_native_if k h n s in
  shrinks s s1 /\ forall k' h' n', mentry s k' h' = Some n' -> mentry s1 k' h' = Some n' \/ n' = n.
Proof.
  unfold remove_native_if, handles_remove_if. cbn. destruct (entries (mslab k s) !! h) as [v|] eqn:E.
  - case_bool_decide as Hv.
    + destruct (shrinks_remove k h s) as [H1 H2]. split; [exact H1|]. intros k' h' n' En. rewrite H2.
      destruct (decide (k = k' /\ h = h')) as [[<- <-]|]; [|by left]. right. unfold mentry in En. congruence.
    + assert (forall k', mslab k' (set_mslab k (mslab k s) s) = mslab k' s) as Hs by (intros; rewrite mslab_set; case_decide; by subst).
      cbn. split; [split|]; unfold mfresh, mentry; intros *; rewrite Hs; auto.
  - assert (forall k', mslab k' (set_mslab k (mslab k s) s) = mslab k' s) as Hs by (intros; rewrite mslab_set; case_decide; by subst).
    cbn. split; [split|]; unfold mfresh, mentry; intros *; rewrite Hs; auto.
Qed.

Lemma pc_kept s s' R old pc' :
  eff s s' R -> mach s' = mach s -> pc_ok s old -> follows old pc' -> lands pc' = false ->
  (forall n, over pc' = Some n -> over_native s' n) -> (forall n j, (n, j) ∈ joins pc' -> (n, j) ∈ joins old \/ refreshes s n j) -> pc_ok s' pc'.
Proof.
  intros He Em [K1 K2 K3 K4 K5 K6 K7 K8 K9 K10] [F1 F2 F3 F4 F5 F6] Hl Ho Hj. split; try done.
  - rewrite Em. auto.
  - rewrite Em. intros k h Hk. destruct (K2 k h (F1 _ Hk)). pose proof (e_fresh _ _ _ He k). split; [done|lia].
  - unfold wfences. rewrite Em. auto.
  - intros id n Hn. destruct (K4 id n (F2 _ Hn)) as (nv & l & E & El & E1 & E2). destruct (e_native _ _ _ He _ _ E) as (nv' & E' & _ & G1 & G2 & _).
    exists nv', l. rewrite Em. split_and!; [done|done|congruence..].
  - intros k h n Hn. destruct (K5 k h n) as (nv & E & Ek); [destruct Hn as [?|[? ?]]; [left|right]; auto|].
    destruct (e_native _ _ _ He _ _ E) as (nv' & E' & G & _). exists nv'. split; [done|congruence].
  - intros k h n Hn. destruct (K6 k h n (F4 _ Hn)) as [Hh Hu]. pose proof (e_fresh _ _ _ He k). split; [lia|]. intros n' E. apply Hu.
    by apply (e_entry _ _ _ He).
  - rewrite Hl. done.
  - intros n j Hx. apply (e_refresh _ _ _ He). destruct (Hj _ _ Hx); auto.
  - auto.
Qed.

Lemma advance_shrink s s1 i old pc' (R : list Res) :
  mob_inv s -> mcalls s !! i = Some old -> (forall r, r ∈ R -> r ∈ res old) -> mcalls s1 = mcalls s -> mach s1 = mach s ->
  natives_le (natives s) (natives s1) -> length (natives s1) = length (natives s) -> slots_le s s1 ->
  shrinks s s1 -> (forall k h n, (RClaim k h ∉ R) -> mentry s k h = Some n -> mentry s1 k h = Some n \/ over_native s1 n) ->
  (forall n, refresh_of old = Some n -> refresh_of pc' = Some n) ->
  (forall n, over pc' = Some n -> over_native s1 n) -> (forall n j, (n, j) ∈ joins pc' -> (n, j) ∈ joins old \/ refreshes s n j) ->
  follows old pc' -> lands pc' = false -> hands_over s (mgoto i pc' s1) old pc' -> advances s (mgoto i pc' s1) i.
Proof.
  intros Hinv Hi HR Hc Em Hn Hlen Hsl [Hf He] Hk Hr Hov Hj Hfo Hla Hh. split.
  - apply (moved_goto s s1 i old pc' R); try done.
    + split; unfold wfences; rewrite ?Em; try done; intros k; rewrite ?Hf; [lia|auto].
    + intros Heff. by apply (pc_kept s _ R old pc' Heff); [|apply (v_pc _ Hinv _ _ Hi)|..].
    + intros r Hx. left. by apply Hfo.
    + intros k n Hx. left. exists k. by apply Hfo.
    + intros k h n Hx. left. auto.
    + rewrite Em. by left.
    + intros n nv j E Ej. left. by eapply Hsl.
  - apply (transfer_goto s s1 i old); try done; rewrite ?Em.
    + intros *. by left.
    + intros n E [nv E']. apply lookup_lt_Some in E'. apply lookup_ge_None in E. lia.
    + apply cells_le_refl.
    + intros id l E. by exists l.
Qed.

(** The registration of a terminal poll or refresh is taken out when it has ended. *)
Lemma advance_term_remove s i kind handle n who cleanup outcome :
  mob_inv s -> mcalls s !! i = Some (MTermRemove kind handle n who cleanup outcome) ->
  advances s (mgoto i (MFinish who cleanup outcome) (remove_native_if kind handle n s)) i.
Proof.
  intros Hinv Hi. pose proof (v_pc _ Hinv _ _ Hi) as Hok. destruct (shrinks_remove_if kind handle n s) as [Hs Hk].
  assert (over_native s n) as Ho by (by apply (k_over _ _ Hok)).
  apply (advance_shrink s _ i (MTermRemove kind handle n who cleanup outcome) _ []); try done.
  - intros r Hr. tidy.
  - apply natives_le_refl.
  - by apply slots_refl.
  - intros k h m _ E. destruct (Hk _ _ _ E) as [?| ->]; [by left|by right].
  - cbn. intros m Hm. destruct who; try done. cbn in *. pose proof (k_same _ _ Hok _ eq_refl). congruence.
  - cbn. intros m Hm. destruct who; try done. cbn in *. pose proof (k_same _ _ Hok _ eq_refl) as E. injection Hm as <-. by subst.
  - adv.
Qed.

Lemma shrinks_upd s s1 f n : shrinks s s1 -> shrinks s (upd_native f n s1).
Proof. done. Qed.

(** A registration is closed with its session. *)
Lemma close_session_upd kind n s : exists f, close_session kind n s = upd_native f n s /\
  (forall nv, native_le nv (f nv)) /\ (forall nv, nv_refresh (f nv) = nv_refresh nv).
Proof.
  destruct kind; try (by exists nv_close). exists (nv_close ∘ nv_send_cancel). split; [|done].
  unfold close_session, close_engine, upd_native. cbn. by rewrite list_alter_alter_eq.
Qed.

Lemma advance_undo s i kind id n handle :
  mob_inv s -> mcalls s !! i = Some (MUndo kind id n handle) ->
  advances s (mgoto i (undo_native kind id n handle s).1 (undo_native kind id n handle s).2) i.
Proof.
  intros Hinv Hi. destruct (shrinks_remove kind handle s) as [Hs He].
  assert (exists f, (undo_native kind id n handle s).2 = upd_native f n (set_mslab kind (handles_remove handle (mslab kind s)).2 s) /\
    (forall nv, native_le nv (f nv)) /\ (forall nv, nv_refresh (f nv) = nv_refresh nv)) as (f & -> & Hf & Hr).
  { destruct kind; try (exists Datatypes.id; by rewrite upd_id). by exists (nv_set_gate GateDropped). }
  apply (advance_shrink s _ i (MUndo kind id n handle) _ [RClaim kind handle]); try done.
  - cbn. set_solver.
  - by apply natives_le_alter.
  - by apply length_alter.
  - refine (slots_alter s f n _ _ _ _). intros nv j. by rewrite Hr.
  - intros k h m Hc E. left. unfold mentry, mslab in He |- *. cbn in *. rewrite He. rewrite decide_False; [done|]. intros [-> ->]. set_solver.
  - adv.
  - adv.
  - hand.
Qed.

Lemma advance_close_remove s i kind handle f :
  mob_inv s -> mcalls s !! i = Some (MCloseRemove kind handle f) ->
  advances s (mgoto i (close_remove kind handle f s).1 (close_remove kind handle f s).2) i.
Proof.
  intros Hinv Hi. destruct (shrinks_remove kind handle s) as [Hs He]. unfold close_remove.
  destruct (handles_remove handle (mslab kind s)) as [o m] eqn:Er.
  assert (o = mentry s kind handle) as -> by (unfold handles_remove in Er; by injection Er as <- <-). cbn in Hs, He |- *.
  apply (advance_shrink s _ i (MCloseRemove kind handle f) _ [RClaim kind handle]); try done.
  - cbn. set_solver.
  - apply natives_le_refl.
  - by apply slots_refl.
  - intros k h n Hc E. left. rewrite He, decide_False; [done|]. intros [-> ->]. set_solver.
  - by destruct (mentry s kind handle).
  - destruct (mentry s kind handle); adv.
  - destruct (mentry s kind handle); follow.
  - by destruct (mentry s kind handle).
  - split; cbn; [done|]. intros n f' [-> ->]. by right.
Qed.

Lemma advance_prepare s i r t todo held :
  mob_inv s -> mcalls s !! i = Some (MRetire r (t :: todo) held) ->
  advances s (mgoto i (MRetire r todo (prepare_retirement t held s).1) (prepare_retirement t held s).2) i.
Proof.
  intros Hinv Hi. destruct (shrinks_remove (t_kind t) (t_handle t) s) as [Hs He]. unfold prepare_retirement.
  destruct (handles_remove (t_handle t) (mslab (t_kind t) s)) as [o m] eqn:Er.
  assert (o = mentry s (t_kind t) (t_handle t)) as -> by (unfold handles_remove in Er; by injection Er as <- <-). cbn in Hs, He |- *.
  set (s0 := set_mslab (t_kind t) m s) in *.
  assert (exists f n, (match mentry s (t_kind t) (t_handle t) with
      | Some n => (held ++ [(n, match t_kind t with AdvertisePeer => None | _ => Some None end)], close_session (t_kind t) n s0)
      | None => (held, s0) end).2 = upd_native f n s0 /\ (forall nv, native_le nv (f nv)) /\ (forall nv, nv_refresh (f nv) = nv_refresh nv))
    as (f & n & -> & Hf & Hr).
  { destruct (mentry s _ _) as [n|]; [|exists id, 0; by rewrite upd_id]. destruct (close_session_upd (t_kind t) n s0) as (f & ? & ? & ?). by exists f, n. }
  apply (advance_shrink s _ i (MRetire r (t :: todo) held) _ [RClaim (t_kind t) (t_handle t)]); try done.
  - cbn. set_solver.
  - by apply natives_le_alter.
  - by apply length_alter.
  - refine (slots_alter s f n _ _ _ _). intros nv j. by rewrite Hr.
  - intros k h x Hc E. left. change (mentry s0 k h = Some x). rewrite He, decide_False; [done|]. intros [<- <-]. set_solver.
  - cbn. intros x j Hx. left. destruct (mentry s _ _) as [y|]; [|done]. cbn in Hx. rewrite bind_app, elem_of_app in Hx.
    destruct Hx as [?|Hx]; [done|]. destruct (t_kind t); cbn in Hx; tidy.
  - follow.
  - split; cbn; [done|]. intros x g [Hg Hx]. right. split; [done|].
    assert (forall t', mentry s (t_kind t') (t_handle t') = Some x -> (t_kind t', t_handle t') <> (t_kind t, t_handle t) ->
      mentry s0 (t_kind t') (t_handle t') = Some x) as Hkeep by (intros t' E Hne; rewrite He, decide_False; [done|]; intros [E1 E2]; apply Hne; congruence).
    assert (mentry s (t_kind t) (t_handle t) = Some x -> x ∈ (match mentry s (t_kind t) (t_handle t) with
      | Some n => (held ++ [(n, match t_kind t with AdvertisePeer => None | _ => Some None end)], close_session (t_kind t) n s0)
      | None => (held, s0) end).1.*1) as Hnew by (intros ->; cbn; rewrite fmap_app; set_solver).
    destruct Hx as [Hx|(t' & Ht & Hx)].
    + left. destruct (mentry s _ _); cbn; [rewrite fmap_app; set_solver|done].
    + destruct (decide ((t_kind t', t_handle t') = (t_kind t, t_handle t))) as [[= E1 E2]|Hne]; [left; apply Hnew; congruence|].
      apply elem_of_cons in Ht as [->|Ht]; [done|]. right. exists t'. split; [done|]. by apply Hkeep.
Qed.

Lemma advance_take s i r held1 n held2 :
  mob_inv s -> mcalls s !! i = Some (MRetire r [] (held1 ++ (n, None) :: held2)) ->
  advances s (mgoto i (MRetire r [] (held1 ++ (n, Some (close_take AdvertisePeer n s).1) :: held2)) (close_take AdvertisePeer n s).2) i.
Proof.
  intros Hinv Hi. rewrite close_take_native. apply (advance_native s i (MRetire r [] (held1 ++ (n, None) :: held2))); try done.
  - cbn [joins]. intros m j. rewrite !bind_app, !bind_cons, !elem_of_app. cbn [snd fst].
    intros [?|[Hx|?]]; [by left; left|right; by eapply close_take_joins|left; by right; right].
  - split; cbn; [done|]. intros m f. rewrite !fmap_app, !fmap_cons. by right.
Qed.

(** ** Inserting and tracking *)

Section placing.
Context (s : Mobile) (i : nat) (Hinv : mob_inv s).

(** The registration of a start is nobody else's. *)
Lemma unplaced_here old k n j pc k' :
  mcalls s !! i = Some old -> unplaced old = Some (k, n) -> mcalls s !! j = Some pc -> unplaced pc = Some (k', n) -> j = i.
Proof.
  intros Hi Hu Hj Hu'.
  assert (forall p k n, unplaced p = Some (k, n) -> exists id, leased_native p = Some (id, n)) as Hl
    by (intros p ? ?; destruct p; cbn; intros [= <- <-]; eauto).
  destruct (Hl _ _ _ Hu) as [id Hx], (Hl _ _ _ Hu') as [id' Hx'].
  destruct (k_native _ _ (v_pc _ Hinv _ _ Hi) _ _ Hx) as (nv & _ & E & _ & E1 & _).
  destruct (k_native _ _ (v_pc _ Hinv _ _ Hj) _ _ Hx') as (nv' & _ & E' & _ & E1' & _).
  apply (v_own _ Hinv j i pc old (RLease id)); [done|done|apply (leased_res _ _ n); congruence|by apply (leased_res _ _ n)].
Qed.

Lemma advance_insert kind id n :
  mcalls s !! i = Some (MInsert kind id n) ->
  advances s (mgoto i (insert_native kind id n s).1 (insert_native kind id n s).2) i.
Proof.
  intros Hi. pose proof (v_pc _ Hinv _ _ Hi) as Hok. unfold insert_native, handles_insert, checked_add.
  destruct (next (mslab kind s) + 1 <=? U64_MAX)%Z eqn:En; cbn [fst snd].
  2: { apply (advance_native s i (MInsert kind id n)); adv. }
  set (h := next (mslab kind s)). set (m := mkHandles (h + 1) _). set (s1 := set_mslab kind m s).
  set (pc' := match kind with AdvertisePeer => MSpawn id n h | _ => MTrack kind id n h end).
  assert (res pc' = [RLease id; RClaim kind h] /\ leased_native pc' = Some (id, n) /\ unplaced pc' = None /\ named pc' = Some (kind, h, n) /\
    joins pc' = [] /\ over pc' = None /\ refresh_of pc' = None /\ same_refresh pc' /\ forall t g, ~ guards s pc' t g) as (P1 & P2 & P3 & P4 & P5 & P6 & P7 & P8 & P9)
    by (unfold pc'; destruct kind; split_and!; try done; by intros ? ? []).
  assert (forall k, mfresh s1 k = if decide (kind = k) then (h + 1)%Z else mfresh s k) as Hf
    by (intros k; unfold mfresh, s1; rewrite mslab_set; by case_decide).
  assert (forall k h', mentry s1 k h' = if decide (kind = k /\ h = h') then Some n else mentry s k h') as He.
  { intros k h'. unfold mentry, s1. rewrite mslab_set. destruct (decide (kind = k)) as [<-|Hk]; cbn.
    - rewrite lookup_insert. case_decide; [by rewrite decide_True|rewrite decide_False; naive_solver].
    - by rewrite decide_False by naive_solver. }
  assert (forall k, (mfresh s k <= mfresh s1 k)%Z) as Hfr by (intros k; rewrite Hf; case_decide; [subst; unfold mfresh; fold h; lia|lia]).
  assert (world s s1 []) as Hw.
  { split; try done.
    - intros n' nv E. exists nv. done.
    - intros k h' n' Hlt. rewrite He. case_decide as Hd; [|done]. destruct Hd as [<- <-]. unfold mfresh in Hlt. fold h in Hlt. lia.
    - intros k h' n' _ E. left. rewrite He, decide_False; [done|]. intros [<- <-]. apply (v_entry _ Hinv) in E as [Hlt _]. unfold mfresh in Hlt. fold h in Hlt. lia. }
  destruct (k_kind _ _ Hok kind 0%Z n) as (nv & E & Ek); [by right|].
  assert (forall k h', mentry s k h' <> Some n) as Hnot.
  { intros k h' Hx. apply (v_entry _ Hinv) in Hx as (_ & _ & Hu). by eapply Hu. }
  split.
  - apply (moved_goto s s1 i (MInsert kind id n) pc' []); try done.
    + intros r Hr. tidy.
    + intros Heff. destruct Hok as [K1 K2 K3 K4 K5 K6 K7 K8 K9 K10].
      split; rewrite ?P1, ?P2, ?P3, ?P4, ?P5, ?P6; try done.
      * intros id' Hx. apply K1. cbn. set_solver.
      * intros k h' Hx. assert (k = kind /\ h' = h) as [-> ->] by set_solver. split; [|change (h < mfresh s1 kind)%Z; rewrite Hf, decide_True by done; lia].
        destruct (sessions (st_of s) !! (kind, h)) as [t|] eqn:Et; [|done]. apply (v_tracked _ Hinv) in Et. unfold mfresh in Et. fold h in Et. lia.
      * intros f Hx. set_solver.
      * intros k h' n' [[= <- <- <-]|[? _]]; [by exists nv|done].
      * intros k h' n' [= <- <- <-]. split; [change (h < mfresh s1 kind)%Z; rewrite Hf, decide_True by done; lia|]. intros n'. change (mentry s1 kind h = Some n' -> n' = n).
        rewrite He, decide_True by done. congruence.
      * intros k h' n' [= <- <- <-] _. left. change (mentry s1 kind h = Some n). by rewrite He, decide_True.
      * intros n' j Hx. tidy.
    + rewrite P1. intros r Hr. apply elem_of_cons in Hr as [->|Hr]; [left; cbn; set_solver|]. apply list_elem_of_singleton in Hr as ->. right.
      intros j pc Hj Hr. destruct (k_claim _ _ (v_pc _ Hinv _ _ Hj) _ _ Hr) as [_ Hlt]. unfold mfresh in Hlt. fold h in Hlt. lia.
    + by rewrite P3.
    + intros k h' n'. rewrite He. case_decide as Hd; [|by left]. destruct Hd as [<- <-]. intros [= <-]. right. split_and!.
      * rewrite Hf, decide_True by done. lia.
      * by exists nv.
      * intros j pc k' Hj Hu. apply list_lookup_insert_Some in Hj as [(_ & <- & _)|[Hne Hj]]; [by rewrite P3 in Hu|].
        apply Hne. symmetry. by eapply unplaced_here.
      * intros k' h'. rewrite He. case_decide as Hd; [by destruct Hd|]. intros Hx. by apply Hnot in Hx.
    + by left.
    + intros n' nv' j E' Ej. left. by exists nv'.
  - apply (transfer_goto s s1 i (MInsert kind id n)); try done.
    + split; [|by intros ? ? []]. cbn. intros id' n' [= <- <-]. by right; left.
    + by left.
    + intros n' E' [? E'']. cbn in E''. congruence.
    + apply cells_le_refl.
    + intros id' l E'. by exists l.
Qed.

Lemma advance_spawn id n handle :
  mcalls s !! i = Some (MSpawn id n handle) ->
  advances s (mgoto i (MSlot id n handle (length (mcalls s))) (mcall (MGate handle n) s)) i.
Proof.
  intros Hi. pose proof (v_pc _ Hinv _ _ Hi) as Hok. set (s' := mgoto _ _ _). assert (i < length (mcalls s)) as Hlt by (by eapply lookup_lt_Some).
  assert (mcalls s' !! i = Some (MSlot id n handle (length (mcalls s)))) as Hi'
    by (cbn; apply list_lookup_insert_eq; rewrite length_app; lia).
  assert (mcalls s' !! length (mcalls s) = Some (MGate handle n)) as Hg
    by (cbn; rewrite list_lookup_insert_ne by lia; by rewrite lookup_app_r, Nat.sub_diag by lia).
  assert (forall j pc, j <> i -> mcalls s !! j = Some pc -> mcalls s' !! j = Some pc) as Hother
    by (intros j pc Hne Hj; cbn; rewrite list_lookup_insert_ne by done; by apply lookup_app_l_Some).
  assert (eff s s' []) as He.
  { apply world_eff; [by apply world_quiet; [..|apply natives_le_refl]|]. intros m j.
    apply (refreshes_goto s _ i (MSpawn id n handle)); [done|by exists [MGate handle n]|done]. }
  pose proof (pc_stable s s' [] _ He (fun r _ Hr => not_elem_of_nil r Hr) Hok) as Hok'.
  split.
  - split; try done.
    + exists []. split; [done|]. intros r Hr. tidy.
    + intros j pc Hne Hj. cbn in Hj. rewrite list_lookup_insert_ne, lookup_app_Some, list_lookup_singleton_Some in Hj by done.
      destruct Hj as [?|(_ & _ & <-)]; [by left|]. right. split_and!; try done.
      destruct Hok' as [K1 K2 K3 K4 K5 K6 K7 K8 K9 K10]. split; cbn; intros; tidy; try done; [|by eapply K6].
      apply (K5 k h n0). destruct H as [?|[? ?]]; [by left|done].
    + intros pc Hpc. rewrite Hi' in Hpc. injection Hpc as <-. apply (follows_ok _ _ _ Hok'); [follow|done|].
      cbn. intros m j Hx. apply list_elem_of_singleton in Hx as [= -> ->]. by exists (MGate handle n).
    + intros pc r Hpc Hr. rewrite Hi' in Hpc. injection Hpc as <-. left. by exists (MSpawn id n handle).
    + intros pc k m Hpc. rewrite Hi' in Hpc. by injection Hpc as <-.
    + by left.
    + by left.
    + intros m nv j E Ej. left. by exists nv.
  - split; try done.
    + intros pc id' m Hpc Hx. rewrite Hi in Hpc. injection Hpc as <-. right; left. by exists (MSlot id n handle (length (mcalls s))), id'.
    + by left.
    + intros pc m f Hpc. rewrite Hi in Hpc. injection Hpc as <-. by intros [].
    + cbn. intros m E [? ?]. congruence.
    + apply cells_le_refl.
    + intros id' l E. left. by exists l.
Qed.

Lemma advance_slot id n handle task :
  mcalls s !! i = Some (MSlot id n handle task) ->
  advances s (mgoto i (MTrack AdvertisePeer id n handle) (upd_native (nv_set_refresh (Some task)) n s)) i.
Proof.
  intros Hi. pose proof (v_pc _ Hinv _ _ Hi) as Hok. set (s1 := upd_native _ n s).
  assert (world s s1 []) as Hw by (apply world_quiet; [done|done|by apply natives_le_alter]).
  assert (refreshes (mgoto i (MTrack AdvertisePeer id n handle) s1) n task) as Hr.
  { apply (refreshes_goto s _ i (MSlot id n handle task)); [done|exists []; by rewrite app_nil_r|done|]. apply (k_joins _ _ Hok). cbn. set_solver. }
  split.
  - apply (moved_goto s s1 i (MSlot id n handle task) _ []); try done.
    + intros r Hx. tidy.
    + intros He. apply (follows_ok _ (MSlot id n handle task)); [|follow|done|cbn; intros; tidy].
      apply (pc_stable s _ []); [done|intros r _ Hx; tidy|done].
    + by left.
    + by left.
    + by left.
    + intros m nv j. cbn. rewrite list_lookup_alter. destruct (decide (n = m)) as [<-|]; [|intros; left; by exists nv].
      destruct (natives s !! n); cbn; [|done]. intros [= <-] [= <-]. by right.
  - apply (transfer_goto s s1 i (MSlot id n handle task)); try done.
    + hand.
    + by left.
    + intros m E [nv E']. cbn in E'. apply lookup_lt_Some in E'. rewrite length_alter in E'. apply lookup_ge_None in E. lia.
    + apply cells_le_refl.
    + intros id' l E. by exists l.
Qed.
End placing.

Lemma with_owned_id s : set_mach (with_owned (st_of s) (mach s)) s = s.
Proof. by destruct s as [[] ? ? ?]. Qed.

Lemma advance_track s i kind id l n handle :
  mob_inv s -> (forall id l, leases (mach s) !! id = Some l -> l_id l = id) ->
  mcalls s !! i = Some (MTrack kind id n handle) -> leases (mach s) !! id = Some l ->
  advances s (mgoto i (track_native kind l n handle s).1 (track_native kind l n handle s).2) i.
Proof.
  intros Hinv Hid Hi Hl. pose proof (v_pc _ Hinv _ _ Hi) as Hok. pose proof (Hid _ _ Hl) as El. unfold track_native, lease_track.
  destruct (owner_is_current (st_of s) (l_owner l)); cbn [negb fst snd].
  2: { rewrite with_owned_id, El. apply (advance_idle s i (MTrack kind id n handle)); adv. }
  set (st1 := set_starts _ _ _). set (st := finish_completion _ _ st1). set (s1 := set_mach _ s).
  destruct (finish_completion_same (l_completion l) (Ok tt) st1) as (Es & _). fold st in Es.
  set (pc' := match kind with AdvertisePeer => MPublish n handle | _ => MDone (AHandle handle) end).
  assert (res pc' = [] /\ leased_native pc' = None /\ unplaced pc' = None /\ named pc' = None /\
    joins pc' = [] /\ over pc' = None /\ refresh_of pc' = None /\ same_refresh pc') as (P1 & P2 & P3 & P4 & P5 & P6 & P7 & P8)
    by (unfold pc'; by destruct kind).
  assert (forall k h, sessions st !! (k, h) = if decide (kind = k /\ handle = h) then Some (mkTracked kind handle (l_owner l))
    else sessions (st_of s) !! (k, h)) as Hs.
  { intros k h. rewrite Es. cbn. destruct (decide (kind = k /\ handle = h)) as [[<- <-]|Hne]; [by rewrite lookup_insert_eq|].
    rewrite lookup_insert_ne; [done|]. intros [= -> ->]. by apply Hne. }
  destruct (k_claim _ _ Hok kind handle) as [Hnone Hh]; [cbn; set_solver|].
  assert (cells_le (st_of s) st) as Hle by (eapply cells_le_trans; [|apply grows_finish_completion]; by apply cells_le_same).
  split.
  - apply (moved_goto s s1 i (MTrack kind id n handle) pc' [RLease id; RClaim kind handle]); try done.
    + split; try done.
      * intros id' l' Hx E. cbn. rewrite lookup_delete_ne; [done|]. set_solver.
      * intros k h Hx E _. change (sessions st !! (k, h) = None). rewrite Hs, decide_False; [done|]. intros [<- <-]. set_solver.
      * intros m nv E. by exists nv.
      * intros k h m _ E. by left.
    + intros He. split; rewrite ?P1, ?P2, ?P3, ?P4, ?P5, ?P6; intros; tidy; try done. by destruct H as [?|[? ?]].
    + rewrite P1. intros r Hr. tidy.
    + by rewrite P3.
    + by left.
    + intros k h t. change (sessions st !! (k, h) = Some t -> sessions (st_of s) !! (k, h) = Some t \/ (h < mfresh s k)%Z). rewrite Hs.
      case_decide as Hd; [|by left]. destruct Hd as [<- <-]. by right.
    + intros m nv j E Ej. left. by exists nv.
  - apply (transfer_goto s s1 i (MTrack kind id n handle)); try done.
    + split; [|by intros ? ? []]. cbn. intros id' m [= <- <-].
      destruct (k_lands _ _ Hok _ _ _ eq_refl eq_refl) as [En|Ho]; [|by left]. right; right.
      destruct (k_kind _ _ Hok kind handle n) as (nv & E & Ek); [by left|]. destruct (k_native _ _ Hok _ _ eq_refl) as (nv' & l' & E' & El' & _ & Eo).
      exists nv, handle, (mkTracked kind handle (l_owner l)). rewrite Ek. split_and!; [done|done| |cbn; congruence].
      change (sessions st !! (kind, handle) = Some (mkTracked kind handle (l_owner l))). by rewrite Hs, decide_True.
    + intros k h t m nv Ht _ _ _ _. left. change (sessions st !! (k, h) = Some t). rewrite Hs, decide_False; [done|]. intros [<- <-]. congruence.
    + intros m E [? E']. cbn in E'. congruence.
    + intros id' l' E. cbn in E. apply lookup_delete_Some in E as [_ E]. by exists l'.
Qed.

(** ** Fences *)

Lemma wfences_app s l : wfences (set_mach (mkMachine (st_of s) (leases (mach s)) (waiting (mach s) ++ l) (finishing (mach s))) s) =
  wfences s ++ concat (r_cleanups <$> l).
Proof. unfold wfences. cbn. by rewrite fmap_app, concat_app. Qed.

(** A call finishes the waits before its fences. *)
Lemma advance_waits s i old pc' r l1 l2 outcome :
  mob_inv s -> mcalls s !! i = Some old -> waiting (mach s) = l1 ++ r :: l2 -> (forall f, f ∈ r_cleanups r -> RFence f ∈ res old) ->
  res pc' = [] -> leased_native old = None -> leased_native pc' = None -> unplaced pc' = None -> named pc' = None -> joins pc' = [] -> same_refresh pc' ->
  (forall n, refresh_of old = Some n -> refresh_of pc' = Some n) -> (forall n, over pc' = Some n -> over_native s n) ->
  (forall n f, guards s old n f -> over_native s n) ->
  advances s (mgoto i pc' (waits_over (l1 ++ l2) outcome (r_cleanups r) s)) i.
Proof.
  intros Hinv Hi Hw HR P1 P2 P2' P3 P4 P5 P8 Hr Ho Hg. set (s1 := waits_over _ _ _ s). split.
  - apply (moved_goto s s1 i old pc' (RFence <$> r_cleanups r)); try done.
    + split; try done.
      * intros f Hf. unfold wfences. rewrite Hw. cbn. rewrite !fmap_app, !concat_app, !fmap_cons. cbn. rewrite !elem_of_app.
        intros [?|[?|?]]; [by left|destruct Hf; by apply list_elem_of_fmap_2|by right].
      * intros n nv E. by exists nv.
      * intros k h n _ E. by left.
    + intros x Hx. apply list_elem_of_fmap in Hx as (f & -> & Hf). auto.
    + intros He. split; rewrite ?P1, ?P2', ?P3, ?P4, ?P5; intros; tidy; try done; [by destruct H as [?|[? ?]]|by apply Ho].
    + rewrite P1. intros x Hx. tidy.
    + by rewrite P3.
    + by left.
    + by left.
    + intros n nv j E Ej. left. by exists nv.
  - apply (transfer_goto s s1 i old); try done.
    + split; [by rewrite P2|]. intros n f Hx. left. by eapply Hg.
    + by left.
    + intros n E [? E']. cbn in E'. congruence.
    + apply cells_le_refl.
    + intros id l E. by exists l.
Qed.

(** A fence is published for a tracked handle. *)
Lemma session_cleanup_spec kind handle s f s1 :
  session_cleanup kind handle s = (Some f, s1) ->
  exists t, sessions (st_of s) !! (kind, handle) = Some t /\ f = length (fences (st_of s)) /\
    mslabs s1 = mslabs s /\ natives s1 = natives s /\ mcalls s1 = mcalls s /\ leases (mach s1) = leases (mach s) /\
    waiting (mach s1) = waiting (mach s) ++ [mkRetirement [] [] [f]] /\
    sessions (st_of s1) = delete (kind, handle) (sessions (st_of s)) /\ cells_le (st_of s) (st_of s1) /\
    length (fences (st_of s1)) = S f /\ exists fence, fences (st_of s1) !! f = Some fence /\ f_label fence = owner_label (t_owner t).
Proof.
  unfold session_cleanup. destruct (begin_session_cleanup kind handle (st_of s)) as [[g|] st] eqn:E; [|done]. intros [= -> <-].
  destruct (session_cleanup_published _ _ _ _ _ E) as [(Hle & _) _]. unfold begin_session_cleanup in E.
  destruct (sessions (st_of s) !! (kind, handle)) as [t|] eqn:Et; [|done]. cbn in E. injection E as <- <-. exists t. split_and!; try done.
  - cbn. rewrite length_app. cbn. lia.
  - cbn. eexists. by rewrite lookup_app_r, Nat.sub_diag by lia.
Qed.

Lemma wfence_old s f : OwnershipFence.inv (mach s) -> f ∈ wfences s -> f < length (fences (st_of s)).
Proof.
  intros Hf Hin. pose proof (i_pending _ Hf) as Hp. unfold pending in Hp. rewrite list.Forall_forall in Hp.
  destruct (Hp f) as (fence & E & _); [apply elem_of_app; by left|]. by eapply lookup_lt_Some.
Qed.

Lemma advance_begin_end s i old kind handle n who :
  mob_inv s -> OwnershipFence.inv (mach s) -> mcalls s !! i = Some old ->
  named old = Some (kind, handle, n) -> res old = [] -> leased_native old = None -> joins old = [] -> (forall n f, ~ guards s old n f) ->
  (forall m, refresher who = Some m -> m = n) -> (forall m, refresh_of old = Some m -> m = n /\ refresher who = Some n) ->
  advances s (mgoto i (begin_end kind handle n who s).1 (begin_end kind handle n who s).2) i.
Proof.
  intros Hinv Hf Hi Hn HR Hl Hj Hg Hwho Hr. pose proof (v_pc _ Hinv _ _ Hi) as Hok. unfold begin_end.
  destruct (session_cleanup kind handle s) as [cleanup s1] eqn:E. cbn [fst snd].
  set (pc' := match kind with BrowsePeers => MTermWait kind handle n who cleanup | _ => MTermClose kind handle n who cleanup end).
  assert (res pc' = res_fence cleanup /\ leased_native pc' = None /\ unplaced pc' = None /\ named pc' = Some (kind, handle, n) /\
    joins pc' = [] /\ over pc' = None /\ lands pc' = false /\ same_refresh pc') as (P1 & P2 & P3 & P4 & P5 & P6 & P7 & P8)
    by (unfold pc'; destruct kind; split_and!; done).
  assert (forall m, refresh_of old = Some m -> refresh_of pc' = Some m) as Hr'.
  { intros m Hm. destruct (Hr m Hm) as [-> Hw]. unfold pc'. by destruct kind; cbn; destruct who. }
  assert (follows old pc' \/ exists f, cleanup = Some f) as [Hfo|[f Ef]].
  { destruct cleanup as [f|]; [right; eauto|]. left. split; rewrite ?P1, ?P2, ?P3, ?P4, ?P7; cbn; intros; tidy; try done. }
  - destruct cleanup as [f|]; [exfalso; apply (not_elem_of_nil (RFence f)); rewrite <- HR; apply Hfo; rewrite P1; cbn; set_solver|].
    assert (s1 = s) as ->. { unfold session_cleanup in E. by destruct (begin_session_cleanup _ _ _) as [[]]; simplify_eq. }
    apply (advance_idle s i old); try done; [by rewrite P6|rewrite P5; intros; tidy|]. split; [by rewrite Hl|]. intros m f Hx. by apply Hg in Hx.
  - rewrite Ef in E. destruct (session_cleanup_spec _ _ _ _ _ E) as (t & Et & Ef' & E1 & E2 & E3 & E4 & E5 & E6 & Hle & Hlen & fence & Efe & Elab).
    assert (forall k, mslab k s1 = mslab k s) as Hk by (intros; unfold mslab; by rewrite E1).
    assert (wfences s1 = wfences s ++ [f]) as Ewf by (unfold wfences; rewrite E5, fmap_app, concat_app; done).
    assert (forall m f', f' = f -> m = n -> guards (mgoto i pc' s1) pc' m f') as Hguard by (intros m f' -> ->; unfold pc'; rewrite Ef; by destruct kind).
    split.
    + apply (moved_goto s s1 i old pc' []); try done.
      * split; unfold mfresh, mentry; rewrite ?E2, ?E4, ?E6, ?Ewf; try done.
        -- intros k h _ Hx _. by rewrite lookup_delete_None; right.
        -- intros g _ Hx. apply elem_of_app. by left.
        -- intros m nv Em. by exists nv.
        -- intros k. rewrite Hk. lia.
        -- intros k h m _. by rewrite Hk.
        -- intros k h m _. rewrite Hk. by left.
      * intros r Hx. tidy.
      * intros Heff. pose proof (pc_stable s _ [] _ Heff (fun r _ Hx => not_elem_of_nil r Hx) Hok) as [K1 K2 K3 K4 K5 K6 K7 K8 K9 K10].
        split; rewrite ?P1, ?P2, ?P3, ?P4, ?P5, ?P6, ?P7, ?Ef; try done.
        -- cbn. intros id Hx. set_solver.
        -- cbn. intros k h Hx. set_solver.
        -- cbn. intros g Hx. change (g ∈ wfences s1). rewrite Ewf. set_solver.
        -- intros k h m [Hx|[? _]]; [|done]. apply (K5 k h m). left. congruence.
        -- rewrite <- Hn. done.
        -- intros m j Hx. tidy.
      * rewrite P1, Ef. cbn. intros r Hx. apply list_elem_of_singleton in Hx as ->. right. intros j pc Hpc Hx.
        apply (k_fence _ _ (v_pc _ Hinv _ _ Hpc)) in Hx. apply wfence_old in Hx; [lia|done].
      * by rewrite P3.
      * intros k h m. unfold mentry. rewrite Hk. by left.
      * intros k h t'. rewrite E6, lookup_delete_Some. intros [_ ?]. by left.
      * intros m nv j. rewrite E2. intros Em Ej. left. by exists nv.
    + apply (transfer_goto s s1 i old); try done.
      * split; [by rewrite Hl|]. intros m g Hx. by apply Hg in Hx.
      * intros k h t' m nv Ht Em Env Ek Eo. rewrite E6. destruct (decide ((kind, handle) = (k, h))) as [[= <- <-]|Hne]; [|left; by rewrite lookup_delete_ne].
        right; right. destruct (k_named _ _ Hok _ _ _ Hn) as [_ Hu]. pose proof (Hu _ Em) as ->.
        exists i, pc', f, nv, fence. split_and!; [by apply (goto_at i pc' s1 (mcalls s) old)|by apply Hguard|lia|by cbn; rewrite E2|done|congruence].
      * intros m Em [? Em']. rewrite E2 in Em'. congruence.
      * intros id l. rewrite E4. intros El. by exists l.
Qed.

(** ** Every section *)

Lemma held_over s held closed n : mob_inv s -> mapM (held_outcome s) held = Some closed ->
  (forall m j, (m, j) ∈ joins (MRetire (mkRetirement [] [] []) [] held) -> refreshes s m j) -> n ∈ held.*1 -> over_native s n.
Proof.
  intros Hinv Hm Hj Hn. apply list_elem_of_fmap in Hn as ([m o] & -> & Hin). apply mapM_Some in Hm.
  apply list_elem_of_lookup_1 in Hin as [x Hx]. destruct (Forall2_lookup_l _ _ _ _ _ Hm Hx) as (oc & _ & Ho).
  unfold held_outcome in Ho. cbn in *. destruct o as [join|]; [|done]. eapply wait_over; [done|done|]. intros j ->. apply Hj.
  apply list_elem_of_bind. exists (m, Some (Some j)). split; [cbn; set_solver|]. by eapply list_elem_of_lookup_2.
Qed.

Lemma goes_advances s i old p :
  mob_inv s -> OwnershipFence.inv (mach s) -> (forall id l, leases (mach s) !! id = Some l -> l_id l = id) ->
  mcalls s !! i = Some old -> goes_on s old p -> advances s (mgoto i p.1 p.2) i.
Proof.
  intros Hinv Hf Hid Hi Hg.
  pose proof (goes_quiet s i old p Hinv Hi Hg) as Hq. pose proof (goes_start s i Hinv Hid old p Hi Hg) as Hst.
  destruct Hg as [Hg|Hg|Hg|Hg|Hg]; destruct Hg; try (by apply Hq); try (by apply Hst); clear Hq Hst; cbn [fst snd].
  - apply (advance_native s i (MInsert BrowsePeers id n)); adv.
  - by apply advance_insert.
  - by apply advance_spawn.
  - by apply advance_slot.
  - by apply (advance_track s i kind id).
  - by apply advance_undo.
  - apply (advance_begin_end s i (MEnd handle n)); try done; [by intros ? ? []|cbn; congruence|cbn; naive_solver].
  - apply (advance_idle s i (MNext kind handle n)); adv.
  - apply (advance_begin_end s i (MNext kind handle n)); try done. by intros ? ? [].
  - by apply advance_term_remove.
  - pose proof (v_pc _ Hinv _ _ Hi) as Hok.
    apply (advance_waits s i (MFinish who (Some f) native_outcome) _ (mkRetirement [] [] [f]) l1 l2); try done.
    + cbn. set_solver.
    + intros n Hn. by apply (k_over _ _ Hok).
  - by apply advance_close_remove.
  - by apply advance_prepare.
  - by apply advance_take.
  - pose proof (v_pc _ Hinv _ _ Hi) as Hok. apply (advance_waits s i (MRetire r [] held) _ r l1 l2); try done.
    + cbn. intros f Hx. apply elem_of_app. left. by apply list_elem_of_fmap_2.
    + cbn. intros n f [_ [Hn|(t & Ht & _)]]; [|tidy]. eapply held_over; [done|done| |done]. apply (k_joins _ _ Hok).
Qed.

(** ** Commands that begin, and what happens elsewhere *)

Definition with_call (o : option MobilePc) (s : Mobile) : Mobile := match o with Some pc => mcall pc s | None => s end.

Lemma advance_call s s1 o :
  mob_inv s -> mcalls s1 = mcalls s -> mslabs s1 = mslabs s -> natives_le (natives s) (natives s1) -> length (natives s1) = length (natives s) ->
  slots_le s s1 -> (forall id l, leases (mach s) !! id = Some l -> leases (mach s1) !! id = Some l) ->
  (forall k t, sessions (st_of s1) !! k = Some t -> sessions (st_of s) !! k = Some t) ->
  (forall f, f ∈ wfences s -> f ∈ wfences s1) -> cells_le (st_of s) (st_of s1) ->
  (forall id l, leases (mach s1) !! id = Some l -> leases (mach s) !! id = Some l \/ since l = length (fences (st_of s1))) ->
  (forall k h t n nv, sessions (st_of s) !! (k, h) = Some t -> mentry s k h = Some n -> natives s !! n = Some nv ->
    nv_kind nv = k -> t_owner t = nv_owner nv ->
    sessions (st_of s1) !! (k, h) = Some t \/ guarded (with_call o s1) n (length (fences (st_of s1)))) ->
  (forall pc, o = Some pc -> (eff s (with_call o s1) [] -> pc_ok (with_call o s1) pc) /\ unplaced pc = None /\ forall r, r ∈ res pc -> free s r) ->
  advances s (with_call o s1) (length (mcalls s)).
Proof.
  intros Hinv Hc Es Hn Hlen Hsl Hl Hse Hw Hle Hls Hg Ho. set (s' := with_call o s1) in *.
  assert (forall k, mslab k s1 = mslab k s) as Hk by (intros; unfold mslab; by rewrite Es).
  assert (mach s' = mach s1 /\ mslabs s' = mslabs s1 /\ natives s' = natives s1) as (M1 & M2 & M3) by (by destruct o).
  assert (forall j pc, mcalls s' !! j = Some pc -> mcalls s !! j = Some pc \/ (j = length (mcalls s) /\ o = Some pc)) as Hold.
  { intros j pc. destruct o as [pc0|]; cbn; rewrite Hc; [|by left]. rewrite lookup_app_Some, list_lookup_singleton_Some.
    intros [?|(? & ? & <-)]; [by left|right; split; [lia|done]]. }
  assert (forall j pc, mcalls s !! j = Some pc -> mcalls s' !! j = Some pc) as Hkeep.
  { intros j pc Hj. destruct o; cbn; rewrite Hc; [by apply lookup_app_l_Some|done]. }
  assert (mcalls s !! length (mcalls s) = None) as Hnone by (by apply lookup_ge_None).
  assert (forall k, mslab k s' = mslab k s) as Hk' by (intros; unfold mslab; by rewrite M2, Es).
  assert (eff s s' []) as He.
  { split; unfold mfresh, mentry, wfences; rewrite ?M1, ?M3; try done; eauto.
    - intros k h _ E _. destruct (sessions (st_of s1) !! (k, h)) eqn:E'; [|done]. apply Hse in E'. congruence.
    - intros k. rewrite Hk'. lia.
    - intros k h n _. by rewrite Hk'.
    - intros k h n _. rewrite Hk'. by left.
    - intros n j (pc & Hj & Hr). exists pc. eauto. }
  split; split; rewrite ?M1, ?M3; try done.
  - exists []. split; [done|]. intros r Hr. tidy.
  - intros j pc Hne Hj. destruct (Hold _ _ Hj) as [?|[-> _]]; [by left|done].
  - intros pc Hj. destruct (Hold _ _ Hj) as [?|[_ E]]; [congruence|]. by apply (Ho pc E).
  - intros pc r Hj Hr. destruct (Hold _ _ Hj) as [?|[_ E]]; [congruence|]. right. by apply (Ho pc E).
  - intros pc k n Hj Hu. destruct (Hold _ _ Hj) as [?|[_ E]]; [congruence|]. destruct (Ho pc E) as (_ & ? & _). congruence.
  - intros k h n. unfold mentry. rewrite Hk'. by left.
  - intros k h t E. left. auto.
  - intros n nv j E Ej. left. by eapply Hsl.
  - congruence.
  - intros j pc _. apply Hkeep.
  - intros k h t n nv H1 H2 H3 H4 H5. destruct (Hg _ _ _ _ _ H1 H2 H3 H4 H5); auto.
  - congruence.
  - intros n E [nv E']. apply lookup_lt_Some in E'. apply lookup_ge_None in E. lia.
  - intros id l E. destruct (Hls _ _ E); [left; eauto|by right].
Qed.

(** Only a registration or the state of the fences changes. *)
Lemma advance_env s s1 :
  mob_inv s -> mcalls s1 = mcalls s -> mslabs s1 = mslabs s -> natives_le (natives s) (natives s1) -> length (natives s1) = length (natives s) ->
  slots_le s s1 -> leases (mach s1) = leases (mach s) -> sessions (st_of s1) = sessions (st_of s) -> waiting (mach s1) = waiting (mach s) ->
  cells_le (st_of s) (st_of s1) -> advances s s1 (length (mcalls s)).
Proof.
  intros Hinv Hc Es Hn Hlen Hsl El Ese Ew Hle. apply (advance_call s s1 None); try done; unfold wfences; rewrite ?El, ?Ese, ?Ew; try done.
  - by left.
  - by left.
Qed.

Lemma env_advances s s' : mob_inv s -> menv s s' -> advances s s' (length (mcalls s)).
Proof.
  intros Hinv Hs. destruct Hs as [h st Hin Ha|n Hn|n nv outcome En Ecl Ee|l1 outcome f fs l2 Hf|l1 outcome f fs l2 Hf].
  - assert (same_starts (st_of s) st /\ fences st = fences (st_of s) /\ sessions st = sessions (st_of s)) as (Hs & Hfe & Hse).
    { clear -Ha. unfold activate_endpoint in Ha. case_match; by simplify_eq. }
    apply advance_env; try done; [apply natives_le_refl|by apply slots_refl|]. apply cells_le_same; [done|apply Hs].
  - apply advance_env; try done; [by apply natives_le_alter|by apply length_alter|by apply slots_alter|apply cells_le_refl].
  - apply advance_env; try done; [apply natives_le_alter; apply nv_end_le|by apply length_alter|by apply slots_alter|apply cells_le_refl].
  - destruct (fence_set_same f outcome (st_of s)) as (E & _).
    apply advance_env; try done; [apply natives_le_refl|by apply slots_refl|apply fence_set_le].
  - destruct (fence_remove_same f (st_of s)) as (E & _).
    apply advance_env; try done; [apply natives_le_refl|by apply slots_refl|].
    cbn. unfold fence_remove. destruct (fences (st_of s) !! f); [|apply cells_le_refl]. case_bool_decide; [by apply cells_le_same|apply cells_le_refl].
Qed.

(** A start begins. *)
Lemma start_begins s h label kind l st :
  mob_inv s -> order_inv (mach s) ->
  begin_peer_start h label (st_of s) = Some (Some l, st) \/ begin_webview_start label (st_of s) = Some (Some l, st) ->
  advances s (mcall (MBarrier kind (l_id l)) (set_mach (with_lease st (<[l_id l := l]> (leases (mach s))) (mach s)) s)) (length (mcalls s)).
Proof.
  intros Hinv Hord Hb. apply begin_start_insert in Hb as (owner & _ & _ & Hi).
  destruct (webview_entry_spec label (st_of s)) as (_ & _ & Hs & Hst & Hnx & _ & _ & Hfe & _).
  set (st1 := (webview_entry label (st_of s)).2) in *.
  destruct (grows_insert_start _ _ _ _ _ Hi) as (Hle & _).
  assert (sessions st = sessions (st_of s) /\ l_id l = next_start (st_of s) /\ l_active l = true /\ since l = length (fences st)) as (E1 & E2 & E3 & E4).
  { unfold insert_start in Hi. destruct (checked_add _ _); [|done]. injection Hi as <- <-. cbn. split_and!; try done; congruence. }
  assert (forall id l', leases (mach s) !! id = Some l' -> id <> l_id l) as Hne by (intros id l' E; apply (o_ids _ Hord) in E; lia).
  assert (cells_le (st_of s) st) as Hle' by (eapply cells_le_trans; [apply (grows_cells _ _ (entry_cells label (st_of s)))|done]).
  refine (advance_call s (set_mach (with_lease st (<[l_id l := l]> (leases (mach s))) (mach s)) s) (Some (MBarrier kind (l_id l))) _ _ _ _ _ _ _ _ _ _ _ _ _); try done.
  - apply natives_le_refl.
  - by apply slots_refl.
  - intros id l' E. cbn. rewrite lookup_insert_ne; [done|]. apply not_eq_sym. by eapply Hne.
  - cbn. by rewrite E1.
  - intros id l'. cbn. intros [[_ <-]|[_ ?]]%lookup_insert_Some; [by right|by left].
  - cbn. rewrite E1. by left.
  - intros pc [= <-]. split_and!; [|done|].
    + intros _. split; [|set_solver|set_solver|done| |done|done|set_solver|done|done].
      * cbn. intros id Hx. apply list_elem_of_singleton in Hx as [= ->]. exists l. by rewrite lookup_insert_eq.
      * by intros k h' n [?|[? ?]].
    + cbn. intros r Hr. apply list_elem_of_singleton in Hr as ->. intros j pc Hj Hr. destruct (held_lease _ _ _ _ Hinv Hj Hr) as (l' & E & _).
      by apply Hne in E.
Qed.

(** A retirement begins. *)
Lemma retire_begins s p r st :
  mob_inv s -> owners_ok (st_of s) -> OwnershipFence.inv (mach s) -> retires p (st_of s) r st ->
  advances s (retire_with r st s) (length (mcalls s)).
Proof.
  intros Hinv [Hok _] Hf Hr. destruct (retires_drains _ _ _ _ Hr) as [Dt Dk]. destruct (retires_fenced _ _ _ _ Hr) as (_ & Hfs & _).
  destruct (retires_published _ _ _ _ Hr) as [(Hle & _) [_ Hpub]]. rewrite list.Forall_forall in Hpub.
  set (s1 := set_mach (mkMachine st (leases (mach s)) (waiting (mach s) ++ [r]) (finishing (mach s))) s).
  assert (wfences s1 = wfences s ++ r_cleanups r) as Ewf by (unfold wfences; cbn; rewrite fmap_app, concat_app; cbn; by rewrite app_nil_r).
  assert (forall t, t ∈ r_sessions r -> sessions (st_of s) !! (t_kind t, t_handle t) = Some t /\ p (t_owner t) = true) as Htaken.
  { intros t Ht. apply Dt in Ht as (k & E & Hp). destruct (Hok _ _ E) as [-> _]. done. }
  refine (advance_call s s1 (Some (MRetire r (r_sessions r) [])) _ _ _ _ _ _ _ _ _ _ _ _ _); try done.
  - apply natives_le_refl.
  - by apply slots_refl.
  - intros k t E. by apply Dk in E as [? _].
  - intros f. rewrite Ewf, elem_of_app. by left.
  - by left.
  - intros k h t n nv Et En Env Ek Eo. destruct (p (t_owner t)) eqn:Ep; [|left; by apply Dk]. right.
    destruct (Hfs _ _ Et Ep) as (f & Hin & fence & Ef & El & _). destruct (Hok _ _ Et) as [[= -> ->] _].
    exists (length (mcalls s)), (MRetire r (r_sessions r) []), f, nv, fence. split_and!; try done.
    + cbn. by rewrite lookup_app_r, Nat.sub_diag by lia.
    + cbn. split; [done|]. right. exists t. split; [|done]. apply Dt. by eexists.
    + by eapply lookup_lt_Some.
    + congruence.
  - intros pc [= <-]. split_and!; [|done|].
    + intros _. split; [| | |done| |done|done| |done|done].
      * cbn. intros id Hx. set_solver.
      * intros k h Hx. cbn in Hx. apply elem_of_app in Hx as [Hx|Hx]; [set_solver|]. apply list_elem_of_fmap in Hx as (t & [= -> ->] & Ht).
        destruct (Htaken t Ht) as [E Ep]. split; [|by eapply (v_tracked _ Hinv)].
        destruct (sessions st !! (t_kind t, t_handle t)) as [t'|] eqn:E'; [|done]. apply Dk in E' as [E' Ep']. congruence.
      * intros f Hx. cbn in Hx. change (f ∈ wfences s1). rewrite Ewf. set_solver.
      * by intros k h n [?|[? ?]].
      * intros n j Hx. cbn in Hx. tidy.
    + intros x Hx j pc Hj Hr'. cbn in Hx. apply elem_of_app in Hx as [Hx|Hx]; apply list_elem_of_fmap in Hx as (y & -> & Hy).
      * apply Hpub in Hy as [Hge _]. apply (k_fence _ _ (v_pc _ Hinv _ _ Hj)) in Hr'. apply wfence_old in Hr'; [lia|done].
      * destruct (Htaken _ Hy) as [E _]. destruct (k_claim _ _ (v_pc _ Hinv _ _ Hj) _ _ Hr'). congruence.
Qed.

(** A close begins. *)
Lemma close_begins s kind handle :
  mob_inv s -> OwnershipFence.inv (mach s) -> advances s (begin_close kind handle s) (length (mcalls s)).
Proof.
  intros Hinv Hf. unfold begin_close. destruct (session_cleanup kind handle s) as [[f|] s1] eqn:E.
  2: { assert (s1 = s) as -> by (unfold session_cleanup in E; by destruct (begin_session_cleanup _ _ _) as [[]]; simplify_eq).
       apply (advance_call s s (Some (MCloseGet kind handle))); try done; [apply natives_le_refl|by apply slots_refl|apply cells_le_refl|by left|by left|].
       intros pc [= <-]. split_and!; [|done|cbn; intros r Hr; tidy]. intros _. split; [set_solver|set_solver|set_solver|done| |done|done|set_solver|done|done].
       by intros k h n [?|[? ?]]. }
  destruct (session_cleanup_spec _ _ _ _ _ E) as (t & Et & Ef' & E1 & E2 & E3 & E4 & E5 & E6 & Hle & Hlen & fence & Efe & Elab).
  assert (forall k, mslab k s1 = mslab k s) as Hk by (intros; unfold mslab; by rewrite E1).
  assert (wfences s1 = wfences s ++ [f]) as Ewf by (unfold wfences; rewrite E5, fmap_app, concat_app; done).
  apply (advance_call s s1 (Some (MCloseRemove kind handle f))); try done; rewrite ?E2, ?E4, ?E6; try done.
  - apply natives_le_refl.
  - by apply slots_refl.
  - intros k t'. rewrite lookup_delete_Some. by intros [_ ?].
  - intros g. rewrite Ewf, elem_of_app. by left.
  - by left.
  - intros k h t' n nv Ht En Env Ek Eo. destruct (decide ((kind, handle) = (k, h))) as [[= <- <-]|Hne]; [|left; by rewrite lookup_delete_ne].
    right. exists (length (mcalls s)), (MCloseRemove kind handle f), f, nv, fence. split_and!; [| |lia|by cbn; rewrite E2|done|congruence].
    + cbn. by rewrite E3, lookup_app_r, Nat.sub_diag by lia.
    + split; [done|]. unfold mentry in *. change (entries (mslab kind s1) !! handle = Some n). by rewrite Hk.
  - intros pc [= <-]. split_and!; [|done|].
    + intros _. split; [set_solver| | |done| |done|done|set_solver|done|done].
      * cbn. intros k h Hx. assert (k = kind /\ h = handle) as [-> ->] by set_solver. rewrite E6, lookup_delete_eq. split; [done|].
        unfold mfresh. change (handle < next (mslab kind s1))%Z. rewrite Hk. by eapply (v_tracked _ Hinv).
      * cbn. intros g Hx. change (g ∈ wfences s1). rewrite Ewf. set_solver.
      * by intros k h n [?|[? ?]].
    + cbn. intros r Hr j pc Hj Hx. apply elem_of_cons in Hr as [->|Hr]; [|apply list_elem_of_singleton in Hr as ->].
      * apply (k_fence _ _ (v_pc _ Hinv _ _ Hj)) in Hx. apply wfence_old in Hx; [lia|done].
      * destruct (k_claim _ _ (v_pc _ Hinv _ _ Hj) _ _ Hx). congruence.
Qed.

Lemma begins_advances s s' :
  mob_inv s -> owners_ok (st_of s) -> OwnershipFence.inv (mach s) -> order_inv (mach s) -> mbegins s s' -> advances s s' (length (mcalls s)).
Proof.
  intros Hinv Hok Hf Hord Hb.
  destruct Hb as [kind h label l st _ Hb|kind label l st _ Hb|h label st Hb|kind handle n _ Hg|kind handle|h s2 Hr|b label s2 Hr|s2 Hr].
  - eapply (start_begins s h label); [done|done|by left].
  - eapply (start_begins s 0%Z label); [done|done|by right].
  - apply begin_start_insert in Hb. destruct (webview_entry_spec label (st_of s)) as (_ & _ & Hs & _).
    assert (sessions st = sessions (st_of s) /\ cells_le (st_of s) st) as [Ese Hle].
    { destruct Hb as [-> | ->]; [split; [done|apply cells_le_refl]|]. split; [done|apply (grows_cells _ _ (entry_cells label (st_of s)))]. }
    apply advance_env; try done; [apply natives_le_refl|by apply slots_refl].
  - refine (advance_call s s (Some (MNext kind handle n)) _ _ _ _ _ _ _ _ _ _ _ _ _); try done;
      [apply natives_le_refl|by apply slots_refl|apply cells_le_refl|by left|by left|].
    change (mentry s kind handle = Some n) in Hg. destruct (v_entry _ Hinv _ _ _ Hg) as (Hlt & Hnv & _).
    intros pc [= <-]. split_and!; [|done|cbn; intros r Hr; tidy]. intros _. split; cbn; intros; tidy; try done.
    + destruct H as [[= <- <- <-]|[? ?]]; [|done]. done.
    + split; [done|]. intros n' Hx. change (mentry s k h = Some n') in Hx. congruence.
  - by apply close_begins.
  - unfold retire_endpoint_sessions in Hr. destruct (retire_endpoint h (st_of s)) as [[r st]|] eqn:E; [|done]. injection Hr as <-.
    eapply retire_begins; [done|done|done|by eapply by_endpoint].
  - unfold retire_webview_sessions in Hr. destruct (next_webview b label (st_of s)) as [[r st]|] eqn:E; [|done]. injection Hr as <-.
    eapply retire_begins; [done|done|done|by eapply by_webview].
  - unfold retire_all_sessions in Hr. destruct (retire_all (st_of s)) as [[r st]|] eqn:E; [|done]. injection Hr as <-.
    eapply retire_begins; [done|done|done|by eapply by_all].
Qed.
