(* ===== verification/MobileDiscoveryProps.v ===== *)
(** * Mobile discovery: native starts follow the cleanups before them

    Every run of the mobile commands is a run of the ownership machine; every
    registration of the native side is accounted for; and when a native start is
    issued, no registration of an earlier page or endpoint generation in the
    same WebView is left. *)

From stdpp Require Import base numbers list strings sets gmap fin_maps relations.
From Stdlib Require Import ZArith Lia.
From S2P Require Import Prelude Extern TauriState Ownership OwnershipProps OwnershipFence OwnershipOrder MobileDiscovery MobileDiscoveryFacts MobileDiscoverySteps.

Open Scope string_scope.
Open Scope list_scope.

(** ** Runs of the ownership machine *)

Lemma session_cleanup_machine kind handle s : rtc step (mach s) (mach (session_cleanup kind handle s).2).
Proof.
  unfold session_cleanup. destruct (begin_session_cleanup kind handle (st_of s)) as [[f|] st] eqn:E; [|done].
  by apply rtc_once, (step_session_cleanup _ kind handle).
Qed.

Lemma close_take_mach kind n s : mach (close_take kind n s).2 = mach s.
Proof. by rewrite close_take_native. Qed.

Lemma goes_machine s i old p :
  mob_inv s -> (forall id l, leases (mach s) !! id = Some l -> l_id l = id) -> mcalls s !! i = Some old -> goes_on s old p ->
  rtc step (mach s) (mach p.2).
Proof.
  intros Hinv Hid Hi Hg. pose proof (v_pc _ Hinv _ _ Hi) as Hok.
  assert (forall id l, RLease id ∈ res old -> leases (mach s) !! id = Some l -> l_active l = true) as Hact.
  { intros id l Hr E. destruct (k_lease _ _ Hok _ Hr) as (l' & E' & Ha). congruence. }
  destruct Hg as [Hg|Hg|Hg|Hg|Hg]; destruct Hg; cbn [fst snd]; rewrite ?close_take_mach; try done.
  - unfold drop_start. rewrite (Hid _ _ H). by apply rtc_once, step_drop_lease.
  - unfold drop_start. rewrite (Hid _ _ H). by apply rtc_once, step_drop_lease.
  - unfold drop_start. rewrite (Hid _ _ H). by apply rtc_once, step_drop_lease.
  - unfold drop_start. rewrite (Hid _ _ H). by apply rtc_once, (step_drop_lease (mach s)).
  - unfold arm_start. rewrite (Hid _ _ H). by apply rtc_once, step_arm.
  - unfold insert_native. by destruct (handles_insert n (mslab kind s)) as [[] ?].
  - unfold track_native. assert (l_active l = true) as Ha by (eapply Hact; [|done]; cbn; set_solver).
    destruct (lease_track l kind handle (st_of s)) as [[r l'] st] eqn:E. pose proof E as E0. unfold lease_track in E.
    destruct (owner_is_current (st_of s) (l_owner l)); cbn in E; injection E as <- <- <-; cbn; [|by destruct (mach s)].
    eapply rtc_l; [by eapply (step_lease_track (mach s) id l kind handle)|]. eapply rtc_l; [eapply (step_drop_lease _ id); cbn; by rewrite lookup_insert_eq|].
    unfold drop_lease. cbn. rewrite delete_insert_eq, (Hid _ _ H). apply rtc_refl.
  - by destruct kind.
  - unfold finish_start. rewrite (Hid _ _ H). apply rtc_once, step_finish_cleanup; [done|]. eapply Hact; [|done]. cbn. set_solver.
  - unfold begin_end. pose proof (session_cleanup_machine AdvertisePeer handle s). by destruct (session_cleanup _ _ _).
  - unfold begin_end. pose proof (session_cleanup_machine kind handle s). by destruct (session_cleanup _ _ _).
  - by apply rtc_once, (step_waits_over (mach s) l1 (mkRetirement [] [] [f]) l2 [native_outcome]).
  - unfold prepare_retirement. destruct (handles_remove _ _) as [[n|] m]; [|done]. destruct (close_session_upd (t_kind t) n (set_mslab (t_kind t) m s)) as (f & E & _).
    cbn [snd]. by rewrite E.
  - by apply rtc_once, (step_waits_over (mach s) l1 r l2 closed).
Qed.

Lemma mobile_machine s s' : mob_inv s -> (forall id l, leases (mach s) !! id = Some l -> l_id l = id) ->
  mobile_step s s' -> rtc step (mach s) (mach s').
Proof.
  intros Hinv Hid [s1 Hb|s1 He|i pc pc' s1 Hi Hg].
  - destruct Hb as [kind h label l st _ Hb|kind label l st _ Hb|h label st Hb|kind handle n _ Hg|kind handle|h s2 Hr|b label s2 Hr|s2 Hr]; cbn.
    + by eapply rtc_once, (step_begin_start (mach s) h label (Some l)); left.
    + by eapply rtc_once, (step_begin_start (mach s) 0 label (Some l)); right.
    + by eapply rtc_once, (step_begin_start (mach s) h label None).
    + done.
    + unfold begin_close. pose proof (session_cleanup_machine kind handle s). by destruct (session_cleanup _ _ _) as [[] ?].
    + unfold retire_endpoint_sessions in Hr. destruct (retire_endpoint h (st_of s)) as [[r st]|] eqn:E; [|done]. injection Hr as <-.
      by eapply rtc_once, step_retire_endpoint.
    + unfold retire_webview_sessions in Hr. destruct (next_webview b label (st_of s)) as [[r st]|] eqn:E; [|done]. injection Hr as <-.
      by eapply rtc_once, step_next_webview.
    + unfold retire_all_sessions in Hr. destruct (retire_all (st_of s)) as [[r st]|] eqn:E; [|done]. injection Hr as <-.
      by eapply rtc_once, step_retire_all.
  - destruct He as [h st Hin Ha|n Hn|n nv outcome En Ecl Ee|l1 outcome f fs l2 Hf|l1 outcome f fs l2 Hf]; cbn; try done.
    + by eapply rtc_once, step_activate.
    + by eapply rtc_once, step_finish_fence.
    + by eapply rtc_once, step_remove_fence.
  - by apply (goes_machine s i pc (pc', s1)).
Qed.

(** ** Starts that have passed the barrier *)

Definition past (pc : MobilePc) : option Z := match pc with MArgs _ id => Some id | _ => fst <$> leased_native pc end.

Lemma past_res pc id : past pc = Some id -> RLease id ∈ res pc.
Proof.
  intros H. destruct (leased_native pc) as [[id' n]|] eqn:E; [|destruct pc; cbn in *; simplify_eq; set_solver].
  assert (id' = id) as -> by (destruct pc; cbn in *; congruence). by eapply leased_res.
Qed.

Definition passed (s : Mobile) (id : Z) : Prop :=
  exists l, leases (mach s) !! id = Some l /\ wait_for_cleanup l (st_of s) = Some (Ok tt).

Lemma wait_stable st st' l : cells_le st st' -> wait_for_cleanup l st = Some (Ok tt) -> wait_for_cleanup l st' = Some (Ok tt).
Proof. intros Hle. unfold wait_for_cleanup. destruct (prior_cleanup l); [|done]. by apply le_ok. Qed.

Lemma wait_same l l' st : prior_cleanup l' = prior_cleanup l -> wait_for_cleanup l' st = wait_for_cleanup l st.
Proof. unfold wait_for_cleanup. by intros ->. Qed.

Lemma goes_past s old p id :
  (forall id l, leases (mach s) !! id = Some l -> l_id l = id) -> goes_on s old p -> past p.1 = Some id -> past old = Some id \/ passed s id.
Proof.
  intros Hid [Hg|Hg|Hg|Hg|Hg]; destruct Hg; cbn [fst snd]; try done; try (by left); try (by destruct who).
  - intros [= <-]. right. exists l. split; [done|]. unfold await_start_barrier in H0.
    destruct (wait_for_cleanup l (st_of s)) as [[[]|]|]; [done|done|by destruct timed_out].
  - unfold insert_native. destruct (handles_insert n (mslab kind s)) as [[] ?]; [|by left]. left. by destruct kind.
  - unfold track_native. destruct (lease_track l kind handle (st_of s)) as [[[] ?] ?]; [by destruct kind|]. cbn. rewrite (Hid _ _ H). by left.
  - unfold begin_end. by destruct (session_cleanup AdvertisePeer handle s).
  - unfold begin_end. destruct (session_cleanup kind handle s). by destruct kind.
  - unfold close_remove. by destruct (handles_remove handle (mslab kind s)) as [[] ?].
Qed.

(** What a lease waited for does not change. *)
Lemma goes_prior s old p id l :
  (forall id l, leases (mach s) !! id = Some l -> l_id l = id) -> goes_on s old p -> leases (mach p.2) !! id = Some l ->
  exists l0, leases (mach s) !! id = Some l0 /\ prior_cleanup l = prior_cleanup l0.
Proof.
  intros Hid Hg. assert (leases (mach s) !! id = Some l -> exists l0, leases (mach s) !! id = Some l0 /\ prior_cleanup l = prior_cleanup l0) as Hsame
    by (intros E; by exists l).
  assert (forall k, delete k (leases (mach s)) !! id = Some l -> exists l0, leases (mach s) !! id = Some l0 /\ prior_cleanup l = prior_cleanup l0) as Hdel
    by (intros k [_ E]%lookup_delete_Some; by exists l).
  destruct Hg as [Hg|Hg|Hg|Hg|Hg]; destruct Hg; cbn [fst snd]; rewrite ?close_take_mach; try done; try apply Hdel.
  - cbn. intros [[E <-]|[_ E]]%lookup_insert_Some; [|by exists l]. rewrite (Hid _ _ H) in E. subst. by exists l0.
  - unfold insert_native. by destruct (handles_insert n (mslab kind s)) as [[] ?].
  - unfold track_native. destruct (lease_track l0 kind handle (st_of s)) as [[[] ?] ?]; [apply Hdel|done].
  - by destruct kind.
  - unfold begin_end, session_cleanup. by destruct (begin_session_cleanup AdvertisePeer handle (st_of s)) as [[] ?].
  - unfold begin_end, session_cleanup. by destruct (begin_session_cleanup kind handle (st_of s)) as [[] ?].
  - unfold prepare_retirement. destruct (handles_remove _ _) as [[n|] m]; [|done]. destruct (close_session_upd (t_kind t) n (set_mslab (t_kind t) m s)) as (f & E & _).
    cbn [snd]. by rewrite E.
Qed.

(** ** The invariant *)

Record mobile_inv (s : Mobile) : Prop := mkMobileInv {
  g_reachable : reachable (mach s);
  g_mob : mob_inv s;
  g_custody : custody s;
  g_passed : forall i pc id, mcalls s !! i = Some pc -> past pc = Some id -> passed s id;
  g_none_older : forall n nv, natives s !! n = Some nv -> none_older (mach s) (nv_owner nv);
  g_pairs : forall m n mv nv, natives s !! m = Some mv -> natives s !! n = Some nv -> older (nv_owner mv) (nv_owner nv) -> over_native s m
}.

(** Nothing of an older generation is left when a lease has passed. *)
Lemma passed_alone s id l n nv :
  reachable (mach s) -> mob_inv s -> custody s -> leases (mach s) !! id = Some l -> wait_for_cleanup l (st_of s) = Some (Ok tt) ->
  natives s !! n = Some nv -> older (nv_owner nv) (l_owner l) -> over_native s n.
Proof.
  intros Hr Hm Hc Hl Hw E Ho. destruct (nv_ended nv) as [o|] eqn:En; [exists o; unfold ended_of; by rewrite E|]. exfalso.
  destruct (c_older _ Hc _ _ _ _ E En Hl Ho) as [(i & pc & id' & Hi & Hx)|(i & pc & f & nv' & fence & Hi & Hg & Hlt & E' & Ef & El)].
  - destruct (k_native _ _ (v_pc _ Hm _ _ Hi) _ _ Hx) as (nv' & l' & E' & Hl' & _ & Eo).
    destruct (k_lease _ _ (v_pc _ Hm _ _ Hi) id') as (l2 & Hl2 & Ha); [by eapply leased_res|]. assert (l2 = l') as -> by congruence.
    destruct (o_lease _ (reachable_order _ Hr) _ _ Hl') as (_ & _ & Hs). specialize (Hs Ha).
    eapply (older_starts_over (mach s) id l id'); [done|done|done|exact Hs|]. cbn. congruence.
  - pose proof (reachable_fences _ Hr) as Hf. assert (nv' = nv) as -> by congruence.
    assert (fence_ok (st_of s) f) as Hok by (eapply lease_fences_ok; [done..|]; rewrite El; by apply Ho).
    apply guards_res in Hg. apply (k_fence _ _ (v_pc _ Hm _ _ Hi)) in Hg. pose proof (i_pending _ Hf) as Hp. unfold pending in Hp.
    rewrite list.Forall_forall in Hp. destruct (Hp f) as (fe & Efe & Hno); [apply elem_of_app; by left|].
    unfold fence_ok, fence_outcome in Hok. rewrite Efe in Hok. cbn in Hok. congruence.
Qed.

Lemma passed_alone_starts s id l :
  reachable (mach s) -> leases (mach s) !! id = Some l -> wait_for_cleanup l (st_of s) = Some (Ok tt) -> none_older (mach s) (l_owner l).
Proof.
  intros Hr Hl Hw. split; [by eapply (o_lease _ (reachable_order _ Hr))|]. intros id' q E Ho. by eapply older_starts_over.
Qed.

(** Only a native start makes a registration. *)
Lemma goes_natives s old p : goes_on s old p ->
  length (natives p.2) = length (natives s) \/
  exists kind id l, old = MArgs kind id /\ leases (mach s) !! id = Some l /\ p.2 = add_native (native_new kind l) s.
Proof.
  intros [Hg|Hg|Hg|Hg|Hg]; destruct Hg; cbn [fst snd]; rewrite ?close_take_native; try (by left); try (left; apply length_alter).
  - right. by exists kind, id, l.
  - unfold insert_native. left. destruct (handles_insert n (mslab kind s)) as [[] ?]; cbn; [done|apply length_alter].
  - unfold track_native. left. by destruct (lease_track l kind handle (st_of s)) as [[[] ?] ?].
  - left. unfold undo_native. destruct kind; cbn; try done. apply length_alter.
  - left. unfold begin_end, session_cleanup. by destruct (begin_session_cleanup AdvertisePeer handle (st_of s)) as [[] ?].
  - left. unfold begin_end, session_cleanup. by destruct (begin_session_cleanup kind handle (st_of s)) as [[] ?].
  - left. unfold prepare_retirement. destruct (handles_remove _ _) as [[n|] m]; [|done].
    destruct (close_session_upd (t_kind t) n (set_mslab (t_kind t) m s)) as (f & E & _). cbn [snd]. rewrite E. apply length_alter.
Qed.

Lemma begins_natives s s' : mbegins s s' \/ menv s s' -> length (natives s') = length (natives s) /\
  forall j pc, mcalls s' !! j = Some pc -> mcalls s !! j = Some pc \/ past pc = None.
Proof.
  assert (forall pc (l : list MobilePc) j pc', past pc = None -> (l ++ [pc]) !! j = Some pc' -> l !! j = Some pc' \/ past pc' = None) as Happ.
  { intros pc l j pc' Hp. rewrite lookup_app_Some, list_lookup_singleton_Some. intros [?|(_ & _ & <-)]; auto. }
  intros [Hb|He].
  - destruct Hb as [kind h label l st _ _|kind label l st _ _|h label st _|kind handle n _ _|kind handle|h s2 Hr|b label s2 Hr|s2 Hr];
      try (split; [done|]; intros j pc; apply Happ; done).
    + split; [done|]. by left.
    + unfold begin_close, session_cleanup. destruct (begin_session_cleanup kind handle (st_of s)) as [[] ?]; (split; [done|]); intros j pc; by apply Happ.
    + unfold retire_endpoint_sessions in Hr. destruct (retire_endpoint h (st_of s)) as [[r st]|]; [|done]. injection Hr as <-. split; [done|]. intros j pc. by apply Happ.
    + unfold retire_webview_sessions in Hr. destruct (next_webview b label (st_of s)) as [[r st]|]; [|done]. injection Hr as <-. split; [done|]. intros j pc. by apply Happ.
    + unfold retire_all_sessions in Hr. destruct (retire_all (st_of s)) as [[r st]|]; [|done]. injection Hr as <-. split; [done|]. intros j pc. by apply Happ.
  - destruct He; (split; [try done; apply length_alter|by left]).
Qed.

Lemma older_irrefl o : ~ older o o.
Proof. intros [_ [?|Ho]]; [lia|]. destruct o; [destruct Ho; lia|done]. Qed.

Lemma registrations_inv_step s s' : mobile_inv s -> mobile_step s s' -> mobile_inv s'.
Proof.
  intros [Hr Hm Hc Hp Hno Hpa] Hs. pose proof (reachable_order _ Hr) as Hord. pose proof (reachable_fences _ Hr) as Hf.
  pose proof (reachable_owners _ Hr) as Hok.
  assert (forall id l, leases (mach s) !! id = Some l -> l_id l = id) as Hid by (intros id l E; by apply (o_lease _ Hord) in E as [? _]).
  pose proof (mobile_machine _ _ Hm Hid Hs) as Hsteps. assert (reachable (mach s')) as Hr' by (unfold reachable; by etransitivity).
  assert (exists i, advances s s' i /\
    (forall pc id, mcalls s' !! i = Some pc -> past pc = Some id -> passed s' id) /\
    (length (natives s') = length (natives s) \/ exists kind id l, mcalls s !! i = Some (MArgs kind id) /\
       leases (mach s) !! id = Some l /\ natives s' = natives s ++ [native_new kind l] /\ mach s' = mach s)) as (i & [Hmv Htr] & Hpi & Hnat).
  { destruct Hs as [s1 Hb|s1 He|i pc pc' s1 Hi Hg].
    - exists (length (mcalls s)). split; [by apply begins_advances|]. destruct (begins_natives s s1) as [Hl Hc']; [by left|]. split; [|by left].
      intros pc id Hpc Hx. destruct (Hc' _ _ Hpc) as [E|E]; [|congruence]. apply lookup_lt_Some in E. lia.
    - exists (length (mcalls s)). split; [by apply env_advances|]. destruct (begins_natives s s1) as [Hl Hc']; [by right|]. split; [|by left].
      intros pc id Hpc Hx. destruct (Hc' _ _ Hpc) as [E|E]; [|congruence]. apply lookup_lt_Some in E. lia.
    - exists i. pose proof (goes_advances s i pc (pc', s1) Hm Hf Hid Hi Hg) as Ha. cbn [fst snd] in Ha. split; [done|]. split.
      + intros pc0 id Hpc Hx. cbn in Hpc. assert (pc0 = pc') as -> by (apply list_lookup_insert_Some in Hpc as [(_ & <- & _)|[? _]]; done).
        destruct Ha as [Hmv Htr]. destruct (k_lease _ _ (d_pc _ _ _ Hmv _ Hpc) id) as (l & El & _); [by apply past_res|].
        destruct (goes_prior s pc (pc', s1) id l Hid Hg El) as (l0 & El0 & Epr).
        assert (passed s id) as (l1 & El1 & Hw) by (destruct (goes_past s pc (pc', s1) id Hid Hg Hx); [by eapply Hp|done]).
        assert (l1 = l0) as -> by congruence. exists l. split; [done|]. rewrite (wait_same _ _ _ Epr).
        by apply (wait_stable (st_of s)); [apply (t_cells _ _ _ Htr)|].
      + destruct (goes_natives s pc (pc', s1) Hg) as [?|(kind & id & l & -> & El & E)]; [by left|]. right. exists kind, id, l. cbn in E.
        subst s1. done. }
  destruct (d_eff _ _ _ Hmv) as (R & He & HR).
  assert (mob_inv s') as Hm' by (by eapply mob_inv_moved).
  assert (custody s') as Hc' by (apply (custody_pass s s' i R); [done|done|done|done|by apply reachable_owners|by apply reachable_order|done]).
  assert (forall n nv', natives s' !! n = Some nv' -> n < length (natives s) -> exists nv, natives s !! n = Some nv /\ nv_owner nv' = nv_owner nv) as Hold.
  { intros n nv' E Hlt. destruct (lookup_lt_is_Some_2 _ _ Hlt) as [nv En]. destruct (e_native _ _ _ He _ _ En) as (nv1 & E1 & _ & _ & Eo & _).
    exists nv. split; [done|]. congruence. }
  split; try done.
  - intros j pc id Hj Hx. destruct (decide (j = i)) as [->|Hne]; [by eapply Hpi|].
    destruct (d_other _ _ _ Hmv _ _ Hne Hj) as [Ho|(E & _)]; [|apply past_res in Hx; rewrite E in Hx; tidy].
    destruct (Hp _ _ _ Ho Hx) as (l & El & Hw). exists l. split; [|by eapply wait_stable; [apply Htr|]].
    apply (e_lease _ _ _ He); [|done]. intros Hin. destruct (HR _ Hin) as (old & Hi & Hro).
    by apply Hne, (v_own _ Hm j i pc old (RLease id)); [| |apply past_res|].
  - intros n nv' E. destruct Hnat as [El|(kind & id & l & Hi & Hl & En & Em)].
    + destruct (Hold n nv' E) as (nv & En & ->); [apply lookup_lt_Some in E; lia|]. eapply none_older_steps; [exact Hsteps|done|by eapply Hno].
    + rewrite En in E. apply lookup_app_Some in E as [E|(_ & E)]; [rewrite Em; by eapply Hno|].
      apply list_lookup_singleton_Some in E as [_ <-]. rewrite Em. destruct (Hp i _ id Hi) as (l' & El' & Hw); [done|].
      assert (l' = l) as -> by congruence. by eapply passed_alone_starts.
  - intros m n mv nv E E' Ho. destruct Hnat as [El|(kind & id & l & Hi & Hl & En & Em)].
    + destruct (Hold m mv E) as (mv0 & E0 & Eo); [apply lookup_lt_Some in E; lia|].
      destruct (Hold n nv E') as (nv0 & E0' & Eo'); [apply lookup_lt_Some in E'; lia|]. eapply over_eff; [done|]. eapply Hpa; [done|done|congruence].
    + destruct (Hp i _ id Hi) as (l' & El' & Hw); [done|]. assert (l' = l) as -> by congruence.
      rewrite En in E, E'. apply lookup_app_Some in E as [E|(_ & [_ <-]%list_lookup_singleton_Some)], E' as [E'|(_ & [_ <-]%list_lookup_singleton_Some)].
      * eapply over_eff; [done|]. by eapply Hpa.
      * eapply over_eff; [done|]. by eapply passed_alone.
      * exfalso. destruct (k_lease _ _ (v_pc _ Hm _ _ Hi) id) as (l1 & El1 & Ha); [cbn; set_solver|]. assert (l1 = l) as -> by congruence.
        destruct (o_lease _ Hord _ _ Hl) as (_ & _ & Hs'). destruct (Hno _ _ E') as [_ Hx]. by apply (Hx _ _ (Hs' Ha)).
      * by apply older_irrefl in Ho.
Qed.

Lemma registrations_reachable_inv s : mobile_reachable s -> mobile_inv s.
Proof.
  intros Hr. unfold mobile_reachable in Hr. revert s Hr. apply (rtc_ind_r mobile_inv); [|intros; by eapply registrations_inv_step].
  split; try done.
  - apply rtc_refl.
  - split; [|done]. intros n (nv & E & _). done.
Qed.

(** ** Theorems *)

(** C6. Registrations of different generations never overlap.  Whatever starts,
    polls, closes, page loads and closes of endpoints have happened and however
    they were interleaved, aborted or answered by the native side: once a native
    start was issued for a page, or for an endpoint, every registration that an
    earlier page of the same WebView, or an earlier endpoint under the same
    handle, had asked for there is over (the native side has acknowledged its end
    or refused it), the ones that were in flight when the page went away
    included. *)
Theorem mobile_generations_never_overlap (s : Mobile) (m n : nat) (mv nv : Native) :
  mobile_reachable s -> natives s !! m = Some mv -> natives s !! n = Some nv -> older (nv_owner mv) (nv_owner nv) ->
  is_Some (nv_ended mv).
Proof.
  intros Hr Em En Ho. pose proof (g_pairs _ (registrations_reachable_inv _ Hr) _ _ _ _ Em En Ho) as Hov.
  unfold over_native, ended_of in Hov. by rewrite Em in Hov.
Qed.

(** No registration is lost.  One that the native side has not given up belongs to
    a start that is still at work on it, or is in its slab under a handle that is
    tracked for its owner, who is current; or a close, a poll that has ended or a
    retirement has it in hand and has not finished the fence it published for the
    WebView, so that no later start there can pass. *)
Theorem mobile_registrations_accounted (s : Mobile) (n : nat) (nv : Native) :
  mobile_reachable s -> natives s !! n = Some nv -> nv_ended nv = None ->
  (exists i pc id, mcalls s !! i = Some pc /\ leased_native pc = Some (id, n)) \/
  (exists h t, handles_get h (mslab (nv_kind nv) s) = Some n /\ sessions (owned (mach s)) !! (nv_kind nv, h) = Some t /\
     t_owner t = nv_owner nv /\ owner_is_current (owned (mach s)) (nv_owner nv) = true) \/
  (exists i pc f fence, mcalls s !! i = Some pc /\ guards s pc n f /\ fences (owned (mach s)) !! f = Some fence /\
     f_label fence = owner_label (nv_owner nv) /\ f_outcome fence = None).
Proof.
  intros Hr E Hn. pose proof (registrations_reachable_inv _ Hr) as Hi. pose proof (reachable_owners _ (g_reachable _ Hi)) as Hok.
  destruct (c_live _ (g_custody _ Hi) n) as [Hl|[Ht|Hg]]; [by exists nv|by left|right; left|right; right].
  - pose proof (tracked_current _ _ _ Hok Ht E) as Hcur. destruct Ht as (nv' & h & t & E' & En & Et & Eo). assert (nv' = nv) as -> by congruence.
    by exists h, t.
  - destruct Hg as (i & pc & f & nv' & fence & Hi' & Hg & _ & E' & Ef & El). assert (nv' = nv) as -> by congruence.
    exists i, pc, f, fence. split_and!; try done. apply guards_res in Hg. apply (k_fence _ _ (v_pc _ (g_mob _ Hi) _ _ Hi')) in Hg.
    pose proof (i_pending _ (reachable_fences _ (g_reachable _ Hi))) as Hp. unfold pending in Hp. rewrite list.Forall_forall in Hp.
    destruct (Hp f) as (fe & Efe & Hno); [apply elem_of_app; by left|]. congruence.
Qed.

(** ** Witnesses *)

Lemma step_on s i pc p : mcalls s !! i = Some pc -> goes_on s pc p -> mobile_step s (mgoto i p.1 p.2).
Proof. destruct p. apply ms_goes_on. Qed.

Ltac settle_mobile := match goal with |- rtc _ ?x _ => let y := eval vm_compute in x in change x with y end.
Ltac mob_on i on c := eapply rtc_l; [eapply (step_on _ i); [vm_compute; reflexivity|eapply on, c; try (vm_compute; reflexivity)]|settle_mobile].

(** A page browses; it is reloaded and the new page asks for the same browse while
    the old one is being closed: it waits for the fence and starts then. *)
Definition demo_first : Native := mkNative BrowsePeers 0 (Peer 7 1 "main" 1) true (Some (Ok tt)) false GatePending None.
Definition demo_second : Native := mkNative BrowsePeers 1 (Peer 7 1 "main" 2) false None false GatePending None.

Lemma demo_reload : exists s, mobile_reachable s /\ natives s = [demo_first; demo_second] /\
  mcalls s = [MDone (AHandle 1); MDone ARetired; MStart BrowsePeers 1 1 true].
Proof.
  eexists. split; [|split].
  - unfold mobile_reachable.
    eapply rtc_l; [eapply ms_env, (e_activate _ 7); [intros o Ho; vm_compute in Ho; done|vm_compute; reflexivity]|settle_mobile].
    eapply rtc_l; [eapply ms_begins, (b_peer_start _ BrowsePeers 7 "main"); vm_compute; reflexivity|settle_mobile].
    mob_on 0 on_start (fun s kind id l => g_barrier s kind id l false).
    mob_on 0 on_start g_native_start.
    mob_on 0 on_start g_native_started.
    mob_on 0 on_start g_claimed.
    mob_on 0 on_start g_insert.
    mob_on 0 on_start g_track.
    eapply rtc_l; [eapply ms_begins, (b_next_webview _ true "main"); vm_compute; reflexivity|settle_mobile].
    eapply rtc_l; [eapply ms_begins, (b_peer_start _ BrowsePeers 7 "main"); vm_compute; reflexivity|settle_mobile].
    mob_on 1 on_retire g_prepare.
    eapply rtc_l; [eapply ms_env, (e_ended _ 0 _ (Ok tt)); vm_compute; reflexivity|settle_mobile].
    mob_on 1 on_retire (fun s r held => g_retired s r held [Ok tt] [] []).
    eapply rtc_l; [eapply ms_env, (e_finish_fence _ []); vm_compute; reflexivity|settle_mobile].
    mob_on 2 on_start (fun s kind id l => g_barrier s kind id l false).
    mob_on 2 on_start g_native_start.
    apply rtc_refl.
  - vm_compute. reflexivity.
  - vm_compute. reflexivity.
Qed.

Lemma mobile_generations_never_overlap_witness :
  exists s, mobile_reachable s /\ natives s !! 0 = Some demo_first /\ natives s !! 1 = Some demo_second /\ is_Some (nv_ended demo_first).
Proof.
  destruct demo_reload as (s & Hr & Hn & _). exists s.
  assert (natives s !! 0 = Some demo_first) as H0 by (by rewrite Hn). assert (natives s !! 1 = Some demo_second) as H1 by (by rewrite Hn).
  split_and!; [done..|]. apply (mobile_generations_never_overlap s 0 1 demo_first demo_second Hr H0 H1). split; [done|]. left. cbn. lia.
Defined.

(** The page has gone; its browse is about to be closed. *)
Definition demo_open : Native := mkNative BrowsePeers 0 (Peer 7 1 "main" 1) false None false GatePending None.

Lemma demo_retiring : exists s, mobile_reachable s /\ natives s = [demo_open] /\
  mcalls s = [MDone (AHandle 1); MRetire (mkRetirement [mkTracked BrowsePeers 1 (Peer 7 1 "main" 1)] [] [0]) [mkTracked BrowsePeers 1 (Peer 7 1 "main" 1)] []] /\
  sessions (owned (mach s)) = ∅.
Proof.
  eexists. split; [|split_and!].
  - unfold mobile_reachable.
    eapply rtc_l; [eapply ms_env, (e_activate _ 7); [intros o Ho; vm_compute in Ho; done|vm_compute; reflexivity]|settle_mobile].
    eapply rtc_l; [eapply ms_begins, (b_peer_start _ BrowsePeers 7 "main"); vm_compute; reflexivity|settle_mobile].
    mob_on 0 on_start (fun s kind id l => g_barrier s kind id l false).
    mob_on 0 on_start g_native_start.
    mob_on 0 on_start g_native_started.
    mob_on 0 on_start g_claimed.
    mob_on 0 on_start g_insert.
    mob_on 0 on_start g_track.
    eapply rtc_l; [eapply ms_begins, (b_next_webview _ true "main"); vm_compute; reflexivity|settle_mobile].
    apply rtc_refl.
  - vm_compute. reflexivity.
  - vm_compute. reflexivity.
  - vm_compute. reflexivity.
Qed.

Lemma mobile_registrations_accounted_witness :
  exists s, mobile_reachable s /\ natives s !! 0 = Some demo_open /\
    exists i pc f fence, mcalls s !! i = Some pc /\ guards s pc 0 f /\ fences (owned (mach s)) !! f = Some fence /\
      f_label fence = "main" /\ f_outcome fence = None.
Proof.
  destruct demo_retiring as (s & Hr & Hn & Hc & Hs). exists s. assert (natives s !! 0 = Some demo_open) as H0 by (by rewrite Hn).
  split_and!; [done..|].
  destruct (mobile_registrations_accounted s 0 demo_open Hr H0 eq_refl) as [(i & pc & id & Hi & Hl)|[(h & t & _ & Ht & _)|(i & pc & f & fence & H1 & H2 & H3 & H4 & H5)]].
  - exfalso. rewrite Hc in Hi. destruct i as [|[|i]]; cbn in Hi; simplify_eq; cbn in Hl; done.
  - exfalso. by rewrite Hs, lookup_empty in Ht.
  - by exists i, pc, f, fence.
Defined.
